(* ===== verification/_CoqProject ===== *)
-Q . S2P
Prelude.v
WorkMath.v
Compress.v
ChainHash.v
Wire.v
Genesis.v
BlockNode.v
ChainView.v
ChainIO.v
ColdRead.v
Locate.v
Difficulty.v
BlockIndex.v
Merkle.v
Threshold.v
Deployment.v
Script.v
UtxoSet.v
UtxoCache.v
UtxoView.v
Sanity.v
Connect.v
ConnectSafe.v
ScriptNum.v
ScriptStack.v
SigEncoding.v
Context.v
MedianTime.v
WriteQueue.v
QueueRuns.v
Orphans.v
Chain.v
ChainSpec.v
ChainRuns.v
ChainControl.v
ControlRuns.v
Treap.v
TreapTree.v
MutableTreap.v
ImmutableTreap.v
TreapIter.v
TreapRuns.v
