(* ===== verification/Prelude.v ===== *)
(** * Verification of the Sugarchain Go node

    A shallow embedding of the chain core of [src/backend], a btcd fork whose own
    additions are the SugarShield difficulty, a header window that keeps only the
    most recent block nodes in memory, cold reads that rebuild evicted nodes from
    the database, and an incremental UTXO cache with an asynchronous writer.

    ** Program parts and files

    - [Prelude]: panics and fuel (the [run] monad), state and errors (the [io]
      monad), machine integers with their wrap-around, bytes, endianness, slices.
    - [WorkMath] ([blockchain/internal/workmath]): compact targets and work.
    - [Compress] ([blockchain/compress.go]): variable-length integers, script,
      amount and output compression.  Public-key parsing (package btcec) is the
      class [SecKeys], with the documented laws of parsing and serialising.
    - [ChainHash] ([chainhash]): SHA-256 as an executable function, hashes and
      their text form.
    - [Wire] ([wire/common.go], [blockheader.go], [msgtx.go]): variable-length
      integers and strings, headers, transactions.  The decoder's script slab is
      a shared array whose slices are moved after reading, as in the code.
    - [Genesis] ([chaincfg/sugar_genesis.go]): the genesis blocks and the start-up
      check of their hashes.
    - [BlockNode] (first half of [blockchain/blockindex.go], [interfaces.go]):
      nodes in a heap of addresses, the ancestor skip list, the past median time
      over the [HeaderCtx] interface (a class).
    - [ChainView] ([blockchain/chainview.go]): the window of nodes by height.
    - [ChainIO] (part of [blockchain/chainio.go]): block rows, the hash and height
      index and the chain-state records over buckets as finite maps.
    - [ColdRead] ([blockchain/coldread.go]): the cache of rebuilt nodes, range
      queries, and the repair of severed parent links.
    - [Difficulty] ([blockchain/difficulty.go]): the retarget, over any
      [HeaderCtx] and over the windowed [BlockChain].
    - [BlockIndex] (second half of [blockchain/blockindex.go], node rows of
      [writequeue.go]): the index map, the dirty set, the flush and [evictWindow].
    - [Merkle] ([blockchain/merkle.go], [rolling_merkle.go]): the array
      construction and the rolling accumulator.
    - [Threshold], [Deployment] ([thresholdstate.go], [versionbits.go],
      [chaincfg/deployment_time_frame.go]): the BIP 9 state machine with its
      caches over the windowed chain, and its reference on the whole tree.
    - [Script] ([txscript/tokenizer.go], [script.go], [standard.go]): parsing,
      script classes and signature operation counts.
    - [UtxoSet] ([chainio.go], [utxoviewpoint.go]): UTXO entries, their rows and
      the spend journal.
    - [UtxoCache] ([utxocache.go], [sizehelper.go]): the slice of maps, fetching,
      connecting blocks, deltas for the writer, and both kinds of flush.
    - [UtxoView] ([utxoviewpoint.go]): views, connecting and disconnecting blocks.
    - [Sanity] ([validate.go], [weight.go], [merkle.go], [chaincfg]): checks of
      transactions and blocks that need no chain, weight, subsidy.
    - [Connect] and [ConnectSafe] ([validate.go], [chain.go]): BIP 30, inputs, fees,
      sequence locks and [checkConnectBlock], and its theorems.
    - [ScriptNum] ([txscript/scriptnum.go], [scriptbuilder.go], [validate.go]):
      script numbers, the builder and coinbase heights.
    - [ScriptStack] ([txscript/stack.go], [error.go]): the stacks of the script engine,
      with a weakest precondition for their monad.
    - [SigEncoding] ([txscript/engine.go], [btcec/pubkey.go]): the checks of the encoding
      of signatures and public keys.
    - [Context] ([validate.go], [checkpoints.go]): checks of headers and blocks
      against their position in the chain.
    - [MedianTime] ([mediantime.go]): the clock adjusted by the peers.
    - [WriteQueue] ([writequeue.go], records of [chainio.go]): the asynchronous writer;
      its goroutine, [enqueue], the barriers and [stop] are a step relation over the
      channel, the stop flag and the database.  [QueueRuns] has an executable
      scheduler for that relation, and concrete runs.
    - [Orphans] (orphan pool of [chain.go]): blocks whose parent is unknown.
    - [Chain] ([process.go], [accept.go], [chain.go], [FlushUtxoCache]): the state of
      [BlockChain] over all components; processing blocks and headers, the orphans
      that follow a block, chain selection, connecting, disconnecting and
      reorganising.  The writer may commit a batch between any two transactions of
      the chain; an oracle in the state says when.  [ChainSpec] has the theorems
      about it and [ChainRuns] concrete runs.
    - [ChainControl] ([InvalidateBlock], [ReconsiderBlock], [InvalidateHeaderChain],
      [RemoveBlockData] and the reports on tips of [chain.go]; [InactiveTips] of
      [blockindex.go]): taking blocks out of the chain by command, over the state of
      [Chain].  [ControlRuns] has concrete runs.
    - [Locate] (queries of [chain.go]): blocks and headers by hash, height, range and
      locator, over the windowed chain of [ColdRead].
    - [Treap], [MutableTreap], [ImmutableTreap], [TreapIter]
      ([database/internal/treap]): the trees the database keeps pending rows in.  Nodes
      are cells of a memory that all treaps share, with the pool through which
      [ImmutableTreap.Put] recycles them.  [TreapTree] is the theory of trees in memory
      and of paths into them; [TreapRuns] has concrete runs.

    ** How the parts interact

    A header accepted by the node becomes a heap node ([BlockNode.newBlockNode]),
    enters the index and the dirty set ([BlockIndex.AddNode]) and the header view
    ([ChainView.setTip]).  A flush writes the dirty nodes through [ChainIO] and
    evicts the nodes below the window; [ColdRead] reads them back.  The difficulty
    rule and the deployments walk parent pointers, after
    [ColdRead.repairAncestorChain] has filled in the links that eviction cut.  A
    block is checked on its own ([Sanity]), against its parent ([Context]) and
    against the UTXO set ([Connect]) through a view that is filled from the cache;
    the cache then applies it ([UtxoCache.connectTransactions]) and writes rows in
    the format of [UtxoSet] when it is flushed; a reorganisation undoes blocks with
    the spend journal ([UtxoView.disconnectTransactions]).
    Connecting a block hands its rows and UTXO deltas to the writer
    ([WriteQueue.writeItem]), which commits them in batches.  A block without parent
    waits in [Orphans.pool].  [Chain.ProcessBlock] ties everything together: it checks a
    block, stores its body, gives it a node, and either extends the best chain with it
    or reorganises to its branch, then does the same for the orphans that waited.

    ** What the theorems show

    - Codecs: every encoder and decoder pair is inverse on values within the
      limits; the transaction, integer and script number decoders accept only
      canonical encodings; short writes and short reads are errors; corrupt
      records are errors, except in one place that panics
      ([Compress.decode_corrupt_panics]).  The transaction decoder refines a
      decoder without slab and relocation.
    - Nodes and views: the skip list equals the walk along parents; severed links
      lose answers and never falsify them; adding a node keeps the heap well
      formed; views are the chain of their tip; forks and locators are right.
    - The window: [ColdRead.tree] is what a node that evicts nothing would know.
      [ColdRead.chain_ok] relates a windowed state to it.  Flush and eviction
      preserve the relation and lose no header ([BlockIndex.flush_keeps_headers]);
      the repair makes the window invisible ([ColdRead.repair_relinks]); so the
      difficulty, the deployment states and the header rules of the windowed node
      are those of the whole tree ([Difficulty.difficulty_windowed],
      [Deployment.deployment_refines], [Context.header_context_spec]); for the
      deployments, one of the last four confirmation windows has to be cached, not
      started or the first.  Eviction leaves the ancestors the difficulty needs
      ([BlockIndex.evict_protects]) as long as the header tip is not below the chain
      tip.  Where the code does not repair first it fails: after a restart
      ([Deployment.restart_loses_activation], [Context.checkpoints_forgotten]) and
      for relative locks ([Connect.sequence_lock_panics]).
    - Recycling: structs returned to the pool are not in use
      ([BlockIndex.evict_no_dangling]) unless a side-chain link crosses the lower
      end of the frontier, where the code recycles a live parent
      ([BlockIndex.evict_recycles_live_parent]).
    - The UTXO set: [UtxoCache.cinv] and [UtxoView.vinv] say which set of coins a
      cache with its database, or a view, stands for.  Connecting, flushing and
      disconnecting implement the reference functions on that set
      ([UtxoCache.connect_refines], [flush_persists] while recent entries are in the
      first map of the cache,
      [UtxoView.view_connect_refines], [disconnect_restores]); four runs show where
      the set is lost ([UtxoCache.async_double_spend], [hot_flush_loses_coin],
      [UtxoView.disconnect_leaves_stale_coin], [Connect.forward_spend_accepted]).
    - Validation: what the context-free checks accept ([Sanity.tx_sanity_spec],
      [block_sanity_sound]), coinbase heights ([ScriptNum.coinbase_height_spec]),
      BIP 30, and that a validated block in dependency order applies to the UTXO
      set without creating money ([ConnectSafe.validated_block_applies]).
    - Scripts: the stack operations rearrange the stack as documented or report an
      underflow ([ScriptStack.stack_ops_refine]); the signature check accepts exactly
      strict DER ([SigEncoding.signature_encoding_spec]).
    - Bounds: the retarget stays within 84% and 132% of the window average and
      the limit; the subsidy and the supply; signature operation counts.
    - The writer: the database is always that of a synchronous writer that lags by at
      most 96 blocks ([WriteQueue.async_is_lagging_sync]); as long as only the writer
      writes, marker, watermark and chain state are at the same block
      ([durable_tip_agrees]; disconnecting a block has its own transaction, which
      leaves the watermark); barriers and [stop]
      flush what they promise and calls return ([barrier_flushes],
      [stop_flushes_all], [calls_return]); rows keep their widths
      ([rows_stay_typed]).  Three runs show what the code does not rule out: batches
      committed out of order by [stop], an accepted item that is never written, and
      a hole left by a failed commit ([QueueRuns]).
    - Orphans: the pool stays consistent and bounded ([Orphans.add_orphan_spec])
      except for a stale pointer ([stale_oldest_deletes_block]); the search for the
      root ends ([orphan_root_spec]).
    - The chain: [connectBlock] on every branch, with the item it queues being one
      the theorems on the writer are about ([ChainSpec.connect_block_spec]); the
      nodes of a reorganisation ([reorg_nodes_spec]); a reorganisation that fails its
      check changes nothing ([failed_reorg_keeps_chain]); accepted blocks have proof
      of work unless they are deep below the tip of the headers
      ([processed_block_has_pow]); all waiting orphans are handled, in as many rounds as
      there is fuel for, as long as accepting each of them returns
      ([orphans_processed]); no reorganisation succeeds while the spend journal of the
      tip is not written ([reorg_needs_written_journal]).  Frame conditions of the handlers come from
      [ChainSpec.steps], a program logic for preorders on states.  Runs in [ChainRuns]
      show such a reorganisation, an orphan that is connected without proof of work,
      and a block on an invalid branch that is reported as connected.
    - Control and queries: invalidating a block of a side branch marks it and all known
      blocks on top of it and nothing else ([ChainControl.invalidate_side_branch]);
      a peer's locator is answered with the hashes of the main chain after the first
      one it names ([Locate.locate_blocks_spec]).  Two runs show a rollback after which headers are
      not entered in the index by height ([ControlRuns.rollback_hides_headers]), and
      a locator above the tip ([Locate.locate_past_tip]).
    - Treaps: updates are those of a map, with sorted keys, the right count and size,
      and the heap order where [Put] is concerned ([MutableTreap.mutable_put_refines],
      [mutable_delete_refines], [ImmutableTreap.immutable_put_refines],
      [immutable_delete_refines]); every older version of an immutable treap stays as
      it was, recycling included; iterators return the entries of their range in order
      ([TreapIter.iterate_range]).  Deletion keeps the heap order where a node with one
      child goes and loses it where two children of different priority are merged
      ([MutableTreap.delete_heap_order]).

    ** Conventions

    A Go function that can panic returns in [run]; [NoFuel] marks a loop that ran
    out of fuel, and the theorems exclude it.  The fuel of a loop is a bound from
    the code: the height to climb for ancestor walks and views, the length of the
    input for decoders, the depth argument for the repair, eight bytes for script
    numbers, the bit length of the limit for [Difficulty.calcEasiestDifficulty].
    Operations that run under a lock are one step.  Map iteration order is an
    argument where it could matter.  Times are seconds, durations nanoseconds.
    Class parameters stand for the curve arithmetic of public keys (a library outside
    of the repository), and for two parts of the repository that are left abstract
    and of which nothing is assumed: the yespower hash ([pow], [yespower]), and script
    execution ([txscript/engine.go]).

    ** Not modelled

    Errors of the storage engine, concurrency between lock regions, logging, and
    the parts the manifest lists: pruning, start-up recovery, the other wire messages, the execution
    of scripts, the optional indexes, networking, mining, RPC, wallet.

    ** Plan

    Next: the opcodes and the execution of the script engine, over [ScriptStack] and
    [SigEncoding]; the recovery of the UTXO set at start-up. *)

From stdpp Require Export base tactics numbers list list_numbers option gmap strings.
From Stdlib Require Export ZArith Lia.
From Stdlib Require Strings.Byte.

#[global] Open Scope Z_scope.

(** ** Notations and hint databases of the development *)

Declare Scope go_scope.
Delimit Scope go_scope with go.

Create HintDb go_arith.
Create Rewrite HintDb go_list.

(** ** Panics and fuel: the [run] monad

    A Go function either returns, panics (nil dereference, index out of range,
    explicit panic) or keeps looping.  [NoFuel] is the result of a loop whose
    fuel ran out; the theorems of the development show that it does not occur. *)

Inductive run (A : Type) : Type :=
| Done (a : A)
| Panic
| NoFuel.
Arguments Done {A} a.
Arguments Panic {A}.
Arguments NoFuel {A}.

#[export] Instance run_ret : MRet run := fun A a => Done a.
#[export] Instance run_bind : MBind run := fun A B f m =>
  match m with Done a => f a | Panic => Panic | NoFuel => NoFuel end.

#[export] Instance run_eq_dec {A} `{EqDecision A} : EqDecision (run A).
Proof.
  intros x y. refine
    match x, y with
    | Done a, Done b => cast_if (decide (a = b))
    | Panic, Panic | NoFuel, NoFuel => left eq_refl
    | _, _ => right _
    end; congruence.
Defined.

Definition of_option {A} (o : option A) : run A :=
  match o with Some a => Done a | None => Panic end.

Lemma run_bind_Done {A B} (m : run A) (f : A → run B) b :
  (m ≫= f) = Done b ↔ ∃ a, m = Done a ∧ f a = Done b.
Proof.
  split; [|intros (a & -> & ?); done].
  destruct m as [a| |]; [by exists a|discriminate..].
Qed.

(** ** Machine integers

    Unsigned [w]-bit values are integers in [0, 2^w), signed ones integers in
    [-2^(w-1), 2^(w-1)); the wrap-around of Go is written out. *)

Definition uwrap (w z : Z) : Z := z `mod` 2 ^ w.
Definition swrap (w z : Z) : Z := (z + 2 ^ (w - 1)) `mod` 2 ^ w - 2 ^ (w - 1).

Abbreviation u8 := (uwrap 8).
Abbreviation u16 := (uwrap 16).
Abbreviation u32 := (uwrap 32).
Abbreviation u64 := (uwrap 64).
Abbreviation i32 := (swrap 32).
Abbreviation i64 := (swrap 64).

Lemma uwrap_range w z : 0 ≤ w → 0 ≤ uwrap w z < 2 ^ w.
Proof. intros. apply Z.mod_pos_bound. lia. Qed.

Lemma uwrap_small w z : 0 ≤ z < 2 ^ w → uwrap w z = z.
Proof. apply Z.mod_small. Qed.

Lemma swrap_small w z : 0 < w → - 2 ^ (w - 1) ≤ z < 2 ^ (w - 1) → swrap w z = z.
Proof.
  intros Hw Hz. unfold swrap.
  assert (2 ^ w = 2 * 2 ^ (w - 1)) as E.
  { rewrite <-Z.pow_succ_r by lia. f_equal. lia. }
  rewrite Z.mod_small; lia.
Qed.

Lemma swrap_range w z : 0 < w → - 2 ^ (w - 1) ≤ swrap w z < 2 ^ (w - 1).
Proof.
  intros Hw. unfold swrap.
  assert (2 ^ w = 2 * 2 ^ (w - 1)) as E.
  { rewrite <-Z.pow_succ_r by lia. f_equal. lia. }
  assert (0 < 2 ^ (w - 1)) by lia.
  pose proof (Z.mod_pos_bound (z + 2 ^ (w - 1)) (2 ^ w)). lia.
Qed.

#[export] Hint Resolve uwrap_range swrap_range : go_arith.

(** Evaluates the closed powers of the goal and the hypotheses, after which
    [lia] closes the side conditions of machine-width arithmetic. *)
Ltac is_poscst p :=
  lazymatch p with
  | xH => idtac
  | xO ?p => is_poscst p
  | xI ?p => is_poscst p
  end.
Ltac is_zcst z :=
  lazymatch z with
  | Z0 => idtac
  | Zpos ?p => is_poscst p
  | Zneg ?p => is_poscst p
  end.
Ltac pow2_norm :=
  repeat match goal with
  | |- context [?b ^ ?n] =>
      is_zcst b; let v := eval vm_compute in (b ^ n) in
      is_zcst v; change (b ^ n) with v
  | H : context [?b ^ ?n] |- _ =>
      is_zcst b; let v := eval vm_compute in (b ^ n) in
      is_zcst v; change (b ^ n) with v in H
  end.

Ltac zlia := pow2_norm; lia.
Ltac znia := pow2_norm; Z.div_mod_to_equations; nia.
(** Linear arithmetic with [/] and [mod] by constants. *)
Ltac zdm := pow2_norm; Z.div_mod_to_equations; lia.

(** ** Bytes *)

Abbreviation byte := Byte.byte.

Definition b2z (b : byte) : Z := Z.of_N (Byte.to_N b).
Definition z2b (z : Z) : byte :=
  default Byte.x00 (Byte.of_N (Z.to_N (z `mod` 256))).

#[export] Instance byte_eq_dec : EqDecision byte := Byte.byte_eq_dec.

Lemma b2z_range b : 0 ≤ b2z b < 256.
Proof. unfold b2z. pose proof (Byte.to_N_bounded b). lia. Qed.

Lemma b2z_z2b z : b2z (z2b z) = z `mod` 256.
Proof.
  unfold b2z, z2b. pose proof (Z.mod_pos_bound z 256 ltac:(lia)).
  destruct (Byte.of_N (Z.to_N (z `mod` 256))) as [b|] eqn:E; simpl.
  - apply Byte.to_of_N in E. rewrite E. lia.
  - apply Byte.of_N_None_iff in E. lia.
Qed.

Lemma z2b_b2z b : z2b (b2z b) = b.
Proof.
  unfold z2b, b2z. rewrite Z.mod_small by apply b2z_range.
  rewrite N2Z.id. by rewrite Byte.of_to_N.
Qed.

Lemma b2z_z2b_small z : 0 ≤ z < 256 → b2z (z2b z) = z.
Proof. intros. by rewrite b2z_z2b, Z.mod_small. Qed.

Lemma b2z_inj a b : b2z a = b2z b → a = b.
Proof. intros H. by rewrite <-(z2b_b2z a), H, z2b_b2z. Qed.

#[export] Hint Rewrite b2z_z2b z2b_b2z : go_list.

#[export] Instance byte_countable : Countable byte :=
  inj_countable Byte.to_N Byte.of_N Byte.of_to_N.

(** The bytes of a string literal of the source *)
Definition gostring (s : string) : list byte :=
  map (fun a => z2b (Z.of_N (Ascii.N_of_ascii a))) (String.list_ascii_of_string s).

(** ** Little- and big-endian integers ([encoding/binary]) *)

Fixpoint le_bytes (n : nat) (z : Z) : list byte :=
  match n with
  | O => []
  | S n => z2b z :: le_bytes n (z / 256)
  end.

Fixpoint le_val (bs : list byte) : Z :=
  match bs with
  | [] => 0
  | b :: bs => b2z b + 256 * le_val bs
  end.

Definition be_bytes (n : nat) (z : Z) : list byte := reverse (le_bytes n z).
Definition be_val (bs : list byte) : Z := le_val (reverse bs).

Lemma length_le_bytes n z : length (le_bytes n z) = n.
Proof. revert z; induction n; intros; simpl; auto. Qed.

Lemma le_val_range bs : 0 ≤ le_val bs < 256 ^ Z.of_nat (length bs).
Proof.
  induction bs as [|b bs IH]; [done|]. cbn [le_val length].
  pose proof (b2z_range b). rewrite Nat2Z.inj_succ, Z.pow_succ_r by lia. nia.
Qed.

Lemma le_val_bytes n z : le_val (le_bytes n z) = z `mod` 256 ^ Z.of_nat n.
Proof.
  revert z; induction n as [|n IH]; intros z.
  - by rewrite Z.mod_1_r.
  - cbn [le_bytes le_val]. rewrite IH, b2z_z2b, Nat2Z.inj_succ, Z.pow_succ_r by lia.
    rewrite Z.rem_mul_r; lia.
Qed.

Lemma le_bytes_val bs : le_bytes (length bs) (le_val bs) = bs.
Proof.
  induction bs as [|b bs IH]; [done|]. cbn [le_val length le_bytes].
  pose proof (b2z_range b). f_equal.
  - apply b2z_inj. rewrite b2z_z2b. zdm.
  - replace ((b2z b + 256 * le_val bs) / 256) with (le_val bs) by zdm. done.
Qed.

Lemma le_val_inj bs cs : length bs = length cs → le_val bs = le_val cs → bs = cs.
Proof.
  intros Hl Hv. rewrite <-(le_bytes_val bs), <-(le_bytes_val cs). congruence.
Qed.

Lemma be_val_bytes n z : be_val (be_bytes n z) = z `mod` 256 ^ Z.of_nat n.
Proof. unfold be_val, be_bytes. by rewrite reverse_involutive, le_val_bytes. Qed.

Lemma le_val_zeros n bs : le_val (bs ++ replicate n (z2b 0)) = le_val bs.
Proof.
  induction bs as [|b bs IH]; [|cbn [app le_val]; lia]. induction n as [|n IH]; [done|]. cbn [app replicate le_val] in *.
  rewrite b2z_z2b_small by lia. cbn in IH. lia.
Qed.

Lemma be_val_zeros n bs : be_val (replicate n (z2b 0) ++ bs) = be_val bs.
Proof. unfold be_val. rewrite reverse_app, reverse_replicate. apply le_val_zeros. Qed.

(** ** Slices

    Go's [s[i]] and [s[lo:hi]] on a slice whose capacity is its length. *)

Definition zlen {A} (l : list A) : Z := Z.of_nat (length l).

Definition index {A} (l : list A) (i : Z) : run A :=
  if decide (0 ≤ i) then of_option (l !! Z.to_nat i) else Panic.

Definition slice {A} (l : list A) (lo hi : Z) : run (list A) :=
  if decide (0 ≤ lo ∧ lo ≤ hi ∧ hi ≤ zlen l)
  then Done (take (Z.to_nat (hi - lo)) (drop (Z.to_nat lo) l))
  else Panic.

(** [s[i] = x] *)
Definition store {A} (l : list A) (i : Z) (x : A) : run (list A) :=
  if decide (0 ≤ i < zlen l) then Done (<[Z.to_nat i := x]> l) else Panic.

(** [copy(dst, src)]: overwrites a prefix of [dst]. *)
Definition gocopy {A} (dst src : list A) : list A :=
  take (length dst) src ++ drop (length src) dst.

(** [make([]T, n)] *)
Definition make {A} (x : A) (n : Z) : run (list A) :=
  if decide (0 ≤ n) then Done (replicate (Z.to_nat n) x) else Panic.

Lemma zlen_app {A} (l k : list A) : zlen (l ++ k) = zlen l + zlen k.
Proof. unfold zlen. rewrite length_app. lia. Qed.

Lemma zlen_cons {A} (x : A) l : zlen (x :: l) = 1 + zlen l.
Proof. unfold zlen. simpl. lia. Qed.

Lemma zlen_nonneg {A} (l : list A) : 0 ≤ zlen l.
Proof. unfold zlen. lia. Qed.

Lemma gocopy_app {A} (src : list A) dst1 dst2 :
  length dst1 = length src → gocopy (dst1 ++ dst2) src = src ++ dst2.
Proof.
  intros H. unfold gocopy. rewrite take_ge by (rewrite length_app; lia).
  by rewrite drop_app_length' by done.
Qed.

Lemma length_gocopy {A} (dst src : list A) : length (gocopy dst src) = length dst.
Proof. unfold gocopy. rewrite length_app, length_take, length_drop. lia. Qed.

#[export] Hint Rewrite @zlen_app @zlen_cons @length_app @length_take @length_drop
  @length_replicate @length_reverse @length_le_bytes @length_gocopy : go_list.

Lemma filter_none {A} (P : A → Prop) `{∀ x, Decision (P x)} l :
  (∀ x, x ∈ l → ¬ P x) → filter P l = [].
Proof.
  induction l as [|x l IH]; intros Hl; [done|]. rewrite filter_cons_False by (apply Hl; left).
  apply IH. intros y Hy. apply Hl. by right.
Qed.

Lemma omap_none {A B} (f : A → option B) l : Forall (fun x => f x = None) l → omap f l = [].
Proof. induction 1 as [|x l Hx _ IH]; [done|]. cbn. by rewrite Hx. Qed.

Lemma length_omap_le {A B} (f : A → option B) l : (length (omap f l) ≤ length l)%nat.
Proof. induction l as [|x l IH]; cbn; [lia|]. destruct (f x); cbn; lia. Qed.

(** In-place reversal of [l[i..j]] by swapping ends, as the Go sources write it:
    [for i < j { l[i], l[j] = l[j], l[i]; i++; j-- }]. *)

Definition swap {A} (l : list A) (i j : nat) : run (list A) :=
  a ← of_option (l !! i); b ← of_option (l !! j);
  Done (<[i := b]> (<[j := a]> l)).

Fixpoint rev_range {A} (fuel : nat) (l : list A) (i j : nat) : run (list A) :=
  if (i <? j)%nat then
    match fuel with
    | O => NoFuel
    | S fuel => l' ← swap l i j; rev_range fuel l' (S i) (pred j)
    end
  else Done l.

Lemma swap_ends {A} (pre mid post : list A) a b :
  swap (pre ++ a :: mid ++ b :: post) (length pre) (length pre + S (length mid)) =
  Done (pre ++ b :: mid ++ a :: post).
Proof.
  unfold swap.
  rewrite (list_lookup_middle pre _ a _ eq_refl).
  rewrite (lookup_app_r pre) by lia.
  replace (length pre + S (length mid) - length pre)%nat with (S (length mid)) by lia.
  cbn [lookup list_lookup of_option mbind run_bind].
  rewrite (list_lookup_middle mid _ b _ eq_refl). cbn [of_option mbind run_bind].
  rewrite insert_app_r. rewrite insert_app_r_alt by lia. rewrite Nat.sub_diag.
  simpl.
    rewrite insert_app_r_alt by lia. by rewrite Nat.sub_diag.
Qed.

Lemma rev_range_spec {A} fuel (pre mid post : list A) :
  (length mid ≤ 2 * fuel + 1)%nat →
  rev_range fuel (pre ++ mid ++ post) (length pre)
    (pred (length pre + length mid)) = Done (pre ++ reverse mid ++ post).
Proof.
  revert pre mid post. induction fuel as [|fuel IH]; intros pre mid post Hf.
  - cbn [rev_range]. destruct (Nat.ltb_spec (length pre) (pred (length pre + length mid))); [lia|].
    by destruct mid as [|a [|]]; simpl in *; [..|lia].
  - cbn [rev_range]. destruct (Nat.ltb_spec (length pre) (pred (length pre + length mid))).
    2: { by destruct mid as [|a [|]]; simpl in *; [..|lia]. }
    destruct mid as [|a mid]; [simpl in *; lia|].
    destruct mid as [|b mid _] using rev_ind; [simpl in *; lia|].
    rewrite <-app_comm_cons, <-app_assoc. cbn [app].
    replace (pred (length pre + length (a :: mid ++ [b])))
      with (length pre + S (length mid))%nat by (simpl; rewrite length_app; simpl; lia).
    rewrite swap_ends. cbn [mbind run_bind].
    specialize (IH (pre ++ [b]) mid (a :: post)).
    rewrite length_app in IH. cbn [length] in IH.
    replace (S (length pre)) with (length pre + 1)%nat by lia.
    replace (length pre + S (length mid))%nat with (S (pred (length pre + 1 + length mid))) by lia.
    cbn [pred]. rewrite <-!app_assoc in IH. cbn [app] in IH. rewrite IH.
    + rewrite reverse_cons, reverse_app, reverse_singleton. cbn.
      by rewrite <-app_assoc.
    + simpl in Hf. rewrite length_app in Hf. simpl in Hf. lia.
Qed.

Lemma rev_range_all {A} fuel (l : list A) :
  (length l ≤ 2 * fuel + 1)%nat →
  rev_range fuel l 0 (pred (length l)) = Done (reverse l).
Proof.
  intros H. pose proof (rev_range_spec fuel [] l [] H) as E. cbn in E.
  by rewrite !app_nil_r in E.
Qed.

(** ** Bit tests and packed fields *)

Lemma land_pow2 x k : 0 ≤ k → Z.land x (2 ^ k) = if Z.testbit x k then 2 ^ k else 0.
Proof.
  intros Hk. apply Z.bits_inj'. intros i Hi.
  rewrite Z.land_spec, Z.pow2_bits_eqb by lia.
  destruct (Z.eqb_spec k i) as [->|].
  - destruct (Z.testbit x i) eqn:E; simpl; [by rewrite Z.pow2_bits_true by lia|by rewrite Z.bits_0].
  - rewrite andb_false_r. destruct (Z.testbit x k); [by rewrite Z.pow2_bits_false by lia|by rewrite Z.bits_0].
Qed.

Lemma testbit_top x k : 0 ≤ k → 0 ≤ x < 2 ^ (k + 1) → Z.testbit x k = (2 ^ k <=? x).
Proof.
  intros Hk Hx. apply Z.b2z_inj. rewrite Z.testbit_spec' by lia.
  rewrite Z.pow_add_r, Z.pow_1_r in Hx by lia.
  destruct (Z.leb_spec (2 ^ k) x); simpl.
  - replace (x / 2 ^ k) with 1; [done|]. apply (Z.div_unique _ _ _ (x - 2 ^ k)); lia.
  - rewrite Z.div_small by lia. done.
Qed.

Lemma lor_pack a b k : 0 ≤ k → 0 ≤ b < 2 ^ k → Z.lor (a * 2 ^ k) b = a * 2 ^ k + b.
Proof.
  intros Hk Hb. destruct (decide (b = 0)) as [->|]; [by rewrite Z.lor_0_r, Z.add_0_r|].
  assert (Z.land (a * 2 ^ k) b = 0) as E.
  { apply Z.bits_inj'. intros i Hi. rewrite Z.land_spec, Z.bits_0.
    destruct (Z.ltb_spec i k); [by rewrite Z.mul_pow2_bits_low by lia|].
    rewrite (Z.bits_above_log2 b i), andb_false_r; [done|lia|].
    apply Z.lt_le_trans with k; [apply Z.log2_lt_pow2|]; lia. }
  by rewrite Z.add_nocarry_lxor, <-Z.lxor_lor.
Qed.

(** ** Readers and writers: the [io] monad

    Code that reads from an [io.Reader] or writes to an [io.Writer] threads the
    stream [S] and returns a value or an error [E]. *)

Definition io (S E A : Type) : Type := S → run ((A + E) * S).

#[export] Instance io_ret S E : MRet (io S E) := fun A a s => Done (inl a, s).
#[export] Instance io_bind S E : MBind (io S E) := fun A B f m s =>
  match m s with
  | Done (inl a, s') => f a s'
  | Done (inr e, s') => Done (inr e, s')
  | Panic => Panic
  | NoFuel => NoFuel
  end.

Definition io_fail {S E A} (e : E) : io S E A := fun s => Done (inr e, s).
Definition io_run {S E A} (m : run A) : io S E A := fun s =>
  match m with Done a => Done (inl a, s) | Panic => Panic | NoFuel => NoFuel end.

Lemma io_step {S E A B} (m : io S E A) (f : A → io S E B) s a s' :
  m s = Done (inl a, s') → (m ≫= f) s = f a s'.
Proof. unfold mbind, io_bind. by intros ->. Qed.

Lemma io_step_fail {S E A B} (m : io S E A) (f : A → io S E B) s e s' :
  m s = Done (inr e, s') → (m ≫= f) s = Done (inr e, s').
Proof. unfold mbind, io_bind. by intros ->. Qed.

Lemma io_run_Done {S E A B} (m : run A) (f : A → io S E B) a s :
  m = Done a → (io_run m ≫= f) s = f a s.
Proof. intros ->. done. Qed.
