(* ===== verification/WorkMath.v ===== *)
(** * Compact difficulty targets and chain work

    Model of [backend/blockchain/internal/workmath/difficulty.go]: the conversion
    between 256-bit targets and their 32-bit compact form, the conversion of a
    hash to an integer, and the work a target stands for.  [big.Int] is [Z];
    [uint32] values are integers in [0, 2^32). *)

From S2P Require Import Prelude.

Module WorkMath.

(** ** Definitions *)

Definition oneLsh256 : Z := Z.shiftl 1 256.

(** [new(big.Int).SetBytes(buf)]: big-endian bytes of a natural number. *)
Definition SetBytes (buf : list byte) : Z := be_val buf.

(** [len(n.Bytes())]: the number of base-256 digits of [|n|]. *)
Definition bytesLen (n : Z) : Z := if n =? 0 then 0 else Z.log2 (Z.abs n) / 8 + 1.

(** [n.Bits()[0]]: the least significant 64-bit word of [|n|]. *)
Definition Bits0 (n : Z) : Z := u64 (Z.abs n).

Definition HashToBig (hash : list byte) : run Z :=
  let blen := length hash in
  buf ← rev_range (blen / 2) hash 0 (blen - 1);
  Done (SetBytes buf).

Definition CompactToBig (compact : Z) : Z :=
  let mantissa := Z.land compact 0x007fffff in
  let isNegative := negb (Z.land compact 0x00800000 =? 0) in
  let exponent := Z.shiftr compact 24 in
  let bn :=
    if exponent <=? 3
    then Z.shiftr mantissa (8 * (3 - exponent))
    else Z.shiftl mantissa (8 * (exponent - 3)) in
  if isNegative then - bn else bn.

Definition BigToCompact (n : Z) : Z :=
  if Z.sgn n =? 0 then 0 else
  let exponent := bytesLen n in
  let mantissa :=
    if exponent <=? 3
    then u32 (Z.shiftl (u32 (Bits0 n)) (8 * (3 - exponent)))
    else u32 (Bits0 (Z.shiftr n (8 * (exponent - 3)))) in
  let '(mantissa, exponent) :=
    if negb (Z.land mantissa 0x00800000 =? 0)
    then (Z.shiftr mantissa 8, exponent + 1)
    else (mantissa, exponent) in
  let compact := Z.lor (u32 (Z.shiftl exponent 24)) mantissa in
  if Z.sgn n <? 0 then Z.lor compact 0x00800000 else compact.

Definition CalcWork (bits : Z) : Z :=
  let difficultyNum := CompactToBig bits in
  if Z.sgn difficultyNum <=? 0 then 0
  else let denominator := difficultyNum + 1 in oneLsh256 / denominator.

(** [result] is the recycled [big.Int] the value is written into. *)
Definition CalcWorkInto (bits : Z) (result : Z) : Z :=
  let difficultyNum := CompactToBig bits in
  if Z.sgn difficultyNum <=? 0 then 0
  else let denominator := difficultyNum + 1 in oneLsh256 / denominator.

(** ** Lemmas *)

Lemma bytesLen_bounds n : 0 < n → 256 ^ (bytesLen n - 1) ≤ n < 256 ^ bytesLen n ∧ 1 ≤ bytesLen n.
Proof.
  intros Hn. unfold bytesLen. destruct (Z.eqb_spec n 0); [lia|].
  rewrite Z.abs_eq by lia.
  pose proof (Z.log2_spec n Hn) as [H1 H2]. pose proof (Z.log2_nonneg n).
  set (q := Z.log2 n / 8). assert (8 * q ≤ Z.log2 n < 8 * q + 8) by (subst q; zdm).
  assert (0 ≤ q) by lia.
  change 256 with (2 ^ 8). rewrite <-!Z.pow_mul_r by lia. split_and!; [| |lia].
  - etrans; [|exact H1]. apply Z.pow_le_mono_r; lia.
  - eapply Z.lt_le_trans; [exact H2|]. apply Z.pow_le_mono_r; lia.
Qed.

(** The 24-bit mantissa [BigToCompact] extracts before its sign-bit adjustment. *)
Definition mant (n : Z) : Z :=
  let e := bytesLen n in if e <=? 3 then n * 256 ^ (3 - e) else n / 256 ^ (e - 3).

Lemma mant_bounds n : 0 < n → 2 ^ 16 ≤ mant n < 2 ^ 24.
Proof.
  intros Hn. pose proof (bytesLen_bounds n Hn) as [[H1 H2] H3]. unfold mant.
  destruct (Z.leb_spec (bytesLen n) 3).
  - assert (bytesLen n = 1 ∨ bytesLen n = 2 ∨ bytesLen n = 3) as [E|[E|E]] by lia;
      rewrite E in *; cbn in *; lia.
  - set (k := bytesLen n - 3) in *. assert (0 < 256 ^ k) by (apply Z.pow_pos_nonneg; lia).
    replace (bytesLen n - 1) with (k + 2) in H1 by lia.
    replace (bytesLen n) with (k + 3) in H2 by lia.
    rewrite Z.pow_add_r in H1, H2 by lia.
    split; [apply Z.div_le_lower_bound|apply Z.div_lt_upper_bound]; lia.
Qed.

Lemma mant_code n : 0 < n →
  (if bytesLen n <=? 3
   then u32 (Z.shiftl (u32 (Bits0 n)) (8 * (3 - bytesLen n)))
   else u32 (Bits0 (Z.shiftr n (8 * (bytesLen n - 3))))) = mant n.
Proof.
  intros Hn. pose proof (mant_bounds n Hn) as Hm. pose proof (bytesLen_bounds n Hn) as [[H1 H2] H3].
  unfold mant in *. destruct (Z.leb_spec (bytesLen n) 3).
  - rewrite Z.shiftl_mul_pow2, Z.pow_mul_r by lia. change (2 ^ 8) with 256.
    assert (n < 2 ^ 24).
    { eapply Z.lt_le_trans; [exact H2|]. change (2 ^ 24) with (256 ^ 3). apply Z.pow_le_mono_r; lia. }
    unfold Bits0. rewrite Z.abs_eq by lia.
    rewrite (uwrap_small 64), (uwrap_small 32 n) by zlia. apply uwrap_small. zlia.
  - rewrite Z.shiftr_div_pow2, Z.pow_mul_r by lia. change (2 ^ 8) with 256.
    unfold Bits0. rewrite Z.abs_eq by zlia. rewrite (uwrap_small 64), uwrap_small; zlia.
Qed.

(** Numbers the compact form has an exponent for: those below [2^23 * 256^252]. *)
Lemma exponent_range n : 0 < n < 2 ^ 2039 →
  bytesLen n ≤ 255 ∧ (2 ^ 23 ≤ mant n → bytesLen n ≤ 254).
Proof.
  intros Hn. pose proof (bytesLen_bounds n ltac:(lia)) as [[H1 H2] H3].
  replace (2 ^ 2039) with (2 ^ 23 * 256 ^ 252) in Hn by reflexivity.
  assert (bytesLen n ≤ 255).
  { destruct (Z.le_gt_cases (bytesLen n) 255); [done|].
    assert (256 ^ 255 ≤ 256 ^ (bytesLen n - 1)) by (apply Z.pow_le_mono_r; lia). zlia. }
  split; [done|]. intros Hm. destruct (decide (bytesLen n = 255)) as [E|]; [|lia].
  unfold mant in Hm. rewrite E in Hm. cbn [Z.leb Z.compare] in Hm.
  assert (n / 256 ^ (255 - 3) < 2 ^ 23); [|cbn in *; lia].
  apply Z.div_lt_upper_bound; zlia.
Qed.

(** The compact form of a positive number in arithmetic terms. *)
Lemma BigToCompact_pos n : 0 < n < 2 ^ 2039 →
  BigToCompact n =
    if mant n <? 2 ^ 23 then bytesLen n * 2 ^ 24 + mant n
    else (bytesLen n + 1) * 2 ^ 24 + mant n / 256.
Proof.
  intros [Hn Hbig]. unfold BigToCompact. rewrite Z.sgn_pos by done. simpl (1 =? 0). cbv iota.
  rewrite mant_code by done.
  pose proof (mant_bounds n Hn). pose proof (bytesLen_bounds n Hn) as [[? ?] ?].
  pose proof (exponent_range n ltac:(lia)) as [? ?].
  change 0x00800000 with (2 ^ 23). rewrite land_pow2, testbit_top by zlia.
  destruct (Z.ltb_spec (mant n) (2 ^ 23)), (Z.leb_spec (2 ^ 23) (mant n)); try lia;
    [change (negb (0 =? 0)) with false|change (negb (2 ^ 23 =? 0)) with true];
    change (1 <? 0) with false; cbv iota beta.
  - rewrite Z.shiftl_mul_pow2, uwrap_small by zlia. apply lor_pack; zlia.
  - rewrite Z.shiftl_mul_pow2, uwrap_small by zlia. rewrite Z.shiftr_div_pow2 by lia.
    apply lor_pack; zdm.
Qed.

Lemma CompactToBig_pack e m : 0 ≤ m < 2 ^ 23 → 0 ≤ e < 256 →
  CompactToBig (e * 2 ^ 24 + m) = if e <=? 3 then m / 256 ^ (3 - e) else m * 256 ^ (e - 3).
Proof.
  intros Hm He. unfold CompactToBig.
  change 0x007fffff with (Z.ones 23). rewrite Z.land_ones, Z.shiftr_div_pow2 by lia.
  change 0x00800000 with (2 ^ 23). rewrite land_pow2 by lia.
  replace (e * 2 ^ 24 + m) with (m + e * 2 * 2 ^ 23) by zlia.
  rewrite <-(Z.mod_pow2_bits_low _ 24), Z.mod_add by lia.
  replace (m + e * 2 * 2 ^ 23) with (m + e * 2 ^ 24) by zlia.
  rewrite Z.mod_add, (Z.mod_small m) by zlia.
  rewrite testbit_top by zlia. destruct (Z.leb_spec (2 ^ 23) m); [lia|].
  rewrite Z.div_add, Z.div_small by zlia. change (negb (0 =? 0)) with false. cbv iota.
  rewrite Z.add_0_l.
  rewrite (Z.mod_small m) by lia.
  destruct (Z.leb_spec e 3).
  - rewrite Z.shiftr_div_pow2, Z.pow_mul_r by lia. done.
  - rewrite Z.shiftl_mul_pow2, Z.pow_mul_r by lia. done.
Qed.

Lemma bytesLen_unique n L : 0 < L → 256 ^ (L - 1) ≤ n < 256 ^ L → bytesLen n = L.
Proof.
  intros HL [H1 H2]. assert (0 < n).
  { eapply Z.lt_le_trans; [|exact H1]. apply Z.pow_pos_nonneg; lia. }
  pose proof (bytesLen_bounds n ltac:(done)) as [[H3 H4] H5].
  destruct (Z.lt_trichotomy (bytesLen n) L) as [?|[?|?]]; [|done|].
  - assert (256 ^ bytesLen n ≤ 256 ^ (L - 1)) by (apply Z.pow_le_mono_r; lia). lia.
  - assert (256 ^ L ≤ 256 ^ (bytesLen n - 1)) by (apply Z.pow_le_mono_r; lia). lia.
Qed.

(** A compact value in the normal form [BigToCompact] produces: no sign bit, a
    mantissa whose top 16 bits are not redundant, and no digits below the point
    for exponents under 3. *)
Definition canonical (c : Z) : Prop :=
  c = 0 ∨ ∃ e m, c = e * 2 ^ 24 + m ∧ 1 ≤ e ≤ 255 ∧ 2 ^ 15 ≤ m < 2 ^ 23 ∧
                 (e < 3 → (256 ^ (3 - e) | m)).

Lemma mant_short n : bytesLen n < 3 → mant n = n * 256 ^ (2 - bytesLen n) * 256.
Proof.
  intros H. unfold mant. destruct (Z.leb_spec (bytesLen n) 3); [|lia].
  replace (3 - bytesLen n) with (Z.succ (2 - bytesLen n)) by lia.
  rewrite Z.pow_succ_r by lia. ring.
Qed.

Lemma BigToCompact_canonical n : 0 ≤ n < 2 ^ 2039 → canonical (BigToCompact n).
Proof.
  intros Hn. destruct (decide (n = 0)) as [->|]; [by left|].
  rewrite BigToCompact_pos by lia. right.
  pose proof (mant_bounds n ltac:(lia)) as Hm.
  pose proof (bytesLen_bounds n ltac:(lia)) as [_ H3].
  pose proof (exponent_range n ltac:(lia)) as [? ?].
  destruct (Z.ltb_spec (mant n) (2 ^ 23));
    eexists _, _; (split; [reflexivity|]); split_and!; try zdm; intros He.
  - rewrite mant_short by done. exists n.
    replace (3 - bytesLen n) with (Z.succ (2 - bytesLen n)) by lia.
    rewrite Z.pow_succ_r by lia. ring.
  - rewrite mant_short, Z.div_mul by lia. exists n. f_equal. f_equal. lia.
Qed.

Lemma CompactToBig_canonical e m :
  1 ≤ e ≤ 255 → 2 ^ 15 ≤ m < 2 ^ 23 → (e < 3 → (256 ^ (3 - e) | m)) →
  let n := CompactToBig (e * 2 ^ 24 + m) in
  0 < n ∧ bytesLen n = (if m <? 2 ^ 16 then e - 1 else e) ∧
  mant n = (if m <? 2 ^ 16 then m * 256 else m).
Proof.
  intros He Hm Hd n. subst n. rewrite CompactToBig_pack by lia.
  destruct (Z.leb_spec e 3).
  - assert (∃ q, m = q * 256 ^ (3 - e)) as [q Hq].
    { destruct (decide (e = 3)) as [->|]; [exists m; simpl; lia|].
      destruct Hd as [q Hq]; [lia|]. by exists q. }
    subst m. rewrite Z.div_mul by (apply Z.pow_nonzero; lia).
    assert (bytesLen q = (if q * 256 ^ (3 - e) <? 2 ^ 16 then e - 1 else e)) as E.
    { assert (e = 1 ∨ e = 2 ∨ e = 3) as [->|[->| ->]] by lia; pow2_norm;
        (match goal with |- context [?x <? 65536] => destruct (Z.ltb_spec x 65536) end);
        try (exfalso; lia); apply bytesLen_unique; zlia. }
    split; [nia|]. split; [exact E|]. unfold mant. rewrite E.
    assert (e = 1 ∨ e = 2 ∨ e = 3) as [->|[->| ->]] by lia; pow2_norm;
      (match goal with |- context [?x <? 65536] => destruct (Z.ltb_spec x 65536) end);
      simpl; zlia.
  - set (k := e - 3) in *. replace e with (k + 3) by lia.
    assert (0 < 256 ^ k) by (apply Z.pow_pos_nonneg; lia).
    assert (bytesLen (m * 256 ^ k) = (if m <? 2 ^ 16 then k + 3 - 1 else k + 3)) as E.
    { apply bytesLen_unique; destruct (Z.ltb_spec m (2 ^ 16)); try lia.
      - replace (k + 3 - 1 - 1) with (k + 1) by lia. replace (k + 3 - 1) with (k + 2) by lia.
        rewrite !Z.pow_add_r by lia. cbn. nia.
      - replace (k + 3 - 1) with (k + 2) by lia. rewrite !Z.pow_add_r by lia. cbn. nia. }
    split; [nia|]. split; [exact E|]. unfold mant. rewrite E.
    destruct (Z.ltb_spec m (2 ^ 16)).
    + destruct (Z.leb_spec (k + 3 - 1) 3).
      * replace k with 1 by lia. cbn. lia.
      * replace (k + 3 - 1 - 3) with (k - 1) by lia.
        replace k with (Z.succ (k - 1)) at 1 by lia. rewrite Z.pow_succ_r by lia.
        rewrite Z.mul_assoc, Z.div_mul; [done|]. apply Z.pow_nonzero; lia.
    + destruct (Z.leb_spec (k + 3) 3); [lia|].
      replace (k + 3 - 3) with k by lia. rewrite Z.div_mul; lia.
Qed.

Lemma CompactToBig_round n : 0 < n < 2 ^ 2039 →
  CompactToBig (BigToCompact n) =
    let k := (if mant n <? 2 ^ 23 then bytesLen n else bytesLen n + 1) - 3 in
    if k <=? 0 then n else n / 256 ^ k * 256 ^ k.
Proof.
  intros Hn. rewrite BigToCompact_pos by done.
  pose proof (mant_bounds n ltac:(lia)) as Hm.
  pose proof (bytesLen_bounds n ltac:(lia)) as [_ H3].
  pose proof (exponent_range n ltac:(lia)) as [? ?].
  destruct (Z.ltb_spec (mant n) (2 ^ 23)); rewrite CompactToBig_pack by zdm; cbv zeta.
  - unfold mant in *. destruct (Z.leb_spec (bytesLen n) 3), (Z.leb_spec (bytesLen n - 3) 0); try lia.
    by rewrite Z.div_mul by (apply Z.pow_nonzero; lia).
  - destruct (Z.leb_spec (bytesLen n + 1) 3), (Z.leb_spec (bytesLen n + 1 - 3) 0); try lia.
    + rewrite mant_short, Z.div_mul by lia.
      replace (3 - (bytesLen n + 1)) with (2 - bytesLen n) by lia.
      by rewrite Z.div_mul by (apply Z.pow_nonzero; lia).
    + unfold mant. destruct (Z.leb_spec (bytesLen n) 3).
      * replace (bytesLen n) with 3 by lia. cbn. by rewrite Z.mul_1_r.
      * rewrite Z.div_div by lia. f_equal. f_equal.
        replace (bytesLen n + 1 - 3) with (Z.succ (bytesLen n - 3)) by lia.
        rewrite Z.pow_succ_r by lia. lia.
Qed.

Lemma CompactToBig_truncates (n : Z) :
  0 ≤ n < 2 ^ 2039 →
  ∃ k, 0 ≤ k ∧ CompactToBig (BigToCompact n) = n / 256 ^ k * 256 ^ k ∧
       (k = 0 ∨ 2 ^ 15 * 256 ^ k ≤ n).
Proof.
  intros Hn. destruct (decide (n = 0)) as [->|]; [exists 0; split_and!; [lia|done|by left]|].
  rewrite CompactToBig_round by lia. cbv zeta.
  set (k := _ - 3). destruct (Z.leb_spec k 0) as [Hk|Hk].
  { exists 0. rewrite Z.div_1_r. split; [lia|]. split; [cbn; lia|by left]. }
  exists k. split; [lia|]. split; [done|]. right.
  pose proof (mant_bounds n ltac:(lia)) as Hm.
  pose proof (bytesLen_bounds n ltac:(lia)) as [[H1 _] _].
  subst k. destruct (Z.ltb_spec (mant n) (2 ^ 23)) as [Hs|Hs].
  - replace (bytesLen n - 1) with (bytesLen n - 3 + 2) in H1 by lia.
    rewrite Z.pow_add_r in H1 by lia. zlia.
  - unfold mant in Hs. destruct (Z.leb_spec (bytesLen n) 3).
    + replace (bytesLen n) with 3 in * by lia. cbn in *. zlia.
    + replace (bytesLen n + 1 - 3) with (Z.succ (bytesLen n - 3)) by lia.
      rewrite Z.pow_succ_r by lia. assert (0 < 256 ^ (bytesLen n - 3)) by (apply Z.pow_pos_nonneg; lia).
      pose proof (Z.mul_div_le n (256 ^ (bytesLen n - 3)) ltac:(lia)). pow2_norm. nia.
Qed.

(** A relative error below [2^-15] *)
Lemma compact_error n : 0 ≤ n < 2 ^ 2039 →
  CompactToBig (BigToCompact n) ≤ n ∧ (n - CompactToBig (BigToCompact n)) * 2 ^ 15 ≤ n.
Proof.
  intros Hn. destruct (CompactToBig_truncates n Hn) as (k & Hk & -> & Hc).
  pose proof (Z.pow_pos_nonneg 256 k ltac:(lia) Hk) as Hp.
  pose proof (Z.mul_div_le n (256 ^ k) Hp). pose proof (Z.mod_pos_bound n (256 ^ k) Hp) as Hm.
  rewrite Z.mod_eq in Hm by lia. split; [lia|].
  destruct Hc as [->|Hc]; [rewrite Z.div_1_r; cbn; lia|]. nia.
Qed.

(** The compact form is the floating-point truncation of a
    target: for every target below [2^2039], decoding [BigToCompact n] gives
    back [n] with its [k] low bytes cleared for some [k], and bytes are only
    ever dropped when at least 15 significant bits remain above them, so the
    relative error is below [2^-15]. *)
Theorem compact_truncates (n : Z) :
  0 ≤ n < 2 ^ 2039 →
  ∃ k, 0 ≤ k ∧ CompactToBig (BigToCompact n) = n / 256 ^ k * 256 ^ k ∧
       (k = 0 ∨ 2 ^ 15 * 256 ^ k ≤ n).
Proof. apply CompactToBig_truncates. Qed.

Lemma compact_truncates_witness :
  ∃ k, 0 ≤ k ∧ CompactToBig (BigToCompact 0x1234567890) = 0x1234567890 / 256 ^ k * 256 ^ k ∧
       (k = 0 ∨ 2 ^ 15 * 256 ^ k ≤ 0x1234567890).
Proof. apply (compact_truncates 0x1234567890). vm_compute; split; congruence. Defined.


Lemma canonical_roundtrip c : canonical c → BigToCompact (CompactToBig c) = c.
Proof.
  intros [->|(e & m & -> & He & Hm & Hd)]; [done|].
  destruct (CompactToBig_canonical e m He Hm Hd) as (Hpos & Hlen & Hmant).
  set (n := CompactToBig _) in *.
  assert (n < 2 ^ 2039).
  { subst n. rewrite CompactToBig_pack by zlia.
    replace (2 ^ 2039) with (2 ^ 23 * 256 ^ 252) by reflexivity.
    destruct (Z.leb_spec e 3).
    - apply Z.le_lt_trans with m; [|zlia]. apply Z.div_le_upper_bound.
      + apply Z.pow_pos_nonneg; lia.
      + assert (0 < 256 ^ (3 - e)) by (apply Z.pow_pos_nonneg; lia). nia.
    - assert (256 ^ (e - 3) ≤ 256 ^ 252) by (apply Z.pow_le_mono_r; lia).
      assert (0 < 256 ^ (e - 3)) by (apply Z.pow_pos_nonneg; lia). nia. }
  rewrite BigToCompact_pos by done. rewrite Hmant, Hlen.
  destruct (Z.ltb_spec m (2 ^ 16)).
  - destruct (Z.ltb_spec (m * 256) (2 ^ 23)); [zlia|]. rewrite Z.div_mul by lia. lia.
  - destruct (Z.ltb_spec m (2 ^ 23)); lia.
Qed.

(** Every compact value the node produces is in normal form and
    survives decoding and re-encoding, so the bits recomputed from a stored
    target are the bits stored in the header. *)
Theorem compact_stable (n : Z) :
  0 ≤ n < 2 ^ 2039 →
  canonical (BigToCompact n) ∧
  BigToCompact (CompactToBig (BigToCompact n)) = BigToCompact n.
Proof.
  intros Hn. pose proof (BigToCompact_canonical n Hn).
  split; [done|by apply canonical_roundtrip].
Qed.

Lemma compact_stable_witness :
  canonical (BigToCompact 0x80) ∧
  BigToCompact (CompactToBig (BigToCompact 0x80)) = BigToCompact 0x80.
Proof. apply (compact_stable 0x80). vm_compute; split; congruence. Defined.

(** Work is the number of hashes a target is expected to cost,
    [2^256 / (target + 1)]: it is zero for the non-positive targets an invalid
    header can carry, positive for every target below [2^256], larger for
    smaller targets, and the pooled variant [CalcWorkInto] computes the same
    value whatever the recycled integer held. *)
Theorem calcwork_spec (b1 b2 r : Z) :
  CompactToBig b1 ≤ CompactToBig b2 →
  (CompactToBig b1 ≤ 0 → CalcWork b1 = 0) ∧
  (0 < CompactToBig b1 → CalcWork b2 ≤ CalcWork b1) ∧
  (0 < CompactToBig b2 < 2 ^ 256 →
     0 < CalcWork b2 ∧
     CalcWork b2 * (CompactToBig b2 + 1) ≤ 2 ^ 256 < (CalcWork b2 + 1) * (CompactToBig b2 + 1)) ∧
  CalcWorkInto b1 r = CalcWork b1.
Proof.
  intros Hle. unfold CalcWorkInto, CalcWork, oneLsh256.
  rewrite Z.shiftl_mul_pow2, Z.mul_1_l by lia.
  set (t1 := CompactToBig b1) in *. set (t2 := CompactToBig b2) in *. split_and!; intros.
  - destruct (Z.leb_spec (Z.sgn t1) 0); [done|]. lia.
  - destruct (Z.leb_spec (Z.sgn t2) 0), (Z.leb_spec (Z.sgn t1) 0); try lia.
    apply Z.div_le_compat_l; lia.
  - destruct (Z.leb_spec (Z.sgn t2) 0); [lia|]. split.
    + apply Z.div_str_pos. lia.
    + pose proof (Z.div_mod (2 ^ 256) (t2 + 1) ltac:(lia)).
      pose proof (Z.mod_pos_bound (2 ^ 256) (t2 + 1) ltac:(lia)). lia.
  - done.
Qed.

Lemma calcwork_spec_witness :
  CompactToBig 0x1b0404cb ≤ CompactToBig 0x1d00ffff ∧
  CalcWork 0x1d00ffff ≤ CalcWork 0x1b0404cb.
Proof.
  split; [vm_compute; congruence|].
  destruct (calcwork_spec 0x1b0404cb 0x1d00ffff 0) as (_ & H & _); [vm_compute; congruence|].
  apply H. vm_compute. reflexivity.
Defined.

(** [HashToBig] reads the 32 hash bytes little-endian: the
    in-place reversal followed by [SetBytes] never indexes out of range and gives
    the little-endian value, below [2^256]. *)
Theorem HashToBig_le (hash : list byte) :
  length hash = 32%nat →
  HashToBig hash = Done (le_val hash) ∧ 0 ≤ le_val hash < 2 ^ 256.
Proof.
  intros Hl. split.
  - unfold HashToBig. replace (length hash - 1)%nat with (pred (length hash)) by lia.
    rewrite rev_range_all by (rewrite Hl; simpl; lia).
    cbn. unfold SetBytes, be_val. by rewrite reverse_involutive.
  - pose proof (le_val_range hash) as H. rewrite Hl in H. exact H.
Qed.

Lemma HashToBig_le_witness :
  HashToBig (replicate 31 Byte.x00 ++ [Byte.x01]) = Done (2 ^ 248).
Proof.
  pose proof (proj1 (HashToBig_le (replicate 31 Byte.x00 ++ [Byte.x01]) eq_refl)) as H.
  exact H.
Defined.

End WorkMath.
