(* ===== verification/Compress.v ===== *)
(** * Compact storage encodings of transaction outputs

    Model of [backend/blockchain/compress.go]: variable length quantities (VLQ),
    the domain specific script and amount compression, and the compressed
    transaction outputs built from them.  Byte slices are [list byte]; a function
    that writes into a caller's slice takes the slice and returns the new one;
    an index out of range is [Panic].  [btcec.ParsePubKey] wraps a third-party
    secp256k1 package and is a parameter (class [SecKeys]). *)

From S2P Require Import Prelude.

Module Compress.

(** ** Variable length quantities *)

(** A [uint64] has at most ten VLQ digits, so ten rounds are enough for the two
    loops below ([vlq_put] shows it). *)
Definition vlqFuel : nat := 10.

Fixpoint serializeSizeVLQ_loop (fuel : nat) (n size : Z) : run Z :=
  if 0x7f <? n then
    match fuel with
    | O => NoFuel
    | S fuel => serializeSizeVLQ_loop fuel (u64 (Z.shiftr n 7 - 1)) (size + 1)
    end
  else Done size.

Definition serializeSizeVLQ (n : Z) : run Z := serializeSizeVLQ_loop vlqFuel n 1.

Fixpoint putVLQ_loop (fuel : nat) (target : list byte) (offset n : Z) : run (list byte * Z) :=
  match fuel with
  | O => NoFuel
  | S fuel =>
      let highBitMask := if offset =? 0 then 0x00 else 0x80 in
      target ← store target offset (z2b (Z.lor (u8 (Z.land n 0x7f)) highBitMask));
      if n <=? 0x7f then Done (target, offset)
      else putVLQ_loop fuel target (offset + 1) (u64 (Z.shiftr n 7 - 1))
  end.

Definition putVLQ (target : list byte) (n : Z) : run (list byte * Z) :=
  '(target, offset) ← putVLQ_loop vlqFuel target 0 n;
  target ← rev_range vlqFuel target 0 (Z.to_nat offset);
  Done (target, offset + 1).

Fixpoint deserializeVLQ_loop (serialized : list byte) (n size : Z) : Z * Z :=
  match serialized with
  | [] => (n, size)
  | val :: serialized =>
      let size := size + 1 in
      let n := Z.lor (u64 (Z.shiftl n 7)) (Z.land (b2z val) 0x7f) in
      if negb (Z.land (b2z val) 0x80 =? 0x80) then (n, size)
      else deserializeVLQ_loop serialized (u64 (n + 1)) size
  end.

Definition deserializeVLQ (serialized : list byte) : Z * Z :=
  deserializeVLQ_loop serialized 0 0.

(** ** Script compression *)

Definition OP_DATA_20 : Z := 0x14.
Definition OP_DATA_33 : Z := 0x21.
Definition OP_DATA_65 : Z := 0x41.
Definition OP_DUP : Z := 0x76.
Definition OP_EQUAL : Z := 0x87.
Definition OP_EQUALVERIFY : Z := 0x88.
Definition OP_HASH160 : Z := 0xa9.
Definition OP_CHECKSIG : Z := 0xac.

Definition cstPayToPubKeyHash : Z := 0.
Definition cstPayToScriptHash : Z := 1.
Definition cstPayToPubKeyComp2 : Z := 2.
Definition cstPayToPubKeyComp3 : Z := 3.
Definition cstPayToPubKeyUncomp4 : Z := 4.
Definition cstPayToPubKeyUncomp5 : Z := 5.
Definition numSpecialScripts : Z := 6.

(** [script[i]] where the guard before it has checked the length. *)
Definition byteAt (script : list byte) (i : nat) : Z := default 0 (b2z <$> script !! i).

(** [script[lo:hi]] where the guard before it has checked the length. *)
Definition sub (script : list byte) (lo hi : nat) : list byte := take (hi - lo) (drop lo script).

(** The secp256k1 package behind [btcec.ParsePubKey]. *)
Class SecKeys := {
  PubKey : Type;
  ParsePubKey : list byte → option PubKey;
  SerializeUncompressed : PubKey → list byte;
}.

(** What the compression relies on (SEC 1 encodings): an uncompressed key that
    parses serializes to the same 65 bytes, and its compressed form, the x
    coordinate under the parity of y, parses to the same key. *)
Class SecKeysOk (K : SecKeys) : Prop := {
  sec_uncompressed : ∀ x y k, length x = 32%nat → length y = 32%nat →
    ParsePubKey (z2b 4 :: x ++ y) = Some k → SerializeUncompressed k = z2b 4 :: x ++ y;
  sec_compressed : ∀ x y k, length x = 32%nat → length y = 32%nat →
    ParsePubKey (z2b 4 :: x ++ y) = Some k →
    ParsePubKey (z2b (2 + Z.land (byteAt y 31) 1) :: x) = Some k;
}.

Definition isPubKeyHash (script : list byte) : option (list byte) :=
  if (zlen script =? 25) && (byteAt script 0 =? OP_DUP) && (byteAt script 1 =? OP_HASH160) &&
     (byteAt script 2 =? OP_DATA_20) && (byteAt script 23 =? OP_EQUALVERIFY) &&
     (byteAt script 24 =? OP_CHECKSIG)
  then Some (sub script 3 23) else None.

Definition isScriptHash (script : list byte) : option (list byte) :=
  if (zlen script =? 23) && (byteAt script 0 =? OP_HASH160) && (byteAt script 1 =? OP_DATA_20) &&
     (byteAt script 22 =? OP_EQUAL)
  then Some (sub script 2 22) else None.

Section scripts.
Context {K : SecKeys}.

Definition isPubKey (script : list byte) : option (list byte) :=
  let compressed :=
    if (zlen script =? 35) && (byteAt script 0 =? OP_DATA_33) &&
       (byteAt script 34 =? OP_CHECKSIG) &&
       ((byteAt script 1 =? 0x02) || (byteAt script 1 =? 0x03))
    then let serializedPubKey := sub script 1 34 in
         match ParsePubKey serializedPubKey with Some _ => Some serializedPubKey | None => None end
    else None in
  match compressed with
  | Some k => Some k
  | None =>
      if (zlen script =? 67) && (byteAt script 0 =? OP_DATA_65) &&
         (byteAt script 66 =? OP_CHECKSIG) && (byteAt script 1 =? 0x04)
      then let serializedPubKey := sub script 1 66 in
           match ParsePubKey serializedPubKey with Some _ => Some serializedPubKey | None => None end
      else None
  end.

Definition compressedScriptSize (pkScript : list byte) : run Z :=
  match isPubKeyHash pkScript with
  | Some _ => Done 21
  | None =>
  match isScriptHash pkScript with
  | Some _ => Done 21
  | None =>
  match isPubKey pkScript with
  | Some _ => Done 33
  | None =>
      s ← serializeSizeVLQ (u64 (zlen pkScript + numSpecialScripts));
      Done (s + zlen pkScript)
  end end end.

Definition decodeCompressedScriptSize (serialized : list byte) : Z :=
  let '(scriptSize, bytesRead) := deserializeVLQ serialized in
  if bytesRead =? 0 then 0
  else if scriptSize =? cstPayToPubKeyHash then 21
  else if scriptSize =? cstPayToScriptHash then 21
  else if (scriptSize =? cstPayToPubKeyComp2) || (scriptSize =? cstPayToPubKeyComp3) ||
          (scriptSize =? cstPayToPubKeyUncomp4) || (scriptSize =? cstPayToPubKeyUncomp5) then 33
  else
    let scriptSize := u64 (scriptSize - numSpecialScripts) in
    let scriptSize := u64 (scriptSize + bytesRead) in
    i64 scriptSize.

(** [copy(target[lo:hi], src)]: slicing past the end panics. *)
Definition copyInto (target : list byte) (lo hi : Z) (src : list byte) : run (list byte) :=
  mid ← slice target lo hi;
  Done (take (Z.to_nat lo) target ++ gocopy mid src ++ drop (Z.to_nat hi) target).

Definition putCompressedScript (target pkScript : list byte) : run (list byte * Z) :=
  match isPubKeyHash pkScript with
  | Some hash =>
      target ← store target 0 (z2b cstPayToPubKeyHash);
      target ← copyInto target 1 21 hash;
      Done (target, 21)
  | None =>
  match isScriptHash pkScript with
  | Some hash =>
      target ← store target 0 (z2b cstPayToScriptHash);
      target ← copyInto target 1 21 hash;
      Done (target, 21)
  | None =>
  let general :=
    let encodedSize := u64 (zlen pkScript + numSpecialScripts) in
    '(target, vlqSizeLen) ← putVLQ target encodedSize;
    target ← copyInto target vlqSizeLen (zlen target) pkScript;
    Done (target, vlqSizeLen + zlen pkScript) in
  match isPubKey pkScript with
  | Some serializedPubKey =>
      let pubKeyFormat := byteAt serializedPubKey 0 in
      if (pubKeyFormat =? 0x02) || (pubKeyFormat =? 0x03) then
        target ← store target 0 (z2b pubKeyFormat);
        target ← copyInto target 1 33 (sub serializedPubKey 1 33);
        Done (target, 33)
      else if pubKeyFormat =? 0x04 then
        target ← store target 0
          (z2b (Z.lor pubKeyFormat (Z.land (byteAt serializedPubKey 64) 0x01)));
        target ← copyInto target 1 33 (sub serializedPubKey 1 33);
        Done (target, 33)
      else general
  | None => general
  end end end.

(** The result is [None] for Go's nil slice. *)
Definition decompressScript (compressedPkScript : list byte) : run (option (list byte)) :=
  if zlen compressedPkScript =? 0 then Done None else
  let '(encodedScriptSize, bytesRead) := deserializeVLQ compressedPkScript in
  if encodedScriptSize =? cstPayToPubKeyHash then
    hash ← slice compressedPkScript bytesRead (bytesRead + 20);
    Done (Some ([z2b OP_DUP; z2b OP_HASH160; z2b OP_DATA_20] ++ hash ++
                [z2b OP_EQUALVERIFY; z2b OP_CHECKSIG]))
  else if encodedScriptSize =? cstPayToScriptHash then
    hash ← slice compressedPkScript bytesRead (bytesRead + 20);
    Done (Some ([z2b OP_HASH160; z2b OP_DATA_20] ++ hash ++ [z2b OP_EQUAL]))
  else if (encodedScriptSize =? cstPayToPubKeyComp2) ||
          (encodedScriptSize =? cstPayToPubKeyComp3) then
    x ← slice compressedPkScript bytesRead (bytesRead + 32);
    Done (Some ([z2b OP_DATA_33; z2b encodedScriptSize] ++ x ++ [z2b OP_CHECKSIG]))
  else if (encodedScriptSize =? cstPayToPubKeyUncomp4) ||
          (encodedScriptSize =? cstPayToPubKeyUncomp5) then
    rest ← slice compressedPkScript 1 (zlen compressedPkScript);
    let compressedKey :=
      z2b (encodedScriptSize - 2) :: gocopy (replicate 32 (z2b 0)) rest in
    match ParsePubKey compressedKey with
    | None => Done None
    | Some key =>
        let pkScript := gocopy (replicate 66 (z2b 0)) (SerializeUncompressed key) in
        Done (Some (z2b OP_DATA_65 :: take 65 pkScript ++ [z2b OP_CHECKSIG]))
    end
  else
    let scriptSize := i64 (u64 (encodedScriptSize - numSpecialScripts)) in
    pkScript ← make (z2b 0) scriptSize;
    src ← slice compressedPkScript bytesRead (bytesRead + scriptSize);
    Done (Some (gocopy pkScript src)).

(** ** Amount compression *)

(** The exponent stops at nine, so nine rounds are enough. *)
Fixpoint compress_loop (fuel : nat) (amount exponent : Z) : Z * Z :=
  match fuel with
  | O => (amount, exponent)
  | S fuel =>
      if (amount `mod` 10 =? 0) && (exponent <? 9)
      then compress_loop fuel (amount / 10) (exponent + 1)
      else (amount, exponent)
  end.

Definition compressTxOutAmount (amount : Z) : Z :=
  if amount =? 0 then 0 else
  let '(amount, exponent) := compress_loop 9 amount 0 in
  if exponent <? 9 then
    let lastDigit := amount `mod` 10 in
    let amount := amount / 10 in
    u64 (1 + 10 * (9 * amount + lastDigit - 1) + exponent)
  else u64 (10 + 10 * (amount - 1)).

Fixpoint applyExponent (exponent : nat) (n : Z) : Z :=
  match exponent with
  | O => n
  | S exponent => applyExponent exponent (u64 (n * 10))
  end.

Definition decompressTxOutAmount (amount : Z) : Z :=
  if amount =? 0 then 0 else
  let amount := amount - 1 in
  let exponent := amount `mod` 10 in
  let amount := amount / 10 in
  let n :=
    if exponent <? 9 then
      let lastDigit := amount `mod` 9 + 1 in
      let amount := amount / 9 in
      u64 (amount * 10 + lastDigit)
    else u64 (amount + 1) in
  applyExponent (Z.to_nat exponent) n.

(** ** Compressed transaction outputs *)

Definition compressedTxOutSize (amount : Z) (pkScript : list byte) : run Z :=
  a ← serializeSizeVLQ (compressTxOutAmount amount);
  s ← compressedScriptSize pkScript;
  Done (a + s).

Definition putCompressedTxOut (target : list byte) (amount : Z) (pkScript : list byte)
    : run (list byte * Z) :=
  '(target, offset) ← putVLQ target (compressTxOutAmount amount);
  tail ← slice target offset (zlen target);
  '(tail, n) ← putCompressedScript tail pkScript;
  Done (take (Z.to_nat offset) target ++ tail, offset + n).

Inductive errDeserialize :=
| EndAfterAmount
| EndAfterScriptSize.

(** Amount, script, bytes read and error, as the four results of the function. *)
Definition decodeCompressedTxOut (serialized : list byte)
    : run (Z * option (list byte) * Z * option errDeserialize) :=
  let '(compressedAmount, bytesRead) := deserializeVLQ serialized in
  if zlen serialized <=? bytesRead then Done (0, None, bytesRead, Some EndAfterAmount) else
  rest ← slice serialized bytesRead (zlen serialized);
  let scriptSize := decodeCompressedScriptSize rest in
  if zlen rest <? scriptSize then Done (0, None, bytesRead, Some EndAfterScriptSize) else
  let amount := decompressTxOutAmount compressedAmount in
  body ← slice serialized bytesRead (bytesRead + scriptSize);
  script ← decompressScript body;
  Done (amount, script, bytesRead + scriptSize, None).

End scripts.

(** ** Reference encoding of VLQs and its lemmas *)

(** The continuation bytes of a VLQ, most significant first. *)
Fixpoint vlq_hi (fuel : nat) (n : Z) : list byte :=
  match fuel with
  | O => []
  | S fuel =>
      (if n <=? 0x7f then [] else vlq_hi fuel (n / 128 - 1)) ++ [z2b (128 + n `mod` 128)]
  end.

Definition vlq_f (fuel : nat) (n : Z) : list byte :=
  (if n <=? 0x7f then [] else vlq_hi fuel (n / 128 - 1)) ++ [z2b (n `mod` 128)].

Definition vlq (n : Z) : list byte := vlq_f 9 n.

Lemma vlq_byte n : 0 ≤ n →
  Z.lor (u8 (Z.land n 0x7f)) 0x00 = n `mod` 128 ∧
  Z.lor (u8 (Z.land n 0x7f)) 0x80 = 128 + n `mod` 128.
Proof.
  intros Hn. change 0x7f with (Z.ones 7). rewrite Z.land_ones by lia.
  change (2 ^ 7) with 128. pose proof (Z.mod_pos_bound n 128 ltac:(lia)).
  rewrite uwrap_small by zlia. split; [apply Z.lor_0_r|].
  rewrite Z.lor_comm. change 128 with (1 * 2 ^ 7) at 1. rewrite lor_pack by zlia. zlia.
Qed.

Lemma vlq_byte_low d : 0 ≤ d < 128 →
  Z.land (b2z (z2b d)) 0x7f = d ∧ (Z.land (b2z (z2b d)) 0x80 =? 0x80) = false.
Proof.
  intros Hd. rewrite b2z_z2b_small by lia. change 0x7f with (Z.ones 7).
  change 0x80 with (2 ^ 7). rewrite Z.land_ones, land_pow2, testbit_top, Z.mod_small by zlia.
  destruct (Z.leb_spec (2 ^ 7) d); [zlia|done].
Qed.

Lemma vlq_byte_high d : 0 ≤ d < 128 →
  Z.land (b2z (z2b (128 + d))) 0x7f = d ∧ (Z.land (b2z (z2b (128 + d))) 0x80 =? 0x80) = true.
Proof.
  intros Hd. rewrite b2z_z2b_small by lia. change 0x7f with (Z.ones 7).
  change 0x80 with (2 ^ 7). rewrite Z.land_ones, land_pow2, testbit_top by zlia.
  destruct (Z.leb_spec (2 ^ 7) (2 ^ 7 + d)); [|zlia]. split; [zdm|apply Z.eqb_refl].
Qed.

Lemma vlq_next n : 0x7f < n < 2 ^ 64 →
  u64 (Z.shiftr n 7 - 1) = n / 128 - 1 ∧ 0 ≤ n / 128 - 1 < 2 ^ 64.
Proof.
  intros Hn. rewrite Z.shiftr_div_pow2 by lia. change (2 ^ 7) with 128.
  assert (0 ≤ n / 128 - 1 < 2 ^ 64) by zdm. split; [|done]. by apply uwrap_small.
Qed.

Lemma pow128_next f n : 0x7f < n < 128 ^ Z.of_nat (S f) →
  f ≠ O ∧ n / 128 - 1 < 128 ^ Z.of_nat f.
Proof.
  rewrite Nat2Z.inj_succ, Z.pow_succ_r by lia. intros. split; [intros ->; cbn in *; lia|].
  assert (n / 128 < 128 ^ Z.of_nat f) by (apply Z.div_lt_upper_bound; lia). lia.
Qed.

Lemma store_middle {A} (pre : list A) x post b :
  store (pre ++ x :: post) (zlen pre) b = Done (pre ++ b :: post).
Proof.
  unfold store. rewrite decide_True by (autorewrite with go_list; pose proof (zlen_nonneg post);
    pose proof (zlen_nonneg pre); lia).
  f_equal. unfold zlen. rewrite Nat2Z.id, insert_app_r_alt, Nat.sub_diag; done.
Qed.

(** The loop of [putVLQ] past its first byte writes the continuation bytes in
    reverse. *)
Lemma putVLQ_loop_hi f pre post n :
  0 ≤ n < 2 ^ 64 → f ≠ O ∧ n < 128 ^ Z.of_nat f → pre ≠ [] → (length (vlq_hi f n) ≤ length post)%nat →
  putVLQ_loop f (pre ++ post) (zlen pre) n =
  Done (pre ++ reverse (vlq_hi f n) ++ drop (length (vlq_hi f n)) post,
        zlen pre + zlen (vlq_hi f n) - 1).
Proof.
  revert pre post n. induction f as [|f IH]; intros pre post n Hn Hf Hpre Hlen.
  { by destruct Hf. }
  cbn [putVLQ_loop]. destruct (Z.eqb_spec (zlen pre) 0) as [E|_].
  { destruct pre; [done|]. rewrite zlen_cons in E. pose proof (zlen_nonneg pre). lia. }
  rewrite (proj2 (vlq_byte n ltac:(lia))).
  destruct post as [|x post]; [cbn in Hlen; rewrite length_app in Hlen; simpl in Hlen; lia|].
  rewrite store_middle. cbn [mbind run_bind]. cbn [vlq_hi] in *.
  destruct (Z.leb_spec n 127) as [Hs|Hs].
  - cbn. do 2 f_equal. unfold zlen. simpl. lia.
  - destruct (vlq_next n ltac:(lia)) as [-> Hb].
    rewrite length_app in Hlen. cbn [length] in Hlen.
    replace (zlen pre + 1) with (zlen (pre ++ [z2b (128 + n `mod` 128)]))
      by (autorewrite with go_list; unfold zlen; simpl; lia).
    change (pre ++ z2b (128 + n `mod` 128) :: post)
      with (pre ++ [z2b (128 + n `mod` 128)] ++ post).
    rewrite (assoc_L (++)), IH; [|done|apply pow128_next; lia|by destruct pre|lia].
    rewrite reverse_app, reverse_singleton, length_app, zlen_app. cbn [length].
    replace (length (vlq_hi f (n / 128 - 1)) + 1)%nat
      with (S (length (vlq_hi f (n / 128 - 1)))) by lia.
    cbn [drop]. rewrite <-!(assoc_L (++)). do 2 f_equal.
    autorewrite with go_list. unfold zlen; simpl; lia.
Qed.

Lemma zlen_one {A} (x : A) : zlen [x] = 1.
Proof. done. Qed.

#[local] Hint Rewrite @zlen_one : go_list.

Lemma zlen_vlq_hi f n : zlen (vlq_hi f n) ≤ Z.of_nat f.
Proof.
  revert n. induction f as [|f IH]; intros n; [done|]. cbn [vlq_hi]. rewrite zlen_app, zlen_one.
  specialize (IH (n / 128 - 1)). destruct (n <=? 127); [change (zlen []) with 0|]; lia.
Qed.

Lemma zlen_vlq n : 1 ≤ zlen (vlq n) ≤ 10.
Proof.
  unfold vlq, vlq_f. rewrite zlen_app, zlen_one. pose proof (zlen_vlq_hi 9 (n / 128 - 1)).
  pose proof (zlen_nonneg (vlq_hi 9 (n / 128 - 1))).
  destruct (n <=? 127); [change (zlen []) with 0|]; lia.
Qed.

Lemma vlq_fuel n : 0x7f < n < 2 ^ 64 → 9%nat ≠ O ∧ n / 128 - 1 < 128 ^ Z.of_nat 9.
Proof. intros. split; [done|]. change (Z.of_nat 9) with 9. zdm. Qed.

Lemma serializeSizeVLQ_loop_spec f n size :
  0 ≤ n < 2 ^ 64 → f ≠ O ∧ n < 128 ^ Z.of_nat f →
  serializeSizeVLQ_loop f n size = Done (size + zlen (vlq_hi f n) - 1).
Proof.
  revert n size. induction f as [|f IH]; intros n size Hn [Hf0 Hf]; [done|].
  cbn [serializeSizeVLQ_loop vlq_hi]. rewrite zlen_app, zlen_one.
  destruct (Z.ltb_spec 127 n), (Z.leb_spec n 127); try lia.
  - destruct (vlq_next n ltac:(lia)) as [-> Hb].
    rewrite IH; [|done|apply pow128_next; lia]. f_equal. lia.
  - f_equal. change (zlen []) with 0. lia.
Qed.

Lemma serializeSizeVLQ_spec n : 0 ≤ n < 2 ^ 64 → serializeSizeVLQ n = Done (zlen (vlq n)).
Proof.
  intros Hn. unfold serializeSizeVLQ, vlq, vlq_f. rewrite zlen_app, zlen_one.
  change vlqFuel with (S 9). destruct (Z.leb_spec n 127) as [Hs|Hs].
  - cbn [serializeSizeVLQ_loop]. destruct (Z.ltb_spec 127 n); [lia|done].
  - rewrite serializeSizeVLQ_loop_spec; [|done|split; [done|change (Z.of_nat 10) with 10; zlia]].
    cbn [vlq_hi]. destruct (Z.leb_spec n 127); [lia|]. rewrite zlen_app, zlen_one.
    f_equal. set (z := zlen _). lia.
Qed.

Lemma putVLQ_loop_spec f target n :
  0 ≤ n < 2 ^ 64 → (0x7f < n → f ≠ O ∧ n / 128 - 1 < 128 ^ Z.of_nat f) →
  1 ≤ zlen (vlq_f f n) ≤ zlen target →
  putVLQ_loop (S f) target 0 n =
  Done (reverse (vlq_f f n) ++ drop (length (vlq_f f n)) target, zlen (vlq_f f n) - 1).
Proof.
  intros Hn Hf Hlen. cbn [putVLQ_loop].
  rewrite Z.eqb_refl. rewrite (proj1 (vlq_byte n ltac:(lia))).
  destruct target as [|x target]; [change (zlen []) with 0 in Hlen; lia|].
  change (store (x :: target) 0 (z2b (n `mod` 128)))
    with (store ([] ++ x :: target) (zlen (@nil byte)) (z2b (n `mod` 128))).
  rewrite store_middle. cbn [mbind run_bind app]. unfold vlq_f in *.
  destruct (Z.leb_spec n 127) as [Hs|Hs]; [done|].
  destruct (vlq_next n ltac:(lia)) as [-> Hb].
  rewrite zlen_app, zlen_one, zlen_cons in Hlen.
  pose proof (putVLQ_loop_hi f [z2b (n `mod` 128)] target (n / 128 - 1) Hb (Hf ltac:(lia)) ltac:(done)) as E.
  cbn [app] in E. change (0 + 1) with (zlen [z2b (n `mod` 128)]). rewrite E by (unfold zlen in *; lia).
  rewrite reverse_app, reverse_singleton, length_app, !zlen_app, !zlen_one. cbn [length app].
  replace (length (vlq_hi f (n / 128 - 1)) + 1)%nat
    with (S (length (vlq_hi f (n / 128 - 1)))) by lia.
  cbn [drop]. do 2 f_equal. lia.
Qed.

(** [putVLQ] writes the reference encoding over a prefix of the target. *)
Lemma vlq_put target n :
  0 ≤ n < 2 ^ 64 → zlen (vlq n) ≤ zlen target →
  putVLQ target n = Done (vlq n ++ drop (length (vlq n)) target, zlen (vlq n)).
Proof.
  intros Hn Hlen. pose proof (zlen_vlq n) as Hv. unfold putVLQ.
  assert (putVLQ_loop vlqFuel target 0 n =
    Done (reverse (vlq n) ++ drop (length (vlq n)) target, zlen (vlq n) - 1)) as ->.
  { apply (putVLQ_loop_spec 9); [done| |].
    - intros. apply vlq_fuel. lia.
    - change (vlq_f 9 n) with (vlq n). lia. }
  cbn [mbind run_bind].
  pose proof (rev_range_spec vlqFuel [] (reverse (vlq n)) (drop (length (vlq n)) target)) as E.
  rewrite length_reverse in E. cbn [app length] in E.
  replace (Z.to_nat (zlen (vlq n) - 1)) with (pred (0 + length (vlq n))) by (unfold zlen; lia).
  rewrite E by (unfold zlen, vlqFuel in *; lia). cbn [mbind run_bind].
  rewrite reverse_involutive. do 2 f_equal. lia.
Qed.

Lemma deserializeVLQ_hi f n rest :
  0 ≤ n < 2 ^ 64 - 1 → f ≠ O ∧ n < 128 ^ Z.of_nat f →
  deserializeVLQ_loop (vlq_hi f n ++ rest) 0 0 =
  deserializeVLQ_loop rest (n + 1) (zlen (vlq_hi f n)).
Proof.
  revert n rest. induction f as [|f IH]; intros n rest Hn [Hf0 Hf]; [done|].
  cbn [vlq_hi]. rewrite zlen_app, zlen_one, <-(assoc_L (++)).
  destruct (vlq_byte_high (n `mod` 128) ltac:(zdm)) as [El Eh].
  destruct (Z.leb_spec n 127) as [Hs|Hs].
  - cbn [app deserializeVLQ_loop]. rewrite El, Eh. cbn [negb]. rewrite Z.shiftl_0_l.
    change (Z.lor (u64 0) (n `mod` 128)) with (n `mod` 128). rewrite Z.mod_small by lia.
    rewrite uwrap_small by zlia. done.
  - rewrite IH; [|zdm|apply pow128_next; lia]. cbn [app deserializeVLQ_loop].
    rewrite El, Eh. cbn [negb]. rewrite Z.shiftl_mul_pow2 by lia.
    rewrite (uwrap_small 64 (_ * _)), lor_pack by zdm.
    replace ((n / 128 - 1 + 1) * 2 ^ 7 + n `mod` 128) with n by zdm.
    by rewrite uwrap_small by zlia.
Qed.

Lemma deserializeVLQ_spec n rest :
  0 ≤ n < 2 ^ 64 → deserializeVLQ (vlq n ++ rest) = (n, zlen (vlq n)).
Proof.
  intros Hn. unfold deserializeVLQ, vlq, vlq_f. rewrite zlen_app, zlen_one, <-(assoc_L (++)).
  destruct (vlq_byte_low (n `mod` 128) ltac:(zdm)) as [El Eh].
  destruct (Z.leb_spec n 127) as [Hs|Hs].
  - cbn [app deserializeVLQ_loop]. rewrite El, Eh. cbn [negb]. rewrite Z.shiftl_0_l.
    change (Z.lor (u64 0) (n `mod` 128)) with (n `mod` 128). by rewrite Z.mod_small by lia.
  - rewrite deserializeVLQ_hi; [|zdm|apply vlq_fuel; lia]. cbn [app deserializeVLQ_loop].
    rewrite El, Eh. cbn [negb]. rewrite Z.shiftl_mul_pow2 by lia.
    rewrite (uwrap_small 64 (_ * _)), lor_pack by zdm. f_equal. zdm.
Qed.

(** A [uint64] written by [putVLQ] occupies exactly the
    [serializeSizeVLQ] bytes announced for it (between one and ten, so neither
    loop runs away), leaves the rest of the target untouched, and is read back by
    [deserializeVLQ] whatever data follows. *)
Theorem vlq_roundtrip (n : Z) (target : list byte) :
  0 ≤ n < 2 ^ 64 → 10 ≤ zlen target →
  ∃ enc, 1 ≤ zlen enc ≤ 10 ∧
    serializeSizeVLQ n = Done (zlen enc) ∧
    putVLQ target n = Done (enc ++ drop (length enc) target, zlen enc) ∧
    (∀ rest, deserializeVLQ (enc ++ rest) = (n, zlen enc)).
Proof.
  intros Hn Ht. exists (vlq n). pose proof (zlen_vlq n).
  split; [lia|]. split; [by apply serializeSizeVLQ_spec|]. split; [apply vlq_put; lia|].
  intros rest. by apply deserializeVLQ_spec.
Qed.

Lemma vlq_roundtrip_witness : ∃ enc,
  putVLQ (replicate 12 (z2b 0xcc)) 2113664 =
    Done (enc ++ drop (length enc) (replicate 12 (z2b 0xcc)), zlen enc) ∧
  (∀ rest, deserializeVLQ (enc ++ rest) = (2113664, zlen enc)).
Proof.
  destruct (vlq_roundtrip 2113664 (replicate 12 (z2b 0xcc))) as (enc & _ & _ & H1 & H2).
  - vm_compute. split; congruence.
  - vm_compute. congruence.
  - by exists enc.
Defined.

Lemma vlq_hi_surj f cs :
  cs ≠ [] → (length cs ≤ f)%nat → Forall (λ c, 128 ≤ b2z c) cs →
  ∃ n, 0 ≤ n ∧ n + 1 ≤ 2 * 128 ^ zlen cs - 2 ∧ vlq_hi f n = cs.
Proof.
  revert f. induction cs as [|c cs IH] using rev_ind; [done|]. intros f _ Hf Hall.
  apply Forall_app in Hall as [Hall Hc]. rewrite Forall_singleton in Hc.
  rewrite length_app in Hf. cbn [length] in Hf. destruct f as [|f]; [lia|].
  pose proof (b2z_range c) as Hb. set (d := b2z c - 128).
  assert (z2b (128 + d) = c) as Ec by (subst d; replace (128 + (b2z c - 128)) with (b2z c) by lia;
    apply z2b_b2z).
  rewrite zlen_app, zlen_one. destruct (decide (cs = [])) as [->|Hne].
  - exists d. split; [lia|]. split; [change (zlen []) with 0; cbn; lia|].
    cbn [vlq_hi]. destruct (Z.leb_spec d 127); [|lia]. by rewrite Z.mod_small, Ec by lia.
  - destruct (IH f) as (n & Hn0 & Hn1 & Hn2); [done|lia|done|].
    exists ((n + 1) * 128 + d). split; [lia|].
    rewrite Z.pow_add_r by (pose proof (zlen_nonneg cs); lia). split; [lia|].
    cbn [vlq_hi]. destruct (Z.leb_spec ((n + 1) * 128 + d) 127); [lia|].
    replace (((n + 1) * 128 + d) / 128 - 1) with n by (subst d; zdm).
    replace (((n + 1) * 128 + d) `mod` 128) with d by (subst d; zdm). by rewrite Hn2, Ec.
Qed.

(** The encoding has no redundancy: a string of at most nine
    bytes whose last byte is the only one without the continuation bit decodes to
    some [uint64], and [putVLQ] produces exactly that string for it. *)
Theorem vlq_unique (cs : list byte) (c : byte) (target rest : list byte) :
  Forall (λ c, 128 ≤ b2z c) cs → b2z c < 128 → (length cs ≤ 8)%nat →
  zlen target = zlen (cs ++ [c]) →
  ∃ n, 0 ≤ n < 2 ^ 64 ∧ deserializeVLQ ((cs ++ [c]) ++ rest) = (n, zlen (cs ++ [c])) ∧
       putVLQ target n = Done (cs ++ [c], zlen (cs ++ [c])).
Proof.
  intros Hcs Hc Hlen Ht. pose proof (b2z_range c) as Hb.
  assert (∃ n, 0 ≤ n < 2 ^ 64 ∧ vlq n = cs ++ [c]) as (n & Hn & E).
  { destruct (decide (cs = [])) as [->|Hne].
    - exists (b2z c). split; [zlia|]. unfold vlq, vlq_f.
      destruct (Z.leb_spec (b2z c) 127); [|lia]. by rewrite Z.mod_small, z2b_b2z by lia.
    - destruct (vlq_hi_surj 9 cs) as (m & Hm0 & Hm1 & Hm2); [done|lia|done|].
      assert (128 ^ zlen cs ≤ 128 ^ 8) by (apply Z.pow_le_mono_r; unfold zlen; lia).
      exists ((m + 1) * 128 + b2z c). split; [zlia|]. unfold vlq, vlq_f.
      destruct (Z.leb_spec ((m + 1) * 128 + b2z c) 127); [lia|].
      replace (((m + 1) * 128 + b2z c) / 128 - 1) with m by zdm.
      replace (((m + 1) * 128 + b2z c) `mod` 128) with (b2z c) by zdm. by rewrite Hm2, z2b_b2z. }
  exists n. split; [done|]. rewrite <-E in *. split; [by apply deserializeVLQ_spec|].
  rewrite vlq_put by lia. by rewrite drop_ge, app_nil_r by (unfold zlen in *; lia).
Qed.

Lemma vlq_unique_witness : ∃ n, 0 ≤ n < 2 ^ 64 ∧
  deserializeVLQ (([z2b 0x80; z2b 0xff] ++ [z2b 0x7f]) ++ [z2b 1]) = (n, 3) ∧
  putVLQ [z2b 0; z2b 0; z2b 0] n = Done ([z2b 0x80; z2b 0xff] ++ [z2b 0x7f], 3).
Proof.
  apply (vlq_unique [z2b 0x80; z2b 0xff] (z2b 0x7f) [z2b 0; z2b 0; z2b 0] [z2b 1]).
  - repeat constructor; vm_compute; congruence.
  - vm_compute. reflexivity.
  - vm_compute. lia.
  - reflexivity.
Defined.

(** ** Amounts *)

Lemma compress_loop_spec f a e :
  0 < a → 0 ≤ e → e + Z.of_nat f = 9 →
  let '(a', e') := compress_loop f a e in
  0 < a' ∧ e ≤ e' ≤ 9 ∧ a = a' * 10 ^ (e' - e) ∧ (e' < 9 → a' `mod` 10 ≠ 0).
Proof.
  revert a e. induction f as [|f IH]; intros a e Ha He Hf.
  - cbn [compress_loop]. replace (e - e) with 0 by lia. split_and!; lia.
  - cbn [compress_loop]. destruct (Z.eqb_spec (a `mod` 10) 0) as [E|E], (Z.ltb_spec e 9); cbn [andb].
    2-4: (replace (e - e) with 0 by lia; split_and!; lia).
    specialize (IH (a / 10) (e + 1) ltac:(zdm) ltac:(lia) ltac:(lia)).
    destruct (compress_loop f (a / 10) (e + 1)) as [a' e'].
    destruct IH as (? & ? & H' & ?). split_and!; try lia.
    replace (e' - e) with (Z.succ (e' - (e + 1))) by lia. rewrite Z.pow_succ_r by lia.
    assert (a = 10 * (a / 10)) as Ea by zdm. rewrite Ea at 1. rewrite H'. ring.
Qed.

Lemma applyExponent_spec e n :
  0 ≤ n → n * 10 ^ Z.of_nat e < 2 ^ 64 → applyExponent e n = n * 10 ^ Z.of_nat e.
Proof.
  revert n. induction e as [|e IH]; intros n Hn Hb.
  - cbn. lia.
  - cbn [applyExponent]. rewrite Nat2Z.inj_succ, Z.pow_succ_r in * by lia.
    assert (0 < 10 ^ Z.of_nat e) by (apply Z.pow_pos_nonneg; lia).
    rewrite uwrap_small by nia. rewrite IH by lia. ring.
Qed.

Lemma amount_roundtrip_aux a :
  0 ≤ a → 9 * a + 10 ≤ 2 ^ 64 →
  0 ≤ compressTxOutAmount a < 2 ^ 64 ∧ decompressTxOutAmount (compressTxOutAmount a) = a.
Proof.
  intros Ha Hb. destruct (decide (a = 0)) as [->|Hne]; [by vm_compute|].
  unfold compressTxOutAmount. destruct (Z.eqb_spec a 0) as [|_]; [done|].
  pose proof (compress_loop_spec 9 a 0 ltac:(lia) ltac:(lia) ltac:(done)) as H.
  destruct (compress_loop 9 a 0) as [a' e]. destruct H as (Ha' & He & Ea & Hmod).
  rewrite Z.sub_0_r in Ea. assert (0 < 10 ^ e) by (apply Z.pow_pos_nonneg; lia).
  assert (a' ≤ a) by nia.
  assert (∀ x, applyExponent (Z.to_nat e) a' = x ↔ a = x) as Happ.
  { intros x. rewrite applyExponent_spec, Z2Nat.id; [by rewrite Ea|lia..|].
    rewrite Z2Nat.id, <-Ea; zlia. }
  destruct (Z.ltb_spec e 9) as [He9|He9].
  - specialize (Hmod He9). set (n := a' / 10). set (d := a' `mod` 10).
    assert (a' = 10 * n + d ∧ 1 ≤ d ≤ 9 ∧ 0 ≤ n) as (E1 & E2 & E3) by (subst n d; zdm).
    rewrite uwrap_small by zlia. split; [zlia|]. unfold decompressTxOutAmount.
    destruct (Z.eqb_spec (1 + 10 * (9 * n + d - 1) + e) 0); [lia|].
    replace ((1 + 10 * (9 * n + d - 1) + e - 1) `mod` 10) with e by zdm.
    replace ((1 + 10 * (9 * n + d - 1) + e - 1) / 10) with (9 * n + d - 1) by zdm.
    destruct (Z.ltb_spec e 9); [|lia].
    replace ((9 * n + d - 1) `mod` 9 + 1) with d by zdm.
    replace ((9 * n + d - 1) / 9) with n by zdm.
    rewrite uwrap_small by zlia. replace (n * 10 + d) with a' by lia. by apply Happ.
  - replace e with 9 in * by lia. rewrite uwrap_small by zlia. split; [zlia|].
    unfold decompressTxOutAmount. destruct (Z.eqb_spec (10 + 10 * (a' - 1)) 0); [lia|].
    replace ((10 + 10 * (a' - 1) - 1) `mod` 10) with 9 by zdm.
    replace ((10 + 10 * (a' - 1) - 1) / 10) with (a' - 1) by zdm.
    destruct (Z.ltb_spec 9 9); [lia|]. rewrite uwrap_small by zlia.
    replace (a' - 1 + 1) with a' by lia. by apply Happ.
Qed.

(** Amount compression is lossless: every amount with
    [9 * amount + 10 <= 2^64], which covers more than [2 * 10^18] base units,
    compresses without overflowing [uint64] and decompresses to itself. *)
Theorem amount_roundtrip (amount : Z) :
  0 ≤ amount → 9 * amount + 10 ≤ 2 ^ 64 →
  0 ≤ compressTxOutAmount amount < 2 ^ 64 ∧
  decompressTxOutAmount (compressTxOutAmount amount) = amount.
Proof. apply amount_roundtrip_aux. Qed.

Lemma amount_roundtrip_witness :
  decompressTxOutAmount (compressTxOutAmount 107374182400000000) = 107374182400000000.
Proof. apply (amount_roundtrip 107374182400000000); vm_compute; congruence. Defined.

(** ** Scripts *)

Lemma byteAt_eq s i v : (i < length s)%nat → byteAt s i = v → s !! i = Some (z2b v).
Proof.
  intros Hi E. destruct (lookup_lt_is_Some_2 s i Hi) as [b Hb].
  unfold byteAt in E. rewrite Hb in E. simpl in E. by rewrite Hb, <-E, z2b_b2z.
Qed.

Lemma split_at {A} (s : list A) lo hi : (lo ≤ hi)%nat →
  s = take lo s ++ take (hi - lo) (drop lo s) ++ drop hi s.
Proof.
  intros H. rewrite <-(take_drop lo s) at 1. f_equal.
  rewrite <-(take_drop (hi - lo) (drop lo s)) at 1. f_equal.
  rewrite drop_drop. f_equal. lia.
Qed.

Lemma length_sub s lo hi : (lo ≤ hi ≤ length s)%nat → length (sub s lo hi) = (hi - lo)%nat.
Proof. intros H. unfold sub. rewrite length_take, length_drop. lia. Qed.

Lemma isPubKeyHash_inv s h : isPubKeyHash s = Some h →
  s = [z2b OP_DUP; z2b OP_HASH160; z2b OP_DATA_20] ++ h ++ [z2b OP_EQUALVERIFY; z2b OP_CHECKSIG] ∧
  length h = 20%nat.
Proof.
  unfold isPubKeyHash. intros H. case_match eqn:E; [|done]. simplify_eq.
  rewrite !andb_true_iff, !Z.eqb_eq in E. destruct E as (((((E & E0) & E1) & E2) & E3) & E4).
  assert (length s = 25%nat) as Hl by (unfold zlen in E; lia).
  split; [|apply length_sub; lia].
  apply byteAt_eq in E0, E1, E2, E3, E4; try lia.
  rewrite (split_at s 3 23) at 1 by lia. unfold sub. f_equal; [|f_equal].
  - rewrite (take_S_r _ _ (z2b OP_DATA_20)), (take_S_r _ _ (z2b OP_HASH160)),
      (take_S_r _ _ (z2b OP_DUP)) by done. done.
  - rewrite (drop_S _ (z2b OP_EQUALVERIFY)), (drop_S _ (z2b OP_CHECKSIG)) by done.
    by rewrite drop_ge by lia.
Qed.

Lemma isScriptHash_inv s h : isScriptHash s = Some h →
  s = [z2b OP_HASH160; z2b OP_DATA_20] ++ h ++ [z2b OP_EQUAL] ∧ length h = 20%nat.
Proof.
  unfold isScriptHash. intros H. case_match eqn:E; [|done]. simplify_eq.
  rewrite !andb_true_iff, !Z.eqb_eq in E. destruct E as (((E & E0) & E1) & E2).
  assert (length s = 23%nat) as Hl by (unfold zlen in E; lia).
  split; [|apply length_sub; lia].
  apply byteAt_eq in E0, E1, E2; try lia.
  rewrite (split_at s 2 22) at 1 by lia. unfold sub. f_equal; [|f_equal].
  - rewrite (take_S_r _ _ (z2b OP_DATA_20)), (take_S_r _ _ (z2b OP_HASH160)) by done. done.
  - rewrite (drop_S _ (z2b OP_EQUAL)) by done. by rewrite drop_ge by lia.
Qed.

(** A pay-to-pubkey script is a key between two opcodes; the key is a format
    byte, an x coordinate and, in format 4, a y coordinate. *)
Lemma key_script_inv (s : list byte) n (v0 v1 vn : Z) :
  length s = (n + 2)%nat → (1 ≤ n)%nat →
  byteAt s 0 = v0 → byteAt s 1 = v1 → byteAt s (n + 1) = vn →
  sub s 1 (n + 1) = z2b v1 :: drop 1 (sub s 1 (n + 1)) ∧
  s = z2b v0 :: sub s 1 (n + 1) ++ [z2b vn].
Proof.
  intros Hl Hn E0 E1 En. apply byteAt_eq in E0, E1, En; try lia.
  assert (sub s 1 (n + 1) !! 0%nat = Some (z2b v1)) as Ek.
  { unfold sub. rewrite lookup_take_lt by lia. by rewrite lookup_drop. }
  split.
  - destruct (sub s 1 (n + 1)) as [|b k]; simpl in *; [done|]. by simplify_eq.
  - rewrite (split_at s 1 (n + 1)) at 1 by lia. unfold sub.
    rewrite (take_S_r _ _ (z2b v0)) by done. rewrite (drop_S s (z2b vn) (n + 1)) by done.
    by rewrite (drop_ge s (S (n + 1))) by lia.
Qed.

Section script_roundtrip.
Context {K : SecKeys}.

Inductive pubkey_form (s k : list byte) : Prop :=
| comp_form f x : (f = 2 ∨ f = 3) → length x = 32%nat → k = z2b f :: x →
    s = z2b OP_DATA_33 :: k ++ [z2b OP_CHECKSIG] → pubkey_form s k
| uncomp_form x y p : length x = 32%nat → length y = 32%nat → k = z2b 4 :: x ++ y →
    ParsePubKey k = Some p → s = z2b OP_DATA_65 :: k ++ [z2b OP_CHECKSIG] → pubkey_form s k.

Lemma isPubKey_inv s k : isPubKey s = Some k → pubkey_form s k.
Proof.
  unfold isPubKey. intros H.
  destruct ((zlen s =? 35) && _ && _ && _) eqn:E1.
  - rewrite !andb_true_iff, orb_true_iff, !Z.eqb_eq in E1.
    destruct E1 as (((El & E0) & En) & Ef).
    assert (length s = (33 + 2)%nat) as Hl by (unfold zlen in El; lia).
    assert (∃ f, (f = 2 ∨ f = 3) ∧ byteAt s 1 = f) as (f & Hf & E1)
      by (destruct Ef; eauto).
    destruct (key_script_inv s 33 _ _ _ Hl ltac:(lia) E0 E1 En) as [Hk Hs].
    change (33 + 1)%nat with 34%nat in *.
    case_match eqn:Ep.
    + destruct (ParsePubKey (sub s 1 34)); [|done]. simplify_eq.
      eapply (comp_form _ _ (byteAt s 1) _ Hf); [|exact Hk|exact Hs].
      rewrite length_drop, length_sub; lia.
    + unfold zlen in H. destruct (Z.eqb_spec (Z.of_nat (length s)) 67); [lia|done].
  - cbn [option_map] in H.
    destruct ((zlen s =? 67) && _ && _ && _) eqn:E2; [|done]. clear E1.
    rewrite !andb_true_iff, !Z.eqb_eq in E2. destruct E2 as (((El & E0) & En) & E1).
    assert (length s = (65 + 2)%nat) as Hl by (unfold zlen in El; lia).
    destruct (key_script_inv s 65 _ _ _ Hl ltac:(lia) E0 E1 En) as [Hk Hs].
    change (65 + 1)%nat with 66%nat in *.
    destruct (ParsePubKey (sub s 1 66)) as [p|] eqn:Ep; [|done]. simplify_eq.
    set (k := sub s 1 66) in *.
    assert (length k = 65%nat) by (apply length_sub; lia).
    apply (uncomp_form _ _ (take 32 (drop 1 k)) (drop 33 k) p); [..|done|done].
    + rewrite length_take, length_drop. lia.
    + rewrite length_drop. lia.
    + rewrite Hk at 1. f_equal. rewrite <-(take_drop 32 (drop 1 k)) at 1.
      by rewrite drop_drop.
Qed.

(** The type byte a public key is compressed under. *)
Definition keyTag (k : list byte) : Z :=
  if byteAt k 0 =? 4 then 4 + Z.land (byteAt k 64) 1 else byteAt k 0.

(** Reference encoding of a compressed script. *)
Definition cscript (s : list byte) : list byte :=
  match isPubKeyHash s with
  | Some h => z2b 0 :: h
  | None =>
  match isScriptHash s with
  | Some h => z2b 1 :: h
  | None =>
  match isPubKey s with
  | Some k => z2b (keyTag k) :: sub k 1 33
  | None => vlq (zlen s + 6) ++ s
  end end end.

Lemma copyInto_app (pre mid post src : list byte) lo hi :
  lo = zlen pre → hi = zlen pre + zlen mid → length src = length mid →
  copyInto (pre ++ mid ++ post) lo hi src = Done (pre ++ src ++ post).
Proof.
  intros -> -> Hs. unfold copyInto, slice. pose proof (zlen_nonneg pre).
  pose proof (zlen_nonneg mid). pose proof (zlen_nonneg post).
  rewrite decide_True by (rewrite !zlen_app; lia). cbn [mbind run_bind]. f_equal.
  replace (Z.to_nat (zlen pre + zlen mid - zlen pre)) with (length mid) by (unfold zlen; lia).
  replace (Z.to_nat (zlen pre)) with (length pre) by (unfold zlen; lia).
  replace (Z.to_nat (zlen pre + zlen mid)) with (length (pre ++ mid))
    by (rewrite length_app; unfold zlen; lia).
  rewrite take_app_length, drop_app_length, take_app_length.
  rewrite (assoc_L (++) pre mid post), drop_app_length. f_equal. f_equal.
  rewrite <-(app_nil_r mid), gocopy_app, app_nil_r; done.
Qed.

Lemma store_copy (target src : list byte) (b : byte) n :
  n = zlen src + 1 → n ≤ zlen target →
  (t ← store target 0 b; t ← copyInto t 1 n src; Done (t, n)) =
  Done (b :: src ++ drop (S (length src)) target, n).
Proof.
  intros -> Hn. pose proof (zlen_nonneg src). destruct target as [|x target].
  { change (zlen []) with 0 in Hn. lia. }
  rewrite zlen_cons in Hn.
  pose proof (store_middle (@nil byte) x target b) as Es. change (zlen []) with 0 in Es.
  cbn [app] in Es. rewrite Es. cbn [mbind run_bind].
  rewrite <-(take_drop (length src) target).
  assert (length (take (length src) target) = length src).
  { rewrite length_take. unfold zlen in *. lia. }
  change (b :: take (length src) target ++ drop (length src) target)
    with ([b] ++ take (length src) target ++ drop (length src) target).
  rewrite copyInto_app; [|done|unfold zlen; simpl; lia|lia].
  cbn [mbind run_bind app]. do 2 f_equal. f_equal. f_equal. cbn [drop].
  by rewrite take_drop.
Qed.

Lemma land1_range y : 0 ≤ Z.land y 1 ≤ 1.
Proof.
  assert (Z.land y 1 = y `mod` 2) as -> by (apply (Z.land_ones y 1); lia). zdm.
Qed.

Lemma lor4 y : Z.lor 4 (Z.land y 1) = 4 + Z.land y 1.
Proof. pose proof (land1_range y). change 4 with (1 * 2 ^ 2). apply lor_pack; zlia. Qed.

Lemma sub_cons_app (f : byte) x rest : length x = 32%nat → sub (f :: x ++ rest) 1 33 = x.
Proof. intros H. unfold sub. cbn [drop]. apply take_app_length'. lia. Qed.

Lemma sub_cons (f : byte) x : length x = 32%nat → sub (f :: x) 1 33 = x.
Proof. intros H. unfold sub. cbn [drop]. apply take_ge. lia. Qed.

Lemma byteAt_hd f (k : list byte) : 0 ≤ f < 256 → byteAt (z2b f :: k) 0 = f.
Proof. intros. unfold byteAt. simpl. by apply b2z_z2b_small. Qed.

Lemma copyInto_tail (pre rest src : list byte) :
  (length src ≤ length rest)%nat →
  copyInto (pre ++ rest) (zlen pre) (zlen (pre ++ rest)) src =
  Done (pre ++ src ++ drop (length src) rest).
Proof.
  intros Hl. unfold copyInto, slice. pose proof (zlen_nonneg pre). pose proof (zlen_nonneg rest).
  rewrite decide_True by (rewrite zlen_app; lia). cbn [mbind run_bind]. f_equal.
  replace (Z.to_nat (zlen pre)) with (length pre) by (unfold zlen; lia).
  rewrite zlen_app.
  replace (Z.to_nat (zlen pre + zlen rest - zlen pre)) with (length rest) by (unfold zlen; lia).
  rewrite take_app_length, drop_app_length, take_ge by done. f_equal.
  rewrite drop_ge, app_nil_r by (rewrite length_app; unfold zlen; lia).
  unfold gocopy. by rewrite take_ge.
Qed.

Lemma cscript_length s : zlen s + 6 < 2 ^ 64 →
  compressedScriptSize s = Done (zlen (cscript s)).
Proof.
  intros Hs. unfold compressedScriptSize, cscript.
  destruct (isPubKeyHash s) as [h|] eqn:E1.
  { apply isPubKeyHash_inv in E1 as [_ Hh]. f_equal. unfold zlen. simpl. lia. }
  destruct (isScriptHash s) as [h|] eqn:E2.
  { apply isScriptHash_inv in E2 as [_ Hh]. f_equal. unfold zlen. simpl. lia. }
  destruct (isPubKey s) as [k|] eqn:E3.
  { f_equal. rewrite zlen_cons. unfold zlen. rewrite length_sub; [done|].
    apply isPubKey_inv in E3 as [f x Hf Hx -> ->|x y p Hx Hy -> Hp ->]; simpl; rewrite ?length_app; lia. }
  pose proof (zlen_nonneg s). unfold numSpecialScripts. rewrite uwrap_small by lia.
  rewrite serializeSizeVLQ_spec by lia. cbn. by rewrite zlen_app.
Qed.

Lemma cscript_put s target : zlen s + 6 < 2 ^ 64 → zlen (cscript s) ≤ zlen target →
  putCompressedScript target s =
  Done (cscript s ++ drop (length (cscript s)) target, zlen (cscript s)).
Proof.
  intros Hs Ht. unfold putCompressedScript, cscript, keyTag in *.
  destruct (isPubKeyHash s) as [h|] eqn:E1.
  { apply isPubKeyHash_inv in E1 as [_ Hh]. rewrite zlen_cons in Ht |- *.
    assert (zlen h = 20) by (unfold zlen; lia).
    rewrite (store_copy target h _ 21) by lia. do 2 f_equal. lia. }
  destruct (isScriptHash s) as [h|] eqn:E2.
  { apply isScriptHash_inv in E2 as [_ Hh]. rewrite zlen_cons in Ht |- *.
    assert (zlen h = 20) by (unfold zlen; lia).
    rewrite (store_copy target h _ 21) by lia. do 2 f_equal. lia. }
  destruct (isPubKey s) as [k|] eqn:E3.
  - apply isPubKey_inv in E3 as [f x Hf Hx -> ->|x y p Hx Hy -> Hp ->].
    + assert (0 ≤ f < 256) by lia. assert (zlen x = 32) by (unfold zlen; lia).
      rewrite byteAt_hd, sub_cons in * by done. rewrite zlen_cons in Ht |- *.
      destruct Hf as [-> | ->]; cbn [Z.eqb Pos.eqb orb] in *;
        rewrite (store_copy target x _ 33) by lia; rewrite zlen_cons; replace (1 + zlen x) with 33 by lia; done.
    + assert (zlen x = 32) by (unfold zlen; lia).
      rewrite byteAt_hd, sub_cons_app in * by (done || lia).
      cbn [Z.eqb Pos.eqb orb] in *. rewrite zlen_cons in Ht |- *.
      rewrite (store_copy target x _ 33) by lia. rewrite lor4. do 2 f_equal. lia.
  - pose proof (zlen_nonneg s). unfold numSpecialScripts. rewrite uwrap_small by lia.
    rewrite zlen_app in Ht. rewrite vlq_put by lia. cbn [mbind run_bind].
    set (v := vlq (zlen s + 6)) in *.
    rewrite copyInto_tail by (rewrite length_drop; unfold zlen in *; lia). cbn [mbind run_bind].
    rewrite drop_drop, <-(assoc_L (++)), length_app, zlen_app. done.
Qed.

Lemma deserializeVLQ_small t rest : 0 ≤ t ≤ 5 → deserializeVLQ (z2b t :: rest) = (t, 1).
Proof.
  intros Ht. pose proof (deserializeVLQ_spec t rest ltac:(zlia)) as E.
  unfold vlq, vlq_f in E. destruct (Z.leb_spec t 127); [|lia].
  rewrite Z.mod_small in E by lia. exact E.
Qed.

Lemma slice_mid {A} (pre mid post : list A) lo hi :
  lo = zlen pre → hi = zlen pre + zlen mid → slice (pre ++ mid ++ post) lo hi = Done mid.
Proof.
  intros -> ->. unfold slice. pose proof (zlen_nonneg pre). pose proof (zlen_nonneg mid).
  pose proof (zlen_nonneg post). rewrite decide_True by (rewrite !zlen_app; lia). f_equal.
  replace (Z.to_nat (zlen pre)) with (length pre) by (unfold zlen; lia).
  rewrite drop_app_length. apply take_app_length'. unfold zlen. lia.
Qed.

(** The tag byte of a compressed key and the key it was made from. *)
Lemma cscript_key_tag s k : isPubKey s = Some k →
  2 ≤ keyTag k ≤ 5 ∧ length (sub k 1 33) = 32%nat.
Proof.
  intros E. apply isPubKey_inv in E as [f x Hf Hx -> ->|x y p Hx Hy -> Hp ->].
  - unfold keyTag. rewrite byteAt_hd, sub_cons by lia. split; [|done].
    destruct Hf as [-> | ->]; simpl; lia.
  - unfold keyTag. rewrite byteAt_hd, sub_cons_app by lia. split; [|done]. cbn [Z.eqb Pos.eqb].
    pose proof (land1_range (byteAt (z2b 4 :: x ++ y) 64)). lia.
Qed.

Lemma cscript_decode_size s rest : zlen s < 2 ^ 62 →
  decodeCompressedScriptSize (cscript s ++ rest) = zlen (cscript s).
Proof.
  intros Hs. unfold decodeCompressedScriptSize, cscript. pose proof (zlen_nonneg s).
  destruct (isPubKeyHash s) as [h|] eqn:E1.
  { apply isPubKeyHash_inv in E1 as [_ Hh]. rewrite <-app_comm_cons, deserializeVLQ_small by lia.
    cbn. unfold zlen. simpl. lia. }
  destruct (isScriptHash s) as [h|] eqn:E2.
  { apply isScriptHash_inv in E2 as [_ Hh]. rewrite <-app_comm_cons, deserializeVLQ_small by lia.
    cbn. unfold zlen. simpl. lia. }
  destruct (isPubKey s) as [k|] eqn:E3.
  { destruct (cscript_key_tag s k E3) as [Htag Hlen].
    set (tag := keyTag k) in *. rewrite <-app_comm_cons, deserializeVLQ_small by lia.
    unfold cstPayToPubKeyHash, cstPayToScriptHash, cstPayToPubKeyComp2, cstPayToPubKeyComp3,
      cstPayToPubKeyUncomp4, cstPayToPubKeyUncomp5. cbn [Z.eqb].
    rewrite zlen_cons. unfold zlen. rewrite Hlen.
    assert (tag = 2 ∨ tag = 3 ∨ tag = 4 ∨ tag = 5) as [->|[->|[->| ->]]] by lia; done. }
  rewrite <-(assoc_L (++)), deserializeVLQ_spec by zlia. pose proof (zlen_vlq (zlen s + 6)).
  set (v := vlq (zlen s + 6)) in *.
  unfold cstPayToPubKeyHash, cstPayToScriptHash, cstPayToPubKeyComp2, cstPayToPubKeyComp3,
    cstPayToPubKeyUncomp4, cstPayToPubKeyUncomp5, numSpecialScripts.
  repeat match goal with |- context [?a =? ?b] => destruct (Z.eqb_spec a b); [lia|] end.
  cbn [orb]. rewrite (uwrap_small 64 (zlen s + 6 - 6)), uwrap_small, swrap_small by zlia.
  rewrite zlen_app. lia.
Qed.

Lemma slice_tail1 {A} (x : A) l hi : hi = 1 + zlen l → slice (x :: l) 1 hi = Done l.
Proof.
  intros ->. pose proof (slice_mid [x] l [] 1 (1 + zlen l) eq_refl eq_refl) as E.
  by rewrite app_nil_r in E.
Qed.

Lemma zlen_cons_eqb0 {A} (x : A) l : (zlen (x :: l) =? 0) = false.
Proof. rewrite zlen_cons. apply Z.eqb_neq. pose proof (zlen_nonneg l). lia. Qed.

Ltac unfold_cst := unfold cstPayToPubKeyHash, cstPayToScriptHash, cstPayToPubKeyComp2,
  cstPayToPubKeyComp3, cstPayToPubKeyUncomp4, cstPayToPubKeyUncomp5, numSpecialScripts in *.

Lemma decompress_uncomp `{!SecKeysOk K} x y p :
  length x = 32%nat → length y = 32%nat → ParsePubKey (z2b 4 :: x ++ y) = Some p →
  decompressScript (z2b (4 + Z.land (byteAt y 31) 1) :: x) =
  Done (Some (z2b OP_DATA_65 :: (z2b 4 :: x ++ y) ++ [z2b OP_CHECKSIG])).
Proof.
  intros Hx Hy Hp. pose proof (sec_compressed x y p Hx Hy Hp) as Hc.
  pose proof (sec_uncompressed x y p Hx Hy Hp) as Hu.
  assert (0 ≤ Z.land (byteAt y 31) 1 ≤ 1) as Hb.
  { apply land1_range. }
  set (b := Z.land (byteAt y 31) 1) in *. unfold decompressScript.
  rewrite zlen_cons_eqb0, deserializeVLQ_small by lia. unfold_cst.
  replace (4 + b =? 0) with false by lia. replace (4 + b =? 1) with false by lia.
  replace ((4 + b =? 2) || (4 + b =? 3)) with false by lia.
  replace ((4 + b =? 4) || (4 + b =? 5)) with true by lia.
  rewrite slice_tail1 by (rewrite zlen_cons; lia). cbn [mbind run_bind].
  replace (gocopy (replicate 32 (z2b 0)) x) with x.
  2: { unfold gocopy. rewrite drop_ge, app_nil_r, take_ge; [done|rewrite length_replicate; lia..]. }
  replace (4 + b - 2) with (2 + b) by lia. rewrite Hc, Hu.
  assert (gocopy (replicate 66 (z2b 0)) (z2b 4 :: x ++ y) = (z2b 4 :: x ++ y) ++ [z2b 0]) as ->.
  { change (replicate 66 (z2b 0)) with (replicate 65 (z2b 0) ++ [z2b 0]).
    apply gocopy_app. simpl. rewrite length_app. lia. }
  by rewrite take_app_length' by (simpl; rewrite length_app; lia).
Qed.

Lemma cscript_decompress `{!SecKeysOk K} s : zlen s < 2 ^ 62 →
  decompressScript (cscript s) = Done (Some s).
Proof.
  intros Hs. unfold cscript. pose proof (zlen_nonneg s).
  destruct (isPubKeyHash s) as [h|] eqn:E1.
  { apply isPubKeyHash_inv in E1 as [-> Hh]. unfold decompressScript.
    rewrite zlen_cons_eqb0, deserializeVLQ_small by lia. cbn [Z.eqb cstPayToPubKeyHash].
    by rewrite slice_tail1 by (unfold zlen; lia). }
  destruct (isScriptHash s) as [h|] eqn:E2.
  { apply isScriptHash_inv in E2 as [-> Hh]. unfold decompressScript.
    rewrite zlen_cons_eqb0, deserializeVLQ_small by lia. unfold_cst. cbn [Z.eqb].
    by rewrite slice_tail1 by (unfold zlen; lia). }
  destruct (isPubKey s) as [k|] eqn:E3.
  { apply isPubKey_inv in E3 as [f x Hf Hx -> ->|x y p Hx Hy -> Hp ->]; unfold keyTag.
    - rewrite byteAt_hd, sub_cons by lia. unfold decompressScript. unfold_cst.
      destruct Hf as [-> | ->]; cbn [Z.eqb Pos.eqb];
        rewrite zlen_cons_eqb0, deserializeVLQ_small by lia; cbn [Z.eqb Pos.eqb orb];
        by rewrite slice_tail1 by (unfold zlen; lia).
    - rewrite byteAt_hd, sub_cons_app by lia. cbn [Z.eqb Pos.eqb].
      replace (byteAt (z2b 4 :: x ++ y) 64) with (byteAt y 31).
      2: { unfold byteAt. change ((z2b 4 :: x ++ y) !! 64%nat) with ((x ++ y) !! 63%nat).
           by rewrite lookup_app_r, Hx by lia. }
      by apply (decompress_uncomp x y p). }
  unfold decompressScript. rewrite deserializeVLQ_spec by zlia.
  pose proof (zlen_vlq (zlen s + 6)). set (v := vlq (zlen s + 6)) in *.
  rewrite zlen_app. unfold_cst.
  repeat match goal with |- context [?a =? ?b] => destruct (Z.eqb_spec a b); [lia|] end.
  cbn [orb]. rewrite uwrap_small, swrap_small by zlia.
  replace (zlen s + 6 - 6) with (zlen s) by lia. unfold make. rewrite decide_True by lia.
  cbn [mbind run_bind]. pose proof (slice_mid v s [] (zlen v) (zlen v + zlen s) eq_refl eq_refl) as E.
  rewrite app_nil_r in E. rewrite E. cbn [mbind run_bind]. do 2 f_equal.
  unfold gocopy. rewrite drop_ge, app_nil_r, take_ge; [done|..];
    rewrite length_replicate; unfold zlen; lia.
Qed.

(** The bytes of a compressed output *)
Definition ctxout (amount : Z) (pkScript : list byte) : list byte :=
  vlq (compressTxOutAmount amount) ++ cscript pkScript.

(** An amount whose compressed form does not overflow, and a script whose size is
    an [int] *)
Definition storable (amount : Z) (pkScript : list byte) : Prop :=
  0 ≤ amount ∧ 9 * amount + 10 ≤ 2 ^ 64 ∧ zlen pkScript < 2 ^ 62.

Lemma zlen_cscript s : 1 ≤ zlen (cscript s).
Proof.
  unfold cscript. repeat case_match; rewrite ?zlen_cons, ?zlen_app;
    pose proof (zlen_vlq (zlen s + 6));
    (match goal with |- context [zlen ?l] => pose proof (zlen_nonneg l) end);
    pose proof (zlen_nonneg s); lia.
Qed.

Lemma zlen_ctxout a s : 2 ≤ zlen (ctxout a s).
Proof. unfold ctxout. rewrite zlen_app. pose proof (zlen_cscript s). pose proof (zlen_vlq (compressTxOutAmount a)). lia. Qed.

Lemma ctxout_size amount pkScript : storable amount pkScript →
  compressedTxOutSize amount pkScript = Done (zlen (ctxout amount pkScript)).
Proof.
  intros (Ha & Hb & Hs). destruct (amount_roundtrip_aux amount Ha Hb) as [Hc _].
  unfold compressedTxOutSize, ctxout. rewrite serializeSizeVLQ_spec by done. cbn [mbind run_bind].
  rewrite cscript_length by zlia. cbn [mbind run_bind]. by rewrite zlen_app.
Qed.

(** Writing at the start of a large enough slice keeps the rest of it. *)
Lemma ctxout_put amount pkScript target : storable amount pkScript →
  zlen (ctxout amount pkScript) ≤ zlen target →
  putCompressedTxOut target amount pkScript =
    Done (ctxout amount pkScript ++ drop (length (ctxout amount pkScript)) target, zlen (ctxout amount pkScript)).
Proof.
  intros (Ha & Hb & Hs) Ht. destruct (amount_roundtrip_aux amount Ha Hb) as [Hc _]. unfold ctxout in *.
  set (v := vlq (compressTxOutAmount amount)) in *. set (c := cscript pkScript) in *. rewrite zlen_app in *.
  assert (1 ≤ zlen v) by apply zlen_vlq. assert (1 ≤ zlen c) by apply zlen_cscript.
  unfold putCompressedTxOut. rewrite vlq_put by (fold v; lia). fold v. cbn [mbind run_bind].
  pose proof (slice_mid v (drop (length v) target) [] (zlen v) (zlen (v ++ drop (length v) target)) eq_refl) as E.
  rewrite app_nil_r in E. rewrite E by (rewrite zlen_app; lia). cbn [mbind run_bind].
  rewrite cscript_put by (fold c; try (unfold zlen in *; rewrite length_drop); zlia).
  fold c. cbn [mbind run_bind]. rewrite drop_drop, length_app.
  replace (Z.to_nat (zlen v)) with (length v) by (unfold zlen; lia).
  by rewrite take_app_length, <-app_assoc.
Qed.

Lemma ctxout_decode `{!SecKeysOk K} amount pkScript rest : storable amount pkScript →
  decodeCompressedTxOut (ctxout amount pkScript ++ rest) =
    Done (amount, Some pkScript, zlen (ctxout amount pkScript), None).
Proof.
  intros (Ha & Hb & Hs). destruct (amount_roundtrip_aux amount Ha Hb) as [Hc Hd]. unfold ctxout.
  set (v := vlq (compressTxOutAmount amount)). set (c := cscript pkScript). rewrite zlen_app.
  assert (1 ≤ zlen c) by apply zlen_cscript.
  unfold decodeCompressedTxOut. rewrite <-(assoc_L (++)).
  pose proof (deserializeVLQ_spec _ (c ++ rest) Hc) as Ev. fold v in Ev. rewrite Ev.
  pose proof (zlen_nonneg rest).
  destruct (Z.leb_spec (zlen (v ++ c ++ rest)) (zlen v)); [rewrite !zlen_app in *; lia|].
  pose proof (slice_mid v (c ++ rest) [] (zlen v) (zlen (v ++ c ++ rest)) eq_refl) as E.
  rewrite app_nil_r in E. rewrite E by (rewrite zlen_app; lia). cbn [mbind run_bind].
  subst c. rewrite cscript_decode_size by done. set (c := cscript pkScript) in *.
  destruct (Z.ltb_spec (zlen (c ++ rest)) (zlen c)); [rewrite zlen_app in *; lia|].
  rewrite (slice_mid v c rest) by done. cbn [mbind run_bind].
  subst c. rewrite cscript_decompress by done. cbn [mbind run_bind]. by rewrite Hd.
Qed.

(** A transaction output written with [putCompressedTxOut] into
    a slice of the size [compressedTxOutSize] announces is read back by
    [decodeCompressedTxOut], amount and script, from any record it is a prefix of,
    with exactly that many bytes consumed, no error and no panic; this covers the
    four special script forms and the general one, given the SEC 1 laws of the key
    codec. *)
Theorem txout_roundtrip `{!SecKeysOk K} (amount : Z) (pkScript target : list byte) :
  0 ≤ amount → 9 * amount + 10 ≤ 2 ^ 64 → zlen pkScript < 2 ^ 62 →
  compressedTxOutSize amount pkScript = Done (zlen target) →
  ∃ enc, zlen enc = zlen target ∧
    putCompressedTxOut target amount pkScript = Done (enc, zlen enc) ∧
    (∀ rest, decodeCompressedTxOut (enc ++ rest) =
             Done (amount, Some pkScript, zlen enc, None)).
Proof.
  intros Ha Hb Hs. assert (storable amount pkScript) as Hst by done. rewrite ctxout_size by done. intros [= Ht].
  exists (ctxout amount pkScript). split; [done|]. split; [|intros rest; by apply ctxout_decode].
  rewrite ctxout_put by (done || lia). rewrite drop_ge, app_nil_r by (unfold zlen in *; lia). done.
Qed.

(** The length check of [decodeCompressedTxOut] compares in [int]: a
    corrupt record whose script-size VLQ is [2^63 + 6] or a little more passes it
    as a negative size and the slicing after it panics, where the function's
    contract is to return [errDeserialize]. *)
Theorem decode_corrupt_panics (amount : Z) (rest : list byte) :
  0 ≤ amount < 2 ^ 64 →
  decodeCompressedTxOut (vlq amount ++ vlq (2 ^ 63 + 6) ++ rest) = Panic.
Proof.
  intros Ha. unfold decodeCompressedTxOut. rewrite deserializeVLQ_spec by done.
  pose proof (zlen_vlq amount). pose proof (zlen_vlq (2 ^ 63 + 6)). pose proof (zlen_nonneg rest).
  set (v := vlq amount) in *. set (w := vlq (2 ^ 63 + 6)) in *.
  destruct (Z.leb_spec (zlen (v ++ w ++ rest)) (zlen v)); [rewrite !zlen_app in *; lia|].
  pose proof (slice_mid v (w ++ rest) [] (zlen v) (zlen (v ++ w ++ rest)) eq_refl) as E.
  rewrite app_nil_r in E. rewrite E by (rewrite zlen_app; lia). cbn [mbind run_bind].
  assert (decodeCompressedScriptSize (w ++ rest) = zlen w - 2 ^ 63) as Hsz.
  { unfold decodeCompressedScriptSize. subst w. rewrite deserializeVLQ_spec by zlia.
    set (w := vlq (2 ^ 63 + 6)) in *. unfold_cst.
    repeat match goal with |- context [?a =? ?b] => destruct (Z.eqb_spec a b); [zlia|] end.
    cbn [orb]. rewrite (uwrap_small 64 (2 ^ 63 + 6 - 6)), uwrap_small by zlia.
    unfold swrap. zdm. }
  rewrite Hsz. destruct (Z.ltb_spec (zlen (w ++ rest)) (zlen w - 2 ^ 63)); [rewrite zlen_app in *; zlia|].
  unfold slice at 1. rewrite decide_False by zlia. done.
Qed.

End script_roundtrip.

(** ** A concrete key codec, to evaluate the theorems on

    Keys are x coordinates with a parity; the y coordinate of parity [b] is [b]. *)

Definition toyY (b : Z) : list byte := replicate 31 (z2b 0) ++ [z2b b].

#[local] Instance toyKeys : SecKeys := {|
  PubKey := (list byte * Z);
  ParsePubKey k :=
    match k with
    | f :: r =>
        if (b2z f =? 4) && (length r =? 64)%nat then
          if decide (drop 32 r = toyY 0) then Some (take 32 r, 0)
          else if decide (drop 32 r = toyY 1) then Some (take 32 r, 1) else None
        else if ((b2z f =? 2) || (b2z f =? 3)) && (length r =? 32)%nat then Some (r, b2z f - 2)
        else None
    | [] => None
    end;
  SerializeUncompressed '(x, b) := z2b 4 :: x ++ toyY b;
|}.

#[local] Instance toyKeysOk : SecKeysOk toyKeys.
Proof.
  split; intros x y k Hx Hy; cbn [ParsePubKey toyKeys];
    rewrite length_app, Hx, Hy; change (b2z (z2b 4)) with 4; cbn [Z.eqb Pos.eqb andb Nat.eqb Nat.add];
    rewrite drop_app_length', take_app_length' by done;
    repeat case_decide; intros [= <-]; subst; done.
Qed.

Definition sampleScript : list byte :=
  z2b OP_DATA_65 :: (z2b 4 :: replicate 32 (z2b 0xab) ++ toyY 1) ++ [z2b OP_CHECKSIG].

Lemma txout_roundtrip_witness : ∃ enc,
  putCompressedTxOut (replicate 34 (z2b 0)) 5000000000 sampleScript = Done (enc, zlen enc) ∧
  decodeCompressedTxOut (enc ++ [z2b 0xff]) = Done (5000000000, Some sampleScript, zlen enc, None).
Proof.
  destruct (txout_roundtrip 5000000000 sampleScript (replicate 34 (z2b 0)))
    as (enc & _ & H1 & H2).
  - vm_compute. congruence.
  - vm_compute. congruence.
  - vm_compute. reflexivity.
  - vm_compute. reflexivity.
  - exists enc. split; [exact H1|apply H2].
Defined.

Lemma decode_corrupt_panics_witness :
  decodeCompressedTxOut (vlq 1 ++ vlq (2 ^ 63 + 6) ++ []) = Panic.
Proof. apply (decode_corrupt_panics 1 []). vm_compute. split; congruence. Defined.

End Compress.
