(* ===== verification/ChainHash.v ===== *)
(** * Hashes and their text form

    Model of [backend/chainhash/hashfuncs.go] and of the conversions of
    [backend/chainhash/hash.go].  [crypto/sha256] and [encoding/hex] of the Go
    standard library are modelled here; a [Hash] is its byte list, 32 bytes long
    where the code's array type says so. *)

From S2P Require Import Prelude.

Module ChainHash.

(** ** SHA-256 ([crypto/sha256]) *)

Module Sha256.

(** The constants of FIPS 180-4, by their definition: the first 32 bits of the
    fractional parts of the cube roots (round constants) and square roots
    (initial state) of the first primes. *)

Definition isPrime (n : nat) : bool :=
  forallb (fun d => negb (Z.of_nat n `mod` Z.of_nat d =? 0)) (seq 2 (n - 2)).

Definition primes : list Z :=
  Eval vm_compute in Z.of_nat <$> List.filter isPrime (seq 2 310).

(** The largest [r] with [r^3 <= n], built bit by bit. *)
Fixpoint cbrt_bits (k : nat) (n r : Z) : Z :=
  match k with
  | O => r
  | S k =>
      let r' := r + 2 ^ Z.of_nat k in
      cbrt_bits k n (if r' ^ 3 <=? n then r' else r)
  end.

Definition K : list Z :=
  Eval vm_compute in (fun p => u32 (cbrt_bits 36 (p * 2 ^ 96) 0)) <$> take 64 primes.

Definition H0 : list Z :=
  Eval vm_compute in (fun p => u32 (Z.sqrt (p * 2 ^ 64))) <$> take 8 primes.

Definition rotr (x n : Z) : Z := Z.lor (Z.shiftr x n) (u32 (Z.shiftl x (32 - n))).

Definition xor3 (a b c : Z) : Z := Z.lxor a (Z.lxor b c).

(** The message schedule, last word first: [w] holds the words so far reversed. *)
Fixpoint schedule (n : nat) (w : list Z) : list Z :=
  match n with
  | O => w
  | S n =>
      let at_ i := nth i w 0 in
      let s0 := xor3 (rotr (at_ 14%nat) 7) (rotr (at_ 14%nat) 18) (Z.shiftr (at_ 14%nat) 3) in
      let s1 := xor3 (rotr (at_ 1%nat) 17) (rotr (at_ 1%nat) 19) (Z.shiftr (at_ 1%nat) 10) in
      schedule n (u32 (at_ 15%nat + s0 + at_ 6%nat + s1) :: w)
  end.

Definition round (st : list Z) (kw : Z * Z) : list Z :=
  match st with
  | [a; b; c; d; e; f; g; h] =>
      let s1 := xor3 (rotr e 6) (rotr e 11) (rotr e 25) in
      let ch := Z.lxor (Z.land e f) (Z.land (0xffffffff - e) g) in
      let t1 := h + s1 + ch + kw.1 + kw.2 in
      let s0 := xor3 (rotr a 2) (rotr a 13) (rotr a 22) in
      let maj := xor3 (Z.land a b) (Z.land a c) (Z.land b c) in
      [u32 (t1 + s0 + maj); a; b; c; u32 (d + t1); e; f; g]
  | _ => st
  end.

Definition block (st : list Z) (words : list Z) : list Z :=
  let w := rev (schedule 48 (rev words)) in
  zip_with (λ x y, u32 (x + y)) st (foldl round st (zip K w)).

(** Big-endian 32-bit words of a byte string whose length is a multiple of 4. *)
Fixpoint words (bs : list byte) : list Z :=
  match bs with
  | a :: b :: c :: d :: bs => be_val [a; b; c; d] :: words bs
  | _ => []
  end.

Definition padding (len : nat) : list byte :=
  z2b 0x80 :: replicate ((119 - len `mod` 64) `mod` 64)%nat (z2b 0) ++
  be_bytes 8 (8 * Z.of_nat len).

Fixpoint blocks (n : nat) (st ws : list Z) : list Z :=
  match n with
  | O => st
  | S n => blocks n (block st (take 16 ws)) (drop 16 ws)
  end.

Definition Sum256 (msg : list byte) : list byte :=
  let ws := words (msg ++ padding (length msg)) in
  concat (map (be_bytes 4) (blocks (length ws / 16) H0 ws)).

End Sha256.

Definition HashSize : Z := 32.
Definition MaxHashStringSize : Z := HashSize * 2.

(** ** Hash functions ([hashfuncs.go]) *)

Definition HashB (b : list byte) : list byte := Sha256.Sum256 b.

Definition DoubleHashB (b : list byte) : list byte :=
  let first := Sha256.Sum256 b in Sha256.Sum256 first.

Definition DoubleHashH (b : list byte) : list byte :=
  let first := Sha256.Sum256 b in Sha256.Sum256 first.

(** [serialize] is the byte string the callback writes to the hasher. *)
Definition DoubleHashRaw (serialize : list byte) : list byte :=
  let first := Sha256.Sum256 serialize in Sha256.Sum256 first.

(** ** Text form ([hash.go])

    Strings are the list of their character codes. *)

Definition hexDigit (d : Z) : byte := z2b (if d <? 10 then 0x30 + d else 0x61 + (d - 10)).

(** [hex.EncodeToString] *)
Definition hexEncode (bs : list byte) : list byte :=
  concat (map (λ b, [hexDigit (b2z b / 16); hexDigit (b2z b `mod` 16)]) bs).

Definition fromHexChar (c : byte) : option Z :=
  let v := b2z c in
  if (0x30 <=? v) && (v <=? 0x39) then Some (v - 0x30)
  else if (0x61 <=? v) && (v <=? 0x66) then Some (v - 0x61 + 10)
  else if (0x41 <=? v) && (v <=? 0x46) then Some (v - 0x41 + 10)
  else None.

(** [hex.Decode]: [None] for an invalid character or an odd length. *)
Fixpoint hexDecode (src : list byte) : option (list byte) :=
  match src with
  | [] => Some []
  | [_] => None
  | a :: b :: src =>
      h ← fromHexChar a; l ← fromHexChar b; r ← hexDecode src;
      Some (z2b (16 * h + l) :: r)
  end.

Definition String (hash : list byte) : run (list byte) :=
  h ← rev_range 16 hash 0 31; Done (hexEncode h).

Inductive decodeError := ErrHashStrSize | ErrHashStrSizeMismatch | ErrHex.

(** The result is the value written to [dst]; the reverse copy pairs byte [i]
    with byte [31 - i] for [i < 16]. *)
Definition decodeHash (src : list byte) : run (list byte + decodeError) :=
  let n := (length src / 2)%nat in
  if (32 <? n)%nat then Panic else
  match hexDecode src with
  | None => Done (inr ErrHex)
  | Some decoded =>
      let reversedHash := replicate (32 - n) (z2b 0) ++ decoded in
      dst ← rev_range 16 reversedHash 0 31;
      Done (inl dst)
  end.

Definition DecodeStrict (src : list byte) : run (list byte + decodeError) :=
  if negb (zlen src =? MaxHashStringSize) then Done (inr ErrHashStrSizeMismatch)
  else decodeHash src.

Definition Decode (src : list byte) : run (list byte + decodeError) :=
  if MaxHashStringSize <? zlen src then Done (inr ErrHashStrSize) else
  let srcBytes := if zlen src `mod` 2 =? 0 then src else z2b 0x30 :: src in
  decodeHash srcBytes.

Definition NewHashFromStr (hash : list byte) : run (list byte + decodeError) := Decode hash.

(** [SetBytes]: [None] is the length error. *)
Definition SetBytes (newHash : list byte) : option (list byte) :=
  if negb (zlen newHash =? HashSize) then None else Some newHash.

(** ** Lemmas *)

Lemma fromHexChar_hexDigit d : 0 ≤ d < 16 → fromHexChar (hexDigit d) = Some d.
Proof.
  intros Hd. unfold fromHexChar, hexDigit. destruct (Z.ltb_spec d 10).
  - rewrite b2z_z2b_small by lia. replace ((48 <=? 48 + d) && (48 + d <=? 57)) with true by lia.
    f_equal. lia.
  - rewrite b2z_z2b_small by lia.
    replace ((48 <=? 97 + (d - 10)) && (97 + (d - 10) <=? 57)) with false by lia.
    replace ((97 <=? 97 + (d - 10)) && (97 + (d - 10) <=? 102)) with true by lia.
    f_equal. lia.
Qed.

Lemma hexDecode_encode bs : hexDecode (hexEncode bs) = Some bs.
Proof.
  induction bs as [|b bs IH]; [done|]. pose proof (b2z_range b).
  change (hexEncode (b :: bs))
    with (hexDigit (b2z b / 16) :: hexDigit (b2z b `mod` 16) :: hexEncode bs).
  cbn [hexDecode]. rewrite !fromHexChar_hexDigit, IH by zdm. cbn. do 2 f_equal.
  apply b2z_inj. rewrite b2z_z2b. zdm.
Qed.

Lemma zlen_hexEncode bs : zlen (hexEncode bs) = 2 * zlen bs.
Proof.
  induction bs as [|b bs IH]; [done|].
  change (hexEncode (b :: bs))
    with (hexDigit (b2z b / 16) :: hexDigit (b2z b `mod` 16) :: hexEncode bs).
  rewrite !zlen_cons, IH. lia.
Qed.

Lemma rev32 (h : list byte) : length h = 32%nat → rev_range 16 h 0 31 = Done (reverse h).
Proof. intros H. replace 31%nat with (pred (length h)) by lia. apply rev_range_all. lia. Qed.

Lemma decodeHash_string h : length h = 32%nat →
  decodeHash (hexEncode (reverse h)) = Done (inl h).
Proof.
  intros H. unfold decodeHash. rewrite hexDecode_encode.
  assert (length (hexEncode (reverse h)) = 64%nat) as ->.
  { pose proof (zlen_hexEncode (reverse h)) as E. unfold zlen in E. rewrite length_reverse in E. lia. }
  change (64 / 2)%nat with 32%nat. cbn [Nat.ltb Nat.leb Nat.sub replicate app]. rewrite rev32 by (by rewrite length_reverse).
  cbn. by rewrite reverse_involutive.
Qed.

(** The byte-reversed hexadecimal text of a hash is 64
    characters long and both parsers, the strict and the padding one, read it
    back to the same hash. *)
Theorem hash_string_roundtrip (hash : list byte) :
  length hash = 32%nat →
  ∃ s, String hash = Done s ∧ zlen s = MaxHashStringSize ∧
       DecodeStrict s = Done (inl hash) ∧ NewHashFromStr s = Done (inl hash).
Proof.
  intros H. exists (hexEncode (reverse hash)).
  assert (zlen (hexEncode (reverse hash)) = MaxHashStringSize) as Hl.
  { rewrite zlen_hexEncode. unfold zlen. by rewrite length_reverse, H. }
  unfold String, DecodeStrict, NewHashFromStr, Decode. rewrite rev32, Hl by done.
  split_and!; [done..|by apply decodeHash_string|by apply decodeHash_string].
Qed.

Lemma hash_string_roundtrip_witness :
  ∃ s, String (HashB []) = Done s ∧ DecodeStrict s = Done (inl (HashB [])).
Proof.
  destruct (hash_string_roundtrip (HashB [])) as (s & H1 & _ & H2 & _); [vm_compute; reflexivity|].
  exists s. split; [exact H1|exact H2].
Defined.

(** Known-answer test of the SHA-256 model: the digest of ["abc"]. *)
Example sha256_abc :
  hexEncode (HashB (map z2b [0x61; 0x62; 0x63])) =
  hexEncode (be_bytes 32 0xba7816bf8f01cfea414140de5dae2223b00361a396177a9cb410ff61f20015ad).
Proof. vm_compute. reflexivity. Qed.

(** Two blocks: the 56-byte test message of FIPS 180-2. *)
Example sha256_two_blocks :
  HashB (concat (map (λ i, map (λ j, z2b (0x61 + i + j)) [0; 1; 2; 3])
                     [0; 1; 2; 3; 4; 5; 6; 7; 8; 9; 10; 11; 12; 13])) =
  be_bytes 32 0x248d6a61d20638b8e5c026930c3e6039a33ce45964ff2167f6ecedd419db06c1.
Proof. vm_compute. reflexivity. Qed.

End ChainHash.
