(* ===== verification/Wire.v ===== *)
(** * Wire: the encoding of headers and transactions

    Model of [wire/common.go] (variable-length integers and byte strings),
    [wire/blockheader.go] and [wire/msgtx.go].  A reader is the list of the bytes
    not read yet, and [io.ReadFull] on it fails with [io.EOF] or
    [io.ErrUnexpectedEOF] as the Go function does; a writer keeps what it was
    sent and may have a bounded capacity, so that the error returns of every
    [w.Write] are reached.  The [buf] arguments are the 8-byte scratch buffers of
    [binarySerializer]: each is overwritten before it is read, so they carry no
    state.  The 4 MiB script slab, whose reuse does matter, is modelled as the
    byte array it is: scripts are (offset, length) slices of it until they are
    moved to their own buffer. *)

From S2P Require Import Prelude ChainHash.

Module Wire.

(** ** Streams *)

Inductive error :=
| EOF
| ErrUnexpectedEOF
| ErrShortWrite
| MessageError
| errSuperfluousWitnessRecord.

Abbreviation reader := (io (list byte) error).

(** [io.ReadFull(r, buf)] with [len(buf) = n] *)
Definition readFull (n : Z) : reader (list byte) := fun r =>
  if n <=? zlen r then Done (inl (take (Z.to_nat n) r), drop (Z.to_nat n) r)
  else Done (inr (if zlen r =? 0 then EOF else ErrUnexpectedEOF), []).

Record sink := { sent : list byte; room : option nat }.

Abbreviation writer := (io sink error).

(** [w.Write(bs)] *)
Definition write (bs : list byte) : writer unit := fun w =>
  match room w with
  | None => Done (inl tt, {| sent := sent w ++ bs; room := None |})
  | Some c =>
      if (length bs <=? c)%nat
      then Done (inl tt, {| sent := sent w ++ bs; room := Some (c - length bs)%nat |})
      else Done (inr ErrShortWrite, {| sent := sent w ++ take c bs; room := Some O |})
  end.

(** A writer that accepts everything, such as a [bytes.Buffer] or a hash. *)
Definition unbounded : sink := {| sent := []; room := None |}.

(** The loop [for _, x := range xs { err := f(x); if err != nil { return err } }] *)
Fixpoint forEach {S E A} (f : A → io S E unit) (xs : list A) : io S E unit :=
  match xs with
  | [] => mret tt
  | x :: xs => _ ← f x; forEach f xs
  end.

(** ** Variable-length integers and strings (common.go) *)

Definition MaxMessagePayload : Z := 1024 * 1024 * 32.

Definition ReadVarIntBuf : reader Z :=
  b ← readFull 1;
  let discriminant := le_val b in
  if discriminant =? 0xff then
    buf ← readFull 8;
    let rv := le_val buf in
    if rv <? 0x100000000 then io_fail MessageError else mret rv
  else if discriminant =? 0xfe then
    buf ← readFull 4;
    let rv := le_val buf in
    if rv <? 0x10000 then io_fail MessageError else mret rv
  else if discriminant =? 0xfd then
    buf ← readFull 2;
    let rv := le_val buf in
    if rv <? 0xfd then io_fail MessageError else mret rv
  else mret discriminant.

Definition ReadVarInt : reader Z := ReadVarIntBuf.

Definition WriteVarIntBuf (val : Z) : writer unit :=
  if val <? 0xfd then write (le_bytes 1 val)
  else if val <=? 0xffff then write (z2b 0xfd :: le_bytes 2 (u16 val))
  else if val <=? 0xffffffff then write (z2b 0xfe :: le_bytes 4 (u32 val))
  else _ ← write [z2b 0xff]; write (le_bytes 8 val).

Definition WriteVarInt (val : Z) : writer unit := WriteVarIntBuf val.

Definition VarIntSerializeSize (val : Z) : Z :=
  if val <? 0xfd then 1
  else if val <=? 0xffff then 3
  else if val <=? 0xffffffff then 5
  else 9.

Definition readVarStringBuf : reader (list byte) :=
  count ← ReadVarIntBuf;
  if MaxMessagePayload <? count then io_fail MessageError else readFull count.

Definition ReadVarString : reader (list byte) := readVarStringBuf.

Definition writeVarStringBuf (str : list byte) : writer unit :=
  _ ← WriteVarIntBuf (u64 (zlen str)); write str.

Definition WriteVarString (str : list byte) : writer unit := writeVarStringBuf str.

Definition ReadVarBytesBuf (maxAllowed : Z) : reader (list byte) :=
  count ← ReadVarIntBuf;
  if maxAllowed <? count then io_fail MessageError else readFull count.

Definition ReadVarBytes (maxAllowed : Z) : reader (list byte) := ReadVarBytesBuf maxAllowed.

Definition WriteVarBytesBuf (bytes : list byte) : writer unit :=
  let slen := u64 (zlen bytes) in
  _ ← WriteVarIntBuf slen; write bytes.

Definition WriteVarBytes (bytes : list byte) : writer unit := WriteVarBytesBuf bytes.

(** ** Block headers (blockheader.go); [Timestamp] is in Unix seconds. *)

Record BlockHeader := {
  Version : Z;
  PrevBlock : list byte;
  MerkleRoot : list byte;
  Timestamp : Z;
  Bits : Z;
  Nonce : Z;
}.

Definition blockHeaderLen : Z := 80.

Definition readBlockHeaderBuf : reader BlockHeader :=
  version ← readFull 4;
  prev ← readFull 32;
  root ← readFull 32;
  timestamp ← readFull 4;
  bits ← readFull 4;
  nonce ← readFull 4;
  mret {| Version := i32 (le_val version); PrevBlock := prev; MerkleRoot := root;
          Timestamp := le_val timestamp; Bits := le_val bits; Nonce := le_val nonce |}.

Definition readBlockHeader : reader BlockHeader := readBlockHeaderBuf.

Definition writeBlockHeaderBuf (bh : BlockHeader) : writer unit :=
  _ ← write (le_bytes 4 (u32 (Version bh)));
  _ ← write (PrevBlock bh);
  _ ← write (MerkleRoot bh);
  _ ← write (le_bytes 4 (u32 (Timestamp bh)));
  _ ← write (le_bytes 4 (Bits bh));
  write (le_bytes 4 (Nonce bh)).

Definition writeBlockHeader (bh : BlockHeader) : writer unit := writeBlockHeaderBuf bh.

(** [DoubleHashRaw(serialize)]: the digest of what the callback writes. *)
Definition hashOf (serialize : writer unit) : run (list byte) :=
  r ← serialize unbounded; Done (ChainHash.DoubleHashRaw (sent r.2)).

Definition BlockHash (h : BlockHeader) : run (list byte) := hashOf (writeBlockHeader h).

(** ** Transactions (msgtx.go)

    [B] is the representation of a script: a slice of a shared array while a
    transaction is decoded, the bytes themselves afterwards.  [None] is the nil
    witness. *)

Record OutPoint := { Hash : list byte; Index : Z }.

Record TxIn (B : Type) := {
  PreviousOutPoint : OutPoint;
  SignatureScript : B;
  Witness : option (list B);
  Sequence : Z;
}.
Arguments PreviousOutPoint {B} _.
Arguments SignatureScript {B} _.
Arguments Witness {B} _.
Arguments Sequence {B} _.

Record TxOut (B : Type) := { Value : Z; PkScript : B }.
Arguments Value {B} _.
Arguments PkScript {B} _.

Record MsgTx (B : Type) := {
  TxVersion : Z;
  TxIns : list (TxIn B);
  TxOuts : list (TxOut B);
  LockTime : Z;
}.
Arguments TxVersion {B} _.
Arguments TxIns {B} _.
Arguments TxOuts {B} _.
Arguments LockTime {B} _.

Abbreviation Tx := (MsgTx (list byte)).

Inductive MessageEncoding := BaseEncoding | WitnessEncoding.

Definition isWitnessEncoding (enc : MessageEncoding) : bool :=
  match enc with WitnessEncoding => true | BaseEncoding => false end.

Definition TxFlagMarker : Z := 0x00.
Definition WitnessFlag : Z := 0x01.
Definition scriptSlabSize : Z := Z.shiftl 1 22.
Definition maxTxInPerMessage : Z := MaxMessagePayload / (9 + 32) + 1.
Definition maxTxOutPerMessage : Z := MaxMessagePayload / 9 + 1.
Definition maxWitnessItemsPerInput : Z := 4000000.
Definition maxWitnessItemSize : Z := 4000000.

(** [ti.Witness], a nil slice having length zero *)
Definition witnessOf {B} (ti : TxIn B) : list B := default [] (Witness ti).

Definition HasWitness {B} (msg : MsgTx B) : bool :=
  existsb (fun ti => negb (zlen (witnessOf ti) =? 0)) (TxIns msg).

(** *** Sizes *)

Definition TxIn_SerializeSize (t : TxIn (list byte)) : Z :=
  40 + VarIntSerializeSize (zlen (SignatureScript t)) + zlen (SignatureScript t).

Definition TxWitness_SerializeSize (t : list (list byte)) : Z :=
  foldl (fun n item => n + VarIntSerializeSize (zlen item) + zlen item)
    (VarIntSerializeSize (zlen t)) t.

Definition TxOut_SerializeSize (t : TxOut (list byte)) : Z :=
  8 + VarIntSerializeSize (zlen (PkScript t)) + zlen (PkScript t).

Definition baseSize (msg : Tx) : Z :=
  let n := 8 + VarIntSerializeSize (zlen (TxIns msg)) +
           VarIntSerializeSize (zlen (TxOuts msg)) in
  let n := foldl (fun n ti => n + TxIn_SerializeSize ti) n (TxIns msg) in
  foldl (fun n to => n + TxOut_SerializeSize to) n (TxOuts msg).

Definition SerializeSize (msg : Tx) : Z :=
  let n := baseSize msg in
  if HasWitness msg then
    foldl (fun n ti => n + TxWitness_SerializeSize (witnessOf ti)) (n + 2) (TxIns msg)
  else n.

Definition SerializeSizeStripped (msg : Tx) : Z := baseSize msg.

Fixpoint pkScriptLocs_loop (n : Z) (outs : list (TxOut (list byte))) : list Z :=
  match outs with
  | [] => []
  | to :: outs =>
      let n := n + 8 + VarIntSerializeSize (zlen (PkScript to)) in
      n :: pkScriptLocs_loop (n + zlen (PkScript to)) outs
  end.

Definition PkScriptLocs (msg : Tx) : list Z :=
  if zlen (TxOuts msg) =? 0 then []
  else
    let n := 4 + VarIntSerializeSize (zlen (TxIns msg)) +
             VarIntSerializeSize (zlen (TxOuts msg)) in
    let n := match TxIns msg with
             | ti :: _ => if Witness ti is Some _ then n + 2 else n
             | [] => n
             end in
    let n := foldl (fun n ti => n + TxIn_SerializeSize ti) n (TxIns msg) in
    pkScriptLocs_loop n (TxOuts msg).

(** *** Encoding *)

Definition writeOutPointBuf (op : OutPoint) : writer unit :=
  _ ← write (Hash op); write (le_bytes 4 (Index op)).

Definition WriteOutPoint (op : OutPoint) : writer unit := writeOutPointBuf op.

Definition writeTxInBuf (ti : TxIn (list byte)) : writer unit :=
  _ ← writeOutPointBuf (PreviousOutPoint ti);
  _ ← WriteVarBytesBuf (SignatureScript ti);
  write (le_bytes 4 (Sequence ti)).

Definition WriteTxOutBuf (to : TxOut (list byte)) : writer unit :=
  _ ← write (le_bytes 8 (u64 (Value to)));
  WriteVarBytesBuf (PkScript to).

Definition WriteTxOut (to : TxOut (list byte)) : writer unit := WriteTxOutBuf to.

Definition writeTxWitnessBuf (wit : list (list byte)) : writer unit :=
  _ ← WriteVarIntBuf (u64 (zlen wit));
  forEach WriteVarBytesBuf wit.

Definition btcEncode (enc : MessageEncoding) (msg : Tx) : writer unit :=
  _ ← write (le_bytes 4 (u32 (TxVersion msg)));
  let doWitness := isWitnessEncoding enc && HasWitness msg in
  _ ← (if doWitness then write [z2b TxFlagMarker; z2b WitnessFlag] else mret tt);
  _ ← WriteVarIntBuf (u64 (zlen (TxIns msg)));
  _ ← forEach writeTxInBuf (TxIns msg);
  _ ← WriteVarIntBuf (u64 (zlen (TxOuts msg)));
  _ ← forEach WriteTxOutBuf (TxOuts msg);
  _ ← (if doWitness then forEach (fun ti => writeTxWitnessBuf (witnessOf ti)) (TxIns msg)
       else mret tt);
  write (le_bytes 4 (LockTime msg)).

Definition BtcEncode (enc : MessageEncoding) (msg : Tx) : writer unit := btcEncode enc msg.

Definition Serialize (msg : Tx) : writer unit := BtcEncode WitnessEncoding msg.

Definition SerializeNoWitness (msg : Tx) : writer unit := BtcEncode BaseEncoding msg.

Definition TxHash (msg : Tx) : run (list byte) := hashOf (SerializeNoWitness msg).

Definition WitnessHash (msg : Tx) : run (list byte) :=
  if HasWitness msg then hashOf (Serialize msg) else TxHash msg.

(** *** Decoding

    A slice is an offset and a length into a byte array; [sbuf] is the array of
    the borrowed slab with the offset of its unused rest. *)

Record bslice := { off : Z; len : Z }.
Record slab := { mem : list byte; pos : Z }.

(** The bytes of a slice *)
Definition resolve (m : list byte) (s : bslice) : list byte :=
  take (Z.to_nat (len s)) (drop (Z.to_nat (off s)) m).

(** [copy(m[at:], bs)] *)
Definition blit (m : list byte) (at_ : Z) (bs : list byte) : list byte :=
  take (Z.to_nat at_) m ++ gocopy (drop (Z.to_nat at_) m) bs.

(** [sbuf = sbuf[n:]] *)
Definition advance (s : slab) (n : Z) : slab := {| mem := mem s; pos := pos s + n |}.

Definition readScriptBuf (s : slab) : reader (bslice * slab) :=
  count ← ReadVarIntBuf;
  if maxWitnessItemSize <? count then io_fail MessageError
  else if zlen (mem s) - pos s <? count then io_fail MessageError
  else
    bs ← readFull count;
    mret ({| off := pos s; len := count |}, {| mem := blit (mem s) (pos s) bs; pos := pos s |}).

Definition readOutPointBuf : reader OutPoint :=
  hash ← readFull 32;
  ix ← readFull 4;
  mret {| Hash := hash; Index := le_val ix |}.

Definition readTxInBuf (s : slab) : reader (TxIn bslice * slab) :=
  op ← readOutPointBuf;
  sc ← readScriptBuf s;
  sq ← readFull 4;
  mret ({| PreviousOutPoint := op; SignatureScript := sc.1; Witness := None;
           Sequence := le_val sq |}, sc.2).

Definition readTxOutBuf (s : slab) : reader (TxOut bslice * slab) :=
  v ← readFull 8;
  sc ← readScriptBuf s;
  mret ({| Value := i64 (le_val v); PkScript := sc.1 |}, sc.2).

(** The input, output and witness loops; each item read extends
    [totalScriptSize] and moves [sbuf] past its script. *)

Definition next (s : slab) (total : Z) (b : bslice) : slab * Z :=
  (advance s (len b), u64 (total + len b)).

Fixpoint readMany {A} (f : slab → reader (A * slab)) (script : A → bslice)
    (n : nat) (s : slab) (total : Z) : reader (list A * slab * Z) :=
  match n with
  | O => mret ([], s, total)
  | S n =>
      r ← f s;
      let '(s', total') := next r.2 total (script r.1) in
      rest ← readMany f script n s' total';
      mret (r.1 :: rest.1.1, rest.1.2, rest.2)
  end.

Definition readTxIns := readMany readTxInBuf SignatureScript.
Definition readTxOuts := readMany readTxOutBuf PkScript.
Definition readItems := readMany readScriptBuf id.

Fixpoint readWitnesses (ins : list (TxIn bslice)) (s : slab) (total : Z) :
    reader (list (TxIn bslice) * slab * Z) :=
  match ins with
  | [] => mret ([], s, total)
  | ti :: ins =>
      witCount ← ReadVarIntBuf;
      if maxWitnessItemsPerInput <? witCount then io_fail MessageError
      else
        w ← readItems (Z.to_nat witCount) s total;
        rest ← readWitnesses ins w.1.2 w.2;
        mret ({| PreviousOutPoint := PreviousOutPoint ti;
                 SignatureScript := SignatureScript ti;
                 Witness := Some w.1.1; Sequence := Sequence ti |} :: rest.1.1,
              rest.1.2, rest.2)
  end.

(** The last phase of [btcDecode] moves every script to the array [scripts],
    here the slab [a]: [copy(scripts[offset:], script)], then
    [scripts[offset:end:end]]. *)

Definition place (m : list byte) (b : bslice) (a : slab) : run (bslice * slab) :=
  let end_ := u64 (pos a + len b) in
  if decide (pos a ≤ zlen (mem a)) then
    let scripts := blit (mem a) (pos a) (resolve m b) in
    if decide (pos a ≤ end_ ∧ end_ ≤ zlen scripts) then
      Done ({| off := pos a; len := end_ - pos a |},
            {| mem := scripts; pos := u64 (pos a + len b) |})
    else Panic
  else Panic.

Fixpoint placeEach {A} (f : A → slab → run (A * slab)) (xs : list A) (a : slab) :
    run (list A * slab) :=
  match xs with
  | [] => Done ([], a)
  | x :: xs =>
      r ← f x a;
      rest ← placeEach f xs r.2;
      Done (r.1 :: rest.1, rest.2)
  end.

Definition placeTxIn (m : list byte) (ti : TxIn bslice) (a : slab) : run (TxIn bslice * slab) :=
  sg ← place m (SignatureScript ti) a;
  match Witness ti with
  | None =>
      Done ({| PreviousOutPoint := PreviousOutPoint ti; SignatureScript := sg.1;
               Witness := None; Sequence := Sequence ti |}, sg.2)
  | Some w =>
      ws ← placeEach (place m) w sg.2;
      Done ({| PreviousOutPoint := PreviousOutPoint ti; SignatureScript := sg.1;
               Witness := Some ws.1; Sequence := Sequence ti |}, ws.2)
  end.

Definition placeTxOut (m : list byte) (to : TxOut bslice) (a : slab) : run (TxOut bslice * slab) :=
  p ← place m (PkScript to) a;
  Done ({| Value := Value to; PkScript := p.1 |}, p.2).

(** The bytes a transaction over slices of [m] stands for. *)
Definition resolveTxIn (m : list byte) (ti : TxIn bslice) : TxIn (list byte) :=
  {| PreviousOutPoint := PreviousOutPoint ti;
     SignatureScript := resolve m (SignatureScript ti);
     Witness := map (resolve m) <$> Witness ti;
     Sequence := Sequence ti |}.

Definition resolveTxOut (m : list byte) (to : TxOut bslice) : TxOut (list byte) :=
  {| Value := Value to; PkScript := resolve m (PkScript to) |}.

Definition relocate (m : list byte) (total : Z) (version : Z) (ins : list (TxIn bslice))
    (outs : list (TxOut bslice)) (locktime : Z) : run Tx :=
  buf ← make (z2b 0) total;
  i ← placeEach (placeTxIn m) ins {| mem := buf; pos := 0 |};
  o ← placeEach (placeTxOut m) outs i.2;
  Done {| TxVersion := version;
          TxIns := map (resolveTxIn (mem o.2)) i.1;
          TxOuts := map (resolveTxOut (mem o.2)) o.1;
          LockTime := locktime |}.

Definition btcDecode (enc : MessageEncoding) (sbuf : list byte) : reader Tx :=
  v ← readFull 4;
  let version := i32 (le_val v) in
  count ← ReadVarIntBuf;
  cf ← (if (count =? TxFlagMarker) && isWitnessEncoding enc then
          fl ← readFull 1;
          if negb (le_val fl =? WitnessFlag) then io_fail MessageError
          else count ← ReadVarIntBuf; mret (count, le_val fl)
        else mret (count, 0));
  let '(count, flag) := cf in
  if maxTxInPerMessage <? count then io_fail MessageError else
  ins ← readTxIns (Z.to_nat count) {| mem := sbuf; pos := 0 |} 0;
  count ← ReadVarIntBuf;
  if maxTxOutPerMessage <? count then io_fail MessageError else
  outs ← readTxOuts (Z.to_nat count) ins.1.2 ins.2;
  wit ← (if negb (flag =? 0) && isWitnessEncoding enc then
           w ← readWitnesses ins.1.1 outs.1.2 outs.2;
           if HasWitness {| TxVersion := version; TxIns := w.1.1; TxOuts := outs.1.1; LockTime := 0 |}
           then mret w else io_fail errSuperfluousWitnessRecord
         else mret (ins.1.1, outs.1.2, outs.2));
  lt ← readFull 4;
  io_run (relocate (mem wit.1.2) wit.2 version wit.1.1 outs.1.1 (le_val lt)).

(** [sbuf] is the slab borrowed from [scriptPool], with whatever it holds. *)
Definition BtcDecode (enc : MessageEncoding) (sbuf : list byte) : reader Tx := btcDecode enc sbuf.

Definition Deserialize (sbuf : list byte) : reader Tx := BtcDecode WitnessEncoding sbuf.

Definition DeserializeNoWitness (sbuf : list byte) : reader Tx := BtcDecode BaseEncoding sbuf.

(** ** Encoders as one write

    [emits m bs]: on every writer, bounded or not, [m] behaves as the single
    [w.Write(bs)]; an error is returned exactly when [bs] does not fit. *)

Definition emits (m : writer unit) (bs : list byte) : Prop := ∀ w, m w = write bs w.

Lemma emits_write bs : emits (write bs) bs.
Proof. done. Qed.

Lemma emits_ret : emits (mret tt) [].
Proof.
  intros [s [c|]]; unfold write; simpl; [|by rewrite app_nil_r].
  by rewrite app_nil_r, Nat.sub_0_r.
Qed.

Lemma emits_bind m f bs cs : emits m bs → emits f cs → emits (_ ← m; f) (bs ++ cs).
Proof.
  intros Hm Hf [s c]. unfold mbind, io_bind. rewrite Hm. unfold write. simpl.
  destruct c as [c|]; simpl; [|by rewrite Hf, app_assoc].
  rewrite length_app. destruct (Nat.leb_spec (length bs) c).
  - rewrite Hf. unfold write; simpl. rewrite take_app_ge by lia.
    rewrite !app_assoc, Nat.sub_add_distr.
    destruct (Nat.leb_spec (length cs) (c - length bs)),
      (Nat.leb_spec (length bs + length cs) c); first [lia|done].
  - destruct (Nat.leb_spec (length bs + length cs) c); [lia|].
    by rewrite take_app_le by lia.
Qed.

Lemma emits_forEach {A} (f : A → writer unit) g xs :
  (∀ x, x ∈ xs → emits (f x) (g x)) → emits (forEach f xs) (xs ≫= g).
Proof.
  induction xs as [|x xs IH]; intros H; [apply emits_ret|].
  apply (emits_bind _ (forEach f xs)); [apply H; left|].
  apply IH. intros. apply H. by right.
Qed.

Create HintDb emits.
#[local] Hint Resolve emits_write emits_ret emits_bind emits_forEach : emits.

(** ** Parsers

    [parses m bs a]: [m] consumes exactly [bs] and returns [a].
    [consumes m P]: from any input [m] returns without panicking, and a value
    it returns is related by [P] to the bytes it consumed. *)

Definition parses {A} (m : reader A) (bs : list byte) (a : A) : Prop :=
  ∀ rest, m (bs ++ rest) = Done (inl a, rest).

Definition consumes {A} (m : reader A) (P : A → list byte → Prop) : Prop :=
  ∀ r, ∃ res r', m r = Done (res, r') ∧
    ∀ a, res = inl a → ∃ bs, r = bs ++ r' ∧ P a bs.

Lemma parses_ret {A} (a : A) : parses (mret a) [] a.
Proof. done. Qed.

Lemma parses_bind {A B} (m : reader A) (f : A → reader B) bs cs a b :
  parses m bs a → parses (f a) cs b → parses (m ≫= f) (bs ++ cs) b.
Proof.
  intros Hm Hf rest. unfold mbind, io_bind. by rewrite <-app_assoc, Hm, Hf.
Qed.

Lemma parses_bind_last {A B} (m : reader A) (f : A → reader B) bs a b :
  parses m bs a → f a = mret b → parses (m ≫= f) bs b.
Proof.
  intros Hm Hf. rewrite <-(app_nil_r bs). eapply parses_bind; [done|]. rewrite Hf. done.
Qed.

Lemma consumes_ret {A} (a : A) (P : A → list byte → Prop) : P a [] → consumes (mret a) P.
Proof. intros H r. exists (inl a), r. split; [done|]. intros ? [= <-]. by exists []. Qed.

Lemma consumes_fail {A} e (P : A → list byte → Prop) : consumes (io_fail e) P.
Proof. intros r. exists (inr e), r. by split. Qed.

Lemma consumes_bind {A B} (m : reader A) (f : A → reader B) P Q :
  consumes m P →
  (∀ a bs, P a bs → consumes (f a) (fun b cs => Q b (bs ++ cs))) →
  consumes (m ≫= f) Q.
Proof.
  intros Hm Hf r. destruct (Hm r) as (res & r' & E & HP). unfold mbind, io_bind.
  rewrite E. destruct res as [a|e]; [|by exists (inr e), r'].
  destruct (HP a eq_refl) as (bs & -> & HPa).
  destruct (Hf a bs HPa r') as (res & r'' & -> & HQ). exists res, r''. split; [done|].
  intros b ->. destruct (HQ b eq_refl) as (cs & -> & ?).
  exists (bs ++ cs). by rewrite app_assoc.
Qed.

Lemma consumes_weaken {A} (m : reader A) P Q :
  consumes m P → (∀ a bs, P a bs → Q a bs) → consumes m Q.
Proof.
  intros Hm H r. destruct (Hm r) as (res & r' & E & HP). exists res, r'. split; [done|].
  intros a Ha. destruct (HP a Ha) as (bs & ? & ?). eauto.
Qed.

Lemma parses_readFull n bs : zlen bs = n → parses (readFull n) bs bs.
Proof.
  intros <- rest. unfold readFull. pose proof (zlen_nonneg rest).
  rewrite zlen_app. destruct (Z.leb_spec (zlen bs) (zlen bs + zlen rest)); [|lia].
  unfold zlen. rewrite Nat2Z.id. by rewrite take_app_length, drop_app_length.
Qed.

Lemma consumes_readFull n : 0 ≤ n →
  consumes (readFull n) (fun a bs => a = bs ∧ zlen bs = n).
Proof.
  intros Hn r. unfold readFull. destruct (Z.leb_spec n (zlen r)) as [Hle|].
  - eexists _, _. split; [done|]. intros a [= <-].
    exists (take (Z.to_nat n) r). rewrite take_drop.
    unfold zlen in *. rewrite length_take. repeat split; lia.
  - eexists _, _. split; [done|]. by intros.
Qed.

(** ** Variable-length integers *)

Definition varint (n : Z) : list byte :=
  if n <? 0xfd then [z2b n]
  else if n <=? 0xffff then z2b 0xfd :: le_bytes 2 n
  else if n <=? 0xffffffff then z2b 0xfe :: le_bytes 4 n
  else z2b 0xff :: le_bytes 8 n.

Definition varbytes (bs : list byte) : list byte := varint (zlen bs) ++ bs.

Lemma emits_varint n : 0 ≤ n < 2 ^ 64 → emits (WriteVarIntBuf n) (varint n).
Proof.
  intros Hn. unfold WriteVarIntBuf, varint.
  destruct (Z.ltb_spec n 0xfd); [done|].
  destruct (Z.leb_spec n 0xffff); [rewrite uwrap_small by zlia; done|].
  destruct (Z.leb_spec n 0xffffffff); [rewrite uwrap_small by zlia; done|].
  apply (emits_bind (write [z2b 0xff]) (write (le_bytes 8 n)) [z2b 0xff]); done.
Qed.

Lemma zlen_varint n : zlen (varint n) = VarIntSerializeSize n.
Proof.
  unfold varint, VarIntSerializeSize. repeat case_match; done.
Qed.

Lemma le_val_fixed n k w : 256 ^ Z.of_nat n = 2 ^ w → 0 ≤ k < 2 ^ w →
  le_val (le_bytes n k) = k.
Proof. intros E H. rewrite le_val_bytes, E. by apply Z.mod_small. Qed.

Lemma zlen_le_bytes n k : zlen (le_bytes n k) = Z.of_nat n.
Proof. unfold zlen. by rewrite length_le_bytes. Qed.

Lemma parses_cons {A B} (m : reader A) (f : A → reader B) (x : byte) cs a b :
  parses m [x] a → parses (f a) cs b → parses (m ≫= f) (x :: cs) b.
Proof. apply (parses_bind m f [x]). Qed.

Ltac eval_discriminant :=
  cbv beta zeta;
  lazymatch goal with
  | |- context [le_val [?x]] =>
      let v := eval vm_compute in (le_val [x]) in change (le_val [x]) with v
  end; cbn [Z.eqb Pos.eqb].

Lemma parses_varint n : 0 ≤ n < 2 ^ 64 → parses ReadVarIntBuf (varint n) n.
Proof.
  intros Hn. unfold ReadVarIntBuf, varint.
  destruct (Z.ltb_spec n 0xfd) as [H1|H1].
  - apply (parses_bind_last _ _ _ [z2b n]); [by apply parses_readFull|].
    cbn [le_val]. rewrite b2z_z2b_small, Z.mul_0_r, Z.add_0_r by lia. simpl.
    destruct (Z.eqb_spec n 0xff); [lia|]. destruct (Z.eqb_spec n 0xfe); [lia|].
    destruct (Z.eqb_spec n 0xfd); [lia|]. done.
  - destruct (Z.leb_spec n 0xffff); [|destruct (Z.leb_spec n 0xffffffff)];
      (eapply parses_cons; [by apply parses_readFull|]); eval_discriminant.
    + apply (parses_bind_last _ _ _ (le_bytes 2 n)); [by apply parses_readFull|].
      cbv beta zeta. rewrite (le_val_fixed 2 n 16) by zlia. destruct (Z.ltb_spec n 0xfd); [lia|done].
    + apply (parses_bind_last _ _ _ (le_bytes 4 n)); [by apply parses_readFull|].
      cbv beta zeta. rewrite (le_val_fixed 4 n 32) by zlia. destruct (Z.ltb_spec n 0x10000); [lia|done].
    + apply (parses_bind_last _ _ _ (le_bytes 8 n)); [by apply parses_readFull|].
      cbv beta zeta. rewrite (le_val_fixed 8 n 64) by zlia. destruct (Z.ltb_spec n 0x100000000); [lia|done].
Qed.

Lemma le_val_zlen bs n : zlen bs = Z.of_nat n → 0 ≤ le_val bs < 256 ^ Z.of_nat n ∧ le_bytes n (le_val bs) = bs.
Proof.
  unfold zlen. intros H. assert (length bs = n) as <- by lia.
  split; [apply le_val_range|apply le_bytes_val].
Qed.

Lemma consumes_varint : consumes ReadVarIntBuf (fun n bs => 0 ≤ n < 2 ^ 64 ∧ bs = varint n).
Proof.
  assert (∀ k min d, (k = 2 ∧ min = 0xfd ∧ d = 0xfd ∨ k = 4 ∧ min = 0x10000 ∧ d = 0xfe ∨
                      k = 8 ∧ min = 0x100000000 ∧ d = 0xff) →
    consumes (buf ← readFull k; if le_val buf <? min then io_fail MessageError else mret (le_val buf))
      (fun n cs => 0 ≤ n < 2 ^ 64 ∧ z2b d :: cs = varint n)) as Hk.
  { intros k min d Hk. eapply consumes_bind; [apply consumes_readFull; lia|].
    intros buf bs [-> Hl]. destruct (Z.ltb_spec (le_val bs) min); [apply consumes_fail|].
    apply consumes_ret. rewrite app_nil_r. unfold varint.
    destruct Hk as [(-> & -> & ->)|[(-> & -> & ->)|(-> & -> & ->)]].
    - destruct (le_val_zlen bs 2 Hl) as [Hr E]. rewrite E.
      destruct (Z.ltb_spec (le_val bs) 0xfd); [lia|].
      destruct (Z.leb_spec (le_val bs) 0xffff); [|zlia]. split; [zlia|done].
    - destruct (le_val_zlen bs 4 Hl) as [Hr E]. rewrite E.
      destruct (Z.ltb_spec (le_val bs) 0xfd); [lia|].
      destruct (Z.leb_spec (le_val bs) 0xffff); [lia|].
      destruct (Z.leb_spec (le_val bs) 0xffffffff); [|zlia]. split; [zlia|done].
    - destruct (le_val_zlen bs 8 Hl) as [Hr E]. rewrite E.
      destruct (Z.ltb_spec (le_val bs) 0xfd); [lia|].
      destruct (Z.leb_spec (le_val bs) 0xffff); [lia|].
      destruct (Z.leb_spec (le_val bs) 0xffffffff); [lia|]. split; [zlia|done]. }
  unfold ReadVarIntBuf. eapply consumes_bind; [apply consumes_readFull; lia|].
  intros b bs [-> Hl]. destruct (le_val_zlen bs 1 Hl) as [Hr E].
  apply (consumes_weaken _ (fun n cs => 0 ≤ n < 2 ^ 64 ∧ z2b (le_val bs) :: cs = varint n)).
  2: { intros n cs [? <-]. split; [done|]. by rewrite <-E at 1. }
  destruct (Z.eqb_spec (le_val bs) 0xff) as [->|]; [apply (Hk 8 _ 0xff); lia|].
  destruct (Z.eqb_spec (le_val bs) 0xfe) as [->|]; [apply (Hk 4 _ 0xfe); lia|].
  destruct (Z.eqb_spec (le_val bs) 0xfd) as [->|]; [apply (Hk 2 _ 0xfd); lia|].
  apply consumes_ret. unfold varint. pow2_norm.
  destruct (Z.ltb_spec (le_val bs) 0xfd); [|lia]. split; [lia|done].
Qed.

#[local] Hint Resolve emits_varint : emits.

(** [WriteVarInt] and [ReadVarInt] are inverse to each other:
    a [uint64] is written as [VarIntSerializeSize] bytes from which it is read
    back, and conversely whatever [ReadVarInt] accepts, with any bytes after it,
    is the one encoding that [WriteVarInt] gives the value (the longer
    encodings of a value are all refused); on no input does it panic. *)
Theorem varint_canonical (n : Z) (r : list byte) :
  0 ≤ n < 2 ^ 64 →
  (∃ bs, WriteVarInt n unbounded = Done (inl tt, {| sent := bs; room := None |}) ∧
     zlen bs = VarIntSerializeSize n ∧
     ReadVarInt (bs ++ r) = Done (inl n, r)) ∧
  (∃ res r', ReadVarInt r = Done (res, r') ∧
     ∀ m, res = inl m → 0 ≤ m < 2 ^ 64 ∧
       ∃ bs, r = bs ++ r' ∧
         WriteVarInt m unbounded = Done (inl tt, {| sent := bs; room := None |})).
Proof.
  intros Hn. split.
  - exists (varint n). split; [apply emits_varint; done|].
    split; [apply zlen_varint|apply parses_varint; done].
  - destruct (consumes_varint r) as (res & r' & E & H). exists res, r'. split; [done|].
    intros m ->. destruct (H m eq_refl) as (bs & -> & Hm & ->). split; [done|].
    exists (varint m). split; [done|]. apply emits_varint; done.
Qed.

Lemma varint_canonical_witness :
  (0 ≤ 515 < 2 ^ 64) ∧ ∃ bs, WriteVarInt 515 unbounded = Done (inl tt, {| sent := bs; room := None |}) ∧
     zlen bs = 3 ∧ ReadVarInt (bs ++ [z2b 7]) = Done (inl 515, [z2b 7]).
Proof.
  split; [lia|]. destruct (varint_canonical 515 [z2b 7] ltac:(lia)) as [H _]. exact H.
Defined.

(** ** Block headers *)

Definition header_wf (h : BlockHeader) : Prop :=
  - 2 ^ 31 ≤ Version h < 2 ^ 31 ∧ zlen (PrevBlock h) = 32 ∧ zlen (MerkleRoot h) = 32 ∧
  0 ≤ Timestamp h < 2 ^ 32 ∧ 0 ≤ Bits h < 2 ^ 32 ∧ 0 ≤ Nonce h < 2 ^ 32.

Definition header_bytes (h : BlockHeader) : list byte :=
  le_bytes 4 (u32 (Version h)) ++ PrevBlock h ++ MerkleRoot h ++
  le_bytes 4 (u32 (Timestamp h)) ++ le_bytes 4 (Bits h) ++ le_bytes 4 (Nonce h).

Lemma emits_header h : emits (writeBlockHeader h) (header_bytes h).
Proof. unfold writeBlockHeader, writeBlockHeaderBuf, header_bytes. eauto 10 with emits. Qed.

Lemma i32_u32 v : - 2 ^ 31 ≤ v < 2 ^ 31 → i32 (u32 v) = v.
Proof. intros H. unfold swrap, uwrap. pow2_norm. zdm. Qed.

Lemma i64_u64 v : - 2 ^ 63 ≤ v < 2 ^ 63 → i64 (u64 v) = v.
Proof. intros H. unfold swrap, uwrap. pow2_norm. zdm. Qed.

Lemma u32_i32 v : 0 ≤ v < 2 ^ 32 → u32 (i32 v) = v.
Proof. intros H. unfold swrap, uwrap. pow2_norm. zdm. Qed.

Lemma u64_i64 v : 0 ≤ v < 2 ^ 64 → u64 (i64 v) = v.
Proof. intros H. unfold swrap, uwrap. pow2_norm. zdm. Qed.

Lemma le4_val v : 0 ≤ v < 2 ^ 32 → le_val (le_bytes 4 v) = v.
Proof. by apply le_val_fixed. Qed.

Lemma le8_val v : 0 ≤ v < 2 ^ 64 → le_val (le_bytes 8 v) = v.
Proof. by apply le_val_fixed. Qed.

Lemma zlen_header h : header_wf h → zlen (header_bytes h) = 80.
Proof.
  intros (_ & Hp & Hm & _). unfold header_bytes. rewrite !zlen_app, !zlen_le_bytes, Hp, Hm. done.
Qed.

(** One step of a parser of fixed-width fields. *)
Ltac parse_field :=
  first [eapply parses_bind; [apply parses_readFull; first [done|apply zlen_le_bytes]|]
        |eapply parses_bind_last; [apply parses_readFull; first [done|apply zlen_le_bytes]|]];
  cbv beta.

Lemma parses_header h : header_wf h → parses readBlockHeader (header_bytes h) h.
Proof.
  intros (Hv & Hp & Hm & Ht & Hb & Hn). unfold readBlockHeader, readBlockHeaderBuf, header_bytes.
  do 6 parse_field. destruct h; cbn [Version PrevBlock MerkleRoot Timestamp Bits Nonce] in *.
  rewrite !le4_val by (done || by apply uwrap_range).
  rewrite i32_u32, uwrap_small by done. done.
Qed.

(** One step of a reader of fixed-width fields. *)
Ltac consume_field b Hb :=
  eapply consumes_bind; [apply consumes_readFull; lia|]; intros ? b [-> Hb].

Lemma consumes_header :
  consumes readBlockHeader (fun h bs => header_wf h ∧ bs = header_bytes h).
Proof.
  unfold readBlockHeader, readBlockHeaderBuf.
  consume_field v Hv. consume_field p Hp. consume_field m Hm.
  consume_field t Ht. consume_field b Hb. consume_field n Hn.
  apply consumes_ret. rewrite app_nil_r.
  apply (le_val_zlen _ 4) in Hv as [Hv <-], Ht as [Ht <-], Hb as [Hb <-], Hn as [Hn <-].
  unfold header_wf, header_bytes; cbn [Version PrevBlock MerkleRoot Timestamp Bits Nonce].
  change (256 ^ Z.of_nat 4) with (2 ^ 32) in *.
  rewrite !le4_val by done. rewrite u32_i32, uwrap_small by done.
  pose proof (swrap_range 32 (le_val v) ltac:(lia)).
  repeat split; try done; lia.
Qed.

(** [fixed m n]: [m] reads [n] bytes and fails with an end-of-file error when
    there are fewer. *)
Definition fixed {A} (m : reader A) (n : Z) : Prop := ∀ r,
  if decide (n ≤ zlen r) then ∃ a, m r = Done (inl a, drop (Z.to_nat n) r)
  else ∃ e r', m r = Done (inr e, r') ∧ (e = EOF ∨ e = ErrUnexpectedEOF).

Lemma fixed_readFull n : fixed (readFull n) n.
Proof.
  intros r. unfold readFull. destruct (decide _), (Z.leb_spec n (zlen r)); try lia; [eauto|].
  eexists _, _. split; [done|]. destruct (zlen r =? 0); auto.
Qed.

Lemma fixed_ret {A} (a : A) : fixed (mret a) 0.
Proof.
  intros r. pose proof (zlen_nonneg r). destruct (decide _); [|lia]. by exists a.
Qed.

Lemma fixed_bind {A B} (m : reader A) (f : A → reader B) n k :
  0 ≤ n → 0 ≤ k → fixed m n → (∀ a, fixed (f a) k) → fixed (m ≫= f) (n + k).
Proof.
  intros Hn Hk Hm Hf r. specialize (Hm r). unfold mbind, io_bind.
  destruct (decide (n ≤ zlen r)) as [H1|H1].
  - destruct Hm as [a ->]. specialize (Hf a (drop (Z.to_nat n) r)).
    assert (zlen (drop (Z.to_nat n) r) = zlen r - n) as E.
    { unfold zlen in *. rewrite length_drop. lia. }
    rewrite E in Hf. destruct (decide (k ≤ _)), (decide (n + k ≤ zlen r)); try lia; [|done].
    destruct Hf as [b ->]. exists b. rewrite drop_drop. do 3 f_equal. lia.
  - destruct (decide (n + k ≤ zlen r)); [lia|]. destruct Hm as (e & r' & -> & He). eauto.
Qed.

Lemma fixed_header : fixed readBlockHeader blockHeaderLen.
Proof.
  unfold readBlockHeader, readBlockHeaderBuf, blockHeaderLen.
  change 80 with (4 + (32 + (32 + (4 + (4 + (4 + 0)))))).
  repeat (apply fixed_bind; [lia..|apply fixed_readFull|intros ?]). apply fixed_ret.
Qed.

(** A block header is stored and relayed as exactly 80 bytes:
    a header whose fields fit their wire width is written as 80 bytes and read
    back unchanged, and conversely [readBlockHeader] fails with an end-of-file
    error on fewer than 80 bytes and otherwise consumes 80 bytes that
    [writeBlockHeader] reproduces, so that two different 80-byte headers never
    decode to the same [BlockHeader]. *)
Theorem header_roundtrip (h : BlockHeader) (r : list byte) :
  header_wf h →
  (∃ bs, writeBlockHeader h unbounded = Done (inl tt, {| sent := bs; room := None |}) ∧
     zlen bs = blockHeaderLen ∧ readBlockHeader (bs ++ r) = Done (inl h, r)) ∧
  (∃ res r', readBlockHeader r = Done (res, r') ∧
     match res with
     | inl h' => header_wf h' ∧ ∃ bs, r = bs ++ r' ∧ zlen bs = blockHeaderLen ∧
         writeBlockHeader h' unbounded = Done (inl tt, {| sent := bs; room := None |})
     | inr e => zlen r < blockHeaderLen ∧ (e = EOF ∨ e = ErrUnexpectedEOF)
     end).
Proof.
  intros Hwf. split.
  - exists (header_bytes h). split; [apply emits_header|]. split; [by apply zlen_header|].
    by apply parses_header.
  - destruct (consumes_header r) as (res & r' & E & H). exists res, r'. split; [done|].
    destruct res as [h'|e].
    + destruct (H h' eq_refl) as (bs & -> & Hwf' & ->). split; [done|].
      exists (header_bytes h'). split; [done|]. split; [by apply zlen_header|apply emits_header].
    + pose proof (fixed_header r) as F. destruct (decide _) as [Hl|Hl].
      * destruct F as [a F]. congruence.
      * destruct F as (e' & r'' & F & He). split; [lia|]. congruence.
Qed.

Definition sampleHeader : BlockHeader :=
  {| Version := 0x20000000; PrevBlock := replicate 32 (z2b 0xab);
     MerkleRoot := replicate 32 (z2b 0xcd); Timestamp := 1565881200;
     Bits := 0x1f3fffff; Nonce := 247 |}.

Lemma header_roundtrip_witness :
  header_wf sampleHeader ∧
  ∃ bs, writeBlockHeader sampleHeader unbounded = Done (inl tt, {| sent := bs; room := None |}) ∧
     zlen bs = 80 ∧ readBlockHeader (bs ++ [z2b 9]) = Done (inl sampleHeader, [z2b 9]).
Proof.
  assert (header_wf sampleHeader) as H by (repeat split; vm_compute; congruence).
  split; [exact H|]. destruct (header_roundtrip sampleHeader [z2b 9] H) as [H1 _]. exact H1.
Defined.

(** ** The decoder without the slab

    The reference decoder returns each script as it is read; of the slab only
    the remaining capacity is left. *)

Definition readScriptRef (cap : Z) : reader (list byte) :=
  count ← ReadVarIntBuf;
  if maxWitnessItemSize <? count then io_fail MessageError
  else if cap <? count then io_fail MessageError
  else readFull count.

Definition readTxInRef (cap : Z) : reader (TxIn (list byte)) :=
  op ← readOutPointBuf;
  sc ← readScriptRef cap;
  sq ← readFull 4;
  mret {| PreviousOutPoint := op; SignatureScript := sc; Witness := None; Sequence := le_val sq |}.

Definition readTxOutRef (cap : Z) : reader (TxOut (list byte)) :=
  v ← readFull 8;
  sc ← readScriptRef cap;
  mret {| Value := i64 (le_val v); PkScript := sc |}.

Fixpoint readManyRef {A} (f : Z → reader A) (size : A → Z) (n : nat) (cap : Z) :
    reader (list A * Z) :=
  match n with
  | O => mret ([], cap)
  | S n =>
      a ← f cap;
      rest ← readManyRef f size n (cap - size a);
      mret (a :: rest.1, rest.2)
  end.

Definition setWitness {B} (w : option (list B)) (ti : TxIn B) : TxIn B :=
  {| PreviousOutPoint := PreviousOutPoint ti; SignatureScript := SignatureScript ti;
     Witness := w; Sequence := Sequence ti |}.

Fixpoint readWitnessesRef (ins : list (TxIn (list byte))) (cap : Z) :
    reader (list (TxIn (list byte)) * Z) :=
  match ins with
  | [] => mret ([], cap)
  | ti :: ins =>
      witCount ← ReadVarIntBuf;
      if maxWitnessItemsPerInput <? witCount then io_fail MessageError
      else
        w ← readManyRef readScriptRef zlen (Z.to_nat witCount) cap;
        rest ← readWitnessesRef ins w.2;
        mret (setWitness (Some w.1) ti :: rest.1, rest.2)
  end.

Definition sigSize (ti : TxIn (list byte)) : Z := zlen (SignatureScript ti).
Definition pkSize (to : TxOut (list byte)) : Z := zlen (PkScript to).

(** The part after the input count and the flag are known. *)
Definition decodeRefBody (enc : MessageEncoding) (cap v count flag : Z) : reader Tx :=
  if maxTxInPerMessage <? count then io_fail MessageError else
  ins ← readManyRef readTxInRef sigSize (Z.to_nat count) cap;
  count ← ReadVarIntBuf;
  if maxTxOutPerMessage <? count then io_fail MessageError else
  outs ← readManyRef readTxOutRef pkSize (Z.to_nat count) ins.2;
  wit ← (if negb (flag =? 0) && isWitnessEncoding enc then
           w ← readWitnessesRef ins.1 outs.2;
           if existsb (fun ti => negb (zlen (witnessOf ti) =? 0)) w.1
           then mret w.1 else io_fail errSuperfluousWitnessRecord
         else mret ins.1);
  lt ← readFull 4;
  mret {| TxVersion := i32 v; TxIns := wit; TxOuts := outs.1; LockTime := le_val lt |}.

Definition decodeRef (enc : MessageEncoding) (cap : Z) : reader Tx :=
  v ← readFull 4;
  count ← ReadVarIntBuf;
  cf ← (if (count =? TxFlagMarker) && isWitnessEncoding enc then
          fl ← readFull 1;
          if negb (le_val fl =? WitnessFlag) then io_fail MessageError
          else count ← ReadVarIntBuf; mret (count, le_val fl)
        else mret (count, 0));
  decodeRefBody enc cap (le_val v) cf.1 cf.2.

(** [refines m m' R]: [m] returns what [m'] does, up to [R] on values. *)
Definition refines {A A'} (m : reader A) (m' : reader A') (R : A → A' → Prop) : Prop :=
  ∀ r, match m' r with
       | Done (inl a', r') => ∃ a, m r = Done (inl a, r') ∧ R a a'
       | Done (inr e, r') => m r = Done (inr e, r')
       | _ => False
       end.

Lemma refines_ret {A A'} (a : A) (a' : A') (R : A → A' → Prop) :
  R a a' → refines (mret a) (mret a') R.
Proof. intros H r. simpl. eauto. Qed.

Lemma refines_fail {A A'} e (R : A → A' → Prop) : refines (io_fail e) (io_fail e) R.
Proof. done. Qed.

Lemma refines_bind {A A' B B'} (m : reader A) (m' : reader A') (f : A → reader B)
    (f' : A' → reader B') R Q :
  refines m m' R → (∀ a a', R a a' → refines (f a) (f' a') Q) →
  refines (m ≫= f) (m' ≫= f') Q.
Proof.
  intros Hm Hf r. specialize (Hm r). unfold mbind, io_bind.
  destruct (m' r) as [[[a'|e] r']| |]; [|by rewrite Hm|done..].
  destruct Hm as (a & -> & HR). by apply Hf.
Qed.

Lemma refines_run {A A'} (m : run A) a (a' : A') (R : A → A' → Prop) :
  m = Done a → R a a' → refines (io_run m) (mret a') R.
Proof. intros -> ?. by apply refines_ret. Qed.

(** A reader without slab refines itself when it never panics. *)
Lemma refines_refl {A} (m : reader A) P :
  consumes m P → refines m m (fun a a' => a = a' ∧ ∃ bs, P a bs).
Proof.
  intros H r. destruct (H r) as (res & r' & -> & HP). destruct res as [a|]; [|done].
  exists a. split; [done|]. destruct (HP a eq_refl) as (bs & _ & ?). eauto.
Qed.

(** *** Slabs and the scripts in them *)

Definition slab_ok (s : slab) : Prop := 0 ≤ pos s ≤ zlen (mem s) ∧ zlen (mem s) < 2 ^ 63.

Definition capacity (s : slab) : Z := zlen (mem s) - pos s.

(** The part of [s] below its position is kept by [s']. *)
Definition extends (s s' : slab) : Prop :=
  zlen (mem s') = zlen (mem s) ∧ pos s ≤ pos s' ∧
  take (Z.to_nat (pos s)) (mem s') = take (Z.to_nat (pos s)) (mem s).

Lemma extends_refl s : extends s s.
Proof. done. Qed.

Lemma extends_trans s1 s2 s3 : extends s1 s2 → extends s2 s3 → extends s1 s3.
Proof.
  intros (Hl1 & Hp1 & Ht1) (Hl2 & Hp2 & Ht2). split; [lia|]. split; [lia|].
  rewrite <-Ht1. apply (f_equal (take (Z.to_nat (pos s1)))) in Ht2.
  by rewrite !take_take, !Nat.min_l in Ht2 by lia.
Qed.

#[export] Instance extends_preorder : PreOrder extends.
Proof. split; [exact extends_refl|exact extends_trans]. Qed.

(** The slice [b] lies below the position of [s] and holds [sc]. *)
Definition script_at (s : slab) (b : bslice) (sc : list byte) : Prop :=
  0 ≤ off b ∧ len b = zlen sc ∧ off b + len b ≤ pos s ∧ resolve (mem s) b = sc.

Lemma script_at_mono s s' b sc : extends s s' → script_at s b sc → script_at s' b sc.
Proof.
  intros (Hl & Hp & Ht) (Ho & Hn & Hb & Hr). repeat split; try lia.
  unfold resolve in *. rewrite take_drop_commute in *. pose proof (zlen_nonneg sc).
  apply (f_equal (take (Z.to_nat (off b) + Z.to_nat (len b)))) in Ht.
  rewrite !take_take, !Nat.min_l in Ht by lia. by rewrite Ht.
Qed.

Lemma blit_app (m : list byte) p bs : 0 ≤ p → p + zlen bs ≤ zlen m →
  blit m p bs = take (Z.to_nat p) m ++ bs ++ drop (Z.to_nat (p + zlen bs)) m.
Proof.
  intros Hp Hl. unfold blit, gocopy, zlen in *.
  rewrite (take_ge bs) by (rewrite length_drop; lia).
  rewrite drop_drop. do 3 f_equal. lia.
Qed.

Lemma write_slab s bs n : slab_ok s → n = zlen bs → zlen bs ≤ capacity s →
  let s' := {| mem := blit (mem s) (pos s) bs; pos := pos s + n |} in
  slab_ok s' ∧ extends s s' ∧ script_at s' {| off := pos s; len := n |} bs.
Proof.
  intros (Hp & Hz) -> Hl s'. unfold capacity in Hl. pose proof (zlen_nonneg bs).
  assert (length (take (Z.to_nat (pos s)) (mem s)) = Z.to_nat (pos s)) as Et.
  { rewrite length_take. unfold zlen in *. lia. }
  unfold slab_ok, extends, script_at, s'; cbn [mem pos off len]. rewrite blit_app by lia.
  assert (zlen (take (Z.to_nat (pos s)) (mem s) ++ bs ++ drop (Z.to_nat (pos s + zlen bs)) (mem s)) =
          zlen (mem s)) as El.
  { unfold zlen in *. rewrite !length_app, length_drop, Et. lia. }
  rewrite El. repeat split; try lia.
  - by rewrite take_app_length' by lia.
  - unfold resolve; simpl. rewrite drop_app_length' by lia.
    by rewrite take_app_length' by (unfold zlen; lia).
Qed.

(** *** Reading into the slab *)

(** Relations between items over slices and items over bytes, kept when the
    slab grows. *)
Class Mono {A A'} (R : slab → A → A' → Prop) : Prop :=
  mono s s' a a' : extends s s' → R s a a' → R s' a a'.

#[export] Instance script_at_Mono : Mono script_at := script_at_mono.

Definition txin_at (s : slab) (ti : TxIn bslice) (ti' : TxIn (list byte)) : Prop :=
  PreviousOutPoint ti = PreviousOutPoint ti' ∧ Sequence ti = Sequence ti' ∧
  script_at s (SignatureScript ti) (SignatureScript ti') ∧
  option_Forall2 (Forall2 (script_at s)) (Witness ti) (Witness ti').

Definition txout_at (s : slab) (to : TxOut bslice) (to' : TxOut (list byte)) : Prop :=
  Value to = Value to' ∧ script_at s (PkScript to) (PkScript to').

#[export] Instance txin_at_Mono : Mono txin_at.
Proof.
  intros s s' a a' He (Ho & Hs & Hsc & Hw). unfold txin_at.
  split_and!; [done..|by eapply script_at_mono|].
  destruct Hw as [w w' Hw|]; constructor. eapply Forall2_impl; [done|].
  intros. by eapply script_at_mono.
Qed.

#[export] Instance txout_at_Mono : Mono txout_at.
Proof. intros s s' a a' He (Hv & Hsc). split; [done|by eapply script_at_mono]. Qed.

(** An input before its witness is read *)
Definition txin_fresh (s : slab) (ti : TxIn bslice) (ti' : TxIn (list byte)) : Prop :=
  txin_at s ti ti' ∧ Witness ti' = None.

#[export] Instance txin_fresh_Mono : Mono txin_fresh.
Proof. intros s s' a a' He [? ?]. split; [by eapply txin_at_Mono|done]. Qed.

(** What one reader of an item leaves, once [sbuf] has moved past its script. *)
Definition item_read {A A'} (script : A → bslice) (size : A' → Z)
    (R : slab → A → A' → Prop) (s : slab) (r : A * slab) (a' : A') : Prop :=
  let s' := advance r.2 (len (script r.1)) in
  slab_ok s' ∧ extends s s' ∧ pos s' = pos s + size a' ∧
  len (script r.1) = size a' ∧ R s' r.1 a'.

Lemma readScriptBuf_refines s : slab_ok s →
  refines (readScriptBuf s) (readScriptRef (capacity s)) (item_read id zlen script_at s).
Proof.
  intros Hs. unfold readScriptBuf, readScriptRef, capacity. eapply refines_bind.
  { eapply refines_refl, consumes_varint. }
  intros count _ (<- & _ & Hcount & _). destruct (maxWitnessItemSize <? count); [apply refines_fail|].
  destruct (Z.ltb_spec (zlen (mem s) - pos s) count); [apply refines_fail|].
  intros r. unfold mbind, io_bind, readFull. destruct (Z.leb_spec count (zlen r)) as [Hc|Hc]; [|done].
  eexists. split; [done|]. unfold item_read, advance, id. cbn [fst snd mem pos len].
  assert (zlen (take (Z.to_nat count) r) = count) as El.
  { unfold zlen in *. rewrite length_take. lia. }
  rewrite El. destruct (write_slab s (take (Z.to_nat count) r) count) as (H1 & H2 & H3); auto.
  unfold capacity. lia.
Qed.

Lemma consumes_outpoint : consumes readOutPointBuf
  (fun op bs => zlen (Hash op) = 32 ∧ 0 ≤ Index op < 2 ^ 32 ∧ bs = Hash op ++ le_bytes 4 (Index op)).
Proof.
  unfold readOutPointBuf. consume_field h Hh. consume_field i Hi. apply consumes_ret.
  rewrite app_nil_r. apply (le_val_zlen _ 4) in Hi as [Hi <-]. cbn [Hash Index].
  change (256 ^ Z.of_nat 4) with (2 ^ 32) in Hi. by rewrite le4_val.
Qed.

Lemma consumes_readFull_refl n : 0 ≤ n → refines (readFull n) (readFull n) eq.
Proof.
  intros Hn r. destruct (consumes_readFull n Hn r) as (res & r' & -> & _). destruct res; eauto.
Qed.

Lemma readTxInBuf_refines s : slab_ok s →
  refines (readTxInBuf s) (readTxInRef (capacity s)) (item_read SignatureScript sigSize txin_fresh s).
Proof.
  intros Hs. unfold readTxInBuf, readTxInRef.
  eapply refines_bind; [eapply refines_refl, consumes_outpoint|]. intros op _ [<- _].
  eapply refines_bind; [by apply readScriptBuf_refines|]. intros [b s'] sc (H1 & H2 & H3 & H4 & H5).
  eapply refines_bind; [apply consumes_readFull_refl; lia|]. intros sq _ <-.
  apply refines_ret. split_and!; try done. split; [|done].
  unfold txin_at; simpl. split_and!; try done. constructor.
Qed.

Lemma readTxOutBuf_refines s : slab_ok s →
  refines (readTxOutBuf s) (readTxOutRef (capacity s)) (item_read PkScript pkSize txout_at s).
Proof.
  intros Hs. unfold readTxOutBuf, readTxOutRef.
  eapply refines_bind; [apply consumes_readFull_refl; lia|]. intros v _ <-.
  eapply refines_bind; [by apply readScriptBuf_refines|]. intros [b s'] sc (H1 & H2 & H3 & H4 & H5).
  apply refines_ret. split_and!; done.
Qed.

Definition sum (l : list Z) : Z := foldr Z.add 0 l.

(** What a loop of such readers leaves. *)
Definition items_read {A A'} (size : A' → Z) (R : slab → A → A' → Prop) (s : slab)
    (r : list A * slab * Z) (r' : list A' * Z) : Prop :=
  let s' := r.1.2 in
  slab_ok s' ∧ extends s s' ∧ r.2 = pos s' ∧ r'.2 = capacity s' ∧
  pos s' = pos s + sum (map size r'.1) ∧ Forall2 (R s') r.1.1 r'.1.

Lemma readMany_refines {A A'} (f : slab → reader (A * slab)) (f' : Z → reader A')
    (script : A → bslice) (size : A' → Z) (R : slab → A → A' → Prop) `{!Mono R} n s :
  (∀ s, slab_ok s → refines (f s) (f' (capacity s)) (item_read script size R s)) →
  slab_ok s →
  refines (readMany f script n s (pos s)) (readManyRef f' size n (capacity s))
    (items_read size R s).
Proof.
  intros Hf. revert s. induction n as [|n IH]; intros s Hs; cbn [readMany readManyRef].
  - apply refines_ret. unfold items_read; simpl. split_and!; try done; lia.
  - eapply refines_bind; [by apply Hf|]. intros [a s'] a' (H1 & H2 & H3 & H4 & H5).
    unfold next; cbn [fst snd] in *. set (s'' := advance s' (len (script a))) in *.
    replace (u64 (pos s + len (script a))) with (pos s'').
    2: { rewrite uwrap_small; [lia|]. destruct H1, Hs. zlia. }
    replace (capacity s - size a') with (capacity s'').
    2: { unfold capacity. destruct H2 as [-> _]. lia. }
    eapply refines_bind; [by apply IH|].
    intros [[l s3] t] [l' c'] (K1 & K2 & K3 & K4 & K5 & K6). cbn [fst snd] in *.
    apply refines_ret. unfold items_read; cbn [fst snd map sum foldr]. split_and!; try done.
    + by etransitivity.
    + unfold sum in *. lia.
    + constructor; [by eapply mono|done].
Qed.

Definition witSize (ti : TxIn (list byte)) : Z := sum (map zlen (witnessOf ti)).

Lemma readWitnesses_refines ins ins' s : slab_ok s → Forall2 (txin_at s) ins ins' →
  refines (readWitnesses ins s (pos s)) (readWitnessesRef ins' (capacity s))
    (fun r r' => items_read witSize txin_at s r r' ∧ map sigSize r'.1 = map sigSize ins').
Proof.
  intros Hs Hin. revert s Hs Hin. revert ins'.
  induction ins as [|ti ins IH]; intros ins' s Hs Hin; inversion Hin as [|? ti' ? l' Hti Hl]; subst;
    cbn [readWitnesses readWitnessesRef].
  { apply refines_ret. unfold items_read; simpl. split_and!; try done; lia. }
  eapply refines_bind; [eapply refines_refl, consumes_varint|]. intros k _ (<- & _ & Hk & _).
  destruct (maxWitnessItemsPerInput <? k); [apply refines_fail|].
  eapply refines_bind.
  { apply (readMany_refines readScriptBuf readScriptRef id zlen script_at); [|done].
    apply readScriptBuf_refines. }
  intros [[w s1] t1] [w' c1] (H1 & H2 & H3 & H4 & H5 & H6). cbn [fst snd] in *. subst.
  eapply refines_bind.
  { apply IH; [done|]. eapply Forall2_impl; [done|]. intros. by eapply mono. }
  intros [[l s2] t2] [l2 c2] [(K1 & K2 & K3 & K4 & K5 & K6) K7]. cbn [fst snd] in *. subst.
  apply refines_ret. split; cbn [fst snd map]; [|by f_equal].
  unfold items_read; cbn [fst snd map]. split_and!; try done.
  - by etransitivity.
  - unfold sum, witSize in *. cbn. lia.
  - constructor; [|done]. destruct Hti as (? & ? & Hsc & _). unfold txin_at; cbn.
    split_and!; [done..| |].
    + eapply mono; [|done]. by etransitivity.
    + constructor. eapply Forall2_impl; [done|]. intros. by eapply mono.
Qed.

(** *** Moving the scripts to their own array *)

(** [f] moves an item of [s] into the array [a]. *)
Definition item_placed {A A'} (size : A' → Z) (R : slab → A → A' → Prop)
    (a : slab) (x' : A') (m : run (A * slab)) : Prop :=
  ∃ y a', m = Done (y, a') ∧ slab_ok a' ∧ extends a a' ∧
    pos a' = pos a + size x' ∧ R a' y x'.

Lemma place_ok s b sc a : script_at s b sc → slab_ok a → zlen sc ≤ capacity a →
  item_placed zlen script_at a sc (place (mem s) b a).
Proof.
  intros (Ho & Hn & Hb & Hr) Ha Hc. unfold place, capacity in *. rewrite Hr.
  pose proof (zlen_nonneg sc). destruct (Ha) as [Hp Hz].
  rewrite Hn, uwrap_small by zlia. rewrite decide_True by lia.
  destruct (write_slab a sc (zlen sc) Ha) as (H1 & H2 & H3); [done|unfold capacity; lia|].
  cbn [mem pos] in *. destruct H2 as (Hl & H2). cbn [mem pos] in *. rewrite decide_True by lia.
  replace (pos a + zlen sc - pos a) with (zlen sc) by lia. eexists _, _. split; [done|].
  cbn [mem pos]. split_and!; try done; lia.
Qed.

Lemma placeEach_ok {A A'} (f : A → slab → run (A * slab)) (size : A' → Z)
    (R : slab → A → A' → Prop) `{!Mono R} s xs xs' a :
  (∀ x, 0 ≤ size x) →
  (∀ x x' a, R s x x' → slab_ok a → size x' ≤ capacity a → item_placed size R a x' (f x a)) →
  Forall2 (R s) xs xs' → slab_ok a → sum (map size xs') ≤ capacity a →
  item_placed (fun l => sum (map size l)) (fun s => Forall2 (R s)) a xs' (placeEach f xs a).
Proof.
  intros Hpos Hf Hall. revert a. induction Hall as [|x x' xs xs' Hx Hall IH]; intros a Ha Hc;
    cbn [placeEach].
  - eexists _, _. split; [done|]. unfold sum; simpl. split_and!; try done; lia.
  - assert (0 ≤ sum (map size xs')) as Hs0.
    { clear -Hpos. unfold sum. induction xs'; simpl; [lia|]. pose proof (Hpos a). lia. }
    cbn [map sum foldr] in Hc. fold (sum (map size xs')) in Hc.
    destruct (Hf x x' a Hx Ha) as (y & a' & -> & H1 & H2 & H3 & H4); [lia|].
    cbn [mbind run_bind fst snd].
    destruct (IH a' H1) as (ys & a'' & -> & K1 & K2 & K3 & K4).
    { unfold capacity in *. destruct H2 as [-> _]. lia. }
    eexists _, _. split; [done|]. split_and!; [done| | |].
    + by etransitivity.
    + cbv beta in K3. unfold sum in *. cbn. lia.
    + constructor; [by eapply mono|done].
Qed.

#[export] Instance Forall2_Mono {A A'} (R : slab → A → A' → Prop) `{!Mono R} :
  Mono (fun s => Forall2 (R s)).
Proof. intros s s' l l' He H. eapply Forall2_impl; [done|]. intros. by eapply mono. Qed.

Definition inSize (ti : TxIn (list byte)) : Z := sigSize ti + witSize ti.

Lemma sum_nonneg {A} (f : A → Z) l : (∀ x, 0 ≤ f x) → 0 ≤ sum (map f l).
Proof. intros H. unfold sum. induction l as [|x l IH]; simpl; [lia|]. pose proof (H x). lia. Qed.

Lemma witSize_nonneg ti : 0 ≤ witSize ti.
Proof. apply sum_nonneg, @zlen_nonneg. Qed.

Lemma placeTxIn_ok s ti ti' a : txin_at s ti ti' → slab_ok a → inSize ti' ≤ capacity a →
  item_placed inSize txin_at a ti' (placeTxIn (mem s) ti a).
Proof.
  destruct ti as [op sg wt sq], ti' as [op' sg' wt' sq'].
  intros (Ho & Hs & Hsc & Hw) Ha Hc. unfold inSize, placeTxIn in *.
  pose proof (witSize_nonneg {| PreviousOutPoint := op'; SignatureScript := sg'; Witness := wt'; Sequence := sq' |}).
  unfold witSize, witnessOf, sigSize in *. cbn [PreviousOutPoint SignatureScript Witness Sequence] in *.
  destruct (place_ok s _ _ a Hsc Ha) as (b & a1 & -> & H1 & H2 & H3 & H4); [lia|].
  cbn [mbind run_bind fst snd]. destruct Hw as [w w' Hw|]; simpl in *.
  - destruct (placeEach_ok (place (mem s)) zlen script_at s w w' a1)
      as (ws & a2 & -> & K1 & K2 & K3 & K4); try done.
    { apply @zlen_nonneg. } { intros. by eapply place_ok. }
    { unfold capacity in *. destruct H2 as [-> _]. lia. }
    simpl. eexists _, _. split; [done|]. split_and!; [done| |simpl; lia|].
    + by etransitivity.
    + unfold txin_at; simpl. split_and!; [done..|by eapply mono|by constructor].
  - eexists _, _. split; [done|]. unfold sum; simpl. split_and!; [done..|lia|].
    unfold txin_at; simpl. split_and!; [done..|constructor].
Qed.

Lemma placeTxOut_ok s to to' a : txout_at s to to' → slab_ok a → pkSize to' ≤ capacity a →
  item_placed pkSize txout_at a to' (placeTxOut (mem s) to a).
Proof.
  intros (Hv & Hsc) Ha Hc. unfold placeTxOut.
  destruct (place_ok s _ _ a Hsc Ha) as (b & a1 & -> & H1 & H2 & H3 & H4); [done|].
  eexists _, _. split; [done|]. split_and!; try done.
Qed.

Lemma resolveTxIns s ins ins' : Forall2 (txin_at s) ins ins' →
  map (resolveTxIn (mem s)) ins = ins'.
Proof.
  induction 1 as [|ti [] ? ? (Ho & Hs & (_ & _ & _ & Hsc) & Hw)]; simpl; [done|]. f_equal; [|done].
  unfold resolveTxIn. simpl in *. rewrite Ho, Hs, Hsc. f_equal.
  destruct Hw as [w w' Hw|]; [|done]. simpl. f_equal.
  induction Hw as [|? ? ? ? (_ & _ & _ & E)]; simpl; [done|]. by f_equal.
Qed.

Lemma resolveTxOuts s outs outs' : Forall2 (txout_at s) outs outs' →
  map (resolveTxOut (mem s)) outs = outs'.
Proof.
  induction 1 as [|to [] ? ? (Hv & _ & _ & _ & Hsc)]; simpl; [done|]. f_equal; [|done].
  unfold resolveTxOut. simpl in *. by rewrite Hv, Hsc.
Qed.

Lemma relocate_ok s ver ins ins' outs outs' lt :
  slab_ok s → Forall2 (txin_at s) ins ins' → Forall2 (txout_at s) outs outs' →
  pos s = sum (map inSize ins') + sum (map pkSize outs') →
  relocate (mem s) (pos s) ver ins outs lt =
  Done {| TxVersion := ver; TxIns := ins'; TxOuts := outs'; LockTime := lt |}.
Proof.
  intros [Hs Hz] Hin Hout Hpos. unfold relocate, make. rewrite decide_True by lia.
  cbn [mbind run_bind]. set (a0 := {| mem := replicate _ _; pos := 0 |}).
  assert (zlen (mem a0) = pos s) as El.
  { subst a0; simpl. unfold zlen in *. rewrite length_replicate. lia. }
  assert (slab_ok a0) as Ha0 by (split; rewrite El; [change (pos a0) with 0|]; lia).
  assert (∀ ti, 0 ≤ inSize ti) as Hin0.
  { intros ti. unfold inSize, sigSize. pose proof (witSize_nonneg ti). pose proof (zlen_nonneg (SignatureScript ti)). lia. }
  assert (∀ to, 0 ≤ pkSize to) as Hpk0 by (intros; apply zlen_nonneg).
  pose proof (sum_nonneg _ outs' Hpk0).
  destruct (placeEach_ok (placeTxIn (mem s)) inSize txin_at s ins ins' a0)
    as (ins1 & a1 & -> & H1 & H2 & H3 & H4); try done.
  { intros. by apply placeTxIn_ok. } { unfold capacity. rewrite El. change (pos a0) with 0. lia. }
  cbn [mbind run_bind fst snd]. change (pos a0) with 0 in H3. cbv beta in H3.
  destruct (placeEach_ok (placeTxOut (mem s)) pkSize txout_at s outs outs' a1)
    as (os & a2 & -> & K1 & K2 & K3 & K4); try done.
  { intros. by apply placeTxOut_ok. } { unfold capacity. destruct H2 as [-> _]. lia. }
  cbn [mbind run_bind fst snd]. f_equal. f_equal.
  - apply resolveTxIns. by apply (Forall2_Mono txin_at a1 a2).
  - by apply resolveTxOuts.
Qed.

Lemma sum_inSize (ins ins' : list (TxIn (list byte))) :
  map sigSize ins = map sigSize ins' →
  sum (map inSize ins) = sum (map sigSize ins') + sum (map witSize ins).
Proof.
  intros <-. unfold sum, inSize. induction ins as [|ti ins IH]; cbn in *; lia.
Qed.

(** The whole decoder returns, on every input, what the slab-free one does. *)
Lemma btcDecode_refines enc sbuf : zlen sbuf < 2 ^ 63 →
  refines (btcDecode enc sbuf) (decodeRef enc (zlen sbuf)) eq.
Proof.
  intros Hl. pose proof (zlen_nonneg sbuf).
  set (s0 := {| mem := sbuf; pos := 0 |}).
  assert (slab_ok s0) as H0 by (split; simpl; lia).
  unfold btcDecode, decodeRef.
  eapply refines_bind; [apply consumes_readFull_refl; lia|]. intros v _ <-.
  eapply refines_bind; [eapply refines_refl, consumes_varint|]. intros count _ [<- _].
  eapply (refines_bind _ _ _ _ eq).
  { destruct (_ && _); [|by apply refines_ret].
    eapply refines_bind; [apply consumes_readFull_refl; lia|]. intros fl _ <-.
    destruct (negb _); [apply refines_fail|].
    eapply refines_bind; [eapply refines_refl, consumes_varint|]. intros c _ [<- _].
    by apply refines_ret. }
  intros [c flag] _ <-. unfold decodeRefBody. cbn [fst snd].
  destruct (maxTxInPerMessage <? c); [apply refines_fail|].
  replace (zlen sbuf) with (capacity s0) by (unfold capacity; simpl; lia).
  eapply refines_bind.
  { apply (readMany_refines readTxInBuf readTxInRef SignatureScript sigSize txin_fresh); [|done].
    apply readTxInBuf_refines. }
  intros [[ins s1] t1] [ins' c1] (A1 & A2 & A3 & A4 & A5 & A6). cbn [fst snd] in *. subst.
  eapply refines_bind; [eapply refines_refl, consumes_varint|]. intros k _ [<- _].
  destruct (maxTxOutPerMessage <? k); [apply refines_fail|].
  eapply refines_bind.
  { apply (readMany_refines readTxOutBuf readTxOutRef PkScript pkSize txout_at); [|done].
    apply readTxOutBuf_refines. }
  intros [[outs s2] t2] [outs' c2] (B1 & B2 & B3 & B4 & B5 & B6). cbn [fst snd] in *. subst.
  assert (Forall2 (txin_at s2) ins ins') as Hins.
  { eapply Forall2_impl; [exact A6|]. intros x y [Hxy _]. by eapply mono. }
  assert (sum (map witSize ins') = 0) as Hw0.
  { clear -A6. induction A6 as [|x y l l' [_ Hn] _ IH]; [done|]. unfold sum in *. cbn.
    unfold witSize at 1, witnessOf. rewrite Hn. exact IH. }
  eapply (refines_bind _ _ _ _ (fun w w' =>
    ∃ s3, w = (w.1.1, s3, pos s3) ∧ slab_ok s3 ∧ extends s2 s3 ∧ Forall2 (txin_at s3) w.1.1 w' ∧
      pos s3 = sum (map inSize w') + sum (map pkSize outs'))).
  { destruct (_ && _).
    - eapply refines_bind; [by apply readWitnesses_refines|].
      intros [[w s3] t3] [w' c3] [(C1 & C2 & C3 & C4 & C5 & C6) C7]. cbn [fst snd] in *. subst.
      assert (HasWitness {| TxVersion := i32 (le_val v); TxIns := w; TxOuts := outs; LockTime := 0 |} =
        existsb (fun ti => negb (zlen (witnessOf ti) =? 0)) w') as ->.
      { unfold HasWitness; cbn [TxIns]. clear -C6.
        induction C6 as [|x y l l' (_ & _ & _ & Hw) _ IH]; [done|]. cbn. rewrite IH. f_equal.
        unfold witnessOf. destruct Hw as [a b Hw|]; [|done]. cbn. unfold zlen.
        by rewrite (Forall2_length _ _ _ Hw). }
      destruct (existsb _ w'); [|apply refines_fail]. apply refines_ret. cbn [fst snd].
      exists s3. split_and!; try done. rewrite (sum_inSize _ _ C7). simpl in A5. lia.
    - apply refines_ret. cbn [fst snd]. exists s2. split_and!; try done.
      rewrite (sum_inSize _ _ eq_refl). simpl in A5. lia. }
  intros [[w s3'] t3] w' (s3 & [= -> ->] & C1 & C2 & C3 & C4). cbn [fst snd] in *.
  eapply refines_bind; [apply consumes_readFull_refl; lia|]. intros lt _ <-.
  eapply refines_run; [|done]. apply relocate_ok; try done.
  eapply Forall2_impl; [exact B6|]. intros. by eapply mono.
Qed.

(** ** What a transaction is encoded as *)

Definition outpoint_bytes (op : OutPoint) : list byte := Hash op ++ le_bytes 4 (Index op).

Definition txin_bytes (ti : TxIn (list byte)) : list byte :=
  outpoint_bytes (PreviousOutPoint ti) ++ varbytes (SignatureScript ti) ++ le_bytes 4 (Sequence ti).

Definition txout_bytes (to : TxOut (list byte)) : list byte :=
  le_bytes 8 (u64 (Value to)) ++ varbytes (PkScript to).

Definition witness_bytes (ti : TxIn (list byte)) : list byte :=
  varint (zlen (witnessOf ti)) ++ (witnessOf ti ≫= varbytes).

Definition segwit (enc : MessageEncoding) (msg : Tx) : bool :=
  isWitnessEncoding enc && HasWitness msg.

Definition tx_bytes (enc : MessageEncoding) (msg : Tx) : list byte :=
  le_bytes 4 (u32 (TxVersion msg)) ++
  (if segwit enc msg then [z2b TxFlagMarker; z2b WitnessFlag] else []) ++
  varint (zlen (TxIns msg)) ++ (TxIns msg ≫= txin_bytes) ++
  varint (zlen (TxOuts msg)) ++ (TxOuts msg ≫= txout_bytes) ++
  (if segwit enc msg then TxIns msg ≫= witness_bytes else []) ++
  le_bytes 4 (LockTime msg).

(** Transactions within the limits the decoder enforces. *)

Definition script_wf (sc : list byte) : Prop := zlen sc ≤ maxWitnessItemSize.

Definition txin_wf (ti : TxIn (list byte)) : Prop :=
  zlen (Hash (PreviousOutPoint ti)) = 32 ∧ 0 ≤ Index (PreviousOutPoint ti) < 2 ^ 32 ∧
  script_wf (SignatureScript ti) ∧ 0 ≤ Sequence ti < 2 ^ 32.

Definition wit_wf (ti : TxIn (list byte)) : Prop :=
  zlen (witnessOf ti) ≤ maxWitnessItemsPerInput ∧ Forall script_wf (witnessOf ti).

Definition txout_wf (to : TxOut (list byte)) : Prop :=
  - 2 ^ 63 ≤ Value to < 2 ^ 63 ∧ script_wf (PkScript to).

Definition tx_wf (msg : Tx) : Prop :=
  - 2 ^ 31 ≤ TxVersion msg < 2 ^ 31 ∧ 0 ≤ LockTime msg < 2 ^ 32 ∧
  zlen (TxIns msg) ≤ maxTxInPerMessage ∧ zlen (TxOuts msg) ≤ maxTxOutPerMessage ∧
  Forall txin_wf (TxIns msg) ∧ Forall wit_wf (TxIns msg) ∧ Forall txout_wf (TxOuts msg).

(** What a transaction is after a trip over the wire: the witnesses are all
    present when one is, and all absent otherwise. *)
Definition carried (enc : MessageEncoding) (msg : Tx) : Tx :=
  {| TxVersion := TxVersion msg;
     TxIns := map (fun ti => setWitness (if segwit enc msg then Some (witnessOf ti) else None) ti)
                (TxIns msg);
     TxOuts := TxOuts msg; LockTime := LockTime msg |}.

Definition scriptBytes (enc : MessageEncoding) (msg : Tx) : Z :=
  sum (map sigSize (TxIns msg)) + sum (map pkSize (TxOuts msg)) +
  (if segwit enc msg then sum (map witSize (TxIns msg)) else 0).

(** *** The encoder *)

Lemma zlen_u64 {A} (l : list A) k : zlen l ≤ k → k < 2 ^ 64 → u64 (zlen l) = zlen l.
Proof. intros. pose proof (zlen_nonneg l). apply uwrap_small. lia. Qed.

Lemma emits_varbytes sc : script_wf sc → emits (WriteVarBytesBuf sc) (varbytes sc).
Proof.
  intros H. unfold WriteVarBytesBuf, varbytes. pose proof (zlen_nonneg sc).
  unfold script_wf, maxWitnessItemSize in H.
  rewrite (zlen_u64 _ 4000000) by zlia. apply emits_bind; [|done]. apply emits_varint. zlia.
Qed.

Lemma emits_outpoint op : emits (writeOutPointBuf op) (outpoint_bytes op).
Proof. unfold writeOutPointBuf, outpoint_bytes. eauto with emits. Qed.

Lemma emits_txin ti : txin_wf ti → emits (writeTxInBuf ti) (txin_bytes ti).
Proof.
  intros (_ & _ & Hs & _). unfold writeTxInBuf, txin_bytes.
  apply emits_bind; [apply emits_outpoint|]. apply emits_bind; [by apply emits_varbytes|done].
Qed.

Lemma emits_txout to : txout_wf to → emits (WriteTxOutBuf to) (txout_bytes to).
Proof.
  intros (_ & Hs). unfold WriteTxOutBuf, txout_bytes.
  apply emits_bind; [done|by apply emits_varbytes].
Qed.

Lemma emits_witness ti : wit_wf ti → emits (writeTxWitnessBuf (witnessOf ti)) (witness_bytes ti).
Proof.
  intros (Hl & Hw). unfold writeTxWitnessBuf, witness_bytes.
  pose proof (zlen_nonneg (witnessOf ti)). unfold maxWitnessItemsPerInput in Hl.
  rewrite (zlen_u64 _ 4000000) by zlia. apply emits_bind; [apply emits_varint; zlia|].
  apply emits_forEach. intros sc Hsc. apply emits_varbytes. by eapply Forall_forall in Hw.
Qed.

Lemma emits_all {A} (P : A → Prop) (f : A → writer unit) g xs :
  Forall P xs → (∀ x, P x → emits (f x) (g x)) → emits (forEach f xs) (xs ≫= g).
Proof. intros HP H. apply emits_forEach. intros x Hx. apply H. by eapply Forall_forall in HP. Qed.

Lemma emits_count {A} (l : list A) k : zlen l ≤ k → k < 2 ^ 64 →
  emits (WriteVarIntBuf (u64 (zlen l))) (varint (zlen l)).
Proof.
  intros Hk Hk'. pose proof (zlen_nonneg l). rewrite (zlen_u64 l k) by done.
  apply emits_varint. lia.
Qed.

Lemma emits_tx enc msg : tx_wf msg → emits (BtcEncode enc msg) (tx_bytes enc msg).
Proof.
  intros (_ & _ & Hi & Ho & HI & HW & HO). unfold BtcEncode, btcEncode, tx_bytes, segwit.
  apply emits_bind; [done|]. cbv zeta.
  apply emits_bind; [destruct (_ && _); [done|apply emits_ret]|].
  apply emits_bind; [by eapply emits_count|].
  apply emits_bind; [by eapply emits_all, emits_txin|].
  apply emits_bind; [by eapply emits_count|].
  apply emits_bind; [by eapply emits_all, emits_txout|].
  apply emits_bind; [|done].
  destruct (_ && _); [|apply emits_ret]. eapply emits_all; [exact HW|]. apply emits_witness.
Qed.

(** *** Sizes *)

Lemma zlen_bind {A B} (f : A → list B) l : zlen (l ≫= f) = sum (map (fun x => zlen (f x)) l).
Proof.
  induction l as [|x l IH]; [done|]. by rewrite bind_cons, zlen_app, IH.
Qed.

Lemma foldl_sum {A} (f : A → Z) l n : foldl (fun n x => n + f x) n l = n + sum (map f l).
Proof. revert n. unfold sum. induction l as [|x l IH]; intros n; cbn; [lia|]. rewrite IH. lia. Qed.

Lemma sum_ext {A} (f g : A → Z) (P : A → Prop) l : Forall P l → (∀ x, P x → f x = g x) →
  sum (map f l) = sum (map g l).
Proof. intros HP H. induction HP; cbn; [done|]. rewrite H by done. unfold sum in *. lia. Qed.

Lemma zlen_varbytes sc : zlen (varbytes sc) = VarIntSerializeSize (zlen sc) + zlen sc.
Proof. unfold varbytes. by rewrite zlen_app, zlen_varint. Qed.

Lemma zlen_txin ti : txin_wf ti → zlen (txin_bytes ti) = TxIn_SerializeSize ti.
Proof.
  intros (Hh & _). unfold txin_bytes, outpoint_bytes, TxIn_SerializeSize.
  rewrite !zlen_app, !zlen_le_bytes, zlen_varbytes, Hh. lia.
Qed.

Lemma zlen_txout to : zlen (txout_bytes to) = TxOut_SerializeSize to.
Proof.
  unfold txout_bytes, TxOut_SerializeSize. rewrite zlen_app, zlen_le_bytes, zlen_varbytes. lia.
Qed.

Lemma TxWitness_size t : TxWitness_SerializeSize t =
  VarIntSerializeSize (zlen t) + sum (map (fun x => VarIntSerializeSize (zlen x) + zlen x) t).
Proof.
  unfold TxWitness_SerializeSize.
  rewrite <-(foldl_sum (fun x => VarIntSerializeSize (zlen x) + zlen x)).
  generalize (VarIntSerializeSize (zlen t)). induction t as [|x t IH]; intros n; cbn; [done|].
  rewrite Z.add_assoc. apply IH.
Qed.

Lemma zlen_witness ti : zlen (witness_bytes ti) = TxWitness_SerializeSize (witnessOf ti).
Proof.
  unfold witness_bytes. rewrite TxWitness_size, zlen_app, zlen_varint, zlen_bind. f_equal.
  apply (sum_ext _ _ (fun _ => True)); [by apply Forall_true|]. intros; apply zlen_varbytes.
Qed.

Lemma baseSize_spec msg : tx_wf msg → baseSize msg =
  8 + zlen (varint (zlen (TxIns msg))) + zlen (varint (zlen (TxOuts msg))) +
  zlen (TxIns msg ≫= txin_bytes) + zlen (TxOuts msg ≫= txout_bytes).
Proof.
  intros (_ & _ & _ & _ & HI & _ & HO). unfold baseSize. rewrite !foldl_sum, !zlen_varint, !zlen_bind.
  rewrite (sum_ext (fun x => zlen (txin_bytes x)) TxIn_SerializeSize _ _ HI zlen_txin).
  rewrite (sum_ext (fun x => zlen (txout_bytes x)) TxOut_SerializeSize _ _ HO); [done|].
  intros; apply zlen_txout.
Qed.

Lemma zlen_tx enc msg : tx_wf msg →
  zlen (tx_bytes enc msg) =
  match enc with WitnessEncoding => SerializeSize msg | BaseEncoding => SerializeSizeStripped msg end.
Proof.
  intros Hwf. unfold tx_bytes, segwit, SerializeSize, SerializeSizeStripped.
  rewrite !zlen_app, !zlen_le_bytes, (baseSize_spec msg Hwf).
  destruct enc; cbn [isWitnessEncoding andb]; [change (zlen (@nil byte)) with 0; lia|].
  destruct (HasWitness msg); [|change (zlen (@nil byte)) with 0; lia].
  rewrite foldl_sum, (zlen_bind witness_bytes).
  rewrite (sum_ext (fun x => zlen (witness_bytes x)) (fun ti => TxWitness_SerializeSize (witnessOf ti))
    (fun _ => True)); [|by apply Forall_true|intros; apply zlen_witness].
  change (zlen [z2b TxFlagMarker; z2b WitnessFlag]) with 2. lia.
Qed.

(** *** Reading back what was written *)

Lemma to_nat_zlen {A} (l : list A) : Z.to_nat (zlen l) = length l.
Proof. apply Nat2Z.id. Qed.

Lemma parses_script cap sc : script_wf sc → zlen sc ≤ cap →
  parses (readScriptRef cap) (varbytes sc) sc.
Proof.
  intros Hs Hc. unfold readScriptRef, varbytes. pose proof (zlen_nonneg sc).
  unfold script_wf in Hs.
  eapply parses_bind; [apply parses_varint; unfold maxWitnessItemSize in Hs; zlia|].
  destruct (Z.ltb_spec maxWitnessItemSize (zlen sc)); [lia|].
  destruct (Z.ltb_spec cap (zlen sc)); [lia|]. by apply parses_readFull.
Qed.

Lemma parses_txin cap ti : txin_wf ti → sigSize ti ≤ cap →
  parses (readTxInRef cap) (txin_bytes ti) (setWitness None ti).
Proof.
  intros (Hh & Hi & Hs & Hq) Hc. unfold readTxInRef, txin_bytes, outpoint_bytes, readOutPointBuf.
  eapply parses_bind; [by do 2 parse_field|].
  eapply parses_bind; [by apply parses_script|]. parse_field.
  rewrite !le4_val by done. destruct ti as [[] ? ? ?]; done.
Qed.

Lemma parses_txout cap to : txout_wf to → pkSize to ≤ cap →
  parses (readTxOutRef cap) (txout_bytes to) to.
Proof.
  intros (Hv & Hs) Hc. unfold readTxOutRef, txout_bytes. parse_field.
  eapply parses_bind_last; [by apply parses_script|].
  rewrite le8_val by (by apply uwrap_range). rewrite i64_u64 by done. by destruct to.
Qed.

Lemma parses_many {A} (f : Z → reader A) (size : A → Z) (g : A → list byte) (h : A → A)
    (P : A → Prop) l cap :
  Forall P l → (∀ x, size (h x) = size x) → (∀ x, 0 ≤ size x) →
  (∀ x cap, P x → size x ≤ cap → parses (f cap) (g x) (h x)) →
  sum (map size l) ≤ cap →
  parses (readManyRef f size (length l) cap) (l ≫= g) (map h l, cap - sum (map size l)).
Proof.
  intros HP Hh H0 Hf. revert cap. induction HP as [|x l Hx HP IH]; intros cap Hc.
  - cbn. rewrite Z.sub_0_r. apply parses_ret.
  - pose proof (sum_nonneg size l H0). unfold sum in *. cbn in Hc.
    cbn [length readManyRef]. rewrite bind_cons.
    eapply parses_bind; [apply Hf; [done|lia]|]. rewrite Hh.
    eapply parses_bind_last; [apply IH; lia|]. cbn. do 2 f_equal. lia.
Qed.

Lemma parses_witnesses l cap :
  Forall wit_wf l → sum (map witSize l) ≤ cap →
  parses (readWitnessesRef (map (setWitness None) l) cap) (l ≫= witness_bytes)
    (map (fun ti => setWitness (Some (witnessOf ti)) ti) l, cap - sum (map witSize l)).
Proof.
  intros HP. revert cap. induction HP as [|ti l [Hn Hx] HP IH]; intros cap Hc.
  - cbn. rewrite Z.sub_0_r. apply parses_ret.
  - pose proof (sum_nonneg witSize l witSize_nonneg). pose proof (zlen_nonneg (witnessOf ti)).
    unfold sum in *. cbn in Hc. cbn [map readWitnessesRef]. rewrite bind_cons.
    unfold witness_bytes at 1. rewrite <-app_assoc. unfold maxWitnessItemsPerInput in *.
    eapply parses_bind; [apply parses_varint; zlia|].
    destruct (Z.ltb_spec 4000000 (zlen (witnessOf ti))); [lia|].
    rewrite to_nat_zlen. eapply parses_bind.
    { apply (parses_many readScriptRef zlen varbytes id script_wf); auto using zlen_nonneg.
      - intros x c. apply parses_script.
      - unfold witSize, sum in *. lia. }
    cbn [fst snd]. eapply parses_bind_last; [apply IH; fold (witSize ti); unfold witSize, sum in *; lia|].
    cbn. rewrite map_id. do 2 f_equal. unfold witSize, sum. lia.
Qed.

Lemma map_sigSize_strip l : map sigSize (map (setWitness None) l) = map sigSize l.
Proof. rewrite map_map. done. Qed.

Lemma HasWitness_wit (msg : Tx) ver l outs lt : TxIns msg = l →
  HasWitness msg = existsb (fun ti => negb (zlen (witnessOf ti) =? 0))
    (map (fun ti => setWitness (Some (witnessOf ti)) ti) l) ∧
  HasWitness {| TxVersion := ver; TxIns := map (setWitness None) l; TxOuts := outs; LockTime := lt |} = false.
Proof.
  unfold HasWitness; intros ->; cbn [TxIns]. induction l as [|ti l [IH1 IH2]]; [done|]. cbn.
  rewrite IH1, IH2. done.
Qed.

Lemma parses_body enc msg cap flag v : tx_wf msg → scriptBytes enc msg ≤ cap →
  flag = (if segwit enc msg then 1 else 0) → i32 v = TxVersion msg →
  parses (decodeRefBody enc cap v (zlen (TxIns msg)) flag)
    ((TxIns msg ≫= txin_bytes) ++ varint (zlen (TxOuts msg)) ++ (TxOuts msg ≫= txout_bytes) ++
     (if segwit enc msg then TxIns msg ≫= witness_bytes else []) ++ le_bytes 4 (LockTime msg))
    (carried enc msg).
Proof.
  intros (_ & Hlt & Hi & Ho & HI & HW & HO) Hcap Hf Hv. unfold scriptBytes in Hcap.
  pose proof (sum_nonneg sigSize (TxIns msg) ltac:(intros; apply zlen_nonneg)).
  pose proof (sum_nonneg pkSize (TxOuts msg) ltac:(intros; apply zlen_nonneg)).
  pose proof (sum_nonneg witSize (TxIns msg) witSize_nonneg).
  pose proof (zlen_nonneg (TxOuts msg)).
  assert (maxTxOutPerMessage < 2 ^ 64) by done.
  unfold decodeRefBody. destruct (Z.ltb_spec maxTxInPerMessage (zlen (TxIns msg))); [lia|].
  rewrite to_nat_zlen. eapply parses_bind.
  { apply (parses_many readTxInRef sigSize txin_bytes (setWitness None) txin_wf); auto.
    - intros; apply zlen_nonneg. - intros; by apply parses_txin. - destruct (segwit enc msg); lia. }
  eapply parses_bind; [apply parses_varint; lia|]. cbn [fst snd].
  destruct (Z.ltb_spec maxTxOutPerMessage (zlen (TxOuts msg))); [lia|].
  rewrite to_nat_zlen. eapply parses_bind.
  { apply (parses_many readTxOutRef pkSize txout_bytes id txout_wf); auto.
    - intros; apply zlen_nonneg. - intros; by apply parses_txout. - destruct (segwit enc msg); lia. }
  cbn [fst snd]. rewrite map_id. unfold carried. rewrite Hf, Hv.
  eapply parses_bind; [|by parse_field; rewrite le4_val].
  destruct (segwit enc msg) eqn:Esw.
  - apply andb_prop in Esw as [-> Ehw]. cbn [Z.eqb negb andb].
    eapply parses_bind_last; [apply parses_witnesses; [done|lia]|]. cbn [fst snd].
    destruct (HasWitness_wit msg 0 _ [] 0 eq_refl) as [<- _]. by rewrite Ehw.
  - apply parses_ret.
Qed.

Lemma parses_tx enc msg cap : tx_wf msg → (enc = WitnessEncoding → TxIns msg ≠ []) →
  scriptBytes enc msg ≤ cap → parses (decodeRef enc cap) (tx_bytes enc msg) (carried enc msg).
Proof.
  intros Hwf Hne Hcap. pose proof Hwf as (Hv & _ & Hi & _).
  pose proof (zlen_nonneg (TxIns msg)). assert (maxTxInPerMessage < 2 ^ 64) by done.
  unfold decodeRef, tx_bytes. parse_field.
  rewrite le4_val by (by apply uwrap_range).
  pose proof (parses_body enc msg cap (if segwit enc msg then 1 else 0) (u32 (TxVersion msg))
    Hwf Hcap eq_refl (i32_u32 _ Hv)) as Hbody.
  destruct (segwit enc msg) eqn:Esw.
  - pose proof Esw as [Ee _]%andb_prop.
    change [z2b TxFlagMarker; z2b WitnessFlag] with (varint 0 ++ [z2b 1]). rewrite <-app_assoc.
    eapply parses_bind; [by apply parses_varint|].
    rewrite Ee, app_assoc. eapply (parses_bind _ _ _ _ (zlen (TxIns msg), 1)); [|exact Hbody].
    cbn [Z.eqb TxFlagMarker andb]. eapply parses_bind; [by apply parses_readFull|].
    change (le_val [z2b 1]) with 1. cbn [Z.eqb WitnessFlag Pos.eqb negb].
    eapply parses_bind_last; [apply parses_varint; lia|done].
  - cbn [app]. eapply parses_bind; [apply parses_varint; lia|].
    rewrite <-(app_nil_l (_ ++ _)).
    eapply (parses_bind _ _ _ _ (zlen (TxIns msg), 0)); [|exact Hbody].
    destruct (Z.eqb_spec (zlen (TxIns msg)) TxFlagMarker) as [E|E]; [|apply parses_ret].
    destruct enc; [apply parses_ret|]. exfalso. apply Hne; [done|].
    by apply length_zero_iff_nil, Nat2Z.inj.
Qed.

(** *** Every accepted input is an encoding *)

Lemma consumes_script cap : consumes (readScriptRef cap) (fun sc bs => script_wf sc ∧ bs = varbytes sc).
Proof.
  unfold readScriptRef. eapply consumes_bind; [apply consumes_varint|]. intros n bs [Hn ->].
  destruct (Z.ltb_spec maxWitnessItemSize n); [apply consumes_fail|].
  destruct (cap <? n); [apply consumes_fail|].
  eapply consumes_weaken; [apply consumes_readFull; lia|]. intros sc cs [-> Hl].
  unfold script_wf, varbytes. by rewrite Hl.
Qed.

Lemma consumes_txin cap : consumes (readTxInRef cap)
  (fun ti bs => (txin_wf ti ∧ Witness ti = None) ∧ bs = txin_bytes ti).
Proof.
  unfold readTxInRef. eapply consumes_bind; [apply consumes_outpoint|]. intros op bs (Hh & Hi & ->).
  eapply consumes_bind; [apply consumes_script|]. intros sc bs [Hs ->].
  consume_field sq Hq. apply consumes_ret. rewrite app_nil_r.
  apply (le_val_zlen _ 4) in Hq as [Hq Eq]. change (256 ^ Z.of_nat 4) with (2 ^ 32) in Hq.
  unfold txin_wf, txin_bytes. cbn [PreviousOutPoint SignatureScript Witness Sequence].
  rewrite Eq. done.
Qed.

Lemma consumes_txout cap : consumes (readTxOutRef cap)
  (fun to bs => txout_wf to ∧ bs = txout_bytes to).
Proof.
  unfold readTxOutRef. consume_field v Hv.
  eapply consumes_bind; [apply consumes_script|]. intros sc bs [Hs ->].
  apply consumes_ret. rewrite app_nil_r.
  apply (le_val_zlen _ 8) in Hv as [Hv Ev]. change (256 ^ Z.of_nat 8) with (2 ^ 64) in Hv.
  unfold txout_wf, txout_bytes. cbn [Value PkScript]. rewrite u64_i64, Ev by done.
  split; [split; [apply (swrap_range 64); lia|done]|done].
Qed.

Lemma consumes_many {A} (f : Z → reader A) size (P : A → Prop) (g : A → list byte) n cap :
  (∀ cap, consumes (f cap) (fun a bs => P a ∧ bs = g a)) →
  consumes (readManyRef f size n cap)
    (fun r bs => length r.1 = n ∧ Forall P r.1 ∧ bs = r.1 ≫= g).
Proof.
  intros Hf. revert cap. induction n as [|n IH]; intros cap; cbn [readManyRef].
  - by apply consumes_ret.
  - eapply consumes_bind; [apply Hf|]. intros a bs [Ha ->].
    eapply consumes_bind; [apply IH|]. intros [l c] bs (Hl & Hall & ->).
    apply consumes_ret. cbn in *. rewrite app_nil_r. split; [by f_equal|]. split; [by constructor|done].
Qed.

Lemma consumes_witnesses ins cap : Forall txin_wf ins →
  consumes (readWitnessesRef ins cap)
    (fun r bs => length r.1 = length ins ∧ Forall txin_wf r.1 ∧ Forall wit_wf r.1 ∧
      ins ≫= txin_bytes = r.1 ≫= txin_bytes ∧ bs = r.1 ≫= witness_bytes).
Proof.
  intros Hall. revert cap. induction Hall as [|ti ins Hti Hall IH]; intros cap;
    cbn [readWitnessesRef].
  - apply consumes_ret. repeat split; constructor.
  - eapply consumes_bind; [apply consumes_varint|]. intros n bs [Hn ->].
    destruct (Z.ltb_spec maxWitnessItemsPerInput n); [apply consumes_fail|].
    eapply consumes_bind; [apply (consumes_many _ _ script_wf varbytes), consumes_script|].
    intros [w c] bs (Hw & Hws & ->). cbn [fst snd] in *.
    eapply consumes_bind; [apply IH|]. intros [l c'] bs (Hl & H1 & H2 & H3 & ->). cbn [fst snd] in *.
    assert (zlen w = n) as Ew by (unfold zlen; lia).
    apply consumes_ret. cbn [fst snd]. rewrite app_nil_r, !bind_cons, H3.
    unfold witness_bytes at 2, witnessOf at 1 2. cbn [setWitness Witness default].
    rewrite <-app_assoc. split_and!.
    + cbn. by f_equal.
    + by constructor.
    + constructor; [|done]. split; [|done]. unfold witnessOf. cbn. lia.
    + done.
    + cbn. by rewrite Ew.
Qed.

Lemma no_witness (l : list (TxIn (list byte))) : Forall (fun ti => Witness ti = None) l →
  existsb (fun ti => negb (zlen (witnessOf ti) =? 0)) l = false ∧ Forall wit_wf l.
Proof.
  induction 1 as [|ti l Hti _ [IH1 IH2]]; [done|]. cbn. unfold witnessOf in *. rewrite Hti, IH1.
  split; [done|]. constructor; [|done]. unfold wit_wf, witnessOf. rewrite Hti. by split.
Qed.

Lemma consumes_body enc cap v count flag : 0 ≤ v < 2 ^ 32 → 0 ≤ count →
  flag = 0 ∨ flag = 1 ∧ enc = WitnessEncoding →
  consumes (decodeRefBody enc cap v count flag) (fun msg bs =>
    tx_wf msg ∧ u32 (TxVersion msg) = v ∧ zlen (TxIns msg) = count ∧
    segwit enc msg = negb (flag =? 0) ∧
    bs = (TxIns msg ≫= txin_bytes) ++ varint (zlen (TxOuts msg)) ++ (TxOuts msg ≫= txout_bytes) ++
      (if segwit enc msg then TxIns msg ≫= witness_bytes else []) ++ le_bytes 4 (LockTime msg)).
Proof.
  intros Hv Hc Hflag. unfold decodeRefBody.
  destruct (Z.ltb_spec maxTxInPerMessage count); [apply consumes_fail|].
  eapply consumes_bind; [apply consumes_many, consumes_txin|].
  intros [ins c1] bs (Hlen & Hins & ->). cbn [fst snd] in *.
  eapply consumes_bind; [apply consumes_varint|]. intros k bs [Hk ->].
  destruct (Z.ltb_spec maxTxOutPerMessage k); [apply consumes_fail|].
  eapply consumes_bind; [apply consumes_many, consumes_txout|].
  intros [outs c2] bs (Hlen2 & Houts & ->). cbn [fst snd] in *.
  apply Forall_and in Hins as [Hins Hnone]. destruct (no_witness _ Hnone) as [Hnw Hww].
  eapply (consumes_bind _ _ (fun w bs =>
    length w = length ins ∧ Forall txin_wf w ∧ Forall wit_wf w ∧
    ins ≫= txin_bytes = w ≫= txin_bytes ∧
    isWitnessEncoding enc && existsb (fun ti => negb (zlen (witnessOf ti) =? 0)) w = negb (flag =? 0) ∧
    bs = if negb (flag =? 0) then w ≫= witness_bytes else [])).
  { destruct Hflag as [->|[-> ->]]; cbn [Z.eqb negb andb].
    - apply consumes_ret. rewrite Hnw, andb_false_r. done.
    - cbn [isWitnessEncoding]. eapply consumes_bind; [by apply consumes_witnesses|].
      intros [w c3] bs (H1 & H2 & H3 & H4 & ->). cbn [fst snd] in *.
      destruct (existsb _ w) eqn:Ew; [|apply consumes_fail].
      apply consumes_ret. rewrite app_nil_r. cbn. by rewrite Ew. }
  intros w bs (H1 & H2 & H3 & H4 & H5 & ->). consume_field ltm Hlt.
  apply consumes_ret. rewrite app_nil_r.
  apply (le_val_zlen _ 4) in Hlt as [Hlt Elt]. change (256 ^ Z.of_nat 4) with (2 ^ 32) in Hlt.
  assert (zlen w = count) by (unfold zlen in *; lia).
  assert (zlen outs = k) by (unfold zlen in *; lia).
  pose proof (swrap_range 32 v ltac:(lia)).
  unfold tx_wf, segwit, HasWitness. cbn [TxVersion TxIns TxOuts LockTime].
  rewrite H5, Elt, H4, u32_i32 by done. split_and!; try done; try lia.
  repeat f_equal. lia.
Qed.

Lemma consumes_tx enc cap : consumes (decodeRef enc cap)
  (fun msg bs => tx_wf msg ∧ bs = tx_bytes enc msg).
Proof.
  unfold decodeRef. consume_field v Hv.
  apply (le_val_zlen _ 4) in Hv as [Hv Ev]. change (256 ^ Z.of_nat 4) with (2 ^ 32) in Hv.
  eapply consumes_bind; [apply consumes_varint|]. intros count bs [Hcount ->].
  eapply (consumes_bind _ _ (fun cf bs => 0 ≤ cf.1 ∧ (cf.2 = 0 ∨ cf.2 = 1 ∧ enc = WitnessEncoding) ∧
    varint count ++ bs = (if negb (cf.2 =? 0) then [z2b TxFlagMarker; z2b WitnessFlag] else []) ++
      varint cf.1)).
  { destruct (Z.eqb_spec count TxFlagMarker) as [->|]; cbn [andb].
    2: { apply consumes_ret. cbn. rewrite app_nil_r. split_and!; [lia|by left|done]. }
    destruct enc; cbn [isWitnessEncoding].
    { apply consumes_ret. split_and!; [done|by left|done]. }
    consume_field fl Hfl. apply (le_val_zlen _ 1) in Hfl as [_ Efl].
    destruct (Z.eqb_spec (le_val fl) WitnessFlag) as [E|]; cbn [negb]; [|apply consumes_fail].
    eapply consumes_bind; [apply consumes_varint|]. intros c bs [Hc ->]. apply consumes_ret.
    rewrite E in Efl. cbn [fst snd]. rewrite E, app_nil_r, <-Efl.
    split_and!; [lia|by right|done]. }
  intros [c flag] bs (Hc & Hf & E). cbn [fst snd] in *.
  eapply consumes_weaken; [by apply consumes_body|].
  intros msg cs (Hwf & Hver & Hlen & Hsw & ->). split; [done|]. unfold tx_bytes.
  rewrite Hver, Ev, Hsw, Hlen. rewrite (app_assoc (varint count)), E, <-!app_assoc. done.
Qed.

(** ** The theorems on transactions *)

(** C35 (refinement).  [BtcDecode] reads scripts into a shared slab (whatever it
    held before) and then moves them to one array of their total size; on every
    input, well formed or not, it gives the same transaction, the same error and
    the same rest of the input as the decoder that returns each script as it is
    read, and never panics. *)
Theorem decode_refines (enc : MessageEncoding) (sbuf r : list byte) :
  zlen sbuf = scriptSlabSize →
  BtcDecode enc sbuf r = decodeRef enc scriptSlabSize r ∧
  ∃ res r', BtcDecode enc sbuf r = Done (res, r').
Proof.
  intros Hl. assert (zlen sbuf < 2 ^ 63) as Hlt by (rewrite Hl; done).
  pose proof (btcDecode_refines enc sbuf Hlt r) as H. rewrite Hl in H.
  unfold BtcDecode. destruct (decodeRef enc scriptSlabSize r) as [[[tx|e] r']| |]; try done.
  - destruct H as (a & -> & ->). eauto.
  - rewrite H. eauto.
Qed.

Lemma decode_refines_witness :
  zlen (replicate (Z.to_nat scriptSlabSize) (z2b 0xee)) = scriptSlabSize ∧
  ∃ res r', BtcDecode BaseEncoding (replicate (Z.to_nat scriptSlabSize) (z2b 0xee)) [z2b 1; z2b 2] =
    Done (res, r').
Proof.
  assert (zlen (replicate (Z.to_nat scriptSlabSize) (z2b 0xee)) = scriptSlabSize) as H.
  { unfold zlen. rewrite length_replicate. apply Z2Nat.id. discriminate. }
  split; [exact H|]. exact (proj2 (decode_refines BaseEncoding _ [z2b 1; z2b 2] H)).
Defined.

(** C36 (roundtrip).  A transaction within the decoder's limits is encoded as
    [SerializeSize] bytes (without its witnesses, [SerializeSizeStripped]) and
    [BtcDecode] with the same encoding reads it back from them, whatever follows
    and whatever the slab held.  The witness encoding needs at least one input,
    since a count of zero is the segwit marker. *)
Theorem tx_roundtrip (enc : MessageEncoding) (msg : Tx) (sbuf : list byte) :
  tx_wf msg → (enc = WitnessEncoding → TxIns msg ≠ []) →
  zlen sbuf = scriptSlabSize → scriptBytes enc msg ≤ scriptSlabSize →
  ∃ bs, BtcEncode enc msg unbounded = Done (inl tt, {| sent := bs; room := None |}) ∧
    zlen bs = match enc with
              | WitnessEncoding => SerializeSize msg
              | BaseEncoding => SerializeSizeStripped msg
              end ∧
    ∀ rest, BtcDecode enc sbuf (bs ++ rest) = Done (inl (carried enc msg), rest).
Proof.
  intros Hwf Hne Hl Hsc. exists (tx_bytes enc msg).
  split; [by rewrite emits_tx|]. split; [by apply zlen_tx|]. intros rest.
  assert (zlen sbuf < 2 ^ 63) as Hlt by (rewrite Hl; done).
  pose proof (btcDecode_refines enc sbuf Hlt (tx_bytes enc msg ++ rest)) as H.
  rewrite Hl, (parses_tx enc msg scriptSlabSize Hwf Hne Hsc rest) in H.
  destruct H as (a & H & ->). exact H.
Qed.

(** No encoding is malleable: when [BtcDecode] accepts an input,
    the bytes it consumed are exactly what [BtcEncode] writes for the decoded
    transaction, which is within the decoder's limits.  Two different byte
    strings are therefore never decoded to the same transaction. *)
Theorem tx_canonical (enc : MessageEncoding) (sbuf r rest : list byte) (msg : Tx) :
  zlen sbuf = scriptSlabSize →
  BtcDecode enc sbuf r = Done (inl msg, rest) →
  tx_wf msg ∧ ∃ bs, r = bs ++ rest ∧
    BtcEncode enc msg unbounded = Done (inl tt, {| sent := bs; room := None |}).
Proof.
  intros Hl E. assert (zlen sbuf < 2 ^ 63) as Hlt by (rewrite Hl; done).
  pose proof (btcDecode_refines enc sbuf Hlt r) as H.
  destruct (consumes_tx enc (zlen sbuf) r) as (res & r' & E' & HP). rewrite E' in H.
  unfold BtcDecode in E. destruct res as [msg'|e]; [|congruence].
  destruct H as (a & H & ->). rewrite E in H. injection H as -> ->.
  destruct (HP _ eq_refl) as (bs & -> & Hwf & ->). split; [done|].
  exists (tx_bytes enc msg'). split; [done|]. by rewrite emits_tx.
Qed.

(** Encoding into a writer of limited capacity reports an error
    exactly when the transaction does not fit, having sent the prefix that
    does. *)
Theorem encode_short_write (enc : MessageEncoding) (msg : Tx) (c : nat) :
  tx_wf msg →
  ∃ bs, BtcEncode enc msg unbounded = Done (inl tt, {| sent := bs; room := None |}) ∧
    BtcEncode enc msg {| sent := []; room := Some c |} =
    if (length bs <=? c)%nat
    then Done (inl tt, {| sent := bs; room := Some (c - length bs)%nat |})
    else Done (inr ErrShortWrite, {| sent := take c bs; room := Some O |}).
Proof.
  intros Hwf. exists (tx_bytes enc msg). rewrite !emits_tx by done. done.
Qed.

Lemma pkScriptLocs_loop_spec outs pre post i n :
  zlen pre = n → is_Some (outs !! i) →
  ∃ loc to, pkScriptLocs_loop n outs !! i = Some loc ∧ outs !! i = Some to ∧
    resolve (pre ++ (outs ≫= txout_bytes) ++ post) {| off := loc; len := zlen (PkScript to) |} =
    PkScript to.
Proof.
  revert pre i n. induction outs as [|to outs IH]; intros pre i n Hn [to' Hi]; [done|].
  rewrite bind_cons. cbn [pkScriptLocs_loop]. destruct i as [|i].
  - injection Hi as <-. eexists _, to. split; [done|]. split; [done|]. unfold txout_bytes at 1, varbytes, resolve.
    cbn [off len]. rewrite <-!app_assoc, to_nat_zlen.
    rewrite (app_assoc pre), (app_assoc (pre ++ le_bytes 8 (u64 (Value to)))).
    rewrite (drop_app_length' (_ ++ varint _)); [by rewrite take_app_length|].
    pose proof (zlen_varint (zlen (PkScript to))).
    unfold zlen in *. rewrite !length_app, length_le_bytes. lia.
  - rewrite <-app_assoc, (app_assoc pre). apply IH; [|by exists to'].
    rewrite zlen_app, zlen_txout. unfold TxOut_SerializeSize. lia.
Qed.

(** [PkScriptLocs] locates the output scripts inside the
    serialized transaction: reading [len(PkScript)] bytes at the offset given for
    an output yields its script, provided the first input has a non-nil witness
    exactly when the transaction has one, as in every decoded transaction. *)
Theorem pkScriptLocs_correct (msg : Tx) (i : nat) :
  tx_wf msg →
  HasWitness msg = match TxIns msg with ti :: _ => bool_decide (is_Some (Witness ti)) | [] => false end →
  is_Some (TxOuts msg !! i) →
  ∃ bs loc to, Serialize msg unbounded = Done (inl tt, {| sent := bs; room := None |}) ∧
    PkScriptLocs msg !! i = Some loc ∧ TxOuts msg !! i = Some to ∧
    resolve bs {| off := loc; len := zlen (PkScript to) |} = PkScript to.
Proof.
  intros Hwf Hw Hi. exists (tx_bytes WitnessEncoding msg).
  unfold PkScriptLocs. destruct (Z.eqb_spec (zlen (TxOuts msg)) 0) as [E|_].
  { apply (Nat2Z.inj _ 0), length_zero_iff_nil in E. rewrite E in Hi. by destruct Hi. }
  set (n := foldl _ _ (TxIns msg)).
  set (pre := le_bytes 4 (u32 (TxVersion msg)) ++
    (if HasWitness msg then [z2b TxFlagMarker; z2b WitnessFlag] else []) ++
    varint (zlen (TxIns msg)) ++ (TxIns msg ≫= txin_bytes) ++ varint (zlen (TxOuts msg))).
  set (post := (if HasWitness msg then TxIns msg ≫= witness_bytes else []) ++ le_bytes 4 (LockTime msg)).
  assert (tx_bytes WitnessEncoding msg = pre ++ (TxOuts msg ≫= txout_bytes) ++ post) as E.
  { unfold tx_bytes, segwit, pre, post. cbn [isWitnessEncoding andb]. by rewrite <-!app_assoc. }
  assert (zlen pre = n) as Hn.
  { destruct Hwf as (_ & _ & _ & _ & HI & _). unfold pre, n.
    rewrite !zlen_app, !zlen_le_bytes, !zlen_varint, zlen_bind, foldl_sum, Hw.
    rewrite (sum_ext (fun x => zlen (txin_bytes x)) TxIn_SerializeSize _ _ HI zlen_txin).
    destruct (TxIns msg) as [|ti ins]; [change (zlen (@nil byte)) with 0; lia|].
    destruct (Witness ti); cbn -[Z.add sum map VarIntSerializeSize zlen]; unfold zlen; simpl length; lia. }
  destruct (pkScriptLocs_loop_spec (TxOuts msg) pre post i n Hn Hi) as (loc & to & H1 & H2 & H3).
  exists loc, to. split; [unfold Serialize; by rewrite emits_tx|].
  split; [done|]. split; [done|]. by rewrite E.
Qed.

(** The two-input segwit transaction of the witnesses below. *)
Definition sampleTx : Tx :=
  {| TxVersion := 2;
     TxIns := [ {| PreviousOutPoint := {| Hash := replicate 32 (z2b 0x11); Index := 0 |};
                   SignatureScript := [z2b 0x51]; Witness := Some [];
                   Sequence := 0xffffffff |};
                {| PreviousOutPoint := {| Hash := replicate 32 (z2b 0x22); Index := 7 |};
                   SignatureScript := []; Witness := Some [[z2b 1; z2b 2]; []];
                   Sequence := 0xfffffffe |} ];
     TxOuts := [ {| Value := 4294967296; PkScript := [z2b 0x6a; z2b 0x01] |} ];
     LockTime := 17 |}.

Lemma sampleTx_wf : tx_wf sampleTx.
Proof.
  unfold tx_wf. cbn [TxVersion TxIns TxOuts LockTime sampleTx].
  split_and!; try done; repeat constructor; done.
Qed.

Definition sampleSlab : list byte := replicate (Z.to_nat scriptSlabSize) (z2b 0xee).

Lemma sampleSlab_len : zlen sampleSlab = scriptSlabSize.
Proof. unfold sampleSlab, zlen. rewrite length_replicate. apply Z2Nat.id. discriminate. Qed.

Lemma tx_roundtrip_witness :
  ∃ bs, BtcEncode WitnessEncoding sampleTx unbounded = Done (inl tt, {| sent := bs; room := None |}) ∧
    zlen bs = SerializeSize sampleTx ∧
    ∀ rest, BtcDecode WitnessEncoding sampleSlab (bs ++ rest) = Done (inl sampleTx, rest).
Proof.
  apply (tx_roundtrip WitnessEncoding sampleTx sampleSlab sampleTx_wf);
    [discriminate|exact sampleSlab_len|vm_compute; discriminate].
Defined.

Lemma tx_canonical_witness : ∃ r, BtcDecode WitnessEncoding sampleSlab r = Done (inl sampleTx, []) ∧
  ∃ bs, r = bs ++ [] ∧ BtcEncode WitnessEncoding sampleTx unbounded =
    Done (inl tt, {| sent := bs; room := None |}).
Proof.
  exists (tx_bytes WitnessEncoding sampleTx).
  assert (BtcDecode WitnessEncoding sampleSlab (tx_bytes WitnessEncoding sampleTx) =
          Done (inl sampleTx, [])) as H.
  { assert (zlen sampleSlab < 2 ^ 63) as Hlt by (rewrite sampleSlab_len; done).
    pose proof (btcDecode_refines WitnessEncoding sampleSlab Hlt (tx_bytes WitnessEncoding sampleTx)) as H.
    rewrite sampleSlab_len in H.
    assert (decodeRef WitnessEncoding scriptSlabSize (tx_bytes WitnessEncoding sampleTx) =
            Done (inl sampleTx, [])) as E by (vm_compute; reflexivity).
    rewrite E in H. destruct H as (a & H & ->). exact H. }
  split; [exact H|].
  exact (proj2 (tx_canonical WitnessEncoding sampleSlab _ [] sampleTx sampleSlab_len H)).
Defined.

Lemma encode_short_write_witness :
  ∃ bs, BtcEncode BaseEncoding sampleTx unbounded = Done (inl tt, {| sent := bs; room := None |}) ∧
    BtcEncode BaseEncoding sampleTx {| sent := []; room := Some 20%nat |} =
    if (length bs <=? 20)%nat
    then Done (inl tt, {| sent := bs; room := Some (20 - length bs)%nat |})
    else Done (inr ErrShortWrite, {| sent := take 20 bs; room := Some O |}).
Proof. exact (encode_short_write BaseEncoding sampleTx 20 sampleTx_wf). Defined.

Lemma pkScriptLocs_correct_witness : ∃ bs loc to,
  Serialize sampleTx unbounded = Done (inl tt, {| sent := bs; room := None |}) ∧
  PkScriptLocs sampleTx !! 0%nat = Some loc ∧ TxOuts sampleTx !! 0%nat = Some to ∧
  resolve bs {| off := loc; len := zlen (PkScript to) |} = PkScript to.
Proof.
  apply (pkScriptLocs_correct sampleTx 0 sampleTx_wf); [vm_compute; reflexivity|by eexists].
Defined.

(** Without the proviso the offsets are wrong: here the first input has a nil
    witness and the second a witness, and [PkScriptLocs] misses the two marker
    bytes. *)
Example pkScriptLocs_nil_first :
  let tx := {| TxVersion := TxVersion sampleTx;
               TxIns := match TxIns sampleTx with a :: l => setWitness None a :: l | [] => [] end;
               TxOuts := TxOuts sampleTx; LockTime := LockTime sampleTx |} in
  ∃ bs loc, Serialize tx unbounded = Done (inl tt, {| sent := bs; room := None |}) ∧
    PkScriptLocs tx = [loc] ∧ PkScriptLocs sampleTx = [loc + 2] ∧
    resolve bs {| off := loc; len := 2 |} ≠ [z2b 0x6a; z2b 0x01].
Proof. eexists _, _. split_and!; [vm_compute; reflexivity..|vm_compute; discriminate]. Qed.

End Wire.
