(* ===== verification/Genesis.v ===== *)
(** * Genesis: the Sugarchain genesis blocks

    Model of [chaincfg/sugar_genesis.go]: the coinbase transaction shared by the
    three networks, their genesis headers, and the [init] function that refuses
    to start the node when a computed identity is not the published one. *)

From S2P Require Import Prelude ChainHash Wire.

Module Genesis.

Import Wire.

Definition bytesOf (l : list Z) : list byte := map z2b l.

Definition zeroHash : list byte := replicate 32 (z2b 0).

Definition sugarGenesisCoinbaseTx : Tx :=
  {| TxVersion := 1;
     TxIns := [ {| PreviousOutPoint := {| Hash := zeroHash; Index := 0xffffffff |};
                   SignatureScript := bytesOf [
     0x04; 0xff; 0xff; 0x00; 0x1d; 0x01; 0x04; 0x4c; 0x57; 0x54; 0x68; 0x65;
     0x20; 0x54; 0x69; 0x6d; 0x65; 0x73; 0x20; 0x31; 0x37; 0x2f; 0x4a; 0x75;
     0x6c; 0x79; 0x2f; 0x32; 0x30; 0x31; 0x39; 0x20; 0x42; 0x69; 0x74; 0x63;
     0x6f; 0x69; 0x6e; 0x20; 0x66; 0x61; 0x6c; 0x6c; 0x73; 0x20; 0x61; 0x66;
     0x74; 0x65; 0x72; 0x20; 0x73; 0x65; 0x6e; 0x61; 0x74; 0x6f; 0x72; 0x73;
     0x20; 0x63; 0x61; 0x6c; 0x6c; 0x20; 0x46; 0x61; 0x63; 0x65; 0x62; 0x6f;
     0x6f; 0x6b; 0x20; 0x64; 0x65; 0x6c; 0x75; 0x73; 0x69; 0x6f; 0x6e; 0x61;
     0x6c; 0x20; 0x6f; 0x76; 0x65; 0x72; 0x20; 0x6c; 0x69; 0x62; 0x72; 0x61];
                   Witness := None;
                   Sequence := 0xffffffff |} ];
     TxOuts := [ {| Value := 0x100000000;
                    PkScript := bytesOf [
     0x41; 0x04; 0x67; 0x8a; 0xfd; 0xb0; 0xfe; 0x55; 0x48; 0x27; 0x19; 0x67;
     0xf1; 0xa6; 0x71; 0x30; 0xb7; 0x10; 0x5c; 0xd6; 0xa8; 0x28; 0xe0; 0x39;
     0x09; 0xa6; 0x79; 0x62; 0xe0; 0xea; 0x1f; 0x61; 0xde; 0xb6; 0x49; 0xf6;
     0xbc; 0x3f; 0x4c; 0xef; 0x38; 0xc4; 0xf3; 0x55; 0x04; 0xe5; 0x1e; 0xc1;
     0x12; 0xde; 0x5c; 0x38; 0x4d; 0xf7; 0xba; 0x0b; 0x8d; 0x57; 0x8a; 0x4c;
     0x70; 0x2b; 0x6b; 0xf1; 0x1d; 0x5f; 0xac] |} ];
     LockTime := 0 |}.

Definition sugarGenesisMerkleRoot : run (list byte) := TxHash sugarGenesisCoinbaseTx.

Definition sugarGenesisHeader (root : list byte) : BlockHeader :=
  {| Version := 1; PrevBlock := zeroHash; MerkleRoot := root;
     Timestamp := 1565881200; Bits := 0x1f3fffff; Nonce := 247 |}.

Definition sugarTestNetGenesisHeader (root : list byte) : BlockHeader :=
  {| Version := 1; PrevBlock := zeroHash; MerkleRoot := root;
     Timestamp := 1565913601; Bits := 0x1f3fffff; Nonce := 490 |}.

Definition sugarRegTestGenesisHeader (root : list byte) : BlockHeader :=
  {| Version := 1; PrevBlock := zeroHash; MerkleRoot := root;
     Timestamp := 1602302400; Bits := 0x1f7fffff; Nonce := 862 |}.

Definition mustParseHash (s : list byte) : run (list byte) :=
  r ← ChainHash.NewHashFromStr s;
  match r with inl h => Done h | inr _ => Panic end.

Definition mustEqualHash (got : list byte) (wantHex : string) : run unit :=
  want ← mustParseHash (gostring wantHex);
  if decide (got = want) then Done tt else Panic.

Definition init : run unit :=
  root ← sugarGenesisMerkleRoot;
  main ← BlockHash (sugarGenesisHeader root);
  test ← BlockHash (sugarTestNetGenesisHeader root);
  reg ← BlockHash (sugarRegTestGenesisHeader root);
  _ ← mustEqualHash root "7677ce2a579cb0411d1c9e6b1e9072b8f537f1e59cb387dacac2daac56e150b0";
  _ ← mustEqualHash main "7d5eaec2dbb75f99feadfa524c78b7cabc1d8c8204f79d4f3a83381b811b0adc";
  _ ← mustEqualHash test "e0e0e42e493ba7b15f7b0fe1a7e66f73b7fd8b3e6e6a7b0e821a6b95040d3826";
  mustEqualHash reg "223231facc4c2337baedba62921cf0ada7f867a869194ce9b3697eefd9d54c59".

(** The node starts: the hashes computed from the coinbase and
    headers in the source are the published identities of the three networks, so
    no check of [init] panics; and the coinbase is within the limits of the
    decoder, with the 96-byte signature script the source announces. *)
Theorem genesis_init_ok :
  init = Done tt ∧ tx_wf sugarGenesisCoinbaseTx ∧
  (zlen ∘ SignatureScript) <$> TxIns sugarGenesisCoinbaseTx = [96] ∧
  (zlen ∘ PkScript) <$> TxOuts sugarGenesisCoinbaseTx = [67].
Proof.
  split; [vm_compute; reflexivity|]. split_and!; [|vm_compute; reflexivity..].
  unfold tx_wf. cbn [TxVersion TxIns TxOuts LockTime sugarGenesisCoinbaseTx].
  split_and!; try done; repeat constructor; done.
Qed.

End Genesis.
