(* ===== verification/BlockNode.v ===== *)
(** * BlockNode: block nodes, their skip list, and the past median time

    Model of the first half of [blockchain/blockindex.go]: the [blockNode]
    struct, its construction from a header, the [Ancestor] skip list and
    [CalcPastMedianTime], and of the [HeaderCtx] interface of
    [blockchain/interfaces.go].  Nodes live in a heap of addresses, since the
    code shares them by pointer and cuts the [parent] and [ancestor] links of a
    live node when the header window moves.  A work sum is the value of the
    node's own [big.Int]. *)

From stdpp Require Import sorting.
From S2P Require Import Prelude WorkMath ChainHash Wire.
#[local] Open Scope Z_scope.

Module BlockNode.

Abbreviation loc := positive.
Abbreviation hash_t := (list byte).

(** ** Status flags *)

Definition statusDataStored : Z := 1.
Definition statusValid : Z := 2.
Definition statusValidateFailed : Z := 4.
Definition statusInvalidAncestor : Z := 8.
Definition statusHeaderStored : Z := 16.
Definition statusNone : Z := 0.

Definition HaveData (status : Z) : bool := negb (Z.land status statusDataStored =? 0).
Definition HaveHeader (status : Z) : bool := negb (Z.land status statusHeaderStored =? 0).
Definition KnownValid (status : Z) : bool := negb (Z.land status statusValid =? 0).
Definition KnownInvalid (status : Z) : bool :=
  negb (Z.land status (Z.lor statusValidateFailed statusInvalidAncestor) =? 0).

(** ** Nodes and the heap *)

Record blockNode := {
  parent : option loc;
  parentHash : hash_t;
  ancestor : option loc;
  hash : hash_t;
  workSum : Z;
  height : Z;
  version : Z;
  bits : Z;
  nonce : Z;
  timestamp : Z;
  merkleRoot : hash_t;
  status : Z;
}.

Abbreviation heap := (gmap loc blockNode).

Definition set_parent (p : option loc) (n : blockNode) : blockNode :=
  {| parent := p; parentHash := parentHash n; ancestor := ancestor n; hash := hash n;
     workSum := workSum n; height := height n; version := version n; bits := bits n;
     nonce := nonce n; timestamp := timestamp n; merkleRoot := merkleRoot n; status := status n |}.

Definition set_ancestor (a : option loc) (n : blockNode) : blockNode :=
  {| parent := parent n; parentHash := parentHash n; ancestor := a; hash := hash n;
     workSum := workSum n; height := height n; version := version n; bits := bits n;
     nonce := nonce n; timestamp := timestamp n; merkleRoot := merkleRoot n; status := status n |}.

(** Dereferencing a pointer; a nil or dangling one panics. *)
Definition deref (h : heap) (l : loc) : run blockNode := of_option (h !! l).

Lemma deref_Some h l nd : h !! l = Some nd → deref h l = Done nd.
Proof. unfold deref. by intros ->. Qed.

(** ** The skip list *)

Definition invertLowestOne (n : Z) : Z := Z.land n (i32 (n - 1)).

Definition getAncestorHeight (hgt : Z) : Z := invertLowestOne (invertLowestOne hgt).

(** The loop of [Ancestor]; every iteration goes to a lower node, so the height
    to climb down is enough fuel. *)
Fixpoint Ancestor_loop (fuel : nat) (h : heap) (n : option loc) (target : Z) : run (option loc) :=
  match n with
  | None => Done None
  | Some l =>
      nd ← deref h l;
      if height nd =? target then Done (Some l) else
      match fuel with
      | O => NoFuel
      | S fuel =>
          match ancestor nd with
          | Some a =>
              if target <=? getAncestorHeight (height nd) then Ancestor_loop fuel h (Some a) target
              else Ancestor_loop fuel h (parent nd) target
          | None => Ancestor_loop fuel h (parent nd) target
          end
      end
  end.

Definition Ancestor (h : heap) (node : loc) (target : Z) : run (option loc) :=
  nd ← deref h node;
  if (target <? 0) || (height nd <? target) then Done None
  else Ancestor_loop (Z.to_nat (height nd - target)) h (Some node) target.

Definition RelativeAncestor (h : heap) (node : loc) (distance : Z) : run (option loc) :=
  nd ← deref h node; Ancestor h node (i32 (height nd - distance)).

Definition buildAncestor (h : heap) (node : loc) : run heap :=
  nd ← deref h node;
  match parent nd with
  | Some p =>
      a ← Ancestor h p (getAncestorHeight (height nd));
      Done (<[node := set_ancestor a nd]> h)
  | None => Done h
  end.

(** ** Construction *)

(** [ws] is the value of the recycled [big.Int], which [CalcWorkInto]
    overwrites. *)
Definition initBlockNode (h : heap) (node : loc) (ws : Z) (hd : Wire.BlockHeader)
    (prev : option loc) : run heap :=
  hs ← Wire.BlockHash hd;
  let nd := {| parent := None; parentHash := Wire.PrevBlock hd; ancestor := None; hash := hs;
               workSum := WorkMath.CalcWorkInto (Wire.Bits hd) ws; height := 0;
               version := Wire.Version hd; bits := Wire.Bits hd; nonce := Wire.Nonce hd;
               timestamp := Wire.Timestamp hd; merkleRoot := Wire.MerkleRoot hd;
               status := statusNone |} in
  match prev with
  | None => Done (<[node := nd]> h)
  | Some p =>
      (* a recycled struct is overwritten before the parent is read *)
      let h0 := <[node := nd]> h in
      pn ← deref h0 p;
      let nd := {| parent := Some p; parentHash := parentHash nd; ancestor := None; hash := hash nd;
                   workSum := workSum pn + workSum nd; height := i32 (height pn + 1);
                   version := version nd; bits := bits nd; nonce := nonce nd;
                   timestamp := timestamp nd; merkleRoot := merkleRoot nd; status := status nd |} in
      buildAncestor (<[node := nd]> h0) node
  end.

(** [node] is the struct from [blockNodePool], or a new one. *)
Definition newBlockNode (h : heap) (node : loc) (ws : Z) (hd : Wire.BlockHeader)
    (prev : option loc) : run (loc * heap) :=
  h' ← initBlockNode h node ws hd prev; Done (node, h').

Definition Header (n : blockNode) : Wire.BlockHeader :=
  {| Wire.Version := version n; Wire.PrevBlock := parentHash n; Wire.MerkleRoot := merkleRoot n;
     Wire.Timestamp := timestamp n; Wire.Bits := bits n; Wire.Nonce := nonce n |}.

Definition Equals (n other : blockNode) : bool :=
  bool_decide (hash n = hash other) && (workSum n =? workSum other) &&
  (height n =? height other) && (version n =? version other) && (bits n =? bits other) &&
  (nonce n =? nonce other) && (timestamp n =? timestamp other) &&
  bool_decide (merkleRoot n = merkleRoot other) && (status n =? status other).

Definition IsAncestor (h : heap) (node : loc) (otherNode : option loc) : run bool :=
  match otherNode with
  | None => Done false
  | Some o =>
      on ← deref h o;
      a ← Ancestor h node (height on);
      match a with
      | None => Done false
      | Some a =>
          an ← deref h a; nd ← deref h node;
          if height nd =? height an then Done false else Done (Equals an on)
      end
  end.

(** ** The [HeaderCtx] interface and the past median time

    What a header needs to offer to be validated in context; [N] is the type of
    the header handles. *)

Class HeaderCtx (N : Type) := {
  ctxHeight : N → run Z;
  ctxBits : N → run Z;
  ctxTimestamp : N → run Z;
  ctxParent : N → run (option N);
}.

(** A pointer into the heap is such a handle. *)
#[export] Instance blockNode_ctx (h : heap) : HeaderCtx loc := {|
  ctxHeight l := nd ← deref h l; Done (height nd);
  ctxBits l := nd ← deref h l; Done (bits nd);
  ctxTimestamp l := nd ← deref h l; Done (timestamp nd);
  ctxParent l := nd ← deref h l; Done (parent nd);
|}.

Definition medianTimeBlocks : nat := 11.

Section median.
Context {N : Type} `{C : HeaderCtx N}.

Fixpoint collectTimes (i : nat) (iterNode : option N) : run (list Z) :=
  match i, iterNode with
  | O, _ | _, None => Done []
  | S i, Some n =>
      t ← ctxTimestamp n;
      p ← ctxParent n;
      rest ← collectTimes i p;
      Done (t :: rest)
  end.

Definition CalcPastMedianTime (node : N) : run Z :=
  timestamps ← collectTimes medianTimeBlocks (Some node);
  let sorted := merge_sort Z.le timestamps in
  index sorted (zlen timestamps `quot` 2).

End median.

(** ** Well-formed heaps

    [prev] maps the hash of every known block to the hash of its parent.  A
    link of a well-formed heap, where there is one, leads to the block it should;
    links may be missing (severed by the header window). *)

Fixpoint hashWalk (prev : gmap hash_t hash_t) (n : nat) (hs : hash_t) : option hash_t :=
  match n with
  | O => Some hs
  | S n => p ← prev !! hs; hashWalk prev n p
  end.

Fixpoint walk (h : heap) (n : nat) (l : loc) : option loc :=
  match n with
  | O => Some l
  | S n => nd ← h !! l; p ← parent nd; walk h n p
  end.

(** [p] is the block [d] levels above the block [nd]. *)
Definition link (prev : gmap hash_t hash_t) (h : heap) (nd : blockNode) (p : loc) (hgt : Z) : Prop :=
  ∃ pn, h !! p = Some pn ∧ height pn = hgt ∧ hgt < height nd ∧
    hashWalk prev (Z.to_nat (height nd - hgt)) (hash nd) = Some (hash pn).

Definition node_wf (prev : gmap hash_t hash_t) (h : heap) (nd : blockNode) : Prop :=
  0 ≤ height nd < 2 ^ 31 ∧ prev !! hash nd = Some (parentHash nd) ∧
  (∀ p, parent nd = Some p → link prev h nd p (height nd - 1)) ∧
  (∀ a, ancestor nd = Some a → link prev h nd a (getAncestorHeight (height nd))).

Definition heap_wf (prev : gmap hash_t hash_t) (h : heap) : Prop :=
  map_Forall (fun _ nd => node_wf prev h nd) h.

(** No link is severed. *)
Definition full (h : heap) : Prop :=
  map_Forall (fun _ nd => 0 < height nd → is_Some (parent nd)) h.

(** No block has two nodes. *)
Definition unique (h : heap) : Prop :=
  ∀ l1 l2 n1 n2, h !! l1 = Some n1 → h !! l2 = Some n2 → hash n1 = hash n2 → l1 = l2.

Lemma hashWalk_add prev n m hs hs' : hashWalk prev n hs = Some hs' →
  hashWalk prev (n + m) hs = hashWalk prev m hs'.
Proof.
  revert hs. induction n as [|n IH]; intros hs; cbn [hashWalk]; [by intros [= ->]|].
  cbn [Nat.add hashWalk]. destruct (prev !! hs) as [p|]; [|done]. cbn. apply IH.
Qed.

Lemma hashWalk_mono prev prev' n hs hs' : prev ⊆ prev' →
  hashWalk prev n hs = Some hs' → hashWalk prev' n hs = Some hs'.
Proof.
  intros Hsub. revert hs. induction n as [|n IH]; intros hs; cbn [hashWalk]; [done|].
  destruct (prev !! hs) as [p|] eqn:E; [|done]. cbn. intros H.
  rewrite (lookup_weaken _ _ _ _ E Hsub). cbn. by apply IH.
Qed.

(** *** Skip heights *)

Lemma i32_pred n : 0 ≤ n < 2 ^ 31 → i32 (n - 1) = n - 1.
Proof. intros H. apply swrap_small; zlia. Qed.

Lemma land_le_l a b : 0 ≤ a → Z.land a b ≤ a.
Proof.
  intros Ha. pose proof (Z.sub_land_same_l a b) as E.
  assert (0 ≤ Z.land a (Z.lnot b)) by (apply Z.land_nonneg; by left). lia.
Qed.

Lemma invertLowestOne_bounds n : 0 ≤ n < 2 ^ 31 →
  0 ≤ invertLowestOne n ≤ n ∧ (0 < n → invertLowestOne n < n).
Proof.
  intros Hn. unfold invertLowestOne. rewrite i32_pred by done.
  pose proof (land_le_l n (n - 1)).
  assert (0 ≤ Z.land n (n - 1)) by (apply Z.land_nonneg; lia).
  split; [lia|]. intros. rewrite Z.land_comm. pose proof (land_le_l (n - 1) n). lia.
Qed.

Lemma getAncestorHeight_bounds n : 0 ≤ n < 2 ^ 31 →
  0 ≤ getAncestorHeight n ≤ n ∧ (0 < n → getAncestorHeight n < n).
Proof.
  intros Hn. unfold getAncestorHeight. destruct (invertLowestOne_bounds n Hn) as [H1 H2].
  destruct (invertLowestOne_bounds (invertLowestOne n)); lia.
Qed.

(** *** [Ancestor] *)

(** What [Ancestor] may answer for the level [target] above the block [nd]. *)
Definition answers (prev : gmap hash_t hash_t) (h : heap) (nd : blockNode) (target : Z)
    (r : option loc) : Prop :=
  match r with
  | None => ¬ full h
  | Some a => ∃ an, h !! a = Some an ∧ height an = target ∧
      hashWalk prev (Z.to_nat (height nd - target)) (hash nd) = Some (hash an)
  end.

Lemma answers_step prev h nd p hgt target r pn :
  link prev h nd p hgt → h !! p = Some pn → 0 ≤ target ≤ hgt →
  answers prev h pn target r → answers prev h nd target r.
Proof.
  intros (pn' & Hp & Hh & Hlt & Hw) Hp' Ht. rewrite Hp in Hp'. injection Hp' as ->.
  destruct r as [a|]; [|done]. intros (an & Ha & Hat & Haw). exists an. split_and!; [done..|].
  replace (Z.to_nat (height nd - target)) with
    (Z.to_nat (height nd - hgt) + Z.to_nat (hgt - target))%nat by lia.
  rewrite (hashWalk_add _ _ _ _ _ Hw). by rewrite <-Hh.
Qed.

Lemma Ancestor_loop_sound prev h fuel l nd target :
  heap_wf prev h → h !! l = Some nd → 0 ≤ target ≤ height nd →
  (Z.to_nat (height nd - target) ≤ fuel)%nat →
  ∃ r, Ancestor_loop fuel h (Some l) target = Done r ∧ answers prev h nd target r.
Proof.
  intros Hwf. revert l nd. induction fuel as [|fuel IH]; intros l nd Hl Ht Hf.
  { cbn [Ancestor_loop]. unfold deref. rewrite Hl. cbn.
    destruct (Z.eqb_spec (height nd) target); [|lia]. eexists. split; [done|].
    exists nd. split_and!; [done..|]. by replace (height nd - target) with 0 by lia. }
  cbn [Ancestor_loop]. unfold deref at 1. rewrite Hl. cbn [of_option mbind run_bind].
  destruct (Hwf l nd Hl) as (Hr & Hprev & Hpar & Hanc).
  destruct (Z.eqb_spec (height nd) target) as [E|E].
  { eexists. split; [done|]. exists nd. split_and!; [done..|]. by replace (height nd - target) with 0 by lia. }
  assert (∀ p hgt, link prev h nd p hgt → target ≤ hgt →
    ∃ r, Ancestor_loop fuel h (Some p) target = Done r ∧ answers prev h nd target r) as Hstep.
  { intros p hgt Hlink Hle. pose proof Hlink as (pn & Hp & Hh & Hlt & _).
    destruct (IH p pn Hp) as (r & Hr1 & Hr2); [lia..|]. exists r. split; [done|].
    eapply answers_step; [done..|lia|done]. }
  assert (∃ r, Ancestor_loop fuel h (parent nd) target = Done r ∧ answers prev h nd target r) as Hp.
  { destruct (parent nd) as [p|] eqn:Ep; [apply (Hstep p (height nd - 1)); [by apply Hpar|lia]|].
    exists None. split; [by destruct fuel|]. cbn. intros Hfull.
    destruct (Hfull l nd Hl) as [? ?]; [lia|congruence]. }
  destruct (ancestor nd) as [a|] eqn:Ea; [|done].
  destruct (Z.leb_spec target (getAncestorHeight (height nd))); [|done].
  apply (Hstep a (getAncestorHeight (height nd))); [by apply Hanc|done].
Qed.

Lemma Ancestor_sound prev h l nd target :
  heap_wf prev h → h !! l = Some nd → 0 ≤ target ≤ height nd →
  ∃ r, Ancestor h l target = Done r ∧ answers prev h nd target r.
Proof.
  intros Hwf Hl Ht. unfold Ancestor, deref. rewrite Hl. cbn [of_option mbind run_bind].
  destruct (Z.ltb_spec target 0); [lia|]. destruct (Z.ltb_spec (height nd) target); [lia|].
  cbn [orb]. by eapply Ancestor_loop_sound.
Qed.

Lemma walk_hash prev h n l nd : heap_wf prev h → full h → h !! l = Some nd →
  Z.of_nat n ≤ height nd →
  ∃ p pn, walk h n l = Some p ∧ h !! p = Some pn ∧ height pn = height nd - Z.of_nat n ∧
    hashWalk prev n (hash nd) = Some (hash pn).
Proof.
  intros Hwf Hfull. revert l nd. induction n as [|n IH]; intros l nd Hl Hn.
  { exists l, nd. split_and!; [done..|lia|done]. }
  destruct (Hwf l nd Hl) as (Hr & Hprev & Hpar & _).
  destruct (Hfull l nd Hl) as [p Ep]; [lia|].
  destruct (Hpar p Ep) as (pn & Hp & Hh & _ & Hw).
  replace (Z.to_nat (height nd - (height nd - 1))) with 1%nat in Hw by lia.
  cbn in Hw. rewrite Hprev in Hw. cbn in Hw. injection Hw as Hw.
  destruct (IH p pn Hp) as (q & qn & H1 & H2 & H3 & H4); [lia|].
  exists q, qn. cbn [walk]. rewrite Hl. cbn. rewrite Ep. cbn. split_and!; [done..|lia|].
  cbn [hashWalk]. rewrite Hprev. cbn. by rewrite Hw.
Qed.

Lemma Ancestor_walk (prev : gmap hash_t hash_t) (h : heap) (l : loc) (nd : blockNode) (target : Z) :
  heap_wf prev h → full h → unique h → h !! l = Some nd →
  Ancestor h l target =
  Done (if (0 <=? target) && (target <=? height nd)
        then walk h (Z.to_nat (height nd - target)) l else None).
Proof.
  intros Hwf Hfull Huniq Hl.
  destruct (Z.leb_spec 0 target) as [H0|H0], (Z.leb_spec target (height nd)) as [H1|H1]; cbn [andb].
  2-4: unfold Ancestor, deref; rewrite Hl; cbn [of_option mbind run_bind];
    destruct (Z.ltb_spec target 0), (Z.ltb_spec (height nd) target); first [lia|done].
  destruct (Ancestor_sound prev h l nd target Hwf Hl) as (r & -> & Hr); [lia|].
  destruct (walk_hash prev h (Z.to_nat (height nd - target)) l nd Hwf Hfull Hl) as (p & pn & Hp & Hpn & _ & Hw); [lia|].
  rewrite Hp. destruct r as [a|]; [|by destruct Hr].
  destruct Hr as (an & Ha & _ & Haw). rewrite Hw in Haw. injection Haw as Haw.
  do 2 f_equal. by eapply Huniq.
Qed.

(** C38 (equivalence).  The skip list finds the same block as following parents
    one by one: in a heap where every block has one node and no link is severed,
    [Ancestor] returns, without panic and within [height - target] steps, the
    node reached by [height - target] parent links; outside [0, height] it
    returns nil. *)
Theorem ancestor_is_walk (prev : gmap hash_t hash_t) (h : heap) (l : loc) (nd : blockNode) (target : Z) :
  heap_wf prev h → full h → unique h → h !! l = Some nd →
  Ancestor h l target =
  Done (if (0 <=? target) && (target <=? height nd)
        then walk h (Z.to_nat (height nd - target)) l else None).
Proof. intros. by eapply Ancestor_walk. Qed.

(** [IsAncestor] decides strict ancestry: although it compares
    the fields of the nodes and not the pointers, in a heap with one node per
    block and no severed link it answers whether the other node is reached from
    this one by following parents, at least once. *)
Theorem isAncestor_spec (prev : gmap hash_t hash_t) (h : heap) (l o : loc) (nd on : blockNode) :
  heap_wf prev h → full h → unique h → h !! l = Some nd → h !! o = Some on →
  IsAncestor h l (Some o) =
  Done (bool_decide (height on < height nd ∧ walk h (Z.to_nat (height nd - height on)) l = Some o)).
Proof.
  intros Hwf Hfull Huniq Hl Ho. unfold IsAncestor.
  rewrite (deref_Some _ _ _ Ho). cbn [mbind run_bind].
  rewrite (Ancestor_walk prev h l nd _ Hwf Hfull Huniq Hl). cbn [mbind run_bind].
  destruct (Hwf o on Ho) as ((H0 & _) & _). destruct (Z.leb_spec 0 (height on)); [|lia].
  destruct (Z.leb_spec (height on) (height nd)) as [Hle|]; cbn [andb].
  2: { rewrite bool_decide_eq_false_2; [done|]. intros [? _]. lia. }
  destruct (walk_hash prev h (Z.to_nat (height nd - height on)) l nd Hwf Hfull Hl)
    as (a & an & -> & Ha & Hah & _); [lia|].
  rewrite (deref_Some _ _ _ Ha), (deref_Some _ _ _ Hl). cbn [mbind run_bind].
  destruct (Z.eqb_spec (height nd) (height an)) as [E|E].
  { rewrite bool_decide_eq_false_2; [done|]. intros [? _]. lia. }
  f_equal. symmetry. destruct (Equals an on) eqn:Eq.
  - apply bool_decide_eq_true. split; [lia|]. f_equal.
    unfold Equals in Eq. repeat (apply andb_prop in Eq as [Eq _]).
    apply bool_decide_eq_true in Eq. by eapply Huniq.
  - apply bool_decide_eq_false. intros [_ [= ->]]. rewrite Ho in Ha. injection Ha as <-.
    unfold Equals in Eq. by rewrite !Z.eqb_refl, !bool_decide_eq_true_2 in Eq.
Qed.

(** Severed links lose answers but never falsify them: in any
    well-formed heap, windowed or not, a node that [Ancestor] returns is the true
    ancestor at the requested height, and nil is returned only if some link is
    severed. *)
Theorem ancestor_sound (prev : gmap hash_t hash_t) (h : heap) (l : loc) (nd : blockNode) (target : Z) :
  heap_wf prev h → h !! l = Some nd → 0 ≤ target ≤ height nd →
  ∃ r, Ancestor h l target = Done r ∧
    match r with
    | Some a => ∃ an, h !! a = Some an ∧ height an = target ∧
        hashWalk prev (Z.to_nat (height nd - target)) (hash nd) = Some (hash an)
    | None => ¬ full h
    end.
Proof. intros. by apply Ancestor_sound. Qed.

(** ** Adding a node *)

(** No other node points to [l]: a new struct, or one recycled safely. *)
Definition unreferenced (h : heap) (l : loc) : Prop :=
  ∀ l' nd, l' ≠ l → h !! l' = Some nd → parent nd ≠ Some l ∧ ancestor nd ≠ Some l.

Lemma link_insert prev prev' h l x nd p hgt : prev ⊆ prev' → p ≠ l →
  link prev h nd p hgt → link prev' (<[l := x]> h) nd p hgt.
Proof.
  intros Hsub Hne (pn & Hp & Hh & Hlt & Hw). exists pn. rewrite lookup_insert_ne by done.
  split_and!; [done..|]. by eapply hashWalk_mono.
Qed.

Lemma heap_wf_insert prev prev' h l nd :
  heap_wf prev h → prev ⊆ prev' → unreferenced h l → node_wf prev' (<[l := nd]> h) nd →
  heap_wf prev' (<[l := nd]> h).
Proof.
  intros Hwf Hsub Hun Hnd l' nd' Hl'. destruct (decide (l = l')) as [->|Hne].
  { rewrite lookup_insert_eq in Hl'. by injection Hl' as <-. }
  rewrite lookup_insert_ne in Hl' by done. destruct (Hwf l' nd' Hl') as (Hr & Hp & H1 & H2).
  destruct (Hun l' nd') as [Hn1 Hn2]; [congruence|done|]. split_and!; [lia..|by eapply lookup_weaken| |].
  - intros p Ep. apply (link_insert prev); [done|congruence|by apply H1].
  - intros a Ea. apply (link_insert prev); [done|congruence|by apply H2].
Qed.

Lemma unreferenced_insert h l nd : unreferenced h l → unreferenced (<[l := nd]> h) l.
Proof.
  intros H l' nd' Hne Hl. rewrite lookup_insert_ne in Hl by congruence. by apply (H l').
Qed.

Definition headerHash (hd : Wire.BlockHeader) : hash_t :=
  ChainHash.DoubleHashRaw (Wire.header_bytes hd).

Lemma BlockHash_total hd : Wire.BlockHash hd = Done (headerHash hd).
Proof. unfold Wire.BlockHash, Wire.hashOf. by rewrite Wire.emits_header. Qed.

(** The node a header on top of [pn] becomes. *)
Definition childNode (hd : Wire.BlockHeader) (p : loc) (pn : blockNode) (a : option loc) : blockNode :=
  {| parent := Some p; parentHash := Wire.PrevBlock hd; ancestor := a; hash := headerHash hd;
     workSum := workSum pn + WorkMath.CalcWorkInto (Wire.Bits hd) 0; height := height pn + 1;
     version := Wire.Version hd; bits := Wire.Bits hd; nonce := Wire.Nonce hd;
     timestamp := Wire.Timestamp hd; merkleRoot := Wire.MerkleRoot hd; status := statusNone |}.

Lemma CalcWorkInto_any b ws : WorkMath.CalcWorkInto b ws = WorkMath.CalcWorkInto b 0.
Proof. done. Qed.

Lemma newBlockNode_spec prev h l ws hd p pn :
  heap_wf prev h → unreferenced h l → p ≠ l → h !! p = Some pn → hash pn = Wire.PrevBlock hd →
  height pn + 1 < 2 ^ 31 →
  (prev !! headerHash hd = None ∨ prev !! headerHash hd = Some (Wire.PrevBlock hd)) →
  let prev' := <[headerHash hd := Wire.PrevBlock hd]> prev in
  ∃ a, let h' := <[l := childNode hd p pn a]> h in
    newBlockNode h l ws hd (Some p) = Done (l, h') ∧ heap_wf prev' h' ∧
    answers prev' h' pn (getAncestorHeight (height pn + 1)) a.
Proof.
  intros Hwf Hun Hne Hp Hhash Hlt Hfresh prev'. destruct (Hwf p pn Hp) as (Hr & _).
  assert (prev' !! headerHash hd = Some (Wire.PrevBlock hd)) as Hpv by apply lookup_insert_eq.
  assert (prev ⊆ prev') as Hsub.
  { destruct Hfresh as [Hf|Hf]; [by apply insert_subseteq|].
    unfold prev'. by rewrite insert_id. }
  unfold newBlockNode, initBlockNode. rewrite BlockHash_total. cbn [mbind run_bind].
  unfold deref. rewrite lookup_insert_ne by done. rewrite Hp. cbn [of_option mbind run_bind].
  cbn [parentHash hash workSum version bits nonce timestamp merkleRoot status].
  rewrite insert_insert_eq, swrap_small, (CalcWorkInto_any _ ws) by zlia.
  fold (childNode hd p pn None). set (nd := childNode hd p pn None). set (h1 := <[l := nd]> h).
  assert (link prev' h1 nd p (height nd - 1)) as Hlink.
  { exists pn. unfold h1. rewrite lookup_insert_ne by done. cbn [nd height childNode]. split_and!; [done|lia..|].
    replace (Z.to_nat _) with 1%nat by lia. cbn. unfold prev'. rewrite lookup_insert_eq. by rewrite <-Hhash. }
  destruct (getAncestorHeight_bounds (height pn + 1)) as [Hg1 Hg2]; [lia|].
  assert (heap_wf prev' h1) as Hwf1.
  { eapply heap_wf_insert; [done..|]. split_and!; [cbn; lia..|apply lookup_insert_eq| |done].
    intros q [= <-]. done. }
  assert (h1 !! p = Some pn) as Hp1 by (unfold h1; by rewrite lookup_insert_ne).
  destruct (Ancestor_sound prev' h1 p pn (getAncestorHeight (height pn + 1)) Hwf1 Hp1) as (a & Ha & Hans); [lia|].
  assert (h1 !! l = Some nd) as Hl1 by apply lookup_insert_eq.
  exists a. unfold buildAncestor, deref. rewrite Hl1. cbn [of_option mbind run_bind].
  change (parent nd) with (Some p). change (height nd) with (height pn + 1).
  cbn iota. rewrite Ha.
  cbn [mbind run_bind]. unfold h1. rewrite insert_insert_eq.
  change (set_ancestor a nd) with (childNode hd p pn a). split; [done|].
  assert (∀ b bn, h1 !! b = Some bn → height bn < height pn + 1 →
    <[l := childNode hd p pn a]> h !! b = Some bn) as Hsame.
  { intros b bn Hb Hbh. unfold h1 in Hb. destruct (decide (l = b)) as [<-|].
    - rewrite lookup_insert_eq in Hb. injection Hb as <-. cbn in Hbh. lia.
    - by rewrite lookup_insert_ne in Hb |- * by done. }
  split.
  - eapply heap_wf_insert; [exact Hwf|done..|]. split_and!; [cbn; lia..|apply lookup_insert_eq| |].
    + intros q [= <-]. cbn. eapply link_insert; [reflexivity|done|].
      destruct Hlink as (pn' & H1 & H2). exists pn'. unfold h1 in H1. rewrite lookup_insert_ne in H1 by done. done.
    + intros b [= ->]. destruct Hans as (an & Hb & Hbh & Hbw). exists an. cbn [height hash childNode].
      split_and!; [apply Hsame; [done|lia]|done|lia|].
      replace (Z.to_nat (height pn + 1 - getAncestorHeight (height pn + 1)))
        with (S (Z.to_nat (height pn - getAncestorHeight (height pn + 1)))) by lia.
      cbn [hashWalk]. rewrite Hpv. cbn [mbind option_bind]. rewrite <-Hhash. exact Hbw.
  - destruct a as [b|]; cbn in *.
    + destruct Hans as (an & Hb & Hbh & Hbw). exists an. split_and!; [apply Hsame; [done|lia]|done..].
    + intros Hfull. apply Hans. intros b bn Hb Hpos. unfold h1 in Hb.
      destruct (decide (l = b)) as [<-|]; [rewrite lookup_insert_eq in Hb; injection Hb as <-; by eexists|].
      rewrite lookup_insert_ne in Hb by done. apply (Hfull b); [by rewrite lookup_insert_ne|done].
Qed.

(** Adding a header keeps the heap well formed.  A node built by
    [newBlockNode] on a parent, in a new struct or a recycled one nobody points
    to, has the parent's height plus one, the parent's work plus the header's
    own, the header's hash, and gives the header back through [Header]; every
    link of the new heap is right, and if the old heap had no severed link and
    one node per block, so has the new one. *)
Theorem newBlockNode_wf (prev : gmap hash_t hash_t) (h : heap) (l : loc) (ws : Z)
    (hd : Wire.BlockHeader) (p : loc) (pn : blockNode) :
  heap_wf prev h → unreferenced h l → p ≠ l → h !! p = Some pn →
  hash pn = Wire.PrevBlock hd → height pn + 1 < 2 ^ 31 →
  (prev !! headerHash hd = None ∨ prev !! headerHash hd = Some (Wire.PrevBlock hd)) →
  ∃ h' nd, newBlockNode h l ws hd (Some p) = Done (l, h') ∧ h' = <[l := nd]> h ∧
    heap_wf (<[headerHash hd := Wire.PrevBlock hd]> prev) h' ∧
    Wire.BlockHash hd = Done (hash nd) ∧ Header nd = hd ∧ height nd = height pn + 1 ∧
    workSum nd = workSum pn + WorkMath.CalcWork (Wire.Bits hd) ∧
    (full h → full h') ∧
    (unique h → (∀ k n, k ≠ l → h !! k = Some n → hash n ≠ headerHash hd) → unique h').
Proof.
  intros Hwf Hun Hne Hp Hhash Hlt Hfresh.
  destruct (newBlockNode_spec prev h l ws hd p pn) as (a & Hnew & Hwf' & _); try done.
  eexists _, (childNode hd p pn a). split; [exact Hnew|]. split; [done|]. split; [exact Hwf'|].
  split; [apply BlockHash_total|]. split; [by destruct hd|]. split; [done|]. split; [done|].
  split.
  - intros Hfull. apply map_Forall_insert_2; [by eexists|done].
  - intros Huniq Hnew' l1 l2 n1 n2 H1 H2 E.
    destruct (decide (l1 = l)) as [->|N1], (decide (l2 = l)) as [->|N2]; [done| | |].
    + rewrite lookup_insert_eq in H1. injection H1 as <-. rewrite lookup_insert_ne in H2 by done.
      by destruct (Hnew' l2 n2 N2 H2).
    + rewrite lookup_insert_eq in H2. injection H2 as <-. rewrite lookup_insert_ne in H1 by done.
      by destruct (Hnew' l1 n1 N1 H1).
    + rewrite lookup_insert_ne in H1, H2 by done. by eapply Huniq.
Qed.

(** ** The past median time *)

(** The timestamps of the last [n] blocks ending with [l]. *)
Definition timesBack (h : heap) (n : nat) (l : loc) : list Z :=
  omap (fun i => p ← walk h i l; timestamp <$> h !! p) (seq 0 n).

Lemma collectTimes_heap prev h n l nd : heap_wf prev h → h !! l = Some nd →
  collectTimes (C := blockNode_ctx h) n (Some l) = Done (timesBack h n l).
Proof.
  intros Hwf. revert l nd. induction n as [|n IH]; intros l nd Hl; [done|].
  unfold timesBack. cbn [seq omap list_omap]. cbn [walk]. cbn [mbind option_bind]. rewrite Hl. cbn [fmap option_fmap option_map].
  cbn [collectTimes ctxTimestamp ctxParent blockNode_ctx]. unfold deref. rewrite Hl.
  cbn [of_option mbind run_bind].
  assert (omap (fun i => p ← walk h i l; timestamp <$> h !! p) (seq 1 n) =
    match parent nd with Some p => timesBack h n p | None => [] end) as E.
  { rewrite <-fmap_S_seq. unfold timesBack. destruct (parent nd) as [p|] eqn:Ep.
    - induction (seq 0 n) as [|i ixs IHs]; [done|]. cbn. rewrite Hl. cbn. rewrite Ep. cbn.
      cbn in IHs. by rewrite IHs.
    - apply omap_none, Forall_forall. intros i Hi. apply list_elem_of_fmap in Hi as (j & -> & _).
      cbn. rewrite Hl. cbn. by rewrite Ep. }
  fold (omap (M := list) (A := nat) (B := Z)). rewrite E.
  destruct (parent nd) as [p|] eqn:Ep; [|by destruct n].
  destruct (Hwf l nd Hl) as (_ & _ & Hpar & _). destruct (Hpar p Ep) as (pn & Hp & _).
  by rewrite (IH p pn Hp).
Qed.

Lemma sorted_median (l : list Z) (k : nat) (m : Z) : StronglySorted Z.le l → l !! k = Some m →
  (length (filter (fun t => (t < m)%Z) l) ≤ k)%nat ∧
  (length (filter (fun t => (m < t)%Z) l) ≤ length l - 1 - k)%nat.
Proof.
  intros Hs Hk. pose proof (lookup_lt_Some _ _ _ Hk).
  pose proof (take_drop_middle l k m Hk) as E. rewrite <-E in Hs.
  apply StronglySorted_app in Hs as (H1 & H2 & H3). apply StronglySorted_inv in H3 as [_ H3].
  assert (filter (fun t => t < m) (m :: drop (S k) l) = []) as F1.
  { apply filter_none. intros x Hx. apply elem_of_cons in Hx as [->|Hx]; [lia|].
    eapply Forall_forall in H3; [|done]. lia. }
  assert (filter (fun t => m < t) (take k l ++ [m]) = []) as F2.
  { apply filter_none. intros x Hx. apply elem_of_app in Hx as [Hx|Hx%list_elem_of_singleton]; [|lia].
    pose proof (H1 x m Hx ltac:(left)). lia. }
  split.
  - rewrite <-E at 1. rewrite filter_app, F1, app_nil_r. etrans; [apply length_filter|]. rewrite length_take. lia.
  - rewrite <-E at 1. change (m :: drop (S k) l) with ([m] ++ drop (S k) l). rewrite app_assoc, filter_app, F2. cbn [app].
    etrans; [apply length_filter|]. rewrite length_drop. lia.
Qed.

(** [CalcPastMedianTime] returns the median of the timestamps
    of the block and up to ten blocks before it, as far as the parent links go:
    one of these timestamps, with at most half of them smaller and fewer than
    half of them larger. *)
Theorem median_time_spec (prev : gmap hash_t hash_t) (h : heap) (l : loc) (nd : blockNode) :
  heap_wf prev h → h !! l = Some nd →
  let ts := timesBack h medianTimeBlocks l in
  ∃ m, CalcPastMedianTime (C := blockNode_ctx h) l = Done m ∧ m ∈ ts ∧ (1 ≤ length ts ≤ 11)%nat ∧
    (length (filter (fun t => (t < m)%Z) ts) ≤ length ts / 2)%nat ∧
    (length (filter (fun t => (m < t)%Z) ts) < length ts - length ts / 2)%nat.
Proof.
  intros Hwf Hl ts. unfold CalcPastMedianTime. rewrite (collectTimes_heap prev h _ l nd Hwf Hl). fold ts.
  cbn [mbind run_bind].
  assert (1 ≤ length ts ≤ 11)%nat as Hlen.
  { split.
    - unfold ts, timesBack. cbn [medianTimeBlocks seq omap list_omap walk mbind option_bind].
      rewrite Hl. cbn. lia.
    - unfold ts, timesBack. etrans; [apply length_omap_le|]. by rewrite length_seq. }
  pose proof (merge_sort_Permutation Z.le ts) as HP.
  set (k := (length ts / 2)%nat).
  assert (k < length ts)%nat as Hk by (apply Nat.div_lt; lia).
  destruct (lookup_lt_is_Some_2 (merge_sort Z.le ts) k) as [m Hm]; [by rewrite HP|].
  exists m. unfold index. rewrite decide_True by (apply Z.quot_pos; [apply zlen_nonneg|lia]).
  replace (Z.to_nat (zlen ts `quot` 2)) with k.
  2: { unfold k, zlen. rewrite Z.quot_div_nonneg by lia. change 2 with (Z.of_nat 2).
       rewrite <-Nat2Z.inj_div. lia. }
  rewrite Hm. split; [done|]. split; [rewrite <-HP; by eapply list_elem_of_lookup_2|]. split; [done|].
  destruct (sorted_median (merge_sort Z.le ts) k m) as [H1 H2]; [|done|].
  { apply Sorted_StronglySorted; [intros x y z ? ?; lia|]. apply Sorted_merge_sort. intros x y; lia. }
  rewrite HP in H1, H2. split; [done|]. fold k. lia.
Qed.

(** ** A concrete chain of eight blocks *)

Definition linkb (prev : gmap hash_t hash_t) (h : heap) (nd : blockNode) (p : loc) (hgt : Z) : bool :=
  match h !! p with
  | Some pn => (height pn =? hgt) && (hgt <? height nd) &&
      bool_decide (hashWalk prev (Z.to_nat (height nd - hgt)) (hash nd) = Some (hash pn))
  | None => false
  end.

Definition node_wfb (prev : gmap hash_t hash_t) (h : heap) (nd : blockNode) : bool :=
  (0 <=? height nd) && (height nd <? 2 ^ 31) &&
  bool_decide (prev !! hash nd = Some (parentHash nd)) &&
  match parent nd with Some p => linkb prev h nd p (height nd - 1) | None => true end &&
  match ancestor nd with Some a => linkb prev h nd a (getAncestorHeight (height nd)) | None => true end.

Lemma linkb_sound prev h nd p hgt : linkb prev h nd p hgt = true → link prev h nd p hgt.
Proof.
  unfold linkb, link. destruct (h !! p) as [pn|]; [|done].
  intros [[H1 H2]%andb_prop H3%bool_decide_eq_true]%andb_prop. exists pn. split_and!; [done|lia..|done].
Qed.

Lemma heap_wfb_sound prev h : bool_decide (map_Forall (fun _ nd => node_wfb prev h nd) h) = true →
  heap_wf prev h.
Proof.
  intros H%bool_decide_eq_true l nd Hl. specialize (H l nd Hl). unfold node_wfb in H.
  apply Is_true_true, andb_prop in H as [[[[H1 H2]%andb_prop H3%bool_decide_eq_true]%andb_prop H4]%andb_prop H5].
  unfold node_wf. split_and!; [lia..|done| |].
  - intros p Hp. rewrite Hp in H4. by apply linkb_sound.
  - intros a Ha. rewrite Ha in H5. by apply linkb_sound.
Qed.

Definition toyHash (i : Z) : hash_t := le_bytes 32 (i + 1).
Definition toyLoc (i : Z) : loc := Z.to_pos (i + 1).

Definition toyNode (i : Z) : blockNode :=
  {| parent := if i =? 0 then None else Some (toyLoc (i - 1));
     parentHash := if i =? 0 then replicate 32 (z2b 0) else toyHash (i - 1);
     ancestor := if i =? 0 then None else Some (toyLoc (getAncestorHeight i));
     hash := toyHash i; workSum := i + 1; height := i; version := 1; bits := 0x1f3fffff;
     nonce := 0; timestamp := 1565881200 + 5 * i; merkleRoot := toyHash 0; status := 0 |}.

Definition toyHeights : list Z := seqZ 0 8.
Definition toyHeap : heap := list_to_map ((fun i => (toyLoc i, toyNode i)) <$> toyHeights).
Definition toyPrev : gmap hash_t hash_t :=
  list_to_map ((fun i => (toyHash i, parentHash (toyNode i))) <$> toyHeights).

Lemma toyHeap_wf : heap_wf toyPrev toyHeap.
Proof. apply heap_wfb_sound. vm_compute. reflexivity. Qed.

Lemma toyHeap_full : full toyHeap.
Proof.
  assert (bool_decide (map_Forall (fun _ nd => bool_decide (0 < height nd → is_Some (parent nd))) toyHeap) = true)
    as H by (vm_compute; reflexivity).
  apply bool_decide_eq_true in H. intros l nd Hl. specialize (H l nd Hl).
  by apply bool_decide_unpack in H.
Qed.

Lemma toyHeap_unique : unique toyHeap.
Proof.
  assert (bool_decide (map_Forall (fun l1 n1 => map_Forall (fun l2 n2 =>
    bool_decide (hash n1 = hash n2 → l1 = l2)) toyHeap) toyHeap) = true)
    as H by (vm_compute; reflexivity).
  apply bool_decide_eq_true in H. intros l1 l2 n1 n2 H1 H2 E. specialize (H l1 n1 H1 l2 n2 H2).
  apply bool_decide_unpack in H. by apply H.
Qed.

Lemma ancestor_is_walk_witness :
  toyHeap !! toyLoc 7 = Some (toyNode 7) ∧ Ancestor toyHeap (toyLoc 7) 3 = Done (Some (toyLoc 3)).
Proof.
  split; [vm_compute; reflexivity|].
  rewrite (ancestor_is_walk toyPrev toyHeap (toyLoc 7) (toyNode 7) 3 toyHeap_wf toyHeap_full toyHeap_unique);
    vm_compute; reflexivity.
Defined.

Lemma isAncestor_spec_witness :
  IsAncestor toyHeap (toyLoc 7) (Some (toyLoc 3)) = Done true.
Proof.
  rewrite (isAncestor_spec toyPrev toyHeap (toyLoc 7) (toyLoc 3) (toyNode 7) (toyNode 3)
    toyHeap_wf toyHeap_full toyHeap_unique); vm_compute; reflexivity.
Defined.

Lemma ancestor_sound_witness :
  ∃ r, Ancestor toyHeap (toyLoc 7) 2 = Done r ∧
    match r with
    | Some a => ∃ an, toyHeap !! a = Some an ∧ height an = 2 ∧
        hashWalk toyPrev (Z.to_nat (7 - 2)) (toyHash 7) = Some (hash an)
    | None => ¬ full toyHeap
    end.
Proof.
  apply (ancestor_sound toyPrev toyHeap (toyLoc 7) (toyNode 7) 2 toyHeap_wf);
    [vm_compute; reflexivity|vm_compute; split; discriminate].
Defined.

Definition toyHeader : Wire.BlockHeader :=
  {| Wire.Version := 1; Wire.PrevBlock := toyHash 7; Wire.MerkleRoot := toyHash 0;
     Wire.Timestamp := 1565881300; Wire.Bits := 0x1f3fffff; Wire.Nonce := 5 |}.

Lemma toyHeap_unreferenced : unreferenced toyHeap (toyLoc 8).
Proof.
  assert (bool_decide (map_Forall (fun _ nd => bool_decide (parent nd ≠ Some (toyLoc 8) ∧ ancestor nd ≠ Some (toyLoc 8)))
    toyHeap) = true) as H by (vm_compute; reflexivity).
  apply bool_decide_eq_true in H. intros l nd _ Hl. specialize (H l nd Hl).
  by apply bool_decide_unpack in H.
Qed.

Lemma newBlockNode_wf_witness :
  ∃ h' nd, newBlockNode toyHeap (toyLoc 8) 99 toyHeader (Some (toyLoc 7)) = Done (toyLoc 8, h') ∧
    h' = <[toyLoc 8 := nd]> toyHeap ∧ heap_wf (<[headerHash toyHeader := toyHash 7]> toyPrev) h' ∧
    height nd = 8.
Proof.
  destruct (newBlockNode_wf toyPrev toyHeap (toyLoc 8) 99 toyHeader (toyLoc 7) (toyNode 7))
    as (h' & nd & H1 & H2 & H3 & _ & _ & H4 & _);
    [exact toyHeap_wf|exact toyHeap_unreferenced|discriminate|vm_compute; reflexivity..
    |left; vm_compute; reflexivity|].
  exists h', nd. split; [exact H1|]. split; [exact H2|]. split; [exact H3|exact H4].
Defined.

Lemma median_time_spec_witness :
  ∃ m, CalcPastMedianTime (C := blockNode_ctx toyHeap) (toyLoc 7) = Done m ∧
    m ∈ timesBack toyHeap medianTimeBlocks (toyLoc 7).
Proof.
  destruct (median_time_spec toyPrev toyHeap (toyLoc 7) (toyNode 7) toyHeap_wf) as (m & H1 & H2 & _);
    [vm_compute; reflexivity|]. exists m. split; [exact H1|exact H2].
Defined.

End BlockNode.
