(* ===== verification/ChainView.v ===== *)
(** * ChainView: a chain as an array of its nodes

    Model of [blockchain/chainview.go].  A view holds the nodes of one chain from
    the height [base] of its window up to its tip; [None] is a nil entry.  The
    capacity of the backing array is not observable: both branches of the resize
    in [setTip] leave the old entries followed by nil ones.  The mutex methods
    ([Tip], [SetTip], ...) are the operations below run one at a time. *)

From S2P Require Import Prelude WorkMath ChainHash Wire BlockNode.
Import BlockNode.

Module ChainView.

(** ** Operations *)

Definition log2FloorMasks : list Z := [0xffff0000; 0xff00; 0xf0; 0xc; 0x2].

Fixpoint fastLog2Floor_loop (masks : list Z) (n rv exponent : Z) : Z :=
  match masks with
  | [] => rv
  | m :: masks =>
      if negb (Z.land n m =? 0)
      then fastLog2Floor_loop masks (Z.shiftr n exponent) (u8 (rv + exponent)) (Z.shiftr exponent 1)
      else fastLog2Floor_loop masks n rv (Z.shiftr exponent 1)
  end.

Definition fastLog2Floor (n : Z) : Z := fastLog2Floor_loop log2FloorMasks n 0 16.

Record chainView := { nodes : list (option loc); base : Z }.

Definition emptyView : chainView := {| nodes := []; base := 0 |}.

Definition genesis (c : chainView) : option loc := mjoin (head (nodes c)).

Definition tip (c : chainView) : option loc := mjoin (last (nodes c)).

(** [c.nodes[0:needed]] with the entries past the old length set to nil, or a
    larger copy of the array *)
Definition resize (ns : list (option loc)) (needed : Z) : list (option loc) :=
  take (Z.to_nat needed) ns ++ replicate (Z.to_nat needed - length ns) None.

(** The loop of [setTip]; it writes one entry per iteration, from the top down. *)
Fixpoint setTip_loop (fuel : nat) (h : heap) (bs : Z) (ns : list (option loc)) (node : option loc) :
    run (list (option loc)) :=
  match node with
  | None => Done ns
  | Some l =>
      nd ← deref h l;
      if height nd <? bs then Done ns else
      cur ← index ns (height nd - bs);
      if decide (cur = Some l) then Done ns else
      match fuel with
      | O => NoFuel
      | S fuel =>
          ns' ← store ns (height nd - bs) (Some l);
          setTip_loop fuel h bs ns' (parent nd)
      end
  end.

Definition setTip (h : heap) (c : chainView) (node : option loc) : run chainView :=
  match node with
  | None => Done emptyView
  | Some l =>
      nd ← deref h l;
      if height nd <? base c then Done c else
      let needed := i32 (height nd - base c + 1) in
      ns ← setTip_loop (Z.to_nat needed) h (base c) (resize (nodes c) needed) (Some l);
      Done {| nodes := ns; base := base c |}
  end.

Definition newChainView (h : heap) (tip : option loc) : run chainView := setTip h emptyView tip.

Definition sever (h : heap) (l : loc) : heap := alter (fun nd => set_ancestor None (set_parent None nd)) l h.

Definition pruneBelow (h : heap) (c : chainView) (hgt : Z) : heap * chainView :=
  if hgt <=? base c then (h, c) else
  let drp := hgt - base c in
  if zlen (nodes c) <=? drp then (h, {| nodes := []; base := hgt |})
  else
    let h' := match nodes c !! Z.to_nat drp with Some (Some l) => sever h l | _ => h end in
    (h', {| nodes := drop (Z.to_nat drp) (nodes c); base := hgt |}).

Definition viewHeight (c : chainView) : Z :=
  if zlen (nodes c) =? 0 then -1 else i32 (base c + zlen (nodes c) - 1).

Definition nodeByHeight (c : chainView) (hgt : Z) : option loc :=
  if (hgt <? base c) || (base c + zlen (nodes c) <=? hgt) then None
  else mjoin (nodes c !! Z.to_nat (hgt - base c)).

Definition Equals (c other : chainView) : bool :=
  bool_decide (length (nodes c) = length (nodes other)) && bool_decide (tip c = tip other).

Definition contains (h : heap) (c : chainView) (node : loc) : run bool :=
  nd ← deref h node; Done (bool_decide (nodeByHeight c (height nd) = Some node)).

Definition next (h : heap) (c : chainView) (node : option loc) : run (option loc) :=
  match node with
  | None => Done None
  | Some l =>
      inView ← contains h c l;
      if negb inView then Done None
      else nd ← deref h l; Done (nodeByHeight c (i32 (height nd + 1)))
  end.

Fixpoint findFork_loop (fuel : nat) (h : heap) (c : chainView) (node : option loc) : run (option loc) :=
  match node with
  | None => Done None
  | Some l =>
      inView ← contains h c l;
      if inView : bool then Done (Some l) else
      match fuel with
      | O => NoFuel
      | S fuel => nd ← deref h l; findFork_loop fuel h c (parent nd)
      end
  end.

(** Heights decrease along parents: the height of the node plus one is enough
    fuel. *)
Definition findFork (h : heap) (c : chainView) (node : option loc) : run (option loc) :=
  match node with
  | None => Done None
  | Some l =>
      nd ← deref h l;
      let chainHeight := viewHeight c in
      start ← (if chainHeight <? height nd then Ancestor h l chainHeight else Done (Some l));
      findFork_loop (S (Z.to_nat (height nd))) h c start
  end.

Fixpoint blockLocator_loop (fuel : nat) (h : heap) (c : chainView) (node : option loc)
    (step : Z) (locator : list hash_t) : run (list hash_t) :=
  match node with
  | None => Done locator
  | Some l =>
      match fuel with
      | O => NoFuel
      | S fuel =>
          nd ← deref h l;
          let locator := locator ++ [hash nd] in
          if height nd =? 0 then Done locator else
          let hgt := i32 (height nd - step) in
          let hgt := if hgt <? 0 then 0 else hgt in
          inView ← contains h c l;
          node' ← (if inView : bool then
                     if base c <=? hgt then index (nodes c) (hgt - base c) else Done None
                   else Ancestor h l hgt);
          let step := if 10 <? zlen locator then i32 (step * 2) else step in
          blockLocator_loop fuel h c node' step locator
      end
  end.

(** The capacity reserved for the locator *)
Definition maxEntries (hgt : Z) : Z :=
  if hgt <=? 12 then u8 (u8 hgt + 1)
  else u8 (12 + fastLog2Floor (u32 (u32 hgt - 10))).

(** Every iteration goes to a lower height, so [height + 1] iterations suffice. *)
Definition blockLocator (h : heap) (c : chainView) (node : option loc) : run (list hash_t) :=
  match (match node with None => tip c | Some l => Some l end) with
  | None => Done []
  | Some l =>
      nd ← deref h l;
      blockLocator_loop (S (Z.to_nat (height nd))) h c (Some l) 1 []
  end.

(** ** Integer logarithm *)

Lemma fastLog2_step n m e : 0 ≤ n < 2 ^ (2 * e) → 0 < e → m = Z.shiftl (Z.ones e) e →
  (negb (Z.land n m =? 0) = true → 2 ^ e ≤ n ∧ 0 ≤ Z.shiftr n e < 2 ^ e ∧ Z.log2 n = e + Z.log2 (Z.shiftr n e)) ∧
  (negb (Z.land n m =? 0) = false → n < 2 ^ e).
Proof.
  intros Hn He ->. assert (Z.land n (Z.shiftl (Z.ones e) e) = n - n `mod` 2 ^ e) as E.
  { assert (Z.land n (Z.shiftl (Z.ones e) e) = Z.shiftl (Z.shiftr n e) e) as ->.
    { apply Z.bits_inj'. intros i Hi. rewrite Z.land_spec, !Z.shiftl_spec by lia.
      destruct (Z.ltb_spec i e).
      - rewrite !(Z.testbit_neg_r _ (i - e)) by lia. apply andb_false_r.
      - rewrite Z.shiftr_spec by lia. replace (i - e + e) with i by lia.
        destruct (Z.ltb_spec (i - e) e).
        + rewrite Z.ones_spec_low by lia. apply andb_true_r.
        + rewrite Z.ones_spec_high, andb_false_r by lia. symmetry. destruct (Z.eq_dec n 0) as [->|];
            [apply Z.bits_0|]. apply Z.bits_above_log2; [lia|].
          apply Z.lt_le_trans with (2 * e); [apply Z.log2_lt_pow2; lia|lia]. }
    rewrite Z.shiftl_mul_pow2, Z.shiftr_div_pow2 by lia.
    pose proof (Z.div_mod n (2 ^ e)). lia. }
  rewrite E. assert (0 < 2 ^ e) by lia. pose proof (Z.mod_pos_bound n (2 ^ e)).
  split; destruct (Z.eqb_spec (n - n `mod` 2 ^ e) 0) as [Hz|Hz]; cbn; try done; intros _.
  - assert (2 ^ e ≤ n) as Hge.
    { destruct (Z.le_gt_cases (2 ^ e) n); [done|]. rewrite Z.mod_small in Hz; lia. }
    split; [done|]. split.
    + rewrite Z.shiftr_div_pow2 by lia. replace (2 * e) with (e + e) in Hn by lia.
      rewrite Z.pow_add_r in Hn by lia. split; [apply Z.div_pos; lia|apply Z.div_lt_upper_bound; lia].
    + rewrite Z.log2_shiftr by lia. assert (e ≤ Z.log2 n) by (apply Z.log2_le_pow2; lia). lia.
  - destruct (Z.le_gt_cases (2 ^ e) n); [|lia]. lia.
Qed.

Lemma fastLog2_case masks n m rv e : 0 ≤ n < 2 ^ (2 * e) → 0 < e ≤ 16 → 0 ≤ rv ≤ 32 →
  m = Z.shiftl (Z.ones e) e →
  ∃ n' rv', fastLog2Floor_loop (m :: masks) n rv e = fastLog2Floor_loop masks n' rv' (Z.shiftr e 1) ∧
    0 ≤ n' < 2 ^ e ∧ rv + Z.log2 n = rv' + Z.log2 n' ∧ rv ≤ rv' ≤ rv + e ∧ (0 < n → 0 < n').
Proof.
  intros Hn He Hrv Hm. destruct (fastLog2_step n m e Hn) as [H1 H2]; [lia|done|].
  cbn [fastLog2Floor_loop]. destruct (negb (Z.land n m =? 0)).
  - destruct (H1 eq_refl) as (Hge & Hs & Hl). exists (Z.shiftr n e), (rv + e).
    rewrite uwrap_small by zlia. split; [done|]. split; [done|]. split; [lia|]. split; [lia|].
    intros. rewrite Z.shiftr_div_pow2 by lia. apply Z.div_str_pos. lia.
  - specialize (H2 eq_refl). exists n, rv. split; [done|]. lia.
Qed.

Lemma fastLog2Floor_spec n : 0 ≤ n < 2 ^ 32 → fastLog2Floor n = Z.log2 n.
Proof.
  intros Hn. unfold fastLog2Floor, log2FloorMasks.
  destruct (fastLog2_case [0xff00; 0xf0; 0xc; 0x2] n 0xffff0000 0 16) as (n1 & r1 & -> & A1 & A2 & A3 & _); [done|lia..|done|].
  destruct (fastLog2_case [0xf0; 0xc; 0x2] n1 0xff00 r1 8) as (n2 & r2 & E2 & B1 & B2 & B3 & _); [done|lia..|done|].
  change (Z.shiftr 16 1) with 8. rewrite E2.
  destruct (fastLog2_case [0xc; 0x2] n2 0xf0 r2 4) as (n3 & r3 & E3 & C1 & C2 & C3 & _); [done|lia..|done|].
  change (Z.shiftr 8 1) with 4. rewrite E3.
  destruct (fastLog2_case [0x2] n3 0xc r3 2) as (n4 & r4 & E4 & D1 & D2 & D3 & _); [done|lia..|done|].
  change (Z.shiftr 4 1) with 2. rewrite E4.
  destruct (fastLog2_case [] n4 0x2 r4 1) as (n5 & r5 & E5 & F1 & F2 & F3 & _); [done|lia..|done|].
  change (Z.shiftr 2 1) with 1. rewrite E5. cbn [fastLog2Floor_loop].
  assert (n5 = 0 ∨ n5 = 1) as [->| ->] by zlia; simpl in *; lia.
Qed.

(** ** Views of a chain *)

(** Heights of the entries, and every entry above the base is on top of the one
    below it. *)
Definition linked (h : heap) (bs : Z) (ns : list (option loc)) : Prop :=
  (∀ i l, ns !! i = Some (Some l) → ∃ nd, h !! l = Some nd ∧ height nd = bs + Z.of_nat i) ∧
  (∀ i l nd, ns !! S i = Some (Some l) → h !! l = Some nd →
     ∃ p, parent nd = Some p ∧ ns !! i = Some (Some p)).

Definition view_ok (h : heap) (c : chainView) : Prop :=
  0 ≤ base c ∧ Forall is_Some (nodes c) ∧ linked h (base c) (nodes c).

(** The view holds exactly the chain that ends with [t]. *)
Definition shows (h : heap) (c : chainView) (t : loc) (hgt : Z) : Prop :=
  zlen (nodes c) = hgt - base c + 1 ∧
  ∀ k, Z.of_nat k ≤ hgt - base c →
    nodes c !! Z.to_nat (hgt - base c - Z.of_nat k) = Some (walk h k t) ∧ is_Some (walk h k t).

Lemma walk_step h k l nd : h !! l = Some nd → walk h (S k) l = parent nd ≫= walk h k.
Proof. intros Hl. cbn. rewrite Hl. done. Qed.

Lemma walk_S_r h k l : walk h (S k) l = p ← walk h k l; nd ← h !! p; parent nd.
Proof.
  revert l. induction k as [|k IH]; intros l.
  { cbn. destruct (h !! l) as [nd|]; [|done]. cbn. by destruct (parent nd). }
  rewrite (eq_refl : walk h (S (S k)) l = (nd ← h !! l; p ← parent nd; walk h (S k) p)).
  cbn [walk] in *. destruct (h !! l) as [nd|]; [|done]. cbn. destruct (parent nd) as [p|]; [|done].
  cbn. apply IH.
Qed.

Lemma walk_prefix h a b l : is_Some (walk h (a + b) l) → is_Some (walk h a l).
Proof.
  induction b as [|b IH]; [by rewrite Nat.add_0_r|]. rewrite Nat.add_succ_r, walk_S_r.
  destruct (walk h (a + b) l); [intros _; apply IH; by eexists|by intros [? ?]].
Qed.

Lemma walk_height prev h k l nd q : heap_wf prev h → h !! l = Some nd → walk h k l = Some q →
  ∃ qn, h !! q = Some qn ∧ height qn = height nd - Z.of_nat k.
Proof.
  intros Hwf Hl. revert q. induction k as [|k IH]; intros q Hq.
  { injection Hq as <-. exists nd. split; [done|lia]. }
  rewrite walk_S_r in Hq. destruct (walk h k l) as [q'|]; [|done]. cbn in Hq.
  destruct (IH q' eq_refl) as (qn' & Hqn' & Hh'). rewrite Hqn' in Hq. cbn in Hq.
  destruct (Hwf q' qn' Hqn') as (_ & _ & Hpar & _). destruct (Hpar q Hq) as (pn & Hp & Hh & _).
  exists pn. split; [done|lia].
Qed.

(** Below an entry of a linked view, the view is the entry's chain. *)
Lemma linked_walk h bs ns j l k : linked h bs ns → ns !! j = Some (Some l) → (k ≤ j)%nat →
  ns !! (j - k)%nat = Some (walk h k l) ∧ is_Some (walk h k l).
Proof.
  intros [Hh Hl] Hj. revert j l Hj. induction k as [|k IH]; intros j l Hj Hk.
  { rewrite Nat.sub_0_r. done. }
  destruct j as [|j]; [lia|]. destruct (Hh _ _ Hj) as (nd & Hnd & _).
  destruct (Hl _ _ _ Hj Hnd) as (p & Ep & Hp). rewrite (walk_step _ _ _ _ Hnd), Ep. cbn.
  apply IH; [done|lia].
Qed.

Lemma length_resize ns n : 0 ≤ n → zlen (resize ns n) = n.
Proof.
  intros Hn. unfold resize, zlen. rewrite length_app, length_take, length_replicate. lia.
Qed.

Lemma resize_lookup ns n i l : resize ns n !! i = Some (Some l) → ns !! i = Some (Some l) ∧ Z.of_nat i < Z.max 0 n.
Proof.
  unfold resize. intros H. apply lookup_app_Some in H as [H|[_ H]].
  - apply lookup_take_Some in H as [H Hlt]. split; [done|lia].
  - apply lookup_replicate in H as [? _]. done.
Qed.

Lemma linked_lookup_resize h bs ns n j l k : linked h bs ns → resize ns n !! j = Some (Some l) →
  (k ≤ j)%nat → resize ns n !! (j - k)%nat = Some (walk h k l) ∧ is_Some (walk h k l).
Proof.
  intros Hl Hj Hk. apply resize_lookup in Hj as [Hj Hn].
  destruct (linked_walk h bs ns j l k Hl Hj Hk) as [H1 H2]. split; [|done].
  unfold resize. apply lookup_app_l_Some. rewrite lookup_take_Some. split; [done|lia].
Qed.

(** The loop writes the chain of [node] into the view from the top down, and
    stops at the first node the view already has: below it they agree. *)
Lemma setTip_loop_spec prev h bs old needed fuel ns l nd :
  heap_wf prev h → linked h bs old → h !! l = Some nd → 0 ≤ height nd - bs →
  (∀ j, (j ≤ Z.to_nat (height nd - bs))%nat → ∃ q qn, walk h j l = Some q ∧ h !! q = Some qn ∧ height qn = height nd - Z.of_nat j) →
  length ns = length (resize old needed) → (Z.to_nat (height nd - bs) < length ns)%nat →
  (∀ i, (i ≤ Z.to_nat (height nd - bs))%nat → ns !! i = resize old needed !! i) →
  (Z.to_nat (height nd - bs) < fuel)%nat →
  ∃ ns', setTip_loop fuel h bs ns (Some l) = Done ns' ∧ length ns' = length ns ∧
    (∀ i, (Z.to_nat (height nd - bs) < i)%nat → ns' !! i = ns !! i) ∧
    (∀ k, (k ≤ Z.to_nat (height nd - bs))%nat →
       ns' !! (Z.to_nat (height nd - bs) - k)%nat = Some (walk h k l)).
Proof.
  intros Hwf Hold. revert ns l nd. induction fuel as [|fuel IH]; intros ns l nd Hl Hpos Hwalk Hlen Hin Heq Hf; [lia|].
  cbn [setTip_loop]. rewrite (deref_Some _ _ _ Hl). cbn [mbind run_bind].
  destruct (Z.ltb_spec (height nd) bs); [lia|]. unfold index. rewrite decide_True by lia.
  set (j := Z.to_nat (height nd - bs)) in *.
  destruct (lookup_lt_is_Some_2 ns j Hin) as [cur Hcur]. rewrite Hcur. cbn [of_option mbind run_bind].
  destruct (decide (cur = Some l)) as [->|Hne].
  { exists ns. split; [done|]. split; [done|]. split; [done|]. intros k Hk.
    rewrite Heq by lia. rewrite Heq in Hcur by lia.
    by apply (linked_lookup_resize h bs old needed j l k). }
  unfold store. rewrite decide_True by (unfold zlen, j in *; lia). cbn [mbind run_bind]. fold j.
  destruct (decide (j = 0%nat)) as [Hj0|Hj0].
  { (* the lowest entry of the view: the parent, if any, is below the base *)
    exists (<[j := Some l]> ns). split.
    - destruct (parent nd) as [p|] eqn:Ep; [|by destruct fuel].
      destruct (Hwf l nd Hl) as (_ & _ & Hpar & _). destruct (Hpar p Ep) as (pn & Hp & Hph & _).
      destruct fuel; cbn [setTip_loop]; rewrite (deref_Some _ _ _ Hp); cbn [mbind run_bind];
        (destruct (Z.ltb_spec (height pn) bs); [done|lia]).
    - rewrite length_insert. split; [done|]. split; [intros i Hi; by rewrite list_lookup_insert_ne by lia|].
      intros k Hk. assert (k = 0%nat) as -> by lia. rewrite Nat.sub_0_r. cbn [walk]. by apply list_lookup_insert_eq. }
  destruct (Hwalk 1%nat) as (q & qn & Hq & Hqn & Hqh); [lia|].
  rewrite (walk_step _ _ _ _ Hl) in Hq. destruct (parent nd) as [p|] eqn:Ep; [|done].
  cbn in Hq. injection Hq as ->.
  assert (Z.to_nat (height qn - bs) = pred j) as Ej by lia.
  destruct (IH (<[j := Some l]> ns) q qn Hqn) as (ns' & E & Hl' & Hhi & Hlo); rewrite ?Ej in *.
  - lia.
  - intros i Hi. destruct (Hwalk (S i)) as (r & rn & Hr & Hrn & Hrh); [lia|].
    rewrite (walk_step _ _ _ _ Hl), Ep in Hr. exists r, rn. split_and!; [done..|lia].
  - by rewrite length_insert.
  - rewrite length_insert. lia.
  - intros i Hi. rewrite list_lookup_insert_ne by lia. apply Heq. lia.
  - lia.
  - exists ns'. split; [done|]. rewrite length_insert in Hl'. split; [done|]. split.
    + intros i Hi. rewrite Hhi by lia. by rewrite list_lookup_insert_ne by lia.
    + intros [|k] Hk.
      * rewrite Nat.sub_0_r, Hhi by lia. by apply list_lookup_insert_eq.
      * rewrite (walk_step _ _ _ _ Hl), Ep. cbn [mbind option_bind]. rewrite <-Hlo by lia. f_equal. lia.
Qed.

Lemma shows_ok prev h c t nd : heap_wf prev h → 0 ≤ base c ≤ height nd → h !! t = Some nd →
  shows h c t (height nd) → view_ok h c.
Proof.
  intros Hwf Hb Ht [Hlen Hsh]. pose proof (zlen_nonneg (nodes c)).
  assert (∀ i, (i < length (nodes c))%nat → ∃ k q qn, nodes c !! i = Some (Some q) ∧ walk h k t = Some q ∧
    h !! q = Some qn ∧ height qn = base c + Z.of_nat i ∧ Z.of_nat i = height nd - base c - Z.of_nat k) as Hall.
  { intros i Hi. unfold zlen in Hlen. set (k := Z.to_nat (height nd - base c - Z.of_nat i)).
    assert (Z.of_nat i = height nd - base c - Z.of_nat k) as Ei by lia.
    destruct (Hsh k) as [Hk [q Hq]]; [lia|]. exists k, q.
    assert (∃ qn, h !! q = Some qn ∧ height qn = height nd - Z.of_nat k) as (qn & Hqn & Hqh)
      by (by eapply walk_height).
    exists qn. split_and!; [|done..|lia|done]. rewrite <-Hq, <-Hk. f_equal. lia. }
  split; [lia|]. split; [|split].
  - apply Forall_lookup. intros i x Hi. destruct (Hall i) as (k & q & qn & Hq & _); [by eapply lookup_lt_Some|].
    rewrite Hi in Hq. injection Hq as ->. by eexists.
  - intros i l Hi. destruct (Hall i) as (k & q & qn & Hq & _ & Hqn & Hh & _); [by eapply lookup_lt_Some|].
    rewrite Hi in Hq. injection Hq as ->. eauto.
  - intros i l n Hi Hn. destruct (Hall (S i)) as (k & q & qn & Hq & Hw & Hqn & Hh & Hk); [by eapply lookup_lt_Some|].
    rewrite Hi in Hq. injection Hq as ->. rewrite Hn in Hqn. injection Hqn as ->.
    destruct (Hsh (S k)) as [Hsk [p Hp]]; [lia|]. rewrite walk_S_r, Hw in Hp. cbn in Hp.
    rewrite Hn in Hp. cbn in Hp. exists p. split; [done|].
    rewrite walk_S_r, Hw in Hsk. cbn in Hsk. rewrite Hn in Hsk. cbn in Hsk. rewrite Hp in Hsk.
    rewrite <-Hsk. f_equal. lia.
Qed.

Lemma setTip_shows prev h c t nd :
  heap_wf prev h → view_ok h c → h !! t = Some nd → base c ≤ height nd → height nd + 1 < 2 ^ 31 →
  is_Some (walk h (Z.to_nat (height nd - base c)) t) →
  ∃ c', setTip h c (Some t) = Done c' ∧ base c' = base c ∧ shows h c' t (height nd).
Proof.
  intros Hwf (Hb & Hsome & Hlk) Ht Hle Hmax Hwalk.
  unfold setTip. rewrite (deref_Some _ _ _ Ht). cbn [mbind run_bind].
  destruct (Z.ltb_spec (height nd) (base c)); [lia|]. rewrite swrap_small by zlia.
  set (needed := height nd - base c + 1).
  assert (length (resize (nodes c) needed) = Z.to_nat needed) as Elen.
  { pose proof (length_resize (nodes c) needed ltac:(lia)). unfold zlen in *. lia. }
  destruct (setTip_loop_spec prev h (base c) (nodes c) needed (Z.to_nat needed)
    (resize (nodes c) needed) t nd) as (ns' & -> & Hl & _ & Hlo); try done; try lia.
  { intros j Hj. destruct (walk_prefix h j (Z.to_nat (height nd - base c) - j) t) as [q Hq].
    { by replace (j + _)%nat with (Z.to_nat (height nd - base c)) by lia. }
    destruct (walk_height prev h j t nd q Hwf Ht Hq) as (qn & ? & ?). eauto. }
  cbn [mbind run_bind]. eexists. split; [done|]. split; [done|]. split; cbn [nodes base].
  - unfold zlen. rewrite Hl, Elen. lia.
  - intros k Hk. assert (ns' !! (Z.to_nat (height nd - base c) - k)%nat = Some (walk h k t)) as E by (apply Hlo; lia).
    replace (Z.to_nat (height nd - base c - Z.of_nat k)) with (Z.to_nat (height nd - base c) - k)%nat by lia.
    split; [done|]. apply (walk_prefix h k (Z.to_nat (height nd - base c) - k)).
    by replace (k + _)%nat with (Z.to_nat (height nd - base c)) by lia.
Qed.

(** [setTip] materialises exactly the chain of the new tip:
    from any consistent view, and although it stops at the first node the view
    already holds, the entries from the base of the window to the tip are the
    nodes reached from the tip by following parents, the new tip is the last
    entry, and the view stays consistent. *)
Theorem setTip_spec (prev : gmap hash_t hash_t) (h : heap) (c : chainView) (t : loc) (nd : blockNode) :
  heap_wf prev h → view_ok h c → h !! t = Some nd → base c ≤ height nd → height nd + 1 < 2 ^ 31 →
  is_Some (walk h (Z.to_nat (height nd - base c)) t) →
  ∃ c', setTip h c (Some t) = Done c' ∧ base c' = base c ∧ tip c' = Some t ∧
    zlen (nodes c') = height nd - base c + 1 ∧ view_ok h c' ∧
    ∀ k, Z.of_nat k ≤ height nd - base c →
      nodes c' !! Z.to_nat (height nd - base c - Z.of_nat k) = Some (walk h k t).
Proof.
  intros Hwf Hok Ht Hle Hmax Hw. pose proof Hok as (Hb & _).
  destruct (setTip_shows prev h c t nd Hwf Hok Ht Hle Hmax Hw) as (c' & E & Eb & Hsh).
  pose proof Hsh as [Hlen Hk]. rewrite Eb in *.
  exists c'. split; [done|]. split; [done|]. split.
  { unfold tip. rewrite last_lookup. destruct (Hk 0%nat) as [H0 _]; [lia|].
    replace (pred (length (nodes c'))) with (Z.to_nat (height nd - base c - Z.of_nat 0)) by (unfold zlen in Hlen; lia).
    by rewrite H0. }
  split; [done|]. split; [apply (shows_ok prev h c' t nd Hwf); [rewrite Eb; lia|done|done]|].
  intros k Hkk. by apply Hk.
Qed.

(** ** Membership and forks *)

Definition inView (h : heap) (c : chainView) (q : loc) : Prop :=
  ∃ qn, h !! q = Some qn ∧ nodeByHeight c (height qn) = Some q.

Lemma contains_spec h c q qn : h !! q = Some qn →
  contains h c q = Done (bool_decide (nodeByHeight c (height qn) = Some q)).
Proof. intros Hq. unfold contains. by rewrite (deref_Some _ _ _ Hq). Qed.

Lemma inView_height h c q qn : h !! q = Some qn → inView h c q →
  base c ≤ height qn < base c + zlen (nodes c).
Proof.
  intros Hq (qn' & Hq' & Hn). rewrite Hq in Hq'. injection Hq' as <-. unfold nodeByHeight in Hn.
  destruct (Z.ltb_spec (height qn) (base c)), (Z.leb_spec (base c + zlen (nodes c)) (height qn));
    cbn in Hn; first [done|lia].
Qed.

(** The first node of the chain of [l] that is in the view. *)
Definition fork_of (h : heap) (c : chainView) (l : loc) (r : option loc) : Prop :=
  match r with
  | Some f => inView h c f ∧ ∃ k, walk h k l = Some f ∧
      ∀ j q, (j < k)%nat → walk h j l = Some q → ¬ inView h c q
  | None => ∀ j q, walk h j l = Some q → ¬ inView h c q
  end.

Lemma fork_of_step h c l nd p r : h !! l = Some nd → parent nd = Some p → ¬ inView h c l →
  fork_of h c p r → fork_of h c l r.
Proof.
  intros Hl Hp Hn. destruct r as [f|]; cbn [fork_of].
  - intros (Hf & k & Hk & Hlt). split; [done|]. exists (S k). rewrite (walk_step _ _ _ _ Hl), Hp.
    split; [done|]. intros [|j] q Hj Hq; [by injection Hq as <-|].
    rewrite (walk_step _ _ _ _ Hl), Hp in Hq. apply (Hlt j); [lia|done].
  - intros H [|j] q Hq; [by injection Hq as <-|].
    rewrite (walk_step _ _ _ _ Hl), Hp in Hq. by apply (H j).
Qed.

Lemma findFork_loop_spec prev h c fuel l nd : heap_wf prev h → h !! l = Some nd →
  (Z.to_nat (height nd) < fuel)%nat →
  ∃ r, findFork_loop fuel h c (Some l) = Done r ∧ fork_of h c l r.
Proof.
  intros Hwf. revert l nd. induction fuel as [|fuel IH]; intros l nd Hl Hf; [lia|].
  cbn [findFork_loop]. rewrite (contains_spec _ _ _ _ Hl). cbn [mbind run_bind].
  case_bool_decide as Hin.
  { exists (Some l). split; [done|]. split; [by exists nd|]. exists 0%nat. split; [done|]. lia. }
  assert (¬ inView h c l) as Hnot.
  { intros (nd' & Hl' & Hn). rewrite Hl in Hl'. by injection Hl' as <-. }
  rewrite (deref_Some _ _ _ Hl). cbn [mbind run_bind].
  destruct (Hwf l nd Hl) as (Hr & _ & Hpar & _). destruct (parent nd) as [p|] eqn:Ep.
  - destruct (Hpar p eq_refl) as (pn & Hp & Hh & _). destruct (Hwf p pn Hp) as ((? & _) & _).
    destruct (IH p pn Hp) as (r & -> & Hrf); [lia|]. exists r. split; [done|]. by eapply fork_of_step.
  - exists None. split; [by destruct fuel|]. intros [|j] q Hq; [by injection Hq as <-|].
    by rewrite (walk_step _ _ _ _ Hl), Ep in Hq.
Qed.

Lemma walk_add h a b l : walk h (a + b) l = walk h a l ≫= walk h b.
Proof.
  revert l. induction a as [|a IH]; intros l; [done|]. cbn [Nat.add walk].
  destruct (h !! l) as [nd|]; [|done]. cbn. destruct (parent nd); [|done]. cbn. apply IH.
Qed.

Lemma fork_of_skip h c l k q r : walk h k l = Some q →
  (∀ j x, (j < k)%nat → walk h j l = Some x → ¬ inView h c x) → fork_of h c q r → fork_of h c l r.
Proof.
  intros Hq Hlt. destruct r as [f|]; cbn [fork_of].
  - intros (Hf & i & Hi & Hi'). split; [done|]. exists (k + i)%nat. rewrite walk_add, Hq. split; [done|].
    intros j x Hj Hx. destruct (decide (j < k)%nat); [by apply (Hlt j)|].
    replace j with (k + (j - k))%nat in Hx by lia. rewrite walk_add, Hq in Hx. apply (Hi' (j - k)%nat); [lia|done].
  - intros H j x Hx. destruct (decide (j < k)%nat); [by apply (Hlt j)|].
    replace j with (k + (j - k))%nat in Hx by lia. rewrite walk_add, Hq in Hx. by apply (H (j - k)%nat).
Qed.

(** [findFork] returns the fork point: the last block of the
    given node's chain that is in the view, or nil when no block of it is.  The
    jump to the view's height by [Ancestor] skips only blocks above the view. *)
Theorem findFork_spec (prev : gmap hash_t hash_t) (h : heap) (c : chainView) (l : loc) (nd : blockNode) :
  heap_wf prev h → full h → unique h → h !! l = Some nd →
  0 ≤ base c → base c + zlen (nodes c) ≤ 2 ^ 31 →
  ∃ r, findFork h c (Some l) = Done r ∧
    match r with
    | Some f => inView h c f ∧ ∃ k, walk h k l = Some f ∧
        ∀ j q, (j < k)%nat → walk h j l = Some q → ¬ inView h c q
    | None => ∀ j q, walk h j l = Some q → ¬ inView h c q
    end.
Proof.
  intros Hwf Hfull Huniq Hl Hb Hmax. change (∃ r, findFork h c (Some l) = Done r ∧ fork_of h c l r).
  unfold findFork. rewrite (deref_Some _ _ _ Hl). cbn [mbind run_bind].
  destruct (Hwf l nd Hl) as ((H0 & _) & _). pose proof (zlen_nonneg (nodes c)).
  assert (∀ q qn, h !! q = Some qn → viewHeight c < height qn → ¬ inView h c q) as Habove.
  { intros q qn Hq Hlt Hin. pose proof (inView_height _ _ _ _ Hq Hin) as Hh. unfold viewHeight in Hlt.
    destruct (Z.eqb_spec (zlen (nodes c)) 0); [lia|]. rewrite swrap_small in Hlt by zlia. lia. }
  destruct (Z.ltb_spec (viewHeight c) (height nd)) as [Hlt|Hle]; cbn [mbind run_bind].
  2: { apply (findFork_loop_spec prev h c _ l nd Hwf Hl). lia. }
  rewrite (Ancestor_walk prev h l nd _ Hwf Hfull Huniq Hl). cbn [mbind run_bind].
  destruct (Z.leb_spec 0 (viewHeight c)) as [Hv|Hv]; cbn [andb].
  2: { exists None. split; [done|]. intros j q Hq. destruct (walk_height prev h j l nd q Hwf Hl Hq) as (qn & Hqn & _).
       apply (Habove q qn Hqn). destruct (Hwf q qn Hqn) as ((? & _) & _). lia. }
  destruct (Z.leb_spec (viewHeight c) (height nd)); [|lia].
  destruct (walk_hash prev h (Z.to_nat (height nd - viewHeight c)) l nd Hwf Hfull Hl)
    as (q & qn & Hq & Hqn & Hqh & _); [lia|]. rewrite Hq.
  destruct (findFork_loop_spec prev h c (S (Z.to_nat (height nd))) q qn Hwf Hqn) as (r & -> & Hr); [lia|].
  exists r. split; [done|]. eapply fork_of_skip; [exact Hq| |done].
  intros j x Hj Hx. destruct (walk_height prev h j l nd x Hwf Hl Hx) as (xn & Hxn & Hxh).
  apply (Habove x xn Hxn). lia.
Qed.

(** ** Block locators *)

(** The heights a locator visits, by the loop's own arithmetic. *)
Fixpoint locSeq (fuel : nat) (g step n : Z) : list Z :=
  match fuel with
  | O => []
  | S fuel =>
      g :: if g =? 0 then []
           else locSeq fuel (Z.max 0 (g - step)) (if 10 <? n + 1 then step * 2 else step) (n + 1)
  end.

(** The same in closed form: the last eleven blocks, then exponentially spaced
    ones, then the genesis block. *)
Definition locatorHeights (hgt : Z) : list Z :=
  if hgt <=? 10 then (fun i => hgt - i) <$> seqZ 0 (hgt + 1)
  else ((fun i => hgt - i) <$> seqZ 0 11) ++
       ((fun j => hgt - 9 - 2 ^ j) <$> seqZ 1 (Z.log2 (hgt - 10))) ++ [0].

Lemma locSeq_spaced A f j : 1 ≤ A → 0 ≤ j ≤ Z.log2 A → Z.log2 A - j + 1 < Z.of_nat f →
  locSeq f (A + 1 - 2 ^ j) (2 ^ j) (10 + j) =
  ((fun i => A + 1 - 2 ^ i) <$> seqZ j (Z.log2 A - j + 1)) ++ [0].
Proof.
  intros HA. revert j. induction f as [|f IH]; intros j Hj Hf; [lia|]. cbn [locSeq].
  assert (2 ^ j ≤ A) as Hle.
  { destruct (Z.log2_spec A) as [H1 _]; [lia|]. etrans; [|exact H1]. apply Z.pow_le_mono_r; lia. }
  destruct (Z.eqb_spec (A + 1 - 2 ^ j) 0); [lia|]. destruct (Z.ltb_spec 10 (10 + j + 1)); [|lia].
  rewrite (seqZ_cons j) by lia. rewrite fmap_cons. cbn [app]. f_equal.
  replace (A + 1 - 2 ^ j - 2 ^ j) with (A + 1 - 2 ^ (j + 1)) by (rewrite Z.pow_add_r by lia; lia).
  replace (2 ^ j * 2) with (2 ^ (j + 1)) by (rewrite Z.pow_add_r by lia; lia).
  destruct (Z.eq_dec j (Z.log2 A)) as [E|E].
  - assert (A < 2 ^ (j + 1)). { rewrite E. apply (Z.log2_spec A). lia. }
    rewrite Z.max_l by lia. replace (Z.pred (Z.log2 A - j + 1)) with 0 by lia. cbn.
    destruct f as [|f]; [lia|]. done.
  - assert (2 ^ (j + 1) ≤ A).
    { destruct (Z.log2_spec A) as [H1 _]; [lia|]. etrans; [|exact H1]. apply Z.pow_le_mono_r; lia. }
    rewrite Z.max_r by lia. replace (10 + j + 1) with (10 + (j + 1)) by lia. rewrite IH by lia.
    do 3 f_equal; lia.
Qed.

Lemma locSeq_recent k f g n : 0 ≤ n → n + Z.of_nat k ≤ 10 → Z.of_nat k ≤ g →
  locSeq (k + f) g 1 n = ((fun i => g - i) <$> seqZ 0 (Z.of_nat k)) ++ locSeq f (g - Z.of_nat k) 1 (n + Z.of_nat k).
Proof.
  revert g n. induction k as [|k IH]; intros g n Hn Hk Hg.
  { cbn. by rewrite Z.sub_0_r, Z.add_0_r. }
  cbn [Nat.add locSeq]. destruct (Z.eqb_spec g 0); [lia|]. destruct (Z.ltb_spec 10 (n + 1)); [lia|].
  rewrite Z.max_r, IH by lia. rewrite (seqZ_cons 0 (Z.of_nat (S k))) by lia. rewrite fmap_cons, Z.sub_0_r. cbn [app]. f_equal. f_equal.
  - replace (Z.pred (Z.of_nat (S k))) with (Z.of_nat k) by lia.
    change (Z.succ 0) with (1 + 0). rewrite <-(fmap_add_seqZ 1 0 (Z.of_nat k)). rewrite <-list_fmap_compose. apply list_fmap_ext.
    intros i x _. cbn. lia.
  - f_equal; lia.
Qed.

Lemma locSeq_heights H : 0 ≤ H → locSeq (S (Z.to_nat H)) H 1 0 = locatorHeights H.
Proof.
  intros HH. unfold locatorHeights. destruct (Z.leb_spec H 10) as [Hle|Hgt].
  - replace (S (Z.to_nat H)) with (Z.to_nat H + 1)%nat by lia.
    rewrite locSeq_recent by lia. rewrite Z2Nat.id, Z.sub_diag by lia. cbn [locSeq Z.eqb].
    rewrite (seqZ_app 0 H 1), fmap_app by lia. f_equal.
    change (seqZ (0 + H) 1) with [0 + H]. cbn. by rewrite Z.sub_diag.
  - replace (S (Z.to_nat H)) with (10 + (Z.to_nat H - 9))%nat by lia.
    rewrite locSeq_recent by lia. change (Z.of_nat 10) with 10.
    assert (Z.log2 (H - 10) + 1 ≤ H - 10) as Hlog by (pose proof (Z.log2_lt_lin (H - 10)); lia).
    pose proof (locSeq_spaced (H - 10) (Z.to_nat H - 9) 0) as E.
    rewrite Z.pow_0_r, !Z.add_0_r, Z.sub_0_r in E. replace (H - 10 + 1 - 1) with (H - 10) in E by lia.
    rewrite Z.add_0_l, E; [|lia|split; [lia|apply Z.log2_nonneg]|lia].
    change 11 with (10 + 1). rewrite (seqZ_app 0 10 1), fmap_app, <-app_assoc by lia. f_equal.
    pose proof (Z.log2_nonneg (H - 10)).
    rewrite (seqZ_cons 0) by lia. rewrite fmap_cons, Z.pow_0_r.
    change (seqZ (0 + 10) 1) with [10]. rewrite fmap_cons. change (Z.succ 0) with 1.
    rewrite <-!app_comm_cons. f_equal; [lia|]. rewrite app_nil_l.
    replace (Z.pred (Z.log2 (H - 10) + 1)) with (Z.log2 (H - 10)) by lia. f_equal.
    apply list_fmap_ext. intros i x _. lia.
Qed.

Lemma view_lookup_walk h c l nd g : view_ok h c → base c = 0 → h !! l = Some nd → inView h c l →
  0 ≤ g ≤ height nd → index (nodes c) (g - 0) = Done (walk h (Z.to_nat (height nd - g)) l).
Proof.
  intros (_ & _ & Hlk) Hb Hl Hin Hg. pose proof (inView_height _ _ _ _ Hl Hin) as Hh.
  destruct Hin as (nd' & Hl' & Hn). rewrite Hl in Hl'. injection Hl' as <-.
  unfold nodeByHeight in Hn. rewrite Hb in *.
  destruct (Z.ltb_spec (height nd) 0), (Z.leb_spec (0 + zlen (nodes c)) (height nd)); cbn in Hn; try done; try lia.
  destruct (nodes c !! Z.to_nat (height nd - 0)) as [x|] eqn:E; [|done]. cbn in Hn. subst x.
  destruct (linked_walk h 0 (nodes c) _ l (Z.to_nat (height nd - g)) Hlk E) as [H1 _]; [lia|].
  unfold index. rewrite decide_True by lia.
  replace (Z.to_nat (g - 0)) with (Z.to_nat (height nd - 0) - Z.to_nat (height nd - g))%nat by lia.
  by rewrite H1.
Qed.

(** The hashes found at the given heights of the chain of [l]. *)
Definition hashesAt (prev : gmap hash_t hash_t) (nd : blockNode) (gs : list Z) (hs : list hash_t) : Prop :=
  Forall2 (fun g x => hashWalk prev (Z.to_nat (height nd - g)) (hash nd) = Some x) gs hs.

Lemma hashesAt_step prev nd qn gs hs : height qn ≤ height nd →
  hashWalk prev (Z.to_nat (height nd - height qn)) (hash nd) = Some (hash qn) →
  Forall (fun g => g ≤ height qn) gs → hashesAt prev qn gs hs → hashesAt prev nd gs hs.
Proof.
  intros Hle Hw Hall H. induction H as [|g x gs hs Hx _ IH]; [constructor|].
  apply Forall_cons in Hall as [Hg Hall]. constructor; [|by apply IH].
  replace (Z.to_nat (height nd - g)) with
    (Z.to_nat (height nd - height qn) + Z.to_nat (height qn - g))%nat by lia.
  by rewrite (hashWalk_add _ _ _ _ _ Hw).
Qed.

Lemma locSeq_le f g step n : 0 ≤ g → g = 0 ∨ 1 ≤ step → Forall (fun x => x ≤ g) (locSeq f g step n).
Proof.
  revert g step n. induction f as [|f IH]; intros g step n Hg Hs; cbn; constructor; [lia|].
  destruct (Z.eqb_spec g 0); [constructor|]. destruct Hs as [?|Hs]; [lia|].
  eapply Forall_impl; [apply IH; [lia|]|cbn; lia]. destruct (10 <? n + 1); lia.
Qed.

Lemma blockLocator_loop_spec prev h c fuel l nd step loc0 H :
  heap_wf prev h → full h → unique h → view_ok h c → base c = 0 →
  h !! l = Some nd → (Z.to_nat (height nd) < fuel)%nat → height nd ≤ H < 2 ^ 31 - 1 →
  (height nd = 0 ∨ 1 ≤ step ≤ H - height nd + 1) →
  ∃ hs, blockLocator_loop fuel h c (Some l) step loc0 = Done (loc0 ++ hs) ∧
    hashesAt prev nd (locSeq fuel (height nd) step (zlen loc0)) hs.
Proof.
  intros Hwf Hfull Huniq Hok Hb. revert l nd step loc0.
  induction fuel as [|fuel IH]; intros l nd step loc0 Hl Hf HH Hstep; [lia|].
  cbn [blockLocator_loop locSeq]. rewrite (deref_Some _ _ _ Hl). cbn [mbind run_bind].
  destruct (Hwf l nd Hl) as ((H0 & _) & _).
  assert (hashWalk prev (Z.to_nat (height nd - height nd)) (hash nd) = Some (hash nd)) as Hself.
  { by rewrite Z.sub_diag. }
  destruct (Z.eqb_spec (height nd) 0) as [E0|E0].
  { exists [hash nd]. split; [done|]. by repeat constructor. }
  destruct Hstep as [?|Hstep]; [lia|]. rewrite (swrap_small 32 (height nd - step)) by zlia.
  rewrite (contains_spec _ _ _ _ Hl). cbn [mbind run_bind].
  set (g := if height nd - step <? 0 then 0 else height nd - step).
  assert (g = Z.max 0 (height nd - step)) as Eg.
  { unfold g. destruct (Z.ltb_spec (height nd - step) 0); lia. }
  rewrite <-Eg. assert (0 ≤ g < height nd) as Hg by lia.
  destruct (walk_hash prev h (Z.to_nat (height nd - g)) l nd Hwf Hfull Hl) as (q & qn & Hq & Hqn & Hqh & Hqw); [lia|].
  assert ((if bool_decide (nodeByHeight c (height nd) = Some l)
           then if base c <=? g then index (nodes c) (g - base c) else Done None
           else Ancestor h l g) = Done (Some q)) as ->.
  { case_bool_decide as Hin.
    - rewrite Hb. destruct (Z.leb_spec 0 g); [|lia].
      rewrite (view_lookup_walk h c l nd g Hok Hb Hl); [by rewrite Hq|by exists nd|lia].
    - rewrite (Ancestor_walk prev h l nd g Hwf Hfull Huniq Hl).
      destruct (Z.leb_spec 0 g), (Z.leb_spec g (height nd)); try lia. cbn. by rewrite Hq. }
  cbn [mbind run_bind]. rewrite zlen_app. change (zlen [hash nd]) with 1.
  assert (height qn = g) as Eq by lia.
  set (step' := if 10 <? zlen loc0 + 1 then i32 (step * 2) else step).
  assert (g = 0 ∨ step' = (if 10 <? zlen loc0 + 1 then step * 2 else step) ∧ 1 ≤ step' ≤ H - g + 1) as Hs'.
  { destruct (Z.eq_dec g 0); [by left|right]. unfold step'.
    destruct (10 <? zlen loc0 + 1); [rewrite (swrap_small 32 (step * 2)) by zlia|]; lia. }
  destruct (IH q qn step' (loc0 ++ [hash nd]) Hqn) as (hs & Ehs & Hhs); [lia|lia|rewrite Eq; lia|].
  exists (hash nd :: hs). split; [rewrite Ehs; by rewrite <-app_assoc|].
  constructor; [done|]. rewrite zlen_app, Eq in Hhs. change (zlen [hash nd]) with 1 in Hhs.
  assert (locSeq fuel g step' (zlen loc0 + 1) =
          locSeq fuel g (if 10 <? zlen loc0 + 1 then step * 2 else step) (zlen loc0 + 1)) as <-.
  { destruct Hs' as [->|[-> _]]; [|done]. destruct fuel; done. }
  apply (hashesAt_step prev nd qn); [lia|by rewrite Eq| |done].
  rewrite Eq. apply locSeq_le; [lia|]. destruct Hs' as [?|[_ ?]]; [by left|right; lia].
Qed.

Lemma maxEntries_spec H : 0 ≤ H < 2 ^ 31 → maxEntries H = zlen (locatorHeights H).
Proof.
  intros HH. unfold maxEntries, locatorHeights, zlen.
  destruct (Z.leb_spec H 12) as [H12|H12].
  - assert (H ∈ seqZ 0 13) as Hin by (apply elem_of_seqZ; lia). clear HH H12. revert H Hin.
    apply Forall_forall. repeat constructor.
  - destruct (Z.leb_spec H 10); [lia|]. rewrite !length_app, !length_fmap, !length_seqZ.
    rewrite (uwrap_small 32 H), (uwrap_small 32) by zlia. rewrite fastLog2Floor_spec by zlia.
    assert (0 ≤ Z.log2 (H - 10) < 31) by (split; [apply Z.log2_nonneg|apply Z.log2_lt_pow2; lia]).
    rewrite uwrap_small by zlia. cbn [length]. lia.
Qed.

(** A block locator names the blocks at the heights of the
    documented schedule: the block and its ten predecessors, then blocks at
    distances that double, then the genesis block.  It has exactly the number of
    entries reserved for it by the integer logarithm, and is the same whether
    the blocks are found in the view or through [Ancestor]. *)
Theorem blockLocator_spec (prev : gmap hash_t hash_t) (h : heap) (c : chainView) (l : loc) (nd : blockNode) :
  heap_wf prev h → full h → unique h → view_ok h c → base c = 0 →
  h !! l = Some nd → height nd < 2 ^ 31 - 1 →
  ∃ hs, blockLocator h c (Some l) = Done hs ∧ zlen hs = maxEntries (height nd) ∧
    Forall2 (fun g x => hashWalk prev (Z.to_nat (height nd - g)) (hash nd) = Some x)
      (locatorHeights (height nd)) hs.
Proof.
  intros Hwf Hfull Huniq Hok Hb Hl Hmax. destruct (Hwf l nd Hl) as ((H0 & _) & _).
  unfold blockLocator. rewrite (deref_Some _ _ _ Hl). cbn [mbind run_bind].
  destruct (blockLocator_loop_spec prev h c (S (Z.to_nat (height nd))) l nd 1 [] (height nd))
    as (hs & -> & Hhs); try done; try lia.
  exists hs. split; [done|]. change (zlen []) with 0 in Hhs. rewrite locSeq_heights in Hhs by done.
  split; [|exact Hhs]. rewrite maxEntries_spec by lia. unfold zlen. by rewrite (Forall2_length _ _ _ Hhs).
Qed.

(** ** Moving the window *)

Lemma sever_lookup h l k nd : sever h l !! k = Some nd →
  ∃ nd0, h !! k = Some nd0 ∧ Header nd = Header nd0 ∧ hash nd = hash nd0 ∧ height nd = height nd0 ∧
    workSum nd = workSum nd0 ∧
    (parent nd = parent nd0 ∧ ancestor nd = ancestor nd0 ∨ k = l ∧ parent nd = None ∧ ancestor nd = None).
Proof.
  unfold sever. intros H. destruct (decide (k = l)) as [->|].
  - rewrite lookup_alter_eq in H. destruct (h !! l) as [nd0|]; [|done]. injection H as <-.
    exists nd0. split_and!; try done. right. done.
  - rewrite lookup_alter_ne in H by done. exists nd. split_and!; try done. by left.
Qed.

Lemma sever_lookup_Some h l k nd0 : h !! k = Some nd0 →
  ∃ nd, sever h l !! k = Some nd ∧ hash nd = hash nd0 ∧ height nd = height nd0.
Proof.
  unfold sever. intros H. destruct (decide (k = l)) as [->|].
  - rewrite lookup_alter_eq, H. by eexists.
  - rewrite lookup_alter_ne by done. by eexists.
Qed.

Lemma sever_wf prev h l : heap_wf prev h → heap_wf prev (sever h l).
Proof.
  intros Hwf k nd Hk. destruct (sever_lookup _ _ _ _ Hk) as (nd0 & Hk0 & Hhd & Hh & Hg & _ & Hlinks).
  destruct (Hwf k nd0 Hk0) as (Hr & Hp & H1 & H2).
  assert (∀ p g, link prev h nd0 p g → link prev (sever h l) nd p g) as Hlink.
  { intros p g (pn & Hpn & E1 & E2 & E3). destruct (sever_lookup_Some h l p pn Hpn) as (pn' & ? & Eh & Eg).
    exists pn'. rewrite Hh, Hg, Eh, Eg. done. }
  assert (parentHash nd = parentHash nd0) as Eph.
  { by apply (f_equal Wire.PrevBlock) in Hhd. }
  unfold node_wf. rewrite Hg, Hh, Eph. split_and!; [lia..|done| |].
  - intros p Ep. destruct Hlinks as [[E _]|(_ & E & _)]; [|congruence]. apply Hlink, H1. congruence.
  - intros a Ea. destruct Hlinks as [[_ E]|(_ & _ & E)]; [|congruence]. apply Hlink, H2. congruence.
Qed.

(** [pruneBelow] moves the window and nothing else: heights at or
    above the new boundary resolve to the same nodes as before and lower ones to
    nil, the view stays consistent, every node keeps its header, hash, height
    and work, the heap stays well formed, and only the node at the boundary
    loses its links. *)
Theorem pruneBelow_spec (prev : gmap hash_t hash_t) (h h' : heap) (c c' : chainView) (hgt : Z) :
  heap_wf prev h → view_ok h c → pruneBelow h c hgt = (h', c') →
  heap_wf prev h' ∧ view_ok h' c' ∧ base c' = Z.max (base c) hgt ∧
  (∀ g, nodeByHeight c' g = if hgt <=? g then nodeByHeight c g else
                            if base c <? hgt then None else nodeByHeight c g) ∧
  (∀ k nd, h' !! k = Some nd → ∃ nd0, h !! k = Some nd0 ∧ Header nd = Header nd0 ∧
     hash nd = hash nd0 ∧ height nd = height nd0 ∧ workSum nd = workSum nd0 ∧
     (parent nd = parent nd0 ∧ ancestor nd = ancestor nd0 ∨ height nd = hgt)).
Proof.
  intros Hwf (Hb & Hsome & Hlk) E. unfold pruneBelow in E.
  assert (∀ k nd, h !! k = Some nd → ∃ nd0, h !! k = Some nd0 ∧ Header nd = Header nd0 ∧
     hash nd = hash nd0 ∧ height nd = height nd0 ∧ workSum nd = workSum nd0 ∧
     (parent nd = parent nd0 ∧ ancestor nd = ancestor nd0 ∨ height nd = hgt)) as Hid.
  { intros k nd Hk. exists nd. auto 10. }
  destruct (Z.leb_spec hgt (base c)) as [Hle|Hgt].
  { injection E as <- <-. split_and!; try done; [lia|]. intros g.
    destruct (Z.ltb_spec (base c) hgt); [lia|]. by destruct (hgt <=? g). }
  destruct (Z.leb_spec (zlen (nodes c)) (hgt - base c)) as [Hlen|Hlen].
  { injection E as <- <-. split; [done|]. split; [|split; [cbn; lia|split; [|done]]].
    - split; [cbn; lia|]. split; [constructor|].
      split; [intros i l Hi|intros i l nd Hi]; done.
    - intros g. destruct (Z.ltb_spec (base c) hgt); [|lia]. unfold nodeByHeight; cbn [nodes base].
      rewrite Z.add_0_r. destruct (Z.leb_spec hgt g); [|by destruct (Z.ltb_spec g hgt); [|lia]].
      destruct (Z.ltb_spec g hgt); [lia|]. cbn.
      destruct (Z.leb_spec (base c + zlen (nodes c)) g); [by rewrite orb_true_r|lia]. }
  injection E as <- <-. cbn [nodes base].
  destruct (lookup_lt_is_Some_2 (nodes c) (Z.to_nat (hgt - base c))) as [x Hx]; [unfold zlen in *; lia|].
  rewrite Hx. assert (is_Some x) as [l ->] by (by eapply Forall_lookup in Hsome).
  destruct Hlk as [Hh Hl]. destruct (Hh _ _ Hx) as (nl & Hnl & Hnh).
  split; [by apply sever_wf|]. split; [|split; [cbn; lia|split]].
  - split; [cbn; lia|]. cbn [nodes base]. split; [by apply Forall_drop|]. split.
    + intros i k Hi. rewrite lookup_drop in Hi. destruct (Hh _ _ Hi) as (nd & Hk & Hhk).
      destruct (sever_lookup_Some h l k nd Hk) as (nd' & Hk' & _ & E). exists nd'. split; [done|].
      rewrite E, Hhk. lia.
    + intros i k nd Hi Hk. rewrite lookup_drop in Hi. destruct (sever_lookup _ _ _ _ Hk) as (nd0 & Hk0 & _ & _ & _ & _ & Hlinks).
      rewrite Nat.add_succ_r in Hi. destruct (Hl _ _ _ Hi Hk0) as (p & Hp & Hip). exists p.
      rewrite lookup_drop. split; [|done]. destruct Hlinks as [[-> _]|(-> & _)]; [done|].
      (* the severed node sits at the bottom of the new window *)
      destruct (Hh _ _ Hi) as (n2 & Hn2 & Hh2). rewrite Hnl in Hn2. injection Hn2 as <-. lia.
  - intros g. destruct (Z.ltb_spec (base c) hgt); [|lia]. unfold nodeByHeight; cbn [nodes base].
    assert (hgt + zlen (drop (Z.to_nat (hgt - base c)) (nodes c)) = base c + zlen (nodes c)) as ->.
    { unfold zlen in *. rewrite length_drop. lia. }
    destruct (Z.leb_spec hgt g); [|by destruct (Z.ltb_spec g hgt); [|lia]].
    destruct (Z.ltb_spec g hgt), (Z.ltb_spec g (base c)); try lia. cbn.
    destruct (base c + zlen (nodes c) <=? g); [done|]. rewrite lookup_drop. do 2 f_equal. lia.
  - intros k nd Hk. destruct (sever_lookup _ _ _ _ Hk) as (nd0 & Hk0 & H1 & H2 & H3 & H4 & Hlinks).
    exists nd0. split_and!; try done. destruct Hlinks as [?|(-> & _)]; [by left|right].
    rewrite Hnl in Hk0. injection Hk0 as <-. lia.
Qed.

(** ** The view of the concrete chain *)

Lemma emptyView_ok h : view_ok h emptyView.
Proof. split; [done|]. split; [constructor|]. split; done. Qed.

Definition toyView : chainView := {| nodes := (fun i => Some (toyLoc i)) <$> toyHeights; base := 0 |}.

Lemma toyView_ok : view_ok toyHeap toyView.
Proof.
  destruct (setTip_shows toyPrev toyHeap emptyView (toyLoc 7) (toyNode 7) toyHeap_wf (emptyView_ok _))
    as (c' & E & Eb & Hs); [vm_compute; reflexivity|vm_compute; discriminate|vm_compute; reflexivity|vm_compute; by eexists|].
  assert (setTip toyHeap emptyView (Some (toyLoc 7)) = Done toyView) as E' by (vm_compute; reflexivity).
  rewrite E' in E. injection E as <-.
  eapply (shows_ok toyPrev toyHeap toyView (toyLoc 7) (toyNode 7) toyHeap_wf); [split; discriminate|vm_compute; reflexivity|done].
Qed.

Lemma setTip_spec_witness :
  ∃ c', setTip toyHeap emptyView (Some (toyLoc 7)) = Done c' ∧ tip c' = Some (toyLoc 7) ∧ view_ok toyHeap c'.
Proof.
  destruct (setTip_spec toyPrev toyHeap emptyView (toyLoc 7) (toyNode 7) toyHeap_wf (emptyView_ok _))
    as (c' & H1 & _ & H2 & _ & H3 & _);
    [vm_compute; reflexivity|vm_compute; discriminate|vm_compute; reflexivity|vm_compute; eexists; reflexivity|].
  exists c'. split; [exact H1|]. split; [exact H2|exact H3].
Defined.

Lemma findFork_spec_witness :
  ∃ r, findFork toyHeap toyView (Some (toyLoc 5)) = Done r.
Proof.
  destruct (findFork_spec toyPrev toyHeap toyView (toyLoc 5) (toyNode 5) toyHeap_wf toyHeap_full toyHeap_unique)
    as (r & H & _); [vm_compute; reflexivity|discriminate|vm_compute; discriminate|].
  exists r. exact H.
Defined.

Lemma blockLocator_spec_witness :
  ∃ hs, blockLocator toyHeap toyView (Some (toyLoc 7)) = Done hs ∧ zlen hs = 8.
Proof.
  destruct (blockLocator_spec toyPrev toyHeap toyView (toyLoc 7) (toyNode 7) toyHeap_wf toyHeap_full
    toyHeap_unique toyView_ok eq_refl) as (hs & H1 & H2 & _); [vm_compute; reflexivity..|].
  exists hs. split; [exact H1|exact H2].
Defined.

Lemma pruneBelow_spec_witness :
  heap_wf toyPrev (pruneBelow toyHeap toyView 3).1 ∧ view_ok (pruneBelow toyHeap toyView 3).1 (pruneBelow toyHeap toyView 3).2.
Proof.
  destruct (pruneBelow_spec toyPrev toyHeap (pruneBelow toyHeap toyView 3).1 toyView (pruneBelow toyHeap toyView 3).2 3
    toyHeap_wf toyView_ok (surjective_pairing _)) as (H1 & H2 & _).
  split; [exact H1|exact H2].
Defined.

End ChainView.
