(* ===== verification/ChainIO.v ===== *)
(** * ChainIO: what the chain stores in the database

    Model of the part of [blockchain/chainio.go] that keeps the block index and
    the chain state: the two-way hash/height index, the block rows keyed by
    height and hash, and the records of the best block, best header and
    download tips.  A bucket is a finite map from keys to values; an operation
    on it does not fail by itself (errors of the storage engine are not
    modelled), reads of absent or corrupt values fail as in the code. *)

From S2P Require Import Prelude WorkMath ChainHash Wire BlockNode.
Import BlockNode.

Module ChainIO.

Abbreviation bucket := (gmap (list byte) (list byte)).

(** The metadata bucket and the three sub-buckets of the block index *)
Record database := {
  meta : bucket;
  hashIndexBucket : bucket;
  heightIndexBucket : bucket;
  blockIndexBucket : bucket;
}.

Definition emptyDB : database :=
  {| meta := ∅; hashIndexBucket := ∅; heightIndexBucket := ∅; blockIndexBucket := ∅ |}.

Definition set_hashIndex (b : bucket) (d : database) : database :=
  {| meta := meta d; hashIndexBucket := b; heightIndexBucket := heightIndexBucket d;
     blockIndexBucket := blockIndexBucket d |}.
Definition set_heightIndex (b : bucket) (d : database) : database :=
  {| meta := meta d; hashIndexBucket := hashIndexBucket d; heightIndexBucket := b;
     blockIndexBucket := blockIndexBucket d |}.
Definition set_blockIndex (b : bucket) (d : database) : database :=
  {| meta := meta d; hashIndexBucket := hashIndexBucket d;
     heightIndexBucket := heightIndexBucket d; blockIndexBucket := b |}.
Definition set_meta (b : bucket) (d : database) : database :=
  {| meta := b; hashIndexBucket := hashIndexBucket d;
     heightIndexBucket := heightIndexBucket d; blockIndexBucket := blockIndexBucket d |}.

Inductive dbError := errNotInMainChain | errRead (e : Wire.error) | ErrCorruption.

(** ** Hash and height index *)

Definition serializedHeight (hgt : Z) : list byte := le_bytes 4 (u32 hgt).

Definition dbPutBlockIndex (d : database) (hs : hash_t) (hgt : Z) : database :=
  let d := set_hashIndex (<[hs := serializedHeight hgt]> (hashIndexBucket d)) d in
  set_heightIndex (<[serializedHeight hgt := hs]> (heightIndexBucket d)) d.

Definition dbPutHashIndex (d : database) (hs : hash_t) (hgt : Z) : database :=
  set_hashIndex (<[hs := serializedHeight hgt]> (hashIndexBucket d)) d.

Definition dbPutHeightIndex (d : database) (hgt : Z) (hs : hash_t) : database :=
  set_heightIndex (<[serializedHeight hgt := hs]> (heightIndexBucket d)) d.

(** [copy(hash[:], hashBytes)] into a zeroed 32-byte hash *)
Definition toHash (bs : list byte) : hash_t := gocopy (replicate 32 (z2b 0)) bs.

Definition dbFetchHashByHeight (d : database) (hgt : Z) : hash_t + dbError :=
  match heightIndexBucket d !! serializedHeight hgt with
  | None => inr errNotInMainChain
  | Some hashBytes => inl (toHash hashBytes)
  end.

Definition dbPutHeightIndexGuarded (d : database) (hgt : Z) (hs : hash_t) (onChain : bool) : database :=
  if negb onChain then
    match dbFetchHashByHeight d hgt with
    | inl _ => d
    | inr _ => dbPutHeightIndex d hgt hs
    end
  else dbPutHeightIndex d hgt hs.

Definition dbRemoveHeightIndex (d : database) (hgt : Z) : database :=
  set_heightIndex (delete (serializedHeight hgt) (heightIndexBucket d)) d.

Definition dbRemoveBlockIndex (d : database) (hs : hash_t) (hgt : Z) : database :=
  let d := set_hashIndex (delete hs (hashIndexBucket d)) d in
  set_heightIndex (delete (serializedHeight hgt) (heightIndexBucket d)) d.

(** [byteOrder.Uint32(b)]: panics on fewer than four bytes. *)
Definition getUint32 (b : list byte) : run Z := w ← slice b 0 4; Done (le_val w).

Definition getUint64 (b : list byte) : run Z := w ← slice b 0 8; Done (le_val w).

Definition dbFetchHeightByHash (d : database) (hs : hash_t) : run (Z + dbError) :=
  match hashIndexBucket d !! hs with
  | None => Done (inr errNotInMainChain)
  | Some b => v ← getUint32 b; Done (inl (i32 v))
  end.

(** ** Block rows *)

Definition blockIndexKey (hs : hash_t) (hgt : Z) : list byte :=
  let indexKey := replicate 36 (z2b 0) in
  gocopy (take 4 indexKey) (be_bytes 4 hgt) ++ gocopy (drop 4 indexKey) hs.

Definition deserializeBlockRow (blockRow : list byte) : run ((Wire.BlockHeader * Z) + dbError) :=
  r ← Wire.readBlockHeader blockRow;
  match r with
  | (inr e, _) => Done (inr (errRead e))
  | (inl hd, buffer) =>
      match buffer with
      | statusByte :: _ => Done (inl (hd, b2z statusByte))
      | [] => Done (inr (errRead Wire.EOF))
      end
  end.

Definition dbStoreBlockNode (d : database) (node : blockNode) : run database :=
  r ← Wire.writeBlockHeader (Header node) Wire.unbounded;
  let value := Wire.sent r.2 ++ [z2b (status node)] in
  let key := blockIndexKey (hash node) (u32 (height node)) in
  Done (set_blockIndex (<[key := value]> (blockIndexBucket d)) d).

Definition dbRemoveBlockNode (d : database) (hs : hash_t) (hgt : Z) : database :=
  set_blockIndex (delete (blockIndexKey hs (u32 hgt)) (blockIndexBucket d)) d.

(** [inl None] is the nil header returned without an error. *)
Definition dbFetchBlockRowByHash (d : database) (hs : hash_t) :
    run (option (Wire.BlockHeader * Z * Z) + dbError) :=
  h ← dbFetchHeightByHash d hs;
  match h with
  | inr e => Done (inr e)
  | inl hgt =>
      match blockIndexBucket d !! blockIndexKey hs (u32 hgt) with
      | None => Done (inl None)
      | Some row =>
          r ← deserializeBlockRow row;
          match r with
          | inr e => Done (inr e)
          | inl (hd, st) => Done (inl (Some (hd, st, hgt)))
          end
      end
  end.

Definition dbFetchBlockRowByHeight (d : database) (hgt : Z) :
    run (option (Wire.BlockHeader * Z * Z) + dbError) :=
  match dbFetchHashByHeight d hgt with
  | inr e => Done (inr e)
  | inl hs => dbFetchBlockRowByHash d hs
  end.

(** ** Chain state records *)

Record bestChainState := { bs_hash : hash_t; bs_height : Z; totalTxns : Z; bs_workSum : Z }.

(** [big.Int.Bytes]: the big-endian bytes without leading zeros *)
Definition bigBytes (n : Z) : list byte := be_bytes (Z.to_nat (WorkMath.bytesLen n)) n.

Definition serializeBestChainState (state : bestChainState) : list byte :=
  let workSumBytes := bigBytes (bs_workSum state) in
  let workSumBytesLen := u32 (zlen workSumBytes) in
  let serializedData := replicate (Z.to_nat (u32 (48 + workSumBytesLen))) (z2b 0) in
  let put off bs (data : list byte) := take off data ++ gocopy (drop off data) bs in
  put 48%nat workSumBytes
    (put 44%nat (le_bytes 4 workSumBytesLen)
      (put 36%nat (le_bytes 8 (totalTxns state))
        (put 32%nat (le_bytes 4 (bs_height state))
          (gocopy (take 32 serializedData) (bs_hash state) ++ drop 32 serializedData)))).

Definition deserializeBestChainState (serializedData : list byte) : run (bestChainState + dbError) :=
  if zlen serializedData <? 32 + 16 then Done (inr ErrCorruption) else
  hs ← slice serializedData 0 32;
  hgt ← slice serializedData 32 36; hgt ← getUint32 hgt;
  txns ← slice serializedData 36 44; txns ← getUint64 txns;
  wl ← slice serializedData 44 48; workSumBytesLen ← getUint32 wl;
  rest ← slice serializedData 48 (zlen serializedData);
  if u32 (zlen rest) <? workSumBytesLen then Done (inr ErrCorruption) else
  workSumBytes ← slice serializedData 48 (u32 (48 + workSumBytesLen));
  Done (inl {| bs_hash := toHash hs; bs_height := hgt; totalTxns := txns;
               bs_workSum := be_val workSumBytes |}).

(** [bestHeaderState] and [bestBlockDownloadState] are both a hash and a height. *)
Record tipState := { ts_hash : hash_t; ts_height : Z }.

Definition serializeBestHeaderState (state : tipState) : list byte :=
  let serializedData := replicate 36 (z2b 0) in
  gocopy (take 32 serializedData) (ts_hash state) ++
  gocopy (drop 32 serializedData) (le_bytes 4 (ts_height state)).

Definition deserializeBestHeaderState (serializedData : list byte) : run (tipState + dbError) :=
  if zlen serializedData <? 32 + 4 then Done (inr ErrCorruption) else
  hs ← slice serializedData 0 32;
  rest ← slice serializedData 32 (zlen serializedData);
  hgt ← getUint32 rest;
  Done (inl {| ts_hash := toHash hs; ts_height := hgt |}).

Definition serializeBestBlockDownloadState := serializeBestHeaderState.
Definition deserializeBestBlockDownloadState := deserializeBestHeaderState.

Definition chainStateKeyName : list byte := gostring "chainstate".
Definition bestHeaderStateKeyName : list byte := gostring "headerchainstate".
Definition blockDownloadStateKeyName : list byte := gostring "blockdownloadstate".

Definition dbPutBestState (d : database) (hs : hash_t) (hgt txns work : Z) : database :=
  set_meta (<[chainStateKeyName :=
    serializeBestChainState {| bs_hash := hs; bs_height := u32 hgt; totalTxns := txns; bs_workSum := work |}]>
    (meta d)) d.

Definition dbPutBestHeaderState (d : database) (hs : hash_t) (hgt : Z) : database :=
  set_meta (<[bestHeaderStateKeyName :=
    serializeBestHeaderState {| ts_hash := hs; ts_height := u32 hgt |}]> (meta d)) d.

Definition dbFetchBestHeaderState (d : database) : run (option tipState + dbError) :=
  match meta d !! bestHeaderStateKeyName with
  | None => Done (inl None)
  | Some b =>
      r ← deserializeBestHeaderState b;
      match r with inl s => Done (inl (Some s)) | inr e => Done (inr e) end
  end.

Definition dbPutBestBlockDownloadState (d : database) (hs : hash_t) (hgt : Z) : database :=
  set_meta (<[blockDownloadStateKeyName :=
    serializeBestBlockDownloadState {| ts_hash := hs; ts_height := u32 hgt |}]> (meta d)) d.

Definition dbFetchBestBlockDownloadState (d : database) : run (option tipState + dbError) :=
  match meta d !! blockDownloadStateKeyName with
  | None => Done (inl None)
  | Some b =>
      r ← deserializeBestBlockDownloadState b;
      match r with inl s => Done (inl (Some s)) | inr e => Done (inr e) end
  end.

(** ** Lemmas *)

Lemma gocopy_full {A} (dst src : list A) : length dst = length src → gocopy dst src = src.
Proof.
  intros H. rewrite <-(app_nil_r dst) at 1. rewrite gocopy_app by done. apply app_nil_r.
Qed.

Lemma toHash_id hs : length hs = 32%nat → toHash hs = hs.
Proof. intros H. unfold toHash. by apply gocopy_full. Qed.

Lemma blockIndexKey_app hs hgt : length hs = 32%nat → blockIndexKey hs hgt = be_bytes 4 hgt ++ hs.
Proof.
  intros H. unfold blockIndexKey. rewrite !gocopy_full; [done|by rewrite H|].
  unfold be_bytes. by rewrite length_reverse, length_le_bytes.
Qed.

Lemma blockIndexKey_inj hs hs' g g' : length hs = 32%nat → length hs' = 32%nat →
  blockIndexKey hs g = blockIndexKey hs' g' → hs = hs'.
Proof.
  intros H H'. rewrite !blockIndexKey_app by done. intros E. apply app_inj_1 in E; [by destruct E|].
  unfold be_bytes. by rewrite !length_reverse, !length_le_bytes.
Qed.

Lemma slice_app {A} (pre mid post : list A) lo hi :
  lo = zlen pre → hi = zlen pre + zlen mid → slice (pre ++ mid ++ post) lo hi = Done mid.
Proof.
  intros -> ->. unfold slice. pose proof (zlen_nonneg pre). pose proof (zlen_nonneg mid).
  pose proof (zlen_nonneg post). rewrite decide_True by (rewrite !zlen_app; lia). f_equal.
  unfold zlen. rewrite Nat2Z.id, drop_app_length. rewrite take_app_length'; [done|lia].
Qed.

Lemma slice_head {A} (mid post : list A) hi : hi = zlen mid → slice (mid ++ post) 0 hi = Done mid.
Proof. intros ->. by apply (slice_app []). Qed.

Lemma slice_tail {A} (pre mid : list A) lo hi :
  lo = zlen pre → hi = zlen pre + zlen mid → slice (pre ++ mid) lo hi = Done mid.
Proof. intros. rewrite <-(app_nil_r mid) at 1. by apply slice_app. Qed.

Lemma getUint32_le v rest : 0 ≤ v < 2 ^ 32 → getUint32 (le_bytes 4 v ++ rest) = Done v.
Proof.
  intros Hv. unfold getUint32. rewrite <-(app_nil_l (le_bytes 4 v ++ rest)).
  rewrite slice_app; [|done|by rewrite Wire.zlen_le_bytes]. cbn [mbind run_bind].
  by rewrite Wire.le4_val.
Qed.

Lemma getUint32_le' v : 0 ≤ v < 2 ^ 32 → getUint32 (le_bytes 4 v) = Done v.
Proof. intros. rewrite <-(app_nil_r (le_bytes 4 v)). by apply getUint32_le. Qed.

Lemma getUint64_le v : 0 ≤ v < 2 ^ 64 → getUint64 (le_bytes 8 v) = Done v.
Proof.
  intros Hv. unfold getUint64. rewrite <-(app_nil_r (le_bytes 8 v)), <-(app_nil_l (le_bytes 8 v ++ [])).
  rewrite slice_app; [|done|by rewrite Wire.zlen_le_bytes]. cbn [mbind run_bind].
  by rewrite Wire.le8_val.
Qed.

(** The node has the field widths of the Go struct. *)
Definition node_widths (nd : blockNode) : Prop :=
  Wire.header_wf (Header nd) ∧ length (hash nd) = 32%nat ∧ 0 ≤ height nd < 2 ^ 31 ∧ 0 ≤ status nd < 256.

(** Writing a dirty node: its row and its hash index entry, as [flushDirtyLocked]
    does for each node. *)
Definition storeNode (d : database) (nd : blockNode) : run database :=
  d ← dbStoreBlockNode d nd; Done (dbPutHashIndex d (hash nd) (height nd)).

Definition rowOf (nd : blockNode) : list byte := Wire.header_bytes (Header nd) ++ [z2b (status nd)].

Lemma storeNode_eq d nd : storeNode d nd = Done
  (set_hashIndex (<[hash nd := serializedHeight (height nd)]> (hashIndexBucket d))
    (set_blockIndex (<[blockIndexKey (hash nd) (u32 (height nd)) := rowOf nd]> (blockIndexBucket d)) d)).
Proof. unfold storeNode, dbStoreBlockNode. by rewrite Wire.emits_header. Qed.

Lemma deserializeBlockRow_of nd : node_widths nd →
  deserializeBlockRow (rowOf nd) = Done (inl (Header nd, status nd)).
Proof.
  intros (Hh & _ & _ & Hs). unfold deserializeBlockRow, rowOf. rewrite Wire.parses_header by done.
  cbn [mbind run_bind]. by rewrite b2z_z2b_small by lia.
Qed.

Lemma i32_of_height g : 0 ≤ g < 2 ^ 31 → u32 g = g ∧ i32 g = g.
Proof. intros. split; [apply uwrap_small; zlia|apply swrap_small; zlia]. Qed.

Lemma fetch_stored d d' nd : node_widths nd → storeNode d nd = Done d' →
  dbFetchBlockRowByHash d' (hash nd) = Done (inl (Some (Header nd, status nd, height nd))).
Proof.
  intros Hw. rewrite storeNode_eq. intros [= <-]. pose proof Hw as (_ & _ & Hg & _).
  destruct (i32_of_height (height nd) Hg) as [Eu Ei].
  unfold dbFetchBlockRowByHash, dbFetchHeightByHash, serializedHeight. cbn [hashIndexBucket set_hashIndex].
  rewrite lookup_insert_eq, Eu, getUint32_le' by zlia. cbn [mbind run_bind]. rewrite Ei, Eu.
  cbn [blockIndexBucket set_hashIndex set_blockIndex]. rewrite lookup_insert_eq, deserializeBlockRow_of by done.
  done.
Qed.

Lemma fetch_other d d' nd hs : length (hash nd) = 32%nat → length hs = 32%nat → hs ≠ hash nd →
  storeNode d nd = Done d' → dbFetchBlockRowByHash d' hs = dbFetchBlockRowByHash d hs.
Proof.
  intros H1 H2 Hne. rewrite storeNode_eq. intros [= <-].
  unfold dbFetchBlockRowByHash, dbFetchHeightByHash. cbn [hashIndexBucket set_hashIndex set_blockIndex].
  rewrite lookup_insert_ne by done. destruct (hashIndexBucket d !! hs) as [b|]; [|done].
  destruct (getUint32 b) as [v| |]; [|done..]. cbn [mbind run_bind].
  cbn [blockIndexBucket set_hashIndex set_blockIndex].
  rewrite lookup_insert_ne; [done|]. intros E. apply Hne. symmetry. by eapply blockIndexKey_inj.
Qed.

(** A block node written by a flush (its row and its hash index
    entry) is found again by hash with its header, status and height, and every
    other hash resolves exactly as before. *)
Theorem blockRow_roundtrip (d : database) (nd : blockNode) :
  node_widths nd →
  ∃ d1 d2, dbStoreBlockNode d nd = Done d1 ∧ d2 = dbPutHashIndex d1 (hash nd) (height nd) ∧
    dbFetchBlockRowByHash d2 (hash nd) = Done (inl (Some (Header nd, status nd, height nd))) ∧
    ∀ hs, length hs = 32%nat → hs ≠ hash nd →
      dbFetchBlockRowByHash d2 hs = dbFetchBlockRowByHash d hs.
Proof.
  intros Hw. pose proof Hw as (_ & Hl & _).
  destruct (dbStoreBlockNode d nd) as [d1| |] eqn:E.
  2-3: unfold dbStoreBlockNode in E; by rewrite Wire.emits_header in E.
  assert (storeNode d nd = Done (dbPutHashIndex d1 (hash nd) (height nd))) as Es by (unfold storeNode; by rewrite E).
  eexists _, _. split; [done|]. split; [done|]. split; [by eapply fetch_stored|].
  intros hs Hhs Hne. by eapply fetch_other.
Qed.

(** The guarded write protects the height index from pollution: a
    node that is not on the connected chain never displaces the owner of a
    height, it only claims free heights; a connected node always becomes the
    owner; no other height changes. *)
Theorem heightIndex_guarded (d : database) (hgt g : Z) (hs : hash_t) (onChain : bool) :
  0 ≤ hgt < 2 ^ 31 → 0 ≤ g < 2 ^ 31 → length hs = 32%nat →
  dbFetchHashByHeight (dbPutHeightIndexGuarded d hgt hs onChain) g =
  if decide (g = hgt) then
    match onChain, dbFetchHashByHeight d hgt with
    | false, inl owner => inl owner
    | _, _ => inl hs
    end
  else dbFetchHashByHeight d g.
Proof.
  intros Hh Hg Hl. destruct (i32_of_height hgt Hh) as [Eu _], (i32_of_height g Hg) as [Eu' _].
  assert (dbFetchHashByHeight (dbPutHeightIndex d hgt hs) g =
    if decide (g = hgt) then inl hs else dbFetchHashByHeight d g) as Hput.
  { unfold dbFetchHashByHeight, dbPutHeightIndex, serializedHeight; cbn [heightIndexBucket set_heightIndex].
    rewrite Eu, Eu'. destruct (decide (g = hgt)) as [->|Hne].
    - by rewrite lookup_insert_eq, toHash_id.
    - rewrite lookup_insert_ne; [done|]. intros E. apply Hne.
      rewrite <-(Wire.le4_val g), <-(Wire.le4_val hgt) by zlia. by rewrite E. }
  unfold dbPutHeightIndexGuarded. destruct onChain; cbn [negb]; [done|].
  destruct (dbFetchHashByHeight d hgt) as [owner|e] eqn:E; [|done].
  destruct (decide (g = hgt)) as [->|]; [done|done].
Qed.

Lemma put_app (pre mid post bs : list byte) off : length pre = off → length mid = length bs →
  take off (pre ++ mid ++ post) ++ gocopy (drop off (pre ++ mid ++ post)) bs = pre ++ bs ++ post.
Proof.
  intros <- H. rewrite take_app_length, drop_app_length, gocopy_app by done. done.
Qed.

Lemma bigBytes_val n : 0 ≤ n → be_val (bigBytes n) = n.
Proof.
  intros Hn. unfold bigBytes. rewrite be_val_bytes. destruct (Z.eq_dec n 0) as [->|]; [done|].
  destruct (WorkMath.bytesLen_bounds n) as [[_ H] H1]; [lia|]. rewrite Z2Nat.id by lia.
  apply Z.mod_small. lia.
Qed.

Lemma zlen_bigBytes n : 0 ≤ n < 2 ^ 512 → zlen (bigBytes n) ≤ 64.
Proof.
  intros Hn. unfold bigBytes, be_bytes, zlen. rewrite length_reverse, length_le_bytes.
  destruct (Z.eq_dec n 0) as [->|]; [done|]. unfold WorkMath.bytesLen.
  destruct (Z.eqb_spec n 0); [lia|]. rewrite Z.abs_eq by lia.
  assert (Z.log2 n < 512) by (apply Z.log2_lt_pow2; lia). pose proof (Z.log2_nonneg n). zdm.
Qed.

Lemma serializeBestChainState_app st :
  length (bs_hash st) = 32%nat → 0 ≤ bs_workSum st < 2 ^ 512 →
  serializeBestChainState st =
  bs_hash st ++ le_bytes 4 (bs_height st) ++ le_bytes 8 (totalTxns st) ++
  le_bytes 4 (zlen (bigBytes (bs_workSum st))) ++ bigBytes (bs_workSum st).
Proof.
  intros Hh Hw. unfold serializeBestChainState. pose proof (zlen_bigBytes _ Hw).
  set (wb := bigBytes (bs_workSum st)) in *. pose proof (zlen_nonneg wb).
  rewrite (uwrap_small 32 (zlen wb)), (uwrap_small 32) by zlia.
  replace (Z.to_nat (48 + zlen wb)) with (32 + (4 + (8 + (4 + length wb))))%nat by (unfold zlen in *; lia).
  rewrite !replicate_add. set (z := z2b 0).
  rewrite (take_app_length' (replicate 32 z)), (drop_app_length' (replicate 32 z)) by done.
  rewrite (gocopy_full (replicate 32 z)) by (by rewrite length_replicate).
  rewrite (put_app (bs_hash st)) by (by rewrite ?length_replicate, ?length_le_bytes).
  rewrite (app_assoc (bs_hash st)).
  rewrite (put_app (bs_hash st ++ _)) by (by rewrite ?length_app, ?length_replicate, ?length_le_bytes, ?Hh).
  rewrite (app_assoc (bs_hash st ++ _)).
  rewrite (put_app ((bs_hash st ++ _) ++ _)) by (by rewrite ?length_app, ?length_replicate, ?length_le_bytes, ?Hh).
  rewrite (app_assoc ((bs_hash st ++ _) ++ _)). rewrite <-(app_nil_r (replicate (length wb) z)).
  rewrite (put_app (((bs_hash st ++ _) ++ _) ++ _)) by (by rewrite ?length_app, ?length_replicate, ?length_le_bytes, ?Hh).
  by rewrite <-!app_assoc, app_nil_r.
Qed.

(** The best-chain record and the header-tip record decode to
    what was encoded, the work sum at its full precision. *)
Theorem chainState_roundtrip (st : bestChainState) (t : tipState) :
  length (bs_hash st) = 32%nat → 0 ≤ bs_height st < 2 ^ 32 → 0 ≤ totalTxns st < 2 ^ 64 →
  0 ≤ bs_workSum st < 2 ^ 512 →
  length (ts_hash t) = 32%nat → 0 ≤ ts_height t < 2 ^ 32 →
  deserializeBestChainState (serializeBestChainState st) = Done (inl st) ∧
  deserializeBestHeaderState (serializeBestHeaderState t) = Done (inl t).
Proof.
  intros Hh Hg Ht Hw Hh' Hg'. split.
  - rewrite serializeBestChainState_app by done. pose proof (zlen_bigBytes _ Hw).
    pose proof (bigBytes_val (bs_workSum st) ltac:(lia)) as Ew.
    set (wb := bigBytes (bs_workSum st)) in *. pose proof (zlen_nonneg wb).
    unfold deserializeBestChainState. assert (zlen (bs_hash st) = 32) as Hz by (unfold zlen; lia).
    rewrite !zlen_app, !Wire.zlen_le_bytes, Hz.
    rewrite (slice_head (bs_hash st)) by done. cbn [mbind run_bind].
    rewrite (slice_app (bs_hash st) (le_bytes 4 (bs_height st)) _ 32 36) by (rewrite ?Wire.zlen_le_bytes, ?Hz; lia). cbn [mbind run_bind].
    rewrite getUint32_le' by done. cbn [mbind run_bind].
    rewrite (app_assoc (bs_hash st)).
    rewrite (slice_app (bs_hash st ++ _) (le_bytes 8 (totalTxns st)) _ 36 44) by (rewrite ?zlen_app, ?Wire.zlen_le_bytes, ?Hz; lia). cbn [mbind run_bind].
    rewrite getUint64_le by done. cbn [mbind run_bind].
    rewrite (app_assoc (bs_hash st ++ _)).
    rewrite (slice_app ((bs_hash st ++ _) ++ _) (le_bytes 4 (zlen wb)) _ 44 48) by (rewrite ?zlen_app, ?Wire.zlen_le_bytes, ?Hz; lia). cbn [mbind run_bind].
    rewrite getUint32_le' by zlia. cbn [mbind run_bind].
    rewrite (app_assoc ((bs_hash st ++ _) ++ _)).
    set (pre := ((bs_hash st ++ _) ++ _) ++ _).
    assert (zlen pre = 48) as Ep by (unfold pre; by rewrite ?zlen_app, ?Wire.zlen_le_bytes, ?Hz).
    rewrite (uwrap_small 32 (48 + zlen wb)) by zlia.
    rewrite !(slice_tail pre wb) by (rewrite ?Ep; lia). cbn [mbind run_bind].
    rewrite (uwrap_small 32 (zlen wb)) by zlia. destruct (Z.ltb_spec (zlen wb) (zlen wb)); [lia|].
    rewrite ?(slice_tail pre wb) by (rewrite ?Ep; lia). cbn [mbind run_bind].
    rewrite toHash_id, Ew by done.
    destruct (Z.ltb_spec (32 + (Z.of_nat 4 + (Z.of_nat 8 + (Z.of_nat 4 + zlen wb)))) (32 + 16)); [lia|].
    by destruct st.
  - unfold serializeBestHeaderState, deserializeBestHeaderState.
    rewrite !gocopy_full by (by rewrite ?Hh', ?length_le_bytes). cbn [take drop replicate].
    assert (zlen (ts_hash t) = 32) as Hz by (unfold zlen; lia).
    rewrite zlen_app, Wire.zlen_le_bytes, Hz. cbn [Z.ltb].
    change (32 + Z.of_nat 4 <? 32 + 4) with false. cbv iota.
    rewrite (slice_head (ts_hash t)) by done. cbn [mbind run_bind].
    rewrite (slice_tail (ts_hash t) (le_bytes 4 (ts_height t))) by (rewrite ?Wire.zlen_le_bytes, ?Hz; lia). cbn [mbind run_bind].
    rewrite getUint32_le' by done. cbn [mbind run_bind]. rewrite toHash_id by done. by destruct t.
Qed.

(** ** Witnesses *)

Lemma toyNode_widths : node_widths (toyNode 3).
Proof. repeat split; vm_compute; congruence. Qed.

Lemma blockRow_roundtrip_witness : node_widths (toyNode 3) ∧
  ∃ d1 d2, dbStoreBlockNode emptyDB (toyNode 3) = Done d1 ∧ d2 = dbPutHashIndex d1 (toyHash 3) 3 ∧
    dbFetchBlockRowByHash d2 (toyHash 3) = Done (inl (Some (Header (toyNode 3), 0, 3))).
Proof.
  split; [exact toyNode_widths|].
  destruct (blockRow_roundtrip emptyDB (toyNode 3) toyNode_widths) as (d1 & d2 & H1 & H2 & H3 & _).
  exists d1, d2. split; [exact H1|]. split; [exact H2|exact H3].
Defined.

Lemma heightIndex_guarded_witness :
  dbFetchHashByHeight (dbPutHeightIndexGuarded (dbPutHeightIndex emptyDB 7 (toyHash 7)) 7 (toyHash 1) false) 7 =
  inl (toyHash 7).
Proof.
  rewrite (heightIndex_guarded (dbPutHeightIndex emptyDB 7 (toyHash 7)) 7 7 (toyHash 1) false);
    [vm_compute; reflexivity|lia|lia|reflexivity].
Defined.

Definition sampleState : bestChainState :=
  {| bs_hash := toyHash 5; bs_height := 5; totalTxns := 9; bs_workSum := 0x123456789abcdef0 |}.
Definition sampleTip : tipState := {| ts_hash := toyHash 5; ts_height := 5 |}.

Lemma chainState_roundtrip_witness :
  deserializeBestChainState (serializeBestChainState sampleState) = Done (inl sampleState) ∧
  deserializeBestHeaderState (serializeBestHeaderState sampleTip) = Done (inl sampleTip).
Proof.
  apply (chainState_roundtrip sampleState sampleTip);
    [reflexivity|split; [discriminate|reflexivity]|split; [discriminate|reflexivity]
    |split; [discriminate|reflexivity]|reflexivity|split; [discriminate|reflexivity]].
Defined.

End ChainIO.
