(* ===== verification/ColdRead.v ===== *)
(** * ColdRead: blocks outside the in-memory header window

    Model of [blockchain/coldread.go]: the cache of nodes rebuilt from the
    database, their materialisation, the lookups by height, and the repair of
    the parent links that moving the window severed.  [BlockChain] is the part of
    the struct these operations use: the heap of nodes, the index map, the cold
    cache, the best chain view, the database and the window size.  Every
    operation runs under the locks its comment requires, so it is one step. *)

From S2P Require Import Prelude WorkMath ChainHash Wire BlockNode ChainView ChainIO.
Import BlockNode ChainIO.

Module ColdRead.

Definition coldCacheSize : Z := 64.

(** ** The cache *)

Record coldNodeCache := { order : list hash_t; cached : gmap hash_t loc }.

Definition newColdNodeCache : coldNodeCache := {| order := []; cached := ∅ |}.

Definition get (c : coldNodeCache) (hs : hash_t) : option loc := cached c !! hs.

Definition put (h : heap) (c : coldNodeCache) (node : loc) : run coldNodeCache :=
  nd ← deref h node;
  match cached c !! hash nd with
  | Some _ => Done c
  | None =>
      let nodes := <[hash nd := node]> (cached c) in
      let ord := order c ++ [hash nd] in
      if coldCacheSize <? zlen ord then
        evicted ← index ord 0;
        Done {| order := drop 1 ord; cached := delete evicted nodes |}
      else Done {| order := ord; cached := nodes |}
  end.

Definition reset (c : coldNodeCache) : coldNodeCache := newColdNodeCache.

(** ** The chain state used here *)

Record BlockChain := {
  heap_ : heap;
  index_ : gmap hash_t loc;
  coldCache : coldNodeCache;
  bestChain : ChainView.chainView;
  db : option database;
  headerWindow : Z;
}.

Definition set_heap (h : heap) (b : BlockChain) : BlockChain :=
  {| heap_ := h; index_ := index_ b; coldCache := coldCache b; bestChain := bestChain b;
     db := db b; headerWindow := headerWindow b |}.

Definition set_cold (c : coldNodeCache) (b : BlockChain) : BlockChain :=
  {| heap_ := heap_ b; index_ := index_ b; coldCache := c; bestChain := bestChain b;
     db := db b; headerWindow := headerWindow b |}.

Definition LookupNode (b : BlockChain) (hs : hash_t) : option loc := index_ b !! hs.

Definition coldReadEnabled (b : BlockChain) : bool :=
  bool_decide (is_Some (db b)) && negb (headerWindow b =? 0).

(** ** Materialisation *)

Definition coldNode (hs : hash_t) (hd : Wire.BlockHeader) (st hgt : Z) (p : option loc) : blockNode :=
  {| parent := p; parentHash := Wire.PrevBlock hd; ancestor := None; hash := hs; workSum := 0;
     height := hgt; version := Wire.Version hd; bits := Wire.Bits hd; nonce := Wire.Nonce hd;
     timestamp := Wire.Timestamp hd; merkleRoot := Wire.MerkleRoot hd; status := st |}.

(** The read closure runs on [d], the open view of the database. *)
Definition materializeColdNodeWithTx (b : BlockChain) (hs : hash_t) (d : database) :
    run (option loc * BlockChain) :=
  match LookupNode b hs with
  | Some l => Done (Some l, b)
  | None =>
      match get (coldCache b) hs with
      | Some l => Done (Some l, b)
      | None =>
          r ← dbFetchBlockRowByHash d hs;
          match r with
          | inl (Some (hd, st, hgt)) =>
              let l := fresh (dom (heap_ b)) in
              let h := <[l := coldNode hs hd st hgt (index_ b !! Wire.PrevBlock hd)]> (heap_ b) in
              c ← put h (coldCache b) l;
              Done (Some l, set_cold c (set_heap h b))
          | _ => Done (None, b)
          end
      end
  end.

Definition materializeColdNode (b : BlockChain) (hs : hash_t) : run (option loc * BlockChain) :=
  match db b with
  | Some d => if coldReadEnabled b then materializeColdNodeWithTx b hs d else Done (None, b)
  | None => Done (None, b)
  end.

Definition coldNodeAtHeight (b : BlockChain) (hgt : Z) : run (option loc * BlockChain) :=
  match db b with
  | Some d =>
      if coldReadEnabled b then
        match dbFetchHashByHeight d hgt with
        | inr _ => Done (None, b)
        | inl hs => materializeColdNodeWithTx b hs d
        end
      else Done (None, b)
  | None => Done (None, b)
  end.

Definition nodeAtHeight (b : BlockChain) (hgt : Z) : run (option loc * BlockChain) :=
  match ChainView.nodeByHeight (bestChain b) hgt with
  | Some l => Done (Some l, b)
  | None => coldNodeAtHeight b hgt
  end.

(** The second loop of [nodesInHeightRange]: fill the heights the view lacks. *)
Fixpoint fillRange (b : BlockChain) (d : database) (h : Z) (nodes : list (option loc)) :
    run (list (option loc) * BlockChain) :=
  match nodes with
  | [] => Done ([], b)
  | Some l :: nodes =>
      rest ← fillRange b d (h + 1) nodes; Done (Some l :: rest.1, rest.2)
  | None :: nodes =>
      match dbFetchHashByHeight d h with
      | inr _ => rest ← fillRange b d (h + 1) nodes; Done (None :: rest.1, rest.2)
      | inl hs =>
          m ← materializeColdNodeWithTx b hs d;
          rest ← fillRange m.2 d (h + 1) nodes; Done (m.1 :: rest.1, rest.2)
      end
  end.

(** The capacity of the slice is computed in 32 bits and must not be negative;
    with the largest [int32] as end the counter wraps and the loop never ends. *)
Definition nodesInHeightRange (b : BlockChain) (startHeight endHeight : Z) :
    run (list (option loc) * BlockChain) :=
  if endHeight <? startHeight then Done ([], b) else
  if i32 (i32 (endHeight - startHeight) + 1) <? 0 then Panic else
  if endHeight =? 2 ^ 31 - 1 then NoFuel else
  let nodes := (fun h => ChainView.nodeByHeight (bestChain b) h) <$>
                 seqZ startHeight (endHeight - startHeight + 1) in
  match db b with
  | Some d => if coldReadEnabled b then fillRange b d startHeight nodes else Done (nodes, b)
  | None => Done (nodes, b)
  end.

Definition isMainChainHash (b : BlockChain) (hs : hash_t) : run bool :=
  match db b with
  | Some d =>
      if coldReadEnabled b then
        r ← dbFetchHeightByHash d hs;
        match r with
        | inr _ => Done false
        | inl hgt =>
            match dbFetchHashByHeight d hgt with
            | inr _ => Done false
            | inl dbHash => Done (bool_decide (dbHash = hs))
            end
        end
      else Done false
  | None => Done false
  end.

(** ** Repairing severed links *)

Definition zeroHash : hash_t := replicate 32 (z2b 0).

Fixpoint repair_loop (depth : nat) (b : BlockChain) (cur : loc) : run BlockChain :=
  match depth with
  | O => Done b
  | S depth =>
      nd ← deref (heap_ b) cur;
      match parent nd with
      | Some p => repair_loop depth b p
      | None =>
          if decide (parentHash nd = zeroHash) then Done b else
          m ← materializeColdNode b (parentHash nd);
          match m.1 with
          | None => Done m.2
          | Some p =>
              let b' := set_heap (alter (set_parent (Some p)) cur (heap_ m.2)) m.2 in
              repair_loop depth b' p
          end
      end
  end.

(** The node itself is returned unchanged; the result is the new state. *)
Definition repairAncestorChain (b : BlockChain) (node : option loc) (depth : Z) : run BlockChain :=
  match node with
  | None => Done b
  | Some l => repair_loop (Z.to_nat depth) b l
  end.

(** [difficultyProtectDepth]: the averaging window and the median-time blocks *)
Definition difficultyProtectDepth : Z := 510 + 11.

Definition repairDifficultyChain (b : BlockChain) (node : option loc) : run BlockChain :=
  repairAncestorChain b node difficultyProtectDepth.

(** ** Consistency with the block tree

    [tree] maps the hash of every accepted header to the header and its height:
    what a node that never evicts anything would know. *)

Abbreviation tree := (gmap hash_t (Wire.BlockHeader * Z)).

Definition tree_ok (T : tree) : Prop :=
  T !! zeroHash = None ∧
  map_Forall (fun _ x => 0 ≤ x.2 < 2 ^ 31 ∧
    if x.2 =? 0 then Wire.PrevBlock x.1 = zeroHash
    else ∃ hd, T !! Wire.PrevBlock x.1 = Some (hd, x.2 - 1)) T.

(** [l] is a node of the block [hs]. *)
Definition node_of (h : heap) (hs : hash_t) (l : loc) : Prop :=
  ∃ nd, h !! l = Some nd ∧ hash nd = hs.

Definition node_ok (T : tree) (h : heap) (nd : blockNode) : Prop :=
  T !! hash nd = Some (Header nd, height nd) ∧
  ∀ p, parent nd = Some p → node_of h (parentHash nd) p.

(** Every node is the block it claims, every link leads to the parent block,
    and every block of the tree is either in memory or in the database. *)
Record chain_ok (T : tree) (b : BlockChain) : Prop := {
  co_tree : tree_ok T;
  co_heap : map_Forall (fun _ nd => node_ok T (heap_ b) nd) (heap_ b);
  co_index : map_Forall (node_of (heap_ b)) (index_ b);
  co_cold : map_Forall (node_of (heap_ b)) (cached (coldCache b));
  co_window : headerWindow b ≠ 0;
  co_rows : ∃ d, db b = Some d ∧ ∀ hs hd g, T !! hs = Some (hd, g) →
    is_Some (index_ b !! hs) ∨ ∃ st, dbFetchBlockRowByHash d hs = Done (inl (Some (hd, st, g)));
}.

(** The state grew: nodes were added and missing parent links filled in. *)
Definition heap_grows (h h' : heap) : Prop :=
  ∀ l nd, h !! l = Some nd → ∃ nd', h' !! l = Some nd' ∧
    set_parent None nd' = set_parent None nd ∧ (parent nd' = parent nd ∨ parent nd = None).

Definition grows (b b' : BlockChain) : Prop :=
  heap_grows (heap_ b) (heap_ b') ∧ index_ b' = index_ b ∧ bestChain b' = bestChain b ∧
  db b' = db b ∧ headerWindow b' = headerWindow b.

#[export] Instance heap_grows_preorder : PreOrder heap_grows.
Proof.
  split.
  - intros h l nd Hl. exists nd. auto.
  - intros h1 h2 h3 H12 H23 l nd Hl. destruct (H12 l nd Hl) as (nd2 & Hl2 & E2 & P2).
    destruct (H23 l nd2 Hl2) as (nd3 & Hl3 & E3 & P3). exists nd3. split; [done|].
    split; [congruence|]. destruct P2 as [P2|P2], P3 as [P3|P3]; [left| | |]; try (right; congruence).
    congruence.
Qed.

#[export] Instance grows_preorder : PreOrder grows.
Proof.
  split.
  - intros b. split; [reflexivity|done].
  - intros b1 b2 b3 (G1 & I1 & V1 & D1 & W1) (G2 & I2 & V2 & D2 & W2).
    split; [by etransitivity|]. split_and!; congruence.
Qed.

Lemma set_parent_data nd nd' : set_parent None nd' = set_parent None nd →
  hash nd' = hash nd ∧ height nd' = height nd ∧ parentHash nd' = parentHash nd ∧ Header nd' = Header nd.
Proof. destruct nd, nd'. unfold set_parent, Header; cbn. by intros [=]; subst. Qed.

Lemma node_of_grows h h' hs l : heap_grows h h' → node_of h hs l → node_of h' hs l.
Proof.
  intros Hg (nd & Hl & <-). destruct (Hg l nd Hl) as (nd' & Hl' & E & _). exists nd'. split; [done|].
  by apply set_parent_data in E as [-> _].
Qed.

Lemma heap_grows_insert h l nd : h !! l = None → heap_grows h (<[l := nd]> h).
Proof.
  intros Hn k x Hk. exists x. rewrite lookup_insert_ne by congruence. auto.
Qed.

Lemma heap_grows_alter h l nd p : h !! l = Some nd → parent nd = None →
  heap_grows h (alter (set_parent (Some p)) l h).
Proof.
  intros Hl Hp k x Hk. destruct (decide (k = l)) as [->|].
  - rewrite lookup_alter_eq, Hl. rewrite Hl in Hk. injection Hk as <-. eexists. split; [done|].
    split; [by destruct nd|by right].
  - rewrite lookup_alter_ne by done. exists x. auto.
Qed.

Lemma put_ok h c l hs : map_Forall (node_of h) (cached c) → node_of h hs l →
  ∃ c', put h c l = Done c' ∧ map_Forall (node_of h) (cached c').
Proof.
  intros Hc (nd & Hl & <-). unfold put. rewrite (deref_Some _ _ _ Hl). cbn [mbind run_bind].
  assert (map_Forall (node_of h) (<[hash nd := l]> (cached c))) as Hins.
  { apply map_Forall_insert_2; [by exists nd|done]. }
  destruct (cached c !! hash nd) as [x|]; [by exists c|].
  destruct (Z.ltb_spec coldCacheSize (zlen (order c ++ [hash nd]))); [|by eexists].
  destruct (order c) as [|o os]; cbn; eexists; (split; [done|]); by apply map_Forall_delete.
Qed.

Lemma materialize_ok T b hs hd g : chain_ok T b → T !! hs = Some (hd, g) →
  ∃ l b', materializeColdNode b hs = Done (Some l, b') ∧ chain_ok T b' ∧ grows b b' ∧
    node_of (heap_ b') hs l ∧ heap_ b ⊆ heap_ b'.
Proof.
  intros Hok HT. destruct (co_rows _ _ Hok) as (d & Hd & Hrows). unfold materializeColdNode, coldReadEnabled.
  rewrite Hd, bool_decide_eq_true_2 by (by eexists).
  destruct (Z.eqb_spec (headerWindow b) 0); [by destruct (co_window _ _ Hok)|]. cbn [negb andb].
  unfold materializeColdNodeWithTx, LookupNode. destruct (index_ b !! hs) as [l|] eqn:Ei.
  { exists l, b. split; [done|]. split; [done|]. split; [reflexivity|]. split; [by apply (co_index _ _ Hok)|done]. }
  destruct (get (coldCache b) hs) as [l|] eqn:Ec.
  { exists l, b. split; [done|]. split; [done|]. split; [reflexivity|]. split; [by apply (co_cold _ _ Hok)|done]. }
  destruct (Hrows hs hd g HT) as [[? ?]|[st ->]]; [congruence|]. cbn [mbind run_bind].
  set (l := fresh (dom (heap_ b))). set (nd := coldNode hs hd st g (index_ b !! Wire.PrevBlock hd)).
  set (h := <[l := nd]> (heap_ b)).
  assert (heap_ b !! l = None) as Hfresh by (apply not_elem_of_dom, is_fresh).
  assert (heap_grows (heap_ b) h) as Hg by (by apply heap_grows_insert).
  assert (node_of h hs l) as Hnode by (exists nd; split; [apply lookup_insert_eq|done]).
  assert (map_Forall (node_of h) (cached (coldCache b))) as Hcold.
  { intros x y Hxy. eapply node_of_grows; [done|]. by apply (co_cold _ _ Hok). }
  destruct (put_ok h (coldCache b) l hs Hcold Hnode) as (c & -> & Hc). cbn [mbind run_bind].
  exists l, (set_cold c (set_heap h b)). split; [done|]. split; [|split; [by split|split; [done|by apply insert_subseteq]]].
  constructor; cbn [heap_ index_ coldCache headerWindow db set_cold set_heap].
  - apply (co_tree _ _ Hok).
  - assert (∀ x, node_ok T (heap_ b) x → node_ok T h x) as Hmono.
    { intros x [H1 H2]. split; [done|]. intros p Hp. eapply node_of_grows; [done|]. by apply H2. }
    apply map_Forall_insert_2.
    + split; [cbn [hash height nd coldNode]; rewrite HT; by destruct hd|].
      intros p Hp. cbn in Hp. apply (node_of_grows (heap_ b)); [done|]. by apply (co_index _ _ Hok).
    + intros k x Hk. apply Hmono. by apply (co_heap _ _ Hok) in Hk.
  - intros x y Hxy. eapply node_of_grows; [done|]. by apply (co_index _ _ Hok).
  - done.
  - apply (co_window _ _ Hok).
  - exists d. done.
Qed.

(** The chain of [l] is linked for [n] levels, or to the genesis block. *)
Fixpoint complete (T : tree) (h : heap) (n : nat) (l : loc) : Prop :=
  ∃ nd, h !! l = Some nd ∧ T !! hash nd = Some (Header nd, height nd) ∧
    match n with
    | O => True
    | S n =>
        match parent nd with
        | Some p => node_of h (parentHash nd) p ∧ complete T h n p
        | None => T !! parentHash nd = None
        end
    end.

Lemma link_parent_ok T b cur nd p : chain_ok T b → heap_ b !! cur = Some nd → parent nd = None →
  node_of (heap_ b) (parentHash nd) p →
  let b' := set_heap (alter (set_parent (Some p)) cur (heap_ b)) b in
  chain_ok T b' ∧ grows b b'.
Proof.
  intros Hok Hcur Hnone Hp b'.
  assert (heap_grows (heap_ b) (heap_ b')) as Hg by (by eapply heap_grows_alter).
  split; [|by split]. constructor; cbn [b' heap_ index_ coldCache headerWindow db set_heap].
  - apply (co_tree _ _ Hok).
  - intros k x Hk. destruct (decide (k = cur)) as [->|].
    + rewrite lookup_alter_eq, Hcur in Hk. injection Hk as <-.
      destruct (co_heap _ _ Hok cur nd Hcur) as [H1 _]. split; [exact H1|].
      intros q [= <-]. by eapply node_of_grows.
    + rewrite lookup_alter_ne in Hk by done. destruct (co_heap _ _ Hok k x Hk) as [H1 H2].
      split; [done|]. intros q Hq. eapply node_of_grows; [done|]. by apply H2.
  - intros x y Hxy. eapply node_of_grows; [done|]. by apply (co_index _ _ Hok).
  - intros x y Hxy. eapply node_of_grows; [done|]. by apply (co_cold _ _ Hok).
  - apply (co_window _ _ Hok).
  - apply (co_rows _ _ Hok).
Qed.

Lemma repair_loop_ok T depth b cur hs : chain_ok T b → node_of (heap_ b) hs cur →
  ∃ b', repair_loop depth b cur = Done b' ∧ chain_ok T b' ∧ grows b b' ∧
    complete T (heap_ b') depth cur.
Proof.
  revert b cur hs. induction depth as [|depth IH]; intros b cur hs Hok (nd & Hcur & Hhs).
  { exists b. split; [done|]. split; [done|]. split; [reflexivity|]. cbn. exists nd.
    destruct (co_heap _ _ Hok cur nd Hcur) as [? _]. done. }
  cbn [repair_loop]. rewrite (deref_Some _ _ _ Hcur). cbn [mbind run_bind].
  destruct (co_heap _ _ Hok cur nd Hcur) as [HT Hpar].
  assert (∀ b1 p, chain_ok T b1 → grows b b1 → node_of (heap_ b1) (parentHash nd) p →
    (∀ x, heap_ b1 !! cur = Some x → parent x = Some p) →
    ∃ b', repair_loop depth b1 p = Done b' ∧ chain_ok T b' ∧ grows b b' ∧
      complete T (heap_ b') (S depth) cur) as Hstep.
  { intros b1 p Hok1 Hg1 Hp1 Hx. destruct (IH b1 p (parentHash nd) Hok1 Hp1) as (b' & E & Hok' & Hg' & Hc).
    exists b'. split; [done|]. split; [done|]. split; [by etransitivity|].
    destruct (proj1 Hg1 cur nd Hcur) as (n1 & Hn1 & E1 & _).
    destruct (proj1 Hg' cur n1 Hn1) as (n2 & Hn2 & E2 & P2).
    rewrite (Hx n1 Hn1) in P2. destruct P2 as [P2|P2]; [|done].
    destruct (co_heap _ _ Hok' cur n2 Hn2) as [HT2 Hpar2].
    exists n2. split; [done|]. split; [done|]. rewrite P2. split; [by apply Hpar2|done]. }
  destruct (parent nd) as [p|] eqn:Ep.
  { apply Hstep; [done|reflexivity|by apply Hpar|]. intros x Hx. congruence. }
  destruct (decide (parentHash nd = zeroHash)) as [Hz|Hz].
  { exists b. split; [done|]. split; [done|]. split; [reflexivity|]. exists nd. split; [done|]. split; [done|].
    rewrite Ep, Hz. apply (co_tree _ _ Hok). }
  destruct (co_tree _ _ Hok) as [_ Htree]. specialize (Htree _ _ HT) as [_ Hprev]. cbn [fst snd] in Hprev.
  change (Wire.PrevBlock (Header nd)) with (parentHash nd) in Hprev.
  destruct (height nd =? 0); [done|]. destruct Hprev as [phd Hphd].
  destruct (materialize_ok T b (parentHash nd) phd (height nd - 1) Hok Hphd)
    as (p & b1 & -> & Hok1 & Hg1 & Hp1 & Hsub).
  cbn [mbind run_bind fst snd].
  assert (heap_ b1 !! cur = Some nd) as Hcur1 by (by eapply lookup_weaken).
  destruct (link_parent_ok T b1 cur nd p Hok1 Hcur1 Ep Hp1) as [Hok2 Hg2].
  apply Hstep; [done|by etransitivity|by eapply node_of_grows; [apply Hg2|]|].
  intros x Hx. cbn in Hx. rewrite lookup_alter_eq, Hcur1 in Hx. by injection Hx as <-.
Qed.

(** The hash [n] levels above the block [hs] in the tree *)
Fixpoint treeWalk (T : tree) (n : nat) (hs : hash_t) : option hash_t :=
  match n with
  | O => Some hs
  | S n => x ← T !! hs; treeWalk T n (Wire.PrevBlock x.1)
  end.

Lemma complete_walk T h n l nd k hs' x : complete T h n l → h !! l = Some nd → (k ≤ n)%nat →
  treeWalk T k (hash nd) = Some hs' → T !! hs' = Some x →
  ∃ l', walk h k l = Some l' ∧ node_of h hs' l'.
Proof.
  revert n l nd. induction k as [|k IH]; intros n l nd Hc Hl Hk Hw HT.
  { cbn in Hw. injection Hw as <-. exists l. split; [done|by exists nd]. }
  destruct n as [|n]; [lia|]. destruct Hc as (nd' & Hl' & HTn & Hp). rewrite Hl in Hl'. injection Hl' as <-.
  cbn [treeWalk walk] in *. rewrite HTn in Hw. cbn in Hw. rewrite Hl. cbn [mbind option_bind].
  destruct (parent nd) as [p|].
  - destruct Hp as [(pn & Hpn & Eh) Hcp]. cbn. rewrite <-Eh in Hw. exact (IH n p pn Hcp Hpn ltac:(lia) Hw HT).
  - exfalso. destruct k as [|k]; cbn in Hw; [congruence|]. by rewrite Hp in Hw.
Qed.

(** C34 (safety).  Repairing makes the window invisible: in a consistent state,
    [repairAncestorChain] terminates without panic, keeps the state consistent,
    changes nothing of an existing node but a missing parent link, and
    afterwards every block up to [depth] levels above the node is reached by
    following parent pointers, with its true hash, header and height. *)
Theorem repair_relinks (T : tree) (b : BlockChain) (l : loc) (nd : blockNode) (depth : Z) :
  chain_ok T b → heap_ b !! l = Some nd → 0 ≤ depth →
  ∃ b', repairAncestorChain b (Some l) depth = Done b' ∧ chain_ok T b' ∧ grows b b' ∧
    ∀ k hs hd g, Z.of_nat k ≤ depth → treeWalk T k (hash nd) = Some hs → T !! hs = Some (hd, g) →
    ∃ l' nd', walk (heap_ b') k l = Some l' ∧ heap_ b' !! l' = Some nd' ∧
      hash nd' = hs ∧ Header nd' = hd ∧ height nd' = g.
Proof.
  intros Hok Hl Hd. destruct (repair_loop_ok T (Z.to_nat depth) b l (hash nd) Hok) as (b' & E & Hok' & Hg & Hc);
    [by exists nd|].
  exists b'. split; [done|]. split; [done|]. split; [done|]. intros k hs hd g Hk Hw HT.
  destruct (proj1 Hg l nd Hl) as (nd1 & Hl1 & E1 & _). apply set_parent_data in E1 as (E1 & _).
  rewrite <-E1 in Hw.
  destruct (complete_walk _ _ _ _ _ k hs _ Hc Hl1 ltac:(lia) Hw HT) as (l' & Hl' & nd' & Hn & Hh).
  exists l', nd'. destruct (co_heap _ _ Hok' l' nd' Hn) as [HT' _]. rewrite Hh, HT in HT'.
  by injection HT' as -> ->.
Qed.

(** ** The cache is a bounded FIFO *)

Definition cache_wf (c : coldNodeCache) : Prop :=
  NoDup (order c) ∧ zlen (order c) ≤ coldCacheSize ∧ ∀ hs, hs ∈ order c ↔ is_Some (cached c !! hs).

Lemma newColdNodeCache_wf : cache_wf newColdNodeCache.
Proof.
  split; [constructor|]. split; [done|]. intros hs. cbn. rewrite lookup_empty.
  split; [by intros ?%not_elem_of_nil|by intros [? ?]].
Qed.

(** The cold cache stays bounded by 64 entries and consistent
    with its queue.  A block already cached is left alone; otherwise the new
    block is found afterwards, and the only block dropped is the oldest of a full
    cache. *)
Theorem coldCache_fifo (h : heap) (c : coldNodeCache) (l : loc) (nd : blockNode) :
  cache_wf c → h !! l = Some nd →
  ∃ c', put h c l = Done c' ∧ cache_wf c' ∧
    (is_Some (get c (hash nd)) → c' = c) ∧
    (get c (hash nd) = None →
      get c' (hash nd) = Some l ∧
      ∀ hs, hs ≠ hash nd → get c' hs =
        if bool_decide (zlen (order c) = coldCacheSize ∧ head (order c) = Some hs) then None
        else get c hs).
Proof.
  intros (Hnd & Hlen & Hdom) Hl. unfold put, get. rewrite (deref_Some _ _ _ Hl). cbn [mbind run_bind].
  destruct (cached c !! hash nd) as [x|] eqn:Ex.
  { exists c. split_and!; done. }
  assert (hash nd ∉ order c) as Hni by (rewrite Hdom, Ex; by intros [? ?]).
  assert (∀ hs, hs ∈ order c ++ [hash nd] ↔ is_Some (<[hash nd := l]> (cached c) !! hs)) as Hdom1.
  { intros hs. rewrite elem_of_app, list_elem_of_singleton, Hdom, lookup_insert_is_Some.
    clear. destruct (decide (hash nd = hs)) as [<-|]; intuition congruence. }
  assert (NoDup (order c ++ [hash nd])) as Hnd1.
  { apply NoDup_app. split_and!; [done| |apply NoDup_singleton].
    intros y Hy ->%list_elem_of_singleton. done. }
  rewrite zlen_app. destruct (Z.ltb_spec coldCacheSize (zlen (order c) + zlen [hash nd])) as [Hfull|Hroom];
    change (zlen [hash nd]) with 1 in *.
  - destruct (order c) as [|o os] eqn:Eo; [by cbn in Hfull|]. cbn [index app drop].
    cbn [mbind run_bind of_option lookup list_lookup]. eexists. split; [done|].
    assert (o ≠ hash nd) as Hne by (intros ->; apply Hni; left). inversion_clear Hnd1 as [|? ? Ho Hos].
    split_and!; [split_and!|by intros [? ?]|]; cbn [order cached].
    + done.
    + rewrite drop_0. unfold zlen in *. rewrite length_app. cbn in *. lia.
    + intros hs. rewrite drop_0, lookup_delete_is_Some, <-Hdom1. cbn [app]. rewrite elem_of_cons.
      split; [intros Hin; split; [by intros ->|by right]|by intros [? [->|?]]].
    + intros _. rewrite lookup_delete_ne, lookup_insert_eq by done. split; [done|]. intros hs Hs.
      case_bool_decide as Hb.
      * destruct Hb as [_ [= ->]]. apply lookup_delete_eq.
      * rewrite lookup_delete_ne, lookup_insert_ne by
          first [done | intros ->; apply Hb; split; [|done]; unfold zlen in *; cbn in *; lia]. done.
  - eexists. split; [done|]. split_and!; [split_and!|by intros [? ?]|]; cbn [order cached].
    + done.
    + rewrite zlen_app. change (zlen [hash nd]) with 1. lia.
    + done.
    + intros _. rewrite lookup_insert_eq. split; [done|]. intros hs Hs.
      rewrite lookup_insert_ne by done. case_bool_decide as Hb; [lia|done].
Qed.

(** ** Serving a range of heights *)

(** The height index names blocks of the tree. *)
Definition heights_ok (T : tree) (d : database) : Prop :=
  ∀ g hs, dbFetchHashByHeight d g = inl hs → is_Some (T !! hs).

Lemma materializeWithTx_ok T b d hs : chain_ok T b → db b = Some d → is_Some (T !! hs) →
  ∃ l b', materializeColdNodeWithTx b hs d = Done (Some l, b') ∧ chain_ok T b' ∧ grows b b' ∧
    node_of (heap_ b') hs l.
Proof.
  intros Hok Hd [[hd g] HT]. destruct (materialize_ok T b hs hd g Hok HT) as (l & b' & E & H1 & H2 & H3 & _).
  exists l, b'. split; [|done]. unfold materializeColdNode, coldReadEnabled in E.
  rewrite Hd, bool_decide_eq_true_2 in E by (by eexists).
  destruct (Z.eqb_spec (headerWindow b) 0); [by destruct (co_window _ _ Hok)|done].
Qed.

(** What the slot of height [g] holds, given what the view holds there *)
Definition slot_ok (h : heap) (d : database) (g : Z) (inView out : option loc) : Prop :=
  match inView, dbFetchHashByHeight d g with
  | Some l, _ => out = Some l
  | None, inr _ => out = None
  | None, inl hs => ∃ l, out = Some l ∧ node_of h hs l
  end.

Lemma slot_ok_grows h h' d g v out : heap_grows h h' → slot_ok h d g v out → slot_ok h' d g v out.
Proof.
  unfold slot_ok. intros Hg. destruct v; [done|]. destruct (dbFetchHashByHeight d g) as [hs|e]; [|done].
  intros (l & -> & Hl). exists l. split; [done|]. by eapply node_of_grows.
Qed.

Lemma fillRange_ok T d nodes b g : chain_ok T b → db b = Some d → heights_ok T d →
  ∃ out b', fillRange b d g nodes = Done (out, b') ∧ chain_ok T b' ∧ grows b b' ∧
    length out = length nodes ∧
    ∀ i v, nodes !! i = Some v → ∃ o, out !! i = Some o ∧ slot_ok (heap_ b') d (g + Z.of_nat i) v o.
Proof.
  intros Hok Hd HT. revert b g Hok Hd. induction nodes as [|v nodes IH]; intros b g Hok Hd.
  { exists [], b. by split_and!. }
  assert (∀ o b1, chain_ok T b1 → grows b b1 → slot_ok (heap_ b1) d g v o →
    ∃ out b', (rest ← fillRange b1 d (g + 1) nodes; Done (o :: rest.1, rest.2)) = Done (out, b') ∧
      chain_ok T b' ∧ grows b b' ∧ length out = length (v :: nodes) ∧
      ∀ i w, (v :: nodes) !! i = Some w →
        ∃ o, out !! i = Some o ∧ slot_ok (heap_ b') d (g + Z.of_nat i) w o) as Hcons.
  { intros o b1 Hok1 Hg1 Ho. destruct (IH b1 (g + 1) Hok1) as (out & b' & -> & Hok' & Hg' & Hlen & Hs).
    { destruct Hg1 as (_ & _ & _ & -> & _). done. }
    exists (o :: out), b'. split; [done|]. split; [done|]. split; [by etransitivity|]. split; [cbn; lia|].
    intros [|i] w Hi; cbn in Hi.
    - injection Hi as <-. exists o. split; [done|]. rewrite Z.add_0_r. by eapply slot_ok_grows; [apply Hg'|].
    - replace (g + Z.of_nat (S i)) with (g + 1 + Z.of_nat i) by lia. by apply Hs. }
  destruct v as [l|]; cbn [fillRange].
  - by apply (Hcons (Some l) b).
  - destruct (dbFetchHashByHeight d g) as [hs|e] eqn:E.
    + destruct (materializeWithTx_ok T b d hs Hok Hd (HT _ _ E)) as (l & b1 & -> & H1 & H2 & H3).
      cbn [mbind run_bind fst snd]. apply Hcons; [done..|]. unfold slot_ok. rewrite E. by exists l.
    + apply (Hcons None b); [done|reflexivity|]. unfold slot_ok. by rewrite E.
Qed.

(** [nodesInHeightRange] answers every height of the range: a
    height the view retains with the view's node, an evicted one with a node of
    the block that owns the height in the height index, and nil exactly for the
    heights neither knows.  It terminates without panic, one slot per height,
    and only adds nodes and links. *)
Theorem range_served (T : tree) (b : BlockChain) (d : database) (lo hi : Z) :
  chain_ok T b → db b = Some d → heights_ok T d → 0 ≤ lo ≤ hi → hi < 2 ^ 31 - 1 →
  ∃ out b', nodesInHeightRange b lo hi = Done (out, b') ∧ chain_ok T b' ∧ grows b b' ∧
    zlen out = hi - lo + 1 ∧
    ∀ g, lo ≤ g ≤ hi → ∃ o, out !! Z.to_nat (g - lo) = Some o ∧
      slot_ok (heap_ b') d g (ChainView.nodeByHeight (bestChain b) g) o.
Proof.
  intros Hok Hd HT Hr Hhi. unfold nodesInHeightRange. destruct (Z.ltb_spec hi lo); [lia|].
  rewrite (swrap_small 32 (hi - lo)), (swrap_small 32 (hi - lo + 1)) by zlia.
  destruct (Z.ltb_spec (hi - lo + 1) 0); [lia|]. destruct (Z.eqb_spec hi (2 ^ 31 - 1)); [lia|].
  unfold coldReadEnabled. rewrite Hd, bool_decide_eq_true_2 by (by eexists).
  destruct (Z.eqb_spec (headerWindow b) 0); [by destruct (co_window _ _ Hok)|]. cbn [negb andb].
  set (nodes := _ <$> _). destruct (fillRange_ok T d nodes b lo Hok Hd HT) as (out & b' & -> & H1 & H2 & H3 & H4).
  exists out, b'. split; [done|]. split; [done|]. split; [done|]. split.
  - unfold zlen. rewrite H3. unfold nodes. rewrite length_fmap, length_seqZ. lia.
  - intros g Hg. destruct (H4 (Z.to_nat (g - lo)) (ChainView.nodeByHeight (bestChain b) g)) as (o & Ho & Hs).
    + unfold nodes. rewrite list_lookup_fmap, lookup_seqZ_lt by lia. cbn. do 2 f_equal. lia.
    + exists o. split; [done|]. by replace (lo + Z.of_nat (Z.to_nat (g - lo))) with g in Hs by lia.
Qed.

(** ** A chain of [n] blocks, the last [w] of them in memory *)

#[export] Instance BlockHeader_eq_dec : EqDecision Wire.BlockHeader.
Proof. solve_decision. Defined.

Definition node_ofb (h : heap) (hs : hash_t) (l : loc) : bool :=
  match h !! l with Some nd => bool_decide (hash nd = hs) | None => false end.

Definition tree_okb (T : tree) : bool :=
  bool_decide (T !! zeroHash = None) &&
  bool_decide (map_Forall (fun _ x => (0 <=? x.2) && (x.2 <? 2 ^ 31) &&
    if x.2 =? 0 then bool_decide (Wire.PrevBlock x.1 = zeroHash)
    else match T !! Wire.PrevBlock x.1 with Some (_, g) => g =? x.2 - 1 | None => false end) T).

Definition node_okb (T : tree) (h : heap) (nd : blockNode) : bool :=
  bool_decide (T !! hash nd = Some (Header nd, height nd)) &&
  match parent nd with Some p => node_ofb h (parentHash nd) p | None => true end.

Definition row_okb (b : BlockChain) (d : database) (hs : hash_t) (x : Wire.BlockHeader * Z) : bool :=
  bool_decide (is_Some (index_ b !! hs)) ||
  match dbFetchBlockRowByHash d hs with
  | Done (inl (Some (hd, _, g))) => bool_decide (hd = x.1) && (g =? x.2)
  | _ => false
  end.

Definition chain_okb (T : tree) (b : BlockChain) : bool :=
  tree_okb T && bool_decide (map_Forall (fun _ nd => node_okb T (heap_ b) nd) (heap_ b)) &&
  bool_decide (map_Forall (fun hs l => node_ofb (heap_ b) hs l) (index_ b)) &&
  bool_decide (map_Forall (fun hs l => node_ofb (heap_ b) hs l) (cached (coldCache b))) &&
  negb (headerWindow b =? 0) &&
  match db b with
  | Some d => bool_decide (map_Forall (fun hs x => row_okb b d hs x) T)
  | None => false
  end.

Lemma node_ofb_sound h hs l : node_ofb h hs l → node_of h hs l.
Proof.
  unfold node_ofb, node_of. destruct (h !! l) as [nd|]; [|done]. intros H%bool_decide_unpack. by exists nd.
Qed.

Lemma tree_okb_sound T : tree_okb T = true → tree_ok T.
Proof.
  intros [H1%bool_decide_eq_true H2%bool_decide_eq_true]%andb_prop. split; [done|].
  intros hs x Hx. specialize (H2 hs x Hx). apply Is_true_true in H2.
  apply andb_prop in H2 as [[Hlo Hhi]%andb_prop Hp]. split; [lia|].
  destruct (x.2 =? 0); [by apply bool_decide_eq_true in Hp|].
  destruct (T !! Wire.PrevBlock x.1) as [[hd g]|]; [|done]. exists hd. do 2 f_equal. lia.
Qed.

Lemma chain_okb_sound T b : chain_okb T b = true → chain_ok T b.
Proof.
  unfold chain_okb. intros [[[[[Ht Hh%bool_decide_eq_true]%andb_prop Hi%bool_decide_eq_true]%andb_prop
    Hc%bool_decide_eq_true]%andb_prop Hw]%andb_prop Hd]%andb_prop. constructor.
  - by apply tree_okb_sound.
  - intros l nd Hl. specialize (Hh l nd Hl). apply Is_true_true, andb_prop in Hh as [H1%bool_decide_eq_true H2].
    split; [done|]. intros p Hp. rewrite Hp in H2. by apply node_ofb_sound, Is_true_true.
  - intros hs l Hl. by apply node_ofb_sound, (Hi hs l Hl).
  - intros hs l Hl. by apply node_ofb_sound, (Hc hs l Hl).
  - by destruct (Z.eqb_spec (headerWindow b) 0).
  - destruct (db b) as [d|]; [|done]. exists d. split; [done|]. apply bool_decide_eq_true in Hd.
    intros hs hd g HT. specialize (Hd hs (hd, g) HT). unfold row_okb in Hd.
    apply Is_true_true, orb_prop in Hd as [Hd|Hd]; [left; by apply bool_decide_eq_true in Hd|right].
    destruct (dbFetchBlockRowByHash d hs) as [[[[[hd' st] g']|]|]| |]; try done.
    apply andb_prop in Hd as [H1%bool_decide_eq_true H2%Z.eqb_eq]. cbn in H1, H2. subst. by exists st.
Qed.

Definition toyTree (n : Z) : tree :=
  list_to_map ((fun i => (toyHash i, (Header (toyNode i), i))) <$> seqZ 0 n).

Definition toyStore (d : database) (i : Z) : database :=
  match storeNode d (toyNode i) with
  | Done d' => dbPutHeightIndex d' i (toyHash i)
  | _ => d
  end.

Definition toyDB (n : Z) : database := foldl toyStore emptyDB (seqZ 0 n).

Definition toyWindowNode (n w i : Z) : blockNode :=
  if i =? n - w then set_ancestor None (set_parent None (toyNode i)) else set_ancestor None (toyNode i).

Definition toyChain (n w : Z) : BlockChain :=
  let ixs := seqZ (n - w) w in
  {| heap_ := list_to_map ((fun i => (toyLoc i, toyWindowNode n w i)) <$> ixs);
     index_ := list_to_map ((fun i => (toyHash i, toyLoc i)) <$> ixs);
     coldCache := newColdNodeCache;
     bestChain := {| ChainView.nodes := (fun i => Some (toyLoc i)) <$> ixs; ChainView.base := n - w |};
     db := Some (toyDB n); headerWindow := w |}.

Lemma toyChain_ok : chain_ok (toyTree 8) (toyChain 8 4).
Proof. apply chain_okb_sound. vm_compute. reflexivity. Qed.

(** The window holds blocks 4 to 7; block 0 is seven levels above block 7. *)
Lemma repair_relinks_witness :
  walk (heap_ (toyChain 8 4)) 7 (toyLoc 7) = None ∧
  ∃ b' l' nd', repairAncestorChain (toyChain 8 4) (Some (toyLoc 7)) 521 = Done b' ∧
    walk (heap_ b') 7 (toyLoc 7) = Some l' ∧ heap_ b' !! l' = Some nd' ∧ hash nd' = toyHash 0.
Proof.
  split; [vm_compute; reflexivity|].
  destruct (repair_relinks (toyTree 8) (toyChain 8 4) (toyLoc 7) (toyWindowNode 8 4 7) 521 toyChain_ok)
    as (b' & H1 & _ & _ & H2); [vm_compute; reflexivity|discriminate|].
  destruct (H2 7%nat (toyHash 0) (Header (toyNode 0)) 0) as (l' & nd' & H3 & H4 & H5 & _);
    [discriminate|vm_compute; reflexivity..|].
  exists b', l', nd'. split; [exact H1|]. split; [exact H3|]. split; [exact H4|exact H5].
Defined.

Lemma coldCache_fifo_witness :
  ∃ c', put toyHeap newColdNodeCache (toyLoc 3) = Done c' ∧ get c' (toyHash 3) = Some (toyLoc 3).
Proof.
  destruct (coldCache_fifo toyHeap newColdNodeCache (toyLoc 3) (toyNode 3) newColdNodeCache_wf)
    as (c' & H1 & _ & _ & H2); [vm_compute; reflexivity|].
  exists c'. split; [exact H1|]. apply H2. vm_compute. reflexivity.
Defined.

Lemma toyDB_heights : heights_ok (toyTree 8) (toyDB 8).
Proof.
  assert (bool_decide (map_Forall (fun _ hs => bool_decide (is_Some (toyTree 8 !! toHash hs)))
    (heightIndexBucket (toyDB 8))) = true) as H by (vm_compute; reflexivity).
  apply bool_decide_eq_true in H. intros g hs Hg. unfold dbFetchHashByHeight in Hg.
  destruct (heightIndexBucket (toyDB 8) !! serializedHeight g) as [bs|] eqn:E; [|done].
  injection Hg as <-. specialize (H _ _ E). by apply bool_decide_unpack in H.
Qed.

Lemma range_served_witness :
  ∃ out b', nodesInHeightRange (toyChain 8 4) 2 5 = Done (out, b') ∧ zlen out = 4 ∧
    ∃ o, out !! 0%nat = Some o ∧ slot_ok (heap_ b') (toyDB 8) 2 None o.
Proof.
  destruct (range_served (toyTree 8) (toyChain 8 4) (toyDB 8) 2 5 toyChain_ok eq_refl toyDB_heights)
    as (out & b' & H1 & _ & _ & H2 & H3); [split; discriminate|reflexivity|].
  exists out, b'. split; [exact H1|]. split; [exact H2|]. apply (H3 2). split; discriminate.
Defined.

End ColdRead.
