(* ===== verification/Locate.v ===== *)
(** * Locate: questions about the chain

    Model of the queries of [blockchain/chain.go] by hash, height, range and locator,
    over the windowed chain of [ColdRead]: nodes in memory first, the database for
    what the window has evicted.  The best header view is an argument where a query
    reads it.  Locks, and the counters of hits and cold reads, are left out. *)

From S2P Require Import Prelude WorkMath ChainHash Wire BlockNode ChainView ChainIO ColdRead.

Module Locate.
Import BlockNode (hash_t, loc, heap, blockNode, deref, hash, height, parent, status, KnownValid, KnownInvalid, toyLoc, toyHash).
Import ChainIO (database, dbFetchHashByHeight).
Import ColdRead.

Definition MaxBlockHeadersPerMsg : Z := 2000.

(** Errors, one per message *)
Inductive queryError :=
  | NotInMainChain | NoBlockAtHeight | UnknownHash | NotValidated | StartBelowZero | EndBelowStart | StartPastEnd
  | TooManyResults | NotIndexed | NotInWindow.

Abbreviation Q A := (run ((A + queryError) * BlockChain)).

(** ** By hash and by height *)

(** The node in memory, or one built from the database *)
Definition lookup_or_cold (b : BlockChain) (hs : hash_t) : run (option loc * BlockChain) :=
  match LookupNode b hs with
  | Some l => Done (Some l, b)
  | None => materializeColdNode b hs
  end.

(** [b.bestChain.Contains(node) || b.isMainChainHash(&node.hash)] *)
Definition onMainChain (b : BlockChain) (l : loc) : run bool :=
  c ← ChainView.contains (heap_ b) (bestChain b) l;
  if c : bool then Done true else nd ← deref (heap_ b) l; isMainChainHash b (hash nd).

Definition HeaderByHash (b : BlockChain) (hs : hash_t) : run (Wire.BlockHeader + queryError) :=
  match LookupNode b hs with
  | None => Done (inr UnknownHash)
  | Some l => nd ← deref (heap_ b) l; Done (inl (BlockNode.Header nd))
  end.

Definition MainChainHasBlock (b : BlockChain) (hs : hash_t) : run bool :=
  match LookupNode b hs with
  | None => Done false
  | Some l => ChainView.contains (heap_ b) (bestChain b) l
  end.

Definition BlockLocatorFromHash (b : BlockChain) (hs : hash_t) : run (list hash_t) :=
  ChainView.blockLocator (heap_ b) (bestChain b) (LookupNode b hs).

Definition LatestBlockLocator (b : BlockChain) : run (list hash_t) :=
  ChainView.blockLocator (heap_ b) (bestChain b) None.

Definition LatestBlockLocatorByHeader (b : BlockChain) (bestHeader : ChainView.chainView) : run (list hash_t) :=
  ChainView.blockLocator (heap_ b) bestHeader None.

Definition BlockHeightByHash (b : BlockChain) (hs : hash_t) : Q Z :=
  '(o, b) ← lookup_or_cold b hs;
  match o with
  | None => Done (inr NotInMainChain, b)
  | Some l =>
      c ← onMainChain b l;
      if negb c then Done (inr NotInMainChain, b) else
      nd ← deref (heap_ b) l; Done (inl (height nd), b)
  end.

Definition BlockHashByHeight (b : BlockChain) (hgt : Z) : Q hash_t :=
  '(o, b) ← nodeAtHeight b hgt;
  match o with
  | None => Done (inr NoBlockAtHeight, b)
  | Some l => nd ← deref (heap_ b) l; Done (inl (hash nd), b)
  end.

Definition IsValidHeader (b : BlockChain) (bestHeader : ChainView.chainView) (hs : hash_t) : run (bool * BlockChain) :=
  match LookupNode b hs with
  | None =>
      '(o, b) ← materializeColdNode b hs;
      match o with
      | None => Done (false, b)
      | Some l => nd ← deref (heap_ b) l; Done (negb (KnownInvalid (status nd)), b)
      end
  | Some l =>
      c ← ChainView.contains (heap_ b) bestHeader l;
      if negb c then Done (false, b) else nd ← deref (heap_ b) l; Done (negb (KnownInvalid (status nd)), b)
  end.

Definition HeaderHashByHeight (b : BlockChain) (bestHeader : ChainView.chainView) (hgt : Z) : Q hash_t :=
  match ChainView.nodeByHeight bestHeader hgt with
  | Some l => nd ← deref (heap_ b) l; Done (inl (hash nd), b)
  | None =>
      '(o, b) ← coldNodeAtHeight b hgt;
      match o with
      | Some l => nd ← deref (heap_ b) l; Done (inl (hash nd), b)
      | None => Done (inr NoBlockAtHeight, b)
      end
  end.

Definition HeaderHeightByHash (b : BlockChain) (bestHeader : ChainView.chainView) (hs : hash_t) : Q Z :=
  inHeaders ← match LookupNode b hs with Some l => ChainView.contains (heap_ b) bestHeader l | None => Done false end;
  match LookupNode b hs, inHeaders with
  | Some l, true => nd ← deref (heap_ b) l; Done (inl (height nd), b)
  | _, _ =>
      '(o, b) ← materializeColdNode b hs;
      match o with
      | None => Done (inr UnknownHash, b)
      | Some l =>
          c ← isMainChainHash b hs;
          if c : bool then nd ← deref (heap_ b) l; Done (inl (height nd), b) else Done (inr UnknownHash, b)
      end
  end.

(** ** Ranges *)

(** Hashes until the first missing node; the flag says that all were there. *)
Fixpoint hashesOf (h : heap) (ns : list (option loc)) : run (list hash_t * bool) :=
  match ns with
  | [] => Done ([], true)
  | None :: _ => Done ([], false)
  | Some l :: ns => nd ← deref h l; r ← hashesOf h ns; Done (hash nd :: r.1, r.2)
  end.

Definition HeightRange (b : BlockChain) (startHeight endHeight : Z) : Q (list hash_t) :=
  if startHeight <? 0 then Done (inr StartBelowZero, b) else
  if endHeight <? startHeight then Done (inr EndBelowStart, b) else
  if startHeight =? endHeight then Done (inl [], b) else
  let latestHeight := ChainView.viewHeight (bestChain b) in
  if latestHeight <? startHeight then Done (inl [], b) else
  let endHeight := if i32 (latestHeight + 1) <? endHeight then i32 (latestHeight + 1) else endHeight in
  '(ns, b) ← nodesInHeightRange b startHeight (i32 (endHeight - 1));
  r ← hashesOf (heap_ b) ns;
  if r.2 : bool then Done (inl r.1, b) else Done (inr NotIndexed, b).

(** From the end downwards; [n] hashes are needed. *)
Fixpoint collectDown (n : nat) (h : heap) (node : option loc) (hashes : list hash_t) : run (list hash_t + queryError) :=
  match n with
  | O => Done (inl hashes)
  | S n =>
      match node with
      | None => Done (inr NotInWindow)
      | Some l => nd ← deref h l; collectDown n h (parent nd) (hash nd :: hashes)
      end
  end.

Definition HeightToHashRange (b : BlockChain) (startHeight : Z) (endHash : hash_t) (maxResults : Z) : run (list hash_t + queryError) :=
  match LookupNode b endHash with
  | None => Done (inr UnknownHash)
  | Some endNode =>
      nd ← deref (heap_ b) endNode;
      if negb (KnownValid (status nd)) then Done (inr NotValidated) else
      if startHeight <? 0 then Done (inr StartBelowZero) else
      if height nd <? startHeight then Done (inr StartPastEnd) else
      let resultsLength := i32 (i32 (height nd - startHeight) + 1) in
      if maxResults <? resultsLength then Done (inr TooManyResults) else
      if resultsLength <? 0 then Panic else
      collectDown (Z.to_nat resultsLength) (heap_ b) (Some endNode) []
  end.

(** The hashes at the multiples of the interval, from the last one down *)
Fixpoint intervalDown (n : nat) (b : BlockChain) (interval : Z) (node : loc) (hashes : list hash_t) : run (list hash_t + queryError) :=
  match n with
  | O => Done (inl hashes)
  | S k =>
      let blockHeight := i32 (Z.of_nat n * interval) in
      c ← ChainView.contains (heap_ b) (bestChain b) node;
      o ← (if c : bool then Done (ChainView.nodeByHeight (bestChain b) blockHeight)
           else BlockNode.Ancestor (heap_ b) node blockHeight);
      match o with
      | None => Done (inr NotInWindow)
      | Some l => nd ← deref (heap_ b) l; intervalDown k b interval l (hash nd :: hashes)
      end
  end.

Definition IntervalBlockHashes (b : BlockChain) (endHash : hash_t) (interval : Z) : run (list hash_t + queryError) :=
  match LookupNode b endHash with
  | None => Done (inr UnknownHash)
  | Some endNode =>
      nd ← deref (heap_ b) endNode;
      if negb (KnownValid (status nd)) then Done (inr NotValidated) else
      if interval =? 0 then Panic else
      let resultsLength := Z.quot (height nd) interval in
      if resultsLength <? 0 then Panic else
      intervalDown (Z.to_nat resultsLength) b interval endNode []
  end.

(** ** Locators *)

(** The first hash of the locator that is on the main chain *)
Fixpoint locateStart (b : BlockChain) (locator : list hash_t) : run (option loc * BlockChain) :=
  match locator with
  | [] => Done (None, b)
  | hs :: locator =>
      inMem ← match LookupNode b hs with
              | Some l => c ← ChainView.contains (heap_ b) (bestChain b) l; Done (if c : bool then Some l else None)
              | None => Done None
              end;
      match inMem with
      | Some l => Done (Some l, b)
      | None =>
          '(cold, b) ← materializeColdNode b hs;
          main ← match cold with Some _ => isMainChainHash b hs | None => Done false end;
          match cold, main with
          | Some l, true => Done (Some l, b)
          | _, _ => locateStart b locator
          end
      end
  end.

(** The number of entries, in 32 bits without sign *)
Definition inventoryTotal (b : BlockChain) (start tip : blockNode) (stop : option loc) (maxEntries : Z) : run Z :=
  let total := u32 (i32 (i32 (height tip - height start) + 1)) in
  total ← match stop with
          | None => Done total
          | Some l =>
              c ← onMainChain b l;
              nd ← deref (heap_ b) l;
              Done (if c && (height start <=? height nd) then u32 (i32 (i32 (height nd - height start) + 1)) else total)
          end;
  Done (if maxEntries <? total then maxEntries else total).

Definition locateInventory (b : BlockChain) (locator : list hash_t) (hashStop : hash_t) (maxEntries : Z) :
    run (option loc * Z * BlockChain) :=
  '(stopNode, b) ← lookup_or_cold b hashStop;
  match locator with
  | [] => Done (stopNode, match stopNode with Some _ => 1 | None => 0 end, b)
  | _ =>
      '(found, b) ← locateStart b locator;
      start ← match found with
              | Some l => Done (Some l)
              | None => if ChainView.viewHeight (bestChain b) <? 0 then Done None
                        else l ← of_option (ChainView.genesis (bestChain b)); Done (Some l)
              end;
      match start with
      | None => Done (None, 0, b)
      | Some l =>
          nd ← deref (heap_ b) l;
          '(next, b) ← nodeAtHeight b (i32 (height nd + 1));
          match next with
          | None => Done (None, 0, b)
          | Some l =>
              nd ← deref (heap_ b) l;
              t ← of_option (ChainView.tip (bestChain b));
              tn ← deref (heap_ b) t;
              total ← inventoryTotal b nd tn stopNode maxEntries;
              Done (Some l, total, b)
          end
      end
  end.

(** The successors of the first node in one range *)
Definition successors (b : BlockChain) (nd : blockNode) (total : Z) : run (list (option loc) * BlockChain) :=
  nodesInHeightRange b (i32 (height nd + 1)) (i32 (i32 (height nd + i32 total) - 1)).

Definition locateBlocks (b : BlockChain) (locator : list hash_t) (hashStop : hash_t) (maxHashes : Z) : run (list hash_t * BlockChain) :=
  '(node, total, b) ← locateInventory b locator hashStop maxHashes;
  if total =? 0 then Done ([], b) else
  l ← of_option node;
  nd ← deref (heap_ b) l;
  '(ns, b) ← successors b nd total;
  r ← hashesOf (heap_ b) ns;
  Done (hash nd :: r.1, b).

Definition LocateBlocks := locateBlocks.

Fixpoint headersOf (h : heap) (ns : list (option loc)) : run (list Wire.BlockHeader) :=
  match ns with
  | Some l :: ns => nd ← deref h l; r ← headersOf h ns; Done (BlockNode.Header nd :: r)
  | _ => Done []
  end.

Definition locateHeaders (b : BlockChain) (locator : list hash_t) (hashStop : hash_t) (maxHeaders : Z) :
    run (list Wire.BlockHeader * BlockChain) :=
  '(node, total, b) ← locateInventory b locator hashStop maxHeaders;
  if total =? 0 then Done ([], b) else
  l ← of_option node;
  nd ← deref (heap_ b) l;
  '(ns, b) ← successors b nd total;
  hs ← headersOf (heap_ b) ns;
  Done (BlockNode.Header nd :: hs, b).

Definition LocateHeaders (b : BlockChain) (locator : list hash_t) (hashStop : hash_t) : run (list Wire.BlockHeader * BlockChain) :=
  locateHeaders b locator hashStop MaxBlockHeadersPerMsg.

(** ** What locators are answered with *)

(** The rows are readable, and there are none for unknown blocks. *)
Record db_ok (T : tree) (d : database) : Prop := {
  do_known : heights_ok T d;
  do_heights : ∀ g hs, 0 ≤ g < 2 ^ 31 → dbFetchHashByHeight d g = inl hs → ∃ hd, T !! hs = Some (hd, g);
  do_rows : ∀ hs, T !! hs = None → ∃ r, ChainIO.dbFetchBlockRowByHash d hs = Done r ∧ ∀ x, r ≠ inl (Some x);
  do_hashes : ∀ hs, ∃ r, ChainIO.dbFetchHeightByHash d hs = Done r;
}.

(** A non-empty view of nodes in memory, each at its height *)
Definition view_in (b : BlockChain) : Prop :=
  is_Some (ChainView.tip (bestChain b)) ∧ is_Some (ChainView.genesis (bestChain b)) ∧
  (∀ l, Some l ∈ ChainView.nodes (bestChain b) → is_Some (heap_ b !! l)) ∧
  ∀ g l nd, ChainView.nodeByHeight (bestChain b) g = Some l → heap_ b !! l = Some nd → height nd = g.

(** The hash the node has at a height: that of the view of the best chain, or that of the
    index by height where the view has no node *)
Definition served (b : BlockChain) (d : database) (g : Z) : option hash_t :=
  match ChainView.nodeByHeight (bestChain b) g with
  | Some l => hash <$> heap_ b !! l
  | None => match dbFetchHashByHeight d g with inl hs => Some hs | inr _ => None end
  end.

(** The answer to a locator, from the list of the main chain's hashes: the blocks after
    the first one of the locator that is on the chain, or after the first block of the
    view when none is, up to the stop block if it is on the chain and after the start,
    and up to the tip otherwise *)
Definition heightIn (C : list hash_t) (hs : hash_t) : option Z := (fun x => Z.of_nat x.1) <$> list_find (fun c => c = hs) C.

Definition startHeight (base : Z) (C locator : list hash_t) : Z := default base (head (omap (heightIn C) locator)).

Definition lastHeight (C : list hash_t) (start : Z) (stop : hash_t) : Z :=
  match heightIn C stop with
  | Some g => if start <? g then g else zlen C - 1
  | None => zlen C - 1
  end.

Definition answer (base : Z) (C locator : list hash_t) (stop : hash_t) (maxHashes : Z) : list hash_t :=
  let start := startHeight base C locator in
  take (Z.to_nat maxHashes) (drop (Z.to_nat (start + 1)) (take (Z.to_nat (lastHeight C start stop + 1)) C)).

Definition reply (T : tree) (base : Z) (C locator : list hash_t) (stop : hash_t) (maxHashes : Z) : list hash_t :=
  match locator with
  | [] => match T !! stop with Some _ => [stop] | None => [] end
  | _ => answer base C locator stop maxHashes
  end.

(** [C] is the main chain: its blocks from the base of the view are nodes of the view that
    are found by hash, and those below are in both indexes. *)
Record main_chain (d : database) (C : list hash_t) (b : BlockChain) : Prop := {
  mc_length : zlen C = ChainView.base (bestChain b) + zlen (ChainView.nodes (bestChain b));
  mc_base : 0 ≤ ChainView.base (bestChain b);
  mc_view : ∀ i hs, C !! i = Some hs → ChainView.base (bestChain b) ≤ Z.of_nat i →
    ∃ l, ChainView.nodeByHeight (bestChain b) (Z.of_nat i) = Some l ∧ node_of (heap_ b) hs l ∧ index_ b !! hs = Some l;
  mc_rows : ∀ i hs, C !! i = Some hs → Z.of_nat i < ChainView.base (bestChain b) →
    dbFetchHashByHeight d (Z.of_nat i) = inl hs ∧ ChainIO.dbFetchHeightByHash d hs = Done (inl (Z.of_nat i));
}.

(** The indexes do not name the block as the one at its height, unless it is on the main
    chain.  They do name blocks above the tip of which only the header is known. *)
Definition index_ok (d : database) (C : list hash_t) (hs : hash_t) : Prop :=
  hs ∉ C → ∀ g, ChainIO.dbFetchHeightByHash d hs = Done (inl g) → dbFetchHashByHeight d g ≠ inl hs.

Lemma heightIn_Some C hs g : heightIn C hs = Some g → 0 ≤ g ∧ C !! Z.to_nat g = Some hs.
Proof.
  unfold heightIn. destruct (list_find _ C) as [[i x]|] eqn:E; [|done]. intros [= <-]. apply list_find_Some in E as (E&->&_). cbn.
  rewrite Nat2Z.id. split; [lia|done].
Qed.

Lemma heightIn_None C hs : heightIn C hs = None ↔ hs ∉ C.
Proof.
  unfold heightIn. rewrite fmap_None, list_find_None, Forall_forall. naive_solver.
Qed.

Lemma heightIn_lt C hs g : heightIn C hs = Some g → 0 ≤ g < zlen C.
Proof. intros [H0 H]%heightIn_Some. apply lookup_lt_Some in H. unfold zlen. lia. Qed.

Lemma start_range base C locator : 0 ≤ base < zlen C → 0 ≤ startHeight base C locator < zlen C.
Proof.
  intros Hb. unfold startHeight. induction locator as [|hs locator IH]; [done|]. cbn [omap list_omap].
  destruct (heightIn C hs) as [g|] eqn:E; [|done]. cbn. by apply heightIn_lt in E.
Qed.

Lemma last_range C start stop : start < zlen C → start ≤ lastHeight C start stop < zlen C.
Proof.
  intros Hs. unfold lastHeight. destruct (heightIn C stop) as [g|] eqn:E; [|lia]. apply heightIn_lt in E.
  destruct (Z.ltb_spec start g); lia.
Qed.

(** The answer in the order the code computes it: the number of hashes first *)
Lemma answer_count base C locator stop maxHashes : 0 ≤ base < zlen C → 0 ≤ maxHashes →
  answer base C locator stop maxHashes =
  let start := startHeight base C locator in
  take (Z.to_nat (Z.min maxHashes (lastHeight C start stop - start))) (drop (Z.to_nat (start + 1)) C).
Proof.
  intros Hb Hm. unfold answer. cbn zeta. pose proof (start_range base C locator Hb) as Hs.
  pose proof (last_range C (startHeight base C locator) stop ltac:(lia)) as Hl. set (s := startHeight base C locator) in *. set (e := lastHeight C s stop) in *.
  replace (Z.to_nat (e + 1)) with (Z.to_nat (s + 1) + Z.to_nat (e - s))%nat by lia. rewrite <-take_drop_commute, take_take. f_equal. lia.
Qed.

Section locate.
Context (T : tree) (d : database) (Hdb : db_ok T d).

(** A state of the chain that the queries can start from *)
Definition ready (b : BlockChain) : Prop := chain_ok T b ∧ db b = Some d ∧ view_in b.

Lemma nodeByHeight_in c g l : ChainView.nodeByHeight c g = Some l → Some l ∈ ChainView.nodes c.
Proof.
  unfold ChainView.nodeByHeight. destruct (_ || _); [done|]. destruct (ChainView.nodes c !! _) as [x|] eqn:E; [|done]. cbn. intros ->.
  by eapply list_elem_of_lookup_2.
Qed.

Lemma grown b b' : ready b → chain_ok T b' → grows b b' → ready b'.
Proof.
  intros (Hok&Hd&Ht&Hg&Hv&Hh) Hok' (Gh&_&Gv&Gd&_).
  split; [done|]. split; [congruence|]. unfold view_in. rewrite Gv. split; [done|]. split; [done|]. split.
  - intros l Hl. destruct (Hv l Hl) as [nd Hn]. destruct (Gh l nd Hn) as (nd'&?&_). by eexists.
  - intros g l nd' Hn Hl'. destruct (Hv l (nodeByHeight_in _ _ _ Hn)) as [nd Hl]. destruct (Gh l nd Hl) as (nd''&Hl''&E&_).
    rewrite Hl' in Hl''. injection Hl'' as <-. rewrite <-(Hh g l nd Hn Hl). exact (f_equal height E).
Qed.

Lemma enabled b : ready b → coldReadEnabled b = true.
Proof.
  intros (Hok&Hd&_). unfold coldReadEnabled. rewrite Hd, bool_decide_eq_true_2 by (by eexists).
  pose proof (co_window _ _ Hok). by destruct (Z.eqb_spec (headerWindow b) 0).
Qed.

(** Outcomes of the reads: the state grows. *)
Definition reads {A} (b : BlockChain) (m : run (A * BlockChain)) (P : A → BlockChain → Prop) : Prop :=
  ∃ a b', m = Done (a, b') ∧ ready b' ∧ grows b b' ∧ P a b'.

Lemma reads_bind {A B} b (m : run (A * BlockChain)) (f : A * BlockChain → run (B * BlockChain)) P Q' :
  reads b m P → (∀ a b', ready b' → grows b b' → P a b' → reads b' (f (a, b')) Q') → reads b (m ≫= f) Q'.
Proof.
  intros (a&b1&->&Hr&Hg&HP) Hf. destruct (Hf a b1 Hr Hg HP) as (c&b2&E&Hr2&Hg2&HQ). exists c, b2. cbn [mbind run_bind].
  split; [done|]. split; [done|]. split; [by etransitivity|done].
Qed.

Lemma reads_ret {A} b (a : A) (P : A → BlockChain → Prop) : ready b → P a b → reads b (Done (a, b)) P.
Proof. intros Hr HP. exists a, b. split; [done|]. split; [done|]. split; [reflexivity|done]. Qed.

(** The node of a block: that of the index if it has one, and no node only for a block
    that is not known *)
Definition node_for (hs : hash_t) (l : loc) (b : BlockChain) : Prop :=
  node_of (heap_ b) hs l ∧ ∀ l0, index_ b !! hs = Some l0 → l0 = l.

Definition resolved (hs : hash_t) (o : option loc) (b : BlockChain) : Prop :=
  match o with Some l => node_for hs l b | None => T !! hs = None end.

Lemma node_for_grows hs l b b' : grows b b' → node_for hs l b → node_for hs l b'.
Proof. intros (Gh&Gi&_) [H1 H2]. split; [by eapply node_of_grows|]. by rewrite Gi. Qed.

Lemma resolved_grows hs o b b' : grows b b' → resolved hs o b → resolved hs o b'.
Proof. intros G. destruct o; [by apply node_for_grows|done]. Qed.

Lemma node_known b hs l : ready b → node_of (heap_ b) hs l → ∃ nd, heap_ b !! l = Some nd ∧ hash nd = hs ∧ T !! hs = Some (BlockNode.Header nd, height nd).
Proof. intros Hr (nd&Hl&<-). destruct (co_heap _ _ (proj1 Hr) l nd Hl) as [HT _]. by exists nd. Qed.

Lemma index_for b hs l : ready b → index_ b !! hs = Some l → node_for hs l b.
Proof. intros Hr E. split; [exact (co_index _ _ (proj1 Hr) hs l E)|]. intros l0. rewrite E. by intros [= <-]. Qed.

Lemma materialize_reads b hs : ready b → reads b (materializeColdNode b hs) (resolved hs).
Proof.
  intros Hr. pose proof Hr as (Hok&Hd&_). destruct (index_ b !! hs) as [l0|] eqn:E1.
  { exists (Some l0), b. split; [|split; [done|]; split; [reflexivity|by apply index_for]].
    unfold materializeColdNode, materializeColdNodeWithTx, LookupNode. by rewrite Hd, enabled, E1. }
  destruct (T !! hs) as [[hd g]|] eqn:HT.
  - destruct (materialize_ok T b hs hd g Hok HT) as (l&b'&E&Hok'&Hg&Hn&_). exists (Some l), b'. split; [done|].
    split; [by apply (grown b)|]. split; [done|]. split; [done|]. destruct Hg as (_&->&_). congruence.
  - destruct (do_rows _ _ Hdb hs HT) as (r&Er&Hn). exists None, b.
    assert (materializeColdNode b hs = Done (None, b)) as ->; [|split; [done|]; split; [done|]; split; [reflexivity|done]].
    unfold materializeColdNode. rewrite Hd, enabled by done. unfold materializeColdNodeWithTx, LookupNode, get. rewrite E1.
    destruct (cached (coldCache b) !! hs) as [l|] eqn:E2.
    { destruct (node_known b hs l Hr) as (nd&_&_&HT'); [by apply (co_cold _ _ Hok)|congruence]. }
    rewrite Er. cbn [mbind run_bind]. destruct r as [[x|]|]; [by destruct (Hn x)|done..].
Qed.

Lemma lookup_reads b hs : ready b → reads b (lookup_or_cold b hs) (resolved hs).
Proof.
  intros Hr. unfold lookup_or_cold, LookupNode. destruct (index_ b !! hs) as [l|] eqn:E; [|by apply materialize_reads].
  apply reads_ret; [done|]. by apply index_for.
Qed.

(** The node at a height is that of the block the node has there. *)
Definition servedAt (g : Z) (b : BlockChain) (o : option loc) (b' : BlockChain) : Prop :=
  match o with
  | Some l => ∃ nd, heap_ b' !! l = Some nd ∧ height nd = g ∧ served b d g = Some (hash nd)
  | None => served b d g = None
  end.

Lemma at_reads b g : ready b → 0 ≤ g < 2 ^ 31 → reads b (nodeAtHeight b g) (servedAt g b).
Proof.
  intros Hr Hg0. pose proof Hr as (Hok&Hd&_&_&Hv&Hh). unfold nodeAtHeight.
  destruct (ChainView.nodeByHeight (bestChain b) g) as [l|] eqn:El.
  - apply reads_ret; [done|]. destruct (Hv l (nodeByHeight_in _ _ _ El)) as [nd Hn]. exists nd.
    split; [done|]. split; [by eapply Hh|]. unfold served. by rewrite El, Hn.
  - unfold coldNodeAtHeight. rewrite Hd, enabled by done.
    destruct (dbFetchHashByHeight d g) as [hs|e] eqn:E; [|apply reads_ret; [done|]; cbn; unfold served; by rewrite El, E].
    destruct (do_heights _ _ Hdb g hs Hg0 E) as [hd HT].
    destruct (materializeWithTx_ok T b d hs Hok Hd ltac:(by rewrite HT)) as (l&b'&E'&Hok'&Hg&(nd&Hn&Eh)). exists (Some l), b'.
    split; [done|]. split; [by apply (grown b)|]. split; [done|]. exists nd. split; [done|].
    destruct (co_heap _ _ Hok' l nd Hn) as [HT' _]. rewrite Eh, HT in HT'. split; [congruence|].
    unfold served. by rewrite El, E, Eh.
Qed.

Lemma hashesOf_exact h ns hs : Forall2 (fun o x => ∃ l, o = Some l ∧ node_of h x l) ns hs → hashesOf h ns = Done (hs, true).
Proof.
  induction 1 as [|o x ns hs (l&->&nd&Hn&<-) _ IH]; [done|]. cbn [hashesOf]. rewrite (BlockNode.deref_Some _ _ _ Hn). cbn [mbind run_bind].
  rewrite IH. done.
Qed.

(** Where the node serves a list of hashes, the successors are the nodes of that list. *)
Lemma successors_reads b l nd total hs : ready b → heap_ b !! l = Some nd → 0 < total → height nd + total < 2 ^ 31 - 1 →
  zlen hs = total - 1 → (∀ i x, hs !! i = Some x → served b d (height nd + 1 + Z.of_nat i) = Some x) →
  reads b (successors b nd total) (fun ns b' => hashesOf (heap_ b') ns = Done (hs, true)).
Proof.
  intros Hr Hn Ht Hmax Hlen Hhs. pose proof Hr as (Hok&Hd&_&_&Hv&_). destruct (co_heap _ _ Hok l nd Hn) as [HT _].
  destruct (co_tree _ _ Hok) as [_ Htree]. destruct (Htree _ _ HT) as [[Hh0 _] _]. cbn in Hh0.
  unfold successors. rewrite (swrap_small 32 total), (swrap_small 32 (height nd + 1)), (swrap_small 32 (height nd + total)),
    (swrap_small 32 (height nd + total - 1)) by zlia.
  destruct (Z.eq_dec total 1) as [->|Hne].
  { unfold nodesInHeightRange. destruct (Z.ltb_spec (height nd + 1 - 1) (height nd + 1)); [|lia]. apply reads_ret; [done|].
    destruct hs; [done|]. unfold zlen in Hlen. cbn in Hlen. lia. }
  destruct (range_served T b d (height nd + 1) (height nd + total - 1) Hok Hd (do_known _ _ Hdb)) as (out&b'&E&Hok'&Hg&Hlen'&Hs); [lia..|].
  exists out, b'. split; [done|]. split; [by apply (grown b)|]. split; [done|]. unfold zlen in Hlen, Hlen'.
  apply hashesOf_exact, Forall2_same_length_lookup. split; [lia|]. intros i o x Ho Hx. pose proof (lookup_lt_Some _ _ _ Hx) as Hlt.
  destruct (Hs (height nd + 1 + Z.of_nat i)) as (o'&Ho'&Hso); [lia|].
  replace (Z.to_nat (height nd + 1 + Z.of_nat i - (height nd + 1))) with i in Ho' by lia. rewrite Ho in Ho'. injection Ho' as <-.
  specialize (Hhs i x Hx). unfold slot_ok in Hso. unfold served in Hhs. destruct (ChainView.nodeByHeight (bestChain b) _) as [y|] eqn:Ey.
  - exists y. split; [done|]. destruct (heap_ b !! y) as [yn|] eqn:Hy; [|done]. injection Hhs as Hhs.
    eapply node_of_grows; [apply Hg|]. by exists yn.
  - destruct (dbFetchHashByHeight d _) as [hs'|]; [|done]. injection Hhs as <-. done.
Qed.

(** *** With the main chain known *)

Section chain.
Context (C : list hash_t).

Lemma main_grows b b' : grows b b' → main_chain d C b → main_chain d C b'.
Proof.
  intros (Gh&Gi&Gv&_) [H1 H2 H3 H4]. split; rewrite ?Gv, ?Gi; [done|done| |done]. intros i hs Hi Hb. destruct (H3 i hs Hi Hb) as (l&?&?&?).
  exists l. split; [done|]. split; [by eapply node_of_grows|done].
Qed.

Lemma view_node b i hs l : ready b → main_chain d C b → C !! i = Some hs → ChainView.nodeByHeight (bestChain b) (Z.of_nat i) = Some l →
  ∃ nd, heap_ b !! l = Some nd ∧ hash nd = hs ∧ height nd = Z.of_nat i.
Proof.
  intros Hr Hm Hi Hn. destruct (Z.lt_ge_cases (Z.of_nat i) (ChainView.base (bestChain b))) as [Hlt|Hge].
  { unfold ChainView.nodeByHeight in Hn. by destruct (Z.ltb_spec (Z.of_nat i) (ChainView.base (bestChain b))); [|lia]. }
  destruct (mc_view _ _ _ Hm i hs Hi Hge) as (l'&E&(nd&Hl&Hh)&_). rewrite Hn in E. injection E as <-. exists nd. split; [done|]. split; [done|].
  pose proof Hr as (_&_&_&_&_&Hv). by eapply Hv.
Qed.

(** The view is not empty, and heights fit 31 bits. *)
Lemma main_range b : ready b → main_chain d C b → 0 ≤ ChainView.base (bestChain b) < zlen C ∧ zlen C ≤ 2 ^ 31.
Proof.
  intros Hr Hm. pose proof (mc_length _ _ _ Hm) as HL. pose proof (mc_base _ _ _ Hm) as HB. pose proof Hr as (Hok&_&[t Ht]&_).
  assert (0 < zlen (ChainView.nodes (bestChain b))) as Hpos.
  { unfold ChainView.tip in Ht. destruct (ChainView.nodes (bestChain b)); [done|]. unfold zlen. cbn. lia. }
  split; [lia|]. destruct (lookup_lt_is_Some_2 C (length C - 1)) as [hs Hi]; [unfold zlen in *; lia|].
  destruct (mc_view _ _ _ Hm _ _ Hi) as (l&Hn&_); [unfold zlen in *; lia|].
  destruct (view_node b _ _ _ Hr Hm Hi Hn) as (nd&Hl&_&Hh). destruct (co_heap _ _ Hok l nd Hl) as [HT _].
  destruct (co_tree _ _ Hok) as [_ Htree]. destruct (Htree _ _ HT) as [[_ Hh0] _]. cbn in Hh0. unfold zlen in *. lia.
Qed.

Lemma main_height b i hs : ready b → main_chain d C b → C !! i = Some hs → ∃ hd, T !! hs = Some (hd, Z.of_nat i).
Proof.
  intros Hr Hm Hi. destruct (Z.lt_ge_cases (Z.of_nat i) (ChainView.base (bestChain b))) as [Hlt|Hge].
  - destruct (mc_rows _ _ _ Hm i hs Hi Hlt) as [E _]. apply (do_heights _ _ Hdb); [|done].
    pose proof (main_range b Hr Hm). lia.
  - destruct (mc_view _ _ _ Hm i hs Hi Hge) as (l&Hn&_). destruct (view_node b _ _ _ Hr Hm Hi Hn) as (nd&Hl&<-&<-).
    destruct (co_heap _ _ (proj1 Hr) l nd Hl) as [HT _]. by eexists.
Qed.

Lemma main_served b i hs : ready b → main_chain d C b → C !! i = Some hs → served b d (Z.of_nat i) = Some hs.
Proof.
  intros Hr Hm Hi. unfold served. destruct (ChainView.nodeByHeight (bestChain b) (Z.of_nat i)) as [l|] eqn:En.
  - destruct (view_node b _ _ _ Hr Hm Hi En) as (nd&->&<-&_). done.
  - destruct (Z.lt_ge_cases (Z.of_nat i) (ChainView.base (bestChain b))) as [Hlt|Hge].
    + destruct (mc_rows _ _ _ Hm i hs Hi Hlt) as [-> _]. done.
    + destruct (mc_view _ _ _ Hm i hs Hi Hge) as (l&Hn&_). congruence.
Qed.

Lemma heightIn_main b i hs : ready b → main_chain d C b → C !! i = Some hs → heightIn C hs = Some (Z.of_nat i).
Proof.
  intros Hr Hm Hi. destruct (heightIn C hs) as [g|] eqn:E.
  - apply heightIn_Some in E as [Hg0 E]. destruct (main_height b _ _ Hr Hm Hi) as [hd H1]. destruct (main_height b _ _ Hr Hm E) as [hd' H2].
    rewrite H1 in H2. injection H2 as _ H2. f_equal. lia.
  - apply heightIn_None in E. destruct E. by eapply list_elem_of_lookup_2.
Qed.

(** The node of a block of the main chain is at the block's height. *)
Lemma node_height b hs l g : ready b → main_chain d C b → node_of (heap_ b) hs l → heightIn C hs = Some g →
  ∃ nd, heap_ b !! l = Some nd ∧ height nd = g.
Proof.
  intros Hr Hm Hl [Hg0 E]%heightIn_Some. destruct (node_known b hs l Hr Hl) as (nd&Hn&_&HT). destruct (main_height b _ _ Hr Hm E) as [hd' H2].
  exists nd. split; [done|]. rewrite HT in H2. injection H2 as _ H2. lia.
Qed.

(** The block is on the chain and in the view. *)
Definition inView (b : BlockChain) (hs : hash_t) : bool :=
  match heightIn C hs with Some g => ChainView.base (bestChain b) <=? g | None => false end.

Lemma contains_main b hs l : ready b → main_chain d C b → node_for hs l b → ChainView.contains (heap_ b) (bestChain b) l = Done (inView b hs).
Proof.
  intros Hr Hm [Hl Hi]. destruct (node_known b hs l Hr Hl) as (nd&Hn&Hh&_). rewrite (ChainView.contains_spec _ _ _ _ Hn). f_equal. unfold inView.
  destruct (heightIn C hs) as [g|] eqn:E.
  - destruct (node_height b hs l g Hr Hm Hl E) as (nd'&Hn'&Eg). rewrite Hn in Hn'. injection Hn' as <-. rewrite Eg.
    apply heightIn_Some in E as [Hg0 E]. destruct (Z.leb_spec (ChainView.base (bestChain b)) g) as [Hle|Hlt].
    + apply bool_decide_eq_true. destruct (mc_view _ _ _ Hm _ _ E) as (l0&H0&_&Hi0); [lia|]. apply Hi in Hi0 as ->.
      by rewrite Z2Nat.id in H0 by lia.
    + apply bool_decide_eq_false. unfold ChainView.nodeByHeight. by destruct (Z.ltb_spec g (ChainView.base (bestChain b))); [|lia].
  - apply bool_decide_eq_false. intros Hv. apply heightIn_None in E. destruct E. pose proof (mc_length _ _ _ Hm) as HL. pose proof (mc_base _ _ _ Hm) as HB.
    assert (0 ≤ height nd < zlen C) as Hr0.
    { unfold ChainView.nodeByHeight in Hv. destruct (_ || _) eqn:Eo; [done|]. apply orb_false_iff in Eo as [E1 E2]. lia. }
    destruct (lookup_lt_is_Some_2 C (Z.to_nat (height nd))) as [hs' Hc]; [unfold zlen in Hr0; lia|].
    assert (ChainView.nodeByHeight (bestChain b) (Z.of_nat (Z.to_nat (height nd))) = Some l) as Hv' by (by rewrite Z2Nat.id by lia).
    destruct (view_node b _ _ _ Hr Hm Hc Hv') as (nd'&Hn'&Eh&_). rewrite Hn in Hn'. injection Hn' as <-. rewrite <-Hh, Eh. by eapply list_elem_of_lookup_2.
Qed.

Lemma hash_main b hs : ready b → main_chain d C b → index_ok d C hs → inView b hs = false →
  isMainChainHash b hs = Done (bool_decide (is_Some (heightIn C hs))).
Proof.
  intros Hr Hm Hx Hv. pose proof Hr as (_&Hd&_). unfold isMainChainHash. rewrite Hd, enabled by done. unfold inView in Hv.
  destruct (heightIn C hs) as [g|] eqn:E.
  - apply heightIn_Some in E as [Hg0 E]. destruct (mc_rows _ _ _ Hm _ _ E) as [E1 E2]; [lia|]. rewrite E2. cbn [mbind run_bind]. rewrite E1.
    by rewrite !bool_decide_eq_true_2 by (by eexists).
  - apply heightIn_None in E. specialize (Hx E). destruct (do_hashes _ _ Hdb hs) as [r Er]. rewrite Er in Hx |- *. cbn [mbind run_bind].
    rewrite (bool_decide_eq_false_2 (is_Some None)) by (by intros []). destruct r as [g|]; [|done]. specialize (Hx g eq_refl).
    destruct (dbFetchHashByHeight d g) as [hs'|]; [|done]. by rewrite bool_decide_eq_false_2 by congruence.
Qed.

Lemma onMain_spec b hs l : ready b → main_chain d C b → index_ok d C hs → node_for hs l b →
  onMainChain b l = Done (bool_decide (is_Some (heightIn C hs))).
Proof.
  intros Hr Hm Hx Hl. unfold onMainChain. rewrite (contains_main b hs l Hr Hm Hl). cbn [mbind run_bind]. destruct (inView b hs) eqn:Ev.
  - unfold inView in Ev. destruct (heightIn C hs); [|done]. by rewrite bool_decide_eq_true_2 by (by eexists).
  - destruct Hl as [(nd&Hn&Hh) _]. rewrite (BlockNode.deref_Some _ _ _ Hn). cbn [mbind run_bind]. rewrite Hh. by apply hash_main.
Qed.

(** [locateStart] finds the first hash of the locator that is on the chain. *)
Definition startsAt (locator : list hash_t) (o : option loc) (b : BlockChain) : Prop :=
  match head (omap (heightIn C) locator) with
  | Some g => ∃ l nd, o = Some l ∧ heap_ b !! l = Some nd ∧ height nd = g
  | None => o = None
  end.

Lemma start_reads b locator : ready b → main_chain d C b → Forall (index_ok d C) locator → reads b (locateStart b locator) (startsAt locator).
Proof.
  revert b. induction locator as [|hs locator IH]; intros b Hr Hm Hx; cbn [locateStart]; [by apply reads_ret|].
  apply Forall_cons in Hx as [Hx Hxs].
  assert (match LookupNode b hs with
    | Some l => c ← ChainView.contains (heap_ b) (bestChain b) l; Done (if c : bool then Some l else None)
    | None => Done None end = Done (if inView b hs then LookupNode b hs else None)) as ->.
  { unfold LookupNode. destruct (index_ b !! hs) as [l|] eqn:E; [|by destruct (inView b hs)].
    rewrite (contains_main b hs l Hr Hm) by (by apply index_for). by destruct (inView b hs). }
  cbn [mbind run_bind]. destruct (inView b hs) eqn:Ev.
  { pose proof Ev as Hv. unfold inView in Hv. destruct (heightIn C hs) as [g|] eqn:E; [|done]. pose proof E as [Hg0 Hi]%heightIn_Some.
    destruct (mc_view _ _ _ Hm _ _ Hi) as (l&_&Hl&Hix); [lia|]. unfold LookupNode. rewrite Hix. apply reads_ret; [done|].
    unfold startsAt. cbn [omap list_omap]. rewrite E. cbn [head]. destruct (node_height b hs l g Hr Hm Hl E) as (nd&Hn&Hg). by exists l, nd. }
  apply (reads_bind b _ _ (resolved hs)); [by apply materialize_reads|]. intros cold b' Hr' G Hc. cbn [mbind run_bind].
  pose proof (main_grows b b' G Hm) as Hm'. unfold startsAt. cbn [omap list_omap]. destruct cold as [l|].
  - destruct Hc as [Hl _]. assert (inView b' hs = false) as Ev' by (unfold inView in *; by rewrite (proj1 (proj2 (proj2 G)))).
    rewrite (hash_main b' hs Hr' Hm' Hx Ev'). cbn [mbind run_bind]. destruct (heightIn C hs) as [g|] eqn:E.
    + rewrite bool_decide_eq_true_2 by (by eexists). apply reads_ret; [done|]. cbn [head].
      destruct (node_height b' hs l g Hr' Hm' Hl E) as (nd&Hn&Hg). by exists l, nd.
    + rewrite bool_decide_eq_false_2 by (by intros []). by apply IH.
  - cbn [mbind run_bind]. destruct (heightIn C hs) as [g|] eqn:E; [|by apply IH].
    apply heightIn_Some in E as [_ E]. destruct (main_height b _ _ Hr Hm E) as [hd HT]. cbn in Hc. congruence.
Qed.

(** The number of entries, for a first node just after the start *)
Lemma total_spec b start nd tn stop stopNode maxEntries : ready b → main_chain d C b → index_ok d C stop → resolved stop stopNode b →
  0 ≤ start < zlen C → height nd = start + 1 → height tn = zlen C - 1 → zlen C < 2 ^ 31 - 1 →
  inventoryTotal b nd tn stopNode maxEntries = Done (Z.min maxEntries (lastHeight C start stop - start)).
Proof.
  intros Hr Hm Hx Hs Hst Hnd Htn Hmax. unfold inventoryTotal.
  assert (∀ h, start ≤ h < zlen C → u32 (i32 (i32 (h - height nd) + 1)) = h - start) as Hu.
  { intros h Hh. rewrite Hnd. rewrite (swrap_small 32 (h - (start + 1))) by zlia. rewrite (swrap_small 32 (h - (start + 1) + 1)) by zlia.
    rewrite uwrap_small by lia. lia. }
  assert (∀ t, Done (if maxEntries <? t then maxEntries else t) = Done (Z.min maxEntries t)) as Hmin.
  { intros t. f_equal. destruct (Z.ltb_spec maxEntries t); lia. }
  rewrite Htn, (Hu (zlen C - 1)) by lia. unfold lastHeight. destruct stopNode as [l|].
  - rewrite (onMain_spec b stop l Hr Hm Hx Hs). cbn [mbind run_bind]. destruct Hs as [Hl _]. pose proof Hl as (sn&Hsn&_).
    rewrite (BlockNode.deref_Some _ _ _ Hsn). cbn [mbind run_bind]. rewrite Hmin. do 2 f_equal. destruct (heightIn C stop) as [g|] eqn:E.
    + rewrite bool_decide_eq_true_2 by (by eexists). destruct (node_height b stop l g Hr Hm Hl E) as (sn'&Hsn'&Hg). rewrite Hsn in Hsn'. injection Hsn' as <-.
      rewrite Hg, Hnd. apply heightIn_lt in E. cbn [andb]. destruct (Z.leb_spec (start + 1) g), (Z.ltb_spec start g); try lia. rewrite <-Hnd. apply Hu. lia.
    + rewrite bool_decide_eq_false_2 by (by intros []). done.
  - cbn [mbind run_bind]. rewrite Hmin. destruct (heightIn C stop) as [g|] eqn:E; [|done].
    apply heightIn_Some in E as [_ E]. destruct (main_height b _ _ Hr Hm E) as [hd HT]. cbn in Hs. congruence.
Qed.

(** The ends of the view *)
Lemma genesis_node b : ready b → main_chain d C b → ∃ l nd, ChainView.genesis (bestChain b) = Some l ∧ heap_ b !! l = Some nd ∧ height nd = ChainView.base (bestChain b).
Proof.
  intros Hr Hm. destruct (main_range b Hr Hm) as [HB _]. pose proof (mc_length _ _ _ Hm) as HL. pose proof Hr as (_&_&_&[l Hl]&Hv&Hh). exists l.
  assert (ChainView.nodeByHeight (bestChain b) (ChainView.base (bestChain b)) = Some l) as Hn.
  { unfold ChainView.nodeByHeight. destruct (Z.ltb_spec (ChainView.base (bestChain b)) (ChainView.base (bestChain b))); [lia|].
    destruct (Z.leb_spec (ChainView.base (bestChain b) + zlen (ChainView.nodes (bestChain b))) (ChainView.base (bestChain b))); [lia|]. cbn [orb].
    rewrite Z.sub_diag. change (Z.to_nat 0) with 0%nat. unfold ChainView.genesis in Hl. by rewrite head_lookup in Hl. }
  destruct (Hv l (nodeByHeight_in _ _ _ Hn)) as [nd Hnd]. exists nd. split; [done|]. split; [done|]. by eapply Hh.
Qed.

Lemma tip_node b : ready b → main_chain d C b → ∃ l nd, ChainView.tip (bestChain b) = Some l ∧ heap_ b !! l = Some nd ∧ height nd = zlen C - 1.
Proof.
  intros Hr Hm. destruct (main_range b Hr Hm) as [HB _]. pose proof (mc_length _ _ _ Hm) as HL. pose proof Hr as (_&_&[l Hl]&_&Hv&Hh). exists l.
  assert (ChainView.nodeByHeight (bestChain b) (zlen C - 1) = Some l) as Hn.
  { unfold ChainView.nodeByHeight. destruct (Z.ltb_spec (zlen C - 1) (ChainView.base (bestChain b))); [lia|].
    destruct (Z.leb_spec (ChainView.base (bestChain b) + zlen (ChainView.nodes (bestChain b))) (zlen C - 1)); [lia|]. cbn [orb].
    unfold ChainView.tip in Hl. rewrite last_lookup in Hl. rewrite <-Hl. do 2 f_equal. unfold zlen in *. lia. }
  destruct (Hv l (nodeByHeight_in _ _ _ Hn)) as [nd Hnd]. exists nd. split; [done|]. split; [done|]. by eapply Hh.
Qed.

Lemma view_height b : ready b → main_chain d C b → ChainView.viewHeight (bestChain b) = zlen C - 1.
Proof.
  intros Hr Hm. destruct (main_range b Hr Hm) as [HB HC]. pose proof (mc_length _ _ _ Hm) as HL. unfold ChainView.viewHeight.
  destruct (Z.eqb_spec (zlen (ChainView.nodes (bestChain b))) 0); [lia|]. rewrite swrap_small by zlia. lia.
Qed.

(** What [locateInventory] finds for a locator: the block after the start, and the number
    of hashes *)
Definition found (base : Z) (locator : list hash_t) (stop : hash_t) (maxEntries : Z) (x : option loc * Z) (b : BlockChain) : Prop :=
  let start := startHeight base C locator in
  x.2 = Z.min maxEntries (lastHeight C start stop - start) ∧
  (x.2 ≠ 0 → ∃ l nd, x.1 = Some l ∧ heap_ b !! l = Some nd ∧ height nd = start + 1 ∧ C !! Z.to_nat (start + 1) = Some (hash nd)).

Lemma inventory_reads b locator stop maxEntries : ready b → main_chain d C b → Forall (index_ok d C) (stop :: locator) → locator ≠ [] →
  0 ≤ maxEntries → zlen C < 2 ^ 31 - 1 →
  reads b (locateInventory b locator stop maxEntries) (found (ChainView.base (bestChain b)) locator stop maxEntries).
Proof.
  intros Hr Hm [Hx Hxs]%Forall_cons Hloc Hmax HC. unfold locateInventory. apply (reads_bind b _ _ (resolved stop)); [by apply lookup_reads|]. intros stopNode b1 Hr1 G1 Hs1.
  pose proof (main_grows b b1 G1 Hm) as Hm1. replace (bestChain b) with (bestChain b1) by apply G1.
  destruct locator as [|hs0 locator0] eqn:El; [done|]. rewrite <-El in *. clear El hs0 locator0.
  apply (reads_bind b1 _ _ (startsAt locator)); [by apply start_reads|]. intros st b2 Hr2 G2 Hst.
  pose proof (main_grows b1 b2 G2 Hm1) as Hm2. replace (bestChain b1) with (bestChain b2) by apply G2. set (s := startHeight (ChainView.base (bestChain b2)) C locator).
  assert (∃ l nd, match st with
    | Some l => Done (Some l)
    | None => if ChainView.viewHeight (bestChain b2) <? 0 then Done None else l ← of_option (ChainView.genesis (bestChain b2)); Done (Some l)
    end = Done (Some l) ∧ heap_ b2 !! l = Some nd ∧ height nd = s) as (l&nd&->&Hn&Hs).
  { unfold startsAt in Hst. unfold s, startHeight. destruct (head (omap (heightIn C) locator)) as [g|].
    - destruct Hst as (l&nd&->&?&?). by exists l, nd.
    - subst st. destruct (genesis_node b2 Hr2 Hm2) as (l&nd&Eg&?&?). exists l, nd. rewrite (view_height b2 Hr2 Hm2), Eg.
      pose proof (main_range b2 Hr2 Hm2). by destruct (Z.ltb_spec (zlen C - 1) 0); [lia|]. }
  pose proof (start_range _ C locator (proj1 (main_range b2 Hr2 Hm2))) as Hrange. fold s in Hrange.
  cbn [mbind run_bind]. rewrite (BlockNode.deref_Some _ _ _ Hn). cbn [mbind run_bind]. rewrite Hs, (swrap_small 32 (s + 1)) by zlia.
  apply (reads_bind b2 _ _ (servedAt (s + 1) b2)); [apply at_reads; [done|lia]|]. intros next b3 Hr3 G3 Hs3.
  pose proof (main_grows b2 b3 G3 Hm2) as Hm3. pose proof (last_range C s stop ltac:(lia)) as Hlast.
  assert (s + 1 < zlen C → ∃ x, C !! Z.to_nat (s + 1) = Some x ∧ served b2 d (s + 1) = Some x) as Hnext.
  { intros Hlt. destruct (lookup_lt_is_Some_2 C (Z.to_nat (s + 1))) as [x Hc]; [unfold zlen in *; lia|]. exists x. split; [done|].
    rewrite <-(Z2Nat.id (s + 1)) by lia. by eapply main_served. }
  destruct next as [l3|].
  - destruct Hs3 as (n3&Hn3&Hh3&Hsv3). rewrite (BlockNode.deref_Some _ _ _ Hn3). cbn [mbind run_bind].
    destruct (tip_node b3 Hr3 Hm3) as (t&tn&->&Htn&Hht). cbn [of_option mbind run_bind]. rewrite (BlockNode.deref_Some _ _ _ Htn). cbn [mbind run_bind].
    rewrite (total_spec b3 s n3 tn stop stopNode maxEntries) by (done || by eapply resolved_grows; [|eapply resolved_grows]).
    cbn [mbind run_bind]. apply reads_ret; [done|]. split; [done|]. cbn [fst snd]. fold s. intros Hne. exists l3, n3. split; [done|]. split; [done|]. split; [done|].
    destruct Hnext as (x&Hc&Hsv); [lia|]. rewrite Hsv in Hsv3. by injection Hsv3 as <-.
  - apply reads_ret; [done|]. unfold found. fold s. cbn [fst snd]. split; [|done]. destruct (Z.eq_dec (lastHeight C s stop) s); [lia|].
    destruct Hnext as (x&_&Hsv); [lia|]. cbn in Hs3. congruence.
Qed.

End chain.

Lemma locate_empty b stop maxHashes : ready b → (∀ hs x, T !! hs = Some x → x.2 + 1 < 2 ^ 31 - 1) →
  ∃ b', LocateBlocks b [] stop maxHashes = Done (match T !! stop with Some _ => [stop] | None => [] end, b') ∧ ready b' ∧ grows b b'.
Proof.
  intros Hr Hmax. unfold LocateBlocks, locateBlocks, locateInventory. destruct (lookup_reads b stop Hr) as (o&b1&->&Hr1&G1&Ho).
  cbn [mbind run_bind]. destruct o as [l|]; cbn [Z.eqb of_option mbind run_bind].
  - destruct Ho as [Hl _]. destruct (node_known b1 stop l Hr1 Hl) as (nd&Hn&Hh&HT). rewrite HT, (BlockNode.deref_Some _ _ _ Hn). cbn [mbind run_bind].
    specialize (Hmax _ _ HT). cbn in Hmax.
    destruct (successors_reads b1 l nd 1 [] Hr1 Hn) as (ns&b2&->&Hr2&G2&E2); [lia|lia|done|done|]. cbn [mbind run_bind]. rewrite E2. cbn [mbind run_bind fst].
    exists b2. rewrite Hh. split; [done|]. split; [done|]. by etransitivity.
  - cbn in Ho. rewrite Ho. by exists b1.
Qed.

Lemma locate_some (C : list hash_t) b locator stop maxHashes : ready b → main_chain d C b → Forall (index_ok d C) (stop :: locator) →
  locator ≠ [] → 0 ≤ maxHashes → zlen C + maxHashes < 2 ^ 31 - 1 →
  ∃ b', LocateBlocks b locator stop maxHashes = Done (answer (ChainView.base (bestChain b)) C locator stop maxHashes, b') ∧ ready b' ∧ grows b b'.
Proof.
  intros Hr Hm Hx Hloc Hpos HC. unfold LocateBlocks, locateBlocks. destruct (main_range C b Hr Hm) as [HB _].
  rewrite answer_count by lia. cbn zeta. set (s := startHeight (ChainView.base (bestChain b)) C locator).
  destruct (inventory_reads C b locator stop maxHashes Hr Hm Hx Hloc ltac:(lia) ltac:(lia)) as ([node total]&b1&->&Hr1&G1&Ht&Hnode). cbn [mbind run_bind fst snd] in *. fold s in Ht, Hnode.
  rewrite <-Ht. pose proof (start_range _ C locator HB) as Hrange. fold s in Hrange. pose proof (last_range C s stop ltac:(lia)) as Hlast.
  destruct (Z.eqb_spec total 0) as [->|Hne]; [by exists b1|].
  destruct (Hnode Hne) as (l&nd&->&Hn&Hhd&Hc). cbn [of_option mbind run_bind]. rewrite (BlockNode.deref_Some _ _ _ Hn). cbn [mbind run_bind].
  pose proof (main_grows C b b1 G1 Hm) as Hm1.
  destruct (successors_reads b1 l nd total (take (Z.to_nat (total - 1)) (drop (Z.to_nat (s + 2)) C)) Hr1 Hn) as (ns&b2&->&Hr2&G2&E2); [lia|lia| | |].
  { unfold zlen in *. rewrite length_take, length_drop. lia. }
  { intros i x [Hi Hlt]%lookup_take_Some. rewrite lookup_drop in Hi. replace (height nd + 1 + Z.of_nat i) with (Z.of_nat (Z.to_nat (s + 2) + i)) by lia.
    by eapply main_served. }
  cbn [mbind run_bind]. rewrite E2. cbn [mbind run_bind fst]. exists b2. split; [|split; [done|by etransitivity]]. do 2 f_equal.
  rewrite (drop_S _ _ _ Hc). replace (S (Z.to_nat (s + 1))) with (Z.to_nat (s + 2)) by lia.
  replace (Z.to_nat total) with (S (Z.to_nat (total - 1))) by lia. done.
Qed.

(** C17 (functional).  What a peer gets for a locator.  On a node with a header window, let [C] be the main
    chain up to the tip, and let the indexes name none of the hashes the peer sent
    as a block of the chain that is not on it (they do so for the header of a block
    above the tip).  For every locator that is not empty, [LocateBlocks] returns
    exactly the hashes of [C] after the first hash of the locator that is on [C] (after
    the first block of the view when none is), up to the stop block if it is on [C] after
    that, up to the tip otherwise, cut off at the requested number, whether the blocks
    are in memory or were evicted.  An empty locator is answered with the stop hash
    if that block is known, and with nothing otherwise. *)
Theorem locate_blocks_spec (C : list hash_t) (b : BlockChain) (locator : list hash_t) (hashStop : hash_t) (maxHashes : Z) :
  ready b → main_chain d C b → Forall (index_ok d C) (hashStop :: locator) →
  0 < maxHashes → (∀ hs x, T !! hs = Some x → x.2 + maxHashes < 2 ^ 31 - 2) →
  ∃ b', LocateBlocks b locator hashStop maxHashes = Done (reply T (ChainView.base (bestChain b)) C locator hashStop maxHashes, b') ∧ ready b' ∧ grows b b'.
Proof.
  intros Hr Hm Hx Hpos Hmax. destruct (main_range C b Hr Hm) as [HB _]. destruct locator as [|hs0 locator0].
  { apply locate_empty; [done|]. intros hs x HT. specialize (Hmax hs x HT). lia. }
  apply locate_some; try done; [lia|]. destruct (lookup_lt_is_Some_2 C (length C - 1)) as [x Hi]; [unfold zlen in *; lia|].
  destruct (main_height C b _ x Hr Hm Hi) as [hd HT]. specialize (Hmax _ _ HT). cbn in Hmax. unfold zlen in *. lia.
Qed.

End locate.

(** ** Runs *)

Lemma height_val g : 0 ≤ g < 2 ^ 31 → le_val (ChainIO.serializedHeight g) = g.
Proof. intros Hg. unfold ChainIO.serializedHeight. rewrite (uwrap_small 32 g), le_val_bytes by lia. apply Z.mod_small. change (256 ^ Z.of_nat 4) with (2 ^ 32). lia. Qed.

(** The rows of the toy chain are readable and those of its blocks. *)
Lemma toyDB_ok : db_ok (toyTree 8) (toyDB 8).
Proof.
  split; [exact toyDB_heights| | |].
  - intros g hs Hg Hf.
    assert (bool_decide (map_Forall (fun k bs => snd <$> toyTree 8 !! ChainIO.toHash bs = Some (le_val k))
      (ChainIO.heightIndexBucket (toyDB 8))) = true) as H by (vm_compute; reflexivity).
    apply bool_decide_eq_true in H. unfold dbFetchHashByHeight in Hf.
    destruct (ChainIO.heightIndexBucket (toyDB 8) !! ChainIO.serializedHeight g) as [bs|] eqn:E; [|done].
    injection Hf as <-. specialize (H _ _ E). cbn beta in H. rewrite (height_val g Hg) in H.
    destruct (toyTree 8 !! ChainIO.toHash bs) as [[hd g']|]; [|done]. injection H as <-. by eexists.
  - intros hs HT. exists (inr ChainIO.errNotInMainChain). split; [|done].
    unfold ChainIO.dbFetchBlockRowByHash, ChainIO.dbFetchHeightByHash.
    assert (bool_decide (map_Forall (fun k _ => is_Some (toyTree 8 !! k)) (ChainIO.hashIndexBucket (toyDB 8))) = true) as H
      by (vm_compute; reflexivity).
    apply bool_decide_eq_true in H. destruct (ChainIO.hashIndexBucket (toyDB 8) !! hs) as [bs|] eqn:E; [|done].
    destruct (H _ _ E) as [x Hx]. congruence.
  - intros hs. unfold ChainIO.dbFetchHeightByHash.
    assert (bool_decide (map_Forall (fun _ bs => length bs = 4%nat) (ChainIO.hashIndexBucket (toyDB 8))) = true) as H
      by (vm_compute; reflexivity).
    apply bool_decide_eq_true in H. destruct (ChainIO.hashIndexBucket (toyDB 8) !! hs) as [bs|] eqn:E; [|by eexists].
    specialize (H _ _ E). cbn beta in H. do 5 (destruct bs as [|? bs]; try discriminate H). by eexists.
Qed.

Lemma toyChain_ready : ready (toyTree 8) (toyDB 8) (toyChain 8 4).
Proof.
  split; [exact toyChain_ok|]. split; [done|]. split; [by eexists|]. split; [by eexists|].
  assert (∀ g l, ChainView.nodeByHeight (bestChain (toyChain 8 4)) g = Some l →
    ∃ i, g = 4 + Z.of_nat i ∧ ((fun i => toyLoc i) <$> seqZ 4 4) !! i = Some l) as Hat.
  { intros g l H. unfold ChainView.nodeByHeight in H. destruct (_ || _) eqn:Hb; [done|]. apply orb_false_iff in Hb as [Hb1 Hb2].
    cbn in Hb1. exists (Z.to_nat (g - 4)). split; [lia|].
    change (ChainView.nodes (bestChain (toyChain 8 4))) with (Some <$> ((fun i => toyLoc i) <$> seqZ 4 4)) in H.
    change (ChainView.base (bestChain (toyChain 8 4))) with 4 in H.
    rewrite list_lookup_fmap in H. by destruct (((fun i => toyLoc i) <$> seqZ 4 4) !! Z.to_nat (g - 4)). }
  split.
  - intros l Hl. change (ChainView.nodes (bestChain (toyChain 8 4))) with (Some <$> ((fun i => toyLoc i) <$> seqZ 4 4)) in Hl.
    apply list_elem_of_fmap in Hl as (x&[= <-]&Hl).
    apply list_elem_of_lookup_1 in Hl as [i Hi]. exists (toyWindowNode 8 4 (4 + Z.of_nat i)).
    do 4 (destruct i as [|i]; [cbn in Hi; injection Hi as <-; vm_compute; reflexivity|]). discriminate Hi.
  - intros g l nd Hg Hn. destruct (Hat g l Hg) as (i&->&Hi).
    do 4 (destruct i as [|i]; [cbn in Hi; injection Hi as <-; vm_compute in Hn; injection Hn as <-; vm_compute; reflexivity|]).
    discriminate Hi.
Qed.

Definition toyMain : list hash_t := toyHash <$> seqZ 0 8.

Lemma toyMain_at i hs : toyMain !! i = Some hs → (i < 8)%nat ∧ hs = toyHash (Z.of_nat i).
Proof.
  intros (z&->&Hz)%list_lookup_fmap_Some. apply lookup_seqZ in Hz as [-> Hlt]. split; [lia|]. by rewrite Z.add_0_l.
Qed.

Lemma toyMain_ok : main_chain (toyDB 8) toyMain (toyChain 8 4).
Proof.
  split; [vm_compute; reflexivity|done| |].
  - intros i hs [Hi ->]%toyMain_at Hb. change (ChainView.base (bestChain (toyChain 8 4))) with 4 in Hb. exists (toyLoc (Z.of_nat i)).
    do 8 (destruct i as [|i]; [first [lia|split; [vm_compute; reflexivity|split; [|vm_compute; reflexivity]]; eexists; split; vm_compute; reflexivity]|]). lia.
  - intros i hs [Hi ->]%toyMain_at Hb. change (ChainView.base (bestChain (toyChain 8 4))) with 4 in Hb.
    do 4 (destruct i as [|i]; [split; vm_compute; reflexivity|]). lia.
Qed.

(** A locator with an unknown hash and one below the window is answered from the database
    and from memory, up to the stop block. *)
Lemma locate_blocks_spec_witness :
  ∃ b', LocateBlocks (toyChain 8 4) [toyHash 20; toyHash 1] (toyHash 5) 500 = Done ([toyHash 2; toyHash 3; toyHash 4; toyHash 5], b').
Proof.
  destruct (locate_blocks_spec (toyTree 8) (toyDB 8) toyDB_ok toyMain (toyChain 8 4) [toyHash 20; toyHash 1] (toyHash 5) 500) as (b'&E&_).
  - exact toyChain_ready.
  - exact toyMain_ok.
  - assert (ChainIO.dbFetchHeightByHash (toyDB 8) (toyHash 20) = Done (inr ChainIO.errNotInMainChain)) as E by (vm_compute; reflexivity).
    repeat constructor; intros Hn.
    + destruct Hn. apply (list_elem_of_lookup_2 _ 5). vm_compute. reflexivity.
    + intros g. rewrite E. discriminate.
    + destruct Hn. apply (list_elem_of_lookup_2 _ 1). vm_compute. reflexivity.
  - reflexivity.
  - intros hs x Hx.
    assert (bool_decide (map_Forall (fun _ (y : _ * Z) => y.2 < 100) (toyTree 8)) = true) as H by (vm_compute; reflexivity).
    apply bool_decide_eq_true in H. specialize (H _ _ Hx). cbn in H. lia.
  - exists b'. rewrite E. do 2 f_equal.
Defined.

(** Headers 0 to 7 are known and blocks 0 to 4 connected. *)
Definition behind : BlockChain :=
  let b := toyChain 8 8 in
  {| heap_ := heap_ b; index_ := index_ b; coldCache := coldCache b;
     bestChain := {| ChainView.nodes := (fun i => Some (toyLoc i)) <$> seqZ 0 5; ChainView.base := 0 |};
     db := db b; headerWindow := 4 |}.

(** A locator above the tip is answered with blocks the node does not
    have.  The number of entries is [uint32(tip - start + 1)], which wraps where the
    start is above the tip: with the blocks of heights 0 to 4 connected and the headers
    up to 7 known, a peer whose locator names block 5 is sent the hashes of blocks 6
    and 7; a locator in the chain is answered up to the tip only. *)
Theorem locate_past_tip :
  ChainView.viewHeight (bestChain behind) = 4 ∧ uwrap 32 (4 - 6 + 1) = 2 ^ 32 - 1 ∧
  ('(hashes, _) ← LocateBlocks behind [toyHash 2] (toyHash 0) 500; Done hashes) = Done [toyHash 3; toyHash 4] ∧
  ('(hashes, _) ← LocateBlocks behind [toyHash 5] (toyHash 0) 500; Done hashes) = Done [toyHash 6; toyHash 7].
Proof. split; [reflexivity|]. split; [reflexivity|]. split; vm_compute; reflexivity. Qed.

End Locate.
