(* ===== verification/Difficulty.v ===== *)
(** * Difficulty: the SugarShield retarget

    Model of [blockchain/difficulty.go]: the difficulty required of the next
    block, averaged over the last 510 blocks and recomputed at every block, and
    the bound used against a checkpoint.  The calculation is written once over
    the [HeaderCtx] interface; the [BlockChain] version first repairs the parent
    links that the header window severed.  A duration is a number of nanoseconds
    ([time.Duration]). *)

From S2P Require Import Prelude WorkMath ChainHash Wire BlockNode ChainView ChainIO ColdRead.
Import BlockNode ChainIO ColdRead.

Module Difficulty.

Definition SugarPowAveragingWindow : Z := 510.
Definition SugarPowTargetSpacing : Z := 5.
Definition SugarPowMaxAdjustDown : Z := 32.
Definition SugarPowMaxAdjustUp : Z := 16.

Definition SugarAveragingWindowTimespan : Z := SugarPowAveragingWindow * SugarPowTargetSpacing.
Definition SugarMinActualTimespan : Z :=
  (SugarAveragingWindowTimespan * (100 - SugarPowMaxAdjustUp)) `quot` 100.
Definition SugarMaxActualTimespan : Z :=
  (SugarAveragingWindowTimespan * (100 + SugarPowMaxAdjustDown)) `quot` 100.

(** The fields of [chaincfg.Params] used here *)
Record Params := {
  PowLimit : Z;
  PowLimitBits : Z;
  PoWNoRetargeting : bool;
  ReduceMinDifficulty : bool;
  MinDiffReductionTime : Z;
  TargetTimespan : Z;
  TargetTimePerBlock : Z;
  RetargetAdjustmentFactor : Z;
}.

Definition time_Second : Z := 1000000000.

(** The retarget fields that [New] computes from the parameters *)
Definition maxRetargetTimespan (p : Params) : Z :=
  i64 (TargetTimespan p `quot` time_Second * RetargetAdjustmentFactor p).
Definition blocksPerRetarget (p : Params) : Z :=
  i32 ((TargetTimespan p `quot` time_Second) `quot` (TargetTimePerBlock p `quot` time_Second)).

Definition SugarMainNetParams : Params :=
  {| PowLimit := Z.shiftl 1 246 - 1; PowLimitBits := 0x1f3fffff; PoWNoRetargeting := false;
     ReduceMinDifficulty := false; MinDiffReductionTime := 0; TargetTimespan := 0;
     TargetTimePerBlock := 5 * time_Second; RetargetAdjustmentFactor := 4 |}.

Definition SugarRegTestParams : Params :=
  {| PowLimit := be_val (replicate 32 (z2b 0x0f)); PowLimitBits := 0x200f0f0f;
     PoWNoRetargeting := true; ReduceMinDifficulty := true;
     MinDiffReductionTime := 20 * time_Second; TargetTimespan := 0;
     TargetTimePerBlock := 5 * time_Second; RetargetAdjustmentFactor := 4 |}.

(** ** The next required difficulty *)

Section ctx.
Context {N : Type} `{C : HeaderCtx N}.

(** [for i := 0; pindexFirst != nil && i < 510; i++] *)
Fixpoint sumTargets (i : nat) (bnTot : Z) (pindexFirst : option N) : run (Z * option N) :=
  match i, pindexFirst with
  | S i, Some n =>
      b ← ctxBits n;
      p ← ctxParent n;
      sumTargets i (bnTot + WorkMath.CompactToBig b) p
  | _, _ => Done (bnTot, pindexFirst)
  end.

(** The timespan of the window, damped to a quarter of its deviation and clamped *)
Definition adjustedTimespan (lastMTP firstMTP : Z) : Z :=
  let nActualTimespan := i64 (lastMTP - firstMTP) in
  let nActualTimespan := i64 (SugarAveragingWindowTimespan +
    i64 (nActualTimespan - SugarAveragingWindowTimespan) `quot` 4) in
  let nActualTimespan :=
    if nActualTimespan <? SugarMinActualTimespan then SugarMinActualTimespan else nActualTimespan in
  if SugarMaxActualTimespan <? nActualTimespan then SugarMaxActualTimespan else nActualTimespan.

(** From the sum over a full window to the result *)
Definition finishDifficulty (p : Params) (bnTot : Z) (lastNode pindexFirst : N) : run Z :=
  let bnAvg := bnTot / SugarPowAveragingWindow in
  lastMTP ← CalcPastMedianTime lastNode;
  firstMTP ← CalcPastMedianTime pindexFirst;
  let newTarget := bnAvg / SugarAveragingWindowTimespan * adjustedTimespan lastMTP firstMTP in
  let newTarget := if PowLimit p <? newTarget then PowLimit p else newTarget in
  Done (WorkMath.BigToCompact newTarget).

(** [calcNextRequiredDifficulty] with a context other than [*BlockChain] *)
Definition calcNextRequiredDifficultyCtx (p : Params) (lastNode : option N) : run Z :=
  if PoWNoRetargeting p then Done (PowLimitBits p) else
  match lastNode with
  | None => Done (PowLimitBits p)
  | Some l =>
      w ← sumTargets (Z.to_nat SugarPowAveragingWindow) 0 (Some l);
      match w.2 with
      | None => Done (PowLimitBits p)
      | Some first => finishDifficulty p w.1 l first
      end
  end.

(** The node of the loop is at height [0] at the latest, so the height is enough
    fuel; [%] by zero panics. *)
Fixpoint findPrev_loop (fuel : nat) (p : Params) (iterNode : option N) : run Z :=
  match iterNode with
  | None => Done (PowLimitBits p)
  | Some n =>
      hgt ← ctxHeight n;
      b ← ctxBits n;
      if blocksPerRetarget p =? 0 then Panic else
      if negb (Z.rem hgt (blocksPerRetarget p) =? 0) && (b =? PowLimitBits p) then
        match fuel with
        | O => NoFuel
        | S fuel => q ← ctxParent n; findPrev_loop fuel p q
        end
      else Done b
  end.

Definition findPrevTestNetDifficulty (p : Params) (startNode : option N) : run Z :=
  match startNode with
  | None => findPrev_loop 0 p None
  | Some n => hgt ← ctxHeight n; findPrev_loop (Z.to_nat hgt) p (Some n)
  end.

End ctx.

(** [calcNextRequiredDifficulty] with a [*BlockChain] and one of its nodes *)
Definition calcNextRequiredDifficulty (p : Params) (b : BlockChain) (lastNode : option loc) :
    run (Z * BlockChain) :=
  if PoWNoRetargeting p then Done (PowLimitBits p, b) else
  match lastNode with
  | None => Done (PowLimitBits p, b)
  | Some l =>
      b ← repairDifficultyChain b (Some l);
      w ← sumTargets (C := blockNode_ctx (heap_ b)) (Z.to_nat SugarPowAveragingWindow) 0 (Some l);
      r ← match w.2 with
          | Some _ => Done (w, b)
          | None =>
              b ← repairAncestorChain b (Some l) (SugarPowAveragingWindow + Z.of_nat medianTimeBlocks);
              w ← sumTargets (C := blockNode_ctx (heap_ b)) (Z.to_nat SugarPowAveragingWindow) 0 (Some l);
              Done (w, b)
          end;
      match r.1.2 with
      | None => Done (PowLimitBits p, r.2)
      | Some first =>
          bits ← finishDifficulty (C := blockNode_ctx (heap_ r.2)) p r.1.1 l first;
          Done (bits, r.2)
      end
  end.

(** A nil tip becomes a non-nil interface holding a nil pointer: the walk
    dereferences it. *)
Definition CalcNextRequiredDifficulty (p : Params) (b : BlockChain) : run (Z * BlockChain) :=
  match ChainView.tip (bestChain b) with
  | Some t => calcNextRequiredDifficulty p b (Some t)
  | None => if PoWNoRetargeting p then Done (PowLimitBits p, b) else Panic
  end.

(** [None] is the error "previous block not found". *)
Definition CalcNextRequiredDifficultyForPrev (p : Params) (b : BlockChain) (prevHash : hash_t) :
    run (option Z * BlockChain) :=
  match LookupNode b prevHash with
  | None => Done (None, b)
  | Some l => r ← calcNextRequiredDifficulty p b (Some l); Done (Some r.1, r.2)
  end.

(** ** The easiest difficulty after a checkpoint *)

Fixpoint easiest_loop (fuel : nat) (p : Params) (durationVal newTarget : Z) : run Z :=
  if (0 <? durationVal) && (newTarget <? PowLimit p) then
    match fuel with
    | O => NoFuel
    | S fuel =>
        easiest_loop fuel p (i64 (durationVal - maxRetargetTimespan p))
          (newTarget * RetargetAdjustmentFactor p)
    end
  else Done newTarget.

(** Enough iterations for a target that at least doubles to pass the limit, or
    for the duration to be used up *)
Definition easiest_fuel (p : Params) (durationVal : Z) : nat :=
  Z.to_nat (Z.log2 (PowLimit p) + 2 +
    if 0 <? maxRetargetTimespan p then durationVal / maxRetargetTimespan p + 1 else 0).

Definition calcEasiestDifficulty (p : Params) (bits duration : Z) : run Z :=
  let durationVal := duration `quot` time_Second in
  if ReduceMinDifficulty p && (MinDiffReductionTime p `quot` time_Second <? durationVal)
  then Done (PowLimitBits p) else
  newTarget ← easiest_loop (easiest_fuel p durationVal) p durationVal (WorkMath.CompactToBig bits);
  let newTarget := if PowLimit p <? newTarget then PowLimit p else newTarget in
  Done (WorkMath.BigToCompact newTarget).

(** ** The block tree as a header context

    The difficulty of a node that never evicts anything: handles are hashes, and
    every block of the tree knows its parent. *)

#[export] Instance tree_ctx (T : tree) : HeaderCtx hash_t := {|
  ctxHeight hs := x ← of_option (T !! hs); Done x.2;
  ctxBits hs := x ← of_option (T !! hs); Done (Wire.Bits x.1);
  ctxTimestamp hs := x ← of_option (T !! hs); Done (Wire.Timestamp x.1);
  ctxParent hs := x ← of_option (T !! hs);
    Done (match T !! Wire.PrevBlock x.1 with Some _ => Some (Wire.PrevBlock x.1) | None => None end);
|}.

(** ** Simulation of the tree by a repaired chain *)

(** A node pointer and a hash stand for the same block, whose chain is linked for
    [n] levels. *)
Definition sim (T : tree) (h : heap) (n : nat) (l : option loc) (hs : option hash_t) : Prop :=
  match l, hs with
  | Some l, Some hs => complete T h n l ∧ node_of h hs l
  | None, None => True
  | _, _ => False
  end.

(** One step up: both contexts give the same data and related parents. *)
Lemma sim_step T h n l hs : sim T h (S n) (Some l) (Some hs) →
  ∃ b t p q, ctxBits (HeaderCtx := blockNode_ctx h) l = Done b ∧
    ctxTimestamp (HeaderCtx := blockNode_ctx h) l = Done t ∧
    ctxParent (HeaderCtx := blockNode_ctx h) l = Done p ∧
    ctxBits (HeaderCtx := tree_ctx T) hs = Done b ∧ ctxTimestamp (HeaderCtx := tree_ctx T) hs = Done t ∧
    ctxParent (HeaderCtx := tree_ctx T) hs = Done q ∧ sim T h n p q.
Proof.
  intros [(nd & Hl & HT & Hp) (nd' & Hl' & <-)]. rewrite Hl in Hl'. injection Hl' as <-.
  cbn [ctxBits ctxTimestamp ctxParent blockNode_ctx tree_ctx]. rewrite (deref_Some _ _ _ Hl), HT.
  cbn [of_option mbind run_bind fst]. change (Wire.PrevBlock (Header nd)) with (parentHash nd).
  eexists _, _, _, _. split_and!; try reflexivity. destruct (parent nd) as [p|].
  - destruct Hp as [Hof Hc]. assert (∃ x, T !! parentHash nd = Some x) as [x ->]; [|done].
    destruct Hof as (pn & Hpn & <-). destruct n; destruct Hc as (pn' & Hpn' & HTp & _);
      rewrite Hpn in Hpn'; injection Hpn' as <-; by eexists.
  - by rewrite Hp.
Qed.

Lemma sim_timestamp T h n l hs : sim T h n (Some l) (Some hs) →
  ∃ t, ctxTimestamp (HeaderCtx := blockNode_ctx h) l = Done t ∧
       ctxTimestamp (HeaderCtx := tree_ctx T) hs = Done t.
Proof.
  intros [Hc (nd & Hl & <-)]. assert (T !! hash nd = Some (Header nd, height nd)) as HT.
  { destruct n; destruct Hc as (nd' & Hl' & HT & _); rewrite Hl in Hl'; by injection Hl' as <-. }
  cbn [ctxTimestamp blockNode_ctx tree_ctx]. rewrite (deref_Some _ _ _ Hl), HT. by eexists.
Qed.

Lemma sum_sim T h i n tot l hs : sim T h n l hs → (i ≤ n)%nat →
  ∃ tot' l' hs', sumTargets (C := blockNode_ctx h) i tot l = Done (tot', l') ∧
    sumTargets (C := tree_ctx T) i tot hs = Done (tot', hs') ∧ sim T h (n - i) l' hs'.
Proof.
  revert n tot l hs. induction i as [|i IH]; intros n tot l hs Hs Hi.
  { exists tot, l, hs. by rewrite Nat.sub_0_r. }
  destruct l as [l|], hs as [hs|]; try done; [|by exists tot, None, None].
  destruct n as [|n]; [lia|].
  destruct (sim_step T h n l hs Hs) as (b & t & p & q & Hb & _ & Hp & Hb' & _ & Hq & Hpq).
  cbn [sumTargets]. rewrite Hb, Hp, Hb', Hq. cbn [mbind run_bind].
  destruct (IH n (tot + WorkMath.CompactToBig b) p q Hpq ltac:(lia)) as (tot' & l' & hs' & H1 & H2 & H3).
  exists tot', l', hs'. done.
Qed.

Lemma times_sim T h i n l hs : sim T h n l hs → (i ≤ S n)%nat →
  ∃ ts, collectTimes (C := blockNode_ctx h) i l = Done ts ∧ collectTimes (C := tree_ctx T) i hs = Done ts ∧
    (length ts ≤ i)%nat ∧ (is_Some l → (0 < i)%nat → ts ≠ []).
Proof.
  revert n l hs. induction i as [|i IH]; intros n l hs Hs Hi.
  { exists []. split_and!; [by destruct l|by destruct hs|done|lia]. }
  destruct l as [l|], hs as [hs|]; try done.
  2: { exists []. split_and!; [done..|cbn; lia|]. by intros [? ?]. }
  destruct n as [|n].
  - destruct (sim_timestamp T h 0 l hs Hs) as (t & Ht & Ht'). destruct i as [|i]; [|lia].
    destruct Hs as [(nd & Hl & HT & _) (nd' & Hl' & <-)]. rewrite Hl in Hl'. injection Hl' as <-.
    cbn [collectTimes]. rewrite Ht, Ht'. cbn [ctxParent blockNode_ctx tree_ctx].
    rewrite (deref_Some _ _ _ Hl), HT. cbn. exists [t]. split_and!; [by destruct (parent nd)| |cbn; lia|done].
    by destruct (T !! parentHash nd).
  - destruct (sim_step T h n l hs Hs) as (b & t & p & q & _ & Ht & Hp & _ & Ht' & Hq & Hpq).
    cbn [collectTimes]. rewrite Ht, Ht'. cbn [mbind run_bind]. rewrite Hp, Hq. cbn [mbind run_bind].
    destruct (IH n p q Hpq ltac:(lia)) as (ts & -> & -> & Hlen & _). exists (t :: ts).
    split_and!; [done..|cbn; lia|done].
Qed.

Lemma median_index (ts : list Z) : ts ≠ [] →
  ∃ m, index (sorting.merge_sort Z.le ts) (zlen ts `quot` 2) = Done m.
Proof.
  intros Hne. assert (0 < length ts)%nat as Hpos by (destruct ts; cbn; [done|lia]).
  unfold index. rewrite decide_True by (apply Z.quot_pos; [apply zlen_nonneg|lia]).
  destruct (lookup_lt_is_Some_2 (sorting.merge_sort Z.le ts) (Z.to_nat (zlen ts `quot` 2))) as [m ->]; [|by exists m].
  rewrite sorting.merge_sort_Permutation. rewrite Z.quot_div_nonneg by (unfold zlen; lia). unfold zlen.
  apply Nat2Z.inj_lt. rewrite Z2Nat.id by zdm. zdm.
Qed.

Lemma mtp_sim T h n l hs : sim T h n (Some l) (Some hs) → (10 ≤ n)%nat →
  ∃ m, CalcPastMedianTime (C := blockNode_ctx h) l = Done m ∧
       CalcPastMedianTime (C := tree_ctx T) hs = Done m.
Proof.
  intros Hs Hn. unfold CalcPastMedianTime.
  destruct (times_sim T h medianTimeBlocks n _ _ Hs) as (ts & -> & -> & _ & Hne);
    [unfold medianTimeBlocks; lia|]. cbn [mbind run_bind].
  assert (0 < length ts)%nat as Hpos.
  { destruct ts; cbn; [|lia]. by destruct Hne; [by eexists|unfold medianTimeBlocks; lia|]. }
  destruct (median_index ts) as [m ->]; [by destruct ts; cbn in *; [lia|]|by exists m].
Qed.

Lemma finish_sim T h n p tot l hs f fh : sim T h n (Some l) (Some hs) → sim T h 11 (Some f) (Some fh) →
  (10 ≤ n)%nat →
  ∃ v, finishDifficulty (C := blockNode_ctx h) p tot l f = Done v ∧
       finishDifficulty (C := tree_ctx T) p tot hs fh = Done v.
Proof.
  intros H1 H2 Hn. unfold finishDifficulty.
  destruct (mtp_sim T h n l hs H1 Hn) as (m1 & -> & ->).
  destruct (mtp_sim T h 11 f fh H2 ltac:(lia)) as (m2 & -> & ->). by eexists.
Qed.

Lemma difficulty_run (p : Params) (T : tree) (b : BlockChain) (l : loc) (nd : blockNode) :
  chain_ok T b → heap_ b !! l = Some nd →
  ∃ v b', calcNextRequiredDifficulty p b (Some l) = Done (v, b') ∧
    calcNextRequiredDifficultyCtx (C := tree_ctx T) p (Some (hash nd)) = Done v ∧
    chain_ok T b' ∧ grows b b' ∧ (PoWNoRetargeting p = false → sim T (heap_ b') 521 (Some l) (Some (hash nd))).
Proof.
  intros Hok Hl. unfold calcNextRequiredDifficulty, calcNextRequiredDifficultyCtx.
  destruct (PoWNoRetargeting p); [exists (PowLimitBits p), b; split_and!; first [done|reflexivity]|].
  assert (∀ b0, chain_ok T b0 → grows b b0 → ∃ b1, repairAncestorChain b0 (Some l) 521 = Done b1 ∧
    chain_ok T b1 ∧ grows b b1 ∧ sim T (heap_ b1) 521 (Some l) (Some (hash nd))) as Hrepair.
  { intros b0 Hok0 Hg0. assert (node_of (heap_ b0) (hash nd) l) as Hof.
    { eapply node_of_grows; [apply Hg0|by exists nd]. }
    destruct (repair_loop_ok T 521 b0 l _ Hok0 Hof) as (b1 & E & Hok1 & Hg1 & Hc).
    exists b1. split; [exact E|]. split; [done|]. split; [by etransitivity|]. split; [done|].
    eapply node_of_grows; [apply Hg1|done]. }
  destruct (Hrepair b Hok ltac:(reflexivity)) as (b1 & E1 & Hok1 & Hg1 & Hs1).
  change (repairDifficultyChain b (Some l)) with (repairAncestorChain b (Some l) 521).
  rewrite E1. cbn [mbind run_bind].
  change (Z.to_nat SugarPowAveragingWindow) with 510%nat.
  destruct (sum_sim T (heap_ b1) 510 521 0 _ _ Hs1 ltac:(lia)) as (tot & f & fh & Eh & Et & Hf).
  rewrite Eh, Et. cbn [mbind run_bind fst snd].
  destruct f as [f|], fh as [fh|]; try done; cbn [mbind run_bind fst snd].
  - destruct (finish_sim T (heap_ b1) 521 p tot l (hash nd) f fh Hs1 Hf ltac:(lia)) as (v & -> & Hv).
    exists v, b1. done.
  - change (SugarPowAveragingWindow + Z.of_nat medianTimeBlocks) with 521.
    destruct (Hrepair b1 Hok1 Hg1) as (b2 & -> & Hok2 & Hg2 & Hs2). cbn [mbind run_bind].
    destruct (sum_sim T (heap_ b2) 510 521 0 _ _ Hs2 ltac:(lia)) as (tot2 & f2 & fh2 & -> & Et2 & Hf2).
    rewrite Et in Et2. injection Et2 as <- <-. cbn [mbind run_bind fst snd].
    destruct f2; [done|]. exists (PowLimitBits p), b2. done.
Qed.

(** C5 (refinement).  The header window is invisible to the difficulty rule: in a
    consistent state, whatever part of the chain is in memory,
    [calcNextRequiredDifficulty] returns without panic the difficulty that a node
    keeping the whole block tree in memory computes for the same block, and
    leaves the state consistent. *)
Theorem difficulty_windowed (p : Params) (T : tree) (b : BlockChain) (l : loc) (nd : blockNode) :
  chain_ok T b → heap_ b !! l = Some nd →
  ∃ v b', calcNextRequiredDifficulty p b (Some l) = Done (v, b') ∧
    calcNextRequiredDifficultyCtx (C := tree_ctx T) p (Some (hash nd)) = Done v ∧
    chain_ok T b' ∧ grows b b'.
Proof. intros Hok Hl. destruct (difficulty_run p T b l nd Hok Hl) as (v & b' & ? & ? & ? & ? & _). by exists v, b'. Qed.

(** ** Bounds of the retarget *)

(** The targets of the [n] blocks ending with [hs] *)
Fixpoint treeTargets (T : tree) (n : nat) (hs : hash_t) : list Z :=
  match n with
  | O => []
  | S n =>
      match T !! hs with
      | Some x => WorkMath.CompactToBig (Wire.Bits x.1) :: treeTargets T n (Wire.PrevBlock x.1)
      | None => []
      end
  end.

Definition sumZ (l : list Z) : Z := foldr Z.add 0 l.

Lemma sum_tree T i tot hs hd g : tree_ok T → T !! hs = Some (hd, g) → Z.of_nat i ≤ g →
  ∃ hs' hd', sumTargets (C := tree_ctx T) i tot (Some hs) = Done (tot + sumZ (treeTargets T i hs), Some hs') ∧
    length (treeTargets T i hs) = i ∧ T !! hs' = Some (hd', g - Z.of_nat i).
Proof.
  intros Hok. revert tot hs hd g. induction i as [|i IH]; intros tot hs hd g HT Hi.
  { exists hs, hd. cbn. split_and!; [by rewrite Z.add_0_r|done|by rewrite Z.sub_0_r]. }
  destruct (proj2 Hok hs (hd, g) HT) as [Hr Hp]. cbn [fst snd] in Hp.
  destruct (Z.eqb_spec g 0); [lia|]. destruct Hp as [phd Hp].
  destruct (IH (tot + WorkMath.CompactToBig (Wire.Bits hd)) _ _ _ Hp ltac:(lia)) as (hs' & hd' & H1 & H2 & H3).
  exists hs', hd'. cbn [sumTargets treeTargets ctxBits ctxParent tree_ctx]. rewrite HT.
  cbn [of_option mbind run_bind fst snd]. rewrite Hp. split_and!.
  - rewrite H1. do 2 f_equal. cbn. fold (sumZ (treeTargets T i (Wire.PrevBlock hd))). lia.
  - cbn. by rewrite H2.
  - rewrite H3. do 2 f_equal. lia.
Qed.

Lemma times_tree T i hs x : T !! hs = Some x →
  ∃ ts, collectTimes (C := tree_ctx T) i (Some hs) = Done ts ∧ ((0 < i)%nat → ts ≠ []).
Proof.
  revert hs x. induction i as [|i IH]; intros hs x HT; [exists []; split; [done|lia]|].
  cbn [collectTimes ctxTimestamp ctxParent tree_ctx]. rewrite HT. cbn [of_option mbind run_bind].
  destruct (T !! Wire.PrevBlock x.1) as [y|] eqn:E.
  - destruct (IH _ _ E) as (ts & -> & _). by eexists.
  - destruct i; by eexists.
Qed.

Lemma mtp_tree T hs x : T !! hs = Some x → ∃ m, CalcPastMedianTime (C := tree_ctx T) hs = Done m.
Proof.
  intros HT. unfold CalcPastMedianTime.
  destruct (times_tree T medianTimeBlocks hs x HT) as (ts & -> & Hne). cbn [mbind run_bind].
  apply median_index, Hne. unfold medianTimeBlocks. lia.
Qed.

Lemma treeTargets_bounds T lim n hs :
  map_Forall (fun _ x => 0 < WorkMath.CompactToBig (Wire.Bits x.1) ≤ lim) T →
  Forall (fun t => 0 < t ≤ lim) (treeTargets T n hs).
Proof.
  intros HT. revert hs. induction n as [|n IH]; intros hs; cbn; [done|].
  destruct (T !! hs) as [x|] eqn:E; [|done]. constructor; [by apply (HT _ _ E)|done].
Qed.

Lemma sumZ_bounds lim ts : Forall (fun t => 0 < t ≤ lim) ts →
  0 ≤ sumZ ts ≤ lim * Z.of_nat (length ts).
Proof.
  induction 1 as [|t ts Ht _ IH]; cbn -[Z.mul Z.of_nat]; [lia|].
  fold (sumZ ts). rewrite Nat2Z.inj_succ. cbv beta in Ht. lia.
Qed.

Lemma adjustedTimespan_bounds a b : 2142 ≤ adjustedTimespan a b ≤ 3366.
Proof.
  unfold adjustedTimespan. change SugarMinActualTimespan with 2142. change SugarMaxActualTimespan with 3366.
  set (t := i64 _). destruct (Z.ltb_spec t 2142); [done|]. destruct (Z.ltb_spec 3366 t); lia.
Qed.

(** C39 (bounds).  One block never moves the difficulty far: for a block with at
    least 510 ancestors whose targets are positive and within the limit, the next
    target is at most the limit and at most 132% of the window's average target,
    and at least 84% of that average (or the limit), up to the rounding of the
    division by 2550 and of the compact form. *)
Theorem difficulty_bounds (p : Params) (T : tree) (hs : hash_t) (hd : Wire.BlockHeader) (g : Z) :
  tree_ok T → T !! hs = Some (hd, g) → 510 ≤ g → PoWNoRetargeting p = false →
  0 < PowLimit p < 2 ^ 256 →
  map_Forall (fun _ x => 0 < WorkMath.CompactToBig (Wire.Bits x.1) ≤ PowLimit p) T →
  let ts := treeTargets T 510 hs in
  let avg := sumZ ts / 510 in
  length ts = 510%nat ∧
  ∃ v, calcNextRequiredDifficultyCtx (C := tree_ctx T) p (Some hs) = Done v ∧
    let t := WorkMath.CompactToBig v in
    0 ≤ t ≤ PowLimit p ∧ 100 * t ≤ 132 * avg ∧
    Z.min (PowLimit p) (avg / 2550 * 2142) * (2 ^ 15 - 1) ≤ t * 2 ^ 15.
Proof.
  intros Hok HT Hg Hno Hlim Hall ts avg.
  destruct (sum_tree T 510 0 hs hd g Hok HT ltac:(lia)) as (hs' & hd' & Hsum & Hlen & HT').
  split; [done|]. unfold calcNextRequiredDifficultyCtx. rewrite Hno.
  change (Z.to_nat SugarPowAveragingWindow) with 510%nat. rewrite Hsum. fold ts. cbn [mbind run_bind fst snd].
  unfold finishDifficulty. destruct (mtp_tree T hs _ HT) as [m1 ->], (mtp_tree T hs' _ HT') as [m2 ->].
  cbn [mbind run_bind]. rewrite Z.add_0_l. change SugarPowAveragingWindow with 510. fold avg.
  change SugarAveragingWindowTimespan with 2550. set (a := avg / 2550).
  pose proof (adjustedTimespan_bounds m1 m2) as Hts. set (s := adjustedTimespan m1 m2) in *.
  pose proof (sumZ_bounds _ _ (treeTargets_bounds T (PowLimit p) 510 hs Hall)) as Hb.
  fold ts in Hb, Hlen. rewrite Hlen in Hb. change (Z.of_nat 510) with 510 in Hb.
  assert (0 ≤ avg ≤ PowLimit p) as Ha by (unfold avg; zdm).
  assert (0 ≤ a ∧ a * 2550 ≤ avg) as Ha' by (unfold a; zdm).
  set (n := if PowLimit p <? a * s then PowLimit p else a * s).
  assert (n = Z.min (PowLimit p) (a * s)) as Hn by (unfold n; destruct (Z.ltb_spec (PowLimit p) (a * s)); lia).
  assert (0 ≤ a * s) by nia. assert (a * 2142 ≤ a * s ≤ a * 3366) by nia.
  assert (2 ^ 256 < 2 ^ 2039) by (apply Z.pow_lt_mono_r; lia).
  destruct (WorkMath.compact_error n) as [Hle Herr]; [lia|].
  eexists. split; [done|]. cbv zeta. set (t := WorkMath.CompactToBig (WorkMath.BigToCompact n)) in *.
  change (2 ^ 15) with 32768 in *. split_and!; lia.
Qed.

(** ** The easiest difficulty *)

(** The largest target allowed [d] seconds after a block of target [t], before
    the limit: one multiplication per started retarget period of [M] seconds; no
    bound when the period is zero. *)
Definition easiestTarget (p : Params) (d t : Z) : Z :=
  let M := maxRetargetTimespan p in
  if d <=? 0 then Z.min (PowLimit p) t
  else if M =? 0 then PowLimit p
  else Z.min (PowLimit p) (t * RetargetAdjustmentFactor p ^ ((d + M - 1) / M)).

Lemma easiestTarget_step p d t : 0 < t → 2 ≤ RetargetAdjustmentFactor p →
  0 ≤ maxRetargetTimespan p → 0 < d → t < PowLimit p →
  maxRetargetTimespan p = 0 ∨
  easiestTarget p d t = easiestTarget p (d - maxRetargetTimespan p) (t * RetargetAdjustmentFactor p).
Proof.
  intros Ht Hf HM Hd Hlim. unfold easiestTarget. set (M := maxRetargetTimespan p) in *.
  set (f := RetargetAdjustmentFactor p) in *. destruct (Z.eqb_spec M 0) as [|HM0]; [by left|right].
  destruct (Z.leb_spec d 0); [lia|]. replace ((d + M - 1) / M) with ((d - 1) / M + 1).
  2: { replace (d + M - 1) with (d - 1 + 1 * M) by lia. by rewrite Z.div_add by lia. }
  assert (0 ≤ (d - 1) / M) by (apply Z.div_pos; lia).
  rewrite Z.pow_add_r, Z.pow_1_r by lia.
  destruct (Z.leb_spec (d - M) 0).
  - rewrite (Z.div_small (d - 1) M) by lia. f_equal. lia.
  - replace (d - M + M - 1) with (d - 1) by lia. f_equal. lia.
Qed.

Lemma easiestTarget_capped p d t : 0 < t → 2 ≤ RetargetAdjustmentFactor p →
  0 ≤ maxRetargetTimespan p → PowLimit p ≤ t → easiestTarget p d t = PowLimit p.
Proof.
  intros Ht Hf HM Hlim. unfold easiestTarget. set (M := maxRetargetTimespan p) in *.
  destruct (Z.leb_spec d 0); [lia|]. destruct (Z.eqb_spec M 0); [done|].
  assert (0 < RetargetAdjustmentFactor p ^ ((d + M - 1) / M)).
  { apply Z.pow_pos_nonneg; [lia|]. apply Z.div_pos; lia. }
  nia.
Qed.

Lemma easiest_loop_spec p fuel d t : 0 < t → 2 ≤ RetargetAdjustmentFactor p →
  0 ≤ maxRetargetTimespan p < 2 ^ 63 → d < 2 ^ 63 → PowLimit p ≤ t * 2 ^ Z.of_nat fuel →
  ∃ r, easiest_loop fuel p d t = Done r ∧ Z.min (PowLimit p) r = easiestTarget p d t.
Proof.
  intros Ht Hf HM. revert d t Ht. induction fuel as [|fuel IH]; intros d t Ht Hd Hfuel.
  { cbn in Hfuel. exists t. cbn [easiest_loop]. destruct (Z.ltb_spec t (PowLimit p)); [lia|].
    rewrite andb_false_r. split; [done|]. rewrite easiestTarget_capped by lia. lia. }
  cbn [easiest_loop]. destruct (Z.ltb_spec t (PowLimit p)) as [Hlt|Hge].
  2: { rewrite andb_false_r. exists t. split; [done|]. rewrite easiestTarget_capped by lia. lia. }
  destruct (Z.ltb_spec 0 d) as [Hpos|Hneg]; cbn [andb].
  2: { exists t. split; [done|]. unfold easiestTarget. by destruct (Z.leb_spec d 0); [|lia]. }
  rewrite swrap_small by zlia.
  rewrite Nat2Z.inj_succ, Z.pow_succ_r in Hfuel by lia.
  destruct (IH (d - maxRetargetTimespan p) (t * RetargetAdjustmentFactor p)) as (r & Hr & Er).
  { nia. } { lia. }
  { assert (0 < 2 ^ Z.of_nat fuel) by lia. nia. }
  exists r. split; [done|]. rewrite Er.
  destruct (easiestTarget_step p d t Ht Hf ltac:(lia) Hpos Hlt) as [E0|E0]; [|by rewrite E0].
  rewrite E0, Z.sub_0_r in *. unfold easiestTarget. rewrite E0.
  by destruct (Z.leb_spec d 0); [lia|].
Qed.

(** The bound applied after a checkpoint terminates and is the
    checkpoint's target multiplied once per started retarget period, capped by
    the limit.  With a zero period, as in the Sugarchain parameters, every
    positive duration yields the limit: the bound then excludes nothing. *)
Theorem easiest_spec (p : Params) (bits duration : Z) :
  let d := duration `quot` time_Second in
  0 < WorkMath.CompactToBig bits → 2 ≤ RetargetAdjustmentFactor p → 0 < PowLimit p →
  0 ≤ maxRetargetTimespan p → 0 ≤ duration < 2 ^ 63 → ReduceMinDifficulty p = false →
  calcEasiestDifficulty p bits duration =
    Done (WorkMath.BigToCompact (easiestTarget p d (WorkMath.CompactToBig bits))) ∧
  (maxRetargetTimespan p = 0 → 0 < d →
   calcEasiestDifficulty p bits duration = Done (WorkMath.BigToCompact (PowLimit p))).
Proof.
  intros d Ht Hf Hlim HM Hdur Hred. unfold calcEasiestDifficulty. fold d. rewrite Hred. cbn [andb].
  assert (maxRetargetTimespan p < 2 ^ 63) as HM' by (unfold maxRetargetTimespan; apply (swrap_range 64); lia).
  assert (0 ≤ d < 2 ^ 63) as Hd.
  { unfold d, time_Second. rewrite Z.quot_div_nonneg by lia. zdm. }
  destruct (easiest_loop_spec p (easiest_fuel p d) d (WorkMath.CompactToBig bits) Ht Hf) as (r & -> & Er);
    [lia..| |].
  { unfold easiest_fuel. pose proof (Z.log2_spec (PowLimit p) Hlim) as [_ Hl]. pose proof (Z.log2_nonneg (PowLimit p)).
    set (e := if 0 <? maxRetargetTimespan p then d / maxRetargetTimespan p + 1 else 0). assert (0 ≤ e).
    { unfold e. destruct (Z.ltb_spec 0 (maxRetargetTimespan p)); [|done].
      assert (0 ≤ d / maxRetargetTimespan p) by (apply Z.div_pos; lia). lia. }
    rewrite Z2Nat.id by lia.
    assert (2 ^ Z.succ (Z.log2 (PowLimit p)) ≤ 2 ^ (Z.log2 (PowLimit p) + 2 + e)) by (apply Z.pow_le_mono_r; lia).
    nia. }
  cbn [mbind run_bind].
  replace (if PowLimit p <? r then PowLimit p else r) with (Z.min (PowLimit p) r)
    by (destruct (Z.ltb_spec (PowLimit p) r); lia).
  rewrite Er. split; [done|]. intros HM0 Hpos. unfold easiestTarget. rewrite HM0.
  by destruct (Z.leb_spec d 0); [lia|].
Qed.

(** ** Witnesses *)

Definition bigTree : tree := toyTree 522.
Definition bigChain : BlockChain := toyChain 522 6.

Lemma bigChain_ok : chain_ok bigTree bigChain.
Proof. apply chain_okb_sound. vm_compute. reflexivity. Qed.

(** Six of 522 blocks are in memory; the difficulty is the one of the whole tree. *)
Lemma difficulty_windowed_witness :
  ∃ v b', calcNextRequiredDifficulty SugarMainNetParams bigChain (Some (toyLoc 521)) = Done (v, b') ∧
    calcNextRequiredDifficultyCtx (C := tree_ctx bigTree) SugarMainNetParams (Some (toyHash 521)) = Done v.
Proof.
  destruct (difficulty_windowed SugarMainNetParams bigTree bigChain (toyLoc 521) (toyWindowNode 522 6 521)
    bigChain_ok) as (v & b' & H1 & H2 & _); [vm_compute; reflexivity|].
  exists v, b'. split; [exact H1|exact H2].
Defined.

Lemma bigTree_targets :
  map_Forall (fun _ x => 0 < WorkMath.CompactToBig (Wire.Bits x.1) ≤ PowLimit SugarMainNetParams) bigTree.
Proof.
  assert (bool_decide (map_Forall (fun _ x =>
    bool_decide (0 < WorkMath.CompactToBig (Wire.Bits x.1) ≤ PowLimit SugarMainNetParams)) bigTree) = true)
    as H by (vm_compute; reflexivity).
  apply bool_decide_eq_true in H. intros hs x Hx. specialize (H hs x Hx). by apply bool_decide_unpack in H.
Qed.

Lemma difficulty_bounds_witness :
  ∃ v, calcNextRequiredDifficultyCtx (C := tree_ctx bigTree) SugarMainNetParams (Some (toyHash 521)) = Done v ∧
    WorkMath.CompactToBig v ≤ PowLimit SugarMainNetParams.
Proof.
  destruct (difficulty_bounds SugarMainNetParams bigTree (toyHash 521) (Header (toyNode 521)) 521)
    as (_ & v & H1 & [_ H2] & _);
    [apply tree_okb_sound; vm_compute; reflexivity|vm_compute; reflexivity|discriminate|reflexivity
    |split; reflexivity|exact bigTree_targets|].
  exists v. split; [exact H1|exact H2].
Defined.

(** On the main network a checkpoint of any difficulty allows the limit. *)
Lemma easiest_spec_witness :
  calcEasiestDifficulty SugarMainNetParams 0x1b0404cb (1 * time_Second) = Done 0x1f3fffff.
Proof.
  destruct (easiest_spec SugarMainNetParams 0x1b0404cb (1 * time_Second)) as [_ H];
    [vm_compute; reflexivity|discriminate|reflexivity|discriminate|split; [discriminate|reflexivity]|reflexivity|].
  rewrite H; [vm_compute; reflexivity|reflexivity|reflexivity].
Defined.

End Difficulty.
