(* ===== verification/BlockIndex.v ===== *)
(** * BlockIndex: the in-memory block index, its flush and the header window

    Model of the second half of [blockchain/blockindex.go] and of the node rows
    of [blockchain/writequeue.go]: the map from hashes to nodes, the dirty set,
    the write of the dirty nodes (directly, or through the snapshots of the
    asynchronous writer), and [evictWindow], which drops nodes below the window,
    cuts the links that lead to them, prunes both chain views and returns the
    structs to a pool.  The index lock is held throughout each operation, so an
    operation is one step.  A recycled struct keeps its contents until
    [newBlockNode] reuses it; its nil work sum is the value 0.  Go iterates over
    a map in an arbitrary order: the flush takes the order as an argument, and
    the loops of [evictWindow], whose iterations do not interact, act on all
    entries at once. *)

From S2P Require Import Prelude WorkMath ChainHash Wire BlockNode ChainView ChainIO ColdRead.
Import BlockNode ChainIO ColdRead.

Module BlockIndex.

Record blockIndex := {
  index : gmap hash_t loc;
  dirty : gset loc;
  windowSize : Z;
  bestChainView : option ChainView.chainView;
  bestHeaderView : option ChainView.chainView;
  ready : bool;
  evictCount : Z;
}.

Definition newBlockIndex : blockIndex :=
  {| index := ∅; dirty := ∅; windowSize := 0; bestChainView := None; bestHeaderView := None;
     ready := false; evictCount := 0 |}.

Definition set_index (m : gmap hash_t loc) (bi : blockIndex) : blockIndex :=
  {| index := m; dirty := dirty bi; windowSize := windowSize bi; bestChainView := bestChainView bi;
     bestHeaderView := bestHeaderView bi; ready := ready bi; evictCount := evictCount bi |}.
Definition set_dirty (s : gset loc) (bi : blockIndex) : blockIndex :=
  {| index := index bi; dirty := s; windowSize := windowSize bi; bestChainView := bestChainView bi;
     bestHeaderView := bestHeaderView bi; ready := ready bi; evictCount := evictCount bi |}.
Definition set_views (c v : option ChainView.chainView) (bi : blockIndex) : blockIndex :=
  {| index := index bi; dirty := dirty bi; windowSize := windowSize bi; bestChainView := c;
     bestHeaderView := v; ready := ready bi; evictCount := evictCount bi |}.
Definition set_ready (r : bool) (bi : blockIndex) : blockIndex :=
  {| index := index bi; dirty := dirty bi; windowSize := windowSize bi; bestChainView := bestChainView bi;
     bestHeaderView := bestHeaderView bi; ready := r; evictCount := evictCount bi |}.
Definition set_evictCount (n : Z) (bi : blockIndex) : blockIndex :=
  {| index := index bi; dirty := dirty bi; windowSize := windowSize bi; bestChainView := bestChainView bi;
     bestHeaderView := bestHeaderView bi; ready := ready bi; evictCount := n |}.

(** What the operations act on: the nodes, the index, the cold cache that the
    eviction hook resets, the node pool and the database. *)
Record state := {
  hp : heap;
  bi : blockIndex;
  cold : coldNodeCache;
  pool : list loc;
  sdb : database;
}.

(** ** Plain operations *)

Definition HaveBlock (h : heap) (b : blockIndex) (hs : hash_t) : run bool :=
  match index b !! hs with
  | None => Done false
  | Some l => nd ← deref h l; Done (HaveData (status nd))
  end.

Definition LookupNode (b : blockIndex) (hs : hash_t) : option loc := index b !! hs.

Definition addNode (h : heap) (b : blockIndex) (node : loc) : run blockIndex :=
  nd ← deref h node; Done (set_index (<[hash nd := node]> (index b)) b).

Definition AddNode (h : heap) (b : blockIndex) (node : loc) : run blockIndex :=
  b ← addNode h b node; Done (set_dirty ({[node]} ∪ dirty b) b).

Definition removeNode (b : blockIndex) (hs : hash_t) : blockIndex :=
  match index b !! hs with
  | None => b
  | Some node => set_dirty (dirty b ∖ {[node]}) (set_index (delete hs (index b)) b)
  end.

Definition setWindow (b : blockIndex) (w : Z) (chain header : option ChainView.chainView) : blockIndex :=
  {| index := index b; dirty := dirty b; windowSize := w; bestChainView := chain;
     bestHeaderView := header; ready := false; evictCount := evictCount b |}.

Definition markInitialized (b : blockIndex) : blockIndex := set_ready true b.

Definition set_status (s : Z) (n : blockNode) : blockNode :=
  {| parent := parent n; parentHash := parentHash n; ancestor := ancestor n; hash := hash n;
     workSum := workSum n; height := height n; version := version n; bits := bits n;
     nonce := nonce n; timestamp := timestamp n; merkleRoot := merkleRoot n; status := s |}.

Definition NodeStatus (h : heap) (node : loc) : run Z := nd ← deref h node; Done (status nd).

Definition SetStatusFlags (h : heap) (b : blockIndex) (node : loc) (flags : Z) : run (heap * blockIndex) :=
  nd ← deref h node;
  Done (<[node := set_status (Z.lor (status nd) flags) nd]> h, set_dirty ({[node]} ∪ dirty b) b).

Definition UnsetStatusFlags (h : heap) (b : blockIndex) (node : loc) (flags : Z) : run (heap * blockIndex) :=
  nd ← deref h node;
  Done (<[node := set_status (Z.ldiff (status nd) flags) nd]> h, set_dirty ({[node]} ∪ dirty b) b).

(** ** The window *)

Definition windowEnabled (b : blockIndex) : bool := 0 <? windowSize b.

Definition windowBoundary (b : blockIndex) (tipHeight : Z) : Z :=
  if negb (windowEnabled b) || (tipHeight <=? 0) then 0 else
  let boundary := i32 (tipHeight - windowSize b) in
  if 0 <? boundary then boundary else 0.

(** The pointers of the index and the views are never nil or dangling; [height_at]
    reads the height behind one. *)
Definition height_at (h : heap) (l : loc) : Z :=
  match h !! l with Some nd => height nd | None => 0 end.

Definition tipHeight (h : heap) (view : option ChainView.chainView) : Z :=
  match view with
  | None => -1
  | Some c => match ChainView.tip c with Some l => height_at h l | None => -1 end
  end.

(** [view != nil && view.contains(node)] *)
Definition viewContains (h : heap) (view : option ChainView.chainView) (node : loc) : bool :=
  match view with
  | None => false
  | Some c => bool_decide (ChainView.nodeByHeight c (height_at h node) = Some node)
  end.

(** The heights [evictWindow] works with *)
Record bounds := {
  chainBoundary : Z;
  headerBoundary : Z;
  frontierLow : Z;
  frontierHigh : Z;
}.

Definition evictBounds (h : heap) (b : blockIndex) : bounds :=
  let chainTip := tipHeight h (bestChainView b) in
  {| chainBoundary := Z.max 0 (windowBoundary b chainTip - difficultyProtectDepth);
     headerBoundary :=
       Z.max 0 (windowBoundary b (tipHeight h (bestHeaderView b)) - difficultyProtectDepth);
     frontierLow := i32 (chainTip - windowSize b);
     frontierHigh := i32 (chainTip + windowSize b) |}.

Definition evictable (h : heap) (b : blockIndex) (bd : bounds) (node : loc) : bool :=
  let g := height_at h node in
  (g <? headerBoundary bd) && negb (viewContains h (bestChainView b) node) &&
  negb ((frontierLow bd <=? g) && (g <=? frontierHigh bd)).

(** The boundary below which the links of a retained node are cut *)
Definition severBound (h : heap) (b : blockIndex) (bd : bounds) (node : loc) : Z :=
  let g := height_at h node in
  if bool_decide (is_Some (bestChainView b)) &&
     (viewContains h (bestChainView b) node ||
      ((g <? headerBoundary bd) && (frontierLow bd <=? g)))
  then chainBoundary bd else headerBoundary bd.

Definition cut (h : heap) (bound : Z) (p : option loc) : option loc :=
  match p with
  | Some p => if height_at h p <? bound then None else Some p
  | None => None
  end.

Definition severLinks (h : heap) (bound : Z) (nd : blockNode) : blockNode :=
  set_ancestor (cut h bound (ancestor nd)) (set_parent (cut h bound (parent nd)) nd).

(** The second loop: every node that stayed in the index [ix] *)
Definition severAll (h : heap) (b : blockIndex) (bd : bounds) (ix : gmap hash_t loc) : heap :=
  let live : gset loc := map_img ix in
  map_imap (fun l nd => Some (if decide (l ∈ live) then severLinks h (severBound h b bd l) nd else nd)) h.

Definition pruneView (h : heap) (view : option ChainView.chainView) (hgt : Z) :
    heap * option ChainView.chainView :=
  match view with
  | None => (h, None)
  | Some c => let r := ChainView.pruneBelow h c hgt in (r.1, Some r.2)
  end.

Definition nil_workSum (n : blockNode) : blockNode :=
  {| parent := parent n; parentHash := parentHash n; ancestor := ancestor n; hash := hash n;
     workSum := 0; height := height n; version := version n; bits := bits n;
     nonce := nonce n; timestamp := timestamp n; merkleRoot := merkleRoot n; status := status n |}.

(** The work sums of the evicted nodes go back to their pool. *)
Definition recycle (h : heap) (gone : list loc) : heap :=
  foldr (fun l h => alter nil_workSum l h) h gone.

Definition evictWindow (s : state) : state :=
  let b := bi s in
  if negb (windowEnabled b) || negb (ready b) then s else
  if windowBoundary b (tipHeight (hp s) (bestHeaderView b)) <=? 0 then s else
  let bd := evictBounds (hp s) b in
  let evicted := filter (fun x => evictable (hp s) b bd x.2) (index b) in
  let retained := filter (fun x => ¬ evictable (hp s) b bd x.2) (index b) in
  let h := severAll (hp s) b bd retained in
  let c := pruneView h (bestChainView b) (chainBoundary bd) in
  let v := pruneView c.1 (bestHeaderView b) (headerBoundary bd) in
  let gone := (map_to_list evicted).*2 in
  {| hp := recycle v.1 gone;
     bi := set_views c.2 v.2 (set_index retained b);
     cold := if decide (gone = []) then cold s else reset (cold s);
     pool := pool s ++ gone;
     sdb := sdb s |}.

(** ** Writing the dirty nodes *)

(** One iteration of the loop of [flushDirtyLocked] *)
Definition flushNode (h : heap) (b : blockIndex) (d : database) (node : loc) : run database :=
  nd ← deref h node;
  d ← dbStoreBlockNode d nd;
  let d := dbPutHashIndex d (hash nd) (height nd) in
  if viewContains h (bestHeaderView b) node
  then Done (dbPutHeightIndexGuarded d (height nd) (hash nd) (viewContains h (bestChainView b) node))
  else Done d.

Fixpoint flushNodes (h : heap) (b : blockIndex) (order : list loc) (d : database) : run database :=
  match order with
  | [] => Done d
  | node :: order => d ← flushNode h b d node; flushNodes h b order d
  end.

(** [bestHeaderNode] is the tip of the best header view. *)
Definition putHeaderTip (h : heap) (b : blockIndex) (d : database) : run database :=
  match bestHeaderView b ≫= ChainView.tip with
  | Some t => nd ← deref h t; Done (dbPutBestHeaderState d (hash nd) (height nd))
  | None => Done d
  end.

(** [order] lists the dirty set in the order the map iteration takes. *)
Definition flushDirtyLocked (h : heap) (b : blockIndex) (order : list loc) (d : database) : run database :=
  match order with
  | [] => Done d
  | _ => d ← flushNodes h b order d; putHeaderTip h b d
  end.

Definition blockFlushBatchSize : Z := 1000.

Definition finishFlushLocked (s : state) (forceEvict : bool) : state :=
  let set_bi b := {| hp := hp s; bi := b; cold := cold s; pool := pool s; sdb := sdb s |} in
  let b := set_dirty ∅ (bi s) in
  if forceEvict then evictWindow (set_bi b) else
  let n := i32 (evictCount b + 1) in
  if blockFlushBatchSize <=? n then evictWindow (set_bi (set_evictCount 0 b))
  else set_bi (set_evictCount n b).

(** The transaction commits: a failing storage engine is not modelled. *)
Definition flushToDB (s : state) (order : list loc) (forceEvict : bool) : run state :=
  match order with
  | [] => Done s
  | _ =>
      d ← flushDirtyLocked (hp s) (bi s) order (sdb s);
      Done (finishFlushLocked
        {| hp := hp s; bi := bi s; cold := cold s; pool := pool s; sdb := d |} forceEvict)
  end.

(** ** Snapshots for the asynchronous writer *)

Record nodeRowSnapshot := {
  row_hash : hash_t;
  row_height : Z;
  row_version : Z;
  row_bits : Z;
  row_nonce : Z;
  row_timestamp : Z;
  row_merkleRoot : hash_t;
  row_parentHash : hash_t;
  row_status : Z;
  hashIndex : bool;
  heightIndex : bool;
  heightIndexChain : bool;
}.

Definition snapshotNode (h : heap) (b : blockIndex) (node : loc) : run nodeRowSnapshot :=
  nd ← deref h node;
  Done {| row_hash := hash nd; row_height := height nd; row_version := version nd; row_bits := bits nd;
     row_nonce := nonce nd; row_timestamp := timestamp nd; row_merkleRoot := merkleRoot nd;
     row_parentHash := parentHash nd; row_status := status nd; hashIndex := true;
     heightIndex := viewContains h (bestHeaderView b) node;
     heightIndexChain := viewContains h (bestChainView b) node |}.

Fixpoint snapshotDirtyLocked (h : heap) (b : blockIndex) (order : list loc) : run (list nodeRowSnapshot) :=
  match order with
  | [] => Done []
  | node :: order =>
      r ← snapshotNode h b node; rs ← snapshotDirtyLocked h b order; Done (r :: rs)
  end.

Definition writeNodeRowSnapshot (d : database) (row : nodeRowSnapshot) : run database :=
  let node := {| parent := None; parentHash := row_parentHash row; ancestor := None; hash := row_hash row;
    workSum := 0; height := row_height row; version := row_version row; bits := row_bits row;
    nonce := row_nonce row; timestamp := row_timestamp row; merkleRoot := row_merkleRoot row;
    status := row_status row |} in
  d ← dbStoreBlockNode d node;
  let d := if hashIndex row then dbPutHashIndex d (row_hash row) (row_height row) else d in
  if heightIndex row
  then Done (dbPutHeightIndexGuarded d (row_height row) (row_hash row) (heightIndexChain row))
  else Done d.

(** The node rows of [writeItemRows] *)
Fixpoint writeNodeRows (d : database) (rows : list nodeRowSnapshot) : run database :=
  match rows with
  | [] => Done d
  | row :: rows => d ← writeNodeRowSnapshot d row; writeNodeRows d rows
  end.

(** ** The asynchronous writer *)

Lemma dbStoreBlockNode_total d nd : ∃ d', dbStoreBlockNode d nd = Done d'.
Proof. unfold dbStoreBlockNode. rewrite Wire.emits_header. by eexists. Qed.

(** A row depends on the header, hash, height and status only. *)
Lemma dbStoreBlockNode_same d nd nd' : Header nd = Header nd' → hash nd = hash nd' →
  height nd = height nd' → status nd = status nd' → dbStoreBlockNode d nd = dbStoreBlockNode d nd'.
Proof. unfold dbStoreBlockNode. by intros -> -> -> ->. Qed.

(** The asynchronous writer reproduces the synchronous write:
    for any order of the dirty nodes and any database it later meets, writing the
    snapshots taken under the lock leaves exactly the rows that
    [flushDirtyLocked] would have written there, though only values and no node
    are kept. *)
Theorem snapshot_equiv (h : heap) (b : blockIndex) (order : list loc) (d : database) :
  (rows ← snapshotDirtyLocked h b order; writeNodeRows d rows) = flushNodes h b order d.
Proof.
  revert d. induction order as [|l order IH]; intros d; [done|].
  cbn [snapshotDirtyLocked flushNodes]. unfold snapshotNode, flushNode, deref.
  destruct (h !! l) as [nd|]; [|done]. cbn [of_option mbind run_bind].
  destruct (dbStoreBlockNode_total d nd) as [d' Ed]. rewrite Ed. cbn [mbind run_bind].
  destruct (snapshotDirtyLocked h b order) as [rows| |]; cbn [mbind run_bind writeNodeRows] in *.
  - unfold writeNodeRowSnapshot. cbn [row_hash row_height heightIndex heightIndexChain hashIndex].
    rewrite (dbStoreBlockNode_same d _ nd) by reflexivity. rewrite Ed. cbn [mbind run_bind].
    destruct (viewContains h (bestHeaderView b) l); apply IH.
  - destruct (viewContains h (bestHeaderView b) l); apply IH.
  - destruct (viewContains h (bestHeaderView b) l); apply IH.
Qed.

(** ** What eviction does to the nodes *)

(** The node kept its data; its links are as before or cut. *)
Definition weaker (nd nd' : blockNode) : Prop :=
  hash nd' = hash nd ∧ height nd' = height nd ∧ Header nd' = Header nd ∧ status nd' = status nd ∧
  (parent nd' = parent nd ∨ parent nd' = None) ∧ (ancestor nd' = ancestor nd ∨ ancestor nd' = None).

Definition heap_weaker (h h' : heap) : Prop := ∀ l, option_Forall2 weaker (h !! l) (h' !! l).

#[export] Instance weaker_preorder : PreOrder weaker.
Proof.
  split; [intros n; unfold weaker; split_and!; auto|].
  intros n1 n2 n3 (A1 & A2 & A3 & A4 & A5 & A6) (B1 & B2 & B3 & B4 & B5 & B6).
  unfold weaker. split_and!; try congruence.
  - destruct B5 as [->| ->]; auto.
  - destruct B6 as [->| ->]; auto.
Qed.

#[export] Instance heap_weaker_preorder : PreOrder heap_weaker.
Proof.
  split; [intros h l; by destruct (h !! l); constructor|].
  intros h1 h2 h3 H12 H23 l. specialize (H12 l). specialize (H23 l).
  destruct H12 as [n1 n2 H1|]; [|by inversion H23]. inversion H23 as [m2 n3 H2|]; subst.
  constructor. by etransitivity.
Qed.

Lemma heap_weaker_alter f l h : (∀ nd, weaker nd (f nd)) → heap_weaker h (alter f l h).
Proof.
  intros Hf k. destruct (decide (k = l)) as [->|].
  - rewrite lookup_alter_eq. destruct (h !! l); constructor. apply Hf.
  - rewrite lookup_alter_ne by done. by destruct (h !! k); constructor.
Qed.

Lemma heap_weaker_get h h' l nd : heap_weaker h h' → h !! l = Some nd →
  ∃ nd', h' !! l = Some nd' ∧ weaker nd nd'.
Proof. intros Hw Hl. specialize (Hw l). rewrite Hl in Hw. inversion Hw. by eexists. Qed.

Lemma heap_weaker_inv h h' l nd' : heap_weaker h h' → h' !! l = Some nd' →
  ∃ nd, h !! l = Some nd ∧ weaker nd nd'.
Proof. intros Hw Hl. specialize (Hw l). rewrite Hl in Hw. inversion Hw. by eexists. Qed.

Lemma height_at_weaker h h' l : heap_weaker h h' → height_at h' l = height_at h l.
Proof.
  intros Hw. specialize (Hw l). unfold height_at. destruct Hw as [n n' H|]; [by apply H|done].
Qed.

Lemma cut_cases h bound p : cut h bound p = p ∨ cut h bound p = None.
Proof. destruct p as [p|]; cbn; [|by left]. destruct (height_at h p <? bound); auto. Qed.

Lemma severAll_weaker h b bd ix : heap_weaker h (severAll h b bd ix).
Proof.
  intros l. unfold severAll. rewrite map_lookup_imap. destruct (h !! l) as [nd|]; constructor.
  destruct (decide _); [|reflexivity]. unfold weaker, severLinks. cbn. split_and!; try done; apply cut_cases.
Qed.

Lemma pruneView_cases h v g h' v' : pruneView h v g = (h', v') →
  h' = h ∨ ∃ c l, v = Some c ∧ ChainView.base c < g ∧
    ChainView.nodes c !! Z.to_nat (g - ChainView.base c) = Some (Some l) ∧ h' = ChainView.sever h l.
Proof.
  unfold pruneView. destruct v as [c|]; [|intros [= <- <-]; by left]. intros [= <- <-].
  unfold ChainView.pruneBelow. destruct (Z.leb_spec g (ChainView.base c)); [by left|].
  destruct (_ <=? _); [by left|]. cbn [fst].
  destruct (ChainView.nodes c !! Z.to_nat (g - ChainView.base c)) as [[l|]|] eqn:E; [|by left..].
  right. exists c, l. auto.
Qed.

Lemma sever_weaker h l : heap_weaker h (ChainView.sever h l).
Proof. apply heap_weaker_alter. intros nd. unfold weaker. cbn. split_and!; auto. Qed.

Lemma pruneView_weaker h v g : heap_weaker h (pruneView h v g).1.
Proof.
  destruct (pruneView h v g) as [h' v'] eqn:E. cbn.
  destruct (pruneView_cases _ _ _ _ _ E) as [->|(c & l & _ & _ & _ & ->)]; [reflexivity|apply sever_weaker].
Qed.

Lemma recycle_weaker h gone : heap_weaker h (recycle h gone).
Proof.
  induction gone as [|l gone IH]; cbn; [reflexivity|]. etransitivity; [exact IH|].
  apply heap_weaker_alter. intros nd. unfold weaker. cbn. split_and!; auto.
Qed.

Lemma evict_weaker s : heap_weaker (hp s) (hp (evictWindow s)).
Proof.
  unfold evictWindow. destruct (_ || _); [reflexivity|]. destruct (_ <=? 0); [reflexivity|]. cbn [hp].
  etransitivity; [|apply recycle_weaker]. etransitivity; [|apply pruneView_weaker].
  etransitivity; [|apply pruneView_weaker]. apply severAll_weaker.
Qed.

(** ** No header is lost *)

(** The state as the cold reads see it *)
Definition asChain (s : state) : BlockChain :=
  {| heap_ := hp s; index_ := index (bi s); coldCache := cold s;
     bestChain := default ChainView.emptyView (bestChainView (bi s)); db := Some (sdb s);
     headerWindow := windowSize (bi s) |}.

Definition stored (d : database) (nd : blockNode) : Prop :=
  ∃ st, dbFetchBlockRowByHash d (hash nd) = Done (inl (Some (Header nd, st, height nd))).

(** Every node of the index outside [S] has its row in the database. *)
Definition storedBut (S : gset loc) (s : state) : Prop :=
  ∀ hs l nd, index (bi s) !! hs = Some l → hp s !! l = Some nd → l ∉ S → stored (sdb s) nd.

Lemma node_ok_weaker T h h' nd nd' : heap_weaker h h' → weaker nd nd' → node_ok T h nd → node_ok T h' nd'.
Proof.
  intros Hw (E1 & E2 & E3 & _ & Ep & _) [HT Hp]. split; [by rewrite E1, E2, E3|].
  intros p Hpp. assert (parent nd = Some p) as Hp0 by (destruct Ep; congruence).
  destruct (Hp p Hp0) as (pn & Hpn & Eh). destruct (heap_weaker_get _ _ _ _ Hw Hpn) as (pn' & Hpn' & Ewn & _).
  exists pn'. split; [done|]. rewrite Ewn, Eh. by apply (f_equal Wire.PrevBlock) in E3.
Qed.

Lemma node_of_weaker h h' hs l : heap_weaker h h' → node_of h hs l → node_of h' hs l.
Proof.
  intros Hw (nd & Hl & <-). destruct (heap_weaker_get _ _ _ _ Hw Hl) as (nd' & Hl' & E & _). by exists nd'.
Qed.

Lemma stored_weaker d nd nd' : weaker nd nd' → stored d nd → stored d nd'.
Proof. intros (E1 & E2 & E3 & _) [st E]. exists st. by rewrite E1, E2, E3. Qed.

(** Dropping stored nodes from the index and weakening links keeps the state
    consistent with the tree. *)
Lemma drop_ok T s s' : chain_ok T (asChain s) → storedBut ∅ s → heap_weaker (hp s) (hp s') →
  index (bi s') ⊆ index (bi s) → (cached (cold s') = cached (cold s) ∨ cached (cold s') = ∅) →
  sdb s' = sdb s → windowSize (bi s') = windowSize (bi s) →
  chain_ok T (asChain s') ∧ storedBut ∅ s'.
Proof.
  intros Hok Hst Hw Hsub Hcold Hdb Hwin. split.
  - destruct Hok as [Htree Hheap Hidx Hcd Hw0 Hrows]. cbn in *. constructor; cbn.
    + done.
    + intros l nd' Hl. destruct (heap_weaker_inv _ _ _ _ Hw Hl) as (nd & Hl0 & Hwk).
      eapply node_ok_weaker; [done..|]. by apply (Hheap l).
    + intros hs l Hl. eapply node_of_weaker; [done|]. apply Hidx. by eapply lookup_weaken.
    + intros hs l Hl. eapply node_of_weaker; [done|].
      destruct Hcold as [E|E]; rewrite E in Hl; [by apply Hcd|by rewrite lookup_empty in Hl].
    + by rewrite Hwin.
    + exists (sdb s'). split; [done|]. rewrite Hdb. destruct Hrows as (d & [= <-] & Hrows).
      intros hs hd g HT. destruct (Hrows hs hd g HT) as [[l Hl]|?]; [|by right]. right.
      destruct (Hidx hs l Hl) as (nd & Hnd & <-). destruct (Hheap l nd Hnd) as [HT' _].
      rewrite HT in HT'. injection HT' as -> ->. exact (Hst _ l nd Hl Hnd ltac:(set_solver)).
  - intros hs l nd' Hi Hl _. rewrite Hdb. destruct (heap_weaker_inv _ _ _ _ Hw Hl) as (nd & Hl0 & Hwk).
    eapply stored_weaker; [done|]. eapply (Hst hs l); [by eapply lookup_weaken|done|set_solver].
Qed.

Lemma evict_ok T s : chain_ok T (asChain s) → storedBut ∅ s →
  chain_ok T (asChain (evictWindow s)) ∧ storedBut ∅ (evictWindow s).
Proof.
  intros Hok Hst. pose proof (evict_weaker s) as Hw. apply (drop_ok T s); [done..| | | |];
    unfold evictWindow; (destruct (_ || _); [auto|]); (destruct (_ <=? 0); [auto|]); cbn; auto.
  - apply map_filter_subseteq.
  - destruct (decide _); auto.
Qed.

Lemma fetch_guarded d g hs c x :
  dbFetchBlockRowByHash (dbPutHeightIndexGuarded d g hs c) x = dbFetchBlockRowByHash d x.
Proof.
  unfold dbPutHeightIndexGuarded. destruct (negb c); [|done]. by destruct (dbFetchHashByHeight d g).
Qed.

Lemma flushNode_rows h b d l nd : h !! l = Some nd → node_widths nd →
  ∃ d', flushNode h b d l = Done d' ∧ stored d' nd ∧
    ∀ hs, length hs = 32%nat → hs ≠ hash nd → dbFetchBlockRowByHash d' hs = dbFetchBlockRowByHash d hs.
Proof.
  intros Hl Hw. unfold flushNode. rewrite (deref_Some _ _ _ Hl). cbn [mbind run_bind].
  destruct (dbStoreBlockNode_total d nd) as [d1 Ed]. rewrite Ed. cbn [mbind run_bind].
  assert (storeNode d nd = Done (dbPutHashIndex d1 (hash nd) (height nd))) as Es by (unfold storeNode; by rewrite Ed).
  pose proof (fetch_stored _ _ _ Hw Es) as Hf. pose proof Hw as (_ & Hlen & _).
  destruct (viewContains h (bestHeaderView b) l); (eexists; split; [done|]); split.
  - exists (status nd). by rewrite fetch_guarded.
  - intros hs Hhs Hne. rewrite fetch_guarded. by eapply fetch_other.
  - by exists (status nd).
  - intros hs Hhs Hne. by eapply fetch_other.
Qed.

Lemma flushNodes_rows h b order d :
  Forall (fun l => ∃ nd, h !! l = Some nd ∧ node_widths nd) order →
  (∀ l1 l2 n1 n2, l1 ∈ order → l2 ∈ order → h !! l1 = Some n1 → h !! l2 = Some n2 →
     hash n1 = hash n2 → n1 = n2) →
  ∃ d', flushNodes h b order d = Done d' ∧
    (∀ l nd, l ∈ order → h !! l = Some nd → stored d' nd) ∧
    ∀ hs, length hs = 32%nat → (∀ l nd, l ∈ order → h !! l = Some nd → hash nd ≠ hs) →
      dbFetchBlockRowByHash d' hs = dbFetchBlockRowByHash d hs.
Proof.
  intros Hall Hinj. revert d. induction order as [|l order IH]; intros d.
  { exists d. split; [done|]. split; [by intros l nd ?%not_elem_of_nil|done]. }
  apply Forall_cons in Hall as [(nd & Hl & Hw) Hall]. cbn [flushNodes].
  destruct (flushNode_rows h b d l nd Hl Hw) as (d1 & -> & Hst & Hoth). cbn [mbind run_bind].
  destruct IH with d1 as (d' & E & Hst' & Hoth'); [done| |].
  { intros l1 l2 n1 n2 H1 H2. apply Hinj; by right. }
  exists d'. split; [done|]. split.
  - intros k n [->|Hk]%elem_of_cons Hkn; [|by eapply Hst'].
    rewrite Hl in Hkn. injection Hkn as <-.
    destruct (decide (Exists (fun k => option_map hash (h !! k) = Some (hash nd)) order)) as [Hex|Hno].
    + apply Exists_exists in Hex as (k & Hk & Ek). destruct (h !! k) as [n|] eqn:Hkn; [|done].
      injection Ek as Ek. rewrite <-(Hinj k l n nd); [by eapply Hst'|by right|by left|done..].
    + destruct Hst as [st Est]. exists st. rewrite Hoth'; [done|by destruct Hw as (_ & ? & _)|].
      intros k n Hk Hkn Eh. apply Hno, Exists_exists. exists k. split; [done|]. by rewrite Hkn, <-Eh.
  - intros hs Hlen Hne. rewrite Hoth'; [|done|intros k n Hk; apply Hne; by right].
    apply Hoth; [done|]. intros ->. by eapply (Hne l); [left|done|].
Qed.

(** The invariant of the block index: the state is consistent with the tree of
    accepted headers, and what is not dirty is in the database. *)
Record index_ok (T : tree) (s : state) : Prop := {
  io_chain : chain_ok T (asChain s);
  io_stored : storedBut (dirty (bi s)) s;
  io_dirty : ∀ l, l ∈ dirty (bi s) → ∃ nd, hp s !! l = Some nd ∧ index (bi s) !! hash nd = Some l;
  io_widths : map_Forall (fun _ nd => node_widths nd) (hp s);
  io_tree : map_Forall (fun hs _ => length hs = 32%nat) T;
  io_tip : ∀ t, bestHeaderView (bi s) ≫= ChainView.tip = Some t → is_Some (hp s !! t);
}.

Definition with_db (d : database) (s : state) : state :=
  {| hp := hp s; bi := set_dirty ∅ (bi s); cold := cold s; pool := pool s; sdb := d |}.

(** The write of the dirty nodes, before eviction *)
Lemma flushDirty_ok T s order : index_ok T s → order ≡ₚ elements (dirty (bi s)) →
  ∃ d, flushDirtyLocked (hp s) (bi s) order (sdb s) = Done d ∧
    chain_ok T (asChain (with_db d s)) ∧ storedBut ∅ (with_db d s).
Proof.
  intros [Hok Hst Hdirty Hwid Htree Htip] Hperm.
  assert (∀ l, l ∈ order ↔ l ∈ dirty (bi s)) as Hord by (intros l; by rewrite Hperm, elem_of_elements).
  destruct (flushNodes_rows (hp s) (bi s) order (sdb s)) as (d1 & E1 & Hrow & Hoth).
  { apply Forall_forall. intros l Hl%Hord. destruct (Hdirty l Hl) as (nd & Hnd & _). exists nd.
    split; [done|by apply (Hwid l)]. }
  { intros l1 l2 n1 n2 (m1 & Hm1 & I1)%Hord%Hdirty (m2 & Hm2 & I2)%Hord%Hdirty H1 H2 E.
    rewrite Hm1 in H1. rewrite Hm2 in H2. injection H1 as ->. injection H2 as ->.
    rewrite E, I2 in I1. injection I1 as ->. congruence. }
  assert (∃ d, flushDirtyLocked (hp s) (bi s) order (sdb s) = Done d ∧
    ∀ hs, dbFetchBlockRowByHash d hs = dbFetchBlockRowByHash d1 hs) as (d & Ed & Hd).
  { unfold flushDirtyLocked. destruct order as [|o os]; [injection E1 as <-; by exists (sdb s)|].
    rewrite E1. cbn [mbind run_bind]. unfold putHeaderTip.
    destruct (bestHeaderView (bi s) ≫= ChainView.tip) as [t|] eqn:Et; [|by exists d1].
    destruct (Htip t eq_refl) as [nt Hnt]. rewrite (deref_Some _ _ _ Hnt). by eexists. }
  exists d. split; [done|].
  assert (∀ l nd, l ∈ order → hp s !! l = Some nd → stored d nd) as Hrow'.
  { intros l nd Hl Hnd. destruct (Hrow l nd Hl Hnd) as [st E]. exists st. by rewrite Hd. }
  assert (∀ hs, length hs = 32%nat → (∃ l nd, l ∈ order ∧ hp s !! l = Some nd ∧ hash nd = hs) ∨
    dbFetchBlockRowByHash d hs = dbFetchBlockRowByHash (sdb s) hs) as Hcase.
  { intros hs Hlen.
    destruct (decide (Exists (fun l => option_map hash (hp s !! l) = Some hs) order)) as [Hex|Hno].
    - left. apply Exists_exists in Hex as (l & Hl & El). destruct (hp s !! l) as [nd|] eqn:Hn; [|done].
      injection El as El. by exists l, nd.
    - right. rewrite Hd. apply Hoth; [done|]. intros l nd Hl Hn Eh. apply Hno, Exists_exists.
      exists l. split; [done|]. by rewrite Hn, <-Eh. }
  split.
  - destruct Hok as [H1 H2 H3 H4 H5 H6]. constructor; try done. cbn in *. exists d. split; [done|].
    destruct H6 as (d0 & [= <-] & Hrows). intros hs hd g HT.
    destruct (Hrows hs hd g HT) as [?|[st Est]]; [by left|right].
    destruct (Hcase hs (Htree hs _ HT)) as [(l & nd & Hl & Hn & <-)|E]; [|exists st; by rewrite E].
    destruct (H2 l nd Hn) as [HT' _]. rewrite HT in HT'. injection HT' as -> ->. by eapply Hrow'.
  - intros hs l nd Hi Hn _. cbn in *. destruct (decide (l ∈ order)) as [Hin|Hni]; [by eapply Hrow'|].
    destruct (Hst hs l nd Hi Hn) as [st Est]; [by rewrite <-Hord|].
    pose proof (Hwid l nd Hn) as (_ & Hlen & _).
    destruct (Hcase (hash nd) Hlen) as [(k & n & Hk & Hkn & Eh)|E]; [|exists st; by rewrite E].
    destruct (co_heap _ _ Hok l nd Hn) as [HT1 _], (co_heap _ _ Hok k n Hkn) as [HT2 _].
    rewrite Eh, HT1 in HT2. apply (inj Some), pair_equal_spec in HT2 as [EH Eg]. destruct (Hrow' k n Hk Hkn) as [st' E']. exists st'.
    by rewrite <-Eh, E', EH, Eg.
Qed.

(** C33 (invariant).  No accepted header is lost: flushing the dirty nodes in any
    order, with the eviction that may follow, terminates without panic, leaves
    nothing dirty, preserves the invariant of the index, and afterwards every
    header of the tree is still found by its hash, in memory or rebuilt from the
    database. *)
Theorem flush_keeps_headers (T : tree) (s : state) (order : list loc) (forceEvict : bool) :
  index_ok T s → order ≡ₚ elements (dirty (bi s)) →
  ∃ s', flushToDB s order forceEvict = Done s' ∧ dirty (bi s') = ∅ ∧
    chain_ok T (asChain s') ∧ storedBut ∅ s' ∧ heap_weaker (hp s) (hp s') ∧
    ∀ hs hd g, T !! hs = Some (hd, g) →
      ∃ l b' nd, materializeColdNode (asChain s') hs = Done (Some l, b') ∧
        heap_ b' !! l = Some nd ∧ hash nd = hs ∧ Header nd = hd ∧ height nd = g.
Proof.
  intros Hio Hperm.
  assert (∃ s', flushToDB s order forceEvict = Done s' ∧ dirty (bi s') = ∅ ∧
    chain_ok T (asChain s') ∧ storedBut ∅ s' ∧ heap_weaker (hp s) (hp s')) as (s' & E & Hd & Hok & Hst & Hw).
  { unfold flushToDB. destruct order as [|o os].
    { exists s. assert (dirty (bi s) = ∅) as Hd.
      { apply leibniz_equiv, elements_empty_iff. by apply Permutation_nil_l in Hperm. }
      destruct Hio as [Hok Hst _ _ _ _]. rewrite Hd in Hst. split_and!; try done. }
    destruct (flushDirty_ok T s (o :: os) Hio Hperm) as (d & -> & Hok & Hst). cbn [mbind run_bind].
    eexists. split; [done|]. unfold finishFlushLocked. cbn [hp bi cold pool sdb].
    assert (∀ b, index b = index (bi s) → windowSize b = windowSize (bi s) → dirty b = ∅ →
      let s1 := {| hp := hp s; bi := b; cold := cold s; pool := pool s; sdb := d |} in
      dirty (bi (evictWindow s1)) = ∅ ∧ chain_ok T (asChain (evictWindow s1)) ∧
      storedBut ∅ (evictWindow s1) ∧ heap_weaker (hp s) (hp (evictWindow s1))) as Hev.
    { intros b Ei Ew Ed s1. destruct (drop_ok T (with_db d s) s1) as [H1 H2];
        [exact Hok|exact Hst|reflexivity|cbn; by rewrite Ei|by left|done|done|].
      destruct (evict_ok T s1 H1 H2). split_and!; try done; [|apply (evict_weaker s1)].
      unfold evictWindow. destruct (_ || _); [done|]. by destruct (_ <=? 0). }
    destruct forceEvict; [by apply Hev|]. destruct (_ <=? _); [by apply Hev|].
    destruct (drop_ok T (with_db d s) {| hp := hp s; bi := set_evictCount (i32 (evictCount (set_dirty ∅ (bi s)) + 1))
      (set_dirty ∅ (bi s)); cold := cold s; pool := pool s; sdb := d |});
      [exact Hok|exact Hst|reflexivity|done|by left|done|done|].
    split_and!; try done. }
  exists s'. split_and!; try done. intros hs hd g HT.
  destruct (materialize_ok T (asChain s') hs hd g Hok HT) as (l & b' & Em & Hok' & _ & (nd & Hn & Eh) & _).
  exists l, b', nd. split; [done|]. split; [done|]. destruct (co_heap _ _ Hok' l nd Hn) as [HT' _].
  rewrite Eh, HT in HT'. by injection HT' as -> ->.
Qed.

(** ** The links that eviction keeps *)

(** The entries of a view stand at their heights. *)
Definition positioned (h : heap) (view : option ChainView.chainView) : Prop :=
  ∀ c i l, view = Some c → ChainView.nodes c !! i = Some (Some l) →
    height_at h l = ChainView.base c + Z.of_nat i.

Lemma height_at_lookup h l nd : h !! l = Some nd → height_at h l = height nd.
Proof. unfold height_at. by intros ->. Qed.

Lemma positioned_weaker h h' v : heap_weaker h h' → positioned h v → positioned h' v.
Proof. intros Hw Hp c i l Hc Hi. rewrite (height_at_weaker _ _ _ Hw). by apply Hp. Qed.

(** Pruning a view cuts the links of the node at the boundary only. *)
Lemma pruneView_links h v g l nd : positioned h v → h !! l = Some nd →
  ∃ nd', (pruneView h v g).1 !! l = Some nd' ∧ weaker nd nd' ∧
    (parent nd' = parent nd ∧ ancestor nd' = ancestor nd ∨
     parent nd' = None ∧ ancestor nd' = None ∧ height nd = g).
Proof.
  intros Hpos Hl. destruct (pruneView h v g) as [h' v'] eqn:E. cbn.
  destruct (pruneView_cases _ _ _ _ _ E) as [->|(c & k & -> & Hb & Hk & ->)].
  { exists nd. split; [done|]. split; [reflexivity|by left]. }
  destruct (heap_weaker_get _ _ _ _ (sever_weaker h k) Hl) as (nd' & Hl' & Hw).
  exists nd'. split; [done|]. split; [done|]. destruct (decide (l = k)) as [->|Hne].
  - right. specialize (Hpos c _ k eq_refl Hk). rewrite (height_at_lookup _ _ _ Hl) in Hpos.
    unfold ChainView.sever in Hl'. rewrite lookup_alter_eq, Hl in Hl'. injection Hl' as <-.
    split_and!; [done..|lia].
  - left. unfold ChainView.sever in Hl'. rewrite lookup_alter_ne in Hl' by done. by replace nd' with nd by congruence.
Qed.

Lemma recycle_links h gone l nd : h !! l = Some nd →
  ∃ nd', recycle h gone !! l = Some nd' ∧
    parent nd' = parent nd ∧ ancestor nd' = ancestor nd.
Proof.
  intros Hl. induction gone as [|k gone (nd' & Hl' & Hp)]; [by exists nd|].
  change (recycle h (k :: gone)) with (alter nil_workSum k (recycle h gone)).
  destruct (decide (l = k)) as [->|].
  - rewrite lookup_alter_eq, Hl'. by eexists.
  - rewrite lookup_alter_ne by done. by exists nd'.
Qed.

(** Eviction runs: the guards of [evictWindow] *)
Definition evicts (s : state) : bool :=
  windowEnabled (bi s) && ready (bi s) &&
  (0 <? windowBoundary (bi s) (tipHeight (hp s) (bestHeaderView (bi s)))).

Definition retainedIndex (s : state) : gmap hash_t loc :=
  filter (fun x => ¬ evictable (hp s) (bi s) (evictBounds (hp s) (bi s)) x.2) (index (bi s)).

Definition evictedNodes (s : state) : list loc :=
  (map_to_list (filter (fun x => evictable (hp s) (bi s) (evictBounds (hp s) (bi s)) x.2) (index (bi s)))).*2.

Lemma evict_no s : evicts s = false → evictWindow s = s.
Proof.
  unfold evicts, evictWindow. intros H.
  destruct (windowEnabled (bi s)), (ready (bi s)); cbn in *; try done.
  destruct (Z.leb_spec (windowBoundary (bi s) (tipHeight (hp s) (bestHeaderView (bi s)))) 0); [done|].
  apply Z.ltb_ge in H. lia.
Qed.

Lemma evict_yes s : evicts s = true →
  let bd := evictBounds (hp s) (bi s) in
  let h := severAll (hp s) (bi s) bd (retainedIndex s) in
  let c := pruneView h (bestChainView (bi s)) (chainBoundary bd) in
  let v := pruneView c.1 (bestHeaderView (bi s)) (headerBoundary bd) in
  evictWindow s =
  {| hp := recycle v.1 (evictedNodes s);
     bi := set_views c.2 v.2 (set_index (retainedIndex s) (bi s));
     cold := if decide (evictedNodes s = []) then cold s else reset (cold s);
     pool := pool s ++ evictedNodes s; sdb := sdb s |}.
Proof.
  unfold evicts, evictWindow. intros [[-> ->]%andb_prop H]%andb_prop. cbn [negb orb].
  destruct (Z.leb_spec (windowBoundary (bi s) (tipHeight (hp s) (bestHeaderView (bi s)))) 0); [|done].
  apply Z.ltb_lt in H. lia.
Qed.

(** What happens to the links of one node *)
Lemma evict_links s l nd : evicts s = true → positioned (hp s) (bestChainView (bi s)) →
  positioned (hp s) (bestHeaderView (bi s)) → hp s !! l = Some nd →
  let bd := evictBounds (hp s) (bi s) in
  ∃ nd', hp (evictWindow s) !! l = Some nd' ∧ weaker nd nd' ∧
    ((let bound := severBound (hp s) (bi s) bd l in
      if decide (l ∈ map_img (SA := gset loc) (retainedIndex s))
      then parent nd' = cut (hp s) bound (parent nd) ∧ ancestor nd' = cut (hp s) bound (ancestor nd)
      else parent nd' = parent nd ∧ ancestor nd' = ancestor nd)
     ∨ parent nd' = None ∧ ancestor nd' = None ∧
       (height nd = chainBoundary bd ∨ height nd = headerBoundary bd)).
Proof.
  intros Hev Hc Hv Hl bd. rewrite (evict_yes s Hev). cbn [hp]. fold bd.
  set (h1 := severAll (hp s) (bi s) bd (retainedIndex s)).
  pose proof (severAll_weaker (hp s) (bi s) bd (retainedIndex s)) as W1. fold h1 in W1.
  destruct (heap_weaker_get _ _ _ _ W1 Hl) as (n1 & H1 & Hw1).
  set (c := pruneView h1 (bestChainView (bi s)) (chainBoundary bd)).
  destruct (pruneView_links h1 (bestChainView (bi s)) (chainBoundary bd) l n1
    (positioned_weaker _ _ _ W1 Hc) H1) as (n2 & H2 & Hw2 & P2). fold c in H2.
  assert (heap_weaker (hp s) c.1) as W2 by (etransitivity; [exact W1|apply pruneView_weaker]).
  destruct (pruneView_links c.1 (bestHeaderView (bi s)) (headerBoundary bd) l n2
    (positioned_weaker _ _ _ W2 Hv) H2) as (n3 & H3 & Hw3 & P3).
  destruct (recycle_links _ (evictedNodes s) l n3 H3) as (n4 & H4 & P4).
  exists n4. split; [done|]. split.
  { pose proof (recycle_weaker (pruneView c.1 (bestHeaderView (bi s)) (headerBoundary bd)).1 (evictedNodes s) l) as W.
    rewrite H3, H4 in W. inversion W; subst. repeat (etransitivity; [eassumption|]). reflexivity. }
  destruct Hw1 as (_ & Eg1 & _), Hw2 as (_ & Eg2 & _), Hw3 as (_ & _ & _ & _ & L3 & M3), P4 as [-> ->].
  destruct P2 as [[P2 A2]|(P2 & A2 & ?)].
  2: { right. split_and!; [destruct L3; congruence|destruct M3; congruence|lia]. }
  destruct P3 as [[P3 A3]|(P3 & A3 & ?)]; [|right; split_and!; [done..|lia]].
  left. cbv zeta. rewrite P3, A3, P2, A2.
  unfold h1, severAll in H1. rewrite map_lookup_imap, Hl in H1. cbn in H1. injection H1 as <-.
  by destruct (decide _).
Qed.

Lemma windowBoundary_eq b t : 0 < windowSize b < 2 ^ 31 → -1 ≤ t < 2 ^ 31 →
  windowBoundary b t = Z.max 0 (t - windowSize b).
Proof.
  intros Hw Ht. unfold windowBoundary, windowEnabled. destruct (Z.ltb_spec 0 (windowSize b)); [|lia]. cbn [negb orb].
  destruct (Z.leb_spec t 0); [lia|]. rewrite swrap_small by zlia.
  destruct (Z.ltb_spec 0 (t - windowSize b)); lia.
Qed.

Lemma height_at_range prev h l : heap_wf prev h → 0 ≤ height_at h l < 2 ^ 31.
Proof.
  intros Hwf. unfold height_at. destruct (h !! l) as [nd|] eqn:E; [|lia]. by apply (Hwf l nd).
Qed.

Lemma tipHeight_range prev h v : heap_wf prev h → -1 ≤ tipHeight h v < 2 ^ 31.
Proof.
  intros Hwf. unfold tipHeight. destruct v as [c|]; [|lia]. destruct (ChainView.tip c) as [l|]; [|lia].
  pose proof (height_at_range prev h l Hwf). lia.
Qed.

Lemma severBound_cases h b bd l : severBound h b bd l = chainBoundary bd ∨ severBound h b bd l = headerBoundary bd.
Proof. unfold severBound. destruct (_ && _); auto. Qed.

Lemma cut_keep h bound p : bound ≤ height_at h p → cut h bound (Some p) = Some p.
Proof. intros H. cbn. destruct (Z.ltb_spec (height_at h p) bound); [lia|done]. Qed.

(** One link above the header boundary survives. *)
Lemma evict_parent_kept prev s l nd p : evicts s = true → heap_wf prev (hp s) →
  positioned (hp s) (bestChainView (bi s)) → positioned (hp s) (bestHeaderView (bi s)) →
  let bd := evictBounds (hp s) (bi s) in
  chainBoundary bd ≤ headerBoundary bd → headerBoundary bd < height nd →
  hp s !! l = Some nd → parent nd = Some p →
  ∃ nd', hp (evictWindow s) !! l = Some nd' ∧ parent nd' = Some p.
Proof.
  intros Hev Hwf Hc Hv bd Hle Hgt Hl Hp.
  destruct (evict_links s l nd Hev Hc Hv Hl) as (nd' & Hl' & _ & P). fold bd in P. exists nd'. split; [done|].
  destruct (Hwf l nd Hl) as (_ & _ & Hpar & _). destruct (Hpar p Hp) as (pn & Hpn & Hh & _).
  apply height_at_lookup in Hpn. destruct P as [P|(_ & _ & P)]; [|lia]. cbv zeta in P.
  destruct (decide _); [|destruct P; congruence]. destruct P as [-> _]. rewrite Hp. apply cut_keep.
  destruct (severBound_cases (hp s) (bi s) bd l) as [->| ->]; lia.
Qed.

(** C37 (safety).  Eviction protects the difficulty window, provided the tip of the
    header view is at least as high as that of the connected chain: every node at or above the window
    boundary of the header tip still reaches, by parent pointers, exactly the
    521 ancestors it reached before. *)
Theorem evict_protects (prev : gmap hash_t hash_t) (s : state) (l : loc) (nd : blockNode) (k : nat) :
  heap_wf prev (hp s) → positioned (hp s) (bestChainView (bi s)) →
  positioned (hp s) (bestHeaderView (bi s)) → 0 ≤ windowSize (bi s) < 2 ^ 31 →
  tipHeight (hp s) (bestChainView (bi s)) ≤ tipHeight (hp s) (bestHeaderView (bi s)) →
  hp s !! l = Some nd →
  windowBoundary (bi s) (tipHeight (hp s) (bestHeaderView (bi s))) ≤ height nd →
  Z.of_nat k ≤ difficultyProtectDepth →
  walk (hp (evictWindow s)) k l = walk (hp s) k l.
Proof.
  intros Hwf Hc Hv Hwin Htips Hl Hraw Hk. destruct (evicts s) eqn:Hev; [|by rewrite evict_no].
  set (bd := evictBounds (hp s) (bi s)).
  assert (0 < windowSize (bi s)) as Hw0.
  { unfold evicts, windowEnabled in Hev. apply andb_prop in Hev as [[?%Z.ltb_lt _]%andb_prop _]. done. }
  assert (chainBoundary bd ≤ headerBoundary bd) as Hle.
  { cbn [bd evictBounds chainBoundary headerBoundary].
    pose proof (tipHeight_range prev (hp s) (bestChainView (bi s)) Hwf).
    pose proof (tipHeight_range prev (hp s) (bestHeaderView (bi s)) Hwf).
    rewrite !windowBoundary_eq by lia. lia. }
  assert (Z.of_nat k ≤ height nd - headerBoundary bd ∨ headerBoundary bd = 0) as Hroom.
  { cbn [bd evictBounds headerBoundary]. lia. }
  clear Hraw Hk. revert l nd Hl Hroom. induction k as [|k IH]; intros l nd Hl Hroom; [done|].
  pose proof (evict_weaker s l) as W. rewrite Hl in W. inversion W as [? nd' Hwk Enl Enl'|]; subst.
  rewrite (ChainView.walk_step _ _ _ _ Hl), (ChainView.walk_step _ _ _ nd') by done.
  destruct (parent nd) as [p|] eqn:Ep.
  2: { destruct Hwk as (_ & _ & _ & _ & [E|E] & _); rewrite E; [by rewrite Ep|done]. }
  destruct (Hwf l nd Hl) as (Hr & _ & Hpar & _). destruct (Hpar p Ep) as (pn & Hpn & Hh & _).
  destruct (Hwf p pn Hpn) as (Hrp & _).
  destruct (evict_parent_kept prev s l nd p Hev Hwf Hc Hv Hle) as (nd2 & Hl2 & Hp2); [fold bd; lia|done..|].
  replace nd' with nd2 by congruence. rewrite Hp2. cbn. apply (IH p pn); [done|lia].
Qed.

(** ** No recycled struct stays in use *)

Lemma walk_hashWalk prev h k l nd q : heap_wf prev h → h !! l = Some nd → walk h k l = Some q →
  ∃ qn, h !! q = Some qn ∧ hashWalk prev k (hash nd) = Some (hash qn).
Proof.
  intros Hwf. revert l nd. induction k as [|k IH]; intros l nd Hl Hq.
  { injection Hq as <-. by exists nd. }
  rewrite (ChainView.walk_step _ _ _ _ Hl) in Hq. destruct (parent nd) as [p|] eqn:Ep; [|done]. cbn in Hq.
  destruct (Hwf l nd Hl) as (_ & Hprev & Hpar & _). destruct (Hpar p Ep) as (pn & Hpn & _ & _ & Hw).
  replace (Z.to_nat (height nd - (height nd - 1))) with 1%nat in Hw by lia.
  cbn in Hw. rewrite Hprev in Hw. cbn in Hw. injection Hw as Hw.
  destruct (IH p pn Hpn Hq) as (qn & Hqn & Hk). exists qn. split; [done|].
  cbn [hashWalk]. rewrite Hprev. cbn. by rewrite Hw.
Qed.

(** A link of a node of a view leads into the view or below its base. *)
Lemma view_link prev h c l nd q g : heap_wf prev h → unique h → ChainView.view_ok h c →
  h !! l = Some nd → ChainView.nodeByHeight c (height nd) = Some l → link prev h nd q g →
  ChainView.base c ≤ g → ChainView.nodeByHeight c g = Some q.
Proof.
  intros Hwf Huniq (Hb & _ & Hlk) Hl Hin (qn & Hq & Hqh & Hlt & Hw) Hge.
  unfold ChainView.nodeByHeight in *.
  destruct (Z.ltb_spec (height nd) (ChainView.base c)); [done|]. cbn [orb] in Hin.
  destruct (Z.leb_spec (ChainView.base c + zlen (ChainView.nodes c)) (height nd)); [done|].
  destruct (Z.ltb_spec g (ChainView.base c)); [lia|]. cbn [orb].
  destruct (Z.leb_spec (ChainView.base c + zlen (ChainView.nodes c)) g); [lia|].
  destruct (ChainView.nodes c !! Z.to_nat (height nd - ChainView.base c)) as [[x|]|] eqn:Ex; [|done..].
  cbn in Hin. injection Hin as ->.
  destruct (ChainView.linked_walk h _ _ _ _ (Z.to_nat (height nd - g)) Hlk Ex) as [Hent [q' Hq']]; [lia|].
  replace (Z.to_nat (height nd - ChainView.base c) - Z.to_nat (height nd - g))%nat
    with (Z.to_nat (g - ChainView.base c)) in Hent by lia.
  rewrite Hent, Hq'. cbn. f_equal.
  destruct (walk_hashWalk prev h _ l nd q' Hwf Hl Hq') as (qn' & Hqn' & Hw'). rewrite Hw in Hw'.
  injection Hw' as Hw'. by eapply Huniq.
Qed.

Lemma evictedNodes_spec s q : q ∈ evictedNodes s →
  ∃ hs, index (bi s) !! hs = Some q ∧ evictable (hp s) (bi s) (evictBounds (hp s) (bi s)) q = true.
Proof.
  unfold evictedNodes. intros ([hs q'] & -> & Hin)%list_elem_of_fmap.
  apply elem_of_map_to_list, map_lookup_filter_Some in Hin as [H1 H2]. exists hs. split; [done|].
  by apply Is_true_true.
Qed.

(** No side-chain node of the block-connection frontier is linked to a side-chain
    node below the frontier that the severing rule spares. *)
Definition frontier_closed (s : state) : Prop :=
  let bd := evictBounds (hp s) (bi s) in
  ∀ hs l nd p, index (bi s) !! hs = Some l → hp s !! l = Some nd →
    frontierLow bd ≤ height nd < headerBoundary bd → viewContains (hp s) (bestChainView (bi s)) l = false →
    parent nd = Some p ∨ ancestor nd = Some p →
    viewContains (hp s) (bestChainView (bi s)) p = true ∨ frontierLow bd ≤ height_at (hp s) p ∨
    height_at (hp s) p < chainBoundary bd.

(** A surviving link of a retained node does not lead to an evicted node. *)
Lemma kept_link prev s c l hs nd q g : evicts s = true → heap_wf prev (hp s) → unique (hp s) →
  bestChainView (bi s) = Some c → ChainView.view_ok (hp s) c →
  ChainView.base c ≤ chainBoundary (evictBounds (hp s) (bi s)) → frontier_closed s →
  retainedIndex s !! hs = Some l → hp s !! l = Some nd →
  parent nd = Some q ∨ ancestor nd = Some q → link prev (hp s) nd q g →
  severBound (hp s) (bi s) (evictBounds (hp s) (bi s)) l ≤ height_at (hp s) q →
  evictable (hp s) (bi s) (evictBounds (hp s) (bi s)) q = false.
Proof.
  intros Hev Hwf Huniq Ec Hview Hbase Hside Hret Hl Hlink Hlk Hcut. set (bd := evictBounds (hp s) (bi s)) in *.
  pose proof Hlk as (qn & Hq & Hqh & Hlt & _).
  pose proof (height_at_lookup _ _ _ Hq) as Hqa. pose proof (height_at_lookup _ _ _ Hl) as Hla.
  apply map_lookup_filter_Some in Hret as [Hidx Hne]. cbn in Hne. apply Is_true_false in Hne.
  fold bd in Hne.
  unfold evictable in *. destruct (Z.ltb_spec (height_at (hp s) q) (headerBoundary bd)) as [Hqb|]; [|done].
  destruct (viewContains (hp s) (bestChainView (bi s)) q) eqn:Eq; [done|]. cbn [negb andb].
  apply negb_false_iff. unfold severBound in Hcut. rewrite bool_decide_eq_true_2 in Hcut by (rewrite Ec; by eexists).
  destruct (viewContains (hp s) (bestChainView (bi s)) l) eqn:El; cbn [andb orb] in Hcut.
  { exfalso. rewrite Ec in El, Eq. cbn in El, Eq. apply bool_decide_eq_true in El. apply bool_decide_eq_false in Eq.
    apply Eq. rewrite Hla in El. rewrite Hqa, Hqh. apply (view_link prev (hp s) c l nd q g); [done..|lia]. }
  destruct (Z.ltb_spec (height_at (hp s) l) (headerBoundary bd)); cbn [andb negb] in *; [|lia].
  apply negb_false_iff, andb_prop in Hne as [Hf1%Z.leb_le Hf2%Z.leb_le].
  destruct (Z.leb_spec (frontierLow bd) (height_at (hp s) l)); [|lia].
  assert (frontierLow bd ≤ height nd < headerBoundary bd) as Hwin by lia.
  destruct (Hside hs l nd q Hidx Hl Hwin El Hlink) as [Hx|[Hx|Hx]]; fold bd in Hx; [congruence| |lia].
  apply andb_true_intro. split; apply Z.leb_le; lia.
Qed.

Lemma pruneView_lookup h v g v' x q : (pruneView h v g).2 = Some v' → ChainView.nodeByHeight v' x = Some q →
  ∃ c, v = Some c ∧ ChainView.nodeByHeight c x = Some q ∧ g ≤ x ∧
    ∃ i, ChainView.nodes c !! i = Some (Some q) ∧ x = ChainView.base c + Z.of_nat i.
Proof.
  destruct v as [c|]; [|done]. cbn. intros [= <-] Hx. exists c. split; [done|].
  assert (ChainView.nodeByHeight c x = Some q ∧ g ≤ x) as [Hc Hg].
  { unfold ChainView.pruneBelow in Hx. unfold ChainView.nodeByHeight in *.
    destruct (Z.leb_spec g (ChainView.base c)).
    { cbn [snd] in Hx. destruct (Z.ltb_spec x (ChainView.base c)); [done|]. split; [done|lia]. }
    destruct (Z.leb_spec (zlen (ChainView.nodes c)) (g - ChainView.base c)); cbn [snd ChainView.nodes ChainView.base] in Hx.
    { by destruct (_ || _) in Hx; rewrite ?lookup_nil in Hx. }
    destruct (Z.ltb_spec x g); [done|]. cbn [orb] in Hx.
    destruct (Z.ltb_spec x (ChainView.base c)); [lia|]. cbn [orb].
    unfold zlen in *. rewrite length_drop in Hx. destruct (Z.leb_spec (g + Z.of_nat
      (length (ChainView.nodes c) - Z.to_nat (g - ChainView.base c))) x); [done|].
    destruct (Z.leb_spec (ChainView.base c + Z.of_nat (length (ChainView.nodes c))) x); [lia|].
    rewrite lookup_drop in Hx.
    replace (Z.to_nat (g - ChainView.base c) + Z.to_nat (x - g))%nat with (Z.to_nat (x - ChainView.base c)) in Hx by lia.
    done. }
  split; [done|]. split; [done|]. unfold ChainView.nodeByHeight in Hc.
  destruct (Z.ltb_spec x (ChainView.base c)); [done|]. destruct (_ || _) in Hc; [done|].
  exists (Z.to_nat (x - ChainView.base c)). split; [|lia].
  by destruct (ChainView.nodes c !! Z.to_nat (x - ChainView.base c)) as [[y|]|]; cbn in Hc; simplify_eq.
Qed.

(** Structs returned to the pool are not in use: in a well-formed
    heap with a consistent best chain view, and provided no side-chain link
    crosses the lower end of the connection frontier ([frontier_closed]), no node
    that stays in the index points to a struct the eviction recycles, no view
    holds one, and the cold cache is empty if any was recycled. *)
Theorem evict_no_dangling (prev : gmap hash_t hash_t) (s : state) (c : ChainView.chainView) (q : loc) :
  heap_wf prev (hp s) → unique (hp s) → bestChainView (bi s) = Some c → ChainView.view_ok (hp s) c →
  positioned (hp s) (bestHeaderView (bi s)) →
  ChainView.base c ≤ chainBoundary (evictBounds (hp s) (bi s)) → frontier_closed s →
  let s' := evictWindow s in
  q ∈ pool s' → q ∉ pool s →
  (∀ hs l nd', index (bi s') !! hs = Some l → hp s' !! l = Some nd' →
     l ≠ q ∧ parent nd' ≠ Some q ∧ ancestor nd' ≠ Some q) ∧
  (∀ g v, bestChainView (bi s') = Some v ∨ bestHeaderView (bi s') = Some v →
     ChainView.nodeByHeight v g ≠ Some q) ∧
  cold s' = newColdNodeCache.
Proof.
  intros Hwf Huniq Ec Hview Hhv Hbase Hside s' Hin Hout.
  destruct (evicts s) eqn:Hev; [|unfold s' in Hin; by rewrite evict_no in Hin].
  assert (positioned (hp s) (bestChainView (bi s))) as Hcv.
  { rewrite Ec. intros c' i l [= <-] Hi. destruct (proj1 (proj2 (proj2 Hview)) i l Hi) as (nd & Hn & <-).
    by apply height_at_lookup. }
  assert (q ∈ evictedNodes s) as Hq.
  { unfold s' in Hin. rewrite (evict_yes s Hev) in Hin. cbn in Hin. by apply elem_of_app in Hin as [?|?]. }
  destruct (evictedNodes_spec s q Hq) as (hq & Hiq & Hevq). split_and!.
  - intros hs l nd' Hret Hl'. assert (retainedIndex s !! hs = Some l) as Hr.
    { unfold s' in Hret. by rewrite (evict_yes s Hev) in Hret. }
    assert (l ≠ q) as Hlq.
    { intros ->. apply map_lookup_filter_Some in Hr as [_ Hne]. cbn in Hne. rewrite Hevq in Hne. by apply Hne. }
    split; [done|].
    destruct (heap_weaker_inv _ _ _ _ (evict_weaker s) Hl') as (nd & Hl & _).
    destruct (evict_links s l nd Hev Hcv Hhv Hl) as (nd2 & Hl2 & _ & P). fold s' in Hl2.
    replace nd2 with nd' in P by congruence. destruct P as [P|(-> & -> & _)]; [|done].
    cbv zeta in P. rewrite decide_True in P by (by eapply elem_of_map_img_2).
    destruct P as [-> ->]. destruct (Hwf l nd Hl) as (_ & _ & Hpar & Hanc).
    assert (∀ o g, parent nd = o ∨ ancestor nd = o → (∀ x, o = Some x → link prev (hp s) nd x g) →
      cut (hp s) (severBound (hp s) (bi s) (evictBounds (hp s) (bi s)) l) o ≠ Some q) as Hcut.
    { intros [x|] g Ho Hlk; [|done]. cbn. destruct (Z.ltb_spec (height_at (hp s) x) (severBound (hp s) (bi s)
        (evictBounds (hp s) (bi s)) l)) as [|Hge]; [done|]. intros [= ->].
      rewrite (kept_link prev s c l hs nd q g) in Hevq; try done. by apply Hlk. }
    split; eapply Hcut; [by left|exact Hpar|by right|exact Hanc].
  - intros g v Hv Hg. unfold evictable in Hevq.
    apply andb_prop in Hevq as [[H1%Z.ltb_lt H2]%andb_prop _]. apply negb_true_iff in H2.
    unfold s' in Hv. rewrite (evict_yes s Hev) in Hv. cbn [bi bestChainView bestHeaderView set_views] in Hv.
    destruct Hv as [Hv|Hv]; destruct (pruneView_lookup _ _ _ _ _ _ Hv Hg) as (c0 & E0 & Hc0 & Hge & i & Hi & Ex).
    + rewrite Ec in E0. injection E0 as <-. rewrite Ec in H2. cbn in H2. apply bool_decide_eq_false in H2.
      apply H2. rewrite (Hcv c i q Ec Hi), <-Ex. done.
    + specialize (Hhv c0 i q E0 Hi). lia.
  - unfold s'. rewrite (evict_yes s Hev). cbn. rewrite decide_False; [done|]. intros E.
    rewrite E in Hq. by apply not_elem_of_nil in Hq.
Qed.

(** ** Concrete states *)

Lemma map_check {K A} `{Countable K} (P : K → A → Prop) `{∀ k x, Decision (P k x)} (m : gmap K A) :
  bool_decide (map_Forall (fun k x => bool_decide (P k x)) m) = true → map_Forall P m.
Proof. intros Hm%bool_decide_eq_true k x Hk. by apply (Hm k x), bool_decide_unpack in Hk. Qed.

Definition uniqueb (h : heap) : bool :=
  bool_decide (map_Forall (fun l1 n1 => map_Forall (fun l2 n2 =>
    bool_decide (hash n1 = hash n2 → l1 = l2)) h) h).

Lemma uniqueb_sound h : uniqueb h = true → unique h.
Proof.
  intros H%bool_decide_eq_true l1 l2 n1 n2 H1 H2. specialize (H l1 n1 H1 l2 n2 H2).
  by apply bool_decide_unpack in H.
Qed.

Definition linkedb (h : heap) (bs : Z) (ns : list (option loc)) : bool :=
  forallb (fun i => match ns !! i with
    | Some (Some l) =>
        match h !! l with
        | Some nd => (height nd =? bs + Z.of_nat i) &&
            match i with O => true | S j => bool_decide (is_Some (parent nd) ∧ ns !! j = Some (parent nd)) end
        | None => false
        end
    | _ => true
    end) (seq 0 (length ns)).

Lemma linkedb_sound h bs ns : linkedb h bs ns = true → ChainView.linked h bs ns.
Proof.
  unfold linkedb. rewrite forallb_forall. intros H.
  assert (∀ i l, ns !! i = Some (Some l) → ∃ nd, h !! l = Some nd ∧ height nd = bs + Z.of_nat i ∧
    match i with O => True | S j => is_Some (parent nd) ∧ ns !! j = Some (parent nd) end) as Hall.
  { intros i l Hi. pose proof (lookup_lt_Some _ _ _ Hi). specialize (H i ltac:(apply in_seq; lia)).
    rewrite Hi in H. destruct (h !! l) as [nd|]; [|done]. apply andb_prop in H as [H1%Z.eqb_eq H2].
    exists nd. split_and!; [done..|]. destruct i; [done|by apply bool_decide_eq_true in H2]. }
  split.
  - intros i l Hi. destruct (Hall i l Hi) as (nd & ? & ? & _). by exists nd.
  - intros i l nd Hi Hl. destruct (Hall _ _ Hi) as (nd' & Hl' & _ & [p Hp] & E).
    rewrite Hl in Hl'. injection Hl' as <-. exists p. split; [done|by rewrite E, Hp].
Qed.

(** Eight blocks, the last four in memory, block 7 not written yet *)
Definition toyState : state :=
  {| hp := heap_ (toyChain 8 4);
     bi := {| index := index_ (toyChain 8 4); dirty := {[toyLoc 7]}; windowSize := 4;
              bestChainView := Some (bestChain (toyChain 8 4));
              bestHeaderView := Some (bestChain (toyChain 8 4)); ready := true; evictCount := 0 |};
     cold := newColdNodeCache; pool := []; sdb := toyDB 7 |}.

Definition storedb (d : database) (nd : blockNode) : bool :=
  match dbFetchBlockRowByHash d (hash nd) with
  | Done (inl (Some (hd, _, g))) => bool_decide (hd = Header nd) && (g =? height nd)
  | _ => false
  end.

Lemma storedb_sound d nd : storedb d nd = true → stored d nd.
Proof.
  unfold storedb, stored. destruct (dbFetchBlockRowByHash d (hash nd)) as [[[[[hd st] g]|]|]| |]; try done.
  intros [->%bool_decide_eq_true ->%Z.eqb_eq]%andb_prop. by exists st.
Qed.

#[export] Instance node_widths_dec nd : Decision (node_widths nd).
Proof. unfold node_widths, Wire.header_wf. apply _. Defined.

Lemma toyState_ok : index_ok (toyTree 8) toyState.
Proof.
  constructor.
  - apply chain_okb_sound. vm_compute. reflexivity.
  - assert (bool_decide (map_Forall (fun _ l => bool_decide (l = toyLoc 7) || match hp toyState !! l with
      | Some nd => storedb (sdb toyState) nd | None => true end) (index (bi toyState))) = true) as H
      by (vm_compute; reflexivity).
    apply bool_decide_eq_true in H. intros hs l nd Hi Hl Hd. specialize (H hs l Hi). cbv beta in H.
    rewrite Hl in H. apply Is_true_true, orb_prop in H as [->%bool_decide_eq_true|H];
      [|by apply storedb_sound].
    exfalso. apply Hd. change (toyLoc 7 ∈ ({[toyLoc 7]} : gset loc)). by apply elem_of_singleton.
  - intros l Hl. change (l ∈ ({[toyLoc 7]} : gset loc)) in Hl. apply elem_of_singleton in Hl as ->. exists (toyWindowNode 8 4 7). split; vm_compute; reflexivity.
  - apply map_check with (H0 := fun _ nd => node_widths_dec nd). vm_compute. reflexivity.
  - apply map_check with (H0 := fun hs _ => Nat.eq_dec (length hs) 32). vm_compute. reflexivity.
  - intros t Ht. assert (bestHeaderView (bi toyState) ≫= ChainView.tip = Some (toyLoc 7)) as E by (vm_compute; reflexivity).
    rewrite E in Ht. injection Ht as <-. vm_compute. by eexists.
Qed.

Lemma flush_keeps_headers_witness :
  ∃ s', flushToDB toyState [toyLoc 7] true = Done s' ∧ dirty (bi s') = ∅.
Proof.
  destruct (flush_keeps_headers (toyTree 8) toyState [toyLoc 7] true toyState_ok) as (s' & H1 & H2 & _);
    [vm_compute; reflexivity|]. exists s'. split; [exact H1|exact H2].
Defined.

(** A connected chain of heights 0 to 10, a header tip at 600 whose parents are
    already out of memory, and a side chain of one or two blocks on block 6; the
    window is two blocks, so the frontier starts at height 8. *)
Definition sideHash (i : Z) : hash_t := le_bytes 32 (1000 + i).
Definition sideLoc (i : Z) : loc := Z.to_pos (1000 + i).

Definition sideNode (i : Z) : blockNode :=
  {| parent := Some (if i =? 7 then toyLoc 6 else sideLoc (i - 1));
     parentHash := if i =? 7 then toyHash 6 else sideHash (i - 1);
     ancestor := Some (toyLoc (getAncestorHeight i)); hash := sideHash i; workSum := i; height := i;
     version := 1; bits := 0x1f3fffff; nonce := 1; timestamp := 1565881200 + 5 * i;
     merkleRoot := toyHash 1; status := 0 |}.

Definition forkNodes (n : Z) : list (loc * blockNode) :=
  ((fun i => (toyLoc i, toyNode i)) <$> seqZ 0 11) ++
  [(toyLoc 600, set_ancestor None (set_parent None (toyNode 600)))] ++
  ((fun i => (sideLoc i, sideNode i)) <$> seqZ 7 n).

Definition forkPrev (n : Z) : gmap hash_t hash_t :=
  list_to_map ((fun x => (hash x.2, parentHash x.2)) <$> forkNodes n).

Definition forkChain : ChainView.chainView :=
  {| ChainView.nodes := (fun i => Some (toyLoc i)) <$> seqZ 0 11; ChainView.base := 0 |}.

Definition forkState (n : Z) : state :=
  {| hp := list_to_map (forkNodes n);
     bi := {| index := list_to_map ((fun x => (hash x.2, x.1)) <$> forkNodes n); dirty := ∅; windowSize := 2;
              bestChainView := Some forkChain;
              bestHeaderView := Some {| ChainView.nodes := [Some (toyLoc 600)]; ChainView.base := 600 |};
              ready := true; evictCount := 0 |};
     cold := newColdNodeCache; pool := []; sdb := emptyDB |}.

Definition forkStates : list Z := [1; 2].

Lemma forkState_wf n : n ∈ forkStates →
  heap_wf (forkPrev n) (hp (forkState n)) ∧ unique (hp (forkState n)) ∧
  ChainView.view_ok (hp (forkState n)) forkChain ∧
  positioned (hp (forkState n)) (bestHeaderView (bi (forkState n))).
Proof.
  intros [->|[->|Hn%not_elem_of_nil]%elem_of_cons]%elem_of_cons; [| |done].
  all: split; [apply heap_wfb_sound; vm_compute; reflexivity|];
    split; [apply uniqueb_sound; vm_compute; reflexivity|]; split;
    [split; [done|]; split; [by repeat constructor|apply linkedb_sound; vm_compute; reflexivity]|];
    intros c i l [= <-] Hi; destruct i as [|i]; [injection Hi as <-; vm_compute; reflexivity|done].
Qed.

(** A chain of 620 blocks in memory, with a window of two *)
Definition longNodes : list (loc * blockNode) := (fun i => (toyLoc i, toyNode i)) <$> seqZ 0 620.

Definition longView : ChainView.chainView :=
  {| ChainView.nodes := (fun i => Some (toyLoc i)) <$> seqZ 0 620; ChainView.base := 0 |}.

Definition longState : state :=
  {| hp := list_to_map longNodes;
     bi := {| index := list_to_map ((fun x => (hash x.2, x.1)) <$> longNodes); dirty := ∅; windowSize := 2;
              bestChainView := Some longView; bestHeaderView := Some longView; ready := true; evictCount := 0 |};
     cold := newColdNodeCache; pool := []; sdb := emptyDB |}.

Definition longPrev : gmap hash_t hash_t := list_to_map ((fun x => (hash x.2, parentHash x.2)) <$> longNodes).

Lemma longView_positioned : positioned (hp longState) (Some longView).
Proof.
  assert (forallb (fun i => height_at (hp longState) (toyLoc i) =? i) (seqZ 0 620) = true) as H by (vm_compute; reflexivity).
  rewrite forallb_forall in H. intros c i l [= <-] Hi. cbn [ChainView.nodes longView] in Hi.
  rewrite list_lookup_fmap in Hi. destruct (seqZ 0 620 !! i) as [g|] eqn:Eg; [|done]. injection Hi as <-.
  specialize (H g ltac:(apply list_elem_of_In; by eapply list_elem_of_lookup_2)). apply Z.eqb_eq in H. rewrite H.
  apply lookup_seqZ in Eg. cbn. lia.
Qed.

(** The node below the tip keeps its 521 ancestors, and the ancestors beyond are gone. *)
Lemma evict_protects_witness :
  walk (hp (evictWindow longState)) 521 (toyLoc 618) = walk (hp longState) 521 (toyLoc 618) ∧
  walk (hp longState) 521 (toyLoc 618) = Some (toyLoc 97) ∧
  walk (hp longState) 523 (toyLoc 618) = Some (toyLoc 95) ∧ walk (hp (evictWindow longState)) 523 (toyLoc 618) = None.
Proof.
  split; [|split; [vm_compute; reflexivity|split; vm_compute; reflexivity]].
  apply (evict_protects longPrev longState (toyLoc 618) (toyNode 618) 521);
    [apply heap_wfb_sound; vm_compute; reflexivity|exact longView_positioned|exact longView_positioned
    |split; [discriminate|reflexivity]|apply Z.le_refl|vm_compute; reflexivity|vm_compute; discriminate|discriminate].
Defined.

Lemma forkState_closed : frontier_closed (forkState 1).
Proof.
  unfold frontier_closed. cbv zeta. intros hs l nd p Hi Hl Hw Hv _. exfalso.
  assert (bool_decide (map_Forall (fun _ l => bool_decide (¬ (8 ≤ height_at (hp (forkState 1)) l < 77)) ||
    viewContains (hp (forkState 1)) (Some forkChain) l) (index (bi (forkState 1)))) = true) as H
    by (vm_compute; reflexivity).
  apply bool_decide_eq_true in H. specialize (H hs l Hi). cbv beta in H.
  change (Some forkChain) with (bestChainView (bi (forkState 1))) in H.
  rewrite Hv, orb_false_r, (height_at_lookup _ _ _ Hl) in H. by apply bool_decide_unpack in H.
Qed.

(** The one-block side chain is recycled, and nothing points to it. *)
Lemma evict_no_dangling_witness :
  sideLoc 7 ∈ pool (evictWindow (forkState 1)) ∧
  cold (evictWindow (forkState 1)) = newColdNodeCache ∧
  ∀ hs l nd', index (bi (evictWindow (forkState 1))) !! hs = Some l →
    hp (evictWindow (forkState 1)) !! l = Some nd' → parent nd' ≠ Some (sideLoc 7).
Proof.
  assert (sideLoc 7 ∈ pool (evictWindow (forkState 1))) as Hp.
  { assert (pool (evictWindow (forkState 1)) = [sideLoc 7]) as -> by (vm_compute; reflexivity). left. }
  split; [exact Hp|]. destruct (forkState_wf 1) as (H1 & H2 & H3 & H4); [left|].
  destruct (evict_no_dangling (forkPrev 1) (forkState 1) forkChain (sideLoc 7) H1 H2 eq_refl H3 H4)
    as (H5 & _ & H6); [vm_compute; discriminate|exact forkState_closed|exact Hp|apply not_elem_of_nil|].
  split; [exact H6|]. intros hs l nd' Hi Hl. apply (H5 hs l nd' Hi Hl).
Defined.

(** The header that reuses the recycled struct: a block on top of the header tip *)
Definition nextHeader : Wire.BlockHeader :=
  {| Wire.Version := 1; Wire.PrevBlock := toyHash 600; Wire.MerkleRoot := toyHash 0;
     Wire.Timestamp := 1565890000; Wire.Bits := 0x1f3fffff; Wire.Nonce := 5 |}.

(** Without that proviso a live node is recycled.  With the header
    tip far ahead of the connected chain, a side-chain node at the lower end of
    the frontier stays in the index with its parent pointer, while its parent is
    evicted and returned to the pool; the next header accepted into that struct
    makes the pointer lead to a block at height 601 instead of the parent at
    height 7. *)
Theorem evict_recycles_live_parent :
  let s := forkState 2 in let s' := evictWindow s in
  (heap_wf (forkPrev 2) (hp s) ∧ unique (hp s) ∧ ChainView.view_ok (hp s) forkChain) ∧
  index (bi s') !! sideHash 8 = Some (sideLoc 8) ∧
  (parent <$> hp s' !! sideLoc 8) = Some (Some (sideLoc 7)) ∧
  sideLoc 7 ∈ pool s' ∧
  ∃ h, newBlockNode (hp s') (sideLoc 7) 0 nextHeader (Some (toyLoc 600)) = Done (sideLoc 7, h) ∧
    (parent <$> h !! sideLoc 8) = Some (Some (sideLoc 7)) ∧
    (height <$> h !! sideLoc 7) = Some 601.
Proof.
  intros s s'. destruct (forkState_wf 2) as (H1 & H2 & H3 & _); [right; left|].
  split; [done|]. split; [vm_compute; reflexivity|]. split; [vm_compute; reflexivity|]. split.
  { assert (pool s' = [sideLoc 7]) as -> by (vm_compute; reflexivity). left. }
  eexists. split; [vm_compute; reflexivity|]. split; vm_compute; reflexivity.
Qed.

(** The header tip ten blocks ahead of the connected chain: pruning the header
    view at height 77 also cuts the best chain there, although the best chain
    view keeps its entries down to height 67. *)
Definition nearState : state :=
  let view hi := Some {| ChainView.nodes := (fun i => Some (toyLoc i)) <$> seqZ 60 (hi - 59);
                         ChainView.base := 60 |} in
  {| hp := list_to_map ((fun i => (toyLoc i, toyWindowNode 601 541 i)) <$> seqZ 60 541);
     bi := {| index := list_to_map ((fun i => (toyHash i, toyLoc i)) <$> seqZ 60 541); dirty := ∅;
              windowSize := 2; bestChainView := view 590; bestHeaderView := view 600;
              ready := true; evictCount := 0 |};
     cold := newColdNodeCache; pool := []; sdb := emptyDB |}.

Example evict_cuts_best_chain :
  let s' := evictWindow nearState in
  viewContains (hp s') (bestChainView (bi s')) (toyLoc 77) = true ∧
  viewContains (hp s') (bestChainView (bi s')) (toyLoc 76) = true ∧
  (parent <$> hp nearState !! toyLoc 77) = Some (Some (toyLoc 76)) ∧
  (parent <$> hp s' !! toyLoc 77) = Some None.
Proof. vm_compute. split_and!; reflexivity. Qed.

End BlockIndex.
