(* ===== verification/Merkle.v ===== *)
(** * Merkle: Merkle roots of blocks and the witness commitment

    Model of [blockchain/merkle.go] and [blockchain/rolling_merkle.go]: the tree
    stored as a linear array, the root computed with a logarithmic stack of
    subtree roots, and the commitment to the witness data.  Both computations are
    proved equal to the root of the tree built level by level. *)

From S2P Require Import Prelude WorkMath ChainHash Wire BlockNode.
Import BlockNode.

Module Merkle.

Definition zeroHash : hash_t := replicate 32 (z2b 0).

(** [math.Log2] on a [float64] is exact enough for the number of transactions of
    a block (far below 2^48). *)
Definition nextPowerOfTwo (n : Z) : Z :=
  if Z.land n (n - 1) =? 0 then n else Z.shiftl 1 (Z.log2 n + 1).

Definition HashMerkleBranches (left right : hash_t) : hash_t :=
  let hash := replicate 64 (z2b 0) in
  ChainHash.DoubleHashRaw (gocopy (take 32 hash) left ++ gocopy (drop 32 hash) right).

(** The leaf of the transaction at index [i] *)
Definition leafHash (witness : bool) (i : nat) (tx : Wire.Tx) : run hash_t :=
  match witness, i with
  | true, O => Done zeroHash
  | true, _ => Wire.WitnessHash tx
  | false, _ => Wire.TxHash tx
  end.

(** ** The linear array *)

Fixpoint storeLeaves (witness : bool) (i : nat) (txs : list Wire.Tx) (merkles : list (option hash_t)) :
    run (list (option hash_t)) :=
  match txs with
  | [] => Done merkles
  | tx :: txs =>
      h ← leafHash witness i tx;
      merkles ← store merkles (Z.of_nat i) (Some h);
      storeLeaves witness (S i) txs merkles
  end.

Definition parentOf (left right : option hash_t) : option hash_t :=
  match left, right with
  | None, _ => None
  | Some l, None => Some (HashMerkleBranches l l)
  | Some l, Some r => Some (HashMerkleBranches l r)
  end.

(** [for i := 0; i < arraySize-1; i += 2], with [offset] one further each time *)
Fixpoint fillTree (fuel : nat) (arraySize i offset : Z) (merkles : list (option hash_t)) :
    run (list (option hash_t)) :=
  if i <? arraySize - 1 then
    match fuel with
    | O => NoFuel
    | S fuel =>
        left ← index merkles i;
        right ← (match left with None => Done None | Some _ => index merkles (i + 1) end);
        merkles ← store merkles offset (parentOf left right);
        fillTree fuel arraySize (i + 2) (offset + 1) merkles
    end
  else Done merkles.

Definition BuildMerkleTreeStore (transactions : list Wire.Tx) (witness : bool) :
    run (list (option hash_t)) :=
  let nextPoT := nextPowerOfTwo (zlen transactions) in
  let arraySize := nextPoT * 2 - 1 in
  merkles ← make None arraySize;
  merkles ← storeLeaves witness 0 transactions merkles;
  fillTree (Z.to_nat arraySize) arraySize 0 nextPoT merkles.

(** ** The rolling computation *)

Record rollingMerkleTreeStore := { roots : list hash_t; numLeaves : Z }.

(** [size] only sets the capacity of the slice. *)
Definition newRollingMerkleTreeStore (size : Z) : rollingMerkleTreeStore :=
  {| roots := []; numLeaves := 0 |}.

(** [for h := 0; (numLeaves>>h)&1 == 1; h++]: at most 64 iterations *)
Fixpoint add_loop (fuel : nat) (n h : Z) (rs : list hash_t) (newRoot : hash_t) : run (list hash_t * hash_t) :=
  if Z.land (Z.shiftr n h) 1 =? 1 then
    match fuel with
    | O => NoFuel
    | S fuel =>
        root ← index rs (zlen rs - 1);
        rs ← slice rs 0 (zlen rs - 1);
        add_loop fuel n (h + 1) rs (HashMerkleBranches root newRoot)
    end
  else Done (rs, newRoot).

Definition add (s : rollingMerkleTreeStore) (x : hash_t) : run rollingMerkleTreeStore :=
  r ← add_loop 65 (numLeaves s) 0 (roots s) x;
  Done {| roots := r.1 ++ [r.2]; numLeaves := u64 (numLeaves s + 1) |}.

Fixpoint addAll (witness : bool) (i : nat) (adds : list Wire.Tx) (s : rollingMerkleTreeStore) :
    run rollingMerkleTreeStore :=
  match adds with
  | [] => Done s
  | tx :: adds => h ← leafHash witness i tx; s ← add s h; addAll witness (S i) adds s
  end.

(** [for h := 0; (currentLeaves>>h)&1 == 0; h++ { numLeaves >>= 1 }]; with no leaf
    the loop would not end. *)
Fixpoint shift_loop (fuel : nat) (currentLeaves h n : Z) : run Z :=
  if Z.land (Z.shiftr currentLeaves h) 1 =? 0 then
    match fuel with
    | O => NoFuel
    | S fuel => shift_loop fuel currentLeaves (h + 1) (Z.shiftr n 1)
    end
  else Done n.

(** [for len(s.roots) > 1] *)
Fixpoint root_loop (fuel : nat) (s : rollingMerkleTreeStore) : run rollingMerkleTreeStore :=
  if 1 <? zlen (roots s) then
    match fuel with
    | O => NoFuel
    | S fuel =>
        n ← shift_loop 65 (numLeaves s) 0 (numLeaves s);
        h ← index (roots s) (zlen (roots s) - 1);
        s ← add {| roots := roots s; numLeaves := n |} h;
        root_loop fuel s
    end
  else Done s.

Definition calcMerkleRoot (s : rollingMerkleTreeStore) (adds : list Wire.Tx) (witness : bool) : run hash_t :=
  s ← addAll witness 0 adds s;
  if numLeaves s =? 1 then index (roots s) 0 else
  s ← (if (0 <? zlen adds) && negb (Z.rem (zlen adds) 2 =? 0) then
         tx ← index adds (zlen adds - 1);
         h ← (if witness then Wire.WitnessHash tx else Wire.TxHash tx);
         add s h
       else Done s);
  s ← root_loop (Z.to_nat (numLeaves s)) s;
  index (roots s) 0.

Definition CalcMerkleRoot (transactions : list Wire.Tx) (witness : bool) : run hash_t :=
  calcMerkleRoot (newRollingMerkleTreeStore (zlen transactions)) transactions witness.

(** ** The reference: the tree level by level *)

Definition H := HashMerkleBranches.

Fixpoint level (l : list hash_t) : list hash_t :=
  match l with
  | [] => []
  | [a] => [H a a]
  | a :: b :: l => H a b :: level l
  end.

Fixpoint rootFuel (fuel : nat) (l : list hash_t) : hash_t :=
  match l, fuel with
  | [a], _ => a
  | _, S fuel => rootFuel fuel (level l)
  | _, O => zeroHash
  end.

(** A level of a tree with [n] leaves has at most half as many nodes, so [n]
    levels are more than enough. *)
Definition merkleRoot (l : list hash_t) : hash_t := rootFuel (length l) l.

(** The leaves of a block *)
Fixpoint leaves (witness : bool) (i : nat) (txs : list Wire.Tx) : run (list hash_t) :=
  match txs with
  | [] => Done []
  | tx :: txs => h ← leafHash witness i tx; hs ← leaves witness (S i) txs; Done (h :: hs)
  end.

Lemma pair_ind {A} (P : list A → Prop) : P [] → (∀ a, P [a]) → (∀ a b l, P l → P (a :: b :: l)) → ∀ l, P l.
Proof.
  intros H0 H1 H2 l. enough (P l ∧ ∀ a, P (a :: l)) by tauto.
  induction l as [|b l [IH1 IH2]]; [by split|]. split; [apply IH2|]. intros a. by apply H2.
Qed.

Lemma length_level l : length (level l) = Nat.div2 (S (length l)).
Proof. induction l as [| |a b l IH] using pair_ind; [done..|]. cbn -[Nat.div2]. rewrite IH. done. Qed.

Lemma level_shorter l : (2 ≤ length l)%nat → (length (level l) < length l)%nat.
Proof.
  intros Hl. rewrite length_level. pose proof (Nat.div2_odd (S (length l))) as E.
  destruct (Nat.odd (S (length l))); cbn [Nat.b2n] in E; lia.
Qed.

Lemma level_nonempty l : l ≠ [] → level l ≠ [].
Proof. by destruct l as [|a [|b l]]. Qed.

Lemma rootFuel_enough n m l : l ≠ [] → (length l ≤ n)%nat → (length l ≤ m)%nat → rootFuel n l = rootFuel m l.
Proof.
  revert m l. induction n as [|n IH]; intros m l Hl Hn Hm; [destruct l; [done|cbn in Hn; lia]|].
  destruct l as [|a [|b l]]; [done|by destruct m|]. destruct m as [|m]; [cbn in Hm; lia|].
  pose proof (level_shorter (a :: b :: l) ltac:(cbn; lia)) as Hs. cbn [length] in *.
  cbn [rootFuel]. apply IH; [done|lia..].
Qed.

(** The root of a level is the root of the level above it. *)
Lemma merkleRoot_level l : (2 ≤ length l)%nat → merkleRoot l = merkleRoot (level l).
Proof.
  intros Hl. unfold merkleRoot. pose proof (level_shorter l Hl).
  destruct l as [|a [|b l]]; [cbn in Hl; lia..|].
  change (rootFuel (length (a :: b :: l)) (a :: b :: l)) with (rootFuel (S (length l)) (level (a :: b :: l))).
  apply rootFuel_enough; [done|cbn [length] in *; lia..].
Qed.

(** A full level: all nodes are in pairs. *)
Fixpoint pairs (l : list hash_t) : list hash_t :=
  match l with
  | a :: b :: l => H a b :: pairs l
  | _ => []
  end.

Lemma level_pairs l : Nat.even (length l) = true → level l = pairs l.
Proof. induction l as [| |a b l IH] using pair_ind; [done..|]. cbn. intros E. by rewrite IH. Qed.

Lemma pairs_app l a b : Nat.even (length l) = true → pairs (l ++ [a; b]) = pairs l ++ [H a b].
Proof. induction l as [| |c d l IH] using pair_ind; [done..|]. cbn. intros E. by rewrite IH. Qed.

(** The last node of an odd level is paired with itself. *)
Lemma level_odd l x : Nat.even (length l) = true → level (l ++ [x]) = level (l ++ [x; x]).
Proof. induction l as [| |c d l IH] using pair_ind; [done..|]. cbn. intros E. by rewrite IH. Qed.

Lemma merkleRoot_odd l x : Nat.even (length l) = true → l ≠ [] → merkleRoot (l ++ [x]) = merkleRoot (l ++ [x] ++ [x]).
Proof.
  intros E Hl. assert (1 ≤ length l)%nat by (destruct l; cbn; [done|lia]).
  rewrite (merkleRoot_level (l ++ [x])), (merkleRoot_level (l ++ [x] ++ [x])), level_odd; [done..| |];
    rewrite length_app; cbn; lia.
Qed.

(** ** The stack of roots

    [rep n rs l]: the stack [rs] holds the roots of the perfect subtrees of the
    [n] nodes [l] of a row, one per binary digit of [n]. *)
Inductive rep : Z → list hash_t → list hash_t → Prop :=
| rep_zero : rep 0 [] []
| rep_even n rs l : 0 < n → Z.of_nat (length l) = 2 * n → rep n rs (pairs l) → rep (2 * n) rs l
| rep_odd n rs l x : 0 ≤ n → Z.of_nat (length l) = 2 * n → rep n rs (pairs l) →
    rep (2 * n + 1) (rs ++ [x]) (l ++ [x]).

Lemma even_length (l : list hash_t) n : Z.of_nat (length l) = 2 * n → Nat.even (length l) = true.
Proof. intros E. apply Nat.even_spec. exists (Z.to_nat n). lia. Qed.

Lemma rep_length n rs l : rep n rs l → Z.of_nat (length l) = n.
Proof. induction 1; [done|done|]. rewrite length_app. cbn. lia. Qed.

Lemma rep_pos n rs l : rep n rs l → 0 < n → rs ≠ [].
Proof. induction 1 as [|n rs l Hn _ _ IH|n rs l x]; [lia|intros _; by apply IH|]. intros _ E. by apply app_nil in E as [_ ?]. Qed.

(** A single root is the root of the row. *)
Lemma rep_single n rs l x : rep n rs l → rs = [x] → merkleRoot l = x.
Proof.
  induction 1 as [|n rs l Hn Hlen Hr IH|n rs l y Hn Hlen Hr IH]; intros E; [done| |].
  - rewrite merkleRoot_level, level_pairs by (by eapply even_length || lia). by apply IH.
  - assert (rs = [] ∧ y = x) as [-> ->].
    { apply (app_inj_2 rs [] [y] [x]) in E as [-> [= ->]]; done. }
    destruct (Z.eq_dec n 0) as [->|]; [|by eapply rep_pos in Hr; [|lia]].
    destruct l; [done|cbn in Hlen; lia].
Qed.

Lemma land_1 n : Z.land n 1 = n `mod` 2.
Proof. change 1 with (Z.ones 1). by rewrite Z.land_ones. Qed.

Lemma shiftr_next N h n b : 0 ≤ h → Z.shiftr N h = 2 * n + b → 0 ≤ b < 2 → Z.shiftr N (h + 1) = n.
Proof. intros Hh E Hb. rewrite <-Z.shiftr_shiftr, E by lia. rewrite Z.shiftr_div_pow2 by lia. zdm. Qed.

Lemma last_of {A} (l : list A) x : index (l ++ [x]) (zlen (l ++ [x]) - 1) = Done x.
Proof.
  unfold index. rewrite zlen_app. change (zlen [x]) with 1. pose proof (zlen_nonneg l).
  rewrite decide_True by lia. replace (Z.to_nat _) with (length l) by (unfold zlen; lia).
  by rewrite list_lookup_middle.
Qed.

Lemma init_of {A} (l : list A) x : slice (l ++ [x]) 0 (zlen (l ++ [x]) - 1) = Done l.
Proof.
  unfold slice. rewrite zlen_app. change (zlen [x]) with 1. pose proof (zlen_nonneg l).
  rewrite decide_True by lia. rewrite drop_0, take_app_length'; [done|unfold zlen; lia].
Qed.

Lemma add_loop_rep n rs l : rep n rs l → ∀ fuel N h x, 0 ≤ h → Z.shiftr N h = n → n < 2 ^ Z.of_nat fuel →
  ∃ rs' y, add_loop fuel N h rs x = Done (rs', y) ∧ rep (n + 1) (rs' ++ [y]) (l ++ [x]).
Proof.
  induction 1 as [|n rs l Hn Hlen Hr IH|n rs l y Hn Hlen Hr IH]; intros fuel N h x Hh EN Hf.
  - exists [], x. destruct fuel; cbn [add_loop]; rewrite EN; (split; [done|]); apply (rep_odd 0 [] [] x); first [done|constructor].
  - exists rs, x. split.
    + destruct fuel; cbn [add_loop]; rewrite EN, land_1; (destruct (Z.eqb_spec ((2 * n) `mod` 2) 1); [zdm|done]).
    + apply rep_odd; [lia|done..].
  - destruct fuel as [|fuel]; [change (2 ^ Z.of_nat 0) with 1 in Hf; lia|]. cbn [add_loop]. rewrite EN, land_1.
    destruct (Z.eqb_spec ((2 * n + 1) `mod` 2) 1); [|zdm]. rewrite last_of, init_of. cbn [mbind run_bind].
    destruct (IH fuel N (h + 1) (H y x)) as (rs' & z & E & Hrep); [lia|eapply shiftr_next; [done|exact EN|lia]| |].
    { rewrite Nat2Z.inj_succ, Z.pow_succ_r in Hf by lia. lia. }
    exists rs', z. split; [exact E|]. replace (2 * n + 1 + 1) with (2 * (n + 1)) by lia.
    apply rep_even; [lia| |].
    + rewrite !length_app. cbn. lia.
    + rewrite <-app_assoc. cbn [app]. rewrite pairs_app by (by eapply even_length). done.
Qed.

Lemma add_rep n s l x : rep n (roots s) l → numLeaves s = n → n < 2 ^ 63 →
  ∃ s', add s x = Done s' ∧ rep (n + 1) (roots s') (l ++ [x]) ∧ numLeaves s' = n + 1.
Proof.
  intros Hr <- Hn. unfold add. pose proof (rep_length _ _ _ Hr).
  destruct (add_loop_rep _ _ _ Hr 65 (numLeaves s) 0 x) as (rs & y & -> & Hrep); [lia|apply Z.shiftr_0_r| |].
  { etrans; [exact Hn|]. apply Z.pow_lt_mono_r; lia. }
  cbn [mbind run_bind]. eexists. split; [done|]. cbn. rewrite uwrap_small by zlia. done.
Qed.

Lemma leaves_cons w i tx txs hs : leaves w i (tx :: txs) = Done hs →
  ∃ h hs', leafHash w i tx = Done h ∧ leaves w (S i) txs = Done hs' ∧ hs = h :: hs'.
Proof.
  cbn. destruct (leafHash w i tx) as [h| |]; [|done..]. cbn.
  destruct (leaves w (S i) txs) as [hs'| |]; [|done..]. intros [= <-]. eauto.
Qed.

Lemma leaves_length w i txs hs : leaves w i txs = Done hs → length hs = length txs.
Proof.
  revert i hs. induction txs as [|tx txs IH]; intros i hs E; [by injection E as <-|].
  apply leaves_cons in E as (h & hs' & _ & E & ->). cbn. f_equal. by eapply IH.
Qed.

Lemma leaves_last w i txs tx hs : leaves w i (txs ++ [tx]) = Done hs →
  ∃ hs' h, hs = hs' ++ [h] ∧ length hs' = length txs ∧ leafHash w (i + length txs) tx = Done h.
Proof.
  revert i hs. induction txs as [|t txs IH]; intros i hs E.
  - apply leaves_cons in E as (h & hs' & E1 & E2 & ->). injection E2 as <-. exists [], h.
    by rewrite Nat.add_0_r.
  - apply leaves_cons in E as (h & hs' & E1 & E2 & ->). destruct (IH _ _ E2) as (hs2 & h2 & -> & El & Eh).
    exists (h :: hs2), h2. split; [done|]. cbn [length]. split; [lia|].
    by replace (i + S (length txs))%nat with (S i + length txs)%nat by lia.
Qed.

Lemma addAll_rep w i txs hs s n l : leaves w i txs = Done hs → rep n (roots s) l → numLeaves s = n →
  n + zlen hs < 2 ^ 63 →
  ∃ s', addAll w i txs s = Done s' ∧ rep (n + zlen hs) (roots s') (l ++ hs) ∧ numLeaves s' = n + zlen hs.
Proof.
  revert i hs s n l. induction txs as [|tx txs IH]; intros i hs s n l E Hr Hn Hb.
  { injection E as <-. exists s. change (zlen []) with 0. rewrite Z.add_0_r, app_nil_r. done. }
  apply leaves_cons in E as (h & hs' & E1 & E2 & ->). rewrite zlen_cons in Hb. pose proof (zlen_nonneg hs').
  cbn [addAll]. rewrite E1. cbn [mbind run_bind].
  destruct (add_rep n s l h Hr Hn) as (s1 & -> & Hr1 & Hn1); [lia|]. cbn [mbind run_bind].
  destruct (IH (S i) hs' s1 (n + 1) (l ++ [h]) E2 Hr1 Hn1) as (s' & -> & Hr' & Hn'); [lia|].
  exists s'. rewrite zlen_cons, <-app_assoc in *. cbn [app] in Hr'.
  by replace (n + (1 + zlen hs')) with (n + 1 + zlen hs') by lia.
Qed.

Lemma shift_rep n rs l : rep n rs l → 0 < n → ∀ fuel N h, 0 ≤ h → Z.shiftr N h = n → n < 2 ^ Z.of_nat fuel →
  ∃ n' l', shift_loop fuel N h n = Done (2 * n' + 1) ∧ rep (2 * n' + 1) rs l' ∧ merkleRoot l' = merkleRoot l ∧
    0 ≤ n' ∧ 2 * n' + 1 ≤ n ∧ (n `mod` 2 = 0 → 2 * (2 * n' + 1) ≤ n).
Proof.
  induction 1 as [|n rs l Hn Hlen Hr IH|n rs l y Hn Hlen Hr IH]; intros Hpos fuel N h Hh EN Hf; [lia| |].
  - destruct fuel as [|fuel]; [change (2 ^ Z.of_nat 0) with 1 in Hf; lia|]. cbn [shift_loop]. rewrite EN, land_1.
    destruct (Z.eqb_spec ((2 * n) `mod` 2) 0); [|zdm].
    replace (Z.shiftr (2 * n) 1) with n by (rewrite Z.shiftr_div_pow2 by lia; zdm).
    destruct (IH Hn fuel N (h + 1)) as (n' & l' & E & Hr' & Em & H0 & Hle & _);
      [lia|apply (shiftr_next N h n 0); lia| |].
    { rewrite Nat2Z.inj_succ, Z.pow_succ_r in Hf by lia. lia. }
    exists n', l'. split_and!; [done..| |done|lia|lia].
    rewrite Em, (merkleRoot_level l), level_pairs by (by eapply even_length || lia). done.
  - exists n, (l ++ [y]). split_and!; [|by apply rep_odd|done|done|lia|zdm].
    destruct fuel; cbn [shift_loop]; rewrite EN, land_1; by destruct (Z.eqb_spec ((2 * n + 1) `mod` 2) 0); [zdm|].
Qed.

Lemma rep_odd_inv n rs l : rep (2 * n + 1) rs l →
  ∃ rs' l' x, rs = rs' ++ [x] ∧ l = l' ++ [x] ∧ Z.of_nat (length l') = 2 * n ∧ rep n rs' (pairs l').
Proof. inversion 1; [lia|lia|]. replace n with n0 by lia. by eexists _, _, _. Qed.

(** The loop over the rows: the row length is even and shrinks. *)
Lemma root_loop_rep fuel s n l : rep n (roots s) l → numLeaves s = n → 0 < n < 2 ^ 62 → n `mod` 2 = 0 →
  n ≤ Z.of_nat fuel → ∃ s', root_loop fuel s = Done s' ∧ roots s' = [merkleRoot l].
Proof.
  revert s n l. induction fuel as [|fuel IH]; intros s n l Hr Hn Hpos Hev Hf; [lia|].
  cbn [root_loop]. pose proof (rep_pos _ _ _ Hr ltac:(lia)) as Hne.
  destruct (Z.ltb_spec 1 (zlen (roots s))) as [Hlen|Hlen].
  2: { exists s. split; [done|]. destruct (roots s) as [|x [|y t]] eqn:E; [done| |].
       2: { rewrite !zlen_cons in Hlen. pose proof (zlen_nonneg t). lia. }
       by rewrite (rep_single n [x] l x Hr eq_refl). }
  rewrite Hn. destruct (shift_rep n (roots s) l Hr ltac:(lia) 65 n 0) as (n' & l' & -> & Hr' & Em & H0 & _ & Hle);
    [lia|apply Z.shiftr_0_r|etrans; [apply Hpos|]; apply Z.pow_lt_mono_r; lia|].
  cbn [mbind run_bind]. destruct (rep_odd_inv _ _ _ Hr') as (rs' & l0 & x & Ers & -> & Hl0 & Hr0).
  rewrite Ers, last_of in *. cbn [mbind run_bind].
  assert (0 < n') as Hn'.
  { destruct (Z.eq_dec n' 0) as [->|]; [|lia]. exfalso. rewrite zlen_app in Hlen. change (zlen [x]) with 1 in Hlen.
    destruct rs' as [|r rs']; [change (@zlen hash_t []) with 0 in Hlen; lia|]. inversion Hr0; lia. }
  destruct (add_rep (2 * n' + 1) {| roots := rs' ++ [x]; numLeaves := 2 * n' + 1 |} (l0 ++ [x]) x)
    as (s1 & -> & Hr1 & Hn1); [done|done|specialize (Hle Hev); zlia|]. cbn [mbind run_bind].
  specialize (Hle Hev).
  destruct (IH s1 _ _ Hr1 Hn1) as (s' & E & Es); [lia|zdm|lia|].
  exists s'. split; [done|]. rewrite Es, <-Em, <-app_assoc. f_equal.
  rewrite (merkleRoot_odd l0 x); [done|by eapply even_length|]. intros ->. cbn in Hl0. lia.
Qed.

Lemma calcMerkleRoot_spec txs w hs : leaves w 0 txs = Done hs → hs ≠ [] → zlen hs < 2 ^ 61 →
  CalcMerkleRoot txs w = Done (merkleRoot hs).
Proof.
  intros Hlv Hne Hb. pose proof (leaves_length _ _ _ _ Hlv) as Hlen.
  assert (1 ≤ zlen hs) as Hpos by (destruct hs; [done|rewrite zlen_cons; pose proof (zlen_nonneg hs); lia]).
  assert (zlen txs = zlen hs) as Ez by (unfold zlen; lia).
  unfold CalcMerkleRoot, calcMerkleRoot.
  destruct (addAll_rep w 0 txs hs (newRollingMerkleTreeStore (zlen txs)) 0 [] Hlv rep_zero eq_refl)
    as (s & -> & Hr & Hn); [zlia|]. cbn [mbind run_bind app] in *. rewrite Z.add_0_l in *. rewrite Hn, Ez.
  destruct (Z.eqb_spec (zlen hs) 1) as [E1|E1].
  { rewrite E1 in Hr. destruct (rep_odd_inv 0 _ _ Hr) as (rs' & l' & x & -> & -> & Hl & Hr').
    destruct l' as [|a l']; [|cbn in Hl; lia]. by inversion Hr'; [|lia..]. }
  destruct (Z.ltb_spec 0 (zlen hs)); [|lia]. cbn [andb]. rewrite Z.rem_mod_nonneg by lia.
  destruct (Z.eqb_spec (zlen hs `mod` 2) 0) as [Eev|Eodd]; cbn [negb mbind run_bind].
  - rewrite Hn. destruct (root_loop_rep (Z.to_nat (zlen hs)) s _ _ Hr Hn) as (s' & -> & Es); [zlia|done|lia|].
    cbn [mbind run_bind]. by rewrite Es.
  - destruct txs as [|tx txs _] using rev_ind; [change (@zlen Wire.Tx []) with 0 in Ez; lia|].
    destruct (leaves_last _ _ _ _ _ Hlv) as (hs' & h & -> & El & Eh).
    rewrite <-Ez. rewrite (last_of txs tx). cbn [mbind run_bind].
    assert (length txs ≠ 0%nat) as Hnz.
    { intros E0. rewrite zlen_app in E1. unfold zlen in E1. cbn in E1. lia. }
    assert ((if w then Wire.WitnessHash tx else Wire.TxHash tx) = Done h) as ->.
    { cbn [Nat.add] in Eh. destruct (length txs); [done|]. by destruct w. }
    cbn [mbind run_bind].
    destruct (add_rep _ s _ h Hr Hn) as (s1 & -> & Hr1 & Hn1); [zlia|]. cbn [mbind run_bind]. rewrite Hn1.
    destruct (root_loop_rep (Z.to_nat (zlen (hs' ++ [h]) + 1)) s1 _ _ Hr1 Hn1) as (s' & -> & Es); [zlia|zdm|lia|].
    cbn [mbind run_bind]. rewrite Es. f_equal. rewrite <-app_assoc. rewrite (merkleRoot_odd hs' h); [done| |].
    + apply (even_length hs' (zlen hs' / 2)). unfold zlen in *. rewrite length_app in Eodd. cbn [length] in Eodd. zdm.
    + intros ->. cbn in El. lia.
Qed.

(** ** The array holds the levels one after the other *)

Fixpoint upO (l : list (option hash_t)) : list (option hash_t) :=
  match l with
  | a :: b :: l => parentOf a b :: upO l
  | _ => []
  end.

Lemma length_upO l : Nat.even (length l) = true → (2 * length (upO l) = length l)%nat.
Proof. induction l as [| |a b l IH] using pair_ind; [done..|]. cbn [length upO]. intros E. rewrite <-IH by done. lia. Qed.

Lemma index_middle {A} (l r : list A) x i : i = zlen l → index (l ++ x :: r) i = Done x.
Proof.
  intros ->. unfold index. rewrite decide_True by apply zlen_nonneg. unfold zlen. rewrite Nat2Z.id.
  by rewrite list_lookup_middle.
Qed.

Lemma store_at {A} (l r : list A) x y i : i = zlen l → store (l ++ x :: r) i y = Done (l ++ y :: r).
Proof.
  intros ->. unfold store. rewrite zlen_app, zlen_cons. pose proof (zlen_nonneg l). pose proof (zlen_nonneg r).
  rewrite decide_True by lia. unfold zlen. rewrite Nat2Z.id. by rewrite insert_app_r_alt, Nat.sub_diag by lia.
Qed.

(** One row of the array produces the next. *)
Lemma fill_row L A U R fuel sz i offset : Nat.even (length L) = true → (length (upO L) ≤ length R)%nat →
  sz = zlen (A ++ L ++ U ++ R) → i = zlen A → offset = zlen (A ++ L ++ U) →
  fillTree (length (upO L) + fuel) sz i offset (A ++ L ++ U ++ R) =
  fillTree fuel sz (i + zlen L) (offset + zlen (upO L)) (A ++ L ++ U ++ upO L ++ drop (length (upO L)) R).
Proof.
  revert A U R i offset. induction L as [|a|a b L IH] using pair_ind; intros A U R i offset Hev HR Esz Ei Eo; [|done|].
  { cbn [upO length Nat.add]. change (zlen []) with 0. rewrite !Z.add_0_r, drop_0. done. }
  destruct R as [|x R]; [cbn in HR; lia|]. cbn [upO length] in HR |- *. cbn [Nat.add fillTree].
  assert (i < sz - 1) as Hlt.
  { rewrite Esz, Ei, !zlen_app, !zlen_cons. pose proof (zlen_nonneg L). pose proof (zlen_nonneg U). pose proof (zlen_nonneg R). lia. }
  destruct (Z.ltb_spec i (sz - 1)); [|lia].
  cbn [app].
  rewrite (index_middle A (b :: L ++ U ++ x :: R) a i Ei). cbn [mbind run_bind].
  assert ((match a with None => Done None | Some _ => index (A ++ a :: b :: L ++ U ++ x :: R) (i + 1) end) =
    Done (match a with None => None | Some _ => b end)) as ->.
  { destruct a as [h|]; [|done]. change (A ++ Some h :: b :: L ++ U ++ x :: R) with (A ++ [Some h] ++ b :: (L ++ U ++ x :: R)).
    rewrite app_assoc. rewrite index_middle; [done|]. rewrite zlen_app. change (zlen [Some h]) with 1. lia. }
  cbn [mbind run_bind]. replace (parentOf a (match a with None => None | Some _ => b end)) with (parentOf a b) by (by destruct a).
  replace (A ++ a :: b :: L ++ U ++ x :: R) with ((A ++ a :: b :: L ++ U) ++ x :: R) by (rewrite <-app_assoc; cbn; by rewrite <-app_assoc).
  rewrite store_at by (rewrite Eo; f_equal; by rewrite <-!app_assoc). cbn [mbind run_bind].
  specialize (IH (A ++ [a; b]) (U ++ [parentOf a b]) R (i + 2) (offset + 1)).
  rewrite <-!app_assoc in IH. cbn [app] in IH. rewrite <-!app_assoc. cbn [app]. rewrite <-!app_assoc. cbn [app].
  rewrite IH; [|done|lia| | |].
  - rewrite !zlen_cons. cbn [drop]. f_equal; lia.
  - rewrite Esz, !zlen_app, !zlen_cons, !zlen_app, !zlen_cons. lia.
  - rewrite Ei, zlen_app. done.
  - rewrite Eo, !zlen_app, !zlen_cons, !zlen_app, !zlen_cons. change (@zlen (option hash_t) []) with 0. lia.
Qed.

Fixpoint topO (k : nat) (l : list (option hash_t)) : list (option hash_t) :=
  match k with O => l | S k => topO k (upO l) end.

Lemma even_pow2 {A} (l : list A) k : length l = (2 ^ S k)%nat → Nat.even (length l) = true.
Proof. intros ->. rewrite Nat.pow_succ_r'. by rewrite Nat.even_mul. Qed.

(** All rows, down to the single root *)
Lemma fill_rows k L A R fuel sz : length L = (2 ^ k)%nat → length R = (2 ^ k - 1)%nat → (length R ≤ fuel)%nat →
  sz = zlen (A ++ L ++ R) →
  ∃ B, fillTree fuel sz (zlen A) (zlen (A ++ L)) (A ++ L ++ R) = Done (B ++ topO k L) ∧ A ++ L `prefix_of` B ++ topO k L.
Proof.
  revert L A R fuel. induction k as [|k IH]; intros L A R fuel HL HR Hf Esz.
  { destruct R; [|done]. exists A. cbn [topO]. rewrite app_nil_r in *. split; [|reflexivity].
    destruct fuel; cbn [fillTree]; (destruct (Z.ltb_spec (zlen A) (sz - 1)); [|done]);
      rewrite zlen_app in Esz; unfold zlen in *; cbn in HL; lia. }
  pose proof (even_pow2 L k HL) as Hev. pose proof (length_upO L Hev) as Hup.
  assert (1 ≤ 2 ^ k)%nat as Hp by (apply Nat.le_succ_l, Nat.neq_0_lt_0, Nat.pow_nonzero; lia).
  rewrite Nat.pow_succ_r' in *. assert (length (upO L) = 2 ^ k)%nat as Hq by lia.
  destruct (IH (upO L) (A ++ L) (drop (length (upO L)) R) (fuel - length (upO L))%nat) as (B & E & Hpre);
    [done|rewrite length_drop; lia|rewrite length_drop; lia| |].
  { rewrite Esz. unfold zlen. rewrite !length_app, length_drop. lia. }
  exists B. cbn [topO]. split; [|etransitivity; [by apply prefix_app_r|exact Hpre]]. rewrite <-E.
  pose proof (fill_row L A [] R (fuel - length (upO L)) sz (zlen A) (zlen (A ++ L ++ []))) as Hrow.
  cbn [app] in Hrow. rewrite app_nil_r in Hrow.
  replace fuel with (length (upO L) + (fuel - length (upO L)))%nat at 1 by lia.
  rewrite Hrow by (done || lia). rewrite <-!zlen_app, <-!app_assoc. done.
Qed.

Lemma div2_SS j : (S (S j) / 2 = S (j / 2))%nat.
Proof. replace (S (S j)) with (j + 1 * 2)%nat by lia. rewrite Nat.div_add by lia. lia. Qed.

Lemma upO_none j : Nat.even j = true → upO (replicate j None) = replicate (j / 2) None.
Proof.
  intros [m ->]%Nat.even_spec. rewrite Nat.mul_comm, Nat.div_mul by lia.
  induction m as [|m IH]; [done|]. cbn. by rewrite IH.
Qed.

(** A padded row goes to the padded next level. *)
Lemma upO_padded row j : Nat.even (length row + j) = true →
  upO (map Some row ++ replicate j None) =
  map Some (level row) ++ replicate ((length row + j) / 2 - length (level row)) None.
Proof.
  induction row as [|a|a b row IH] using pair_ind; intros Hev.
  - cbn [length map app level Nat.add] in *. rewrite upO_none by done. by rewrite Nat.sub_0_r.
  - cbn [length map app level upO] in *. destruct j as [|j]; [done|]. cbn [replicate Nat.add] in *.
    cbn [upO parentOf]. rewrite upO_none, div2_SS by done. do 3 f_equal. cbn. lia.
  - cbn [length map app level upO Nat.add] in *. rewrite IH by done. cbn [parentOf]. rewrite div2_SS.
    do 3 f_equal.
Qed.

Lemma topO_root k row j : (length row + j = 2 ^ k)%nat → (2 ^ k < 2 * length row)%nat →
  topO k (map Some row ++ replicate j None) = [Some (merkleRoot row)].
Proof.
  revert row j. induction k as [|k IH]; intros row j Hlen Hbig.
  { destruct row as [|a [|b row]]; [cbn in Hbig; lia| |cbn in Hlen; lia].
    assert (j = 0)%nat as -> by (cbn in Hlen; lia). done. }
  cbn [topO]. assert (1 ≤ 2 ^ k)%nat as Hp by (apply Nat.le_succ_l, Nat.neq_0_lt_0, Nat.pow_nonzero; lia).
  rewrite Nat.pow_succ_r' in Hlen, Hbig. rewrite upO_padded by (rewrite Hlen, Nat.even_mul; done).
  rewrite Hlen, Nat.mul_comm, Nat.div_mul by lia.
  assert (length (level row) ≤ 2 ^ k ∧ length row ≤ 2 * length (level row))%nat as [Hle Hge].
  { rewrite length_level. pose proof (Nat.div2_odd (S (length row))) as E. destruct (Nat.odd _); cbn [Nat.b2n] in E; lia. }
  rewrite IH by lia. do 2 f_equal. symmetry. apply merkleRoot_level. lia.
Qed.

Lemma storeLeaves_spec w txs i pre hs k : leaves w i txs = Done hs → length pre = i → (length hs ≤ k)%nat →
  storeLeaves w i txs (map Some pre ++ replicate k None) =
  Done (map Some (pre ++ hs) ++ replicate (k - length hs) None).
Proof.
  revert i pre hs k. induction txs as [|tx txs IH]; intros i pre hs k E Hi Hk.
  { injection E as <-. cbn. by rewrite app_nil_r, Nat.sub_0_r. }
  apply leaves_cons in E as (h & hs' & E1 & E2 & ->). cbn [length] in Hk. destruct k as [|k]; [lia|].
  cbn [storeLeaves replicate]. rewrite E1. cbn [mbind run_bind].
  rewrite store_at by (unfold zlen; rewrite length_map; lia). cbn [mbind run_bind].
  specialize (IH (S i) (pre ++ [h]) hs' k E2). rewrite map_app, <-app_assoc in IH. cbn [map app] in IH.
  rewrite IH; [|rewrite length_app; cbn; lia|lia]. by rewrite <-app_assoc.
Qed.

Lemma nextPowerOfTwo_spec n : 0 < n → ∃ k, nextPowerOfTwo n = 2 ^ Z.of_nat k ∧ n ≤ 2 ^ Z.of_nat k < 2 * n.
Proof.
  intros Hn. unfold nextPowerOfTwo. pose proof (Z.log2_spec n Hn) as [H1 H2]. pose proof (Z.log2_nonneg n).
  set (e := Z.log2 n) in *. rewrite Z.pow_succ_r in H2 by lia.
  destruct (Z.eqb_spec (Z.land n (n - 1)) 0) as [E|E].
  - assert (n = 2 ^ e) as E'.
    { destruct (Z.eq_dec n (2 ^ e)) as [|Hne]; [done|]. exfalso.
      assert (Z.testbit (Z.land n (n - 1)) e = true) as Hb; [|by rewrite E, Z.bits_0 in Hb].
      rewrite Z.land_spec, !testbit_top by (rewrite ?Z.pow_add_r by lia; lia).
      apply andb_true_intro. split; apply Z.leb_le; lia. }
    exists (Z.to_nat e). rewrite Z2Nat.id by lia. lia.
  - rewrite Z.shiftl_1_l. exists (Z.to_nat (e + 1)). rewrite Z2Nat.id by lia.
    rewrite Z.pow_add_r by lia. split; [done|]. split; [lia|].
    destruct (Z.eq_dec n (2 ^ e)) as [E'|]; [|lia]. exfalso. apply E.
    assert (n - 1 = Z.ones e) as -> by (rewrite Z.ones_equiv; lia). rewrite Z.land_ones, E' by lia.
    apply Z.mod_same. lia.
Qed.

Lemma buildTree_spec txs w hs : leaves w 0 txs = Done hs → hs ≠ [] →
  ∃ t, BuildMerkleTreeStore txs w = Done (t ++ [Some (merkleRoot hs)]) ∧
    take (length hs) (t ++ [Some (merkleRoot hs)]) = map Some hs.
Proof.
  intros Hlv Hne. pose proof (leaves_length _ _ _ _ Hlv) as Hlen.
  assert (0 < zlen txs) as Hpos by (unfold zlen; destruct hs; [done|]; cbn in Hlen; lia).
  destruct (nextPowerOfTwo_spec (zlen txs) Hpos) as (k & Ek & Hk). unfold BuildMerkleTreeStore. rewrite Ek.
  assert (2 ^ Z.of_nat k = Z.of_nat (2 ^ k)) as Ep by (by rewrite Nat2Z.inj_pow).
  set (P := (2 ^ k)%nat) in *. rewrite Ep in *. unfold zlen in Hk.
  unfold make. rewrite decide_True by lia. cbn [mbind run_bind].
  replace (Z.to_nat (Z.of_nat P * 2 - 1)) with (length hs + ((P - length hs) + (P - 1)))%nat by lia.
  pose proof (storeLeaves_spec w txs 0 [] hs (length hs + ((P - length hs) + (P - 1))) Hlv eq_refl ltac:(lia)) as Es.
  cbn [map app] in Es. rewrite Es. cbn [mbind run_bind].
  replace (length hs + (P - length hs + (P - 1)) - length hs)%nat with ((P - length hs) + (P - 1))%nat by lia.
  rewrite replicate_add, app_assoc. set (L := map Some hs ++ replicate (P - length hs) None).
  assert (length L = P) as HL by (unfold L; rewrite length_app, length_map, length_replicate; lia).
  destruct (fill_rows k L [] (replicate (P - 1) None) (length hs + (P - length hs + (P - 1))) (Z.of_nat P * 2 - 1))
    as (B & E & [t Ht]); [done|by rewrite length_replicate|rewrite length_replicate; lia| |].
  { cbn [app]. unfold zlen. rewrite length_app, length_replicate. lia. }
  cbn [app] in E, Ht. change (zlen []) with 0 in E.
  replace (zlen L) with (Z.of_nat P) in E by (unfold zlen; lia). rewrite E.
  assert (topO k L = [Some (merkleRoot hs)]) as Et by (apply topO_root; lia). rewrite Et in *.
  exists B. split; [done|]. rewrite Ht. unfold L. rewrite <-!app_assoc. apply take_app_length'.
  by rewrite length_map.
Qed.

(** The two Merkle computations agree with the tree built
    level by level: for any non-empty list of transactions whose leaves can be
    hashed, the stack-based [CalcMerkleRoot] returns without panic the root of the
    reference tree, and it is also the last entry of the array of
    [BuildMerkleTreeStore], which starts with the leaves in order. *)
Theorem merkle_equiv (txs : list Wire.Tx) (witness : bool) (hs : list hash_t) :
  leaves witness 0 txs = Done hs → hs ≠ [] → zlen hs < 2 ^ 61 →
  CalcMerkleRoot txs witness = Done (merkleRoot hs) ∧
  ∃ t, BuildMerkleTreeStore txs witness = Done (t ++ [Some (merkleRoot hs)]) ∧
    take (length hs) (t ++ [Some (merkleRoot hs)]) = map Some hs.
Proof. intros. split; [by apply calcMerkleRoot_spec|by eapply buildTree_spec]. Qed.

Definition toyTx (i : Z) : Wire.Tx :=
  {| Wire.TxVersion := 1; Wire.TxIns := []; Wire.TxOuts := []; Wire.LockTime := i |}.

Lemma merkle_equiv_witness :
  ∃ hs t, CalcMerkleRoot (map toyTx [1; 2; 3]) false = Done (merkleRoot hs) ∧
    BuildMerkleTreeStore (map toyTx [1; 2; 3]) false = Done (t ++ [Some (merkleRoot hs)]) ∧ length hs = 3%nat.
Proof.
  destruct (leaves false 0 (map toyTx [1; 2; 3])) as [hs| |] eqn:E; [|vm_compute in E; discriminate E..].
  assert (length hs = 3%nat) as El by (rewrite (leaves_length _ _ _ _ E); reflexivity).
  destruct (merkle_equiv (map toyTx [1; 2; 3]) false hs E) as (H1 & t & H2 & _);
    [intros ->; discriminate El|unfold zlen; rewrite El; reflexivity|].
  exists hs, t. split; [exact H1|]. split; [exact H2|exact El].
Defined.

End Merkle.
