(* ===== verification/Threshold.v ===== *)
(** * Threshold: BIP 9 deployments

    Model of [blockchain/thresholdstate.go], [blockchain/versionbits.go],
    [chaincfg/deployment_time_frame.go] and the deployments of
    [chaincfg/sugar_params.go]: the threshold state of a deployment, computed
    backwards from a block with a cache per deployment, and the block version
    derived from it.  The chain state is threaded through every call, since the
    computation repairs severed links and fills shared caches, and one checker
    (for unknown bits) calls the computation again for the known deployments. *)

From S2P Require Import Prelude WorkMath ChainHash Wire BlockNode ChainView ChainIO ColdRead Difficulty.
Import BlockNode ColdRead Difficulty.
#[local] Open Scope Z_scope.

Module Threshold.

(** ** States *)

Inductive ThresholdState :=
| ThresholdDefined
| ThresholdStarted
| ThresholdLockedIn
| ThresholdActive
| ThresholdFailed.

#[export] Instance ThresholdState_eq_dec : EqDecision ThresholdState.
Proof. solve_decision. Defined.

(** ** Deployments

    [None] is the zero [time.Time]; times are in seconds.  The clock of a
    deployment is absent until the chain is created. *)

Inductive clockError := ErrNoBlockClock | ErrNoPreviousNode.

Definition BlockClock : Type := Wire.BlockHeader → run (Z + clockError).

Record MedianTimeDeploymentStarter := { startTime : option Z }.
Record MedianTimeDeploymentEnder := { endTime : option Z }.

Definition MedianTimeHasStarted (m : MedianTimeDeploymentStarter) (blockClock : option BlockClock)
    (hd : Wire.BlockHeader) : run (bool + clockError) :=
  match blockClock, startTime m with
  | None, _ => Done (inr ErrNoBlockClock)
  | Some _, None => Done (inl true)
  | Some clock, Some start =>
      r ← clock hd;
      match r with
      | inr e => Done (inr e)
      | inl medianTime => Done (inl ((start <? medianTime) || (medianTime =? start)))
      end
  end.

Definition MedianTimeHasEnded (m : MedianTimeDeploymentEnder) (blockClock : option BlockClock)
    (hd : Wire.BlockHeader) : run (bool + clockError) :=
  match blockClock, endTime m with
  | None, _ => Done (inr ErrNoBlockClock)
  | Some _, None => Done (inl false)
  | Some clock, Some stop =>
      r ← clock hd;
      match r with
      | inr e => Done (inr e)
      | inl medianTime => Done (inl ((stop <? medianTime) || (medianTime =? stop)))
      end
  end.

Record ConsensusDeployment := {
  BitNumber : Z;
  MinActivationHeight : Z;
  CustomActivationThreshold : Z;
  AlwaysActiveHeight : Z;
  DeploymentStarter : MedianTimeDeploymentStarter;
  DeploymentEnder : MedianTimeDeploymentEnder;
}.

Definition EffectiveAlwaysActiveHeight (d : ConsensusDeployment) : Z :=
  if AlwaysActiveHeight d =? 0 then 2 ^ 32 - 1 else AlwaysActiveHeight d.

(** The fields of [chaincfg.Params] used here *)
Record Params := {
  RuleChangeActivationThreshold_ : Z;
  MinerConfirmationWindow_ : Z;
  Deployments : list ConsensusDeployment;
}.

Definition deployment (bit custom minHeight : Z) (start stop : option Z) : ConsensusDeployment :=
  {| BitNumber := bit; MinActivationHeight := minHeight; CustomActivationThreshold := custom;
     AlwaysActiveHeight := 0; DeploymentStarter := {| startTime := start |};
     DeploymentEnder := {| endTime := stop |} |}.

(** In the order of the deployment identifiers of [chaincfg/params.go] *)
Definition SugarMainNetParams : Params :=
  {| RuleChangeActivationThreshold_ := 9180;
     MinerConfirmationWindow_ := 12240;
     Deployments := [
       deployment 28 0 0 (Some 1565881200) (Some 1597417200);  (* DeploymentTestDummy *)
       deployment 22 9180 0 None None;               (* DeploymentTestDummyMinActivation *)
       deployment 0 0 0 (Some 1565881200) None;      (* DeploymentCSV *)
       deployment 1 0 0 (Some 1565881200) None;      (* DeploymentSegwit *)
       deployment 2 0 0 (Some 1565881200) None;      (* DeploymentTaproot *)
       deployment 30 0 0 None None                   (* DeploymentTestDummyAlwaysActive *)
     ] |}.

(** ** The chain state and its caches *)

Abbreviation thresholdStateCache := (gmap hash_t ThresholdState).

Record chain := {
  bc : BlockChain;
  deploymentCaches : list thresholdStateCache;
  warningCaches : list thresholdStateCache;
  unknownRulesWarned : bool;
}.

Definition set_bc (b : BlockChain) (c : chain) : chain :=
  {| bc := b; deploymentCaches := deploymentCaches c; warningCaches := warningCaches c;
     unknownRulesWarned := unknownRulesWarned c |}.

(** A pointer to one of the caches *)
Inductive cacheRef := DeploymentCache (id : Z) | WarningCache (bit : Z).

Definition caches (r : cacheRef) (c : chain) : list thresholdStateCache :=
  match r with DeploymentCache _ => deploymentCaches c | WarningCache _ => warningCaches c end.

Definition slot (r : cacheRef) : Z := match r with DeploymentCache i | WarningCache i => i end.

Definition set_caches (r : cacheRef) (l : list thresholdStateCache) (c : chain) : chain :=
  match r with
  | DeploymentCache _ => {| bc := bc c; deploymentCaches := l; warningCaches := warningCaches c;
                            unknownRulesWarned := unknownRulesWarned c |}
  | WarningCache _ => {| bc := bc c; deploymentCaches := deploymentCaches c; warningCaches := l;
                         unknownRulesWarned := unknownRulesWarned c |}
  end.

Inductive thresholdError := AssertError | DeploymentError (id : Z).

Abbreviation M := (io chain thresholdError).

Definition get_ : M chain := fun c => Done (inl c, c).
Definition put_ (c : chain) : M unit := fun _ => Done (inl tt, c).

Definition Lookup (r : cacheRef) (hs : hash_t) : M (option ThresholdState) := fun c =>
  m ← index (caches r c) (slot r); Done (inl (m !! hs), c).

Definition Update (r : cacheRef) (hs : hash_t) (s : ThresholdState) : M unit := fun c =>
  m ← index (caches r c) (slot r);
  l ← store (caches r c) (slot r) (<[hs := s]> m);
  Done (inl tt, set_caches r l c).

Definition newThresholdCaches (numCaches : Z) : run (list thresholdStateCache) := make ∅ numCaches.

(** ** The clock of the chain

    The node made for the passed header is only used here; nothing keeps a
    pointer to it. *)
Definition PastMedianTime (b : BlockChain) : BlockClock := fun hd =>
  match LookupNode b (Wire.PrevBlock hd) with
  | None => Done (inr ErrNoPreviousNode)
  | Some prevNode =>
      r ← newBlockNode (heap_ b) (fresh (dom (heap_ b))) 0 hd (Some prevNode);
      t ← CalcPastMedianTime (C := blockNode_ctx r.2) r.1;
      Done (inl t)
  end.

(** ** Checkers *)

(** The interface; a method reads the chain through the state it is given, and
    [Condition] may change it. *)
Record thresholdConditionChecker := {
  HasStarted : chain → loc → run bool;
  HasEnded : chain → loc → run bool;
  RuleChangeActivationThreshold : Z;
  MinerConfirmationWindow : Z;
  EligibleToActivate : chain → loc → run bool;
  IsSpeedy : bool;
  Condition : loc → M bool;
  ForceActive : chain → option loc → run bool;
}.

(** ** The state machine *)

(** [for i = 0; i < confirmationWindow && countNode != nil; i++] *)
Fixpoint countVotes (checker : thresholdConditionChecker) (i : nat) (countNode : option loc) (count : Z) : M Z :=
  match i, countNode with
  | O, _ | _, None => mret count
  | S i, Some l =>
      condition ← Condition checker l;
      c ← get_;
      nd ← io_run (deref (heap_ (bc c)) l);
      countVotes checker i (parent nd) (if condition : bool then u32 (count + 1) else count)
  end.

Definition thresholdStateTransition (state : ThresholdState) (prevNode : loc)
    (checker : thresholdConditionChecker) (confirmationWindow : Z) : M ThresholdState :=
  c ← get_;
  match state with
  | ThresholdDefined =>
      ended ← (if IsSpeedy checker then mret false else io_run (HasEnded checker c prevNode));
      if ended : bool then mret ThresholdFailed else
      started ← io_run (HasStarted checker c prevNode);
      mret (if started : bool then ThresholdStarted else ThresholdDefined)
  | ThresholdStarted =>
      ended ← (if IsSpeedy checker then mret false else io_run (HasEnded checker c prevNode));
      if ended : bool then mret ThresholdFailed else
      count ← countVotes checker (Z.to_nat confirmationWindow) (Some prevNode) 0;
      if RuleChangeActivationThreshold checker <=? count then mret ThresholdLockedIn else
      c ← get_;
      ended ← (if IsSpeedy checker then io_run (HasEnded checker c prevNode) else mret false);
      mret (if ended : bool then ThresholdFailed else ThresholdStarted)
  | ThresholdLockedIn =>
      eligible ← io_run (EligibleToActivate checker c prevNode);
      mret (if eligible : bool then ThresholdActive else ThresholdLockedIn)
  | ThresholdActive => mret ThresholdActive
  | ThresholdFailed => mret ThresholdFailed
  end.

(** The backward loop of [thresholdState]: the blocks whose state is needed, most
    recent first, and the block it stopped at.  Every iteration goes to a lower
    block. *)
Fixpoint neededLoop (fuel : nat) (checker : thresholdConditionChecker) (cache : cacheRef)
    (confirmationWindow : Z) (prevNode : option loc) (neededStates : list loc) :
    M (list loc * option loc) :=
  match prevNode with
  | None => mret (neededStates, None)
  | Some l =>
      c ← get_;
      nd ← io_run (deref (heap_ (bc c)) l);
      known ← Lookup cache (hash nd);
      match known with
      | Some _ => mret (neededStates, Some l)
      | None =>
          started ← io_run (HasStarted checker c l);
          if negb started then
            _ ← Update cache (hash nd) ThresholdDefined;
            mret (neededStates, Some l)
          else
            match fuel with
            | O => io_run NoFuel
            | S fuel =>
                p ← io_run (RelativeAncestor (heap_ (bc c)) l confirmationWindow);
                neededLoop fuel checker cache confirmationWindow p (neededStates ++ [l])
            end
      end
  end.

(** The state to start from, when the backward loop stopped at a block *)
Definition cachedState (cache : cacheRef) (prevNode : option loc) : M ThresholdState :=
  match prevNode with
  | None => mret ThresholdDefined
  | Some e =>
      c ← get_;
      en ← io_run (deref (heap_ (bc c)) e);
      known ← Lookup cache (hash en);
      match known with Some s => mret s | None => io_fail AssertError end
  end.

(** The forward loop over [neededStates], from the oldest *)
Fixpoint advance (checker : thresholdConditionChecker) (cache : cacheRef) (confirmationWindow : Z)
    (oldestFirst : list loc) (state : ThresholdState) : M ThresholdState :=
  match oldestFirst with
  | [] => mret state
  | prevNode :: rest =>
      state ← thresholdStateTransition state prevNode checker confirmationWindow;
      c ← get_;
      nd ← io_run (deref (heap_ (bc c)) prevNode);
      _ ← Update cache (hash nd) state;
      advance checker cache confirmationWindow rest state
  end.

Definition gorem (a b : Z) : run Z := if b =? 0 then Panic else Done (Z.rem a b).

Definition repair (prevNode : option loc) (depth : Z) : M unit := fun c =>
  b ← repairAncestorChain (bc c) prevNode depth; Done (inl tt, set_bc b c).

Definition thresholdState (prevNode : option loc) (checker : thresholdConditionChecker)
    (cache : cacheRef) : M ThresholdState :=
  _ ← repair prevNode (i32 (4 * i32 (MinerConfirmationWindow checker)));
  c ← get_;
  force ← io_run (ForceActive checker c prevNode);
  if force : bool then mret ThresholdActive else
  let confirmationWindow := i32 (MinerConfirmationWindow checker) in
  match prevNode with
  | None => mret ThresholdDefined
  | Some l =>
      nd ← io_run (deref (heap_ (bc c)) l);
      if i32 (height nd + 1) <? confirmationWindow then mret ThresholdDefined else
      off ← io_run (gorem (i32 (height nd + 1)) confirmationWindow);
      prevNode ← io_run (Ancestor (heap_ (bc c)) l (i32 (height nd - off)));
      r ← neededLoop (S (Z.to_nat (height nd))) checker cache confirmationWindow prevNode [];
      state ← cachedState cache r.2;
      advance checker cache confirmationWindow (reverse r.1) state
  end.

(** ** Known deployments *)

Definition vbTopBits : Z := 0x20000000.
Definition vbTopMask : Z := 0xe0000000.
Definition vbNumBits : Z := 29.

(** The error of the clock is dropped; the flag it comes with is [false]. *)
Definition dropError (r : bool + clockError) : bool := match r with inl x => x | inr _ => false end.

Definition deploymentCondition (d : ConsensusDeployment) (version : Z) : bool :=
  let conditionMask := u32 (Z.shiftl 1 (BitNumber d)) in
  let version := u32 version in
  (Z.land version vbTopMask =? vbTopBits) && negb (Z.land version conditionMask =? 0).

Definition deploymentChecker (p : Params) (d : ConsensusDeployment) : thresholdConditionChecker := {|
  HasStarted c l :=
    nd ← deref (heap_ (bc c)) l;
    r ← MedianTimeHasStarted (DeploymentStarter d) (Some (PastMedianTime (bc c))) (Header nd);
    Done (dropError r);
  HasEnded c l :=
    nd ← deref (heap_ (bc c)) l;
    r ← MedianTimeHasEnded (DeploymentEnder d) (Some (PastMedianTime (bc c))) (Header nd);
    Done (dropError r);
  RuleChangeActivationThreshold :=
    if negb (CustomActivationThreshold d =? 0) then CustomActivationThreshold d
    else RuleChangeActivationThreshold_ p;
  MinerConfirmationWindow := MinerConfirmationWindow_ p;
  EligibleToActivate c l :=
    if MinActivationHeight d =? 0 then Done true else
    nd ← deref (heap_ (bc c)) l; Done (MinActivationHeight d <=? u32 (u32 (height nd) + 1));
  IsSpeedy := negb (MinActivationHeight d =? 0) || negb (CustomActivationThreshold d =? 0);
  Condition l :=
    c ← get_;
    nd ← io_run (deref (heap_ (bc c)) l);
    mret (deploymentCondition d (version nd));
  ForceActive c node :=
    match node with
    | None => Done false
    | Some l => nd ← deref (heap_ (bc c)) l;
        Done (EffectiveAlwaysActiveHeight d <=? u32 (u32 (height nd) + 1))
    end;
|}.

Fixpoint versionLoop (p : Params) (prevNode : option loc) (id : Z) (ds : list ConsensusDeployment)
    (expectedVersion : Z) : M Z :=
  match ds with
  | [] => mret expectedVersion
  | d :: ds =>
      state ← thresholdState prevNode (deploymentChecker p d) (DeploymentCache id);
      versionLoop p prevNode (id + 1) ds
        (if bool_decide (state = ThresholdStarted) || bool_decide (state = ThresholdLockedIn)
         then Z.lor expectedVersion (u32 (Z.shiftl 1 (BitNumber d))) else expectedVersion)
  end.

Definition calcNextBlockVersion (p : Params) (prevNode : option loc) : M Z :=
  expectedVersion ← versionLoop p prevNode 0 (Deployments p) vbTopBits;
  mret (i32 expectedVersion).

(** The tip is read under the lock. *)
Definition tip (c : chain) : option loc := ChainView.tip (bestChain (bc c)).

Definition CalcNextBlockVersion (p : Params) : M Z :=
  c ← get_; calcNextBlockVersion p (tip c).

Definition deploymentState (p : Params) (prevNode : option loc) (deploymentID : Z) : M ThresholdState :=
  if zlen (Deployments p) <? deploymentID then io_fail (DeploymentError deploymentID) else
  d ← io_run (index (Deployments p) deploymentID);
  c ← get_;
  _ ← io_run (index (deploymentCaches c) deploymentID);
  thresholdState prevNode (deploymentChecker p d) (DeploymentCache deploymentID).

Definition ThresholdStateOf (p : Params) (deploymentID : Z) : M ThresholdState :=
  c ← get_; deploymentState p (tip c) deploymentID.

Definition IsDeploymentActive (p : Params) (deploymentID : Z) : M bool :=
  c ← get_;
  state ← deploymentState p (tip c) deploymentID;
  mret (bool_decide (state = ThresholdActive)).

(** ** Unknown bits *)

Definition bitConditionChecker (p : Params) (bit : Z) : thresholdConditionChecker := {|
  HasStarted _ _ := Done true;
  HasEnded _ _ := Done false;
  RuleChangeActivationThreshold := RuleChangeActivationThreshold_ p;
  MinerConfirmationWindow := MinerConfirmationWindow_ p;
  EligibleToActivate _ _ := Done true;
  IsSpeedy := false;
  Condition l :=
    let conditionMask := u32 (Z.shiftl 1 bit) in
    c ← get_;
    nd ← io_run (deref (heap_ (bc c)) l);
    let version := u32 (version nd) in
    if negb (Z.land version vbTopMask =? vbTopBits) then mret false else
    if Z.land version conditionMask =? 0 then mret false else
    expectedVersion ← calcNextBlockVersion p (parent nd);
    mret (Z.land (u32 expectedVersion) conditionMask =? 0);
  ForceActive _ _ := Done false;
|}.

(** The loop of [warnUnknownRuleActivations]; the log output is not part of the
    state, but the number of blocks to activation it prints is computed. *)
Fixpoint warnLoop (p : Params) (node : loc) (bits : list Z) : M unit :=
  match bits with
  | [] => mret tt
  | bit :: bits =>
      c ← get_;
      nd ← io_run (deref (heap_ (bc c)) node);
      state ← thresholdState (parent nd) (bitConditionChecker p bit) (WarningCache bit);
      _ ← (match state with
           | ThresholdActive => fun c => Done (inl tt,
               {| bc := bc c; deploymentCaches := deploymentCaches c; warningCaches := warningCaches c;
                  unknownRulesWarned := true |})
           | ThresholdLockedIn => io_run (gorem (height nd) (i32 (MinerConfirmationWindow_ p)) ≫= fun _ => Done tt)
           | _ => mret tt
           end : M unit);
      warnLoop p node bits
  end.

Definition warnUnknownRuleActivations (p : Params) (node : loc) : M unit :=
  warnLoop p node (seqZ 0 vbNumBits).

(** [isCurrent] of [blockchain/chain.go]; [checkpoint] is the height of the latest
    checkpoint, [adjustedTime] the time of the time source. *)
Definition isCurrent (checkpoint : option Z) (adjustedTime : Z) (c : chain) : run bool :=
  l ← of_option (tip c);
  nd ← deref (heap_ (bc c)) l;
  if (match checkpoint with Some h => height nd <? h | None => false end) then Done false else
  Done (adjustedTime - 24 * 3600 <=? timestamp nd).

Fixpoint initWarnings (p : Params) (prevNode : option loc) (bits : list Z) : M unit :=
  match bits with
  | [] => mret tt
  | bit :: bits =>
      _ ← thresholdState prevNode (bitConditionChecker p bit) (WarningCache bit);
      initWarnings p prevNode bits
  end.

Fixpoint initDeployments (p : Params) (prevNode : option loc) (id : Z) (ds : list ConsensusDeployment) : M unit :=
  match ds with
  | [] => mret tt
  | d :: ds =>
      _ ← thresholdState prevNode (deploymentChecker p d) (DeploymentCache id);
      initDeployments p prevNode (id + 1) ds
  end.

Definition initThresholdCaches (p : Params) (checkpoint : option Z) (adjustedTime : Z) : M unit :=
  c ← get_;
  t ← io_run (of_option (tip c));
  nd ← io_run (deref (heap_ (bc c)) t);
  _ ← initWarnings p (parent nd) (seqZ 0 vbNumBits);
  _ ← initDeployments p (parent nd) 0 (Deployments p);
  c ← get_;
  current ← io_run (isCurrent checkpoint adjustedTime c);
  if current : bool then warnUnknownRuleActivations p t else mret tt.

(** ** Walking a repaired chain *)

(** Every skip link leads to a node that following parents reaches too. *)
Definition skip_ok (h : heap) : Prop :=
  ∀ l nd a, h !! l = Some nd → ancestor nd = Some a → 0 < height nd ∧
    walk h (Z.to_nat (height nd - getAncestorHeight (height nd))) l = Some a.

Lemma walk_from h n m l a : walk h n l = Some a → walk h (n + m) l = walk h m a.
Proof.
  revert l. induction n as [|n IH]; intros l; cbn [walk Nat.add]; [by intros [= ->]|].
  destruct (h !! l) as [nd|]; [|done]. cbn. destruct (parent nd); [|done]. apply IH.
Qed.

Lemma walk_grows h h' n l a : heap_grows h h' → walk h n l = Some a → walk h' n l = Some a.
Proof.
  intros Hg. revert l. induction n as [|n IH]; intros l; cbn [walk]; [done|].
  destruct (h !! l) as [nd|] eqn:E; [|done]. cbn. destruct (Hg l nd E) as (nd' & -> & _ & Hp). cbn.
  destruct (parent nd) as [p|]; [|done]. destruct Hp as [->|]; [|done]. apply IH.
Qed.

(** The nodes with a skip link are those that had it before. *)
Definition skips_kept (h h' : heap) : Prop :=
  ∀ l nd' a, h' !! l = Some nd' → ancestor nd' = Some a → ∃ nd, h !! l = Some nd ∧ ancestor nd = Some a.

#[export] Instance skips_kept_preorder : PreOrder skips_kept.
Proof.
  split; [intros h l nd a H ?; by exists nd|]. intros h1 h2 h3 H12 H23 l nd a Hl Ha.
  destruct (H23 l nd a Hl Ha) as (nd2 & Hl2 & Ha2). by apply (H12 l nd2 a).
Qed.

Lemma skip_ok_kept h h' : heap_grows h h' → skips_kept h h' → skip_ok h → skip_ok h'.
Proof.
  intros Hg Hk Hs l nd' a Hl Ha. destruct (Hk l nd' a Hl Ha) as (nd & Hnd & Hanc).
  destruct (Hg l nd Hnd) as (nd2 & Hl2 & E & _). rewrite Hl in Hl2. injection Hl2 as <-.
  apply set_parent_data in E as (_ & -> & _). destruct (Hs l nd a Hnd Hanc). split; [done|]. by eapply walk_grows.
Qed.

Lemma materialize_skips b hs r b' : materializeColdNode b hs = Done (r, b') → skips_kept (heap_ b) (heap_ b').
Proof.
  unfold materializeColdNode, materializeColdNodeWithTx. intros E.
  repeat match type of E with
  | (match ?x with _ => _ end) = _ => let e := fresh in destruct x eqn:e
  | (if ?x then _ else _) = _ => destruct x
  | (_ ≫= _) = _ => apply run_bind_Done in E as (? & ? & E)
  end; try discriminate E; injection E as <- <-; try reflexivity.
  intros l nd a Hl Ha. cbn in Hl. apply lookup_insert_Some in Hl as [[<- <-]|[_ Hl]]; [done|by exists nd].
Qed.

Lemma repair_skips n b cur b' : repair_loop n b cur = Done b' → skips_kept (heap_ b) (heap_ b').
Proof.
  revert b cur. induction n as [|n IH]; intros b cur E; cbn [repair_loop] in E; [by injection E as <-|].
  apply run_bind_Done in E as (nd & Hnd & E). destruct (parent nd); [by eapply IH|].
  destruct (decide (parentHash nd = zeroHash)); [by injection E as <-|].
  apply run_bind_Done in E as ([r b1] & Em & E). cbn [fst snd] in E. apply materialize_skips in Em.
  destruct r as [p|]; [|by injection E as <-]. apply IH in E. etransitivity; [done|].
  etransitivity; [|done]. intros l x a Hl Ha. cbn in Hl. apply lookup_alter_Some in Hl as [(-> & y & Hy & ->)|[_ Hl]].
  - by exists y.
  - by exists x.
Qed.

(** Being linked survives growth and larger heaps. *)
Lemma complete_grows T h h' n l : heap_grows h h' → map_Forall (fun _ nd => node_ok T h' nd) h' →
  complete T h n l → complete T h' n l.
Proof.
  intros Hg Hok. revert l. induction n as [|n IH]; intros l (nd & Hl & HT & Hp);
    destruct (Hg l nd Hl) as (nd' & Hl' & E & Hpar); apply set_parent_data in E as (E1 & E2 & E3 & E4);
    exists nd'; rewrite E1, E2, E4; (split; [done|]; split; [done|]); [done|].
  rewrite E3. destruct (parent nd) as [p|].
  - destruct Hpar as [->|]; [|done]. destruct Hp as [Hof Hc]. split; [by eapply node_of_grows|by apply IH].
  - destruct (parent nd') as [p|] eqn:Ep; [|done]. exfalso. destruct (Hok l nd' Hl') as [_ H2].
    destruct (H2 p Ep) as (pn & Hpn & Eh). destruct (Hok p pn Hpn) as [H3 _]. rewrite Eh, E3, Hp in H3. done.
Qed.

Lemma complete_mono T h h' n l : h ⊆ h' → complete T h n l → complete T h' n l.
Proof.
  intros Hsub. revert l. induction n as [|n IH]; intros l (nd & Hl & HT & Hp); exists nd;
    (split; [by eapply lookup_weaken|]; split; [done|]); [done|].
  destruct (parent nd) as [p|]; [|done]. destruct Hp as [(pn & Hpn & E) Hc].
  split; [exists pn; split; [by eapply lookup_weaken|done]|by apply IH].
Qed.

Lemma complete_le T h n m l : (m ≤ n)%nat → complete T h n l → complete T h m l.
Proof.
  revert n l. induction m as [|m IH]; intros n l Hle Hc; destruct n as [|n]; try lia; destruct Hc as (nd & Hl & HT & Hp);
    exists nd; (split; [done|]; split; [done|]); try done.
  destruct (parent nd) as [p|]; [|done]. destruct Hp as [Hof Hc]. split; [done|]. by apply (IH n); [lia|].
Qed.

(** [k] levels up a linked chain *)
Lemma complete_up T h n l nd k : tree_ok T → complete T h n l → h !! l = Some nd → (k ≤ n)%nat →
  Z.of_nat k ≤ height nd →
  ∃ a an, walk h k l = Some a ∧ h !! a = Some an ∧ height an = height nd - Z.of_nat k ∧
    treeWalk T k (hash nd) = Some (hash an) ∧ complete T h (n - k) a.
Proof.
  intros HT. revert n l nd. induction k as [|k IH]; intros n l nd Hc Hl Hk Hh.
  { exists l, nd. rewrite Nat.sub_0_r. split_and!; [done..|lia|done|done]. }
  destruct n as [|n]; [lia|]. destruct Hc as (nd' & Hl' & HTn & Hp). rewrite Hl in Hl'. injection Hl' as <-.
  destruct HT as [_ Htree]. specialize (Htree _ _ HTn) as [Hr Hprev]. cbn [fst snd] in *.
  destruct (Z.eqb_spec (height nd) 0); [lia|]. destruct Hprev as [phd Hphd].
  change (Wire.PrevBlock (Header nd)) with (parentHash nd) in Hphd.
  destruct (parent nd) as [p|] eqn:Ep; [|congruence]. destruct Hp as [(pn & Hpn & Eh) Hc].
  assert (height pn = height nd - 1) as Ehp.
  { destruct n; destruct Hc as (pn' & Hpn' & HTp & _); rewrite Hpn in Hpn'; injection Hpn' as <-;
      rewrite Eh, Hphd in HTp; by injection HTp. }
  destruct (IH n p pn Hc Hpn ltac:(lia) ltac:(lia)) as (a & an & H1 & H2 & H3 & H4 & H5).
  exists a, an. cbn [walk treeWalk]. rewrite Hl, HTn. cbn. rewrite Ep. cbn.
  change (Wire.PrevBlock (Header nd)) with (parentHash nd). rewrite <-Eh. split_and!; [done..|lia|done|done].
Qed.

(** On the linked part of a chain, [Ancestor] follows parents. *)
Lemma Ancestor_loop_complete T h fuel n l nd target : tree_ok T → skip_ok h → complete T h n l →
  h !! l = Some nd → 0 ≤ target ≤ height nd → height nd - target ≤ Z.of_nat n →
  (Z.to_nat (height nd - target) ≤ fuel)%nat →
  Ancestor_loop fuel h (Some l) target = Done (walk h (Z.to_nat (height nd - target)) l).
Proof.
  intros HT Hskip. revert n l nd. induction fuel as [|fuel IH]; intros n l nd Hc Hl Ht Hn Hf;
    cbn [Ancestor_loop]; rewrite (deref_Some _ _ _ Hl); cbn [mbind run_bind];
    destruct (Z.eqb_spec (height nd) target) as [E|E];
    try (replace (Z.to_nat (height nd - target)) with 0%nat by lia; done); [lia|].
  assert (0 ≤ height nd < 2 ^ 31) as Hr.
  { destruct n; destruct Hc as (nd' & Hl' & HTn & _); rewrite Hl in Hl'; injection Hl' as <-;
      by destruct (proj2 HT _ _ HTn). }
  assert (∀ d a, 0 < d → d ≤ height nd - target → walk h (Z.to_nat d) l = Some a →
    Ancestor_loop fuel h (Some a) target = Done (walk h (Z.to_nat (height nd - target)) l)) as Hstep.
  { intros d a Hd0 Hd Ha.
    destruct (complete_up T h n l nd (Z.to_nat d) HT Hc Hl) as (a' & an & Ha' & Han & Hh & _ & Hca); [lia..|].
    rewrite Ha in Ha'. injection Ha' as <-. rewrite (IH (n - Z.to_nat d)%nat a an Hca Han) by lia.
    replace (Z.to_nat (height nd - target)) with (Z.to_nat d + Z.to_nat (height an - target))%nat by lia.
    by rewrite (walk_from _ _ _ _ _ Ha). }
  destruct (complete_up T h n l nd 1 HT Hc Hl) as (p & pn & Hp & _); [lia..|].
  assert (parent nd = Some p) as Ep.
  { cbn in Hp. rewrite Hl in Hp. cbn in Hp. by destruct (parent nd). }
  rewrite Ep. pose proof (Hstep 1 p ltac:(lia) ltac:(lia) Hp) as H1.
  destruct (ancestor nd) as [a|] eqn:Ea; [|done].
  destruct (Z.leb_spec target (getAncestorHeight (height nd))); [|done].
  destruct (getAncestorHeight_bounds (height nd) Hr) as [H2 H3].
  apply (Hstep (height nd - getAncestorHeight (height nd)) a); [lia..|]. by apply (Hskip l nd a).
Qed.

Lemma Ancestor_complete T h n l nd k : tree_ok T → skip_ok h → complete T h n l → h !! l = Some nd →
  (k ≤ n)%nat → Z.of_nat k ≤ height nd →
  ∃ a an, Ancestor h l (height nd - Z.of_nat k) = Done (Some a) ∧ h !! a = Some an ∧
    height an = height nd - Z.of_nat k ∧ treeWalk T k (hash nd) = Some (hash an) ∧ complete T h (n - k) a.
Proof.
  intros HT Hs Hc Hl Hk Hh. destruct (complete_up T h n l nd k HT Hc Hl Hk Hh) as (a & an & Ha & H).
  exists a, an. split; [|done]. unfold Ancestor. rewrite (deref_Some _ _ _ Hl). cbn [mbind run_bind].
  destruct (Z.ltb_spec (height nd - Z.of_nat k) 0); [lia|].
  destruct (Z.ltb_spec (height nd) (height nd - Z.of_nat k)); [lia|]. cbn [orb].
  rewrite (Ancestor_loop_complete T h _ n l nd) by (done || lia).
  by replace (Z.to_nat (height nd - (height nd - Z.of_nat k))) with k by lia; rewrite Ha.
Qed.

(** ** The reference: BIP 9 on the block tree

    Window by window, from the genesis block: no cache, no severed link, no
    shortcut. *)

Record refChecker := {
  rStarted : hash_t → bool;
  rEnded : hash_t → bool;
  rEligible : hash_t → bool;
  rCond : hash_t → bool;
  rForce : hash_t → bool;
  rThreshold : Z;
  rSpeedy : bool;
}.

Fixpoint refVotes (T : tree) (rc : refChecker) (n : nat) (hs : hash_t) : Z :=
  match n with
  | O => 0
  | S n =>
      match T !! hs with
      | None => 0
      | Some x => (if rCond rc hs then 1 else 0) + refVotes T rc n (Wire.PrevBlock x.1)
      end
  end.

Definition refTransition (T : tree) (rc : refChecker) (W : Z) (s : ThresholdState) (hs : hash_t) : ThresholdState :=
  match s with
  | ThresholdDefined =>
      if negb (rSpeedy rc) && rEnded rc hs then ThresholdFailed
      else if rStarted rc hs then ThresholdStarted else ThresholdDefined
  | ThresholdStarted =>
      if negb (rSpeedy rc) && rEnded rc hs then ThresholdFailed
      else if rThreshold rc <=? refVotes T rc (Z.to_nat W) hs then ThresholdLockedIn
      else if rSpeedy rc && rEnded rc hs then ThresholdFailed else ThresholdStarted
  | ThresholdLockedIn => if rEligible rc hs then ThresholdActive else ThresholdLockedIn
  | ThresholdActive => ThresholdActive
  | ThresholdFailed => ThresholdFailed
  end.

(** The state after the [k]th window, which ends with the block [hs] *)
Fixpoint windowState (T : tree) (rc : refChecker) (W : Z) (k : nat) (hs : hash_t) : ThresholdState :=
  match k with
  | O => ThresholdDefined
  | S k =>
      refTransition T rc W
        (match treeWalk T (Z.to_nat W) hs with Some p => windowState T rc W k p | None => ThresholdDefined end) hs
  end.

(** The state for the block after [hs] *)
Definition refState (T : tree) (rc : refChecker) (W : Z) (hs : hash_t) : ThresholdState :=
  if rForce rc hs then ThresholdActive else
  match T !! hs with
  | None => ThresholdDefined
  | Some x =>
      match treeWalk T (Z.to_nat ((x.2 + 1) `mod` W)) hs with
      | Some e => windowState T rc W (Z.to_nat ((x.2 + 1) / W)) e
      | None => ThresholdDefined
      end
  end.

(** The deployment has not started at [hs]: no earlier window changed anything,
    if the clock does not go back and nothing ends before it starts. *)
Lemma windowState_not_started T rc W k hs :
  (∀ a p, treeWalk T (Z.to_nat W) a = Some p → rStarted rc p = true → rStarted rc a = true) →
  (∀ a, rEnded rc a = true → rStarted rc a = true) →
  rStarted rc hs = false → windowState T rc W k hs = ThresholdDefined.
Proof.
  intros Hmono Hend. revert hs. induction k as [|k IH]; intros hs Hns; [done|]. cbn [windowState].
  replace (match treeWalk T (Z.to_nat W) hs with Some p => windowState T rc W k p | None => ThresholdDefined end)
    with ThresholdDefined.
  - cbn. rewrite Hns. destruct (rEnded rc hs) eqn:E; [apply Hend in E; congruence|]. by rewrite andb_false_r.
  - destruct (treeWalk T (Z.to_nat W) hs) as [p|] eqn:E; [|done]. symmetry. apply IH.
    destruct (rStarted rc p) eqn:Ep; [|done]. by rewrite (Hmono _ _ E Ep) in Hns.
Qed.

(** ** What a checker promises

    In consistent states the methods answer what the reference says of the block.
    [near] is what [HasStarted] and [HasEnded] need to have in memory around the
    block; [D] is what [Condition] needs of the deployment caches. *)

Definition chain_inv (T : tree) (D : list thresholdStateCache → Prop) (c : chain) : Prop :=
  chain_ok T (bc c) ∧ skip_ok (heap_ (bc c)) ∧ D (deploymentCaches c).

Definition steps (c c' : chain) : Prop :=
  grows (bc c) (bc c') ∧ deploymentCaches c' = deploymentCaches c ∧ warningCaches c' = warningCaches c.

#[export] Instance steps_preorder : PreOrder steps.
Proof.
  split; [by split|]. intros c1 c2 c3 (G1 & D1 & W1) (G2 & D2 & W2).
  split; [by etransitivity|]. split; congruence.
Qed.

Class CheckerOk (T : tree) (checker : thresholdConditionChecker) (rc : refChecker)
    (near : BlockChain → hash_t → Prop) (D : list thresholdStateCache → Prop) : Prop := {
  near_grows b b' hs : chain_ok T b' → grows b b' → near b hs → near b' hs;
  started_ok c l nd : chain_inv T D c → heap_ (bc c) !! l = Some nd → near (bc c) (hash nd) →
    HasStarted checker c l = Done (rStarted rc (hash nd));
  ended_ok c l nd : chain_inv T D c → heap_ (bc c) !! l = Some nd → near (bc c) (hash nd) →
    HasEnded checker c l = Done (rEnded rc (hash nd));
  eligible_ok c l nd : chain_inv T D c → heap_ (bc c) !! l = Some nd →
    EligibleToActivate checker c l = Done (rEligible rc (hash nd));
  force_ok c l nd : chain_inv T D c → heap_ (bc c) !! l = Some nd →
    ForceActive checker c (Some l) = Done (rForce rc (hash nd));
  condition_ok c l nd : chain_inv T D c → heap_ (bc c) !! l = Some nd →
    ∃ c', Condition checker l c = Done (inl (rCond rc (hash nd)), c') ∧ chain_inv T D c' ∧ steps c c';
  threshold_ok : RuleChangeActivationThreshold checker = rThreshold rc;
  speedy_ok : IsSpeedy checker = rSpeedy rc;
}.

Lemma get_bind {A} (k : chain → M A) c : (get_ ≫= k) c = k c c.
Proof. done. Qed.

Lemma run_bind_M {A B} (m : run A) (x : A) (k : A → M B) c : m = Done x → (io_run m ≫= k) c = k x c.
Proof. by intros ->. Qed.

Section refinement.
Context (T : tree) (checker : thresholdConditionChecker) (rc : refChecker)
  (near : BlockChain → hash_t → Prop) (D : list thresholdStateCache → Prop)
  `{Hok : !CheckerOk T checker rc near D}.

Lemma steps_node c c' l nd : steps c c' → heap_ (bc c) !! l = Some nd →
  ∃ nd', heap_ (bc c') !! l = Some nd' ∧ hash nd' = hash nd ∧ height nd' = height nd.
Proof.
  intros ((Hg & _) & _) Hl. destruct (Hg l nd Hl) as (nd' & Hl' & E & _).
  apply set_parent_data in E as (E1 & E2 & _). by exists nd'.
Qed.

Lemma steps_complete c c' n l : chain_inv T D c' → steps c c' → complete T (heap_ (bc c)) n l →
  complete T (heap_ (bc c')) n l.
Proof. intros (Hc & _) ((Hg & _) & _). apply complete_grows; [done|apply (co_heap _ _ Hc)]. Qed.

Lemma refVotes_bounds n hs : 0 ≤ refVotes T rc n hs ≤ Z.of_nat n.
Proof.
  revert hs. induction n as [|n IH]; intros hs; cbn [refVotes]; [lia|]. destruct (T !! hs) as [x|]; [|lia].
  specialize (IH (Wire.PrevBlock x.1)). destruct (rCond rc hs); lia.
Qed.

(** Counting votes down a linked chain counts them in the tree. *)
Lemma countVotes_ok n c l nd m count : chain_inv T D c → heap_ (bc c) !! l = Some nd →
  complete T (heap_ (bc c)) m l → (n ≤ S m)%nat → 0 ≤ count → count + Z.of_nat n < 2 ^ 32 →
  ∃ c', countVotes checker n (Some l) count c = Done (inl (count + refVotes T rc n (hash nd)), c') ∧
    chain_inv T D c' ∧ steps c c'.
Proof.
  revert c l nd m count. induction n as [|n IH]; intros c l nd m count Hinv Hl Hc Hn H0 Hb.
  { exists c. cbn. rewrite Z.add_0_r. split_and!; done || reflexivity. }
  destruct (condition_ok c l nd Hinv Hl) as (c1 & E & Hinv1 & Hst).
  destruct (steps_node c c1 l nd Hst Hl) as (nd1 & Hl1 & Eh & Ehgt).
  pose proof (steps_complete c c1 m l Hinv1 Hst Hc) as Hc1.
  set (count1 := if rCond rc (hash nd) then u32 (count + 1) else count).
  assert (count1 = count + if rCond rc (hash nd) then 1 else 0) as E1.
  { unfold count1. destruct (rCond rc (hash nd)); [apply uwrap_small; zlia|lia]. }
  assert (∃ c', countVotes checker n (parent nd1) count1 c1 =
    Done (inl (count1 + refVotes T rc n (parentHash nd1)), c') ∧ chain_inv T D c' ∧ steps c1 c') as (c' & E2 & Hinv' & Hst').
  { destruct n as [|n].
    { exists c1. cbn. rewrite Z.add_0_r. split_and!; [by destruct (parent nd1)|done|reflexivity]. }
    destruct m as [|m]; [lia|]. destruct Hc1 as (x & Hx & HTx & Hp). rewrite Hl1 in Hx. injection Hx as <-.
    destruct (parent nd1) as [p|].
    - destruct Hp as [(pn & Hpn & <-) Hcp]. apply (IH c1 p pn m count1 Hinv1 Hpn Hcp); [lia| |].
      + rewrite E1. destruct (rCond rc (hash nd)); lia.
      + rewrite E1. destruct (rCond rc (hash nd)); zlia.
    - exists c1. cbn [refVotes]. rewrite Hp, Z.add_0_r. split_and!; [done|done|reflexivity]. }
  exists c'. split; [|split; [done|by etransitivity]].
  assert (T !! hash nd = Some (Header nd1, height nd1)) as HT.
  { rewrite <-Eh. destruct m; destruct Hc1 as (x & Hx & HTx & _); rewrite Hl1 in Hx; by injection Hx as <-. }
  unfold countVotes; fold countVotes. unfold mbind, io_bind at 1. rewrite E. cbn.
  unfold io_bind, io_run. rewrite (deref_Some _ _ _ Hl1). fold count1. rewrite E2, E1. do 3 f_equal.
  rewrite HT. cbn [fst]. change (Wire.PrevBlock (Header nd1)) with (parentHash nd1). lia.
Qed.

(** One window: the transition is the reference's, if the window is linked or no
    vote needs counting. *)
Lemma transition_ok c l nd s m W : chain_inv T D c → heap_ (bc c) !! l = Some nd → near (bc c) (hash nd) →
  complete T (heap_ (bc c)) m l → 0 ≤ W < 2 ^ 32 → (s = ThresholdStarted → W ≤ Z.of_nat m + 1) →
  ∃ c', thresholdStateTransition s l checker W c = Done (inl (refTransition T rc W s (hash nd)), c') ∧
    chain_inv T D c' ∧ steps c c'.
Proof.
  intros Hinv Hl Hnear Hc HW Hm.
  assert (∀ (c1 : chain) A (k : bool → M A), steps c c1 → chain_inv T D c1 →
    (io_run (HasEnded checker c1 l) ≫= k) c1 = k (rEnded rc (hash nd)) c1) as Hend.
  { intros c1 A k Hst Hinv1. destruct (steps_node c c1 l nd Hst Hl) as (nd1 & Hl1 & Eh & _).
    unfold mbind, io_bind, io_run. rewrite (ended_ok c1 l nd1 Hinv1 Hl1), Eh; [done|].
    rewrite Eh. eapply near_grows; [apply Hinv1|apply Hst|done]. }
  unfold thresholdStateTransition. rewrite speedy_ok, threshold_ok.
  destruct s; cbn [refTransition].
  - exists c. split; [|split; [done|reflexivity]]. unfold get_, mbind at 1, io_bind at 1.
    destruct (rSpeedy rc); cbn [negb andb].
    + unfold mbind, mret, io_bind, io_ret, io_run. rewrite (started_ok c l nd Hinv Hl Hnear). done.
    + rewrite Hend by (done || reflexivity). destruct (rEnded rc (hash nd)); [done|].
      unfold mbind, mret, io_bind, io_ret, io_run. rewrite (started_ok c l nd Hinv Hl Hnear). done.
  - destruct (countVotes_ok (Z.to_nat W) c l nd m 0 Hinv Hl Hc) as (c1 & Ec & Hinv1 & Hst1); [specialize (Hm eq_refl); lia|lia|lia|].
    assert (∀ c0 : chain, c0 = c → ∃ c', (count ← countVotes checker (Z.to_nat W) (Some l) 0;
      if rThreshold rc <=? count then mret ThresholdLockedIn else
      c ← get_;
      ended ← (if rSpeedy rc then io_run (HasEnded checker c l) else mret false);
      mret (if ended : bool then ThresholdFailed else ThresholdStarted)) c0 =
      Done (inl (if rThreshold rc <=? refVotes T rc (Z.to_nat W) (hash nd) then ThresholdLockedIn
      else if rSpeedy rc && rEnded rc (hash nd) then ThresholdFailed else ThresholdStarted), c') ∧
      chain_inv T D c' ∧ steps c c') as Hcount.
    { intros c0 ->. exists c1. split; [|done]. unfold mbind at 1, io_bind at 1. rewrite Ec, Z.add_0_l.
      destruct (rThreshold rc <=? _); [done|]. unfold get_, mbind at 1, io_bind at 1.
      destruct (rSpeedy rc); [|done]. by rewrite Hend. }
    setoid_rewrite get_bind. destruct (rSpeedy rc) eqn:Esp; cbn [negb andb].
    + apply Hcount. done.
    + rewrite Hend by (done || reflexivity). destruct (rEnded rc (hash nd)) eqn:Een.
      * exists c. split; [done|split; [done|reflexivity]].
      * cbn [andb] in Hcount. apply (Hcount c eq_refl).
  - exists c. split; [|split; [done|reflexivity]]. unfold get_, mbind, mret, io_bind, io_ret, io_run.
    rewrite (eligible_ok c l nd Hinv Hl). done.
  - exists c. split; [done|split; [done|reflexivity]].
  - exists c. split; [done|split; [done|reflexivity]].
Qed.

(** *** The cached computation *)

Context (W : Z) (r : cacheRef).
Hypothesis HW : 0 < W < 2 ^ 29.
Hypothesis D_stable : ∀ l c, D (deploymentCaches c) → D (deploymentCaches (set_caches r l c)).
Hypothesis Hmono : ∀ a p, treeWalk T (Z.to_nat W) a = Some p → rStarted rc p = true → rStarted rc a = true.
Hypothesis Hend : ∀ a, rEnded rc a = true → rStarted rc a = true.

Definition cacheAt (c : chain) (m : thresholdStateCache) : Prop := index (caches r c) (slot r) = Done m.

(** The chain grew, and only the cache [r] may have changed. *)
Definition evolves (c c' : chain) : Prop :=
  grows (bc c) (bc c') ∧ ∀ r', r' ≠ r → index (caches r' c') (slot r') = index (caches r' c) (slot r').

#[local] Instance evolves_preorder : PreOrder evolves.
Proof.
  split; [by split|]. intros c1 c2 c3 (G1 & F1) (G2 & F2). split; [by etransitivity|].
  intros r' Hr'. by rewrite F2, F1.
Qed.

Lemma steps_evolves c c' : steps c c' → evolves c c'.
Proof. intros (Hg & Ed & Ew). split; [done|]. intros [i|i] _; cbn; congruence. Qed.

(** Every entry is the reference state of the window that ends with its block. *)
Definition cache_right (m : thresholdStateCache) : Prop :=
  ∀ hs s, m !! hs = Some s → ∃ hd k, T !! hs = Some (hd, Z.of_nat k * W - 1) ∧ s = windowState T rc W k hs.

(** Within [n] windows above [hs] there is a cached block, a block before the
    start time, or the first window; the blocks in between have what
    [HasStarted] needs in memory. *)
Fixpoint reach (b : BlockChain) (m : thresholdStateCache) (n : nat) (hs : hash_t) : Prop :=
  is_Some (m !! hs) ∨
  near b hs ∧
    (rStarted rc hs = false ∨ (∃ x, T !! hs = Some x ∧ x.2 < W) ∨
     match n with O => False | S n => ∃ p, treeWalk T (Z.to_nat W) hs = Some p ∧ reach b m n p end).

Lemma Lookup_ok c m hs A (k : option ThresholdState → M A) : cacheAt c m → (Lookup r hs ≫= k) c = k (m !! hs) c.
Proof. unfold cacheAt, Lookup, mbind at 1, io_bind at 1. by intros ->. Qed.

Lemma Update_ok c m hs s : chain_inv T D c → cacheAt c m →
  ∃ c', (∀ A (k : unit → M A), (Update r hs s ≫= k) c = k tt c') ∧ chain_inv T D c' ∧ bc c' = bc c ∧
    cacheAt c' (<[hs := s]> m) ∧ evolves c c'.
Proof.
  intros (H1 & H2 & H3) Hm. exists (set_caches r (<[Z.to_nat (slot r) := <[hs := s]> m]> (caches r c)) c).
  unfold cacheAt, index in Hm. destruct (decide (0 ≤ slot r)) as [Hs|]; [|done].
  destruct (caches r c !! Z.to_nat (slot r)) as [m'|] eqn:E; [|done]. injection Hm as ->.
  pose proof (lookup_lt_Some _ _ _ E) as Hlt.
  assert (bc (set_caches r (<[Z.to_nat (slot r) := <[hs := s]> m]> (caches r c)) c) = bc c) as Eb by (by destruct r).
  split_and!.
  - intros A k. unfold Update, mbind at 1, io_bind at 1, index, store. rewrite decide_True, E by done. cbn.
    rewrite decide_True by (unfold zlen; lia). done.
  - split_and!; [by rewrite Eb..|]. by apply D_stable.
  - done.
  - unfold cacheAt, index. rewrite decide_True by done. by destruct r; cbn; rewrite list_lookup_insert_eq.
  - split; [by rewrite Eb|]. intros r' Hne. unfold index.
    destruct (decide (0 ≤ slot r')); [|done]. destruct r, r'; cbn in *; try done;
      (rewrite list_lookup_insert_ne; [done|]); intros E'; apply Hne; f_equal; lia.
Qed.

Lemma advance_app l1 l2 s c : advance checker r W (l1 ++ l2) s c =
  (advance checker r W l1 s ≫= advance checker r W l2) c.
Proof.
  revert s c. induction l1 as [|l l1 IH]; intros s c; [done|]. cbn [app advance].
  unfold mbind, io_bind. destruct (thresholdStateTransition s l checker W c) as [[[s'|e] c']| |]; try done.
  unfold get_, io_run. destruct (deref (heap_ (bc c')) l) as [nd| |]; try done.
  destruct (Update r (hash nd) s' c') as [[[[]|e] c'']| |]; done.
Qed.

Lemma cache_right_insert m hs s hd k : cache_right m → T !! hs = Some (hd, Z.of_nat k * W - 1) →
  s = windowState T rc W k hs → cache_right (<[hs := s]> m).
Proof.
  intros Hm HT Hs hs' s' [[<- <-]|[_ H]]%lookup_insert_Some; [by exists hd, k|by apply Hm].
Qed.

(** The last step of a window: transition and cache the result. *)
Lemma advance_one c m l nd k s avail : chain_inv T D c → cacheAt c m → cache_right m →
  heap_ (bc c) !! l = Some nd → near (bc c) (hash nd) → height nd = Z.of_nat (S k) * W - 1 →
  complete T (heap_ (bc c)) avail l → (s = ThresholdStarted → W ≤ Z.of_nat avail + 1) →
  s = (match treeWalk T (Z.to_nat W) (hash nd) with Some p => windowState T rc W k p | None => ThresholdDefined end) →
  ∃ c' m', advance checker r W [l] s c = Done (inl (windowState T rc W (S k) (hash nd)), c') ∧
    chain_inv T D c' ∧ cacheAt c' m' ∧ cache_right m' ∧ evolves c c'.
Proof.
  intros Hinv Hm Hr Hl Hnear Hh Hc Hs Es.
  destruct (transition_ok c l nd s avail W Hinv Hl Hnear Hc ltac:(zlia) Hs) as (c1 & E & Hinv1 & Hst).
  destruct (steps_node c c1 l nd Hst Hl) as (nd1 & Hl1 & Eh & Ehh).
  assert (cacheAt c1 m) as Hm1.
  { destruct Hst as (_ & E1 & E2). unfold cacheAt in *. destruct r; cbn in *; congruence. }
  destruct (co_heap _ _ (proj1 Hinv1) l nd1 Hl1) as [HT _].
  destruct (Update_ok c1 m (hash nd1) (windowState T rc W (S k) (hash nd)) Hinv1 Hm1) as (c2 & EU & Hinv2 & Eb & Hm2 & Hev2).
  exists c2, (<[hash nd1 := windowState T rc W (S k) (hash nd)]> m). split_and!; [|done|done| |].
  - cbn [advance]. unfold mbind at 1, io_bind at 1. rewrite E, get_bind.
    rewrite (run_bind_M _ nd1) by (by apply deref_Some).
    assert (refTransition T rc W s (hash nd) = windowState T rc W (S k) (hash nd)) as -> by (cbn [windowState]; by rewrite <-Es).
    rewrite EU. done.
  - eapply cache_right_insert; [done| |by rewrite Eh]. rewrite HT. do 2 f_equal. rewrite Ehh, Hh. done.
  - etransitivity; [by apply steps_evolves|done].
Qed.

(** Going back from the block [l] and forward again gives the reference state. *)
Definition computes (fuel : nat) (c : chain) (l : loc) (k : nat) (hs : hash_t) : Prop :=
  ∀ acc, ∃ needed stop c1 s0 c2 m2,
    neededLoop fuel checker r W (Some l) acc c = Done (inl (acc ++ needed, stop), c1) ∧
    cachedState r stop c1 = Done (inl s0, c1) ∧
    advance checker r W (reverse needed) s0 c1 = Done (inl (windowState T rc W k hs), c2) ∧
    chain_inv T D c2 ∧ cacheAt c2 m2 ∧ cache_right m2 ∧ evolves c c2.

Lemma cachedState_ok c m l nd s : cacheAt c m → heap_ (bc c) !! l = Some nd → m !! hash nd = Some s →
  cachedState r (Some l) c = Done (inl s, c).
Proof.
  intros Hm Hl Es. cbn [cachedState].
  rewrite get_bind, (run_bind_M _ nd), (Lookup_ok c m), Es by (done || by apply deref_Some). done.
Qed.

(** The first test of the backward loop *)
Lemma neededLoop_lookup fuel c m l nd acc : cacheAt c m → heap_ (bc c) !! l = Some nd →
  neededLoop fuel checker r W (Some l) acc c =
  match m !! hash nd with
  | Some _ => Done (inl (acc, Some l), c)
  | None =>
      (started ← io_run (HasStarted checker c l);
       if negb started then _ ← Update r (hash nd) ThresholdDefined; mret (acc, Some l)
       else match fuel with
            | O => io_run NoFuel
            | S fuel => p ← io_run (RelativeAncestor (heap_ (bc c)) l W);
                neededLoop fuel checker r W p (acc ++ [l])
            end) c
  end.
Proof.
  intros Hm Hl. destruct fuel; cbn [neededLoop];
    rewrite get_bind, (run_bind_M _ nd), (Lookup_ok c m) by (done || by apply deref_Some);
    by destruct (m !! hash nd).
Qed.

Lemma computes_cached fuel c m l nd k s : chain_inv T D c → cacheAt c m → cache_right m →
  heap_ (bc c) !! l = Some nd → height nd = Z.of_nat k * W - 1 → m !! hash nd = Some s →
  computes fuel c l k (hash nd).
Proof.
  intros Hinv Hm Hr Hl Hh Es acc. exists [], (Some l), c, s, c, m. rewrite app_nil_r.
  rewrite (neededLoop_lookup _ _ _ _ _ _ Hm Hl), Es.
  split; [done|]. split; [by eapply cachedState_ok|]. split; [|split_and!; done || reflexivity].
  destruct (co_heap _ _ (proj1 Hinv) l nd Hl) as [HT _]. destruct (Hr _ _ Es) as (hd & j & HTj & ->).
  rewrite HT in HTj. injection HTj as _ Ej. by replace k with j by nia.
Qed.

Lemma computes_not_started fuel c m l nd k : chain_inv T D c → cacheAt c m → cache_right m →
  heap_ (bc c) !! l = Some nd → height nd = Z.of_nat k * W - 1 → m !! hash nd = None →
  near (bc c) (hash nd) → rStarted rc (hash nd) = false → computes fuel c l k (hash nd).
Proof.
  intros Hinv Hm Hr Hl Hh Es Hnear Hns acc.
  destruct (Update_ok c m (hash nd) ThresholdDefined Hinv Hm) as (c1 & EU & Hinv1 & Eb & Hm1 & Hev1).
  exists [], (Some l), c1, ThresholdDefined, c1, (<[hash nd := ThresholdDefined]> m). rewrite app_nil_r.
  rewrite (neededLoop_lookup _ _ _ _ _ _ Hm Hl), Es, (run_bind_M _ false)
    by (rewrite <-Hns; by apply started_ok). cbn [negb].
  assert (ThresholdDefined = windowState T rc W k (hash nd)) as Ew by (symmetry; by apply windowState_not_started).
  split; [by rewrite EU|]. split; [eapply cachedState_ok; [done|by rewrite Eb|apply lookup_insert_eq]|].
  split; [cbn; by rewrite <-Ew|]. split; [done|]. split; [done|]. split; [|done].
  destruct (co_heap _ _ (proj1 Hinv) l nd Hl) as [HT _]. eapply cache_right_insert; [done| |done].
  by rewrite HT, Hh.
Qed.

(** One more window in front of those already handled *)
Lemma computes_next fuel c m l nd k avail p : chain_inv T D c → cacheAt c m → cache_right m →
  heap_ (bc c) !! l = Some nd → height nd = Z.of_nat (S k) * W - 1 → m !! hash nd = None →
  near (bc c) (hash nd) → rStarted rc (hash nd) = true → complete T (heap_ (bc c)) avail l →
  RelativeAncestor (heap_ (bc c)) l W = Done p →
  (match p with
   | None => k = 0%nat
   | Some a => ∃ an, heap_ (bc c) !! a = Some an ∧ treeWalk T (Z.to_nat W) (hash nd) = Some (hash an) ∧
       W ≤ Z.of_nat avail + 1 ∧ computes fuel c a k (hash an)
   end) → computes (S fuel) c l (S k) (hash nd).
Proof.
  intros Hinv Hm Hr Hl Hh Es Hnear Hst Hc Hp Hrec acc.
  assert (∃ needed stop c1 s0 c2 m2,
    neededLoop fuel checker r W p (acc ++ [l]) c = Done (inl ((acc ++ [l]) ++ needed, stop), c1) ∧
    cachedState r stop c1 = Done (inl s0, c1) ∧
    advance checker r W (reverse needed) s0 c1 = Done (inl (match treeWalk T (Z.to_nat W) (hash nd) with
      Some p => windowState T rc W k p | None => ThresholdDefined end), c2) ∧
    chain_inv T D c2 ∧ cacheAt c2 m2 ∧ cache_right m2 ∧ evolves c c2 ∧
    (k ≠ 0%nat → W ≤ Z.of_nat avail + 1))
    as (needed & stop & c1 & s0 & c2 & m2 & E1 & E2 & E3 & Hinv2 & Hm2 & Hr2 & Hg2 & Hav).
  { destruct p as [a|].
    - destruct Hrec as (an & Ha & Ew & Hav & Hcomp). rewrite Ew.
      destruct (Hcomp (acc ++ [l])) as (needed & stop & c1 & s0 & c2 & m2 & H). exists needed, stop, c1, s0, c2, m2.
      destruct H as (? & ? & ? & ? & ? & ? & ?). split_and!; done.
    - subst k. exists [], None, c, ThresholdDefined, c, m. rewrite app_nil_r.
      split_and!; [by destruct fuel|done| |done..|reflexivity|done]. cbn. by destruct (treeWalk T (Z.to_nat W) (hash nd)). }
  destruct (proj1 (proj1 Hg2) l nd Hl) as (nd2 & Hl2 & Ed & _). apply set_parent_data in Ed as (Eh2 & Ehh2 & _).
  destruct (advance_one c2 m2 l nd2 k (match treeWalk T (Z.to_nat W) (hash nd) with
      Some p => windowState T rc W k p | None => ThresholdDefined end) avail) as (c3 & m3 & E4 & Hinv3 & Hm3 & Hr3 & Hg3);
    try done.
  { rewrite Eh2. eapply near_grows; [apply Hinv2|apply Hg2|done]. }
  { by rewrite Ehh2. }
  { apply (complete_grows T (heap_ (bc c))); [apply (proj1 Hg2)|apply (co_heap _ _ (proj1 Hinv2))|done]. }
  { destruct k; [by destruct (treeWalk T (Z.to_nat W) (hash nd))|]. intros _. by apply Hav. }
  { by rewrite Eh2. }
  exists (l :: needed), stop, c1, s0, c3, m3.
  split; [|split; [done|split; [|split_and!; [done..|by etransitivity]]]].
  - rewrite (neededLoop_lookup _ _ _ _ _ _ Hm Hl), Es, (run_bind_M _ true) by (rewrite <-Hst; by apply started_ok).
    cbn [negb]. rewrite (run_bind_M _ p) by done. rewrite E1. by rewrite <-app_assoc.
  - rewrite reverse_cons, advance_app. unfold mbind, io_bind. rewrite E3, E4. by rewrite Eh2.
Qed.

Lemma windows_ok n c m l nd k avail fuel : chain_inv T D c → cacheAt c m → cache_right m →
  heap_ (bc c) !! l = Some nd → height nd = Z.of_nat k * W - 1 → complete T (heap_ (bc c)) avail l →
  Z.of_nat n * W + 1 ≤ Z.of_nat avail → reach (bc c) m n (hash nd) → (k ≤ fuel)%nat →
  computes fuel c l k (hash nd).
Proof.
  intros Hinv Hm Hr. revert l nd k avail fuel.
  induction n as [|n IH]; intros l nd k avail fuel Hl Hh Hc Hav Hreach Hf;
    (assert (T !! hash nd = Some (Header nd, height nd)) as HT by apply (co_heap _ _ (proj1 Hinv) l nd Hl));
    destruct (proj2 (co_tree _ _ (proj1 Hinv)) _ _ HT) as [Hrange _]; cbn in Hrange.
  all: (destruct (m !! hash nd) as [s|] eqn:Em; [by eapply computes_cached|]);
    cbn [reach] in Hreach; rewrite Em in Hreach; destruct Hreach as [[? ?]|[Hnear Hreach]]; [done|];
    (destruct (rStarted rc (hash nd)) eqn:Est; [|by eapply computes_not_started]);
    destruct Hreach as [|Hreach]; [done|];
    destruct k as [|k]; [lia|]; destruct fuel as [|fuel]; [lia|].
  all: assert (i32 (height nd - W) = height nd - W) as Ei by (apply swrap_small; zlia).
  all: assert (k = 0%nat → RelativeAncestor (heap_ (bc c)) l W = Done None) as Hfirst
    by (intros ->; unfold RelativeAncestor; rewrite (deref_Some _ _ _ Hl); cbn [mbind run_bind]; rewrite Ei;
        unfold Ancestor; rewrite (deref_Some _ _ _ Hl); cbn [mbind run_bind];
        destruct (Z.ltb_spec (height nd - W) 0); [done|lia]).
  - destruct Hreach as [(x & HTx & Hx)|[]]. rewrite HT in HTx. injection HTx as <-. cbn in Hx.
    assert (k = 0%nat) as -> by nia. by apply (computes_next fuel c m l nd 0 avail None); auto.
  - destruct (decide (k = 0%nat)) as [->|Hk]; [by apply (computes_next fuel c m l nd 0 avail None); auto|].
    destruct Hreach as [(x & HTx & Hx)|(p & Hp & Hreach)].
    { rewrite HT in HTx. injection HTx as <-. cbn in Hx. nia. }
    destruct (Ancestor_complete T (heap_ (bc c)) avail l nd (Z.to_nat W) (co_tree _ _ (proj1 Hinv)) (proj1 (proj2 Hinv)) Hc Hl)
      as (a & an & Ea & Han & Hah & Haw & Hca); [nia|nia|].
    rewrite Hp in Haw. injection Haw as ->.
    eapply (computes_next fuel c m l nd k avail (Some a)); try done.
    { unfold RelativeAncestor. rewrite (deref_Some _ _ _ Hl). cbn [mbind run_bind]. rewrite Ei.
      by rewrite Z2Nat.id in Ea by lia. }
    exists an. split_and!; [done..|nia|]. eapply (IH a an k (avail - Z.to_nat W)%nat); try done; [nia|nia|lia].
Qed.

Lemma reach_grows b b' m n hs : chain_ok T b' → grows b b' → reach b m n hs → reach b' m n hs.
Proof.
  intros Hb Hg. revert hs. induction n as [|n IH]; intros hs [H|[Hn H]]; cbn [reach]; [by left| |by left|];
    right; (split; [by eapply near_grows|]); [done|].
  destruct H as [H|[H|(p & Hp & H)]]; [by left|by right; left|]. right; right. exists p. auto.
Qed.

(** The chain is repaired before anything is read. *)
Lemma repair_step c l nd depth : chain_inv T D c → heap_ (bc c) !! l = Some nd → 0 ≤ depth →
  ∃ b', (∀ A (k : unit → M A), (repair (Some l) depth ≫= k) c = k tt (set_bc b' c)) ∧
    chain_inv T D (set_bc b' c) ∧ grows (bc c) b' ∧ complete T (heap_ b') (Z.to_nat depth) l.
Proof.
  intros (Hc & Hs & HD) Hl Hd. assert (node_of (heap_ (bc c)) (hash nd) l) as Hof by (by exists nd).
  destruct (repair_loop_ok T (Z.to_nat depth) (bc c) l (hash nd) Hc Hof) as (b' & E & Hc' & Hg & Hcomp).
  exists b'. split; [|split; [split; [done|split; [|done]]|done]].
  - intros A k. unfold repair, mbind at 1, io_bind at 1. cbn [repairAncestorChain]. by rewrite E.
  - eapply skip_ok_kept; [apply Hg|by eapply repair_skips|done].
Qed.

Lemma thresholdState_ok c m l nd : chain_inv T D c → cacheAt c m → cache_right m →
  heap_ (bc c) !! l = Some nd → height nd + 1 < 2 ^ 31 → MinerConfirmationWindow checker = W →
  (∀ e, rForce rc (hash nd) = false → W ≤ height nd + 1 →
     treeWalk T (Z.to_nat ((height nd + 1) `mod` W)) (hash nd) = Some e → reach (bc c) m 3 e) →
  ∃ c' m', thresholdState (Some l) checker r c = Done (inl (refState T rc W (hash nd)), c') ∧
    chain_inv T D c' ∧ cacheAt c' m' ∧ cache_right m' ∧ evolves c c'.
Proof.
  intros Hinv Hm Hr Hl Hh EW Hreach. unfold thresholdState. rewrite EW.
  assert (i32 W = W) as -> by (apply swrap_small; zlia).
  assert (i32 (4 * W) = 4 * W) as -> by (apply swrap_small; zlia).
  destruct (repair_step c l nd (4 * W) Hinv Hl ltac:(lia)) as (b & EU & Hinv1 & Hg & Hc). setoid_rewrite EU.
  set (c1 := set_bc b c) in *. assert (evolves c c1) as Hev by (by split). assert (cacheAt c1 m) as Hm1 by (by destruct r).
  destruct (proj1 Hg l nd Hl) as (nd1 & Hl1 & Ed & _). apply set_parent_data in Ed as (Eh & Ehh & _).
  assert (T !! hash nd = Some (Header nd1, height nd)) as HT.
  { rewrite <-Eh, <-Ehh. apply (co_heap _ _ (proj1 Hinv1) l nd1 Hl1). }
  destruct (proj2 (co_tree _ _ (proj1 Hinv1)) _ _ HT) as [Hrange _]. cbn in Hrange.
  setoid_rewrite get_bind. setoid_rewrite (run_bind_M _ (rForce rc (hash nd)));
    [|rewrite <-Eh; by apply (force_ok c1 l nd1)].
  unfold refState. rewrite HT. cbn [snd].
  destruct (rForce rc (hash nd)) eqn:Ef; [exists c1, m; split_and!; done|].
  setoid_rewrite (run_bind_M _ nd1); [|by apply deref_Some]. rewrite Ehh.
  assert (i32 (height nd + 1) = height nd + 1) as -> by (apply swrap_small; zlia).
  destruct (Z.ltb_spec (height nd + 1) W) as [Hlt|Hge].
  { exists c1, m. rewrite (Z.div_small (height nd + 1) W) by lia. split_and!; [by destruct (treeWalk _ _ _)|done..]. }
  unfold gorem. destruct (Z.eqb_spec W 0); [lia|]. rewrite Z.rem_mod_nonneg by lia.
  setoid_rewrite (run_bind_M _ ((height nd + 1) `mod` W)); [|done].
  pose proof (Z.mod_pos_bound (height nd + 1) W ltac:(lia)) as Hmod.
  pose proof (Z.div_mod (height nd + 1) W ltac:(lia)) as Hdm.
  set (off := (height nd + 1) `mod` W) in *. set (q := (height nd + 1) / W) in *. assert (1 ≤ q) as Hq by nia.
  assert (i32 (height nd - off) = height nd - off) as -> by (apply swrap_small; zlia).
  destruct (Ancestor_complete T (heap_ b) (Z.to_nat (4 * W)) l nd1 (Z.to_nat off) (co_tree _ _ (proj1 Hinv1))
    (proj1 (proj2 Hinv1)) Hc Hl1) as (a & an & Ea & Han & Hah & Haw & Hca); [lia|lia|].
  rewrite Z2Nat.id, Ehh in Ea by lia. setoid_rewrite (run_bind_M _ (Some a)); [|exact Ea].
  rewrite Eh in Haw. rewrite Haw.
  destruct (windows_ok 3 c1 m a an (Z.to_nat q) (Z.to_nat (4 * W) - Z.to_nat off)%nat (S (Z.to_nat (height nd)))
    Hinv1 Hm1 Hr Han) with (acc := @nil loc) as (needed & stop & c2 & s0 & c3 & m3 & E1 & E2 & E3 & Hinv3 & Hm3 & Hr3 & Hg3);
    [nia|done|lia| |nia|].
  { eapply reach_grows; [apply Hinv1|exact Hg|]. by apply Hreach. }
  exists c3, m3. split_and!; [|done|done|done|etransitivity; [exact Hev|exact Hg3]].
  unfold mbind, io_bind. cbn [app] in E1. rewrite E1. cbn [fst snd]. by rewrite E2, E3.
Qed.

End refinement.

(** ** Deployment identifiers *)

(** [deploymentState] guards its argument with the wrong bound: an
    identifier above the number of deployments is reported as a
    [DeploymentError], but the number itself passes the guard and indexes past
    the end of the array. *)
Theorem deploymentState_guard (p : Params) (prevNode : option loc) (id : Z) (c : chain) :
  (zlen (Deployments p) < id → deploymentState p prevNode id c = Done (inr (DeploymentError id), c)) ∧
  deploymentState p prevNode (zlen (Deployments p)) c = Panic.
Proof.
  unfold deploymentState. split.
  - intros H. destruct (Z.ltb_spec (zlen (Deployments p)) id); [done|lia].
  - rewrite Z.ltb_irrefl. unfold mbind at 1, io_bind at 1, io_run, index. rewrite decide_True by apply zlen_nonneg.
    unfold zlen. rewrite Nat2Z.id, lookup_ge_None_2 by lia. done.
Qed.

Lemma deploymentState_guard_witness :
  let c := {| bc := toyChain 8 4; deploymentCaches := []; warningCaches := []; unknownRulesWarned := false |} in
  deploymentState SugarMainNetParams None 7 c = Done (inr (DeploymentError 7), c).
Proof. intros c. apply (proj1 (deploymentState_guard SugarMainNetParams None 7 c)). reflexivity. Defined.

End Threshold.
