(* ===== verification/Deployment.v ===== *)
(** * Deployment: the known deployments, refined to BIP 9

    The deployments of the network meet the interface of [Threshold]: on a
    consistent chain, whatever part of it is in memory, the cached computation of
    their state and of the block version agrees with BIP 9 on the block tree, as
    long as the caches reach back far enough.  The file also shows what happens
    when they do not, and what the parameters of the network make of the version. *)

From stdpp Require Import sorting.
From S2P Require Import Prelude WorkMath ChainHash Wire BlockNode ChainView ChainIO ColdRead Difficulty Threshold.
Import BlockNode ChainIO ColdRead Difficulty Threshold.
#[local] Open Scope Z_scope.

Module Deployment.

(** ** The clock of a consistent chain *)

Definition prevOf (T : tree) : gmap hash_t hash_t := (fun x => Wire.PrevBlock x.1) <$> T.

Lemma prevOf_lookup T hs : prevOf T !! hs = (fun x => Wire.PrevBlock x.1) <$> T !! hs.
Proof. apply lookup_fmap. Qed.

(** The past median time of a block of the tree *)
Definition treeMTP (T : tree) (hs : hash_t) : Z :=
  match CalcPastMedianTime (C := tree_ctx T) hs with Done m => m | _ => 0 end.

Lemma parent_height T b l nd p pn : chain_ok T b → heap_ b !! l = Some nd → heap_ b !! p = Some pn →
  hash pn = parentHash nd → height pn = height nd - 1 ∧ 0 < height nd.
Proof.
  intros Hok Hl Hp E. destruct (co_heap _ _ Hok l nd Hl) as [HT _]. destruct (co_heap _ _ Hok p pn Hp) as [HTp _].
  destruct (co_tree _ _ Hok) as [Hz Htree]. destruct (Htree _ _ HT) as [Hr Hprev]. cbn [fst snd] in *.
  change (Wire.PrevBlock (Header nd)) with (parentHash nd) in Hprev. rewrite E in HTp.
  destruct (Z.eqb_spec (height nd) 0) as [E0|E0]; [congruence|]. destruct Hprev as [hd Hhd]. split; [|lia].
  rewrite Hhd in HTp. by injection HTp.
Qed.

Lemma chain_walk T b n l nd a : chain_ok T b → heap_ b !! l = Some nd → walk (heap_ b) n l = Some a →
  ∃ an, heap_ b !! a = Some an ∧ height an = height nd - Z.of_nat n ∧
    hashWalk (prevOf T) n (hash nd) = Some (hash an).
Proof.
  intros Hok. revert l nd. induction n as [|n IH]; intros l nd Hl Hw.
  { cbn in Hw. injection Hw as <-. exists nd. split_and!; [done|lia|done]. }
  cbn [walk] in Hw. rewrite Hl in Hw. cbn in Hw. destruct (parent nd) as [p|] eqn:Ep; [|done]. cbn in Hw.
  destruct (co_heap _ _ Hok l nd Hl) as [HT Hpar]. destruct (Hpar p Ep) as (pn & Hp & Eh).
  destruct (parent_height T b l nd p pn Hok Hl Hp Eh) as [Ehh _].
  destruct (IH p pn Hp Hw) as (an & Ha & Eha & Hwa). exists an. split_and!; [done|lia|].
  cbn [hashWalk]. rewrite prevOf_lookup, HT. cbn.
  change (Wire.PrevBlock (Header nd)) with (parentHash nd). by rewrite <-Eh.
Qed.

Lemma chain_heap_wf T b : chain_ok T b → skip_ok (heap_ b) → heap_wf (prevOf T) (heap_ b).
Proof.
  intros Hok Hs l nd Hl. destruct (co_heap _ _ Hok l nd Hl) as [HT Hpar].
  destruct (proj2 (co_tree _ _ Hok) _ _ HT) as [Hr _]. cbn in Hr. split; [done|]. split.
  { by rewrite prevOf_lookup, HT. }
  split.
  - intros p Ep. destruct (Hpar p Ep) as (pn & Hp & Eh).
    destruct (parent_height T b l nd p pn Hok Hl Hp Eh) as [Ehh _]. exists pn. split_and!; [done..|lia|].
    replace (Z.to_nat (height nd - (height nd - 1))) with 1%nat by lia. cbn [hashWalk]. rewrite prevOf_lookup, HT. cbn.
    by rewrite Eh.
  - intros a Ea. destruct (chain_walk T b _ l nd a Hok Hl (proj2 (Hs l nd a Hl Ea))) as (an & Ha & Hha & Hwa).
    destruct (getAncestorHeight_bounds (height nd) Hr) as [H1 H2].
    destruct (Hs l nd a Hl Ea) as [Hpos _].
    exists an. split_and!; [done|lia|lia|done].
Qed.

Lemma Ancestor_loop_mono h h' fuel n target x : h ⊆ h' →
  Ancestor_loop fuel h n target = Done x → Ancestor_loop fuel h' n target = Done x.
Proof.
  intros Hsub. revert n. induction fuel as [|fuel IH]; intros [l|] E; try done; cbn [Ancestor_loop] in *;
    apply run_bind_Done in E as (nd & Hnd & E); unfold deref in Hnd;
    (destruct (h !! l) as [y|] eqn:El; [|done]); injection Hnd as ->;
    rewrite (deref_Some h' l nd) by (by eapply lookup_weaken); cbn [mbind run_bind];
    destruct (height nd =? target); try done.
  destruct (ancestor nd); [destruct (target <=? _)|]; by apply IH.
Qed.

Lemma BlockHash_Done hd : ∃ hs, Wire.BlockHash hd = Done hs.
Proof.
  unfold Wire.BlockHash, Wire.hashOf. rewrite (Wire.emits_header hd Wire.unbounded). by eexists.
Qed.

(** A new node on top of an indexed block can be made in any consistent state. *)
Lemma newBlockNode_ok T b hd p pn f : chain_ok T b → skip_ok (heap_ b) → heap_ b !! p = Some pn →
  heap_ b !! f = None → height pn + 1 < 2 ^ 31 →
  ∃ nd h', newBlockNode (heap_ b) f 0 hd (Some p) = Done (f, h') ∧ heap_ b ⊆ h' ∧ h' !! f = Some nd ∧
    timestamp nd = Wire.Timestamp hd ∧ parent nd = Some p.
Proof.
  intros Hok Hs Hp Hf Hh. destruct (co_heap _ _ Hok p pn Hp) as [HT _].
  destruct (proj2 (co_tree _ _ Hok) _ _ HT) as [Hr _]. cbn in Hr. assert (p ≠ f) as Hne by congruence.
  unfold newBlockNode, initBlockNode. destruct (BlockHash_Done hd) as [hs ->]. cbn [mbind run_bind].
  unfold deref at 1. rewrite lookup_insert_ne, Hp by done. cbn [of_option mbind run_bind].
  unfold buildAncestor. unfold deref. rewrite lookup_insert_eq. cbn [of_option mbind run_bind parent height].
  assert (i32 (height pn + 1) = height pn + 1) as -> by (apply swrap_small; zlia).
  destruct (getAncestorHeight_bounds (height pn + 1) ltac:(lia)) as [H1 H2].
  destruct (Ancestor_sound (prevOf T) (heap_ b) p pn (getAncestorHeight (height pn + 1)) (chain_heap_wf T b Hok Hs) Hp)
    as (a & Ea & _); [lia|].
  match goal with |- context [Ancestor ?h p ?t] => assert (Ancestor h p t = Done a) as -> end.
  { unfold Ancestor in *. unfold deref in *. rewrite !lookup_insert_ne by done. rewrite Hp in *.
    cbn [of_option mbind run_bind] in *. destruct ((_ <? 0) || _); [done|].
    eapply Ancestor_loop_mono; [|exact Ea]. rewrite insert_insert_eq. by apply insert_subseteq. }
  cbn [mbind run_bind]. eexists _, _. split; [done|]. rewrite !insert_insert_eq.
  split; [by apply insert_subseteq|]. split; [apply lookup_insert_eq|done].
Qed.

Lemma collect_cons {N} `{C : HeaderCtx N} i (n : N) t p ts : ctxTimestamp n = Done t → ctxParent n = Done p →
  collectTimes i p = Done ts → collectTimes (S i) (Some n) = Done (t :: ts).
Proof. intros E1 E2 E3. cbn [collectTimes]. rewrite E1, E2. cbn. by rewrite E3. Qed.

Definition timed (T : tree) (b : BlockChain) (hs : hash_t) : Prop :=
  ∃ hd g p, T !! hs = Some (hd, g) ∧ index_ b !! Wire.PrevBlock hd = Some p ∧ complete T (heap_ b) 10 p.

(** With the parent in the index and ten more blocks linked, the clock is right. *)
Lemma PastMedianTime_ok T b l nd : chain_ok T b → skip_ok (heap_ b) → heap_ b !! l = Some nd →
  timed T b (hash nd) → PastMedianTime b (Header nd) = Done (inl (treeMTP T (hash nd))).
Proof.
  intros Hok Hs Hl (hd & g & p & HT & Hi & Hc). destruct (co_heap _ _ Hok l nd Hl) as [HTn _].
  rewrite HTn in HT. injection HT as <- <-. change (Wire.PrevBlock (Header nd)) with (parentHash nd) in *.
  unfold PastMedianTime, LookupNode. change (Wire.PrevBlock (Header nd)) with (parentHash nd). rewrite Hi.
  destruct (co_index _ _ Hok _ _ Hi) as (pn & Hp & Eh).
  destruct (parent_height T b l nd p pn Hok Hl Hp Eh) as [Ehh Hpos].
  destruct (proj2 (co_tree _ _ Hok) _ _ HTn) as [Hr _]. cbn in Hr.
  destruct (newBlockNode_ok T b (Header nd) p pn (fresh (dom (heap_ b))) Hok Hs Hp) as (fn & h' & -> & Hsub & Hf & Et & Ep);
    [apply not_elem_of_dom, is_fresh|lia|]. cbn [mbind run_bind fst snd].
  unfold treeMTP, CalcPastMedianTime. change medianTimeBlocks with (S 10).
  assert (sim T h' 10 (Some p) (Some (parentHash nd))) as Hsim.
  { split; [by eapply complete_mono|]. exists pn. split; [by eapply lookup_weaken|done]. }
  destruct (times_sim T h' 10 10 _ _ Hsim) as (ts & E1 & E2 & _); [lia|].
  destruct (co_heap _ _ Hok p pn Hp) as [HTp _]. rewrite Eh in HTp.
  rewrite (collect_cons (C := blockNode_ctx h') _ _ (timestamp nd) (Some p) ts),
    (collect_cons (C := tree_ctx T) _ _ (timestamp nd) (Some (parentHash nd)) ts); try done.
  2, 3: cbn [ctxTimestamp ctxParent tree_ctx]; rewrite HTn; cbn;
    change (Wire.PrevBlock (Header nd)) with (parentHash nd); by rewrite ?HTp.
  2, 3: cbn [ctxTimestamp ctxParent blockNode_ctx]; rewrite (deref_Some _ _ _ Hf); cbn; by rewrite ?Et, ?Ep.
  cbn [mbind run_bind].
  destruct (median_index (timestamp nd :: ts)) as [x ->]; [done|]. done.
Qed.

(** ** The past median time never goes back *)

Lemma filter_all {A} (P : A → Prop) `{∀ x, Decision (P x)} (l : list A) : Forall P l → filter P l = l.
Proof. induction 1 as [|x l Hx _ IH]; [done|]. rewrite filter_cons_True by done. by rewrite IH. Qed.

Definition below (m : Z) (l : list Z) : nat := length (filter (fun x => x < m) l).

(** A median of [l] has at most half of the entries below it; anything smaller
    than [m] that is a median has more. *)
Lemma below_index l i m : merge_sort Z.le l !! i = Some m → (below m l ≤ i)%nat.
Proof.
  intros E. unfold below. rewrite <-(merge_sort_Permutation Z.le l).
  rewrite <-(take_drop i (merge_sort Z.le l)), filter_app, length_app.
  assert (filter (fun x => x < m) (drop i (merge_sort Z.le l)) = []) as ->.
  { apply filter_none. intros x Hx Hxm.
    pose proof (StronglySorted_merge_sort Z.le l) as Hs. rewrite (drop_S _ m i) in Hx by done.
    apply elem_of_cons in Hx as [->|Hx]; [lia|].
    rewrite <-(take_drop (S i) (merge_sort Z.le l)) in Hs.
    assert (m ≤ x); [|lia]. eapply (StronglySorted_app_1_elem_of Z.le _ _ m x Hs); [|done].
    rewrite (take_S_r _ _ m) by done. set_solver. }
  cbn. rewrite Nat.add_0_r. rewrite length_filter, length_take. lia.
Qed.

Lemma below_index_lt l i m m' : merge_sort Z.le l !! i = Some m' → m' < m → (S i ≤ below m l)%nat.
Proof.
  intros E Hlt. unfold below. rewrite <-(merge_sort_Permutation Z.le l).
  pose proof (StronglySorted_merge_sort Z.le l) as Hs. pose proof (lookup_lt_Some _ _ _ E) as Hlen.
  rewrite <-(take_drop (S i) (merge_sort Z.le l)), filter_app, length_app.
  assert (filter (fun x => x < m) (take (S i) (merge_sort Z.le l)) = take (S i) (merge_sort Z.le l)) as ->.
  { apply filter_all, Forall_forall. intros x Hx. rewrite (take_S_r _ _ m') in Hx by done.
    apply elem_of_app in Hx as [Hx|Hx%list_elem_of_singleton]; [|lia].
    rewrite <-(take_drop i (merge_sort Z.le l)) in Hs.
    assert (x ≤ m'); [|lia]. eapply (StronglySorted_app_1_elem_of Z.le _ _ x m' Hs); [done|].
    rewrite (drop_S _ m' i) by done. set_solver. }
  rewrite length_take. lia.
Qed.

Lemma index_half (l : list Z) m : index (merge_sort Z.le l) (zlen l `quot` 2) = Done m →
  merge_sort Z.le l !! (length l / 2)%nat = Some m.
Proof.
  unfold index. destruct (decide _) as [H|]; [|done].
  replace (Z.to_nat (zlen l `quot` 2)) with (length l / 2)%nat.
  - destruct (merge_sort Z.le l !! _); [|done]. by intros [= ->].
  - rewrite Z.quot_div_nonneg by (unfold zlen; lia). unfold zlen.
    change 2 with (Z.of_nat 2). by rewrite <-Nat2Z.inj_div, Nat2Z.id.
Qed.

(** Sliding the window over a later timestamp does not lower the median. *)
Lemma median_slides (l : list Z) t m m' : (length l ≤ 11)%nat → m < t →
  index (merge_sort Z.le l) (zlen l `quot` 2) = Done m →
  index (merge_sort Z.le (t :: take 10 l)) (zlen (t :: take 10 l) `quot` 2) = Done m' → m ≤ m'.
Proof.
  intros Hl Ht Hm%index_half Hm'%index_half. destruct (Z.le_gt_cases m m') as [|Hgt]; [done|]. exfalso.
  apply below_index in Hm. apply (below_index_lt _ _ m) in Hm'; [|done].
  unfold below in *. rewrite filter_cons_False in Hm' by lia.
  assert (below m (take 10 l) ≤ below m l)%nat as Hle.
  { unfold below. rewrite <-(take_drop 10 l) at 2. rewrite filter_app, length_app. lia. }
  assert (length l / 2 ≤ length (t :: take 10 l) / 2)%nat; [|unfold below in Hle; lia].
  apply Nat.Div0.div_le_mono. cbn [length]. rewrite length_take. lia.
Qed.

Lemma collect_take {N} `{C : HeaderCtx N} i j (n : option N) ts : (i ≤ j)%nat → collectTimes j n = Done ts →
  collectTimes i n = Done (take i ts) ∧ (length ts ≤ j)%nat.
Proof.
  revert j n ts. induction i as [|i IH]; intros j n ts Hij E.
  { split; [by destruct n|]. revert n ts E. induction j as [|j IHj]; intros n ts E.
    - destruct n; by injection E as <-.
    - destruct n as [n|]; [|injection E as <-; cbn; lia]. cbn [collectTimes] in E.
      apply run_bind_Done in E as (t & _ & E). apply run_bind_Done in E as (p & _ & E).
      apply run_bind_Done in E as (rest & Er & E). injection E as <-. cbn.
      specialize (IHj ltac:(lia) _ _ Er). lia. }
  destruct j as [|j]; [lia|]. destruct n as [n|]; [|injection E as <-; cbn; split; [done|lia]].
  cbn [collectTimes] in *. apply run_bind_Done in E as (t & -> & E). apply run_bind_Done in E as (p & -> & E).
  apply run_bind_Done in E as (rest & Er & E). injection E as <-. cbn [mbind run_bind].
  destruct (IH j p rest ltac:(lia) Er) as [-> ?]. cbn. split; [done|lia].
Qed.

(** Every block is later than the median of the blocks before it, as
    [CheckBlockHeaderContext] demands. *)
Definition timely (T : tree) : Prop :=
  ∀ hs hd g, T !! hs = Some (hd, g) → 0 < g → treeMTP T (Wire.PrevBlock hd) < Wire.Timestamp hd.

Lemma treeMTP_step T hs hd g : tree_ok T → timely T → T !! hs = Some (hd, g) → 0 < g →
  treeMTP T (Wire.PrevBlock hd) ≤ treeMTP T hs.
Proof.
  intros [Hz Htree] Htime HT Hg. pose proof (Htime _ _ _ HT Hg) as Ht. revert Ht.
  destruct (Htree _ _ HT) as [_ Hp]. cbn [fst snd] in Hp. destruct (Z.eqb_spec g 0); [lia|]. destruct Hp as [phd HTp].
  destruct (mtp_tree T _ _ HTp) as [m Em]. destruct (mtp_tree T _ _ HT) as [m' Em'].
  unfold treeMTP. rewrite Em, Em'. unfold CalcPastMedianTime in *. intros Ht.
  apply run_bind_Done in Em as (ts & Ets & Em). apply run_bind_Done in Em' as (ts' & Ets' & Em').
  destruct (collect_take (C := tree_ctx T) 10 medianTimeBlocks _ _ ltac:(unfold medianTimeBlocks; lia) Ets) as [E10 Hlen].
  change medianTimeBlocks with (S 10) in Ets'.
  rewrite (collect_cons (C := tree_ctx T) 10 hs (Wire.Timestamp hd) (Some (Wire.PrevBlock hd)) (take 10 ts)) in Ets'.
  - injection Ets' as <-. by eapply median_slides.
  - cbn [ctxTimestamp tree_ctx]. by rewrite HT.
  - cbn [ctxParent tree_ctx]. rewrite HT. cbn. by rewrite HTp.
  - done.
Qed.

Lemma treeMTP_walk T n a p x : tree_ok T → timely T → treeWalk T n a = Some p → T !! p = Some x →
  treeMTP T p ≤ treeMTP T a.
Proof.
  intros HT Htime. revert a. induction n as [|n IH]; intros a Hw Hp; [by injection Hw as <-|].
  cbn [treeWalk] in Hw. destruct (T !! a) as [[hd g]|] eqn:Ea; [|done]. cbn in Hw.
  specialize (IH _ Hw Hp). destruct (proj2 HT _ _ Ea) as [Hr Hz]. cbn [fst snd] in *.
  destruct (Z.eqb_spec g 0) as [->|]; [|pose proof (treeMTP_step T a hd g HT Htime Ea ltac:(lia)); lia].
  rewrite Hz in Hw. destruct HT as [Hz' _]. destruct n as [|n]; cbn [treeWalk] in Hw; [|by rewrite Hz' in Hw].
  injection Hw as <-. congruence.
Qed.

(** ** Known deployments meet the interface *)

Definition deploymentRef (T : tree) (p : Params) (d : ConsensusDeployment) : refChecker :=
  let at_ hs (f : Wire.BlockHeader * Z → bool) := match T !! hs with Some x => f x | None => false end in {|
  rStarted hs := at_ hs (fun _ =>
    match startTime (DeploymentStarter d) with None => true | Some t => t <=? treeMTP T hs end);
  rEnded hs := at_ hs (fun _ =>
    match endTime (DeploymentEnder d) with None => false | Some t => t <=? treeMTP T hs end);
  rEligible hs := at_ hs (fun x => (MinActivationHeight d =? 0) || (MinActivationHeight d <=? x.2 + 1));
  rCond hs := at_ hs (fun x => deploymentCondition d (Wire.Version x.1));
  rForce hs := at_ hs (fun x => EffectiveAlwaysActiveHeight d <=? x.2 + 1);
  rThreshold := RuleChangeActivationThreshold (deploymentChecker p d);
  rSpeedy := IsSpeedy (deploymentChecker p d);
|}.

(** What the start and end times need in memory: nothing when there are none *)
Definition deploymentNear (T : tree) (d : ConsensusDeployment) (b : BlockChain) (hs : hash_t) : Prop :=
  (startTime (DeploymentStarter d) = None ∧ endTime (DeploymentEnder d) = None) ∨ timed T b hs.

Definition anyCaches (l : list thresholdStateCache) : Prop := True.

Lemma u32_height h : 0 ≤ h < 2 ^ 31 → u32 (u32 h + 1) = h + 1.
Proof. intros H. rewrite (uwrap_small 32 h) by zlia. apply uwrap_small. zlia. Qed.

Lemma ltb_eqb_leb a b : (a <? b) || (b =? a) = (a <=? b).
Proof. destruct (Z.ltb_spec a b), (Z.eqb_spec b a), (Z.leb_spec a b); done || lia. Qed.

#[export] Instance deploymentChecker_ok T p d :
  CheckerOk T (deploymentChecker p d) (deploymentRef T p d) (deploymentNear T d) anyCaches.
Proof.
  assert (∀ c l nd, chain_inv T anyCaches c → heap_ (bc c) !! l = Some nd →
    deref (heap_ (bc c)) l = Done nd ∧ T !! hash nd = Some (Header nd, height nd) ∧ 0 ≤ height nd < 2 ^ 31) as Hnode.
  { intros c l nd (Hc & _) Hl. destruct (co_heap _ _ Hc l nd Hl) as [HT _]. split; [by apply deref_Some|].
    split; [done|]. apply (proj2 (co_tree _ _ Hc) _ _ HT). }
  constructor.
  - intros b b' hs Hb' Hg [H|(hd & g & q & HT & Hi & Hc)]; [by left|]. right. exists hd, g, q. split; [done|].
    split; [by rewrite (proj1 (proj2 Hg))|]. eapply complete_grows; [apply Hg|apply (co_heap _ _ Hb')|done].
  - intros c l nd Hinv Hl Hnear. destruct (Hnode c l nd Hinv Hl) as (E & HT & _).
    cbn [HasStarted deploymentChecker deploymentRef rStarted]. rewrite E, HT. cbn [mbind run_bind].
    unfold MedianTimeHasStarted, deploymentNear in *. destruct (startTime (DeploymentStarter d)) as [t|]; [|done].
    destruct Hnear as [[? _]|Hnear]; [done|].
    rewrite (PastMedianTime_ok T (bc c) l nd (proj1 Hinv) (proj1 (proj2 Hinv)) Hl Hnear). cbn. by rewrite ltb_eqb_leb.
  - intros c l nd Hinv Hl Hnear. destruct (Hnode c l nd Hinv Hl) as (E & HT & _).
    cbn [HasEnded deploymentChecker deploymentRef rEnded]. rewrite E, HT. cbn [mbind run_bind].
    unfold MedianTimeHasEnded, deploymentNear in *. destruct (endTime (DeploymentEnder d)) as [t|]; [|done].
    destruct Hnear as [[_ ?]|Hnear]; [done|].
    rewrite (PastMedianTime_ok T (bc c) l nd (proj1 Hinv) (proj1 (proj2 Hinv)) Hl Hnear). cbn. by rewrite ltb_eqb_leb.
  - intros c l nd Hinv Hl. destruct (Hnode c l nd Hinv Hl) as (E & HT & Hr).
    cbn [EligibleToActivate deploymentChecker deploymentRef rEligible]. rewrite HT. cbn [snd].
    destruct (MinActivationHeight d =? 0); [done|]. rewrite E. cbn [mbind run_bind orb]. by rewrite u32_height.
  - intros c l nd Hinv Hl. destruct (Hnode c l nd Hinv Hl) as (E & HT & Hr).
    cbn [ForceActive deploymentChecker deploymentRef rForce]. rewrite E, HT. cbn [mbind run_bind snd]. by rewrite u32_height.
  - intros c l nd Hinv Hl. destruct (Hnode c l nd Hinv Hl) as (E & HT & Hr). exists c.
    split; [|split; [done|reflexivity]]. cbn [Condition deploymentChecker deploymentRef rCond]. rewrite HT, get_bind.
    by rewrite (run_bind_M _ nd).
  - done.
  - done.
Qed.

(** A deployment does not end before it starts. *)
Definition window_ok (d : ConsensusDeployment) : Prop :=
  match startTime (DeploymentStarter d), endTime (DeploymentEnder d) with Some s, Some e => s ≤ e | _, _ => True end.

Lemma deploymentRef_mono T p d W a e : tree_ok T → timely T → 0 < W → treeWalk T (Z.to_nat W) a = Some e →
  rStarted (deploymentRef T p d) e = true → rStarted (deploymentRef T p d) a = true.
Proof.
  intros HT Htime HW Hw. cbn. destruct (T !! e) as [x|] eqn:E; [|done].
  pose proof (treeMTP_walk T _ a e x HT Htime Hw E) as Hle.
  replace (Z.to_nat W) with (S (Z.to_nat (W - 1))) in Hw by lia. cbn [treeWalk] in Hw.
  destruct (T !! a); [|done]. destruct (startTime (DeploymentStarter d)); [|done].
  rewrite !Z.leb_le. lia.
Qed.

Lemma deploymentRef_end T p d a : window_ok d → rEnded (deploymentRef T p d) a = true →
  rStarted (deploymentRef T p d) a = true.
Proof.
  unfold window_ok. cbn. destruct (T !! a); [|done].
  destruct (startTime (DeploymentStarter d)), (endTime (DeploymentEnder d)); try done. rewrite !Z.leb_le. lia.
Qed.

(** The caches of a chain: one right cache per deployment *)
Definition caches_right (T : tree) (p : Params) (c : chain) : Prop :=
  ∀ i d, index (Deployments p) i = Done d → ∃ m, cacheAt (DeploymentCache i) c m ∧
    cache_right T (deploymentRef T p d) (MinerConfirmationWindow_ p) m.

(** At least one of the last windows of the chain of [hs] is cached, has not
    started or is the first; the blocks that end the windows in between have
    their parent in the index, with ten blocks linked above it. *)
Definition recent (T : tree) (p : Params) (c : chain) (i : Z) (d : ConsensusDeployment) (hs : hash_t) (g : Z) : Prop :=
  ∀ e m, treeWalk T (Z.to_nat ((g + 1) `mod` MinerConfirmationWindow_ p)) hs = Some e →
    cacheAt (DeploymentCache i) c m →
    reach T (deploymentRef T p d) (deploymentNear T d) (MinerConfirmationWindow_ p) (bc c) m 3 e.

(** ** The state of a deployment *)

Definition consistent (T : tree) (p : Params) (c : chain) : Prop :=
  chain_ok T (bc c) ∧ skip_ok (heap_ (bc c)) ∧ caches_right T p c.

(** What a run of a deployment's computation leaves *)
Lemma consistent_evolves T p c c' i d m : consistent T p c → chain_inv T anyCaches c' →
  evolves (DeploymentCache i) c c' → index (Deployments p) i = Done d → cacheAt (DeploymentCache i) c' m →
  cache_right T (deploymentRef T p d) (MinerConfirmationWindow_ p) m → consistent T p c'.
Proof.
  intros (_ & _ & Hr) (H1 & H2 & _) (_ & Hf) Hd Hm Hright. split_and!; [done..|]. intros j d' Hj.
  destruct (decide (j = i)) as [->|Hne].
  { rewrite Hd in Hj. injection Hj as <-. by exists m. }
  destruct (Hr j d' Hj) as (m' & Hm' & Hr'). exists m'. split; [|done]. unfold cacheAt in *.
  rewrite Hf; [done|]. congruence.
Qed.

(** One deployment, as all callers compute it *)
Lemma deployment_ok T p c l nd i d : consistent T p c → timely T → 0 < MinerConfirmationWindow_ p < 2 ^ 29 →
  heap_ (bc c) !! l = Some nd → height nd + 1 < 2 ^ 31 → index (Deployments p) i = Done d → window_ok d →
  recent T p c i d (hash nd) (height nd) →
  ∃ c', thresholdState (Some l) (deploymentChecker p d) (DeploymentCache i) c =
      Done (inl (refState T (deploymentRef T p d) (MinerConfirmationWindow_ p) (hash nd)), c') ∧
    consistent T p c' ∧ evolves (DeploymentCache i) c c'.
Proof.
  intros Hcon Htime HW Hl Hh Hd Hwin Hrec. destruct (proj2 (proj2 Hcon) i d Hd) as (m & Hm & Hright).
  assert (tree_ok T) as HT by apply (co_tree _ _ (proj1 Hcon)).
  destruct (thresholdState_ok T (deploymentChecker p d) (deploymentRef T p d) (deploymentNear T d) anyCaches
    (MinerConfirmationWindow_ p) (DeploymentCache i) HW ltac:(done)
    ltac:(intros; by eapply deploymentRef_mono; [| |apply HW|..]) ltac:(intros; by eapply deploymentRef_end)
    c m l nd) as (c' & m' & E & Hinv & Hm' & Hr' & Hev); try done.
  { by destruct Hcon as (? & ? & ?). }
  { intros e _ _ He. by apply Hrec. }
  exists c'. split; [done|]. split; [|done]. by eapply consistent_evolves.
Qed.

(** C10 (refinement).  BIP 9 in spite of the header window: in a consistent chain
    whose caches are right, [deploymentState] repairs what it reads, returns
    without panic or error the state that counting votes window by window over
    the whole block tree gives, and keeps the chain and all caches right -
    provided one of the last four windows is cached, not started or the first,
    and the clock can be read at the ends of the windows since. *)
Theorem deployment_refines (T : tree) (p : Params) (c : chain) (l : loc) (nd : blockNode) (i : Z) (d : ConsensusDeployment) :
  consistent T p c → timely T → 0 < MinerConfirmationWindow_ p < 2 ^ 29 →
  heap_ (bc c) !! l = Some nd → height nd + 1 < 2 ^ 31 → index (Deployments p) i = Done d → window_ok d →
  recent T p c i d (hash nd) (height nd) →
  ∃ c', deploymentState p (Some l) i c =
      Done (inl (refState T (deploymentRef T p d) (MinerConfirmationWindow_ p) (hash nd)), c') ∧
    consistent T p c' ∧ grows (bc c) (bc c').
Proof.
  intros Hcon Htime HW Hl Hh Hd Hwin Hrec.
  destruct (deployment_ok T p c l nd i d Hcon Htime HW Hl Hh Hd Hwin Hrec) as (c' & E & Hcon' & Hev).
  exists c'. split; [|split; [done|apply Hev]]. unfold deploymentState.
  destruct (proj2 (proj2 Hcon) i d Hd) as (m & Hm & _).
  assert (i < zlen (Deployments p)) as Hi.
  { unfold index in Hd. destruct (decide (0 ≤ i)); [|done]. destruct (Deployments p !! Z.to_nat i) eqn:Ei; [|done].
    apply lookup_lt_Some in Ei. unfold zlen. lia. }
  destruct (Z.ltb_spec (zlen (Deployments p)) i); [lia|].
  rewrite (run_bind_M _ d), get_bind, (run_bind_M _ m) by done. done.
Qed.

(** ** The block version *)

Definition versionBit (T : tree) (p : Params) (hs : hash_t) (d : ConsensusDeployment) (v : Z) : Z :=
  let s := refState T (deploymentRef T p d) (MinerConfirmationWindow_ p) hs in
  if bool_decide (s = ThresholdStarted) || bool_decide (s = ThresholdLockedIn)
  then Z.lor v (u32 (Z.shiftl 1 (BitNumber d))) else v.

(** The version with the bit of every deployment that is being voted on or locked in *)
Definition refVersion (T : tree) (p : Params) (hs : hash_t) : Z :=
  i32 (foldl (fun v d => versionBit T p hs d v) vbTopBits (Deployments p)).

Lemma recent_evolves T p c c' i j d hs g : chain_ok T (bc c') → evolves (DeploymentCache j) c c' → i ≠ j →
  recent T p c i d hs g → recent T p c' i d hs g.
Proof.
  intros Hok (Hg & Hf) Hne Hrec e m He Hm. unfold cacheAt in Hm. rewrite (Hf (DeploymentCache i)) in Hm by congruence.
  eapply (reach_grows T (deploymentChecker p d) _ _ anyCaches); [done|exact Hg|]. by apply Hrec.
Qed.

Lemma versionLoop_ok T p l nd done_ ds v c : consistent T p c → timely T → 0 < MinerConfirmationWindow_ p < 2 ^ 29 →
  heap_ (bc c) !! l = Some nd → height nd + 1 < 2 ^ 31 → Deployments p = done_ ++ ds →
  (∀ i d, index (Deployments p) i = Done d → zlen done_ ≤ i → window_ok d ∧ recent T p c i d (hash nd) (height nd)) →
  ∃ c', versionLoop p (Some l) (zlen done_) ds v c =
      Done (inl (foldl (fun v d => versionBit T p (hash nd) d v) v ds), c') ∧
    consistent T p c' ∧ grows (bc c) (bc c').
Proof.
  intros Hcon Htime HW. revert done_ v c nd Hcon.
  induction ds as [|d ds IH]; intros done_ v c nd Hcon Hl Hh Eds Hall.
  { exists c. split_and!; [done..|reflexivity]. }
  assert (index (Deployments p) (zlen done_) = Done d) as Hd.
  { unfold index. rewrite decide_True by apply zlen_nonneg. unfold zlen. by rewrite Nat2Z.id, Eds, list_lookup_middle. }
  destruct (Hall _ _ Hd ltac:(lia)) as [Hwin Hrec].
  destruct (deployment_ok T p c l nd (zlen done_) d Hcon Htime HW Hl Hh Hd Hwin Hrec) as (c1 & E & Hcon1 & Hev).
  destruct (proj1 (proj1 Hev) l nd Hl) as (nd1 & Hl1 & Ed & _). apply set_parent_data in Ed as (Eh & Ehh & _).
  destruct (IH (done_ ++ [d]) (versionBit T p (hash nd) d v) c1 nd1 Hcon1 Hl1) as (c2 & E2 & Hcon2 & Hg2).
  - lia.
  - by rewrite <-app_assoc.
  - intros i d' Hi Hle. rewrite zlen_app, zlen_cons in Hle. change (@zlen ConsensusDeployment []) with 0 in Hle.
    destruct (Hall i d' Hi ltac:(lia)) as [H1 H2]. split; [done|]. rewrite Eh, Ehh.
    eapply recent_evolves; [apply Hcon1|exact Hev|lia|done].
  - exists c2. split; [|split; [done|etransitivity; [apply Hev|done]]]. cbn [versionLoop foldl].
    unfold mbind, io_bind. rewrite E. rewrite zlen_app, Eh in E2. exact E2.
Qed.

Lemma version_ok (T : tree) (p : Params) (c : chain) (l : loc) (nd : blockNode) :
  consistent T p c → timely T → 0 < MinerConfirmationWindow_ p < 2 ^ 29 →
  heap_ (bc c) !! l = Some nd → height nd + 1 < 2 ^ 31 →
  (∀ i d, index (Deployments p) i = Done d → window_ok d ∧ recent T p c i d (hash nd) (height nd)) →
  ∃ c', calcNextBlockVersion p (Some l) c = Done (inl (refVersion T p (hash nd)), c') ∧
    consistent T p c' ∧ grows (bc c) (bc c').
Proof.
  intros Hcon Htime HW Hl Hh Hall.
  destruct (versionLoop_ok T p l nd [] (Deployments p) vbTopBits c Hcon Htime HW Hl Hh eq_refl) as (c' & E & H).
  { intros i d Hi _. by apply Hall. }
  exists c'. split; [|done]. unfold calcNextBlockVersion, mbind, io_bind.
  change (zlen []) with 0 in E. rewrite E. done.
Qed.

(** The version of the next block signals exactly the
    deployments that are being voted on: in a consistent chain
    [calcNextBlockVersion] returns the top bits 001 and the bit of every
    deployment whose BIP 9 state on the block tree is started or locked in, and
    keeps the chain and its caches right. *)
Theorem version_refines (T : tree) (p : Params) (c : chain) (l : loc) (nd : blockNode) :
  consistent T p c → timely T → 0 < MinerConfirmationWindow_ p < 2 ^ 29 →
  heap_ (bc c) !! l = Some nd → height nd + 1 < 2 ^ 31 →
  (∀ i d, index (Deployments p) i = Done d → window_ok d ∧ recent T p c i d (hash nd) (height nd)) →
  ∃ c', calcNextBlockVersion p (Some l) c = Done (inl (refVersion T p (hash nd)), c') ∧
    consistent T p c' ∧ grows (bc c) (bc c').
Proof. apply version_ok. Qed.

(** ** The state machine *)

(** The moves BIP 9 allows at the end of a window *)
Inductive bip9step : ThresholdState → ThresholdState → Prop :=
| step_stay s : bip9step s s
| step_start : bip9step ThresholdDefined ThresholdStarted
| step_never_started : bip9step ThresholdDefined ThresholdFailed
| step_lock_in : bip9step ThresholdStarted ThresholdLockedIn
| step_expire : bip9step ThresholdStarted ThresholdFailed
| step_activate : bip9step ThresholdLockedIn ThresholdActive.

#[local] Hint Constructors bip9step : core.

Lemma io_bind_Done {A B} (x : M A) (k : A → M B) c b c' : (x ≫= k) c = Done (inl b, c') →
  ∃ a c1, x c = Done (inl a, c1) ∧ k a c1 = Done (inl b, c').
Proof. unfold mbind, io_bind. destruct (x c) as [[[a|e] c1]| |]; try done. by exists a, c1. Qed.

(** Whatever the checker answers, a window moves a deployment only
    along the edges of the BIP 9 state machine; activation is reached only from
    locked in, and active and failed are final and read nothing but the state. *)
Theorem transition_edges (s s' : ThresholdState) (l : loc) (checker : thresholdConditionChecker) (W : Z) (c c' : chain) :
  thresholdStateTransition s l checker W c = Done (inl s', c') →
  bip9step s s' ∧ (s = ThresholdActive ∨ s = ThresholdFailed → s' = s ∧ c' = c).
Proof.
  unfold thresholdStateTransition. rewrite get_bind. intros E.
  destruct s; try (injection E as <- <-; split; [apply step_stay|by intros _]);
    (split; [|by intros [?|?]]).
  - apply io_bind_Done in E as ([] & c1 & _ & E); [injection E as <- _; auto|].
    apply io_bind_Done in E as ([] & c2 & _ & E); injection E as <- _; auto.
  - apply io_bind_Done in E as ([] & c1 & _ & E); [injection E as <- _; auto|].
    apply io_bind_Done in E as (n & c2 & _ & E). destruct (_ <=? n); [injection E as <- _; auto|].
    rewrite get_bind in E. apply io_bind_Done in E as ([] & c3 & _ & E); injection E as <- _; auto.
  - apply io_bind_Done in E as ([] & c1 & _ & E); injection E as <- _; auto.
Qed.

(** No path of such moves leads from failed to active or out of active. *)
Lemma bip9_final s s' : rtc bip9step s s' → s = ThresholdActive ∨ s = ThresholdFailed → s' = s.
Proof. induction 1 as [s|s t u Hst _ IH]; [done|]. intros [-> | ->]; inversion Hst; subst; auto. Qed.

(** *** Every vote ends *)

Definition final (s : ThresholdState) : Prop := s = ThresholdActive ∨ s = ThresholdFailed.

(** Two windows and the last one of a chain, with the states after each *)
Lemma settle_step T rc W s hs :
  rEnded rc hs = true → rStarted rc hs = true → (rSpeedy rc = false → rEligible rc hs = true) →
  let s' := refTransition T rc W s hs in
  (s = ThresholdDefined → s' = ThresholdStarted ∨ final s') ∧
  (s = ThresholdStarted → s' = ThresholdLockedIn ∨ final s') ∧
  (s = ThresholdLockedIn → s' = ThresholdLockedIn ∨ final s') ∧ (final s → final s').
Proof.
  intros He Hs Hel s'. subst s'. unfold final.
  destruct s; cbn [refTransition]; rewrite ?He, ?Hs; destruct (rSpeedy rc); cbn [negb andb];
    try (destruct (rThreshold rc <=? _)); try destruct (rEligible rc hs); intuition congruence.
Qed.

Lemma eligible_not_speedy T p d hs x : T !! hs = Some x → rSpeedy (deploymentRef T p d) = false →
  rEligible (deploymentRef T p d) hs = true.
Proof.
  cbn. intros ->. destruct (MinActivationHeight d =? 0); [done|]. by rewrite orb_true_l.
Qed.

Lemma treeWalk_add T n m a b : treeWalk T n a = Some b → treeWalk T (n + m) a = treeWalk T m b.
Proof.
  revert a. induction n as [|n IH]; intros a; cbn [treeWalk Nat.add]; [by intros [= ->]|].
  destruct (T !! a); [|done]. cbn. apply IH.
Qed.

(** Every vote with an end comes to a decision: once the clock
    has passed the end time, a deployment is active or failed after at most three
    windows (and at its minimum activation height, if it has one), and no later
    window changes it. *)
Theorem deployment_settles (T : tree) (p : Params) (d : ConsensusDeployment) (k : nat) (p2 p1 hs : hash_t) (x : Wire.BlockHeader * Z) (stop : Z) :
  tree_ok T → timely T → window_ok d → 0 < MinerConfirmationWindow_ p →
  endTime (DeploymentEnder d) = Some stop →
  treeWalk T (Z.to_nat (MinerConfirmationWindow_ p)) hs = Some p1 →
  treeWalk T (Z.to_nat (MinerConfirmationWindow_ p)) p1 = Some p2 → is_Some (T !! p2) → T !! hs = Some x →
  stop ≤ treeMTP T p2 → MinActivationHeight d ≤ x.2 + 1 →
  let s := windowState T (deploymentRef T p d) (MinerConfirmationWindow_ p) (S (S (S k))) hs in
  (s = ThresholdActive ∨ s = ThresholdFailed) ∧
  ∀ later, refTransition T (deploymentRef T p d) (MinerConfirmationWindow_ p) s later = s.
Proof.
  intros HT Htime Hwin HW Hend H1 H2 [x2 Hx2] Hx Hstop Hmin s.
  set (W := MinerConfirmationWindow_ p) in *. set (rc := deploymentRef T p d) in *.
  assert (∀ a n y, treeWalk T n a = Some p2 → T !! a = Some y →
    rEnded rc a = true ∧ rStarted rc a = true ∧ (rSpeedy rc = false → rEligible rc a = true)) as Hat.
  { intros a n y Hw Hy. pose proof (treeMTP_walk T n a p2 x2 HT Htime Hw Hx2) as Hle.
    assert (rEnded rc a = true) as He by (cbn; rewrite Hy, Hend; apply Z.leb_le; lia).
    split; [done|]. split; [by apply deploymentRef_end|by eapply eligible_not_speedy]. }
  destruct (T !! p1) as [x1|] eqn:Hx1.
  2: { exfalso. replace (Z.to_nat W) with (S (Z.to_nat (W - 1))) in H2 by lia. cbn [treeWalk] in H2. by rewrite Hx1 in H2. }
  assert (treeWalk T (Z.to_nat W + Z.to_nat W) hs = Some p2) as H12.
  { by rewrite (treeWalk_add _ _ _ _ _ H1). }
  destruct (Hat p2 0%nat x2 eq_refl Hx2) as (E2 & S2 & L2). destruct (Hat p1 _ x1 H2 Hx1) as (E1 & S1 & L1).
  destruct (Hat hs _ x H12 Hx) as (E0 & S0 & L0).
  assert (final s) as Hs; [|split; [done|]; intros later; by destruct Hs as [-> | ->]].
  assert (rEligible rc hs = true) as Hel.
  { cbn. rewrite Hx. apply orb_true_iff. right. by apply Z.leb_le. }
  subst s. remember (S k) as k1. cbn [windowState]. rewrite H1. subst k1. remember k as k0.
  cbn [windowState]. rewrite H2. fold (windowState T rc W).
  set (s0 := match treeWalk T (Z.to_nat W) p2 with Some q => windowState T rc W k0 q | None => ThresholdDefined end).
  destruct (settle_step T rc W s0 p2 E2 S2 L2) as (A1 & A2 & A3 & A4).
  set (s1 := refTransition T rc W s0 p2) in *.
  destruct (settle_step T rc W s1 p1 E1 S1 L1) as (B1 & B2 & B3 & B4).
  set (s2 := refTransition T rc W s1 p1) in *.
  assert (s2 = ThresholdLockedIn ∨ final s2) as [Hs2|Hs2].
  { assert (s1 = ThresholdStarted ∨ s1 = ThresholdLockedIn ∨ final s1) as [?|[?|?]]; [|auto..].
    unfold final in *. destruct s0; intuition congruence. }
  - rewrite Hs2. cbn [refTransition]. rewrite Hel. by left.
  - unfold final in *. by destruct Hs2 as [-> | ->]; cbn; auto.
Qed.

(** ** The version bits of the network *)

(** Bit 30 is one of the three top bits, which are 001 in a block that votes. *)
Lemma dummy_no_votes v : deploymentCondition (deployment 30 0 0 None None) v = false.
Proof.
  unfold deploymentCondition. cbn [BitNumber deployment]. destruct (Z.eqb_spec (Z.land (u32 v) vbTopMask) vbTopBits) as [E|]; [|done].
  cbn [andb]. apply negb_false_iff, Z.eqb_eq. change (u32 (Z.shiftl 1 30)) with (2 ^ 30). rewrite land_pow2 by lia.
  assert (Z.testbit (Z.land (u32 v) vbTopMask) 30 = Z.testbit vbTopBits 30) as Hb by (by rewrite E).
  rewrite Z.land_spec in Hb. change (Z.testbit vbTopMask 30) with true in Hb. change (Z.testbit vbTopBits 30) with false in Hb.
  rewrite andb_true_r in Hb. by rewrite Hb.
Qed.

Lemma dummy_votes T p n hs : refVotes T (deploymentRef T p (deployment 30 0 0 None None)) n hs = 0.
Proof.
  revert hs. induction n as [|n IH]; intros hs; [done|]. cbn [refVotes].
  destruct (T !! hs) as [x|] eqn:E; [|done]. rewrite IH. cbn [rCond deploymentRef]. by rewrite E, dummy_no_votes.
Qed.

Lemma treeWalk_height T n a x : tree_ok T → T !! a = Some x → Z.of_nat n ≤ x.2 →
  ∃ b y, treeWalk T n a = Some b ∧ T !! b = Some y ∧ y.2 = x.2 - Z.of_nat n.
Proof.
  intros HT. revert a x. induction n as [|n IH]; intros a x Ha Hn; [exists a, x; split_and!; [done..|lia]|].
  cbn [treeWalk]. rewrite Ha. cbn. destruct (proj2 HT _ _ Ha) as [_ Hp]. destruct (Z.eqb_spec x.2 0); [lia|].
  destruct Hp as [hd Hp]. destruct (IH _ _ Hp) as (b & y & H1 & H2 & H3); [cbn; lia|].
  exists b, y. split_and!; [done..|]. cbn in H3. lia.
Qed.

Lemma windowState_S T rc W k hs : windowState T rc W (S k) hs = refTransition T rc W
  (match treeWalk T (Z.to_nat W) hs with Some p => windowState T rc W k p | None => ThresholdDefined end) hs.
Proof. done. Qed.

Lemma dummy_started T p k hs x : tree_ok T → 0 < RuleChangeActivationThreshold_ p → 0 < MinerConfirmationWindow_ p →
  T !! hs = Some x → x.2 = Z.of_nat (S k) * MinerConfirmationWindow_ p - 1 →
  windowState T (deploymentRef T p (deployment 30 0 0 None None)) (MinerConfirmationWindow_ p) (S k) hs = ThresholdStarted.
Proof.
  intros HT Ht HW. revert hs x. induction k as [|k IH]; intros hs x Hx Hh; rewrite windowState_S.
  - assert (∀ s, s = ThresholdDefined → refTransition T (deploymentRef T p (deployment 30 0 0 None None))
      (MinerConfirmationWindow_ p) s hs = ThresholdStarted) as H by (intros ? ->; cbn; by rewrite Hx).
    apply H. by destruct (treeWalk _ _ _).
  - destruct (treeWalk_height T (Z.to_nat (MinerConfirmationWindow_ p)) hs x HT Hx) as (b & y & Hw & Hy & Ehy); [nia|].
    rewrite Hw, (IH b y Hy) by nia. cbn [refTransition]. rewrite dummy_votes. cbn. rewrite Hx.
    destruct (Z.leb_spec (RuleChangeActivationThreshold_ p) 0); [lia|done].
Qed.

Lemma i32_bit z k : 0 ≤ k < 31 → Z.testbit (i32 z) k = Z.testbit z k.
Proof.
  intros Hk. rewrite <-(Z.mod_pow2_bits_low _ 31 k), <-(Z.mod_pow2_bits_low z 31 k) by lia. f_equal.
  unfold swrap. zdm.
Qed.

(** The deployments of the main network, with any window and threshold *)
Definition sugarParams (threshold W : Z) : Params :=
  {| RuleChangeActivationThreshold_ := threshold; MinerConfirmationWindow_ := W;
     Deployments := Deployments SugarMainNetParams |}.

Lemma sugar_refVersion T threshold W hs hd g : tree_ok T → T !! hs = Some (hd, g) → 0 < W → 0 < threshold →
  W ≤ g + 1 → Z.testbit (refVersion T (sugarParams threshold W) hs) 30 = true.
Proof.
  intros HT Hhs HW Ht Hg. destruct (proj2 HT _ _ Hhs) as [Hr _]. cbn in Hr. set (p := sugarParams threshold W).
  assert (refState T (deploymentRef T p (deployment 30 0 0 None None)) W hs = ThresholdStarted) as Hst.
  { unfold refState. cbn [rForce deploymentRef]. rewrite Hhs. cbn [snd].
    change (EffectiveAlwaysActiveHeight (deployment 30 0 0 None None)) with (2 ^ 32 - 1).
    destruct (Z.leb_spec (2 ^ 32 - 1) (g + 1)); [zlia|].
    pose proof (Z.mod_pos_bound (g + 1) W HW) as Hm. pose proof (Z.div_mod (g + 1) W ltac:(lia)) as Hdm.
    assert (1 ≤ (g + 1) / W) by (apply Z.div_le_lower_bound; lia).
    destruct (treeWalk_height T (Z.to_nat ((g + 1) `mod` W)) hs (hd, g) HT Hhs) as (b & y & -> & Hy & Ehy); [cbn; nia|].
    cbn [snd] in Ehy. replace (Z.to_nat ((g + 1) / W)) with (S (Z.to_nat ((g + 1) / W - 1))) by lia.
    apply (dummy_started T p _ b y); [done..|]. cbn [MinerConfirmationWindow_ p sugarParams].
    rewrite Nat2Z.inj_succ, Z2Nat.id by lia. rewrite Ehy, Z2Nat.id by lia. nia. }
  assert (∃ v, refVersion T p hs = i32 (Z.lor v (2 ^ 30))) as [v Ev].
  { unfold refVersion. cbn [Deployments p sugarParams SugarMainNetParams foldl]. eexists. unfold versionBit at 1.
    cbn [MinerConfirmationWindow_ p sugarParams]. rewrite Hst. reflexivity. }
  rewrite Ev, i32_bit, Z.lor_spec by lia. change (Z.testbit (2 ^ 30) 30) with true. apply orb_true_r.
Qed.

Lemma bit30_no_vote d v : Z.testbit v 30 = true → deploymentCondition d v = false.
Proof.
  intros Hv. unfold deploymentCondition. apply andb_false_iff. left. apply Z.eqb_neq. intros E.
  assert (Z.testbit (Z.land (u32 v) vbTopMask) 30 = true) as Hb; [|by rewrite E in Hb].
  rewrite Z.land_spec. unfold uwrap. rewrite Z.mod_pow2_bits_low by lia. by rewrite Hv.
Qed.

(** The version expected on this network never votes: its
    "always active" deployment uses bit 30, which belongs to the three top bits,
    and, having no activation height, stays under vote for ever.  So the version
    that [calcNextBlockVersion] returns for every block after the first window has
    the top bits 011, and no deployment counts a block that carries it. *)
Theorem sugar_version_never_votes (threshold W : Z) (T : tree) (c : chain) (l : loc) (nd : blockNode) :
  consistent T (sugarParams threshold W) c → timely T → 0 < W < 2 ^ 29 → 0 < threshold →
  heap_ (bc c) !! l = Some nd → W ≤ height nd + 1 < 2 ^ 31 →
  (∀ i d, index (Deployments SugarMainNetParams) i = Done d →
     recent T (sugarParams threshold W) c i d (hash nd) (height nd)) →
  ∃ v c', calcNextBlockVersion (sugarParams threshold W) (Some l) c = Done (inl v, c') ∧
    Z.testbit v 30 = true ∧ ∀ d, deploymentCondition d v = false.
Proof.
  intros Hcon Htime HW Ht Hl Hh Hrec. destruct (co_heap _ _ (proj1 Hcon) l nd Hl) as [HT _].
  destruct (version_ok T (sugarParams threshold W) c l nd Hcon Htime HW Hl (proj2 Hh)) as (c' & E & _).
  { intros i d Hi. split; [|by apply Hrec]. unfold index in Hi. destruct (decide _); [|done].
    cbn [Deployments sugarParams SugarMainNetParams] in Hi.
    revert Hi. generalize (Z.to_nat i) as n. intros n Hi.
    do 6 (destruct n as [|n]; [injection Hi as <-; cbn; lia|]). done. }
  pose proof (sugar_refVersion T threshold W _ _ _ (co_tree _ _ (proj1 Hcon)) HT (proj1 HW) Ht (proj1 Hh)) as Hb.
  exists (refVersion T (sugarParams threshold W) (hash nd)), c'. split; [done|]. split; [done|].
  intros d. by apply bit30_no_vote.
Qed.

(** ** Concrete chains *)

Fixpoint completeb (T : tree) (h : heap) (n : nat) (l : loc) : bool :=
  match h !! l with
  | None => false
  | Some nd =>
      bool_decide (T !! hash nd = Some (Header nd, height nd)) &&
      match n with
      | O => true
      | S n =>
          match parent nd with
          | Some p => node_ofb h (parentHash nd) p && completeb T h n p
          | None => bool_decide (T !! parentHash nd = None)
          end
      end
  end.

Lemma completeb_sound T h n l : completeb T h n l = true → complete T h n l.
Proof.
  revert l. induction n as [|n IH]; intros l; cbn [completeb]; (destruct (h !! l) as [nd|] eqn:E; [|done]);
    intros [H1%bool_decide_eq_true_1 H2]%andb_true_iff; exists nd; split; [done|split; [done|done]|done|split; [done|]].
  destruct (parent nd) as [p|]; [|by apply bool_decide_eq_true_1 in H2].
  apply andb_true_iff in H2 as [H2 H3]. split; [apply node_ofb_sound; by rewrite H2|by apply IH].
Qed.

Definition timedb (T : tree) (b : BlockChain) (hs : hash_t) : bool :=
  match T !! hs with
  | None => false
  | Some x => match index_ b !! Wire.PrevBlock x.1 with Some p => completeb T (heap_ b) 10 p | None => false end
  end.

Definition nearb (T : tree) (d : ConsensusDeployment) (b : BlockChain) (hs : hash_t) : bool :=
  (bool_decide (startTime (DeploymentStarter d) = None) && bool_decide (endTime (DeploymentEnder d) = None)) ||
  timedb T b hs.

Lemma nearb_sound T d b hs : nearb T d b hs = true → deploymentNear T d b hs.
Proof.
  unfold nearb, timedb. intros [[H1%bool_decide_eq_true_1 H2%bool_decide_eq_true_1]%andb_true_iff|H]%orb_true_iff; [by left|].
  right. destruct (T !! hs) as [[hd g]|] eqn:E; [|done]. cbn in H.
  destruct (index_ b !! Wire.PrevBlock hd) as [p|] eqn:Ei; [|done]. exists hd, g, p. split_and!; [done..|].
  by apply completeb_sound.
Qed.

Fixpoint reachb (T : tree) (p : Params) (d : ConsensusDeployment) (b : BlockChain) (m : thresholdStateCache)
    (n : nat) (hs : hash_t) : bool :=
  bool_decide (is_Some (m !! hs)) ||
  nearb T d b hs &&
    (negb (rStarted (deploymentRef T p d) hs) ||
     match T !! hs with Some x => x.2 <? MinerConfirmationWindow_ p | None => false end ||
     match n with
     | O => false
     | S n => match treeWalk T (Z.to_nat (MinerConfirmationWindow_ p)) hs with
              | Some q => reachb T p d b m n q | None => false end
     end).

Lemma reachb_sound T p d b m n hs : reachb T p d b m n hs = true →
  reach T (deploymentRef T p d) (deploymentNear T d) (MinerConfirmationWindow_ p) b m n hs.
Proof.
  revert hs. induction n as [|n IH]; intros hs; cbn [reachb reach];
    (intros [H%bool_decide_eq_true_1|[H1%nearb_sound [[H|H]%orb_true_iff|H]%orb_true_iff]%andb_true_iff]%orb_true_iff;
     [by left|right; split; [done|left; by apply negb_true_iff in H]|right; split; [done|right; left]|right; split; [done|right; right]]);
    try done; try (destruct (T !! hs) as [x|]; [|done]; exists x; split; [done|by apply Z.ltb_lt in H]).
  destruct (treeWalk T _ hs) as [q|]; [|done]. exists q. auto.
Qed.

Definition recentb (T : tree) (p : Params) (c : chain) (i : Z) (d : ConsensusDeployment) (hs : hash_t) (g : Z) : bool :=
  match treeWalk T (Z.to_nat ((g + 1) `mod` MinerConfirmationWindow_ p)) hs, deploymentCaches c !! Z.to_nat i with
  | Some e, Some m => reachb T p d (bc c) m 3 e
  | _, _ => false
  end.

Lemma recentb_sound T p c i d hs g : recentb T p c i d hs g = true → recent T p c i d hs g.
Proof.
  unfold recentb. intros H e m He Hm. rewrite He in H. unfold cacheAt, index in Hm. cbn [caches slot] in Hm.
  destruct (decide (0 ≤ i)); [|done]. destruct (deploymentCaches c !! Z.to_nat i); [|done]. injection Hm as ->.
  by apply reachb_sound.
Qed.

Definition skip_okb (h : heap) : bool :=
  forallb (fun x => match ancestor x.2 with
                    | None => true
                    | Some a => (0 <? height x.2) &&
                        bool_decide (walk h (Z.to_nat (height x.2 - getAncestorHeight (height x.2))) x.1 = Some a)
                    end) (map_to_list h).

Lemma skip_okb_sound h : skip_okb h = true → skip_ok h.
Proof.
  unfold skip_okb. rewrite forallb_forall. intros H l nd a Hl Ha.
  specialize (H (l, nd) ltac:(by apply list_elem_of_In, elem_of_map_to_list)). cbn in H. rewrite Ha in H.
  apply andb_true_iff in H as [H1%Z.ltb_lt H2%bool_decide_eq_true_1]. done.
Qed.

Definition timelyb (T : tree) : bool :=
  forallb (fun x => (x.2.2 <=? 0) || (treeMTP T (Wire.PrevBlock x.2.1) <? Wire.Timestamp x.2.1)) (map_to_list T).

Lemma timelyb_sound T : timelyb T = true → timely T.
Proof.
  unfold timelyb. rewrite forallb_forall. intros H hs hd g HT Hg.
  specialize (H (hs, (hd, g)) ltac:(by apply list_elem_of_In, elem_of_map_to_list)). cbn in H.
  apply orb_true_iff in H as [H%Z.leb_le|H%Z.ltb_lt]; [lia|done].
Qed.

Definition cache_rightb (T : tree) (p : Params) (d : ConsensusDeployment) (m : thresholdStateCache) : bool :=
  let W := MinerConfirmationWindow_ p in
  forallb (fun x => match T !! x.1 with
                    | None => false
                    | Some y => ((y.2 + 1) `mod` W =? 0) &&
                        bool_decide (x.2 = windowState T (deploymentRef T p d) W (Z.to_nat ((y.2 + 1) / W)) x.1)
                    end) (map_to_list m).

Lemma cache_rightb_sound T p d m : 0 < MinerConfirmationWindow_ p → tree_ok T → cache_rightb T p d m = true →
  cache_right T (deploymentRef T p d) (MinerConfirmationWindow_ p) m.
Proof.
  intros HW HT. unfold cache_rightb. rewrite forallb_forall. intros H hs s Hs.
  specialize (H (hs, s) ltac:(by apply list_elem_of_In, elem_of_map_to_list)). cbn [fst snd] in H.
  destruct (T !! hs) as [[hd g]|] eqn:E; [|done]. cbn [snd] in H. apply andb_true_iff in H as [H1%Z.eqb_eq H2%bool_decide_eq_true_1].
  exists hd, (Z.to_nat ((g + 1) / MinerConfirmationWindow_ p)). split; [|done]. do 2 f_equal.
  destruct (proj2 HT _ _ E) as [Hr _]. cbn in Hr. pose proof (Z.div_mod (g + 1) (MinerConfirmationWindow_ p) ltac:(lia)).
  rewrite Z2Nat.id by (apply Z.div_pos; lia). nia.
Qed.

Definition caches_rightb (T : tree) (p : Params) (c : chain) : bool :=
  (length (Deployments p) =? length (deploymentCaches c))%nat &&
  forallb (fun x => cache_rightb T p x.1 x.2) (zip (Deployments p) (deploymentCaches c)).

Lemma caches_rightb_sound T p c : 0 < MinerConfirmationWindow_ p → tree_ok T → caches_rightb T p c = true →
  caches_right T p c.
Proof.
  intros HW HT [Hlen%Nat.eqb_eq H]%andb_true_iff i d Hd. rewrite forallb_forall in H. unfold index in Hd.
  destruct (decide (0 ≤ i)) as [Hi|]; [|done]. destruct (Deployments p !! Z.to_nat i) as [d'|] eqn:Ed; [|done].
  injection Hd as ->. pose proof (lookup_lt_Some _ _ _ Ed) as Hlt.
  destruct (lookup_lt_is_Some_2 (deploymentCaches c) (Z.to_nat i)) as [m Hm]; [lia|]. exists m.
  split; [unfold cacheAt, index; cbn; by rewrite decide_True, Hm by done|].
  apply cache_rightb_sound; [done..|]. apply (H (d, m)). apply list_elem_of_In, list_elem_of_lookup. exists (Z.to_nat i).
  rewrite lookup_zip_with, Ed. cbn. by rewrite Hm.
Qed.

(** *** A chain of voting blocks

    Blocks 5 seconds apart that signal bit 0; windows of 4 blocks. *)

Definition voteNode (i : Z) : blockNode :=
  {| parent := parent (toyNode i); parentHash := parentHash (toyNode i); ancestor := ancestor (toyNode i);
     hash := hash (toyNode i); workSum := i + 1; height := i; version := 0x20000001; bits := 0x1f3fffff;
     nonce := 0; timestamp := 1565881200 + 5 * i; merkleRoot := toyHash 0; status := 0 |}.

Definition voteTree (n : Z) : tree :=
  list_to_map ((fun i => (toyHash i, (Header (voteNode i), i))) <$> seqZ 0 n).

Definition voteStore (d : database) (i : Z) : database :=
  match storeNode d (voteNode i) with
  | Done d' => dbPutHeightIndex d' i (toyHash i)
  | _ => d
  end.

Definition voteDB (n : Z) : database := foldl voteStore emptyDB (seqZ 0 n).

(** The last [w] of [n] blocks are in memory; links below them are cut. *)
Definition windowNode (lo i : Z) : blockNode :=
  let nd := if i =? lo then set_parent None (voteNode i) else voteNode i in
  if lo <=? getAncestorHeight i then nd else set_ancestor None nd.

Definition voteChain (n w : Z) (cs : list thresholdStateCache) : chain :=
  let ixs := seqZ (n - w) w in
  {| bc := {| heap_ := list_to_map ((fun i => (toyLoc i, windowNode (n - w) i)) <$> ixs);
              index_ := list_to_map ((fun i => (toyHash i, toyLoc i)) <$> ixs);
              coldCache := newColdNodeCache;
              bestChain := {| ChainView.nodes := (fun i => Some (toyLoc i)) <$> ixs; ChainView.base := n - w |};
              db := Some (voteDB n); headerWindow := w |};
     deploymentCaches := cs; warningCaches := replicate 29 ∅; unknownRulesWarned := false |}.

(** A vote that starts when the median time of the blocks reaches that of block 14 *)
Definition voteParams : Params :=
  {| RuleChangeActivationThreshold_ := 3; MinerConfirmationWindow_ := 4;
     Deployments := [deployment 0 0 0 (Some (1565881200 + 5 * 14)) None] |}.

Lemma voteChain_ok n w p cs : 0 < MinerConfirmationWindow_ p →
  chain_okb (voteTree n) (bc (voteChain n w cs)) && skip_okb (heap_ (bc (voteChain n w cs))) &&
  caches_rightb (voteTree n) p (voteChain n w cs) && timelyb (voteTree n) = true →
  consistent (voteTree n) p (voteChain n w cs) ∧ timely (voteTree n).
Proof.
  intros HW [[[H1%chain_okb_sound H2%skip_okb_sound]%andb_true_iff H3]%andb_true_iff H4%timelyb_sound]%andb_true_iff.
  split; [|done]. split_and!; [done..|]. apply caches_rightb_sound; [done| |done]. apply (co_tree _ _ H1).
Qed.

(** Blocks 10 to 29 are in memory, the state of the window ending with block 19 is
    cached; the next two windows lock the vote in and activate it. *)
Lemma deployment_refines_witness :
  let c := voteChain 30 20 [{[ toyHash 19 := ThresholdStarted ]}] in
  ∃ c', deploymentState voteParams (Some (toyLoc 29)) 0 c = Done (inl ThresholdActive, c') ∧
    consistent (voteTree 30) voteParams c'.
Proof.
  intros c. destruct (voteChain_ok 30 20 voteParams [{[ toyHash 19 := ThresholdStarted ]}]) as [H1 H2];
    [reflexivity|vm_compute; reflexivity|].
  destruct (deployment_refines (voteTree 30) voteParams c (toyLoc 29) (windowNode 10 29) 0
    (deployment 0 0 0 (Some (1565881200 + 5 * 14)) None) H1 H2) as (c' & E & Hc & _);
    [split; reflexivity|vm_compute; reflexivity|reflexivity|reflexivity|exact I|apply recentb_sound; vm_compute; reflexivity|].
  exists c'. split; [|exact Hc]. rewrite E. vm_compute. reflexivity.
Defined.

Lemma version_refines_witness :
  let c := voteChain 30 20 [{[ toyHash 19 := ThresholdStarted ]}] in
  ∃ c', calcNextBlockVersion voteParams (Some (toyLoc 25)) c = Done (inl 0x20000001, c') ∧
    consistent (voteTree 30) voteParams c'.
Proof.
  intros c. destruct (voteChain_ok 30 20 voteParams [{[ toyHash 19 := ThresholdStarted ]}]) as [H1 H2];
    [reflexivity|vm_compute; reflexivity|].
  destruct (version_refines (voteTree 30) voteParams c (toyLoc 25) (windowNode 10 25) H1 H2) as (c' & E & Hc & _);
    [split; reflexivity|vm_compute; reflexivity|reflexivity| |].
  { intros i d Hd. unfold index in Hd. destruct (decide (0 ≤ i)) as [Hi|]; [|discriminate].
    destruct (Z.to_nat i) as [|n] eqn:En; [|discriminate]. injection Hd as <-. assert (i = 0) as -> by lia.
    split; [exact I|]. apply recentb_sound. vm_compute. reflexivity. }
  exists c'. split; [|exact Hc]. rewrite E. vm_compute. reflexivity.
Defined.

Lemma transition_edges_witness :
  let c := voteChain 30 20 [∅] in let ck := deploymentChecker voteParams (deployment 0 0 0 None None) in
  ∃ c', thresholdStateTransition ThresholdStarted (toyLoc 23) ck 4 c = Done (inl ThresholdLockedIn, c') ∧
    bip9step ThresholdStarted ThresholdLockedIn.
Proof.
  intros c ck.
  assert (match thresholdStateTransition ThresholdStarted (toyLoc 23) ck 4 c with
    | Done (inl s, _) => bool_decide (s = ThresholdLockedIn) | _ => false end = true) as H by (vm_compute; reflexivity).
  destruct (thresholdStateTransition ThresholdStarted (toyLoc 23) ck 4 c) as [[[s|e] c']| |] eqn:E; [|discriminate H..].
  apply bool_decide_eq_true_1 in H as ->.
  exists c'. split; [reflexivity|]. exact (proj1 (transition_edges _ _ _ _ _ _ _ E)).
Defined.

(** A vote on a bit nobody signals, that ends with the median time of block 14 *)
Definition expiring : ConsensusDeployment := deployment 1 0 0 (Some 1565881200) (Some (1565881200 + 5 * 14)).

Lemma deployment_settles_witness :
  let rc := deploymentRef (voteTree 30) voteParams expiring in
  windowState (voteTree 30) rc 4 7 (toyHash 27) = ThresholdFailed ∧
  ∀ later, refTransition (voteTree 30) rc 4 ThresholdFailed later = ThresholdFailed.
Proof.
  intros rc. assert (windowState (voteTree 30) rc 4 7 (toyHash 27) = ThresholdFailed) as E by (vm_compute; reflexivity).
  split; [exact E|]. rewrite <-E.
  refine (proj2 (deployment_settles (voteTree 30) voteParams expiring 4 (toyHash 19) (toyHash 23) (toyHash 27)
    (Header (voteNode 27), 27) (1565881200 + 5 * 14) _ _ _ _ _ _ _ _ _ _ _)).
  - apply tree_okb_sound. vm_compute. reflexivity.
  - apply timelyb_sound. vm_compute. reflexivity.
  - vm_compute. discriminate.
  - reflexivity.
  - reflexivity.
  - vm_compute. reflexivity.
  - vm_compute. reflexivity.
  - vm_compute. eexists. reflexivity.
  - vm_compute. reflexivity.
  - vm_compute. discriminate.
  - vm_compute. discriminate.
Defined.

Lemma sugar_version_never_votes_witness :
  let c := voteChain 14 14 (replicate 6 ∅) in
  ∃ v c', calcNextBlockVersion (sugarParams 3 4) (Some (toyLoc 13)) c = Done (inl v, c') ∧ Z.testbit v 30 = true.
Proof.
  intros c. destruct (voteChain_ok 14 14 (sugarParams 3 4) (replicate 6 ∅)) as [H1 H2];
    [reflexivity|vm_compute; reflexivity|].
  destruct (sugar_version_never_votes 3 4 (voteTree 14) c (toyLoc 13) (windowNode 0 13) H1 H2) as (v & c' & E & Hb & _);
    [split; reflexivity|reflexivity|vm_compute; reflexivity|split; [discriminate|reflexivity]| |].
  { intros i d Hd. unfold index in Hd. destruct (decide (0 ≤ i)) as [Hi|]; [|discriminate].
    apply recentb_sound. assert (Z.of_nat (Z.to_nat i) = i) as Ei by lia. rewrite <-Ei. clear Ei Hi.
    revert Hd. generalize (Z.to_nat i) as n. intros n Hd.
    do 6 (destruct n as [|n]; [injection Hd as <-; vm_compute; reflexivity|]). discriminate. }
  exists v, c'. split; [exact E|exact Hb].
Defined.

(** ** A restart forgets an activation *)

(** The chain of 40 blocks after a restart with a window of 8: the caches are empty. *)
Definition restarted : chain := voteChain 40 8 [∅].

(** An activated rule can be lost at a restart: with a header window,
    the caches start empty, the search for a cached window leaves the blocks in
    memory, and there [HasStarted] drops the error of the clock (the parent of the
    block is not in the in-memory index) and answers "not started", which is
    cached as a state of the deployment.  In this consistent chain, BIP 9 makes the
    deployment active; the node answers that it is not, and keeps a wrong cache. *)
Theorem restart_loses_activation :
  consistent (voteTree 40) voteParams restarted ∧ timely (voteTree 40) ∧
  refState (voteTree 40) (deploymentRef (voteTree 40) voteParams (deployment 0 0 0 (Some (1565881200 + 5 * 14)) None))
    (MinerConfirmationWindow_ voteParams) (toyHash 39) = ThresholdActive ∧
  ∃ c', IsDeploymentActive voteParams 0 restarted = Done (inl false, c') ∧
    (m ← deploymentCaches c' !! 0%nat; m !! toyHash 31) = Some ThresholdDefined ∧
    ¬ caches_right (voteTree 40) voteParams c'.
Proof.
  destruct (voteChain_ok 40 8 voteParams [∅]) as [H1 H2]; [reflexivity|vm_compute; reflexivity|].
  split; [exact H1|]. split; [exact H2|]. split; [vm_compute; reflexivity|].
  assert (match IsDeploymentActive voteParams 0 restarted with
    | Done (inl b, c') => negb b && bool_decide ((m ← deploymentCaches c' !! 0%nat; m !! toyHash 31) = Some ThresholdDefined)
    | _ => false end = true) as H by (vm_compute; reflexivity).
  destruct (IsDeploymentActive voteParams 0 restarted) as [[[b|e] c']| |] eqn:E; [|discriminate H..].
  apply andb_true_iff in H as [Hb Hc%bool_decide_eq_true_1]. destruct b; [done|]. exists c'.
  split; [done|]. split; [done|]. intros Hr.
  destruct (Hr 0 (deployment 0 0 0 (Some (1565881200 + 5 * 14)) None) eq_refl) as (m & Hm & Hright).
  unfold cacheAt, index in Hm. rewrite decide_True in Hm by done. cbn [caches slot] in Hm. change (Z.to_nat 0) with 0%nat in Hm.
  destruct (deploymentCaches c' !! 0%nat) as [m'|]; [|done]. cbn in Hm. injection Hm as ->.
  destruct (Hright _ _ Hc) as (hd & k & HT & Hs).
  assert (voteTree 40 !! toyHash 31 = Some (Header (voteNode 31), 31)) as HT' by (vm_compute; reflexivity).
  rewrite HT' in HT. injection HT as _ Hk. cbn in Hk. assert (k = 8%nat) as -> by lia. vm_compute in Hs. discriminate Hs.
Qed.

End Deployment.
