(* ===== verification/Script.v ===== *)
(** * Script parsing

    Model of the parts of [backend/txscript] that block validation and the UTXO
    set call outside of script execution: the tokenizer of [tokenizer.go] over the
    opcode lengths of [opcode.go], and from [script.go] and [standard.go] the
    unspendable test, witness programs and the signature operation counters.
    Offsets are [int32] as in the code.  [tokens] is the reference: the opcodes of
    a script with their data, as a recursive function on the bytes. *)

From S2P Require Import Prelude Compress.

Module Script.
Import Compress (OP_DATA_20, OP_EQUAL, OP_HASH160, OP_CHECKSIG, byteAt, sub).

(** ** Opcodes *)

Definition OP_0 : Z := 0x00.
Definition OP_DATA_32 : Z := 0x20.
Definition OP_PUSHDATA1 : Z := 0x4c.
Definition OP_PUSHDATA2 : Z := 0x4d.
Definition OP_PUSHDATA4 : Z := 0x4e.
Definition OP_1 : Z := 0x51.
Definition OP_16 : Z := 0x60.
Definition OP_RETURN : Z := 0x6a.
Definition OP_CHECKSIGVERIFY : Z := 0xad.
Definition OP_CHECKMULTISIG : Z := 0xae.
Definition OP_CHECKMULTISIGVERIFY : Z := 0xaf.
Definition OP_INVALIDOPCODE : Z := 0xff.

(** The [length] column of [opcodeArray]: every opcode after [OP_PUSHDATA4] has
    length one. *)
Definition opcodeLength (op : Z) : Z :=
  if op =? OP_0 then 1
  else if op <? OP_PUSHDATA1 then op + 1
  else if op =? OP_PUSHDATA1 then -1
  else if op =? OP_PUSHDATA2 then -2
  else if op =? OP_PUSHDATA4 then -4
  else 1.

(** ** The tokenizer *)

Inductive scriptError := ErrMalformedPush | ErrUnsupportedScriptVersion.

Record ScriptTokenizer := {
  script : list byte;
  version : Z;
  offset : Z;
  opcodePos : Z;
  op : option Z;
  data : list byte;
  err : option scriptError;
}.

Definition MakeScriptTokenizer (scriptVersion : Z) (script : list byte) : ScriptTokenizer :=
  {| script := script; version := scriptVersion; offset := 0; opcodePos := -1; op := None; data := [];
     err := if scriptVersion =? 0 then None else Some ErrUnsupportedScriptVersion |}.

Definition Done_ (t : ScriptTokenizer) : bool :=
  (match err t with Some _ => true | None => false end) || (i32 (zlen (script t)) <=? offset t).

(** [t.offset, t.op, t.data = ...; return true] *)
Definition accept (t : ScriptTokenizer) (pos off o : Z) (d : list byte) : run (bool * ScriptTokenizer) :=
  Done (true, {| script := script t; version := version t; offset := off; opcodePos := pos;
                 op := Some o; data := d; err := err t |}).

(** [t.err = scriptError(ErrMalformedPush, str); return false] *)
Definition malformed (t : ScriptTokenizer) (pos : Z) : run (bool * ScriptTokenizer) :=
  Done (false, {| script := script t; version := version t; offset := offset t; opcodePos := pos;
                  op := op t; data := data t; err := Some ErrMalformedPush |}).

Definition pushedLen (length : Z) (rest : list byte) : Z :=
  i32 (le_val (take (Z.to_nat (- length)) rest)).

Definition Next (t : ScriptTokenizer) : run (bool * ScriptTokenizer) :=
  if Done_ t then Done (false, t) else
  let pos := i32 (opcodePos t + 1) in
  b ← index (script t) (offset t);
  let o := b2z b in
  let len := opcodeLength o in
  if len =? 1 then accept t pos (i32 (offset t + 1)) o []
  else if 1 <? len then
    rest ← slice (script t) (offset t) (zlen (script t));
    if zlen rest <? len then malformed t pos
    else
      d ← slice rest 1 len;
      accept t pos (i32 (offset t + len)) o d
  else if len <? 0 then
    rest ← slice (script t) (i32 (offset t + 1)) (zlen (script t));
    if zlen rest <? - len then malformed t pos
    else
      let dataLen := pushedLen len rest in
      rest ← slice rest (- len) (zlen rest);
      if (i32 (zlen rest) <? dataLen) || (dataLen <? 0) then malformed t pos
      else
        d ← slice rest 0 dataLen;
        accept t pos (i32 (offset t + i32 (1 + - len + dataLen))) o d
  else Panic.

(** [t.op.value]: nil before the first successful [Next] *)
Definition Opcode (t : ScriptTokenizer) : run Z := of_option (op t).

(** [for tokenizer.Next() { body }] where the body may return from the function
    with an [R].  Every round moves the offset, so a round per byte is enough. *)
Fixpoint forNext {A R} (fuel : nat) (body : A → Z → list byte → A + R) (acc : A) (t : ScriptTokenizer) :
    run ((A * ScriptTokenizer) + R) :=
  '(ok, t) ← Next t;
  if ok : bool then
    match fuel with
    | O => NoFuel
    | S fuel =>
        o ← Opcode t;
        match body acc o (data t) with
        | inl acc => forNext fuel body acc t
        | inr r => Done (inr r)
        end
    end
  else Done (inl (acc, t)).

(** A loop with no return inside *)
Definition foldNext {A} (body : A → Z → list byte → A) (acc : A) (t : ScriptTokenizer) :
    run (A * ScriptTokenizer) :=
  r ← forNext (R := Empty_set) (length (script t)) (fun a o d => inl (body a o d)) acc t;
  match r with inl x => Done x | inr e => match (e : Empty_set) return run _ with end end.

(** ** Functions of [script.go] and [standard.go] *)

Definition MaxScriptSize : Z := 10000.
Definition MaxPubKeysPerMultiSig : Z := 20.

Definition checkScriptParses (scriptVersion : Z) (script : list byte) : run (option scriptError) :=
  '(_, t) ← foldNext (fun _ _ _ => tt) tt (MakeScriptTokenizer scriptVersion script);
  Done (err t).

Definition IsUnspendable (pkScript : list byte) : run bool :=
  if (0 <? zlen pkScript) && (byteAt pkScript 0 =? OP_RETURN) then Done true
  else if MaxScriptSize <? zlen pkScript then Done true
  else
    e ← checkScriptParses 0 pkScript;
    Done (match e with Some _ => true | None => false end).

Definition IsSmallInt (op : Z) : bool := (op =? OP_0) || ((OP_1 <=? op) && (op <=? OP_16)).

Definition AsSmallInt (op : Z) : Z := if op =? OP_0 then 0 else u8 (op - (OP_1 - 1)).

Definition isCanonicalPush (opcode : Z) (data : list byte) : bool :=
  let dataLen := zlen data in
  if OP_16 <? opcode then true
  else if (opcode <? OP_PUSHDATA1) && (OP_0 <? opcode) && ((dataLen =? 1) && (byteAt data 0 <=? 16)) then false
  else if (opcode =? OP_PUSHDATA1) && (dataLen <? OP_PUSHDATA1) then false
  else if (opcode =? OP_PUSHDATA2) && (dataLen <=? 0xff) then false
  else if (opcode =? OP_PUSHDATA4) && (dataLen <=? 0xffff) then false
  else true.

Definition IsPushOnlyScript (script : list byte) : run bool :=
  r ← forNext (length script) (fun (_ : unit) o _ => if OP_16 <? o then inr false else inl tt) tt
        (MakeScriptTokenizer 0 script);
  match r with
  | inr b => Done b
  | inl (_, t) => Done (match err t with None => true | Some _ => false end)
  end.

(** The body of the counting loop, on the count and the previous opcode *)
Definition sigOpStep (precise : bool) (s : Z * Z) (o : Z) : Z * Z :=
  let '(numSigOps, prevOp) := s in
  let numSigOps :=
    if (o =? OP_CHECKSIG) || (o =? OP_CHECKSIGVERIFY) then numSigOps + 1
    else if (o =? OP_CHECKMULTISIG) || (o =? OP_CHECKMULTISIGVERIFY) then
      if precise && (OP_1 <=? prevOp) && (prevOp <=? OP_16) then numSigOps + AsSmallInt prevOp
      else numSigOps + MaxPubKeysPerMultiSig
    else numSigOps in
  (numSigOps, o).

Definition countSigOpsV0 (script : list byte) (precise : bool) : run Z :=
  '(s, _) ← foldNext (fun s o _ => sigOpStep precise s o) (0, OP_INVALIDOPCODE) (MakeScriptTokenizer 0 script);
  Done s.1.

Definition GetSigOpCount (script : list byte) : run Z := countSigOpsV0 script false.

Definition finalOpcodeData (scriptVersion : Z) (script : list byte) : run (list byte) :=
  if zlen script =? 0 then Done [] else
  '(d, t) ← foldNext (fun _ _ d => d) [] (MakeScriptTokenizer scriptVersion script);
  Done (match err t with Some _ => [] | None => d end).

Definition extractScriptHash (script : list byte) : option (list byte) :=
  if (zlen script =? 23) && (byteAt script 0 =? OP_HASH160) && (byteAt script 1 =? OP_DATA_20) &&
     (byteAt script 22 =? OP_EQUAL)
  then Some (sub script 2 22) else None.

Definition isScriptHashScript (script : list byte) : bool :=
  match extractScriptHash script with Some _ => true | None => false end.

Definition GetPreciseSigOpCount (scriptSig scriptPubKey : list byte) : run Z :=
  if negb (isScriptHashScript scriptPubKey) then countSigOpsV0 scriptPubKey true else
  if zlen scriptSig =? 0 then Done 0 else
  pushOnly ← IsPushOnlyScript scriptSig;
  if negb pushOnly then Done 0 else
  redeemScript ← finalOpcodeData 0 scriptSig;
  if zlen redeemScript =? 0 then Done 0 else countSigOpsV0 redeemScript true.

(** Version, program and whether the script is a witness program *)
Definition extractWitnessProgramInfo (script : list byte) : run (Z * list byte * bool) :=
  if (zlen script <? 4) || (42 <? zlen script) then Done (0, [], false) else
  '(ok, t) ← Next (MakeScriptTokenizer 0 script);
  if negb ok then Done (0, [], false) else
  o ← Opcode t;
  if negb (IsSmallInt o) then Done (0, [], false) else
  let version := AsSmallInt o in
  '(ok, t) ← Next t;
  if negb ok then Done (0, [], false) else
  o ← Opcode t;
  if negb (isCanonicalPush o (data t)) then Done (0, [], false) else
  Done (version, data t, Done_ t && match err t with None => true | Some _ => false end).

Definition isWitnessProgramScript (script : list byte) : run bool :=
  r ← extractWitnessProgramInfo script; Done r.2.

(** [None] is the error *)
Definition ExtractWitnessProgramInfo (script : list byte) : run (option (Z * list byte)) :=
  '(version, program, valid) ← extractWitnessProgramInfo script;
  Done (if valid : bool then Some (version, program) else None).

Definition BaseSegwitWitnessVersion : Z := 0.
Definition TaprootWitnessVersion : Z := 1.
Definition payToWitnessPubKeyHashDataSize : Z := 20.
Definition payToWitnessScriptHashDataSize : Z := 32.

Definition getWitnessSigOps (pkScript : list byte) (witness : list (list byte)) : run Z :=
  r ← ExtractWitnessProgramInfo pkScript;
  match r with
  | None => Done 0
  | Some (witnessVersion, witnessProgram) =>
      if witnessVersion =? BaseSegwitWitnessVersion then
        if zlen witnessProgram =? payToWitnessPubKeyHashDataSize then Done 1
        else if (zlen witnessProgram =? payToWitnessScriptHashDataSize) && (0 <? zlen witness) then
          witnessScript ← index witness (zlen witness - 1);
          countSigOpsV0 witnessScript true
        else Done 0
      else Done 0
  end.

Definition GetWitnessSigOpCount (sigScript pkScript : list byte) (witness : list (list byte)) : run Z :=
  w ← isWitnessProgramScript pkScript;
  if w : bool then getWitnessSigOps pkScript witness else
  nested ← (if isScriptHashScript pkScript then
              pushOnly ← IsPushOnlyScript sigScript; Done (pushOnly && (0 <? zlen sigScript))
            else Done false);
  if nested : bool then
    redeem ← finalOpcodeData 0 sigScript;
    w ← (if 0 <? zlen redeem then isWitnessProgramScript redeem else Done false);
    if w : bool then getWitnessSigOps redeem witness else Done 0
  else Done 0.

(** ** Reference: the tokens of a script *)

(** The data of the opcode [o] in the bytes after it, and how many of these bytes
    belong to it; [None] when the push does not fit. *)
Definition headData (o : Z) (rest : list byte) : option (list byte * nat) :=
  let len := opcodeLength o in
  if len =? 1 then Some ([], O)
  else if 1 <? len then
    let n := Z.to_nat (len - 1) in
    if (length rest <? n)%nat then None else Some (take n rest, n)
  else
    let k := Z.to_nat (- len) in
    if (length rest <? k)%nat then None else
    let n := Z.to_nat (le_val (take k rest)) in
    if (length rest - k <? n)%nat then None else Some (take n (drop k rest), (k + n)%nat).

(** The opcodes up to the first malformed push, with their data, and the bytes
    from there on *)
Fixpoint tokensFuel (fuel : nat) (s : list byte) : list (Z * list byte) * list byte :=
  match fuel, s with
  | S fuel, b :: rest =>
      match headData (b2z b) rest with
      | Some (d, n) => let '(ts, stop) := tokensFuel fuel (drop n rest) in ((b2z b, d) :: ts, stop)
      | None => ([], s)
      end
  | _, _ => ([], s)
  end.

Definition tokens (s : list byte) : list (Z * list byte) * list byte := tokensFuel (length s) s.

(** The bytes of a token *)
Definition tokenBytes (t : Z * list byte) : list byte :=
  let '(o, d) := t in
  z2b o :: (if opcodeLength o <? 0 then le_bytes (Z.to_nat (- opcodeLength o)) (zlen d) else []) ++ d.

(** Running the body of a loop over the tokens *)
Fixpoint visit {A R} (body : A → Z → list byte → A + R) (acc : A) (ts : list (Z * list byte)) : A + R :=
  match ts with
  | [] => inl acc
  | (o, d) :: ts => match body acc o d with inl acc => visit body acc ts | inr r => inr r end
  end.

Lemma opcodeLength_cases b : opcodeLength (b2z b) = 1 ∨ 1 < opcodeLength (b2z b) ≤ 76 ∨
  opcodeLength (b2z b) = -1 ∨ opcodeLength (b2z b) = -2 ∨ opcodeLength (b2z b) = -4.
Proof.
  pose proof (b2z_range b). unfold opcodeLength, OP_0, OP_PUSHDATA1, OP_PUSHDATA2, OP_PUSHDATA4.
  repeat (case_match; rewrite ?Z.eqb_eq, ?Z.eqb_neq, ?Z.ltb_lt, ?Z.ltb_ge in *); lia.
Qed.

Lemma headData_bytes b rest d n : headData (b2z b) rest = Some (d, n) →
  (n ≤ length rest)%nat ∧ b :: rest = tokenBytes (b2z b, d) ++ drop n rest.
Proof.
  unfold headData, tokenBytes. rewrite z2b_b2z.
  destruct (opcodeLength_cases b) as [E|[E|E]].
  - rewrite E. cbn. intros [= <- <-]. split; [lia|]. by rewrite drop_0.
  - destruct (Z.eqb_spec (opcodeLength (b2z b)) 1); [lia|]. destruct (Z.ltb_spec 1 (opcodeLength (b2z b))); [|lia].
    destruct (Nat.ltb_spec (length rest) (Z.to_nat (opcodeLength (b2z b) - 1))); [done|]. intros [= <- <-].
    destruct (Z.ltb_spec (opcodeLength (b2z b)) 0); [lia|]. cbn. by rewrite take_drop.
  - set (l := opcodeLength (b2z b)) in *. destruct (Z.eqb_spec l 1); [lia|]. destruct (Z.ltb_spec 1 l); [lia|].
    set (k := Z.to_nat (- l)) in *. destruct (Nat.ltb_spec (length rest) k); [done|].
    set (v := le_val (take k rest)) in *. destruct (Nat.ltb_spec (length rest - k) (Z.to_nat v)) as [|Hv]; [done|].
    intros [= <- <-]. destruct (Z.ltb_spec l 0); [|lia]. split; [lia|].
    assert (0 ≤ v) by apply le_val_range.
    assert (zlen (take (Z.to_nat v) (drop k rest)) = v) as ->
      by (unfold zlen; rewrite length_take, length_drop; lia).
    assert (le_bytes k v = take k rest) as ->.
    { pose proof (le_bytes_val (take k rest)) as Eb. rewrite length_take_le in Eb by lia. done. }
    cbn. f_equal. rewrite <-app_assoc, <-drop_drop, take_drop. by rewrite take_drop.
Qed.

(** The state of the tokenizer after the bytes [pre] of the script [pre ++ s] *)
Definition at_ (t : ScriptTokenizer) (pre s : list byte) : Prop :=
  script t = pre ++ s ∧ offset t = zlen pre ∧ err t = None ∧ zlen (pre ++ s) < 2 ^ 31.

Lemma Next_end t pre : at_ t pre [] → Next t = Done (false, t).
Proof.
  intros (Es & Eo & Ee & Hl). unfold Next, Done_. rewrite Ee, Es, Eo, app_nil_r in *. cbn [orb].
  rewrite swrap_small by (pose proof (zlen_nonneg pre); zlia). by rewrite Z.leb_refl.
Qed.

Lemma slice_from {A} (pre s : list A) lo hi : lo = zlen pre → hi = zlen (pre ++ s) → slice (pre ++ s) lo hi = Done s.
Proof.
  intros -> ->. pose proof (Compress.slice_mid pre s [] (zlen pre) (zlen (pre ++ s)) eq_refl) as E.
  rewrite app_nil_r in E. apply E. by rewrite zlen_app.
Qed.

Lemma slice_take {A} (s : list A) n : 0 ≤ n → (Z.to_nat n ≤ length s)%nat → slice s 0 n = Done (take (Z.to_nat n) s).
Proof.
  intros H H'. unfold slice. rewrite decide_True by (unfold zlen; lia). by rewrite Z.sub_0_r, drop_0.
Qed.

Lemma index_here {A} (pre : list A) x post : index (pre ++ x :: post) (zlen pre) = Done x.
Proof.
  unfold index. rewrite decide_True by apply zlen_nonneg. unfold zlen. rewrite Nat2Z.id.
  by rewrite list_lookup_middle.
Qed.

Lemma slice_cons_tail {A} (x : A) (s : list A) l : 1 ≤ l → (Z.to_nat (l - 1) ≤ length s)%nat →
  slice (x :: s) 1 l = Done (take (Z.to_nat (l - 1)) s).
Proof. intros H1 H2. unfold slice. rewrite zlen_cons, decide_True by (unfold zlen; lia). done. Qed.

Lemma slice_drop {A} (s : list A) l hi : 0 ≤ l → hi = zlen s → (Z.to_nat l ≤ length s)%nat →
  slice s l hi = Done (drop (Z.to_nat l) s).
Proof.
  intros H1 -> H2. unfold slice. rewrite decide_True by (unfold zlen; lia). f_equal.
  rewrite take_ge; [done|]. rewrite length_drop. unfold zlen. lia.
Qed.

(** The state after a token that takes [n] bytes behind its opcode *)
Lemma at_next t pre b rest n o d p z : (n ≤ length rest)%nat → zlen (pre ++ b :: rest) < 2 ^ 31 → err t = None →
  script t = pre ++ b :: rest → z = zlen pre + 1 + Z.of_nat n →
  at_ {| script := script t; version := version t; offset := i32 z; opcodePos := p; op := o; data := d;
         err := err t |} (pre ++ b :: take n rest) (drop n rest).
Proof.
  intros Hn Hl He Hs ->. pose proof (zlen_nonneg pre). rewrite zlen_app, zlen_cons in Hl.
  unfold at_. cbn [script offset err]. rewrite <-app_assoc. cbn [app]. rewrite take_drop.
  split_and!; [done| |done|rewrite zlen_app, zlen_cons; lia].
  rewrite swrap_small by (unfold zlen in *; zlia). rewrite zlen_app, zlen_cons. unfold zlen at 3.
  rewrite length_take_le by lia. lia.
Qed.

Lemma Next_token t pre b rest : at_ t pre (b :: rest) →
  match headData (b2z b) rest with
  | Some (d, n) => ∃ t', Next t = Done (true, t') ∧ op t' = Some (b2z b) ∧ data t' = d ∧
      at_ t' (pre ++ b :: take n rest) (drop n rest)
  | None => ∃ t', Next t = Done (false, t') ∧ err t' = Some ErrMalformedPush ∧ offset t' = zlen pre
  end.
Proof.
  intros (Es & Eo & Ee & Hl). pose proof (zlen_nonneg pre). pose proof (zlen_nonneg rest).
  assert (Hl' := Hl). rewrite zlen_app, zlen_cons in Hl.
  unfold Next, Done_. rewrite Ee, Es, Eo. cbn [orb].
  rewrite (swrap_small 32 (zlen (pre ++ b :: rest))) by (try rewrite zlen_app, zlen_cons; zlia).
  destruct (Z.leb_spec (zlen (pre ++ b :: rest)) (zlen pre)); [rewrite zlen_app, zlen_cons in *; lia|].
  rewrite index_here. cbn [mbind run_bind]. unfold headData.
  destruct (opcodeLength_cases b) as [E|[E|E]].
  - rewrite E. cbn [Z.eqb Pos.eqb]. eexists. split; [unfold accept; reflexivity|]. cbn. split_and!; [done..|].
    apply at_next; [lia|done..|lia].
  - set (l := opcodeLength (b2z b)) in *. destruct (Z.eqb_spec l 1); [lia|]. destruct (Z.ltb_spec 1 l); [|lia].
    rewrite slice_from by done. cbn [mbind run_bind]. rewrite zlen_cons.
    destruct (Z.ltb_spec (1 + zlen rest) l), (Nat.ltb_spec (length rest) (Z.to_nat (l - 1)));
      [|unfold zlen in *; lia..|].
    { eexists. split; [unfold malformed; reflexivity|]. cbn. done. }
    rewrite slice_cons_tail by (unfold zlen in *; lia). cbn [mbind run_bind].
    eexists. split; [unfold accept; reflexivity|]. cbn. split_and!; [done..|].
    apply at_next; [lia|done..|lia].
  - set (l := opcodeLength (b2z b)) in *. destruct (Z.eqb_spec l 1); [lia|]. destruct (Z.ltb_spec 1 l); [lia|].
    destruct (Z.ltb_spec l 0); [|lia].
    rewrite (swrap_small 32 (zlen pre + 1)) by zlia. rewrite cons_middle, app_assoc, slice_from by (rewrite ?zlen_app; done).
    cbn [mbind run_bind]. unfold pushedLen. set (k := Z.to_nat (- l)) in *.
    destruct (Z.ltb_spec (zlen rest) (- l)), (Nat.ltb_spec (length rest) k); [|unfold zlen in *; lia..|].
    { eexists. split; [unfold malformed; reflexivity|]. cbn. done. }
    rewrite slice_drop by (unfold zlen in *; lia). cbn [mbind run_bind]. fold k. set (v := le_val (take k rest)) in *.
    assert (0 ≤ v < 2 ^ 32) as Hv.
    { pose proof (le_val_range (take k rest)) as Hr. rewrite length_take_le in Hr by lia. fold v in Hr.
      assert (256 ^ Z.of_nat k ≤ 2 ^ 32); [|lia]. assert (k = 1 ∨ k = 2 ∨ k = 4)%nat as [->|[->| ->]] by lia; zlia. }
    assert (((i32 (zlen (drop k rest)) <? i32 v) || (i32 v <? 0)) = (length rest - k <? Z.to_nat v)%nat) as ->.
    { rewrite (swrap_small 32 (zlen _)) by (unfold zlen in *; rewrite ?length_drop; zlia).
      destruct (Z.ltb_spec v (2 ^ 31)).
      - rewrite (swrap_small 32 v) by zlia. destruct (Z.ltb_spec v 0); [lia|]. rewrite orb_false_r. unfold zlen.
        rewrite length_drop. apply eq_true_iff_eq. rewrite Z.ltb_lt, Nat.ltb_lt. lia.
      - assert (i32 v < 0) by (unfold swrap; zdm). destruct (Z.ltb_spec (i32 v) 0); [|lia]. rewrite orb_true_r.
        symmetry. apply Nat.ltb_lt. unfold zlen in *. zlia. }
    destruct (Nat.ltb_spec (length rest - k) (Z.to_nat v)).
    { eexists. split; [unfold malformed; reflexivity|]. cbn. done. }
    rewrite (swrap_small 32 v) by (unfold zlen in *; zlia).
    rewrite slice_take by (rewrite ?length_drop; lia).
    cbn [mbind run_bind]. eexists. split; [unfold accept; reflexivity|]. cbn [op data]. split_and!; [done..|].
    apply at_next; [lia|done..|]. rewrite (swrap_small 32 (1 + _ + _)) by (unfold zlen in *; zlia). lia.
Qed.

Lemma tokensFuel_bytes fuel s : (length s ≤ fuel)%nat →
  s = concat (map tokenBytes (tokensFuel fuel s).1) ++ (tokensFuel fuel s).2 ∧
  match (tokensFuel fuel s).2 with [] => True | b :: rest => headData (b2z b) rest = None end.
Proof.
  revert s. induction fuel as [|fuel IH]; intros [|b rest] Hl; cbn [tokensFuel]; [done|cbn in Hl; lia|done|].
  destruct (headData (b2z b) rest) as [[d n]|] eqn:E; [|done].
  destruct (headData_bytes _ _ _ _ E) as [Hn Eb]. cbn in Hl.
  destruct (IH (drop n rest)) as [IH1 IH2]; [rewrite length_drop; lia|].
  destruct (tokensFuel fuel (drop n rest)) as [ts stop]. cbn [fst snd map concat] in *. split; [|done].
  rewrite Eb at 1. rewrite IH1 at 1. by rewrite app_assoc.
Qed.

Lemma forNext_at {A R} (body : A → Z → list byte → A + R) fuel s pre t acc :
  at_ t pre s → (length s ≤ fuel)%nat →
  match visit body acc (tokensFuel fuel s).1 with
  | inr r => forNext fuel body acc t = Done (inr r)
  | inl a => ∃ t', forNext fuel body acc t = Done (inl (a, t')) ∧
      err t' = match (tokensFuel fuel s).2 with [] => None | _ => Some ErrMalformedPush end
  end.
Proof.
  revert s pre t acc. induction fuel as [|fuel IH]; intros s pre t acc Ht Hl.
  { destruct s; [|cbn in Hl; lia]. cbn. rewrite (Next_end _ _ Ht). exists t. by destruct Ht as (_ & _ & -> & _). }
  destruct s as [|b rest].
  { cbn. rewrite (Next_end _ _ Ht). exists t. by destruct Ht as (_ & _ & -> & _). }
  pose proof (Next_token _ _ _ _ Ht) as Hn. cbn [tokensFuel forNext].
  destruct (headData (b2z b) rest) as [[d n]|] eqn:E.
  2: { cbn. destruct Hn as (t' & -> & He & _). exists t'. done. }
  destruct Hn as (t' & -> & Ho & Hd & Ht'). cbn [mbind run_bind]. unfold Opcode. rewrite Ho, Hd. cbn [of_option mbind run_bind].
  specialize (IH (drop n rest)). destruct (tokensFuel fuel (drop n rest)) as [ts stop]. cbn [fst snd visit] in *.
  destruct (body acc (b2z b) d) as [acc'|r]; [|done]. apply (IH _ _ _ Ht').
  rewrite length_drop. cbn in Hl. lia.
Qed.

Lemma at_start v s : v = 0 → zlen s < 2 ^ 31 → at_ (MakeScriptTokenizer v s) [] s.
Proof. intros -> H. by split_and!. Qed.

Lemma foldNext_spec {A} (body : A → Z → list byte → A) acc s : zlen s < 2 ^ 31 →
  ∃ t', foldNext body acc (MakeScriptTokenizer 0 s) =
      Done (foldl (fun a '(o, d) => body a o d) acc (tokens s).1, t') ∧
    err t' = match (tokens s).2 with [] => None | _ => Some ErrMalformedPush end.
Proof.
  intros Hs. unfold foldNext, tokens. cbn [script MakeScriptTokenizer].
  pose proof (forNext_at (R := Empty_set) (fun a o d => inl (body a o d)) (length s) s [] _ acc
    (at_start 0 s eq_refl Hs) (le_n _)) as H.
  assert (∀ ts a, visit (R := Empty_set) (fun a o d => inl (body a o d)) a ts = inl (foldl (fun a '(o, d) => body a o d) a ts)) as Ev.
  { induction ts as [|[o d] ts IH]; intros a; cbn; [done|apply IH]. }
  rewrite Ev in H. destruct H as (t' & E & He). exists t'. split; [|done].
  unfold MakeScriptTokenizer in *. by rewrite E.
Qed.

(** The tokenizer ends on every script shorter than [2^31]
    bytes: a loop over it with any body visits exactly the opcodes of the script in
    order, each with the data of its push, up to the first push that does not fit,
    and never panics; the bytes of these opcodes put together are the script, up to
    the malformed push, and the error of the tokenizer says whether there is one. *)
Theorem tokenizer_visits {A R} (body : A → Z → list byte → A + R) (acc : A) (s : list byte) :
  zlen s < 2 ^ 31 →
  let '(ts, stop) := tokens s in
  s = concat (map tokenBytes ts) ++ stop ∧
  match stop with [] => True | b :: rest => headData (b2z b) rest = None end ∧
  match visit body acc ts with
  | inr r => forNext (length s) body acc (MakeScriptTokenizer 0 s) = Done (inr r)
  | inl a => ∃ t', forNext (length s) body acc (MakeScriptTokenizer 0 s) = Done (inl (a, t')) ∧
      err t' = match stop with [] => None | _ => Some ErrMalformedPush end
  end.
Proof.
  intros Hs. pose proof (tokensFuel_bytes (length s) s (le_n _)) as [Hb Hm].
  pose proof (forNext_at body (length s) s [] _ acc (at_start 0 s eq_refl Hs) (le_n _)) as Hf.
  unfold tokens. destruct (tokensFuel (length s) s) as [ts stop]. by split_and!.
Qed.

(** ** Signature operations *)

Definition sigOps (precise : bool) (s : list byte) : Z :=
  (foldl (sigOpStep precise) (0, OP_INVALIDOPCODE) (tokens s).1.*1).1.

Lemma countSigOpsV0_spec s precise : zlen s < 2 ^ 31 → countSigOpsV0 s precise = Done (sigOps precise s).
Proof.
  intros Hs. unfold countSigOpsV0, sigOps.
  destruct (foldNext_spec (fun s o _ => sigOpStep precise s o) (0, OP_INVALIDOPCODE) s Hs) as (t' & -> & _).
  cbn [mbind run_bind]. do 2 f_equal. generalize (0, OP_INVALIDOPCODE) as a.
  induction (tokens s).1 as [|[o d] ts IH]; intros a; cbn; [done|apply IH].
Qed.

Lemma sigOps_fold ts a b p : 0 ≤ a ≤ b → let ra := foldl (sigOpStep true) (a, p) ts in
  let rb := foldl (sigOpStep false) (b, p) ts in
  a ≤ ra.1 ≤ rb.1 ∧ rb.1 ≤ b + MaxPubKeysPerMultiSig * zlen ts.
Proof.
  revert a b p. induction ts as [|o ts IH]; intros a b p Hab; cbn [foldl].
  { cbn. unfold zlen. cbn. lia. }
  rewrite zlen_cons. set (a' := (sigOpStep true (a, p) o).1). set (b' := (sigOpStep false (b, p) o).1).
  assert (a ≤ a' ≤ b' ∧ b' ≤ b + MaxPubKeysPerMultiSig) as Hs.
  { subst a' b'. unfold sigOpStep, MaxPubKeysPerMultiSig, AsSmallInt, OP_0, OP_1, OP_16. cbn [fst andb].
    repeat case_match; rewrite ?andb_true_iff, ?Z.leb_le in *; try lia.
    all: rewrite (uwrap_small 8) by zlia; lia. }
  specialize (IH a' b' o ltac:(lia)). cbn zeta in IH.
  replace (sigOpStep true (a, p) o) with (a', o) by done. replace (sigOpStep false (b, p) o) with (b', o) by done.
  unfold MaxPubKeysPerMultiSig in *. lia.
Qed.

Lemma concat_length_ge {A B} (f : A → list B) l : (∀ x, (1 ≤ length (f x))%nat) → (length l ≤ length (concat (map f l)))%nat.
Proof.
  intros H. induction l as [|x l IH]; cbn; [lia|]. rewrite length_app. pose proof (H x). lia.
Qed.

Lemma tokens_length s : zlen (tokens s).1 ≤ zlen s.
Proof.
  destruct (tokensFuel_bytes (length s) s (le_n _)) as [E _]. fold (tokens s) in E.
  pose proof (concat_length_ge tokenBytes (tokens s).1) as H.
  unfold zlen. rewrite E at 2. rewrite length_app. enough (length (tokens s).1 ≤ length (concat (map tokenBytes (tokens s).1)))%nat by lia.
  apply H. intros [o d]. cbn. lia.
Qed.

(** A script is a list of pushes: every opcode is at most [OP_16] and the last
    push fits. *)
Definition pushOnly (s : list byte) : bool :=
  forallb (fun t => t.1 <=? OP_16) (tokens s).1 && match (tokens s).2 with [] => true | _ => false end.

Lemma IsPushOnlyScript_spec s : zlen s < 2 ^ 31 → IsPushOnlyScript s = Done (pushOnly s).
Proof.
  intros Hs. unfold IsPushOnlyScript, pushOnly, tokens.
  pose proof (forNext_at (fun (_ : unit) o _ => if OP_16 <? o then inr false else inl tt) (length s) s [] _ tt
    (at_start 0 s eq_refl Hs) (le_n _)) as H. cbn beta in H.
  assert (∀ ts, visit (fun (_ : unit) o (_ : list byte) => if OP_16 <? o then inr false else inl tt) tt ts =
    if forallb (fun t => t.1 <=? OP_16) ts then inl tt else inr false) as Ev.
  { induction ts as [|[o d] ts IH]; cbn; [done|].
    destruct (Z.ltb_spec OP_16 o), (Z.leb_spec o OP_16); try lia; [done|]. by rewrite IH. }
  rewrite Ev in H. destruct (forallb _ _).
  - destruct H as (t' & -> & He). cbn [mbind run_bind]. rewrite He. by destruct (tokensFuel _ s).2.
  - by rewrite H.
Qed.

(** The last push of a script *)
Definition lastPush (s : list byte) : list byte :=
  match (tokens s).2 with [] => default [] (snd <$> last (tokens s).1) | _ => [] end.

Lemma finalOpcodeData_spec s : zlen s < 2 ^ 31 → finalOpcodeData 0 s = Done (lastPush s).
Proof.
  intros Hs. unfold finalOpcodeData, lastPush. destruct (Z.eqb_spec (zlen s) 0) as [E|].
  { destruct s; [done|]. rewrite zlen_cons in E. pose proof (zlen_nonneg s). lia. }
  destruct (foldNext_spec (fun _ _ d => d) [] s Hs) as (t' & -> & He). cbn [mbind run_bind]. rewrite He.
  destruct (tokens s) as [ts stop]. cbn [fst snd]. destruct stop; [|done]. f_equal.
  destruct ts as [|t ts _] using rev_ind; [done|]. rewrite foldl_app, last_app. cbn. by destruct t.
Qed.

Lemma tokenFits ts t : t ∈ ts → zlen t.2 ≤ zlen (concat (map tokenBytes ts)).
Proof.
  induction ts as [|u ts IH]; [by intros ?%elem_of_nil|]. cbn. rewrite zlen_app.
  pose proof (zlen_nonneg (tokenBytes u)). pose proof (zlen_nonneg (concat (map tokenBytes ts))).
  intros [->|Ht]%elem_of_cons; [|specialize (IH Ht); lia].
  destruct u as [o d]. cbn [tokenBytes snd]. rewrite zlen_cons, zlen_app.
  match goal with |- context [zlen ?l + zlen d] => pose proof (zlen_nonneg l) end. lia.
Qed.

Lemma lastPush_length s : zlen (lastPush s) ≤ zlen s.
Proof.
  unfold lastPush. destruct (tokensFuel_bytes (length s) s (le_n _)) as [E _]. fold (tokens s) in E.
  destruct (tokens s) as [ts stop]. cbn [fst snd] in *. pose proof (zlen_nonneg s).
  destruct stop; [|done]. rewrite app_nil_r in E. destruct (last ts) as [t|] eqn:El; [|done].
  cbn. rewrite E. apply tokenFits. by eapply last_Some_elem_of.
Qed.

(** The signature operations a P2SH or plain output costs *)
Definition preciseSigOps (scriptSig scriptPubKey : list byte) : Z :=
  if isScriptHashScript scriptPubKey then
    if pushOnly scriptSig then sigOps true (lastPush scriptSig) else 0
  else sigOps true scriptPubKey.

Lemma GetPreciseSigOpCount_spec sig pk : zlen sig < 2 ^ 31 → zlen pk < 2 ^ 31 →
  GetPreciseSigOpCount sig pk = Done (preciseSigOps sig pk).
Proof.
  intros Hs Hp. unfold GetPreciseSigOpCount, preciseSigOps.
  destruct (isScriptHashScript pk); cbn [negb]; [|by apply countSigOpsV0_spec].
  destruct (Z.eqb_spec (zlen sig) 0) as [E|].
  { destruct sig as [|b sig]; [done|]. rewrite zlen_cons in E. pose proof (zlen_nonneg sig). lia. }
  rewrite IsPushOnlyScript_spec by done. cbn [mbind run_bind]. destruct (pushOnly sig); cbn [negb]; [|done].
  rewrite finalOpcodeData_spec by done. cbn [mbind run_bind]. pose proof (lastPush_length sig).
  destruct (Z.eqb_spec (zlen (lastPush sig)) 0) as [E|]; [|apply countSigOpsV0_spec; lia].
  destruct (lastPush sig) as [|b l]; [done|]. rewrite zlen_cons in E. pose proof (zlen_nonneg l). lia.
Qed.

Lemma sigOps_bounds s : 0 ≤ sigOps true s ≤ sigOps false s ∧ sigOps false s ≤ MaxPubKeysPerMultiSig * zlen s.
Proof.
  unfold sigOps. pose proof (sigOps_fold (tokens s).1.*1 0 0 OP_INVALIDOPCODE) as H. cbn zeta in H.
  pose proof (tokens_length s). unfold zlen in *. rewrite length_map in H. unfold MaxPubKeysPerMultiSig in *. lia.
Qed.

(** The signature operation counters are total: [GetSigOpCount] is
    the count over the opcodes of the script with every multisig taken as twenty,
    [GetPreciseSigOpCount] the precise count of the output script or, for a
    pay-to-script-hash output spent by pushes only, of the last push; the precise
    count never exceeds the other, and both are at most twenty per byte. *)
Theorem sigOp_counts (sig pk : list byte) :
  zlen sig < 2 ^ 31 → zlen pk < 2 ^ 31 →
  GetSigOpCount pk = Done (sigOps false pk) ∧
  GetPreciseSigOpCount sig pk = Done (preciseSigOps sig pk) ∧
  0 ≤ sigOps true pk ≤ sigOps false pk ∧ sigOps false pk ≤ MaxPubKeysPerMultiSig * zlen pk ∧
  0 ≤ preciseSigOps sig pk ≤ MaxPubKeysPerMultiSig * Z.max (zlen sig) (zlen pk).
Proof.
  intros Hs Hp. split; [by apply countSigOpsV0_spec|]. split; [by apply GetPreciseSigOpCount_spec|].
  pose proof (sigOps_bounds pk) as Hb. split; [lia|]. split; [lia|].
  pose proof (sigOps_bounds (lastPush sig)). pose proof (lastPush_length sig).
  unfold preciseSigOps, MaxPubKeysPerMultiSig in *. pose proof (zlen_nonneg sig). pose proof (zlen_nonneg pk).
  repeat case_match; lia.
Qed.

(** ** Unspendable outputs *)

Definition unspendable (s : list byte) : bool :=
  match s with b :: _ => b2z b =? OP_RETURN | [] => false end || (MaxScriptSize <? zlen s) ||
  match (tokens s).2 with [] => false | _ => true end.

Lemma IsUnspendable_spec s : IsUnspendable s = Done (unspendable s).
Proof.
  unfold IsUnspendable, unspendable.
  replace ((0 <? zlen s) && (byteAt s 0 =? OP_RETURN)) with (match s with b :: _ => b2z b =? OP_RETURN | [] => false end)
    by (destruct s; [done|]; rewrite zlen_cons; pose proof (zlen_nonneg s); destruct (Z.ltb_spec 0 (1 + zlen s)); [done|lia]).
  destruct (match s with [] => false | _ => _ end); [done|]. cbn [orb].
  destruct (Z.ltb_spec MaxScriptSize (zlen s)); [done|]. cbn [orb]. unfold checkScriptParses, MaxScriptSize in *.
  destruct (foldNext_spec (fun _ _ _ => tt) tt s) as (t' & -> & He); [zlia|]. cbn [mbind run_bind]. rewrite He.
  by destruct (tokens s).2.
Qed.

(** ** Witness programs *)

Definition smallInt (v : Z) : byte := z2b (if v =? 0 then OP_0 else OP_1 - 1 + v).

Definition witnessProgram (v : Z) (program : list byte) : list byte :=
  smallInt v :: z2b (zlen program) :: program.

Definition programInfo (b0 b1 : byte) (rest : list byte) : Z * list byte * bool :=
  if negb (IsSmallInt (b2z b0)) then (0, [], false) else
  match headData (b2z b1) rest with
  | None => (0, [], false)
  | Some (d, n) =>
      if negb (isCanonicalPush (b2z b1) d) then (0, [], false) else (AsSmallInt (b2z b0), d, (n =? length rest)%nat)
  end.

Lemma smallInt_length o : IsSmallInt o = true → opcodeLength o = 1.
Proof.
  unfold IsSmallInt, opcodeLength, OP_0, OP_1, OP_16, OP_PUSHDATA1, OP_PUSHDATA2, OP_PUSHDATA4.
  rewrite orb_true_iff, andb_true_iff, Z.eqb_eq, !Z.leb_le. intros H.
  repeat (case_match; rewrite ?Z.eqb_eq, ?Z.eqb_neq, ?Z.ltb_lt, ?Z.ltb_ge in *); lia.
Qed.

Lemma extract_eq b0 b1 rest : 2 ≤ zlen rest ≤ 40 →
  extractWitnessProgramInfo (b0 :: b1 :: rest) = Done (programInfo b0 b1 rest).
Proof.
  intros Hr. unfold extractWitnessProgramInfo, programInfo. rewrite !zlen_cons.
  destruct (Z.ltb_spec (1 + (1 + zlen rest)) 4); [lia|]. destruct (Z.ltb_spec 42 (1 + (1 + zlen rest))); [lia|].
  cbn [orb]. assert (zlen (b0 :: b1 :: rest) < 2 ^ 31) as Hl by (rewrite !zlen_cons; zlia).
  pose proof (Next_token _ _ _ _ (at_start 0 _ eq_refl Hl)) as Hn.
  destruct (IsSmallInt (b2z b0)) eqn:Ei.
  - unfold headData in Hn at 1. rewrite smallInt_length in Hn by done. cbn [Z.eqb Pos.eqb] in Hn.
    destruct Hn as (t1 & -> & Ho & _ & Ht). cbn [mbind run_bind negb]. unfold Opcode. rewrite Ho. cbn [of_option mbind run_bind].
    rewrite Ei. cbn [negb]. cbn [take drop app] in Ht. pose proof (Next_token _ _ _ _ Ht) as Hn2.
    destruct (headData (b2z b1) rest) as [[d n]|] eqn:Ed.
    2: { destruct Hn2 as (t2 & -> & _). done. }
    destruct Hn2 as (t2 & -> & Ho2 & Hd2 & Ht2). cbn [mbind run_bind negb]. rewrite Ho2. cbn [of_option mbind run_bind].
    rewrite Hd2. destruct (isCanonicalPush (b2z b1) d); cbn [negb]; [|done]. do 2 f_equal.
    destruct Ht2 as (Es & Eo & Ee & Hl2). unfold Done_. rewrite Ee, Es, Eo, andb_true_r. cbn [orb].
    destruct (headData_bytes _ _ _ _ Ed) as [Hn' _].
    rewrite swrap_small by (rewrite zlen_app in *; pose proof (zlen_nonneg (drop n rest));
      pose proof (zlen_nonneg ([b0] ++ b1 :: take n rest)); zlia).
    rewrite zlen_app. unfold zlen at 2. rewrite length_drop.
    apply eq_true_iff_eq. rewrite Z.leb_le, Nat.eqb_eq. lia.
  - cbn [negb]. destruct (headData (b2z b0) (b1 :: rest)) as [[d n]|].
    + destruct Hn as (t1 & -> & Ho & _). cbn [mbind run_bind negb]. unfold Opcode. rewrite Ho. cbn [of_option mbind run_bind].
      by rewrite Ei.
    + destruct Hn as (t1 & -> & _). done.
Qed.

(** A canonical push that fills the rest of a short script *)
Lemma canonical_fill b rest d n : 2 ≤ zlen rest ≤ 40 →
  headData (b2z b) rest = Some (d, n) → isCanonicalPush (b2z b) d = true → n = length rest →
  b = z2b (zlen rest) ∧ d = rest.
Proof.
  intros Hr Hh Hc Hn. destruct (headData_bytes _ _ _ _ Hh) as [_ Eb]. rewrite Hn, drop_all, app_nil_r in Eb.
  unfold tokenBytes in Eb. rewrite z2b_b2z in Eb. injection Eb as Eb. unfold headData in Hh.
  destruct (opcodeLength_cases b) as [E|[E|E]].
  - rewrite E in Hh. cbn in Hh. injection Hh as <- <-. unfold zlen in *. lia.
  - destruct (Z.ltb_spec (opcodeLength (b2z b)) 0); [lia|]. cbn in Eb. subst d. split; [|done].
    destruct (Z.eqb_spec (opcodeLength (b2z b)) 1); [lia|]. destruct (Z.ltb_spec 1 (opcodeLength (b2z b))); [|lia].
    destruct (_ <? _)%nat; [done|]. injection Hh as _ Hh. rewrite <-(z2b_b2z b). f_equal.
    assert (opcodeLength (b2z b) = b2z b + 1).
    { clear -E. unfold opcodeLength, OP_0, OP_PUSHDATA1, OP_PUSHDATA2, OP_PUSHDATA4 in *. repeat case_match; lia. }
    unfold zlen in *. lia.
  - assert (zlen d ≤ 40) as Hd.
    { rewrite Eb in Hr. rewrite zlen_app in Hr.
      match type of Hr with context [zlen ?l + zlen d] => pose proof (zlen_nonneg l) end. lia. }
    exfalso. assert (b2z b = OP_PUSHDATA1 ∨ b2z b = OP_PUSHDATA2 ∨ b2z b = OP_PUSHDATA4) as Hb.
    { clear -E. pose proof (b2z_range b). unfold opcodeLength, OP_0, OP_PUSHDATA1, OP_PUSHDATA2, OP_PUSHDATA4 in *.
      repeat (case_match; rewrite ?Z.eqb_eq, ?Z.eqb_neq, ?Z.ltb_lt, ?Z.ltb_ge in *); lia. }
    clear -Hc Hb Hd. destruct Hb as [Hb|[Hb|Hb]]; rewrite Hb in Hc; revert Hc; unfold isCanonicalPush; cbn.
    + destruct (Z.ltb_spec (zlen d) OP_PUSHDATA1); [done|unfold OP_PUSHDATA1 in *; lia].
    + destruct (Z.leb_spec (zlen d) 255); [done|lia].
    + destruct (Z.leb_spec (zlen d) 65535); [done|lia].
Qed.

Lemma smallInt_value v : 0 ≤ v ≤ 16 → b2z (smallInt v) = if v =? 0 then OP_0 else OP_1 - 1 + v.
Proof. intros H. unfold smallInt. rewrite b2z_z2b_small; [done|]. unfold OP_0, OP_1. case_match; lia. Qed.

Lemma smallInt_spec b v : IsSmallInt (b2z b) = true ∧ AsSmallInt (b2z b) = v ↔ b = smallInt v ∧ 0 ≤ v ≤ 16.
Proof.
  split.
  - intros [Hi Hv]. unfold IsSmallInt in Hi. rewrite orb_true_iff, andb_true_iff, Z.eqb_eq, !Z.leb_le in Hi.
    unfold AsSmallInt, OP_0, OP_1, OP_16 in *. assert (0 ≤ v ≤ 16).
    { destruct (Z.eqb_spec (b2z b) 0); [lia|]. rewrite uwrap_small in Hv by zlia. lia. }
    split; [|done]. apply b2z_inj. rewrite smallInt_value by done. unfold OP_0, OP_1.
    destruct (Z.eqb_spec (b2z b) 0); [subst v; done|]. rewrite uwrap_small in Hv by zlia.
    destruct (Z.eqb_spec v 0); lia.
  - intros [-> Hv]. rewrite smallInt_value by done. unfold IsSmallInt, AsSmallInt, OP_0, OP_1, OP_16.
    destruct (Z.eqb_spec v 0) as [->|]; [done|]. destruct (Z.eqb_spec (81 - 1 + v) 0); [lia|]. cbn [orb].
    rewrite andb_true_iff, !Z.leb_le. rewrite uwrap_small by zlia. lia.
Qed.

(** [extractWitnessProgramInfo] is total and recognises exactly
    the scripts that are a small integer followed by one direct push of two to
    forty bytes, with that version and program. *)
Theorem witness_program_spec (s : list byte) :
  (∃ r, extractWitnessProgramInfo s = Done r) ∧
  (∀ v program, extractWitnessProgramInfo s = Done (v, program, true) ↔
     s = witnessProgram v program ∧ 0 ≤ v ≤ 16 ∧ 2 ≤ zlen program ≤ 40).
Proof.
  destruct (decide (4 ≤ zlen s ≤ 42)) as [Hs|Hs].
  2: { unfold extractWitnessProgramInfo. assert ((zlen s <? 4) || (42 <? zlen s) = true) as ->.
       { rewrite orb_true_iff, !Z.ltb_lt. lia. }
       split; [by eexists|]. intros v p. split; [done|]. intros (-> & _ & Hp). unfold witnessProgram in Hs.
       rewrite !zlen_cons in Hs. lia. }
  destruct s as [|b0 [|b1 rest]]; [unfold zlen in Hs; cbn in Hs; lia..|]. rewrite !zlen_cons in Hs.
  rewrite extract_eq by lia. split; [by eexists|]. intros v p. unfold programInfo. split.
  - destruct (IsSmallInt (b2z b0)) eqn:Ei; cbn [negb]; [|done].
    destruct (headData (b2z b1) rest) as [[d n]|] eqn:Ed; [|done].
    destruct (isCanonicalPush (b2z b1) d) eqn:Ec; cbn [negb]; [|done]. intros [= Ev <- En%Nat.eqb_eq].
    destruct (canonical_fill b1 rest d n) as [-> ->]; [lia|done..|].
    destruct (proj1 (smallInt_spec b0 v)) as [-> Hv]; [done|]. split; [done|]. lia.
  - intros ([= -> -> ->] & Hv & Hp). destruct (proj2 (smallInt_spec (smallInt v) v)) as [-> ->]; [done|]. cbn [negb].
    rewrite (b2z_z2b_small (zlen p)) by lia. unfold headData.
    assert (opcodeLength (zlen p) = zlen p + 1) as ->.
    { unfold opcodeLength, OP_0, OP_PUSHDATA1. destruct (Z.eqb_spec (zlen p) 0); [lia|].
      destruct (Z.ltb_spec (zlen p) 76); lia. }
    destruct (Z.eqb_spec (zlen p + 1) 1); [lia|]. destruct (Z.ltb_spec 1 (zlen p + 1)); [|lia].
    replace (Z.to_nat (zlen p + 1 - 1)) with (length p) by (unfold zlen; lia). rewrite Nat.ltb_irrefl, take_ge by done.
    assert (isCanonicalPush (zlen p) p = true) as ->; [|by rewrite Nat.eqb_refl].
    unfold isCanonicalPush, OP_16, OP_PUSHDATA1, OP_PUSHDATA2, OP_PUSHDATA4, OP_0.
    destruct (Z.eqb_spec (zlen p) 1); [lia|]. cbn [andb]. rewrite !andb_false_r.
    destruct (Z.ltb_spec 96 (zlen p)); [lia|].
    do 3 (match goal with |- context [?a =? ?b] => destruct (Z.eqb_spec a b); [lia|] end; cbn [andb]). done.
Qed.

(** ** Witnesses *)

Definition p2pkh : list byte := map z2b ([0x76; 0xa9; 0x14] ++ replicate 20 7 ++ [0x88; 0xac]).

Lemma tokenizer_visits_witness : let s := p2pkh ++ [z2b 0x4c; z2b 9] in zlen s < 2 ^ 31 ∧
  (tokens s).2 = [z2b 0x4c; z2b 9] ∧ s = concat (map tokenBytes (tokens s).1) ++ (tokens s).2.
Proof.
  intros s. split; [reflexivity|]. split; [vm_compute; reflexivity|].
  pose proof (tokenizer_visits (fun (n : Z) _ _ => inl (B := unit) (n + 1)) 0 s ltac:(reflexivity)) as H.
  destruct (tokens s) as [ts stop]. exact (proj1 H).
Defined.

Lemma sigOp_counts_witness : GetSigOpCount p2pkh = Done 1 ∧ GetPreciseSigOpCount [] p2pkh = Done 1.
Proof.
  destruct (sigOp_counts [] p2pkh) as (H1 & H2 & _); [reflexivity..|].
  rewrite H1, H2. split; vm_compute; reflexivity.
Defined.

End Script.
