(* ===== verification/UtxoSet.v ===== *)
(** * UtxoSet: entries, rows of the UTXO set and the spend journal

    Model of [UtxoEntry] of [blockchain/utxoviewpoint.go] and of the part of
    [blockchain/chainio.go] that stores unspent outputs and the spend journal: the
    outpoint keys, the serialized entries, the rows, and the journal of a block.
    The keys are built in recycled buffers; [outpointKey_pool] shows that what
    such a buffer held before does not matter. *)

From S2P Require Import Prelude Compress Script Wire ChainIO.
Import ChainIO (bucket).

Module UtxoSet.
Import Compress.

Create Rewrite HintDb go_flags.

#[export] Instance OutPoint_eq_dec : EqDecision Wire.OutPoint.
Proof. solve_decision. Defined.
#[export] Instance OutPoint_countable : Countable Wire.OutPoint.
Proof.
  refine (inj_countable' (fun o => (Wire.Hash o, Wire.Index o)) (fun p => Wire.Build_OutPoint p.1 p.2) _).
  by intros [].
Defined.

(** ** Entries *)

Definition tfCoinBase : Z := 1.
Definition tfSpent : Z := 2.
Definition tfModified : Z := 4.
Definition tfFresh : Z := 8.

Record UtxoEntry := {
  amount : Z;
  pkScript : list byte;
  blockHeight : Z;
  packedFlags : Z;
}.

#[export] Instance UtxoEntry_eq_dec : EqDecision UtxoEntry.
Proof. solve_decision. Defined.

Definition set_flags (f : Z) (e : UtxoEntry) : UtxoEntry :=
  {| amount := amount e; pkScript := pkScript e; blockHeight := blockHeight e; packedFlags := f |}.

Definition isModified (e : UtxoEntry) : bool := Z.land (packedFlags e) tfModified =? tfModified.
Definition isFresh (e : UtxoEntry) : bool := Z.land (packedFlags e) tfFresh =? tfFresh.
Definition IsCoinBase (e : UtxoEntry) : bool := Z.land (packedFlags e) tfCoinBase =? tfCoinBase.
Definition IsSpent (e : UtxoEntry) : bool := Z.land (packedFlags e) tfSpent =? tfSpent.

(** [entry.packedFlags &^= tfModified | tfFresh] *)
Definition clearModified (e : UtxoEntry) : UtxoEntry :=
  set_flags (Z.ldiff (packedFlags e) (Z.lor tfModified tfFresh)) e.

Definition Spend (e : UtxoEntry) : UtxoEntry :=
  if IsSpent e then e else set_flags (Z.lor (packedFlags e) (Z.lor tfSpent tfModified)) e.

Definition baseEntrySize : Z := 40.

(** The capacity of the script is its length: the scripts of cached entries are
    made by [make] with that length or decoded from a row. *)
Definition memoryUsage (e : option UtxoEntry) : Z :=
  match e with None => 0 | Some e => u64 (baseEntrySize + zlen (pkScript e)) end.

Definition NewUtxoEntry (txOut : Wire.TxOut (list byte)) (height : Z) (isCoinbase : bool) : UtxoEntry :=
  {| amount := Wire.Value txOut; pkScript := Wire.PkScript txOut; blockHeight := height;
     packedFlags := if isCoinbase then tfCoinBase else 0 |}.

(** ** Outpoint keys *)

Definition maxUint32VLQSerializeSize : Z := 5.

Definition outpointKeyIn (buf : list byte) (op : Wire.OutPoint) : run (list byte) :=
  let idx := u64 (Wire.Index op) in
  n ← serializeSizeVLQ idx;
  key ← slice buf 0 (32 + n);
  let key := gocopy key (Wire.Hash op) in
  tail ← slice key 32 (zlen key);
  '(tail, _) ← putVLQ tail idx;
  Done (take 32 key ++ tail).

Definition outpointKey (op : Wire.OutPoint) : run (list byte) :=
  outpointKeyIn (replicate (32 + Z.to_nat maxUint32VLQSerializeSize) (z2b 0)) op.

(** [None] is the assertion error *)
Definition deserializeOutpointKey (key : list byte) : run (option Wire.OutPoint) :=
  if zlen key <? 32 then Done None else
  tail ← slice key 32 (zlen key);
  let '(idx, numBytes) := deserializeVLQ tail in
  if (numBytes =? 0) || negb (32 + numBytes =? zlen key) then Done None else
  hash ← slice key 0 32;
  Done (Some {| Wire.Hash := hash; Wire.Index := u32 idx |}).

(** ** Rows of the UTXO set *)

Inductive storeError := AssertError | DeserializeError | Corruption.

Section rows.
Context {K : SecKeys}.

Definition utxoEntryHeaderCode (e : UtxoEntry) : Z + storeError :=
  if IsSpent e then inr AssertError else
  let headerCode := u64 (Z.shiftl (u64 (blockHeight e)) 1) in
  inl (if IsCoinBase e then Z.lor headerCode 0x01 else headerCode).

(** [inl None] is the nil slice of a spent output. *)
Definition serializeUtxoEntry (e : UtxoEntry) : run (option (list byte) + storeError) :=
  if IsSpent e then Done (inl None) else
  match utxoEntryHeaderCode e with
  | inr err => Done (inr err)
  | inl headerCode =>
      n ← serializeSizeVLQ headerCode;
      m ← compressedTxOutSize (u64 (amount e)) (pkScript e);
      serialized ← make (z2b 0) (n + m);
      '(serialized, offset) ← putVLQ serialized headerCode;
      tail ← slice serialized offset (zlen serialized);
      '(tail, _) ← putCompressedTxOut tail (u64 (amount e)) (pkScript e);
      Done (inl (Some (take (Z.to_nat offset) serialized ++ tail)))
  end.

Definition deserializeUtxoEntry (serialized : list byte) : run (UtxoEntry + storeError) :=
  let '(code, offset) := deserializeVLQ serialized in
  if zlen serialized <=? offset then Done (inr DeserializeError) else
  let isCoinBase := negb (Z.land code 0x01 =? 0) in
  let blockHeight := i32 (Z.shiftr code 1) in
  tail ← slice serialized offset (zlen serialized);
  '(a, script, _, err) ← decodeCompressedTxOut tail;
  match err with
  | Some _ => Done (inr DeserializeError)
  | None => Done (inl {| amount := i64 a; pkScript := default [] script; blockHeight := blockHeight;
                         packedFlags := if isCoinBase then tfCoinBase else 0 |})
  end.

(** Bytewise order of keys, and the first pair at or after a key *)
Fixpoint bytesLe (a b : list byte) : bool :=
  match a, b with
  | [], _ => true
  | _ :: _, [] => false
  | x :: a, y :: b => (b2z x <? b2z y) || ((b2z x =? b2z y) && bytesLe a b)
  end.

Definition Seek (b : bucket) (key : list byte) : option (list byte * list byte) :=
  foldr (fun kv best =>
      if bytesLe key kv.1 then
        match best with
        | Some kv' => if bytesLe kv.1 kv'.1 then Some kv else Some kv'
        | None => Some kv
        end
      else best) None (map_to_list b).

Definition dbFetchUtxoEntryByHash (b : bucket) (hash : list byte) : run (option UtxoEntry + storeError) :=
  key ← outpointKey {| Wire.Hash := hash; Wire.Index := 0 |};
  match Seek b key with
  | None => Done (inl None)
  | Some (cursorKey, value) =>
      if zlen cursorKey <? 32 then Done (inl None) else
      h ← slice cursorKey 0 32;
      if negb (bool_decide (hash = h)) then Done (inl None) else
      r ← deserializeUtxoEntry value;
      Done (match r with inl e => inl (Some e) | inr err => inr err end)
  end.

Definition dbFetchUtxoEntry (b : bucket) (op : Wire.OutPoint) : run (option UtxoEntry + storeError) :=
  key ← outpointKey op;
  match b !! key with
  | None => Done (inl None)
  | Some serializedUtxo =>
      if zlen serializedUtxo =? 0 then Done (inr AssertError) else
      r ← deserializeUtxoEntry serializedUtxo;
      Done (match r with
            | inl e => inl (Some e)
            | inr DeserializeError => inr Corruption
            | inr err => inr err
            end)
  end.

Definition dbDeleteUtxoEntry (b : bucket) (op : Wire.OutPoint) : run bucket :=
  key ← outpointKey op; Done (delete key b).

(** A nil slice is stored as an empty value. *)
Definition dbPutUtxoEntry (b : bucket) (op : Wire.OutPoint) (entry : option UtxoEntry) : run (bucket + storeError) :=
  match entry with
  | None => Done (inr AssertError)
  | Some e =>
      if IsSpent e then Done (inr AssertError) else
      r ← serializeUtxoEntry e;
      match r with
      | inr err => Done (inr err)
      | inl serialized => key ← outpointKey op; Done (inl (<[key := default [] serialized]> b))
      end
  end.

(** ** The spend journal *)

Record SpentTxOut := {
  Amount : Z;
  SpentScript : list byte;
  Height : Z;
  SpentCoinBase : bool;
}.

Definition spentTxOutHeaderCode (stxo : SpentTxOut) : Z :=
  let headerCode := u64 (Z.shiftl (u64 (Height stxo)) 1) in
  if SpentCoinBase stxo then Z.lor headerCode 0x01 else headerCode.

Definition spentTxOutSerializeSize (stxo : SpentTxOut) : run Z :=
  size ← serializeSizeVLQ (spentTxOutHeaderCode stxo);
  size ← (if 0 <? Height stxo then n ← serializeSizeVLQ 0; Done (size + n) else Done size);
  n ← compressedTxOutSize (u64 (Amount stxo)) (SpentScript stxo);
  Done (size + n).

(** Writing into the slice [target[offset:]] *)
Definition putAt {A} (target : list byte) (offset : Z) (put : list byte → run (list byte * A)) : run (list byte * A) :=
  tail ← slice target offset (zlen target);
  '(tail, n) ← put tail;
  Done (take (Z.to_nat offset) target ++ tail, n).

Definition putSpentTxOut (target : list byte) (stxo : SpentTxOut) : run (list byte * Z) :=
  '(target, offset) ← putVLQ target (spentTxOutHeaderCode stxo);
  '(target, offset) ← (if 0 <? Height stxo
                       then '(target, n) ← putAt target offset (fun t => putVLQ t 0); Done (target, offset + n)
                       else Done (target, offset));
  '(target, n) ← putAt target offset (fun t => putCompressedTxOut t (u64 (Amount stxo)) (SpentScript stxo));
  Done (target, offset + n).

(** The bytes read come with the error too. *)
Definition decodeSpentTxOut (serialized : list byte) : run (Z * (SpentTxOut + storeError)) :=
  if zlen serialized =? 0 then Done (0, inr DeserializeError) else
  let '(code, offset) := deserializeVLQ serialized in
  if zlen serialized <=? offset then Done (offset, inr DeserializeError) else
  let isCoinBase := negb (Z.land code 0x01 =? 0) in
  let height := i32 (Z.shiftr code 1) in
  tail ← slice serialized offset (zlen serialized);
  let offset := if 0 <? height then offset + (deserializeVLQ tail).2 else offset in
  if (0 <? height) && (zlen serialized <=? offset) then Done (offset, inr DeserializeError) else
  tail ← slice serialized offset (zlen serialized);
  '(a, script, bytesRead, err) ← decodeCompressedTxOut tail;
  match err with
  | Some _ => Done (offset + bytesRead, inr DeserializeError)
  | None => Done (offset + bytesRead, inl {| Amount := i64 a; SpentScript := default [] script;
                                             Height := height; SpentCoinBase := isCoinBase |})
  end.

(** The two backward loops over the transactions and their inputs visit one
    output per input; [n] of them are left.  The outputs are filled in from the
    last to the first. *)
Fixpoint decodeStxos (n : nat) (serialized : list byte) (offset : Z) (stxos : list SpentTxOut) :
    run (list SpentTxOut + storeError) :=
  match n with
  | O => Done (inl stxos)
  | S n =>
      tail ← slice serialized offset (zlen serialized);
      '(k, r) ← decodeSpentTxOut tail;
      match r with
      | inr _ => Done (inr DeserializeError)
      | inl stxo => decodeStxos n serialized (offset + k) (stxo :: stxos)
      end
  end.

Definition numInputs (txns : list Wire.Tx) : nat := sum_list_with (fun tx => length (Wire.TxIns tx)) txns.

Definition deserializeSpendJournalEntry (serialized : list byte) (txns : list Wire.Tx) :
    run (list SpentTxOut + storeError) :=
  let numStxos := numInputs txns in
  if zlen serialized =? 0 then
    Done (if negb (numStxos =? 0)%nat then inr AssertError else inl [])
  else decodeStxos numStxos serialized 0 [].

Fixpoint putStxos (serialized : list byte) (offset : Z) (lastFirst : list SpentTxOut) : run (list byte) :=
  match lastFirst with
  | [] => Done serialized
  | stxo :: rest =>
      '(serialized, n) ← putAt serialized offset (fun t => putSpentTxOut t stxo);
      putStxos serialized (offset + n) rest
  end.

Fixpoint journalSize (stxos : list SpentTxOut) (size : Z) : run Z :=
  match stxos with
  | [] => Done size
  | stxo :: stxos => n ← spentTxOutSerializeSize stxo; journalSize stxos (size + n)
  end.

(** The nil slice of an empty journal is the empty value. *)
Definition serializeSpendJournalEntry (stxos : list SpentTxOut) : run (list byte) :=
  if zlen stxos =? 0 then Done [] else
  size ← journalSize stxos 0;
  serialized ← make (z2b 0) size;
  putStxos serialized 0 (reverse stxos).

Definition dbPutSpendJournalEntry (b : bucket) (blockHash : list byte) (stxos : list SpentTxOut) : run bucket :=
  serialized ← serializeSpendJournalEntry stxos; Done (<[blockHash := serialized]> b).

Definition dbRemoveSpendJournalEntry (b : bucket) (blockHash : list byte) : bucket := delete blockHash b.

Definition dbPruneSpendJournalEntry (b : bucket) (blockHashes : list (list byte)) : bucket :=
  foldl (fun b h => delete h b) b blockHashes.

Inductive journalError := NotConnected | JournalError (e : storeError).

(** An absent row reads as the nil slice; the first transaction is the coinbase.
    [d] is the database of the block index. *)
Definition dbFetchSpendJournalEntry (b : bucket) (d : ChainIO.database) (blockHash : list byte)
    (transactions : list Wire.Tx) : run (list SpentTxOut + journalError) :=
  let serialized := default [] (b !! blockHash) in
  blockTxns ← slice transactions 1 (zlen transactions);
  r ← deserializeSpendJournalEntry serialized blockTxns;
  match r with
  | inl stxos => Done (inl stxos)
  | inr err =>
      hErr ← ChainIO.dbFetchHeightByHash d blockHash;
      Done (inr (match hErr with
                 | inr ChainIO.errNotInMainChain => NotConnected
                 | _ => JournalError (match err with DeserializeError => Corruption | e => e end)
                 end))
  end.

End rows.

(** ** Flags *)

Lemma flag_bit f k : 0 ≤ k → (Z.land f (2 ^ k) =? 2 ^ k) = Z.testbit f k.
Proof.
  intros Hk. rewrite land_pow2 by done. destruct (Z.testbit f k); [apply Z.eqb_refl|].
  apply Z.eqb_neq. pose proof (Z.pow_pos_nonneg 2 k). lia.
Qed.

Lemma IsCoinBase_bit e : IsCoinBase e = Z.testbit (packedFlags e) 0.
Proof. apply (flag_bit _ 0). lia. Qed.
Lemma IsSpent_bit e : IsSpent e = Z.testbit (packedFlags e) 1.
Proof. apply (flag_bit _ 1). lia. Qed.
Lemma isModified_bit e : isModified e = Z.testbit (packedFlags e) 2.
Proof. apply (flag_bit _ 2). lia. Qed.
Lemma isFresh_bit e : isFresh e = Z.testbit (packedFlags e) 3.
Proof. apply (flag_bit _ 3). lia. Qed.

#[export] Hint Rewrite IsCoinBase_bit IsSpent_bit isModified_bit isFresh_bit : go_flags.

Lemma clearModified_flags e : IsSpent (clearModified e) = IsSpent e ∧ IsCoinBase (clearModified e) = IsCoinBase e ∧
  isModified (clearModified e) = false ∧ isFresh (clearModified e) = false.
Proof.
  autorewrite with go_flags. unfold clearModified. cbn [packedFlags set_flags]. rewrite !Z.ldiff_spec.
  change (Z.lor tfModified tfFresh) with 12. cbn. by rewrite !andb_true_r, !andb_false_r.
Qed.

Lemma Spend_flags e : IsSpent (Spend e) = true ∧ IsCoinBase (Spend e) = IsCoinBase e ∧
  (IsSpent e = false → isModified (Spend e) = true) ∧ isFresh (Spend e) = isFresh e.
Proof.
  unfold Spend. destruct (IsSpent e) eqn:E; [done|]. autorewrite with go_flags. cbn [packedFlags set_flags].
  rewrite !Z.lor_spec. change (Z.lor tfSpent tfModified) with 6. cbn.
  by rewrite !orb_true_r, !orb_false_r.
Qed.

(** ** Keys *)

Definition op_wf (op : Wire.OutPoint) : Prop := length (Wire.Hash op) = 32%nat ∧ 0 ≤ Wire.Index op < 2 ^ 32.

Definition keyOf (op : Wire.OutPoint) : list byte := Wire.Hash op ++ vlq (Wire.Index op).

Lemma zlen_vlq_hi_small f k n : 0 ≤ n < 128 ^ Z.of_nat (S k) → zlen (vlq_hi f n) ≤ Z.of_nat (S k).
Proof.
  revert k n. induction f as [|f IH]; intros k n Hn; [unfold zlen; cbn; lia|]. cbn [vlq_hi]. rewrite zlen_app, zlen_one.
  destruct (Z.leb_spec n 127); [change (@zlen byte []) with 0; lia|].
  destruct k as [|k]; [cbn in Hn; lia|].
  rewrite Nat2Z.inj_succ, Z.pow_succ_r in Hn by lia. specialize (IH k (n / 128 - 1)).
  assert (0 ≤ n / 128 - 1 < 128 ^ Z.of_nat (S k)) by (Z.div_mod_to_equations; lia). lia.
Qed.

Lemma zlen_vlq_u32 n : 0 ≤ n < 2 ^ 32 → zlen (vlq n) ≤ 5.
Proof.
  intros Hn. unfold vlq, vlq_f. rewrite zlen_app, zlen_one.
  destruct (Z.leb_spec n 127); [change (@zlen byte []) with 0; lia|].
  pose proof (zlen_vlq_hi_small 9 3 (n / 128 - 1) ltac:(zdm)). lia.
Qed.

Lemma vlq_inj a b r r' : 0 ≤ a < 2 ^ 64 → 0 ≤ b < 2 ^ 64 → vlq a ++ r = vlq b ++ r' → a = b.
Proof.
  intros Ha Hb E. pose proof (deserializeVLQ_spec a r Ha) as H. rewrite E, deserializeVLQ_spec in H by done.
  by injection H.
Qed.

Lemma outpointKey_pool buf op : length buf = 37%nat → op_wf op → outpointKeyIn buf op = Done (keyOf op).
Proof.
  intros Hb [Hh Hi]. unfold outpointKeyIn, keyOf. rewrite uwrap_small by zlia.
  rewrite serializeSizeVLQ_spec by zlia. cbn [mbind run_bind]. set (v := vlq (Wire.Index op)).
  assert (1 ≤ zlen v ≤ 5) as Hv by (split; [apply zlen_vlq|apply zlen_vlq_u32; lia]).
  rewrite Script.slice_take by (unfold zlen in *; lia). cbn [mbind run_bind].
  set (key := take (Z.to_nat (32 + zlen v)) buf).
  assert (key = take 32 key ++ drop 32 key) as Ek by (by rewrite take_drop).
  assert (length key = 32 + length v)%nat as Hk by (subst key; rewrite length_take; unfold zlen in *; lia).
  rewrite Ek, gocopy_app by (rewrite length_take; lia).
  rewrite Script.slice_from by (unfold zlen in *; lia). cbn [mbind run_bind].
  rewrite vlq_put by (unfold zlen in *; rewrite ?length_drop; fold v; lia). fold v. cbn [mbind run_bind].
  rewrite (take_app_length' (Wire.Hash op)) by lia. rewrite drop_drop, drop_ge by lia. by rewrite app_nil_r.
Qed.

Lemma outpointKey_spec op : op_wf op → outpointKey op = Done (keyOf op).
Proof. by apply outpointKey_pool. Qed.

Lemma keyOf_inj op op' : op_wf op → op_wf op' → keyOf op = keyOf op' → op = op'.
Proof.
  intros [Hh Hi] [Hh' Hi'] E. unfold keyOf in E. apply app_inj_1 in E as [E1 E2]; [|lia].
  rewrite <-(app_nil_r (vlq (Wire.Index op))), <-(app_nil_r (vlq (Wire.Index op'))) in E2.
  apply vlq_inj in E2; [|zlia..]. destruct op, op'. cbn in *. congruence.
Qed.

Lemma deserializeOutpointKey_spec op : op_wf op → deserializeOutpointKey (keyOf op) = Done (Some op).
Proof.
  intros [Hh Hi]. unfold deserializeOutpointKey, keyOf. set (v := vlq (Wire.Index op)).
  assert (1 ≤ zlen v) by apply zlen_vlq. assert (zlen (Wire.Hash op) = 32) as El by (unfold zlen; lia).
  rewrite zlen_app, El. destruct (Z.ltb_spec (32 + zlen v) 32); [lia|].
  rewrite (Script.slice_from (Wire.Hash op) v 32) by (rewrite ?zlen_app, ?El; reflexivity). cbn [mbind run_bind].
  pose proof (deserializeVLQ_spec (Wire.Index op) [] ltac:(zlia)) as Ev. rewrite app_nil_r in Ev. fold v in Ev. rewrite Ev.
  destruct (Z.eqb_spec (zlen v) 0); [lia|]. rewrite Z.eqb_refl. cbn [orb negb].
  rewrite Script.slice_take by (rewrite ?length_app; lia). cbn [mbind run_bind].
  rewrite take_app_length' by lia. rewrite uwrap_small by zlia. by destruct op.
Qed.

(** ** Rows *)

Section row_lemmas.
Context {K : SecKeys} {Kok : SecKeysOk K}.

(** What the format can hold *)
Definition entry_ok (e : UtxoEntry) : Prop :=
  0 ≤ blockHeight e < 2 ^ 31 ∧ amount e < 2 ^ 60 ∧ storable (amount e) (pkScript e).

Definition codeOf (height : Z) (coinbase : bool) : Z := 2 * height + Z.b2z coinbase.

Lemma codeOf_build h cb : 0 ≤ h < 2 ^ 31 →
  (if cb : bool then Z.lor (u64 (Z.shiftl (u64 h) 1)) 0x01 else u64 (Z.shiftl (u64 h) 1)) = codeOf h cb.
Proof.
  intros Hh. rewrite (uwrap_small 64 h) by zlia. rewrite Z.shiftl_mul_pow2 by lia. rewrite uwrap_small by zlia.
  unfold codeOf. destruct cb; cbn [Z.b2z]; [|zlia]. rewrite (lor_pack h 1 1) by lia. zlia.
Qed.

Lemma codeOf_split h cb : 0 ≤ h < 2 ^ 31 →
  negb (Z.land (codeOf h cb) 0x01 =? 0) = cb ∧ i32 (Z.shiftr (codeOf h cb) 1) = h ∧ 0 ≤ codeOf h cb < 2 ^ 33.
Proof.
  intros Hh. unfold codeOf. pose proof (Z.land_ones (2 * h + Z.b2z cb) 1 ltac:(lia)) as El.
  change (Z.ones 1) with 1 in El. rewrite El, Z.shiftr_div_pow2 by lia.
  change (2 ^ 1) with 2. split_and!; [| |destruct cb; cbn [Z.b2z]; zlia..].
  - replace ((2 * h + Z.b2z cb) `mod` 2) with (Z.b2z cb) by (destruct cb; cbn [Z.b2z]; zdm). by destruct cb.
  - replace ((2 * h + Z.b2z cb) / 2) with h by (destruct cb; cbn [Z.b2z]; zdm). apply swrap_small; zlia.
Qed.

Definition rowOf (e : UtxoEntry) : list byte :=
  vlq (codeOf (blockHeight e) (IsCoinBase e)) ++ ctxout (amount e) (pkScript e).

Lemma serializeUtxoEntry_spec e : entry_ok e → IsSpent e = false → serializeUtxoEntry e = Done (inl (Some (rowOf e))).
Proof.
  intros (Hh & Ha & Hs) Hu. assert (0 ≤ amount e) by apply Hs. unfold serializeUtxoEntry, utxoEntryHeaderCode. rewrite Hu.
  destruct (codeOf_split (blockHeight e) (IsCoinBase e) Hh) as (_ & _ & Hc).
  rewrite codeOf_build by done. rewrite (uwrap_small 64 (amount e)) by zlia.
  rewrite serializeSizeVLQ_spec by zlia. cbn [mbind run_bind]. rewrite ctxout_size by done. cbn [mbind run_bind].
  set (v := vlq (codeOf _ _)). set (c := ctxout _ _). pose proof (zlen_nonneg v). pose proof (zlen_nonneg c).
  unfold make. rewrite decide_True by lia. cbn [mbind run_bind]. set (buf := replicate _ _).
  assert (length buf = length v + length c)%nat as Hb by (subst buf; rewrite length_replicate; unfold zlen; lia).
  rewrite vlq_put by (fold v; unfold zlen in *; zlia). fold v. cbn [mbind run_bind].
  rewrite Script.slice_from by done. cbn [mbind run_bind].
  rewrite ctxout_put by (fold c; try (unfold zlen; rewrite length_drop); done || lia). fold c. cbn [mbind run_bind].
  unfold rowOf. fold v c. replace (Z.to_nat (zlen v)) with (length v) by (unfold zlen; lia).
  rewrite take_app_length, drop_drop, drop_ge, app_nil_r by lia. done.
Qed.

(** The entry read back: the flags are those of a clean entry. *)
Definition cleaned (e : UtxoEntry) : UtxoEntry := set_flags (if IsCoinBase e then tfCoinBase else 0) e.

Lemma deserializeUtxoEntry_spec e : entry_ok e → deserializeUtxoEntry (rowOf e) = Done (inl (cleaned e)).
Proof.
  intros (Hh & Ha & Hs). assert (0 ≤ amount e) by apply Hs. unfold deserializeUtxoEntry, rowOf.
  destruct (codeOf_split (blockHeight e) (IsCoinBase e) Hh) as (E1 & E2 & Hc).
  rewrite deserializeVLQ_spec by zlia. pose proof (zlen_ctxout (amount e) (pkScript e)).
  destruct (Z.leb_spec (zlen (vlq (codeOf (blockHeight e) (IsCoinBase e)) ++ ctxout (amount e) (pkScript e)))
    (zlen (vlq (codeOf (blockHeight e) (IsCoinBase e))))); [rewrite zlen_app in *; lia|].
  rewrite Script.slice_from by done. cbn [mbind run_bind].
  pose proof (ctxout_decode (amount e) (pkScript e) [] Hs) as Ed. rewrite app_nil_r in Ed. rewrite Ed. cbn [mbind run_bind].
  rewrite E1, E2, swrap_small by zlia. done.
Qed.

Lemma rowOf_nonempty e : (zlen (rowOf e) =? 0) = false.
Proof.
  apply Z.eqb_neq. unfold rowOf. rewrite zlen_app. pose proof (zlen_ctxout (amount e) (pkScript e)).
  pose proof (zlen_nonneg (vlq (codeOf (blockHeight e) (IsCoinBase e)))). lia.
Qed.

Lemma put_spec b op e : op_wf op → entry_ok e → IsSpent e = false →
  dbPutUtxoEntry b op (Some e) = Done (inl (<[keyOf op := rowOf e]> b)).
Proof.
  intros Ho He Hu. unfold dbPutUtxoEntry. rewrite Hu, serializeUtxoEntry_spec by done. cbn [mbind run_bind].
  by rewrite outpointKey_spec.
Qed.

Lemma fetch_spec b op : op_wf op →
  (∀ e, entry_ok e → b !! keyOf op = Some (rowOf e) → dbFetchUtxoEntry b op = Done (inl (Some (cleaned e)))) ∧
  (b !! keyOf op = None → dbFetchUtxoEntry b op = Done (inl None)).
Proof.
  intros Ho. unfold dbFetchUtxoEntry. rewrite outpointKey_spec by done. cbn [mbind run_bind]. split.
  - intros e He ->. rewrite rowOf_nonempty. by rewrite deserializeUtxoEntry_spec.
  - by intros ->.
Qed.

Lemma delete_spec b op : op_wf op → dbDeleteUtxoEntry b op = Done (delete (keyOf op) b).
Proof. intros Ho. unfold dbDeleteUtxoEntry. by rewrite outpointKey_spec. Qed.

(** The rows of the UTXO set are a map from outpoints to clean
    entries: an unspent entry that is stored under its outpoint is read back with
    its amount, script, height and coinbase flag, the rows of other outpoints are
    unchanged, a deleted row is gone, and the key decodes to its outpoint. *)
Theorem utxo_row_roundtrip (b : bucket) (op op' : Wire.OutPoint) (e : UtxoEntry) :
  op_wf op → op_wf op' → entry_ok e → IsSpent e = false →
  deserializeOutpointKey (keyOf op) = Done (Some op) ∧
  ∃ b' bd, dbPutUtxoEntry b op (Some e) = Done (inl b') ∧ dbDeleteUtxoEntry b' op = Done bd ∧
    dbFetchUtxoEntry b' op = Done (inl (Some (cleaned e))) ∧ dbFetchUtxoEntry bd op = Done (inl None) ∧
    (op' ≠ op → dbFetchUtxoEntry b' op' = dbFetchUtxoEntry b op' ∧ dbFetchUtxoEntry bd op' = dbFetchUtxoEntry b op').
Proof.
  intros Ho Ho' He Hu. split; [by apply deserializeOutpointKey_spec|].
  rewrite put_spec by done. do 2 eexists. split; [done|]. rewrite delete_spec by done. split; [done|].
  split; [apply fetch_spec; [done..|]; by simplify_map_eq|].
  split; [apply fetch_spec; [done|]; by simplify_map_eq|]. intros Hne.
  assert (keyOf op ≠ keyOf op') by (intros E; apply keyOf_inj in E; [congruence|done..]).
  unfold dbFetchUtxoEntry. rewrite outpointKey_spec by done. cbn [mbind run_bind].
  by rewrite lookup_delete_ne, !lookup_insert_ne by done.
Qed.

(** ** The rows as a map from outpoints to entries *)

Definition row_ok (op : Wire.OutPoint) (e : UtxoEntry) : Prop := op_wf op ∧ entry_ok e ∧ e = cleaned e.

Definition rows (b : bucket) (m : gmap Wire.OutPoint UtxoEntry) : Prop :=
  map_Forall row_ok m ∧
  (∀ op, op_wf op → b !! keyOf op = rowOf <$> m !! op) ∧
  (∀ key, is_Some (b !! key) → ∃ op, op_wf op ∧ key = keyOf op).

Lemma cleaned_flags e : IsCoinBase (cleaned e) = IsCoinBase e ∧ IsSpent (cleaned e) = false ∧
  isModified (cleaned e) = false ∧ isFresh (cleaned e) = false.
Proof. unfold cleaned. destruct (IsCoinBase e); by split_and!. Qed.

Lemma cleaned_idem e : cleaned (cleaned e) = cleaned e.
Proof. unfold cleaned at 1. destruct (cleaned_flags e) as [-> _]. done. Qed.

Lemma rowOf_cleaned e : rowOf (cleaned e) = rowOf e.
Proof. unfold rowOf. by destruct (cleaned_flags e) as [-> _]. Qed.

Lemma rows_empty : rows ∅ ∅.
Proof. split; [apply map_Forall_empty|]. split; [intros; by rewrite !lookup_empty|]. intros key [? E]. by rewrite lookup_empty in E. Qed.

Lemma rows_fetch b m op : rows b m → op_wf op → dbFetchUtxoEntry b op = Done (inl (m !! op)).
Proof.
  intros (Hm & Hb & _) Ho. destruct (fetch_spec b op Ho) as [Hs Hn]. rewrite Hb in Hs, Hn by done.
  destruct (m !! op) as [e|] eqn:E; [|by apply Hn].
  destruct (Hm _ _ E) as (_ & He & Hc). rewrite Hc at 1. by apply Hs.
Qed.

Lemma rows_put b m op e : rows b m → op_wf op → entry_ok e → IsSpent e = false →
  ∃ b', dbPutUtxoEntry b op (Some e) = Done (inl b') ∧ rows b' (<[op := cleaned e]> m).
Proof.
  intros (Hm & Hb & Hk) Ho He Hu. rewrite put_spec by done. eexists. split; [done|]. split_and!.
  - apply map_Forall_insert_2; [|done]. split_and!; [done| |by rewrite cleaned_idem]. by destruct He.
  - intros op' Ho'. destruct (decide (op' = op)) as [->|Hne].
    + rewrite !lookup_insert_eq. cbn. by rewrite rowOf_cleaned.
    + rewrite !lookup_insert_ne; [by apply Hb|done|]. intros E%keyOf_inj; [congruence|done..].
  - intros key [r Hr]. destruct (decide (key = keyOf op)) as [->|Hne]; [by exists op|].
    rewrite lookup_insert_ne in Hr by done. by apply Hk.
Qed.

Lemma rows_delete b m op : rows b m → op_wf op →
  ∃ b', dbDeleteUtxoEntry b op = Done b' ∧ rows b' (delete op m).
Proof.
  intros (Hm & Hb & Hk) Ho. rewrite delete_spec by done. eexists. split; [done|]. split_and!.
  - by apply map_Forall_delete.
  - intros op' Ho'. destruct (decide (op' = op)) as [->|Hne]; [by rewrite !lookup_delete_eq|].
    rewrite !lookup_delete_ne; [by apply Hb|done|]. intros E%keyOf_inj; [congruence|done..].
  - intros key [r Hr]. apply lookup_delete_Some in Hr as [_ Hr]. by apply Hk.
Qed.

(** ** Seeking *)

Lemma bytesLe_refl a : bytesLe a a = true.
Proof. induction a as [|x a IH]; [done|]. cbn. by rewrite Z.eqb_refl, IH, orb_true_r. Qed.

Lemma bytesLe_cons x a y b : bytesLe (x :: a) (y :: b) = true ↔ b2z x < b2z y ∨ (x = y ∧ bytesLe a b = true).
Proof.
  cbn. rewrite orb_true_iff, andb_true_iff, Z.ltb_lt, Z.eqb_eq. split; intros [|[Hx Hb]]; [by left| |by left|].
  - right. split; [by apply b2z_inj|done].
  - right. by subst.
Qed.

Lemma bytesLe_trans a b c : bytesLe a b = true → bytesLe b c = true → bytesLe a c = true.
Proof.
  revert b c. induction a as [|x a IH]; intros [|y b] [|z c]; try done. rewrite !bytesLe_cons.
  intros [H1|[-> H1]] [H2|[-> H2]]; [left; lia|by left..|]. right. eauto.
Qed.

Lemma bytesLe_total a b : bytesLe a b = true ∨ bytesLe b a = true.
Proof.
  revert b. induction a as [|x a IH]; intros [|y b]; [by left..|by right|]. rewrite !bytesLe_cons.
  destruct (Z.lt_trichotomy (b2z x) (b2z y)) as [|[E|]]; [tauto| |tauto].
  apply b2z_inj in E as ->. destruct (IH b); tauto.
Qed.

(** A key between two keys with the same prefix has that prefix. *)
Lemma bytesLe_prefix h a b k : (length h ≤ length k)%nat →
  bytesLe (h ++ a) k = true → bytesLe k (h ++ b) = true → take (length h) k = h.
Proof.
  revert k. induction h as [|x h IH]; intros [|y k]; cbn [length]; [done..|lia|]. intros Hl. cbn [app take].
  rewrite !bytesLe_cons. intros [H1|[-> H1]] [H2|[E H2]]; [lia|subst; lia..|]. f_equal. apply (IH k); [lia|done..].
Qed.

Lemma Seek_spec b key : match Seek b key with
  | Some kv => b !! kv.1 = Some kv.2 ∧ bytesLe key kv.1 = true ∧
      (∀ k, is_Some (b !! k) → bytesLe key k = true → bytesLe kv.1 k = true)
  | None => ∀ k, is_Some (b !! k) → bytesLe key k = false
  end.
Proof.
  unfold Seek.
  assert (∀ l : list (list byte * list byte), match foldr (fun kv best => if bytesLe key kv.1 then
        match best with Some kv' => if bytesLe kv.1 kv'.1 then Some kv else Some kv' | None => Some kv end
      else best) None l with
    | Some kv => kv ∈ l ∧ bytesLe key kv.1 = true ∧ (∀ kv', kv' ∈ l → bytesLe key kv'.1 = true → bytesLe kv.1 kv'.1 = true)
    | None => ∀ kv, kv ∈ l → bytesLe key kv.1 = false end) as H.
  { induction l as [|kv l IH]; cbn [foldr]; [by intros ? ?%elem_of_nil|].
    destruct (bytesLe key kv.1) eqn:Ek.
    - destruct (foldr _ None l) as [kv'|].
      + destruct IH as (Hi & Hk & Hm). destruct (bytesLe kv.1 kv'.1) eqn:El; (split; [set_solver|]; split; [done|]).
        * intros q [->|Hq]%elem_of_cons Hle; [apply bytesLe_refl|]. eapply bytesLe_trans; [done|by apply Hm].
        * intros q [->|Hq]%elem_of_cons Hle; [|by apply Hm]. destruct (bytesLe_total kv.1 kv'.1); [congruence|done].
      + split; [set_solver|]. split; [done|]. intros q [->|Hq]%elem_of_cons Hle; [apply bytesLe_refl|].
        by rewrite IH in Hle.
    - destruct (foldr _ None l) as [kv'|].
      + destruct IH as (Hi & Hk & Hm). split; [set_solver|]. split; [done|].
        intros q [->|Hq]%elem_of_cons Hle; [congruence|by apply Hm].
      + intros q [->|Hq]%elem_of_cons; [done|by apply IH]. }
  specialize (H (map_to_list b)). destruct (foldr _ None _) as [[k v]|].
  - destruct H as (Hi & Hk & Hm). apply elem_of_map_to_list in Hi. split; [done|]. split; [done|].
    intros k' [v' Hv]. apply (Hm (k', v')). by apply elem_of_map_to_list.
  - intros k [v Hv]. apply (H (k, v)). by apply elem_of_map_to_list.
Qed.

(** [dbFetchUtxoEntryByHash] answers for a whole transaction: on
    a well-formed UTXO set it returns the entry of some output of the transaction
    when one is stored and nil otherwise; seeking the key of output zero cannot
    stop at another transaction when the requested one has outputs left. *)
Theorem fetch_by_hash (b : bucket) (m : gmap Wire.OutPoint UtxoEntry) (hs : list byte) :
  rows b m → length hs = 32%nat →
  (∃ op e, dbFetchUtxoEntryByHash b hs = Done (inl (Some e)) ∧ m !! op = Some e ∧ Wire.Hash op = hs) ∨
  (dbFetchUtxoEntryByHash b hs = Done (inl None) ∧ ∀ op, Wire.Hash op = hs → m !! op = None).
Proof.
  intros (Hm & Hb & Hk) Hl. unfold dbFetchUtxoEntryByHash. rewrite outpointKey_spec by (by split).
  cbn [mbind run_bind]. set (key := keyOf _). pose proof (Seek_spec b key) as Hs.
  assert (∀ op, Wire.Hash op = hs → is_Some (m !! op) → is_Some (b !! keyOf op) ∧ bytesLe key (keyOf op) = true) as Hin.
  { intros op Eh [e He]. destruct (Hm _ _ He) as (Ho & _). rewrite Hb, He by done. split; [by eexists|].
    unfold key, keyOf. cbn [Wire.Hash Wire.Index]. rewrite Eh. clear -Ho. induction hs as [|x hs IH]; cbn [app].
    - change (vlq 0) with [z2b 0]. destruct (vlq (Wire.Index op)) as [|y l] eqn:E.
      { pose proof (zlen_vlq (Wire.Index op)) as Hz. rewrite E in Hz. unfold zlen in Hz. cbn in Hz. lia. }
      rewrite bytesLe_cons. change (b2z (z2b 0)) with 0. pose proof (b2z_range y).
      destruct (decide (b2z y = 0)) as [Ey|]; [right|left; lia]. split; [by apply b2z_inj|done].
    - rewrite bytesLe_cons. by right. }
  destruct (Seek b key) as [[k v]|]; cbn [fst snd] in Hs.
  2: { right. split; [done|]. intros op Eh. destruct (m !! op) as [e|] eqn:Eo; [|done].
       destruct (Hin op Eh (ex_intro _ e Eo)) as [Hi Hle]. by rewrite Hs in Hle. }
  destruct Hs as (Hkv & Hle & Hmin). destruct (Hk k (ex_intro _ v Hkv)) as (op & Ho & ->).
  assert ((zlen (keyOf op) <? 32) = false) as ->.
  { apply Z.ltb_ge. unfold keyOf. rewrite zlen_app. destruct Ho as [Ho _]. unfold zlen at 1. rewrite Ho.
    pose proof (zlen_nonneg (vlq (Wire.Index op))). lia. }
  rewrite Script.slice_take by (unfold keyOf; rewrite ?length_app; destruct Ho; lia). cbn [mbind run_bind].
  replace (take (Z.to_nat 32) (keyOf op)) with (Wire.Hash op)
    by (unfold keyOf; rewrite take_app_length'; [done|destruct Ho; lia]).
  rewrite Hb in Hkv by done. destruct (m !! op) as [e|] eqn:Em; [|done]. cbn in Hkv. injection Hkv as <-.
  destruct (decide (hs = Wire.Hash op)) as [E|E].
  - left. rewrite bool_decide_true by done. cbn [negb]. destruct (Hm _ _ Em) as (_ & He & Hc).
    rewrite deserializeUtxoEntry_spec by done. cbn [mbind run_bind]. rewrite <-Hc. by exists op, e.
  - right. rewrite bool_decide_false by done. split; [done|]. intros op' Eh'.
    destruct (m !! op') as [e'|] eqn:Em'; [|done]. destruct (Hin op' Eh' (ex_intro _ e' Em')) as [Hi' Hle'].
    specialize (Hmin _ Hi' Hle'). exfalso. apply E. unfold key, keyOf in Hle, Hmin. cbn [Wire.Hash Wire.Index] in Hle.
    rewrite Eh' in Hmin. pose proof (bytesLe_prefix hs _ _ (Wire.Hash op ++ vlq (Wire.Index op))
      ltac:(rewrite length_app; destruct Ho; lia) Hle Hmin) as Hp.
    rewrite Hl in Hp. destruct Ho as [Ho _]. rewrite take_app_length' in Hp by done. done.
Qed.

(** ** The journal *)

Definition stxo_ok (s : SpentTxOut) : Prop :=
  0 ≤ Height s < 2 ^ 31 ∧ Amount s < 2 ^ 60 ∧ storable (Amount s) (SpentScript s).

Definition stxoBytes (s : SpentTxOut) : list byte :=
  vlq (codeOf (Height s) (SpentCoinBase s)) ++ (if 0 <? Height s then vlq 0 else []) ++
  ctxout (Amount s) (SpentScript s).

Lemma zlen_stxoBytes s : 3 ≤ zlen (stxoBytes s).
Proof.
  unfold stxoBytes. rewrite !zlen_app. pose proof (zlen_vlq (codeOf (Height s) (SpentCoinBase s))).
  pose proof (zlen_ctxout (Amount s) (SpentScript s)). pose proof (zlen_nonneg (if 0 <? Height s then vlq 0 else [])). lia.
Qed.

(** [put] writes the bytes [w] at the start of its target and returns their number. *)
Definition writes (put : list byte → run (list byte * Z)) (w : list byte) : Prop :=
  ∀ t, zlen w ≤ zlen t → put t = Done (w ++ drop (length w) t, zlen w).

Lemma writes_vlq n : 0 ≤ n < 2 ^ 64 → writes (fun t => putVLQ t n) (vlq n).
Proof. intros Hn t Ht. by apply vlq_put. Qed.

Lemma writes_ctxout a s : storable a s → writes (fun t => putCompressedTxOut t a s) (ctxout a s).
Proof. intros Hs t Ht. by apply ctxout_put. Qed.

Lemma putAt_spec put w pre rest off : writes put w → off = zlen pre → zlen w ≤ zlen rest →
  putAt (pre ++ rest) off put = Done (pre ++ w ++ drop (length w) rest, zlen w).
Proof.
  intros Hw -> Hl. unfold putAt. rewrite Script.slice_from by done. cbn [mbind run_bind]. rewrite Hw by done.
  cbn [mbind run_bind]. replace (Z.to_nat (zlen pre)) with (length pre) by (unfold zlen; lia).
  by rewrite take_app_length.
Qed.

Lemma spentHeader s : stxo_ok s → spentTxOutHeaderCode s = codeOf (Height s) (SpentCoinBase s) ∧
  0 ≤ codeOf (Height s) (SpentCoinBase s) < 2 ^ 64 ∧ u64 (Amount s) = Amount s.
Proof.
  intros (Hh & Ha & Hs). unfold spentTxOutHeaderCode. rewrite codeOf_build by done.
  pose proof (codeOf_split (Height s) (SpentCoinBase s) Hh) as (_ & _ & Hc).
  split; [done|]. split; [zlia|]. apply uwrap_small. destruct Hs. zlia.
Qed.

Lemma stxo_size s : stxo_ok s → spentTxOutSerializeSize s = Done (zlen (stxoBytes s)).
Proof.
  intros Hs. destruct (spentHeader s Hs) as (E1 & E2 & E3). unfold spentTxOutSerializeSize, stxoBytes.
  rewrite E1, E3, (serializeSizeVLQ_spec _ E2). cbn [mbind run_bind]. destruct Hs as (Hh & Ha & Hst).
  rewrite !zlen_app. destruct (0 <? Height s).
  - rewrite serializeSizeVLQ_spec by zlia. cbn [mbind run_bind]. rewrite ctxout_size by done. cbn [mbind run_bind].
    f_equal. lia.
  - cbn [mbind run_bind]. rewrite ctxout_size by done. cbn [mbind run_bind]. done.
Qed.

Lemma writes_stxo s : stxo_ok s → writes (fun t => putSpentTxOut t s) (stxoBytes s).
Proof.
  intros Hs t Ht. destruct (spentHeader s Hs) as (E1 & E2 & E3). destruct Hs as (Hh & Ha & Hst).
  unfold putSpentTxOut, stxoBytes in *. rewrite E1, E3. set (v := vlq (codeOf _ _)) in *. set (c := ctxout _ _) in *.
  rewrite !zlen_app in *. pose proof (zlen_nonneg c). pose proof (zlen_nonneg v).
  assert (0 ≤ zlen (if 0 <? Height s then vlq 0 else [])) by apply zlen_nonneg.
  rewrite (writes_vlq _ E2) by (fold v; lia). fold v. cbn [mbind run_bind].
  destruct (0 <? Height s).
  - rewrite (putAt_spec _ _ v (drop (length v) t) (zlen v) (writes_vlq 0 ltac:(zlia)) eq_refl)
      by (unfold zlen in *; rewrite length_drop; lia).
    cbn [mbind run_bind]. rewrite (app_assoc v).
    rewrite (putAt_spec _ c (v ++ vlq 0) _ _ (writes_ctxout _ _ Hst))
      by (rewrite ?zlen_app; unfold zlen in *; rewrite ?length_drop; lia).
    cbn [mbind run_bind]. rewrite !drop_drop, <-!app_assoc, !length_app. do 2 f_equal. lia.
  - cbn [mbind run_bind]. rewrite (putAt_spec _ c v _ _ (writes_ctxout _ _ Hst) eq_refl)
      by (unfold zlen in *; rewrite length_drop; cbn in *; lia).
    cbn [mbind run_bind app]. change (@zlen byte []) with 0. rewrite drop_drop, <-app_assoc, length_app.
    done.
Qed.

Lemma stxo_decode s rest : stxo_ok s → decodeSpentTxOut (stxoBytes s ++ rest) = Done (zlen (stxoBytes s), inl s).
Proof.
  intros Hs. destruct (spentHeader s Hs) as (_ & E2 & E3). destruct Hs as (Hh & Ha & Hst).
  destruct (codeOf_split (Height s) (SpentCoinBase s) Hh) as (F1 & F2 & _).
  unfold decodeSpentTxOut, stxoBytes. set (v := vlq (codeOf _ _)). set (c := ctxout _ _).
  assert (1 ≤ zlen v) by apply zlen_vlq. assert (2 ≤ zlen c) by apply zlen_ctxout. pose proof (zlen_nonneg rest).
  set (m := if 0 <? Height s then vlq 0 else []). assert (0 ≤ zlen m) by apply zlen_nonneg.
  rewrite <-!app_assoc. destruct (Z.eqb_spec (zlen (v ++ m ++ c ++ rest)) 0); [rewrite !zlen_app in *; lia|].
  unfold v at 1. rewrite deserializeVLQ_spec by done. fold v.
  destruct (Z.leb_spec (zlen (v ++ m ++ c ++ rest)) (zlen v)); [rewrite !zlen_app in *; lia|].
  rewrite F1, F2. rewrite Script.slice_from by done. cbn [mbind run_bind].
  assert ((if 0 <? Height s then zlen v + (deserializeVLQ (m ++ c ++ rest)).2 else zlen v) = zlen (v ++ m)) as ->.
  { rewrite zlen_app. subst m. destruct (0 <? Height s); [|change (@zlen byte []) with 0; lia].
    rewrite deserializeVLQ_spec by zlia. done. }
  assert ((0 <? Height s) && (zlen (v ++ m ++ c ++ rest) <=? zlen (v ++ m)) = false) as ->.
  { apply andb_false_iff. right. apply Z.leb_gt. rewrite !zlen_app. lia. }
  rewrite app_assoc, Script.slice_from by done. cbn [mbind run_bind]. unfold c at 1. rewrite ctxout_decode by done.
  fold c. cbn [mbind run_bind]. do 2 f_equal; [rewrite !zlen_app; lia|]. f_equal.
  rewrite swrap_small; [by destruct s|lia|]. destruct Hst. zlia.
Qed.

Lemma journal_size l n : Forall stxo_ok l → journalSize l n = Done (n + zlen (concat (map stxoBytes l))).
Proof.
  intros Hl. revert n. induction Hl as [|s l Hs _ IH]; intros n; cbn [journalSize map concat].
  { change (@zlen byte []) with 0. by rewrite Z.add_0_r. }
  rewrite stxo_size by done. cbn [mbind run_bind]. rewrite IH, zlen_app. f_equal. lia.
Qed.

Lemma putStxos_spec l pre rest off : Forall stxo_ok l → off = zlen pre → zlen (concat (map stxoBytes l)) ≤ zlen rest →
  putStxos (pre ++ rest) off l =
    Done (pre ++ concat (map stxoBytes l) ++ drop (length (concat (map stxoBytes l))) rest).
Proof.
  intros Hl. revert pre rest off. induction Hl as [|s l Hs _ IH]; intros pre rest off -> Hr; cbn [putStxos map concat]; [done|].
  cbn [map concat] in Hr. rewrite zlen_app in Hr. pose proof (zlen_nonneg (concat (map stxoBytes l))).
  pose proof (zlen_nonneg (stxoBytes s)).
  rewrite (putAt_spec _ _ _ _ _ (writes_stxo s Hs)) by (done || lia). cbn [mbind run_bind].
  rewrite app_assoc, IH; [|by rewrite zlen_app|unfold zlen in *; rewrite length_drop; lia].
  by rewrite <-!app_assoc, drop_drop, length_app.
Qed.

Lemma decodeStxos_spec l pre off acc : Forall stxo_ok l → off = zlen pre →
  decodeStxos (length l) (pre ++ concat (map stxoBytes l)) off acc = Done (inl (reverse l ++ acc)).
Proof.
  intros Hl. revert pre off acc. induction Hl as [|s l Hs _ IH]; intros pre off acc ->; cbn [decodeStxos map concat length]; [done|].
  rewrite Script.slice_from by done. cbn [mbind run_bind]. rewrite stxo_decode by done. cbn [mbind run_bind].
  rewrite app_assoc, IH by (by rewrite zlen_app). by rewrite reverse_cons, <-app_assoc.
Qed.

Lemma concat_perm_zlen (l l' : list SpentTxOut) : l ≡ₚ l' →
  zlen (concat (map stxoBytes l)) = zlen (concat (map stxoBytes l')).
Proof.
  induction 1 as [|x l l' _ IH|x y l|l l' l'' _ IH1 _ IH2]; [done| | |congruence].
  - cbn. rewrite !zlen_app. lia.
  - cbn. rewrite !zlen_app. lia.
Qed.

Lemma serializeJournal_spec l : Forall stxo_ok l →
  serializeSpendJournalEntry l = Done (concat (map stxoBytes (reverse l))).
Proof.
  intros Hl. unfold serializeSpendJournalEntry. destruct (Z.eqb_spec (zlen l) 0) as [E|].
  { destruct l; [done|]. rewrite zlen_cons in E. pose proof (zlen_nonneg l). lia. }
  rewrite journal_size by done. cbn [mbind run_bind]. rewrite Z.add_0_l. unfold make.
  rewrite decide_True by apply zlen_nonneg. cbn [mbind run_bind].
  set (buf := replicate _ _). assert (zlen buf = zlen (concat (map stxoBytes l))) as Hb
    by (subst buf; unfold zlen; rewrite length_replicate; lia).
  pose proof (putStxos_spec (reverse l) [] buf 0) as Hp. cbn [app] in Hp. rewrite Hp.
  - rewrite drop_ge; [by rewrite app_nil_r|]. rewrite (concat_perm_zlen (reverse l) l) in * by apply reverse_Permutation.
    rewrite (concat_perm_zlen l (reverse l)) in Hb by (by rewrite reverse_Permutation). unfold zlen in *. lia.
  - by apply Forall_reverse.
  - done.
  - rewrite (concat_perm_zlen (reverse l) l) by apply reverse_Permutation. lia.
Qed.

Lemma deserializeJournal_spec l txns : Forall stxo_ok l → numInputs txns = length l →
  deserializeSpendJournalEntry (concat (map stxoBytes (reverse l))) txns = Done (inl l).
Proof.
  intros Hl Hn. unfold deserializeSpendJournalEntry. rewrite Hn. destruct l as [|s l _] using rev_ind; [done|].
  rewrite reverse_app. cbn [reverse rev_append app map concat].
  destruct (Z.eqb_spec (zlen (stxoBytes s ++ concat (map stxoBytes (reverse l)))) 0) as [E|].
  { rewrite zlen_app in E. pose proof (zlen_stxoBytes s). pose proof (zlen_nonneg (concat (map stxoBytes (reverse l)))). lia. }
  pose proof (decodeStxos_spec (reverse (l ++ [s])) [] 0 []) as Hd. rewrite length_reverse, reverse_involutive in Hd.
  rewrite app_nil_r in Hd. cbn [app] in Hd. rewrite reverse_app in Hd. cbn [reverse rev_append app map concat] in Hd.
  apply Hd; [|done]. rewrite <-reverse_snoc. by apply Forall_reverse.
Qed.

(** The spend journal of a block round trips: the outputs spent by
    its transactions, stored last first without their count, are read back in
    order with their amounts, scripts, heights and coinbase flags when the inputs
    of the transactions after the coinbase are as many as the outputs. *)
Theorem journal_roundtrip (b : bucket) (d : ChainIO.database) (hs : list byte) (coinbase : Wire.Tx)
    (txns : list Wire.Tx) (stxos : list SpentTxOut) :
  Forall stxo_ok stxos → numInputs txns = length stxos →
  ∃ b', dbPutSpendJournalEntry b hs stxos = Done b' ∧
    dbFetchSpendJournalEntry b' d hs (coinbase :: txns) = Done (inl stxos).
Proof.
  intros Hs Hn. unfold dbPutSpendJournalEntry. rewrite serializeJournal_spec by done. eexists. split; [done|].
  unfold dbFetchSpendJournalEntry. rewrite lookup_insert_eq. cbn [from_option]; unfold id.
  rewrite Compress.slice_tail1 by (by rewrite zlen_cons). cbn [mbind run_bind].
  by rewrite deserializeJournal_spec.
Qed.

End row_lemmas.

(** ** Witnesses *)

#[local] Existing Instance Compress.toyKeys.
#[local] Existing Instance Compress.toyKeysOk.

Definition toyOp (n : Z) : Wire.OutPoint := {| Wire.Hash := replicate 32 (z2b n); Wire.Index := 300 |}.
Definition toyEntry (n : Z) : UtxoEntry :=
  {| amount := 5000000000; pkScript := sampleScript; blockHeight := n; packedFlags := 13 |}.

Lemma toyOp_wf n : op_wf (toyOp n).
Proof. split; [done|split; done]. Qed.

Lemma toyEntry_ok n : 0 ≤ n < 2 ^ 31 → entry_ok (toyEntry n).
Proof. intros Hn. split; [done|]. split; [done|]. split; [done|]. split; [done|]. vm_compute. done. Qed.

Lemma utxo_row_roundtrip_witness :
  ∃ b', dbPutUtxoEntry ∅ (toyOp 1) (Some (toyEntry 7)) = Done (inl b') ∧
    dbFetchUtxoEntry b' (toyOp 1) = Done (inl (Some (cleaned (toyEntry 7)))) ∧
    dbFetchUtxoEntry b' (toyOp 2) = Done (inl None).
Proof.
  destruct (utxo_row_roundtrip ∅ (toyOp 1) (toyOp 2) (toyEntry 7)) as (_ & b' & bd & H1 & _ & H2 & _ & H3).
  - apply toyOp_wf.
  - apply toyOp_wf.
  - apply toyEntry_ok. split; done.
  - reflexivity.
  - exists b'. split; [exact H1|]. split; [exact H2|]. destruct (H3 ltac:(discriminate)) as [E _]. rewrite E. reflexivity.
Defined.

Lemma fetch_by_hash_witness : ∃ e,
  dbFetchUtxoEntryByHash (<[keyOf (toyOp 1) := rowOf (toyEntry 7)]> ∅) (replicate 32 (z2b 1)) = Done (inl (Some e)).
Proof.
  assert (rows (<[keyOf (toyOp 1) := rowOf (toyEntry 7)]> ∅) (<[toyOp 1 := cleaned (toyEntry 7)]> ∅)) as Hr.
  { destruct (rows_put ∅ ∅ (toyOp 1) (toyEntry 7) rows_empty (toyOp_wf 1)) as (b' & E & H);
      [apply toyEntry_ok; split; done|reflexivity|].
    rewrite put_spec in E; [|apply toyOp_wf|apply toyEntry_ok; split; done|reflexivity]. injection E as <-. exact H. }
  destruct (fetch_by_hash _ _ (replicate 32 (z2b 1)) Hr) as [(op & e & E & _)|[_ E]]; [reflexivity|by exists e|].
  specialize (E (toyOp 1) eq_refl). rewrite lookup_insert_eq in E. discriminate E.
Defined.

Definition toyStxo (n : Z) : SpentTxOut :=
  {| Amount := 100000 * n; SpentScript := [z2b n]; Height := n; SpentCoinBase := Z.even n |}.
Definition toySpender (n : nat) : Wire.Tx :=
  {| Wire.TxVersion := 1;
     Wire.TxIns := replicate n {| Wire.PreviousOutPoint := toyOp 1; Wire.SignatureScript := [];
                                  Wire.Witness := None; Wire.Sequence := 0 |};
     Wire.TxOuts := []; Wire.LockTime := 0 |}.

Lemma journal_roundtrip_witness : ∃ b',
  dbPutSpendJournalEntry ∅ [] (map toyStxo [0; 1; 2]) = Done b' ∧
  dbFetchSpendJournalEntry b' ChainIO.emptyDB [] [toySpender 1; toySpender 1; toySpender 2] = Done (inl (map toyStxo [0; 1; 2])).
Proof.
  apply (journal_roundtrip ∅ ChainIO.emptyDB [] (toySpender 1) [toySpender 1; toySpender 2]).
  - repeat constructor; vm_compute; congruence.
  - reflexivity.
Defined.

End UtxoSet.
