(* ===== verification/UtxoCache.v ===== *)
(** * UtxoCache: the cache in front of the UTXO set

    Model of [blockchain/utxocache.go] with the size estimates of
    [blockchain/sizehelper.go] and the UTXO part of [blockchain/writequeue.go].  An
    entry of the cache is nil ([None], the database has no row), unspent or marked
    spent.  Cached entries are pointers in the code, but no other structure keeps
    one of them (views clone), so they are values here and marking one spent
    updates the map that holds it.  Go visits maps in an unspecified order: the
    order is a parameter (class [MapOrder]).  Times are nanoseconds. *)

From S2P Require Import Prelude Compress Wire ChainIO Script UtxoSet.
Import ChainIO (bucket).

Module UtxoCache.
Import Compress UtxoSet.

Abbreviation OutPoint := Wire.OutPoint.

(** ** Size estimates ([sizehelper.go]) *)

Definition bucketSize : Z := 16 + 8 * 36 + 8 * 8.
Definition avgEntrySize : Z := baseEntrySize + (25 + 7).
Definition loadFactorNum : Z := 13.
Definition loadFactorDen : Z := 2.
Definition bucketCnt : Z := 8.
Definition maxAlloc : Z := 2 ^ 40.
Definition MaxUintptr : Z := 2 ^ 64 - 1.
Definition _PageSize : Z := 2 ^ 13.

Definition class_to_size : list Z :=
  [0; 8; 16; 24; 32; 48; 64; 80; 96; 112; 128; 144; 160; 176; 192; 208; 224; 240; 256; 288; 320; 352; 384; 416; 448;
   480; 512; 576; 640; 704; 768; 896; 1024; 1152; 1280; 1408; 1536; 1792; 2048; 2304; 2688; 3072; 3200; 3456; 4096;
   4864; 5376; 6144; 6528; 6784; 6912; 8192; 9472; 9728; 10240; 10880; 12288; 13568; 14336; 16384; 18432; 19072; 20480;
   21760; 24576; 27264; 28672; 32768].

Definition size_to_class8 : list Z :=
  [0; 1; 2; 3; 4; 5; 5; 6; 6; 7; 7; 8; 8; 9; 9; 10; 10; 11; 11; 12; 12; 13; 13; 14; 14; 15; 15; 16; 16; 17; 17; 18; 18; 19; 19; 19; 19; 20; 20; 20;
   20; 21; 21; 21; 21; 22; 22; 22; 22; 23; 23; 23; 23; 24; 24; 24; 24; 25; 25; 25; 25; 26; 26; 26; 26; 27; 27; 27; 27; 27; 27; 27; 27; 28; 28; 28; 28; 28; 28; 28;
   28; 29; 29; 29; 29; 29; 29; 29; 29; 30; 30; 30; 30; 30; 30; 30; 30; 31; 31; 31; 31; 31; 31; 31; 31; 31; 31; 31; 31; 31; 31; 31; 31; 32; 32; 32; 32; 32; 32; 32;
   32; 32; 32; 32; 32; 32; 32; 32; 32].

Definition size_to_class128 : list Z :=
  [32; 33; 34; 35; 36; 37; 37; 38; 38; 39; 39; 40; 40; 40; 41; 41; 41; 42; 43; 43; 44; 44; 44; 44; 44; 45; 45; 45; 45; 45; 45; 46; 46; 46; 46; 47; 47; 47; 47; 47;
   47; 48; 48; 48; 49; 49; 50; 51; 51; 51; 51; 51; 51; 51; 51; 51; 51; 52; 52; 52; 52; 52; 52; 52; 52; 52; 52; 53; 53; 54; 54; 54; 54; 55; 55; 55; 55; 55; 56; 56;
   56; 56; 56; 56; 56; 56; 56; 56; 56; 57; 57; 57; 57; 57; 57; 57; 57; 57; 57; 58; 58; 58; 58; 58; 58; 59; 59; 59; 59; 59; 59; 59; 59; 59; 59; 59; 59; 59; 59; 59;
   59; 60; 60; 60; 60; 60; 60; 60; 60; 60; 60; 60; 60; 60; 60; 60; 60; 61; 61; 61; 61; 61; 62; 62; 62; 62; 62; 62; 62; 62; 62; 62; 62; 63; 63; 63; 63; 63; 63; 63;
   63; 63; 63; 64; 64; 64; 64; 64; 64; 64; 64; 64; 64; 64; 64; 64; 64; 64; 64; 64; 64; 64; 64; 64; 64; 65; 65; 65; 65; 65; 65; 65; 65; 65; 65; 65; 65; 65; 65; 65;
   65; 65; 65; 65; 65; 65; 66; 66; 66; 66; 66; 66; 66; 66; 66; 66; 66; 67; 67; 67; 67; 67; 67; 67; 67; 67; 67; 67; 67; 67; 67; 67; 67; 67; 67; 67; 67; 67; 67; 67;
   67; 67; 67; 67; 67; 67; 67; 67; 67].

Definition bucketShift (b : Z) : Z := u64 (Z.shiftl 1 (Z.land b 63)).

Definition overLoadFactor (count B : Z) : bool :=
  (bucketCnt <? count) && (u64 (loadFactorNum * (bucketShift B / loadFactorDen)) <? u64 count).

Definition mulUintptr (a b : Z) : Z * bool :=
  if (Z.lor a b <? 2 ^ 32) || (a =? 0) then (u64 (a * b), false)
  else (u64 (a * b), MaxUintptr / a <? b).

Definition divRoundUp (n a : Z) : Z := u64 (n + a - 1) / a.

Definition alignUp (n a : Z) : Z := Z.ldiff (u64 (n + a - 1)) (a - 1).

Definition roundupsize (size : Z) : run Z :=
  if size <? 32768 then
    if size <=? 1024 - 8 then c ← index size_to_class8 (divRoundUp size 8); index class_to_size c
    else c ← index size_to_class128 (divRoundUp (u64 (size - 1024)) 128); index class_to_size c
  else if u64 (size + _PageSize) <? size then Done size
  else Done (alignUp size _PageSize).

(** [for overLoadFactor(hint, B) { B++ }]; the load doubles in every round. *)
Fixpoint loadB (fuel : nat) (hint B : Z) : run Z :=
  if overLoadFactor hint B then
    match fuel with O => NoFuel | S fuel => loadB fuel hint (u8 (B + 1)) end
  else Done B.

Definition calculateRoughMapSize (hint bucketSize : Z) : run Z :=
  let '(mem, overflow) := mulUintptr (u64 hint) bucketSize in
  let hint := if overflow || (maxAlloc <? mem) then 0 else hint in
  B ← loadB 64 hint 0;
  let base := bucketShift B in
  numBuckets ← (if 4 <=? B then
      let numBuckets := u64 (base + bucketShift (u8 (B - 4))) in
      let sz := u64 (bucketSize * numBuckets) in
      up ← roundupsize sz;
      Done (if negb (up =? sz) then up / bucketSize else numBuckets)
    else Done base);
  let total := (mulUintptr bucketSize numBuckets).1 in
  let total := if negb (base =? numBuckets) then u64 (total + 24) else total in
  Done (i64 (u64 (total + 48))).

(** [uint8(math.Log2(float64(n)))].  Where [n] is not positive the logarithm is not
    finite and the conversion is left open by the language; the amd64 and arm64
    compilers give zero. *)
Definition log2u8 (n : Z) : Z := if n <=? 0 then 0 else u8 (Z.log2 n).

Definition calculateMinEntries (totalBytes bucketSize : Z) : Z :=
  let totalBytes := i64 (totalBytes - 48) in
  let numBuckets := Z.quot totalBytes bucketSize in
  let B := log2u8 numBuckets in
  if B <? 4 then
    if B =? 0 then 0 else if B =? 1 then 9 else if B =? 2 then 14 else 27
  else i64 (u64 (loadFactorNum * (bucketShift (B - 1) / loadFactorDen))) + 1.

(** ** The slice of maps *)

Abbreviation entryMap := (gmap OutPoint (option UtxoEntry)).

Record mapSlice := {
  maps : list entryMap;
  maxEntries : list Z;
  maxTotalMemoryUsage : Z;
}.

Definition set_maps (l : list entryMap) (ms : mapSlice) : mapSlice :=
  {| maps := l; maxEntries := maxEntries ms; maxTotalMemoryUsage := maxTotalMemoryUsage ms |}.

Definition length_ (ms : mapSlice) : Z := foldl (fun l m => l + Z.of_nat (size m)) 0 (maps ms).

Fixpoint sizeLoop (maxs : list Z) (size : Z) : run Z :=
  match maxs with
  | [] => Done size
  | num :: maxs => n ← calculateRoughMapSize num bucketSize; sizeLoop maxs (i64 (size + n))
  end.

Definition size_ (ms : mapSlice) : run Z := sizeLoop (maxEntries ms) 0.

Fixpoint getIn (l : list entryMap) (op : OutPoint) : option (option UtxoEntry) :=
  match l with
  | [] => None
  | m :: l => match m !! op with Some e => Some e | None => getIn l op end
  end.

Definition get (ms : mapSlice) (op : OutPoint) : option (option UtxoEntry) := getIn (maps ms) op.

Fixpoint putExisting (op : OutPoint) (entry : option UtxoEntry) (maxs : list Z) (l : list entryMap) :
    run (option (list entryMap)) :=
  match maxs, l with
  | [], _ => Done None
  | _ :: _, [] => Panic
  | _ :: maxs, m :: l =>
      match m !! op with
      | Some _ => Done (Some (<[op := entry]> m :: l))
      | None => r ← putExisting op entry maxs l; Done (option_map (cons m) r)
      end
  end.

Fixpoint putRoom (op : OutPoint) (entry : option UtxoEntry) (maxs : list Z) (l : list entryMap) :
    run (option (list entryMap)) :=
  match maxs, l with
  | [], _ => Done None
  | _ :: _, [] => Panic
  | maxNum :: maxs, m :: l =>
      if maxNum <=? Z.of_nat (size m) then r ← putRoom op entry maxs l; Done (option_map (cons m) r)
      else Done (Some (<[op := entry]> m :: l))
  end.

Fixpoint leftoverLoop (maxs : list Z) (leftover : Z) : run Z :=
  match maxs with
  | [] => Done leftover
  | maxNum :: maxs => n ← calculateRoughMapSize maxNum bucketSize; leftoverLoop maxs (i64 (leftover - i64 n))
  end.

(** The new map is returned as the last one of the slice, empty. *)
Definition makeNewMap (ms : mapSlice) (totalEntryMemory : Z) : run mapSlice :=
  leftover ← leftoverLoop (maxEntries ms) (i64 (i64 (maxTotalMemoryUsage ms) - i64 totalEntryMemory));
  let memSize := if 0 <? leftover then leftover else 0 in
  let numMaxElements := calculateMinEntries (i64 memSize) (bucketSize + avgEntrySize) - 1 in
  Done {| maps := maps ms ++ [∅]; maxEntries := maxEntries ms ++ [numMaxElements];
          maxTotalMemoryUsage := maxTotalMemoryUsage ms |}.

Fixpoint insertLast (op : OutPoint) (entry : option UtxoEntry) (l : list entryMap) : list entryMap :=
  match l with
  | [] => []
  | [m] => [<[op := entry]> m]
  | m :: l => m :: insertLast op entry l
  end.

Definition put (ms : mapSlice) (op : OutPoint) (entry : option UtxoEntry) (totalEntryMemory : Z) : run mapSlice :=
  r ← putExisting op entry (maxEntries ms) (maps ms);
  match r with
  | Some l => Done (set_maps l ms)
  | None =>
      r ← putRoom op entry (maxEntries ms) (maps ms);
      match r with
      | Some l => Done (set_maps l ms)
      | None =>
          ms ← makeNewMap ms totalEntryMemory;
          Done (set_maps (insertLast op entry (maps ms)) ms)
      end
  end.

Definition delete_ (ms : mapSlice) (op : OutPoint) : mapSlice := set_maps (map (delete op) (maps ms)) ms.

Definition deleteMaps (ms : mapSlice) : run mapSlice :=
  size ← index (maxEntries ms) 0;
  l ← slice (maps ms) 0 1;
  Done {| maps := l; maxEntries := [size]; maxTotalMemoryUsage := maxTotalMemoryUsage ms |}.

(** Writing through the pointer [get] returned *)
Fixpoint modifyIn (op : OutPoint) (e : UtxoEntry) (l : list entryMap) : list entryMap :=
  match l with
  | [] => []
  | m :: l => match m !! op with Some _ => <[op := Some e]> m :: l | None => m :: modifyIn op e l end
  end.

Definition modify (ms : mapSlice) (op : OutPoint) (e : UtxoEntry) : mapSlice := set_maps (modifyIn op e (maps ms)) ms.

(** ** The cache *)

Record utxoDelta := { op : OutPoint; tombstone : bool; entry : option UtxoEntry }.

Record utxoCache := {
  maxMemory : Z;                 (* maxTotalMemoryUsage *)
  cachedEntries : mapSlice;
  totalEntryMemory : Z;
  dirtyOps : gset OutPoint;
  trackDeltas : bool;
  deltaPoints : list utxoDelta;
  hotFloor : Z;
  lastFlushHash : list byte;
  lastFlushTime : Z;
}.

(** The cache with the buckets it reads and writes *)
Record state := {
  cache : utxoCache;
  utxoBucket : bucket;
  consistency : option (list byte);
}.

Definition set_entries (ms : mapSlice) (mem : Z) (c : utxoCache) : utxoCache :=
  {| maxMemory := maxMemory c; cachedEntries := ms; totalEntryMemory := mem; dirtyOps := dirtyOps c;
     trackDeltas := trackDeltas c; deltaPoints := deltaPoints c; hotFloor := hotFloor c;
     lastFlushHash := lastFlushHash c; lastFlushTime := lastFlushTime c |}.
Definition set_dirty (d : gset OutPoint) (c : utxoCache) : utxoCache :=
  {| maxMemory := maxMemory c; cachedEntries := cachedEntries c; totalEntryMemory := totalEntryMemory c; dirtyOps := d;
     trackDeltas := trackDeltas c; deltaPoints := deltaPoints c; hotFloor := hotFloor c;
     lastFlushHash := lastFlushHash c; lastFlushTime := lastFlushTime c |}.
Definition set_deltas (l : list utxoDelta) (c : utxoCache) : utxoCache :=
  {| maxMemory := maxMemory c; cachedEntries := cachedEntries c; totalEntryMemory := totalEntryMemory c; dirtyOps := dirtyOps c;
     trackDeltas := trackDeltas c; deltaPoints := l; hotFloor := hotFloor c;
     lastFlushHash := lastFlushHash c; lastFlushTime := lastFlushTime c |}.
Definition set_flushed (hs : list byte) (now : Z) (c : utxoCache) : utxoCache :=
  {| maxMemory := maxMemory c; cachedEntries := cachedEntries c; totalEntryMemory := totalEntryMemory c; dirtyOps := dirtyOps c;
     trackDeltas := trackDeltas c; deltaPoints := deltaPoints c; hotFloor := hotFloor c;
     lastFlushHash := hs; lastFlushTime := now |}.
Definition set_cache (c : utxoCache) (s : state) : state :=
  {| cache := c; utxoBucket := utxoBucket s; consistency := consistency s |}.
Definition set_bucket (b : bucket) (s : state) : state :=
  {| cache := cache s; utxoBucket := b; consistency := consistency s |}.

Definition newUtxoCache (max : Z) : utxoCache :=
  let numMaxElements := calculateMinEntries (i64 max) (bucketSize + avgEntrySize) - 1 in
  {| maxMemory := max;
     cachedEntries := {| maps := [∅]; maxEntries := [numMaxElements]; maxTotalMemoryUsage := max |};
     totalEntryMemory := 0; dirtyOps := ∅; trackDeltas := false; deltaPoints := []; hotFloor := 0;
     lastFlushHash := replicate 32 (z2b 0); lastFlushTime := 0 |}.

Definition totalMemoryUsage (c : utxoCache) : run Z :=
  size ← size_ (cachedEntries c); Done (u64 (u64 size + totalEntryMemory c)).

Inductive cacheError := MissingInput | StoreError (e : storeError).

Abbreviation M := (io state cacheError).

Definition get_ : M state := fun s => Done (inl s, s).
Definition modify_ (f : utxoCache → utxoCache) : M unit := fun s => Done (inl tt, set_cache (f (cache s)) s).
Definition lift {A} (m : run (A + storeError)) : M A := fun s =>
  r ← m; Done (match r with inl a => inl a | inr e => inr (StoreError e) end, s).

(** [s.cachedEntries.put(op, entry, s.totalEntryMemory)] and the memory count *)
Definition putEntry (o : OutPoint) (e : option UtxoEntry) : M unit := fun s =>
  let c := cache s in
  ms ← put (cachedEntries c) o e (totalEntryMemory c);
  Done (inl tt, set_cache (set_entries ms (u64 (totalEntryMemory c + memoryUsage e)) c) s).

Definition removeEntry (o : OutPoint) (e : option UtxoEntry) (c : utxoCache) : utxoCache :=
  set_entries (delete_ (cachedEntries c) o) (u64 (totalEntryMemory c - memoryUsage e)) c.

Section cache.
Context {K : SecKeys}.

Fixpoint fetchMissing (b : bucket) (ops : list OutPoint) : M (list (option UtxoEntry)) :=
  match ops with
  | [] => mret []
  | o :: ops => e ← lift (dbFetchUtxoEntry b o); es ← fetchMissing b ops; mret (e :: es)
  end.

Fixpoint putAll (l : list (OutPoint * option UtxoEntry)) : M unit :=
  match l with
  | [] => mret tt
  | (o, e) :: l => _ ← putEntry o e; putAll l
  end.

(** [entries[missingOpsIdx[i]] = dbEntries[i]] *)
Fixpoint fill (found : list (option (option UtxoEntry))) (dbEntries : list (option UtxoEntry)) : list (option UtxoEntry) :=
  match found with
  | [] => []
  | Some e :: found => e :: fill found dbEntries
  | None :: found =>
      match dbEntries with
      | e :: dbEntries => e :: fill found dbEntries
      | [] => None :: fill found []
      end
  end.

Definition fetchEntries (outpoints : list OutPoint) : M (list (option UtxoEntry)) :=
  s ← get_;
  let found := map (get (cachedEntries (cache s))) outpoints in
  let missingOps := filter (fun o => get (cachedEntries (cache s)) o = None) outpoints in
  if zlen missingOps =? 0 then mret (fill found []) else
  dbEntries ← fetchMissing (utxoBucket s) missingOps;
  _ ← putAll (zip missingOps dbEntries);
  mret (fill found dbEntries).

Definition isNullOutpoint (o : OutPoint) : bool :=
  (Wire.Index o =? 2 ^ 32 - 1) && bool_decide (Wire.Hash o = replicate 32 (z2b 0)).

Definition IsCoinBaseTx (tx : Wire.Tx) : bool :=
  match Wire.TxIns tx with
  | [ti] => isNullOutpoint (Wire.PreviousOutPoint ti)
  | _ => false
  end.

(** The distinct inputs of the block, in order *)
Definition distinctInputs (transactions : list Wire.Tx) : list OutPoint :=
  (foldl (fun '(needed, seen) tx =>
      if IsCoinBaseTx tx then (needed, seen) else
      foldl (fun '(needed, seen) ti =>
          let o := Wire.PreviousOutPoint ti in
          if bool_decide (o ∈ seen) then (needed, seen) else (needed ++ [o], {[o]} ∪ seen))
        (needed, seen) (Wire.TxIns tx))
    ([], (∅ : gset OutPoint)) transactions).1.

(** The error is ignored. *)
Definition prefetchInputs (transactions : list Wire.Tx) : M unit := fun s =>
  let needed := distinctInputs transactions in
  if zlen needed =? 0 then Done (inl tt, s) else
  r ← fetchEntries needed s; Done (inl tt, r.2).

Definition addDelta (d : utxoDelta) (c : utxoCache) : utxoCache :=
  if trackDeltas c then set_deltas (deltaPoints c ++ [d]) c else c.

Definition addTxOut (o : OutPoint) (txOut : Wire.TxOut (list byte)) (isCoinBase : bool) (height : Z) : M unit :=
  unspendable ← io_run (Script.IsUnspendable (Wire.PkScript txOut));
  if unspendable : bool then mret tt else
  let flags := Z.lor tfFresh tfModified in
  let e := {| amount := Wire.Value txOut; pkScript := Wire.PkScript txOut; blockHeight := height;
              packedFlags := if isCoinBase then Z.lor flags tfCoinBase else flags |} in
  _ ← putEntry o (Some e);
  _ ← modify_ (fun c => set_dirty ({[o]} ∪ dirtyOps c) c);
  modify_ (addDelta {| op := o; tombstone := false; entry := None |}).

Fixpoint addTxOuts_loop (hash : list byte) (isCoinBase : bool) (height : Z) (i : Z)
    (outs : list (Wire.TxOut (list byte))) : M unit :=
  match outs with
  | [] => mret tt
  | txOut :: outs =>
      _ ← addTxOut {| Wire.Hash := hash; Wire.Index := u32 i |} txOut isCoinBase height;
      addTxOuts_loop hash isCoinBase height (i + 1) outs
  end.

Definition addTxOuts (tx : Wire.Tx) (height : Z) : M unit :=
  hash ← io_run (Wire.TxHash tx);
  addTxOuts_loop hash (IsCoinBaseTx tx) height 0 (Wire.TxOuts tx).

(** The details of a spent output *)
Definition stxoOf (e : UtxoEntry) : SpentTxOut :=
  {| Amount := amount e; SpentScript := pkScript e; Height := blockHeight e; SpentCoinBase := IsCoinBase e |}.

(** [stxos] is [None] when the details are not requested. *)
Definition addTxIn (ti : Wire.TxIn (list byte)) (stxos : option (list SpentTxOut)) : M (option (list SpentTxOut)) :=
  let o := Wire.PreviousOutPoint ti in
  entries ← fetchEntries [o];
  match entries with
  | [Some e] =>
      let stxos := (fun l => l ++ [stxoOf e]) <$> stxos in
      let e := Spend e in
      _ ← modify_ (fun c => set_entries (modify (cachedEntries c) o e) (totalEntryMemory c) c);
      _ ← modify_ (addDelta {| op := o; tombstone := true; entry := None |});
      _ ← modify_ (fun c =>
            if isFresh e then let c := removeEntry o (Some e) c in set_dirty (dirtyOps c ∖ {[o]}) c
            else set_dirty ({[o]} ∪ dirtyOps c) c);
      mret stxos
  | _ => io_fail MissingInput
  end.

Fixpoint addTxIns_loop (ins : list (Wire.TxIn (list byte))) (stxos : option (list SpentTxOut)) :
    M (option (list SpentTxOut)) :=
  match ins with
  | [] => mret stxos
  | ti :: ins => stxos ← addTxIn ti stxos; addTxIns_loop ins stxos
  end.

Definition addTxIns (tx : Wire.Tx) (stxos : option (list SpentTxOut)) : M (option (list SpentTxOut)) :=
  if IsCoinBaseTx tx then mret stxos else addTxIns_loop (Wire.TxIns tx) stxos.

Definition connectTransaction (tx : Wire.Tx) (height : Z) (stxos : option (list SpentTxOut)) :
    M (option (list SpentTxOut)) :=
  stxos ← addTxIns tx stxos;
  _ ← addTxOuts tx height;
  mret stxos.

Fixpoint connectTransactions (transactions : list Wire.Tx) (height : Z) (stxos : option (list SpentTxOut)) :
    M (option (list SpentTxOut)) :=
  match transactions with
  | [] => mret stxos
  | tx :: txs => stxos ← connectTransaction tx height stxos; connectTransactions txs height stxos
  end.

(** ** Deltas of the asynchronous writer *)

Fixpoint takeDelta_loop (points deltas : list utxoDelta) (c : utxoCache) : list utxoDelta * utxoCache :=
  match points with
  | [] => (deltas, c)
  | d :: points =>
      if tombstone d then
        let c := match get (cachedEntries c) (op d) with
                 | Some e => removeEntry (op d) e c
                 | None => c
                 end in
        takeDelta_loop points (deltas ++ [{| op := op d; tombstone := true; entry := None |}]) c
      else
        takeDelta_loop points
          (deltas ++ [match get (cachedEntries c) (op d) with
                      | Some (Some e) => {| op := op d; tombstone := false; entry := Some e |}
                      | _ => {| op := op d; tombstone := true; entry := None |}
                      end]) c
  end.

Definition takeDelta (c : utxoCache) : list utxoDelta * utxoCache :=
  if negb (trackDeltas c) then ([], c)
  else if zlen (deltaPoints c) =? 0 then ([], set_dirty ∅ c)
  else let '(deltas, c) := takeDelta_loop (deltaPoints c) [] c in (deltas, set_dirty ∅ (set_deltas [] c)).

Definition resetDelta (c : utxoCache) : utxoCache := set_deltas [] c.

Fixpoint writeItemDeltas (b : bucket) (deltas : list utxoDelta) : run (bucket + storeError) :=
  match deltas with
  | [] => Done (inl b)
  | d :: deltas =>
      r ← (match tombstone d, entry d with
           | false, Some e => dbPutUtxoEntry b (op d) (Some e)
           | _, _ => b ← dbDeleteUtxoEntry b (op d); Done (inl b)
           end);
      match r with
      | inl b => writeItemDeltas b deltas
      | inr e => Done (inr e)
      end
  end.

(** ** Flushing *)

(** The order in which [range] visits a map *)
Class MapOrder := {
  entryOrder : entryMap → list (OutPoint * option UtxoEntry);
  opOrder : gset OutPoint → list OutPoint;
}.

Context {O : MapOrder}.

(** One entry of a full flush: the row is deleted, left or written, and the entry
    stays in its map only when it is hot. *)
Definition flushEntry (floor : Z) (o : OutPoint) (e : option UtxoEntry) (st : bucket * entryMap * list OutPoint) :
    run (bucket * entryMap * list OutPoint + storeError) :=
  let '(b, m, hot) := st in
  r ← (match e with
       | None => b ← dbDeleteUtxoEntry b o; Done (inl (b, None))
       | Some e =>
           if IsSpent e then b ← dbDeleteUtxoEntry b o; Done (inl (b, Some e))
           else if negb (isModified e) then Done (inl (b, Some e))
           else
             r ← dbPutUtxoEntry b o (Some e);
             Done (match r with inl b => inl (b, Some (clearModified e)) | inr err => inr err end)
       end);
  Done (match r with
        | inr err => inr err
        | inl (b, Some e) =>
            if negb (IsSpent e) && (floor <=? blockHeight e) then inl (b, <[o := Some e]> m, hot ++ [o])
            else inl (b, delete o m, hot)
        | inl (b, None) => inl (b, delete o m, hot)
        end).

Fixpoint flushMap (floor : Z) (l : list (OutPoint * option UtxoEntry)) (st : bucket * entryMap * list OutPoint) :
    run (bucket * entryMap * list OutPoint + storeError) :=
  match l with
  | [] => Done (inl st)
  | (o, e) :: l =>
      r ← flushEntry floor o e st;
      match r with inl st => flushMap floor l st | inr err => Done (inr err) end
  end.

Fixpoint flushMaps (floor : Z) (ms : list entryMap) (b : bucket) (hot : list OutPoint) :
    run (bucket * list entryMap * list OutPoint + storeError) :=
  match ms with
  | [] => Done (inl (b, [], hot))
  | m :: ms =>
      r ← flushMap floor (entryOrder m) (b, m, hot);
      match r with
      | inr err => Done (inr err)
      | inl (b, m, hot) =>
          r ← flushMaps floor ms b hot;
          Done (match r with inl (b, ms, hot) => inl (b, m :: ms, hot) | inr err => inr err end)
      end
  end.

(** [entry, _ := s.cachedEntries.get(op)]: nil when it is not there *)
Fixpoint reinsertHot (hot : list OutPoint) : M unit :=
  match hot with
  | [] => mret tt
  | o :: hot =>
      s ← get_;
      _ ← putEntry o (default None (get (cachedEntries (cache s)) o));
      reinsertHot hot
  end.

Definition set_all (c : utxoCache) (b : bucket) : M unit := fun s =>
  Done (inl tt, {| cache := c; utxoBucket := b; consistency := consistency s |}).

Definition writeAll : M unit :=
  s ← get_;
  let c := cache s in
  '(b, l, hot) ← lift (flushMaps (hotFloor c) (maps (cachedEntries c)) (utxoBucket s) []);
  ms ← io_run (deleteMaps (set_maps l (cachedEntries c)));
  _ ← set_all (set_dirty ∅ (set_entries ms 0 c)) b;
  reinsertHot hot.

Definition writeDirty_one (o : OutPoint) : M unit :=
  s ← get_;
  let c := cache s in
  match get (cachedEntries c) o with
  | None => mret tt
  | Some e =>
      if (match e with None => true | Some e => IsSpent e end) then
        b ← io_run (dbDeleteUtxoEntry (utxoBucket s) o);
        set_all (removeEntry o e c) b
      else if negb (match e with Some e => isModified e | None => false end) then mret tt
      else
        b ← lift (dbPutUtxoEntry (utxoBucket s) o e);
        set_all (match e with
                 | Some e => set_entries (modify (cachedEntries c) o (clearModified e)) (totalEntryMemory c) c
                 | None => c
                 end) b
  end.

Fixpoint writeDirty (ops : list OutPoint) : M unit :=
  match ops with
  | [] => mret tt
  | o :: ops => _ ← writeDirty_one o; writeDirty ops
  end.

Definition markFlushed (now : Z) (bestHash : list byte) : M unit := fun s =>
  Done (inl tt, {| cache := set_flushed bestHash now (cache s); utxoBucket := utxoBucket s;
                   consistency := Some bestHash |}).

Definition writeCache (now : Z) (bestHash : list byte) (cleanCache : bool) : M unit :=
  _ ← (if cleanCache then writeAll
       else
         s ← get_;
         _ ← writeDirty (opOrder (dirtyOps (cache s)));
         modify_ (set_dirty ∅));
  markFlushed now bestHash.

Inductive FlushMode := FlushRequired | FlushPeriodic | FlushIfNeeded.

Definition utxoFlushPeriodicInterval : Z := 5 * 60 * 10 ^ 9.

Definition flush (now : Z) (mode : FlushMode) (bestHash : list byte) : M unit :=
  s ← get_;
  let c := cache s in
  let go (threshold : Z) : M unit :=
    totalUsage ← io_run (totalMemoryUsage c);
    let cleanCache := match mode with FlushRequired => true | _ => maxMemory c <=? totalUsage end in
    if threshold <=? totalUsage then writeCache now bestHash cleanCache else mret tt in
  match mode with
  | FlushRequired => go 0
  | FlushIfNeeded => if bool_decide (bestHash = lastFlushHash c) then mret tt else go (maxMemory c)
  | FlushPeriodic => go (if utxoFlushPeriodicInterval <? now - lastFlushTime c then 0 else maxMemory c)
  end.

End cache.

(** ** The size estimate is total *)

Definition sizeAt (B : Z) : run Z :=
  let base := bucketShift B in
  numBuckets ← (if 4 <=? B then
      let numBuckets := u64 (base + bucketShift (u8 (B - 4))) in
      let sz := u64 (bucketSize * numBuckets) in
      up ← roundupsize sz;
      Done (if negb (up =? sz) then up / bucketSize else numBuckets)
    else Done base);
  let total := (mulUintptr bucketSize numBuckets).1 in
  let total := if negb (base =? numBuckets) then u64 (total + 24) else total in
  Done (i64 (u64 (total + 48))).

Lemma sizeAt_total : forallb (fun B => match sizeAt B with Done _ => true | _ => false end) (seqZ 0 31) = true.
Proof. vm_compute. reflexivity. Qed.

Lemma overLoad_stops hint B : 0 ≤ B ≤ 40 → hint ≤ 2 ^ 32 → 30 ≤ B → overLoadFactor hint B = false.
Proof.
  intros HB Hh H30. unfold overLoadFactor, bucketCnt. destruct (Z.ltb_spec 8 hint); [|done]. cbn [andb].
  apply Z.ltb_ge. unfold bucketShift, loadFactorNum, loadFactorDen.
  change 63 with (Z.ones 6). rewrite Z.land_ones by lia. rewrite (Z.mod_small B) by zlia.
  rewrite Z.shiftl_mul_pow2, Z.mul_1_l by lia.
  assert (2 ^ 30 ≤ 2 ^ B ≤ 2 ^ 40) as Hp by (split; apply Z.pow_le_mono_r; lia).
  rewrite (uwrap_small 64 (2 ^ B)) by zlia. rewrite (uwrap_small 64 hint) by zlia.
  rewrite (uwrap_small 64) by zdm. zdm.
Qed.

Lemma loadB_total fuel hint B : 0 ≤ B ≤ 30 → hint ≤ 2 ^ 32 → (30 - B < Z.of_nat fuel) →
  ∃ B', loadB fuel hint B = Done B' ∧ 0 ≤ B' ≤ 30.
Proof.
  revert B. induction fuel as [|fuel IH]; intros B HB Hh Hf; [lia|]. cbn [loadB].
  destruct (overLoadFactor hint B) eqn:E; [|by exists B].
  destruct (decide (B = 30)) as [->|]; [by rewrite overLoad_stops in E by lia|].
  rewrite uwrap_small by zlia. apply IH; lia.
Qed.

Lemma roughMapSize_total hint : - 2 ^ 63 ≤ hint < 2 ^ 63 → ∃ n, calculateRoughMapSize hint bucketSize = Done n.
Proof.
  intros Hh. unfold calculateRoughMapSize. destruct (mulUintptr (u64 hint) bucketSize) as [mem overflow] eqn:Em.
  set (h := if _ : bool then 0 else hint).
  assert (h ≤ 2 ^ 32) as Hh'.
  { subst h. destruct overflow; [done|]. cbn [orb]. destruct (Z.ltb_spec maxAlloc mem) as [|Hm]; [done|].
    unfold mulUintptr in Em. set (a := u64 hint) in *. assert (0 ≤ a < 2 ^ 64) as Ha by (apply uwrap_range; lia).
    assert (hint ≤ a) as Hle.
    { unfold a. destruct (decide (0 ≤ hint)); [rewrite uwrap_small by zlia; lia|]. pose proof (uwrap_range 64 hint ltac:(lia)). lia. }
    enough (a ≤ 2 ^ 32) by lia. unfold maxAlloc, MaxUintptr, bucketSize in *.
    destruct (Z.ltb_spec (Z.lor a (16 + 8 * 36 + 8 * 8)) (2 ^ 32)) as [Hl|Hl]; cbn [orb] in Em.
    - pose proof (Z.log2_lor a 368 ltac:(lia) ltac:(lia)).
      destruct (Z.le_gt_cases a (2 ^ 32)); [done|].
      assert (a ≤ Z.lor a 368); [|change (16 + 8 * 36 + 8 * 8) with 368 in Hl; lia].
      pose proof (Z.ldiff_le a (Z.lor a 368) ltac:(apply Z.lor_nonneg; lia)) as Hd. apply Hd.
      apply Z.bits_inj'. intros i Hi. rewrite Z.ldiff_spec, Z.lor_spec, Z.bits_0. by destruct (Z.testbit a i).
    - destruct (Z.eqb_spec a 0) as [Ha0|Hna]; [lia|]. injection Em as Em Eo. apply Z.ltb_ge in Eo.
      change (16 + 8 * 36 + 8 * 8) with 368 in *. assert (368 * a ≤ 2 ^ 64 - 1).
      { pose proof (Z.mul_div_le (2 ^ 64 - 1) a ltac:(lia)). nia. }
      rewrite uwrap_small in Em by nia. zlia. }
  destruct (loadB_total 64 h 0 ltac:(lia) Hh' ltac:(lia)) as (B & -> & HB). cbn [mbind run_bind].
  pose proof sizeAt_total as Ht. rewrite forallb_forall in Ht.
  specialize (Ht B ltac:(apply list_elem_of_In, elem_of_seqZ; lia)).
  change (∃ n, sizeAt B = Done n). destruct (sizeAt B); [by eexists|done..].
Qed.

(** ** The slice of maps as one map *)

Fixpoint disjointMaps (l : list entryMap) : Prop :=
  match l with
  | [] => True
  | m :: l => (∀ o, is_Some (m !! o) → getIn l o = None) ∧ disjointMaps l
  end.

Definition ms_ok (ms : mapSlice) : Prop :=
  length (maps ms) = length (maxEntries ms) ∧ maps ms ≠ [] ∧ disjointMaps (maps ms) ∧
  Forall (fun z => - 2 ^ 63 ≤ z < 2 ^ 63) (maxEntries ms).

(** [l'] is [l] with [v] at [o]. *)
Definition updated (l l' : list entryMap) (o : OutPoint) (v : option (option UtxoEntry)) : Prop :=
  getIn l' o = v ∧ (∀ o', o' ≠ o → getIn l' o' = getIn l o') ∧ length l' = length l ∧ disjointMaps l'.

Lemma disjoint_updated m l l' o v : disjointMaps (m :: l) → m !! o = None → updated l l' o v →
  updated (m :: l) (m :: l') o v.
Proof.
  intros [Hd _] Hm (H1 & H2 & H3 & H4). split_and!; cbn [getIn length disjointMaps].
  - by rewrite Hm.
  - intros o' Ho. by rewrite H2.
  - by rewrite H3.
  - split; [|done]. intros o' Ho'. destruct (decide (o' = o)) as [->|Hne]; [rewrite Hm in Ho'; by destruct Ho'|].
    rewrite H2 by done. by apply Hd.
Qed.

Lemma updated_head m l o e : disjointMaps (m :: l) → getIn l o = None → updated (m :: l) (<[o := e]> m :: l) o (Some e).
Proof.
  intros [Hd Hl] Ho. split_and!; cbn [getIn length disjointMaps].
  - by rewrite lookup_insert_eq.
  - intros o' Hne. by rewrite lookup_insert_ne.
  - done.
  - split; [|done]. intros o' Ho'. destruct (decide (o' = o)) as [->|Hne]; [done|].
    rewrite lookup_insert_ne in Ho' by done. by apply Hd.
Qed.

Lemma putExisting_spec o e maxs l : length l = length maxs → disjointMaps l →
  (getIn l o = None ∧ putExisting o e maxs l = Done None) ∨
  (∃ l', is_Some (getIn l o) ∧ putExisting o e maxs l = Done (Some l') ∧ updated l l' o (Some e)).
Proof.
  revert maxs. induction l as [|m l IH]; intros [|z maxs] Hl Hd; [by left|done..|]. cbn [putExisting getIn].
  destruct (m !! o) as [v|] eqn:Em.
  - right. eexists. split; [by eexists|]. split; [done|]. apply updated_head; [done|]. apply Hd. by eexists.
  - injection Hl as Hl. destruct (IH maxs Hl (proj2 Hd)) as [[E1 ->]|(l' & E1 & -> & Hu)]; [by left|right].
    exists (m :: l'). split; [done|]. split; [done|]. by apply disjoint_updated.
Qed.

Lemma putRoom_spec o e maxs l : length l = length maxs → disjointMaps l → getIn l o = None →
  putRoom o e maxs l = Done None ∨ ∃ l', putRoom o e maxs l = Done (Some l') ∧ updated l l' o (Some e).
Proof.
  revert maxs. induction l as [|m l IH]; intros [|z maxs] Hl Hd Ho; [by left|done..|]. cbn [putRoom].
  cbn [getIn] in Ho. destruct (m !! o) eqn:Em; [done|]. destruct (z <=? _).
  - injection Hl as Hl. destruct (IH maxs Hl (proj2 Hd) Ho) as [->|(l' & -> & Hu)]; [by left|right].
    exists (m :: l'). split; [done|]. by apply disjoint_updated.
  - right. eexists. split; [done|]. by apply updated_head.
Qed.

Lemma insertLast_spec o e l : disjointMaps l → getIn l o = None →
  getIn (insertLast o e (l ++ [∅])) o = Some e ∧
  (∀ o', o' ≠ o → getIn (insertLast o e (l ++ [∅])) o' = getIn l o') ∧
  disjointMaps (insertLast o e (l ++ [∅])) ∧ length (insertLast o e (l ++ [∅])) = S (length l).
Proof.
  induction l as [|m l IH]; intros Hd Ho.
  { cbn. rewrite lookup_insert_eq. split; [done|]. split; [|done]. intros o' Hne. by rewrite lookup_insert_ne, lookup_empty. }
  destruct Hd as [Hd Hl]. cbn [getIn] in Ho. destruct (m !! o) eqn:Em; [done|].
  destruct (IH Hl Ho) as (H1 & H2 & H3 & H4). assert (insertLast o e ((m :: l) ++ [∅]) = m :: insertLast o e (l ++ [∅])) as ->.
  { cbn. by destruct (l ++ [∅]) eqn:E; [destruct l|]. }
  cbn [getIn disjointMaps length]. rewrite Em, H4. split; [done|]. split; [intros o' Hne; by rewrite H2|]. split; [|done].
  split; [|done]. intros o' Ho'. destruct (decide (o' = o)) as [->|Hne]; [rewrite Em in Ho'; by destruct Ho'|].
  rewrite H2 by done. by apply Hd.
Qed.

Lemma leftoverLoop_total maxs n : Forall (fun z => - 2 ^ 63 ≤ z < 2 ^ 63) maxs → ∃ r, leftoverLoop maxs n = Done r.
Proof.
  intros Hm. revert n. induction Hm as [|z maxs Hz _ IH]; intros n; cbn [leftoverLoop]; [by eexists|].
  destruct (roughMapSize_total z Hz) as [k ->]. cbn [mbind run_bind]. apply IH.
Qed.

Lemma sizeLoop_total maxs n : Forall (fun z => - 2 ^ 63 ≤ z < 2 ^ 63) maxs → ∃ r, sizeLoop maxs n = Done r.
Proof.
  intros Hm. revert n. induction Hm as [|z maxs Hz _ IH]; intros n; cbn [sizeLoop]; [by eexists|].
  destruct (roughMapSize_total z Hz) as [k ->]. cbn [mbind run_bind]. apply IH.
Qed.

Lemma minEntries_range a b : - 2 ^ 63 ≤ calculateMinEntries a b - 1 < 2 ^ 63.
Proof.
  unfold calculateMinEntries. repeat case_match; try zlia.
  match goal with |- context [i64 ?x] => pose proof (swrap_range 64 x ltac:(lia)) end. zlia.
Qed.

Lemma mapSlice_put_ok ms o e mem : ms_ok ms →
  ∃ ms', put ms o e mem = Done ms' ∧ ms_ok ms' ∧ get ms' o = Some e ∧ (∀ o', o' ≠ o → get ms' o' = get ms o').
Proof.
  intros (Hl & Hn & Hd & Hm). unfold put, get.
  destruct (putExisting_spec o e (maxEntries ms) (maps ms) Hl Hd) as [[Eg ->]|(l' & _ & -> & H1 & H2 & H3 & H4)]; cbn [mbind run_bind].
  2: { eexists. split; [done|]. split; [|done]. split_and!; cbn; [lia| |done..]. destruct l', (maps ms); done. }
  destruct (putRoom_spec o e (maxEntries ms) (maps ms) Hl Hd Eg) as [->|(l' & -> & H1 & H2 & H3 & H4)]; cbn [mbind run_bind].
  2: { eexists. split; [done|]. split; [|done]. split_and!; cbn; [lia| |done..]. destruct l', (maps ms); done. }
  unfold makeNewMap. destruct (leftoverLoop_total (maxEntries ms) (i64 (i64 (maxTotalMemoryUsage ms) - i64 mem)) Hm) as [r ->].
  cbn [mbind run_bind maps maxEntries]. destruct (insertLast_spec o e (maps ms) Hd Eg) as (H1 & H2 & H3 & H4).
  eexists. split; [done|]. split; [|split; [done|]; intros; by apply H2]. split_and!; cbn.
  - rewrite H4, length_app. cbn. lia.
  - intros E. rewrite E in H4. done.
  - done.
  - apply Forall_app. split; [done|]. constructor; [|done]. apply minEntries_range.
Qed.

Lemma getIn_delete l o o' : getIn (map (delete o) l) o' = if decide (o' = o) then None else getIn l o'.
Proof.
  induction l as [|m l IH]; cbn [map getIn]; [by case_decide|]. rewrite IH.
  case_decide as E; [by subst; rewrite lookup_delete_eq|]. by rewrite lookup_delete_ne.
Qed.

Lemma delete_ok ms o : ms_ok ms → ms_ok (delete_ ms o) ∧ get (delete_ ms o) o = None ∧
  (∀ o', o' ≠ o → get (delete_ ms o) o' = get ms o').
Proof.
  intros (Hl & Hn & Hd & Hm). unfold delete_, get. cbn [maps set_maps]. split.
  - split_and!; cbn; [by rewrite length_map|by destruct (maps ms)| |done].
    clear -Hd. induction (maps ms) as [|m l IH]; [done|]. destruct Hd as [Hd Hl]. cbn. split; [|by apply IH].
    intros o' Ho'. rewrite getIn_delete. case_decide; [done|]. rewrite lookup_delete_ne in Ho' by done. by apply Hd.
  - rewrite getIn_delete. split; [by rewrite decide_True|]. intros o' Hne. by rewrite getIn_delete, decide_False.
Qed.

Lemma modify_ok ms o e : ms_ok ms → is_Some (get ms o) → ms_ok (modify ms o e) ∧ get (modify ms o e) o = Some (Some e) ∧
  (∀ o', o' ≠ o → get (modify ms o e) o' = get ms o').
Proof.
  intros (Hl & Hn & Hd & Hm) Hg. unfold modify, get, ms_ok in *. cbn [maps maxEntries set_maps].
  assert (updated (maps ms) (modifyIn o e (maps ms)) o (Some (Some e))) as (H1 & H2 & H3 & H4).
  { clear -Hd Hg. induction (maps ms) as [|m l IH]; [by destruct Hg|]. cbn [modifyIn getIn] in *.
    destruct (m !! o) as [v|] eqn:Em; [|by apply disjoint_updated; [..|apply IH; [apply Hd|]]].
    apply updated_head; [done|]. apply Hd. by eexists. }
  split_and!; [lia| |done..]. destruct (modifyIn o e (maps ms)); [|done]. by destruct (maps ms).
Qed.

(** ** The UTXO set the cache and the database stand for *)

Lemma get_bind_M {A} (k : state → M A) s : (get_ ≫= k) s = k s s.
Proof. done. Qed.

Section refinement.
Context {K : SecKeys} {Kok : SecKeysOk K}.

Abbreviation coins := (gmap OutPoint UtxoEntry).

(** What a cached entry says about its output; [d] is the database. *)
Definition coinOf (v : option (option UtxoEntry)) (d : coins) (o : OutPoint) : option UtxoEntry :=
  match v with
  | Some (Some e) => if IsSpent e then None else Some (cleaned e)
  | Some None => None
  | None => d !! o
  end.

(** A nil entry is known to be absent from the database; an entry that is not
    modified is the row of the database; a fresh one has no row. *)
Definition cached_ok (dirty : gset OutPoint) (d : coins) (o : OutPoint) (v : option UtxoEntry) : Prop :=
  op_wf o ∧
  match v with
  | None => d !! o = None
  | Some e =>
      entry_ok e ∧
      if isModified e then o ∈ dirty ∧ (isFresh e = true → d !! o = None ∧ IsSpent e = false)
      else d !! o = Some (cleaned e) ∧ IsSpent e = false ∧ isFresh e = false
  end.

Record cinv (s : state) (d U : coins) : Prop := {
  ci_ms : ms_ok (cachedEntries (cache s));
  ci_rows : rows (utxoBucket s) d;
  ci_cached : ∀ o v, get (cachedEntries (cache s)) o = Some v → cached_ok (dirtyOps (cache s)) d o v;
  ci_coins : ∀ o, U !! o = coinOf (get (cachedEntries (cache s)) o) d o;
}.

Lemma coin_wf s d U o e : cinv s d U → U !! o = Some e → op_wf o ∧ entry_ok e ∧ e = cleaned e.
Proof.
  intros Hi Ho. rewrite (ci_coins _ _ _ Hi) in Ho. unfold coinOf in Ho.
  destruct (get (cachedEntries (cache s)) o) as [[e'|]|] eqn:Eg; [|done|].
  - destruct (ci_cached _ _ _ Hi _ _ Eg) as (Hw & He & _). destruct (IsSpent e'); [done|]. injection Ho as <-.
    split; [done|]. split; [by destruct He|by rewrite cleaned_idem].
  - by apply (ci_rows _ _ _ Hi).
Qed.

(** The states a cache can be in when only [o] changes *)
Lemma cinv_step s s' d U o v :
  cinv s d U → utxoBucket s' = utxoBucket s → ms_ok (cachedEntries (cache s')) →
  get (cachedEntries (cache s')) o = v →
  (∀ o', o' ≠ o → get (cachedEntries (cache s')) o' = get (cachedEntries (cache s)) o') →
  (∀ o', o' ≠ o → o' ∈ dirtyOps (cache s) → o' ∈ dirtyOps (cache s')) →
  match v with Some v => cached_ok (dirtyOps (cache s')) d o v | None => True end →
  cinv s' d (partial_alter (fun _ => coinOf v d o) o U).
Proof.
  intros Hi Hb Hms Ho Hne Hdirty Hv. split; [done|rewrite Hb; apply Hi| |].
  - intros o' v' E. destruct (decide (o' = o)) as [->|Hn]; [rewrite Ho in E; by rewrite E in Hv|].
    rewrite Hne in E by done. pose proof (ci_cached _ _ _ Hi _ _ E) as [Hw Hc]. split; [done|].
    destruct v' as [e|]; [|done]. destruct Hc as [He Hc]. split; [done|]. destruct (isModified e); [|done].
    destruct Hc as [H1 H2]. split; [by apply Hdirty|done].
  - intros o'. destruct (decide (o' = o)) as [->|Hn]; [by rewrite lookup_partial_alter_eq, Ho|].
    rewrite lookup_partial_alter_ne, Hne by done. apply Hi.
Qed.

Lemma alter_same (U : coins) o v : U !! o = v → partial_alter (fun _ => v) o U = U.
Proof.
  intros H. apply map_eq. intros o'. destruct (decide (o' = o)) as [->|]; [by rewrite lookup_partial_alter_eq|].
  by rewrite lookup_partial_alter_ne.
Qed.

Lemma putEntry_ok s o e : ms_ok (cachedEntries (cache s)) → ∃ ms mem,
  putEntry o e s = Done (inl tt, set_cache (set_entries ms mem (cache s)) s) ∧ ms_ok ms ∧ get ms o = Some e ∧
  (∀ o', o' ≠ o → get ms o' = get (cachedEntries (cache s)) o').
Proof.
  intros Hms. unfold putEntry. destruct (mapSlice_put_ok _ o e (totalEntryMemory (cache s)) Hms) as (ms & -> & H).
  cbn [mbind run_bind]. by eexists ms, _.
Qed.

(** ** Fetching *)

(** Only the entries and their memory count differ. *)
Definition only_entries (s s' : state) : Prop :=
  s' = set_cache (set_entries (cachedEntries (cache s')) (totalEntryMemory (cache s')) (cache s)) s.

Lemma only_entries_refl s : only_entries s s.
Proof. destruct s as [c b cs], c. done. Qed.

(** A miss caches what the database has. *)
Lemma fetch_miss s d o : ms_ok (cachedEntries (cache s)) → rows (utxoBucket s) d → op_wf o →
  get (cachedEntries (cache s)) o = None →
  ∃ ms mem, fetchEntries [o] s = Done (inl [d !! o], set_cache (set_entries ms mem (cache s)) s) ∧ ms_ok ms ∧
    get ms o = Some (d !! o) ∧ (∀ o', o' ≠ o → get ms o' = get (cachedEntries (cache s)) o').
Proof.
  intros Hms Hr Hw Eg. unfold fetchEntries. rewrite get_bind_M. cbn [map].
  rewrite Eg, (filter_cons_True _ o) by done. rewrite filter_nil. change (zlen [o] =? 0) with false. cbn iota.
  rewrite (io_step _ _ _ [d !! o] s).
  2: { cbn [fetchMissing]. rewrite (io_step _ _ _ (d !! o) s); [done|]. unfold lift. by rewrite (rows_fetch _ d o Hr Hw). }
  destruct (putEntry_ok s o (d !! o) Hms) as (ms & mem & Ep & Hms' & Ho & Hne).
  exists ms, mem. split; [|done].
  rewrite (io_step _ _ _ tt (set_cache (set_entries ms mem (cache s)) s)); [done|].
  cbn [zip zip_with putAll]. by rewrite (io_step _ _ _ _ _ Ep).
Qed.

(** A fetch of one output leaves it cached, and changes nothing else. *)
Lemma fetch_one s d U o : cinv s d U → op_wf o →
  ∃ s' v, fetchEntries [o] s = Done (inl [v], s') ∧ cinv s' d U ∧ get (cachedEntries (cache s')) o = Some v ∧
    only_entries s s' ∧ (∀ v', get (cachedEntries (cache s)) o = Some v' → v' = v ∧ s' = s).
Proof.
  intros Hi Hw. destruct (get (cachedEntries (cache s)) o) as [v|] eqn:Eg.
  - unfold fetchEntries. rewrite get_bind_M. cbn [map]. rewrite Eg, (filter_cons_False _ o) by (by rewrite Eg). rewrite filter_nil. change (@zlen OutPoint [] =? 0) with true.
    exists s, v. split; [done|]. split_and!; try done; [apply only_entries_refl|]. intros v' [= ->]. done.
  - destruct (fetch_miss s d o (ci_ms _ _ _ Hi) (ci_rows _ _ _ Hi) Hw Eg) as (ms & mem & Ef & Hms & Ho & Hne).
    exists (set_cache (set_entries ms mem (cache s)) s), (d !! o). split; [done|]. split; [|split_and!; done].
    rewrite <-(alter_same U o (coinOf (Some (d !! o)) d o)).
    + apply (cinv_step s); [done..|]. cbn [set_cache set_entries cache dirtyOps]. split; [done|].
      destruct (d !! o) as [e|] eqn:Ed; [|done]. destruct (proj1 (ci_rows _ _ _ Hi) _ _ Ed) as (_ & He & Hc).
      split; [done|]. destruct (cleaned_flags e) as (_ & F1 & F2 & F3). rewrite <-Hc in F1, F2, F3. rewrite F2.
      by rewrite <-Hc.
    + rewrite (ci_coins _ _ _ Hi), Eg. unfold coinOf. destruct (d !! o) as [e|] eqn:Ed; [|done].
      destruct (proj1 (ci_rows _ _ _ Hi) _ _ Ed) as (_ & He & Hc). destruct (cleaned_flags e) as (_ & F1 & _).
      rewrite <-Hc in F1. rewrite F1. by rewrite <-Hc.
Qed.

(** ** Fetching several outputs *)

Lemma cache_row s d U o : cinv s d U → op_wf o → get (cachedEntries (cache s)) o = None ∨ get (cachedEntries (cache s)) o = Some (d !! o) →
  ∃ s', putEntry o (d !! o) s = Done (inl tt, s') ∧ cinv s' d U ∧ only_entries s s' ∧
    get (cachedEntries (cache s')) o = Some (d !! o) ∧
    (∀ o', o' ≠ o → get (cachedEntries (cache s')) o' = get (cachedEntries (cache s)) o').
Proof.
  intros Hi Hw Hg. destruct (putEntry_ok s o (d !! o) (ci_ms _ _ _ Hi)) as (ms & mem & Ep & Hms & Ho & Hne).
  eexists. split; [done|]. split; [|done]. rewrite <-(alter_same U o (coinOf (Some (d !! o)) d o)).
  - apply (cinv_step s); [done..|]. split; [done|]. destruct (d !! o) as [e|] eqn:Ed; [|done].
    destruct (proj1 (ci_rows _ _ _ Hi) _ _ Ed) as (_ & He & Hc). split; [done|].
    destruct (cleaned_flags e) as (_ & F1 & F2 & F3). rewrite <-Hc in F1, F2, F3. rewrite F2. by rewrite <-Hc.
  - rewrite (ci_coins _ _ _ Hi). destruct Hg as [->| ->]; [|done]. unfold coinOf. destruct (d !! o) as [e|] eqn:Ed; [|done].
    destruct (proj1 (ci_rows _ _ _ Hi) _ _ Ed) as (_ & He & Hc). destruct (cleaned_flags e) as (_ & F1 & _).
    rewrite <-Hc in F1. rewrite F1. by rewrite <-Hc.
Qed.

Lemma only_entries_trans s1 s2 s3 : only_entries s1 s2 → only_entries s2 s3 → only_entries s1 s3.
Proof. unfold only_entries. intros H1 H2. rewrite H2, H1. done. Qed.

Lemma putAll_ok ops s d U : cinv s d U → Forall op_wf ops →
  (∀ o, o ∈ ops → get (cachedEntries (cache s)) o = None ∨ get (cachedEntries (cache s)) o = Some (d !! o)) →
  ∃ s', putAll (zip ops (map (d !!.) ops)) s = Done (inl tt, s') ∧ cinv s' d U ∧ only_entries s s'.
Proof.
  intros Hi Hw. revert s Hi. induction Hw as [|o ops Ho _ IH]; intros s Hi Hg; cbn [map zip zip_with putAll].
  { exists s. split; [done|]. split; [done|]. apply only_entries_refl. }
  destruct (cache_row s d U o Hi Ho) as (s1 & E1 & Hi1 & Oe & Hgo & Hne); [apply Hg; left|].
  rewrite (io_step _ _ _ _ _ E1). destruct (IH s1 Hi1) as (s' & E' & Hi' & Oe').
  - intros o' Ho'. destruct (decide (o' = o)) as [->|]; [by right|]. rewrite Hne by done. apply Hg. by right.
  - exists s'. split; [done|]. split; [done|]. by apply (only_entries_trans _ s1).
Qed.

Lemma fetchMissing_ok b d ops s : rows b d → Forall op_wf ops → fetchMissing b ops s = Done (inl (map (d !!.) ops), s).
Proof.
  intros Hr Hw. induction Hw as [|o ops Ho _ IH]; [done|]. cbn [fetchMissing map].
  rewrite (io_step _ _ _ (d !! o) s) by (unfold lift; by rewrite (rows_fetch _ d o Hr Ho)).
  by rewrite (io_step _ _ _ _ _ IH).
Qed.

(** What a fetch of [o] returns *)
Definition fetched (s : state) (d : coins) (o : OutPoint) : option UtxoEntry :=
  match get (cachedEntries (cache s)) o with Some v => v | None => d !! o end.

Lemma fill_spec s d ops :
  fill (map (get (cachedEntries (cache s))) ops)
    (map (d !!.) (filter (fun o => get (cachedEntries (cache s)) o = None) ops)) = map (fetched s d) ops.
Proof.
  induction ops as [|o ops IH]; [done|]. cbn [map]. unfold fetched at 1.
  destruct (get (cachedEntries (cache s)) o) as [v|] eqn:E.
  - rewrite filter_cons_False by congruence. cbn [fill]. by rewrite IH.
  - rewrite filter_cons_True by done. cbn [map fill]. by rewrite IH.
Qed.

Lemma fetch_many s d U ops : cinv s d U → Forall op_wf ops →
  ∃ s', fetchEntries ops s = Done (inl (map (fetched s d) ops), s') ∧ cinv s' d U ∧ only_entries s s'.
Proof.
  intros Hi Hw. unfold fetchEntries. rewrite get_bind_M, <-(fill_spec s d ops).
  set (missing := filter _ ops). destruct (Z.eqb_spec (zlen missing) 0) as [Ez|Ez].
  - exists s. split; [|split; [done|apply only_entries_refl]]. destruct missing; [done|]. rewrite zlen_cons in Ez.
    pose proof (zlen_nonneg missing). lia.
  - assert (Forall op_wf missing) as Hm.
    { rewrite Forall_forall in *. intros o Ho. apply Hw. unfold missing in Ho. by apply list_elem_of_filter in Ho as [_ Ho]. }
    rewrite (io_step _ _ _ _ _ (fetchMissing_ok (utxoBucket s) d missing s (ci_rows _ _ _ Hi) Hm)).
    destruct (putAll_ok missing s d U Hi Hm) as (s' & E & Hi' & Oe).
    { intros o Ho. left. unfold missing in Ho. by apply list_elem_of_filter in Ho as [Ho _]. }
    rewrite (io_step _ _ _ _ _ E). by exists s'.
Qed.

(** A fetched entry says what the UTXO set holds. *)
Lemma fetched_coin s d U o e : cinv s d U → op_wf o → fetched s d o = Some e →
  entry_ok e ∧ (IsSpent e = true → isModified e = true) ∧ U !! o = if IsSpent e then None else Some (cleaned e).
Proof.
  intros Hi Hw. unfold fetched. rewrite (ci_coins _ _ _ Hi). destruct (get _ o) as [v|] eqn:Eg.
  - intros ->. destruct (ci_cached _ _ _ Hi _ _ Eg) as (_ & He & Hc). split; [done|]. cbn. split; [|done].
    destruct (isModified e); [done|]. destruct Hc as (_ & -> & _). done.
  - intros Hd. destruct (proj1 (ci_rows _ _ _ Hi) _ _ Hd) as (_ & He & Hc). split; [done|].
    destruct (cleaned_flags e) as (_ & F1 & F2 & _). rewrite <-Hc in F1, F2. rewrite F1, F2, <-Hc. done.
Qed.

(** ** Spending and creating *)

Lemma addDelta_same x c : cachedEntries (addDelta x c) = cachedEntries c ∧ dirtyOps (addDelta x c) = dirtyOps c ∧
  totalEntryMemory (addDelta x c) = totalEntryMemory c ∧ trackDeltas (addDelta x c) = trackDeltas c.
Proof. unfold addDelta. by destruct (trackDeltas c) eqn:E. Qed.

Lemma Spend_fields e : amount (Spend e) = amount e ∧ pkScript (Spend e) = pkScript e ∧ blockHeight (Spend e) = blockHeight e.
Proof. unfold Spend. by destruct (IsSpent e). Qed.

Lemma entry_ok_Spend e : entry_ok e → entry_ok (Spend e).
Proof. unfold entry_ok. by destruct (Spend_fields e) as (-> & -> & ->). Qed.

Lemma stxoOf_cleaned e : stxoOf (cleaned e) = stxoOf e.
Proof. unfold stxoOf. by destruct (cleaned_flags e) as [-> _]. Qed.

Lemma addTxIn_ok s d U ti st c : cinv s d U → U !! Wire.PreviousOutPoint ti = Some c →
  ∃ s', addTxIn ti st s = Done (inl ((fun l => l ++ [stxoOf c]) <$> st), s') ∧
    cinv s' d (delete (Wire.PreviousOutPoint ti) U).
Proof.
  intros Hi Hc. set (o := Wire.PreviousOutPoint ti) in *. destruct (coin_wf _ _ _ _ _ Hi Hc) as (Hw & _).
  destruct (fetch_one s d U o Hi Hw) as (s1 & v & Ef & Hi1 & Hg & _).
  pose proof (ci_coins _ _ _ Hi1 o) as Hv. rewrite Hc, Hg in Hv. destruct v as [e|]; [|done]. cbn in Hv.
  destruct (IsSpent e) eqn:Eu; [done|]. injection Hv as ->.
  destruct (ci_cached _ _ _ Hi1 _ _ Hg) as (_ & He & Hm).
  destruct (Spend_flags e) as (F1 & F2 & F3 & F4). specialize (F3 Eu).
  unfold addTxIn. fold o. rewrite (io_step _ _ _ _ _ Ef). eexists. split.
  { unfold modify_. repeat (rewrite (io_step _ _ _ tt _) by reflexivity). rewrite stxoOf_cleaned. reflexivity. }
  destruct (modify_ok (cachedEntries (cache s1)) o (Spend e) (ci_ms _ _ _ Hi1) ltac:(by eexists)) as (M1 & M2 & M3).
  set (x := {| op := o; tombstone := true; entry := None |}).
  set (c1 := set_entries (modify (cachedEntries (cache s1)) o (Spend e)) (totalEntryMemory (cache s1)) (cache s1)).
  destruct (addDelta_same x c1) as (A1 & A2 & _). cbn [set_cache cache] in *. fold c1.
  destruct (isFresh (Spend e)) eqn:Efr.
  - assert (d !! o = None) as Hd.
    { destruct (isModified e); [by apply Hm|]. destruct Hm as (_ & _ & Hf). congruence. }
    pose proof (delete_ok _ o M1) as (D1 & D2 & D3).
    eapply eq_rect; [apply (cinv_step s1 _ d U o None Hi1)|]; cbn [cache set_cache set_dirty cachedEntries removeEntry set_entries dirtyOps utxoBucket];
      rewrite ?A1, ?A2; [done..| | |done|].
    + intros o' Hne. by rewrite D3, M3.
    + intros o' Hne Hin. apply elem_of_difference; split; [done|]; by apply not_elem_of_singleton.
    + unfold coinOf. by rewrite Hd.
  - eapply eq_rect; [apply (cinv_step s1 _ d U o (Some (Some (Spend e))) Hi1)|]; cbn [cache set_cache set_dirty cachedEntries dirtyOps utxoBucket];
      rewrite ?A1, ?A2; [done..| | |].
    + intros o' _ Hin. by apply elem_of_union_r.
    + split; [done|]. split; [by apply entry_ok_Spend|]. rewrite F3. split; [apply elem_of_union_l; by apply elem_of_singleton|]. by rewrite Efr.
    + unfold coinOf. by rewrite F1.
Qed.

(** The entry a new output gets *)
Definition newEntry (txOut : Wire.TxOut (list byte)) (isCoinBase : bool) (height : Z) : UtxoEntry :=
  {| amount := Wire.Value txOut; pkScript := Wire.PkScript txOut; blockHeight := height;
     packedFlags := if isCoinBase then Z.lor (Z.lor tfFresh tfModified) tfCoinBase else Z.lor tfFresh tfModified |}.

Definition newCoin (txOut : Wire.TxOut (list byte)) (isCoinBase : bool) (height : Z) : UtxoEntry :=
  NewUtxoEntry txOut height isCoinBase.

Lemma newEntry_flags txOut cb h : IsSpent (newEntry txOut cb h) = false ∧ isModified (newEntry txOut cb h) = true ∧
  cleaned (newEntry txOut cb h) = newCoin txOut cb h.
Proof. by destruct cb. Qed.

Lemma addTxOut_ok s d U o txOut cb h : cinv s d U → op_wf o → d !! o = None → entry_ok (newEntry txOut cb h) →
  ∃ s', addTxOut o txOut cb h s = Done (inl tt, s') ∧
    cinv s' d (if Script.unspendable (Wire.PkScript txOut) then U else <[o := newCoin txOut cb h]> U).
Proof.
  intros Hi Hw Hd He. unfold addTxOut. rewrite (io_run_Done _ _ _ _ (Script.IsUnspendable_spec _)).
  destruct (Script.unspendable (Wire.PkScript txOut)); [by exists s|]. fold (newEntry txOut cb h).
  destruct (newEntry_flags txOut cb h) as (F1 & F2 & F3). cbv zeta. change (packedFlags _) with (packedFlags (newEntry txOut cb h)).
  destruct (putEntry_ok s o (Some (newEntry txOut cb h)) (ci_ms _ _ _ Hi)) as (ms & mem & Ep & Hms & Ho & Hne).
  fold (newEntry txOut cb h). rewrite (io_step _ _ _ _ _ Ep). eexists. split.
  { unfold modify_. repeat (rewrite (io_step _ _ _ tt _) by reflexivity). reflexivity. }
  set (x := {| op := o; tombstone := false; entry := None |}). cbn [cache set_cache].
  set (c1 := set_dirty _ _). destruct (addDelta_same x c1) as (A1 & A2 & _).
  eapply eq_rect; [apply (cinv_step s _ d U o (Some (Some (newEntry txOut cb h))) Hi)|];
    cbn [cache set_cache cachedEntries dirtyOps utxoBucket]; rewrite ?A1, ?A2; [done..| | |].
  - intros o' _ Hin. cbn. by apply elem_of_union_r.
  - split; [done|]. split; [done|]. rewrite F2. split; [cbn; apply elem_of_union_l; by apply elem_of_singleton|]. by intros _.
  - unfold coinOf. rewrite F1, F3. done.
Qed.

(** ** Reference: a block as a function on the UTXO set *)

Fixpoint spendAll (ins : list (Wire.TxIn (list byte))) (U : coins) (spent : list UtxoEntry) :
    option (coins * list UtxoEntry) :=
  match ins with
  | [] => Some (U, spent)
  | ti :: ins =>
      match U !! Wire.PreviousOutPoint ti with
      | None => None
      | Some c => spendAll ins (delete (Wire.PreviousOutPoint ti) U) (spent ++ [c])
      end
  end.

Fixpoint createAll (hs : list byte) (cb : bool) (height i : Z) (outs : list (Wire.TxOut (list byte))) (U : coins) : coins :=
  match outs with
  | [] => U
  | txOut :: outs =>
      createAll hs cb height (i + 1) outs
        (if Script.unspendable (Wire.PkScript txOut) then U
         else <[{| Wire.Hash := hs; Wire.Index := i |} := newCoin txOut cb height]> U)
  end.

(** Transactions come with their hashes. *)
Fixpoint applyTxs (txs : list (Wire.Tx * list byte)) (height : Z) (U : coins) (spent : list UtxoEntry) :
    option (coins * list UtxoEntry) :=
  match txs with
  | [] => Some (U, spent)
  | (tx, hs) :: txs =>
      match (if IsCoinBaseTx tx then Some (U, spent) else spendAll (Wire.TxIns tx) U spent) with
      | None => None
      | Some (U, spent) => applyTxs txs height (createAll hs (IsCoinBaseTx tx) height 0 (Wire.TxOuts tx) U) spent
      end
  end.

(** The outputs of a transaction are new to the database and fit its format. *)
Definition creates_ok (d : coins) (height : Z) (p : Wire.Tx * list byte) : Prop :=
  Wire.TxHash p.1 = Done p.2 ∧ length p.2 = 32%nat ∧ zlen (Wire.TxOuts p.1) ≤ 2 ^ 32 ∧
  ∀ i txOut, 0 ≤ i → Wire.TxOuts p.1 !! Z.to_nat i = Some txOut →
    d !! {| Wire.Hash := p.2; Wire.Index := i |} = None ∧ entry_ok (newEntry txOut (IsCoinBaseTx p.1) height).

Lemma addTxIns_loop_ok ins s d U U' st spent spent' : cinv s d U → spendAll ins U spent = Some (U', spent') →
  st = Some (map stxoOf spent) →
  ∃ s', addTxIns_loop ins st s = Done (inl (Some (map stxoOf spent')), s') ∧ cinv s' d U'.
Proof.
  revert s U st spent. induction ins as [|ti ins IH]; intros s U st spent Hi Hs ->; cbn [spendAll addTxIns_loop] in *.
  { injection Hs as -> ->. by exists s. }
  destruct (U !! Wire.PreviousOutPoint ti) as [c|] eqn:Ec; [|done].
  destruct (addTxIn_ok s d U ti (Some (map stxoOf spent)) c Hi Ec) as (s1 & E1 & Hi1).
  rewrite (io_step _ _ _ _ _ E1). apply (IH _ _ _ _ Hi1 Hs). cbn. by rewrite map_app.
Qed.

Lemma addTxOuts_loop_ok hs cb height outs s d U i : cinv s d U → length hs = 32%nat → 0 ≤ i → i + zlen outs ≤ 2 ^ 32 →
  (∀ j txOut, outs !! j = Some txOut →
     d !! {| Wire.Hash := hs; Wire.Index := i + Z.of_nat j |} = None ∧ entry_ok (newEntry txOut cb height)) →
  ∃ s', addTxOuts_loop hs cb height i outs s = Done (inl tt, s') ∧ cinv s' d (createAll hs cb height i outs U).
Proof.
  revert s U i. induction outs as [|txOut outs IH]; intros s U i Hi Hh Hp Hl Ho; cbn [addTxOuts_loop createAll].
  { by exists s. }
  rewrite zlen_cons in Hl. pose proof (zlen_nonneg outs). rewrite (uwrap_small 32 i) by zlia.
  destruct (Ho O txOut eq_refl) as [Hd He]. rewrite Z.add_0_r in Hd.
  destruct (addTxOut_ok s d U {| Wire.Hash := hs; Wire.Index := i |} txOut cb height Hi) as (s1 & E1 & Hi1);
    [split; cbn; zlia|done..|].
  rewrite (io_step _ _ _ _ _ E1). apply IH; [done..|lia|lia|].
  intros j t Hj. replace (i + 1 + Z.of_nat j) with (i + Z.of_nat (S j)) by lia. by apply Ho.
Qed.

Lemma connect_ok txs height s d U U' st spent spent' : cinv s d U → Forall (creates_ok d height) txs →
  applyTxs txs height U spent = Some (U', spent') → st = Some (map stxoOf spent) →
  ∃ s', connectTransactions txs.*1 height st s = Done (inl (Some (map stxoOf spent')), s') ∧ cinv s' d U'.
Proof.
  intros Hi Hc. revert s U st spent Hi. induction Hc as [|[tx hs] txs (Hh & Hl & Hz & Ho) _ IH]; intros s U st spent Hi Ha ->.
  { injection Ha as -> ->. by exists s. }
  cbn [fmap list_fmap map fst connectTransactions applyTxs] in *.
  assert (∃ U1 spent1 s1, (if IsCoinBaseTx tx then Some (U, spent) else spendAll (Wire.TxIns tx) U spent) = Some (U1, spent1) ∧
    addTxIns tx (Some (map stxoOf spent)) s = Done (inl (Some (map stxoOf spent1)), s1) ∧ cinv s1 d U1) as (U1 & spent1 & s1 & E1 & E2 & Hi1).
  { unfold addTxIns. destruct (IsCoinBaseTx tx); [by exists U, spent, s|].
    destruct (spendAll (Wire.TxIns tx) U spent) as [[U1 spent1]|] eqn:Es; [|done].
    destruct (addTxIns_loop_ok _ _ _ _ _ _ _ _ Hi Es eq_refl) as (s1 & E & Hi1). by exists U1, spent1, s1. }
  rewrite E1 in Ha.
  destruct (addTxOuts_loop_ok hs (IsCoinBaseTx tx) height (Wire.TxOuts tx) s1 d U1 0 Hi1 Hl) as (s2 & E3 & Hi2); [lia|cbn in *; lia| |].
  { intros j t Hj. cbn [fst snd] in Ho. apply (Ho (0 + Z.of_nat j) t); [lia|]. by rewrite Z.add_0_l, Nat2Z.id. }
  rewrite (io_step _ _ s (Some (map stxoOf spent1)) s2).
  - apply (IH _ _ _ _ Hi2 Ha eq_refl).
  - unfold connectTransaction. rewrite (io_step _ _ _ _ _ E2).
    rewrite (io_step _ _ _ tt s2); [done|]. unfold addTxOuts. cbn [fst snd] in Hh. by rewrite (io_run_Done _ _ _ _ Hh).
Qed.

(** C6 (refinement).  Connecting a block through the cache is the block applied to
    the UTXO set: when every input is an unspent output, [connectTransactions]
    succeeds without a panic, records the outputs spent in order, and the cache
    with the database then stands for the set without the spent outputs and with
    the spendable new ones, whatever was cached before and however many maps the
    cache has.  The database itself is not written. *)
Theorem connect_refines (s : state) (d U U' : coins) (height : Z) (txs : list (Wire.Tx * list byte)) (spent : list UtxoEntry) :
  cinv s d U → Forall (creates_ok d height) txs → applyTxs txs height U [] = Some (U', spent) →
  ∃ s', connectTransactions txs.*1 height (Some []) s = Done (inl (Some (map stxoOf spent)), s') ∧ cinv s' d U'.
Proof. intros Hi Hc Ha. by eapply connect_ok. Qed.

(** ** Flushing *)

(** As [cinv_step], when the row of [o] changes too *)
Lemma cinv_write s s' d d' U o v :
  cinv s d U → rows (utxoBucket s') d' → (∀ o', o' ≠ o → d' !! o' = d !! o') → ms_ok (cachedEntries (cache s')) →
  get (cachedEntries (cache s')) o = v →
  (∀ o', o' ≠ o → get (cachedEntries (cache s')) o' = get (cachedEntries (cache s)) o') →
  dirtyOps (cache s') = dirtyOps (cache s) →
  match v with Some v => cached_ok (dirtyOps (cache s')) d' o v | None => True end →
  U !! o = coinOf v d' o → cinv s' d' U.
Proof.
  intros Hi Hb Hd Hms Ho Hne Hdirty Hv HU. split; [done..| |].
  - intros o' v' E. destruct (decide (o' = o)) as [->|Hn]; [rewrite Ho in E; by rewrite E in Hv|].
    rewrite Hne in E by done. pose proof (ci_cached _ _ _ Hi _ _ E) as [Hw Hc]. split; [done|].
    rewrite Hd by done. by rewrite Hdirty.
  - intros o'. destruct (decide (o' = o)) as [->|Hn]; [by rewrite Ho|]. rewrite Hne by done.
    rewrite (ci_coins _ _ _ Hi o'). unfold coinOf. by rewrite Hd.
Qed.

(** No entry is left to be written. *)
Definition settled (s : state) (o : OutPoint) : Prop :=
  match get (cachedEntries (cache s)) o with Some (Some e) => isModified e = false | _ => True end.

Lemma cinv_settled s d U : cinv s d U → (∀ o, settled s o) → d = U ∧ cinv (set_cache (set_dirty ∅ (cache s)) s) U U.
Proof.
  intros Hi Hs. assert (d = U) as <-.
  { apply map_eq. intros o. rewrite (ci_coins _ _ _ Hi o). specialize (Hs o). unfold settled in Hs.
    destruct (get (cachedEntries (cache s)) o) as [[e|]|] eqn:E; [| |done].
    - destruct (ci_cached _ _ _ Hi _ _ E) as (_ & _ & Hc). rewrite Hs in Hc. destruct Hc as (-> & Hu & _). cbn. by rewrite Hu.
    - by destruct (ci_cached _ _ _ Hi _ _ E) as (_ & ->). }
  split; [done|]. split; try apply Hi. intros o v E. cbn in E. destruct (ci_cached _ _ _ Hi _ _ E) as [Hw Hc].
  split; [done|]. destruct v as [e|]; [|done]. destruct Hc as [He Hc]. split; [done|].
  specialize (Hs o). unfold settled in Hs. rewrite E in Hs. by rewrite Hs in Hc |- *.
Qed.

Lemma entry_ok_clear e : entry_ok e → entry_ok (clearModified e).
Proof. done. Qed.

Lemma cleaned_clear e : cleaned (clearModified e) = cleaned e.
Proof. unfold cleaned at 1. by destruct (clearModified_flags e) as (_ & -> & _). Qed.

Lemma writeDirty_one_ok s d U o : cinv s d U →
  ∃ s' d', writeDirty_one o s = Done (inl tt, s') ∧ cinv s' d' U ∧ dirtyOps (cache s') = dirtyOps (cache s) ∧
    settled s' o ∧ (∀ o', settled s o' → settled s' o') ∧ trackDeltas (cache s') = trackDeltas (cache s).
Proof.
  intros Hi. unfold writeDirty_one. rewrite get_bind_M. pose proof (ci_coins _ _ _ Hi o) as HU.
  destruct (get (cachedEntries (cache s)) o) as [v|] eqn:Eg.
  2: { exists s, d. split_and!; try done. unfold settled. by rewrite Eg. }
  destruct (ci_cached _ _ _ Hi _ _ Eg) as [Hw Hc].
  assert (∀ s', (∀ o', o' ≠ o → get (cachedEntries (cache s')) o' = get (cachedEntries (cache s)) o') → settled s' o →
    ∀ o', settled s o' → settled s' o') as Hkeep.
  { intros s' Hne Hs o' Ho'. destruct (decide (o' = o)) as [->|]; [done|]. unfold settled in *. by rewrite Hne. }
  destruct (match v with Some e => IsSpent e | None => true end) eqn:Esp.
  - destruct (rows_delete _ d o (ci_rows _ _ _ Hi) Hw) as (b' & Ed & Hr).
    rewrite (io_run_Done _ _ _ _ Ed). destruct (delete_ok _ o (ci_ms _ _ _ Hi)) as (D1 & D2 & D3).
    eexists _, (delete o d). split; [reflexivity|]. split.
    { eapply (cinv_write s _ d _ U o None Hi); [done| |done|done|done|done|done|].
      - intros o' Hne. by rewrite lookup_delete_ne.
      - rewrite HU. cbn. rewrite lookup_delete_eq. destruct v as [e|]; [by rewrite Esp|done]. }
    split; [done|]. match goal with |- settled ?s' o ∧ _ => assert (settled s' o) as Hs'
      by (unfold settled; cbn [cache cachedEntries removeEntry set_entries]; by rewrite D2) end.
    split; [done|]. split; [by apply Hkeep|done].
  - destruct v as [e|]; [|done]. destruct Hc as [He Hm]. destruct (isModified e) eqn:Em; cbn [negb].
    2: { exists s, d. split_and!; try done. unfold settled. by rewrite Eg. }
    destruct (rows_put _ d o e (ci_rows _ _ _ Hi) Hw He Esp) as (b' & Ep & Hr).
    rewrite (io_step _ _ _ b' s) by (unfold lift; by rewrite Ep).
    destruct (modify_ok (cachedEntries (cache s)) o (clearModified e) (ci_ms _ _ _ Hi)) as (M1 & M2 & M3); [by eexists|].
    destruct (clearModified_flags e) as (F1 & F2 & F3 & F4).
    eexists _, _. split; [reflexivity|]. split.
    { eapply (cinv_write s _ d _ U o (Some (Some (clearModified e))) Hi); [exact Hr| |done|done|done|done| |].
      - intros o' Hne. by rewrite lookup_insert_ne.
      - cbn. split; [done|]. split; [done|]. rewrite F3, F1, lookup_insert_eq, cleaned_clear. done.
      - rewrite HU. cbn. by rewrite Esp, F1, Esp, cleaned_clear. }
    split; [done|]. match goal with |- settled ?s' o ∧ _ => assert (settled s' o) as Hs'
      by (unfold settled; cbn [cache cachedEntries set_entries]; by rewrite M2) end.
    split; [done|]. split; [by apply Hkeep|done].
Qed.

Lemma writeDirty_ok ops s d U : cinv s d U →
  ∃ s' d', writeDirty ops s = Done (inl tt, s') ∧ cinv s' d' U ∧ dirtyOps (cache s') = dirtyOps (cache s) ∧
    (∀ o, o ∈ ops ∨ settled s o → settled s' o).
Proof.
  revert s d. induction ops as [|o ops IH]; intros s d Hi; cbn [writeDirty].
  { exists s, d. split_and!; try done. intros o [?%elem_of_nil|]; done. }
  destruct (writeDirty_one_ok s d U o Hi) as (s1 & d1 & E1 & Hi1 & Hd1 & So & Sk & _).
  destruct (IH s1 d1 Hi1) as (s2 & d2 & E2 & Hi2 & Hd2 & S2). exists s2, d2. rewrite (io_step _ _ _ _ _ E1).
  split; [done|]. split; [done|]. split; [congruence|]. intros o' [[->|Ho]%elem_of_cons|Ho]; apply S2; auto.
Qed.

(** What Go promises of [range]: every key is visited once. *)
Class MapOrderOk (O : MapOrder) : Prop := {
  entryOrder_perm : ∀ m, entryOrder m ≡ₚ map_to_list m;
  opOrder_perm : ∀ d, opOrder d ≡ₚ elements d;
}.

Context {O : MapOrder} {Ook : MapOrderOk O}.

Lemma writeIncremental_ok s d U : cinv s d U →
  ∃ s', (s0 ← get_; _ ← writeDirty (opOrder (dirtyOps (cache s0))); modify_ (set_dirty ∅)) s = Done (inl tt, s') ∧
    cinv s' U U ∧ dirtyOps (cache s') = ∅.
Proof.
  intros Hi. rewrite get_bind_M. destruct (writeDirty_ok (opOrder (dirtyOps (cache s))) s d U Hi) as (s1 & d1 & E & Hi1 & Hd & Hs).
  rewrite (io_step _ _ _ _ _ E). eexists. split; [reflexivity|]. split; [|done].
  destruct (cinv_settled s1 d1 U Hi1) as [_ Hc]; [|done]. intros o. apply Hs.
  destruct (get (cachedEntries (cache s)) o) as [[e|]|] eqn:Eg; [|right; unfold settled; by rewrite Eg..].
  destruct (isModified e) eqn:Em; [left|right; unfold settled; by rewrite Eg].
  destruct (ci_cached _ _ _ Hi _ _ Eg) as (_ & _ & Hc). rewrite Em in Hc.
  rewrite (opOrder_perm (dirtyOps (cache s))). apply elem_of_elements; apply Hc.
Qed.

(** What a full flush leaves of a cached entry *)
Definition hotOf (floor : Z) (e : option UtxoEntry) : option (option UtxoEntry) :=
  match e with
  | Some e =>
      if negb (IsSpent e) && (floor <=? blockHeight e)
      then Some (Some (if isModified e then clearModified e else e)) else None
  | None => None
  end.

Definition coinAt (e : option UtxoEntry) : option UtxoEntry :=
  match e with Some e => if IsSpent e then None else Some (cleaned e) | None => None end.

Definition hotOps (floor : Z) (l : list (OutPoint * option UtxoEntry)) : list OutPoint :=
  omap (fun p => match hotOf floor p.2 with Some _ => Some p.1 | None => None end) l.

Lemma flushEntry_ok floor dirty o e b d m hot : rows b d → cached_ok dirty d o e →
  ∃ b', flushEntry floor o e (b, m, hot) =
      Done (inl (b', partial_alter (fun _ => hotOf floor e) o m, hot ++ hotOps floor [(o, e)])) ∧
    rows b' (partial_alter (fun _ => coinAt e) o d).
Proof.
  intros Hr [Hw Hc]. unfold flushEntry, hotOps. cbn [omap list_omap snd fst].
  assert (∀ x : entryMap, delete o x = partial_alter (fun _ => None) o x) as Hdel by done.
  destruct e as [e|].
  - destruct Hc as [He Hm]. cbn [hotOf coinAt]. destruct (IsSpent e) eqn:Es.
    + destruct (rows_delete b d o Hr Hw) as (b' & -> & Hr'). cbn [mbind run_bind negb andb]. rewrite Es. cbn [negb andb].
      exists b'. by rewrite app_nil_r.
    + destruct (isModified e) eqn:Em; cbn [negb].
      * destruct (rows_put b d o e Hr Hw He Es) as (b' & -> & Hr'). cbn [mbind run_bind].
        destruct (clearModified_flags e) as (-> & _). rewrite Es. cbn [negb andb]. change (blockHeight (clearModified e)) with (blockHeight e).
        exists b'. split; [|done]. by destruct (floor <=? blockHeight e); rewrite ?app_nil_r.
      * cbn [mbind run_bind]. rewrite Es. cbn [negb andb]. exists b. split.
        -- by destruct (floor <=? blockHeight e); rewrite ?app_nil_r.
        -- destruct Hm as (Hd & _). rewrite alter_same by done. done.
  - destruct (rows_delete b d o Hr Hw) as (b' & -> & Hr'). cbn [mbind run_bind hotOf coinAt]. exists b'. by rewrite app_nil_r.
Qed.

Lemma flushMap_ok floor dirty l b d m hot : NoDup l.*1 → (∀ o e, (o, e) ∈ l → cached_ok dirty d o e) → rows b d →
  ∃ b' d' m', flushMap floor l (b, m, hot) = Done (inl (b', m', hot ++ hotOps floor l)) ∧ rows b' d' ∧
    (∀ o e, (o, e) ∈ l → d' !! o = coinAt e ∧ m' !! o = hotOf floor e) ∧
    (∀ o, o ∉ l.*1 → d' !! o = d !! o ∧ m' !! o = m !! o).
Proof.
  revert b d m hot. induction l as [|[o e] l IH]; intros b d m hot Hn Hc Hr; cbn [flushMap].
  { exists b, d, m. rewrite app_nil_r. split_and!; try done. by intros o e ?%elem_of_nil. }
  cbn [fmap list_fmap fst] in *. apply NoDup_cons in Hn as [Hno Hn].
  destruct (flushEntry_ok floor dirty o e b d m hot Hr) as (b1 & -> & Hr1); [apply Hc; left|]. cbn [mbind run_bind].
  destruct (IH b1 (partial_alter (fun _ => coinAt e) o d) (partial_alter (fun _ => hotOf floor e) o m)
    (hot ++ hotOps floor [(o, e)]) Hn) as (b' & d' & m' & -> & Hr' & Hin & Hout); [|done|].
  { intros o' e' Hi. destruct (Hc o' e') as [Hw Hc']; [by right|]. split; [done|].
    assert (o' ≠ o) by (intros ->; apply Hno; by apply (list_elem_of_fmap_2 fst l (o, e'))).
    by rewrite lookup_partial_alter_ne. }
  exists b', d', m'. split.
  { do 3 f_equal. rewrite <-app_assoc. f_equal. unfold hotOps. cbn. by destruct (hotOf floor e). }
  split; [done|]. destruct (Hout o Hno) as [Ho1 Ho2]. rewrite lookup_partial_alter_eq in Ho1. rewrite lookup_partial_alter_eq in Ho2. split.
  - intros o' e' [[= -> ->]|Hi]%elem_of_cons; [done|by apply Hin].
  - intros o' Ho'. apply not_elem_of_cons in Ho' as [Hne Ho']. destruct (Hout o' Ho') as [-> ->].
    by rewrite !lookup_partial_alter_ne.
Qed.

Lemma fst_order m : (entryOrder m).*1 ≡ₚ (map_to_list m).*1.
Proof. by rewrite (entryOrder_perm m). Qed.

Lemma order_in m o e : (o, e) ∈ entryOrder m ↔ m !! o = Some e.
Proof. rewrite (entryOrder_perm m). apply elem_of_map_to_list. Qed.

Lemma order_not_in m o : o ∉ (entryOrder m).*1 ↔ m !! o = None.
Proof.
  rewrite list_elem_of_fmap. rewrite eq_None_not_Some. split; intros H.
  - intros [e He]. apply H. exists (o, e). by rewrite order_in.
  - intros ([o' e] & -> & He). apply H. rewrite order_in in He. by eexists.
Qed.

Lemma flushMaps_ok floor dirty ms b d hot : disjointMaps ms → rows b d →
  (∀ o e, getIn ms o = Some e → cached_ok dirty d o e) →
  ∃ b' d' ms', flushMaps floor ms b hot = Done (inl (b', ms', hot ++ concat (map (fun m => hotOps floor (entryOrder m)) ms))) ∧
    rows b' d' ∧ (∀ o, d' !! o = match getIn ms o with Some e => coinAt e | None => d !! o end) ∧
    Forall2 (fun m m' => ∀ o, m' !! o = match m !! o with Some e => hotOf floor e | None => None end) ms ms'.
Proof.
  revert b d hot. induction ms as [|m ms IH]; intros b d hot Hd Hr Hc; cbn [flushMaps].
  { exists b, d, []. rewrite app_nil_r. by split_and!. }
  destruct Hd as [Hd1 Hd2]. destruct (flushMap_ok floor dirty (entryOrder m) b d m hot) as (b1 & d1 & m1 & -> & Hr1 & Hin & Hout).
  - rewrite fst_order. apply NoDup_fst_map_to_list.
  - intros o e Hi. apply order_in in Hi. apply Hc. cbn. by rewrite Hi.
  - done.
  - cbn [mbind run_bind]. destruct (IH b1 d1 (hot ++ hotOps floor (entryOrder m)) Hd2 Hr1) as (b' & d' & ms' & -> & Hr' & Hl & Hf).
    { intros o e Hi. assert (m !! o = None) as Hm.
      { destruct (m !! o) eqn:E; [|done]. by rewrite Hd1 in Hi. }
      destruct (Hc o e) as [Hw Hc']; [cbn; by rewrite Hm|]. split; [done|].
      destruct (Hout o) as [-> _]; [by apply order_not_in|done]. }
    cbn [mbind run_bind]. exists b', d', (m1 :: ms'). split; [by rewrite <-app_assoc|]. split; [done|]. split.
    + intros o. rewrite Hl. cbn [getIn]. destruct (m !! o) as [e|] eqn:E.
      * rewrite (Hd1 o) by (by eexists). apply Hin. by apply order_in.
      * destruct (Hout o) as [-> _]; [by apply order_not_in|done].
    + constructor; [|done]. intros o. destruct (m !! o) as [e|] eqn:E; [apply Hin; by apply order_in|].
      destruct (Hout o) as [_ ->]; [by apply order_not_in|done].
Qed.

(** Every hot entry is in the first map of the cache. *)
Definition hot_first (c : utxoCache) : Prop :=
  Forall (fun m => ∀ o e, m !! o = Some e → hotOf (hotFloor c) e = None) (tail (maps (cachedEntries c))).

Lemma hotOps_none floor l : (∀ o e, (o, e) ∈ l → hotOf floor e = None) → hotOps floor l = [].
Proof.
  intros H. apply omap_none. apply Forall_forall. intros [o e] Hi. cbn. by rewrite (H o e Hi).
Qed.

Lemma hotOps_in floor l o : o ∈ hotOps floor l → ∃ e, (o, e) ∈ l ∧ is_Some (hotOf floor e).
Proof.
  unfold hotOps. rewrite list_elem_of_omap. intros ([o' e] & Hi & E). cbn in E.
  destruct (hotOf floor e) eqn:Eh; [|done]. injection E as ->. exists e. split; [done|by eexists].
Qed.

Lemma reinsertHot_ok hot m z mx s : maps (cachedEntries (cache s)) = [m] → maxEntries (cachedEntries (cache s)) = [z] →
  maxTotalMemoryUsage (cachedEntries (cache s)) = mx → (∀ o, o ∈ hot → is_Some (m !! o)) →
  ∃ mem, reinsertHot hot s = Done (inl tt, set_cache (set_entries (cachedEntries (cache s)) mem (cache s)) s).
Proof.
  revert s. induction hot as [|o hot IH]; intros s Hm Hz Hx Hh; cbn [reinsertHot].
  { exists (totalEntryMemory (cache s)). destruct s as [c b cs], c. done. }
  rewrite get_bind_M. destruct (Hh o ltac:(left)) as [v Ev].
  assert (get (cachedEntries (cache s)) o = Some v) as Eg by (unfold get; rewrite Hm; cbn; by rewrite Ev).
  assert (put (cachedEntries (cache s)) o v (totalEntryMemory (cache s)) = Done (cachedEntries (cache s))) as Ep.
  { unfold put. rewrite Hm, Hz. cbn [putExisting]. rewrite Ev. cbn [mbind run_bind]. rewrite insert_id by done.
    unfold set_maps. rewrite <-Hm. by destruct (cachedEntries (cache s)). }
  rewrite Eg. cbn [from_option]. unfold id.
  rewrite (io_step _ _ _ tt (set_cache (set_entries (cachedEntries (cache s)) (u64 (totalEntryMemory (cache s) + memoryUsage v)) (cache s)) s)).
  2: { unfold putEntry. by rewrite Ep. }
  match goal with |- context [reinsertHot hot ?st] => destruct (IH st Hm Hz Hx) as [mem Er] end.
  { intros o' Ho'. apply Hh. by right. }
  exists mem. by rewrite Er.
Qed.

(** A full flush up to the point where the hot entries are put back: [m0] is the
    first map before, [m0'] after. *)
Lemma writeAll_split s d U : cinv s d U → ∃ m0 ms z0 b' m0',
  maps (cachedEntries (cache s)) = m0 :: ms ∧ - 2 ^ 63 ≤ z0 < 2 ^ 63 ∧ rows b' U ∧
  (∀ o, m0' !! o = m0 !! o ≫= hotOf (hotFloor (cache s))) ∧
  writeAll s = reinsertHot (concat (map (fun m => hotOps (hotFloor (cache s)) (entryOrder m)) (m0 :: ms)))
    {| cache := set_dirty ∅ (set_entries {| maps := [m0']; maxEntries := [z0];
                  maxTotalMemoryUsage := maxTotalMemoryUsage (cachedEntries (cache s)) |} 0 (cache s));
       utxoBucket := b'; consistency := consistency s |}.
Proof.
  intros Hi. destruct (ci_ms _ _ _ Hi) as (Hl & Hn & Hd & Hz). unfold writeAll. rewrite get_bind_M.
  destruct (flushMaps_ok (hotFloor (cache s)) (dirtyOps (cache s)) (maps (cachedEntries (cache s))) (utxoBucket s) d []
    Hd (ci_rows _ _ _ Hi) (ci_cached _ _ _ Hi)) as (b' & d' & ms' & Ef & Hr & Hd' & Hf).
  assert (d' = U) as ->.
  { apply map_eq. intros o. rewrite Hd', (ci_coins _ _ _ Hi o). unfold get, coinOf, coinAt. by destruct (getIn _ o) as [[e|]|]. }
  rewrite (io_step _ _ _ _ s) by (unfold lift; rewrite Ef; reflexivity).
  destruct (maps (cachedEntries (cache s))) as [|m0 ms] eqn:Em; [done|].
  destruct (maxEntries (cachedEntries (cache s))) as [|z0 zs] eqn:Ez; [done|].
  inversion Hf as [|? m0' ? ms0 Hm0 Hms]; subst.
  exists m0, ms, z0, b', m0'. split; [done|]. split; [by inversion Hz|]. split; [done|]. split; [done|]. cbn [app].
  rewrite (io_run_Done _ _ {| maps := [m0']; maxEntries := [z0]; maxTotalMemoryUsage := maxTotalMemoryUsage (cachedEntries (cache s)) |}).
  2: { unfold deleteMaps. cbn [maxEntries set_maps maps]. rewrite Ez. change (index (z0 :: zs) 0) with (@Done Z z0).
       cbn [mbind run_bind]. rewrite Script.slice_take by (cbn [length]; lia). done. }
  by rewrite (io_step _ _ _ tt _) by (unfold set_all; reflexivity).
Qed.

Lemma reinsertHot_total hot s : ms_ok (cachedEntries (cache s)) →
  ∃ s', reinsertHot hot s = Done (inl tt, s') ∧ utxoBucket s' = utxoBucket s.
Proof.
  revert s. induction hot as [|o hot IH]; intros s Hms; cbn [reinsertHot]; [by exists s|]. rewrite get_bind_M.
  destruct (putEntry_ok s o (default None (get (cachedEntries (cache s)) o)) Hms) as (ms & mem & E & Hms' & _).
  rewrite (io_step _ _ _ _ _ E). destruct (IH (set_cache (set_entries ms mem (cache s)) s) Hms') as (s' & -> & Hb). by exists s'.
Qed.

(** Whatever happens to the entries that stay cached, a full flush writes the
    UTXO set. *)
Lemma writeAll_rows s d U : cinv s d U → ∃ s', writeAll s = Done (inl tt, s') ∧ rows (utxoBucket s') U.
Proof.
  intros Hi. destruct (writeAll_split s d U Hi) as (m0 & ms & z0 & b' & m0' & _ & Hz & Hr & _ & ->).
  match goal with |- context [reinsertHot ?h ?st] => destruct (reinsertHot_total h st) as (s' & E & Hb) end.
  { split_and!; cbn; [done..|]. constructor; [done|done]. }
  exists s'. split; [exact E|]. by rewrite Hb.
Qed.

Lemma writeAll_ok s d U : cinv s d U → hot_first (cache s) →
  ∃ s', writeAll s = Done (inl tt, s') ∧ cinv s' U U ∧ dirtyOps (cache s') = ∅.
Proof.
  intros Hi Hh. destruct (writeAll_split s d U Hi) as (m0 & ms & z0 & b' & m0' & Em & Hz & Hr & Hm0 & ->).
  unfold hot_first in Hh. rewrite Em in Hh. cbn [tail] in Hh.
  assert (concat (map (fun m => hotOps (hotFloor (cache s)) (entryOrder m)) ms) = []) as Ec.
  { clear -Hh Ook. induction Hh as [|m ms Hm _ IH]; [done|]. cbn. rewrite IH, hotOps_none; [done|].
    intros o e Hi. rewrite order_in in Hi. by eapply Hm. }
  cbn [map concat]. rewrite Ec, app_nil_r.
  match goal with |- context [reinsertHot ?h ?st] => destruct (reinsertHot_ok h m0' z0 _ st eq_refl eq_refl eq_refl) as (mem & Er) end.
  { intros o Ho. apply hotOps_in in Ho as (e & He & Hx). apply order_in in He. rewrite Hm0, He. done. }
  rewrite Er. eexists. split; [reflexivity|]. split; [|done].
  assert (∀ o e', m0' !! o = Some e' → ∃ e, get (cachedEntries (cache s)) o = Some (Some e) ∧ IsSpent e = false ∧
    e' = Some (if isModified e then clearModified e else e)) as Hhot.
  { intros o e' E. rewrite Hm0 in E. unfold get. rewrite Em. cbn. destruct (m0 !! o) as [[e|]|]; [|done..]. cbn in E.
    destruct (IsSpent e) eqn:Es; cbn in E; [done|]. destruct (_ <=? _); [|done]. injection E as <-. by exists e. }
  assert (∀ o e, get (cachedEntries (cache s)) o = Some (Some e) → IsSpent e = false → U !! o = Some (cleaned e)) as HU.
  { intros o e Eg Es. rewrite (ci_coins _ _ _ Hi), Eg. cbn. by rewrite Es. }
  assert (∀ o, getIn [m0'] o = m0' !! o) as Hg by (intros o; cbn; by destruct (m0' !! o)).
  split; cbn [cache set_cache set_entries cachedEntries dirtyOps set_dirty utxoBucket]; unfold get; cbn [maps]; [| done| |].
  - split_and!; cbn; [done..|]. by constructor.
  - intros o v. rewrite Hg. intros E. destruct (Hhot o v E) as (e & Eg & Es & ->).
    destruct (ci_cached _ _ _ Hi o (Some e) Eg) as (Hw & He & Hc).
    split; [done|]. rewrite (HU o e Eg Es). destruct (isModified e) eqn:Emod.
    + destruct (clearModified_flags e) as (F1 & _ & F3 & F4). split; [done|]. rewrite F3, F1, cleaned_clear. done.
    + split; [done|]. rewrite Emod. split; [done|]. split; [done|]. by apply Hc.
  - intros o. rewrite Hg. destruct (m0' !! o) as [v|] eqn:E; [|done]. destruct (Hhot o v E) as (e & Eg & Es & ->).
    rewrite (HU o e Eg Es). cbn. destruct (isModified e); [|by rewrite Es].
    destruct (clearModified_flags e) as (-> & _). by rewrite Es, cleaned_clear.
Qed.

Lemma usage_total s d U : cinv s d U → ∃ usage, totalMemoryUsage (cache s) = Done usage ∧ 0 ≤ usage.
Proof.
  intros Hi. unfold totalMemoryUsage, size_. destruct (sizeLoop_total (maxEntries (cachedEntries (cache s))) 0) as [r ->];
    [apply (ci_ms _ _ _ Hi)|]. cbn [mbind run_bind]. eexists. split; [done|]. by apply uwrap_range.
Qed.

(** [flush(FlushRequired)] writes the UTXO set. *)
Lemma flush_required_rows s d U now best : cinv s d U →
  ∃ s', flush now FlushRequired best s = Done (inl tt, s') ∧ rows (utxoBucket s') U ∧ consistency s' = Some best.
Proof.
  intros Hi. destruct (usage_total s d U Hi) as (usage & Eu & Hpos). destruct (writeAll_rows s d U Hi) as (s1 & E1 & Hr).
  unfold flush. rewrite get_bind_M. cbv zeta iota. rewrite (io_run_Done _ _ _ _ Eu). destruct (Z.leb_spec 0 usage); [|lia].
  unfold writeCache. rewrite (io_step _ _ _ _ _ E1). unfold markFlushed. by eexists.
Qed.

(** C8 (refinement).  A flush keeps the UTXO set and makes the database agree with
    it: unless the mode and the memory use say that nothing is to be done, after
    [flush] the rows are exactly the unspent outputs, no outpoint is dirty, the
    consistency marker is the best block, and what stays cached is right; in every
    case the UTXO set is the one before.  The condition [hot_first] is needed: the recent
    entries, which a full flush keeps cached, are in the first map of the cache;
    [hot_flush_loses_coin] shows a flush that loses a coin when they are not. *)
Theorem flush_persists (s : state) (d U : coins) (now : Z) (mode : FlushMode) (best : list byte) :
  cinv s d U → hot_first (cache s) →
  ∃ s', flush now mode best s = Done (inl tt, s') ∧
    (s' = s ∧ mode ≠ FlushRequired ∨
     cinv s' U U ∧ dirtyOps (cache s') = ∅ ∧ consistency s' = Some best ∧ lastFlushHash (cache s') = best).
Proof.
  intros Hi Hh. assert (∀ clean, ∃ s', writeCache now best clean s = Done (inl tt, s') ∧ cinv s' U U ∧
    dirtyOps (cache s') = ∅ ∧ consistency s' = Some best ∧ lastFlushHash (cache s') = best) as Hw.
  { intros clean. assert (∃ s1, (if clean then writeAll else s ← get_; _ ← writeDirty (opOrder (dirtyOps (cache s)));
      modify_ (set_dirty ∅)) s = Done (inl tt, s1) ∧ cinv s1 U U ∧ dirtyOps (cache s1) = ∅) as (s1 & E1 & Hi1 & Hd1).
    { destruct clean; [by eapply writeAll_ok|by eapply writeIncremental_ok]. }
    unfold writeCache. rewrite (io_step _ _ _ _ _ E1). unfold markFlushed. eexists. split; [reflexivity|].
    split; [|done]. by destruct Hi1. }
  destruct (usage_total s d U Hi) as (usage & Eu & Hpos).
  unfold flush. rewrite get_bind_M. destruct mode; cbv zeta iota.
  - rewrite (io_run_Done _ _ _ _ Eu). destruct (Z.leb_spec 0 usage); [|lia].
    destruct (Hw true) as (s' & -> & H'). exists s'. split; [done|by right].
  - rewrite (io_run_Done _ _ _ _ Eu). destruct (_ <=? _); [|exists s; split; [done|by left]].
    destruct (Hw (maxMemory (cache s) <=? usage)) as (s' & -> & H'). exists s'. split; [done|by right].
  - destruct (bool_decide _); [exists s; split; [done|by left]|]. rewrite (io_run_Done _ _ _ _ Eu).
    destruct (_ <=? _); [|exists s; split; [done|by left]].
    destruct (Hw true) as (s' & -> & H'). exists s'. split; [done|by right].
Qed.

End refinement.

(** ** The asynchronous writer *)

Lemma removeEntry_get o e c : ms_ok (cachedEntries c) → ms_ok (cachedEntries (removeEntry o e c)) ∧
  get (cachedEntries (removeEntry o e c)) o = None ∧
  (∀ o', o' ≠ o → get (cachedEntries (removeEntry o e c)) o' = get (cachedEntries c) o').
Proof. intros H. by apply delete_ok. Qed.

Lemma takeDelta_loop_get points deltas c : ms_ok (cachedEntries c) →
  let r := takeDelta_loop points deltas c in
  ms_ok (cachedEntries r.2) ∧ (∀ o, get (cachedEntries c) o = None → get (cachedEntries r.2) o = None) ∧
  (∀ o, get (cachedEntries r.2) o = None ∨ get (cachedEntries r.2) o = get (cachedEntries c) o) ∧
  (∀ x, x ∈ points → tombstone x = true → get (cachedEntries r.2) (op x) = None) ∧
  (∀ x, x ∈ deltas → x ∈ r.1) ∧
  (∀ x, x ∈ points → tombstone x = true → {| op := op x; tombstone := true; entry := None |} ∈ r.1).
Proof.
  revert deltas c. induction points as [|x points IH]; intros deltas c Hms; cbn [takeDelta_loop]; cbv zeta.
  { split_and!; try done; [by right|by intros x ?%elem_of_nil..]. }
  destruct (tombstone x) eqn:Et.
  - set (c1 := match get (cachedEntries c) (op x) with Some e => removeEntry (op x) e c | None => c end).
    assert (ms_ok (cachedEntries c1) ∧ get (cachedEntries c1) (op x) = None ∧
      ∀ o', o' ≠ op x → get (cachedEntries c1) o' = get (cachedEntries c) o') as (H1 & H2 & H3).
    { subst c1. destruct (get (cachedEntries c) (op x)) as [e|] eqn:E; [by apply removeEntry_get|done]. }
    set (t := {| op := op x; tombstone := true; entry := None |}).
    destruct (IH (deltas ++ [t]) c1 H1) as (I1 & I2 & I3 & I4 & I5 & I6). split; [done|]. split_and!.
    + intros o Ho. apply I2. destruct (decide (o = op x)) as [->|]; [done|]. by rewrite H3.
    + intros o. destruct (decide (o = op x)) as [->|Hne]; [left; by apply I2|]. rewrite <-(H3 o Hne). apply I3.
    + intros y [->|Hy]%elem_of_cons Ht; [by apply I2|by apply I4].
    + intros y Hy. apply I5, elem_of_app. by left.
    + intros y [->|Hy]%elem_of_cons Ht; [|by apply I6]. apply I5, elem_of_app. right. by apply list_elem_of_singleton.
  - match goal with |- context [takeDelta_loop points (deltas ++ [?t]) c] => set (t0 := t) end.
    destruct (IH (deltas ++ [t0]) c Hms) as (I1 & I2 & I3 & I4 & I5 & I6). split; [done|]. split; [done|]. split; [done|]. split_and!.
    + intros y [->|Hy]%elem_of_cons Ht; [congruence|by apply I4].
    + intros y Hy. apply I5, elem_of_app. by left.
    + intros y [->|Hy]%elem_of_cons Ht; [congruence|by apply I6].
Qed.

Section async.
Context {K : SecKeys} {Kok : SecKeysOk K}.

Lemma addTxIn_delta s d U ti st s' r : cinv s d U → op_wf (Wire.PreviousOutPoint ti) → trackDeltas (cache s) = true →
  addTxIn ti st s = Done (inl r, s') →
  {| op := Wire.PreviousOutPoint ti; tombstone := true; entry := None |} ∈ deltaPoints (cache s') ∧
  trackDeltas (cache s') = true.
Proof.
  intros Hi Hw Ht. unfold addTxIn. destruct (fetch_one s d U _ Hi Hw) as (s1 & v & Ef & Hi1 & Hg & Ho & _).
  assert (trackDeltas (cache s1) = true) as Ht1 by (rewrite Ho; done).
  rewrite (io_step _ _ _ _ _ Ef). destruct v as [e|]; [|done].
  unfold modify_. repeat (rewrite (io_step _ _ _ tt _) by reflexivity). intros [= _ <-].
  set (x := {| op := _; tombstone := true; entry := None |}). set (c1 := set_entries _ _ _).
  assert (addDelta x c1 = set_deltas (deltaPoints c1 ++ [x]) c1) as Ea by (unfold addDelta, c1; cbn [trackDeltas set_entries]; by rewrite Ht1).
  cbn [cache set_cache]. rewrite Ea. destruct (isFresh (Spend e)); cbn; (split; [|done]);
    apply elem_of_app; right; by apply list_elem_of_singleton.
Qed.

(** C32 (safety).  With the asynchronous writer a spent output can be read back as
    unspent: when the database holds the row of an output, then after a block has
    spent it and its deltas were taken, with the deletion only waiting in the
    queue, a fetch returns the output unspent again and a second spend succeeds. *)
Theorem async_double_spend (s : state) (d U : gmap OutPoint UtxoEntry) (ti : Wire.TxIn (list byte)) (c : UtxoEntry) :
  cinv s d U → trackDeltas (cache s) = true → d !! Wire.PreviousOutPoint ti = Some c → U !! Wire.PreviousOutPoint ti = Some c →
  ∃ s1 deltas c2 s3 s4, addTxIn ti None s = Done (inl None, s1) ∧
    takeDelta (cache s1) = (deltas, c2) ∧
    {| op := Wire.PreviousOutPoint ti; tombstone := true; entry := None |} ∈ deltas ∧
    fetchEntries [Wire.PreviousOutPoint ti] (set_cache c2 s1) = Done (inl [Some c], s3) ∧ IsSpent c = false ∧
    addTxIn ti None (set_cache c2 s1) = Done (inl None, s4).
Proof.
  intros Hi Ht Hd HU. set (o := Wire.PreviousOutPoint ti) in *. destruct (coin_wf _ _ _ _ _ Hi HU) as (Hw & He & Hcl).
  destruct (addTxIn_ok s d U ti None c Hi HU) as (s1 & E1 & Hi1). cbn in E1.
  destruct (addTxIn_delta _ _ _ _ _ _ _ Hi Hw Ht E1) as [Hin Ht1]. fold o in Hin.
  pose proof (takeDelta_loop_get (deltaPoints (cache s1)) [] (cache s1) (ci_ms _ _ _ Hi1)) as (T1 & T2 & T3 & T4 & _ & T6).
  destruct (takeDelta_loop (deltaPoints (cache s1)) [] (cache s1)) as [deltas c2] eqn:Et. cbn [fst snd] in *.
  assert (takeDelta (cache s1) = (deltas, set_dirty ∅ (set_deltas [] c2))) as Ed.
  { unfold takeDelta. rewrite Ht1. cbn [negb]. rewrite Et. destruct (deltaPoints (cache s1)); [by apply elem_of_nil in Hin|].
    rewrite zlen_cons. destruct (Z.eqb_spec (1 + zlen l) 0); [pose proof (zlen_nonneg l); lia|done]. }
  set (c3 := set_dirty ∅ (set_deltas [] c2)) in *.
  destruct (fetch_miss (set_cache c3 s1) d o T1 (ci_rows _ _ _ Hi1) Hw (T4 _ Hin eq_refl)) as (ms & mem & Ef & Hms & Hg & _).
  rewrite Hd in Ef. destruct (cleaned_flags c) as (_ & Hu & _). rewrite <-Hcl in Hu.
  eexists s1, deltas, c3, _, _. split; [done|]. split; [done|]. split; [by apply (T6 _ Hin)|]. split; [done|]. split; [done|].
  unfold addTxIn. fold o. rewrite (io_step _ _ _ _ _ Ef). unfold modify_.
  repeat (rewrite (io_step _ _ _ tt _) by reflexivity). reflexivity.
Qed.

End async.

(** ** Concrete runs *)

#[local] Existing Instance Compress.toyKeys.
#[local] Existing Instance Compress.toyKeysOk.

#[export] Instance listOrder : MapOrder := {| entryOrder := map_to_list; opOrder := elements |}.
#[export] Instance listOrder_ok : MapOrderOk listOrder.
Proof. by split. Qed.

Definition nullOp : OutPoint := {| Wire.Hash := replicate 32 (z2b 0); Wire.Index := 2 ^ 32 - 1 |}.

Definition input (o : OutPoint) : Wire.TxIn (list byte) :=
  {| Wire.PreviousOutPoint := o; Wire.SignatureScript := []; Wire.Witness := None; Wire.Sequence := 0 |}.

(** A transaction with one input and one output that anybody can spend *)
Definition simpleTx (o : OutPoint) (value : Z) : Wire.Tx :=
  {| Wire.TxVersion := 1; Wire.TxIns := [input o]; Wire.TxOuts := [{| Wire.Value := value; Wire.PkScript := [z2b 0x51] |}];
     Wire.LockTime := 0 |}.

Definition txid (tx : Wire.Tx) : list byte := match Wire.TxHash tx with Done h => h | _ => [] end.
Definition outOf (tx : Wire.Tx) : OutPoint := {| Wire.Hash := txid tx; Wire.Index := 0 |}.

Definition startState (max : Z) (track : bool) (b : bucket) : state :=
  let c := newUtxoCache max in
  {| cache := {| maxMemory := maxMemory c; cachedEntries := cachedEntries c; totalEntryMemory := 0; dirtyOps := ∅;
                 trackDeltas := track; deltaPoints := []; hotFloor := 0; lastFlushHash := lastFlushHash c;
                 lastFlushTime := 0 |};
     utxoBucket := b; consistency := None |}.

Lemma start_ok max track b d : rows b d → cinv (startState max track b) d d.
Proof.
  intros Hr. split; cbn [startState cache cachedEntries newUtxoCache dirtyOps utxoBucket]; [|done| |].
  - split_and!; cbn; [done..| |].
    + split; [|done]. intros o [? E]. by rewrite lookup_empty in E.
    + constructor; [|done]. apply minEntries_range.
  - intros o v E. cbv [get maps getIn] in E. by rewrite lookup_empty in E.
  - intros o. cbv [get maps getIn]. by rewrite lookup_empty.
Qed.

Definition cb1 : Wire.Tx := simpleTx nullOp 5000.
Definition t2 : Wire.Tx := simpleTx (outOf cb1) 4000.
Definition best1 : list byte := replicate 32 (z2b 1).

Lemma cb1_creates tx : tx ∈ [cb1; t2] → creates_ok ∅ 7 (tx, txid tx).
Proof.
  intros [->|[->|?%elem_of_nil]%elem_of_cons]%elem_of_cons; [| |done].
  all: split; [vm_compute; reflexivity|]; split; [vm_compute; reflexivity|]; split; [done|].
  all: intros i t Hi Ht; split; [apply lookup_empty|]; cbn in Ht;
    (destruct (Z.to_nat i) as [|n]; [injection Ht as <-|by destruct n]).
  all: vm_compute; repeat split; congruence.
Qed.

Definition block1 : list (Wire.Tx * list byte) := [(cb1, txid cb1); (t2, txid t2)].

(** The coins and the spent outputs of the block, evaluated *)
Definition block1_spent : list UtxoEntry :=
  [{| amount := 5000; pkScript := [z2b 0x51]; blockHeight := 7; packedFlags := tfCoinBase |}].

Lemma block1_applies : ∃ U', applyTxs block1 7 ∅ [] = Some (U', block1_spent).
Proof.
  assert (option_map snd (applyTxs block1 7 ∅ []) = Some block1_spent) as E by (vm_compute; reflexivity).
  revert E. generalize (applyTxs block1 7 ∅ []). intros [[U' spent]|] [=->]. by exists U'.
Qed.

(** A block whose second transaction spends the output of the first *)
Lemma connect_refines_witness : ∃ s' U',
  connectTransactions [cb1; t2] 7 (Some []) (startState 1000000 false ∅) =
    Done (inl (Some [{| Amount := 5000; SpentScript := [z2b 0x51]; Height := 7; SpentCoinBase := true |}]), s') ∧
  cinv s' ∅ U'.
Proof.
  destruct block1_applies as [U' Ea].
  destruct (connect_refines (startState 1000000 false ∅) ∅ ∅ U' 7 block1 block1_spent) as (s' & E & Hi).
  - apply start_ok, rows_empty.
  - constructor; [apply cb1_creates; left|]. constructor; [apply cb1_creates; right; left|constructor].
  - exact Ea.
  - exists s', U'. split; [exact E|exact Hi].
Defined.

(** Flushing after the block was connected: the cache holds a spent output and a new one,
    and the flush writes the row of the new one. *)
Lemma flush_persists_witness : ∃ s1 s' U stxos,
  connectTransactions [cb1; t2] 7 (Some []) (startState 1000000 false ∅) = Done (inl stxos, s1) ∧
  dirtyOps (cache s1) ≠ ∅ ∧ utxoBucket s1 = ∅ ∧
  flush 5 FlushRequired best1 s1 = Done (inl tt, s') ∧ dirtyOps (cache s') = ∅ ∧ consistency s' = Some best1 ∧
  cinv s' U U ∧ is_Some (U !! outOf t2) ∧ U !! outOf cb1 = None.
Proof.
  assert (match applyTxs block1 7 ∅ [] with
          | Some (U, spent) => bool_decide (spent = block1_spent ∧ is_Some (U !! outOf t2) ∧ U !! outOf cb1 = None)
          | None => false end = true) as Ha by (vm_compute; reflexivity).
  destruct (applyTxs block1 7 ∅ []) as [[U spent]|] eqn:Ea; [|discriminate Ha]. apply bool_decide_eq_true in Ha as (->&H2&H3).
  destruct (connect_ok block1 7 (startState 1000000 false ∅) ∅ ∅ U (Some []) [] block1_spent) as (s1&E1&Hi); [|  |exact Ea|reflexivity|].
  { apply start_ok, rows_empty. }
  { constructor; [apply cb1_creates; left|]. constructor; [apply cb1_creates; right; left|constructor]. }
  assert (match connectTransactions block1.*1 7 (Some []) (startState 1000000 false ∅) with
          | Done (_, s) => bool_decide (dirtyOps (cache s) ≠ ∅ ∧ utxoBucket s = ∅ ∧ tail (maps (cachedEntries (cache s))) = [])
          | _ => false end = true) as Hc by (vm_compute; reflexivity).
  rewrite E1 in Hc. apply bool_decide_eq_true in Hc as (H4&H5&H6).
  destruct (flush_persists s1 ∅ U 5 FlushRequired best1 Hi) as (s'&E&[[_ H]|(H7&H8&H9&_)]).
  - unfold hot_first. rewrite H6. constructor.
  - by destruct H.
  - exists s1, s', U, (Some (map stxoOf block1_spent)). split; [exact E1|]. split_and!; assumption.
Defined.

Lemma async_double_spend_witness : ∃ s1 deltas c2 s4,
  let s := startState 1000000 true (<[keyOf (toyOp 1) := rowOf (toyEntry 7)]> ∅) in
  addTxIn (input (toyOp 1)) None s = Done (inl None, s1) ∧ takeDelta (cache s1) = (deltas, c2) ∧
  addTxIn (input (toyOp 1)) None (set_cache c2 s1) = Done (inl None, s4).
Proof.
  assert (rows (<[keyOf (toyOp 1) := rowOf (toyEntry 7)]> ∅) (<[toyOp 1 := cleaned (toyEntry 7)]> ∅)) as Hr.
  { destruct (rows_put ∅ ∅ (toyOp 1) (toyEntry 7) rows_empty (toyOp_wf 1)) as (b' & E & H);
      [apply toyEntry_ok; split; done|reflexivity|].
    rewrite put_spec in E; [|apply toyOp_wf|apply toyEntry_ok; split; done|reflexivity]. injection E as <-. exact H. }
  destruct (async_double_spend (startState 1000000 true (<[keyOf (toyOp 1) := rowOf (toyEntry 7)]> ∅)) _ _
    (input (toyOp 1)) (cleaned (toyEntry 7)) (start_ok _ true _ _ Hr) eq_refl) as (s1 & deltas & c2 & s3 & s4 & E1 & E2 & _ & _ & _ & E4).
  - cbn [Wire.PreviousOutPoint input]. by rewrite lookup_insert_eq.
  - cbn [Wire.PreviousOutPoint input]. by rewrite lookup_insert_eq.
  - exists s1, deltas, c2, s4. split; [exact E1|]. split; [exact E2|exact E4].
Defined.


(** A coinbase with nine outputs: the first map of a cache of 1000 bytes holds
    eight. *)
Definition wideTx : Wire.Tx :=
  {| Wire.TxVersion := 1; Wire.TxIns := [input nullOp];
     Wire.TxOuts := replicate 9 {| Wire.Value := 5000; Wire.PkScript := [z2b 0x51] |}; Wire.LockTime := 0 |}.

Definition ninth : OutPoint := {| Wire.Hash := txid wideTx; Wire.Index := 8 |}.

(** Connect the block of [wideTx] at height 7, flush, look the ninth output up,
    flush again: the output that is looked up, and its row after each flush. *)
Definition hotRun : run (option (option (list (option UtxoEntry)) * option (option UtxoEntry) * option (option UtxoEntry))) :=
  let row (s : state) := match dbFetchUtxoEntry (utxoBucket s) ninth with Done (inl e) => Some e | _ => None end in
  r ← connectTransactions [wideTx] 7 None (startState 1000 false ∅);
  r1 ← flush 5 FlushRequired best1 r.2;
  r2 ← fetchEntries [ninth] r1.2;
  r3 ← flush 5 FlushRequired best1 r2.2;
  Done (match r.1, r1.1, r3.1 with
        | inl _, inl _, inl _ => Some (match r2.1 with inl l => Some l | inr _ => None end, row r1.2, row r3.2)
        | _, _, _ => None
        end).

(** A full flush loses recent coins once the cache has grown a second
    map: after the flush the row of the ninth output is in the database but the
    cache reports that there is no such output, and the next full flush deletes
    the row. *)
Theorem hot_flush_loses_coin :
  hotRun = Done (Some (Some [None],
    Some (Some {| amount := 5000; pkScript := [z2b 0x51]; blockHeight := 7; packedFlags := tfCoinBase |}),
    Some None)).
Proof. vm_compute. reflexivity. Qed.

End UtxoCache.
