(* ===== verification/UtxoView.v ===== *)
(** * UtxoView: views of the UTXO set

    Model of [UtxoViewpoint] of [blockchain/utxoviewpoint.go], of [dbPutUtxoView]
    of [blockchain/chainio.go] and of the part of [disconnectBlock]
    ([blockchain/chain.go]) that changes the UTXO set.  Every entry of a view is an
    object of its own (fetched entries are cloned), so entries are values; a nil
    entry is [None].  [commit] and [dbPutUtxoView] range over a Go map: the first
    does not depend on the order, the second takes it as a parameter. *)

From S2P Require Import Prelude Compress Wire ChainIO Script UtxoSet UtxoCache.
Import ChainIO (bucket).

Module UtxoView.
Import Compress UtxoSet.

Abbreviation OutPoint := Wire.OutPoint.
Abbreviation entryMap := (gmap OutPoint (option UtxoEntry)).

(** The parts of a [btcutil.Block] that are used here *)
Record Block := {
  Header : Wire.BlockHeader;
  Transactions : list Wire.Tx;
  BlockHeight : Z;
}.

Record UtxoViewpoint := { entries : entryMap; bestHash : list byte }.

Inductive viewError := AssertError | StoreError (e : storeError).

Abbreviation M := (io UtxoViewpoint viewError).

Definition NewUtxoViewpoint : UtxoViewpoint := {| entries := ∅; bestHash := replicate 32 (z2b 0) |}.

Definition set_entries (m : entryMap) (view : UtxoViewpoint) : UtxoViewpoint :=
  {| entries := m; bestHash := bestHash view |}.

Definition SetBestHash (hash : list byte) : M unit := fun view =>
  Done (inl tt, {| entries := entries view; bestHash := hash |}).

Definition LookupEntry (view : UtxoViewpoint) (o : OutPoint) : option UtxoEntry := default None (entries view !! o).

Definition FetchPrevOutput (view : UtxoViewpoint) (o : OutPoint) : option (Wire.TxOut (list byte)) :=
  match LookupEntry view o with
  | None => None
  | Some e => Some {| Wire.Value := amount e; Wire.PkScript := pkScript e |}
  end.

Definition RemoveEntry (o : OutPoint) (view : UtxoViewpoint) : UtxoViewpoint := set_entries (delete o (entries view)) view.

Definition get_ : M UtxoViewpoint := fun view => Done (inl view, view).
Definition putView (o : OutPoint) (e : UtxoEntry) : M unit := fun view =>
  Done (inl tt, set_entries (<[o := Some e]> (entries view)) view).

(** ** Connecting *)

Definition addTxOut (o : OutPoint) (txOut : Wire.TxOut (list byte)) (isCoinBase : bool) (height : Z) : M unit :=
  unspendable ← io_run (Script.IsUnspendable (Wire.PkScript txOut));
  if unspendable : bool then mret tt else
  let flags := Z.lor tfFresh tfModified in
  putView o {| amount := Wire.Value txOut; pkScript := Wire.PkScript txOut; blockHeight := height;
               packedFlags := if isCoinBase then Z.lor flags tfCoinBase else flags |}.

Definition AddTxOut (tx : Wire.Tx) (txOutIdx height : Z) : M unit :=
  if u32 (zlen (Wire.TxOuts tx)) <=? txOutIdx then mret tt else
  hash ← io_run (Wire.TxHash tx);
  txOut ← io_run (index (Wire.TxOuts tx) txOutIdx);
  addTxOut {| Wire.Hash := hash; Wire.Index := txOutIdx |} txOut (UtxoCache.IsCoinBaseTx tx) height.

Fixpoint AddTxOuts_loop (hash : list byte) (isCoinBase : bool) (height i : Z)
    (outs : list (Wire.TxOut (list byte))) : M unit :=
  match outs with
  | [] => mret tt
  | txOut :: outs =>
      _ ← addTxOut {| Wire.Hash := hash; Wire.Index := u32 i |} txOut isCoinBase height;
      AddTxOuts_loop hash isCoinBase height (i + 1) outs
  end.

Definition AddTxOuts (tx : Wire.Tx) (height : Z) : M unit :=
  hash ← io_run (Wire.TxHash tx);
  AddTxOuts_loop hash (UtxoCache.IsCoinBaseTx tx) height 0 (Wire.TxOuts tx).

(** [stxos] is [None] when the details are not requested. *)
Fixpoint spendInputs (ins : list (Wire.TxIn (list byte))) (stxos : option (list SpentTxOut)) :
    M (option (list SpentTxOut)) :=
  match ins with
  | [] => mret stxos
  | ti :: ins =>
      view ← get_;
      match LookupEntry view (Wire.PreviousOutPoint ti) with
      | None => io_fail AssertError
      | Some e =>
          _ ← putView (Wire.PreviousOutPoint ti) (Spend e);
          spendInputs ins ((fun l => l ++ [UtxoCache.stxoOf e]) <$> stxos)
      end
  end.

Definition connectTransaction (tx : Wire.Tx) (height : Z) (stxos : option (list SpentTxOut)) :
    M (option (list SpentTxOut)) :=
  if UtxoCache.IsCoinBaseTx tx then _ ← AddTxOuts tx height; mret stxos
  else
    stxos ← spendInputs (Wire.TxIns tx) stxos;
    _ ← AddTxOuts tx height;
    mret stxos.

Fixpoint connectAll (txs : list Wire.Tx) (height : Z) (stxos : option (list SpentTxOut)) : M (option (list SpentTxOut)) :=
  match txs with
  | [] => mret stxos
  | tx :: txs => stxos ← connectTransaction tx height stxos; connectAll txs height stxos
  end.

Definition connectTransactions (block : Block) (stxos : option (list SpentTxOut)) : M (option (list SpentTxOut)) :=
  stxos ← connectAll (Transactions block) (BlockHeight block) stxos;
  hash ← io_run (Wire.BlockHash (Header block));
  _ ← SetBestHash hash;
  mret stxos.

(** ** Disconnecting *)

Definition MaxBlockWeight : Z := 4000000.
Definition WitnessScaleFactor : Z := 4.
Definition MinTxOutputWeight : Z := WitnessScaleFactor * 9.
Definition MaxOutputsPerBlock : Z := MaxBlockWeight / MinTxOutputWeight.

Fixpoint scanOutputs (n : nat) (view : UtxoViewpoint) (hash : list byte) (idx : Z) : option UtxoEntry :=
  match n with
  | O => None
  | S n =>
      match LookupEntry view {| Wire.Hash := hash; Wire.Index := idx |} with
      | Some e => Some e
      | None => scanOutputs n view hash (idx + 1)
      end
  end.

Section db.
Context {K : SecKeys}.

(** [b] is the UTXO bucket of the database. *)
Definition fetchEntryByHash (view : UtxoViewpoint) (b : bucket) (hash : list byte) : run (option UtxoEntry + storeError) :=
  match scanOutputs (Z.to_nat MaxOutputsPerBlock) view hash 0 with
  | Some e => Done (inl (Some e))
  | None => dbFetchUtxoEntryByHash b hash
  end.

Definition countSpentOutputs (txs : list Wire.Tx) : run Z :=
  rest ← slice txs 1 (zlen txs);
  Done (foldl (fun n tx => n + zlen (Wire.TxIns tx)) 0 rest).

Definition markOutputs_one (o : OutPoint) (txOut : Wire.TxOut (list byte)) (flags height : Z) : M unit :=
  unspendable ← io_run (Script.IsUnspendable (Wire.PkScript txOut));
  if unspendable : bool then mret tt else
  view ← get_;
  putView o (Spend (default {| amount := Wire.Value txOut; pkScript := Wire.PkScript txOut;
                               blockHeight := height; packedFlags := flags |} (LookupEntry view o))).

Fixpoint markOutputs (hash : list byte) (flags height i : Z) (outs : list (Wire.TxOut (list byte))) : M unit :=
  match outs with
  | [] => mret tt
  | txOut :: outs =>
      _ ← markOutputs_one {| Wire.Hash := hash; Wire.Index := u32 i |} txOut flags height;
      markOutputs hash flags height (i + 1) outs
  end.

(** The height and the coinbase flag of a legacy record are looked up. *)
Definition completeStxo (b : bucket) (txHash : list byte) (stxo : SpentTxOut) : M SpentTxOut :=
  if negb (Height stxo =? 0) then mret stxo else
  view ← get_;
  r ← io_run (fetchEntryByHash view b txHash);
  match r with
  | inr e => io_fail (StoreError e)
  | inl None => io_fail AssertError
  | inl (Some utxo) =>
      mret {| Amount := Amount stxo; SpentScript := SpentScript stxo; Height := blockHeight utxo;
              SpentCoinBase := IsCoinBase utxo |}
  end.

Definition restored (stxo : SpentTxOut) : UtxoEntry :=
  {| amount := Amount stxo; pkScript := SpentScript stxo; blockHeight := Height stxo;
     packedFlags := if SpentCoinBase stxo then Z.lor tfModified tfCoinBase else tfModified |}.

(** The inputs of one transaction, last first.  [todo] holds the records up to
    [stxoIdx], last first; [done] those already used, as the loop leaves them.  The
    object for a new entry is in the map before the record is completed. *)
Fixpoint unspendInputs (b : bucket) (txHash : list byte) (ins : list (Wire.TxIn (list byte)))
    (todo done : list SpentTxOut) : M (list SpentTxOut * list SpentTxOut) :=
  match ins with
  | [] => mret (todo, done)
  | ti :: ins =>
      match todo with
      | [] => io_run Panic
      | stxo :: todo =>
          let o := Wire.PreviousOutPoint ti in
          view ← get_;
          _ ← putView o (default {| amount := 0; pkScript := []; blockHeight := 0; packedFlags := 0 |}
                           (LookupEntry view o));
          stxo ← completeStxo b txHash stxo;
          _ ← putView o (restored stxo);
          unspendInputs b txHash ins todo (stxo :: done)
      end
  end.

(** The transactions, last first; the last of the list is the coinbase. *)
Fixpoint disconnectAll (b : bucket) (height : Z) (txs : list Wire.Tx) (todo done : list SpentTxOut) :
    M (list SpentTxOut * list SpentTxOut) :=
  match txs with
  | [] => mret (todo, done)
  | tx :: txs =>
      let isCoinBase := match txs with [] => true | _ => false end in
      txHash ← io_run (Wire.TxHash tx);
      _ ← markOutputs txHash (if isCoinBase then tfCoinBase else 0) height 0 (Wire.TxOuts tx);
      if isCoinBase then disconnectAll b height txs todo done
      else
        '(todo, done) ← unspendInputs b txHash (rev (Wire.TxIns tx)) todo done;
        disconnectAll b height txs todo done
  end.

(** The result is the slice [stxos] as the call leaves it. *)
Definition disconnectTransactions (b : bucket) (block : Block) (stxos : list SpentTxOut) : M (list SpentTxOut) :=
  n ← io_run (countSpentOutputs (Transactions block));
  if negb (zlen stxos =? n) then io_fail AssertError else
  '(todo, done) ← disconnectAll b (BlockHeight block) (rev (Transactions block)) (rev stxos) [];
  _ ← SetBestHash (Wire.PrevBlock (Header block));
  mret (rev todo ++ done).

(** [entry.packedFlags ^= tfModified] *)
Definition commit (view : UtxoViewpoint) : UtxoViewpoint :=
  set_entries (omap (fun e : option UtxoEntry =>
    match e with
    | None => None
    | Some e => if isModified e && IsSpent e then None else Some (Some (set_flags (Z.lxor (packedFlags e) tfModified) e))
    end) (entries view)) view.

Context {O : UtxoCache.MapOrder}.

Fixpoint putRows (b : bucket) (l : list (OutPoint * option UtxoEntry)) : run (bucket + storeError) :=
  match l with
  | [] => Done (inl b)
  | (o, e) :: l =>
      match e with
      | None => putRows b l
      | Some e =>
          if negb (isModified e) then putRows b l
          else if IsSpent e then b ← dbDeleteUtxoEntry b o; putRows b l
          else r ← dbPutUtxoEntry b o (Some e);
               match r with inl b => putRows b l | inr err => Done (inr err) end
      end
  end.

Definition dbPutUtxoView (b : bucket) (view : option UtxoViewpoint) : run (bucket + storeError) :=
  match view with
  | None => Done (inl b)
  | Some view => putRows b (UtxoCache.entryOrder (entries view))
  end.

(** ** Loading from the cache *)

Definition fetchUtxosFromCache (outpoints : list OutPoint) (view : UtxoViewpoint) (s : UtxoCache.state) :
    run ((UtxoViewpoint + UtxoCache.cacheError) * UtxoCache.state) :=
  if zlen outpoints =? 0 then Done (inl view, s) else
  r ← UtxoCache.fetchEntries outpoints s;
  Done (match r.1 with
        | inr e => inr e
        | inl es => inl (set_entries (foldl (fun m '(o, e) => <[o := e]> m) (entries view) (zip outpoints es)) view)
        end, r.2).

Definition fetchUtxos (outpoints : list OutPoint) (view : UtxoViewpoint) (s : UtxoCache.state) :
    run ((UtxoViewpoint + UtxoCache.cacheError) * UtxoCache.state) :=
  if zlen outpoints =? 0 then Done (inl view, s) else
  fetchUtxosFromCache (filter (fun o => entries view !! o = None) outpoints) view s.

Fixpoint txHashes (txs : list Wire.Tx) : run (list (list byte)) :=
  match txs with
  | [] => Done []
  | tx :: txs => h ← Wire.TxHash tx; hs ← txHashes txs; Done (h :: hs)
  end.

(** [txInFlight]: a hash that occurs twice has the later position. *)
Definition inFlight (hashes : list (list byte)) : gmap (list byte) nat :=
  foldl (fun m '(i, h) => <[h := i]> m) ∅ (imap (fun i h => (i, h)) hashes).

Fixpoint findInputs_ins (txs : list Wire.Tx) (flight : gmap (list byte) nat) (height : Z) (i : nat)
    (ins : list (Wire.TxIn (list byte))) (needed : list OutPoint) : M (list OutPoint) :=
  match ins with
  | [] => mret needed
  | ti :: ins =>
      let o := Wire.PreviousOutPoint ti in
      let request : M (list OutPoint) :=
        view ← get_;
        match entries view !! o with
        | Some _ => findInputs_ins txs flight height i ins needed
        | None => findInputs_ins txs flight height i ins (needed ++ [o])
        end in
      match flight !! Wire.Hash o with
      | Some j =>
          if (j <=? i)%nat then
            originTx ← io_run (index txs (Z.of_nat j));
            _ ← AddTxOuts originTx height;
            findInputs_ins txs flight height i ins needed
          else request
      | None => request
      end
  end.

Fixpoint findInputs_txs (txs : list Wire.Tx) (flight : gmap (list byte) nat) (height : Z) (i : nat)
    (rest : list Wire.Tx) (needed : list OutPoint) : M (list OutPoint) :=
  match rest with
  | [] => mret needed
  | tx :: rest =>
      needed ← findInputs_ins txs flight height i (Wire.TxIns tx) needed;
      findInputs_txs txs flight height (S i) rest needed
  end.

Definition findInputsToFetch (block : Block) : M (list OutPoint) :=
  hashes ← io_run (txHashes (Transactions block));
  rest ← io_run (slice (Transactions block) 1 (zlen (Transactions block)));
  findInputs_txs (Transactions block) (inFlight hashes) (BlockHeight block) 0 rest [].

Definition fetchInputUtxos (block : Block) (view : UtxoViewpoint) (s : UtxoCache.state) :
    run ((UtxoViewpoint + UtxoCache.cacheError) * UtxoCache.state) :=
  r ← findInputsToFetch block view;
  match r with
  | (inl needed, view) => fetchUtxosFromCache needed view s
  | (inr _, view) => Panic (* [findInputsToFetch] has no error *)
  end.

(** The outputs of the transaction and, unless it is a coinbase, its inputs *)
Definition FetchUtxoView (tx : Wire.Tx) (s : UtxoCache.state) :
    run ((UtxoViewpoint + UtxoCache.cacheError) * UtxoCache.state) :=
  hash ← Wire.TxHash tx;
  let outs := imap (fun i _ => {| Wire.Hash := hash; Wire.Index := u32 (Z.of_nat i) |}) (Wire.TxOuts tx) in
  let ins := if UtxoCache.IsCoinBaseTx tx then [] else map Wire.PreviousOutPoint (Wire.TxIns tx) in
  fetchUtxosFromCache (outs ++ ins) NewUtxoViewpoint s.

Definition FetchUtxoEntry (o : OutPoint) (s : UtxoCache.state) :
    run ((option UtxoEntry + UtxoCache.cacheError) * UtxoCache.state) :=
  r ← UtxoCache.fetchEntries [o] s;
  match r with
  | (inr e, s) => Done (inr e, s)
  | (inl es, s) => e ← index es 0; Done (inl e, s)
  end.

(** The UTXO set in [disconnectBlock]: the cache is flushed, then the view is
    written to the database and committed.  An error rolls the database
    transaction back. *)
Definition disconnectUtxos (now : Z) (stateHash : list byte) (view : UtxoViewpoint) (s : UtxoCache.state) :
    run ((UtxoViewpoint + UtxoCache.cacheError) * UtxoCache.state) :=
  r ← UtxoCache.flush now UtxoCache.FlushRequired stateHash s;
  let rollback (s' : UtxoCache.state) : UtxoCache.state := UtxoCache.set_cache (UtxoCache.cache s') s in
  match r with
  | (inr e, s') => Done (inr e, rollback s')
  | (inl _, s') =>
      r ← dbPutUtxoView (UtxoCache.utxoBucket s') (Some view);
      Done (match r with
            | inr e => (inr (UtxoCache.StoreError e), rollback s')
            | inl b => (inl (commit view), UtxoCache.set_bucket b s')
            end)
  end.

End db.


(** ** What a view says about the UTXO set *)

Section spec.
Context {K : SecKeys} {Kok : SecKeysOk K}.

Abbreviation coins := (gmap OutPoint UtxoEntry).

(** A modified entry replaces the coin [c] of the database. *)
Definition seen (e : option UtxoEntry) (c : option UtxoEntry) : option UtxoEntry :=
  match e with
  | Some e => if isModified e then (if IsSpent e then None else Some (cleaned e)) else c
  | None => c
  end.

Definition entry_wf (o : OutPoint) (e : UtxoEntry) : Prop :=
  op_wf o ∧ entry_ok e ∧ (IsSpent e = true → isModified e = true).

(** The view [v] turns [base] into [U], except at the outputs in [skip]. *)
Record vinv (skip : OutPoint → Prop) (v : UtxoViewpoint) (base U : coins) : Prop := {
  vi_wf : ∀ o e, LookupEntry v o = Some e → entry_wf o e;
  vi_clean : ∀ o e, LookupEntry v o = Some e → isModified e = false → base !! o = Some (cleaned e);
  vi_coins : ∀ o, ¬ skip o → U !! o = seen (LookupEntry v o) (base !! o);
}.

Lemma lookup_put v o e o' :
  LookupEntry (set_entries (<[o := Some e]> (entries v)) v) o' = if decide (o' = o) then Some e else LookupEntry v o'.
Proof.
  unfold LookupEntry. cbn. case_decide as E; [subst; by rewrite lookup_insert_eq|].
  by rewrite lookup_insert_ne.
Qed.

Lemma vinv_put skip v base U o e : vinv skip v base U → entry_wf o e → isModified e = true →
  vinv (λ x, skip x ∧ x ≠ o) (set_entries (<[o := Some e]> (entries v)) v) base
    (partial_alter (λ _, if IsSpent e then None else Some (cleaned e)) o U).
Proof.
  intros [Hw Hcl Hc] He Hm. split; intros o'; rewrite lookup_put.
  - intros e'. case_decide as E; [|by apply Hw]. by intros [= <-]; subst.
  - intros e'. case_decide as E; [|by apply Hcl]. intros [= <-]. congruence.
  - intros Hs. case_decide as E.
    + subst. rewrite lookup_partial_alter_eq. cbn. by rewrite Hm.
    + rewrite lookup_partial_alter_ne by done. apply Hc. tauto.
Qed.

Lemma vinv_weaken (skip skip' : OutPoint → Prop) v base U U' : vinv skip v base U → (∀ o, skip o → skip' o) →
  (∀ o, ¬ skip' o → U' !! o = U !! o) → vinv skip' v base U'.
Proof.
  intros [Hw Hcl Hc] Hs HU. split; [done|done|]. intros o Ho. rewrite HU by done. apply Hc. intros H. by apply Ho, Hs.
Qed.

(** ** Outputs of a transaction *)

Fixpoint outsOf (hs : list byte) (i : Z) (outs : list (Wire.TxOut (list byte))) : list OutPoint :=
  match outs with
  | [] => []
  | txOut :: outs =>
      (if Script.unspendable (Wire.PkScript txOut) then [] else [{| Wire.Hash := hs; Wire.Index := i |}])
      ++ outsOf hs (i + 1) outs
  end.

Lemma outsOf_elem hs i outs o : o ∈ outsOf hs i outs →
  Wire.Hash o = hs ∧ ∃ k txOut, outs !! k = Some txOut ∧ Wire.Index o = i + Z.of_nat k.
Proof.
  revert i. induction outs as [|t outs IH]; intros i; cbn [outsOf]; [by intros ?%elem_of_nil|].
  intros [Ho|Ho]%elem_of_app.
  - destruct (Script.unspendable _); [by apply elem_of_nil in Ho|]. apply list_elem_of_singleton in Ho as ->.
    split; [done|]. exists 0%nat, t. cbn. split; [done|lia].
  - destruct (IH _ Ho) as (E & k & t' & Hk & Ei). split; [done|]. exists (S k), t'. split; [done|]. lia.
Qed.

Lemma createAll_lookup hs cb h i outs U o : o ∉ outsOf hs i outs → UtxoCache.createAll hs cb h i outs U !! o = U !! o.
Proof.
  revert i U. induction outs as [|t outs IH]; intros i U Ho; cbn [UtxoCache.createAll outsOf] in *; [done|].
  apply not_elem_of_app in Ho as [Ho1 Ho2]. rewrite IH by done. destruct (Script.unspendable _); [done|].
  rewrite lookup_insert_ne; [done|]. intros <-. apply Ho1. by apply list_elem_of_singleton.
Qed.

Lemma createAll_Some hs cb h i outs U o c : UtxoCache.createAll hs cb h i outs U !! o = Some c →
  U !! o = Some c ∨ Wire.Hash o = hs ∧ ∃ k txOut, outs !! k = Some txOut ∧ Wire.Index o = i + Z.of_nat k ∧
    c = UtxoCache.newCoin txOut cb h.
Proof.
  revert i U. induction outs as [|t outs IH]; intros i U Ho; cbn [UtxoCache.createAll] in *; [by left|].
  destruct (IH _ _ Ho) as [Hc|(E & k & t' & Hk & Ei & Ec)].
  - destruct (Script.unspendable _); [by left|]. apply lookup_insert_Some in Hc as [[<- <-]|[_ Hc]]; [right|by left].
    split; [done|]. exists 0%nat, t. cbn. split; [done|]. split; [lia|done].
  - right. split; [done|]. exists (S k), t'. split; [done|]. split; [lia|done].
Qed.

Lemma spendAll_lookup ins U sp U' sp' o c : UtxoCache.spendAll ins U sp = Some (U', sp') → U' !! o = Some c → U !! o = Some c.
Proof.
  revert U sp. induction ins as [|ti ins IH]; intros U sp; cbn [UtxoCache.spendAll]; [by intros [= -> ->]|].
  destruct (U !! Wire.PreviousOutPoint ti); [|done]. intros E Ho. specialize (IH _ _ E Ho).
  by apply lookup_delete_Some in IH as [_ IH].
Qed.

Lemma spendAll_snoc ins ti U sp U' sp' : UtxoCache.spendAll (ins ++ [ti]) U sp = Some (U', sp') →
  ∃ U1 sp1 c, UtxoCache.spendAll ins U sp = Some (U1, sp1) ∧ U1 !! Wire.PreviousOutPoint ti = Some c ∧
    U' = delete (Wire.PreviousOutPoint ti) U1 ∧ sp' = sp1 ++ [c].
Proof.
  revert U sp. induction ins as [|t ins IH]; intros U sp; cbn [app UtxoCache.spendAll].
  - destruct (U !! _) as [c|] eqn:E; [|done]. intros [= <- <-]. by exists U, sp, c.
  - destruct (U !! Wire.PreviousOutPoint t); [|done]. apply IH.
Qed.

Lemma applyTxs_snoc p tx hs h U sp U' sp' : UtxoCache.applyTxs (p ++ [(tx, hs)]) h U sp = Some (U', sp') →
  ∃ U1 sp1 U2, UtxoCache.applyTxs p h U sp = Some (U1, sp1) ∧
    (if UtxoCache.IsCoinBaseTx tx then Some (U1, sp1) else UtxoCache.spendAll (Wire.TxIns tx) U1 sp1) = Some (U2, sp') ∧
    U' = UtxoCache.createAll hs (UtxoCache.IsCoinBaseTx tx) h 0 (Wire.TxOuts tx) U2.
Proof.
  revert U sp. induction p as [|[t hs'] p IH]; intros U sp; cbn [app UtxoCache.applyTxs].
  - destruct (if UtxoCache.IsCoinBaseTx tx then _ else _) as [[U2 sp2]|] eqn:E; [|done]. intros [= <- <-].
    by exists U, sp, U2.
  - destruct (if UtxoCache.IsCoinBaseTx t then _ else _) as [[U2 sp2]|]; [|done]. apply IH.
Qed.

Lemma spendAll_grows ins U sp U' sp' : UtxoCache.spendAll ins U sp = Some (U', sp') → ∃ cs, sp' = sp ++ cs.
Proof.
  revert U sp. induction ins as [|t ins IH]; intros U sp; cbn [UtxoCache.spendAll];
    [intros [= -> ->]; exists []; by rewrite app_nil_r|].
  destruct (U !! _); [|done]. intros [cs ->]%IH. rewrite <-app_assoc. by eexists.
Qed.

(** Coins that can be restored *)
Definition coin_ok (o : OutPoint) (c : UtxoEntry) : Prop := row_ok o c ∧ blockHeight c ≠ 0.

Lemma applyTxs_coins p h U sp U' sp' : map_Forall coin_ok U → 0 < h → Forall (UtxoCache.creates_ok U h) p →
  UtxoCache.applyTxs p h U sp = Some (U', sp') →
  map_Forall coin_ok U' ∧ (∀ o, Wire.Hash o ∉ p.*2 → U !! o = None → U' !! o = None).
Proof.
  intros HU Hh. revert U' sp'. induction p as [|[tx hs] p IH] using rev_ind; intros U' sp' Hp.
  { intros [= <- <-]. done. }
  apply Forall_app in Hp as [Hp Hc]. apply Forall_inv in Hc as (_ & Hl & Hz & Hc). cbn [fst snd] in *.
  intros (U1 & sp1 & U2 & E1 & E2 & ->)%applyTxs_snoc. destruct (IH _ _ Hp E1) as [I1 I2].
  assert (∀ o c, U2 !! o = Some c → U1 !! o = Some c) as Hsub.
  { intros o c. destruct (UtxoCache.IsCoinBaseTx tx); [by injection E2 as <- <-|]. by apply (spendAll_lookup _ _ _ _ _ _ _ E2). }
  split.
  - intros o c [Ho|(E & k & t & Hk & Ei & ->)]%createAll_Some; [by apply I1, Hsub|].
    destruct (Hc (Z.of_nat k) t) as [_ He]; [lia|by rewrite Nat2Z.id|].
    apply lookup_lt_Some in Hk. unfold zlen in Hz. destruct (UtxoCache.newEntry_flags t (UtxoCache.IsCoinBaseTx tx) h) as (_ & _ & Ecl).
    split; [|cbn; lia]. rewrite <-Ecl. split; [|by split; [destruct He|rewrite cleaned_idem]].
    split; [by rewrite E|]. rewrite Ei. lia.
  - rewrite fmap_app. intros o [Ho1 Ho2]%not_elem_of_app Hn. specialize (I2 o Ho1 Hn).
    destruct (UtxoCache.createAll _ _ _ _ _ _ !! o) as [c|] eqn:E; [|done].
    apply createAll_Some in E as [E|[E _]]; [apply Hsub in E; congruence|].
    exfalso. apply Ho2. rewrite E. by apply list_elem_of_singleton.
Qed.

End spec.


(** ** Disconnecting restores the UTXO set *)

Section restore.
Context {K : SecKeys} {Kok : SecKeysOk K}.

Abbreviation coins := (gmap OutPoint UtxoEntry).

Lemma Spend_wf o e : entry_wf o e → entry_wf o (Spend e) ∧ isModified (Spend e) = true ∧ IsSpent (Spend e) = true.
Proof.
  intros (Hw & He & Hm). destruct (Spend_flags e) as (F1 & F2 & F3 & F4).
  assert (isModified (Spend e) = true) as Em.
  { destruct (IsSpent e) eqn:E; [|by apply F3]. unfold Spend. rewrite E. by apply Hm. }
  split; [|done]. split; [done|]. split; [by apply UtxoCache.entry_ok_Spend|done].
Qed.

Definition deleteAll (l : list OutPoint) (U : coins) : coins := foldl (λ U o, delete o U) U l.

Lemma deleteAll_lookup l U o : deleteAll l U !! o = if decide (o ∈ l) then None else U !! o.
Proof.
  revert U. induction l as [|x l IH]; intros U; cbn.
  { rewrite decide_False; [done|]. apply not_elem_of_nil. }
  unfold deleteAll in IH. rewrite IH. destruct (decide (o ∈ l)) as [Hi|Hi].
  - rewrite decide_True; [done|]. by right.
  - destruct (decide (o = x)) as [->|Hne]; [rewrite lookup_delete_eq, decide_True; [done|left]|].
    rewrite lookup_delete_ne by done. rewrite decide_False; [done|]. by intros [?|?]%elem_of_cons.
Qed.

Lemma get_bind_view {A} (k : UtxoViewpoint → M A) v : (get_ ≫= k) v = k v v.
Proof. done. Qed.

Lemma markOutputs_one_ok skip v base U o txOut flags h : vinv skip v base U → op_wf o →
  entry_ok (UtxoCache.newEntry txOut false h) → Z.testbit flags 1 = false →
  ∃ v', markOutputs_one o txOut flags h v = Done (inl tt, v') ∧ bestHash v' = bestHash v ∧
    if Script.unspendable (Wire.PkScript txOut) then v' = v else vinv (λ x, skip x ∧ x ≠ o) v' base (delete o U).
Proof.
  intros Hi Ho He Hf. unfold markOutputs_one. rewrite (io_run_Done _ _ _ _ (Script.IsUnspendable_spec _)).
  destruct (Script.unspendable _); [by exists v|]. rewrite get_bind_view. eexists. split; [reflexivity|]. split; [done|].
  set (e := default _ _). destruct (Spend_wf o e) as (Hw & Hm & Hs).
  - unfold e. destruct (LookupEntry v o) eqn:El; [by apply (vi_wf _ _ _ _ Hi)|]. split; [done|]. split; [done|].
    cbn [default]. rewrite IsSpent_bit. cbn [packedFlags]. by rewrite Hf.
  - eapply eq_rect; [apply (vinv_put skip v base U o (Spend e) Hi Hw Hm)|]. by rewrite Hs.
Qed.

Lemma markOutputs_ok hs flags h outs i v skip base U : vinv skip v base U → length hs = 32%nat → 0 ≤ i →
  i + zlen outs ≤ 2 ^ 32 → Forall (λ t, entry_ok (UtxoCache.newEntry t false h)) outs → Z.testbit flags 1 = false →
  ∃ v', markOutputs hs flags h i outs v = Done (inl tt, v') ∧ bestHash v' = bestHash v ∧
    vinv (λ x, skip x ∧ x ∉ outsOf hs i outs) v' base (deleteAll (outsOf hs i outs) U).
Proof.
  intros Hi Hl H0 Hz Ho Hf. revert i v skip U Hi H0 Hz. induction Ho as [|t outs Ht _ IH]; intros i v skip U Hi H0 Hz.
  { exists v. split; [done|]. split; [done|]. apply (vinv_weaken skip _ v base U U Hi); [|done].
    intros o Hs. split; [done|]. apply not_elem_of_nil. }
  rewrite zlen_cons in Hz. pose proof (zlen_nonneg outs). cbn [markOutputs outsOf].
  rewrite uwrap_small by zlia. set (o := {| Wire.Hash := hs; Wire.Index := i |}).
  destruct (markOutputs_one_ok skip v base U o t flags h Hi) as (v1 & E1 & B1 & H1); [by split; cbn; [|zlia]|done..|].
  rewrite (io_step _ _ _ _ _ E1). destruct (Script.unspendable (Wire.PkScript t)).
  - subst v1. cbn [app]. apply IH; [done|lia|lia].
  - destruct (IH (i + 1) v1 _ _ H1) as (v' & E' & B' & H'); [lia|lia|]. exists v'. split; [done|]. split; [congruence|].
    apply (vinv_weaken _ _ _ _ _ _ H').
    + intros x ((Hs & Hne) & Hx). split; [done|]. by intros [?|?]%elem_of_cons.
    + intros x _. by cbn.
Qed.

Lemma stxoOf_restored o c : row_ok o c → let e := restored (UtxoCache.stxoOf c) in
  entry_wf o e ∧ isModified e = true ∧ IsSpent e = false ∧ cleaned e = c.
Proof.
  intros (Hw & He & Hc) e. unfold entry_wf.
  assert (isModified e = true ∧ IsSpent e = false ∧ IsCoinBase e = IsCoinBase c) as (F1 & F2 & F3).
  { unfold e, restored, UtxoCache.stxoOf. cbn. destruct (IsCoinBase c); done. }
  split_and!; try done. rewrite Hc. unfold cleaned. by rewrite F3.
Qed.

Lemma unspendInputs_ok b hs ins U sp U1 cs skip v base todo done_ : map_Forall coin_ok U →
  UtxoCache.spendAll ins U sp = Some (U1, sp ++ cs) → vinv skip v base U1 →
  ∃ v', unspendInputs b hs (rev ins) (rev (map UtxoCache.stxoOf cs) ++ todo) done_ v =
      Done (inl (todo, map UtxoCache.stxoOf cs ++ done_), v') ∧ bestHash v' = bestHash v ∧ vinv skip v' base U.
Proof.
  intros HU. revert U1 cs v done_. induction ins as [|ti ins IH] using rev_ind; intros U1 cs v done_ E Hi.
  { injection E as <- E. assert (cs = []) as -> by (apply (app_inv_head sp); by rewrite app_nil_r).
    by exists v. }
  apply spendAll_snoc in E as (U2 & sp2 & c & E & Hc & -> & E2).
  assert (∃ cs', sp2 = sp ++ cs') as [cs' ->].
  { apply (spendAll_grows _ _ _ _ _ E). }
  rewrite <-app_assoc in E2. apply app_inv_head in E2 as ->.
  destruct (HU _ _ (spendAll_lookup _ _ _ _ _ _ _ E Hc)) as [Hrow Hh].
  destruct (stxoOf_restored _ c Hrow) as (Hw & Hm & Hs & Ecl).
  rewrite rev_app_distr, map_app, rev_app_distr. cbn [rev app map unspendInputs]. rewrite get_bind_view.
  rewrite (io_step _ _ _ tt _) by reflexivity. unfold completeStxo.
  change (Height (UtxoCache.stxoOf c)) with (blockHeight c). rewrite (proj2 (Z.eqb_neq _ _) Hh). cbn [negb].
  rewrite (io_step _ _ _ (UtxoCache.stxoOf c) _) by reflexivity. rewrite (io_step _ _ _ tt _) by reflexivity.
  set (o := Wire.PreviousOutPoint ti) in *. set (v1 := set_entries (<[o := Some (restored _)]> _) _).
  assert (vinv skip v1 base U2) as Hi1.
  { pose proof (vinv_put skip v base _ o _ Hi Hw Hm) as Hp. rewrite Hs, Ecl in Hp.
    unfold v1. cbn [entries set_entries]. rewrite insert_insert_eq. apply (vinv_weaken _ skip _ _ _ U2 Hp); [tauto|].
    intros x _. destruct (decide (x = o)) as [->|]; [by rewrite lookup_partial_alter_eq|].
    by rewrite lookup_partial_alter_ne, lookup_delete_ne. }
  destruct (IH U2 cs' v1 (UtxoCache.stxoOf c :: done_) E Hi1) as (v' & E' & B' & H').
  exists v'. rewrite <-app_assoc. cbn [app]. done.
Qed.

(** The outputs of the transactions *)
Definition outsAll (p : list (Wire.Tx * list byte)) : list OutPoint := concat (map (λ x, outsOf x.2 0 (Wire.TxOuts x.1)) p).

Lemma undo_outputs d p tx hs h cb flags U2 v base : UtxoCache.creates_ok d h (tx, hs) → Z.testbit flags 1 = false →
  (∀ o, o ∈ outsOf hs 0 (Wire.TxOuts tx) → U2 !! o = None) →
  vinv (λ o, o ∈ outsAll (p ++ [(tx, hs)])) v base (UtxoCache.createAll hs cb h 0 (Wire.TxOuts tx) U2) →
  ∃ v', markOutputs hs flags h 0 (Wire.TxOuts tx) v = Done (inl tt, v') ∧ bestHash v' = bestHash v ∧
    vinv (λ o, o ∈ outsAll p) v' base U2.
Proof.
  intros (_ & Hl & Hz & Hc) Hf Hn Hi. cbn [fst snd] in *.
  destruct (markOutputs_ok hs flags h (Wire.TxOuts tx) 0 v _ base _ Hi Hl) as (v' & E & B & H'); [lia|lia| |done|].
  { apply Forall_lookup. intros k t Hk. destruct (Hc (Z.of_nat k) t) as [_ He]; [lia|by rewrite Nat2Z.id|]. by destruct He. }
  exists v'. split; [done|]. split; [done|]. apply (vinv_weaken _ _ _ _ _ _ H').
  - intros o [Ho Hno]. unfold outsAll in *. rewrite map_app, concat_app in Ho. apply elem_of_app in Ho as [Ho|Ho]; [done|].
    cbn in Ho. rewrite app_nil_r in Ho. done.
  - intros o _. rewrite deleteAll_lookup. case_decide as Ho; [by apply Hn|]. by rewrite createAll_lookup.
Qed.

Lemma outs_absent p tx hs h (U U1 : coins) sp (U2 : coins) : map_Forall coin_ok U → 0 < h → Forall (UtxoCache.creates_ok U h) p →
  UtxoCache.creates_ok U h (tx, hs) → hs ∉ p.*2 → UtxoCache.applyTxs p h U [] = Some (U1, sp) →
  (∀ o c, U2 !! o = Some c → U1 !! o = Some c) →
  ∀ o, o ∈ outsOf hs 0 (Wire.TxOuts tx) → U2 !! o = None.
Proof.
  intros HU Hh Hp (_ & _ & _ & Hc) Hhs E Hsub o Ho. destruct (applyTxs_coins _ _ _ _ _ _ HU Hh Hp E) as [_ Hn].
  destruct (U2 !! o) as [c|] eqn:Ec; [|done]. apply Hsub in Ec.
  apply outsOf_elem in Ho as (Eh & k & t & Hk & Ei). rewrite Hn in Ec; [done|by rewrite Eh|].
  destruct o as [oh oi]. cbn in Eh, Ei, Hk. subst oh oi. apply (Hc (Z.of_nat k) t); [lia|]. by rewrite Nat2Z.id.
Qed.

Definition block_shape (cb : Wire.Tx * list byte) (rest : list (Wire.Tx * list byte)) : Prop :=
  UtxoCache.IsCoinBaseTx cb.1 = true ∧ Forall (λ p, UtxoCache.IsCoinBaseTx p.1 = false) rest ∧ NoDup (cb :: rest).*2.

Lemma disconnectAll_cons b h tx txs todo done_ : txs ≠ [] →
  disconnectAll b h (tx :: txs) todo done_ =
  (txHash ← io_run (Wire.TxHash tx);
   _ ← markOutputs txHash 0 h 0 (Wire.TxOuts tx);
   '(todo, done) ← unspendInputs b txHash (rev (Wire.TxIns tx)) todo done_;
   disconnectAll b h txs todo done).
Proof. by destruct txs. Qed.

Lemma disconnectAll_ok b h cb rest U U' spent v base todo done_ : map_Forall coin_ok U → 0 < h →
  Forall (UtxoCache.creates_ok U h) (cb :: rest) → block_shape cb rest →
  UtxoCache.applyTxs (cb :: rest) h U [] = Some (U', spent) → vinv (λ o, o ∈ outsAll (cb :: rest)) v base U' →
  ∃ v', disconnectAll b h (rev (cb :: rest).*1) (rev (map UtxoCache.stxoOf spent) ++ todo) done_ v =
      Done (inl (todo, map UtxoCache.stxoOf spent ++ done_), v') ∧ bestHash v' = bestHash v ∧
    vinv (λ _, False) v' base U.
Proof.
  intros HU Hh. revert U' spent v done_. induction rest as [|[tx hs] rest IH] using rev_ind;
    intros U' spent v done_ Hc (Hcb & Hr & Hn) E Hi.
  - destruct cb as [tx hs]. cbn [fst] in Hcb. cbn [UtxoCache.applyTxs] in E. rewrite Hcb in E. injection E as <- <-.
    apply Forall_inv in Hc. pose proof Hc as (Hh1 & _).
    destruct (undo_outputs U [] tx hs h true tfCoinBase U v base Hc) as (v' & E' & B' & H'); [done| |done|].
    { apply (outs_absent [] tx hs h U U [] U); try done. cbn. apply not_elem_of_nil. }
    exists v'. split; [|split; [done|]].
    + cbn [fmap list_fmap map fst rev app disconnectAll]. cbn [fst snd] in Hh1. rewrite (io_run_Done _ _ _ _ Hh1).
      by rewrite (io_step _ _ _ _ _ E').
    + apply (vinv_weaken _ _ _ _ _ _ H'); [|done]. intros o. cbn. apply not_elem_of_nil.
  - rewrite app_comm_cons in *. apply Forall_app in Hc as [Hc Hx]. apply Forall_inv in Hx. pose proof Hx as (Hh1 & _).
    apply Forall_app in Hr as [Hr Hcx]. apply Forall_inv in Hcx. cbn [fst snd] in *.
    rewrite fmap_app in Hn. apply NoDup_app in Hn as (Hn & Hnx & _).
    apply applyTxs_snoc in E as (U1 & sp1 & U2 & E1 & E2 & ->). rewrite Hcx in *.
    destruct (undo_outputs U (cb :: rest) tx hs h false 0 U2 v base Hx) as (v1 & Ev1 & B1 & H1); [done| |done|].
    { apply (outs_absent (cb :: rest) tx hs h U U1 sp1 U2); try done.
      - intros Hin. apply (Hnx _ Hin). by apply list_elem_of_singleton.
      - intros o c. by apply (spendAll_lookup _ _ _ _ _ _ _ E2). }
    destruct (applyTxs_coins _ _ _ _ _ _ HU Hh Hc E1) as [HU1 _].
    assert (∃ cs, spent = sp1 ++ cs) as [cs ->].
    { apply (spendAll_grows _ _ _ _ _ E2). }
    destruct (unspendInputs_ok b hs (Wire.TxIns tx) U1 sp1 U2 cs _ v1 base (rev (map UtxoCache.stxoOf sp1) ++ todo) done_ HU1 E2 H1)
      as (v2 & Ev2 & B2 & H2).
    destruct (IH U1 sp1 v2 (map UtxoCache.stxoOf cs ++ done_) Hc (conj Hcb (conj Hr Hn)) E1 H2) as (v' & E' & B' & H').
    exists v'. split; [|split; [congruence|done]].
    rewrite fmap_app, rev_app_distr. change (rev [(tx, hs)].*1 ++ ?t) with (tx :: t).
    rewrite disconnectAll_cons by (intros E%(f_equal length); by rewrite length_rev in E). rewrite (io_run_Done _ _ _ _ Hh1).
    rewrite (io_step _ _ _ _ _ Ev1), map_app, rev_app_distr, <-app_assoc. rewrite (io_step _ _ _ _ _ Ev2).
    rewrite <-app_assoc. exact E'.
Qed.

(** ** Writing a view *)

Lemma putRows_ok b d l : NoDup l.*1 → (∀ o e, (o, Some e) ∈ l → entry_wf o e) → rows b d →
  ∃ b' d', putRows b l = Done (inl b') ∧ rows b' d' ∧ (∀ o e, (o, e) ∈ l → d' !! o = seen e (d !! o)) ∧
    (∀ o, o ∉ l.*1 → d' !! o = d !! o).
Proof.
  revert b d. induction l as [|[o e] l IH]; intros b d Hn Hw Hr.
  { exists b, d. split; [done|]. split; [done|]. split; [by intros o e ?%elem_of_nil|done]. }
  cbn [fmap list_fmap fst] in Hn. apply NoDup_cons in Hn as [Hno Hn].
  assert (∃ b1 d1, putRows b ((o, e) :: l) = putRows b1 l ∧ rows b1 d1 ∧ d1 !! o = seen e (d !! o) ∧
    ∀ o', o' ≠ o → d1 !! o' = d !! o') as (b1 & d1 & -> & Hr1 & Ho1 & Hne1).
  { cbn [putRows]. destruct e as [e|]; [|by exists b, d]. unfold seen. destruct (isModified e) eqn:Em; [|by exists b, d].
    destruct (Hw o e) as (Ho & He & _); [left|]. cbn [negb]. destruct (IsSpent e) eqn:Es.
    - destruct (rows_delete b d o Hr Ho) as (b1 & -> & Hr1). exists b1, (delete o d).
      split_and!; try done; [apply lookup_delete_eq|]. intros o' Hne. by apply lookup_delete_ne.
    - destruct (rows_put b d o e Hr Ho He Es) as (b1 & -> & Hr1). exists b1, (<[o := cleaned e]> d).
      split_and!; try done; [apply lookup_insert_eq|]. intros o' Hne. by apply lookup_insert_ne. }
  destruct (IH b1 d1 Hn) as (b' & d' & E & Hr' & Hin & Hout); [intros o' e' Hi; apply Hw; by right|done|].
  exists b', d'. split; [done|]. split; [done|]. split.
  - intros o' e' [[= -> ->]|Hi]%elem_of_cons; [by rewrite Hout|]. rewrite (Hin _ _ Hi), Hne1; [done|].
    intros ->. apply Hno. by apply (list_elem_of_fmap_2 fst l (o, e')).
  - intros o' [Ho' Hl]%not_elem_of_cons. by rewrite Hout, Hne1.
Qed.

Context {O : UtxoCache.MapOrder} {Ook : UtxoCache.MapOrderOk O}.

Lemma dbPutUtxoView_ok b base v U : rows b base → vinv (λ _, False) v base U →
  ∃ b', dbPutUtxoView b (Some v) = Done (inl b') ∧ rows b' U.
Proof.
  intros Hr [Hw _ Hc]. cbn [dbPutUtxoView].
  destruct (putRows_ok b base (UtxoCache.entryOrder (entries v))) as (b' & d' & E & Hr' & Hin & Hout); [| |done|].
  - rewrite UtxoCache.fst_order. apply NoDup_fst_map_to_list.
  - intros o e Ho. apply Hw. apply UtxoCache.order_in in Ho. unfold LookupEntry. by rewrite Ho.
  - exists b'. split; [done|]. assert (U = d') as ->; [|done]. apply map_eq. intros o. rewrite Hc by tauto. unfold LookupEntry.
    destruct (entries v !! o) as [e|] eqn:Eo; cbn [default]; symmetry.
    + by apply Hin, UtxoCache.order_in.
    + by apply Hout, UtxoCache.order_not_in.
Qed.

(** ** Loading the inputs of a block *)

Lemma vinv_skip skip v base U o e : vinv skip v base U → skip o → entry_wf o e → isModified e = true →
  vinv skip (set_entries (<[o := Some e]> (entries v)) v) base U.
Proof.
  intros Hi Ho He Hm. apply (vinv_weaken _ _ _ _ _ _ (vinv_put skip v base U o e Hi He Hm)); [tauto|].
  intros x Hx. rewrite lookup_partial_alter_ne; [done|]. intros <-. by apply Hx.
Qed.

Lemma view_addTxOut_ok skip v base U o t cb h : vinv skip v base U → op_wf o → entry_ok (UtxoCache.newEntry t cb h) →
  (Script.unspendable (Wire.PkScript t) = false → skip o) →
  ∃ v', addTxOut o t cb h v = Done (inl tt, v') ∧ bestHash v' = bestHash v ∧ vinv skip v' base U.
Proof.
  intros Hi Ho He Hs. unfold addTxOut. rewrite (io_run_Done _ _ _ _ (Script.IsUnspendable_spec _)).
  destruct (Script.unspendable _); [by exists v|]. eexists. split; [reflexivity|]. split; [done|].
  destruct (UtxoCache.newEntry_flags t cb h) as (F1 & F2 & _).
  apply (vinv_skip skip v base U o (UtxoCache.newEntry t cb h)); [done|by apply Hs| |done]. split; [done|]. split; [done|].
  by rewrite F2.
Qed.

Lemma AddTxOuts_loop_ok skip hs cb h outs i v base U : vinv skip v base U → length hs = 32%nat → 0 ≤ i →
  i + zlen outs ≤ 2 ^ 32 → Forall (λ t, entry_ok (UtxoCache.newEntry t cb h)) outs →
  (∀ o, o ∈ outsOf hs i outs → skip o) →
  ∃ v', AddTxOuts_loop hs cb h i outs v = Done (inl tt, v') ∧ bestHash v' = bestHash v ∧ vinv skip v' base U.
Proof.
  intros Hi Hl H0 Hz Ho. revert i v Hi H0 Hz. induction Ho as [|t outs Ht _ IH]; intros i v Hi H0 Hz Hs; [by exists v|].
  rewrite zlen_cons in Hz. pose proof (zlen_nonneg outs). cbn [AddTxOuts_loop outsOf] in *. rewrite uwrap_small by zlia.
  destruct (view_addTxOut_ok skip v base U {| Wire.Hash := hs; Wire.Index := i |} t cb h Hi) as (v1 & E1 & B1 & H1);
    [by split; cbn; [|zlia]|done| |].
  { intros E. apply Hs. rewrite E. left. }
  rewrite (io_step _ _ _ _ _ E1). destruct (IH (i + 1) v1 H1) as (v' & E' & B' & H'); [lia|lia| |].
  - intros o Ho'. apply Hs, elem_of_app. by right.
  - exists v'. split; [done|]. split; [congruence|done].
Qed.

Lemma AddTxOuts_ok skip tx hs d h v base U : vinv skip v base U → UtxoCache.creates_ok d h (tx, hs) →
  (∀ o, o ∈ outsOf hs 0 (Wire.TxOuts tx) → skip o) →
  ∃ v', AddTxOuts tx h v = Done (inl tt, v') ∧ bestHash v' = bestHash v ∧ vinv skip v' base U.
Proof.
  intros Hi (Hh & Hl & Hz & Hc) Hs. cbn [fst snd] in *. unfold AddTxOuts. rewrite (io_run_Done _ _ _ _ Hh).
  apply AddTxOuts_loop_ok; [done|done|lia|lia| |done].
  apply Forall_lookup. intros k t Hk. apply (Hc (Z.of_nat k) t); [lia|by rewrite Nat2Z.id].
Qed.

Lemma txHashes_ok d h (p : list (Wire.Tx * list byte)) : Forall (UtxoCache.creates_ok d h) p → txHashes p.*1 = Done p.*2.
Proof.
  induction 1 as [|[tx hs] p (Hh & _) _ IH]; [done|]. cbn [fmap list_fmap txHashes fst snd] in *. rewrite Hh. cbn [mbind run_bind].
  change (list_fmap _ _ fst p) with (p.*1). rewrite IH. done.
Qed.

Lemma foldl_insert_in {A} `{Countable C} (f : A → C * nat) (l : list A) (m : gmap C nat) k j :
  foldl (λ m x, <[(f x).1 := (f x).2]> m) m l !! k = Some j → m !! k = Some j ∨ ∃ x, x ∈ l ∧ f x = (k, j).
Proof.
  revert m. induction l as [|x l IH]; intros m; cbn [foldl]; [by left|].
  intros [Hm|(y & Hy & E)]%IH; [|right; exists y; split; [by right|done]].
  apply lookup_insert_Some in Hm as [[E1 E2]|[_ Hm]]; [right|by left].
  exists x. split; [left|]. by rewrite <-E1, <-E2; destruct (f x).
Qed.

Lemma inFlight_lookup hashes hs j : inFlight hashes !! hs = Some j → hashes !! j = Some hs.
Proof.
  unfold inFlight. intros E.
  assert (foldl (λ m x, <[((λ y : nat * list byte, (y.2, y.1)) x).1 := ((λ y : nat * list byte, (y.2, y.1)) x).2]> m) (∅ : gmap (list byte) nat)
    (imap (fun i h => (i, h)) hashes) !! hs = Some j) as E'.
  { rewrite <-E. f_equal. clear E. generalize (∅ : gmap (list byte) nat). induction (imap (λ i h, (i, h)) hashes) as [|[a b] l IH]; [done|].
    intros m. apply IH. }
  apply foldl_insert_in in E' as [E'|([a b] & Hx & [= -> ->])]; [by rewrite lookup_empty in E'|].
  apply elem_of_lookup_imap_1 in Hx as (i & y & [= -> ->] & Hy). done.
Qed.

Section inputs.
Variables (p : list (Wire.Tx * list byte)) (h : Z) (d base U : coins).
Hypothesis Hp : Forall (UtxoCache.creates_ok d h) p.
Let skip (o : OutPoint) : Prop := o ∈ outsAll p.
Definition inputs_wf (tx : Wire.Tx) : Prop := Forall (λ ti, op_wf (Wire.PreviousOutPoint ti)) (Wire.TxIns tx).

Lemma findInputs_ins_ok i ins needed v : vinv skip v base U → Forall op_wf needed →
  Forall (λ ti, op_wf (Wire.PreviousOutPoint ti)) ins →
  ∃ needed' v', findInputs_ins p.*1 (inFlight p.*2) h i ins needed v = Done (inl needed', v') ∧ bestHash v' = bestHash v ∧
    vinv skip v' base U ∧ Forall op_wf needed'.
Proof.
  intros Hi Hn Hw. revert needed v Hi Hn. induction Hw as [|ti ins Ho _ IH]; intros needed v Hi Hn; cbn [findInputs_ins].
  { by exists needed, v. }
  set (o := Wire.PreviousOutPoint ti) in *. set (request := get_ ≫= _).
  assert (∃ needed' v', request v = Done (inl needed', v') ∧ bestHash v' = bestHash v ∧ vinv skip v' base U ∧ Forall op_wf needed') as Hreq.
  { unfold request. rewrite get_bind_view. destruct (entries v !! o); apply IH; try done. apply Forall_app. by split; [|constructor]. }
  destruct (inFlight p.*2 !! Wire.Hash o) as [j|] eqn:Ej; [|done]. destruct (j <=? i)%nat; [|done].
  apply inFlight_lookup in Ej. apply list_lookup_fmap_Some in Ej as ([tx hs] & Eh & Ej).
  assert (index p.*1 (Z.of_nat j) = Done tx) as Ei.
  { unfold index. rewrite decide_True by lia. by rewrite Nat2Z.id, list_lookup_fmap, Ej. }
  rewrite (io_run_Done _ _ _ _ Ei). rewrite Forall_lookup in Hp.
  destruct (AddTxOuts_ok skip tx hs d h v base U Hi (Hp _ _ Ej)) as (v1 & E1 & B1 & H1).
  { intros o' Ho'. unfold skip, outsAll. apply list_elem_of_In, in_concat. eexists. split; [|by apply list_elem_of_In].
    apply in_map_iff. exists (tx, hs). split; [done|]. by apply list_elem_of_In, (list_elem_of_lookup_2 _ _ _ Ej). }
  rewrite (io_step _ _ _ _ _ E1). destruct (IH needed v1 H1 Hn) as (needed' & v' & E' & B' & H' & N').
  exists needed', v'. split; [done|]. split; [congruence|done].
Qed.

Lemma findInputs_txs_ok i rest needed v : vinv skip v base U → Forall op_wf needed → Forall inputs_wf rest →
  ∃ needed' v', findInputs_txs p.*1 (inFlight p.*2) h i rest needed v = Done (inl needed', v') ∧ bestHash v' = bestHash v ∧
    vinv skip v' base U ∧ Forall op_wf needed'.
Proof.
  intros Hi Hn Hw. revert i needed v Hi Hn. induction Hw as [|tx rest Ht _ IH]; intros i needed v Hi Hn; cbn [findInputs_txs].
  { by exists needed, v. }
  destruct (findInputs_ins_ok i (Wire.TxIns tx) needed v Hi Hn Ht) as (n1 & v1 & E1 & B1 & H1 & N1).
  rewrite (io_step _ _ _ _ _ E1). destruct (IH (S i) n1 v1 H1 N1) as (n' & v' & E' & B' & H' & N').
  exists n', v'. split; [done|]. split; [congruence|done].
Qed.

End inputs.

Lemma foldl_fetched (f : OutPoint → option UtxoEntry) ops (m : entryMap) o :
  let m' := foldl (λ m '(o, e), <[o := e]> m) m (zip ops (map f ops)) in
  m' !! o = m !! o ∨ o ∈ ops ∧ m' !! o = Some (f o).
Proof.
  revert m. induction ops as [|x ops IH]; intros m; cbn [map zip zip_with foldl]; [by left|].
  destruct (IH (<[x := f x]> m)) as [E|[Hi E]]; [|right; split; [by right|done]].
  destruct (decide (o = x)) as [->|Hne]; [right|left].
  - rewrite E, lookup_insert_eq. split; [left|done].
  - by rewrite E, lookup_insert_ne.
Qed.

Lemma fetchUtxosFromCache_ok skip ops v s d U : UtxoCache.cinv s d U → vinv skip v U U → Forall op_wf ops →
  ∃ v' s', fetchUtxosFromCache ops v s = Done (inl v', s') ∧ UtxoCache.cinv s' d U ∧ vinv skip v' U U ∧
    bestHash v' = bestHash v ∧ UtxoCache.only_entries s s'.
Proof.
  intros Hi Hv Hw. unfold fetchUtxosFromCache. destruct (zlen ops =? 0).
  { exists v, s. split_and!; try done. apply UtxoCache.only_entries_refl. }
  destruct (UtxoCache.fetch_many s d U ops Hi Hw) as (s' & -> & Hi' & Oe). cbn [mbind run_bind fst snd].
  eexists _, s'. split; [done|]. split; [done|]. split; [|done]. split; intros o; unfold LookupEntry; cbn [entries set_entries].
  all: destruct (foldl_fetched (UtxoCache.fetched s d) ops (entries v) o) as [->|[Ho ->]]; [by apply Hv|]; cbn [default].
  all: rewrite Forall_forall in Hw; specialize (Hw o Ho).
  - intros e E. destruct (UtxoCache.fetched_coin s d U o e Hi Hw E) as (He & Hs & _). done.
  - intros e E Em. destruct (UtxoCache.fetched_coin s d U o e Hi Hw E) as (_ & Hs & ->). destruct (IsSpent e); [|done].
    by rewrite Hs in Em.
  - intros _. destruct (UtxoCache.fetched s d o) as [e|] eqn:E; [|done].
    destruct (UtxoCache.fetched_coin s d U o e Hi Hw E) as (_ & _ & Hm). cbn [id seen]. by destruct (isModified e).
Qed.

Lemma fetchInputUtxos_ok cb rest h d0 v s d U header : Forall (UtxoCache.creates_ok d0 h) (cb :: rest) →
  Forall inputs_wf rest.*1 → UtxoCache.cinv s d U → vinv (λ o, o ∈ outsAll (cb :: rest)) v U U →
  ∃ v' s', fetchInputUtxos {| Header := header; Transactions := (cb :: rest).*1; BlockHeight := h |} v s = Done (inl v', s') ∧
    UtxoCache.cinv s' d U ∧ vinv (λ o, o ∈ outsAll (cb :: rest)) v' U U ∧ UtxoCache.only_entries s s'.
Proof.
  intros Hc Hw Hi Hv. unfold fetchInputUtxos, findInputsToFetch. cbn [Transactions BlockHeight].
  rewrite (io_run_Done _ _ _ _ (txHashes_ok _ _ _ Hc)).
  assert (slice (cb :: rest).*1 1 (zlen (cb :: rest).*1) = Done rest.*1) as Es by (cbn; apply slice_tail1; by rewrite zlen_cons).
  rewrite (io_run_Done _ _ _ _ Es).
  destruct (findInputs_txs_ok (cb :: rest) h d0 U U Hc 0 rest.*1 [] v Hv) as (needed & v1 & E1 & B1 & H1 & N1); [done|done|].
  rewrite E1. cbn [mbind run_bind].
  destruct (fetchUtxosFromCache_ok _ needed v1 s d U Hi H1 N1) as (v' & s' & E' & Hi' & Hv' & _ & Oe). by exists v', s'.
Qed.

(** ** Committing *)

Lemma toggle_flags e : let e' := set_flags (Z.lxor (packedFlags e) tfModified) e in
  isModified e' = negb (isModified e) ∧ IsSpent e' = IsSpent e ∧ IsCoinBase e' = IsCoinBase e.
Proof.
  cbn zeta. autorewrite with go_flags. cbn [packedFlags set_flags]. rewrite !Z.lxor_spec. change tfModified with 4. cbn.
  by rewrite !xorb_false_r, xorb_true_r.
Qed.

(** [commit] toggles the modified flag, which is right because an entry that was
    not modified agrees with the rows. *)
Lemma commit_ok v base U : vinv (λ _, False) v base U → vinv (λ _, False) (commit v) U U.
Proof.
  intros [Hw Hcl Hc].
  assert (∀ o, LookupEntry (commit v) o = match LookupEntry v o with
    | Some e => if isModified e && IsSpent e then None else Some (set_flags (Z.lxor (packedFlags e) tfModified) e)
    | None => None end) as Hl.
  { intros o. unfold LookupEntry, commit. cbn [entries set_entries]. rewrite lookup_omap.
    destruct (entries v !! o) as [[e|]|]; [|done..]. cbn. by destruct (_ && _). }
  assert (∀ o e', LookupEntry (commit v) o = Some e' → ∃ e, LookupEntry v o = Some e ∧ IsSpent e' = false ∧
    isModified e' = negb (isModified e) ∧ entry_wf o e' ∧ U !! o = Some (cleaned e')) as Hs.
  { intros o e'. rewrite Hl. destruct (LookupEntry v o) as [e|] eqn:E; [|done]. destruct (_ && _) eqn:Em; [done|]. intros [= <-].
    destruct (toggle_flags e) as (F1 & F2 & F3). destruct (Hw o e E) as (W1 & W2 & W3). exists e.
    assert (IsSpent e = false) as Es.
    { destruct (IsSpent e) eqn:Es; [|done]. by rewrite W3 in Em. }
    rewrite F2. split; [done|]. split; [done|]. split; [done|]. split; [split; [done|]; split; [done|by rewrite F2, Es]|].
    rewrite (Hc o) by tauto. rewrite E. unfold seen, cleaned. rewrite F3. destruct (isModified e) eqn:Emod; [by rewrite Es|].
    by rewrite (Hcl o e E Emod). }
  split.
  - intros o e' E. destruct (Hs o e' E) as (e & _ & _ & _ & Hwf & _). done.
  - intros o e' E _. destruct (Hs o e' E) as (e & _ & _ & _ & _ & ->). done.
  - intros o _. destruct (LookupEntry (commit v) o) as [e'|] eqn:E; [|done].
    destruct (Hs o e' E) as (e & _ & Es & _ & _ & HU). cbn. rewrite Es, HU. by destruct (isModified e').
Qed.

Lemma NewUtxoViewpoint_ok skip U : vinv skip NewUtxoViewpoint U U.
Proof. by split; intros o; unfold LookupEntry; cbn; rewrite lookup_empty. Qed.

Lemma countSpent_ok cb rest h U U' spent : block_shape cb rest → UtxoCache.applyTxs (cb :: rest) h U [] = Some (U', spent) →
  countSpentOutputs (cb :: rest).*1 = Done (zlen (map UtxoCache.stxoOf spent)).
Proof.
  intros (Hcb & Hr & _) E. destruct cb as [tx hs]. cbn [fst] in Hcb. cbn [UtxoCache.applyTxs] in E. rewrite Hcb in E.
  unfold countSpentOutputs. cbn [fmap list_fmap fst]. rewrite slice_tail1 by (by rewrite zlen_cons). cbn [mbind run_bind]. f_equal.
  unfold zlen at 2. rewrite length_map. change 0 with (Z.of_nat (length (@nil UtxoEntry))).
  revert E. generalize (@nil UtxoEntry). generalize (UtxoCache.createAll hs true h 0 (Wire.TxOuts tx) U).
  induction Hr as [|[t hs'] rest Ht _ IH]; intros U0 sp; cbn [UtxoCache.applyTxs fmap list_fmap foldl fst]; [by intros [= -> ->]|].
  cbn [fst] in Ht. rewrite Ht. destruct (UtxoCache.spendAll _ _ _) as [[U1 sp1]|] eqn:Es; [|done].
  intros E. change (list_fmap _ _ fst rest) with (rest.*1). rewrite <-(IH _ _ E). f_equal.
  clear -Es. revert U0 sp Es. unfold zlen. induction (Wire.TxIns t) as [|ti ins IH]; intros U0 sp; cbn [UtxoCache.spendAll length].
  { intros [= -> ->]. lia. }
  destruct (U0 !! _); [|done]. intros Es. specialize (IH _ _ Es). rewrite length_app in IH. cbn in IH. lia.
Qed.

(** C2 (refinement).  Disconnecting the tip block restores the UTXO set before it:
    when the cache and the database stand for the set [U'] that the block made of
    [U], then loading the inputs of the block into the view, undoing its
    transactions with the records of the spend journal, flushing the cache and
    writing the view leaves exactly the unspent outputs of [U] in the database, for
    every order in which the maps are visited; the view, committed, agrees with
    [U] and is ready for the block before. *)
Theorem disconnect_restores (s : UtxoCache.state) (d U U' : coins) (v : UtxoViewpoint) (header : Wire.BlockHeader)
    (cb : Wire.Tx * list byte) (rest : list (Wire.Tx * list byte)) (h now : Z) (spent : list UtxoEntry) (best : list byte) :
  map_Forall coin_ok U → 0 < h → Forall (UtxoCache.creates_ok U h) (cb :: rest) → Forall inputs_wf rest.*1 →
  block_shape cb rest → UtxoCache.applyTxs (cb :: rest) h U [] = Some (U', spent) →
  UtxoCache.cinv s d U' → vinv (λ _, False) v U' U' →
  let block := {| Header := header; Transactions := (cb :: rest).*1; BlockHeight := h |} in
  ∃ v1 s1 v2 v3 s3,
    fetchInputUtxos block v s = Done (inl v1, s1) ∧
    disconnectTransactions (UtxoCache.utxoBucket s1) block (map UtxoCache.stxoOf spent) v1 =
      Done (inl (map UtxoCache.stxoOf spent), v2) ∧ bestHash v2 = Wire.PrevBlock header ∧
    disconnectUtxos now best v2 s1 = Done (inl v3, s3) ∧
    rows (UtxoCache.utxoBucket s3) U ∧ UtxoCache.consistency s3 = Some best ∧ vinv (λ _, False) v3 U U.
Proof.
  intros HU Hh Hc Hw Hs E Hi Hv block.
  destruct (fetchInputUtxos_ok cb rest h U v s d U' header Hc Hw Hi) as (v1 & s1 & E1 & Hi1 & Hv1 & _).
  { by apply (vinv_weaken _ _ _ _ _ _ Hv). }
  destruct (disconnectAll_ok (UtxoCache.utxoBucket s1) h cb rest U U' spent v1 U' [] [] HU Hh Hc Hs E Hv1) as (v2 & E2 & _ & Hv2).
  rewrite !app_nil_r in E2.
  set (v2' := {| entries := entries v2; bestHash := Wire.PrevBlock header |}).
  assert (vinv (λ _, False) v2' U' U) as Hv2' by (by destruct Hv2).
  destruct (UtxoCache.flush_required_rows s1 d U' now best Hi1) as (s2 & E3 & Hr2 & Hcons).
  destruct (dbPutUtxoView_ok _ U' v2' U Hr2 Hv2') as (b' & E4 & Hr3).
  exists v1, s1, v2', (commit v2'), (UtxoCache.set_bucket b' s2). split; [done|]. split.
  { unfold disconnectTransactions, block. cbn [Transactions BlockHeight Header].
    rewrite (io_run_Done _ _ _ _ (countSpent_ok cb rest h U U' spent Hs E)). rewrite Z.eqb_refl. cbn [negb].
    rewrite (io_step _ _ _ _ _ E2). reflexivity. }
  split; [done|]. split.
  { unfold disconnectUtxos. rewrite E3. cbn [mbind run_bind]. by rewrite E4. }
  split; [done|]. split; [done|]. by eapply commit_ok.
Qed.

(** ** Connecting a block to a view *)

(** Every coin that the transactions spend is loaded. *)
Definition loaded (v : UtxoViewpoint) (U : coins) (ins : list (Wire.TxIn (list byte))) : Prop :=
  ∀ ti c, ti ∈ ins → U !! Wire.PreviousOutPoint ti = Some c → is_Some (LookupEntry v (Wire.PreviousOutPoint ti)).

Definition grows (v v' : UtxoViewpoint) : Prop :=
  bestHash v' = bestHash v ∧ ∀ o, is_Some (LookupEntry v o) → is_Some (LookupEntry v' o).

Lemma put_grows v o e : grows v (set_entries (<[o := Some e]> (entries v)) v).
Proof. split; [done|]. intros o' Ho. rewrite lookup_put. by case_decide. Qed.

Lemma grows_trans v1 v2 v3 : grows v1 v2 → grows v2 v3 → grows v1 v3.
Proof. intros [B1 H1] [B2 H2]. split; [congruence|]. auto. Qed.

Lemma grows_refl v : grows v v.
Proof. by split. Qed.

Lemma vinv_put_all v base U U' o e : vinv (λ _, False) v base U → entry_wf o e → isModified e = true →
  U' = partial_alter (λ _, if IsSpent e then None else Some (cleaned e)) o U →
  vinv (λ _, False) (set_entries (<[o := Some e]> (entries v)) v) base U'.
Proof. intros Hi He Hm ->. apply (vinv_weaken _ _ _ _ _ _ (vinv_put _ v base U o e Hi He Hm)); [tauto|done]. Qed.

Lemma spendInputs_ok ins v base U U' sp sp' : vinv (λ _, False) v base U → UtxoCache.spendAll ins U sp = Some (U', sp') →
  loaded v U ins →
  ∃ v', spendInputs ins (Some (map UtxoCache.stxoOf sp)) v = Done (inl (Some (map UtxoCache.stxoOf sp')), v') ∧
    vinv (λ _, False) v' base U' ∧ grows v v'.
Proof.
  revert v U sp. induction ins as [|ti ins IH]; intros v U sp Hi E Hl; cbn [UtxoCache.spendAll spendInputs] in *.
  { injection E as <- <-. exists v. split; [done|]. split; [done|apply grows_refl]. }
  set (o := Wire.PreviousOutPoint ti) in *. destruct (U !! o) as [c|] eqn:Eo; [|done]. rewrite get_bind_view.
  destruct (Hl ti c) as [e Ee]; [left|done|]. fold o in Ee. rewrite Ee.
  assert (cleaned e = c) as Ec.
  { pose proof (vi_coins _ _ _ _ Hi o ltac:(tauto)) as Hc. rewrite Eo, Ee in Hc. cbn in Hc. destruct (isModified e) eqn:Em.
    - destruct (IsSpent e); [done|]. by injection Hc.
    - rewrite (vi_clean _ _ _ _ Hi o e Ee Em) in Hc. by injection Hc. }
  destruct (Spend_wf o e (vi_wf _ _ _ _ Hi o e Ee)) as (Hw & Hm & Hs). rewrite (io_step _ _ _ tt _) by reflexivity.
  destruct (IH (set_entries (<[o := Some (Spend e)]> (entries v)) v) (delete o U) (sp ++ [c])) as (v' & E' & Hi' & Hg).
  - apply (vinv_put_all v base U _ o (Spend e) Hi Hw Hm). by rewrite Hs.
  - done.
  - intros t c' Ht Hc. apply put_grows, (Hl t c'); [by right|]. by apply lookup_delete_Some in Hc as [_ Hc].
  - exists v'. split; [|split; [done|by apply (grows_trans _ _ _ (put_grows v o (Spend e)))]].
    rewrite <-E', map_app. cbn. by rewrite <-Ec, UtxoCache.stxoOf_cleaned.
Qed.

Lemma createOuts_ok hs cb h outs i v base U : vinv (λ _, False) v base U → length hs = 32%nat → 0 ≤ i →
  i + zlen outs ≤ 2 ^ 32 → Forall (λ t, entry_ok (UtxoCache.newEntry t cb h)) outs →
  ∃ v', AddTxOuts_loop hs cb h i outs v = Done (inl tt, v') ∧
    vinv (λ _, False) v' base (UtxoCache.createAll hs cb h i outs U) ∧ grows v v' ∧
    (∀ o, UtxoCache.createAll hs cb h i outs U !! o = U !! o ∨ is_Some (LookupEntry v' o)).
Proof.
  intros Hi Hl H0 Hz Ho. revert i v U Hi H0 Hz. induction Ho as [|t outs Ht _ IH]; intros i v U Hi H0 Hz.
  { exists v. split; [done|]. split; [done|]. split; [apply grows_refl|by left]. }
  rewrite zlen_cons in Hz. pose proof (zlen_nonneg outs). cbn [AddTxOuts_loop UtxoCache.createAll]. rewrite uwrap_small by zlia.
  set (o := {| Wire.Hash := hs; Wire.Index := i |}). unfold addTxOut.
  destruct (Script.unspendable (Wire.PkScript t)) eqn:Eu.
  { rewrite (io_step _ _ _ tt v); [by apply IH; [done|lia|lia]|].
    rewrite (io_run_Done _ _ _ _ (Script.IsUnspendable_spec _)). by rewrite Eu. }
  destruct (UtxoCache.newEntry_flags t cb h) as (F1 & F2 & F3).
  set (v1 := set_entries (<[o := Some (UtxoCache.newEntry t cb h)]> (entries v)) v).
  rewrite (io_step _ _ _ tt v1). 2: { rewrite (io_run_Done _ _ _ _ (Script.IsUnspendable_spec _)). by rewrite Eu. }
  destruct (IH (i + 1) v1 (<[o := UtxoCache.newCoin t cb h]> U)) as (v' & E' & Hi' & Hg & Hn); [|lia|lia|].
  - apply (vinv_put_all v base U _ o _ Hi); [|done|by rewrite F1, F3]. split; [by split; cbn; [|zlia]|]. split; [done|by rewrite F2].
  - exists v'. split; [done|]. split; [done|]. split; [by apply (grows_trans _ v1); [apply put_grows|]|].
    intros x. destruct (Hn x) as [->|?]; [|by right]. destruct (decide (x = o)) as [->|Hne]; [right|left; by rewrite lookup_insert_ne].
    apply Hg. unfold v1. rewrite lookup_put, decide_True by done. by eexists.
Qed.

Lemma connectTransaction_ok tx hs d h v base U U1 sp sp1 : vinv (λ _, False) v base U → UtxoCache.creates_ok d h (tx, hs) →
  loaded v U (Wire.TxIns tx) →
  (if UtxoCache.IsCoinBaseTx tx then Some (U, sp) else UtxoCache.spendAll (Wire.TxIns tx) U sp) = Some (U1, sp1) →
  let U2 := UtxoCache.createAll hs (UtxoCache.IsCoinBaseTx tx) h 0 (Wire.TxOuts tx) U1 in
  ∃ v', connectTransaction tx h (Some (map UtxoCache.stxoOf sp)) v = Done (inl (Some (map UtxoCache.stxoOf sp1)), v') ∧
    vinv (λ _, False) v' base U2 ∧ grows v v' ∧
    (∀ o c, U2 !! o = Some c → U !! o = Some c ∨ is_Some (LookupEntry v' o)).
Proof.
  intros Hi (Hx & Hlen & Hz & Ho) Hl E1 U2. cbn [fst snd] in *.
  assert (∃ v1, (if UtxoCache.IsCoinBaseTx tx then mret (Some (map UtxoCache.stxoOf sp))
      else spendInputs (Wire.TxIns tx) (Some (map UtxoCache.stxoOf sp))) v =
    Done (inl (Some (map UtxoCache.stxoOf sp1)), v1) ∧ vinv (λ _, False) v1 base U1 ∧ grows v v1 ∧
    (∀ o c, U1 !! o = Some c → U !! o = Some c)) as (v1 & Ev1 & Hi1 & Hg1 & Hsub).
  { destruct (UtxoCache.IsCoinBaseTx tx); [injection E1 as <- <-; exists v; split_and!; try done; apply grows_refl|].
    destruct (spendInputs_ok _ _ _ _ _ _ _ Hi E1 Hl) as (v1 & Ev1 & Hi1 & Hg1). exists v1. split_and!; try done; try apply Hg1.
    intros o c. by apply (spendAll_lookup _ _ _ _ _ _ _ E1). }
  destruct (createOuts_ok hs (UtxoCache.IsCoinBaseTx tx) h (Wire.TxOuts tx) 0 v1 base U1 Hi1 Hlen) as (v2 & Ev2 & Hi2 & Hg2 & Hn); [lia|lia| |].
  { apply Forall_lookup. intros k t Hk. apply (Ho (Z.of_nat k) t); [lia|by rewrite Nat2Z.id]. }
  assert (AddTxOuts tx h v1 = Done (inl tt, v2)) as Ea by (unfold AddTxOuts; by rewrite (io_run_Done _ _ _ _ Hx)).
  exists v2. split; [|split; [done|split; [by apply (grows_trans _ v1)|]]].
  - unfold connectTransaction. destruct (UtxoCache.IsCoinBaseTx tx).
    + injection Ev1 as Es <-. rewrite (io_step _ _ _ _ _ Ea). by rewrite <-Es.
    + rewrite (io_step _ _ _ _ _ Ev1). by rewrite (io_step _ _ _ _ _ Ea).
  - intros o c Hc. unfold U2 in Hc. destruct (Hn o) as [Eq|]; [left|by right]. apply Hsub. by rewrite <-Eq.
Qed.

Lemma connectAll_ok txs d h v base U U' sp spent : vinv (λ _, False) v base U → Forall (UtxoCache.creates_ok d h) txs →
  loaded v U (concat (map (λ p, Wire.TxIns p.1) txs)) → UtxoCache.applyTxs txs h U sp = Some (U', spent) →
  ∃ v', connectAll txs.*1 h (Some (map UtxoCache.stxoOf sp)) v = Done (inl (Some (map UtxoCache.stxoOf spent)), v') ∧
    vinv (λ _, False) v' base U'.
Proof.
  intros Hi Hc. revert v U sp Hi. induction Hc as [|[tx hs] txs Hx _ IH]; intros v U sp Hi Hl; cbn [UtxoCache.applyTxs].
  { intros [= -> ->]. by exists v. }
  cbn [fst map concat] in Hl. destruct (if UtxoCache.IsCoinBaseTx tx then _ else _) as [[U1 sp1]|] eqn:E1; [|done]. intros E2.
  destruct (connectTransaction_ok tx hs d h v base U U1 sp sp1 Hi Hx) as (v1 & Ev & Hi1 & Hg & Hn); [|done|].
  { intros ti c Ht. apply Hl, elem_of_app. by left. }
  destruct (IH v1 _ sp1 Hi1) as (v' & E' & Hi'); [|done|].
  { intros ti c Ht Hcn. destruct (Hn _ _ Hcn) as [HU|?]; [|done]. apply Hg, (Hl ti c); [apply elem_of_app; by right|done]. }
  exists v'. split; [|done]. cbn [fmap list_fmap connectAll fst]. by rewrite (io_step _ _ _ _ _ Ev).
Qed.

(** C11 (refinement).  Connecting a block to a view that has loaded the outputs the
    block spends computes the same spent outputs as the reference, and turns a
    view of the UTXO set [U] into one of the set after the block, whose hash it
    records. *)
Theorem view_connect_refines (v : UtxoViewpoint) (base d U U' : coins) (header : Wire.BlockHeader) (hash : list byte)
    (txs : list (Wire.Tx * list byte)) (h : Z) (spent : list UtxoEntry) :
  vinv (λ _, False) v base U → Forall (UtxoCache.creates_ok d h) txs → Wire.BlockHash header = Done hash →
  loaded v U (concat (map (λ p, Wire.TxIns p.1) txs)) →
  UtxoCache.applyTxs txs h U [] = Some (U', spent) →
  ∃ v', connectTransactions {| Header := header; Transactions := txs.*1; BlockHeight := h |} (Some []) v =
      Done (inl (Some (map UtxoCache.stxoOf spent)), v') ∧ bestHash v' = hash ∧ vinv (λ _, False) v' base U'.
Proof.
  intros Hi Hc Hh Hl E. destruct (connectAll_ok txs d h v base U U' [] spent Hi Hc Hl E) as (v' & E' & Hi').
  exists {| entries := entries v'; bestHash := hash |}. split; [|split; [done|by destruct Hi']].
  unfold connectTransactions. cbn [Transactions BlockHeight Header]. cbn [map] in E'. rewrite (io_step _ _ _ _ _ E').
  by rewrite (io_run_Done _ _ _ _ Hh).
Qed.

End restore.


(** ** Concrete runs *)

#[local] Existing Instance Compress.toyKeys.
#[local] Existing Instance Compress.toyKeysOk.
#[local] Existing Instance UtxoCache.listOrder.
#[local] Existing Instance UtxoCache.listOrder_ok.
Import UtxoCache (cb1, t2, block1, block1_spent, best1, startState, outOf, txid).

Lemma block1_creates : Forall (UtxoCache.creates_ok ∅ 7) block1.
Proof. constructor; [apply UtxoCache.cb1_creates; left|]. constructor; [apply UtxoCache.cb1_creates; right; left|constructor]. Qed.

Lemma t2_inputs : Forall inputs_wf [t2].
Proof. constructor; [|done]. constructor; [|done]. split; [vm_compute; reflexivity|]. cbn. lia. Qed.

Lemma block1_shape : block_shape (cb1, txid cb1) [(t2, txid t2)].
Proof.
  split; [reflexivity|]. split; [|apply (bool_decide_unpack _); vm_compute; exact I].
  constructor; [|done]. vm_compute. reflexivity.
Qed.

(** The block whose second transaction spends the output of the first *)
Lemma disconnect_restores_witness : ∃ s v1 s1 v2 v3 s3,
  let block := {| Header := Wire.sampleHeader; Transactions := [cb1; t2]; BlockHeight := 7 |} in
  fetchInputUtxos block NewUtxoViewpoint s = Done (inl v1, s1) ∧
  disconnectTransactions (UtxoCache.utxoBucket s1) block (map UtxoCache.stxoOf block1_spent) v1 =
    Done (inl (map UtxoCache.stxoOf block1_spent), v2) ∧
  disconnectUtxos 5 best1 v2 s1 = Done (inl v3, s3) ∧ rows (UtxoCache.utxoBucket s3) ∅.
Proof.
  destruct UtxoCache.block1_applies as [U' Ea].
  destruct (UtxoCache.connect_ok block1 7 (startState 1000000 false ∅) ∅ ∅ U' (Some []) [] block1_spent
    (UtxoCache.start_ok 1000000 false ∅ ∅ rows_empty) block1_creates Ea eq_refl) as (s & _ & Hi).
  destruct (disconnect_restores s ∅ ∅ U' NewUtxoViewpoint Wire.sampleHeader (cb1, txid cb1) [(t2, txid t2)] 7 5 block1_spent best1)
    as (v1 & s1 & v2 & v3 & s3 & E1 & E2 & _ & E3 & Hr & _).
  - apply map_Forall_empty.
  - reflexivity.
  - exact block1_creates.
  - exact t2_inputs.
  - exact block1_shape.
  - exact Ea.
  - exact Hi.
  - apply NewUtxoViewpoint_ok.
  - exists s, v1, s1, v2, v3, s3. split; [exact E1|]. split; [exact E2|]. split; [exact E3|exact Hr].
Defined.

Lemma view_connect_refines_witness : ∃ v',
  connectTransactions {| Header := Wire.sampleHeader; Transactions := [cb1; t2]; BlockHeight := 7 |} (Some []) NewUtxoViewpoint =
    Done (inl (Some (map UtxoCache.stxoOf block1_spent)), v').
Proof.
  destruct UtxoCache.block1_applies as [U' Ea].
  destruct (Wire.BlockHash Wire.sampleHeader) as [hash| |] eqn:Eh; [|vm_compute in Eh; discriminate Eh..].
  destruct (view_connect_refines NewUtxoViewpoint ∅ ∅ ∅ U' Wire.sampleHeader hash block1 7 block1_spent) as (v' & E & _).
  - apply NewUtxoViewpoint_ok.
  - exact block1_creates.
  - exact Eh.
  - intros ti c _ Hc. by rewrite lookup_empty in Hc.
  - exact Ea.
  - exists v'. exact E.
Defined.

(** Connect the block of [cb1] at height 7 and disconnect it: the row of its output
    afterwards, what a lookup returns, and whether it can be spent. *)
Definition reorgRun : run (option (option UtxoEntry) * option (list (option UtxoEntry)) * bool) :=
  let block := {| Header := Wire.sampleHeader; Transactions := [cb1]; BlockHeight := 7 |} in
  r1 ← UtxoCache.connectTransactions [cb1] 7 None (startState 1000000 false ∅);
  r2 ← fetchInputUtxos block NewUtxoViewpoint r1.2;
  match r2 with
  | (inl v1, s2) =>
      r3 ← disconnectTransactions (UtxoCache.utxoBucket s2) block [] v1;
      r4 ← disconnectUtxos 5 best1 r3.2 s2;
      row ← dbFetchUtxoEntry (UtxoCache.utxoBucket r4.2) (outOf cb1);
      r5 ← UtxoCache.fetchEntries [outOf cb1] r4.2;
      r6 ← UtxoCache.addTxIn (UtxoCache.input (outOf cb1)) None r4.2;
      Done (match row with inl e => Some e | inr _ => None end, match r5.1 with inl l => Some l | inr _ => None end,
            match r3.1, r4.1, r6.1 with inl _, inl _, inl _ => true | _, _, _ => false end)
  | _ => Panic
  end.

(** After a block is disconnected the cache still offers its outputs:
    the full flush keeps entries of recent blocks cached, the view then deletes
    only the row, so the output of the disconnected block has no row but is
    looked up as unspent and can be spent. *)
Theorem disconnect_leaves_stale_coin :
  reorgRun = Done (Some None,
    Some [Some {| amount := 5000; pkScript := [z2b 0x51]; blockHeight := 7; packedFlags := tfCoinBase |}], true).
Proof. vm_compute. reflexivity. Qed.

(** Undo [t2] in a block at height 9 from a record without height: the output that
    [t2] spent, as restored. *)
Definition legacyRun : run (option UtxoEntry) :=
  let block := {| Header := Wire.sampleHeader; Transactions := [UtxoCache.simpleTx UtxoCache.nullOp 1; t2]; BlockHeight := 9 |} in
  r ← disconnectTransactions ∅ block [{| Amount := 5000; SpentScript := [z2b 0x51]; Height := 0; SpentCoinBase := true |}]
        NewUtxoViewpoint;
  Done (match r.1 with inl _ => LookupEntry r.2 (outOf cb1) | inr _ => None end).

(** A record of the old spend journal, which lacks the height, is not
    completed from the transaction that created the output: the code looks the
    spending transaction up, so the output is restored with the height of the
    disconnected block and without its coinbase flag. *)
Theorem legacy_record_wrong_height :
  legacyRun = Done (Some {| amount := 5000; pkScript := [z2b 0x51]; blockHeight := 9; packedFlags := tfModified |}).
Proof. vm_compute. reflexivity. Qed.

End UtxoView.
