(* ===== verification/Sanity.v ===== *)
(** * Sanity: checks of transactions and headers that need no chain

    Model of the context-free part of [blockchain/validate.go], of
    [blockchain/weight.go] and of the witness commitment of
    [blockchain/merkle.go].  A check returns the code of the rule error it
    reports, [None] when it passes.  The proof-of-work hash ([pow.BlockPoWHash],
    the yespower hash of the packages [pow] and [yespower]) is left abstract: it is the
    class [PowHash], of which nothing is assumed.
    Times are Unix seconds: wire headers carry nothing finer. *)

From S2P Require Import Prelude WorkMath Compress ChainHash Wire ChainIO Merkle Script UtxoSet UtxoCache UtxoView.

Module Sanity.
Import UtxoSet.
Import UtxoView (Block, Header, Transactions, BlockHeight, UtxoViewpoint, LookupEntry, WitnessScaleFactor, MaxBlockWeight).
Import UtxoCache (IsCoinBaseTx, isNullOutpoint).

Abbreviation OutPoint := Wire.OutPoint.

Inductive ErrorCode :=
  | ErrNoTxInputs | ErrNoTxOutputs | ErrTxTooBig | ErrBadTxOutValue | ErrDuplicateTxInputs
  | ErrBadCoinbaseScriptLen | ErrBadTxInput | ErrUnexpectedDifficulty | ErrHighHash | ErrTimeTooNew
  | ErrNoTransactions | ErrBlockTooBig | ErrFirstTxNotCoinbase | ErrMultipleCoinbases | ErrBadMerkleRoot
  | ErrDuplicateTx | ErrTooManySigOps | ErrMissingTxOut | ErrInvalidWitnessCommitment
  | ErrWitnessCommitmentMismatch | ErrMissingCoinbaseHeight | ErrBadCoinbaseHeight | ErrScriptNotCanonical.

#[export] Instance ErrorCode_eq : EqDecision ErrorCode.
Proof. solve_decision. Defined.

Abbreviation check := (run (option ErrorCode)).

Definition fail (e : ErrorCode) : check := Done (Some e).
Definition pass : check := Done None.

(** [if err := a; err != nil { return err }; b] *)
Definition andThen (a b : check) : check := r ← a; match r with Some e => fail e | None => b end.

Definition MaxBlockBaseSize : Z := 1000000.
Definition MaxBlockSigOpsCost : Z := 80000.
Definition MaxSatoshi : Z := 21000000 * 100000000.
Definition MinCoinbaseScriptLen : Z := 2.
Definition MaxCoinbaseScriptLen : Z := 100.
Definition MaxTimeOffsetSeconds : Z := 2 * 60 * 60 / 120.
Definition baseSubsidy : Z := 4294967296.
Definition serializedHeightVersion : Z := 2.
Definition LockTimeThreshold : Z := 500000000.

Definition ShouldHaveSerializedBlockHeight (header : Wire.BlockHeader) : bool := serializedHeightVersion <=? Wire.Version header.

(** ** Locks *)

Record SequenceLock := { Seconds : Z; LockHeight : Z }.

Definition SequenceLockActive (l : SequenceLock) (blockHeight medianTimePast : Z) : bool :=
  negb ((medianTimePast <=? Seconds l) || (blockHeight <=? LockHeight l)).

Definition IsFinalizedTransaction (tx : Wire.Tx) (blockHeight blockTime : Z) : bool :=
  let lockTime := Wire.LockTime tx in
  if lockTime =? 0 then true else
  let blockTimeOrHeight := if lockTime <? LockTimeThreshold then blockHeight else blockTime in
  if lockTime <? blockTimeOrHeight then true else
  forallb (fun ti => Wire.Sequence ti =? 2 ^ 32 - 1) (Wire.TxIns tx).

(** ** Subsidy *)

(** [baseSubsidy >> uint(height/interval)]: the division truncates, a shift by 64
    or more gives zero.  The interval is a field of the parameters. *)
Definition CalcBlockSubsidy (height interval : Z) : Z :=
  if interval =? 0 then baseSubsidy else
  Z.shiftr baseSubsidy (u64 (Z.quot height interval)).

(** The same in [chaincfg/sugar_params.go] *)
Definition SugarSubsidyCalculation (height : Z) : Z :=
  let halvings := Z.quot height 12500000 in
  if 31 <=? halvings then 0 else Z.shiftr 4294967296 (u64 halvings).

Definition SugarMaxMoney : Z := Z.shiftl 1 30.
Definition SugarSubsidyReductionInterval : Z := 12500000.

(** ** Transactions *)

Fixpoint checkOutputs (outs : list (Wire.TxOut (list byte))) (totalSatoshi : Z) : option ErrorCode :=
  match outs with
  | [] => None
  | txOut :: outs =>
      let satoshi := Wire.Value txOut in
      if satoshi <? 0 then Some ErrBadTxOutValue
      else if MaxSatoshi <? satoshi then Some ErrBadTxOutValue
      else
        let totalSatoshi := i64 (totalSatoshi + satoshi) in
        if totalSatoshi <? 0 then Some ErrBadTxOutValue
        else if MaxSatoshi <? totalSatoshi then Some ErrBadTxOutValue
        else checkOutputs outs totalSatoshi
  end.

Fixpoint duplicateInput (ins : list (Wire.TxIn (list byte))) (existing : gset OutPoint) : bool :=
  match ins with
  | [] => false
  | ti :: ins =>
      let o := Wire.PreviousOutPoint ti in
      if bool_decide (o ∈ existing) then true else duplicateInput ins ({[o]} ∪ existing)
  end.

Definition CheckTransactionSanity (tx : Wire.Tx) : option ErrorCode :=
  if zlen (Wire.TxIns tx) =? 0 then Some ErrNoTxInputs
  else if zlen (Wire.TxOuts tx) =? 0 then Some ErrNoTxOutputs
  else if MaxBlockBaseSize <? Wire.SerializeSizeStripped tx then Some ErrTxTooBig
  else match checkOutputs (Wire.TxOuts tx) 0 with
  | Some e => Some e
  | None =>
      if duplicateInput (Wire.TxIns tx) ∅ then Some ErrDuplicateTxInputs
      else if IsCoinBaseTx tx then
        let slen := match Wire.TxIns tx with ti :: _ => zlen (Wire.SignatureScript ti) | [] => 0 end in
        if (slen <? MinCoinbaseScriptLen) || (MaxCoinbaseScriptLen <? slen) then Some ErrBadCoinbaseScriptLen else None
      else if existsb (fun ti => isNullOutpoint (Wire.PreviousOutPoint ti)) (Wire.TxIns tx) then Some ErrBadTxInput
      else None
  end.

(** ** Signature operations and weight *)

(** [total += f(x)] over a slice; [int] has 64 bits. *)
Fixpoint sumOps {A} (f : A → run Z) (l : list A) (total : Z) : run Z :=
  match l with
  | [] => Done total
  | x :: l => n ← f x; sumOps f l (i64 (total + n))
  end.

Definition CountSigOps (tx : Wire.Tx) : run Z :=
  n ← sumOps (fun ti => Script.GetSigOpCount (Wire.SignatureScript ti)) (Wire.TxIns tx) 0;
  sumOps (fun txOut => Script.GetSigOpCount (Wire.PkScript txOut)) (Wire.TxOuts tx) n.

(** The output an input refers to, when it is there and unspent *)
Definition unspentEntry (view : UtxoViewpoint) (ti : Wire.TxIn (list byte)) : option UtxoEntry :=
  match LookupEntry view (Wire.PreviousOutPoint ti) with
  | Some e => if IsSpent e then None else Some e
  | None => None
  end.

Fixpoint countP2SH (view : UtxoViewpoint) (ins : list (Wire.TxIn (list byte))) (total : Z) : run (Z + ErrorCode) :=
  match ins with
  | [] => Done (inl total)
  | ti :: ins =>
      match unspentEntry view ti with
      | None => Done (inr ErrMissingTxOut)
      | Some e =>
          if negb (Script.isScriptHashScript (pkScript e)) then countP2SH view ins total
          else
            n ← Script.GetPreciseSigOpCount (Wire.SignatureScript ti) (pkScript e);
            let total' := i64 (total + n) in
            if total' <? total then Done (inr ErrTooManySigOps) else countP2SH view ins total'
      end
  end.

Definition CountP2SHSigOps (tx : Wire.Tx) (isCoinBaseTx : bool) (view : UtxoViewpoint) : run (Z + ErrorCode) :=
  if isCoinBaseTx then Done (inl 0) else countP2SH view (Wire.TxIns tx) 0.

Fixpoint countWitness (view : UtxoViewpoint) (ins : list (Wire.TxIn (list byte))) (total : Z) : run (Z + ErrorCode) :=
  match ins with
  | [] => Done (inl total)
  | ti :: ins =>
      match unspentEntry view ti with
      | None => Done (inr ErrMissingTxOut)
      | Some e =>
          n ← Script.GetWitnessSigOpCount (Wire.SignatureScript ti) (pkScript e) (Wire.witnessOf ti);
          countWitness view ins (i64 (total + n))
      end
  end.

(** An error of [CountP2SHSigOps] makes the cost zero. *)
Definition GetSigOpCost (tx : Wire.Tx) (isCoinBaseTx : bool) (view : UtxoViewpoint) (bip16 segWit : bool) :
    run (Z + ErrorCode) :=
  n ← CountSigOps tx;
  let numSigOps := i64 (n * WitnessScaleFactor) in
  r ← (if bip16 then
         p ← CountP2SHSigOps tx isCoinBaseTx view;
         Done (match p with
               | inr _ => None
               | inl p => Some (i64 (numSigOps + i64 (p * WitnessScaleFactor)))
               end)
       else Done (Some numSigOps));
  match r with
  | None => Done (inl 0)
  | Some numSigOps =>
      if segWit && negb isCoinBaseTx then countWitness view (Wire.TxIns tx) numSigOps else Done (inl numSigOps)
  end.

Definition blockSize (size : Wire.Tx → Z) (txs : list Wire.Tx) : Z :=
  foldl (fun n tx => n + size tx) (Wire.blockHeaderLen + Wire.VarIntSerializeSize (zlen txs)) txs.

Definition BlockSerializeSize (block : Block) : Z := blockSize Wire.SerializeSize (Transactions block).
Definition BlockSerializeSizeStripped (block : Block) : Z := blockSize Wire.SerializeSizeStripped (Transactions block).

Definition GetBlockWeight (block : Block) : Z :=
  i64 (BlockSerializeSizeStripped block * (WitnessScaleFactor - 1) + BlockSerializeSize block).

Definition GetTransactionWeight (tx : Wire.Tx) : Z :=
  i64 (Wire.SerializeSizeStripped tx * (WitnessScaleFactor - 1) + Wire.SerializeSize tx).

(** ** Witness commitment *)

Definition CoinbaseWitnessDataLen : Z := 32.
Definition CoinbaseWitnessPkScriptLength : Z := 38.
Definition WitnessMagicBytes : list byte := map z2b [0x6a; 0x24; 0xaa; 0x21; 0xa9; 0xed].

Definition HasPrefix (s prefix : list byte) : bool :=
  bool_decide (take (length prefix) s = prefix).

(** The outputs, last first *)
Fixpoint findCommitment (outs : list (Wire.TxOut (list byte))) : run (option (list byte)) :=
  match outs with
  | [] => Done None
  | txOut :: outs =>
      let pkScript := Wire.PkScript txOut in
      if (CoinbaseWitnessPkScriptLength <=? zlen pkScript) && HasPrefix pkScript WitnessMagicBytes then
        c ← slice pkScript (zlen WitnessMagicBytes) CoinbaseWitnessPkScriptLength; Done (Some c)
      else findCommitment outs
  end.

Definition ExtractWitnessCommitment (tx : Wire.Tx) : run (option (list byte)) :=
  if negb (IsCoinBaseTx tx) then Done None else findCommitment (rev (Wire.TxOuts tx)).

Definition ValidateWitnessCommitment (block : Block) : check :=
  match Transactions block with
  | [] => fail ErrNoTransactions
  | coinbaseTx :: _ =>
      match Wire.TxIns coinbaseTx with
      | [] => fail ErrNoTxInputs
      | txIn :: _ =>
          c ← ExtractWitnessCommitment coinbaseTx;
          match c with
          | None => pass
          | Some witnessCommitment =>
              match Wire.witnessOf txIn with
              | [witnessNonce] =>
                  if negb (zlen witnessNonce =? CoinbaseWitnessDataLen) then fail ErrInvalidWitnessCommitment else
                  witnessMerkleRoot ← Merkle.CalcMerkleRoot (Transactions block) true;
                  let witnessPreimage := gocopy (replicate 32 (z2b 0)) witnessMerkleRoot ++
                                         gocopy (replicate 32 (z2b 0)) witnessNonce in
                  if negb (bool_decide (ChainHash.DoubleHashB witnessPreimage = witnessCommitment))
                  then fail ErrWitnessCommitmentMismatch else pass
              | _ => pass
              end
          end
      end
  end.

(** ** Headers and blocks *)

Class PowHash := { BlockPoWHash : Wire.BlockHeader → list byte }.

Definition BFFastAdd : Z := 1.
Definition BFNoPoWCheck : Z := 2.
Definition hasFlag (flags f : Z) : bool := Z.land flags f =? f.

Section pow.
Context {P : PowHash}.

Definition checkProofOfWork (header : Wire.BlockHeader) (powLimit flags : Z) : check :=
  let target := WorkMath.CompactToBig (Wire.Bits header) in
  if target <=? 0 then fail ErrUnexpectedDifficulty
  else if powLimit <? target then fail ErrUnexpectedDifficulty
  else if hasFlag flags BFNoPoWCheck then pass
  else
    hashNum ← WorkMath.HashToBig (BlockPoWHash header);
    if target <? hashNum then fail ErrHighHash else pass.

(** [adjustedTime] is what the time source returns.  The precision of a timestamp
    in seconds needs no check. *)
Definition CheckBlockHeaderSanity (header : Wire.BlockHeader) (powLimit adjustedTime flags : Z) : check :=
  andThen (checkProofOfWork header powLimit flags)
    (if adjustedTime + MaxTimeOffsetSeconds <? Wire.Timestamp header then fail ErrTimeTooNew else pass).

Fixpoint firstError {A} (f : A → option ErrorCode) (l : list A) : option ErrorCode :=
  match l with
  | [] => None
  | x :: l => match f x with Some e => Some e | None => firstError f l end
  end.

Fixpoint duplicateHash (txs : list Wire.Tx) (existing : gset (list byte)) : run bool :=
  match txs with
  | [] => Done false
  | tx :: txs =>
      h ← Wire.TxHash tx;
      if bool_decide (h ∈ existing) then Done true else duplicateHash txs ({[h]} ∪ existing)
  end.

Fixpoint sigOpsExceeded (txs : list Wire.Tx) (totalSigOps : Z) : run bool :=
  match txs with
  | [] => Done false
  | tx :: txs =>
      n ← CountSigOps tx;
      let total' := i64 (totalSigOps + i64 (n * WitnessScaleFactor)) in
      if (total' <? totalSigOps) || (MaxBlockSigOpsCost <? total') then Done true else sigOpsExceeded txs total'
  end.

Definition checkBlockSanity (block : Block) (powLimit adjustedTime flags : Z) : check :=
  let txs := Transactions block in
  andThen (CheckBlockHeaderSanity (Header block) powLimit adjustedTime flags)
  (if zlen txs =? 0 then fail ErrNoTransactions
   else if MaxBlockBaseSize <? zlen txs then fail ErrBlockTooBig
   else if MaxBlockBaseSize <? BlockSerializeSizeStripped block then fail ErrBlockTooBig
   else
     first ← index txs 0;
     if negb (IsCoinBaseTx first) then fail ErrFirstTxNotCoinbase else
     rest ← slice txs 1 (zlen txs);
     if existsb IsCoinBaseTx rest then fail ErrMultipleCoinbases else
     match firstError CheckTransactionSanity txs with
     | Some e => fail e
     | None =>
         calcMerkleRoot ← Merkle.CalcMerkleRoot txs false;
         if negb (bool_decide (Wire.MerkleRoot (Header block) = calcMerkleRoot)) then fail ErrBadMerkleRoot else
         dup ← duplicateHash txs ∅;
         if dup : bool then fail ErrDuplicateTx else
         exceeded ← sigOpsExceeded txs 0;
         if exceeded : bool then fail ErrTooManySigOps else pass
     end).

End pow.


(** ** Transactions *)

Definition values (outs : list (Wire.TxOut (list byte))) : Z := foldr (fun t n => Wire.Value t + n) 0 outs.

Lemma checkOutputs_spec outs total : 0 ≤ total ≤ MaxSatoshi →
  checkOutputs outs total = None ↔
    Forall (fun t => 0 ≤ Wire.Value t ≤ MaxSatoshi) outs ∧ total + values outs ≤ MaxSatoshi.
Proof.
  revert total. induction outs as [|t outs IH]; intros total Ht; cbn [checkOutputs values foldr]; [split; [split; [done|lia]|done]|].
  fold (values outs). assert (MaxSatoshi = 2100000000000000) as Em by done.
  destruct (Z.ltb_spec (Wire.Value t) 0); [split; [done|]; intros [Hf _]; inversion Hf; lia|].
  destruct (Z.ltb_spec MaxSatoshi (Wire.Value t)); [split; [done|]; intros [Hf _]; inversion Hf; lia|].
  rewrite swrap_small by zlia. destruct (Z.ltb_spec (total + Wire.Value t) 0); [lia|].
  assert (∀ l, Forall (fun t => 0 ≤ Wire.Value t ≤ MaxSatoshi) l → 0 ≤ values l) as Hpos.
  { clear. intros l. induction 1 as [|x l Hx _ IH]; [done|]. change (values (x :: l)) with (Wire.Value x + values l). lia. }
  destruct (Z.ltb_spec MaxSatoshi (total + Wire.Value t)).
  - split; [done|]. intros [Hf Hs]. apply Forall_cons in Hf as [Hx Hf]. specialize (Hpos _ Hf). lia.
  - rewrite IH by lia. rewrite Forall_cons. split; intros [Hf Hs]; [split; [split; [lia|done]|lia]|].
    split; [by apply Hf|lia].
Qed.

Lemma duplicateInput_spec ins existing : duplicateInput ins existing = false ↔
  NoDup (map Wire.PreviousOutPoint ins) ∧ ∀ ti, ti ∈ ins → Wire.PreviousOutPoint ti ∉ existing.
Proof.
  revert existing. induction ins as [|ti ins IH]; intros existing; cbn [duplicateInput map].
  { split; [|done]. split; [constructor|]. by intros ti ?%elem_of_nil. }
  destruct (bool_decide_reflect (Wire.PreviousOutPoint ti ∈ existing)) as [Hi|Hi].
  { split; [done|]. intros [_ H]. exfalso. apply (H ti); [left|done]. }
  rewrite IH, NoDup_cons. split.
  - intros [Hn Ho]. split; [split; [|done]|].
    + intros (t' & E & Ht')%list_elem_of_fmap. apply (Ho t' Ht'). apply elem_of_union_l. rewrite <-E. by apply elem_of_singleton.
    + intros t [->|Ht]%elem_of_cons; [done|]. intros Hx. apply (Ho t Ht). by apply elem_of_union_r.
  - intros [[Hn Hd] Ho]. split; [done|]. intros t Ht [E%elem_of_singleton|Hx]%elem_of_union.
    + apply Hn. rewrite <-E. by apply list_elem_of_fmap_2.
    + apply (Ho t); [by right|done].
Qed.

(** What the rules ask of a transaction on its own *)
Record sane (tx : Wire.Tx) : Prop := {
  sane_ins : Wire.TxIns tx ≠ [];
  sane_outs : Wire.TxOuts tx ≠ [];
  sane_size : Wire.SerializeSizeStripped tx ≤ MaxBlockBaseSize;
  sane_values : Forall (fun t => 0 ≤ Wire.Value t ≤ MaxSatoshi) (Wire.TxOuts tx);
  sane_total : values (Wire.TxOuts tx) ≤ MaxSatoshi;
  sane_distinct : NoDup (map Wire.PreviousOutPoint (Wire.TxIns tx));
  sane_coinbase : ∀ ti, IsCoinBaseTx tx = true → Wire.TxIns tx = [ti] → 2 ≤ zlen (Wire.SignatureScript ti) ≤ 100;
  sane_inputs : IsCoinBaseTx tx = false → ∀ ti, ti ∈ Wire.TxIns tx → isNullOutpoint (Wire.PreviousOutPoint ti) = false;
}.

Lemma zlen_eq0 {A} (l : list A) : (zlen l =? 0) = true ↔ l = [].
Proof. unfold zlen. destruct l; cbn [length]; [done|]. rewrite Z.eqb_eq. split; [lia|done]. Qed.

Lemma tx_sanity_iff (tx : Wire.Tx) : CheckTransactionSanity tx = None ↔ sane tx.
Proof.
  unfold CheckTransactionSanity. destruct (zlen (Wire.TxIns tx) =? 0) eqn:E1.
  { apply zlen_eq0 in E1. split; [done|]. intros H. by destruct (sane_ins _ H). }
  destruct (zlen (Wire.TxOuts tx) =? 0) eqn:E2.
  { apply zlen_eq0 in E2. split; [done|]. intros H. by destruct (sane_outs _ H). }
  destruct (Z.ltb_spec MaxBlockBaseSize (Wire.SerializeSizeStripped tx)).
  { split; [done|]. intros H'. pose proof (sane_size _ H'). lia. }
  pose proof (checkOutputs_spec (Wire.TxOuts tx) 0 ltac:(done)) as Ho. rewrite Z.add_0_l in Ho.
  destruct (checkOutputs (Wire.TxOuts tx) 0).
  { split; [done|]. intros H'. discriminate (proj2 Ho (conj (sane_values _ H') (sane_total _ H'))). }
  destruct (proj1 Ho eq_refl) as [Hv Ht]. pose proof (duplicateInput_spec (Wire.TxIns tx) ∅) as Hd.
  destruct (duplicateInput (Wire.TxIns tx) ∅).
  { split; [done|]. intros H'. discriminate (proj2 Hd). split; [apply H'|]. intros ti _. apply not_elem_of_empty. }
  destruct (proj1 Hd eq_refl) as [Hn _].
  assert (Wire.TxIns tx ≠ [] ∧ Wire.TxOuts tx ≠ []) as [H1 H2] by (by rewrite <-!zlen_eq0, E1, E2).
  destruct (IsCoinBaseTx tx) eqn:Ec.
  - destruct (Wire.TxIns tx) as [|ti [|ti' ins]] eqn:Ei; [done| |unfold IsCoinBaseTx in Ec; by rewrite Ei in Ec].
    unfold MinCoinbaseScriptLen, MaxCoinbaseScriptLen. destruct (_ || _) eqn:El.
    + split; [done|]. intros H'. pose proof (sane_coinbase _ H' ti Ec Ei). rewrite orb_true_iff, !Z.ltb_lt in El. lia.
    + rewrite orb_false_iff, !Z.ltb_ge in El. split; [|done]. intros _. split; try done; [by rewrite Ei..| |].
      * intros t _ Et. rewrite Ei in Et. injection Et as <-. lia.
      * congruence.
  - destruct (existsb _ _) eqn:Ex.
    + split; [done|]. intros H'. apply existsb_exists in Ex as (ti & Hti & Hnull).
      by rewrite (sane_inputs _ H' Ec ti ltac:(by apply list_elem_of_In)) in Hnull.
    + split; [|done]. intros _. split; try done; [congruence|]. intros _ ti Hti. destruct (isNullOutpoint _) eqn:En; [|done].
      assert (existsb (fun ti => isNullOutpoint (Wire.PreviousOutPoint ti)) (Wire.TxIns tx) = true) as Hc; [|congruence].
      apply existsb_exists. exists ti. split; [by apply list_elem_of_In|done].
Qed.

(** [CheckTransactionSanity] accepts exactly the transactions
    with inputs and outputs, at most a million bytes without witness, output values
    and their sum between zero and the maximum (computed without overflow), distinct
    inputs, and a coinbase script of 2 to 100 bytes or, in other transactions, no
    null input. *)
Theorem tx_sanity_spec (tx : Wire.Tx) : CheckTransactionSanity tx = None ↔ sane tx.
Proof. apply tx_sanity_iff. Qed.


(** ** Blocks *)

Lemma andThen_pass a b : andThen a b = pass → a = pass ∧ b = pass.
Proof. unfold andThen, pass, fail. destruct a as [[e|]| |]; done. Qed.

Lemma firstError_spec {A} (f : A → option ErrorCode) l : firstError f l = None ↔ Forall (fun x => f x = None) l.
Proof.
  induction l as [|x l IH]; cbn [firstError]; [done|]. rewrite Forall_cons. destruct (f x) as [e|].
  - split; [done|]. by intros [? _].
  - rewrite IH. tauto.
Qed.

Lemma duplicateHash_spec txs existing : duplicateHash txs existing = Done false →
  ∃ hs, UtxoView.txHashes txs = Done hs ∧ NoDup hs ∧ ∀ h, h ∈ hs → h ∉ existing.
Proof.
  revert existing. induction txs as [|tx txs IH]; intros existing; cbn [duplicateHash UtxoView.txHashes].
  { intros _. exists []. split; [done|]. split; [constructor|]. by intros h ?%elem_of_nil. }
  destruct (Wire.TxHash tx) as [h| |]; [|done..]. cbn [mbind run_bind]. destruct (bool_decide_reflect (h ∈ existing)); [done|].
  intros (hs & -> & Hn & Ho)%IH. exists (h :: hs). split; [done|]. split.
  - apply NoDup_cons. split; [|done]. intros Hh. apply (Ho h Hh). apply elem_of_union_l. by apply elem_of_singleton.
  - intros x [->|Hx]%elem_of_cons; [done|]. intros He. apply (Ho x Hx). by apply elem_of_union_r.
Qed.

Section blocks.
Context {P : PowHash}.

(** C40 (safety).  A block that passes [checkBlockSanity] has the shape the UTXO code
    relies on: a proof of work within the limit and a timestamp at most a minute
    ahead; a coinbase first and none after it; distinct transaction hashes; only
    sane transactions; and a header that commits to the transactions. *)
Theorem block_sanity_sound (block : Block) (powLimit adjustedTime : Z) :
  checkBlockSanity block powLimit adjustedTime 0 = pass →
  let target := WorkMath.CompactToBig (Wire.Bits (Header block)) in
  (0 < target ≤ powLimit ∧ ∃ n, WorkMath.HashToBig (BlockPoWHash (Header block)) = Done n ∧ n ≤ target) ∧
  Wire.Timestamp (Header block) ≤ adjustedTime + 60 ∧
  ∃ cb rest hs, Transactions block = cb :: rest ∧ UtxoView.txHashes (cb :: rest) = Done hs ∧
    IsCoinBaseTx cb = true ∧ Forall (fun tx => IsCoinBaseTx tx = false) rest ∧ NoDup hs ∧ Forall sane (cb :: rest) ∧
    Merkle.CalcMerkleRoot (cb :: rest) false = Done (Wire.MerkleRoot (Header block)).
Proof.
  intros [Hh Hb]%andThen_pass target. unfold CheckBlockHeaderSanity in Hh. apply andThen_pass in Hh as [Hpow Ht]. split.
  { unfold checkProofOfWork in Hpow. fold target in Hpow. destruct (Z.leb_spec target 0); [done|].
    destruct (Z.ltb_spec powLimit target); [done|]. split; [lia|]. change (hasFlag 0 BFNoPoWCheck) with false in Hpow. cbn iota in Hpow.
    destruct (WorkMath.HashToBig _) as [n| |]; [|done..]. cbn [mbind run_bind] in Hpow. destruct (Z.ltb_spec target n); [done|]. by exists n. }
  split.
  { change MaxTimeOffsetSeconds with 60 in Ht. destruct (Z.ltb_spec (adjustedTime + 60) (Wire.Timestamp (Header block))); [done|lia]. }
  destruct (Transactions block) as [|cb rest]; [done|]. rewrite zlen_cons in Hb. pose proof (zlen_nonneg rest).
  destruct (Z.eqb_spec (1 + zlen rest) 0); [lia|]. do 2 (destruct (MaxBlockBaseSize <? _); [done|]).
  change (index (cb :: rest) 0) with (@Done Wire.Tx cb) in Hb. cbn [mbind run_bind] in Hb.
  destruct (IsCoinBaseTx cb) eqn:Ec; [|done]. cbn [negb] in Hb. rewrite Compress.slice_tail1 in Hb by (by rewrite ?zlen_cons). cbn [mbind run_bind] in Hb.
  destruct (existsb IsCoinBaseTx rest) eqn:Ex; [done|]. destruct (firstError _ _) eqn:Es; [done|].
  destruct (Merkle.CalcMerkleRoot _ _) as [root| |] eqn:Em; [|done..]. cbn [mbind run_bind] in Hb.
  destruct (bool_decide_reflect (Wire.MerkleRoot (Header block) = root)) as [<-|]; [|done]. cbn [negb] in Hb.
  destruct (duplicateHash _ _) as [[]| |] eqn:Ed; [done| |done..]. apply duplicateHash_spec in Ed as (hs & Eh & Hn & _).
  exists cb, rest, hs. split_and!; try done.
  - apply Forall_forall. intros tx Htx. destruct (IsCoinBaseTx tx) eqn:E; [|done]. rewrite <-Ex. symmetry.
    apply existsb_exists. exists tx. split; [by apply list_elem_of_In|done].
  - apply firstError_spec in Es. eapply Forall_impl; [exact Es|]. intros tx. apply tx_sanity_iff.
Qed.

End blocks.

(** ** Locks and subsidy *)

(** C0 (invariant).  A transaction that is final at a height and time stays final
    at every later height and time. *)
Theorem finalized_stays (tx : Wire.Tx) (h t h' t' : Z) :
  IsFinalizedTransaction tx h t = true → h ≤ h' → t ≤ t' → IsFinalizedTransaction tx h' t' = true.
Proof.
  unfold IsFinalizedTransaction. intros H Hh Ht. destruct (_ =? 0); [done|]. destruct (Wire.LockTime tx <? LockTimeThreshold).
  - destruct (Z.ltb_spec (Wire.LockTime tx) h), (Z.ltb_spec (Wire.LockTime tx) h'); [done|lia|done|done].
  - destruct (Z.ltb_spec (Wire.LockTime tx) t), (Z.ltb_spec (Wire.LockTime tx) t'); [done|lia|done|done].
Qed.

(** Coins issued below height [n], first to last *)
Fixpoint issued (interval : Z) (n : nat) : Z :=
  match n with
  | O => 0
  | S n => issued interval n + CalcBlockSubsidy (Z.of_nat n) interval
  end.

Lemma subsidy_value h i : 0 < i → 0 ≤ h < 2 ^ 31 → CalcBlockSubsidy h i = 2 ^ 32 / 2 ^ (h / i).
Proof.
  intros Hi Hh. unfold CalcBlockSubsidy, baseSubsidy. destruct (Z.eqb_spec i 0); [lia|].
  rewrite Z.quot_div_nonneg by lia. assert (0 ≤ h / i ≤ h) by (split; [apply Z.div_pos; lia|apply Z.div_le_upper_bound; nia]).
  rewrite uwrap_small by zlia. by rewrite Z.shiftr_div_pow2 by lia.
Qed.

Lemma pow_succ_q q : 0 ≤ q → 2 ^ (q + 1) = 2 * 2 ^ q.
Proof. intros Hq. rewrite Z.pow_add_r by lia. lia. Qed.

Lemma issued_bound i n : 0 < i → Z.of_nat n ≤ 2 ^ 31 →
  let q := Z.of_nat n / i in issued i n * 2 ^ q ≤ 2 ^ 33 * i * (2 ^ q - 1) + (Z.of_nat n mod i) * 2 ^ 32.
Proof.
  intros Hi. induction n as [|n IH]; intros Hn.
  { cbn [issued]. change (Z.of_nat 0) with 0. rewrite Zdiv_0_l, Zmod_0_l. cbn zeta. rewrite Z.pow_0_r. lia. }
  specialize (IH ltac:(lia)). cbn zeta in *. cbn [issued]. rewrite subsidy_value by lia.
  set (z := Z.of_nat n) in *. pose proof (Z.div_mod z i ltac:(lia)) as Hz. pose proof (Z.mod_pos_bound z i Hi) as Hr.
  set (q := z / i) in *. set (r := z mod i) in *. assert (0 ≤ q) as Hq by (apply Z.div_pos; lia).
  assert (0 < 2 ^ q) by (apply Z.pow_pos_nonneg; lia).
  pose proof (Z.mul_div_le (2 ^ 32) (2 ^ q) ltac:(lia)) as Hs. set (s := 2 ^ 32 / 2 ^ q) in *.
  rewrite Nat2Z.inj_succ. unfold Z.succ. fold z. destruct (decide (r + 1 < i)).
  - rewrite <-(Z.div_unique (z + 1) i q (r + 1)), <-(Z.mod_unique (z + 1) i q (r + 1)) by lia. nia.
  - assert (r + 1 = i) by lia.
    rewrite <-(Z.div_unique (z + 1) i (q + 1) 0), <-(Z.mod_unique (z + 1) i (q + 1) 0) by lia. rewrite pow_succ_q by done. nia.
Qed.

(** The subsidy starts at [2^32], never grows, and is halved at every
    multiple of the interval; all the coins ever issued are fewer than twice the
    initial subsidy times the interval. *)
Theorem subsidy_schedule (interval : Z) :
  0 < interval →
  (∀ h, 0 ≤ h < interval → h < 2 ^ 31 → CalcBlockSubsidy h interval = 2 ^ 32) ∧
  (∀ h, 0 ≤ h → h + interval < 2 ^ 31 → CalcBlockSubsidy (h + interval) interval = CalcBlockSubsidy h interval / 2) ∧
  (∀ h h', 0 ≤ h ≤ h' → h' < 2 ^ 31 → 0 ≤ CalcBlockSubsidy h' interval ≤ CalcBlockSubsidy h interval) ∧
  (∀ n, Z.of_nat n ≤ 2 ^ 31 → issued interval n ≤ 2 * 2 ^ 32 * interval).
Proof.
  intros Hi. split; [|split; [|split]].
  - intros h Hh Hb. rewrite subsidy_value by lia. rewrite (Z.div_small h interval) by lia. done.
  - intros h Hh Hb. rewrite !subsidy_value by lia.
    replace (h + interval) with (h + 1 * interval) by lia. rewrite Z.div_add by lia.
    assert (0 ≤ h / interval) by (apply Z.div_pos; lia). rewrite Z.pow_add_r, Z.pow_1_r by lia. rewrite Z.div_div; [done|nia|lia].
  - intros h h' Hh Hb. rewrite !subsidy_value by lia.
    assert (0 ≤ h / interval ≤ h' / interval) by (split; [apply Z.div_pos; lia|by apply Z.div_le_mono; lia]).
    assert (0 < 2 ^ (h / interval)) by (apply Z.pow_pos_nonneg; lia).
    assert (0 < 2 ^ (h' / interval)) by (apply Z.pow_pos_nonneg; lia). split; [apply Z.div_pos; lia|].
    apply Z.div_le_compat_l; [lia|]. split; [done|]. apply Z.pow_le_mono_r; lia.
  - intros n Hn. pose proof (issued_bound interval n Hi Hn) as Hb. cbn zeta in Hb.
    pose proof (Z.mod_pos_bound (Z.of_nat n) interval Hi). assert (0 ≤ Z.of_nat n / interval) by (apply Z.div_pos; lia).
    assert (0 < 2 ^ (Z.of_nat n / interval)) by (apply Z.pow_pos_nonneg; lia).
    apply (Z.mul_le_mono_pos_r _ _ (2 ^ (Z.of_nat n / interval))); [done|]. nia.
Qed.

Lemma issued_first i n : 0 < i → Z.of_nat n ≤ i → i < 2 ^ 31 → issued i n = Z.of_nat n * 2 ^ 32.
Proof.
  intros Hi. induction n as [|n IH]; intros Hn Hb; [done|]. cbn [issued]. rewrite IH, subsidy_value, (Z.div_small (Z.of_nat n) i) by lia. change (2 ^ 32 / 2 ^ 0) with (2 ^ 32). lia.
Qed.

(** The maximum amount is that of Bitcoin while the subsidy is that of
    Sugarchain: the coins of the first half million blocks already exceed it, and a
    transaction that moves more than the maximum, which the supply allows, is
    rejected. *)
Theorem supply_exceeds_max :
  MaxSatoshi < issued SugarSubsidyReductionInterval (Z.to_nat 500000) ∧
  ∀ tx, MaxSatoshi < values (Wire.TxOuts tx) → CheckTransactionSanity tx ≠ None.
Proof.
  split.
  - rewrite issued_first; [|done|rewrite Z2Nat.id; done|done]. rewrite Z2Nat.id by lia. done.
  - intros tx Hv H%tx_sanity_iff. pose proof (sane_total _ H). lia.
Qed.

(** C0 (equivalence).  The subsidy of the network parameters is the one that block
    validation uses, up to height 387499999; after 31 halvings the copy gives
    nothing where validation still allows two satoshis. *)
Theorem subsidy_copies_agree :
  (∀ h, 0 ≤ h < 387500000 → SugarSubsidyCalculation h = CalcBlockSubsidy h SugarSubsidyReductionInterval) ∧
  SugarSubsidyCalculation 387500000 = 0 ∧ CalcBlockSubsidy 387500000 SugarSubsidyReductionInterval = 2.
Proof.
  split; [|done]. intros h Hh. unfold SugarSubsidyCalculation, CalcBlockSubsidy, SugarSubsidyReductionInterval.
  destruct (Z.leb_spec 31 (Z.quot h 12500000)) as [H31|]; [|done].
  rewrite Z.quot_div_nonneg in H31 by lia. assert (h / 12500000 < 31) by (apply Z.div_lt_upper_bound; lia). lia.
Qed.

(** ** Concrete runs *)

Section runs.
#[local] Instance zeroPow : PowHash := {| BlockPoWHash _ := replicate 32 (z2b 0) |}.

Definition soloCoinbase : Wire.Tx :=
  {| Wire.TxVersion := 1;
     Wire.TxIns := [{| Wire.PreviousOutPoint := UtxoCache.nullOp; Wire.SignatureScript := [z2b 1; z2b 7]; Wire.Witness := None;
                       Wire.Sequence := 2 ^ 32 - 1 |}];
     Wire.TxOuts := [{| Wire.Value := 5000; Wire.PkScript := [z2b 0x51] |}]; Wire.LockTime := 0 |}.

Definition soloBlock : Block :=
  {| Header := {| Wire.Version := 4; Wire.PrevBlock := replicate 32 (z2b 0); Wire.MerkleRoot := UtxoCache.txid soloCoinbase;
                  Wire.Timestamp := 1565881235; Wire.Bits := 0x1f3fffff; Wire.Nonce := 0 |};
     Transactions := [soloCoinbase]; BlockHeight := 7 |}.

Lemma block_sanity_sound_witness :
  checkBlockSanity soloBlock (WorkMath.CompactToBig 0x1f3fffff) 1565881235 0 = pass ∧
  Merkle.CalcMerkleRoot (Transactions soloBlock) false = Done (Wire.MerkleRoot (Header soloBlock)).
Proof.
  assert (checkBlockSanity soloBlock (WorkMath.CompactToBig 0x1f3fffff) 1565881235 0 = pass) as E by (vm_compute; reflexivity).
  split; [exact E|]. destruct (block_sanity_sound soloBlock _ _ E) as (_ & _ & cb & rest & hs & Et & _ & _ & _ & _ & _ & Em).
  rewrite <-Et in Em. exact Em.
Defined.

Lemma finalized_stays_witness :
  IsFinalizedTransaction (UtxoCache.simpleTx UtxoCache.nullOp 5) 10 0 = true ∧
  IsFinalizedTransaction (UtxoCache.simpleTx UtxoCache.nullOp 5) 11 20 = true.
Proof.
  assert (IsFinalizedTransaction (UtxoCache.simpleTx UtxoCache.nullOp 5) 10 0 = true) as E by reflexivity.
  split; [exact E|]. apply (finalized_stays _ 10 0 11 20 E); lia.
Defined.

Lemma subsidy_schedule_witness :
  CalcBlockSubsidy 12500000 SugarSubsidyReductionInterval = 2 ^ 31 ∧
  issued SugarSubsidyReductionInterval 100 ≤ 2 * 2 ^ 32 * SugarSubsidyReductionInterval.
Proof.
  destruct (subsidy_schedule SugarSubsidyReductionInterval ltac:(reflexivity)) as (_ & H & _ & Hs). split.
  - exact (H 0 ltac:(lia) ltac:(reflexivity)).
  - apply Hs. lia.
Defined.

End runs.

End Sanity.
