(* ===== verification/Connect.v ===== *)
(** * Connect: checks of a block against the UTXO set

    Model of the part of [blockchain/validate.go] that validates a block as the
    successor of a node: [bip0030CheckNeeded], [checkBIP0030],
    [CheckTransactionInputs] and [checkConnectBlock], and of the sequence locks of
    [blockchain/chain.go].  The state is the chain (header window, threshold
    caches), the UTXO cache with its database, and the view.  Script execution
    ([checkBlockScripts]) is a parameter (class [ScriptRunner]): it returns an error
    or not, given the block, the view and the flags. *)

From S2P Require Import Prelude WorkMath Compress ChainHash Wire BlockNode ChainView ChainIO ColdRead Difficulty Threshold.
From S2P Require Import Merkle Script UtxoSet UtxoCache UtxoView Sanity.

Module Connect.
Import UtxoSet Sanity.
Import UtxoView (Block, Header, Transactions, BlockHeight, UtxoViewpoint, LookupEntry, entries, bestHash).
Import UtxoCache (IsCoinBaseTx).
Import BlockNode (loc, heap, blockNode, deref, height, hash, parent, timestamp).
Import Threshold (ThresholdActive).
#[local] Existing Instance Threshold.ThresholdState_eq_dec.

(** The fields of [chaincfg.Params] used here, and the checkpoints of the chain *)
Record Params := {
  thresholds : Threshold.Params;
  GenesisHash : list byte;
  BIP0034Height : Z;
  BIP0034Hash : option (list byte);
  BIP0065Height : Z;
  BIP0066Height : Z;
  CoinbaseMaturity : Z;
  SubsidyReductionInterval : Z;
  checkpoints : list (Z * list byte);
}.

Record state := {
  chain_ : Threshold.chain;
  utxos : UtxoCache.state;
  view : UtxoViewpoint;
}.

Definition set_chain (c : Threshold.chain) (s : state) : state := {| chain_ := c; utxos := utxos s; view := view s |}.
Definition set_utxos (u : UtxoCache.state) (s : state) : state := {| chain_ := chain_ s; utxos := u; view := view s |}.
Definition set_view (v : UtxoViewpoint) (s : state) : state := {| chain_ := chain_ s; utxos := utxos s; view := v |}.

Inductive connectError :=
  | RuleError (e : ErrorCode)
  | ErrImmatureSpend | ErrSpendTooHigh | ErrBadFees | ErrBadCoinbaseValue | ErrOverwriteTx | ErrUnfinalizedTx
  | InconsistentView
  | ChainError (e : Threshold.thresholdError)
  | ViewError (e : UtxoView.viewError)
  | CacheError (e : UtxoCache.cacheError).

Abbreviation M := (io state connectError).

Definition get_ : M state := fun s => Done (inl s, s).

Definition inChain {A} (m : Threshold.M A) : M A := fun s =>
  r ← m (chain_ s); Done (match r.1 with inl a => inl a | inr e => inr (ChainError e) end, set_chain r.2 s).

Definition inView {A} (m : UtxoView.M A) : M A := fun s =>
  r ← m (view s); Done (match r.1 with inl a => inl a | inr e => inr (ViewError e) end, set_view r.2 s).

(** Loading outputs into the view *)
Definition fetch (m : UtxoViewpoint → UtxoCache.state → run ((UtxoViewpoint + UtxoCache.cacheError) * UtxoCache.state)) :
    M unit := fun s =>
  r ← m (view s) (utxos s);
  Done (match r.1 with
        | inl v => (inl tt, set_view v (set_utxos r.2 s))
        | inr e => (inr (CacheError e), set_utxos r.2 s)
        end).

Definition rule {A} (r : A + ErrorCode) : M A :=
  match r with inl a => mret a | inr e => io_fail (RuleError e) end.

Definition nodeHeap : M heap := fun s => Done (inl (ColdRead.heap_ (Threshold.bc (chain_ s))), s).

(** ** BIP 30 *)

Definition bip34ReenableBIP30Height : Z := 1983702.

(** [newHashFromStr]: nil when the string is not a hash, which these are. *)
Definition newHashFromStr (s : string) : run (option (list byte)) :=
  r ← ChainHash.NewHashFromStr (gostring s); Done (match r with inl h => Some h | inr _ => None end).

Definition block91842Hash : run (option (list byte)) :=
  newHashFromStr "00000000000a4d0a398161ffc163c503763b1f4360639393e0e4c8e300e0caec".
Definition block91880Hash : run (option (list byte)) :=
  newHashFromStr "00000000000743f190a18c5577a3c2d2a1f610ae9601ac046a38084ccb7cd721".

Definition isBIP0030Node (nd : blockNode) : run bool :=
  h1 ← block91842Hash;
  h2 ← block91880Hash;
  Done ((height nd =? 91842) && bool_decide (Some (hash nd) = h1) ||
        (height nd =? 91880) && bool_decide (Some (hash nd) = h2)).

Definition bip0030CheckNeeded (h : heap) (nd : blockNode) (p : Params) : run bool :=
  special ← isBIP0030Node nd;
  if special : bool then Done false else
  if (BIP0034Height p <? height nd) && (height nd <? bip34ReenableBIP30Height) then
    match BIP0034Hash p, parent nd with
    | Some want, Some par =>
        a ← BlockNode.Ancestor h par (BIP0034Height p);
        match a with
        | None => Done true
        | Some a => an ← deref h a; Done (negb (bool_decide (hash an = want)))
        end
    | _, _ => Done true
    end
  else Done true.

(** Every output of the block *)
Fixpoint blockOutputs (txs : list Wire.Tx) : run (list Wire.OutPoint) :=
  match txs with
  | [] => Done []
  | tx :: txs =>
      hs ← Wire.TxHash tx;
      rest ← blockOutputs txs;
      Done (imap (fun i _ => {| Wire.Hash := hs; Wire.Index := u32 (Z.of_nat i) |}) (Wire.TxOuts tx) ++ rest)
  end.

Section checks.
Context {K : Compress.SecKeys}.

Definition checkBIP0030 (block : Block) : M unit :=
  ops ← io_run (blockOutputs (Transactions block));
  _ ← fetch (UtxoView.fetchUtxos ops);
  s ← get_;
  if existsb (fun o => match LookupEntry (view s) o with Some e => negb (IsSpent e) | None => false end) ops
  then io_fail ErrOverwriteTx else mret tt.

(** ** Inputs *)

Fixpoint sumInputs (ins : list (Wire.TxIn (list byte))) (txHeight maturity totalSatoshiIn : Z) (v : UtxoViewpoint) :
    Z + connectError :=
  match ins with
  | [] => inl totalSatoshiIn
  | ti :: ins =>
      match unspentEntry v ti with
      | None => inr (RuleError ErrMissingTxOut)
      | Some e =>
          if IsCoinBase e && (i32 (txHeight - blockHeight e) <? i32 maturity) then inr ErrImmatureSpend
          else if amount e <? 0 then inr (RuleError ErrBadTxOutValue)
          else if MaxSatoshi <? amount e then inr (RuleError ErrBadTxOutValue)
          else
            let total := i64 (totalSatoshiIn + amount e) in
            if (total <? totalSatoshiIn) || (MaxSatoshi <? total) then inr (RuleError ErrBadTxOutValue)
            else sumInputs ins txHeight maturity total v
      end
  end.

Definition totalOut (tx : Wire.Tx) : Z := foldl (fun n t => i64 (n + Wire.Value t)) 0 (Wire.TxOuts tx).

Definition CheckTransactionInputs (tx : Wire.Tx) (txHeight : Z) (v : UtxoViewpoint) (p : Params) : Z + connectError :=
  if IsCoinBaseTx tx then inl 0 else
  match sumInputs (Wire.TxIns tx) txHeight (CoinbaseMaturity p) 0 v with
  | inr e => inr e
  | inl totalSatoshiIn =>
      if totalSatoshiIn <? totalOut tx then inr ErrSpendTooHigh
      else inl (i64 (totalSatoshiIn - totalOut tx))
  end.

Fixpoint sumSigOpCost (txs : list Wire.Tx) (first : bool) (enforceBIP0016 enforceSegWit : bool) (totalSigOpCost : Z) : M unit :=
  match txs with
  | [] => mret tt
  | tx :: txs =>
      s ← get_;
      r ← io_run (GetSigOpCost tx first (view s) enforceBIP0016 enforceSegWit);
      sigOpCost ← rule r;
      let total := i64 (totalSigOpCost + sigOpCost) in
      if (total <? totalSigOpCost) || (MaxBlockSigOpsCost <? total) then io_fail (RuleError ErrTooManySigOps)
      else sumSigOpCost txs false enforceBIP0016 enforceSegWit total
  end.

(** The transactions are checked and connected to the view one after the other. *)
Fixpoint connectInputs (txs : list Wire.Tx) (hgt : Z) (p : Params) (totalFees : Z) (stxos : option (list SpentTxOut)) :
    M (Z * option (list SpentTxOut)) :=
  match txs with
  | [] => mret (totalFees, stxos)
  | tx :: txs =>
      s ← get_;
      match CheckTransactionInputs tx hgt (view s) p with
      | inr e => io_fail e
      | inl txFee =>
          let total := i64 (totalFees + txFee) in
          if total <? totalFees then io_fail ErrBadFees else
          stxos ← inView (UtxoView.connectTransaction tx hgt stxos);
          connectInputs txs hgt p total stxos
      end
  end.

(** ** Sequence locks ([chain.go]) *)

Definition SequenceLockTimeDisabled : Z := 2 ^ 31.
Definition SequenceLockTimeIsSeconds : Z := 2 ^ 22.
Definition SequenceLockTimeMask : Z := 0xffff.
Definition SequenceLockTimeGranularity : Z := 9.

(** One input; [CalcPastMedianTime] of a nil node dereferences it. *)
Definition inputLock (h : heap) (node : loc) (nextHeight : Z) (e : UtxoEntry) (sequenceNum : Z) (l : SequenceLock) :
    run SequenceLock :=
  let inputHeight := if blockHeight e =? 0x7fffffff then nextHeight else blockHeight e in
  let relativeLock := Z.land sequenceNum SequenceLockTimeMask in
  if hasFlag sequenceNum SequenceLockTimeDisabled then Done l
  else if hasFlag sequenceNum SequenceLockTimeIsSeconds then
    let prevInputHeight := if i32 (inputHeight - 1) <? 0 then 0 else i32 (inputHeight - 1) in
    a ← BlockNode.Ancestor h node prevInputHeight;
    a ← of_option a;
    medianTime ← BlockNode.CalcPastMedianTime (C := BlockNode.blockNode_ctx h) a;
    let timeLockSeconds := Z.shiftl relativeLock SequenceLockTimeGranularity - 1 in
    let timeLock := i64 (medianTime + timeLockSeconds) in
    Done (if Seconds l <? timeLock then {| Seconds := timeLock; LockHeight := LockHeight l |} else l)
  else
    let lockHeight := i32 (inputHeight + i32 (relativeLock - 1)) in
    Done (if LockHeight l <? lockHeight then {| Seconds := Seconds l; LockHeight := lockHeight |} else l).

Fixpoint inputLocks (h : heap) (node : loc) (nextHeight : Z) (v : UtxoViewpoint) (ins : list (Wire.TxIn (list byte)))
    (l : SequenceLock) : run (SequenceLock + connectError) :=
  match ins with
  | [] => Done (inl l)
  | ti :: ins =>
      match LookupEntry v (Wire.PreviousOutPoint ti) with
      | None => Done (inr (RuleError ErrMissingTxOut))
      | Some e =>
          l ← inputLock h node nextHeight e (Wire.Sequence ti) l;
          inputLocks h node nextHeight v ins l
      end
  end.

Definition DeploymentCSV : Z := 2.
Definition DeploymentSegwit : Z := 3.
Definition DeploymentTaproot : Z := 4.

Definition isActive (p : Params) (prevNode : option loc) (id : Z) : M bool :=
  st ← inChain (Threshold.deploymentState (thresholds p) prevNode id);
  mret (bool_decide (st = ThresholdActive)).

Definition calcSequenceLock (p : Params) (node : loc) (tx : Wire.Tx) (mempool : bool) : M SequenceLock :=
  h ← nodeHeap;
  nd ← io_run (deref h node);
  csvSoftforkActive ← (if mempool then mret true else isActive p (parent nd) DeploymentCSV);
  let sequenceLock := {| Seconds := -1; LockHeight := -1 |} in
  let sequenceLockActive := (2 <=? u32 (Wire.TxVersion tx)) && csvSoftforkActive in
  if negb sequenceLockActive || IsCoinBaseTx tx then mret sequenceLock else
  s ← get_;
  h ← nodeHeap;
  r ← io_run (inputLocks h node (i32 (height nd + 1)) (view s) (Wire.TxIns tx) sequenceLock);
  match r with inl l => mret l | inr e => io_fail e end.

Definition CalcSequenceLock (p : Params) (tx : Wire.Tx) (mempool : bool) : M SequenceLock :=
  s ← get_;
  tip ← io_run (of_option (Threshold.tip (chain_ s)));
  calcSequenceLock p tip tx mempool.

Definition LockTimeToSequence (isSeconds : bool) (locktime : Z) : Z :=
  if negb isSeconds then locktime else Z.lor SequenceLockTimeIsSeconds (Z.shiftr locktime SequenceLockTimeGranularity).

Fixpoint checkSequenceLocks (p : Params) (node : loc) (hgt medianTime : Z) (txs : list Wire.Tx) : M unit :=
  match txs with
  | [] => mret tt
  | tx :: txs =>
      l ← calcSequenceLock p node tx false;
      if negb (SequenceLockActive l hgt medianTime) then io_fail ErrUnfinalizedTx
      else checkSequenceLocks p node hgt medianTime txs
  end.

(** ** The block *)

Class ScriptRunner := { checkBlockScripts : Block → UtxoViewpoint → Z → option ErrorCode }.
Context {R : ScriptRunner}.

Definition Bip16Activation : Z := 1333238400.
Definition ScriptBip16 : Z := 2 ^ 0.
Definition ScriptStrictMultiSig : Z := 2 ^ 1.
Definition ScriptVerifyCheckLockTimeVerify : Z := 2 ^ 3.
Definition ScriptVerifyCheckSequenceVerify : Z := 2 ^ 4.
Definition ScriptVerifyDERSignatures : Z := 2 ^ 6.
Definition ScriptVerifyWitness : Z := 2 ^ 12.
Definition ScriptVerifyTaproot : Z := 2 ^ 16.

Definition when (c : bool) (f flags : Z) : Z := if c then Z.lor flags f else flags.

Definition LatestCheckpoint (p : Params) : option (Z * list byte) := last (checkpoints p).

Definition checkConnectBlock (p : Params) (node : loc) (block : Block) (stxos : option (list SpentTxOut)) :
    M (option (list SpentTxOut)) :=
  h ← nodeHeap;
  nd ← io_run (deref h node);
  if bool_decide (hash nd = GenesisHash p) then io_fail (RuleError ErrMissingTxOut) else
  s ← get_;
  if negb (bool_decide (bestHash (view s) = Wire.PrevBlock (Header block))) then io_fail InconsistentView else
  needed ← io_run (bip0030CheckNeeded h nd p);
  _ ← (if needed : bool then checkBIP0030 block else mret tt);
  _ ← fetch (UtxoView.fetchInputUtxos block);
  let enforceBIP0016 := Bip16Activation <=? timestamp nd in
  enforceSegWit ← isActive p (parent nd) DeploymentSegwit;
  let transactions := Transactions block in
  _ ← sumSigOpCost transactions true enforceBIP0016 enforceSegWit 0;
  '(totalFees, stxos) ← connectInputs transactions (height nd) p 0 stxos;
  first ← io_run (index transactions 0);
  let expectedSatoshiOut := i64 (CalcBlockSubsidy (height nd) (SubsidyReductionInterval p) + totalFees) in
  if expectedSatoshiOut <? totalOut first then io_fail ErrBadCoinbaseValue else
  let runScripts := match LatestCheckpoint p with Some (cpHeight, _) => negb (height nd <=? cpHeight) | None => true end in
  let version := Wire.Version (Header block) in
  let scriptFlags := when enforceBIP0016 ScriptBip16 0 in
  let scriptFlags := when ((3 <=? version) && (BIP0066Height p <=? height nd)) ScriptVerifyDERSignatures scriptFlags in
  let scriptFlags := when ((4 <=? version) && (BIP0065Height p <=? height nd)) ScriptVerifyCheckLockTimeVerify scriptFlags in
  csv ← isActive p (parent nd) DeploymentCSV;
  _ ← (if csv : bool then
         h ← nodeHeap;
         par ← io_run (of_option (parent nd));
         medianTime ← io_run (BlockNode.CalcPastMedianTime (C := BlockNode.blockNode_ctx h) par);
         checkSequenceLocks p node (height nd) medianTime transactions
       else mret tt);
  let scriptFlags := when csv ScriptVerifyCheckSequenceVerify scriptFlags in
  let scriptFlags := when enforceSegWit ScriptStrictMultiSig (when enforceSegWit ScriptVerifyWitness scriptFlags) in
  taproot ← isActive p (parent nd) DeploymentTaproot;
  let scriptFlags := when taproot ScriptVerifyTaproot scriptFlags in
  s ← get_;
  match (if runScripts then checkBlockScripts block (view s) scriptFlags else None) with
  | Some e => io_fail (RuleError e)
  | None =>
      _ ← inView (UtxoView.SetBestHash (hash nd));
      mret stxos
  end.

End checks.


(** ** Concrete runs *)

Section runs.
#[local] Existing Instance Compress.toyKeys.
#[local] Existing Instance UtxoCache.listOrder.
Import UtxoCache (nullOp, input, txid).
Import BlockNode (toyHash, toyLoc).

(** Scripts that always succeed *)
#[local] Instance noScripts : ScriptRunner := {| checkBlockScripts _ _ _ := None |}.

Definition toyParams : Params :=
  {| thresholds := Threshold.SugarMainNetParams; GenesisHash := toyHash 0; BIP0034Height := 17; BIP0034Hash := None;
     BIP0065Height := 0; BIP0066Height := 0; CoinbaseMaturity := 100; SubsidyReductionInterval := 12500000; checkpoints := [] |}.

Definition payTo (ins : list Wire.OutPoint) (vals : list Z) : Wire.Tx :=
  {| Wire.TxVersion := 1; Wire.TxIns := map input ins;
     Wire.TxOuts := map (fun v => {| Wire.Value := v; Wire.PkScript := [z2b 0x51] |}) vals; Wire.LockTime := 0 |}.

Definition out (tx : Wire.Tx) (i : Z) : Wire.OutPoint := {| Wire.Hash := txid tx; Wire.Index := i |}.

(** One old output in the database *)
Definition oldOut : Wire.OutPoint := UtxoSet.toyOp 1.
Definition oldCoin : UtxoEntry := {| amount := 7000; pkScript := [z2b 0x51]; blockHeight := 1; packedFlags := 0 |}.
Definition oldRows : ChainIO.bucket :=
  match dbPutUtxoEntry ∅ oldOut (Some oldCoin) with Done (inl b) => b | _ => ∅ end.

Definition chain8 : Threshold.chain :=
  {| Threshold.bc := ColdRead.toyChain 8 8; Threshold.deploymentCaches := replicate 6 ∅;
     Threshold.warningCaches := replicate 29 ∅; Threshold.unknownRulesWarned := false |}.

Definition startOf (txs : list Wire.Tx) : state * Block :=
  ({| chain_ := chain8; utxos := UtxoCache.startState 1000000 false oldRows;
      view := {| entries := ∅; bestHash := toyHash 6 |} |},
   {| Header := {| Wire.Version := 4; Wire.PrevBlock := toyHash 6; Wire.MerkleRoot := toyHash 0;
                   Wire.Timestamp := 1565881235; Wire.Bits := 0x1f3fffff; Wire.Nonce := 0 |};
      Transactions := txs; BlockHeight := 7 |}).

(** [txC] spends the first output of [txB], which comes after it in the block;
    [txD] spends the second one. *)
Definition coinbase7 : Wire.Tx :=
  {| Wire.TxVersion := 1;
     Wire.TxIns := [{| Wire.PreviousOutPoint := nullOp; Wire.SignatureScript := [z2b 1; z2b 7]; Wire.Witness := None;
                       Wire.Sequence := 2 ^ 32 - 1 |}];
     Wire.TxOuts := [{| Wire.Value := 5000; Wire.PkScript := [z2b 0x51] |}]; Wire.LockTime := 0 |}.
Definition txB : Wire.Tx := payTo [oldOut] [3000; 4000].
Definition txC : Wire.Tx := payTo [out txB 0] [3000].
Definition txD : Wire.Tx := payTo [out txB 1] [4000].

(** What validation says of a block, the entries of the given outputs in its view,
    and what connecting the block to the cache says *)
Definition validateRun (txs : list Wire.Tx) (outs : list Wire.OutPoint) :
    run (bool * list (option UtxoEntry) * option UtxoCache.cacheError) :=
  let '(s, block) := startOf txs in
  r ← checkConnectBlock toyParams (toyLoc 7) block (Some []) s;
  c ← UtxoCache.connectTransactions (Transactions block) (BlockHeight block) (Some []) (utxos r.2);
  Done (match r.1 with inl _ => true | inr _ => false end, map (LookupEntry (view r.2)) outs,
        match c.1 with inl _ => None | inr e => Some e end).

(** A block whose transactions are out of order is accepted: each is
    sane, and when one transaction spends an output of a later one, and a third spends another output
    of it, [checkConnectBlock] passes, leaves the output unspent although it was
    spent, and the cache then fails with a missing input.  Without the third
    transaction the block is rejected. *)
Theorem forward_spend_accepted :
  firstError CheckTransactionSanity [coinbase7; txC; txB; txD] = None ∧
  validateRun [coinbase7; txC; txB; txD] [out txB 0; out txC 0] =
    Done (true, [Some (UtxoCache.newEntry {| Wire.Value := 3000; Wire.PkScript := [z2b 0x51] |} false 7);
                 Some (UtxoCache.newEntry {| Wire.Value := 3000; Wire.PkScript := [z2b 0x51] |} false 7)],
          Some UtxoCache.MissingInput) ∧
  UtxoCache.applyTxs (map (fun tx => (tx, txid tx)) [coinbase7; txC; txB; txD]) 7 (<[oldOut := oldCoin]> ∅) [] = None ∧
  (validateRun [coinbase7; txC; txB] [] ≫= fun r => Done r.1.1) = Done false ∧
  (validateRun [coinbase7; txB; txC; txD] [] ≫= fun r => Done r.1.1) = Done true.
Proof. split_and!; vm_compute; reflexivity. Qed.

(** The lock of a transaction that spends [oldOut], created at height 1, with a
    relative lock in seconds, on a chain of eight blocks with a header window of [w] *)
Definition lockRun (w : Z) : run (SequenceLock + connectError) :=
  let tx := {| Wire.TxVersion := 2;
               Wire.TxIns := [{| Wire.PreviousOutPoint := oldOut; Wire.SignatureScript := []; Wire.Witness := None;
                                 Wire.Sequence := SequenceLockTimeIsSeconds + 1 |}];
               Wire.TxOuts := [{| Wire.Value := 7000; Wire.PkScript := [z2b 0x51] |}]; Wire.LockTime := 0 |} in
  let s := {| chain_ := {| Threshold.bc := ColdRead.toyChain 8 w; Threshold.deploymentCaches := replicate 6 ∅;
                           Threshold.warningCaches := replicate 29 ∅; Threshold.unknownRulesWarned := false |};
              utxos := UtxoCache.startState 1000000 false oldRows;
              view := {| entries := {[oldOut := Some oldCoin]}; bestHash := toyHash 6 |} |} in
  r ← calcSequenceLock toyParams (toyLoc 7) tx true s; Done r.1.

(** A relative lock in seconds on an output that is older than the header
    window panics: the ancestor at the height of the output is no longer linked to the
    node, and the nil node is passed on to [CalcPastMedianTime].  With the whole
    chain in the window the lock is computed. *)
Theorem sequence_lock_panics :
  lockRun 8 = Done (inl {| Seconds := 1565881711; LockHeight := -1 |}) ∧ lockRun 4 = Panic.
Proof. split; vm_compute; reflexivity. Qed.

End runs.

End Connect.
