(* ===== verification/ConnectSafe.v ===== *)
(** * ConnectSafe: what a validated block does to the UTXO set

    Theorems about [checkConnectBlock] of [blockchain/validate.go] (file [Connect]):
    the BIP 30 check against the UTXO set, and that a block that passes, given that
    its transactions come in the order of their dependencies, spends only existing
    mature outputs, creates no more than the subsidy, and is accepted by the cache
    with the same spent outputs. *)

From S2P Require Import Prelude WorkMath Compress ChainHash Wire BlockNode ChainView ChainIO ColdRead Difficulty Threshold.
From S2P Require Import Merkle Script UtxoSet UtxoCache UtxoView Sanity Connect.

Module ConnectSafe.
Import UtxoSet Sanity Connect.
Import UtxoView (Block, Header, Transactions, BlockHeight, UtxoViewpoint, LookupEntry, entries, bestHash,
  vinv, vi_wf, vi_clean, vi_coins, outsOf, outsAll).
Import UtxoCache (IsCoinBaseTx, stxoOf, spendAll, createAll, applyTxs, creates_ok).
Import BlockNode (loc, deref, height, hash, parent).

Abbreviation coins := (gmap Wire.OutPoint UtxoEntry).

(** ** The value of a UTXO set *)

Definition value (U : coins) : Z := map_fold (fun _ c n => amount c + n) 0 U.
Definition amounts (l : list UtxoEntry) : Z := foldr (fun c n => amount c + n) 0 l.
Definition nonneg (U : coins) : Prop := map_Forall (fun _ c => 0 ≤ amount c) U.

Lemma value_delete U o c : U !! o = Some c → value U = amount c + value (delete o U).
Proof. intros Ho. unfold value. apply (map_fold_delete_L (fun _ c n => amount c + n) 0 o c U); [|done]. intros. lia. Qed.

Lemma value_insert U o c : nonneg U → value (<[o := c]> U) ≤ value U + amount c.
Proof.
  intros Hn. rewrite (value_delete (<[o := c]> U) o c) by apply lookup_insert_eq. rewrite delete_insert_eq.
  destruct (U !! o) as [c'|] eqn:E; [|rewrite delete_id by done; lia].
  rewrite (value_delete U o c' E). pose proof (Hn o c' E) as Hc. cbn in Hc. lia.
Qed.

Lemma nonneg_delete U o : nonneg U → nonneg (delete o U).
Proof. apply map_Forall_delete. Qed.

Lemma values_nonneg l : Forall (fun t : Wire.TxOut (list byte) => 0 ≤ Wire.Value t) l → 0 ≤ values l.
Proof. induction 1 as [|t l Ht _ IH]; [done|]. change (values (t :: l)) with (Wire.Value t + values l). lia. Qed.

Lemma createAll_value hs cb h outs i U : nonneg U → Forall (fun t => 0 ≤ Wire.Value t) outs →
  nonneg (createAll hs cb h i outs U) ∧ value (createAll hs cb h i outs U) ≤ value U + values outs.
Proof.
  intros Hn Ho. revert i U Hn. induction Ho as [|t outs Ht _ IH]; intros i U Hn; cbn [createAll]; [split; [done|cbn; lia]|].
  change (values (t :: outs)) with (Wire.Value t + values outs). destruct (Script.unspendable _).
  - destruct (IH (i + 1) U Hn). split; [done|lia].
  - set (o := {| Wire.Hash := hs; Wire.Index := i |}).
    destruct (IH (i + 1) (<[o := UtxoCache.newCoin t cb h]> U)) as [H1 H2]; [by apply map_Forall_insert_2|].
    pose proof (value_insert U o (UtxoCache.newCoin t cb h) Hn) as Hv. split; [done|]. cbn in Hv. lia.
Qed.

(** ** Runs of the monad *)

Lemma io_bind_inv {S E A B} (m : io S E A) (f : A → io S E B) s b s' : (m ≫= f) s = Done (inl b, s') →
  ∃ a s1, m s = Done (inl a, s1) ∧ f a s1 = Done (inl b, s').
Proof. unfold mbind, io_bind. destruct (m s) as [[[a|e] s1]| |]; [|done..]. by exists a, s1. Qed.

Lemma io_run_inv {S E A} (m : run A) (s : S) a (s' : S) : io_run (E := E) m s = Done (inl a, s') → m = Done a ∧ s' = s.
Proof. unfold io_run. destruct m; [|done..]. by intros [= -> ->]. Qed.

(** ** Inputs *)

Definition mature (h maturity : Z) (e : UtxoEntry) : Prop := IsCoinBase e = true → maturity ≤ h - blockHeight e.
Definition mature32 (h maturity : Z) (e : UtxoEntry) : Prop := IsCoinBase e = true → i32 maturity ≤ i32 (h - blockHeight e).

Lemma sumInputs_inv ins h m tot v t : 0 ≤ tot ≤ MaxSatoshi → sumInputs ins h m tot v = inl t →
  ∃ es, Forall2 (fun ti e => unspentEntry v ti = Some e) ins es ∧ t = tot + amounts es ∧ t ≤ MaxSatoshi ∧
    Forall (mature32 h m) es ∧ 0 ≤ amounts es.
Proof.
  revert tot. induction ins as [|ti ins IH]; intros tot Ht; cbn [sumInputs].
  { intros [= <-]. exists []. cbn. split; [constructor|]. split; [lia|]. split; [lia|]. split; [constructor|lia]. }
  assert (MaxSatoshi = 2100000000000000) as Em by done.
  destruct (unspentEntry v ti) as [e|] eqn:Ee; [|done]. destruct (IsCoinBase e && _) eqn:Ec; [done|].
  destruct (Z.ltb_spec (amount e) 0); [done|]. destruct (Z.ltb_spec MaxSatoshi (amount e)); [done|].
  rewrite swrap_small by zlia. destruct ((_ <? _) || _) eqn:Eo; [done|]. rewrite orb_false_iff, !Z.ltb_ge in Eo.
  intros (es & H1 & -> & H2 & H3 & H4)%IH; [|lia]. exists (e :: es). cbn [amounts foldr]. fold (amounts es).
  split; [by constructor|]. split; [lia|]. split; [lia|]. split; [|lia]. constructor; [|done].
  intros Hcb. rewrite Hcb in Ec. cbn in Ec. apply Z.ltb_ge in Ec. done.
Qed.

Lemma totalOut_values tx : sane tx → totalOut tx = values (Wire.TxOuts tx).
Proof.
  intros H. unfold totalOut. pose proof (sane_values _ H) as Hv. pose proof (sane_total _ H) as Ht.
  assert (MaxSatoshi = 2100000000000000) as Em by done.
  assert (∀ l n, Forall (fun t : Wire.TxOut (list byte) => 0 ≤ Wire.Value t ≤ MaxSatoshi) l → 0 ≤ n → n + values l ≤ MaxSatoshi →
    foldl (fun n t => i64 (n + Wire.Value t)) n l = n + values l) as Hl; [|by rewrite Hl by (done || lia)].
  clear H Hv Ht. intros l n Hl. revert n. induction Hl as [|t l Hx Hl IH]; intros n Hn Hs; cbn [foldl]; [cbn; lia|].
  change (values (t :: l)) with (Wire.Value t + values l) in *.
  assert (0 ≤ values l) by (apply values_nonneg; eapply Forall_impl; [exact Hl|]; intros; cbn in *; lia).
  rewrite swrap_small by zlia. rewrite IH; lia.
Qed.

Lemma nonneg_outs tx : sane tx → Forall (fun t => 0 ≤ Wire.Value t) (Wire.TxOuts tx).
Proof. intros H. eapply Forall_impl; [exact (sane_values _ H)|]. intros t. cbn. lia. Qed.

Lemma unspent_coin skip v base U ti e : vinv skip v base U → ¬ skip (Wire.PreviousOutPoint ti) → unspentEntry v ti = Some e →
  LookupEntry v (Wire.PreviousOutPoint ti) = Some e ∧ U !! Wire.PreviousOutPoint ti = Some (cleaned e).
Proof.
  intros Hi Hs. unfold unspentEntry. destruct (LookupEntry v _) as [e'|] eqn:E; [|done]. destruct (IsSpent e') eqn:Es; [done|].
  intros [= ->]. split; [done|]. rewrite (vi_coins _ _ _ _ Hi _ Hs), E. cbn. rewrite Es. destruct (isModified e) eqn:Em; [done|].
  by apply (vi_clean _ _ _ _ Hi).
Qed.

Lemma unspent_mature ins es skip v base U h m : vinv skip v base U → Forall2 (fun ti e => unspentEntry v ti = Some e) ins es →
  0 ≤ h < 2 ^ 31 → 0 ≤ m < 2 ^ 16 → Forall (mature32 h m) es → Forall (mature h m) (map cleaned es).
Proof.
  intros Hi He Hh Hm. induction He as [|ti e ins es Hu _ IH]; intros Hf; [constructor|]. apply Forall_cons in Hf as [Hx Hf].
  cbn [map]. constructor; [|by apply IH]. intros Hc. destruct (cleaned_flags e) as (F & _). rewrite F in Hc. specialize (Hx Hc).
  unfold unspentEntry in Hu. destruct (LookupEntry v _) as [e'|] eqn:El; [|done]. destruct (IsSpent e'); [done|]. injection Hu as ->.
  destruct (vi_wf _ _ _ _ Hi _ _ El) as (_ & (Hb & _) & _). rewrite !swrap_small in Hx by zlia. exact Hx.
Qed.

Lemma spendInputs_skip ins es skip v base U sp : vinv skip v base U → Forall2 (fun ti e => unspentEntry v ti = Some e) ins es →
  Forall (fun ti => ¬ skip (Wire.PreviousOutPoint ti)) ins → NoDup (map Wire.PreviousOutPoint ins) → nonneg U →
  ∃ U' v', spendAll ins U sp = Some (U', sp ++ map cleaned es) ∧
    UtxoView.spendInputs ins (Some (map stxoOf sp)) v = Done (inl (Some (map stxoOf (sp ++ map cleaned es))), v') ∧
    vinv skip v' base U' ∧ bestHash v' = bestHash v ∧ nonneg U' ∧ value U' = value U - amounts es.
Proof.
  intros Hi He. revert U sp v Hi He. revert es. induction ins as [|ti ins IH]; intros es U sp v Hi He Hs Hn HU.
  { inversion He; subst. exists U, v. cbn [map spendAll UtxoView.spendInputs amounts foldr]. rewrite app_nil_r. split_and!; try done. lia. }
  inversion He as [|? e ? es' Hu Hes]; subst. apply Forall_cons in Hs as [Hs1 Hs]. cbn [map] in Hn. apply NoDup_cons in Hn as [Hn1 Hn].
  destruct (unspent_coin _ _ _ _ _ _ Hi Hs1 Hu) as [El Ec]. cbn [spendAll UtxoView.spendInputs]. rewrite Ec.
  set (o := Wire.PreviousOutPoint ti) in *. rewrite UtxoView.get_bind_view, El. rewrite (io_step _ _ _ tt _) by reflexivity.
  set (v1 := UtxoView.set_entries _ v). destruct (UtxoView.Spend_wf o e (vi_wf _ _ _ _ Hi o e El)) as (Hw & Hm & Hsp).
  destruct (IH es' (delete o U) (sp ++ [cleaned e]) v1) as (U' & v' & E1 & E2 & Hi' & B' & HU' & Hv'); try done.
  - apply (UtxoView.vinv_weaken _ _ _ _ _ _ (UtxoView.vinv_put skip v base U o (Spend e) Hi Hw Hm)); [tauto|]. by rewrite Hsp.
  - clear -Hes Hn1. induction Hes as [|t x ins es Hx _ IH]; constructor.
    + unfold unspentEntry, v1. rewrite UtxoView.lookup_put, decide_False; [done|]. intros E. apply Hn1. rewrite <-E. left.
    + apply IH. intros H. apply Hn1. by right.
  - by apply nonneg_delete.
  - exists U', v'. rewrite <-app_assoc in E1, E2. cbn [app] in E1, E2. split; [done|]. split.
    { cbn [map fmap option_fmap option_map]. rewrite map_app in E2. cbn [map] in E2. rewrite UtxoCache.stxoOf_cleaned in E2. exact E2. }
    split; [done|]. split; [done|]. split; [done|]. rewrite Hv'. cbn [amounts foldr]. fold (amounts es').
    rewrite (value_delete U o _ Ec). change (amount (cleaned e)) with (amount e). lia.
Qed.

(** ** Transactions *)

Lemma createOuts_skip hs cb h outs i skip v base U : vinv skip v base U → length hs = 32%nat → 0 ≤ i →
  i + zlen outs ≤ 2 ^ 32 → Forall (λ t, entry_ok (UtxoCache.newEntry t cb h)) outs →
  ∃ v', UtxoView.AddTxOuts_loop hs cb h i outs v = Done (inl tt, v') ∧ bestHash v' = bestHash v ∧
    vinv (λ x, skip x ∧ x ∉ outsOf hs i outs) v' base (createAll hs cb h i outs U).
Proof.
  intros Hi Hl H0 Hz Ho. revert i v skip U Hi H0 Hz. induction Ho as [|t outs Ht _ IH]; intros i v skip U Hi H0 Hz.
  { exists v. split; [done|]. split; [done|]. apply (UtxoView.vinv_weaken skip _ v base U U Hi); [|done].
    intros o Hs. split; [done|]. apply not_elem_of_nil. }
  rewrite zlen_cons in Hz. pose proof (zlen_nonneg outs). cbn [UtxoView.AddTxOuts_loop createAll outsOf]. rewrite uwrap_small by zlia.
  set (o := {| Wire.Hash := hs; Wire.Index := i |}). unfold UtxoView.addTxOut.
  destruct (Script.unspendable (Wire.PkScript t)) eqn:Eu.
  { rewrite (io_step _ _ _ tt v); [by apply IH; [done|lia|lia]|].
    rewrite (io_run_Done _ _ _ _ (Script.IsUnspendable_spec _)). by rewrite Eu. }
  destruct (UtxoCache.newEntry_flags t cb h) as (F1 & F2 & F3).
  set (v1 := UtxoView.set_entries (<[o := Some (UtxoCache.newEntry t cb h)]> (entries v)) v).
  rewrite (io_step _ _ _ tt v1). 2: { rewrite (io_run_Done _ _ _ _ (Script.IsUnspendable_spec _)). by rewrite Eu. }
  assert (UtxoView.entry_wf o (UtxoCache.newEntry t cb h)) as Hw.
  { split; [by split; cbn; [|zlia]|]. split; [done|by rewrite F2]. }
  pose proof (UtxoView.vinv_put skip v base U o _ Hi Hw F2) as H1. rewrite F1, F3 in H1.
  destruct (IH (i + 1) v1 _ _ H1) as (v' & E' & B' & Hi'); [lia|lia|].
  exists v'. split; [done|]. split; [done|]. apply (UtxoView.vinv_weaken _ _ _ _ _ _ Hi'); [|done].
  intros x ((Hs & Hne) & Hx). split; [done|]. by intros [?|?]%elem_of_cons.
Qed.

Lemma AddTxOuts_skip tx hs rest d h v base U : creates_ok d h (tx, hs) → vinv (λ o, o ∈ outsAll ((tx, hs) :: rest)) v base U →
  ∃ v', UtxoView.AddTxOuts tx h v = Done (inl tt, v') ∧ bestHash v' = bestHash v ∧
    vinv (λ o, o ∈ outsAll rest) v' base (createAll hs (IsCoinBaseTx tx) h 0 (Wire.TxOuts tx) U).
Proof.
  intros (Hx & Hlen & Hz & Ho) Hi. cbn [fst snd] in *.
  destruct (createOuts_skip hs (IsCoinBaseTx tx) h (Wire.TxOuts tx) 0 _ v base U Hi Hlen) as (v2 & Ev2 & B2 & Hi2); [lia|lia| |].
  { apply Forall_lookup. intros k t Hk. apply (Ho (Z.of_nat k) t); [lia|by rewrite Nat2Z.id]. }
  exists v2. split; [unfold UtxoView.AddTxOuts; by rewrite (io_run_Done _ _ _ _ Hx)|]. split; [done|].
  apply (UtxoView.vinv_weaken _ _ _ _ _ _ Hi2); [|done]. intros o [[Ho1|Ho1]%elem_of_app Ho2]; [done|exact Ho1].
Qed.

(** No transaction refers to itself or to a later one. *)
Fixpoint ordered (txs : list (Wire.Tx * list byte)) : Prop :=
  match txs with
  | [] => True
  | (tx, hs) :: rest =>
      (IsCoinBaseTx tx = false → Forall (fun ti => Wire.Hash (Wire.PreviousOutPoint ti) ∉ hs :: rest.*2) (Wire.TxIns tx)) ∧
      ordered rest
  end.

Lemma outsAll_hash txs o : o ∈ outsAll txs → Wire.Hash o ∈ txs.*2.
Proof.
  induction txs as [|[tx hs] txs IH]; [by intros ?%elem_of_nil|]. intros [Ho|Ho]%elem_of_app; [|right; by apply IH].
  apply UtxoView.outsOf_elem in Ho as [-> _]. left.
Qed.

(** The outputs of the coinbases among the transactions *)
Definition minted (txs : list Wire.Tx) : Z := foldr (fun tx n => (if IsCoinBaseTx tx then values (Wire.TxOuts tx) else 0) + n) 0 txs.

(** One transaction: its inputs, when [CheckTransactionInputs] accepts it *)
Lemma tx_step tx hs rest d p h v base U sp fee : vinv (λ o, o ∈ outsAll ((tx, hs) :: rest)) v base U → creates_ok d h (tx, hs) →
  sane tx → ordered ((tx, hs) :: rest) → nonneg U → 0 ≤ h < 2 ^ 31 → 0 ≤ CoinbaseMaturity p < 2 ^ 16 →
  CheckTransactionInputs tx h v p = inl fee →
  ∃ new U1 v', (if IsCoinBaseTx tx then Some (U, sp) else spendAll (Wire.TxIns tx) U sp) = Some (U1, sp ++ new) ∧
    Forall (mature h (CoinbaseMaturity p)) new ∧ 0 ≤ fee ≤ MaxSatoshi ∧
    UtxoView.connectTransaction tx h (Some (map stxoOf sp)) v = Done (inl (Some (map stxoOf (sp ++ new))), v') ∧
    bestHash v' = bestHash v ∧
    let U2 := createAll hs (IsCoinBaseTx tx) h 0 (Wire.TxOuts tx) U1 in
    vinv (λ o, o ∈ outsAll rest) v' base U2 ∧ nonneg U2 ∧ value U2 + fee ≤ value U + minted [tx].
Proof.
  intros Hi Hc Hs [Hord _] HU Hh Hmat. unfold CheckTransactionInputs, minted, UtxoView.connectTransaction. cbn [foldr].
  destruct (IsCoinBaseTx tx) eqn:Ecb.
  - intros [= <-]. destruct (AddTxOuts_skip tx hs rest d h v base U Hc Hi) as (v' & Ev & B & Hi'). rewrite Ecb in Hi'.
    destruct (createAll_value hs true h (Wire.TxOuts tx) 0 U HU (nonneg_outs _ Hs)) as [H1 H2].
    exists [], U, v'. cbn [map]. rewrite app_nil_r, (io_step _ _ _ _ _ Ev). split_and!; try done; lia.
  - destruct (sumInputs _ _ _ _ _) as [tot|] eqn:Es; [|done]. rewrite (totalOut_values tx Hs).
    apply sumInputs_inv in Es as (es & He & -> & Hmax & Hm & Hpos); [|done]. rewrite Z.add_0_l in *.
    destruct (Z.ltb_spec (amounts es) (values (Wire.TxOuts tx))); [done|]. intros [= <-].
    pose proof (values_nonneg _ (nonneg_outs _ Hs)). assert (MaxSatoshi = 2100000000000000) as Em by done.
    rewrite swrap_small by zlia.
    destruct (spendInputs_skip (Wire.TxIns tx) es _ v base U sp Hi He) as (U1 & v1 & E1 & E2 & Hi1 & B1 & HU1 & Hv1); [|apply Hs|done|].
    { eapply Forall_impl; [by apply Hord|]. intros ti Hti Ho. by apply Hti, (outsAll_hash ((tx, hs) :: rest)). }
    destruct (AddTxOuts_skip tx hs rest d h v1 base U1 Hc Hi1) as (v' & Ev & B & Hi'). rewrite Ecb in Hi'.
    destruct (createAll_value hs false h (Wire.TxOuts tx) 0 U1 HU1 (nonneg_outs _ Hs)) as [H1 H2].
    exists (map cleaned es), U1, v'. rewrite (io_step _ _ _ _ _ E2), (io_step _ _ _ _ _ Ev).
    split_and!; try done; try lia; try congruence. exact (unspent_mature _ _ _ _ _ _ _ _ Hi He Hh Hmat Hm).
Qed.

(** The sum of two amounts is exact or, when it overflows, negative. *)
Lemma i64_sum a b : 0 ≤ a < 2 ^ 63 → 0 ≤ b < 2 ^ 63 → i64 (a + b) = a + b ∧ a + b < 2 ^ 63 ∨ i64 (a + b) < 0.
Proof.
  intros Ha Hb. destruct (decide (a + b < 2 ^ 63)); [left; by rewrite swrap_small by zlia|right]. unfold swrap.
  rewrite <-(Z.mod_unique (a + b + 2 ^ (64 - 1)) (2 ^ 64) 1 (a + b - 2 ^ 63)); zlia.
Qed.

Lemma minted_cons tx txs : minted (tx :: txs) = minted [tx] + minted txs.
Proof. unfold minted. cbn [foldr]. lia. Qed.

Lemma connectInputs_inv txs d p h base fees fees' sp st' s s' U : vinv (λ o, o ∈ outsAll txs) (view s) base U →
  Forall (creates_ok d h) txs → Forall sane txs.*1 → ordered txs → nonneg U → 0 ≤ h < 2 ^ 31 →
  0 ≤ CoinbaseMaturity p < 2 ^ 16 → 0 ≤ fees < 2 ^ 63 →
  connectInputs txs.*1 h p fees (Some (map stxoOf sp)) s = Done (inl (fees', st'), s') →
  ∃ U' new, applyTxs txs h U sp = Some (U', sp ++ new) ∧ st' = Some (map stxoOf (sp ++ new)) ∧
    Forall (mature h (CoinbaseMaturity p)) new ∧ vinv (λ _, False) (view s') base U' ∧
    s' = set_view (view s') s ∧ bestHash (view s') = bestHash (view s) ∧
    0 ≤ fees' < 2 ^ 63 ∧ value U' + fees' ≤ value U + fees + minted txs.*1.
Proof.
  intros Hi Hc Hs Ho HU Hh Hmat. revert fees sp s U Hi Hs Ho HU. induction Hc as [|[tx hs] txs Hx _ IH]; intros fees sp s U Hi Hs Ho HU Hf.
  { intros [= <- <- <-]. exists U, []. cbn [applyTxs minted foldr]. rewrite app_nil_r. split_and!; try done; try lia; [|by destruct s|cbn; lia].
    apply (UtxoView.vinv_weaken _ _ _ _ _ _ Hi); [|done]. intros o. apply not_elem_of_nil. }
  cbn [fmap list_fmap fst connectInputs applyTxs]. apply Forall_cons in Hs as [Hs1 Hs].
  change (list_fmap _ _ fst txs) with (txs.*1) in *. intros E. change ((get_ ≫= ?k) s) with (k s s) in E. cbn beta in E.
  destruct (CheckTransactionInputs tx h (view s) p) as [fee|] eqn:Ef; [|done].
  destruct (tx_step tx hs txs d p h (view s) base U sp fee Hi Hx Hs1 Ho HU Hh Hmat Ef)
    as (new1 & U1 & v' & E1 & Hm & Hfee & E2 & B & Hi2 & HU2 & Hv). rewrite E1.
  destruct (Z.ltb_spec (i64 (fees + fee)) fees) as [|Hge]; [done|].
  assert (i64 (fees + fee) = fees + fee ∧ fees + fee < 2 ^ 63) as [Ei Hlt].
  { assert (MaxSatoshi = 2100000000000000) as Em by done. destruct (i64_sum fees fee); [lia..|done|lia]. }
  rewrite Ei in E. rewrite (io_step _ _ _ (Some (map stxoOf (sp ++ new1))) (set_view v' s)) in E.
  2: { unfold inView. by rewrite E2. }
  destruct (IH (fees + fee) (sp ++ new1) (set_view v' s) _ Hi2 Hs (proj2 Ho) HU2 ltac:(lia) E)
    as (U' & new & E3 & -> & Hm' & Hi' & Es & B' & Hf' & Hv').
  exists U', (new1 ++ new). rewrite app_assoc. split_and!; try done; try lia.
  - by apply Forall_app.
  - rewrite B'. exact B.
  - rewrite minted_cons. lia.
Qed.

(** ** BIP 30 *)

Lemma blockOutputs_ok d h txs : Forall (creates_ok d h) txs →
  ∃ ops, blockOutputs txs.*1 = Done ops ∧ Forall op_wf ops ∧ (∀ o, o ∈ outsAll txs → o ∈ ops).
Proof.
  induction 1 as [|[tx hs] txs (Hh & Hl & Hz & _) _ (ops & E & Hw & Hin)]; [by exists []|].
  cbn [fmap list_fmap fst snd blockOutputs] in *. change (list_fmap _ _ fst txs) with (txs.*1). rewrite Hh. cbn [mbind run_bind].
  rewrite E. cbn [mbind run_bind]. eexists. split; [reflexivity|]. split.
  - apply Forall_app. split; [|done]. apply Forall_forall. intros o (i & t & -> & Ht)%elem_of_lookup_imap_1.
    split; [done|]. cbn. by apply uwrap_range.
  - intros o [Ho|Ho]%elem_of_app; apply elem_of_app; [left|right; by apply Hin].
    apply UtxoView.outsOf_elem in Ho as (Eh & k & t & Hk & Ei). destruct o as [oh oi]. cbn [Wire.Hash Wire.Index fst snd] in *. subst oh oi.
    apply elem_of_lookup_imap. exists k, t. split; [|done]. apply lookup_lt_Some in Hk. unfold zlen in Hz. by rewrite uwrap_small by zlia.
Qed.

Section bip30.
Context {K : Compress.SecKeys} {Kok : Compress.SecKeysOk K}.

Lemma foldl_fetched_in (f : Wire.OutPoint → option UtxoEntry) ops (m : UtxoView.entryMap) o : o ∈ ops →
  foldl (λ m '(o, e), <[o := e]> m) m (zip ops (map f ops)) !! o = Some (f o).
Proof.
  revert m. induction ops as [|x ops IH]; intros m; [by intros ?%elem_of_nil|]. cbn [map zip zip_with foldl]. intros Ho.
  destruct (decide (o ∈ ops)) as [Hi|Hi]; [by apply IH|]. apply elem_of_cons in Ho as [->|]; [|done].
  destruct (UtxoView.foldl_fetched f ops (<[x := f x]> m) x) as [E|[? _]]; [|done]. cbn zeta in E. rewrite E. apply lookup_insert_eq.
Qed.

Lemma fetched_none s d U o : UtxoCache.cinv s d U → UtxoCache.fetched s d o = None → U !! o = None.
Proof.
  intros Hi. unfold UtxoCache.fetched. rewrite (UtxoCache.ci_coins _ _ _ Hi). unfold UtxoCache.coinOf.
  by destruct (UtxoCache.get _ o) as [[e|]|].
Qed.

(** A nil entry of the view stands for an output that is not there. *)
Definition nil_absent (v : UtxoViewpoint) (U : coins) : Prop := ∀ o, entries v !! o = Some None → U !! o = None.

Definition coinSeen (v : UtxoViewpoint) (o : Wire.OutPoint) : option UtxoEntry :=
  match LookupEntry v o with Some e => if IsSpent e then None else Some (cleaned e) | None => None end.

Lemma fetchUtxos_ok ops v s d U : UtxoCache.cinv s d U → vinv (λ _, False) v U U → Forall op_wf ops → nil_absent v U →
  ∃ v' s', UtxoView.fetchUtxos ops v s = Done (inl v', s') ∧ UtxoCache.cinv s' d U ∧ vinv (λ _, False) v' U U ∧
    bestHash v' = bestHash v ∧ ∀ o, o ∈ ops → U !! o = coinSeen v' o.
Proof.
  intros Hi Hv Hw Hn. unfold UtxoView.fetchUtxos. destruct (zlen ops =? 0) eqn:Ez.
  { apply zlen_eq0 in Ez as ->. exists v, s. split_and!; try done. by intros o ?%elem_of_nil. }
  set (todo := filter _ ops).
  assert (∀ v', vinv (λ _, False) v' U U → ∀ o, entries v' !! o = entries v !! o → is_Some (entries v !! o) → U !! o = coinSeen v' o) as Hold.
  { intros v' Hv' o E [x Ex]. unfold coinSeen, LookupEntry. rewrite E, Ex. cbn [default]. destruct x as [e|]; [|by apply Hn].
    assert (LookupEntry v' o = Some e) as El by (unfold LookupEntry; by rewrite E, Ex).
    rewrite (vi_coins _ _ _ _ Hv' o) by tauto. rewrite El. cbn [id UtxoView.seen]. destruct (isModified e) eqn:Em; [done|].
    rewrite (vi_clean _ _ _ _ Hv' o e El Em). destruct (IsSpent e) eqn:Es; [|done].
    destruct (vi_wf _ _ _ _ Hv' o e El) as (_ & _ & Hc). by rewrite Hc in Em. }
  assert (Forall op_wf todo) as Hw'.
  { rewrite Forall_forall in *. intros o Ho. apply Hw. unfold todo in Ho. by apply list_elem_of_filter in Ho as [_ Ho]. }
  unfold UtxoView.fetchUtxosFromCache. destruct (zlen todo =? 0) eqn:Ez'.
  { apply zlen_eq0 in Ez'. exists v, s. split_and!; try done. intros o Ho. apply Hold; [done..|].
    destruct (entries v !! o) eqn:Ex; [done|]. exfalso. assert (o ∈ todo) as Hin by (by apply list_elem_of_filter). rewrite Ez' in Hin. by apply elem_of_nil in Hin. }
  destruct (UtxoView.fetchUtxosFromCache_ok (λ _, False) todo v s d U Hi Hv Hw') as (v' & s' & E & Hi' & Hv' & B & _).
  unfold UtxoView.fetchUtxosFromCache in E. rewrite Ez' in E. exists v', s'. split_and!; try done. intros o Ho.
  destruct (UtxoCache.fetch_many s d U todo Hi Hw') as (s1 & Ef & _ & _). rewrite Ef in E. cbn [mbind run_bind fst snd] in E. injection E as E _.
  destruct (decide (o ∈ todo)) as [Hin|Hout].
  - unfold coinSeen, LookupEntry. rewrite <-E. cbn [entries UtxoView.set_entries]. rewrite (foldl_fetched_in _ _ _ _ Hin). cbn [default id].
    rewrite Forall_forall in Hw. destruct (UtxoCache.fetched s d o) as [e|] eqn:Eo; [|by apply (fetched_none s d)].
    apply (UtxoCache.fetched_coin s d U o e Hi (Hw _ Ho) Eo).
  - apply Hold; [done| |].
    + rewrite <-E. cbn [entries UtxoView.set_entries].
      destruct (UtxoView.foldl_fetched (UtxoCache.fetched s d) todo (entries v) o) as [?|[? _]]; done.
    + destruct (entries v !! o) eqn:Ex; [done|]. exfalso. apply Hout. by apply list_elem_of_filter.
Qed.

Lemma bip30_run block s d d0 h U txs : UtxoCache.cinv (utxos s) d U → vinv (λ _, False) (view s) U U → nil_absent (view s) U →
  Transactions block = txs.*1 → Forall (creates_ok d0 h) txs →
  ∃ ops r s', blockOutputs (Transactions block) = Done ops ∧ (∀ o, o ∈ outsAll txs → o ∈ ops) ∧
    checkBIP0030 block s = Done (r, s') ∧
    (r = inl tt ∧ (∀ o, o ∈ ops → U !! o = None) ∨ r = inr ErrOverwriteTx ∧ ∃ o c, o ∈ ops ∧ U !! o = Some c) ∧
    UtxoCache.cinv (utxos s') d U ∧ vinv (λ _, False) (view s') U U ∧ bestHash (view s') = bestHash (view s) ∧ chain_ s' = chain_ s.
Proof.
  intros Hi Hv Hn Et Hc. destruct (blockOutputs_ok d0 h txs Hc) as (ops & Eo & Hw & Hin). rewrite <-Et in Eo.
  destruct (fetchUtxos_ok ops (view s) (utxos s) d U Hi Hv Hw Hn) as (v' & u' & E & Hi' & Hv' & B & Hs).
  set (s' := set_view v' (set_utxos u' s)). exists ops.
  assert (∃ r, checkBIP0030 block s = Done (r, s') ∧
    (r = inl tt ∧ (∀ o, o ∈ ops → U !! o = None) ∨ r = inr ErrOverwriteTx ∧ ∃ o c, o ∈ ops ∧ U !! o = Some c)) as (r & Er & Hr).
  { unfold checkBIP0030. rewrite (io_run_Done _ _ _ _ Eo).
    rewrite (io_step _ _ _ tt s') by (unfold fetch; by rewrite E). change ((get_ ≫= ?k) s') with (k s' s'). cbn beta.
    destruct (existsb _ ops) eqn:Ex; (eexists; split; [reflexivity|]).
    - right. split; [done|]. apply existsb_exists in Ex as (o & Ho & Hx). apply list_elem_of_In in Ho. exists o. rewrite (Hs o Ho).
      unfold coinSeen. change (view s') with v' in Hx. destruct (LookupEntry v' o) as [e|]; [|done]. destruct (IsSpent e); [done|]. by eexists.
    - left. split; [done|]. intros o Ho. rewrite (Hs o Ho). unfold coinSeen. destruct (LookupEntry v' o) as [e|] eqn:El; [|done].
      destruct (IsSpent e) eqn:Esp; [done|]. exfalso. rewrite <-not_true_iff_false in Ex. apply Ex. apply existsb_exists. exists o.
      split; [by apply list_elem_of_In|]. change (view s') with v'. by rewrite El, Esp. }
  exists r, s'. done.
Qed.

End bip30.

(** ** Checks that leave the UTXO set alone *)

Definition same_utxos (s s' : state) : Prop := utxos s' = utxos s ∧ view s' = view s.

(** Whatever the result, the UTXO cache and the view are as before. *)
Definition pure {A} (m : M A) : Prop := ∀ s a s', m s = Done (inl a, s') → same_utxos s s'.

Lemma pure_bind {A B} (m : M A) (f : A → M B) : pure m → (∀ a, pure (f a)) → pure (m ≫= f).
Proof.
  intros Hm Hf s b s' (a & s1 & E1 & E2)%io_bind_inv. destruct (Hm _ _ _ E1) as [U1 V1]. destruct (Hf _ _ _ _ E2) as [U2 V2].
  split; congruence.
Qed.

Lemma pure_run {A} (m : run A) : pure (io_run m).
Proof. by intros s a s' [_ ->]%io_run_inv. Qed.

Lemma pure_ret {A} (a : A) : pure (mret a).
Proof. by intros s a' s' [= _ <-]. Qed.

Lemma pure_fail {A} e : pure (io_fail e : M A).
Proof. by intros s a' s'. Qed.

Lemma pure_get : pure get_.
Proof. by intros s a' s' [= _ <-]. Qed.

Lemma pure_heap : pure nodeHeap.
Proof. by intros s a' s' [= _ <-]. Qed.

Lemma pure_chain {A} (m : Threshold.M A) : pure (inChain m).
Proof.
  intros s a s'. unfold inChain. destruct (m (chain_ s)) as [[[x|e] c]| |]; [|done..]. cbn. by intros [= _ <-].
Qed.

Create HintDb frames.
#[local] Hint Resolve pure_bind pure_run pure_ret pure_fail pure_get pure_heap pure_chain : frames.

Ltac frame := repeat (match goal with |- ∀ _, pure _ => intros ? | |- pure (_ ≫= _) => apply pure_bind | |- pure (match ?b with _ => _ end) => destruct b end || auto with frames).

Section frames.
Context {K : Compress.SecKeys}.

Lemma pure_isActive p prev id : pure (isActive p prev id).
Proof. unfold isActive. eauto with frames. Qed.
#[local] Hint Resolve pure_isActive : frames.

Lemma pure_rule {A} (r : A + ErrorCode) : pure (rule r).
Proof. destruct r; [apply pure_ret|apply pure_fail]. Qed.
#[local] Hint Resolve pure_rule : frames.

Lemma pure_calcSequenceLock p node tx mempool : pure (calcSequenceLock p node tx mempool).
Proof.
  unfold calcSequenceLock. frame.
Qed.

Lemma pure_checkSequenceLocks p node h mt txs : pure (checkSequenceLocks p node h mt txs).
Proof.
  induction txs as [|tx txs IH]; [apply pure_ret|]. cbn [checkSequenceLocks]. apply pure_bind; [apply pure_calcSequenceLock|]. frame.
Qed.

Lemma pure_sumSigOpCost txs f b w n : pure (sumSigOpCost txs f b w n).
Proof.
  revert f n. induction txs as [|tx txs IH]; intros f n; [apply pure_ret|]. cbn [sumSigOpCost].
  frame.
Qed.

End frames.

(** ** The block *)

Section block.
Context {K : Compress.SecKeys} {Kok : Compress.SecKeysOk K} {R : ScriptRunner}.

Lemma subsidy_range h i : 0 ≤ CalcBlockSubsidy h i ≤ 2 ^ 32.
Proof.
  unfold CalcBlockSubsidy, baseSubsidy. destruct (i =? 0); [done|]. pose proof (uwrap_range 64 (Z.quot h i) ltac:(lia)) as Hr.
  set (n := u64 _) in *. rewrite Z.shiftr_div_pow2 by lia. assert (0 < 2 ^ n) by (apply Z.pow_pos_nonneg; lia).
  split; [apply Z.div_pos; lia|]. apply Z.div_le_upper_bound; nia.
Qed.

Lemma minted_block cb rest : IsCoinBaseTx cb = true → Forall (fun tx => IsCoinBaseTx tx = false) rest →
  minted (cb :: rest) = values (Wire.TxOuts cb).
Proof.
  intros Hcb Hr. rewrite minted_cons. unfold minted at 1. cbn [foldr]. rewrite Hcb.
  assert (minted rest = 0) as ->; [|lia]. induction Hr as [|tx rest Ht _ IH]; [done|]. rewrite minted_cons. unfold minted at 1. cbn [foldr].
  rewrite Ht. lia.
Qed.

(** The parts of a successful run of [checkConnectBlock] *)
Lemma checkConnectBlock_inv p node block st s st' s' : checkConnectBlock p node block st s = Done (inl st', s') →
  ∃ nd s1 s2 s3 s4 s5 fees first,
    deref (ColdRead.heap_ (Threshold.bc (chain_ s))) node = Done nd ∧ bestHash (view s) = Wire.PrevBlock (Header block) ∧
    (s1 = s ∨ checkBIP0030 block s = Done (inl tt, s1)) ∧
    fetch (UtxoView.fetchInputUtxos block) s1 = Done (inl tt, s2) ∧ same_utxos s2 s3 ∧
    connectInputs (Transactions block) (height nd) p 0 st s3 = Done (inl (fees, st'), s4) ∧
    index (Transactions block) 0 = Done first ∧
    totalOut first ≤ i64 (CalcBlockSubsidy (height nd) (SubsidyReductionInterval p) + fees) ∧ same_utxos s4 s5 ∧
    s' = set_view {| entries := entries (view s5); bestHash := hash nd |} s5.
Proof.
  unfold checkConnectBlock. intros (h & ? & [= <- <-] & (nd & ? & [End ->]%io_run_inv & E)%io_bind_inv)%io_bind_inv.
  destruct (bool_decide (hash nd = GenesisHash p)); [done|]. apply io_bind_inv in E as (? & ? & [= <- <-] & E).
  destruct (bool_decide_reflect (bestHash (view s) = Wire.PrevBlock (Header block))); [|done]. cbn [negb] in E.
  apply io_bind_inv in E as (needed & ? & [_ ->]%io_run_inv & E). apply io_bind_inv in E as ([] & s1 & E1 & E).
  apply io_bind_inv in E as ([] & s2 & E2 & E). apply io_bind_inv in E as (segwit & s2a & P1%pure_isActive & E).
  apply io_bind_inv in E as ([] & s3 & P2%pure_sumSigOpCost & E). apply io_bind_inv in E as ([fees st1] & s4 & E4 & E).
  apply io_bind_inv in E as (first & ? & [Ef ->]%io_run_inv & E). destruct (Z.ltb_spec (i64 (CalcBlockSubsidy (height nd) (SubsidyReductionInterval p) + fees)) (totalOut first)) as [|Hle]; [done|].
  apply io_bind_inv in E as (csv & s4a & P3%pure_isActive & E). apply io_bind_inv in E as ([] & s4b & P4 & E).
  apply io_bind_inv in E as (taproot & s5 & P5%pure_isActive & E). apply io_bind_inv in E as (? & ? & [= <- <-] & E).
  match type of E with context [match ?m with Some _ => _ | None => _ end] => destruct m; [done|] end.
  apply io_bind_inv in E as ([] & s6 & E6 & [= <- <-]).
  assert (same_utxos s4a s4b) as P4'.
  { destruct csv; [|by injection P4 as <-]. revert P4. apply pure_bind; [apply pure_heap|]. intros h1. apply pure_bind; [apply pure_run|].
    intros par. apply pure_bind; [apply pure_run|]. intros mt. apply pure_checkSequenceLocks. }
  exists nd, s1, s2, s3, s4, s5, fees, first. split_and!; try done.
  - destruct needed; [by right|left]. by injection E1 as <-.
  - destruct P1, P2. split; congruence.
  - destruct P3, P4', P5. split; congruence.
  - unfold inView in E6. cbn in E6. by injection E6 as <-.
Qed.

(** BIP 30: with a view that agrees with the UTXO set, [checkBIP0030]
    accepts a block exactly when none of its outputs is in the UTXO set, and
    changes neither the set nor what the view says about it. *)
Theorem bip30_spec (block : Block) (s : state) (d U : coins) (h : Z) (txs : list (Wire.Tx * list byte)) :
  UtxoCache.cinv (utxos s) d U → vinv (λ _, False) (view s) U U → nil_absent (view s) U →
  Transactions block = txs.*1 → Forall (creates_ok ∅ h) txs →
  ∃ ops r s', blockOutputs (Transactions block) = Done ops ∧ checkBIP0030 block s = Done (r, s') ∧
    (r = inl tt ∧ (∀ o, o ∈ ops → U !! o = None) ∨ r = inr ErrOverwriteTx ∧ ∃ o c, o ∈ ops ∧ U !! o = Some c) ∧
    UtxoCache.cinv (utxos s') d U ∧ vinv (λ _, False) (view s') U U.
Proof.
  intros Hi Hv Hn Et Hc. destruct (bip30_run block s d ∅ h U txs Hi Hv Hn Et Hc) as (ops & r & s' & E1 & _ & E2 & Hr & Hi' & Hv' & _).
  by exists ops, r, s'.
Qed.

(** C1 (safety).  A block that passes [checkConnectBlock], whose transactions pass
    [CheckTransactionSanity] and come in the order of their dependencies, applies
    to the UTXO set: every input is an unspent output, and a coinbase output is spent
    only at its maturity; the view then stands for the set after the block and
    records its hash; the value of the set grows by at most the subsidy; and the
    cache connects the block with the same spent outputs.  No sum overflows on the
    way. *)
Theorem validated_block_applies (p : Params) (node : loc) (nd : BlockNode.blockNode) (block : Block)
    (cb : Wire.Tx * list byte) (rest : list (Wire.Tx * list byte)) (s s' : state) (d U : coins) (st' : option (list SpentTxOut)) :
  UtxoCache.cinv (utxos s) d U → vinv (λ _, False) (view s) U U → nil_absent (view s) U → nonneg U →
  deref (ColdRead.heap_ (Threshold.bc (chain_ s))) node = Done nd → 0 ≤ height nd < 2 ^ 31 → 0 ≤ CoinbaseMaturity p < 2 ^ 16 →
  Transactions block = (cb :: rest).*1 → BlockHeight block = height nd →
  Forall (creates_ok d (height nd)) (cb :: rest) → Forall UtxoView.inputs_wf rest.*1 → UtxoView.block_shape cb rest →
  Forall (fun tx => CheckTransactionSanity tx = None) (Transactions block) → ordered (cb :: rest) →
  checkConnectBlock p node block (Some []) s = Done (inl st', s') →
  ∃ U' spent u', applyTxs (cb :: rest) (height nd) U [] = Some (U', spent) ∧ st' = Some (map stxoOf spent) ∧
    Forall (mature (height nd) (CoinbaseMaturity p)) spent ∧
    vinv (λ _, False) (view s') U U' ∧ bestHash (view s') = hash nd ∧
    value U' ≤ value U + CalcBlockSubsidy (height nd) (SubsidyReductionInterval p) ∧
    UtxoCache.connectTransactions (Transactions block) (height nd) (Some []) (utxos s') = Done (inl st', u') ∧
    UtxoCache.cinv u' d U'.
Proof.
  intros Hi Hv Hn HU Hd Hh Hmat Et Eh Hc Hw Hsh Hs Ho E.
  assert (Forall sane (cb :: rest).*1) as Hs' by (rewrite <-Et; eapply Forall_impl; [exact Hs|]; intros tx; apply tx_sanity_iff).
  apply checkConnectBlock_inv in E as (nd' & s1 & s2 & s3 & s4 & s5 & fees & first & Hd' & _ & H1 & H2 & [U3 V3] & H4 & Hf & Hle & [U5 V5] & ->).
  rewrite Hd in Hd'. injection Hd' as <-.
  assert (UtxoCache.cinv (utxos s1) d U ∧ vinv (λ _, False) (view s1) U U) as [Hi1 Hv1].
  { destruct H1 as [->|H1]; [done|].
    destruct (bip30_run block s d d (height nd) U (cb :: rest) Hi Hv Hn Et Hc) as (_ & r & s'' & _ & _ & E2 & _ & Hi' & Hv' & _).
    rewrite H1 in E2. injection E2 as _ <-. done. }
  destruct (UtxoView.fetchInputUtxos_ok cb rest (height nd) d (view s1) (utxos s1) d U (Header block) Hc Hw Hi1)
    as (v2 & u2 & E2 & Hi2 & Hv2 & _); [by apply (UtxoView.vinv_weaken _ _ _ _ _ _ Hv1)|].
  assert (block = {| Header := Header block; Transactions := (cb :: rest).*1; BlockHeight := height nd |}) as Eb
    by (rewrite <-Et, <-Eh; by destruct block). rewrite <-Eb in E2. unfold fetch in H2. rewrite E2 in H2. cbn in H2. injection H2 as <-.
  cbn [view utxos set_view set_utxos] in U3, V3. rewrite Et in H4. rewrite <-V3 in Hv2.
  destruct (connectInputs_inv (cb :: rest) d p (height nd) U 0 fees [] st' s3 s4 U Hv2 Hc Hs' Ho HU Hh Hmat ltac:(lia) H4)
    as (U' & spent & Ea & -> & Hm & Hv4 & Es4 & B4 & Hfee & Hval).
  assert (utxos s5 = u2) as Eu by (rewrite U5, Es4; cbn; done).
  destruct (UtxoCache.connect_ok (cb :: rest) (height nd) u2 d U U' (Some []) [] spent Hi2 Hc Ea eq_refl) as (u' & Ec & Hi').
  exists U', spent, u'. cbn [view utxos set_view app bestHash] in *. rewrite Eu, Et. split_and!; try done.
  - rewrite V5. by destruct Hv4.
  - rewrite Et in Hf. injection Hf as <-. destruct cb as [tx hs]. cbn [fst] in *. destruct Hsh as (Hcb & Hr & _).
    apply Forall_cons in Hs' as [Hs1 _]. rewrite (totalOut_values tx Hs1) in Hle.
    cbn [fmap list_fmap fst] in Hval. rewrite minted_block in Hval; [|done|by apply Forall_fmap].
    pose proof (values_nonneg _ (nonneg_outs _ Hs1)). pose proof (subsidy_range (height nd) (SubsidyReductionInterval p)).
    destruct (i64_sum (CalcBlockSubsidy (height nd) (SubsidyReductionInterval p)) fees); lia.
Qed.

End block.

(** ** Concrete runs *)

#[local] Existing Instance Compress.toyKeys.
#[local] Existing Instance Compress.toyKeysOk.
#[local] Existing Instance Connect.noScripts.
Import UtxoCache (txid).
Import BlockNode (toyLoc).

Definition oldCoins : coins := {[oldOut := oldCoin]}.
Definition block7 : list (Wire.Tx * list byte) := map (fun tx => (tx, txid tx)) [coinbase7; txB; txC; txD].

Lemma oldRows_ok : rows oldRows oldCoins.
Proof.
  destruct (rows_put ∅ ∅ oldOut oldCoin rows_empty) as (b' & E & Hr).
  - apply toyOp_wf.
  - vm_compute. repeat split; congruence.
  - reflexivity.
  - unfold oldRows. rewrite E. exact Hr.
Qed.

Lemma block7_creates : Forall (creates_ok oldCoins 7) block7.
Proof.
  repeat apply Forall_cons_2; [..|constructor].
  all: split; [vm_compute; reflexivity|]; split; [vm_compute; reflexivity|]; split; [done|].
  all: intros i t Hi Ht; split; [apply lookup_singleton_None; intros E%(f_equal Wire.Hash); vm_compute in E; congruence|].
  all: cbn in Ht; destruct (Z.to_nat i) as [|[|n]]; try (injection Ht as <-); try done; vm_compute; repeat split; congruence.
Qed.

Lemma block7_ordered : ordered block7.
Proof. repeat split; (intros _; apply (bool_decide_unpack _); vm_compute; exact I). Qed.

Lemma block7_shape : UtxoView.block_shape (coinbase7, txid coinbase7) (tail block7).
Proof.
  split; [reflexivity|]. split; apply (bool_decide_unpack _); vm_compute; exact I.
Qed.

Lemma block7_inputs : Forall UtxoView.inputs_wf (tail block7).*1.
Proof. repeat constructor; vm_compute; congruence. Qed.

Lemma startOf_ok : let s := (startOf block7.*1).1 in
  UtxoCache.cinv (utxos s) oldCoins oldCoins ∧ vinv (λ _, False) (view s) oldCoins oldCoins ∧ nil_absent (view s) oldCoins.
Proof.
  split; [apply UtxoCache.start_ok, oldRows_ok|]. split.
  - split; intros o; unfold LookupEntry; cbn; rewrite lookup_empty; done.
  - intros o. cbn. by rewrite lookup_empty.
Qed.

(** A block that creates 5000 coins *)
Lemma validated_block_applies_witness : ∃ st' s' U' spent,
  checkConnectBlock toyParams (toyLoc 7) (startOf block7.*1).2 (Some []) (startOf block7.*1).1 = Done (inl st', s') ∧
  applyTxs block7 7 oldCoins [] = Some (U', spent) ∧ value U' ≤ 7000 + 2 ^ 32.
Proof.
  assert (match checkConnectBlock toyParams (toyLoc 7) (startOf block7.*1).2 (Some []) (startOf block7.*1).1 with
          | Done (inl _, _) => true | _ => false end = true) as E by (vm_compute; reflexivity).
  destruct (checkConnectBlock _ _ _ _ _) as [[[st'|e] s']| |] eqn:Ec; try discriminate E. clear E.
  destruct (deref (ColdRead.heap_ (Threshold.bc (chain_ (startOf block7.*1).1))) (toyLoc 7)) as [nd| |] eqn:En; [|vm_compute in En; discriminate En..].
  assert (height nd = 7) as Eh by (vm_compute in En; injection En as <-; reflexivity).
  destruct startOf_ok as (Hi & Hv & Hn).
  destruct (validated_block_applies toyParams (toyLoc 7) nd (startOf block7.*1).2 (coinbase7, txid coinbase7) (tail block7)
    (startOf block7.*1).1 s' oldCoins oldCoins st' Hi Hv Hn) as (U' & spent & u' & Ea & _ & _ & _ & _ & Hval & _); rewrite ?Eh.
  - apply map_Forall_singleton. cbn. lia.
  - exact En.
  - lia.
  - cbn. lia.
  - reflexivity.
  - reflexivity.
  - exact block7_creates.
  - exact block7_inputs.
  - exact block7_shape.
  - repeat constructor; vm_compute; reflexivity.
  - exact block7_ordered.
  - exact Ec.
  - rewrite Eh in Ea, Hval. exists st', s', U', spent. split; [reflexivity|]. split; [exact Ea|].
    transitivity (value oldCoins + CalcBlockSubsidy 7 (SubsidyReductionInterval toyParams)); [exact Hval|].
    vm_compute. congruence.
Defined.

Lemma bip30_spec_witness : ∃ ops s', blockOutputs block7.*1 = Done ops ∧
  checkBIP0030 (startOf block7.*1).2 (startOf block7.*1).1 = Done (inl tt, s').
Proof.
  destruct startOf_ok as (Hi & Hv & Hn).
  destruct (bip30_spec (startOf block7.*1).2 (startOf block7.*1).1 oldCoins oldCoins 7 block7 Hi Hv Hn) as (ops & r & s' & Eo & E & Hr & _).
  - reflexivity.
  - eapply Forall_impl; [exact block7_creates|]. intros [tx hs] (H1 & H2 & H3 & H4). split_and!; try assumption.
    intros i t Hi' Ht. split; [apply lookup_empty|]. apply (H4 i t Hi' Ht).
  - exists ops, s'. split; [exact Eo|]. rewrite E. destruct Hr as [[-> _]|(_ & o & c & Ho & Hc)]; [reflexivity|]. exfalso.
    unfold oldCoins in Hc. apply lookup_singleton_Some in Hc as [<- _]. revert Ho. vm_compute in Eo. injection Eo as <-.
    apply (bool_decide_unpack (_ ∉ _)). vm_compute. exact I.
Defined.

End ConnectSafe.
