(* ===== verification/ScriptNum.v ===== *)
(** * ScriptNum: numbers in scripts and coinbase heights

    Model of [txscript/scriptnum.go] and [txscript/scriptbuilder.go], and of the
    coinbase height rules of [blockchain/validate.go] (BIP 34) that use them.  A
    [scriptNum] is an [int64]; the builder carries its first error.  The reference
    for the encoding is [numVal], sign and magnitude in little endian. *)

From S2P Require Import Prelude Compress Wire Script Sanity.

Module ScriptNum.
Import Sanity (ErrorCode, ErrMissingCoinbaseHeight, ErrBadCoinbaseHeight, ErrScriptNotCanonical, HasPrefix).

Inductive numError := ErrMinimalData | ErrNumberTooBig.

(** ** Numbers *)

(** The bytes are taken from the most significant one. *)
Definition checkMinimalDataEncoding (v : list byte) : option numError :=
  match rev v with
  | [] => None
  | hi :: rest =>
      if Z.land (b2z hi) 0x7f =? 0 then
        match rest with
        | [] => Some ErrMinimalData
        | next :: _ => if Z.land (b2z next) 0x80 =? 0 then Some ErrMinimalData else None
        end
      else None
  end.

Fixpoint Bytes_loop (fuel : nat) (n : Z) (result : list byte) : run (list byte) :=
  if 0 <? n then
    match fuel with
    | O => NoFuel
    | S fuel => Bytes_loop fuel (Z.shiftr n 8) (result ++ [z2b (Z.land n 0xff)])
    end
  else Done result.

(** Eight rounds are enough for an [int64]. *)
Definition Bytes (n : Z) : run (list byte) :=
  if n =? 0 then Done [] else
  let isNegative := n <? 0 in
  let n := if isNegative then i64 (- n) else n in
  result ← Bytes_loop 8 n [];
  hi ← index result (zlen result - 1);
  if negb (Z.land (b2z hi) 0x80 =? 0) then Done (result ++ [z2b (if isNegative then 0x80 else 0x00)])
  else if isNegative then store result (zlen result - 1) (z2b (Z.lor (b2z hi) 0x80))
  else Done result.

Definition maxInt32 : Z := 2 ^ 31 - 1.
Definition minInt32 : Z := - 2 ^ 31.

Definition Int32 (n : Z) : Z :=
  if maxInt32 <? n then maxInt32 else if n <? minInt32 then minInt32 else i32 n.

(** The shift count is a [uint8]. *)
Fixpoint decodeNum (v : list byte) (i result : Z) : Z :=
  match v with
  | [] => result
  | val :: v => decodeNum v (i + 1) (Z.lor result (i64 (Z.shiftl (b2z val) (u8 (8 * i)))))
  end.

Definition MakeScriptNum (v : list byte) (requireMinimal : bool) (scriptNumLen : Z) : Z + numError :=
  if scriptNumLen <? zlen v then inr ErrNumberTooBig else
  match (if requireMinimal then checkMinimalDataEncoding v else None) with
  | Some e => inr e
  | None =>
      match rev v with
      | [] => inl 0
      | hi :: _ =>
          let result := decodeNum v 0 0 in
          if negb (Z.land (b2z hi) 0x80 =? 0) then
            inl (i64 (- Z.land result (Z.lnot (i64 (Z.shiftl 0x80 (u8 (8 * (zlen v - 1))))))))
          else inl result
      end
  end.

(** ** The script builder *)

Definition MaxScriptSize : Z := 10000.
Definition MaxScriptElementSize : Z := 520.
Definition OP_1NEGATE : Z := 0x4f.
Definition OP_DATA_1 : Z := 0x01.

Record ScriptBuilder := { built : list byte; notCanonical : bool }.

Definition NewScriptBuilder : ScriptBuilder := {| built := []; notCanonical := false |}.
Definition emit (bs : list byte) (b : ScriptBuilder) : ScriptBuilder :=
  {| built := built b ++ bs; notCanonical := notCanonical b |}.
Definition tooLong (b : ScriptBuilder) : ScriptBuilder := {| built := built b; notCanonical := true |}.

Definition AddOps (opcodes : list byte) (b : ScriptBuilder) : ScriptBuilder :=
  if notCanonical b then b
  else if MaxScriptSize <? zlen (built b) + zlen opcodes then tooLong b
  else emit opcodes b.

Definition AddOp (opcode : byte) (b : ScriptBuilder) : ScriptBuilder :=
  if notCanonical b then b
  else if MaxScriptSize <? zlen (built b) + 1 then tooLong b
  else emit [opcode] b.

Definition canonicalDataSize (data : list byte) : Z :=
  let dataLen := zlen data in
  match data with
  | [] => 1
  | [d] => if b2z d <=? 16 then 1 else if b2z d =? 0x81 then 1 else 1 + dataLen
  | _ =>
      if dataLen <? Script.OP_PUSHDATA1 then 1 + dataLen
      else if dataLen <=? 0xff then 2 + dataLen
      else if dataLen <=? 0xffff then 3 + dataLen
      else 5 + dataLen
  end.

(** The push opcode with the length *)
Definition pushPrefix (dataLen : Z) : list byte :=
  if dataLen <? Script.OP_PUSHDATA1 then [z2b (OP_DATA_1 - 1 + dataLen)]
  else if dataLen <=? 0xff then [z2b Script.OP_PUSHDATA1; z2b dataLen]
  else if dataLen <=? 0xffff then z2b Script.OP_PUSHDATA2 :: le_bytes 2 (u16 dataLen)
  else z2b Script.OP_PUSHDATA4 :: le_bytes 4 (u32 dataLen).

Definition addData (data : list byte) (b : ScriptBuilder) : ScriptBuilder :=
  let push := emit (pushPrefix (zlen data) ++ data) b in
  match data with
  | [] => emit [z2b Script.OP_0] b
  | [d] =>
      if b2z d =? 0 then emit [z2b Script.OP_0] b
      else if b2z d <=? 16 then emit [z2b (Script.OP_1 - 1 + b2z d)] b
      else if b2z d =? 0x81 then emit [z2b OP_1NEGATE] b
      else push
  | _ => push
  end.

Definition AddFullData (data : list byte) (b : ScriptBuilder) : ScriptBuilder :=
  if notCanonical b then b else addData data b.

Definition AddData (data : list byte) (b : ScriptBuilder) : ScriptBuilder :=
  if notCanonical b then b
  else if MaxScriptSize <? zlen (built b) + canonicalDataSize data then tooLong b
  else if MaxScriptElementSize <? zlen data then tooLong b
  else addData data b.

Definition AddInt64 (val : Z) (b : ScriptBuilder) : run ScriptBuilder :=
  if notCanonical b then Done b
  else if MaxScriptSize <? zlen (built b) + 1 then Done (tooLong b)
  else if val =? 0 then Done (emit [z2b Script.OP_0] b)
  else if (val =? -1) || ((1 <=? val) && (val <=? 16)) then Done (emit [z2b (Script.OP_1 - 1 + val)] b)
  else bs ← Bytes val; Done (AddData bs b).

Definition Script_ (b : ScriptBuilder) : list byte + ErrorCode :=
  if notCanonical b then inr ErrScriptNotCanonical else inl (built b).

(** ** The height in the coinbase *)

Definition compareScript (height : Z) (script : list byte) : run (option ErrorCode) :=
  b ← AddInt64 height NewScriptBuilder;
  Done (match Script_ b with
        | inr e => Some e
        | inl scriptHeight => if HasPrefix script scriptHeight then None else Some ErrBadCoinbaseHeight
        end).

Definition ExtractCoinbaseHeight (coinbaseTx : Wire.Tx) : run (Z + ErrorCode) :=
  ti ← index (Wire.TxIns coinbaseTx) 0;
  let sigScript := Wire.SignatureScript ti in
  match sigScript with
  | [] => Done (inr ErrMissingCoinbaseHeight)
  | op :: tl =>
      let opcode := b2z op in
      if opcode =? Script.OP_0 then Done (inl 0)
      else if (Script.OP_1 <=? opcode) && (opcode <=? Script.OP_16) then Done (inl (i32 (opcode - (Script.OP_1 - 1))))
      else
        let serializedLen := opcode in
        if zlen tl <? serializedLen then Done (inr ErrMissingCoinbaseHeight) else
        src ← slice sigScript 1 (serializedLen + 1);
        let serializedHeight := i32 (le_val (gocopy (replicate 4 (z2b 0)) src)) in
        e ← compareScript serializedHeight sigScript;
        Done (match e with Some e => inr e | None => inl serializedHeight end)
  end.

Definition CheckSerializedHeight (coinbaseTx : Wire.Tx) (wantHeight : Z) : run (option ErrorCode) :=
  r ← ExtractCoinbaseHeight coinbaseTx;
  Done (match r with
        | inr e => Some e
        | inl serializedHeight => if serializedHeight =? wantHeight then None else Some ErrBadCoinbaseHeight
        end).

(** ** Sign and magnitude *)

Lemma land_ff n : Z.land n 0xff = n mod 256.
Proof. change 0xff with (Z.ones 8). rewrite Z.land_ones by lia. done. Qed.

Lemma land_7f n : Z.land n 0x7f = n mod 128.
Proof. change 0x7f with (Z.ones 7). rewrite Z.land_ones by lia. done. Qed.

Lemma land_80 n : 0 ≤ n < 256 → (Z.land n 0x80 =? 0) = (n <? 128).
Proof.
  intros Hn. change 0x80 with (2 ^ 7). rewrite land_pow2 by lia. rewrite testbit_top by lia.
  destruct (Z.leb_spec (2 ^ 7) n), (Z.ltb_spec n 128); try reflexivity; lia.
Qed.

Lemma le_val_snoc w hi : le_val (w ++ [hi]) = le_val w + 256 ^ zlen w * b2z hi.
Proof.
  unfold zlen. induction w as [|b w IH]; [cbn; lia|]. cbn [app le_val length]. rewrite IH, Nat2Z.inj_succ, Z.pow_succ_r by lia. lia.
Qed.

Lemma le_val_pos w hi : b2z hi ≠ 0 → 256 ^ zlen w ≤ le_val (w ++ [hi]).
Proof.
  intros Hh. rewrite le_val_snoc. pose proof (b2z_range hi). pose proof (le_val_range w).
  assert (0 < 256 ^ zlen w) by (apply Z.pow_pos_nonneg; unfold zlen; lia). nia.
Qed.

Lemma Bytes_loop_digits w hi fuel acc : b2z hi ≠ 0 → (length (w ++ [hi]) ≤ fuel)%nat →
  Bytes_loop fuel (le_val (w ++ [hi])) acc = Done (acc ++ w ++ [hi]).
Proof.
  intros Hh. revert fuel acc. induction w as [|b w IH]; intros fuel acc Hf; (destruct fuel as [|fuel]; [cbn in Hf; lia|]).
  - cbn [app le_val]. pose proof (b2z_range hi). cbn [Bytes_loop]. destruct (Z.ltb_spec 0 (b2z hi + 256 * 0)); [|lia].
    rewrite land_ff, Z.shiftr_div_pow2 by lia. rewrite Z.mul_0_r, Z.add_0_r. rewrite (Z.mod_small (b2z hi) 256), (Z.div_small (b2z hi) (2 ^ 8)) by lia.
    rewrite z2b_b2z. by destruct fuel.
  - pose proof (le_val_pos w hi Hh). assert (0 < 256 ^ zlen w) by (apply Z.pow_pos_nonneg; unfold zlen; lia).
    pose proof (b2z_range b). cbn [app le_val length] in *. cbn [Bytes_loop]. set (t := le_val (w ++ [hi])) in *.
    destruct (Z.ltb_spec 0 (b2z b + 256 * t)); [|lia].
    rewrite land_ff, Z.shiftr_div_pow2 by lia. change (2 ^ 8) with 256.
    rewrite <-(Z.mod_unique (b2z b + 256 * t) 256 t (b2z b)), <-(Z.div_unique (b2z b + 256 * t) 256 t (b2z b)) by lia.
    rewrite z2b_b2z, IH by lia. by rewrite <-app_assoc.
Qed.

Lemma digits_exist k n : 0 < n < 256 ^ Z.of_nat k → ∃ w hi, n = le_val (w ++ [hi]) ∧ b2z hi ≠ 0 ∧ (length w < k)%nat.
Proof.
  revert n. induction k as [|k IH]; intros n Hn; [cbn in Hn; lia|]. rewrite Nat2Z.inj_succ, Z.pow_succ_r in Hn by lia.
  pose proof (Z.div_mod n 256 ltac:(lia)) as Ed. pose proof (Z.mod_pos_bound n 256 ltac:(lia)) as Hm.
  destruct (decide (n / 256 = 0)) as [E|E].
  - exists [], (z2b n). cbn [app le_val length]. rewrite b2z_z2b_small by lia. split; [lia|]. split; [lia|lia].
  - destruct (IH (n / 256)) as (w & hi & Ew & Hh & Hl).
    { split; [assert (0 ≤ n / 256) by (apply Z.div_pos; lia); lia|apply Z.div_lt_upper_bound; lia]. }
    exists (z2b (n mod 256) :: w), hi. cbn [app le_val length]. rewrite b2z_z2b_small by lia. split; [lia|]. split; [done|lia].
Qed.

(** The number that [v] stands for *)
Definition numVal (v : list byte) : Z :=
  match rev v with
  | [] => 0
  | hi :: _ => if b2z hi <? 128 then le_val v else - (le_val v - 2 ^ (8 * zlen v - 1))
  end.

Lemma pow256 i : 0 ≤ i → 256 ^ i = 2 ^ (8 * i).
Proof. intros Hi. change 256 with (2 ^ 8). by rewrite <-Z.pow_mul_r by lia. Qed.

Lemma decode_step r b i : 0 ≤ i ≤ 7 → 0 ≤ r < 256 ^ i → 0 ≤ b < 256 → i ≤ 6 ∨ b < 128 →
  Z.lor r (i64 (Z.shiftl b (u8 (8 * i)))) = r + 256 ^ i * b.
Proof.
  intros Hi Hr Hb Hc. rewrite (uwrap_small 8 (8 * i)) by zlia. rewrite Z.shiftl_mul_pow2 by lia. rewrite pow256 in * by lia.
  assert (0 ≤ b * 2 ^ (8 * i) < 2 ^ 63).
  { assert (0 < 2 ^ (8 * i)) by (apply Z.pow_pos_nonneg; lia). split; [nia|]. destruct Hc.
    - assert (2 ^ (8 * i) ≤ 2 ^ 48) by (apply Z.pow_le_mono_r; lia). nia.
    - assert (2 ^ (8 * i) ≤ 2 ^ 56) by (apply Z.pow_le_mono_r; lia). nia. }
  rewrite swrap_small by zlia. rewrite Z.lor_comm, lor_pack by lia. lia.
Qed.

Lemma decode_prefix w t i r : 0 ≤ i → i + zlen w ≤ 7 → 0 ≤ r < 256 ^ i →
  decodeNum (w ++ t) i r = decodeNum t (i + zlen w) (r + 256 ^ i * le_val w).
Proof.
  revert i r. induction w as [|b w IH]; intros i r Hi Hl Hr.
  { cbn [app le_val]. change (zlen []) with 0. by rewrite Z.mul_0_r, !Z.add_0_r. }
  rewrite zlen_cons in *. pose proof (zlen_nonneg w). pose proof (b2z_range b). cbn [app decodeNum le_val].
  rewrite decode_step by lia. rewrite IH; [|lia|lia|].
  - f_equal; [lia|]. rewrite Z.pow_add_r by lia. lia.
  - rewrite Z.pow_add_r by lia. nia.
Qed.

Lemma clear_bit x k : 0 ≤ k → 2 ^ k ≤ x < 2 ^ (k + 1) → Z.land x (Z.lnot (2 ^ k)) = x - 2 ^ k.
Proof.
  intros Hk Hx. rewrite <-Z.ldiff_land. symmetry. apply Z.sub_nocarry_ldiff. apply Z.bits_inj'. intros j Hj.
  rewrite Z.ldiff_spec, Z.bits_0, Z.pow2_bits_eqb by lia. destruct (Z.eqb_spec k j) as [<-|]; [|done].
  assert (0 < 2 ^ k) by (apply Z.pow_pos_nonneg; lia).
  rewrite testbit_top by lia. destruct (Z.leb_spec (2 ^ k) x); [done|lia].
Qed.

Lemma MakeScriptNum_val v (requireMinimal : bool) len : zlen v ≤ 8 → zlen v ≤ len →
  (if requireMinimal then checkMinimalDataEncoding v else None) = None → MakeScriptNum v requireMinimal len = inl (numVal v).
Proof.
  intros H8 Hl Hm. unfold MakeScriptNum, numVal. destruct (Z.ltb_spec len (zlen v)); [lia|]. rewrite Hm.
  destruct v as [|hi w _] using rev_ind; [done|]. rewrite rev_app_distr. cbn [rev app].
  rewrite zlen_app in *. change (zlen [hi]) with 1 in *. pose proof (zlen_nonneg w). pose proof (b2z_range hi) as Hb.
  rewrite (decode_prefix w [hi] 0 0) by (try lia; done). cbn [decodeNum]. rewrite !Z.add_0_l, Z.pow_0_r, Z.mul_1_l.
  pose proof (le_val_range w) as Hw. fold (zlen w) in Hw. rewrite land_80 by done. rewrite le_val_snoc.
  replace (zlen w + 1 - 1) with (zlen w) by lia. rewrite (uwrap_small 8 (8 * zlen w)) by zlia.
  destruct (Z.ltb_spec (b2z hi) 128); cbn [negb].
  { f_equal. rewrite <-(decode_step (le_val w) (b2z hi) (zlen w)) by lia. by rewrite (uwrap_small 8 (8 * zlen w)) by zlia. }
  f_equal. rewrite pow256 in * by lia. replace (8 * (zlen w + 1) - 1) with (8 * zlen w + 7) by lia.
  assert (2 ^ (8 * zlen w + 7) = 2 ^ (8 * zlen w) * 128) as E7 by (by rewrite Z.pow_add_r by lia).
  assert (2 ^ (8 * zlen w + 7 + 1) = 2 ^ (8 * zlen w) * 256) as E8 by (rewrite <-Z.add_assoc; by rewrite Z.pow_add_r by lia).
  set (p := 2 ^ (8 * zlen w)) in *. assert (0 < p) by (apply Z.pow_pos_nonneg; lia).
  assert (128 * p ≤ b2z hi * p ≤ 255 * p) as Hbp by nia.
  rewrite !Z.shiftl_mul_pow2 by lia. fold p. set (x := le_val w + p * b2z hi).
  destruct (decide (zlen w ≤ 6)) as [H6|H7].
  - assert (p ≤ 2 ^ 48) by (apply Z.pow_le_mono_r; lia). rewrite (swrap_small 64 (b2z hi * p)), (swrap_small 64 (128 * p)) by zlia.
    rewrite Z.lor_comm. unfold p at 1. rewrite lor_pack by (fold p; lia). fold p.
    replace (b2z hi * p + le_val w) with x by lia. replace (128 * p) with (2 ^ (8 * zlen w + 7)) by lia.
    rewrite clear_bit by lia. rewrite swrap_small; zlia.
  - assert (zlen w = 7) as E by lia. assert (p = 2 ^ 56) as Ep by (unfold p; by rewrite E).
    assert (i64 (b2z hi * p) = (b2z hi - 256) * p) as ->.
    { unfold swrap. rewrite <-(Z.mod_unique (b2z hi * p + 2 ^ (64 - 1)) (2 ^ 64) 1 (b2z hi * p - 2 ^ 63)); zlia. }
    assert (i64 (128 * p) = - 2 ^ 63) as -> by (by rewrite Ep).
    rewrite Z.lor_comm. unfold p at 1. rewrite lor_pack by (fold p; lia). fold p.
    change (Z.lnot (- 2 ^ 63)) with (Z.ones 63). rewrite Z.land_ones by lia.
    rewrite <-(Z.mod_unique ((b2z hi - 256) * p + le_val w) (2 ^ 63) (-1) (x - 2 ^ 63)) by zlia. rewrite E7, swrap_small; zlia.
Qed.

Lemma store_snoc {A} (w : list A) x y : store (w ++ [x]) (zlen w) y = Done (w ++ [y]).
Proof.
  unfold store, zlen. rewrite decide_True by (rewrite length_app; cbn; lia). f_equal.
  rewrite Nat2Z.id, insert_app_r_alt by lia. by rewrite Nat.sub_diag.
Qed.

(** The encoding of the number with the digits [w ++ [hi]] *)
Definition encoded (neg : bool) (w : list byte) (hi : byte) : list byte :=
  if b2z hi <? 128 then w ++ [if neg then z2b (b2z hi + 128) else hi] else w ++ [hi; z2b (if neg then 0x80 else 0)].

Lemma lor_80 b : 0 ≤ b < 128 → Z.lor b 0x80 = b + 128.
Proof. intros Hb. rewrite Z.lor_comm. change 0x80 with (1 * 2 ^ 7). rewrite lor_pack by lia. lia. Qed.

Lemma Bytes_digits (neg : bool) w hi : b2z hi ≠ 0 → le_val (w ++ [hi]) < 2 ^ 63 →
  Bytes (if neg then - le_val (w ++ [hi]) else le_val (w ++ [hi])) = Done (encoded neg w hi).
Proof.
  intros Hh Hm. pose proof (le_val_pos w hi Hh) as Hp. assert (0 < 256 ^ zlen w) by (apply Z.pow_pos_nonneg; unfold zlen; lia).
  assert ((length w < 8)%nat) as Hlw.
  { destruct (decide (length w < 8)%nat); [done|]. assert (256 ^ 8 ≤ 256 ^ zlen w) by (apply Z.pow_le_mono_r; unfold zlen; lia). lia. }
  pose proof (b2z_range hi). unfold Bytes. set (m := le_val (w ++ [hi])) in *.
  destruct (Z.eqb_spec (if neg then - m else m) 0); [destruct neg; lia|].
  assert (((if neg then - m else m) <? 0) = neg) as -> by (destruct neg; [apply Z.ltb_lt|apply Z.ltb_ge]; lia).
  assert ((if neg then i64 (- (if neg then - m else m)) else (if neg then - m else m)) = m) as ->.
  { destruct neg; [|done]. rewrite Z.opp_involutive, swrap_small; zlia. }
  unfold m. rewrite Bytes_loop_digits by (try done; rewrite length_app; cbn; lia). cbn [mbind run_bind app].
  rewrite zlen_app. change (zlen [hi]) with 1. replace (zlen w + 1 - 1) with (zlen w) by lia. rewrite Script.index_here. cbn [mbind run_bind].
  rewrite land_80 by done. unfold encoded. destruct (Z.ltb_spec (b2z hi) 128); cbn [negb].
  - destruct neg; [|done]. by rewrite store_snoc, lor_80 by lia.
  - by rewrite <-app_assoc.
Qed.

Lemma numVal_snoc w hi : numVal (w ++ [hi]) =
  if b2z hi <? 128 then le_val (w ++ [hi]) else - (le_val (w ++ [hi]) - 2 ^ (8 * zlen w + 7)).
Proof.
  unfold numVal. rewrite rev_app_distr. cbn [rev app]. rewrite zlen_app. change (zlen [hi]) with 1.
  by replace (8 * (zlen w + 1) - 1) with (8 * zlen w + 7) by lia.
Qed.

Lemma numVal_encoded neg w hi : b2z hi ≠ 0 → numVal (encoded neg w hi) = if neg then - le_val (w ++ [hi]) else le_val (w ++ [hi]).
Proof.
  intros Hh. pose proof (b2z_range hi). pose proof (zlen_nonneg w). unfold encoded.
  assert (2 ^ (8 * zlen w + 7) = 256 ^ zlen w * 128) as E7 by (rewrite pow256 by lia; by rewrite Z.pow_add_r by lia).
  destruct (Z.ltb_spec (b2z hi) 128) as [Hl|Hl].
  - rewrite numVal_snoc. destruct neg; [|by destruct (Z.ltb_spec (b2z hi) 128); [|lia]].
    rewrite b2z_z2b_small by lia. destruct (Z.ltb_spec (b2z hi + 128) 128); [lia|]. rewrite !le_val_snoc, b2z_z2b_small by lia. lia.
  - replace (w ++ [hi; z2b (if neg then 0x80 else 0)]) with ((w ++ [hi]) ++ [z2b (if neg then 0x80 else 0)]) by (by rewrite <-app_assoc).
    rewrite numVal_snoc, (le_val_snoc (w ++ [hi])). destruct neg.
    + rewrite b2z_z2b_small by lia. cbn [Z.ltb]. change (128 <? 128) with false. cbn iota.
      rewrite Z.pow_add_r, pow256 by (try apply zlen_nonneg; pose proof (zlen_nonneg (w ++ [hi])); lia). change (2 ^ 7) with 128. lia.
    + rewrite b2z_z2b_small by lia. change (0 <? 128) with true. cbn iota. lia.
Qed.

Lemma encoded_minimal neg w hi : b2z hi ≠ 0 → checkMinimalDataEncoding (encoded neg w hi) = None.
Proof.
  intros Hh. pose proof (b2z_range hi). unfold checkMinimalDataEncoding, encoded. destruct (Z.ltb_spec (b2z hi) 128); rewrite rev_app_distr; cbn [rev app].
  - rewrite land_7f. destruct neg; [rewrite b2z_z2b_small by lia; rewrite <-(Z.mod_unique (b2z hi + 128) 128 1 (b2z hi)) by lia|rewrite Z.mod_small by lia];
      by destruct (Z.eqb_spec (b2z hi) 0).
  - rewrite land_80 by done. destruct (Z.ltb_spec (b2z hi) 128); [lia|]. by destruct (_ =? 0).
Qed.

Lemma encoded_length neg w hi : zlen (encoded neg w hi) = zlen w + (if b2z hi <? 128 then 1 else 2).
Proof. unfold encoded. by destruct (b2z hi <? 128); rewrite zlen_app. Qed.

Lemma minimal_encoded w hi : checkMinimalDataEncoding (w ++ [hi]) = None →
  ∃ neg w' hi', b2z hi' ≠ 0 ∧ w ++ [hi] = encoded neg w' hi'.
Proof.
  pose proof (b2z_range hi). unfold checkMinimalDataEncoding. rewrite rev_app_distr. cbn [rev app]. rewrite land_7f.
  destruct (Z.eqb_spec (b2z hi mod 128) 0) as [E|E].
  - destruct w as [|next w _] using rev_ind; [done|]. rewrite rev_app_distr. cbn [rev app]. pose proof (b2z_range next).
    rewrite land_80 by done. destruct (Z.ltb_spec (b2z next) 128) as [|Hn]; [done|]. intros _.
    exists (128 <=? b2z hi), w, next. split; [lia|]. unfold encoded. destruct (Z.ltb_spec (b2z next) 128); [lia|].
    rewrite <-app_assoc. cbn [app]. do 3 f_equal. apply b2z_inj. pose proof (Z.div_mod (b2z hi) 128 ltac:(lia)).
    destruct (Z.leb_spec 128 (b2z hi)); rewrite b2z_z2b_small by lia; nia.
  - intros _. destruct (decide (b2z hi < 128)) as [Hh|Hh].
    + exists false, w, hi. rewrite Z.mod_small in E by lia. split; [done|]. unfold encoded. by destruct (Z.ltb_spec (b2z hi) 128); [|lia].
    + exists true, w, (z2b (b2z hi - 128)). rewrite <-(Z.mod_unique (b2z hi) 128 1 (b2z hi - 128)) in E by lia.
      unfold encoded. rewrite !(b2z_z2b_small (b2z hi - 128)) by lia. split; [done|]. destruct (Z.ltb_spec (b2z hi - 128) 128); [|lia].
      do 2 f_equal. apply b2z_inj. rewrite b2z_z2b_small by lia. lia.
Qed.

(** The size of a number and of its encoding *)
Lemma encoded_size neg w hi k : b2z hi ≠ 0 → 1 ≤ k → zlen (encoded neg w hi) ≤ k ↔ le_val (w ++ [hi]) < 2 ^ (8 * k - 1).
Proof.
  intros Hh Hk. rewrite encoded_length. pose proof (b2z_range hi). pose proof (zlen_nonneg w). pose proof (le_val_range w) as Hr. fold (zlen w) in Hr.
  rewrite le_val_snoc. rewrite pow256 in * by lia.
  assert (∀ j, zlen w ≤ j → 2 ^ (8 * zlen w) ≤ 2 ^ (8 * j)) as Hmono by (intros j Hj; apply Z.pow_le_mono_r; lia).
  assert (2 ^ (8 * k - 1) = 2 ^ (8 * (k - 1)) * 128) as Ek
    by (replace (8 * k - 1) with (8 * (k - 1) + 7) by lia; by rewrite Z.pow_add_r by lia).
  assert (0 < 2 ^ (8 * zlen w)) by (apply Z.pow_pos_nonneg; lia). rewrite Ek. destruct (Z.ltb_spec (b2z hi) 128); split; intros Hl.
  - specialize (Hmono (k - 1) ltac:(lia)). nia.
  - destruct (decide (zlen w + 1 ≤ k)); [done|]. assert (2 ^ (8 * k) ≤ 2 ^ (8 * zlen w)) by (apply Z.pow_le_mono_r; lia).
    assert (2 ^ (8 * k) = 2 ^ (8 * (k - 1)) * 256) by (replace (8 * k) with (8 * (k - 1) + 8) by lia; by rewrite Z.pow_add_r by lia). nia.
  - assert (2 ^ (8 * zlen w) * 256 ≤ 2 ^ (8 * (k - 1))).
    { change 256 with (2 ^ 8). rewrite <-Z.pow_add_r by lia. apply Z.pow_le_mono_r; lia. } nia.
  - destruct (decide (zlen w + 2 ≤ k)); [done|]. assert (2 ^ (8 * (k - 1)) ≤ 2 ^ (8 * zlen w)) by (apply Z.pow_le_mono_r; lia). nia.
Qed.

Lemma Bytes_encoded n : - 2 ^ 63 < n < 2 ^ 63 → n ≠ 0 →
  ∃ w hi, b2z hi ≠ 0 ∧ n = (if n <? 0 then - le_val (w ++ [hi]) else le_val (w ++ [hi])) ∧ Z.abs n = le_val (w ++ [hi]) ∧
    Bytes n = Done (encoded (n <? 0) w hi).
Proof.
  intros Hn H0. destruct (digits_exist 8 (Z.abs n)) as (w & hi & E & Hh & _); [split; [lia|]; change (256 ^ Z.of_nat 8) with (2 ^ 64); lia|].
  exists w, hi. assert (n = if n <? 0 then - le_val (w ++ [hi]) else le_val (w ++ [hi])) as En by (rewrite <-E; destruct (Z.ltb_spec n 0); lia).
  split; [done|]. split; [done|]. split; [done|]. rewrite En at 1. apply Bytes_digits; [done|lia].
Qed.

(** Script numbers: for every limit of at most eight bytes,
    [MakeScriptNum] with the minimal encoding required accepts exactly the bytes
    that [Bytes] produces for a number, and returns that number.  [Bytes] of the
    least [int64] panics. *)
Theorem scriptnum_codec (v : list byte) (n len : Z) :
  len ≤ 8 → (MakeScriptNum v true len = inl n ↔ - 2 ^ 63 < n < 2 ^ 63 ∧ Bytes n = Done v ∧ zlen v ≤ len) ∧ Bytes (- 2 ^ 63) = Panic.
Proof.
  intros H8. split; [|reflexivity]. split.
  - intros E. assert (zlen v ≤ len ∧ checkMinimalDataEncoding v = None) as [Hl Hm].
    { unfold MakeScriptNum in E. destruct (Z.ltb_spec len (zlen v)); [done|]. split; [done|]. by destruct (checkMinimalDataEncoding v). }
    rewrite MakeScriptNum_val in E by (done || lia). injection E as <-.
    destruct v as [|hi w _] using rev_ind; [done|]. apply minimal_encoded in Hm as (neg & w' & hi' & Hh & E). rewrite E in *.
    rewrite numVal_encoded by done. pose proof (le_val_pos w' hi' Hh). assert (0 < 256 ^ zlen w') by (apply Z.pow_pos_nonneg; unfold zlen; lia).
    pose proof (proj1 (encoded_size neg w' hi' 8 Hh ltac:(lia)) ltac:(lia)) as Hs. change (8 * 8 - 1) with 63 in Hs.
    split; [destruct neg; lia|]. split; [by apply Bytes_digits|done].
  - intros (Hn & E & Hl). rewrite MakeScriptNum_val; [|lia|done|].
    + f_equal. destruct (decide (n = 0)) as [->|H0]; [by injection E as <-|].
      destruct (Bytes_encoded n Hn H0) as (w & hi & Hh & En & _ & Eb). rewrite Eb in E. injection E as <-. by rewrite numVal_encoded.
    + destruct (decide (n = 0)) as [->|H0]; [by injection E as <-|].
      destruct (Bytes_encoded n Hn H0) as (w & hi & Hh & En & _ & Eb). rewrite Eb in E. injection E as <-. by apply encoded_minimal.
Qed.

(** ** Coinbase heights *)

Lemma HasPrefix_spec s p : HasPrefix s p = true ↔ ∃ rest, s = p ++ rest.
Proof.
  unfold HasPrefix. rewrite bool_decide_eq_true. split.
  - intros E. exists (drop (length p) s). by rewrite <-E at 1; rewrite take_drop.
  - intros [rest ->]. by rewrite take_app_length.
Qed.

(** The push of a height *)
Definition heightPush (h : Z) : run (list byte) :=
  if h =? 0 then Done [z2b 0] else if h <=? 16 then Done [z2b (0x50 + h)]
  else bs ← Bytes h; Done (z2b (zlen bs) :: bs).

Lemma Bytes_height h : 17 ≤ h < 2 ^ 31 → ∃ bs, Bytes h = Done bs ∧ 1 ≤ zlen bs ≤ 4 ∧ le_val bs = h ∧ (zlen bs = 1 → b2z <$> bs = [h]).
Proof.
  intros Hh. destruct (Bytes_encoded h) as (w & hi & Hn & _ & Ea & Eb); [lia|lia|].
  assert ((h <? 0) = false) as E0 by (apply Z.ltb_ge; lia). rewrite E0 in Eb. rewrite Z.abs_eq in Ea by lia.
  exists (encoded false w hi). split; [done|]. split.
  { split; [rewrite encoded_length; pose proof (zlen_nonneg w); destruct (b2z hi <? 128); lia|]. apply encoded_size; [done|lia|]. rewrite <-Ea. lia. }
  assert (le_val (encoded false w hi) = h) as El.
  { rewrite Ea. unfold encoded. destruct (b2z hi <? 128); [done|].
    replace (w ++ [hi; z2b 0]) with ((w ++ [hi]) ++ [z2b 0]) by (by rewrite <-app_assoc). rewrite (le_val_snoc (w ++ [hi])), b2z_z2b_small by lia. lia. }
  split; [done|]. intros H1. destruct (encoded false w hi) as [|d [|]] eqn:Ed; [done| |]; rewrite ?zlen_cons in H1.
  - cbn in El |- *. f_equal. lia.
  - pose proof (zlen_nonneg l). lia.
Qed.

Lemma AddInt64_height h : 0 ≤ h < 2 ^ 31 →
  ∃ push, heightPush h = Done push ∧ AddInt64 h NewScriptBuilder = Done {| built := push; notCanonical := false |}.
Proof.
  intros Hh. unfold heightPush, AddInt64, NewScriptBuilder. cbn [notCanonical built]. change (MaxScriptSize <? zlen [] + 1) with false. cbn iota.
  destruct (Z.eqb_spec h 0); [by eexists|]. destruct (Z.eqb_spec h (-1)); [lia|]. destruct (Z.leb_spec 1 h); [|lia].
  destruct (Z.leb_spec h 16); [by eexists|]. cbn [orb andb].
  destruct (Bytes_height h ltac:(lia)) as (bs & Eb & Hl & _ & H1). rewrite Eb. cbn [mbind run_bind]. eexists. split; [done|]. f_equal.
  unfold AddData. cbn [notCanonical built]. change (zlen []) with 0.
  assert (canonicalDataSize bs ≤ 5 ∧ addData bs {| built := []; notCanonical := false |} =
    {| built := z2b (zlen bs) :: bs; notCanonical := false |}) as [Hs Ha].
  { assert (pushPrefix (zlen bs) = [z2b (zlen bs)]) as Ep.
    { unfold pushPrefix, Script.OP_PUSHDATA1, OP_DATA_1. destruct (Z.ltb_spec (zlen bs) 0x4c); [|lia]. by replace (1 - 1 + zlen bs) with (zlen bs) by lia. }
    destruct bs as [|d [|d' bs]]; [unfold zlen in Hl; simpl length in Hl; lia| |].
    - specialize (H1 eq_refl). cbn in H1. injection H1 as H1. unfold canonicalDataSize, addData. rewrite Ep. destruct (Z.leb_spec (b2z d) 16); [lia|].
      destruct (Z.eqb_spec (b2z d) 0); [lia|]. destruct (Z.eqb_spec (b2z d) 0x81) as [E|]; [|split; [cbn; lia|done]].
      exfalso. rewrite E in H1. rewrite <-H1 in Eb. vm_compute in Eb. discriminate Eb.
    - unfold canonicalDataSize, addData. rewrite Ep. split; [|done]. unfold Script.OP_PUSHDATA1. destruct (Z.ltb_spec (zlen (d :: d' :: bs)) 0x4c); lia. }
  unfold MaxScriptSize, MaxScriptElementSize. destruct (Z.ltb_spec 10000 (0 + canonicalDataSize bs)); [lia|].
  destruct (Z.ltb_spec 520 (zlen bs)); [lia|]. exact Ha.
Qed.

Lemma compareScript_spec h s push : AddInt64 h NewScriptBuilder = Done {| built := push; notCanonical := false |} →
  compareScript h s = Done None ↔ ∃ rest, s = push ++ rest.
Proof.
  intros E. unfold compareScript. rewrite E. cbn [mbind run_bind]. unfold Script_. cbn [notCanonical built]. rewrite <-HasPrefix_spec.
  by destruct (HasPrefix s push).
Qed.

(** BIP 34: [CheckSerializedHeight] accepts a coinbase exactly when
    its signature script starts with the minimal push of the expected height, as
    [AddInt64] writes it. *)
Theorem coinbase_height_spec (cb : Wire.Tx) (ti : Wire.TxIn (list byte)) (ins : list (Wire.TxIn (list byte))) (h : Z) :
  Wire.TxIns cb = ti :: ins → 0 ≤ h < 2 ^ 31 →
  ∃ push, AddInt64 h NewScriptBuilder = Done {| built := push; notCanonical := false |} ∧
    (CheckSerializedHeight cb h = Done None ↔ ∃ rest, Wire.SignatureScript ti = push ++ rest).
Proof.
  intros Ei Hh. destruct (AddInt64_height h Hh) as (push & Ep & Ea). exists push. split; [done|].
  unfold CheckSerializedHeight, ExtractCoinbaseHeight. rewrite Ei. change (index (ti :: ins) 0) with (Done ti). cbn [mbind run_bind].
  split.
  - destruct (Wire.SignatureScript ti) as [|op tl]; [done|]. pose proof (b2z_range op). destruct (Z.eqb_spec (b2z op) Script.OP_0) as [E0|E0].
    { cbn [mbind run_bind]. destruct (Z.eqb_spec 0 h) as [<-|]; [|done]. intros _. injection Ep as <-. exists tl.
      by rewrite <-(z2b_b2z op), E0. }
    destruct (Z.leb_spec Script.OP_1 (b2z op)) as [H1|H1], (Z.leb_spec (b2z op) Script.OP_16) as [H2|H2]; cbn [andb].
    { unfold Script.OP_1, Script.OP_16 in *. cbn [mbind run_bind]. rewrite swrap_small by zlia.
      destruct (Z.eqb_spec (b2z op - (0x51 - 1)) h) as [Eh|]; [|done]. intros _. exists tl. unfold heightPush in Ep.
      destruct (Z.eqb_spec h 0); [lia|]. destruct (Z.leb_spec h 16); [|lia]. injection Ep as <-. rewrite <-(z2b_b2z op) at 1. cbn [app]. do 2 f_equal. lia. }
    all: destruct (_ <? b2z op); [done|]; destruct (slice _ _ _) as [src| |]; [|done..]; cbn [mbind run_bind].
    all: set (sh := i32 _); destruct (compareScript sh (op :: tl)) as [[e|]| |] eqn:Ec; [done| |done..]; cbn [mbind run_bind].
    all: destruct (Z.eqb_spec sh h) as [->|]; [|done]; intros _; by apply (compareScript_spec h _ push).
  - intros [rest Es]. pose proof (proj2 (compareScript_spec h (push ++ rest) push Ea) (ex_intro _ rest eq_refl)) as Ec.
    rewrite Es. unfold heightPush in Ep. destruct (Z.eqb_spec h 0) as [->|]; [by injection Ep as <-|].
    destruct (Z.leb_spec h 16).
    { injection Ep as <-. cbn [app]. rewrite b2z_z2b_small by lia. unfold Script.OP_0, Script.OP_1, Script.OP_16.
      destruct (Z.eqb_spec (0x50 + h) 0); [lia|]. destruct (Z.leb_spec 0x51 (0x50 + h)); [|lia]. destruct (Z.leb_spec (0x50 + h) 0x60); [|lia].
      cbn [andb mbind run_bind]. rewrite swrap_small by zlia. replace (0x50 + h - (0x51 - 1)) with h by lia. by rewrite Z.eqb_refl. }
    destruct (Bytes_height h ltac:(lia)) as (bs & Eb & Hl & El & _). rewrite Eb in Ep. cbn [mbind run_bind] in Ep. injection Ep as <-.
    cbn [app] in *. rewrite b2z_z2b_small by lia. unfold Script.OP_0, Script.OP_1, Script.OP_16.
    destruct (Z.eqb_spec (zlen bs) 0); [lia|]. destruct (Z.leb_spec 0x51 (zlen bs)); [lia|]. cbn [andb].
    rewrite zlen_app. pose proof (zlen_nonneg rest). destruct (Z.ltb_spec (zlen bs + zlen rest) (zlen bs)); [lia|].
    assert (slice (z2b (zlen bs) :: bs ++ rest) 1 (zlen bs + 1) = Done bs) as ->.
    { apply (Compress.slice_mid [z2b (zlen bs)] bs rest); [done|]. change (zlen [z2b (zlen bs)]) with 1. lia. }
    cbn [mbind run_bind]. unfold gocopy. rewrite length_replicate.
    rewrite take_ge by (unfold zlen in Hl; lia). rewrite drop_replicate, le_val_zeros, El, swrap_small by zlia. rewrite Ec. cbn [mbind run_bind].
    by rewrite Z.eqb_refl.
Qed.

(** ** Concrete runs *)

Lemma scriptnum_codec_witness : MakeScriptNum (map z2b [0xff; 0x80]) true 4 = inl (-255) ∧ Bytes (-255) = Done (map z2b [0xff; 0x80]).
Proof.
  assert (MakeScriptNum (map z2b [0xff; 0x80]) true 4 = inl (-255)) as E by reflexivity. split; [exact E|].
  apply (proj1 (proj1 (scriptnum_codec (map z2b [0xff; 0x80]) (-255) 4 ltac:(lia))) E).
Defined.

Lemma coinbase_height_spec_witness : CheckSerializedHeight Sanity.soloCoinbase 7 = Done (Some ErrBadCoinbaseHeight) ∧
  ∃ push, AddInt64 7 NewScriptBuilder = Done {| built := push; notCanonical := false |} ∧
    ¬ ∃ rest, [z2b 1; z2b 7] = push ++ rest.
Proof.
  split; [reflexivity|]. destruct (coinbase_height_spec Sanity.soloCoinbase _ [] 7 eq_refl ltac:(lia)) as (push & Ea & Hs).
  exists push. split; [exact Ea|]. intros Hr. apply (proj2 Hs) in Hr. discriminate Hr.
Defined.

End ScriptNum.
