(* ===== verification/ScriptStack.v ===== *)
(** * ScriptStack: the stacks of the script engine

    Model of [txscript/stack.go], with the error codes of [txscript/error.go] that the
    engine returns.  A stack is a slice of byte strings whose last item is the top;
    sizes and indices are [int32] as in the code.  The items are never changed in
    place and the engine's two stacks share no backing array, so a stack is its list
    of items.

    [wp] is a weakest precondition for the [io] monad: the call does not panic or run
    out of fuel, and if it returns without error the postcondition holds. *)

From S2P Require Import Prelude Compress Wire Script Sanity ScriptNum.

Module ScriptStack.
Import ScriptNum (MakeScriptNum, numError).

(** ** Errors *)

Inductive ErrorCode :=
| ErrInvalidFlags | ErrInvalidIndex | ErrUnsupportedScriptVersion | ErrNotPushOnly
| ErrEarlyReturn | ErrEmptyStack | ErrEvalFalse | ErrScriptUnfinished | ErrInvalidProgramCounter
| ErrScriptTooBig | ErrElementTooBig | ErrTooManyOperations | ErrStackOverflow
| ErrInvalidPubKeyCount | ErrInvalidSignatureCount | ErrNumberTooBig
| ErrVerify | ErrEqualVerify | ErrNumEqualVerify | ErrCheckSigVerify | ErrCheckMultiSigVerify
| ErrDisabledOpcode | ErrReservedOpcode | ErrMalformedPush | ErrInvalidStackOperation
| ErrUnbalancedConditional | ErrMinimalData | ErrInvalidSigHashType
| ErrSigTooShort | ErrSigTooLong | ErrSigInvalidSeqID | ErrSigInvalidDataLen | ErrSigMissingSTypeID
| ErrSigMissingSLen | ErrSigInvalidSLen | ErrSigInvalidRIntID | ErrSigZeroRLen | ErrSigNegativeR
| ErrSigTooMuchRPadding | ErrSigInvalidSIntID | ErrSigZeroSLen | ErrSigNegativeS
| ErrSigTooMuchSPadding | ErrSigHighS
| ErrPubKeyType | ErrCleanStack | ErrNullFail | ErrSigNullDummy | ErrWitnessMalleated
| ErrWitnessMalleatedP2SH | ErrWitnessUnexpected | ErrWitnessProgramEmpty | ErrWitnessProgramMismatch
| ErrWitnessProgramWrongLength | ErrMinimalIf | ErrWitnessPubKeyType
| ErrDiscourageUpgradableNOPs | ErrDiscourageUpgradableWitnessProgram
| ErrNegativeLockTime | ErrUnsatisfiedLockTime | ErrCodeSeparator | ErrNonConstScriptCode
| ErrDiscourageUpgradeableTaprootVersion | ErrDiscourageOpSuccess | ErrDiscourageUpgradeablePubKeyType
| ErrTaprootMaxSigOps | ErrTaprootPubkeyIsEmpty | ErrTaprootSigInvalid | ErrInvalidTaprootSigLen
| ErrTapscriptCheckMultisig
| ErrControlBlockTooSmall | ErrControlBlockTooLarge | ErrControlBlockInvalidLength
| ErrTaprootMerkleProofInvalid | ErrTaprootOutputKeyParityMismatch.

#[export] Instance ErrorCode_eq_dec : EqDecision ErrorCode.
Proof. solve_decision. Defined.

(** A [txscript.Error], or an error of another package: the public key and signature
    parsers and the script builder have their own types. *)
Inductive vmError := ScriptErr (c : ErrorCode) | OtherErr.

#[export] Instance vmError_eq_dec : EqDecision vmError.
Proof. solve_decision. Defined.

Definition ofNumError (e : numError) : vmError :=
  ScriptErr match e with ScriptNum.ErrMinimalData => ErrMinimalData | ScriptNum.ErrNumberTooBig => ErrNumberTooBig end.

Definition ofTokenError (e : Script.scriptError) : vmError :=
  ScriptErr match e with
            | Script.ErrMalformedPush => ErrMalformedPush
            | Script.ErrUnsupportedScriptVersion => ErrUnsupportedScriptVersion
            end.

(** ** State access and weakest preconditions in the [io] monad *)

Definition gets {S E A} (f : S → A) : io S E A := fun s => Done (inl (f s), s).
Definition modify {S E} (f : S → S) : io S E unit := fun s => Done (inl tt, f s).
Definition throw {S A} (c : ErrorCode) : io S vmError A := io_fail (ScriptErr c).

(** [if err != nil { return err }] on a pure result *)
Definition liftE {S E A} (r : A + E) : io S E A := fun s => Done (r, s).

Definition wp {S E A} (m : io S E A) (Q : A → S → Prop) (s : S) : Prop :=
  match m s with
  | Done (inl a, s') => Q a s'
  | Done (inr _, _) => True
  | Panic | NoFuel => False
  end.

Section Wp.
Context {S E : Type}.

Lemma wp_ret {A} (a : A) Q (s : S) : Q a s → wp (E := E) (mret a) Q s.
Proof. done. Qed.

Lemma wp_bind {A B} (m : io S E A) (f : A → io S E B) Q s :
  wp m (fun a => wp (f a) Q) s → wp (m ≫= f) Q s.
Proof. unfold wp, mbind, io_bind. by destruct (m s) as [[[a|e] s']| |]. Qed.

Lemma wp_mono {A} (m : io S E A) (P Q : A → S → Prop) s : wp m P s → (∀ a s', P a s' → Q a s') → wp m Q s.
Proof. unfold wp. destruct (m s) as [[[a|e] s']| |]; eauto. Qed.

Lemma wp_fail {A} e (Q : A → S → Prop) s : wp (E := E) (io_fail e) Q s.
Proof. done. Qed.

Lemma wp_gets {A} (f : S → A) Q s : Q (f s) s → wp (E := E) (gets f) Q s.
Proof. done. Qed.

Lemma wp_modify (f : S → S) Q s : Q tt (f s) → wp (E := E) (modify f) Q s.
Proof. done. Qed.

Lemma wp_run {A} (m : run A) a (Q : A → S → Prop) s : m = Done a → Q a s → wp (E := E) (io_run m) Q s.
Proof. intros ->. done. Qed.

Lemma wp_liftE {A} (r : A + E) (Q : A → S → Prop) s : (∀ a, r = inl a → Q a s) → wp (liftE r) Q s.
Proof. unfold wp, liftE. destruct r; eauto. Qed.

Lemma wp_eq {A} (m : io S E A) a s s' Q : m s = Done (inl a, s') → Q a s' → wp m Q s.
Proof. unfold wp. by intros ->. Qed.

Lemma wp_err {A} (m : io S E A) e s s' Q : m s = Done (inr e, s') → wp m Q s.
Proof. unfold wp. by intros ->. Qed.
End Wp.

Create HintDb wp.
#[export] Hint Resolve wp_ret wp_fail : wp.

(** ** Booleans *)

Fixpoint asBool (t : list byte) : bool :=
  match t with
  | [] => false
  | b :: t' =>
      if b2z b =? 0 then asBool t'
      else negb (match t' with [] => true | _ => false end && (b2z b =? 0x80))
  end.

Definition fromBool (v : bool) : list byte := if v then [z2b 1] else [].

(** ** The stack *)

Record stack := { stk : list (list byte); verifyMinimalData : bool }.

Definition setStk (l : list (list byte)) (s : stack) : stack :=
  {| stk := l; verifyMinimalData := verifyMinimalData s |}.

Abbreviation stackM := (io stack vmError).

Definition maxScriptNumLen : Z := 4.

Definition Depth (s : stack) : Z := i32 (zlen (stk s)).

Definition PushByteArray (so : list byte) : stackM unit := modify (fun s => setStk (stk s ++ [so]) s).

Definition PushInt (val : Z) : stackM unit := bs ← io_run (ScriptNum.Bytes val); PushByteArray bs.

Definition PushBool (val : bool) : stackM unit := PushByteArray (fromBool val).

(** The three ways of closing the gap: dropping the end, copying all but the first
    item to a new array, moving the items above the gap down. *)
Definition nipN (idx : Z) : stackM (list byte) :=
  s ← gets stk;
  let sz := i32 (zlen s) in
  if (idx <? 0) || (i32 (sz - 1) <? idx) then throw ErrInvalidStackOperation else
  so ← io_run (index s (i32 (i32 (sz - idx) - 1)));
  s' ← io_run
    (if idx =? 0 then slice s 0 (i32 (sz - 1))
     else if idx =? i32 (sz - 1) then
       s1 ← make [] (i32 (sz - 1));
       src ← slice s 1 (zlen s);
       Done (gocopy s1 src)
     else
       s1 ← slice s (i32 (sz - idx)) sz;
       s0 ← slice s 0 (i32 (i32 (sz - idx) - 1));
       Done (s0 ++ s1));
  modify (setStk s');; mret so.

Definition PopByteArray : stackM (list byte) := nipN 0.

Definition asInt (so : list byte) : stackM Z :=
  m ← gets verifyMinimalData;
  match MakeScriptNum so m maxScriptNumLen with inl n => mret n | inr e => io_fail (ofNumError e) end.

Definition PopInt : stackM Z := so ← PopByteArray; asInt so.

Definition PopBool : stackM bool := so ← PopByteArray; mret (asBool so).

Definition PeekByteArray (idx : Z) : stackM (list byte) :=
  s ← gets stk;
  let sz := i32 (zlen s) in
  if (idx <? 0) || (sz <=? idx) then throw ErrInvalidStackOperation
  else io_run (index s (i32 (i32 (sz - idx) - 1))).

Definition PeekInt (idx : Z) : stackM Z := so ← PeekByteArray idx; asInt so.

Definition PeekBool (idx : Z) : stackM bool := so ← PeekByteArray idx; mret (asBool so).

Definition NipN (idx : Z) : stackM unit := _ ← nipN idx; mret tt.

Definition Tuck : stackM unit :=
  so2 ← PopByteArray;
  so1 ← PopByteArray;
  PushByteArray so2;; PushByteArray so1;; PushByteArray so2.

(** [for i := n; i > 0; i-- { body }] *)
Fixpoint times {S E} (n : nat) (body : io S E unit) : io S E unit :=
  match n with O => mret tt | Datatypes.S n => body;; times n body end.

Definition DropN (n : Z) : stackM unit :=
  if n <? 1 then throw ErrInvalidStackOperation
  else times (Z.to_nat n) (_ ← PopByteArray; mret tt).

Definition DupN (n : Z) : stackM unit :=
  if n <? 1 then throw ErrInvalidStackOperation
  else times (Z.to_nat n) (so ← PeekByteArray (n - 1); PushByteArray so).

Definition RotN (n : Z) : stackM unit :=
  if n <? 1 then throw ErrInvalidStackOperation
  else let entry := i32 (i32 (3 * n) - 1) in times (Z.to_nat n) (so ← nipN entry; PushByteArray so).

Definition SwapN (n : Z) : stackM unit :=
  if n <? 1 then throw ErrInvalidStackOperation
  else let entry := i32 (i32 (2 * n) - 1) in times (Z.to_nat n) (so ← nipN entry; PushByteArray so).

Definition OverN (n : Z) : stackM unit :=
  if n <? 1 then throw ErrInvalidStackOperation
  else let entry := i32 (i32 (2 * n) - 1) in times (Z.to_nat n) (so ← PeekByteArray entry; PushByteArray so).

Definition PickN (n : Z) : stackM unit := so ← PeekByteArray n; PushByteArray so.

Definition RollN (n : Z) : stackM unit := so ← nipN n; PushByteArray so.

(** ** Single items *)

Lemma i32_id z : - 2 ^ 31 ≤ z < 2 ^ 31 → i32 z = z.
Proof. intros. apply swrap_small; zlia. Qed.

Lemma index_split {A} (l : list A) x r : index (l ++ x :: r) (zlen l) = Done x.
Proof. apply Script.index_here. Qed.

Lemma slice_prefix {A} (l r : list A) hi : hi = zlen l → slice (l ++ r) 0 hi = Done l.
Proof.
  intros ->. rewrite Script.slice_take by (unfold zlen; rewrite ?length_app; lia).
  f_equal. unfold zlen. by rewrite Nat2Z.id, take_app_length.
Qed.

(** The slot [idx] below the top, in [int32] arithmetic *)
Lemma slot_index {A} (l : list A) x r : zlen (l ++ x :: r) < 2 ^ 31 →
  index (l ++ x :: r) (i32 (i32 (i32 (zlen (l ++ x :: r)) - zlen r) - 1)) = Done x.
Proof.
  rewrite zlen_app, zlen_cons. intros H. pose proof (zlen_nonneg l). pose proof (zlen_nonneg r).
  rewrite (i32_id (zlen l + _)), (i32_id (_ - zlen r)), (i32_id (_ - 1)) by zlia.
  replace (zlen l + (1 + zlen r) - zlen r - 1) with (zlen l) by lia. apply index_split.
Qed.

Lemma PeekByteArray_ok v l x r : zlen (l ++ x :: r) < 2 ^ 31 →
  let s := {| stk := l ++ x :: r; verifyMinimalData := v |} in
  PeekByteArray (zlen r) s = Done (inl x, s).
Proof.
  intros H s. unfold PeekByteArray, mbind, io_bind, gets, io_run, s. cbn [stk]. rewrite slot_index by done.
  rewrite zlen_app, zlen_cons in *. pose proof (zlen_nonneg l). pose proof (zlen_nonneg r).
  rewrite i32_id by zlia. destruct (Z.ltb_spec (zlen r) 0); [lia|].
  by destruct (Z.leb_spec (zlen l + (1 + zlen r)) (zlen r)); [lia|].
Qed.

Lemma PeekByteArray_err idx s : zlen (stk s) < 2 ^ 31 → idx < 0 ∨ zlen (stk s) ≤ idx →
  PeekByteArray idx s = Done (inr (ScriptErr ErrInvalidStackOperation), s).
Proof.
  intros H Hi. unfold PeekByteArray, mbind, io_bind, gets. pose proof (zlen_nonneg (stk s)).
  rewrite i32_id by zlia.
  by destruct (Z.ltb_spec idx 0), (Z.leb_spec (zlen (stk s)) idx); cbn; [..|lia].
Qed.

Lemma nipN_ok v l x r : zlen (l ++ x :: r) < 2 ^ 31 →
  nipN (zlen r) {| stk := l ++ x :: r; verifyMinimalData := v |} =
  Done (inl x, {| stk := l ++ r; verifyMinimalData := v |}).
Proof.
  intros H. unfold nipN. unfold mbind at 1, io_bind at 1, gets. cbn [stk].
  pose proof (zlen_nonneg l). pose proof (zlen_nonneg r).
  assert (zlen (l ++ x :: r) = zlen l + (1 + zlen r)) as E by (by rewrite zlen_app, zlen_cons).
  rewrite (i32_id (zlen (l ++ x :: r))), (i32_id (_ - zlen r)), (i32_id (_ - zlen r - 1)), (i32_id (_ - 1)) by zlia.
  rewrite E.
  destruct (Z.ltb_spec (zlen r) 0), (Z.ltb_spec (zlen l + (1 + zlen r) - 1) (zlen r)); cbn [orb]; try lia.
  erewrite io_run_Done by (replace (zlen l + (1 + zlen r) - zlen r - 1) with (zlen l) by lia; apply index_split).
  erewrite io_run_Done; [reflexivity|].
  destruct (Z.eqb_spec (zlen r) 0) as [E0|].
  - destruct r; [|rewrite zlen_cons in E0; pose proof (zlen_nonneg r); lia]. rewrite app_nil_r.
    apply slice_prefix. cbn. lia.
  - destruct (Z.eqb_spec (zlen r) (zlen l + (1 + zlen r) - 1)) as [E1|].
    + destruct l; [|rewrite zlen_cons in E1; pose proof (zlen_nonneg l0); lia]. cbn [app].
      change (zlen (@nil (list byte))) with 0. unfold make.
      destruct (decide _) as [|]; [|lia]. cbn [mbind run_bind].
      rewrite (Script.slice_from [x] r) by (cbn; rewrite ?zlen_cons; change (zlen (@nil (list byte))) with 0; lia).
      cbn [mbind run_bind]. f_equal. unfold gocopy, zlen. rewrite length_replicate.
      rewrite take_ge by lia. rewrite drop_ge by (rewrite length_replicate; lia). by rewrite app_nil_r.
    + replace (l ++ x :: r) with ((l ++ [x]) ++ r) by (by rewrite <-app_assoc).
      rewrite (Script.slice_from _ _ (zlen l + (1 + zlen r) - zlen r))
        by (unfold zlen in *; rewrite ?length_app; cbn [length]; lia).
      cbn [mbind run_bind]. rewrite <-app_assoc. rewrite slice_prefix by lia. done.
Qed.

Lemma nipN_err idx s : zlen (stk s) < 2 ^ 31 → idx < 0 ∨ zlen (stk s) ≤ idx →
  nipN idx s = Done (inr (ScriptErr ErrInvalidStackOperation), s).
Proof.
  intros H Hi. unfold nipN. unfold mbind at 1, io_bind at 1, gets. pose proof (zlen_nonneg (stk s)).
  rewrite (i32_id (zlen (stk s))), (i32_id (_ - 1)) by zlia.
  by destruct (Z.ltb_spec idx 0), (Z.ltb_spec (zlen (stk s) - 1) idx); cbn; [..|lia].
Qed.

(** ** Reference: the documented transformations, on lists

    The comments of [stack.go] draw each operation as a rearrangement of the top of
    the stack; [None] is an underflow. *)

Definition splitTop (k : Z) (l : list (list byte)) : option (list (list byte) * list (list byte)) :=
  if k <=? zlen l then Some (take (Z.to_nat (zlen l - k)) l, drop (Z.to_nat (zlen l - k)) l) else None.

(** The top [k] items, for an argument [n] that must be at least [lo] *)
Definition needs (lo n k : Z) (l : list (list byte)) : option (list (list byte) * list (list byte)) :=
  if n <? lo then None else splitTop k l.

Definition dropRef (n : Z) l := '(pre, _) ← needs 1 n n l; Some (pre : list (list byte)).
Definition dupRef (n : Z) l := '(pre, a) ← needs 1 n n l; Some (pre ++ a ++ a).
Definition swapRef (n : Z) l :=
  '(pre, ab) ← needs 1 n (2 * n) l; Some (pre ++ drop (Z.to_nat n) ab ++ take (Z.to_nat n) ab).
Definition overRef (n : Z) l := '(pre, ab) ← needs 1 n (2 * n) l; Some (pre ++ ab ++ take (Z.to_nat n) ab).
Definition rotRef (n : Z) l :=
  '(pre, abc) ← needs 1 n (3 * n) l; Some (pre ++ drop (Z.to_nat n) abc ++ take (Z.to_nat n) abc).
Definition pickRef (n : Z) l := '(pre, xr) ← needs 0 n (n + 1) l; Some (pre ++ xr ++ take 1 xr).
Definition rollRef (n : Z) l := '(pre, xr) ← needs 0 n (n + 1) l; Some (pre ++ drop 1 xr ++ take 1 xr).
Definition nipRef (n : Z) l := '(pre, xr) ← needs 0 n (n + 1) l; Some (pre ++ drop 1 xr).
Definition tuckRef l := '(pre, ab) ← splitTop 2 l; Some (pre ++ drop 1 ab ++ ab).

(** [m] implements the rearrangement [f] on stacks with room for [k] more items. *)
Definition implements (k : Z) (m : stackM unit) (f : list (list byte) → option (list (list byte))) : Prop :=
  ∀ s, zlen (stk s) + k < 2 ^ 31 →
  match f (stk s) with
  | Some l => m s = Done (inl tt, setStk l s)
  | None => ∃ s', m s = Done (inr (ScriptErr ErrInvalidStackOperation), s')
  end.

Lemma splitTop_Some k l pre a : 0 ≤ k → splitTop k l = Some (pre, a) ↔ l = pre ++ a ∧ zlen a = k.
Proof.
  intros Hk. unfold splitTop. pose proof (zlen_nonneg l). split.
  - destruct (Z.leb_spec k (zlen l)); [|done]. intros [= <- <-]. rewrite take_drop.
    split; [done|]. unfold zlen in *. rewrite length_drop. lia.
  - intros [-> E]. rewrite zlen_app in *. pose proof (zlen_nonneg pre).
    destruct (Z.leb_spec k (zlen pre + zlen a)); [|lia].
    replace (Z.to_nat (zlen pre + zlen a - k)) with (length pre) by (unfold zlen in *; lia).
    by rewrite take_app_length, drop_app_length.
Qed.

Lemma splitTop_None k l : splitTop k l = None → zlen l < k.
Proof. unfold splitTop. by destruct (Z.leb_spec k (zlen l)). Qed.

Lemma splitTop_cases k l : 0 ≤ k →
  (∃ pre a, splitTop k l = Some (pre, a) ∧ l = pre ++ a ∧ zlen a = k) ∨ (splitTop k l = None ∧ zlen l < k).
Proof.
  intros Hk. destruct (splitTop k l) as [[pre a]|] eqn:E.
  - left. exists pre, a. by apply splitTop_Some in E as [-> ?].
  - right. by apply splitTop_None in E.
Qed.

Lemma PopByteArray_ok v l x : zlen (l ++ [x]) < 2 ^ 31 →
  PopByteArray {| stk := l ++ [x]; verifyMinimalData := v |} = Done (inl x, {| stk := l; verifyMinimalData := v |}).
Proof. intros H. pose proof (nipN_ok v l x [] H) as E. by rewrite app_nil_r in E. Qed.

Lemma PopByteArray_err v :
  PopByteArray {| stk := []; verifyMinimalData := v |} =
  Done (inr (ScriptErr ErrInvalidStackOperation), {| stk := []; verifyMinimalData := v |}).
Proof. apply nipN_err; [done|by right]. Qed.

(** Copying the item [m - 1] below the top copies, round by round, a block of [m]
    items from its bottom; moving it rotates the block. *)
Lemma copy_times n m v pre c k : (k + n ≤ length c)%nat → m = zlen c → zlen (pre ++ c) + Z.of_nat (k + n) < 2 ^ 31 →
  times n (so ← PeekByteArray (m - 1); PushByteArray so)
    {| stk := pre ++ c ++ take k c; verifyMinimalData := v |} =
  Done (inl tt, {| stk := pre ++ c ++ take (k + n) c; verifyMinimalData := v |}).
Proof.
  intros Hk -> Hl. revert k Hk Hl. induction n as [|n IH]; intros k Hk Hl; [by rewrite Nat.add_0_r|].
  destruct (lookup_lt_is_Some_2 c k ltac:(lia)) as [x Ex]. pose proof (take_drop_middle c k x Ex) as E.
  cbn [times]. assert ((so ← PeekByteArray (zlen c - 1); PushByteArray so)
    {| stk := pre ++ c ++ take k c; verifyMinimalData := v |} =
    Done (inl tt, {| stk := pre ++ c ++ take (S k) c; verifyMinimalData := v |})) as Eb.
  { rewrite <-E at 2. rewrite <-app_assoc, <-app_comm_cons, (app_assoc pre).
    assert (zlen (drop (S k) c ++ take k c) = zlen c - 1) as El
      by (unfold zlen; rewrite length_app, length_drop, length_take; lia).
    rewrite <-El.
    erewrite io_step.
    2: { apply PeekByteArray_ok. revert Hl. unfold zlen. rewrite !length_app. cbn [length].
         rewrite !length_app, length_drop, !length_take. lia. }
    unfold PushByteArray, modify, setStk. cbn [stk verifyMinimalData]. do 3 f_equal.
    rewrite (take_S_r c k x Ex). rewrite <-!app_assoc. f_equal.
    rewrite app_comm_cons, app_assoc, (app_assoc (take k c)). rewrite E. by rewrite <-app_assoc. }
  rewrite (io_step _ _ _ _ _ Eb). rewrite IH by lia. by rewrite Nat.add_succ_r.
Qed.

Lemma roll_times n m v pre c k : (k + n ≤ length c)%nat → m = zlen c → zlen (pre ++ c) < 2 ^ 31 →
  times n (so ← nipN (m - 1); PushByteArray so)
    {| stk := pre ++ drop k c ++ take k c; verifyMinimalData := v |} =
  Done (inl tt, {| stk := pre ++ drop (k + n) c ++ take (k + n) c; verifyMinimalData := v |}).
Proof.
  intros Hk -> Hl. revert k Hk. induction n as [|n IH]; intros k Hk; [by rewrite Nat.add_0_r|].
  destruct (lookup_lt_is_Some_2 c k ltac:(lia)) as [x Ex].
  cbn [times]. assert ((so ← nipN (zlen c - 1); PushByteArray so)
    {| stk := pre ++ drop k c ++ take k c; verifyMinimalData := v |} =
    Done (inl tt, {| stk := pre ++ drop (S k) c ++ take (S k) c; verifyMinimalData := v |})) as Eb.
  { rewrite (drop_S c x k Ex). rewrite <-app_comm_cons.
    assert (zlen (drop (S k) c ++ take k c) = zlen c - 1) as El
      by (unfold zlen; rewrite length_app, length_drop, length_take; lia).
    rewrite <-El. erewrite io_step.
    2: { apply nipN_ok. revert Hl. unfold zlen. rewrite !length_app. cbn [length].
         rewrite !length_app, length_drop, !length_take. lia. }
    unfold PushByteArray, modify, setStk. cbn [stk verifyMinimalData]. do 3 f_equal.
    rewrite (take_S_r c k x Ex). by rewrite <-!app_assoc. }
  rewrite (io_step _ _ _ _ _ Eb). rewrite IH by lia. by rewrite Nat.add_succ_r.
Qed.

Lemma pop_times n v l : zlen l < 2 ^ 31 →
  let r := times n (_ ← PopByteArray; mret tt) {| stk := l; verifyMinimalData := v |} in
  if (n <=? length l)%nat then r = Done (inl tt, {| stk := take (length l - n) l; verifyMinimalData := v |})
  else ∃ s', r = Done (inr (ScriptErr ErrInvalidStackOperation), s').
Proof.
  revert l. induction n as [|n IH]; intros l Hl; cbn [times].
  - by rewrite Nat.sub_0_r, firstn_all.
  - destruct l as [|x l _] using rev_ind.
    + cbn. eexists. erewrite io_step_fail; [done|]. erewrite io_step_fail; [done|]. apply PopByteArray_err.
    + assert (zlen l < 2 ^ 31) by (rewrite zlen_app in Hl; pose proof (zlen_nonneg [x]); lia).
      erewrite (io_step (_ ← PopByteArray; mret tt)) by (erewrite io_step by (by apply PopByteArray_ok); done).
      specialize (IH l ltac:(done)). rewrite length_app. cbn [length].
      destruct (Nat.leb_spec n (length l)) as [|], (Nat.leb_spec (S n) (length l + 1)) as [|]; try lia; [|done].
      rewrite IH. do 3 f_equal. rewrite take_app_le by lia. f_equal. lia.
Qed.

Lemma DropN_impl n : implements 0 (DropN n) (dropRef n).
Proof.
  intros [l v] Hl. cbn [stk] in *. unfold dropRef, needs, DropN, setStk. cbn [verifyMinimalData].
  destruct (Z.ltb_spec n 1); [by eexists|]. pose proof (pop_times (Z.to_nat n) v l ltac:(lia)) as Ht. cbn zeta in Ht.
  unfold splitTop. destruct (Z.leb_spec n (zlen l)); destruct (Nat.leb_spec (Z.to_nat n) (length l)) as [|];
    try (unfold zlen in *; lia); [|done].
  cbn. rewrite Ht. do 3 f_equal. f_equal. unfold zlen. lia.
Qed.

(** [n] rounds of copying or moving the item at the bottom of a block of [m] items *)
Definition copies (n m : Z) : stackM unit :=
  if n <? 1 then throw ErrInvalidStackOperation
  else times (Z.to_nat n) (so ← PeekByteArray (m - 1); PushByteArray so).
Definition moves (n m : Z) : stackM unit :=
  if n <? 1 then throw ErrInvalidStackOperation
  else times (Z.to_nat n) (so ← nipN (m - 1); PushByteArray so).

(** Only the first round can fail. *)
Lemma times_err (n : Z) (body : stackM unit) s e : 1 ≤ n → body s = Done (inr e, s) →
  times (Z.to_nat n) body s = Done (inr e, s).
Proof.
  intros Hn E. destruct (Z.to_nat n) eqn:En; [lia|]. cbn [times]. by apply io_step_fail.
Qed.

Lemma copies_impl n m : n ≤ m →
  implements n (copies n m) (fun l => '(pre, c) ← needs 1 n m l; Some (pre ++ c ++ take (Z.to_nat n) c)).
Proof.
  intros Hm [l v] Hl. cbn [stk] in *. unfold copies, needs, setStk. cbn [verifyMinimalData].
  destruct (Z.ltb_spec n 1); [by eexists|].
  destruct (splitTop_cases m l ltac:(lia)) as [(pre & c & -> & -> & E)|[-> Hs]]; cbn.
  - pose proof (copy_times (Z.to_nat n) m v pre c 0) as Ht. cbn [take] in Ht. rewrite app_nil_r in Ht.
    apply Ht; [unfold zlen in *; lia|done|]. rewrite Nat.add_0_l, Z2Nat.id by lia. lia.
  - eexists. apply times_err; [done|]. apply io_step_fail. apply PeekByteArray_err; cbn; lia.
Qed.

Lemma moves_impl n m : n ≤ m →
  implements 0 (moves n m)
    (fun l => '(pre, c) ← needs 1 n m l; Some (pre ++ drop (Z.to_nat n) c ++ take (Z.to_nat n) c)).
Proof.
  intros Hm [l v] Hl. cbn [stk] in *. unfold moves, needs, setStk. cbn [verifyMinimalData].
  destruct (Z.ltb_spec n 1); [by eexists|].
  destruct (splitTop_cases m l ltac:(lia)) as [(pre & c & -> & -> & E)|[-> Hs]]; cbn.
  - pose proof (roll_times (Z.to_nat n) m v pre c 0) as Ht. rewrite drop_0 in Ht. cbn [take] in Ht.
    rewrite app_nil_r in Ht. apply Ht; [unfold zlen in *; lia|done|lia].
  - eexists. apply times_err; [done|]. apply io_step_fail. apply nipN_err; cbn; lia.
Qed.

(** The operations that loop are these two, once [int32] does not overflow. *)
Lemma DupN_copies n : DupN n = copies n n.
Proof. done. Qed.
Lemma OverN_copies n : 0 ≤ 2 * n < 2 ^ 31 → OverN n = copies n (2 * n).
Proof. intros H. unfold OverN, copies. by rewrite (i32_id (2 * n)), i32_id by zlia. Qed.
Lemma SwapN_moves n : 0 ≤ 2 * n < 2 ^ 31 → SwapN n = moves n (2 * n).
Proof. intros H. unfold SwapN, moves. by rewrite (i32_id (2 * n)), i32_id by zlia. Qed.
Lemma RotN_moves n : 0 ≤ 3 * n < 2 ^ 31 → RotN n = moves n (3 * n).
Proof. intros H. unfold RotN, moves. by rewrite (i32_id (3 * n)), i32_id by zlia. Qed.

Lemma DupN_impl n : implements n (DupN n) (dupRef n).
Proof.
  intros s Hs. pose proof (copies_impl n n ltac:(lia) s Hs) as H. rewrite DupN_copies. unfold dupRef, needs in *.
  destruct (Z.ltb_spec n 1); [done|].
  destruct (splitTop_cases n (stk s) ltac:(lia)) as [(pre & a & E & _ & El)|[E _]]; rewrite E in *; [|done].
  cbn in *. by rewrite take_ge in H by (unfold zlen in *; lia).
Qed.

(** The single-item operations: the item [n] below the top *)
Lemma single_impl k n (m : stackM unit) (h : list (list byte) → list (list byte) → list (list byte)) : 0 ≤ k →
  (∀ v l x r, zlen r = n → zlen (l ++ x :: r) + k < 2 ^ 31 →
    m {| stk := l ++ x :: r; verifyMinimalData := v |} =
    Done (inl tt, {| stk := h l (x :: r); verifyMinimalData := v |})) →
  (∀ s, zlen (stk s) < 2 ^ 31 → n < 0 ∨ zlen (stk s) ≤ n → m s = Done (inr (ScriptErr ErrInvalidStackOperation), s)) →
  implements k m (fun l => '(pre, xr) ← needs 0 n (n + 1) l; Some (h pre xr)).
Proof.
  intros Hk Hok Herr [l v] Hl. cbn [stk] in *. unfold needs, setStk. cbn [verifyMinimalData].
  destruct (Z.ltb_spec n 0); [eexists; apply Herr; cbn; lia|].
  destruct (splitTop_cases (n + 1) l ltac:(lia)) as [(pre & [|x r] & -> & -> & E)|[-> Hs]].
  - change (zlen (@nil (list byte))) with 0 in E. lia.
  - rewrite zlen_cons in E. apply Hok; [lia|done].
  - eexists. apply Herr; cbn; lia.
Qed.

Lemma PickN_impl n : implements 1 (PickN n) (pickRef n).
Proof.
  apply (single_impl 1 n (PickN n) (fun pre xr => pre ++ xr ++ take 1 xr)); [lia| |].
  - intros v l x r <- Hl. unfold PickN. erewrite io_step by (apply PeekByteArray_ok; lia).
    unfold PushByteArray, modify, setStk. cbn [stk verifyMinimalData take]. by rewrite <-app_assoc.
  - intros s Hs Hn. by apply io_step_fail, PeekByteArray_err.
Qed.

Lemma RollN_impl n : implements 0 (RollN n) (rollRef n).
Proof.
  apply (single_impl 0 n (RollN n) (fun pre xr => pre ++ drop 1 xr ++ take 1 xr)); [lia| |].
  - intros v l x r <- Hl. unfold RollN. erewrite io_step by (apply nipN_ok; lia).
    unfold PushByteArray, modify, setStk. cbn [stk verifyMinimalData take drop]. by rewrite <-app_assoc, drop_0.
  - intros s Hs Hn. by apply io_step_fail, nipN_err.
Qed.

Lemma NipN_impl n : implements 0 (NipN n) (nipRef n).
Proof.
  apply (single_impl 0 n (NipN n) (fun pre xr => pre ++ drop 1 xr)); [lia| |].
  - intros v l x r <- Hl. unfold NipN. erewrite io_step by (apply nipN_ok; lia). by rewrite skipn_cons, drop_0.
  - intros s Hs Hn. by apply io_step_fail, nipN_err.
Qed.

Lemma Tuck_impl : implements 1 Tuck tuckRef.
Proof.
  intros [l v] Hl. cbn [stk] in *. unfold tuckRef, Tuck, setStk. cbn [verifyMinimalData].
  destruct (splitTop_cases 2 l ltac:(lia)) as [(pre & a & -> & -> & E)|[-> Hs]].
  - destruct a as [|x1 [|x2 [|]]]; try (unfold zlen in E; cbn [length] in E; lia). cbn [mbind option_bind drop].
    replace (pre ++ [x1; x2]) with ((pre ++ [x1]) ++ [x2]) in * by (by rewrite <-app_assoc).
    erewrite io_step by (apply PopByteArray_ok; lia).
    erewrite io_step by (apply PopByteArray_ok; rewrite !zlen_app in *; pose proof (zlen_nonneg [x2]); lia).
    unfold PushByteArray, modify, setStk, mbind, io_bind. cbn [stk verifyMinimalData]. by rewrite <-!app_assoc.
  - destruct l as [|x [|]]; try (unfold zlen in Hs; cbn [length] in Hs; lia).
    + eexists. apply io_step_fail, PopByteArray_err.
    + eexists. erewrite io_step by (apply (PopByteArray_ok v [] x); done). apply io_step_fail, PopByteArray_err.
Qed.

(** C30 (refinement).  The operations that rearrange a stack do what the comments of
    [stack.go] draw, for every argument: [DropN], [DupN], [SwapN], [OverN] and [RotN]
    on blocks of [n] items, [PickN], [RollN] and [NipN] on the item [n] below the top,
    and [Tuck].  On an underflow or an argument out of range they return
    [ErrInvalidStackOperation]; none of them panics.  The conditions exclude overflow of
    the [int32] arithmetic. *)
Theorem stack_ops_refine (n : Z) (H : 3 * n < 2 ^ 31) :
  implements 0 (DropN n) (dropRef n) ∧ implements n (DupN n) (dupRef n) ∧
  implements 0 (SwapN n) (swapRef n) ∧ implements n (OverN n) (overRef n) ∧ implements 0 (RotN n) (rotRef n) ∧
  implements 1 (PickN n) (pickRef n) ∧ implements 0 (RollN n) (rollRef n) ∧ implements 0 (NipN n) (nipRef n) ∧
  implements 1 Tuck tuckRef.
Proof.
  pose proof (DropN_impl n). pose proof (DupN_impl n). pose proof (PickN_impl n). pose proof (RollN_impl n).
  pose proof (NipN_impl n). pose proof Tuck_impl. split_and!; try done.
  - intros s Hs. unfold swapRef. destruct (Z.ltb_spec n 1) as [Hn|].
    { unfold SwapN, needs. destruct (Z.ltb_spec n 1); [by eexists|lia]. }
    rewrite SwapN_moves by lia. apply moves_impl; [lia|done].
  - intros s Hs. unfold overRef. destruct (Z.ltb_spec n 1) as [Hn|].
    { unfold OverN, needs. destruct (Z.ltb_spec n 1); [by eexists|lia]. }
    rewrite OverN_copies by lia. apply copies_impl; [lia|done].
  - intros s Hs. unfold rotRef. destruct (Z.ltb_spec n 1) as [Hn|].
    { unfold RotN, needs. destruct (Z.ltb_spec n 1); [by eexists|lia]. }
    rewrite RotN_moves by lia. apply moves_impl; [lia|done].
Qed.

(** A stack of six items under [RotN 2] and [SwapN 2] *)
Lemma stack_ops_refine_witness :
  3 * 2 < 2 ^ 31 ∧
  let item i := [z2b i] in
  let s l := {| stk := map item l; verifyMinimalData := false |} in
  RotN 2 (s [9; 1; 2; 3; 4; 5; 6]) = Done (inl tt, s [9; 3; 4; 5; 6; 1; 2]) ∧
  SwapN 2 (s [9; 1; 2; 3; 4]) = Done (inl tt, s [9; 3; 4; 1; 2]).
Proof.
  split; [lia|]. intros item s. destruct (stack_ops_refine 2 ltac:(lia)) as (_ & _ & Hs & _ & Hr & _).
  split; [apply (Hr (s [9; 1; 2; 3; 4; 5; 6])); vm_compute; reflexivity|].
  apply (Hs (s [9; 1; 2; 3; 4])); vm_compute; reflexivity.
Defined.

End ScriptStack.
