(* ===== verification/SigEncoding.v ===== *)
(** * SigEncoding: script flags and the encoding of signatures and public keys

    Model of the flags of [txscript/engine.go] that ask for strict encodings and of its checks on the encoding of hash
    types, public keys and signatures.  The reference is [derSig], the strict DER form of
    a pair of integers. *)

From S2P Require Import Prelude Compress Wire Script Sanity Connect ScriptNum ScriptStack.

Module SigEncoding.
Import ScriptStack.
Import Connect (ScriptVerifyDERSignatures).

(** ** Flags, besides those of [Connect] *)

Definition ScriptVerifyLowS : Z := Z.shiftl 1 7.
Definition ScriptVerifyStrictEncoding : Z := Z.shiftl 1 11.
Definition ScriptVerifyWitnessPubKeyType : Z := Z.shiftl 1 15.

Definition hasFlag (flags flag : Z) : bool := Z.land flags flag =? flag.

(** ** Hash types *)

Definition SigHashAll : Z := 0x1.
Definition SigHashSingle : Z := 0x3.
Definition SigHashAnyOneCanPay : Z := 0x80.

(** [None] is a nil error.  The hash type is one byte of the signature. *)
Definition checkHashTypeEncoding (flags hashType : Z) : option ErrorCode :=
  if negb (hasFlag flags ScriptVerifyStrictEncoding) then None else
  let sigHashType := Z.ldiff hashType SigHashAnyOneCanPay in
  if (sigHashType <? SigHashAll) || (SigHashSingle <? sigHashType) then Some ErrInvalidSigHashType else None.

(** ** Public keys *)

Definition isStrictPubKeyEncoding (pubKey : list byte) : run bool :=
  c ← (if zlen pubKey =? 33 then
         b ← index pubKey 0; Done ((b2z b =? 0x02) || (b2z b =? 0x03))
       else Done false);
  if c : bool then Done true else
  if zlen pubKey =? 65 then
    b ← index pubKey 0;
    Done ((b2z b =? 0x04) || (b2z b =? 0x06) || (b2z b =? 0x07))
  else Done false.

(** The length is tested before the first byte is read. *)
Definition IsCompressedPubKey (pubKey : list byte) : run bool :=
  if zlen pubKey =? 33 then b ← index pubKey 0; Done (Z.ldiff (b2z b) 0x1 =? 0x2) else Done false.

(** [v0] says whether a version 0 witness program is active. *)
Definition checkPubKeyEncoding (flags : Z) (v0 : bool) (pubKey : list byte) : run (option ErrorCode) :=
  bad ← (if hasFlag flags ScriptVerifyWitnessPubKeyType && v0 then
           c ← IsCompressedPubKey pubKey; Done (negb c)
         else Done false);
  if bad : bool then Done (Some ErrWitnessPubKeyType) else
  if negb (hasFlag flags ScriptVerifyStrictEncoding) then Done None else
  c ← (if zlen pubKey =? 33 then
         b ← index pubKey 0; Done ((b2z b =? 0x02) || (b2z b =? 0x03))
       else Done false);
  if c : bool then Done None else
  u ← (if zlen pubKey =? 65 then b ← index pubKey 0; Done (b2z b =? 0x04) else Done false);
  if u : bool then Done None else Done (Some ErrPubKeyType).

(** ** Signatures *)

Definition asn1SequenceID : Z := 0x30.
Definition asn1IntegerID : Z := 0x02.
Definition minSigLen : Z := 8.
Definition maxSigLen : Z := 72.
Definition sequenceOffset : Z := 0.
Definition dataLenOffset : Z := 1.
Definition rTypeOffset : Z := 2.
Definition rLenOffset : Z := 3.
Definition rOffset : Z := 4.

(** The order of the curve, [btcec.S256().N] *)
Definition curveN : Z := 0xFFFFFFFFFFFFFFFFFFFFFFFFFFFFFFFEBAAEDCE6AF48A03BBFD25E8CD0364141.
Definition halfOrder : Z := Z.shiftr curveN 1.

(** [n > 1 && sig[off] == 0x00 && sig[off+1]&0x80 == 0], where the operands to the
    right are only read if those to the left hold *)
Definition padded (sig : list byte) (off n : Z) : run bool :=
  if 1 <? n then
    b ← index sig off;
    if b2z b =? 0 then c ← index sig (off + 1); Done (Z.land (b2z c) 0x80 =? 0) else Done false
  else Done false.

Definition negative (sig : list byte) (off : Z) : run bool :=
  b ← index sig off; Done (negb (Z.land (b2z b) 0x80 =? 0)).

(** [if bad { return scriptError(e, ...) }; rest] *)
Definition guard (bad : bool) (e : ErrorCode) (rest : run (option ErrorCode)) : run (option ErrorCode) :=
  if bad then Done (Some e) else rest.

Definition checkSignatureEncoding (flags : Z) (sig : list byte) : run (option ErrorCode) :=
  if negb (hasFlag flags ScriptVerifyDERSignatures) && negb (hasFlag flags ScriptVerifyLowS) &&
     negb (hasFlag flags ScriptVerifyStrictEncoding) then Done None else
  let sigLen := zlen sig in
  guard (sigLen <? minSigLen) ErrSigTooShort (
  guard (maxSigLen <? sigLen) ErrSigTooLong (
  seq ← index sig sequenceOffset;
  guard (negb (b2z seq =? asn1SequenceID)) ErrSigInvalidSeqID (
  dataLen ← index sig dataLenOffset;
  guard (negb (b2z dataLen =? sigLen - 2)) ErrSigInvalidDataLen (
  rLenB ← index sig rLenOffset;
  let rLen := b2z rLenB in
  let sTypeOffset := rOffset + rLen in
  let sLenOffset := sTypeOffset + 1 in
  guard (sigLen <=? sTypeOffset) ErrSigMissingSTypeID (
  guard (sigLen <=? sLenOffset) ErrSigMissingSLen (
  let sOffset := sLenOffset + 1 in
  sLenB ← index sig sLenOffset;
  let sLen := b2z sLenB in
  guard (negb (sOffset + sLen =? sigLen)) ErrSigInvalidSLen (
  rType ← index sig rTypeOffset;
  guard (negb (b2z rType =? asn1IntegerID)) ErrSigInvalidRIntID (
  guard (rLen =? 0) ErrSigZeroRLen (
  rNeg ← negative sig rOffset;
  guard rNeg ErrSigNegativeR (
  rPad ← padded sig rOffset rLen;
  guard rPad ErrSigTooMuchRPadding (
  sType ← index sig sTypeOffset;
  guard (negb (b2z sType =? asn1IntegerID)) ErrSigInvalidSIntID (
  guard (sLen =? 0) ErrSigZeroSLen (
  sNeg ← negative sig sOffset;
  guard sNeg ErrSigNegativeS (
  sPad ← padded sig sOffset sLen;
  guard sPad ErrSigTooMuchSPadding (
  if hasFlag flags ScriptVerifyLowS then
    sBytes ← slice sig sOffset (sOffset + sLen);
    guard (halfOrder <? be_val sBytes) ErrSigHighS (Done None)
  else Done None))))))))))))))).

(** ** Reference: strict DER *)

(** The contents of a DER integer that is not negative: not empty, sign bit clear, no
    leading zero byte unless the next byte needs it *)
Definition derInt (bs : list byte) : Prop :=
  match bs with
  | [] => False
  | [b] => b2z b < 0x80
  | b :: c :: _ => b2z b < 0x80 ∧ (b2z b = 0 → 0x80 ≤ b2z c)
  end.

Definition derInteger (bs : list byte) : list byte := z2b asn1IntegerID :: z2b (zlen bs) :: bs.

Definition derSig (r s : list byte) : list byte :=
  let body := derInteger r ++ derInteger s in z2b asn1SequenceID :: z2b (zlen body) :: body.

(** ** The check on a signature cut into its fields *)

(** The rules for the integer at [off] that has [n] bytes, in the order of the code *)
Definition checkInteger (sig : list byte) (off n : Z) (zeroLen neg pad : ErrorCode)
    (rest : run (option ErrorCode)) : run (option ErrorCode) :=
  guard (n =? 0) zeroLen (
  isNeg ← negative sig off;
  guard isNeg neg (
  isPad ← padded sig off n;
  guard isPad pad rest)).

Lemma land_sign b : (Z.land (b2z b) 0x80 =? 0) = (b2z b <? 0x80).
Proof.
  pose proof (b2z_range b). change 0x80 with (2 ^ 7) at 1. rewrite land_pow2 by lia.
  rewrite testbit_top by zlia. change (2 ^ 7) with 0x80.
  by destruct (Z.leb_spec 0x80 (b2z b)), (Z.ltb_spec (b2z b) 0x80); try lia.
Qed.

Lemma derInt_dec bs : Decision (derInt bs).
Proof. destruct bs as [|b [|c bs]]; cbn; apply _. Defined.
#[export] Existing Instance derInt_dec.

Lemma checkInteger_ok pre bs post zE nE pE rest : derInt bs →
  checkInteger (pre ++ bs ++ post) (zlen pre) (zlen bs) zE nE pE rest = rest.
Proof.
  unfold checkInteger, negative, padded. intros Hd. destruct bs as [|b bs]; [done|]. cbn [app].
  rewrite (zlen_cons b). pose proof (zlen_nonneg bs). destruct (Z.eqb_spec (1 + zlen bs) 0); [lia|]. cbn [guard].
  rewrite Script.index_here. cbn [mbind run_bind]. rewrite land_sign.
  destruct bs as [|c bs]; cbn [derInt] in Hd.
  - destruct (Z.ltb_spec (b2z b) 0x80); [|lia]. done.
  - destruct (Z.ltb_spec (b2z b) 0x80); [|lia]. cbn [negb guard]. rewrite zlen_cons in *.
    destruct (Z.ltb_spec 1 (1 + (1 + zlen bs))); [|pose proof (zlen_nonneg bs); lia].
    destruct (Z.eqb_spec (b2z b) 0) as [E|]; [|done].
    replace (pre ++ b :: (c :: bs) ++ post) with ((pre ++ [b]) ++ c :: bs ++ post) by (by rewrite <-app_assoc).
    replace (zlen pre + 1) with (zlen (pre ++ [b])) by (by rewrite zlen_app).
    rewrite Script.index_here. cbn [mbind run_bind]. rewrite land_sign.
    destruct (Z.ltb_spec (b2z c) 0x80); [lia|done].
Qed.

Lemma checkInteger_bad pre bs post zE nE pE rest : ¬ derInt bs → ∃ e,
  checkInteger (pre ++ bs ++ post) (zlen pre) (zlen bs) zE nE pE rest = Done (Some e).
Proof.
  unfold checkInteger, negative, padded. intros Hd. destruct bs as [|b bs]; [by eexists|]. cbn [app].
  rewrite (zlen_cons b). pose proof (zlen_nonneg bs). destruct (Z.eqb_spec (1 + zlen bs) 0); [lia|]. cbn [guard].
  rewrite Script.index_here. cbn [mbind run_bind]. rewrite land_sign.
  destruct (Z.ltb_spec (b2z b) 0x80); [|by eexists]. cbn [negb guard].
  destruct bs as [|c bs]; cbn [derInt] in Hd; [lia|].
  rewrite zlen_cons in *. destruct (Z.ltb_spec 1 (1 + (1 + zlen bs))); [|pose proof (zlen_nonneg bs); lia].
  destruct (Z.eqb_spec (b2z b) 0) as [E|]; [|lia].
  replace (pre ++ b :: (c :: bs) ++ post) with ((pre ++ [b]) ++ c :: bs ++ post) by (by rewrite <-app_assoc).
  replace (zlen pre + 1) with (zlen (pre ++ [b])) by (by rewrite zlen_app).
  rewrite Script.index_here. cbn [mbind run_bind]. rewrite land_sign.
  destruct (Z.ltb_spec (b2z c) 0x80); [by eexists|lia].
Qed.

(** Whether one of the flags asks for the check *)
Definition strictSigs (flags : Z) : bool :=
  hasFlag flags ScriptVerifyDERSignatures || hasFlag flags ScriptVerifyLowS ||
  hasFlag flags ScriptVerifyStrictEncoding.

Definition lowS (flags : Z) (s : list byte) : bool :=
  negb (hasFlag flags ScriptVerifyLowS) || (be_val s <=? halfOrder).

(** A signature [b0 b1 b2 b3 r t l s] where [b3] is the length of [r] *)
Lemma check_fields flags b0 b1 b2 b3 r t l s : strictSigs flags = true → b2z b3 = zlen r →
  let sig := b0 :: b1 :: b2 :: b3 :: r ++ t :: l :: s in
  8 ≤ zlen sig ≤ 72 →
  checkSignatureEncoding flags sig =
    guard (negb (b2z b0 =? 0x30)) ErrSigInvalidSeqID (
    guard (negb (b2z b1 =? zlen sig - 2)) ErrSigInvalidDataLen (
    guard (negb (b2z l =? zlen s)) ErrSigInvalidSLen (
    guard (negb (b2z b2 =? 0x02)) ErrSigInvalidRIntID (
    checkInteger sig 4 (zlen r) ErrSigZeroRLen ErrSigNegativeR ErrSigTooMuchRPadding (
    guard (negb (b2z t =? 0x02)) ErrSigInvalidSIntID (
    checkInteger sig (6 + zlen r) (b2z l) ErrSigZeroSLen ErrSigNegativeS ErrSigTooMuchSPadding (
    if hasFlag flags ScriptVerifyLowS then
      sBytes ← slice sig (6 + zlen r) (6 + zlen r + b2z l);
      guard (halfOrder <? be_val sBytes) ErrSigHighS (Done None)
    else Done None))))))).
Proof.
  intros Hf E3 sig Hl. unfold checkSignatureEncoding.
  replace (negb _ && negb _ && negb _) with (negb (strictSigs flags))
    by (unfold strictSigs; by rewrite !negb_orb). rewrite Hf. cbn [negb].
  unfold minSigLen, maxSigLen, sequenceOffset, dataLenOffset, rLenOffset, rTypeOffset, rOffset.
  destruct (Z.ltb_spec (zlen sig) 8), (Z.ltb_spec 72 (zlen sig)); [lia..|]. cbn [guard].
  assert (zlen sig = 6 + zlen r + zlen s) as El by (unfold sig; rewrite !zlen_cons, zlen_app, !zlen_cons; lia).
  pose proof (zlen_nonneg s). pose proof (zlen_nonneg r).
  change (index sig 0) with (Done b0). change (index sig 1) with (Done b1).
  change (index sig 2) with (Done b2). change (index sig 3) with (Done b3). cbn [mbind run_bind]. rewrite E3.
  assert (index sig (4 + zlen r) = Done t) as Et.
  { replace (4 + zlen r) with (zlen (b0 :: b1 :: b2 :: b3 :: r)) by (rewrite !zlen_cons; lia).
    apply (Script.index_here (b0 :: b1 :: b2 :: b3 :: r) t). }
  assert (index sig (4 + zlen r + 1) = Done l) as Eli.
  { replace (4 + zlen r + 1) with (zlen ((b0 :: b1 :: b2 :: b3 :: r) ++ [t])) by (rewrite zlen_app, !zlen_cons; change (zlen (@nil byte)) with 0; lia).
    replace sig with (((b0 :: b1 :: b2 :: b3 :: r) ++ [t]) ++ l :: s) by (unfold sig; cbn; by rewrite <-app_assoc).
    apply Script.index_here. }
  rewrite Et, Eli. cbn [mbind run_bind].
  destruct (Z.leb_spec (zlen sig) (4 + zlen r)), (Z.leb_spec (zlen sig) (4 + zlen r + 1)); [lia..|]. cbn [guard].
  replace (4 + zlen r + 1 + 1) with (6 + zlen r) by lia.
  replace (6 + zlen r + b2z l =? zlen sig) with (b2z l =? zlen s); [done|].
  destruct (Z.eqb_spec (b2z l) (zlen s)), (Z.eqb_spec (6 + zlen r + b2z l) (zlen sig)); lia || done.
Qed.

(** A signature whose length of [R] leaves no room for the header of [S] *)
Lemma check_no_room flags b0 b1 b2 b3 rest : strictSigs flags = true → zlen rest < b2z b3 + 2 →
  ∃ e, checkSignatureEncoding flags (b0 :: b1 :: b2 :: b3 :: rest) = Done (Some e).
Proof.
  intros Hf Hr. set (sig := b0 :: b1 :: b2 :: b3 :: rest).
  assert (zlen sig = 4 + zlen rest) as El by (unfold sig; rewrite !zlen_cons; lia).
  unfold checkSignatureEncoding.
  replace (negb _ && negb _ && negb _) with (negb (strictSigs flags))
    by (unfold strictSigs; by rewrite !negb_orb). rewrite Hf. cbn [negb].
  unfold sequenceOffset, dataLenOffset, rLenOffset, rTypeOffset, rOffset.
  change (index sig 0) with (Done b0). change (index sig 1) with (Done b1).
  change (index sig 3) with (Done b3). cbn [mbind run_bind].
  unfold guard at 1. case_match; [by eexists|]. unfold guard at 1. case_match; [by eexists|].
  unfold guard at 1. case_match; [by eexists|]. unfold guard at 1. case_match; [by eexists|].
  destruct (Z.leb_spec (zlen sig) (4 + b2z b3)); [by eexists|].
  destruct (Z.leb_spec (zlen sig) (4 + b2z b3 + 1)); [by eexists|lia].
Qed.

Lemma check_length flags sig : strictSigs flags = true → ¬ 8 ≤ zlen sig ≤ 72 →
  ∃ e, checkSignatureEncoding flags sig = Done (Some e).
Proof.
  intros Hf Hl. unfold checkSignatureEncoding.
  replace (negb _ && negb _ && negb _) with (negb (strictSigs flags))
    by (unfold strictSigs; by rewrite !negb_orb). rewrite Hf. cbn [negb]. unfold minSigLen, maxSigLen.
  destruct (Z.ltb_spec (zlen sig) 8); [by eexists|]. destruct (Z.ltb_spec 72 (zlen sig)); [by eexists|lia].
Qed.

Lemma derSig_fields r s :
  derSig r s = z2b 0x30 :: z2b (4 + zlen r + zlen s) :: z2b 0x02 :: z2b (zlen r) :: r ++ z2b 0x02 :: z2b (zlen s) :: s.
Proof.
  unfold derSig, derInteger. cbn [app]. do 2 f_equal. f_equal. rewrite !zlen_cons, zlen_app, !zlen_cons. lia.
Qed.

Lemma derSig_length r s : zlen (derSig r s) = 6 + zlen r + zlen s.
Proof. rewrite derSig_fields, !zlen_cons, zlen_app, !zlen_cons. lia. Qed.

Lemma derInt_nonempty bs : derInt bs → 1 ≤ zlen bs.
Proof. destruct bs; [done|]. rewrite zlen_cons. pose proof (zlen_nonneg bs). lia. Qed.

(** What the fields must be for the check to pass *)
Lemma check_fields_iff flags b0 b1 b2 b3 r t l s : strictSigs flags = true → b2z b3 = zlen r →
  let sig := b0 :: b1 :: b2 :: b3 :: r ++ t :: l :: s in
  8 ≤ zlen sig ≤ 72 →
  let good := sig = derSig r s ∧ derInt r ∧ derInt s ∧ lowS flags s = true in
  (good ∧ checkSignatureEncoding flags sig = Done None) ∨
  (¬ good ∧ ∃ e, checkSignatureEncoding flags sig = Done (Some e)).
Proof.
  intros Hf E3 sig Hl good. unfold sig. rewrite check_fields by done. fold sig.
  assert (zlen sig = 6 + zlen r + zlen s) as El by (unfold sig; rewrite !zlen_cons, zlen_app, !zlen_cons; lia).
  pose proof (zlen_nonneg s). pose proof (zlen_nonneg r).
  assert (sig = derSig r s ↔ b2z b0 = 0x30 ∧ b2z b1 = zlen sig - 2 ∧ b2z l = zlen s ∧ b2z b2 = 0x02 ∧ b2z t = 0x02) as Hs.
  { rewrite derSig_fields, El. unfold sig. split.
    - intros [= -> -> -> _ E]. apply app_inj_1 in E as [_ [= -> ->]]; [|done].
      rewrite !b2z_z2b_small by lia. lia.
    - intros (E0 & E1 & E5 & E2 & Et). assert (t = b2) as -> by (apply b2z_inj; lia). replace (4 + zlen r + zlen s) with (b2z b1) by lia.
      rewrite <-E0, <-E2, <-E3, <-E5, !z2b_b2z. done. }
  unfold good. rewrite Hs. clear Hs good.
  destruct (Z.eqb_spec (b2z b0) 0x30); [|right; split; [lia|by eexists]].
  destruct (Z.eqb_spec (b2z b1) (zlen sig - 2)); [|right; split; [lia|by eexists]].
  destruct (Z.eqb_spec (b2z l) (zlen s)) as [E5|]; [|right; split; [lia|by eexists]].
  destruct (Z.eqb_spec (b2z b2) 0x02); [|right; split; [lia|by eexists]]. cbn [negb guard]. rewrite E5.
  assert (sig = [b0; b1; b2; b3] ++ r ++ t :: l :: s) as Er by done.
  assert (sig = (b0 :: b1 :: b2 :: b3 :: r ++ [t; l]) ++ s ++ []) as Ess
    by (unfold sig; rewrite app_nil_r; cbn; by rewrite <-app_assoc).
  destruct (decide (derInt r)) as [Hr|Hr].
  2: { right. split; [tauto|]. rewrite Er. change 4 with (zlen [b0; b1; b2; b3]). by apply checkInteger_bad. }
  assert (∀ k zE nE pE, checkInteger sig 4 (zlen r) zE nE pE k = k) as ->
    by (intros; rewrite Er; change 4 with (zlen [b0; b1; b2; b3]); by apply checkInteger_ok).
  destruct (Z.eqb_spec (b2z t) 0x02); [|right; split; [lia|by eexists]]. cbn [negb guard].
  assert (6 + zlen r = zlen (b0 :: b1 :: b2 :: b3 :: r ++ [t; l])) as E6
    by (rewrite !zlen_cons, zlen_app, !zlen_cons; change (zlen (@nil byte)) with 0; lia).
  destruct (decide (derInt s)) as [Hi|Hi].
  2: { right. split; [tauto|]. rewrite Ess, E6. by apply checkInteger_bad. }
  assert (∀ k zE nE pE, checkInteger sig (6 + zlen r) (zlen s) zE nE pE k = k) as ->
    by (intros; rewrite Ess, E6; by apply checkInteger_ok).
  unfold lowS. destruct (hasFlag flags ScriptVerifyLowS); cbn [negb orb]; [|left; split; [tauto|done]].
  assert (slice sig (6 + zlen r) (6 + zlen r + zlen s) = Done s) as ->
    by (rewrite Ess, app_nil_r, E6; apply Script.slice_from; rewrite ?zlen_app; lia). cbn [mbind run_bind].
  destruct (Z.ltb_spec halfOrder (be_val s)), (Z.leb_spec (be_val s) halfOrder); try lia.
  - right. split; [by intros (_ & _ & _ & ?)|by eexists].
  - left. by split_and!.
Qed.

(** C18 (equivalence).  When one of the flags asks for strict signatures, the check passes
    exactly the signatures of at most 72 bytes that are the DER encoding of two integers
    that are not negative, each in as few bytes as possible, and whose [S] is at most half
    of the curve order if low [S] values are required; it never reads out of range. *)
Theorem signature_encoding_spec (flags : Z) (sig : list byte) (H : strictSigs flags = true) :
  ∃ res, checkSignatureEncoding flags sig = Done res ∧
  (res = None ↔ zlen sig ≤ 72 ∧ ∃ r s, sig = derSig r s ∧ derInt r ∧ derInt s ∧ lowS flags s = true).
Proof.
  assert (∀ r s, sig = derSig r s → derInt r → derInt s → 8 ≤ zlen sig) as Hmin.
  { intros r s -> Hr Hs. rewrite derSig_length. apply derInt_nonempty in Hr, Hs. lia. }
  destruct (decide (8 ≤ zlen sig ≤ 72)) as [Hl|Hl].
  2: { destruct (check_length flags sig H Hl) as [e ->]. exists (Some e). split; [done|]. split; [done|].
       intros (? & r & s & E & Hr & Hs & _). pose proof (Hmin r s E Hr Hs). lia. }
  assert (∃ b0 b1 b2 b3 rest, sig = b0 :: b1 :: b2 :: b3 :: rest) as (b0 & b1 & b2 & b3 & rest & ->).
  { destruct sig as [|b0 [|b1 [|b2 [|b3 rest]]]]; try (unfold zlen in Hl; cbn in Hl; lia). by repeat eexists. }
  destruct (Z.ltb_spec (zlen rest) (b2z b3 + 2)) as [Hr|Hr].
  { destruct (check_no_room flags b0 b1 b2 b3 rest H Hr) as [e ->]. exists (Some e). split; [done|]. split; [done|].
    intros (? & r & s & E & _). rewrite derSig_fields in E. injection E as _ _ _ -> ->.
    revert Hr Hl. rewrite zlen_app, !zlen_cons, zlen_app, !zlen_cons.
    pose proof (zlen_nonneg s). pose proof (zlen_nonneg r). intros Hr Hl. rewrite b2z_z2b_small in Hr by lia. lia. }
  pose proof (b2z_range b3).
  assert (∃ r t l s, rest = r ++ t :: l :: s ∧ b2z b3 = zlen r) as (r & t & l & s & -> & E3).
  { exists (take (Z.to_nat (b2z b3)) rest). destruct (drop (Z.to_nat (b2z b3)) rest) as [|t [|l s]] eqn:E;
      [apply (f_equal length) in E; rewrite length_drop in E; unfold zlen in Hr; cbn in E; lia..|].
    exists t, l, s. rewrite <-E, take_drop. split; [done|]. unfold zlen in *. rewrite length_take. lia. }
  destruct (check_fields_iff flags b0 b1 b2 b3 r t l s H E3 Hl) as [[Hg ->]|[Hg [e ->]]].
  - exists None. split; [done|]. split; [|done]. intros _. split; [lia|]. by exists r, s.
  - exists (Some e). split; [done|]. split; [done|]. intros (_ & r' & s' & E & Hr' & Hs' & Hlow). exfalso. apply Hg.
    pose proof E as Esig. rewrite derSig_fields in E. injection E as _ _ _ E E'.
    assert (zlen r = zlen r') as Er.
    { rewrite E, b2z_z2b_small in E3; [done|]. revert Hl. rewrite E', !zlen_cons, zlen_app, !zlen_cons.
      pose proof (zlen_nonneg s'). pose proof (zlen_nonneg r'). lia. }
    apply app_inj_1 in E' as [-> [= -> -> ->]]; [|unfold zlen in Er; lia].
    by split_and!.
Qed.

(** A signature with strict flags and low [S], and the one with [S] replaced by its
    complement *)
Definition lowSig : list byte := derSig (replicate 32 (z2b 0x11)) (replicate 32 (z2b 0x22)).

Lemma signature_encoding_spec_witness :
  let flags := Z.lor ScriptVerifyDERSignatures ScriptVerifyLowS in
  strictSigs flags = true ∧ checkSignatureEncoding flags lowSig = Done None.
Proof.
  intros flags. split; [done|].
  destruct (signature_encoding_spec flags lowSig eq_refl) as (res & -> & Hres). f_equal. apply Hres.
  split; [vm_compute; discriminate|].
  exists (replicate 32 (z2b 0x11)), (replicate 32 (z2b 0x22)). 
  split_and!; [reflexivity|apply (bool_decide_unpack _); vm_compute; exact I..|reflexivity].
Defined.

(** ** Malleability *)

(** Two minimal encodings of one number are equal. *)
Lemma be_val_cons b bs : be_val (b :: bs) = b2z b * 256 ^ zlen bs + be_val bs.
Proof.
  unfold be_val. rewrite reverse_cons. generalize (reverse bs) (length_reverse bs). intros l E.
  unfold zlen. rewrite <-E. clear E bs. induction l as [|x l IH]; cbn [app le_val length].
  - lia.
  - rewrite IH, Nat2Z.inj_succ, Z.pow_succ_r by lia. lia.
Qed.

Lemma be_val_bound bs : 0 ≤ be_val bs < 256 ^ zlen bs.
Proof. unfold be_val, zlen. rewrite <-length_reverse. apply le_val_range. Qed.

(** The value of a minimal encoding of [n] bytes uses more than [n - 1] of them, counting
    the sign bit. *)
Lemma derInt_lower b bs : derInt (b :: bs) → bs = [] ∨ 128 * 256 ^ (zlen bs - 1) ≤ be_val (b :: bs).
Proof.
  intros H. destruct bs as [|c bs]; [by left|right]. cbn [derInt] in H. destruct H as [Hb Hc].
  rewrite !be_val_cons, zlen_cons. pose proof (be_val_bound bs). pose proof (b2z_range b). pose proof (b2z_range c).
  pose proof (zlen_nonneg bs). replace (1 + zlen bs - 1) with (zlen bs) by lia.
  rewrite (Z.pow_add_r 256 1), Z.pow_1_r by lia. destruct (decide (b2z b = 0)) as [E|]; [|nia]. specialize (Hc E). nia.
Qed.

Lemma derInt_upper b bs : derInt (b :: bs) → be_val (b :: bs) < 128 * 256 ^ zlen bs.
Proof.
  intros H. assert (b2z b < 0x80) by (destruct bs; cbn in H; lia).
  rewrite be_val_cons. pose proof (be_val_bound bs). nia.
Qed.

Lemma derInt_shorter bs cs : derInt bs → derInt cs → be_val bs = be_val cs → zlen bs ≤ zlen cs.
Proof.
  destruct bs as [|b bs], cs as [|c cs]; try done. intros Hb Hc E. rewrite !zlen_cons.
  destruct (derInt_lower b bs Hb) as [->|Hlo]; [pose proof (zlen_nonneg cs); change (zlen (@nil byte)) with 0; lia|].
  pose proof (derInt_upper c cs Hc) as Hup. rewrite E in Hlo.
  destruct (Z.le_gt_cases (zlen bs) (zlen cs)); [lia|]. exfalso. pose proof (zlen_nonneg cs).
  pose proof (Z.pow_le_mono_r 256 (zlen cs) (zlen bs - 1) ltac:(lia) ltac:(lia)). lia.
Qed.

Lemma derInt_unique bs cs : derInt bs → derInt cs → be_val bs = be_val cs → bs = cs.
Proof.
  intros Hb Hc E. pose proof (derInt_shorter bs cs Hb Hc E). pose proof (derInt_shorter cs bs Hc Hb (eq_sym E)).
  rewrite <-(reverse_involutive bs), <-(reverse_involutive cs). f_equal.
  apply le_val_inj; [rewrite !length_reverse; unfold zlen in *; lia|done].
Qed.

(** Two strict encodings of the same [R] and [S] are the same bytes: nobody can re-encode
    a signature. *)
Lemma derSig_unique r1 s1 r2 s2 : derInt r1 → derInt s1 → derInt r2 → derInt s2 →
  be_val r1 = be_val r2 → be_val s1 = be_val s2 → derSig r1 s1 = derSig r2 s2.
Proof. intros. f_equal; by apply derInt_unique. Qed.

End SigEncoding.
