(* ===== verification/Context.v ===== *)
(** * Context: checks that depend on the position in the chain

    Model of [CheckBlockHeaderContext], [assertNoTimeWarp] and [checkBlockContext]
    of [blockchain/validate.go] and of the checkpoints of
    [blockchain/checkpoints.go].  The state is the chain with its caches, and the
    checkpoint that was found last with the one expected next. *)

From S2P Require Import Prelude WorkMath Compress ChainHash Wire BlockNode ChainView ChainIO ColdRead Difficulty Threshold.
From S2P Require Import Merkle Script UtxoSet UtxoCache UtxoView Sanity Connect ScriptNum.

Module Context.
Import Sanity (ErrorCode, ErrUnexpectedDifficulty, BFFastAdd, hasFlag, IsFinalizedTransaction, ShouldHaveSerializedBlockHeight,
  ValidateWitnessCommitment, GetBlockWeight).
Import UtxoView (Block, Header, Transactions, MaxBlockWeight).
Import BlockNode (loc, heap, blockNode, deref, height, hash, parent, timestamp).
Import Connect (BIP0034Height, BIP0065Height, BIP0066Height, checkpoints, thresholds, DeploymentCSV, DeploymentSegwit).
Import Threshold (ThresholdActive).
#[local] Existing Instance Threshold.ThresholdState_eq_dec.

Abbreviation Checkpoint := (Z * list byte)%type.

Record Params := {
  base : Connect.Params;
  difficulty : Difficulty.Params;
  EnforceBIP94 : bool;
}.

Record state := {
  chain_ : Threshold.chain;
  checkpointNode : option loc;
  nextCheckpoint : option Checkpoint;
}.

Inductive contextError :=
  | RuleError (e : ErrorCode)
  | ErrTimeTooOld | ErrTimewarpAttack | ErrBlockVersionTooOld | ErrBadCheckpoint | ErrForkTooOld | ErrUnfinalizedTx
  | ErrBlockWeightTooHigh
  | AssertError
  | ChainError (e : Threshold.thresholdError).

Abbreviation M := (io state contextError).

Definition get_ : M state := fun s => Done (inl s, s).
Definition set_checkpoint (node : option loc) (next : option Checkpoint) : M unit := fun s =>
  Done (inl tt, {| chain_ := chain_ s; checkpointNode := node; nextCheckpoint := next |}).

Definition with_chain (c : Threshold.chain) (s : state) : state :=
  {| chain_ := c; checkpointNode := checkpointNode s; nextCheckpoint := nextCheckpoint s |}.

Definition inChain {A} (m : Threshold.M A) : M A := fun s =>
  r ← m (chain_ s); Done (match r.1 with inl a => inl a | inr e => inr (ChainError e) end, with_chain r.2 s).

(** An operation on the index *)
Definition onIndex {A} (f : ColdRead.BlockChain → run (A * ColdRead.BlockChain)) : M A := fun s =>
  r ← f (Threshold.bc (chain_ s)); Done (inl r.1, with_chain (Threshold.set_bc r.2 (chain_ s)) s).

Definition index : M ColdRead.BlockChain := fun s => Done (inl (Threshold.bc (chain_ s)), s).

Definition node (l : loc) : M blockNode := b ← index; io_run (deref (ColdRead.heap_ b) l).

Definition rule (c : run (option ErrorCode)) : M unit :=
  r ← io_run c; match r with Some e => io_fail (RuleError e) | None => mret tt end.

(** ** Checkpoints *)

Definition HasCheckpoints (p : Params) : bool := 0 <? zlen (checkpoints (base p)).

(** The map by height, filled in order *)
Definition checkpointsByHeight (p : Params) : gmap Z Checkpoint :=
  foldl (fun m c => <[c.1 := c]> m) ∅ (checkpoints (base p)).

Definition verifyCheckpoint (p : Params) (hgt : Z) (hs : list byte) : bool :=
  if negb (HasCheckpoints p) then true else
  match checkpointsByHeight p !! hgt with
  | None => true
  | Some checkpoint => bool_decide (checkpoint.2 = hs)
  end.

(** The checkpoints, last first; [next] is the one after the current. *)
Fixpoint searchCheckpoint (rcps : list Checkpoint) (next : option Checkpoint) (b : ColdRead.BlockChain) :
    run (option (loc * option Checkpoint)) :=
  match rcps with
  | [] => Done None
  | c :: rcps =>
      match ColdRead.LookupNode b c.2 with
      | None => searchCheckpoint rcps (Some c) b
      | Some l =>
          inView ← ChainView.contains (ColdRead.heap_ b) (ColdRead.bestChain b) l;
          if inView : bool then Done (Some (l, next)) else searchCheckpoint rcps (Some c) b
      end
  end.

(** The checkpoint after the last one with this hash *)
Fixpoint checkpointAfter (rcps : list Checkpoint) (next : option Checkpoint) (hs : list byte) : option Checkpoint :=
  match rcps with
  | [] => None
  | c :: rcps => if bool_decide (c.2 = hs) then next else checkpointAfter rcps (Some c) hs
  end.

Definition findPreviousCheckpoint (p : Params) : M (option loc) :=
  if negb (HasCheckpoints p) then mret None else
  let rcps := rev (checkpoints (base p)) in
  s ← get_;
  match checkpointNode s, nextCheckpoint s with
  | None, None =>
      b ← index;
      r ← io_run (searchCheckpoint rcps None b);
      match r with
      | Some (l, next) => _ ← set_checkpoint (Some l) next; mret (Some l)
      | None => _ ← set_checkpoint None (head (checkpoints (base p))); mret None
      end
  | cp, None => mret cp
  | cp, Some next =>
      b ← index;
      tip ← io_run (of_option (ChainView.tip (ColdRead.bestChain b)));
      tn ← node tip;
      if height tn <? next.1 then mret cp else
      found ← match ColdRead.LookupNode b next.2 with
              | Some l => mret (Some l)
              | None => if ColdRead.coldReadEnabled b then onIndex (fun b => ColdRead.materializeColdNode b next.2) else mret None
              end;
      match found with
      | None => io_fail AssertError
      | Some l => _ ← set_checkpoint (Some l) (checkpointAfter rcps None next.2); mret (Some l)
      end
  end.

(** ** Headers *)

Definition maxTimeWarp : Z := 600.

Definition assertNoTimeWarp (blockHeight blocksPerReTarget headerTimestamp prevBlockTimestamp : Z) : run (option contextError) :=
  r ← Threshold.gorem blockHeight blocksPerReTarget;
  Done (if negb (r =? 0) then None
        else if headerTimestamp <? prevBlockTimestamp - maxTimeWarp then Some ErrTimewarpAttack else None).

(** Old versions are rejected from the heights of BIP 34, 66 and 65 on. *)
Definition versionTooOld (p : Connect.Params) (version blockHeight : Z) : bool :=
  (version <? 2) && (BIP0034Height p <=? blockHeight) ||
  (version <? 3) && (BIP0066Height p <=? blockHeight) ||
  (version <? 4) && (BIP0065Height p <=? blockHeight).

Definition pastMedianTime (l : loc) : M Z :=
  b ← index; io_run (BlockNode.CalcPastMedianTime (C := BlockNode.blockNode_ctx (ColdRead.heap_ b)) l).

Definition CheckBlockHeaderContext (p : Params) (header : Wire.BlockHeader) (prevNode : loc) (flags : Z) (skipCheckpoint : bool) :
    M unit :=
  prev ← node prevNode;
  let blockHeight := i32 (height prev + 1) in
  _ ← (if negb (hasFlag flags BFFastAdd) then
         expectedDifficulty ← onIndex (fun b => Difficulty.calcNextRequiredDifficulty (difficulty p) b (Some prevNode));
         if negb (Wire.Bits header =? expectedDifficulty) then io_fail (RuleError ErrUnexpectedDifficulty) else
         medianTime ← pastMedianTime prevNode;
         if negb (medianTime <? Wire.Timestamp header) then io_fail ErrTimeTooOld else
         if EnforceBIP94 p then
           e ← io_run (assertNoTimeWarp blockHeight (Difficulty.blocksPerRetarget (difficulty p)) (Wire.Timestamp header) (timestamp prev));
           match e with Some e => io_fail e | None => mret tt end
         else mret tt
       else mret tt);
  if versionTooOld (base p) (Wire.Version header) blockHeight then io_fail ErrBlockVersionTooOld else
  if skipCheckpoint then mret tt else
  blockHash ← io_run (Wire.BlockHash header);
  if negb (verifyCheckpoint p blockHeight blockHash) then io_fail ErrBadCheckpoint else
  cp ← findPreviousCheckpoint p;
  match cp with
  | None => mret tt
  | Some l => nd ← node l; if blockHeight <? height nd then io_fail ErrForkTooOld else mret tt
  end.

(** ** Blocks *)

Definition isActive (p : Params) (prevNode : loc) (id : Z) : M bool :=
  st ← inChain (Threshold.deploymentState (thresholds (base p)) (Some prevNode) id);
  mret (bool_decide (st = ThresholdActive)).

Definition checkBlockContext (p : Params) (block : Block) (prevNode : loc) (flags : Z) : M unit :=
  let header := Header block in
  _ ← CheckBlockHeaderContext p header prevNode flags false;
  if hasFlag flags BFFastAdd then mret tt else
  csv ← isActive p prevNode DeploymentCSV;
  blockTime ← (if csv : bool then pastMedianTime prevNode else mret (Wire.Timestamp header));
  prev ← node prevNode;
  let blockHeight := i32 (height prev + 1) in
  if negb (forallb (fun tx => IsFinalizedTransaction tx blockHeight blockTime) (Transactions block)) then io_fail ErrUnfinalizedTx else
  _ ← (if ShouldHaveSerializedBlockHeight header && (BIP0034Height (base p) <=? blockHeight) then
         coinbaseTx ← io_run (Prelude.index (Transactions block) 0);
         rule (ScriptNum.CheckSerializedHeight coinbaseTx blockHeight)
       else mret tt);
  segwit ← isActive p prevNode DeploymentSegwit;
  if segwit : bool then
    _ ← rule (ValidateWitnessCommitment block);
    if MaxBlockWeight <? GetBlockWeight block then io_fail ErrBlockWeightTooHigh else mret tt
  else mret tt.

(** ** The header rules on the whole tree *)

Lemma onIndex_step {A B} (f : ColdRead.BlockChain → run (A * ColdRead.BlockChain)) (k : A → M B) s a b :
  f (Threshold.bc (chain_ s)) = Done (a, b) → (onIndex f ≫= k) s = k a (with_chain (Threshold.set_bc b (chain_ s)) s).
Proof. intros E. apply io_step. unfold onIndex. by rewrite E. Qed.

Lemma node_step {B} l nd (k : blockNode → M B) s : ColdRead.heap_ (Threshold.bc (chain_ s)) !! l = Some nd → (node l ≫= k) s = k nd s.
Proof. intros E. apply io_step. unfold node. rewrite (io_step _ _ _ _ _ (eq_refl : index s = _)). unfold io_run, deref. by rewrite E. Qed.

(** What the rules ask of a header on top of the block [hs] of height [g] *)
Definition header_follows (p : Params) (T : ColdRead.tree) (hs : list byte) (g : Z) (header : Wire.BlockHeader) : Prop :=
  Difficulty.calcNextRequiredDifficultyCtx (C := Difficulty.tree_ctx T) (difficulty p) (Some hs) = Done (Wire.Bits header) ∧
  (∃ median, BlockNode.CalcPastMedianTime (C := Difficulty.tree_ctx T) hs = Done median ∧ median < Wire.Timestamp header) ∧
  versionTooOld (base p) (Wire.Version header) (g + 1) = false.

(** C9 (functional).  Whatever part of the chain is in memory,
    [CheckBlockHeaderContext] returns, and accepts a header exactly when its
    difficulty bits are the ones the rule gives on the whole block tree, its time is
    after the median time of the eleven blocks before it, and its version is recent
    enough; the state stays consistent.  (No checkpoints, as on the Sugarchain
    networks.) *)
Theorem header_context_spec (p : Params) (T : ColdRead.tree) (s : state) (header : Wire.BlockHeader) (l : loc) (nd : blockNode) :
  ColdRead.chain_ok T (Threshold.bc (chain_ s)) → ColdRead.heap_ (Threshold.bc (chain_ s)) !! l = Some nd →
  0 ≤ height nd < 2 ^ 31 - 1 → Difficulty.PoWNoRetargeting (difficulty p) = false → EnforceBIP94 p = false → checkpoints (base p) = [] →
  ∃ r s', CheckBlockHeaderContext p header l 0 false s = Done (r, s') ∧
    (r = inl tt ↔ header_follows p T (hash nd) (height nd) header) ∧
    ColdRead.chain_ok T (Threshold.bc (chain_ s')) ∧ ColdRead.grows (Threshold.bc (chain_ s)) (Threshold.bc (chain_ s')).
Proof.
  intros Hok Hl Hh Hr Hw Hc. unfold CheckBlockHeaderContext. rewrite (node_step l nd _ s Hl). rewrite swrap_small by zlia.
  destruct (Difficulty.difficulty_run (difficulty p) T _ l nd Hok Hl) as (want & b' & Ed & Et & Hok' & Hg & Hs). specialize (Hs Hr).
  destruct (Difficulty.mtp_sim T _ 521 l (hash nd) Hs ltac:(lia)) as (median & Em & Emt).
  set (s' := with_chain (Threshold.set_bc b' (chain_ s)) s).
  change (hasFlag 0 BFFastAdd) with false. cbn [negb].
  unfold mbind at 1, io_bind at 1. rewrite (onIndex_step _ _ s want b' Ed). fold s'.
  assert (header_follows p T (hash nd) (height nd) header ↔ Wire.Bits header = want ∧ median < Wire.Timestamp header ∧
    versionTooOld (base p) (Wire.Version header) (height nd + 1) = false) as Hiff.
  { unfold header_follows. rewrite Et, Emt. split.
    - by intros ([= ->] & (m & [= ->] & Hm) & Hv).
    - intros (-> & Hm & Hv). split; [done|]. split; [by exists median|done]. }
  destruct (Z.eqb_spec (Wire.Bits header) want) as [Eb|Eb]; cbn [negb].
  2: { eexists _, s'. split; [reflexivity|]. split; [rewrite Hiff|done]. split; [done|]. by intros [? _]. }
  assert (pastMedianTime l s' = Done (inl median, s')) as Epm.
  { unfold pastMedianTime. rewrite (io_step _ _ _ _ _ (eq_refl : index s' = _)). unfold io_run. cbn [chain_ with_chain Threshold.set_bc Threshold.bc s'].
    by rewrite Em. }
  rewrite (io_step _ _ _ _ _ Epm). destruct (Z.ltb_spec median (Wire.Timestamp header)); cbn [negb].
  2: { eexists _, s'. split; [reflexivity|]. split; [rewrite Hiff|done]. split; [done|]. intros (_ & ? & _). lia. }
  rewrite Hw. cbn [mret io_ret]. destruct (versionTooOld _ _ _) eqn:Ev.
  { eexists _, s'. split; [reflexivity|]. split; [rewrite Hiff|done]. split; [done|]. by intros (_ & _ & ?). }
  rewrite (io_run_Done _ _ _ _ (BlockNode.BlockHash_total header)). unfold verifyCheckpoint, findPreviousCheckpoint, HasCheckpoints.
  rewrite Hc. cbn. eexists _, s'. split; [reflexivity|]. split; [rewrite Hiff|done]. done.
Qed.

(** ** Concrete runs *)

Section runs.
Import BlockNode (toyHash, toyLoc).

Definition mainParams (cps : list Checkpoint) : Params :=
  {| base := {| Connect.thresholds := Threshold.SugarMainNetParams; Connect.GenesisHash := toyHash 0; BIP0034Height := 17;
                Connect.BIP0034Hash := None; BIP0065Height := 0; BIP0066Height := 0; Connect.CoinbaseMaturity := 100;
                Connect.SubsidyReductionInterval := 12500000; checkpoints := cps |};
     difficulty := Difficulty.SugarMainNetParams; EnforceBIP94 := false |}.

(** Eight blocks of which the last four are in memory, right after the start *)
Definition started : state :=
  {| chain_ := {| Threshold.bc := ColdRead.toyChain 8 4; Threshold.deploymentCaches := replicate 6 ∅;
                  Threshold.warningCaches := replicate 29 ∅; Threshold.unknownRulesWarned := false |};
     checkpointNode := None; nextCheckpoint := None |}.

Definition nextHeader (prev : Z) : Wire.BlockHeader :=
  {| Wire.Version := 4; Wire.PrevBlock := toyHash prev; Wire.MerkleRoot := toyHash 0; Wire.Timestamp := 1565881300;
     Wire.Bits := 0x1f3fffff; Wire.Nonce := 0 |}.

Lemma header_context_spec_witness : ∃ s', CheckBlockHeaderContext (mainParams []) (nextHeader 7) (toyLoc 7) 0 false started = Done (inl tt, s') ∧
  header_follows (mainParams []) (ColdRead.toyTree 8) (toyHash 7) 7 (nextHeader 7).
Proof.
  destruct (header_context_spec (mainParams []) (ColdRead.toyTree 8) started (nextHeader 7) (toyLoc 7) (ColdRead.toyWindowNode 8 4 7))
    as (r & s' & E & Hr & _).
  - exact ColdRead.toyChain_ok.
  - vm_compute. reflexivity.
  - split; vm_compute; congruence.
  - reflexivity.
  - reflexivity.
  - reflexivity.
  - assert (match CheckBlockHeaderContext (mainParams []) (nextHeader 7) (toyLoc 7) 0 false started with
            | Done (inl _, _) => true | _ => false end = true) as Ec by (vm_compute; reflexivity).
    rewrite E in Ec. destruct r as [[]|]; [|discriminate Ec]. exists s'. split; [exact E|]. apply Hr. reflexivity.
Defined.

(** The height of the checkpoint that a number of calls return *)
Fixpoint checkpointCalls (p : Params) (n : nat) (s : state) : run (list (option Z)) :=
  match n with
  | O => Done []
  | S n =>
      r ← findPreviousCheckpoint p s;
      match r.1 with
      | inr _ => Panic
      | inl cp =>
          h ← match cp with
              | Some l => nd ← deref (ColdRead.heap_ (Threshold.bc (chain_ r.2))) l; Done (Some (height nd))
              | None => Done None
              end;
          hs ← checkpointCalls p n r.2;
          Done (h :: hs)
      end
  end.

(** After a start with a header window the checkpoints below the window are
    forgotten: the chain has passed three of them, but the first call finds none,
    and each further call only the next one, so headers that fork below the last
    checkpoint are let through until the calls have caught up. *)
Theorem checkpoints_forgotten :
  checkpointCalls (mainParams [(1, toyHash 1); (2, toyHash 2); (3, toyHash 3)]) 4 started = Done [None; Some 1; Some 2; Some 3] ∧
  checkpointCalls (mainParams [(1, toyHash 1); (2, toyHash 2); (5, toyHash 5)]) 1 started = Done [Some 5].
Proof. split; vm_compute; reflexivity. Qed.

End runs.

End Context.
