(* ===== verification/MedianTime.v ===== *)
(** * MedianTime: the clock adjusted by the peers

    Model of [blockchain/mediantime.go].  Times are Unix seconds, as version messages
    carry them; the local clock is an argument.  [Time.Sub] saturates at 2^63
    nanoseconds, whole seconds convert to [float64] and back without loss in that
    range, and on integers the comparison of the absolute value as a [float64] is
    that of the integers. *)

From stdpp Require Import sorting.
From S2P Require Import Prelude Compress Wire BlockNode.

Module MedianTime.

Definition maxAllowedOffsetSecs : Z := 70 * 60.
Definition similarTimeSecs : Z := 5 * 60.
Definition maxMedianTimeEntries : Z := 200.

Record medianTime := {
  knownIDs : gset (list byte);
  offsets : list Z;
  offsetSecs : Z;
  invalidTimeChecked : bool;
}.

Definition NewMedianTime : medianTime := {| knownIDs := ∅; offsets := []; offsetSecs := 0; invalidTimeChecked := false |}.

Definition AdjustedTime (now : Z) (m : medianTime) : Z := now + offsetSecs m.

Definition maxDurationSecs : Z := 9223372036.

(** [int64(timeVal.Sub(now).Seconds())] *)
Definition sampleOffset (timeVal now : Z) : Z := Z.max (- maxDurationSecs) (Z.min maxDurationSecs (timeVal - now)).

(** The warning that is printed when no sample is close is left out. *)
Definition AddTimeSample (sourceID : list byte) (timeVal now : Z) (m : medianTime) : run medianTime :=
  if bool_decide (sourceID ∈ knownIDs m) then Done m else
  let known := {[sourceID]} ∪ knownIDs m in
  kept ← (if zlen (offsets m) =? maxMedianTimeEntries then slice (offsets m) 1 (zlen (offsets m)) else Done (offsets m));
  let offs := kept ++ [sampleOffset timeVal now] in
  let numOffsets := zlen offs in
  let sortedOffsets := merge_sort Z.le offs in
  if (numOffsets <? 5) || negb (Z.land numOffsets 0x01 =? 1)
  then Done {| knownIDs := known; offsets := offs; offsetSecs := offsetSecs m; invalidTimeChecked := invalidTimeChecked m |}
  else
    median ← index sortedOffsets (numOffsets `quot` 2);
    Done (if Z.abs median <? maxAllowedOffsetSecs
          then {| knownIDs := known; offsets := offs; offsetSecs := median; invalidTimeChecked := invalidTimeChecked m |}
          else {| knownIDs := known; offsets := offs; offsetSecs := 0; invalidTimeChecked := true |}).

(** ** The offset *)

Definition clock_ok (m : medianTime) : Prop := Z.abs (offsetSecs m) < maxAllowedOffsetSecs ∧ zlen (offsets m) ≤ maxMedianTimeEntries.

(** Half of the samples at most are below [x], and half at most are above. *)
Definition is_median (x : Z) (l : list Z) : Prop :=
  x ∈ l ∧ 2 * zlen (filter (fun y => y < x) l) ≤ zlen l ∧ 2 * zlen (filter (fun y => x < y) l) ≤ zlen l.

Lemma middle_median (l : list Z) : 0 < zlen l → Z.land (zlen l) 1 = 1 →
  ∃ x, index (merge_sort Z.le l) (zlen l `quot` 2) = Done x ∧ is_median x l.
Proof.
  intros Hl Ho. assert (zlen l mod 2 = 1) as Hm by (rewrite <-Ho; change 1 with (Z.ones 1); by rewrite Z.land_ones by lia).
  pose proof (Z.div_mod (zlen l) 2 ltac:(lia)) as Ed. rewrite Z.quot_div_nonneg by lia.
  set (k := zlen l / 2) in *. assert (0 ≤ k) by (apply Z.div_pos; lia).
  pose proof (merge_sort_Permutation Z.le l) as HP.
  destruct (lookup_lt_is_Some_2 (merge_sort Z.le l) (Z.to_nat k)) as [x Hx]; [rewrite HP; unfold zlen in *; lia|].
  exists x. unfold index. rewrite decide_True by lia. rewrite Hx. split; [done|].
  destruct (BlockNode.sorted_median (merge_sort Z.le l) (Z.to_nat k) x) as [H1 H2]; [|done|].
  { apply Sorted_StronglySorted; [intros a b c ? ?; lia|]. apply Sorted_merge_sort. intros a b; lia. }
  rewrite HP in H1, H2. split; [rewrite <-HP; by eapply list_elem_of_lookup_2|]. unfold zlen in *. lia.
Qed.

(** A sample never panics and keeps the offset within 70 minutes and
    the samples within 200; a second sample of the same source is ignored; with an
    odd number of at least five samples the offset is their median, or zero when
    that is too large; once there are 200 samples the offset never changes
    again. *)
Theorem clock_sample_spec (id : list byte) (timeVal now : Z) (m : medianTime) :
  clock_ok m → ∃ m', AddTimeSample id timeVal now m = Done m' ∧ clock_ok m' ∧ id ∈ knownIDs m' ∧
    (id ∈ knownIDs m → m' = m) ∧
    (zlen (offsets m) = maxMedianTimeEntries → offsetSecs m' = offsetSecs m ∧ zlen (offsets m') = maxMedianTimeEntries) ∧
    (id ∉ knownIDs m → 5 ≤ zlen (offsets m') → Z.land (zlen (offsets m')) 1 = 1 →
      ∃ x, is_median x (offsets m') ∧ offsetSecs m' = if Z.abs x <? maxAllowedOffsetSecs then x else 0).
Proof.
  intros [Ho Hl]. unfold AddTimeSample. destruct (bool_decide_reflect (id ∈ knownIDs m)) as [Hk|Hk].
  { exists m. split_and!; done. }
  assert (∃ kept, (if zlen (offsets m) =? maxMedianTimeEntries then slice (offsets m) 1 (zlen (offsets m)) else Done (offsets m)) = Done kept ∧
    zlen kept ≤ 199 ∧ (zlen (offsets m) = maxMedianTimeEntries → zlen kept = 199)) as (kept & -> & Hkl & Hk2).
  { unfold maxMedianTimeEntries in *. destruct (Z.eqb_spec (zlen (offsets m)) 200) as [E|E].
    - destruct (offsets m) as [|x l]; [done|]. rewrite zlen_cons in *. exists l. rewrite Compress.slice_tail1 by done. split; [done|lia].
    - exists (offsets m). split; [done|]. pose proof (zlen_nonneg (offsets m)). lia. }
  cbn [mbind run_bind]. set (offs := kept ++ [sampleOffset timeVal now]).
  assert (zlen offs = zlen kept + 1) as El by (unfold offs; by rewrite zlen_app).
  assert (id ∈ {[id]} ∪ knownIDs m) as Hin by (apply elem_of_union_l; by apply elem_of_singleton).
  pose proof (zlen_nonneg kept). unfold clock_ok, maxMedianTimeEntries in *.
  destruct ((_ <? 5) || _) eqn:Eb; rewrite ?orb_true_iff, ?orb_false_iff, ?negb_true_iff, ?negb_false_iff, ?Z.ltb_lt, ?Z.ltb_ge, ?Z.eqb_eq, ?Z.eqb_neq in Eb.
  - eexists. split; [reflexivity|]. cbn [knownIDs offsets offsetSecs]. split_and!; try done; try lia.
  - destruct Eb as [H5 H1]. destruct (middle_median offs) as (x & -> & Hx); [lia|done|]. cbn [mbind run_bind].
    assert (zlen (offsets m) ≠ 200) as H200.
    { intros E. rewrite El, (Hk2 E) in H1. done. }
    eexists. split; [reflexivity|]. destruct (Z.ltb_spec (Z.abs x) maxAllowedOffsetSecs) as [Ha|Ha]; cbn [knownIDs offsets offsetSecs].
    + split_and!; try done; try lia. intros _ _ _. exists x. split; [done|]. by destruct (Z.ltb_spec (Z.abs x) maxAllowedOffsetSecs); [|lia].
    + split_and!; try done; try lia. intros _ _ _. exists x. split; [done|]. by destruct (Z.ltb_spec (Z.abs x) maxAllowedOffsetSecs); [lia|].
Qed.

Lemma clock_sample_spec_witness : ∃ m', AddTimeSample [z2b 1] 130 100 NewMedianTime = Done m' ∧ clock_ok m'.
Proof.
  destruct (clock_sample_spec [z2b 1] 130 100 NewMedianTime) as (m' & E & Hm & _); [split; [reflexivity|discriminate]|].
  exists m'. split; [exact E|exact Hm].
Defined.

End MedianTime.
