(* ===== verification/WriteQueue.v ===== *)
(** * WriteQueue: the asynchronous writer of the chain state

    Model of [blockchain/writequeue.go] with the best-tip snapshot and the consistency
    marker of [blockchain/chainio.go].  First the transaction that merges a batch of
    items into the database, as a function on the rows.  Then the three goroutines
    that share the queue as a step relation: the writer, the holder of the chain
    lock (who enqueues and asks for barriers) and the one that stops the queue.
    A step is one channel operation, one locked region or one database transaction,
    and where Go's [select] may choose, several steps are enabled.  Whether a commit
    succeeds is the database's choice.  Optional indexes are an interface value of
    the code, here an argument that maps the index rows. *)

From S2P Require Import Prelude WorkMath Compress ChainHash Wire BlockNode ChainView ChainIO ColdRead BlockIndex.
From S2P Require Import Script UtxoSet UtxoCache UtxoView.

Module WriteQueue.
Import BlockNode (hash_t).
Import ChainIO (bucket, database, meta, blockIndexBucket, set_meta, set_blockIndex).

Definition writeQueueCap : Z := 64.
Definition writeQueueBatchSize : Z := 32.

(** ** The rows *)

(** The buckets a batch touches; the watermark bucket is created on first use. *)
Record disk := {
  chainRows : database;
  spendJournal : bucket;
  utxoRows : bucket;
  indexRows : bucket;
  writewatermark : option bucket;
}.

Definition set_chainRows (r : database) (d : disk) : disk :=
  {| chainRows := r; spendJournal := spendJournal d; utxoRows := utxoRows d; indexRows := indexRows d;
     writewatermark := writewatermark d |}.
Definition set_spendJournal (b : bucket) (d : disk) : disk :=
  {| chainRows := chainRows d; spendJournal := b; utxoRows := utxoRows d; indexRows := indexRows d;
     writewatermark := writewatermark d |}.
Definition set_utxoRows (b : bucket) (d : disk) : disk :=
  {| chainRows := chainRows d; spendJournal := spendJournal d; utxoRows := b; indexRows := indexRows d;
     writewatermark := writewatermark d |}.
Definition set_indexRows (b : bucket) (d : disk) : disk :=
  {| chainRows := chainRows d; spendJournal := spendJournal d; utxoRows := utxoRows d; indexRows := b;
     writewatermark := writewatermark d |}.
Definition set_writewatermark (b : bucket) (d : disk) : disk :=
  {| chainRows := chainRows d; spendJournal := spendJournal d; utxoRows := utxoRows d; indexRows := indexRows d;
     writewatermark := Some b |}.

Definition emptyDisk : disk :=
  {| chainRows := ChainIO.emptyDB; spendJournal := ∅; utxoRows := ∅; indexRows := ∅; writewatermark := None |}.

Record BestState := {
  Hash : hash_t;
  Height : Z;
  Bits : Z;
  BlockSize : Z;
  BlockWeight : Z;
  NumTxns : Z;
  TotalTxns : Z;
  MedianTime : Z;
}.

Record writeItem := {
  height : Z;
  block : option UtxoView.Block;
  nodeRows : list BlockIndex.nodeRowSnapshot;
  bestTipHash : hash_t;
  tipHeight : Z;
  tipWork : Z;
  bestState : option BestState;
  blockHash : hash_t;
  stxos : list UtxoSet.SpentTxOut;
  bestHeaderHash : hash_t;
  bestHeaderHeight : Z;
  deltas : list UtxoCache.utxoDelta;
}.

(** ** The watermark, the marker and the best-tip snapshot *)

Definition heightKey : list byte := gostring "height".

Definition dbPutWriteWatermark (d : disk) (hgt : Z) : disk :=
  set_writewatermark (<[heightKey := le_bytes 4 (u32 hgt)]> (default ∅ (writewatermark d))) d.

Definition loadWriteWatermark (d : disk) : run Z :=
  match writewatermark d with
  | None => Done (-1)
  | Some b =>
      match b !! heightKey with
      | None => Done (-1)
      | Some v => n ← ChainIO.getUint32 v; Done (i32 n)
      end
  end.

Definition utxoStateConsistencyKeyName : list byte := gostring "utxostateconsistency".

Definition dbPutUtxoStateConsistency (d : database) (hs : hash_t) : database :=
  set_meta (<[utxoStateConsistencyKeyName := hs]> (meta d)) d.

Definition dbFetchUtxoStateConsistency (d : database) : option (list byte) := meta d !! utxoStateConsistencyKeyName.

Definition bestTipSnapshotKey : list byte := z2b 0 :: gostring "best_tip_snapshot".

Definition dbFetchBestTipSnapshot (d : database) : run (option (hash_t * Z * Z)) :=
  match blockIndexBucket d !! bestTipSnapshotKey with
  | None => Done None
  | Some raw =>
      if negb (zlen raw =? 32 + 4 + 32) then Done None else
      hs ← slice raw 0 32;
      hgt ← slice raw 32 36; hgt ← ChainIO.getUint32 hgt;
      work ← slice raw 36 68;
      Done (Some (ChainIO.toHash hs, i32 hgt, be_val work))
  end.

Definition dbPutBestTipSnapshot (d : database) (hs : hash_t) (hgt work : Z) : run database :=
  let raw := replicate 68 (z2b 0) in
  let raw := gocopy (take 32 raw) hs ++ drop 32 raw in
  let raw := take 32 raw ++ gocopy (drop 32 raw) (le_bytes 4 (u32 hgt)) in
  let wb := ChainIO.bigBytes work in
  let off := 36 + 32 - zlen wb in
  tail ← slice raw off (zlen raw);
  let raw := take (Z.to_nat off) raw ++ gocopy tail wb in
  Done (set_blockIndex (<[bestTipSnapshotKey := raw]> (blockIndexBucket d)) d).

(** [dbPutBestState] reads the snapshot through a pointer. *)
Definition putBestState (d : database) (state : option BestState) (work : Z) : run database :=
  match state with
  | None => Panic
  | Some st => Done (ChainIO.dbPutBestState d (Hash st) (Height st) (TotalTxns st) work)
  end.

(** ** One batch *)

Inductive writeError := StoreError (e : UtxoSet.storeError) | IndexError.

(** [IndexManager.ConnectBlock] on the rows of the optional indexes *)
Abbreviation IndexManager := (UtxoView.Block → list UtxoSet.SpentTxOut → bucket → run (bucket + unit)).

Section batch.
Context `{!Compress.SecKeys}.

Context (indexManager : option IndexManager).

(** Steps 1 to 5 of [writeItemRows]: node rows, best header, tip snapshot, best state
    and main chain index *)
Definition writeChainRows (r : database) (item : writeItem) : run database :=
  r ← BlockIndex.writeNodeRows r (nodeRows item);
  let r := if 0 <=? bestHeaderHeight item
           then ChainIO.dbPutBestHeaderState r (bestHeaderHash item) (bestHeaderHeight item) else r in
  r ← dbPutBestTipSnapshot r (bestTipHash item) (tipHeight item) (tipWork item);
  r ← putBestState r (bestState item) (tipWork item);
  Done (ChainIO.dbPutBlockIndex r (blockHash item) (height item)).

Definition writeItemRows (d : disk) (item : writeItem) : run (disk + writeError) :=
  r ← writeChainRows (chainRows d) item;
  j ← UtxoSet.dbPutSpendJournalEntry (spendJournal d) (blockHash item) (stxos item);
  let d := set_spendJournal j (set_chainRows r d) in
  match indexManager, block item with
  | Some connect, Some b =>
      x ← connect b (stxos item) (indexRows d);
      match x with
      | inl ix => Done (inl (set_indexRows ix d))
      | inr _ => Done (inr IndexError)
      end
  | _, _ => Done (inl d)
  end.

Definition writeItemDeltas (d : disk) (item : writeItem) : run (disk + writeError) :=
  r ← UtxoCache.writeItemDeltas (utxoRows d) (deltas item);
  match r with
  | inl b => Done (inl (set_utxoRows b d))
  | inr e => Done (inr (StoreError e))
  end.

Fixpoint mergeItems (d : disk) (items : list writeItem) : run (disk + writeError) :=
  match items with
  | [] => Done (inl d)
  | item :: items =>
      r ← writeItemRows d item;
      match r with
      | inr e => Done (inr e)
      | inl d =>
          r ← writeItemDeltas d item;
          match r with
          | inr e => Done (inr e)
          | inl d => mergeItems d items
          end
      end
  end.

(** The transaction of a batch that ends with [item] *)
Definition mergeBatch (d : disk) (items : list writeItem) (item : writeItem) : run (disk + writeError) :=
  r ← mergeItems d items;
  match r with
  | inr e => Done (inr e)
  | inl d =>
      let d := match bestState item with
               | Some lastBest => set_chainRows (dbPutUtxoStateConsistency (chainRows d) (Hash lastBest)) d
               | None => d
               end in
      Done (inl (dbPutWriteWatermark d (height item)))
  end.

(** [db.Update]: the writes of the body become visible together when the body
    returns no error and the commit succeeds, and not at all otherwise. *)
Definition Update (commits : bool) (d : disk) (r : disk + writeError) : disk * bool :=
  match r with
  | inl d' => if commits then (d', true) else (d, false)
  | inr _ => (d, false)
  end.

(** The flag says whether the batch was written; the code only logs it. *)
Definition flushBatch (commits : bool) (d : disk) (items : list writeItem) : run (disk * bool) :=
  match last items with
  | None => Done (d, true)
  | Some item => r ← mergeBatch d items item; Done (Update commits d r)
  end.

End batch.

(** ** The goroutines *)

(** [writer]: in the select, or inside one of its flushes *)
Inductive writerPc :=
  | WSelect (batch : list writeItem)
  | WFlush (batch : list writeItem)
  | WSyncKeep (maxHeight : Z) (keep : list writeItem)
  | WSyncDrain (maxHeight : Z) (tail : list writeItem)
  | WSyncTail (tail : list writeItem)
  | WAck
  | WStop (batch : list writeItem)
  | WExited.

(** The holder of the chain lock: idle, past the check of [enqueue], or at the
    first or the second select of [syncNowBelow] *)
Inductive holderPc := CIdle | CEnqueue (item : writeItem) | CSync (maxHeight : Z) | CWait.

(** The first caller of [stop] *)
Inductive stopperPc :=
  | SIdle | SFlagged | SDrain (tail : list writeItem) | SFlush (tail : list writeItem) | SWait | SDone.

(** The queue with its database.  The last three fields are history: the items whose
    send succeeded, the items a barrier dropped, and the flushed batches with
    whether they were written. *)
Record queue := {
  items : list writeItem;
  stopped : bool;
  stopCh : bool;
  done : bool;
  writer : writerPc;
  holder : holderPc;
  stopper : stopperPc;
  db : disk;
  accepted : list writeItem;
  dropped : list writeItem;
  log : list (list writeItem * bool);
}.

Definition newWriteQueue (d : disk) : queue :=
  {| items := []; stopped := false; stopCh := false; done := false; writer := WSelect []; holder := CIdle;
     stopper := SIdle; db := d; accepted := []; dropped := []; log := [] |}.

Definition set_items (l : list writeItem) (q : queue) : queue :=
  {| items := l; stopped := stopped q; stopCh := stopCh q; done := done q; writer := writer q; holder := holder q;
     stopper := stopper q; db := db q; accepted := accepted q; dropped := dropped q; log := log q |}.
Definition set_writer (w : writerPc) (q : queue) : queue :=
  {| items := items q; stopped := stopped q; stopCh := stopCh q; done := done q; writer := w; holder := holder q;
     stopper := stopper q; db := db q; accepted := accepted q; dropped := dropped q; log := log q |}.
Definition set_holder (c : holderPc) (q : queue) : queue :=
  {| items := items q; stopped := stopped q; stopCh := stopCh q; done := done q; writer := writer q; holder := c;
     stopper := stopper q; db := db q; accepted := accepted q; dropped := dropped q; log := log q |}.
Definition set_done (b : bool) (q : queue) : queue :=
  {| items := items q; stopped := stopped q; stopCh := stopCh q; done := b; writer := writer q; holder := holder q;
     stopper := stopper q; db := db q; accepted := accepted q; dropped := dropped q; log := log q |}.
Definition set_stop (flag ch : bool) (s : stopperPc) (q : queue) : queue :=
  {| items := items q; stopped := flag; stopCh := ch; done := done q; writer := writer q; holder := holder q;
     stopper := s; db := db q; accepted := accepted q; dropped := dropped q; log := log q |}.
Definition set_stopper (s : stopperPc) (q : queue) : queue := set_stop (stopped q) (stopCh q) s q.
Definition accept (item : writeItem) (q : queue) : queue :=
  {| items := items q ++ [item]; stopped := stopped q; stopCh := stopCh q; done := done q; writer := writer q;
     holder := CIdle; stopper := stopper q; db := db q; accepted := accepted q ++ [item]; dropped := dropped q;
     log := log q |}.
Definition drop_items (l : list writeItem) (q : queue) : queue :=
  {| items := items q; stopped := stopped q; stopCh := stopCh q; done := done q; writer := writer q; holder := holder q;
     stopper := stopper q; db := db q; accepted := accepted q; dropped := dropped q ++ l; log := log q |}.
Definition flushed (l : list writeItem) (r : disk * bool) (q : queue) : queue :=
  {| items := items q; stopped := stopped q; stopCh := stopCh q; done := done q; writer := writer q; holder := holder q;
     stopper := stopper q; db := r.1; accepted := accepted q; dropped := dropped q; log := log q ++ [(l, r.2)] |}.

(** [req.maxHeight < 0 || it.height <= req.maxHeight] *)
Definition kept (maxHeight : Z) (it : writeItem) : bool := (maxHeight <? 0) || (height it <=? maxHeight).

Section machine.
Context `{!Compress.SecKeys} (indexManager : option IndexManager).

Inductive step : queue → queue → Prop :=
  (* enqueue *)
  | step_enqueue q item : holder q = CIdle → stopped q = false → step q (set_holder (CEnqueue item) q)
  | step_refuse q : holder q = CIdle → stopped q = true → step q q
  | step_send q item : holder q = CEnqueue item → zlen (items q) < writeQueueCap → step q (accept item q)
  | step_send_stopped q item : holder q = CEnqueue item → stopCh q = true → step q (set_holder CIdle q)
  (* syncNowBelow *)
  | step_sync q maxHeight : holder q = CIdle → step q (set_holder (CSync maxHeight) q)
  | step_sync_stopped q maxHeight : holder q = CSync maxHeight → stopCh q = true → step q (set_holder CIdle q)
  | step_request q maxHeight batch : holder q = CSync maxHeight → writer q = WSelect batch →
      step q (drop_items (filter (fun it => negb (kept maxHeight it)) batch)
               (set_done false (set_holder CWait (set_writer (WSyncKeep maxHeight (filter (kept maxHeight) batch)) q))))
  | step_acked q : holder q = CWait → done q = true → step q (set_holder CIdle q)
  | step_wait_stopped q : holder q = CWait → stopCh q = true → step q (set_holder CIdle q)
  (* writer *)
  | step_receive q batch item rest : writer q = WSelect batch → items q = item :: rest →
      let batch := batch ++ [item] in
      step q (set_writer (if writeQueueBatchSize <=? zlen batch then WFlush batch else WSelect batch) (set_items rest q))
  | step_flush q batch commits r : writer q = WFlush batch → flushBatch indexManager commits (db q) batch = Done r →
      step q (flushed batch r (set_writer (WSelect []) q))
  | step_keep q maxHeight keep commits r : writer q = WSyncKeep maxHeight keep →
      flushBatch indexManager commits (db q) keep = Done r →
      step q (flushed keep r (set_writer (WSyncDrain maxHeight []) q))
  | step_drain q maxHeight tail item rest : writer q = WSyncDrain maxHeight tail → items q = item :: rest →
      step q (if kept maxHeight item then set_writer (WSyncDrain maxHeight (tail ++ [item])) (set_items rest q)
              else drop_items [item] (set_items rest q))
  | step_drained q maxHeight tail : writer q = WSyncDrain maxHeight tail → items q = [] →
      step q (set_writer (WSyncTail tail) q)
  | step_tail q tail commits r : writer q = WSyncTail tail → flushBatch indexManager commits (db q) tail = Done r →
      step q (flushed tail r (set_writer WAck q))
  | step_ack q : writer q = WAck → step q (set_done true (set_writer (WSelect []) q))
  | step_see_stop q batch : writer q = WSelect batch → stopCh q = true → step q (set_writer (WStop batch) q)
  | step_exit q batch commits r : writer q = WStop batch → flushBatch indexManager commits (db q) batch = Done r →
      step q (flushed batch r (set_writer WExited q))
  (* stop *)
  | step_stop q : stopper q = SIdle → step q (set_stop true (stopCh q) SFlagged q)
  | step_close q : stopper q = SFlagged → step q (set_stop (stopped q) true (SDrain []) q)
  | step_take q tail item rest : stopper q = SDrain tail → items q = item :: rest →
      step q (set_stopper (SDrain (tail ++ [item])) (set_items rest q))
  | step_taken q tail : stopper q = SDrain tail → items q = [] → step q (set_stopper (SFlush tail) q)
  | step_stop_flush q tail commits r : stopper q = SFlush tail → flushBatch indexManager commits (db q) tail = Done r →
      step q (flushed tail r (set_stopper SWait q))
  | step_stop_done q : stopper q = SWait → writer q = WExited → step q (set_stopper SDone q).

Definition reachable (d : disk) (q : queue) : Prop := rtc step (newWriteQueue d) q.

End machine.

(** ** Where the items are *)

#[export] Instance stopperPc_idle_dec s : Decision (s = SIdle).
Proof. destruct s; (left; reflexivity) || (right; discriminate). Defined.

(** What the writer and the stopper hold *)
Definition inflight (w : writerPc) : list writeItem :=
  match w with
  | WSelect b | WFlush b | WSyncKeep _ b | WSyncDrain _ b | WSyncTail b | WStop b => b
  | WAck | WExited => []
  end.
Definition stopTail (s : stopperPc) : list writeItem :=
  match s with SDrain t | SFlush t => t | _ => [] end.

(** Accepted and not yet flushed or dropped *)
Definition pending (q : queue) : list writeItem := inflight (writer q) ++ items q.

Definition flushes (q : queue) : list writeItem := concat (log q).*1.

Definition syncing (w : writerPc) : bool :=
  match w with WSyncKeep _ _ | WSyncDrain _ _ | WSyncTail _ | WAck => true | _ => false end.

Definition exiting (w : writerPc) : bool := match w with WStop _ | WExited => true | _ => false end.

Definition stopping (s : stopperPc) : bool := match s with SIdle | SFlagged => false | _ => true end.
Definition enqueueing (c : holderPc) : Z := match c with CEnqueue _ => 1 | _ => 0 end.

(** Room of the writer in each of its states *)
Definition room (w : writerPc) (n : Z) (stop : bool) : Prop :=
  match w with
  | WSelect b | WSyncKeep _ b | WStop b => zlen b < writeQueueBatchSize
  | WFlush b => zlen b = writeQueueBatchSize
  | WSyncDrain _ t | WSyncTail t => stop = false → zlen t + n ≤ writeQueueCap
  | WAck | WExited => True
  end.

Record queue_inv (q : queue) : Prop := {
  inv_stopped : stopped q = negb (bool_decide (stopper q = SIdle));
  inv_stopCh : stopCh q = stopping (stopper q);
  inv_conserve : accepted q ≡ₚ flushes q ++ dropped q ++ pending q ++ stopTail (stopper q);
  inv_fifo : stopCh q = false → flushes q ++ pending q `sublist_of` accepted q;
  inv_cap : zlen (items q) ≤ writeQueueCap;
  inv_room : room (writer q) (zlen (items q)) (stopCh q);
  inv_sync : syncing (writer q) = true → stopCh q = false → holder q = CWait ∧ done q = false;
  inv_wait : holder q = CWait → done q = false → syncing (writer q) = true;
  inv_drained : holder q = CWait → (done q = true ∨ writer q = WAck ∨ ∃ t, writer q = WSyncTail t) → items q = [];
  inv_acked : holder q = CWait → done q = true → inflight (writer q) = [] ∧ syncing (writer q) = false;
  inv_late : match stopper q with SFlush _ | SWait | SDone => zlen (items q) + enqueueing (holder q) ≤ 1 | _ => True end;
  inv_exit : exiting (writer q) = true → stopCh q = true;
  inv_done : stopper q = SDone → writer q = WExited;
}.
Section invariant.
Context `{!Compress.SecKeys} (indexManager : option IndexManager).

Lemma flushes_snoc b (r : disk * bool) q : concat (log q ++ [(b, r.2)]).*1 = flushes q ++ b.
Proof. unfold flushes. rewrite fmap_app, concat_app. cbn. by rewrite app_nil_r. Qed.

Lemma filter_split {A} (f : A → bool) (l : list A) : l ≡ₚ filter f l ++ filter (fun x => negb (f x)) l.
Proof.
  induction l as [|x l IH]; [done|]. rewrite !filter_cons.
  destruct (f x); cbn [negb Is_true]; repeat case_decide; try done; cbn [app].
  - by rewrite <-IH.
  - rewrite <-Permutation_middle. by rewrite <-IH.
Qed.

Lemma queue_inv_init d : queue_inv (newWriteQueue d).
Proof. split; cbn; try done; unfold writeQueueCap, writeQueueBatchSize; try lia. Qed.

Ltac qstep := repeat match goal with x := _ |- _ => subst x end; unfold pending, set_stopper in *; cbn in *; rewrite ?flushes_snoc in *; simplify_eq/=;
  repeat match goal with H : ?f ?q = _ |- _ => is_var q; rewrite H in *; clear H end; cbn in *; rewrite ?bool_decide_eq_true_2, ?bool_decide_eq_false_2 by done;
  rewrite ?app_nil_r in *.

Lemma step_conserve q q' : step indexManager q q' → queue_inv q → 
  accepted q' ≡ₚ flushes q' ++ dropped q' ++ pending q' ++ stopTail (stopper q').
Proof.
  intros Hs [_ _ I _ _ _ _ _ _ _ _ _ _]. unfold flushes in *. destruct Hs; repeat case_match; qstep; try done; try (unfold flushes in *; rewrite I; solve_Permutation).
  all: try solve [unfold flushes in *; rewrite (filter_split (kept maxHeight) batch) in I; rewrite I; solve_Permutation].
Qed.

Lemma filter_sublist {A} (P : A → Prop) `{∀ x, Decision (P x)} (l : list A) : filter P l `sublist_of` l.
Proof. apply sublist_filter. Qed.

Lemma step_fifo q q' : step indexManager q q' → queue_inv q →
  stopCh q' = false → flushes q' ++ pending q' `sublist_of` accepted q'.
Proof.
  intros Hs [_ Hc _ I _ _ _ _ _ _ _ _ _]. unfold flushes in *. destruct Hs; repeat case_match; qstep; intros Hn;
    try (rewrite Hn in *); try done; specialize (I eq_refl); rewrite <-?app_assoc in *; cbn in *; try done; unfold flushes in *.
  all: try (rewrite !app_assoc; rewrite !app_assoc in I; by apply sublist_app).
  all: etransitivity; [|exact I]; repeat apply sublist_app; try done.
  all: try (by apply sublist_filter); try (by apply sublist_cons).

Qed.

Lemma step_bounds q q' : step indexManager q q' → queue_inv q →
  zlen (items q') ≤ writeQueueCap ∧ room (writer q') (zlen (items q')) (stopCh q').
Proof.
  intros Hs [_ Hc _ _ I1 I2 I3 _ _ _ _ _ _]. destruct Hs; repeat case_match; qstep; split; try done.
  all: try match goal with |- room (writer ?x) _ _ => destruct (writer x); cbn in * end.
  all: try match goal with H : (_ <=? _) = false |- _ => apply Z.leb_gt in H | H : (_ <=? _) = true |- _ => apply Z.leb_le in H end.
  all: unfold writeQueueCap, writeQueueBatchSize, zlen in *; cbn in *; rewrite ?length_app in *; cbn in *; intros; try done; try lia.
  all: try match goal with I : context [stopping (stopper ?x)] |- _ => destruct (stopping (stopper x)); [done|]; by destruct (I eq_refl eq_refl) end.
  all: try (pose proof (length_filter (kept maxHeight) batch); lia).
  all: specialize (I2 ltac:(assumption)); lia.
Qed.

Lemma step_flags q q' : step indexManager q q' → queue_inv q →
  stopped q' = negb (bool_decide (stopper q' = SIdle)) ∧ stopCh q' = stopping (stopper q') ∧
  (stopper q' = SDone → writer q' = WExited) ∧ (exiting (writer q') = true → stopCh q' = true).
Proof.
  intros Hs [I1 I2 _ _ _ _ _ _ _ _ _ I4 I3]. destruct Hs; repeat case_match; qstep; split_and!; try done; intros; simplify_eq.
  all: try (destruct (stopper q); naive_solver).
Qed.

Lemma step_sync_inv q q' : step indexManager q q' → queue_inv q →
  (syncing (writer q') = true → stopCh q' = false → holder q' = CWait ∧ done q' = false) ∧
  (holder q' = CWait → done q' = false → syncing (writer q') = true) ∧
  (holder q' = CWait → done q' = true → inflight (writer q') = [] ∧ syncing (writer q') = false).
Proof.
  intros Hs [_ _ _ _ _ _ I1 I2 I4 I3 _ _ _]. destruct Hs; repeat case_match; qstep; split_and!; intros; simplify_eq;
    first [done | by apply I1 | by apply I2 | by apply I3 | by destruct (I3 eq_refl eq_refl) | idtac].
  all: first [by destruct (I1 ltac:(done) ltac:(done)) | by destruct (I3 ltac:(done) ltac:(done)) | by specialize (I4 ltac:(done) ltac:(by left))].
Qed.

Lemma step_drained_inv q q' : step indexManager q q' → queue_inv q →
  holder q' = CWait → (done q' = true ∨ writer q' = WAck ∨ ∃ t, writer q' = WSyncTail t) → items q' = [].
Proof.
  intros Hs [_ _ _ _ _ _ _ I2 I _ _ _ _]. destruct Hs; repeat case_match; qstep; intros ? Hd; simplify_eq; destruct Hd as [?|[?|[? ?]]]; simplify_eq/=; try done.
  all: first [by apply I; eauto | by specialize (I ltac:(done) ltac:(eauto)) | by specialize (I2 ltac:(done) ltac:(done)) ].
Qed.

Lemma step_late q q' : step indexManager q q' → queue_inv q →
  match stopper q' with SFlush _ | SWait | SDone => zlen (items q') + enqueueing (holder q') ≤ 1 | _ => True end.
Proof.
  intros Hs [I1 _ _ _ _ _ _ _ _ _ I _ _]. destruct Hs; repeat case_match; qstep; try done.
  all: rewrite ?zlen_app in *; unfold zlen in *; cbn in *; rewrite ?length_app; cbn; try lia.
  all: try (destruct (holder q); cbn in *; lia).
Qed.

Lemma step_inv q q' : step indexManager q q' → queue_inv q → queue_inv q'.
Proof.
  intros Hs I. destruct (step_flags _ _ Hs I) as (?&?&?&?). destruct (step_bounds _ _ Hs I).
  destruct (step_sync_inv _ _ Hs I) as (?&?&?).
  split; try done;
    [by eapply step_conserve|by eapply step_fifo|by eapply step_drained_inv|by eapply step_late].
Qed.

Lemma reachable_inv d q : reachable indexManager d q → queue_inv q.
Proof.
  unfold reachable. intros Hr. remember (newWriteQueue d) as q0 eqn:E0. assert (queue_inv q0) as I by (subst; apply queue_inv_init).
  clear E0. induction Hr as [|q1 q2 q3 Hs _ IH]; [done|]. eauto using step_inv.
Qed.

(** ** The database is the replay of the log *)

(** The transactions of the log in order *)
Fixpoint replay (d : disk) (l : list (list writeItem * bool)) : run disk :=
  match l with
  | [] => Done d
  | (b, true) :: l => r ← flushBatch indexManager true d b; replay r.1 l
  | (_, false) :: l => replay d l
  end.

Lemma flushBatch_committed c d b d' ok : flushBatch indexManager c d b = Done (d', ok) →
  if ok then flushBatch indexManager true d b = Done (d', true) else d' = d.
Proof.
  unfold flushBatch. destruct (last b); [|by intros [= -> <-]].
  destruct (mergeBatch _ _ _ _) as [[d1|e]| |]; cbn; try done; [|by intros [= -> <-]].
  destruct c; cbn; by intros [= -> <-].
Qed.

Lemma replay_snoc d l d1 b c r : replay d l = Done d1 → flushBatch indexManager c d1 b = Done r →
  replay d (l ++ [(b, r.2)]) = Done r.1.
Proof.
  destruct r as [d2 ok]. cbn. intros Hl Hb. apply flushBatch_committed in Hb.
  revert d Hl. induction l as [|[b' []] l IH]; intros d; cbn.
  - intros [= ->]. destruct ok; [by rewrite Hb|by subst].
  - intros [r [-> Hl]]%run_bind_Done. by apply IH.
  - apply IH.
Qed.

Lemma reachable_replay d q : reachable indexManager d q → replay d (log q) = Done (db q).
Proof.
  unfold reachable. intros Hr. remember (newWriteQueue d) as q0 eqn:E0.
  assert (replay d (log q0) = Done (db q0)) as I by (by subst). clear E0.
  induction Hr as [|q1 q2 q3 Hs _ IH]; [done|]. apply IH. clear IH.
  destruct Hs; repeat case_match; cbn; try done; by eapply replay_snoc.
Qed.

(** ** Batching is invisible *)

(** What a transaction writes after its items *)
Definition seal (it : writeItem) (d : disk) : disk :=
  dbPutWriteWatermark (match bestState it with
                       | Some st => set_chainRows (dbPutUtxoStateConsistency (chainRows d) (Hash st)) d
                       | None => d
                       end) (height it).

Definition rmap {A E} (f : A → A) (r : run (A + E)) : run (A + E) :=
  x ← r; Done (match x with inl d => inl (f d) | inr e => inr e end).

Lemma seal_writeNodeRows m (r : database) rows :
  BlockIndex.writeNodeRows (set_meta m r) rows = (x ← BlockIndex.writeNodeRows r rows; Done (set_meta m x)).
Proof.
  revert r. induction rows as [|row rows IH]; intros r; [done|]. cbn [BlockIndex.writeNodeRows].
  unfold BlockIndex.writeNodeRowSnapshot, ChainIO.dbStoreBlockNode, ChainIO.dbPutHeightIndexGuarded.
  destruct (Wire.writeBlockHeader _ _) as [w| |]; [|done..]. cbn [mbind run_bind].
  destruct (BlockIndex.hashIndex row), (BlockIndex.heightIndex row); cbn [mbind run_bind];
    try (rewrite <-IH; reflexivity);
    destruct (BlockIndex.heightIndexChain row); cbn [negb]; try (rewrite <-IH; reflexivity);
    unfold ChainIO.dbFetchHashByHeight; cbn; case_match; rewrite <-IH; reflexivity.
Qed.

Lemma writeNodeRows_meta (r x : database) rows : BlockIndex.writeNodeRows r rows = Done x → meta x = meta r.
Proof.
  intros E. pose proof (seal_writeNodeRows (meta r) r rows) as H1. rewrite E in H1. cbn in H1.
  assert (set_meta (meta r) r = r) as H2 by (by destruct r). rewrite H2, E in H1. by injection H1 as ->.
Qed.

Lemma marker_keys : utxoStateConsistencyKeyName ≠ ChainIO.chainStateKeyName ∧
  utxoStateConsistencyKeyName ≠ ChainIO.bestHeaderStateKeyName.
Proof. split; vm_compute; congruence. Qed.

Lemma mark_chainRows hs r item : writeChainRows (dbPutUtxoStateConsistency r hs) item =
  (x ← writeChainRows r item; Done (dbPutUtxoStateConsistency x hs)).
Proof.
  destruct marker_keys as [K1 K2]. unfold writeChainRows, dbPutUtxoStateConsistency at 1. rewrite seal_writeNodeRows.
  destruct (BlockIndex.writeNodeRows r (nodeRows item)) as [x| |] eqn:Ex; cbn [mbind run_bind]; [|done..].
  rewrite <-(writeNodeRows_meta r x _ Ex). clear Ex. unfold dbPutBestTipSnapshot.
  destruct (slice _ _ _) as [tl| |]; cbn [mbind run_bind]; [|done..].
  unfold putBestState. destruct (bestState item) as [st|]; [|done]. cbn [mbind run_bind].
  f_equal. unfold ChainIO.dbPutBlockIndex, ChainIO.dbPutBestState, dbPutUtxoStateConsistency, ChainIO.dbPutBestHeaderState.
  destruct (0 <=? bestHeaderHeight item); unfold set_meta, set_blockIndex, ChainIO.set_hashIndex, ChainIO.set_heightIndex; cbn;
    f_equal; rewrite ?(insert_insert_ne _ utxoStateConsistencyKeyName) by done; done.
Qed.

Lemma seal_rows it d item : writeItemRows indexManager (seal it d) item = rmap (seal it) (writeItemRows indexManager d item).
Proof.
  assert (∀ b h, dbPutWriteWatermark (set_indexRows b d) h = set_indexRows b (dbPutWriteWatermark d h)) as _ by done.
  unfold writeItemRows, rmap, seal. destruct (bestState it) as [st|]; cbn; rewrite ?mark_chainRows;
    (destruct (writeChainRows (chainRows d) item) as [x| |]; cbn [mbind run_bind]; [|done..]);
    (destruct (UtxoSet.dbPutSpendJournalEntry _ _ _) as [j'| |]; cbn [mbind run_bind]; [|done..]);
    destruct indexManager as [im|], (block item) as [blk|]; try done; cbn [indexRows set_spendJournal set_chainRows];
    destruct (im blk (stxos item) (indexRows d)) as [[?|?]| |]; done.
Qed.

Lemma seal_deltas it d item : writeItemDeltas (seal it d) item = rmap (seal it) (writeItemDeltas d item).
Proof.
  unfold writeItemDeltas, rmap, seal. destruct (bestState it) as [st|]; cbn;
    destruct (UtxoCache.writeItemDeltas _ _) as [[?|?]| |]; done.
Qed.

Lemma seal_items it d its : mergeItems indexManager (seal it d) its = rmap (seal it) (mergeItems indexManager d its).
Proof.
  revert d. induction its as [|item its IH]; intros d; [done|]. cbn [mergeItems]. rewrite seal_rows.
  destruct (writeItemRows indexManager d item) as [[d1|e]| |]; try done. cbn [rmap mbind run_bind].
  rewrite seal_deltas. destruct (writeItemDeltas d1 item) as [[d2|e]| |]; try done. cbn [rmap mbind run_bind]. apply IH.
Qed.

Lemma seal_seal it it' d : is_Some (bestState it') → seal it' (seal it d) = seal it' d.
Proof.
  intros [st E]. unfold seal. rewrite E. destruct (bestState it) as [st'|]; cbn;
    unfold dbPutWriteWatermark, set_writewatermark, set_chainRows, dbPutUtxoStateConsistency, set_meta; cbn;
    by rewrite ?insert_insert_eq.
Qed.

(** The synchronous writer: one transaction per block, stopping at the first failure *)
Fixpoint syncWrite (d : disk) (its : list writeItem) : run (disk * bool) :=
  match its with
  | [] => Done (d, true)
  | it :: its =>
      '(d', ok) ← flushBatch indexManager true d [it];
      if (ok : bool) then syncWrite d' its else Done (d, false)
  end.

Lemma writeItemRows_state d item d' : writeItemRows indexManager d item = Done (inl d') → is_Some (bestState item).
Proof.
  unfold writeItemRows, writeChainRows, putBestState. destruct (bestState item); [done|].
  destruct (BlockIndex.writeNodeRows _ _); cbn; try done. by destruct (dbPutBestTipSnapshot _ _ _ _).
Qed.

Lemma mergeItems_cons d it its d' : mergeItems indexManager d (it :: its) = Done (inl d') ↔
  ∃ d1, mergeItems indexManager d [it] = Done (inl d1) ∧ is_Some (bestState it) ∧ mergeItems indexManager d1 its = Done (inl d').
Proof.
  cbn [mergeItems]. destruct (writeItemRows indexManager d it) as [[d1|e]| |] eqn:Er; cbn;
    [|split; [done|by intros (?&?&_)]..]. apply writeItemRows_state in Er.
  destruct (writeItemDeltas d1 it) as [[d2|e]| |]; cbn; [|split; [done|by intros (?&?&_)]..].
  split; [by eauto|by intros (?&[= <-]&_&?)].
Qed.

Lemma mergeItems_last d its it d' : mergeItems indexManager d its = Done (inl d') → last its = Some it →
  is_Some (bestState it).
Proof.
  revert d. induction its as [|z l IH]; intros d; [done|]. intros (d1&E1&Hz&E2)%mergeItems_cons El.
  destruct l; [by injection El as ->|]. rewrite last_cons_cons in El. eauto.
Qed.

Lemma flushBatch_merge d its it d' : last its = Some it →
  flushBatch indexManager true d its = Done (d', true) ↔
  ∃ d1, mergeItems indexManager d its = Done (inl d1) ∧ d' = seal it d1.
Proof.
  intros El. unfold flushBatch, mergeBatch. rewrite El.
  destruct (mergeItems indexManager d its) as [[d1|e]| |]; cbn; [|split; [done|by intros (?&?&_)]..].
  unfold seal. split; [intros [= <-]; eauto|intros (?&[= <-]&->); done].
Qed.

Lemma rmap_inl {A E} (f : A → A) (r : run (A + E)) b : rmap f r = Done (inl b) ↔ ∃ a, r = Done (inl a) ∧ b = f a.
Proof. destruct r as [[a|e]| |]; cbn; split; [intros [= <-]; eauto|by intros (?&[= <-]&->)|done|by intros (?&?&_)|done|by intros (?&?&_)|done|by intros (?&?&_)]. Qed.

(** The transactions of single items add up to the transaction of the batch. *)
Lemma syncWrite_merge d its it d' : last its = Some it →
  syncWrite d its = Done (d', true) ↔ ∃ d1, mergeItems indexManager d its = Done (inl d1) ∧ d' = seal it d1.
Proof.
  revert d d'. induction its as [|x its IH]; intros d d' El; [done|]. cbn [syncWrite].
  assert (∀ d1, mergeItems indexManager d [x] = Done (inl d1) → flushBatch indexManager true d [x] = Done (seal x d1, true)) as Hx.
  { intros d1 E1. apply (flushBatch_merge d [x] x); eauto. }
  destruct its as [|y its].
  { injection El as ->. rewrite <-(flushBatch_merge d [it] it d') by done.
    destruct (flushBatch indexManager true d [it]) as [[d1 []]| |]; cbn; done. }
  rewrite last_cons_cons in El. split.
  - intros [[d1 ok] [E1 E2]]%run_bind_Done. destruct ok; [|done]. cbn in E2.
    apply (flushBatch_merge d [x] x) in E1 as (d0&E0&->); [|done].
    apply IH in E2 as (d2&E2&->); [|done]. rewrite seal_items in E2. apply rmap_inl in E2 as (d3&E2&->).
    exists d3. assert (is_Some (bestState x)) by (by apply mergeItems_cons in E0 as (?&?&?&?)).
    split; [apply mergeItems_cons; eauto|]. by eapply seal_seal, mergeItems_last.
  - intros (d1&(d0&E0&Hx'&E1)%mergeItems_cons&->). rewrite (Hx _ E0). cbn [mbind run_bind fst snd].
    apply IH; [done|]. exists (seal x d1). split; [by rewrite seal_items, E1|]. symmetry. by eapply seal_seal, mergeItems_last.
Qed.

Lemma syncWrite_app d l k : syncWrite d (l ++ k) =
  ('(d', ok) ← syncWrite d l; if (ok : bool) then syncWrite d' k else Done (d', false)).
Proof.
  revert d. induction l as [|it l IH]; intros d; [done|]. cbn [syncWrite app].
  destruct (flushBatch indexManager true d [it]) as [[d1 []]| |]; cbn [mbind run_bind]; done.
Qed.

Lemma flushBatch_sync d b d' : flushBatch indexManager true d b = Done (d', true) ↔ syncWrite d b = Done (d', true).
Proof.
  destruct (last b) as [it|] eqn:El.
  - by rewrite (flushBatch_merge d b it), (syncWrite_merge d b it).
  - apply last_None in El as ->. done.
Qed.

(** The items of the batches that were written *)
Definition written (l : list (list writeItem * bool)) : list writeItem :=
  concat (filter (fun e : list writeItem * bool => e.2 = true) l).*1.

Lemma written_snoc l b ok : written (l ++ [(b, ok)]) = written l ++ (if (ok : bool) then b else []).
Proof.
  unfold written. rewrite filter_app, fmap_app, concat_app. f_equal. rewrite filter_cons, filter_nil.
  destruct ok; case_decide; try done. cbn. by rewrite app_nil_r.
Qed.

(** The database is what a synchronous writer of the written items leaves. *)
Lemma reachable_sync d q : reachable indexManager d q → syncWrite d (written (log q)) = Done (db q, true).
Proof.
  unfold reachable. intros Hr. remember (newWriteQueue d) as q0 eqn:E0.
  assert (syncWrite d (written (log q0)) = Done (db q0, true)) as I by (by subst). clear E0.
  induction Hr as [|q1 q2 q3 Hs _ IH]; [done|]. apply IH. clear IH.
  destruct Hs as [| | | | | | | | | |? ? ? [d' ok] ? Hf|? ? ? ? [d' ok] ? Hf| | |? ? ? [d' ok] ? Hf| | |? ? ? [d' ok] ? Hf| | | | |? ? ? [d' ok] ? Hf|];
    repeat case_match; try exact I; cbn [flushed log db fst snd set_writer set_stopper set_stop];
    rewrite written_snoc, syncWrite_app, I; cbn; apply flushBatch_committed in Hf; destruct ok; try (by subst);
    by apply flushBatch_sync.
Qed.

Lemma written_all l : Forall (fun e => e.2 = true) l → written l = concat l.*1.
Proof.
  intros Hl. unfold written. f_equal. f_equal. induction Hl as [|[b ok] l E _ IH]; [done|]. cbn in E. subst.
  by rewrite filter_cons, IH.
Qed.

Lemma written_flushes q it : it ∈ written (log q) → it ∈ flushes q.
Proof.
  unfold written, flushes. rewrite !list_elem_of_In, !in_concat. intros (b&Hb&Hi). exists b. split; [|done].
  rewrite <-list_elem_of_In in *. apply list_elem_of_fmap in Hb as (e&->&He). apply list_elem_of_filter in He as [_ He]. apply list_elem_of_fmap. eauto.
Qed.

Lemma zlen_pending d q : reachable indexManager d q → stopCh q = false →
  zlen (pending q) ≤ writeQueueCap + writeQueueBatchSize.
Proof.
  intros [_ _ _ _ Hc Hr _ _ _ _ _ _ _]%reachable_inv Hs. unfold pending. rewrite zlen_app.
  destruct (writer q); cbn in *; try specialize (Hr Hs); cbn in *;
  unfold zlen, writeQueueCap, writeQueueBatchSize in *; cbn in *; lia.
Qed.

Lemma conserve_running q : queue_inv q → stopCh q = false → accepted q ≡ₚ flushes q ++ dropped q ++ pending q.
Proof.
  intros I Hs. rewrite (inv_stopCh _ I) in Hs. pose proof (inv_conserve _ I) as Hc.
  destruct (stopper q); try done; cbn in Hc; by rewrite app_nil_r in Hc.
Qed.

Lemma sublist_eq {A} (l k : list A) : l `sublist_of` k → length l = length k → l = k.
Proof.
  induction 1 as [|x l k Hs IH|x l k Hs IH]; cbn; intros E; [done|by rewrite IH by lia|].
  apply sublist_length in Hs. lia.
Qed.

Lemma fifo_nodrop q : queue_inv q → stopCh q = false → dropped q = [] → accepted q = flushes q ++ pending q.
Proof.
  intros I Hs Hd. symmetry. apply sublist_eq; [by apply inv_fifo|]. by rewrite (conserve_running _ I Hs), Hd.
Qed.

(** C4 (refinement).  The asynchronous writer is a synchronous writer that lags: in
    every state the goroutines can reach, the database is exactly what writing the
    items of the committed batches one transaction at a time would leave, so that
    batching cannot be seen on disk.  As long as the queue is not being stopped the
    flushed items followed by those held by the writer and by the channel are a
    subsequence of the accepted ones in the order they were accepted, nothing but
    what barriers dropped is missing, and at most 64 + 32 items wait.  Without
    drops and failed commits the database is that of a prefix of the accepted
    blocks. *)
Theorem async_is_lagging_sync (d : disk) (q : queue) :
  reachable indexManager d q →
  syncWrite d (written (log q)) = Done (db q, true) ∧
  (stopCh q = false →
     flushes q ++ pending q `sublist_of` accepted q ∧
     accepted q ≡ₚ flushes q ++ dropped q ++ pending q ∧
     zlen (pending q) ≤ writeQueueCap + writeQueueBatchSize ∧
     (dropped q = [] → Forall (fun e => e.2 = true) (log q) →
        ∃ k, syncWrite d (take k (accepted q)) = Done (db q, true) ∧ drop k (accepted q) = pending q)).
Proof.
  intros Hr. split; [by apply reachable_sync|]. intros Hs. pose proof (reachable_inv _ _ Hr) as I.
  split_and!; [by apply inv_fifo|by apply conserve_running|by eapply zlen_pending|].
  intros Hd Hl. exists (length (flushes q)). rewrite (fifo_nodrop _ I Hs Hd), take_app_length, drop_app_length.
  split; [|done]. unfold flushes. rewrite <-written_all by done. by apply reachable_sync.
Qed.

(** C24 (safety).  The barrier: when [syncNow] or [syncNowBelow] sees its request
    acknowledged and the queue is not being stopped, the writer holds nothing and
    the channel is empty, so that every accepted item has been flushed or dropped;
    if none was dropped and no commit failed, the database is that of all accepted
    blocks.  Between its two selects the caller is never overtaken: the writer is
    working on the request. *)
Theorem barrier_flushes (d : disk) (q : queue) :
  reachable indexManager d q → holder q = CWait → stopCh q = false →
  (done q = false → syncing (writer q) = true) ∧
  (done q = true →
     writer q = WSelect [] ∧ items q = [] ∧ accepted q ≡ₚ flushes q ++ dropped q ∧
     (dropped q = [] → Forall (fun e => e.2 = true) (log q) → syncWrite d (accepted q) = Done (db q, true))).
Proof.
  intros Hr Hh Hs. pose proof (reachable_inv _ _ Hr) as I. split; [by apply inv_wait|]. intros Hd.
  destruct (inv_acked _ I Hh Hd) as [Hb Hw]. pose proof (inv_drained _ I Hh (or_introl Hd)) as Hi.
  pose proof (conserve_running _ I Hs) as Hc. unfold pending in *. rewrite Hi, Hb in *. cbn in *. rewrite app_nil_r in Hc.
  split_and!; [|done|done|].
  - pose proof (inv_exit _ I) as He. pose proof (inv_room _ I) as Hm. rewrite Hs in He.
    destruct (writer q); cbn in *; subst; try done; by specialize (He eq_refl).
  - intros Hdr Hl. rewrite (fifo_nodrop _ I Hs Hdr). unfold pending. rewrite Hi, Hb, !app_nil_r.
    unfold flushes. rewrite <-written_all by done. by apply reachable_sync.
Qed.

End invariant.

(** ** What a committed batch leaves *)

Lemma zlen_bigBytes_256 n : 0 ≤ n < 2 ^ 256 → zlen (ChainIO.bigBytes n) ≤ 32.
Proof.
  intros Hn. unfold ChainIO.bigBytes, be_bytes, zlen. rewrite length_reverse, length_le_bytes.
  destruct (Z.eq_dec n 0) as [->|]; [done|]. unfold WorkMath.bytesLen.
  destruct (Z.eqb_spec n 0); [lia|]. rewrite Z.abs_eq by lia.
  assert (Z.log2 n < 256) by (apply Z.log2_lt_pow2; lia). pose proof (Z.log2_nonneg n). zdm.
Qed.

(** The stored snapshot: the work right-aligned in 32 bytes *)
Definition snapshotBytes (hs : hash_t) (hgt work : Z) : list byte :=
  hs ++ le_bytes 4 (u32 hgt) ++ replicate (32 - length (ChainIO.bigBytes work)) (z2b 0) ++ ChainIO.bigBytes work.

Lemma dbPutBestTipSnapshot_eq d hs hgt work : length hs = 32%nat → 0 ≤ work < 2 ^ 256 →
  dbPutBestTipSnapshot d hs hgt work =
  Done (set_blockIndex (<[bestTipSnapshotKey := snapshotBytes hs hgt work]> (blockIndexBucket d)) d).
Proof.
  intros Hh Hw. unfold dbPutBestTipSnapshot, snapshotBytes. pose proof (zlen_bigBytes_256 _ Hw) as Hl.
  set (wb := ChainIO.bigBytes work) in *. set (z := z2b 0). unfold zlen in Hl.
  assert (replicate 68 z = replicate 32 z ++ replicate 4 z ++ replicate (32 - length wb) z ++ replicate (length wb) z) as ->.
  { rewrite <-!replicate_add. f_equal. lia. }
  rewrite (take_app_length' (replicate 32 z)), (drop_app_length' (replicate 32 z)) by done.
  rewrite (ChainIO.gocopy_full (replicate 32 z)) by done.
  rewrite (ChainIO.put_app hs (replicate 4 z)) by (by rewrite ?length_replicate, ?length_le_bytes).
  rewrite !app_assoc. set (pre := (hs ++ _) ++ _).
  assert (length pre = 68 - length wb)%nat as Hp
    by (unfold pre; rewrite !length_app, length_le_bytes, length_replicate, Hh; lia).
  rewrite (ChainIO.slice_tail pre (replicate (length wb) z))
    by (rewrite ?zlen_app; unfold zlen; rewrite ?length_replicate, ?Hp; lia). cbn [mbind run_bind].
  rewrite (take_app_length' pre) by (unfold zlen; lia). by rewrite ChainIO.gocopy_full by (by rewrite length_replicate).
Qed.

Lemma snapshot_roundtrip d hs hgt work : length hs = 32%nat → 0 ≤ hgt < 2 ^ 31 → 0 ≤ work < 2 ^ 256 →
  blockIndexBucket d !! bestTipSnapshotKey = Some (snapshotBytes hs hgt work) →
  dbFetchBestTipSnapshot d = Done (Some (hs, hgt, work)).
Proof.
  intros Hh Hg Hw E. unfold dbFetchBestTipSnapshot. rewrite E. unfold snapshotBytes.
  pose proof (zlen_bigBytes_256 _ Hw) as Hl. pose proof (ChainIO.bigBytes_val work ltac:(lia)) as Ev.
  set (wb := ChainIO.bigBytes work) in *. set (zs := replicate (32 - length wb) (z2b 0)).
  assert (zlen hs = 32) as Hz by (unfold zlen; lia).
  assert (zlen (zs ++ wb) = 32) as Hw32 by (rewrite zlen_app; unfold zs, zlen in *; rewrite length_replicate; lia).
  rewrite !zlen_app, Wire.zlen_le_bytes, Hz, <-zlen_app, Hw32. cbn [negb Z.eqb].
  change (32 + (Z.of_nat 4 + 32) =? 32 + 4 + 32) with true. cbn [negb].
  rewrite (ChainIO.slice_head hs) by done. cbn [mbind run_bind].
  rewrite (ChainIO.slice_app hs (le_bytes 4 (u32 hgt)) _ 32 36) by (rewrite ?Wire.zlen_le_bytes, ?Hz; lia). cbn [mbind run_bind].
  destruct (ChainIO.i32_of_height hgt Hg) as [Eu Ei].
  rewrite Eu, ChainIO.getUint32_le' by zlia. cbn [mbind run_bind]. rewrite app_assoc.
  rewrite (ChainIO.slice_tail (hs ++ _) (zs ++ wb)) by (rewrite ?zlen_app, ?Wire.zlen_le_bytes, ?Hz, <-?zlen_app, ?Hw32; lia). cbn [mbind run_bind].
  by unfold zs; rewrite ChainIO.toHash_id, Ei, be_val_zeros, Ev by done.
Qed.

(** An item as [connectBlock] builds it: everything names the same block. *)
Record item_ok (it : writeItem) (st : BestState) : Prop := {
  ok_state : bestState it = Some st;
  ok_hash : length (Hash st) = 32%nat;
  ok_height : 0 ≤ Height st < 2 ^ 31;
  ok_txns : 0 ≤ TotalTxns st < 2 ^ 64;
  ok_work : 0 ≤ tipWork it < 2 ^ 256;
  ok_names : blockHash it = Hash st ∧ bestTipHash it = Hash st;
  ok_heights : height it = Height st ∧ tipHeight it = Height st;
}.

(** The four records of the tip and the main chain index agree on a block. *)
Record tip_at (d : disk) (st : BestState) (work : Z) : Prop := {
  at_watermark : loadWriteWatermark d = Done (Height st);
  at_marker : dbFetchUtxoStateConsistency (chainRows d) = Some (Hash st);
  at_chainstate : ∃ raw, meta (chainRows d) !! ChainIO.chainStateKeyName = Some raw ∧
    ChainIO.deserializeBestChainState raw =
    Done (inl {| ChainIO.bs_hash := Hash st; ChainIO.bs_height := Height st; ChainIO.totalTxns := TotalTxns st;
                 ChainIO.bs_workSum := work |});
  at_snapshot : dbFetchBestTipSnapshot (chainRows d) = Done (Some (Hash st, Height st, work));
  at_byHeight : ChainIO.dbFetchHashByHeight (chainRows d) (Height st) = inl (Hash st);
  at_byHash : ChainIO.dbFetchHeightByHash (chainRows d) (Hash st) = Done (inl (Height st));
}.

Lemma writeChainRows_at r it st x : item_ok it st → writeChainRows r it = Done x →
  (∃ raw, meta x !! ChainIO.chainStateKeyName = Some raw ∧ ChainIO.deserializeBestChainState raw =
    Done (inl {| ChainIO.bs_hash := Hash st; ChainIO.bs_height := Height st; ChainIO.totalTxns := TotalTxns st;
                 ChainIO.bs_workSum := tipWork it |})) ∧
  dbFetchBestTipSnapshot x = Done (Some (Hash st, Height st, tipWork it)) ∧
  ChainIO.dbFetchHashByHeight x (Height st) = inl (Hash st) ∧
  ChainIO.dbFetchHeightByHash x (Hash st) = Done (inl (Height st)).
Proof.
  intros [Es Hh Hg Ht Hw [E1 E2] [E3 E4]]. unfold writeChainRows. rewrite Es, E1, E2, E3, E4.
  destruct (ChainIO.i32_of_height _ Hg) as [Eu Ei].
  intros [y [_ E]]%run_bind_Done. rewrite dbPutBestTipSnapshot_eq in E by done. cbn [mbind run_bind putBestState] in E.
  injection E as <-. split_and!.
  - eexists. split; [apply lookup_insert_eq|]. rewrite Eu.
    apply (ChainIO.chainState_roundtrip _ {| ChainIO.ts_hash := Hash st; ChainIO.ts_height := Height st |}); cbn; try done; zlia.
  - by apply snapshot_roundtrip; [..|apply lookup_insert_eq].
  - unfold ChainIO.dbFetchHashByHeight, ChainIO.dbPutBlockIndex.
    cbn [ChainIO.heightIndexBucket ChainIO.set_heightIndex]. rewrite lookup_insert_eq. by rewrite ChainIO.toHash_id.
  - unfold ChainIO.dbFetchHeightByHash, ChainIO.dbPutBlockIndex, ChainIO.serializedHeight.
    cbn [ChainIO.hashIndexBucket ChainIO.set_heightIndex ChainIO.set_hashIndex]. rewrite lookup_insert_eq.
    rewrite Eu, ChainIO.getUint32_le' by zlia. cbn [mbind run_bind]. by rewrite Ei.
Qed.

Section coherence.
Context `{!Compress.SecKeys} (indexManager : option IndexManager).

(** The chain rows after the transaction of one item *)
Lemma flush_rows d it d' : flushBatch indexManager true d [it] = Done (d', true) →
  ∃ x st b, bestState it = Some st ∧ writeChainRows (chainRows d) it = Done x ∧
    chainRows d' = dbPutUtxoStateConsistency x (Hash st) ∧
    writewatermark d' = Some (<[heightKey := le_bytes 4 (u32 (height it))]> b).
Proof.
  intros (d1&E&->)%(flushBatch_merge _ _ _ it); [|done]. cbn [mergeItems] in E.
  apply run_bind_Done in E as [[d2|e] [E1 E2]]; [|done]. apply run_bind_Done in E2 as [[d3|e] [E2 E3]]; [|done].
  injection E3 as ->. assert (chainRows d1 = chainRows d2) as Ec.
  { unfold writeItemDeltas in E2. apply run_bind_Done in E2 as [[b|e] [_ E2]]; [|done]. by injection E2 as <-. }
  assert (writeChainRows (chainRows d) it = Done (chainRows d2)) as Hx.
  { unfold writeItemRows in E1. apply run_bind_Done in E1 as [x [-> E1]]. apply run_bind_Done in E1 as [j [_ E1]].
    destruct indexManager as [im|], (block it) as [blk|]; try (by injection E1 as <-).
    apply run_bind_Done in E1 as [[ix|?] [_ E1]]; [|done]. by injection E1 as <-. }
  destruct (writeItemRows_state _ _ _ _ E1) as [st Es].
  exists (chainRows d2), st, (default ∅ (writewatermark d1)). unfold seal. rewrite Es, <-Ec. split_and!; try done. by rewrite Ec.
Qed.

Lemma item_written d it st d' : item_ok it st → flushBatch indexManager true d [it] = Done (d', true) →
  tip_at d' st (tipWork it).
Proof.
  intros Hi (x&st'&b&Es&Hx&Ec&Ew)%flush_rows. rewrite (ok_state _ _ Hi) in Es. injection Es as <-.
  destruct (writeChainRows_at _ _ _ _ Hi Hx) as ((raw&Em&Er)&H2&H3&H4).
  destruct (ok_heights _ _ Hi) as [Eh _]. destruct marker_keys as [K1 _]. split.
  - unfold loadWriteWatermark. rewrite Ew, lookup_insert_eq, Eh. destruct (ChainIO.i32_of_height _ (ok_height _ _ Hi)) as [Eu Ei].
    rewrite Eu, ChainIO.getUint32_le' by (pose proof (ok_height _ _ Hi); zlia). cbn [mbind run_bind]. by rewrite Ei.
  - rewrite Ec. apply lookup_insert_eq.
  - exists raw. split; [|done]. rewrite Ec. cbn. by rewrite lookup_insert_ne by done.
  - rewrite Ec. exact H2.
  - rewrite Ec. exact H3.
  - rewrite Ec. exact H4.
Qed.

(** C7 (invariant).  What the writer of the queue leaves in the database is coherent.  As long as the
    database is written by the queue's own steps, from accepted items that describe
    one block each ([item_ok]), it is either untouched or the watermark, the
    consistency marker of the UTXO set, the best-chain record, the best-tip snapshot
    and both directions of the main chain index name the same block, that of the
    last item the writer committed, whatever the goroutines have done so far and
    whichever commits failed: the transaction writes all of them or none.  The
    direct transaction of [disconnectBlock] is no step of the queue; it moves
    the other rows back and leaves the watermark where it was. *)
Theorem durable_tip_agrees (d : disk) (q : queue) :
  reachable indexManager d q → Forall (fun it => ∃ st, item_ok it st) (accepted q) →
  (written (log q) = [] ∧ db q = d) ∨
  ∃ it st, last (written (log q)) = Some it ∧ item_ok it st ∧ tip_at (db q) st (tipWork it).
Proof.
  intros Hr Ha. pose proof (reachable_sync _ _ _ Hr) as Hs. pose proof (reachable_inv _ _ _ Hr) as I.
  destruct (written (log q)) as [|it l _] eqn:Ew using rev_ind.
  { left. by injection Hs as <-. }
  right. rewrite syncWrite_app in Hs. apply run_bind_Done in Hs as [[d1 []] [_ Hs]]; [|done].
  cbn [syncWrite] in Hs. apply run_bind_Done in Hs as [[d2 []] [E1 E2]]; [|done]. cbn in E2. injection E2 as <-.
  assert (it ∈ accepted q) as Hin.
  { rewrite (inv_conserve _ I). apply elem_of_app. left. eapply written_flushes. rewrite Ew. apply elem_of_app. right. by left. }
  rewrite Forall_forall in Ha. destruct (Ha _ Hin) as [st Hi]. exists it, st. rewrite last_snoc.
  split_and!; [done|done|]. by eapply item_written.
Qed.

End coherence.

(** ** Stopping *)

Section stopping.
Context `{!Compress.SecKeys} (indexManager : option IndexManager).

(** No call is past the check of [enqueue], and what the stopper saw drained stays so. *)
Definition quiet (a : list writeItem) (q : queue) : Prop :=
  stopped q = true ∧ enqueueing (holder q) = 0 ∧ accepted q = a ∧
  match stopper q with SFlush _ | SWait | SDone => items q = [] | _ => True end.

Lemma step_quiet a q q' : step indexManager q q' → stopper q ≠ SIdle → quiet a q → quiet a q' ∧ stopper q' ≠ SIdle.
Proof.
  intros Hs Hn (Q1&Q2&Q3&Q4). unfold quiet. destruct Hs; repeat case_match; unfold set_stopper in *; cbn in *; simplify_eq;
    repeat match goal with H : ?f ?q = _ |- _ => is_var q; progress rewrite H in * end; cbn in *; done.
Qed.

(** When nobody is inside [enqueue] at the time the flag is set, [stop]
    loses nothing: once it returns, the writer has exited, the channel is empty, no
    further item was accepted and every accepted item was flushed or dropped.  With
    a call inside [enqueue], at most that one item is left behind. *)
Theorem stop_flushes_all (d : disk) (q q' : queue) :
  reachable indexManager d q → stopper q = SFlagged → rtc (step indexManager) q q' → stopper q' = SDone →
  writer q' = WExited ∧ zlen (items q') ≤ 1 ∧ accepted q' ≡ₚ flushes q' ++ dropped q' ++ items q' ∧
  (enqueueing (holder q) = 0 → items q' = [] ∧ accepted q' = accepted q).
Proof.
  intros Hr Hf Hrun Hd. assert (reachable indexManager d q') as Hr' by (unfold reachable in *; by etransitivity).
  pose proof (reachable_inv _ _ _ Hr) as I. pose proof (reachable_inv _ _ _ Hr') as I'.
  pose proof (inv_done _ I' Hd) as Hw. pose proof (inv_late _ I') as Hl. pose proof (inv_conserve _ I') as Hc.
  rewrite Hd in Hl, Hc. unfold pending in Hc. rewrite Hw in Hc. cbn in Hc. rewrite app_nil_r in Hc.
  split_and!; [done| |done|].
  { destruct (holder q'); cbn in Hl; lia. }
  intros He. assert (quiet (accepted q) q ∧ stopper q ≠ SIdle) as [Q Hn].
  { unfold quiet. rewrite (inv_stopped _ I), Hf, bool_decide_eq_false_2 by done. done. }
  assert (quiet (accepted q) q' ∧ stopper q' ≠ SIdle) as [(_&_&->&Q') _].
  { generalize dependent (accepted q). clear -Hrun Hn. intros a Q. induction Hrun as [|x y z Hs _ IH]; [done|].
    destruct (step_quiet _ _ _ Hs Hn Q). by apply IH. }
  by rewrite Hd in Q'.
Qed.

(** After [stop] has returned nobody takes from the channel. *)
Definition dead (q : queue) : Prop :=
  writer q = WExited ∧ stopper q = SDone ∧ stopped q = true ∧ enqueueing (holder q) = 0.

Lemma dead_run q q' : dead q → rtc (step indexManager) q q' →
  accepted q' = accepted q ∧ items q' = items q ∧ flushes q' = flushes q ∧ db q' = db q.
Proof.
  intros Hd Hr. induction Hr as [|x y z Hs _ IH]; [done|]. destruct Hd as (D1&D2&D3&D4).
  assert (dead y ∧ accepted y = accepted x ∧ items y = items x ∧ flushes y = flushes x ∧ db y = db x) as (Hd&E1&E2&E3&E4).
  { unfold dead, flushes. destruct Hs; repeat case_match; cbn in *; simplify_eq;
      try congruence; repeat match goal with H : holder ?q = _ |- _ => rewrite H in * end; cbn in *; done. }
  destruct (IH Hd) as (?&?&?&?). split_and!; congruence.
Qed.

End stopping.

(** ** The types of the rows *)

Definition wide (k v : nat) (key val : list byte) : Prop := length key = k ∧ length val = v.

Record rows_typed (r : database) : Prop := {
  typed_hash : map_Forall (wide 32 4) (ChainIO.hashIndexBucket r);
  typed_height : map_Forall (wide 4 32) (ChainIO.heightIndexBucket r);
  typed_block : map_Forall (fun k v => wide 36 81 k v ∨ (k = bestTipSnapshotKey ∧ length v = 68%nat)) (blockIndexBucket r);
  typed_marker : ∀ v, dbFetchUtxoStateConsistency r = Some v → length v = 32%nat;
}.

Record disk_typed (d : disk) : Prop := {
  typed_rows : rows_typed (chainRows d);
  typed_watermark : ∀ b v, writewatermark d = Some b → b !! heightKey = Some v → length v = 4%nat;
}.

Definition row_widths (row : BlockIndex.nodeRowSnapshot) : Prop :=
  length (BlockIndex.row_hash row) = 32%nat ∧ length (BlockIndex.row_parentHash row) = 32%nat ∧
  length (BlockIndex.row_merkleRoot row) = 32%nat.

Definition item_widths (it : writeItem) : Prop :=
  Forall row_widths (nodeRows it) ∧ length (blockHash it) = 32%nat ∧
  ∀ st, bestState it = Some st → length (Hash st) = 32%nat.

Lemma length_blockIndexKey hs h : length (ChainIO.blockIndexKey hs h) = 36%nat.
Proof. unfold ChainIO.blockIndexKey. by rewrite length_app, !length_gocopy. Qed.

Lemma length_header h : length (Wire.PrevBlock h) = 32%nat → length (Wire.MerkleRoot h) = 32%nat →
  length (Wire.header_bytes h) = 80%nat.
Proof. intros Hp Hm. unfold Wire.header_bytes. by rewrite !length_app, !length_le_bytes, Hp, Hm. Qed.

Lemma put_hash_typed r hs h : length hs = 32%nat → rows_typed r → rows_typed (ChainIO.dbPutHashIndex r hs h).
Proof.
  intros Hh [T1 T2 T3 T4]. split; [|done..]. cbn. apply map_Forall_insert_2; [|done]. by split.
Qed.

Lemma put_height_typed r hs h : length hs = 32%nat → rows_typed r → rows_typed (ChainIO.dbPutHeightIndex r h hs).
Proof.
  intros Hh [T1 T2 T3 T4]. split; [done| |done..]. cbn. apply map_Forall_insert_2; [|done]. by split.
Qed.

Lemma put_guarded_typed r hs h b : length hs = 32%nat → rows_typed r → rows_typed (ChainIO.dbPutHeightIndexGuarded r h hs b).
Proof.
  intros Hh T. unfold ChainIO.dbPutHeightIndexGuarded. destruct b; cbn [negb]; [by apply put_height_typed|].
  destruct (ChainIO.dbFetchHashByHeight r h); [done|by apply put_height_typed].
Qed.

#[local] Hint Resolve put_hash_typed put_height_typed put_guarded_typed : core.

Lemma dbStoreBlockNode_eq r nd : ChainIO.dbStoreBlockNode r nd = Done (set_blockIndex
  (<[ChainIO.blockIndexKey (BlockNode.hash nd) (u32 (BlockNode.height nd)) := ChainIO.rowOf nd]> (blockIndexBucket r)) r).
Proof. unfold ChainIO.dbStoreBlockNode. by rewrite Wire.emits_header. Qed.

Lemma nodeRow_typed r row r' : row_widths row → rows_typed r → BlockIndex.writeNodeRowSnapshot r row = Done r' → rows_typed r'.
Proof.
  intros (H1&H2&H3) [T1 T2 T3 T4]. unfold BlockIndex.writeNodeRowSnapshot. rewrite dbStoreBlockNode_eq. cbn [mbind run_bind].
  set (x := set_blockIndex _ r). assert (rows_typed x) as T'.
  { split; [done|done| |done]. cbn [x blockIndexBucket set_blockIndex].
    apply map_Forall_insert_2; [|done]. left. split; [apply length_blockIndexKey|]. unfold ChainIO.rowOf.
    rewrite length_app. by rewrite length_header. }
  destruct (BlockIndex.hashIndex row), (BlockIndex.heightIndex row); intros [= <-]; eauto.
Qed.

Lemma nodeRows_typed r rows r' : Forall row_widths rows → rows_typed r → BlockIndex.writeNodeRows r rows = Done r' → rows_typed r'.
Proof.
  intros Hw. revert r. induction Hw as [|row rows H1 _ IH]; intros r T; cbn [BlockIndex.writeNodeRows].
  - by intros [= <-].
  - intros [r1 [E1 E2]]%run_bind_Done. eapply IH; [|exact E2]. by eapply nodeRow_typed.
Qed.

Lemma meta_typed r k v : k ≠ utxoStateConsistencyKeyName → rows_typed r → rows_typed (set_meta (<[k := v]> (meta r)) r).
Proof.
  intros Hk [T1 T2 T3 T4]. split; [done..|]. intros w. unfold dbFetchUtxoStateConsistency. cbn.
  rewrite lookup_insert_ne by done. apply T4.
Qed.

Lemma tipSnapshot_typed r hs h w r' : rows_typed r → dbPutBestTipSnapshot r hs h w = Done r' → rows_typed r'.
Proof.
  intros [T1 T2 T3 T4]. unfold dbPutBestTipSnapshot. set (raw := take 32 _ ++ _). set (wb := ChainIO.bigBytes w).
  assert (length raw = 68%nat) as Hr.
  { unfold raw. rewrite length_app, length_gocopy, length_drop, length_take, length_app, length_gocopy. done. }
  intros [tl [E1 [= <-]]]%run_bind_Done. split; [done|done| |done]. cbn [blockIndexBucket set_blockIndex].
  apply map_Forall_insert_2; [|done]. right. split; [done|]. unfold slice in E1. case_decide as Hc; [|done].
  injection E1 as <-. rewrite length_app, length_gocopy, !length_take, ?length_drop, Hr. unfold zlen in *. lia.
Qed.

Lemma chainRows_typed r it r' : item_widths it → rows_typed r → writeChainRows r it = Done r' → rows_typed r'.
Proof.
  intros (H1&H2&H3) T. destruct marker_keys as [K1 K2]. unfold writeChainRows.
  intros [x [E1 E]]%run_bind_Done. apply nodeRows_typed in E1; [|done..].
  set (y := if 0 <=? _ then _ else _) in E.
  assert (rows_typed y) as Ty by (unfold y; case_match; [by apply meta_typed|done]).
  apply run_bind_Done in E as [z [E2 E]]. apply tipSnapshot_typed in E2; [|done].
  unfold putBestState in E. destruct (bestState it) as [st|]; [|done]. injection E as <-.
  apply (put_height_typed _ (blockHash it) (height it)); [done|]. apply (put_hash_typed _ (blockHash it) (height it)); [done|].
  by apply meta_typed.
Qed.

Lemma getUint32_ok b : length b = 4%nat → ChainIO.getUint32 b = Done (le_val b).
Proof.
  intros Hb. unfold ChainIO.getUint32. pose proof (ChainIO.slice_head b [] 4) as Es. rewrite app_nil_r in Es.
  by rewrite Es by (unfold zlen; lia).
Qed.

Lemma fetchRow_typed r hs : map_Forall (wide 32 4) (ChainIO.hashIndexBucket r) →
  map_Forall (fun k v => wide 36 81 k v ∨ (k = bestTipSnapshotKey ∧ length v = 68%nat)) (blockIndexBucket r) →
  ∃ x, ChainIO.dbFetchBlockRowByHash r hs = Done x ∧ ∀ e, x ≠ inr (ChainIO.errRead e).
Proof.
  intros T1 T3. unfold ChainIO.dbFetchBlockRowByHash, ChainIO.dbFetchHeightByHash.
  destruct (ChainIO.hashIndexBucket r !! hs) as [b|] eqn:Eb; [|by eexists].
  destruct (T1 _ _ Eb) as [_ Hb]. rewrite getUint32_ok by done. cbn [mbind run_bind].
  destruct (blockIndexBucket r !! _) as [row|] eqn:Er; [|by eexists].
  destruct (T3 _ _ Er) as [[_ Hl]|[Hk _]].
  - unfold ChainIO.deserializeBlockRow. pose proof (Wire.fixed_header row) as F. rewrite decide_True in F.
    2: { unfold Wire.blockHeaderLen, zlen. lia. }
    destruct F as [hd ->]. cbn [mbind run_bind]. destruct (drop _ row) as [|s l] eqn:Ed; [|by eexists].
    apply (f_equal length) in Ed. rewrite length_drop in Ed. unfold Wire.blockHeaderLen in Ed. cbn in Ed. lia.
  - apply (f_equal length) in Hk. rewrite length_blockIndexKey in Hk. vm_compute in Hk. discriminate Hk.
Qed.

Lemma watermark_typed d : (∀ b v, writewatermark d = Some b → b !! heightKey = Some v → length v = 4%nat) →
  ∃ w, loadWriteWatermark d = Done w.
Proof.
  intros T. unfold loadWriteWatermark. destruct (writewatermark d) as [b|] eqn:Eb; [|by eexists].
  destruct (b !! heightKey) as [v|] eqn:Ev; [|by eexists]. rewrite getUint32_ok by eauto. by eexists.
Qed.

Lemma slice_ok {A} (l : list A) lo hi : 0 ≤ lo ≤ hi ∧ hi ≤ zlen l → ∃ w, slice l lo hi = Done w ∧ zlen w = hi - lo.
Proof.
  intros Hb. unfold slice. rewrite decide_True by lia. eexists. split; [done|]. unfold zlen in *.
  rewrite length_take, length_drop. lia.
Qed.

Lemma snapshot_typed r : map_Forall (fun k v => wide 36 81 k v ∨ (k = bestTipSnapshotKey ∧ length v = 68%nat)) (blockIndexBucket r) →
  ∃ s, dbFetchBestTipSnapshot r = Done s ∧ (is_Some (blockIndexBucket r !! bestTipSnapshotKey) → is_Some s).
Proof.
  intros T. unfold dbFetchBestTipSnapshot. destruct (blockIndexBucket r !! bestTipSnapshotKey) as [raw|] eqn:Er.
  2: { eexists. split; [done|]. by intros [? ?]. }
  assert (length raw = 68%nat) as Hl.
  { destruct (T _ _ Er) as [[Hk _]|[_ Hl]]; [|done]. vm_compute in Hk. discriminate Hk. }
  assert (zlen raw = 68) as Hz by (unfold zlen; lia). rewrite Hz. cbn [negb Z.eqb]. change (68 =? 32 + 4 + 32) with true. cbn [negb].
  destruct (slice_ok raw 0 32 ltac:(lia)) as (a&->&_). cbn [mbind run_bind].
  destruct (slice_ok raw 32 36 ltac:(lia)) as (b&->&Hb). cbn [mbind run_bind].
  rewrite getUint32_ok by (unfold zlen in Hb; lia). cbn [mbind run_bind].
  destruct (slice_ok raw 36 68 ltac:(lia)) as (c&->&_). cbn [mbind run_bind]. eauto.
Qed.

Section types.
Context `{!Compress.SecKeys} (indexManager : option IndexManager).

Lemma flush_typed d it d' : item_widths it → disk_typed d → flushBatch indexManager true d [it] = Done (d', true) → disk_typed d'.
Proof.
  intros Hi [T _] E. destruct (flush_rows _ _ _ _ E) as (x&st&b&Es&E1&Ec&Ew). apply chainRows_typed in E1; [|done..]. split.
  - rewrite Ec. destruct E1 as [T1 T2 T3 T4]. split; [done..|]. intros v. unfold dbFetchUtxoStateConsistency. cbn.
    rewrite lookup_insert_eq. intros [= <-]. by apply Hi.
  - rewrite Ew. intros b' v [= <-]. rewrite lookup_insert_eq. by intros [= <-].
Qed.

Lemma syncWrite_typed d l d' : Forall item_widths l → disk_typed d → syncWrite indexManager d l = Done (d', true) → disk_typed d'.
Proof.
  intros Hl. revert d. induction Hl as [|it l Hi _ IH]; intros d T; cbn [syncWrite]; [by intros [= <-]|].
  intros [[d1 []] [E1 E2]]%run_bind_Done; [|done]. eapply IH; [|exact E2]. by eapply flush_typed.
Qed.

(** C26 (type).  The rows keep their types: starting from a database whose hash index
    maps 32 to 4 bytes, whose height index maps 4 to 32 bytes and whose block index
    holds rows of 81 bytes under 36-byte keys next to the 68-byte tip snapshot, every
    database the queue can leave is again of that form, for items whose hashes have
    32 bytes.  So the readers of the index never slice out of range and never run
    into the end of a row: each fetch of a block row and of the watermark returns,
    and a stored tip snapshot always reads back. *)
Theorem rows_stay_typed (d : disk) (q : queue) :
  disk_typed d → reachable indexManager d q → Forall item_widths (accepted q) →
  disk_typed (db q) ∧
  (∀ hs, length hs = 32%nat →
     ∃ r, ChainIO.dbFetchBlockRowByHash (chainRows (db q)) hs = Done r ∧ ∀ e, r ≠ inr (ChainIO.errRead e)) ∧
  (∃ w, loadWriteWatermark (db q) = Done w) ∧
  (∃ s, dbFetchBestTipSnapshot (chainRows (db q)) = Done s ∧
     (is_Some (blockIndexBucket (chainRows (db q)) !! bestTipSnapshotKey) → is_Some s)).
Proof.
  intros T Hr Ha. assert (disk_typed (db q)) as Tq.
  { eapply syncWrite_typed; [|done|by eapply reachable_sync]. apply Forall_forall. intros it Hit.
    rewrite Forall_forall in Ha. apply Ha. rewrite (inv_conserve _ (reachable_inv _ _ _ Hr)). apply elem_of_app. left.
    by apply written_flushes. }
  split; [done|]. destruct Tq as [[T1 T2 T3 T4] Tw]. split_and!.
  - intros hs Hh. by apply fetchRow_typed.
  - by apply watermark_typed.
  - by apply snapshot_typed.
Qed.

End types.

(** ** Every call can return *)

Definition delta_ok `{!Compress.SecKeys} (x : UtxoCache.utxoDelta) : Prop :=
  UtxoSet.op_wf (UtxoCache.op x) ∧ ∀ e, UtxoCache.entry x = Some e → UtxoSet.entry_ok e.

(** What a connected block can produce *)
Definition item_wf `{!Compress.SecKeys} (it : writeItem) : Prop :=
  (∃ st, item_ok it st) ∧ Forall UtxoSet.stxo_ok (stxos it) ∧ Forall delta_ok (deltas it).

Section returning.
Context {K : Compress.SecKeys} {Kok : Compress.SecKeysOk K} (indexManager : option IndexManager).
Context (index_total : ∀ im, indexManager = Some im → ∀ b l ix, ∃ r, im b l ix = Done r).

Lemma deltas_total b l : Forall delta_ok l → ∃ r, UtxoCache.writeItemDeltas b l = Done r.
Proof.
  intros Hl. revert b. induction Hl as [|x l [Hw He] _ IH]; intros b; cbn [UtxoCache.writeItemDeltas]; [by eexists|].
  assert (∃ r, (match UtxoCache.tombstone x, UtxoCache.entry x with
     | false, Some e => UtxoSet.dbPutUtxoEntry b (UtxoCache.op x) (Some e)
     | _, _ => b ← UtxoSet.dbDeleteUtxoEntry b (UtxoCache.op x); Done (inl b) end) = Done r) as [r ->].
  { destruct (UtxoCache.tombstone x), (UtxoCache.entry x) as [e|]; rewrite ?UtxoSet.delete_spec by done; try (by eexists).
    destruct (UtxoSet.IsSpent e) eqn:Es; [cbn; rewrite Es; by eexists|]. rewrite UtxoSet.put_spec by auto. by eexists. }
  cbn [mbind run_bind]. destruct r as [b'|e]; [apply IH|by eexists].
Qed.

Lemma nodeRows_total r rows : ∃ x, BlockIndex.writeNodeRows r rows = Done x.
Proof.
  revert r. induction rows as [|row rows IH]; intros r; cbn [BlockIndex.writeNodeRows]; [by eexists|].
  unfold BlockIndex.writeNodeRowSnapshot. rewrite dbStoreBlockNode_eq. cbn [mbind run_bind].
  destruct (BlockIndex.heightIndex row); cbn [mbind run_bind]; apply IH.
Qed.

Lemma item_total d it : item_wf it → ∃ r, writeItemRows indexManager d it = Done r.
Proof.
  intros ([st [Es Hh Hg Ht Hw [E1 E2] [E3 E4]]]&Hs&_). unfold writeItemRows, writeChainRows.
  destruct (nodeRows_total (chainRows d) (nodeRows it)) as [x ->]. cbn [mbind run_bind].
  rewrite E2, E4, dbPutBestTipSnapshot_eq by done. cbn [mbind run_bind]. rewrite Es. cbn [mbind run_bind putBestState].
  unfold UtxoSet.dbPutSpendJournalEntry. rewrite UtxoSet.serializeJournal_spec by done. cbn [mbind run_bind].
  destruct indexManager as [im|], (block it) as [blk|]; try (by eexists).
  match goal with |- context [im blk ?l ?ix] => destruct (index_total im eq_refl blk l ix) as [[?|?] ->] end; by eexists.
Qed.

Lemma flush_total c d b : Forall item_wf b → ∃ r, flushBatch indexManager c d b = Done r.
Proof.
  intros Hb. unfold flushBatch, mergeBatch. destruct (last b) as [it|]; [|by eexists].
  assert (∃ r, mergeItems indexManager d b = Done r) as [[d'|e] ->]; [|by eexists..].
  revert d. induction Hb as [|x l Hx _ IH]; intros d; cbn [mergeItems]; [by eexists|].
  destruct (item_total d x Hx) as [[d1|e] ->]; cbn [mbind run_bind]; [|by eexists].
  unfold writeItemDeltas. destruct (deltas_total (utxoRows d1) (deltas x)) as [[b'|e] ->]; [apply Hx|..]; cbn [mbind run_bind]; [apply IH|by eexists].
Qed.

(** What the moves of the writer leave alone *)
Definition same_callers (q q' : queue) : Prop :=
  holder q' = holder q ∧ stopper q' = stopper q ∧ stopped q' = stopped q ∧ stopCh q' = stopCh q ∧ accepted q' = accepted q.

Lemma same_trans x y z : same_callers x y → same_callers y z → same_callers x z.
Proof. intros (H1&H2&H3&H4&H5) (G1&G2&G3&G4&G5). unfold same_callers. split_and!; congruence. Qed.

Lemma inflight_wf q : queue_inv q → Forall item_wf (accepted q) →
  Forall item_wf (inflight (writer q)) ∧ Forall item_wf (stopTail (stopper q)) ∧ Forall item_wf (items q).
Proof.
  intros I Ha. rewrite (inv_conserve _ I) in Ha. unfold pending in Ha. rewrite !Forall_app in Ha. tauto.
Qed.

Lemma drain_run (P : writeItem → Prop) q m t : writer q = WSyncDrain m t → Forall P t → Forall P (items q) →
  ∃ q' t', rtc (step indexManager) q q' ∧ writer q' = WSyncTail t' ∧ Forall P t' ∧ same_callers q q'.
Proof.
  remember (items q) as l eqn:El. revert q t El. induction l as [|it l IH]; intros q t El Hw Ht Hl; symmetry in El.
  - exists (set_writer (WSyncTail t) q), t. split; [apply rtc_once; by eapply step_drained|]. done.
  - apply Forall_cons in Hl as [Hx Hl]. pose proof (step_drain indexManager q m t it l Hw El) as Hs. destruct (kept m it).
    + destruct (IH (set_writer (WSyncDrain m (t ++ [it])) (set_items l q)) (t ++ [it])) as (q'&t'&Hr&H1&H2&H3); [done|done| |done|].
      { apply Forall_app. eauto. }
      exists q', t'. split; [by eapply rtc_l|]. done.
    + destruct (IH (drop_items [it] (set_items l q)) t) as (q'&t'&Hr&H1&H2&H3); [done..|].
      exists q', t'. split; [by eapply rtc_l|]. done.
Qed.

(** The writer can always come back to its select, acknowledging the barrier it serves. *)
Lemma writer_returns d q : reachable indexManager d q → Forall item_wf (accepted q) → exiting (writer q) = false →
  ∃ q' b, rtc (step indexManager) q q' ∧ writer q' = WSelect b ∧ same_callers q q' ∧ (syncing (writer q) = true → done q' = true).
Proof.
  intros Hr Ha He. destruct (inflight_wf q (reachable_inv _ _ _ Hr) Ha) as (Hb&_&Hi).
  assert (∀ x t, writer x = WSyncTail t → Forall item_wf t →
    ∃ q' b, rtc (step indexManager) x q' ∧ writer q' = WSelect b ∧ same_callers x q' ∧ done q' = true) as Htail.
  { intros x t Ew Ht. destruct (flush_total true (db x) t Ht) as [r Er].
    eexists _, []. split; [eapply rtc_l; [by eapply step_tail|]; apply rtc_once; by apply step_ack|]. done. }
  assert (∀ x m t, writer x = WSyncDrain m t → Forall item_wf t → Forall item_wf (items x) →
    ∃ q' b, rtc (step indexManager) x q' ∧ writer q' = WSelect b ∧ same_callers x q' ∧ done q' = true) as Hdrain.
  { intros x m t Ew Ht Hx. destruct (drain_run item_wf x m t Ew Ht Hx) as (x1&t'&R1&W1&F1&S1).
    destruct (Htail x1 t' W1 F1) as (x2&b&R2&W2&S2&D2). exists x2, b. split; [by etransitivity|]. split; [done|].
    split; [by eapply same_trans|done]. }
  destruct (writer q) as [b|b|m k|m t|t| |b|] eqn:Ew; cbn in *; try done.
  - exists q, b. split; [done|]. done.
  - destruct (flush_total true (db q) b Hb) as [r Er]. eexists _, []. split; [apply rtc_once; by eapply step_flush|]. done.
  - destruct (flush_total true (db q) k Hb) as [r Er].
    edestruct (Hdrain (flushed k r (set_writer (WSyncDrain m []) q)) m []) as (q'&b&H1&H2&H3&H4); [done..|].
    exists q', b. split; [eapply rtc_l; [by eapply step_keep|done]|]. done.
  - edestruct (Hdrain q m t) as (q'&b&H1&H2&H3&H4); [done..|]. eauto 8.
  - edestruct (Htail q t) as (q'&b&H1&H2&H3&H4); [done..|]. eauto 8.
  - eexists _, []. split; [apply rtc_once; by apply step_ack|]. done.
Qed.

Lemma holder_returns d q : reachable indexManager d q → Forall item_wf (accepted q) →
  ∃ q', rtc (step indexManager) q q' ∧ holder q' = CIdle.
Proof.
  intros Hr Ha. pose proof (reachable_inv _ _ _ Hr) as I.
  destruct (stopCh q) eqn:Ec.
  { destruct (holder q) as [|it|m|] eqn:Eh; [by exists q|..]; (eexists; split; [apply rtc_once|]);
      [by eapply step_send_stopped|done|by eapply step_sync_stopped|done|by eapply step_wait_stopped|done]. }
  assert (exiting (writer q) = false) as He.
  { destruct (exiting (writer q)) eqn:E; [|done]. by rewrite (inv_exit _ I E) in Ec. }
  destruct (writer_returns d q Hr Ha He) as (q1&b&R1&W1&(S1&S2&S3&S4&S5)&D1).
  assert (reachable indexManager d q1) as Hr1 by (unfold reachable in *; by etransitivity).
  pose proof (reachable_inv _ _ _ Hr1) as I1. destruct (holder q) as [|it|m|] eqn:Eh; [by exists q|..].
  - destruct (Z.ltb_spec (zlen (items q1)) writeQueueCap) as [Hl|Hl].
    { eexists. split; [eapply rtc_r; [exact R1|by apply (step_send indexManager q1 it)]|]. done. }
    destruct (items q1) as [|x l] eqn:Ei; [done|]. pose proof (step_receive indexManager q1 b x l W1 Ei) as Hs. cbv zeta in Hs.
    set (q2 := set_writer _ _) in Hs. eexists. split; [eapply rtc_r; [eapply rtc_r; [exact R1|exact Hs]|]|].
    + apply (step_send indexManager q2 it); [done|]. pose proof (inv_cap _ I1) as Hcap. rewrite Ei, zlen_cons in Hcap. cbn. lia.
    + done.
  - pose proof (step_request indexManager q1 m b S1 W1) as Hs. set (q2 := drop_items _ _) in Hs.
    assert (reachable indexManager d q2) as Hr2 by (unfold reachable in *; by eapply rtc_r).
    destruct (writer_returns d q2 Hr2) as (q3&b'&R3&W3&(T1&_)&D3); [by subst q2; cbn; rewrite S5|done|].
    exists (set_holder CIdle q3). split; [|done]. etransitivity; [exact R1|]. eapply rtc_l; [exact Hs|].
    eapply rtc_r; [exact R3|]. apply step_acked; [by rewrite T1|by apply D3].
  - destruct (done q) eqn:Ed.
    { exists (set_holder CIdle q). split; [apply rtc_once; by apply step_acked|done]. }
    exists (set_holder CIdle q1). split; [|done]. eapply rtc_r; [exact R1|]. apply step_acked; [done|].
    apply D1. by apply (inv_wait _ I).
Qed.

Lemma stopper_drains q t : stopper q = SDrain t → Forall item_wf t → Forall item_wf (items q) →
  ∃ q', rtc (step indexManager) q q' ∧ stopper q' = SWait ∧ writer q' = writer q ∧ accepted q' = accepted q ∧ stopCh q' = stopCh q.
Proof.
  remember (items q) as l eqn:El. revert q t El. induction l as [|it l IH]; intros q t El Hw Ht Hl; symmetry in El.
  - destruct (flush_total true (db q) t Ht) as [r Er].
    exists (flushed t r (set_stopper SWait (set_stopper (SFlush t) q))). split; [|done].
    eapply rtc_l; [by eapply step_taken|]. apply rtc_once. by apply (step_stop_flush _ _ t true).
  - apply Forall_cons in Hl as [Hx Hl]. pose proof (step_take indexManager q t it l Hw El) as Hs.
    destruct (IH (set_stopper (SDrain (t ++ [it])) (set_items l q)) (t ++ [it])) as (q'&Hr&H1&H2&H3&H4); [done|done| |done|].
    { apply Forall_app. eauto. }
    exists q'. split; [by eapply rtc_l|]. done.
Qed.

Lemma stopper_waits d q : reachable indexManager d q → Forall item_wf (accepted q) → stopper q ≠ SIdle →
  ∃ q', rtc (step indexManager) q q' ∧ (stopper q' = SWait ∨ stopper q' = SDone) ∧ accepted q' = accepted q.
Proof.
  intros Hr Ha Hn. destruct (inflight_wf q (reachable_inv _ _ _ Hr) Ha) as (_&Ht&Hi).
  destruct (stopper q) as [| |t|t| |] eqn:Es; cbn in Ht; [done|..].
  - destruct (stopper_drains (set_stop (stopped q) true (SDrain []) q) []) as (q'&R&S&_&A&_); [done..|].
    exists q'. split; [|by auto]. eapply rtc_l; [by apply step_close|done].
  - destruct (stopper_drains q t) as (q'&R&S&_&A&_); [done..|]. eauto.
  - destruct (flush_total true (db q) t Ht) as [r Er]. eexists. split; [apply rtc_once; by eapply step_stop_flush|]. by auto.
  - exists q. split; [done|]. by auto.
  - exists q. split; [done|]. by auto.
Qed.

(** C25 (liveness).  Nobody is blocked for good: from every state the goroutines can
    reach with items as [connectBlock] builds them, some continuation completes the
    call of the holder of the chain lock, be it an [enqueue] on a full channel or
    a barrier, whether or not the queue is being stopped; and once [stop] was called
    some continuation makes it return. *)
Theorem calls_return (d : disk) (q : queue) :
  reachable indexManager d q → Forall item_wf (accepted q) →
  (∃ q', rtc (step indexManager) q q' ∧ holder q' = CIdle) ∧
  (stopper q ≠ SIdle → ∃ q', rtc (step indexManager) q q' ∧ stopper q' = SDone).
Proof.
  intros Hr Ha. split; [by eapply holder_returns|]. intros Hn.
  destruct (stopper_waits d q Hr Ha Hn) as (q1&R1&[S1|S1]&A1); [|by eauto].
  assert (reachable indexManager d q1) as Hr1 by (unfold reachable in *; by etransitivity).
  pose proof (reachable_inv _ _ _ Hr1) as I1. rewrite <-A1 in Ha.
  assert (stopCh q1 = true) as Hc by (by rewrite (inv_stopCh _ I1), S1).
  assert (∃ q2, rtc (step indexManager) q1 q2 ∧ writer q2 = WExited ∧ stopper q2 = SWait) as (q2&R2&W2&S2).
  { destruct (exiting (writer q1)) eqn:He.
    - destruct (inflight_wf q1 I1 Ha) as (Hb&_&_). destruct (writer q1) as [| | | | | |b|] eqn:Ew; try done; cbn in Hb; [|by exists q1].
      destruct (flush_total true (db q1) b Hb) as [r Er].
      exists (flushed b r (set_writer WExited q1)). split; [apply rtc_once; by eapply step_exit|done].
    - destruct (writer_returns d q1 Hr1 Ha He) as (q3&b&R3&W3&(_&T2&_&T4&T5)&_).
      assert (reachable indexManager d q3) as Hr3 by (unfold reachable in *; by etransitivity).
      rewrite <-T5 in Ha. destruct (inflight_wf q3 (reachable_inv _ _ _ Hr3) Ha) as (Hb&_&_). rewrite W3 in Hb. cbn in Hb.
      destruct (flush_total true (db q3) b Hb) as [r Er].
      exists (flushed b r (set_writer WExited (set_writer (WStop b) q3))). split; [|by cbn; rewrite T2, S1].
      eapply rtc_r; [eapply rtc_r; [exact R3|apply step_see_stop; [done|by rewrite T4]]|]. by apply (step_exit _ _ b true). }
  exists (set_stopper SDone q2). split; [|done]. etransitivity; [exact R1|]. eapply rtc_r; [exact R2|]. by apply step_stop_done.
Qed.

End returning.

End WriteQueue.
