(* ===== verification/QueueRuns.v ===== *)
(** * QueueRuns: runs of the write queue

    An executable scheduler for the goroutines of [WriteQueue], and concrete runs: what
    a stop that races with the writer, a late [enqueue] and a failed commit leave on
    disk.  The runs also serve as the concrete inputs of the theorems on the queue. *)

From S2P Require Import Prelude WorkMath Compress ChainHash Wire BlockNode ChainIO BlockIndex Script UtxoSet UtxoCache UtxoView WriteQueue.

Module QueueRuns.
Import WriteQueue.
Import ChainIO (blockIndexBucket).

(** ** A scheduler

    The steps as a function of the scheduler's choice, to run the machine *)

Inductive event :=
  | Enqueue (item : writeItem) | Send | SendStopped | Sync (maxHeight : Z) | SyncStopped | Request | Acked | WaitStopped
  | Receive | SeeStop | Write (commits : bool) | Stop (commits : bool).

Section scheduler.
Context `{!Compress.SecKeys} (indexManager : option IndexManager).

Definition flushWith (commits : bool) (b : list writeItem) (w : queue → queue) (q : queue) : option queue :=
  match flushBatch indexManager commits (db q) b with
  | Done r => Some (flushed b r (w q))
  | _ => None
  end.

Definition exec (e : event) (q : queue) : option queue :=
  match e with
  | Enqueue item =>
      match holder q, stopped q with CIdle, false => Some (set_holder (CEnqueue item) q) | CIdle, true => Some q | _, _ => None end
  | Send =>
      match holder q with
      | CEnqueue item => if zlen (items q) <? writeQueueCap then Some (accept item q) else None
      | _ => None
      end
  | SendStopped => match holder q, stopCh q with CEnqueue _, true => Some (set_holder CIdle q) | _, _ => None end
  | Sync m => match holder q with CIdle => Some (set_holder (CSync m) q) | _ => None end
  | SyncStopped => match holder q, stopCh q with CSync _, true => Some (set_holder CIdle q) | _, _ => None end
  | Request =>
      match holder q, writer q with
      | CSync m, WSelect batch =>
          Some (drop_items (filter (fun it => negb (kept m it)) batch)
                 (set_done false (set_holder CWait (set_writer (WSyncKeep m (filter (kept m) batch)) q))))
      | _, _ => None
      end
  | Acked => match holder q, done q with CWait, true => Some (set_holder CIdle q) | _, _ => None end
  | WaitStopped => match holder q, stopCh q with CWait, true => Some (set_holder CIdle q) | _, _ => None end
  | Receive =>
      match writer q, items q with
      | WSelect batch, item :: rest =>
          let batch := batch ++ [item] in
          Some (set_writer (if writeQueueBatchSize <=? zlen batch then WFlush batch else WSelect batch) (set_items rest q))
      | _, _ => None
      end
  | SeeStop => match writer q, stopCh q with WSelect batch, true => Some (set_writer (WStop batch) q) | _, _ => None end
  | Write c =>
      match writer q with
      | WFlush batch => flushWith c batch (set_writer (WSelect [])) q
      | WSyncKeep m keep => flushWith c keep (set_writer (WSyncDrain m [])) q
      | WSyncDrain m tail =>
          match items q with
          | item :: rest =>
              Some (if kept m item then set_writer (WSyncDrain m (tail ++ [item])) (set_items rest q)
                    else drop_items [item] (set_items rest q))
          | [] => Some (set_writer (WSyncTail tail) q)
          end
      | WSyncTail tail => flushWith c tail (set_writer WAck) q
      | WAck => Some (set_done true (set_writer (WSelect []) q))
      | WStop batch => flushWith c batch (set_writer WExited) q
      | WSelect _ | WExited => None
      end
  | Stop c =>
      match stopper q with
      | SIdle => Some (set_stop true (stopCh q) SFlagged q)
      | SFlagged => Some (set_stop (stopped q) true (SDrain []) q)
      | SDrain tail =>
          match items q with
          | item :: rest => Some (set_stopper (SDrain (tail ++ [item])) (set_items rest q))
          | [] => Some (set_stopper (SFlush tail) q)
          end
      | SFlush tail => flushWith c tail (set_stopper SWait) q
      | SWait => match writer q with WExited => Some (set_stopper SDone q) | _ => None end
      | SDone => None
      end
  end.

Fixpoint execAll (es : list event) (q : queue) : option queue :=
  match es with
  | [] => Some q
  | e :: es => match exec e q with Some q => execAll es q | None => None end
  end.

Lemma exec_step e q q' : exec e q = Some q' → step indexManager q q'.
Proof.
  unfold exec, flushWith. destruct e; repeat case_match; intros [= <-]; simplify_eq.
  all: try solve [econstructor; first [eassumption | by apply Z.ltb_lt]].
  all: match goal with
    | Hw : writer ?x = WSelect _, Hi : items ?x = _ |- _ => pose proof (step_receive indexManager x _ _ _ Hw Hi) as Hs
    | Hw : writer ?x = WSyncDrain _ _, Hi : items ?x = _ |- _ => pose proof (step_drain indexManager x _ _ _ _ Hw Hi) as Hs
    end; cbn in Hs; repeat match goal with E : ?b = ?c |- _ => progress rewrite E in Hs end; exact Hs.
Qed.

Lemma execAll_run es q q' : execAll es q = Some q' → rtc (step indexManager) q q'.
Proof.
  revert q. induction es as [|e es IH]; intros q; cbn; [by intros [= ->]|].
  destruct (exec e q) as [q1|] eqn:E; [|done]. intros Hr. eapply rtc_l; [by eapply exec_step|auto].
Qed.

End scheduler.

(** ** Runs *)

#[local] Existing Instance Compress.toyKeys.
#[local] Existing Instance Compress.toyKeysOk.

Definition toyBest (h : Z) : BestState :=
  {| Hash := BlockNode.toyHash h; Height := h; Bits := 0; BlockSize := 200; BlockWeight := 800; NumTxns := 1; TotalTxns := h + 1;
     MedianTime := 0 |}.

Definition toyItem (h : Z) (l : list UtxoCache.utxoDelta) : writeItem :=
  {| height := h; block := None; nodeRows := []; bestTipHash := BlockNode.toyHash h; tipHeight := h; tipWork := 100 * h;
     bestState := Some (toyBest h); blockHash := BlockNode.toyHash h; stxos := []; bestHeaderHash := BlockNode.toyHash h;
     bestHeaderHeight := h; deltas := l |}.

(** Block 1 creates a coin and block 2 spends it. *)
Definition createItem : writeItem :=
  toyItem 1 [{| UtxoCache.op := UtxoSet.toyOp 7; UtxoCache.tombstone := false; UtxoCache.entry := Some (UtxoSet.toyEntry 1) |}].
Definition spendItem : writeItem :=
  toyItem 2 [{| UtxoCache.op := UtxoSet.toyOp 7; UtxoCache.tombstone := true; UtxoCache.entry := None |}].

Definition runOf (es : list event) : queue :=
  default (newWriteQueue emptyDisk) (execAll None es (newWriteQueue emptyDisk)).

Definition runs (es : list event) : bool :=
  match execAll None es (newWriteQueue emptyDisk) with Some _ => true | None => false end.

Lemma runOf_reachable es : runs es = true → reachable None emptyDisk (runOf es).
Proof.
  unfold runs, runOf. destruct (execAll None es (newWriteQueue emptyDisk)) as [q|] eqn:E; [|done]. intros _.
  by eapply execAll_run.
Qed.

Lemma execAll_app es es' q : execAll None (es ++ es') q = execAll None es q ≫= execAll None es'.
Proof. revert q. induction es as [|e es IH]; intros q; [done|]. cbn. by destruct (exec None e q). Qed.

Lemma runOf_app es es' : runs (es ++ es') = true → rtc (step None) (runOf es) (runOf (es ++ es')).
Proof.
  unfold runs, runOf. rewrite execAll_app. destruct (execAll None es (newWriteQueue emptyDisk)) as [q|]; [|done]. cbn.
  destruct (execAll None es' q) as [q'|] eqn:E; [|done]. intros _. by eapply execAll_run.
Qed.

Lemma toyItem_ok h l : 0 ≤ h < 2 ^ 31 → item_ok (toyItem h l) (toyBest h).
Proof.
  intros Hh. split; cbn [bestState toyItem toyBest Hash Height TotalTxns tipWork blockHash bestTipHash height tipHeight]; try done; zlia.
Qed.

(** Two blocks, the first taken by the writer, the second still queued, when [stop]
    runs: the stopper flushes the second before the writer flushes the first. *)
Definition flaggedEvents : list event := [Enqueue createItem; Send; Receive; Enqueue spendItem; Send; Stop true].
Definition raceEvents : list event :=
  flaggedEvents ++ [Stop true; Stop true; Stop true; Stop true; SeeStop; Write true; Stop true].

(** The same blocks with a barrier before [stop] *)
Definition barrierEvents : list event :=
  [Enqueue createItem; Send; Receive; Enqueue spendItem; Send; Sync (-1); Request; Write true; Write true; Write true;
   Write true; Write true].

Definition coinRow (d : disk) : run (option UtxoSet.UtxoEntry + UtxoSet.storeError) :=
  UtxoSet.dbFetchUtxoEntry (utxoRows d) (UtxoSet.toyOp 7).

Ltac tip_compute := split; [vm_compute; reflexivity|vm_compute; reflexivity|eexists; split; [vm_compute; reflexivity|vm_compute; reflexivity]|
  vm_compute; reflexivity..].

(** C27 (safety).  [stop] can undo committed work.  It drains the channel and flushes
    what it finds while the writer may still hold an older batch, and waits for the
    writer only afterwards.  In this run both flushes commit, the younger block
    first: when [stop] has returned, the watermark, the marker and the chain state
    are those of block 1 although block 2 was committed, and the coin that block 2
    spent is back in the UTXO set.  With a barrier before it the same two blocks are
    written in order. *)
Theorem stop_reorders :
  ∃ q q', reachable None emptyDisk q ∧ reachable None emptyDisk q' ∧
    stopper q = SDone ∧ accepted q = [createItem; spendItem] ∧ written (log q) = [spendItem; createItem] ∧
    tip_at (db q) (toyBest 1) 100 ∧ (∃ e, coinRow (db q) = Done (inl (Some e)) ∧ UtxoSet.IsSpent e = false) ∧
    holder q' = CWait ∧ done q' = true ∧ accepted q' = accepted q ∧ 
    tip_at (db q') (toyBest 2) 200 ∧ coinRow (db q') = Done (inl None).
Proof.
  exists (runOf raceEvents), (runOf barrierEvents).
  split; [by apply runOf_reachable; vm_compute|]. split; [by apply runOf_reachable; vm_compute|].
  do 3 (split; [vm_compute; reflexivity|]). split; [tip_compute|].
  split; [eexists; split; [vm_compute; reflexivity|vm_compute; reflexivity]|]. do 3 (split; [vm_compute; reflexivity|]).
  split; [tip_compute|vm_compute; reflexivity].
Qed.

(** The check of [enqueue] passes, then the queue is stopped, then the send succeeds. *)
Definition lateEvents : list event :=
  [Enqueue createItem; Stop true; Stop true; Stop true; Stop true; SeeStop; Write true; Stop true; Send].

(** [enqueue] can report success for an item that is never written: the
    flag is checked before the send, and the send on the buffered channel can
    succeed after [stop] has drained it.  In this run the queue is stopped and its
    writer gone, the database is untouched, and the accepted item stays in the
    channel for good: it is never flushed in any continuation. *)
Theorem late_enqueue_lost :
  ∃ q, reachable None emptyDisk q ∧ stopper q = SDone ∧ accepted q = [createItem] ∧ db q = emptyDisk ∧
    ∀ q', rtc (step None) q q' → accepted q' = [createItem] ∧ items q' = [createItem] ∧ flushes q' = [] ∧ db q' = emptyDisk.
Proof.
  exists (runOf lateEvents). split; [by apply runOf_reachable; vm_compute|].
  assert (dead (runOf lateEvents)) as Hd by (split_and!; vm_compute; reflexivity).
  assert (items (runOf lateEvents) = [createItem]) as E1 by (vm_compute; reflexivity).
  assert (accepted (runOf lateEvents) = [createItem]) as E2 by (vm_compute; reflexivity).
  assert (flushes (runOf lateEvents) = []) as E3 by (vm_compute; reflexivity).
  assert (db (runOf lateEvents) = emptyDisk) as E4 by (vm_compute; reflexivity).
  generalize dependent (runOf lateEvents). intros q Hd E1 E2 E3 E4.
  split_and!; [apply Hd|done|done|]. intros q' Hr. destruct (dead_run None _ _ Hd Hr) as (->&->&->&->). done.
Qed.

(** Block 1 fails to commit at its barrier, block 2 commits at the next one. *)
Definition failEvents : list event :=
  [Enqueue createItem; Send; Receive; Sync (-1); Request; Write false; Write true; Write true; Write true; Acked;
   Enqueue spendItem; Send; Receive; Sync (-1); Request; Write true; Write true; Write true; Write true; Acked].

(** A failed commit is only logged: the writer forgets the batch, the
    barrier is acknowledged all the same, and the next batch moves the watermark
    past the hole.  In this run the watermark says that heights up to 2 are written
    while the main chain index knows no block at height 1 and the coin block 1
    created was never stored. *)
Theorem failed_batch_leaves_hole :
  ∃ q, reachable None emptyDisk q ∧ holder q = CIdle ∧ pending q = [] ∧ stopCh q = false ∧
    accepted q = [createItem; spendItem] ∧ dropped q = [] ∧
    loadWriteWatermark (db q) = Done 2 ∧
    ChainIO.dbFetchHashByHeight (chainRows (db q)) 1 = inr ChainIO.errNotInMainChain ∧
    spendJournal (db q) !! BlockNode.toyHash 1 = None.
Proof.
  exists (runOf failEvents). split; [by apply runOf_reachable; vm_compute|]. split_and!; by vm_compute.
Qed.

(** ** Witnesses *)

Lemma async_is_lagging_sync_witness :
  let q := runOf barrierEvents in
  (∃ k, syncWrite None emptyDisk (take k (accepted q)) = Done (db q, true) ∧ drop k (accepted q) = pending q) ∧
  accepted q = [createItem; spendItem] ∧ pending q = [].
Proof.
  split; [|split; vm_compute; reflexivity]. cbv zeta.
  apply (async_is_lagging_sync None emptyDisk (runOf barrierEvents)).
  - apply runOf_reachable. vm_compute. reflexivity.
  - vm_compute. reflexivity.
  - vm_compute. reflexivity.
  - vm_compute. repeat constructor.
Defined.

Lemma barrier_flushes_witness :
  let q := runOf barrierEvents in
  holder q = CWait ∧ done q = true ∧ syncWrite None emptyDisk [createItem; spendItem] = Done (db q, true).
Proof.
  split; [vm_compute; reflexivity|]. split; [vm_compute; reflexivity|].
  apply (barrier_flushes None emptyDisk (runOf barrierEvents)).
  - apply runOf_reachable. vm_compute. reflexivity.
  - vm_compute. reflexivity.
  - vm_compute. reflexivity.
  - vm_compute. reflexivity.
  - vm_compute. reflexivity.
  - vm_compute. repeat constructor.
Defined.

Lemma durable_tip_agrees_witness :
  let q := runOf raceEvents in
  ∃ it st, last (written (log q)) = Some it ∧ item_ok it st ∧ tip_at (db q) st (tipWork it).
Proof.
  destruct (durable_tip_agrees None emptyDisk (runOf raceEvents)) as [[E _]|Hx].
  - apply runOf_reachable. vm_compute. reflexivity.
  - assert (accepted (runOf raceEvents) = [createItem; spendItem]) as -> by (vm_compute; reflexivity).
    repeat constructor; [exists (toyBest 1)|exists (toyBest 2)]; apply toyItem_ok; lia.
  - exfalso. vm_compute in E. discriminate E.
  - exact Hx.
Defined.

Lemma stop_flushes_all_witness :
  let q := runOf flaggedEvents in let q' := runOf raceEvents in
  stopper q = SFlagged ∧ stopper q' = SDone ∧ items q' = [] ∧ accepted q' = accepted q.
Proof.
  split; [vm_compute; reflexivity|]. split; [vm_compute; reflexivity|].
  apply (stop_flushes_all None emptyDisk (runOf flaggedEvents) (runOf raceEvents)).
  - apply runOf_reachable. vm_compute. reflexivity.
  - vm_compute. reflexivity.
  - apply runOf_app. vm_compute. reflexivity.
  - vm_compute. reflexivity.
  - vm_compute. reflexivity.
Defined.

Lemma emptyDisk_typed : disk_typed emptyDisk.
Proof. split; [split; try apply map_Forall_empty|]; done. Qed.

Lemma rows_stay_typed_witness :
  let q := runOf barrierEvents in
  disk_typed (db q) ∧ is_Some (blockIndexBucket (chainRows (db q)) !! bestTipSnapshotKey).
Proof.
  split; [|vm_compute; eexists; reflexivity].
  apply (rows_stay_typed None emptyDisk (runOf barrierEvents)).
  - apply emptyDisk_typed.
  - apply runOf_reachable. vm_compute. reflexivity.
  - assert (accepted (runOf barrierEvents) = [createItem; spendItem]) as -> by (vm_compute; reflexivity).
    repeat constructor; by intros st [= <-].
Defined.

Lemma createItem_wf : item_wf createItem.
Proof.
  split; [exists (toyBest 1); apply toyItem_ok; lia|]. split; [constructor|]. constructor; [|constructor]. split; [apply UtxoSet.toyOp_wf|].
  intros e [= <-]. apply UtxoSet.toyEntry_ok. lia.
Qed.

(** The holder inside [enqueue] while the queue is being stopped *)
Definition blockedEvents : list event := [Enqueue createItem; Send; Enqueue spendItem; Stop true].

Lemma calls_return_witness :
  let q := runOf blockedEvents in
  holder q = CEnqueue spendItem ∧ stopper q = SFlagged ∧
  (∃ q', rtc (step None) q q' ∧ holder q' = CIdle) ∧ (∃ q', rtc (step None) q q' ∧ stopper q' = SDone).
Proof.
  split; [vm_compute; reflexivity|]. split; [vm_compute; reflexivity|].
  destruct (calls_return None ltac:(done) emptyDisk (runOf blockedEvents)) as [H1 H2].
  - apply runOf_reachable. vm_compute. reflexivity.
  - assert (accepted (runOf blockedEvents) = [createItem]) as -> by (vm_compute; reflexivity).
    constructor; [apply createItem_wf|constructor].
  - split; [exact H1|]. apply H2. vm_compute. discriminate.
Defined.

End QueueRuns.
