(* ===== verification/Orphans.v ===== *)
(** * Orphans: blocks whose parent is unknown

    Model of the orphan pool of [blockchain/chain.go]: the map of orphans, the index by
    parent, the pointer to the oldest one, and the bodies of blocks in the
    database, which orphans share with connected blocks.  An orphan is never
    changed once it is in the pool, so pointers to it are values.  [addOrphanBlock]
    visits the map in an order of Go's choosing, which is an argument; the clock is
    read once.  Times are nanoseconds. *)

From S2P Require Import Prelude WorkMath Compress ChainHash Wire BlockNode ChainIO Merkle Script UtxoSet UtxoCache UtxoView Sanity.

Module Orphans.
Import BlockNode (hash_t).
Import UtxoView (Block, Header, Transactions).

Definition maxOrphanBlocks : Z := 16384.
Definition hour : Z := 3600000000000.

(** [block.Hash()] and [block.MsgBlock().Header.PrevBlock] *)
Definition blockHash (b : Block) : hash_t := BlockNode.headerHash (Header b).
Definition prevHash (b : Block) : hash_t := Wire.PrevBlock (Header b).

#[global] Arguments blockHash : simpl never.
#[global] Arguments prevHash : simpl never.

Record orphanBlock := { block : Block; expiration : Z }.

Record pool := {
  orphans : gmap hash_t orphanBlock;
  prevOrphans : gmap hash_t (list orphanBlock);
  oldestOrphan : option orphanBlock;
  orphanDiskBytes : Z;
  bodies : gmap hash_t Block;
}.

Definition emptyPool : pool :=
  {| orphans := ∅; prevOrphans := ∅; oldestOrphan := None; orphanDiskBytes := 0; bodies := ∅ |}.

Definition set_oldest (o : option orphanBlock) (p : pool) : pool :=
  {| orphans := orphans p; prevOrphans := prevOrphans p; oldestOrphan := o; orphanDiskBytes := orphanDiskBytes p;
     bodies := bodies p |}.
Definition set_bodies (m : gmap hash_t Block) (p : pool) : pool :=
  {| orphans := orphans p; prevOrphans := prevOrphans p; oldestOrphan := oldestOrphan p;
     orphanDiskBytes := orphanDiskBytes p; bodies := m |}.
Definition set_diskBytes (n : Z) (p : pool) : pool :=
  {| orphans := orphans p; prevOrphans := prevOrphans p; oldestOrphan := oldestOrphan p; orphanDiskBytes := n;
     bodies := bodies p |}.

(** ** Bodies *)

Definition dbStoreBlock (b : Block) (p : pool) : pool :=
  match bodies p !! blockHash b with
  | Some _ => p
  | None => set_bodies (<[blockHash b := b]> (bodies p)) p
  end.

Definition dbPutOrphanBlock := dbStoreBlock.

Definition dbRemoveOrphanBlockData (b : Block) (p : pool) : pool := set_bodies (delete (blockHash b) (bodies p)) p.

(** ** The pool *)

Definition IsKnownOrphan (hs : hash_t) (p : pool) : bool := bool_decide (is_Some (orphans p !! hs)).

(** The loop of [GetOrphanRoot] *)
Fixpoint orphanRoot_loop (fuel : nat) (p : pool) (root prev : hash_t) : run hash_t :=
  match orphans p !! prev with
  | None => Done root
  | Some orphan =>
      match fuel with
      | O => NoFuel
      | S fuel => orphanRoot_loop fuel p prev (prevHash (block orphan))
      end
  end.

Definition GetOrphanRoot (hs : hash_t) (p : pool) : run hash_t :=
  orphanRoot_loop (size (orphans p)) p hs hs.

Definition dependents (hs : hash_t) (p : pool) : list orphanBlock := default [] (prevOrphans p !! hs).

Definition removeOrphanBlock (orphan : orphanBlock) (p : pool) : pool :=
  let orphanHash := blockHash (block orphan) in
  let prev := prevHash (block orphan) in
  let left := filter (fun o => blockHash (block o) ≠ orphanHash) (dependents prev p) in
  {| orphans := delete orphanHash (orphans p);
     prevOrphans := match left with [] => delete prev (prevOrphans p) | _ => <[prev := left]> (prevOrphans p) end;
     oldestOrphan := oldestOrphan p; orphanDiskBytes := orphanDiskBytes p; bodies := bodies p |}.

Definition removeOrphanBlockWithData (orphan : orphanBlock) (p : pool) : pool :=
  let p := dbRemoveOrphanBlockData (block orphan) (removeOrphanBlock orphan p) in
  let n := orphanDiskBytes p - Sanity.BlockSerializeSize (block orphan) in
  set_diskBytes (if n <? 0 then 0 else n) p.

(** One orphan of the sweep of [addOrphanBlock] *)
Definition sweep (now : Z) (p : pool) (oBlock : orphanBlock) : pool :=
  if expiration oBlock <? now then removeOrphanBlockWithData oBlock p
  else match oldestOrphan p with
       | None => set_oldest (Some oBlock) p
       | Some o => if expiration oBlock <? expiration o then set_oldest (Some oBlock) p else p
       end.

Definition insertOrphan (now : Z) (b : Block) (p : pool) : pool :=
  let oBlock := {| block := b; expiration := now + hour |} in
  {| orphans := <[blockHash b := oBlock]> (orphans p);
     prevOrphans := <[prevHash b := dependents (prevHash b) p ++ [oBlock]]> (prevOrphans p);
     oldestOrphan := oldestOrphan p; orphanDiskBytes := orphanDiskBytes p; bodies := bodies p |}.

Definition addOrphanBlock (order : list orphanBlock) (now : Z) (b : Block) (p : pool) : run pool :=
  let p := foldl (sweep now) p order in
  p ← (if maxOrphanBlocks <? Z.of_nat (size (orphans p)) + 1 then
         oldest ← of_option (oldestOrphan p);
         Done (set_oldest None (removeOrphanBlockWithData oldest p))
       else Done p);
  Done (insertOrphan now b p).

(** The orphans that wait for a block are removed one by one. *)
Definition removeOrphansWithParent (parent : hash_t) (p : pool) : pool :=
  foldl (fun p o => removeOrphanBlock o p) p (dependents parent p).

(** ** The invariant of the pool *)

Definition hashOf (o : orphanBlock) : hash_t := blockHash (block o).

(** The index by parent is the inverse of the map. *)
Record pool_ok (p : pool) : Prop := {
  ok_key : ∀ h o, orphans p !! h = Some o → hashOf o = h;
  ok_indexed : ∀ h o, orphans p !! h = Some o → o ∈ dependents (prevHash (block o)) p;
  ok_listed : ∀ h l, prevOrphans p !! h = Some l → l ≠ [] ∧ NoDup (hashOf <$> l) ∧
    Forall (fun o => prevHash (block o) = h ∧ orphans p !! hashOf o = Some o) l;
}.

Lemma dependents_ok p h : pool_ok p →
  NoDup (hashOf <$> dependents h p) ∧ Forall (fun o => prevHash (block o) = h ∧ orphans p !! hashOf o = Some o) (dependents h p).
Proof.
  intros P. unfold dependents. destruct (prevOrphans p !! h) as [l|] eqn:E; cbn.
  - by destruct (ok_listed _ P _ _ E) as (_&?&?).
  - split; constructor.
Qed.

Lemma dependents_remove o p h : dependents h (removeOrphanBlock o p) =
  if decide (h = prevHash (block o)) then filter (fun x => hashOf x ≠ hashOf o) (dependents h p) else dependents h p.
Proof.
  unfold dependents, removeOrphanBlock. cbn [prevOrphans]. case_decide as E.
  - subst h. set (l := filter _ _). unfold dependents in l. fold (hashOf o). unfold hashOf in *.
    destruct l as [|x l'] eqn:El; [by rewrite lookup_delete_eq; symmetry|rewrite lookup_insert_eq; by symmetry].
  - destruct (filter _ _); [by rewrite lookup_delete_ne by done|by rewrite lookup_insert_ne by done].
Qed.

Lemma filter_hashes_NoDup h l : NoDup (hashOf <$> l) → NoDup (hashOf <$> filter (fun x => hashOf x ≠ h) l).
Proof.
  induction l as [|x l IH]; [done|]. rewrite fmap_cons, NoDup_cons, filter_cons. intros [Hx Hl].
  case_decide; [|by apply IH]. rewrite fmap_cons. apply NoDup_cons. split; [|by apply IH].
  intros (y&E&Hy)%list_elem_of_fmap. apply list_elem_of_filter in Hy as [_ Hy]. apply Hx. apply list_elem_of_fmap. eauto.
Qed.

Lemma remove_ok o p : pool_ok p → (∀ o', orphans p !! hashOf o = Some o' → prevHash (block o') = prevHash (block o)) →
  pool_ok (removeOrphanBlock o p).
Proof.
  intros P Hp. split.
  - intros h x. cbn. intros [_ E]%lookup_delete_Some. by apply (ok_key _ P).
  - intros h x Hx. cbn in Hx. apply lookup_delete_Some in Hx as [Hn E]. rewrite dependents_remove.
    pose proof (ok_indexed _ P _ _ E). pose proof (ok_key _ P _ _ E). case_decide; [|done].
    apply list_elem_of_filter. split; [|done]. cbn in Hn. unfold hashOf in *. congruence.
  - intros h l El. assert (l = dependents h (removeOrphanBlock o p)) as Hl by (unfold dependents; by rewrite El).
    destruct (dependents_ok p h P) as [Hnd Hall]. rewrite dependents_remove in Hl.
    assert (Forall (fun x => hashOf x ≠ hashOf o) l) as Hne.
    { subst l. case_decide as E; apply Forall_forall; intros x Hx.
      - by apply list_elem_of_filter in Hx as [? _].
      - rewrite Forall_forall in Hall. destruct (Hall _ Hx) as [H1 H2]. intros Ex. rewrite Ex in H2. apply Hp in H2. congruence. }
    split_and!.
    + intros ->. clear Hl Hne. cbn [removeOrphanBlock prevOrphans] in El.
      destruct (filter (fun x => blockHash (block x) ≠ blockHash (block o)) _) eqn:Ef.
      * apply lookup_delete_Some in El as [_ El]. by destruct (ok_listed _ P _ _ El).
      * apply lookup_insert_Some in El as [[_ ?]|[_ El]]; [done|]. by destruct (ok_listed _ P _ _ El).
    + subst l. case_decide; [|done]. by apply filter_hashes_NoDup.
    + apply Forall_forall. intros x Hx. rewrite Forall_forall in Hne. specialize (Hne _ Hx).
      assert (x ∈ dependents h p) as Hx'. { subst l. case_decide; [by apply list_elem_of_filter in Hx as [_ ?]|done]. }
      rewrite Forall_forall in Hall. destruct (Hall _ Hx'). split; [done|]. cbn. by rewrite lookup_delete_ne.
Qed.

Lemma insert_ok now b p : pool_ok p → orphans p !! blockHash b = None → pool_ok (insertOrphan now b p).
Proof.
  intros P Hf. set (o := {| block := b; expiration := now + hour |}). split.
  - intros h x. cbn. intros [[<- <-]|[_ E]]%lookup_insert_Some; [done|]. by apply (ok_key _ P).
  - intros h x Hx. cbn in Hx. unfold dependents at 1. cbn [insertOrphan prevOrphans].
    apply lookup_insert_Some in Hx as [[_ <-]|[_ E]].
    + cbn. rewrite lookup_insert_eq. cbn. apply elem_of_app. right. by apply list_elem_of_singleton.
    + pose proof (ok_indexed _ P _ _ E) as Hi. destruct (decide (prevHash b = prevHash (block x))) as [->|Hne].
      * rewrite lookup_insert_eq. cbn. apply elem_of_app. by left.
      * by rewrite lookup_insert_ne.
  - intros h l. cbn [insertOrphan prevOrphans orphans]. destruct (dependents_ok p h P) as [Hnd Hall].
    assert (∀ x, orphans p !! hashOf x = Some x → hashOf x ≠ blockHash b) as Hne by (intros x Hx E; rewrite E in Hx; congruence).
    intros [[<- <-]|[Hn El]]%lookup_insert_Some.
    + split_and!.
      * intros [_ ?]%app_eq_nil. done.
      * rewrite fmap_app. apply NoDup_app. split_and!; [done| |apply NoDup_singleton].
        intros hs Hin Hs. apply list_elem_of_singleton in Hs. apply list_elem_of_fmap in Hin as (x&->&Hx).
        rewrite Forall_forall in Hall. destruct (Hall _ Hx) as [_ Hx2]. by apply (Hne x).
      * apply Forall_app. split.
        { eapply Forall_impl; [exact Hall|]. intros x [? ?]. split; [done|]. rewrite lookup_insert_ne; [done|]. intros E. by apply (Hne x). }
        constructor; [|constructor]. split; [done|]. cbn. by rewrite lookup_insert_eq.
    + destruct (ok_listed _ P _ _ El) as (?&?&Hl). split_and!; [done..|].
      eapply Forall_impl; [exact Hl|]. intros x [? ?]. split; [done|]. rewrite lookup_insert_ne; [done|]. intros E. by apply (Hne x).
Qed.

(** ** Adding *)

Lemma removeWithData_pool o p : orphans (removeOrphanBlockWithData o p) = orphans (removeOrphanBlock o p) ∧
  prevOrphans (removeOrphanBlockWithData o p) = prevOrphans (removeOrphanBlock o p) ∧
  oldestOrphan (removeOrphanBlockWithData o p) = oldestOrphan p ∧
  bodies (removeOrphanBlockWithData o p) = delete (hashOf o) (bodies p).
Proof. done. Qed.

Lemma pool_ok_same p q : orphans q = orphans p → prevOrphans q = prevOrphans p → pool_ok p → pool_ok q.
Proof.
  intros E1 E2 [P1 P2 P3]. unfold dependents in *. split; unfold dependents; rewrite ?E1, ?E2; done.
Qed.

Lemma removeWithData_ok o p : pool_ok p → (∀ o', orphans p !! hashOf o = Some o' → prevHash (block o') = prevHash (block o)) →
  pool_ok (removeOrphanBlockWithData o p).
Proof.
  intros P Hp. destruct (removeWithData_pool o p) as (E1&E2&_). eapply pool_ok_same; [exact E1|exact E2|]. by apply remove_ok.
Qed.

(** The state of the sweep over a pool [p] after the orphans of [seen] *)
Record swept (now : Z) (p : pool) (seen : list orphanBlock) (q : pool) : Prop := {
  sw_ok : pool_ok q;
  sw_map : ∀ h o, orphans q !! h = Some o ↔ orphans p !! h = Some o ∧ (o ∈ seen → now ≤ expiration o);
  sw_oldest : ∀ o, oldestOrphan q = Some o → oldestOrphan p = Some o ∨ o ∈ seen;
  sw_some : (∃ o, o ∈ seen ∧ now ≤ expiration o) ∨ is_Some (oldestOrphan p) → is_Some (oldestOrphan q);
}.

Lemma sweep_step now p seen q o : pool_ok p → swept now p seen q → orphans p !! hashOf o = Some o → swept now p (seen ++ [o]) (sweep now q o).
Proof.
  intros Pp [P M O S] Ho. unfold sweep. assert (∀ o', orphans q !! hashOf o = Some o' → o' = o) as Hq.
  { intros o' [E _]%M. congruence. }
  assert (∀ x, x ∈ seen ++ [o] ↔ x ∈ seen ∨ x = o) as Hin by (intros x; rewrite elem_of_app, list_elem_of_singleton; done).
  destruct (Z.ltb_spec (expiration o) now) as [He|He].
  - destruct (removeWithData_pool o q) as (E1&E2&E3&E4). split.
    + apply removeWithData_ok; [done|]. by intros o' ->%Hq.
    + intros h x. rewrite E1. cbn [removeOrphanBlock orphans]. fold (hashOf o). rewrite lookup_delete_Some, M, Hin. split.
      * intros (Hn&Hx&Hs). split; [done|]. intros [Hx'|E]; [by apply Hs|]. subst x. by rewrite (ok_key _ Pp _ _ Hx) in Hn.
      * intros (Hx&Hs). split_and!; [|done|by auto]. intros <-. assert (x = o) as -> by congruence. specialize (Hs (or_intror eq_refl)). lia.
    + intros x. rewrite E3, Hin. intros Hx. destruct (O x Hx); auto.
    + rewrite E3. intros [(x&[Hx|E]%Hin&Hl)|Hx]; [apply S; eauto|subst x; lia|apply S; eauto].
  - assert (∀ h x, orphans q !! h = Some x ↔ orphans p !! h = Some x ∧ (x ∈ seen ++ [o] → now ≤ expiration x)) as M'.
    { intros h x. rewrite M, Hin. split; intros [Hx Hs]; (split; [done|]); [intros [?|E]; [auto|by subst x]|auto]. }
    assert (∀ r, oldestOrphan r = Some o → orphans r = orphans q → prevOrphans r = prevOrphans q → swept now p (seen ++ [o]) r) as Hset.
    { intros r E1 E2 E3. split; [by eapply pool_ok_same|by intros h x; rewrite E2|..]; rewrite E1; [|done].
      intros x [= <-]. right. apply Hin. auto. }
    destruct (oldestOrphan q) as [y|] eqn:Ey; [|by apply Hset]. destruct (expiration o <? expiration y); [by apply Hset|].
    split; [done|done| |by rewrite Ey]. intros x Hx. rewrite Ey in Hx. injection Hx as <-. rewrite Hin. destruct (O y eq_refl); auto.
Qed.

Lemma sweep_all now p seen order q : pool_ok p → swept now p seen q → Forall (fun o => orphans p !! hashOf o = Some o) order →
  swept now p (seen ++ order) (foldl (sweep now) q order).
Proof.
  intros Pp S Ho. revert seen q S. induction Ho as [|o order Hx _ IH]; intros seen q S; cbn; [by rewrite app_nil_r|].
  change (o :: order) with ([o] ++ order). rewrite app_assoc. apply IH. by apply sweep_step.
Qed.

(** The pool as the map iteration lists it *)
Definition lists (order : list orphanBlock) (p : pool) : Prop := order ≡ₚ (map_to_list (orphans p)).*2.

Lemma lists_elem order p o : pool_ok p → lists order p → o ∈ order ↔ orphans p !! hashOf o = Some o.
Proof.
  intros P Hl. rewrite Hl, list_elem_of_fmap. split.
  - intros ([h x]&->&Hx). apply elem_of_map_to_list in Hx. cbn. by rewrite (ok_key _ P _ _ Hx).
  - intros Hx. exists (hashOf o, o). split; [done|]. by apply elem_of_map_to_list.
Qed.

Lemma sweep_pool now p order : pool_ok p → lists order p → swept now p order (foldl (sweep now) p order).
Proof.
  intros P Hl. apply (sweep_all now p []); [done|..].
  - split; [done| |by auto|]; [|by intros [(?&?%elem_of_nil&_)|?]]. intros h o. split; [|by intros [? _]].
    intros Hx. split; [done|]. by intros ?%elem_of_nil.
  - apply Forall_forall. intros o Ho. by apply (lists_elem order p o P Hl).
Qed.

(** The pointer to the oldest orphan points into the pool. *)
Definition oldest_fresh (p : pool) : Prop := ∀ o, oldestOrphan p = Some o → orphans p !! hashOf o = Some o.

(** C28 (invariant).  [addOrphanBlock] keeps the index by parent the inverse of the map
    of orphans, never meets a nil oldest orphan, and adds the block.  No orphan
    that has not expired is dropped as long as the pool has room; and when the
    pointer to the oldest orphan is in the pool, the pool does not outgrow its
    limit.  This holds for every order of the map iteration. *)
Theorem add_orphan_spec (order : list orphanBlock) (now : Z) (b : Block) (p : pool) :
  pool_ok p → lists order p → orphans p !! blockHash b = None →
  (∀ o, oldestOrphan p = Some o → ∀ o', orphans p !! hashOf o = Some o' → prevHash (block o') = prevHash (block o)) →
  ∃ p', addOrphanBlock order now b p = Done p' ∧ pool_ok p' ∧ IsKnownOrphan (blockHash b) p' = true ∧
    (Z.of_nat (size (orphans p)) < maxOrphanBlocks →
       ∀ h o, orphans p !! h = Some o → now ≤ expiration o → orphans p' !! h = Some o) ∧
    (oldest_fresh p → Z.of_nat (size (orphans p)) ≤ maxOrphanBlocks → Z.of_nat (size (orphans p')) ≤ maxOrphanBlocks).
Proof.
  intros P Hl Hf Hc. unfold addOrphanBlock. set (q := foldl (sweep now) p order).
  pose proof (sweep_pool now p order P Hl) as [Pq M O S]. fold q in Pq, M, O, S.
  assert (orphans q ⊆ orphans p) as Hsub by (apply map_subseteq_spec; by intros h o [? _]%M).
  assert (size (orphans q) ≤ size (orphans p))%nat as Hsz by (by apply map_subseteq_size).
  assert (orphans q !! blockHash b = None) as Hfq by (eapply lookup_weaken_None; [exact Hf|exact Hsub]).
  assert (∀ r, orphans (insertOrphan now b r) = <[blockHash b := {| block := b; expiration := now + hour |}]> (orphans r)) as Ei by done.
  destruct (Z.ltb_spec maxOrphanBlocks (Z.of_nat (size (orphans q)) + 1)) as [Hmax|Hmax].
  - assert (is_Some (oldestOrphan q)) as [x Ex].
    { apply S. left. destruct (map_choose (orphans q)) as (h&o&Ho); [intros E; rewrite E, map_size_empty in Hmax; unfold maxOrphanBlocks in Hmax; lia|].
      apply M in Ho as Ho'. destruct Ho' as [Hp He]. assert (o ∈ order) as Hin.
      { apply (lists_elem order p o P Hl). by rewrite (ok_key _ P _ _ Hp). }
      exists o. auto. }
    rewrite Ex. cbn [of_option mbind run_bind]. destruct (removeWithData_pool x q) as (E1&E2&_).
    set (r := set_oldest None (removeOrphanBlockWithData x q)). assert (orphans r = delete (hashOf x) (orphans q)) as Er by done.
    eexists. split; [done|]. split_and!.
    + apply insert_ok; [|rewrite Er; apply lookup_delete_None; by right].
      eapply pool_ok_same; [exact E1|exact E2|]. apply remove_ok; [done|]. intros o' [Ho' _]%M.
      destruct (O x Ex) as [Hx|Hx]; [by apply (Hc x)|]. apply (lists_elem order p x P Hl) in Hx. congruence.
    + unfold IsKnownOrphan. apply bool_decide_eq_true_2. rewrite Ei, lookup_insert_eq. by eexists.
    + intros Hroom. lia.
    + intros Hfresh Hle. rewrite Ei, Er. rewrite map_size_insert_None by (apply lookup_delete_None; by right).
      assert (orphans p = orphans q) as Epq.
      { symmetry. apply map_subseteq_size_eq; [done|]. lia. }
      assert (orphans q !! hashOf x = Some x) as Hxq.
      { rewrite <-Epq. destruct (O x Ex) as [Hx|Hx]; [by apply Hfresh|by apply (lists_elem order p x P Hl)]. }
      rewrite map_size_delete_Some by (by eexists). assert (0 < size (orphans q))%nat by (apply Nat.neq_0_lt_0; intros E0%map_size_empty_inv; rewrite E0 in Hxq; done). lia.
  - cbn [mbind run_bind]. eexists. split; [done|]. split_and!.
    + by apply insert_ok.
    + unfold IsKnownOrphan. apply bool_decide_eq_true_2. rewrite Ei, lookup_insert_eq. by eexists.
    + intros _ h o Ho He. rewrite Ei. rewrite lookup_insert_ne by congruence. apply M. auto.
    + intros _ _. rewrite Ei, map_size_insert_None by done. lia.
Qed.

(** ** The root of an orphan *)

(** Parents among the orphans are older: no block is its own ancestor. *)
Definition ranked (rank : hash_t → nat) (p : pool) : Prop :=
  ∀ h o, orphans p !! h = Some o → is_Some (orphans p !! prevHash (block o)) → (rank (prevHash (block o)) < rank h)%nat.

Lemma keys_bound {A} (m : gmap hash_t A) (l : list hash_t) : NoDup l → Forall (fun h => is_Some (m !! h)) l → (length l ≤ size m)%nat.
Proof.
  intros Hn Hl. rewrite <-size_dom. rewrite <-(size_list_to_set (C := gset hash_t) l Hn). apply subseteq_size. intros h Hh%elem_of_list_to_set.
  rewrite Forall_forall in Hl. apply elem_of_dom. by apply Hl.
Qed.

Lemma orphanRoot_loop_spec rank p fuel seen root h : ranked rank p → NoDup seen →
  Forall (fun x => is_Some (orphans p !! x) ∧ (is_Some (orphans p !! h) → (rank h < rank x)%nat)) seen →
  (size (orphans p) ≤ fuel + length seen)%nat →
  (is_Some (orphans p !! root) ∧ (∀ o, orphans p !! root = Some o → prevHash (block o) = h) ∨ root = h) →
  ∃ r, orphanRoot_loop fuel p root h = Done r ∧
    (orphans p !! h = None → r = root) ∧
    (is_Some (orphans p !! h) → ∃ o, orphans p !! r = Some o ∧ orphans p !! prevHash (block o) = None).
Proof.
  intros Hr. revert seen root h. induction fuel as [|fuel IH]; intros seen root h Hn Hs Hf Hroot; cbn [orphanRoot_loop].
  - destruct (orphans p !! h) as [o|] eqn:Eo; [|by exists root; split_and!; [done|done|intros [? ?]]].
    exfalso. assert (length (h :: seen) ≤ size (orphans p))%nat as Hl; [|cbn in Hl; lia].
    apply keys_bound.
    + apply NoDup_cons. split; [|done]. intros Hin. rewrite Forall_forall in Hs. destruct (Hs _ Hin) as [_ Hlt].
      specialize (Hlt ltac:(by eexists)). lia.
    + constructor; [by eexists|]. eapply Forall_impl; [exact Hs|]. by intros x [? _].
  - destruct (orphans p !! h) as [o|] eqn:Eo; [|by exists root; split_and!; [done|done|intros [? ?]]].
    destruct (IH (h :: seen) h (prevHash (block o))) as (r&E&H1&H2).
    + apply NoDup_cons. split; [|done]. intros Hin. rewrite Forall_forall in Hs. destruct (Hs _ Hin) as [_ Hlt].
      specialize (Hlt ltac:(by eexists)). lia.
    + constructor; [split; [by eexists|]; intros Hp; by apply (Hr h o)|]. eapply Forall_impl; [exact Hs|]. intros x [Hx Hlt].
      split; [done|]. intros Hp. specialize (Hlt ltac:(by eexists)). specialize (Hr h o Eo Hp). lia.
    + cbn. lia.
    + left. split; [by eexists|]. intros o' E'. congruence.
    + exists r. split; [done|]. split; [done|]. intros _. destruct (orphans p !! prevHash (block o)) as [o'|] eqn:E'.
      * apply H2. by eexists.
      * rewrite (H1 eq_refl). exists o. auto.
Qed.

(** [GetOrphanRoot] returns: walking from parent to parent visits
    each orphan at most once, so as many rounds as there are orphans suffice when no
    block is its own ancestor.  The result is an orphan whose parent is not one,
    and the given hash itself when that is not an orphan. *)
Theorem orphan_root_spec (rank : hash_t → nat) (p : pool) (hs : hash_t) :
  ranked rank p →
  ∃ r, GetOrphanRoot hs p = Done r ∧ (orphans p !! hs = None → r = hs) ∧
    (is_Some (orphans p !! hs) → ∃ o, orphans p !! r = Some o ∧ orphans p !! prevHash (block o) = None).
Proof.
  intros Hr. unfold GetOrphanRoot. apply (orphanRoot_loop_spec rank p _ [] hs hs Hr); [constructor|constructor|cbn; lia|by right].
Qed.

(** ** The stale pointer *)

Lemma sweep_id now p x order : oldestOrphan p = Some x →
  Forall (fun o => now ≤ expiration o ∧ expiration x ≤ expiration o) order → foldl (sweep now) p order = p.
Proof.
  intros Ex Ho. induction Ho as [|o order [H1 H2] _ IH]; [done|]. cbn [foldl]. replace (sweep now p o) with p; [done|].
  unfold sweep. destruct (Z.ltb_spec (expiration o) now); [lia|]. rewrite Ex. by destruct (Z.ltb_spec (expiration o) (expiration x)); [lia|].
Qed.

Lemma lists_Forall (P : orphanBlock → Prop) order p : lists order p → (∀ h o, orphans p !! h = Some o → P o) → Forall P order.
Proof.
  intros Hl HP. apply Forall_forall. intros o Ho. rewrite Hl in Ho. apply list_elem_of_fmap in Ho as ([h y]&->&Hy).
  apply elem_of_map_to_list in Hy. by eapply HP.
Qed.

(** Connecting an orphan leaves the pointer to the oldest orphan
    alone, and the next eviction trusts it.  When the oldest orphan [x] of a full
    pool is taken out because its parent arrived, and two more orphans arrive, the
    second eviction removes [x] again: nothing leaves the pool, which grows
    beyond its limit, while the body of [x], by then a block of the chain, is
    deleted from the database. *)
Theorem stale_oldest_deletes_block (p : pool) (x : orphanBlock) (now : Z) (y z : Block) (order1 order2 : list orphanBlock) :
  Z.of_nat (size (orphans p)) = maxOrphanBlocks → orphans p !! hashOf x = Some x → oldestOrphan p = Some x →
  bodies p !! hashOf x = Some (block x) →
  (∀ h o, orphans p !! h = Some o → now ≤ expiration o ∧ expiration x ≤ expiration o) → expiration x ≤ now + hour →
  orphans p !! blockHash y = None → orphans p !! blockHash z = None → blockHash z ≠ blockHash y →
  let p1 := removeOrphanBlock x p in
  let p2 := insertOrphan now y p1 in
  lists order1 p1 → lists order2 p2 →
  addOrphanBlock order1 now y p1 = Done p2 ∧
  ∃ p3, addOrphanBlock order2 now z p2 = Done p3 ∧ IsKnownOrphan (hashOf x) p1 = false ∧
    bodies p2 !! hashOf x = Some (block x) ∧ bodies p3 !! hashOf x = None ∧
    Z.of_nat (size (orphans p3)) = maxOrphanBlocks + 1.
Proof.
  intros Hsz Hx Hold Hb Hall Hexp Hy Hz Hyz p1 p2 Hl1 Hl2.
  assert (orphans p1 = delete (hashOf x) (orphans p)) as E1 by done.
  assert (Z.of_nat (size (orphans p1)) = maxOrphanBlocks - 1) as Hs1.
  { rewrite E1, map_size_delete_Some by (by eexists). unfold maxOrphanBlocks in *. lia. }
  assert (∀ h o, orphans p1 !! h = Some o → now ≤ expiration o ∧ expiration x ≤ expiration o) as Hall1.
  { intros h o. rewrite E1. intros [_ Ho]%lookup_delete_Some. by eapply Hall. }
  assert (hashOf x ≠ blockHash y) as Hxy by (intros E; congruence).
  assert (hashOf x ≠ blockHash z) as Hxz by (intros E; congruence).
  assert (orphans p1 !! blockHash y = None) as Hy1 by (rewrite E1; apply lookup_delete_None; by right).
  assert (orphans p2 = <[blockHash y := {| block := y; expiration := now + hour |}]> (orphans p1)) as E2 by done.
  assert (Z.of_nat (size (orphans p2)) = maxOrphanBlocks) as Hs2.
  { rewrite E2, map_size_insert_None by done. lia. }
  split.
  - unfold addOrphanBlock. rewrite (sweep_id now p1 x) by (done || by eapply lists_Forall).
    destruct (Z.ltb_spec maxOrphanBlocks (Z.of_nat (size (orphans p1)) + 1)); [lia|done].
  - unfold addOrphanBlock. rewrite (sweep_id now p2 x order2); [|done|].
    2: { eapply lists_Forall; [done|]. intros h o. rewrite E2. intros [[_ <-]|[_ Ho]]%lookup_insert_Some; [cbn [expiration]; unfold hour in *; lia|by eapply Hall1]. }
    destruct (Z.ltb_spec maxOrphanBlocks (Z.of_nat (size (orphans p2)) + 1)); [|lia].
    assert (oldestOrphan p2 = Some x) as -> by done. cbn [of_option mbind run_bind]. eexists. split; [done|].
    split_and!.
    + unfold IsKnownOrphan. rewrite E1, lookup_delete_eq. by apply bool_decide_eq_false_2; intros [? ?].
    + done.
    + apply lookup_delete_eq.
    + cbn [insertOrphan orphans set_oldest]. destruct (removeWithData_pool x p2) as (E3&_). rewrite E3.
      cbn [removeOrphanBlock orphans]. fold (hashOf x). rewrite E2.
      rewrite delete_id.
      2: { rewrite lookup_insert_ne by done. rewrite E1. apply lookup_delete_eq. }
      rewrite map_size_insert_None.
      2: { rewrite lookup_insert_ne by done. rewrite E1. apply lookup_delete_None. by right. }
      rewrite map_size_insert_None by done. lia.
Qed.

(** ** Witnesses *)

Definition emptyHeader (prev : hash_t) (n : Z) : Wire.BlockHeader :=
  {| Wire.Version := 4; Wire.PrevBlock := prev; Wire.MerkleRoot := replicate 32 (z2b 0); Wire.Timestamp := 1000;
     Wire.Bits := 0; Wire.Nonce := n |}.
Definition toyBlock (prev : hash_t) (n : Z) : Block :=
  {| Header := emptyHeader prev n; Transactions := []; UtxoView.BlockHeight := 0 |}.

Definition block1 : Block := toyBlock (replicate 32 (z2b 9)) 1.
Definition block2 : Block := toyBlock (blockHash block1) 2.

(** A pool with one orphan and one with its child on top *)
Definition pool1 : pool := insertOrphan 0 block1 emptyPool.
Definition pool2 : pool := insertOrphan 5 block2 pool1.

Lemma pool1_ok : pool_ok pool1.
Proof.
  apply insert_ok; [|done]. split; intros h o E; cbn in E; by rewrite lookup_empty in E.
Qed.

Lemma fresh2 : orphans pool1 !! blockHash block2 = None.
Proof. vm_compute. reflexivity. Qed.

Lemma add_orphan_spec_witness : ∃ p', addOrphanBlock [{| block := block1; expiration := hour |}] 5 block2 pool1 = Done p' ∧
  pool_ok p' ∧ IsKnownOrphan (blockHash block2) p' = true ∧ Z.of_nat (size (orphans p')) ≤ maxOrphanBlocks.
Proof.
  destruct (add_orphan_spec [{| block := block1; expiration := hour |}] 5 block2 pool1) as (p'&H1&H2&H3&_&H5).
  - apply pool1_ok.
  - unfold lists, pool1. cbn [insertOrphan orphans emptyPool]. rewrite map_to_list_insert by apply lookup_empty. rewrite map_to_list_empty. reflexivity.
  - apply fresh2.
  - intros o E. discriminate E.
  - exists p'. split; [exact H1|]. split; [exact H2|]. split; [exact H3|]. apply H5; [intros o E; discriminate E|].
    unfold pool1. cbn [insertOrphan orphans emptyPool]. rewrite map_size_insert_None by apply lookup_empty. rewrite map_size_empty. unfold maxOrphanBlocks. lia.
Defined.

Definition rankOf (top h : hash_t) : nat := if bool_decide (h = top) then 2 else 1.

Lemma two_ranked p h1 h2 o1 o2 : orphans p = <[h2 := o2]> (<[h1 := o1]> ∅) → h1 ≠ h2 → prevHash (block o2) = h1 →
  prevHash (block o1) ≠ h1 → prevHash (block o1) ≠ h2 → ranked (rankOf h2) p.
Proof.
  intros E Hn E2 N1 N2 h o Ho Hp. unfold rankOf. rewrite E in Ho, Hp.
  apply lookup_insert_Some in Ho as [[<- <-]|[_ Ho]].
  - rewrite bool_decide_eq_false_2 by congruence. rewrite bool_decide_eq_true_2 by done. lia.
  - apply lookup_insert_Some in Ho as [[<- <-]|[_ Ho]]; [|by rewrite lookup_empty in Ho].
    destruct Hp as [o' Hp]. rewrite !lookup_insert_ne, lookup_empty in Hp by congruence. done.
Qed.

Lemma orphan_root_spec_witness : ∃ r, GetOrphanRoot (blockHash block2) pool2 = Done r ∧
  ∃ o, orphans pool2 !! r = Some o ∧ orphans pool2 !! prevHash (block o) = None.
Proof.
  destruct (orphan_root_spec (rankOf (blockHash block2)) pool2 (blockHash block2)) as (r&E&_&Hr).
  - apply (two_ranked _ (blockHash block1) _ {| block := block1; expiration := 0 + hour |} {| block := block2; expiration := 5 + hour |}).
    + reflexivity.
    + vm_compute. congruence.
    + reflexivity.
    + vm_compute. congruence.
    + vm_compute. congruence.
  - exists r. split; [exact E|]. apply Hr. unfold pool2. cbn [insertOrphan orphans]. rewrite lookup_insert_eq. eexists. reflexivity.
Defined.

(** A full pool: the oldest orphan [block1] and 16383 younger ones *)
Definition youngOrphan : orphanBlock := {| block := block2; expiration := 20 + hour |}.
Definition oldOrphan : orphanBlock := {| block := block1; expiration := 10 + hour |}.
Definition young (n : Z) : list (hash_t * orphanBlock) := (fun i => (le_bytes 32 i, youngOrphan)) <$> seqZ 0 n.
Definition fullMap : gmap hash_t orphanBlock := <[hashOf oldOrphan := oldOrphan]> (list_to_map (young 16383)).
Definition fullPool : pool :=
  {| orphans := fullMap; prevOrphans := ∅; oldestOrphan := Some oldOrphan; orphanDiskBytes := 0;
     bodies := {[ hashOf oldOrphan := block oldOrphan ]} |}.
Definition blockY : Block := toyBlock (replicate 32 (z2b 8)) 3.
Definition blockZ : Block := toyBlock (replicate 32 (z2b 8)) 4.

Lemma fullMap_old h o : fullMap !! h = Some o → o = oldOrphan ∨ o = youngOrphan.
Proof.
  unfold fullMap. intros [[_ <-]|[_ Ho]]%lookup_insert_Some; [by left|right]. apply elem_of_list_to_map_2 in Ho.
  apply list_elem_of_fmap in Ho as (i&[= _ ->]&_). done.
Qed.

Lemma young_key i : 0 ≤ i < 2 ^ 256 → le_val (le_bytes 32 i) = i.
Proof. intros Hi. rewrite le_val_bytes. apply Z.mod_small. exact Hi. Qed.

Lemma young_keys n : (young n).*1 = le_bytes 32 <$> seqZ 0 n.
Proof. unfold young. rewrite <-list_fmap_compose. by apply list_fmap_ext. Qed.

Lemma young_size n : 0 ≤ n ≤ 2 ^ 256 → Z.of_nat (size (list_to_map (M:=gmap hash_t orphanBlock) (young n))) = n.
Proof.
  intros Hn. rewrite map_size_list_to_map.
  - unfold young. rewrite length_fmap, length_seqZ. lia.
  - rewrite young_keys. apply NoDup_fmap_2_strong; [|apply NoDup_seqZ].
    intros i j Hi%elem_of_seqZ Hj%elem_of_seqZ E. apply (f_equal le_val) in E.
    rewrite !young_key in E by lia. done.
Qed.

Lemma young_fresh n h : 0 ≤ n ≤ 2 ^ 256 → n ≤ le_val h → list_to_map (M:=gmap hash_t orphanBlock) (young n) !! h = None.
Proof.
  intros Hn Hh. apply not_elem_of_list_to_map_1. rewrite young_keys.
  intros (i&->&[H1 H2]%elem_of_seqZ)%list_elem_of_fmap. rewrite young_key in Hh by lia. lia.
Qed.

Lemma full_fresh b : 16383 ≤ le_val (blockHash b) → blockHash b ≠ hashOf oldOrphan → orphans fullPool !! blockHash b = None.
Proof.
  intros Hh Hn. cbn [orphans fullPool]. unfold fullMap. rewrite lookup_insert_ne by done. apply young_fresh; [lia|exact Hh].
Qed.

Lemma fullMap_size : Z.of_nat (size fullMap) = maxOrphanBlocks.
Proof.
  assert (16383 ≤ le_val (hashOf oldOrphan)) as Hh by (apply Z.leb_le; vm_compute; reflexivity).
  unfold fullMap. rewrite map_size_insert_None by (apply young_fresh; [lia|exact Hh]).
  rewrite Nat2Z.inj_succ, young_size by lia. reflexivity.
Qed.

Lemma full_times o : o = oldOrphan ∨ o = youngOrphan → 15 ≤ expiration o ∧ expiration oldOrphan ≤ expiration o.
Proof. intros [->| ->]; cbn [expiration oldOrphan youngOrphan]; unfold hour; lia. Qed.

Lemma full_all h o : orphans fullPool !! h = Some o → 15 ≤ expiration o ∧ expiration oldOrphan ≤ expiration o.
Proof. cbn [orphans fullPool]. intros Ho. apply full_times. by eapply fullMap_old. Qed.

Lemma full_freshY : orphans fullPool !! blockHash blockY = None.
Proof. apply full_fresh; [apply Z.leb_le; vm_compute; reflexivity|vm_compute; congruence]. Qed.

Lemma full_freshZ : orphans fullPool !! blockHash blockZ = None.
Proof. apply full_fresh; [apply Z.leb_le; vm_compute; reflexivity|vm_compute; congruence]. Qed.

Lemma stale_oldest_deletes_block_witness :
  ∃ p2 p3 order2, addOrphanBlock order2 15 blockZ p2 = Done p3 ∧ bodies p2 !! hashOf oldOrphan = Some (block oldOrphan) ∧
    bodies p3 !! hashOf oldOrphan = None ∧ Z.of_nat (size (orphans p3)) = maxOrphanBlocks + 1.
Proof.
  set (p1 := removeOrphanBlock oldOrphan fullPool). set (p2 := insertOrphan 15 blockY p1).
  destruct (stale_oldest_deletes_block fullPool oldOrphan 15 blockY blockZ (map_to_list (orphans p1)).*2 (map_to_list (orphans p2)).*2)
    as (_&p3&H1&_&H2&H3&H4).
  - apply fullMap_size.
  - apply lookup_insert_eq.
  - reflexivity.
  - apply lookup_insert_eq.
  - apply full_all.
  - cbn [expiration oldOrphan]. lia.
  - apply full_freshY.
  - apply full_freshZ.
  - vm_compute. congruence.
  - unfold lists. reflexivity.
  - unfold lists. reflexivity.
  - exists p2, p3, (map_to_list (orphans p2)).*2. split; [exact H1|]. split; [exact H2|]. split; [exact H3|exact H4].
Defined.

End Orphans.
