(* ===== verification/Chain.v ===== *)
(** * Chain: processing blocks and headers

    Model of [blockchain/process.go], [blockchain/accept.go] and of the connection and
    reorganisation code of [blockchain/chain.go], with [FlushUtxoCache] of
    [blockchain/utxocache.go], on top of the components.  The state is that of
    [BlockChain] with its database.  Everything runs under the chain lock, so an
    operation is a function in a state and error monad; a clock reading and the
    parameters of the network are arguments.  The asynchronous writer works beside it:
    before each transaction of the chain it may have written its next batch of 32
    items, as the oracle [schedule] says.  A failing storage engine and pruning
    (which uses a synchronous path instead of the queue) are not modelled;
    notifications, which release the lock for their callbacks, are left out. *)

From S2P Require Import Prelude WorkMath Compress ChainHash Wire BlockNode ChainView ChainIO ColdRead Difficulty BlockIndex.
From S2P Require Import Merkle Threshold Script UtxoSet UtxoCache UtxoView Sanity Connect ScriptNum Context WriteQueue Orphans.

Module Chain.
Import BlockNode (hash_t, loc, heap, blockNode, deref, hash, height, parent, status, workSum, timestamp, bits).
Import ChainIO (bucket, database).
Import UtxoView (Block, Header, Transactions, BlockHeight, UtxoViewpoint, NewUtxoViewpoint, countSpentOutputs).
Import UtxoSet (SpentTxOut).
Import Sanity (ErrorCode, BFFastAdd, BFNoPoWCheck, hasFlag).
Import WriteQueue (BestState, writeItem, disk).
Import Orphans (blockHash, prevHash).

Definition BFMinerSubmit : Z := 4.
Definition consensusPowSkipDepth : Z := 2048.
Definition headerFlushBatchSize : Z := 20000.
Definition utxoHotDepth : Z := 2000.

Abbreviation statusDataStored := BlockNode.statusDataStored.

(** ** The state *)

(** What the consensus rules remember between blocks *)
Record ruleState := {
  deploymentCaches : list Threshold.thresholdStateCache;
  warningCaches : list Threshold.thresholdStateCache;
  unknownRulesWarned : bool;
  checkpointNode : option loc;
  nextCheckpoint : option (Z * list byte);
}.

(** Buckets that no other component holds *)
Record rowState := {
  journal : bucket;
  indexRows : bucket;
  watermark : option bucket;
}.

(** The write queue as the chain sees it: accepted items that are not on disk *)
Record queueState := {
  pending : list writeItem;
  stopped : bool;
  schedule : list bool;
}.

(** [ownHeaderView] is the best header view once it is another object than the view the
    index refers to, which is so after a rollback of the headers. *)
Record chain := {
  ix : BlockIndex.state;
  rules : ruleState;
  utxo : UtxoCache.state;
  rows : rowState;
  orphanPool : Orphans.pool;
  blockDownload : option (hash_t * Z);
  ownHeaderView : option ChainView.chainView;
  headerFlushCount : Z;
  stateSnapshot : BestState;
  queue : queueState;
}.

Definition set_ix (x : BlockIndex.state) (s : chain) : chain :=
  {| ix := x; rules := rules s; utxo := utxo s; rows := rows s; orphanPool := orphanPool s; blockDownload := blockDownload s;
     ownHeaderView := ownHeaderView s; headerFlushCount := headerFlushCount s; stateSnapshot := stateSnapshot s; queue := queue s |}.
Definition set_rules (x : ruleState) (s : chain) : chain :=
  {| ix := ix s; rules := x; utxo := utxo s; rows := rows s; orphanPool := orphanPool s; blockDownload := blockDownload s;
     ownHeaderView := ownHeaderView s; headerFlushCount := headerFlushCount s; stateSnapshot := stateSnapshot s; queue := queue s |}.
Definition set_utxo (x : UtxoCache.state) (s : chain) : chain :=
  {| ix := ix s; rules := rules s; utxo := x; rows := rows s; orphanPool := orphanPool s; blockDownload := blockDownload s;
     ownHeaderView := ownHeaderView s; headerFlushCount := headerFlushCount s; stateSnapshot := stateSnapshot s; queue := queue s |}.
Definition set_rows (x : rowState) (s : chain) : chain :=
  {| ix := ix s; rules := rules s; utxo := utxo s; rows := x; orphanPool := orphanPool s; blockDownload := blockDownload s;
     ownHeaderView := ownHeaderView s; headerFlushCount := headerFlushCount s; stateSnapshot := stateSnapshot s; queue := queue s |}.
Definition set_orphans (x : Orphans.pool) (s : chain) : chain :=
  {| ix := ix s; rules := rules s; utxo := utxo s; rows := rows s; orphanPool := x; blockDownload := blockDownload s;
     ownHeaderView := ownHeaderView s; headerFlushCount := headerFlushCount s; stateSnapshot := stateSnapshot s; queue := queue s |}.
Definition set_download (x : option (hash_t * Z)) (s : chain) : chain :=
  {| ix := ix s; rules := rules s; utxo := utxo s; rows := rows s; orphanPool := orphanPool s; blockDownload := x;
     ownHeaderView := ownHeaderView s; headerFlushCount := headerFlushCount s; stateSnapshot := stateSnapshot s; queue := queue s |}.
Definition set_headerView (x : option ChainView.chainView) (s : chain) : chain :=
  {| ix := ix s; rules := rules s; utxo := utxo s; rows := rows s; orphanPool := orphanPool s; blockDownload := blockDownload s;
     ownHeaderView := x; headerFlushCount := headerFlushCount s; stateSnapshot := stateSnapshot s; queue := queue s |}.
Definition set_flushCount (x : Z) (s : chain) : chain :=
  {| ix := ix s; rules := rules s; utxo := utxo s; rows := rows s; orphanPool := orphanPool s; blockDownload := blockDownload s;
     ownHeaderView := ownHeaderView s; headerFlushCount := x; stateSnapshot := stateSnapshot s; queue := queue s |}.
Definition set_snapshot (x : BestState) (s : chain) : chain :=
  {| ix := ix s; rules := rules s; utxo := utxo s; rows := rows s; orphanPool := orphanPool s; blockDownload := blockDownload s;
     ownHeaderView := ownHeaderView s; headerFlushCount := headerFlushCount s; stateSnapshot := x; queue := queue s |}.
Definition set_queue (x : queueState) (s : chain) : chain :=
  {| ix := ix s; rules := rules s; utxo := utxo s; rows := rows s; orphanPool := orphanPool s; blockDownload := blockDownload s;
     ownHeaderView := ownHeaderView s; headerFlushCount := headerFlushCount s; stateSnapshot := stateSnapshot s; queue := x |}.

Definition with_chain (b : ColdRead.BlockChain) (x : BlockIndex.state) : BlockIndex.state :=
  {| BlockIndex.hp := ColdRead.heap_ b; BlockIndex.bi := BlockIndex.bi x; BlockIndex.cold := ColdRead.coldCache b;
     BlockIndex.pool := BlockIndex.pool x; BlockIndex.sdb := BlockIndex.sdb x |}.
Definition with_heap (h : heap) (b : BlockIndex.blockIndex) (x : BlockIndex.state) : BlockIndex.state :=
  {| BlockIndex.hp := h; BlockIndex.bi := b; BlockIndex.cold := BlockIndex.cold x; BlockIndex.pool := BlockIndex.pool x;
     BlockIndex.sdb := BlockIndex.sdb x |}.
Definition set_rows_db (d : database) (s : chain) : chain := set_ix (BlockIndex.with_db d (ix s)) s.

(** ** Errors *)

Inductive chainError :=
  | ErrDuplicateBlock | ErrPreviousBlockUnknown | ErrInvalidAncestorBlock | ErrKnownInvalidBlock | ErrForkTooOld
  | ErrMinedBlockNotOnMainChain | ErrCheckpointTimeTooOld | ErrDifficultyTooLow
  | SanityError (e : ErrorCode)
  | ContextError (e : Context.contextError)
  | ConnectError (e : Connect.connectError)
  | AssertError | ErrBlockNotFound | QueueStopped | IndexError | UnknownBlock | GenesisBlock | NotConnected
  | ThresholdError (e : Threshold.thresholdError)
  | CacheError (e : UtxoCache.cacheError)
  | ViewError (e : UtxoView.viewError)
  | JournalError (e : UtxoSet.journalError).

(** [err.(RuleError)] *)
Definition isRuleError (e : chainError) : bool :=
  match e with
  | ContextError Context.AssertError | ContextError (Context.ChainError _) => false
  | ConnectError Connect.InconsistentView | ConnectError (Connect.ChainError _)
  | ConnectError (Connect.ViewError _) | ConnectError (Connect.CacheError _) => false
  | AssertError | ErrBlockNotFound | QueueStopped | IndexError | UnknownBlock | GenesisBlock | NotConnected
  | ThresholdError _ | CacheError _ | ViewError _ | JournalError _ => false
  | _ => true
  end.

Abbreviation M := (io chain chainError).

Definition get_ : M chain := fun s => Done (inl s, s).
(** A step on the state itself *)
Definition prim {A} (f : chain → run ((A + chainError) * chain)) : M A := f.
Definition modify_ (f : chain → chain) : M unit := fun s => Done (inl tt, f s).

(** Runs a call whose error the caller looks at *)
Definition attempt {A} (m : M A) : M (A + chainError) := fun s => r ← m s; Done (inl r.1, r.2).

Definition check_ {E} (tag : E → chainError) (r : run (option E)) : M unit :=
  e ← io_run r; match e with Some e => io_fail (tag e) | None => mret tt end.

(** ** Calls into the components *)

Definition thresholdChain (s : chain) : Threshold.chain :=
  {| Threshold.bc := BlockIndex.asChain (ix s); Threshold.deploymentCaches := deploymentCaches (rules s);
     Threshold.warningCaches := warningCaches (rules s); Threshold.unknownRulesWarned := unknownRulesWarned (rules s) |}.

(** Calls change nodes, the cold cache and the threshold caches, never the index,
    the views or the database. *)
Definition put_threshold (c : Threshold.chain) (s : chain) : chain :=
  set_rules {| deploymentCaches := Threshold.deploymentCaches c; warningCaches := Threshold.warningCaches c;
               unknownRulesWarned := Threshold.unknownRulesWarned c; checkpointNode := checkpointNode (rules s);
               nextCheckpoint := nextCheckpoint (rules s) |}
    (set_ix (with_chain (Threshold.bc c) (ix s)) s).

Definition inThreshold {A} (m : Threshold.M A) : M A := fun s =>
  r ← m (thresholdChain s);
  Done (match r.1 with inl a => inl a | inr e => inr (ThresholdError e) end, put_threshold r.2 s).

Definition put_context (c : Context.state) (s : chain) : chain :=
  let s := put_threshold (Context.chain_ c) s in
  set_rules {| deploymentCaches := deploymentCaches (rules s); warningCaches := warningCaches (rules s);
               unknownRulesWarned := unknownRulesWarned (rules s); checkpointNode := Context.checkpointNode c;
               nextCheckpoint := Context.nextCheckpoint c |} s.

Definition inContext {A} (m : Context.M A) : M A := fun s =>
  r ← m {| Context.chain_ := thresholdChain s; Context.checkpointNode := checkpointNode (rules s);
           Context.nextCheckpoint := nextCheckpoint (rules s) |};
  Done (match r.1 with inl a => inl a | inr e => inr (ContextError e) end, put_context r.2 s).

(** A check with its own view; the view comes back with the result. *)
Definition inConnect {A} (view : UtxoViewpoint) (m : Connect.M A) : M (A * UtxoViewpoint) := fun s =>
  r ← m {| Connect.chain_ := thresholdChain s; Connect.utxos := utxo s; Connect.view := view |};
  Done (match r.1 with inl a => inl (a, Connect.view r.2) | inr e => inr (ConnectError e) end,
        set_utxo (Connect.utxos r.2) (put_threshold (Connect.chain_ r.2) s)).

(** An operation of the cache outside of a transaction *)
Definition inCache {A} (m : UtxoCache.M A) : M A := fun s =>
  r ← m (utxo s);
  Done (match r.1 with inl a => inl a | inr e => inr (CacheError e) end, set_utxo r.2 s).

Definition inView {A} (view : UtxoViewpoint) (m : UtxoView.M A) : M (A * UtxoViewpoint) := fun s =>
  r ← m view;
  Done (match r.1 with inl a => inl (a, r.2) | inr e => inr (ViewError e) end, s).

Definition onIndex {A} (f : ColdRead.BlockChain → run (A * ColdRead.BlockChain)) : M A := fun s =>
  r ← f (BlockIndex.asChain (ix s)); Done (inl r.1, set_ix (with_chain r.2 (ix s)) s).

(** ** The block index *)

Definition nodeHeap : M heap := s ← get_; mret (BlockIndex.hp (ix s)).
Definition node (l : loc) : M blockNode := h ← nodeHeap; io_run (deref h l).
Definition LookupNode (hs : hash_t) : M (option loc) := s ← get_; mret (BlockIndex.LookupNode (BlockIndex.bi (ix s)) hs).

Definition SetStatusFlags (l : loc) (flags : Z) : M unit := fun s =>
  r ← BlockIndex.SetStatusFlags (BlockIndex.hp (ix s)) (BlockIndex.bi (ix s)) l flags;
  Done (inl tt, set_ix (with_heap r.1 r.2 (ix s)) s).
Definition UnsetStatusFlags (l : loc) (flags : Z) : M unit := fun s =>
  r ← BlockIndex.UnsetStatusFlags (BlockIndex.hp (ix s)) (BlockIndex.bi (ix s)) l flags;
  Done (inl tt, set_ix (with_heap r.1 r.2 (ix s)) s).

Definition viewOf (v : option ChainView.chainView) : ChainView.chainView := default ChainView.emptyView v.
Definition bestChain (s : chain) : ChainView.chainView := viewOf (BlockIndex.bestChainView (BlockIndex.bi (ix s))).
Definition bestHeader (s : chain) : ChainView.chainView :=
  match ownHeaderView s with Some v => v | None => viewOf (BlockIndex.bestHeaderView (BlockIndex.bi (ix s))) end.

(** The tip of a view; the code reads through the pointer at once. *)
Definition bestChainTip : M (loc * blockNode) :=
  s ← get_; l ← io_run (of_option (ChainView.tip (bestChain s))); nd ← node l; mret (l, nd).
Definition bestHeaderTip : M (loc * blockNode) :=
  s ← get_; l ← io_run (of_option (ChainView.tip (bestHeader s))); nd ← node l; mret (l, nd).

Definition put_views (c v : option ChainView.chainView) (s : chain) : chain :=
  set_ix (with_heap (BlockIndex.hp (ix s)) (BlockIndex.set_views c v (BlockIndex.bi (ix s))) (ix s)) s.

Definition setChainTip (l : option loc) : M unit := fun s =>
  c ← ChainView.setTip (BlockIndex.hp (ix s)) (bestChain s) l;
  Done (inl tt, put_views (Some c) (BlockIndex.bestHeaderView (BlockIndex.bi (ix s))) s).
Definition setHeaderTip (l : loc) : M unit := fun s =>
  v ← ChainView.setTip (BlockIndex.hp (ix s)) (bestHeader s) (Some l);
  Done (inl tt, match ownHeaderView s with
                | Some _ => set_headerView (Some v) s
                | None => put_views (BlockIndex.bestChainView (BlockIndex.bi (ix s))) (Some v) s
                end).

Definition chainContains (l : loc) : M bool :=
  s ← get_; io_run (ChainView.contains (BlockIndex.hp (ix s)) (bestChain s) l).
Definition headerContains (l : loc) : M bool :=
  s ← get_; io_run (ChainView.contains (BlockIndex.hp (ix s)) (bestHeader s) l).

(** Choices that Go leaves open: the order of map iterations and which recycled
    struct [sync.Pool] hands out, if any *)
Class Choices := {
  dirtyOrder : gset loc → list loc;
  indexOrder : gmap hash_t loc → list (hash_t * loc);
  orphanOrder : gmap hash_t Orphans.orphanBlock → list Orphans.orphanBlock;
  poolPick : list loc → option loc;
}.

(** [IndexManager] of the optional indexes *)
Record IndexManager := {
  ConnectIndex : WriteQueue.IndexManager;
  DisconnectIndex : Block → list SpentTxOut → bucket → run (bucket + unit);
}.

(** The clocks, read once per call: the time source in seconds and [time.Now] in
    nanoseconds *)
Record clock := { adjustedTime : Z; now : Z }.

Section chain.
Context {K : Compress.SecKeys} {R : Connect.ScriptRunner} {MO : UtxoCache.MapOrder} {CH : Choices}.
Context (p : Context.Params) (indexManager : option IndexManager) (clk : clock).

(** ** The write queue *)

Definition onDisk (s : chain) : disk :=
  {| WriteQueue.chainRows := BlockIndex.sdb (ix s); WriteQueue.spendJournal := journal (rows s);
     WriteQueue.utxoRows := UtxoCache.utxoBucket (utxo s); WriteQueue.indexRows := indexRows (rows s);
     WriteQueue.writewatermark := watermark (rows s) |}.

Definition with_disk (d : disk) (s : chain) : chain :=
  set_rows {| journal := WriteQueue.spendJournal d; indexRows := WriteQueue.indexRows d;
              watermark := WriteQueue.writewatermark d |}
    (set_utxo {| UtxoCache.cache := UtxoCache.cache (utxo s); UtxoCache.utxoBucket := WriteQueue.utxoRows d;
                 UtxoCache.consistency := WriteQueue.dbFetchUtxoStateConsistency (WriteQueue.chainRows d) |}
      (set_rows_db (WriteQueue.chainRows d) s)).

Definition writeBatch (items left : list writeItem) (sch : list bool) (s : chain) : run chain :=
  r ← WriteQueue.flushBatch (ConnectIndex <$> indexManager) true (onDisk s) items;
  Done (set_queue {| pending := left; stopped := stopped (queue s); schedule := sch |} (with_disk r.1 s)).

(** The next full batch of the writer *)
Definition writeNext (sch : list bool) (s : chain) : run chain :=
  let q := pending (queue s) in
  let n := Z.to_nat WriteQueue.writeQueueBatchSize in
  if zlen q <? WriteQueue.writeQueueBatchSize
  then Done (set_queue {| pending := q; stopped := stopped (queue s); schedule := sch |} s)
  else writeBatch (take n q) (drop n q) sch s.

(** What the writer did since the last transaction of the chain *)
Definition tick : M unit := fun s =>
  match schedule (queue s) with
  | true :: sch => s ← writeNext sch s; Done (inl tt, s)
  | false :: sch =>
      Done (inl tt, set_queue {| pending := pending (queue s); stopped := stopped (queue s); schedule := sch |} s)
  | [] => Done (inl tt, s)
  end.

(** [enqueue] blocks while the channel is full, until the writer has finished a batch. *)
Definition enqueue (item : writeItem) : M bool := fun s =>
  if stopped (queue s) then Done (inl false, s) else
  s ← (if WriteQueue.writeQueueCap + WriteQueue.writeQueueBatchSize <=? zlen (pending (queue s))
       then writeNext (schedule (queue s)) s else Done s);
  Done (inl true, set_queue {| pending := pending (queue s) ++ [item]; stopped := false;
                               schedule := schedule (queue s) |} s).

(** A barrier; how the items are split in batches cannot be seen on disk. *)
Definition syncNowBelow (maxHeight : Z) : M unit := fun s =>
  if stopped (queue s) then Done (inl tt, s) else
  s ← writeBatch (filter (WriteQueue.kept maxHeight) (pending (queue s))) [] (schedule (queue s)) s;
  Done (inl tt, s).

Definition syncNow : M unit := syncNowBelow (-1).

(** ** Transactions of the chain *)

(** The record of the best header names the tip of [bestHeader]; the rows by height
    follow the view of the index. *)
Definition putHeaderTip (s : chain) (x : BlockIndex.state) : run BlockIndex.state :=
  match ownHeaderView s ≫= ChainView.tip with
  | None => Done x
  | Some t =>
      nd ← deref (BlockIndex.hp (ix s)) t;
      Done (BlockIndex.with_db (ChainIO.dbPutBestHeaderState (BlockIndex.sdb x) (hash nd) (height nd)) x)
  end.

Definition flushToDB (forceEvict : bool) : M unit :=
  _ ← tick;
  prim (fun s =>
    let order := dirtyOrder (BlockIndex.dirty (BlockIndex.bi (ix s))) in
    x ← BlockIndex.flushToDB (ix s) order forceEvict;
    x ← match order with [] => Done x | _ => putHeaderTip s x end;
    Done (inl tt, set_ix x s)).

(** [b.db.Update(... b.utxoCache.flush(dbTx, mode, state))]: on an error the rows are
    rolled back, the cache is not. *)
Definition flushUtxo (mode : UtxoCache.FlushMode) (bestHash : hash_t) : M unit :=
  _ ← tick;
  prim (fun s =>
    r ← UtxoCache.flush (now clk) mode bestHash (utxo s);
    match r with
    | (inl _, u) =>
        let s := set_utxo u s in
        Done (inl tt, match UtxoCache.consistency u with
                      | Some hs => set_rows_db (WriteQueue.dbPutUtxoStateConsistency (BlockIndex.sdb (ix s)) hs) s
                      | None => s
                      end)
    | (inr e, u) => Done (inr (CacheError e), set_utxo (UtxoCache.set_cache (UtxoCache.cache u) (utxo s)) s)
    end).

(** [dbFetchBlockByNode] *)
Definition fetchBlockByNode (l : loc) : M Block :=
  _ ← tick;
  nd ← node l;
  s ← get_;
  match Orphans.bodies (orphanPool s) !! hash nd with
  | None => io_fail ErrBlockNotFound
  | Some b => mret {| Header := Header b; Transactions := Transactions b; BlockHeight := height nd |}
  end.

(** [newBlockNode] and [AddNode] *)
Definition newNode (header : Wire.BlockHeader) (prev : loc) (st : Z) : M loc := fun s =>
  let x := ix s in
  let h := BlockIndex.hp x in
  let pick := poolPick (BlockIndex.pool x) in
  let l := default (fresh (dom h)) pick in
  r ← BlockNode.newBlockNode h l 0 header (Some prev);
  let h := alter (BlockIndex.set_status st) l r.2 in
  b ← BlockIndex.AddNode h (BlockIndex.bi x) l;
  Done (inl l, set_ix {| BlockIndex.hp := h; BlockIndex.bi := b; BlockIndex.cold := BlockIndex.cold x;
                         BlockIndex.pool := filter (fun q => Some q ≠ pick) (BlockIndex.pool x);
                         BlockIndex.sdb := BlockIndex.sdb x |} s).

(** [errNotInMainChain] is the only error [dbFetchHeightByHash] returns, and it means that the
    block is not there. *)
Definition blockExists (hs : hash_t) : M bool :=
  o ← LookupNode hs;
  st ← match o with Some l => nd ← node l; mret (status nd) | None => mret 0 end;
  _ ← tick;
  s ← get_;
  let stored := bool_decide (is_Some (Orphans.bodies (orphanPool s) !! hs)) in
  match o with
  | Some l =>
      if BlockNode.HaveData st then
        if stored then mret true else
        _ ← UnsetStatusFlags l statusDataStored;
        _ ← flushToDB false;
        mret false
      else
        if negb stored then mret false else
        r ← io_run (ChainIO.dbFetchHeightByHash (BlockIndex.sdb (ix s)) hs);
        mret (match r with inl _ => true | inr _ => false end)
  | None =>
      if negb stored then mret false else
      r ← io_run (ChainIO.dbFetchHeightByHash (BlockIndex.sdb (ix s)) hs);
      mret (match r with inl _ => true | inr _ => false end)
  end.

(** ** Connecting one block *)

Definition newBestState (nd : blockNode) (blockSize blockWeight numTxns totalTxns medianTime : Z) : BestState :=
  {| WriteQueue.Hash := hash nd; WriteQueue.Height := height nd; WriteQueue.Bits := bits nd;
     WriteQueue.BlockSize := blockSize; WriteQueue.BlockWeight := blockWeight; WriteQueue.NumTxns := numTxns;
     WriteQueue.TotalTxns := totalTxns; WriteQueue.MedianTime := medianTime |}.

(** The snapshot for a node that becomes the tip, with its block *)
Definition bestStateOf (l : loc) (block : Block) (totalTxns : Z) : M BestState :=
  h ← nodeHeap;
  nd ← node l;
  medianTime ← io_run (BlockNode.CalcPastMedianTime (C := BlockNode.blockNode_ctx h) l);
  mret (newBestState nd (u64 (Sanity.BlockSerializeSize block)) (u64 (Sanity.GetBlockWeight block))
          (zlen (Transactions block)) (u64 totalTxns) medianTime).

Definition isCurrent : M bool := fun s =>
  b ← Threshold.isCurrent (fst <$> Connect.LatestCheckpoint (Context.base p)) (adjustedTime clk) (thresholdChain s);
  Done (inl b, s).

(** The rows of a connected block for the writer *)
Definition newItem (l : loc) (block : Block) (stxos : list SpentTxOut) (state : BestState) : M writeItem := fun s =>
  let x := ix s in
  nd ← deref (BlockIndex.hp x) l;
  nodeRows ← BlockIndex.snapshotDirtyLocked (BlockIndex.hp x) (BlockIndex.bi x) (dirtyOrder (BlockIndex.dirty (BlockIndex.bi x)));
  let '(delta, c) := UtxoCache.takeDelta (UtxoCache.cache (utxo s)) in
  header ← match ChainView.tip (bestHeader s) with
           | Some t => tn ← deref (BlockIndex.hp x) t; Done (hash tn, height tn)
           | None => Done (ColdRead.zeroHash, -1)
           end;
  Done (inl {| WriteQueue.height := height nd; WriteQueue.block := Some block; WriteQueue.nodeRows := nodeRows;
               WriteQueue.bestTipHash := hash nd; WriteQueue.tipHeight := height nd; WriteQueue.tipWork := workSum nd;
               WriteQueue.bestState := Some state; WriteQueue.blockHash := blockHash block; WriteQueue.stxos := stxos;
               WriteQueue.bestHeaderHash := header.1; WriteQueue.bestHeaderHeight := header.2;
               WriteQueue.deltas := delta |},
        set_utxo (UtxoCache.set_cache c (utxo s)) s).

Definition set_hotFloor (floor : Z) (c : UtxoCache.utxoCache) : UtxoCache.utxoCache :=
  {| UtxoCache.maxMemory := UtxoCache.maxMemory c; UtxoCache.cachedEntries := UtxoCache.cachedEntries c;
     UtxoCache.totalEntryMemory := UtxoCache.totalEntryMemory c; UtxoCache.dirtyOps := UtxoCache.dirtyOps c;
     UtxoCache.trackDeltas := UtxoCache.trackDeltas c; UtxoCache.deltaPoints := UtxoCache.deltaPoints c;
     UtxoCache.hotFloor := floor; UtxoCache.lastFlushHash := UtxoCache.lastFlushHash c;
     UtxoCache.lastFlushTime := UtxoCache.lastFlushTime c |}.

Definition finishFlushLocked : M unit := modify_ (fun s => set_ix (BlockIndex.finishFlushLocked (ix s) false) s).

(** The memory is compared in 64 bits without sign. *)
Definition flushWhenFull (state : BestState) : M unit :=
  s ← get_;
  usage ← io_run (UtxoCache.totalMemoryUsage (UtxoCache.cache (utxo s)));
  if UtxoCache.maxMemory (UtxoCache.cache (utxo s)) <=? usage then
    _ ← syncNow;
    flushUtxo UtxoCache.FlushRequired (WriteQueue.Hash state)
  else mret tt.

Definition connectBlock (l : loc) (block : Block) (stxos : list SpentTxOut) : M unit :=
  tip ← bestChainTip;
  if negb (bool_decide (prevHash block = hash tip.2)) then io_fail AssertError else
  spent ← io_run (countSpentOutputs (Transactions block));
  if negb (zlen stxos =? spent) then io_fail AssertError else
  current ← isCurrent;
  _ ← (if current : bool then inThreshold (Threshold.warnUnknownRuleActivations (Connect.thresholds (Context.base p)) l)
       else mret tt);
  s ← get_;
  state ← bestStateOf l block (WriteQueue.TotalTxns (stateSnapshot s) + zlen (Transactions block));
  item ← newItem l block stxos state;
  _ ← finishFlushLocked;
  sent ← enqueue item;
  if negb sent then io_fail QueueStopped else
  _ ← setChainTip (Some l);
  nd ← node l;
  _ ← modify_ (fun s => set_utxo (UtxoCache.set_cache (set_hotFloor (i32 (height nd - utxoHotDepth)) (UtxoCache.cache (utxo s))) (utxo s)) s);
  _ ← modify_ (set_snapshot state);
  flushWhenFull state.

(** ** Disconnecting one block *)

(** The transaction of [disconnectBlock]: the rows, the UTXO set with the committed
    view, and the spend journal change together; on an error the rows are rolled
    back, while the cache stays flushed. *)
Definition disconnectRows (nd : blockNode) (par : option blockNode) (block : Block) (view : UtxoViewpoint) (state : BestState) :
    M UtxoViewpoint := fun s =>
  let d := ChainIO.dbPutBestState (BlockIndex.sdb (ix s)) (WriteQueue.Hash state) (WriteQueue.Height state)
             (WriteQueue.TotalTxns state) (workSum nd) in
  d ← match par with
      | Some pn => WriteQueue.dbPutBestTipSnapshot d (hash pn) (height pn) (workSum pn)
      | None => Done d
      end;
  let d := ChainIO.dbRemoveBlockIndex d (blockHash block) (height nd) in
  r ← UtxoView.disconnectUtxos (now clk) (WriteQueue.Hash state) view (utxo s);
  let rollback (u : UtxoCache.state) := set_utxo (UtxoCache.set_cache (UtxoCache.cache u) (utxo s)) s in
  match r with
  | (inr e, u) => Done (inr (CacheError e), rollback u)
  | (inl view, u) =>
      let d := match UtxoCache.consistency u with
               | Some hs => WriteQueue.dbPutUtxoStateConsistency d hs
               | None => d
               end in
      j ← UtxoSet.dbFetchSpendJournalEntry (journal (rows s)) d (blockHash block) (Transactions block);
      match j with
      | inr e => Done (inr (JournalError e), rollback u)
      | inl stxos =>
          x ← match indexManager with
              | Some m => DisconnectIndex m block stxos (indexRows (rows s))
              | None => Done (inl (indexRows (rows s)))
              end;
          match x with
          | inr _ => Done (inr IndexError, rollback u)
          | inl idx =>
              Done (inl view,
                set_rows {| journal := UtxoSet.dbRemoveSpendJournalEntry (journal (rows s)) (blockHash block);
                            indexRows := idx; watermark := watermark (rows s) |}
                  (set_utxo u (set_rows_db d s)))
          end
      end
  end.

Definition disconnectBlock (l : loc) (block : Block) (view : UtxoViewpoint) : M UtxoViewpoint :=
  nd ← node l;
  tip ← bestChainTip;
  if negb (bool_decide (hash nd = hash tip.2)) then io_fail AssertError else
  prev ← io_run (of_option (parent nd));
  prevBlock ← fetchBlockByNode prev;
  _ ← flushToDB false;
  prevNode ← node prev;
  _ ← syncNowBelow (height prevNode);
  s ← get_;
  state ← bestStateOf prev prevBlock (WriteQueue.TotalTxns (stateSnapshot s) - zlen (Transactions block));
  _ ← tick;
  nd ← node l;
  par ← match parent nd with Some q => pn ← node q; mret (Some pn) | None => mret None end;
  view ← disconnectRows nd par block view state;
  _ ← setChainTip (parent nd);
  _ ← modify_ (set_snapshot state);
  mret view.

(** ** Reorganisation *)

(** From the node down to the fork, last node first; the flag says that an invalid
    node was met. *)
Fixpoint attachLoop (fuel : nat) (h : heap) (fork : loc) (n : option loc) (attach : list loc) : run (bool * list loc) :=
  match n with
  | None => Done (false, attach)
  | Some l =>
      if bool_decide (l = fork) then Done (false, attach) else
      nd ← deref h l;
      if BlockNode.KnownInvalid (status nd) then Done (true, attach) else
      match fuel with
      | O => NoFuel
      | S fuel => attachLoop fuel h fork (parent nd) (l :: attach)
      end
  end.

Fixpoint detachLoop (fuel : nat) (h : heap) (fork : loc) (n : option loc) (detach : list loc) : run (list loc) :=
  match n with
  | None => Done detach
  | Some l =>
      if bool_decide (l = fork) then Done detach else
      match fuel with
      | O => NoFuel
      | S fuel => nd ← deref h l; detachLoop fuel h fork (parent nd) (detach ++ [l])
      end
  end.

Fixpoint flagAll (ls : list loc) (flags : Z) : M unit :=
  match ls with
  | [] => mret tt
  | l :: ls => _ ← SetStatusFlags l flags; flagAll ls flags
  end.

Definition getReorganizeNodes (l : loc) : M (list loc * list loc) :=
  nd ← node l;
  match parent nd with
  | None => mret ([], [])
  | Some q =>
      qn ← node q;
      if BlockNode.KnownInvalid (status qn) then
        _ ← SetStatusFlags l BlockNode.statusInvalidAncestor; mret ([], [])
      else
        s ← get_;
        h ← nodeHeap;
        fork ← io_run (ChainView.findFork h (bestChain s) (Some l));
        match fork with
        | None => mret ([], [])
        | Some forkNode =>
            '(invalidChain, attachNodes) ← io_run (attachLoop (S (Z.to_nat (height nd))) h forkNode (Some l) []);
            if invalidChain : bool then
              _ ← flagAll attachNodes BlockNode.statusInvalidAncestor; mret ([], [])
            else
              tip ← io_run (of_option (ChainView.tip (bestChain s)));
              tn ← node tip;
              detachNodes ← io_run (detachLoop (S (Z.to_nat (height tn))) h forkNode (Some tip) []);
              mret (detachNodes, attachNodes)
        end
  end.

Definition fetchInputUtxos (block : Block) (view : UtxoViewpoint) : M UtxoViewpoint :=
  _ ← tick;
  inCache (fun u => UtxoView.fetchInputUtxos block view u).

(** The blocks to disconnect, with the spent outputs of the journal; the view goes
    back to the fork. *)
Fixpoint verifyDetach (ns : list loc) (view : UtxoViewpoint) :
    M (list Block * list (list SpentTxOut) * UtxoViewpoint) :=
  match ns with
  | [] => mret ([], [], view)
  | l :: ns =>
      block ← fetchBlockByNode l;
      nd ← node l;
      if negb (bool_decide (hash nd = blockHash block)) then io_fail AssertError else
      view ← fetchInputUtxos block view;
      _ ← tick;
      s ← get_;
      j ← io_run (UtxoSet.dbFetchSpendJournalEntry (journal (rows s)) (BlockIndex.sdb (ix s)) (blockHash block) (Transactions block));
      match j with
      | inr e => io_fail (JournalError e)
      | inl stxos =>
          _ ← tick;
          s ← get_;
          '(stxos, view) ← inView view (UtxoView.disconnectTransactions (UtxoCache.utxoBucket (utxo s)) block stxos);
          '(blocks, spent, view) ← verifyDetach ns view;
          mret (block :: blocks, stxos :: spent, view)
      end
  end.

(** The blocks to connect: each is validated unless it was before; the first one that
    breaks a rule is marked, and those on top of it. *)
Fixpoint verifyAttach (ns : list loc) (view : UtxoViewpoint) : M (list Block) :=
  match ns with
  | [] => mret []
  | l :: ns =>
      block ← fetchBlockByNode l;
      nd ← node l;
      view ← (if BlockNode.KnownValid (status nd) then
                view ← fetchInputUtxos block view;
                r ← inView view (UtxoView.connectTransactions block None);
                mret r.2
              else
                _ ← tick;
                r ← attempt (inConnect view (Connect.checkConnectBlock (Context.base p) l block None));
                match r with
                | inl r => _ ← SetStatusFlags l BlockNode.statusValid; mret r.2
                | inr e =>
                    _ ← (if isRuleError e then
                           _ ← SetStatusFlags l BlockNode.statusValidateFailed;
                           flagAll ns BlockNode.statusInvalidAncestor
                         else mret tt);
                    io_fail e
                end);
      blocks ← verifyAttach ns view;
      mret (block :: blocks)
  end.

(** [n.parent.hash], which dereferences the parent *)
Definition parentNodeHash (l : loc) : M hash_t :=
  nd ← node l; q ← io_run (of_option (parent nd)); qn ← node q; mret (hash qn).

Definition verifyReorganizationValidity (detachNodes attachNodes : list loc) :
    M (list Block * list Block * list (list SpentTxOut)) :=
  match detachNodes, attachNodes with
  | [], [] => mret ([], [], [])
  | _, _ =>
      tip ← bestChainTip;
      _ ← match head detachNodes with
          | Some f => fn ← node f; if bool_decide (hash fn = hash tip.2) then mret tt else io_fail AssertError
          | None => mret tt
          end;
      _ ← match head attachNodes, last detachNodes with
          | Some f, Some l =>
              hf ← parentNodeHash f;
              hl ← parentNodeHash l;
              if bool_decide (hf = hl) then mret tt else io_fail AssertError
          | _, _ => mret tt
          end;
      view ← inView NewUtxoViewpoint (UtxoView.SetBestHash (hash tip.2));
      '(detachBlocks, detachSpentTxOuts, view) ← verifyDetach detachNodes view.2;
      attachBlocks ← verifyAttach attachNodes view;
      mret (detachBlocks, attachBlocks, detachSpentTxOuts)
  end.

Fixpoint disconnectBlocks (ns : list loc) (blocks : list Block) (spent : list (list SpentTxOut)) (view : UtxoViewpoint) : M unit :=
  match ns with
  | [] => mret tt
  | l :: ns =>
      block ← io_run (index blocks 0);
      stxos ← io_run (index spent 0);
      view ← fetchInputUtxos block view;
      _ ← tick;
      s ← get_;
      r ← inView view (UtxoView.disconnectTransactions (UtxoCache.utxoBucket (utxo s)) block stxos);
      view ← disconnectBlock l block r.2;
      disconnectBlocks ns (tail blocks) (tail spent) view
  end.

(** [utxoCache.connectTransactions] with a slice for the spent outputs *)
Definition connectTransactions (block : Block) : M (list SpentTxOut) :=
  _ ← tick;
  r ← inCache (UtxoCache.connectTransactions (Transactions block) (BlockHeight block) (Some []));
  mret (default [] r).

Fixpoint connectBlocks (ns : list loc) (blocks : list Block) : M unit :=
  match ns with
  | [] => mret tt
  | l :: ns =>
      block ← io_run (index blocks 0);
      stxos ← connectTransactions block;
      _ ← connectBlock l block stxos;
      connectBlocks ns (tail blocks)
  end.

Definition reorganizeChain (detachNodes attachNodes : list loc) : M unit :=
  '(detachBlocks, attachBlocks, detachSpentTxOuts) ← verifyReorganizationValidity detachNodes attachNodes;
  tip ← bestChainTip;
  view ← inView NewUtxoViewpoint (UtxoView.SetBestHash (hash tip.2));
  _ ← disconnectBlocks detachNodes detachBlocks detachSpentTxOuts view.2;
  connectBlocks attachNodes attachBlocks.

(** ** Chain selection *)

Definition reorgWindowBoundary (s : chain) : Z :=
  let b := BlockIndex.bi (ix s) in
  if BlockIndex.windowSize b <=? 0 then 0 else BlockIndex.windowBoundary b (ChainView.viewHeight (bestChain s)).

Definition verifyForkInWindow (l : loc) : M unit :=
  s ← get_;
  let w := BlockIndex.windowSize (BlockIndex.bi (ix s)) in
  _ ← (if 0 <? w then onIndex (fun b => b ← ColdRead.repairAncestorChain b (Some l) w; Done (tt, b)) else mret tt);
  s ← get_;
  h ← nodeHeap;
  fork ← io_run (ChainView.findFork h (bestChain s) (Some l));
  match fork with
  | None => io_fail ErrForkTooOld
  | Some f =>
      fn ← node f;
      if (0 <? w) && (height fn <? reorgWindowBoundary s) then io_fail ErrForkTooOld else mret tt
  end.

(** The block extends the best chain. *)
Definition extendBestChain (l : loc) (block : Block) (fastAdd : bool) : M bool :=
  nd ← node l;
  let fastAdd := fastAdd || BlockNode.KnownValid (status nd) in
  _ ← (if fastAdd then mret tt else
         view ← inView NewUtxoViewpoint (UtxoView.SetBestHash (prevHash block));
         _ ← tick;
         r ← attempt (inConnect view.2 (Connect.checkConnectBlock (Context.base p) l block None));
         match r with
         | inl _ => _ ← SetStatusFlags l BlockNode.statusValid; flushToDB false
         | inr e =>
             if isRuleError e then
               _ ← SetStatusFlags l BlockNode.statusValidateFailed; _ ← flushToDB false; io_fail e
             else io_fail e
         end);
  stxos ← connectTransactions block;
  r ← attempt (connectBlock l block stxos);
  match r with
  | inr e =>
      _ ← (if isRuleError e then SetStatusFlags l BlockNode.statusValidateFailed else mret tt);
      _ ← flushToDB false;
      io_fail e
  | inl _ =>
      nd ← node l;
      _ ← (if fastAdd || negb (BlockNode.KnownValid (status nd)) then
             _ ← SetStatusFlags l BlockNode.statusValid; flushToDB false
           else mret tt);
      mret true
  end.

Definition connectBestChain (l : loc) (block : Block) (flags : Z) : M bool :=
  tip ← bestChainTip;
  if bool_decide (prevHash block = hash tip.2) then extendBestChain l block (hasFlag flags BFFastAdd) else
  nd ← node l;
  if workSum nd <=? workSum tip.2 then
    _ ← verifyForkInWindow l;
    s ← get_;
    h ← nodeHeap;
    fork ← io_run (ChainView.findFork h (bestChain s) (Some l));
    f ← io_run (of_option fork);
    _ ← node f;
    mret false
  else
    _ ← verifyForkInWindow l;
    '(detachNodes, attachNodes) ← getReorganizeNodes l;
    r ← attempt (reorganizeChain detachNodes attachNodes);
    _ ← flushToDB false;
    match r with inl _ => mret true | inr e => io_fail e end.

(** ** Accepting a block *)

(** A block of the local miner has to lie on the header chain of the network. *)
Definition minerGuard (prev : blockNode) (block : Block) (blockHeight : Z) : M unit :=
  s ← get_;
  match ChainView.tip (bestHeader s) with
  | None => io_fail ErrMinedBlockNotOnMainChain
  | Some t =>
      tn ← node t;
      if height tn <? height prev then io_fail ErrMinedBlockNotOnMainChain else
      _ ← match ChainView.nodeByHeight (bestHeader s) (height prev) with
          | Some q => qn ← node q; if bool_decide (hash qn = hash prev) then mret tt else io_fail ErrMinedBlockNotOnMainChain
          | None => mret tt
          end;
      match ChainView.nodeByHeight (bestHeader s) blockHeight with
      | Some q => qn ← node q; if bool_decide (hash qn = blockHash block) then mret tt else io_fail ErrMinedBlockNotOnMainChain
      | None => mret tt
      end
  end.

(** The body is stored, and the cursor of the download moves up. *)
Definition storeBody (block : Block) (blockHeight : Z) : M unit :=
  _ ← tick;
  modify_ (fun s =>
    let s := set_orphans (Orphans.dbStoreBlock block (orphanPool s)) s in
    if match blockDownload s with None => true | Some (_, g) => i32 g <? blockHeight end then
      set_download (Some (blockHash block, u32 blockHeight))
        (set_rows_db (ChainIO.dbPutBestBlockDownloadState (BlockIndex.sdb (ix s)) (blockHash block) blockHeight) s)
    else s).

(** The node of the block: the one of its header if there is one, linked to its parent
    again if eviction cut the link *)
Definition nodeForBlock (block : Block) (prev : loc) : M loc :=
  o ← LookupNode (blockHash block);
  match o with
  | Some l =>
      _ ← SetStatusFlags l statusDataStored;
      nd ← node l;
      _ ← match parent nd with
          | Some _ => mret tt
          | None => prim (fun s =>
              h ← BlockNode.buildAncestor (alter (BlockNode.set_parent (Some prev)) l (BlockIndex.hp (ix s))) l;
              Done (inl tt, set_ix (with_heap h (BlockIndex.bi (ix s)) (ix s)) s))
          end;
      mret l
  | None => newNode (Header block) prev (Z.lor statusDataStored BlockNode.statusHeaderStored)
  end.

Definition with_height (block : Block) (hgt : Z) : Block :=
  {| Header := Header block; Transactions := Transactions block; BlockHeight := hgt |}.

Definition maybeAcceptBlock (block : Block) (flags : Z) : M bool :=
  o ← LookupNode (prevHash block);
  match o with
  | None => io_fail ErrPreviousBlockUnknown
  | Some prev =>
      pn ← node prev;
      inChain ← chainContains prev;
      if negb inChain && BlockNode.KnownInvalid (status pn) then io_fail ErrInvalidAncestorBlock else
      let blockHeight := i32 (height pn + 1) in
      let block := with_height block blockHeight in
      _ ← (if hasFlag flags BFMinerSubmit then minerGuard pn block blockHeight else mret tt);
      _ ← tick;
      _ ← inContext (Context.checkBlockContext p block prev flags);
      _ ← storeBody block blockHeight;
      l ← nodeForBlock block prev;
      _ ← flushToDB false;
      isMainChain ← connectBestChain l block flags;
      _ ← UnsetStatusFlags l BlockNode.statusInvalidAncestor;
      _ ← flushToDB false;
      _ ← (if isMainChain : bool then
             hdrTip ← bestHeaderTip;
             nd ← node l;
             if workSum hdrTip.2 <? workSum nd then setHeaderTip l else mret tt
           else mret tt);
      mret isMainChain
  end.

(** Blocks that are stored but not connected *)
Definition ResumeBlockConnect (hs : hash_t) (flags : Z) : M bool :=
  o ← LookupNode hs;
  connected ← match o with Some l => chainContains l | None => mret false end;
  if connected : bool then mret true else
  o ← match o with
      | Some l => mret (Some l)
      | None => _ ← tick; onIndex (fun b => ColdRead.materializeColdNode b hs)
      end;
  match o with
  | None => io_fail ErrBlockNotFound
  | Some l => block ← fetchBlockByNode l; maybeAcceptBlock block flags
  end.

(** ** Orphans *)

Definition removeOrphan (o : Orphans.orphanBlock) : M unit :=
  modify_ (fun s => set_orphans (Orphans.removeOrphanBlock o (orphanPool s)) s).

(** The loops of [processOrphans]: [hashes] are the accepted blocks whose dependents are
    still to be looked at.  Each round takes a hash off the list or an orphan out of
    the pool. *)
Fixpoint processOrphans_loop (accept : Block → M bool) (fuel : nat) (hashes : list hash_t) : M unit :=
  match hashes with
  | [] => mret tt
  | hs :: rest =>
      match fuel with
      | O => io_run NoFuel
      | S fuel =>
          s ← get_;
          match Orphans.dependents hs (orphanPool s) with
          | [] => processOrphans_loop accept fuel rest
          | orphan :: _ =>
              let block := Orphans.block orphan in
              _ ← removeOrphan orphan;
              r ← attempt (accept block);
              match r with
              | inr e =>
                  _ ← modify_ (fun s => set_orphans (Orphans.dbRemoveOrphanBlockData block (orphanPool s)) s);
                  io_fail e
              | inl _ => processOrphans_loop accept fuel (hashes ++ [blockHash block])
              end
          end
      end
  end.

Definition orphanFuel (s : chain) : nat := S (2 * size (Orphans.orphans (orphanPool s))).

Definition processOrphans (hs : hash_t) (flags : Z) : M unit :=
  s ← get_;
  processOrphans_loop (fun block => maybeAcceptBlock block flags) (orphanFuel s) [hs].

(** ** Headers *)

(** The header of a node that is known: stale marks of a rollback are cleared when its
    parent is on one of the best chains. *)
Definition knownHeader (l prev : loc) : M unit :=
  nd ← node l;
  inChain ← chainContains prev;
  onBest ← (if inChain : bool then mret true else headerContains prev);
  if negb (Z.land (status nd) BlockNode.statusValidateFailed =? 0) then
    if onBest : bool then UnsetStatusFlags l BlockNode.statusValidateFailed else io_fail ErrKnownInvalidBlock
  else if negb (Z.land (status nd) BlockNode.statusInvalidAncestor =? 0) then
    if onBest : bool then UnsetStatusFlags l BlockNode.statusInvalidAncestor else io_fail ErrInvalidAncestorBlock
  else mret tt.

(** The chain of headers with the most work; the fork is only logged. *)
Definition selectHeader (l : loc) (header : Wire.BlockHeader) : M bool :=
  tip ← bestHeaderTip;
  nd ← node l;
  if bool_decide (Wire.PrevBlock header = hash tip.2) then _ ← setHeaderTip l; mret true
  else if workSum nd <=? workSum tip.2 then
    s ← get_;
    h ← nodeHeap;
    _ ← io_run (ChainView.findFork h (bestHeader s) (Some l));
    mret false
  else _ ← setHeaderTip l; mret true.

Definition countHeader : M unit :=
  s ← get_;
  let n := headerFlushCount s + 1 in
  if headerFlushBatchSize <=? n then
    _ ← modify_ (set_flushCount 0); flushToDB true
  else modify_ (set_flushCount n).

Context {P : Sanity.PowHash}.

Definition powLimit : Z := Difficulty.PowLimit (Context.difficulty p).

Definition maybeAcceptBlockHeader (header : Wire.BlockHeader) (flags : Z) (skipCheckpoint : bool) : M bool :=
  o ← LookupNode (Wire.PrevBlock header);
  match o with
  | None => io_fail ErrPreviousBlockUnknown
  | Some prev =>
      pn ← node prev;
      inChain ← chainContains prev;
      if negb inChain && BlockNode.KnownInvalid (status pn) then io_fail ErrInvalidAncestorBlock else
      known ← LookupNode (BlockNode.headerHash header);
      done ← match known with
             | Some l => _ ← knownHeader l prev; headerContains l
             | None => mret false
             end;
      if done : bool then mret true else
      _ ← check_ SanityError (Sanity.CheckBlockHeaderSanity header powLimit (adjustedTime clk) flags);
      _ ← tick;
      _ ← inContext (Context.CheckBlockHeaderContext p header prev flags skipCheckpoint);
      l ← match known with
          | Some l => mret l
          | None => newNode header prev BlockNode.statusHeaderStored
          end;
      isMainChain ← selectHeader l header;
      _ ← countHeader;
      mret isMainChain
  end.

Definition ProcessBlockHeader := maybeAcceptBlockHeader.

(** ** Processing a block *)

(** A block whose parent is unknown: no proof of work is checked. *)
Definition acceptOrphan (block : Block) (flags : Z) : M unit :=
  _ ← check_ SanityError (Sanity.checkBlockSanity block powLimit (adjustedTime clk) (Z.lor flags BFNoPoWCheck));
  _ ← tick;
  prim (fun s =>
    let pool := Orphans.dbPutOrphanBlock block (orphanPool s) in
    let pool := Orphans.set_diskBytes (Orphans.orphanDiskBytes pool + Sanity.BlockSerializeSize block) pool in
    pool ← Orphans.addOrphanBlock (orphanOrder (Orphans.orphans pool)) (now clk) block pool;
    Done (inl tt, set_orphans pool s)).

(** Deep blocks of the header chain keep their proof of work unchecked. *)
Definition skipsPoW (block : Block) : M bool :=
  o ← LookupNode (prevHash block);
  match o with
  | Some prev =>
      pn ← node prev;
      tip ← bestHeaderTip;
      mret (i32 (height pn + 1) <=? i32 (height tip.2 - consensusPowSkipDepth))
  | None =>
      _ ← tick;
      s ← get_;
      let d := BlockIndex.sdb (ix s) in
      r ← io_run (ChainIO.dbFetchHeightByHash d (prevHash block));
      mret (match r with
            | inr _ => false
            | inl prevHeight =>
                match ChainIO.dbFetchHashByHeight d (i32 (prevHeight + 1)) with
                | inl hs => bool_decide (hs = blockHash block)
                | inr _ => false
                end
            end)
  end.

(** The checks against the last checkpoint; times are seconds. *)
Definition checkAgainstCheckpoint (block : Block) (fastAdd : bool) : M unit :=
  _ ← tick;
  cp ← inContext (Context.findPreviousCheckpoint p);
  match cp with
  | None => mret tt
  | Some c =>
      cn ← node c;
      let header := Header block in
      if Wire.Timestamp header <? timestamp cn then io_fail ErrCheckpointTimeTooOld else
      if fastAdd then mret tt else
      let duration := (Wire.Timestamp header - timestamp cn) * Difficulty.time_Second in
      requiredBits ← io_run (Difficulty.calcEasiestDifficulty (Context.difficulty p) (bits cn) duration);
      if WorkMath.CompactToBig requiredBits <? WorkMath.CompactToBig (Wire.Bits header)
      then io_fail ErrDifficultyTooLow else mret tt
  end.

(** The result says whether the block is on the main chain and whether it is an orphan. *)
Definition ProcessBlock (block : Block) (flags : Z) : M (bool * bool) :=
  exists_ ← blockExists (blockHash block);
  if exists_ : bool then io_fail ErrDuplicateBlock else
  s ← get_;
  if Orphans.IsKnownOrphan (blockHash block) (orphanPool s) then io_fail ErrDuplicateBlock else
  prevHashExists ← blockExists (prevHash block);
  if negb prevHashExists then _ ← acceptOrphan block flags; mret (false, true) else
  skip ← skipsPoW block;
  let flags := if skip : bool then Z.lor flags BFNoPoWCheck else flags in
  _ ← check_ SanityError (Sanity.checkBlockSanity block powLimit (adjustedTime clk) flags);
  _ ← checkAgainstCheckpoint block (hasFlag flags BFFastAdd);
  isMainChain ← maybeAcceptBlock block flags;
  _ ← processOrphans (blockHash block) flags;
  mret (isMainChain, false).

(** ** Flushing *)

Definition FlushUtxoCache (mode : UtxoCache.FlushMode) : M unit :=
  _ ← syncNow;
  s ← get_;
  flushUtxo mode (WriteQueue.Hash (stateSnapshot s)).

Definition BestSnapshot (s : chain) : BestState := stateSnapshot s.

Definition BestHeader : M (hash_t * Z) := tip ← bestHeaderTip; mret (hash tip.2, height tip.2).

End chain.

End Chain.
