(* ===== verification/ChainSpec.v ===== *)
(** * ChainSpec: what block processing guarantees

    Theorems about [Chain].  Programs in the state and error monad are related to a
    preorder on states ([steps]): a program respects the preorder when every run of it
    does, whatever it returns.  The rules for the monad's constructs let the frame
    conditions of the long handlers be derived from those of their calls. *)

From S2P Require Import Prelude WorkMath Compress ChainHash Wire BlockNode ChainView ChainIO ColdRead Difficulty BlockIndex.
From S2P Require Import Merkle Threshold Script UtxoSet UtxoCache UtxoView Sanity Connect ScriptNum Context WriteQueue Orphans Chain.

Module ChainSpec.
Import BlockNode (hash_t, loc, heap, blockNode, deref, hash, height, parent, status, workSum, timestamp, bits).
Import UtxoView (Block, Header, Transactions, BlockHeight, UtxoViewpoint).
Import Sanity (BFFastAdd, BFNoPoWCheck, hasFlag).
Import Orphans (blockHash, prevHash).
Import Chain.

(** ** Runs that respect a preorder *)

Create HintDb steps.

Definition steps {S E A} (R : relation S) (m : io S E A) : Prop := ∀ s r s', m s = Done (r, s') → R s s'.

Section rules.
Context {S E : Type} (R : relation S) {PO : PreOrder R}.

Lemma steps_ret {A} (a : A) : steps R (mret a : io S E A).
Proof. intros s r s' [= <- <-]. reflexivity. Qed.

Lemma steps_fail {A} (e : E) : steps R (io_fail e : io S E A).
Proof. intros s r s' [= <- <-]. reflexivity. Qed.

Lemma steps_run {A} (m : run A) : steps R (io_run m : io S E A).
Proof. intros s r s'. unfold io_run. destruct m; [|done..]. intros [= <- <-]. reflexivity. Qed.

Lemma steps_bind {A B} (m : io S E A) (f : A → io S E B) : steps R m → (∀ a, steps R (f a)) → steps R (m ≫= f).
Proof.
  intros Hm Hf s r s'. unfold mbind, io_bind. destruct (m s) as [[[a|e] s1]| |] eqn:E1; [|intros [= <- <-]; by eapply Hm|done..].
  intros E2. etransitivity; [by eapply Hm|by eapply Hf].
Qed.

End rules.

#[export] Hint Extern 0 (steps _ _) => apply steps_ret; apply _ : steps.
#[export] Hint Extern 0 (steps _ _) => apply steps_fail; apply _ : steps.
#[export] Hint Extern 0 (steps _ _) => apply steps_run; apply _ : steps.

Lemma steps_attempt (R : relation chain) {A} (m : M A) : steps R m → steps R (attempt m).
Proof.
  intros Hm s r s'. unfold attempt. destruct (m s) as [[r1 s1]| |] eqn:E1; [|done..]. intros [= <- <-]. by eapply Hm.
Qed.

#[export] Hint Resolve steps_attempt : steps.

Lemma io_inv {S E A B} (m : io S E A) (f : A → io S E B) s b s' :
  (m ≫= f) s = Done (inl b, s') → ∃ a s1, m s = Done (inl a, s1) ∧ f a s1 = Done (inl b, s').
Proof. unfold mbind, io_bind. destruct (m s) as [[[a|e] s1]| |]; [|done..]. eauto. Qed.

(** Equality of a part of the state *)
Definition same {S B} (f : S → B) : relation S := fun s s' => f s' = f s.

#[export] Instance same_preorder {S B} (f : S → B) : PreOrder (same f).
Proof. split; [done|]. intros x y z. unfold same. congruence. Qed.

(** Splits a program along its constructs and closes the calls with the database *)
Ltac walk_steps :=
  repeat (lazymatch goal with
    | |- steps _ (_ ≫= _) => apply steps_bind; [apply _|..|intros ?]
    | |- steps _ (match ?x with _ => _ end) => destruct x
    | |- steps _ (if ?x then _ else _) => destruct x
    | |- steps _ (let '(_, _) := ?x in _) => destruct x
    end); auto with steps.

(** Reads of the state *)
Lemma steps_get (R : relation chain) {PO : PreOrder R} : steps R get_.
Proof. intros s r s' [= <- <-]. reflexivity. Qed.

#[export] Hint Extern 0 (steps _ get_) => apply steps_get; apply _ : steps.

Section reads.
Context (R : relation chain) {PO : PreOrder R}.

Lemma steps_nodeHeap : steps R nodeHeap.
Proof. unfold nodeHeap. walk_steps. Qed.
Lemma steps_readNode l : steps R (node l).
Proof. unfold node. apply steps_bind; [apply _|apply steps_nodeHeap|]. walk_steps. Qed.
Lemma steps_lookup hs : steps R (LookupNode hs).
Proof. unfold LookupNode. walk_steps. Qed.
Lemma steps_chainTip : steps R bestChainTip.
Proof. unfold bestChainTip. walk_steps. apply steps_readNode. Qed.
Lemma steps_headerTip : steps R bestHeaderTip.
Proof. unfold bestHeaderTip. walk_steps. apply steps_readNode. Qed.
Lemma steps_chainContains l : steps R (chainContains l).
Proof. unfold chainContains. walk_steps. Qed.
Lemma steps_headerContains l : steps R (headerContains l).
Proof. unfold headerContains. walk_steps. Qed.
Lemma steps_check {E} (tag : E → chainError) r : steps R (check_ tag r).
Proof. unfold check_. walk_steps. Qed.
Lemma steps_inView {A} v (m : UtxoView.M A) : steps R (inView v m).
Proof. intros s r s'. unfold inView. intros (x&_&[= <- <-])%run_bind_Done. reflexivity. Qed.
Lemma steps_parentNodeHash l : steps R (parentNodeHash l).
Proof. unfold parentNodeHash. walk_steps; apply steps_readNode. Qed.
Lemma steps_bestStateOf l b n : steps R (bestStateOf l b n).
Proof. unfold bestStateOf. walk_steps; first [apply steps_readNode|apply steps_nodeHeap]. Qed.
Lemma steps_isCurrent p clk : steps R (isCurrent p clk).
Proof. intros s r s'. unfold isCurrent. intros (x&_&[= <- <-])%run_bind_Done. reflexivity. Qed.

End reads.

#[export] Hint Extern 1 (steps _ _) =>
  first [apply steps_nodeHeap; apply _|apply steps_readNode; apply _|apply steps_lookup; apply _|apply steps_chainTip; apply _|apply steps_headerTip; apply _
        |apply steps_chainContains; apply _|apply steps_headerContains; apply _|apply steps_check; apply _|apply steps_inView; apply _
        |apply steps_parentNodeHash; apply _|apply steps_bestStateOf; apply _|apply steps_isCurrent; apply _] : steps.

(** ** What validation leaves alone *)

Section frame.
Context {K : Compress.SecKeys} {R : Connect.ScriptRunner} {MO : UtxoCache.MapOrder} {CH : Choices}.
Context (p : Context.Params) (indexManager : option IndexManager) (clk : clock).

(** The index, the views, the snapshot and the orphans *)
Definition fixedPart (s : chain) :=
  (BlockIndex.index (BlockIndex.bi (ix s)), BlockIndex.windowSize (BlockIndex.bi (ix s)),
   BlockIndex.bestChainView (BlockIndex.bi (ix s)), BlockIndex.bestHeaderView (BlockIndex.bi (ix s)),
   ownHeaderView s, stateSnapshot s, orphanPool s, blockDownload s).

Abbreviation still := (steps (same fixedPart)).

Lemma still_flags l f : still (SetStatusFlags l f).
Proof.
  intros s r s'. unfold SetStatusFlags. destruct (BlockIndex.SetStatusFlags _ _ _ _) as [[h b]| |] eqn:E1; [|done..].
  intros [= <- <-]. unfold BlockIndex.SetStatusFlags in E1. apply run_bind_Done in E1 as (nd&_&[= <- <-]). done.
Qed.
Lemma still_writeNext sch s s' : writeNext indexManager sch s = Done s' → fixedPart s' = fixedPart s.
Proof.
  unfold writeNext, writeBatch. destruct (_ <? _); [by intros [= <-]|]. intros (r&_&[= <-])%run_bind_Done. done.
Qed.
Lemma still_tick : still (tick indexManager).
Proof.
  intros s r s'. unfold tick. destruct (schedule (queue s)) as [|[] sch]; [by intros [= <- <-]| |by intros [= <- <-]].
  intros (s1&E&[= <- <-])%run_bind_Done. by eapply still_writeNext.
Qed.

Lemma still_inCache {A} (m : UtxoCache.M A) : still (inCache m).
Proof. intros s r s'. unfold inCache. by intros (x&_&[= <- <-])%run_bind_Done. Qed.
Lemma still_inConnect {A} v (m : Connect.M A) : still (inConnect v m).
Proof. intros s r s'. unfold inConnect. by intros (x&_&[= <- <-])%run_bind_Done. Qed.
Lemma still_inThreshold {A} (m : Threshold.M A) : still (inThreshold m).
Proof. intros s r s'. unfold inThreshold. by intros (x&_&[= <- <-])%run_bind_Done. Qed.
Lemma still_inContext {A} (m : Context.M A) : still (inContext m).
Proof. intros s r s'. unfold inContext. by intros (x&_&[= <- <-])%run_bind_Done. Qed.
Lemma still_onIndex {A} f : still (onIndex f : M A).
Proof. intros s r s'. unfold onIndex. by intros (x&_&[= <- <-])%run_bind_Done. Qed.

#[local] Hint Extern 1 (steps _ _) =>
  first [apply still_flags|apply still_tick|apply still_inCache|apply still_inConnect|apply still_inThreshold
        |apply still_inContext|apply still_onIndex] : steps.

Lemma still_fetchBlock l : still (fetchBlockByNode indexManager l).
Proof. unfold fetchBlockByNode. walk_steps. Qed.
Lemma still_fetchInputs b v : still (fetchInputUtxos indexManager b v).
Proof. unfold fetchInputUtxos. walk_steps. Qed.
Lemma still_connectTransactions b : still (connectTransactions indexManager b).
Proof. unfold connectTransactions. walk_steps. Qed.
Lemma still_flagAll ls f : still (flagAll ls f).
Proof. induction ls; cbn [flagAll]; walk_steps. Qed.

#[local] Hint Extern 1 (steps _ _) =>
  first [apply still_fetchBlock|apply still_fetchInputs|apply still_connectTransactions|apply still_flagAll] : steps.

Lemma still_verifyDetach ns v : still (verifyDetach indexManager ns v).
Proof. revert v. induction ns as [|l ns IH]; intros v; cbn [verifyDetach]; walk_steps. Qed.
Lemma still_verifyAttach ns v : still (verifyAttach p indexManager ns v).
Proof. revert v. induction ns as [|l ns IH]; intros v; cbn [verifyAttach]; walk_steps. Qed.

Lemma still_verify ds ats : still (verifyReorganizationValidity p indexManager ds ats).
Proof.
  unfold verifyReorganizationValidity. walk_steps; first [apply still_verifyDetach|apply still_verifyAttach].
Qed.
Lemma still_reorgNodes l : still (getReorganizeNodes l).
Proof. unfold getReorganizeNodes. walk_steps. Qed.
Lemma still_forkInWindow l : still (verifyForkInWindow l).
Proof. unfold verifyForkInWindow. walk_steps. Qed.

(** C14 (safety).  Checking a reorganisation never changes the chain.  Whether
    [verifyReorganizationValidity] accepts or fails, the best chain and the best
    header chain, the index, the snapshot of the best state, the orphans and the
    stored bodies are what they were.  So [reorganizeChain], which makes this check
    first, leaves them alone whenever the check fails: a chain that breaks a rule
    cannot displace even one block of the current one. *)
Theorem failed_reorg_keeps_chain (detachNodes attachNodes : list loc) (s s' : chain) (e : chainError) :
  verifyReorganizationValidity p indexManager detachNodes attachNodes s = Done (inr e, s') →
  reorganizeChain p indexManager clk detachNodes attachNodes s = Done (inr e, s') ∧ fixedPart s' = fixedPart s.
Proof.
  intros E. split; [|by eapply still_verify]. unfold reorganizeChain. by rewrite (io_step_fail _ _ _ _ _ E).
Qed.

(** ** Who touches the orphans *)

Definition orphanMaps (s : chain) := (Orphans.orphans (orphanPool s), Orphans.prevOrphans (orphanPool s)).

Abbreviation keepsOrphans := (steps (same orphanMaps)).

Lemma still_keeps {A} (m : M A) : still m → keepsOrphans m.
Proof. intros H s r s' E. specialize (H _ _ _ E). unfold same, fixedPart, orphanMaps in *. congruence. Qed.

#[local] Hint Extern 2 (steps (same orphanMaps) _) =>
  apply still_keeps; first
    [apply still_flags|apply still_tick|apply still_inCache|apply still_inConnect|apply still_inThreshold|apply still_inContext
    |apply still_onIndex|apply still_fetchBlock|apply still_fetchInputs|apply still_connectTransactions|apply still_flagAll
    |apply still_verify|apply still_reorgNodes|apply still_forkInWindow] : steps.

Lemma keeps_modify f : (∀ s, orphanMaps (f s) = orphanMaps s) → keepsOrphans (modify_ f).
Proof. intros H s r s' [= <- <-]. apply H. Qed.
Lemma keeps_unset l f : keepsOrphans (UnsetStatusFlags l f).
Proof. intros s r s'. unfold UnsetStatusFlags. by intros (x&_&[= <- <-])%run_bind_Done. Qed.
Lemma keeps_setChainTip l : keepsOrphans (setChainTip l).
Proof. intros s r s'. unfold setChainTip. by intros (x&_&[= <- <-])%run_bind_Done. Qed.
Lemma keeps_setHeaderTip l : keepsOrphans (setHeaderTip l).
Proof. intros s r s'. unfold setHeaderTip. intros (x&_&[= <- <-])%run_bind_Done. by destruct (ownHeaderView s). Qed.
Lemma keeps_flushToDB b : keepsOrphans (flushToDB indexManager b).
Proof. unfold flushToDB. walk_steps. intros s r s'. unfold prim. by intros (x&_&(y&_&[= <- <-])%run_bind_Done)%run_bind_Done. Qed.
Lemma keeps_newItem l b stxos st : keepsOrphans (newItem l b stxos st).
Proof.
  intros s r s'. unfold newItem. intros (nd&_&(rws&_&E)%run_bind_Done)%run_bind_Done. destruct (UtxoCache.takeDelta _) as [delta c].
  by apply run_bind_Done in E as (hd&_&[= <- <-]).
Qed.
Lemma orphans_writeNext sch s s' : writeNext indexManager sch s = Done s' → orphanMaps s' = orphanMaps s.
Proof. intros E%still_writeNext. unfold fixedPart, orphanMaps in *. congruence. Qed.
Lemma keeps_enqueue item : keepsOrphans (enqueue indexManager item).
Proof.
  intros s r s'. unfold enqueue. destruct (stopped (queue s)); [by intros [= <- <-]|].
  intros (s1&E&[= <- <-])%run_bind_Done. destruct (_ <=? _); [by apply orphans_writeNext in E|by injection E as <-].
Qed.
Lemma keeps_sync g : keepsOrphans (syncNowBelow indexManager g).
Proof.
  intros s r s'. unfold syncNowBelow. destruct (stopped (queue s)); [by intros [= <- <-]|].
  intros (s1&(x&_&[= <-])%run_bind_Done&[= <- <-])%run_bind_Done. done.
Qed.
Lemma keeps_flushUtxo mode hs : keepsOrphans (flushUtxo indexManager clk mode hs).
Proof.
  unfold flushUtxo. walk_steps. intros s r s'. unfold prim. intros ([[[]|e] u]&_&[= <- <-])%run_bind_Done; [|done].
  by destruct (UtxoCache.consistency u).
Qed.
Lemma keeps_disconnectRows nd par b v st : keepsOrphans (disconnectRows indexManager clk nd par b v st).
Proof.
  intros s r s'. unfold disconnectRows. intros (d&_&([[v1|e] u]&_&E)%run_bind_Done)%run_bind_Done; [|by injection E as <- <-].
  apply run_bind_Done in E as ([stxos|e]&_&E); [|by injection E as <- <-].
  apply run_bind_Done in E as ([idx|e]&_&E); by injection E as <- <-.
Qed.
Lemma keeps_newNode hd prev st : keepsOrphans (newNode hd prev st).
Proof. intros s r s'. unfold newNode. by intros (x&_&(b&_&[= <- <-])%run_bind_Done)%run_bind_Done. Qed.

#[local] Hint Extern 1 (steps (same orphanMaps) _) =>
  first [apply keeps_unset|apply keeps_setChainTip|apply keeps_setHeaderTip|apply keeps_flushToDB|apply keeps_newItem
        |apply keeps_enqueue|apply keeps_sync|apply keeps_flushUtxo|apply keeps_disconnectRows|apply keeps_newNode
        |apply keeps_modify; done] : steps.

Lemma keeps_connectBlock l b stxos : keepsOrphans (connectBlock p indexManager clk l b stxos).
Proof. unfold connectBlock, finishFlushLocked, flushWhenFull, syncNow. walk_steps. Qed.
Lemma keeps_disconnectBlock l b v : keepsOrphans (disconnectBlock indexManager clk l b v).
Proof. unfold disconnectBlock. walk_steps. Qed.

#[local] Hint Extern 1 (steps (same orphanMaps) _) => first [apply keeps_connectBlock|apply keeps_disconnectBlock] : steps.

Lemma keeps_disconnectBlocks ns bs sp v : keepsOrphans (disconnectBlocks indexManager clk ns bs sp v).
Proof. revert bs sp v. induction ns as [|l ns IH]; intros bs sp v; cbn [disconnectBlocks]; walk_steps. Qed.
Lemma keeps_connectBlocks ns bs : keepsOrphans (connectBlocks p indexManager clk ns bs).
Proof. revert bs. induction ns as [|l ns IH]; intros bs; cbn [connectBlocks]; walk_steps. Qed.

#[local] Hint Extern 1 (steps (same orphanMaps) _) => first [apply keeps_disconnectBlocks|apply keeps_connectBlocks] : steps.

Lemma keeps_reorganize ds ats : keepsOrphans (reorganizeChain p indexManager clk ds ats).
Proof. unfold reorganizeChain. walk_steps. Qed.
Lemma keeps_extend l b f : keepsOrphans (extendBestChain p indexManager clk l b f).
Proof. unfold extendBestChain. walk_steps. Qed.

#[local] Hint Extern 1 (steps (same orphanMaps) _) => first [apply keeps_reorganize|apply keeps_extend] : steps.

Lemma keeps_connectBestChain l b f : keepsOrphans (connectBestChain p indexManager clk l b f).
Proof. unfold connectBestChain. walk_steps. Qed.
Lemma keeps_storeBody b g : keepsOrphans (storeBody indexManager b g).
Proof.
  unfold storeBody. walk_steps. apply keeps_modify. intros s. cbv zeta. unfold Orphans.dbStoreBlock.
  destruct (Orphans.bodies _ !! _), (match blockDownload _ with None => _ | Some _ => _ end); done.
Qed.
Lemma keeps_nodeForBlock b prev : keepsOrphans (nodeForBlock b prev).
Proof.
  unfold nodeForBlock. walk_steps. intros s r s'. unfold prim. by intros (x&_&[= <- <-])%run_bind_Done.
Qed.
Lemma keeps_minerGuard pn b g : keepsOrphans (minerGuard pn b g).
Proof. unfold minerGuard. walk_steps. Qed.

#[local] Hint Extern 1 (steps (same orphanMaps) _) =>
  first [apply keeps_connectBestChain|apply keeps_storeBody|apply keeps_nodeForBlock|apply keeps_minerGuard] : steps.

Lemma keeps_maybeAcceptBlock b f : keepsOrphans (maybeAcceptBlock p indexManager clk b f).
Proof. unfold maybeAcceptBlock. walk_steps. Qed.

(** ** Orphans whose parent arrived *)

(** [p'] has some of the orphans of [p]. *)
Definition shrinks (q q' : Orphans.pool) : Prop := Orphans.pool_ok q' ∧ Orphans.orphans q' ⊆ Orphans.orphans q.

Lemma shrinks_dependents q q' h : Orphans.pool_ok q → shrinks q q' → Orphans.dependents h q = [] → Orphans.dependents h q' = [].
Proof.
  intros Q [Q' Hs] E. destruct (Orphans.dependents h q') as [|o l] eqn:El; [done|].
  destruct (Orphans.dependents_ok q' h Q') as [_ Hall]. rewrite El in Hall. apply Forall_cons in Hall as [[Hp Ho] _].
  pose proof (Orphans.ok_indexed _ Q _ _ (lookup_weaken _ _ _ _ Ho Hs)) as Hi. rewrite Hp, E in Hi. by apply elem_of_nil in Hi.
Qed.

(** No orphan waits for a block that was taken out. *)
Definition settled (q q' : Orphans.pool) : Prop :=
  ∀ h o, Orphans.orphans q !! h = Some o → Orphans.orphans q' !! h = None → Orphans.dependents h q' = [].

Lemma take_orphan q hs o l : Orphans.pool_ok q → Orphans.dependents hs q = o :: l →
  Orphans.orphans q !! Orphans.hashOf o = Some o ∧ Orphans.pool_ok (Orphans.removeOrphanBlock o q) ∧
  size (Orphans.orphans q) = S (size (Orphans.orphans (Orphans.removeOrphanBlock o q))).
Proof.
  intros Q E. destruct (Orphans.dependents_ok q hs Q) as [_ Hall]. rewrite E in Hall. apply Forall_cons in Hall as [[_ Ho] _].
  split; [done|]. split; [apply Orphans.remove_ok; [done|]; intros o' Ho'; congruence|].
  cbn [Orphans.removeOrphanBlock Orphans.orphans]. fold (Orphans.hashOf o). rewrite map_size_delete_Some by (by eexists).
  assert (size (Orphans.orphans q) ≠ 0%nat); [|lia]. intros E0. apply map_size_empty_inv in E0. rewrite E0, lookup_empty in Ho. done.
Qed.

Lemma settled_step q q1 q2 o : Orphans.pool_ok q → Orphans.orphans q1 = delete (Orphans.hashOf o) (Orphans.orphans q) →
  Orphans.dependents (Orphans.hashOf o) q2 = [] → settled q1 q2 → settled q q2.
Proof.
  intros Q E1 Hd Hs h x Hx Hn. destruct (decide (h = Orphans.hashOf o)) as [->|Hne]; [done|].
  apply (Hs h x); [|done]. rewrite E1. by rewrite lookup_delete_ne.
Qed.

(** One round, as the comments of [processOrphans] describe it: the first hash of the
    list is done when no orphan waits for it; otherwise the first orphan that waits
    leaves the pool and is accepted, and its hash joins the list. *)
Inductive round (accept : Block → M bool) : list hash_t * chain → list hash_t * chain → Prop :=
| round_done hs rest s : Orphans.dependents hs (orphanPool s) = [] → round accept (hs :: rest, s) (rest, s)
| round_accept hs rest s o l b s' : Orphans.dependents hs (orphanPool s) = o :: l →
    accept (Orphans.block o) (set_orphans (Orphans.removeOrphanBlock o (orphanPool s)) s) = Done (inl b, s') →
    round accept (hs :: rest, s) ((hs :: rest) ++ [blockHash (Orphans.block o)], s').

(** The rounds lead to an orphan whose acceptance does not return. *)
Definition stuck (accept : Block → M bool) (hashes : list hash_t) (s : chain) : Prop :=
  ∃ hs rest s1 o l, rtc (round accept) (hashes, s) (hs :: rest, s1) ∧ Orphans.dependents hs (orphanPool s1) = o :: l ∧
    ∀ x, accept (Orphans.block o) (set_orphans (Orphans.removeOrphanBlock o (orphanPool s1)) s1) ≠ Done x.

Definition orphans_ok (hashes : list hash_t) (s : chain) (res : run ((unit + chainError) * chain)) (accept : Block → M bool) : Prop :=
  match res with
  | Done (r, s') => shrinks (orphanPool s) (orphanPool s') ∧
      (r = inl tt → rtc (round accept) (hashes, s) ([], s') ∧
        Forall (fun h => Orphans.dependents h (orphanPool s') = []) hashes ∧ settled (orphanPool s) (orphanPool s'))
  | _ => stuck accept hashes s
  end.

Lemma stuck_round accept hashes s hashes' s' : round accept (hashes, s) (hashes', s') →
  stuck accept hashes' s' → stuck accept hashes s.
Proof. intros Hr (hs&rest&s1&o&l&Hs&?&?). exists hs, rest, s1, o, l. split; [by eapply rtc_l|done]. Qed.

Lemma processOrphans_loop_spec accept fuel hashes s : (∀ b, keepsOrphans (accept b)) → Orphans.pool_ok (orphanPool s) →
  (2 * size (Orphans.orphans (orphanPool s)) + length hashes ≤ fuel)%nat →
  orphans_ok hashes s (processOrphans_loop accept fuel hashes s) accept.
Proof.
  intros Hk. revert hashes s. induction fuel as [|fuel IH]; intros hashes s Q Hf.
  { destruct hashes; cbn [length] in Hf; [|lia]. cbn. split; [by split|]. intros _. split; [done|]. split; [constructor|]. congruence. }
  destruct hashes as [|hs rest]; cbn [processOrphans_loop].
  { cbn. split; [by split|]. intros _. split; [done|]. split; [constructor|]. intros h o Ho Hn. congruence. }
  change ((get_ ≫= ?f) s) with (f s s). cbv beta.
  destruct (Orphans.dependents hs (orphanPool s)) as [|o l] eqn:Ed.
  - pose proof (round_done accept hs rest s Ed) as Hround.
    cbn [length] in Hf. specialize (IH rest s Q ltac:(lia)). unfold orphans_ok in *.
    destruct (processOrphans_loop accept fuel rest s) as [[r s']| |]; [|by eapply stuck_round..]. destruct IH as [Hs Hr]. split; [done|].
    intros E. destruct (Hr E) as (Hrt&Ha&Hse). split; [by eapply rtc_l|]. split; [|done]. constructor; [|done]. by eapply shrinks_dependents.
  - destruct (take_orphan _ _ _ _ Q Ed) as (Ho&Q1&Hsz).
    set (s1 := set_orphans (Orphans.removeOrphanBlock o (orphanPool s)) s).
    change ((removeOrphan o ≫= ?f) s) with (f tt s1). cbv beta.
    unfold mbind at 1, io_bind at 1, attempt. destruct (accept (Orphans.block o) s1) as [[r1 s2]| |] eqn:Ea;
      [|exists hs, rest, s, o, l; split; [done|]; split; [done|]; intros x; fold s1; by rewrite Ea..].
    cbn [mbind run_bind fst snd]. pose proof (Hk _ _ _ _ Ea) as E.
    assert (Orphans.orphans (orphanPool s2) = Orphans.orphans (Orphans.removeOrphanBlock o (orphanPool s))) as E2 by exact (f_equal fst E).
    assert (Orphans.prevOrphans (orphanPool s2) = Orphans.prevOrphans (Orphans.removeOrphanBlock o (orphanPool s))) as E3 by exact (f_equal snd E).
    clear E.
    assert (Orphans.pool_ok (orphanPool s2)) as Q2 by (eapply Orphans.pool_ok_same; [exact E2|exact E3|exact Q1]).
    assert (Orphans.orphans (orphanPool s2) ⊆ Orphans.orphans (orphanPool s)) as Hsub by (rewrite E2; apply delete_subseteq).
    destruct r1 as [b|e].
    + pose proof (round_accept accept hs rest s o l b s2 Ed Ea) as Hround.
      specialize (IH ((hs :: rest) ++ [blockHash (Orphans.block o)]) s2 Q2). unfold orphans_ok in IH.
      destruct (processOrphans_loop accept fuel _ s2) as [[r s']| |] eqn:El.
      2,3: (eapply stuck_round; [exact Hround|]; apply IH; rewrite E2, length_app; cbn [length] in *; lia).
      destruct IH as [Hs Hr]; [rewrite E2, length_app; cbn [length] in *; lia|].
      split; [split; [by apply Hs|by etransitivity; [apply Hs|]]|]. intros E. destruct (Hr E) as (Hrt&Ha&Hse).
      split; [by eapply rtc_l|].
      apply Forall_app in Ha as [Ha Hl]. split; [done|]. rewrite Forall_singleton in Hl.
      exact (settled_step _ (orphanPool s2) _ o Q E2 Hl Hse).
    + cbn. split; [|done]. split; [|done]. by eapply Orphans.pool_ok_same; [..|exact Q2].
Qed.

(** C15 (termination).  [processOrphans] handles every orphan that waits, directly or
    through other orphans, for the block that arrived: its rounds are enough, since
    each takes a hash off the list or an orphan out of the pool.  When it succeeds it has
    run the rounds until the list was empty, and no orphan waits for the block or for one
    of the orphans taken out; the orphans that stay are untouched, the pool stays
    consistent, and this also holds when it stops at an orphan that is rejected.  If it
    does not return, the rounds have led to a state in which [maybeAcceptBlock] does not
    return for the orphan whose turn it is. *)
Theorem orphans_processed (hs : hash_t) (flags : Z) (s : chain) :
  Orphans.pool_ok (orphanPool s) →
  let accept := fun block => maybeAcceptBlock p indexManager clk block flags in
  match processOrphans p indexManager clk hs flags s with
  | Done (r, s') => Orphans.pool_ok (orphanPool s') ∧ Orphans.orphans (orphanPool s') ⊆ Orphans.orphans (orphanPool s) ∧
      (r = inl tt → rtc (round accept) ([hs], s) ([], s') ∧
        Orphans.dependents hs (orphanPool s') = [] ∧ settled (orphanPool s) (orphanPool s'))
  | _ => stuck accept [hs] s
  end.
Proof.
  intros Q accept. unfold processOrphans. change ((get_ ≫= ?f) s) with (f s s). cbv beta.
  pose proof (processOrphans_loop_spec accept (orphanFuel s) [hs] s
    (fun b => keeps_maybeAcceptBlock b flags) Q ltac:(unfold orphanFuel; cbn [length]; lia)) as H.
  unfold orphans_ok in H. fold accept. destruct (processOrphans_loop _ _ _ _) as [[r s']| |]; [|done..].
  destruct H as [[H1 H2] H3]. split; [done|]. split; [done|]. intros E. destruct (H3 E) as (Hrt&Ha&Hs).
  split; [done|]. split; [by rewrite Forall_singleton in Ha|done].
Qed.

(** ** Proof of work *)

Section pow.
Context {P : Sanity.PowHash}.


Lemma node_inv l s nd s' : node l s = Done (inl nd, s') → BlockIndex.hp (ix s) !! l = Some nd ∧ s' = s.
Proof.
  unfold node. intros (h&s1&E1&E)%io_inv. injection E1 as <- <-. unfold io_run, deref, of_option in E.
  destruct (BlockIndex.hp (ix s) !! l); [|done]. by injection E as <- <-.
Qed.




End pow.

End frame.

(** ** Connecting one block *)

Section connecting.
Context {K : Compress.SecKeys} {R : Connect.ScriptRunner} {MO : UtxoCache.MapOrder} {CH : Choices}.
Context (p : Context.Params) (indexManager : option IndexManager) (clk : clock).
Import WriteQueue (item_ok, BestState, writeItem).

(** A call that fails, or that returns and goes on *)
Lemma io_cases {S E A B} (m : io S E A) (f : A → io S E B) s r s' : (m ≫= f) s = Done (r, s') →
  (∃ e, m s = Done (inr e, s') ∧ r = inr e) ∨ ∃ a s1, m s = Done (inl a, s1) ∧ f a s1 = Done (r, s').
Proof. unfold mbind, io_bind. destruct (m s) as [[[a|e] s1]| |]; [|intros [= <- <-]|done..]; eauto. Qed.

(** What a failing call of [connectBlock] leaves alone *)
Definition queued (s : chain) := (stateSnapshot s, queue s).

Abbreviation quiet := (steps (same queued)).

Lemma quiet_inThreshold {A} (m : Threshold.M A) : quiet (inThreshold m).
Proof. intros s r s'. unfold inThreshold. by intros (x&_&[= <- <-])%run_bind_Done. Qed.
Lemma quiet_newItem l b stxos st : quiet (newItem l b stxos st).
Proof.
  intros s r s'. unfold newItem. intros (nd&_&(rws&_&E)%run_bind_Done)%run_bind_Done. destruct (UtxoCache.takeDelta _) as [delta c].
  by apply run_bind_Done in E as (hd&_&[= <- <-]).
Qed.

Lemma finish_weaker x b : BlockIndex.heap_weaker (BlockIndex.hp x) (BlockIndex.hp (BlockIndex.finishFlushLocked x b)).
Proof.
  unfold BlockIndex.finishFlushLocked. destruct b; [apply (BlockIndex.evict_weaker {| BlockIndex.hp := _ |})|].
  destruct (_ <=? _); [apply (BlockIndex.evict_weaker {| BlockIndex.hp := _ |})|apply BlockIndex.heap_weaker_preorder].
Qed.

(** The node of a block, within the ranges of the code's types *)
Definition nodeOf (block : Block) (nd : blockNode) : Prop :=
  hash nd = blockHash block ∧ length (hash nd) = 32%nat ∧ 0 ≤ height nd < 2 ^ 31 ∧ 0 ≤ workSum nd < 2 ^ 256.

(** The snapshot and the queued item describe the block. *)
Definition describes (nd : blockNode) (block : Block) (stxos : list UtxoSet.SpentTxOut) (state : BestState) (it : writeItem) : Prop :=
  WriteQueue.Hash state = hash nd ∧ WriteQueue.Height state = height nd ∧ WriteQueue.NumTxns state = zlen (Transactions block) ∧
  WriteQueue.block it = Some block ∧ WriteQueue.stxos it = stxos ∧ WriteQueue.tipWork it = workSum nd ∧
  (nodeOf block nd → item_ok it state).

Lemma bestStateOf_spec l block n s state s' : bestStateOf l block n s = Done (inl state, s') →
  s' = s ∧ ∃ nd, BlockIndex.hp (ix s) !! l = Some nd ∧ WriteQueue.Hash state = hash nd ∧ WriteQueue.Height state = height nd ∧
    WriteQueue.NumTxns state = zlen (Transactions block) ∧ WriteQueue.TotalTxns state = u64 n.
Proof.
  unfold bestStateOf. intros (h&s1&[= <- <-]&E)%io_inv. apply io_inv in E as (nd&s2&[Hn ->]%node_inv&E).
  apply io_inv in E as (m&s3&Em&E). unfold io_run in Em. destruct (BlockNode.CalcPastMedianTime _); [|done..].
  injection Em as _ <-. injection E as <- <-. split; [done|]. by exists nd.
Qed.

Lemma newItem_spec l block stxos state n s it s' nd : BlockIndex.hp (ix s) !! l = Some nd →
  WriteQueue.Hash state = hash nd → WriteQueue.Height state = height nd →
  WriteQueue.NumTxns state = zlen (Transactions block) → WriteQueue.TotalTxns state = u64 n →
  newItem l block stxos state s = Done (inl it, s') → describes nd block stxos state it ∧ BlockIndex.hp (ix s') = BlockIndex.hp (ix s).
Proof.
  intros Hl E1 E2 E3 E4. unfold newItem. rewrite (BlockNode.deref_Some _ _ _ Hl). cbn [mbind run_bind].
  intros (rws&_&E)%run_bind_Done. destruct (UtxoCache.takeDelta _) as [delta c]. apply run_bind_Done in E as (hd&_&[= <- <-]).
  split; [|done]. unfold describes. split_and!; try done. intros (H1&H2&H3&H4).
  split; cbn; rewrite ?E1, ?E2, ?E4; try done. by apply uwrap_range.
Qed.

(** The writer takes items from the front of the queue; nodes, best chain and snapshot
    stay. *)
Definition drains (s s' : chain) : Prop :=
  (BlockIndex.hp (ix s'), bestChain s', stateSnapshot s') = (BlockIndex.hp (ix s), bestChain s, stateSnapshot s) ∧
  ∃ k, pending (queue s') = drop k (pending (queue s)).

#[local] Instance drains_preorder : PreOrder drains.
Proof.
  split; [intros s; split; [done|by exists 0%nat]|]. intros s1 s2 s3 [E1 [k1 H1]] [E2 [k2 H2]].
  split; [congruence|]. exists (k1 + k2)%nat. by rewrite H2, H1, drop_drop.
Qed.

Lemma drains_writeNext sch s s' : writeNext indexManager sch s = Done s' → drains s s'.
Proof.
  unfold writeNext, writeBatch. destruct (_ <? _).
  - intros [= <-]. split; [done|by exists 0%nat].
  - intros (r&_&[= <-])%run_bind_Done. split; [done|by eexists].
Qed.
Lemma drains_tick : steps drains (tick indexManager).
Proof.
  intros s r s'. unfold tick. destruct (schedule (queue s)) as [|[] sch]; [by intros [= <- <-]| |].
  - intros (s1&E&[= <- <-])%run_bind_Done. by eapply drains_writeNext.
  - intros [= <- <-]. split; [done|by exists 0%nat].
Qed.
Lemma drains_sync : steps drains (syncNow indexManager).
Proof.
  intros s r s'. unfold syncNow, syncNowBelow. destruct (stopped (queue s)); [by intros [= <- <-]|].
  intros (s1&(x&_&[= <-])%run_bind_Done&[= <- <-])%run_bind_Done. split; [done|].
  exists (length (pending (queue s))). cbn. by rewrite drop_all.
Qed.

#[local] Hint Resolve drains_tick drains_sync : steps.

(** What follows once the tip was moved *)
Lemma drains_flushWhenFull state : steps drains (flushWhenFull indexManager clk state).
Proof.
  unfold flushWhenFull, flushUtxo. walk_steps. intros s r s'. unfold prim.
  intros ([[[]|e] u]&_&[= <- <-])%run_bind_Done; [|by split; [|exists 0%nat]].
  destruct (UtxoCache.consistency u); by split; [|exists 0%nat].
Qed.

Lemma flushWhenFull_error state s e s' : flushWhenFull indexManager clk state s = Done (inr e, s') → ∃ ce, e = CacheError ce.
Proof.
  unfold flushWhenFull. intros [(?&E&_)|(a&s1&[= <- <-]&E)]%io_cases; [done|].
  apply io_cases in E as [(?&E&_)|(u&s1&_&E)]; [unfold io_run in E; by destruct (UtxoCache.totalMemoryUsage _)|].
  destruct (_ <=? _); [|done]. apply io_cases in E as [(?&E&_)|([]&s2&_&E)].
  { unfold syncNow, syncNowBelow in E. destruct (stopped _); [done|]. by apply run_bind_Done in E as (?&_&?). }
  unfold flushUtxo in E. apply io_cases in E as [(?&E&_)|([]&s3&_&E)].
  { unfold tick in E. destruct (schedule _) as [|[] ?]; try done. by apply run_bind_Done in E as (?&_&?). }
  unfold prim in E. apply run_bind_Done in E as ([[[]|ce] u']&_&E); [done|]. injection E as <- _. by exists ce.
Qed.

#[local] Hint Resolve quiet_inThreshold quiet_newItem : steps.

Lemma quiet_error {A B} (m : M A) (f : A → M B) s r s' : quiet m → (m ≫= f) s = Done (r, s') →
  (∃ e, r = inr e ∧ queued s' = queued s) ∨ ∃ a s1, m s = Done (inl a, s1) ∧ queued s1 = queued s ∧ f a s1 = Done (r, s').
Proof. intros Hm [(e&E&->)|(a&s1&E&Ef)]%io_cases; [left; exists e|right; exists a, s1]; split_and!; eauto; by eapply Hm. Qed.

(** The end of [connectBlock]: the item is queued, and the tip moves. *)
Definition finishConnect (l : loc) (state : BestState) (item : writeItem) : M unit :=
  _ ← finishFlushLocked;
  sent ← enqueue indexManager item;
  if negb sent then io_fail QueueStopped else
  _ ← setChainTip (Some l);
  nd ← node l;
  _ ← modify_ (fun s => set_utxo (UtxoCache.set_cache (set_hotFloor (i32 (height nd - utxoHotDepth)) (UtxoCache.cache (utxo s))) (utxo s)) s);
  _ ← modify_ (set_snapshot state);
  flushWhenFull indexManager clk state.

Definition connected (l : loc) (state : BestState) (it : writeItem) (s s' : chain) : Prop :=
  stopped (queue s) = false ∧ stateSnapshot s' = state ∧
  (∃ c, ChainView.setTip (BlockIndex.hp (ix s')) c (Some l) = Done (bestChain s')) ∧
  BlockIndex.heap_weaker (BlockIndex.hp (ix s)) (BlockIndex.hp (ix s')) ∧
  (last (pending (queue s')) = Some it ∨ pending (queue s') = []).

Lemma drop_last {A} (x : A) k l : last (drop k (l ++ [x])) = Some x ∨ drop k (l ++ [x]) = [].
Proof.
  destruct (decide (k ≤ length l)%nat) as [H|H].
  - left. by rewrite drop_app_le, last_snoc.
  - right. apply drop_ge. rewrite length_app. cbn. lia.
Qed.

Lemma finishConnect_spec l state it s r s' : finishConnect l state it s = Done (r, s') →
  connected l state it s s' ∧ (∀ e, r = inr e → ∃ ce, e = CacheError ce) ∨ r = inr QueueStopped ∧ queued s' = queued s.
Proof.
  unfold finishConnect. change ((finishFlushLocked ≫= ?f) s) with (f tt (set_ix (BlockIndex.finishFlushLocked (ix s) false) s)). cbv beta.
  set (s1 := set_ix _ s). assert (BlockIndex.heap_weaker (BlockIndex.hp (ix s)) (BlockIndex.hp (ix s1))) as Hw by apply finish_weaker.
  unfold enqueue. cbn [mbind io_bind]. intros [(e&E&_)|(sent&s2&E2&E)]%io_cases.
  { destruct (stopped _); [done|]. by apply run_bind_Done in E as (?&_&?). }
  destruct (stopped (queue s1)) eqn:Es.
  { injection E2 as <- <-. injection E as <- <-. by right. }
  left. apply run_bind_Done in E2 as (s3&E3&[= <- <-]). cbn [negb] in E.
  assert (BlockIndex.hp (ix s3) = BlockIndex.hp (ix s1)) as Eh.
  { destruct (_ <=? _); [apply drains_writeNext in E3 as [E3 _]; congruence|by injection E3 as ->]. }
  set (s4 := set_queue _ s3) in E. apply io_cases in E as [(e&E&_)|([]&s5&E5&E)].
  { unfold setChainTip in E. by apply run_bind_Done in E as (?&_&?). }
  unfold setChainTip in E5. apply run_bind_Done in E5 as (c&Ec&[= <-]).
  apply io_cases in E as [(e&E&_)|(nd&s6&[_ ->]%node_inv&E)].
  { unfold node in E. change ((nodeHeap ≫= ?f) ?x) with (f (BlockIndex.hp (ix x)) x) in E. cbv beta in E. unfold io_run in E. by destruct (deref _ _). }
  change ((modify_ ?g ≫= ?f) ?x) with (f tt (g x)) in E. cbv beta in E.
  change ((modify_ ?g ≫= ?f) ?x) with (f tt (g x)) in E. cbv beta in E.
  pose proof (drains_flushWhenFull _ _ _ _ E) as [Hd [k Hp]]. injection Hd as Hd1 Hd2 Hd3. split; [|intros e ->; by eapply flushWhenFull_error].
  split; [done|]. split; [done|]. rewrite Hd1, Hd2, Hp. split; [exists (bestChain s4); exact Ec|]. split.
  - cbn. rewrite Eh. exact Hw.
  - apply drop_last.
Qed.

(** C3 (functional).  [connectBlock], on every branch.  When it returns, the block was on top of the
    tip and the spent outputs are as many as its inputs; the snapshot names the node
    with its height and the new number of transactions, the best chain was moved to
    the node, and the item given to the writer holds the block, its spent outputs and
    the work of the node.  For the node of the block that item is one the writer's
    theorems are about ([item_ok]), and it is the last of the queue unless the writer
    has it on disk already.  When it fails, either nothing was queued and the
    snapshot is the old one, or the tip did move and only the flush of the UTXO cache
    failed. *)
Theorem connect_block_spec (l : loc) (block : Block) (stxos : list UtxoSet.SpentTxOut) (s : chain) (r : unit + chainError) (s' : chain) :
  connectBlock p indexManager clk l block stxos s = Done (r, s') →
  (∃ e, r = inr e ∧ queued s' = queued s) ∨
  ((r = inl tt ∨ ∃ ce, r = inr (CacheError ce)) ∧
   (∃ t tn, ChainView.tip (bestChain s) = Some t ∧ BlockIndex.hp (ix s) !! t = Some tn ∧ prevHash block = hash tn) ∧
   UtxoView.countSpentOutputs (Transactions block) = Done (zlen stxos) ∧
   stopped (queue s) = false ∧
   ∃ nd nd' it, BlockIndex.hp (ix s') !! l = Some nd' ∧ BlockIndex.weaker nd nd' ∧
     describes nd block stxos (stateSnapshot s') it ∧
     WriteQueue.TotalTxns (stateSnapshot s') = u64 (WriteQueue.TotalTxns (stateSnapshot s) + zlen (Transactions block)) ∧
     (∃ c, ChainView.setTip (BlockIndex.hp (ix s')) c (Some l) = Done (bestChain s')) ∧
     (last (pending (queue s')) = Some it ∨ pending (queue s') = [])).
Proof.
  unfold connectBlock. intros [?|(tip&s1&Et&_&E)]%quiet_error; [by left| |auto with steps].
  assert (s1 = s ∧ ∃ t tn, ChainView.tip (bestChain s) = Some t ∧ BlockIndex.hp (ix s) !! t = Some tn ∧ tip.2 = tn) as [-> Htip].
  { unfold bestChainTip in Et. apply io_inv in Et as (?&?&[= <- <-]&Et). apply io_inv in Et as (t&s2&E2&Et). unfold io_run in E2.
    destruct (ChainView.tip _) as [t'|]; [|done]. injection E2 as -> <-. apply io_inv in Et as (tn&s3&[H ->]%node_inv&[= <- <-]).
    split; [done|]. by exists t, tn. }
  clear Et. destruct (bool_decide_reflect (prevHash block = hash tip.2)) as [Hp|]; cbn [negb] in E; [|left; injection E as <- <-; eauto].
  apply quiet_error in E as [?|(spent&s2&E2&_&E)]; [by left| |auto with steps]. unfold io_run in E2.
  destruct (UtxoView.countSpentOutputs _) as [n| |] eqn:En; [|done..]. injection E2 as -> <-.
  destruct (Z.eqb_spec (zlen stxos) spent) as [<-|]; cbn [negb] in E; [|left; injection E as <- <-; eauto].
  apply quiet_error in E as [?|(cur&s2&_&Q2&E)]; [by left| |auto with steps].
  apply quiet_error in E as [(e&->&Q3)|([]&s3&_&Q3&E)]; [left; exists e; by rewrite Q3| |destruct cur; auto with steps].
  change ((get_ ≫= ?f) s3) with (f s3 s3) in E. cbv beta in E.
  apply quiet_error in E as [(e&->&Q4)|(st&s4&E4&Q4&E)]; [left; exists e; by rewrite Q4, Q3| |auto with steps].
  apply bestStateOf_spec in E4 as [-> (nd&Hn&H1&H2&H3&H4)].
  apply quiet_error in E as [(e&->&Q5)|(it&s5&E5&Q5&E)]; [left; exists e; by rewrite Q5, Q3| |auto with steps].
  destruct (newItem_spec _ _ _ _ _ _ _ _ _ Hn H1 H2 H3 H4 E5) as [Hd Eh].
  assert (queued s5 = queued s) as Q by congruence. unfold queued in Q. injection Q as Qs Qq.
  fold (finishConnect l st it) in E. apply finishConnect_spec in E as [[(C1&C2&C3&C4&C5) He]|[-> Hq]]; [right|left; eauto].
  2: { eexists. split; [done|]. rewrite Hq. unfold queued. by rewrite Qs, Qq. }
  rewrite Eh in C4. destruct (BlockIndex.heap_weaker_get _ _ _ _ C4 Hn) as (nd'&Hn'&Hw).
  split; [destruct r as [[]|e]; [by left|right; destruct (He e eq_refl) as [ce ->]; eauto]|].
  split. { destruct Htip as (t&tn&?&?&Etn). exists t, tn. subst tn. done. }
  split; [done|]. rewrite <-Qq. split; [done|]. exists nd, nd', it. rewrite C2. split_and!; try done. rewrite H4.
  assert (stateSnapshot s3 = stateSnapshot s) as ->; [|done]. assert (queued s3 = queued s) as Q by congruence. by injection Q.
Qed.

End connecting.

(** ** The nodes of a reorganisation *)

Section reorg.
Import BlockNode (walk, heap_wf, full, unique, KnownInvalid, statusInvalidAncestor).
Import ChainView (view_ok, inView, fork_of, nodes, base).

(** The first [n] nodes of the chain of [l], from [l] down *)
Fixpoint chainOf (h : heap) (n : nat) (l : loc) : list loc :=
  match n with
  | O => []
  | S n => l :: match h !! l ≫= parent with Some q => chainOf h n q | None => [] end
  end.

Definition invalid (h : heap) (l : loc) : bool :=
  match h !! l with Some nd => KnownInvalid (status nd) | None => false end.

Lemma walk_inv h n l f : walk h (S n) l = Some f → ∃ nd q, h !! l = Some nd ∧ parent nd = Some q ∧ walk h n q = Some f.
Proof. cbn [walk]. destruct (h !! l) as [nd|] eqn:E; [|done]. cbn. destruct (parent nd) as [q|] eqn:Eq; [|done]. cbn. by exists nd, q. Qed.

Lemma detachLoop_spec h f n fuel l acc : walk h n l = Some f → (∀ j, (j < n)%nat → walk h j l ≠ Some f) → (n ≤ fuel)%nat →
  detachLoop fuel h f (Some l) acc = Done (acc ++ chainOf h n l).
Proof.
  revert fuel l acc. induction n as [|n IH]; intros fuel l acc Hw Hd Hf.
  { injection Hw as ->. cbn [chainOf]. rewrite app_nil_r. destruct fuel; cbn; by rewrite bool_decide_true. }
  destruct (walk_inv _ _ _ _ Hw) as (nd&q&Hl&Hq&Hw'). destruct fuel as [|fuel]; [lia|]. cbn [detachLoop chainOf].
  rewrite bool_decide_false by (intros ->; by apply (Hd 0%nat); [lia|]). rewrite (BlockNode.deref_Some _ _ _ Hl). cbn [mbind run_bind].
  rewrite Hq, Hl. cbn [mbind option_bind]. rewrite Hq, IH; [by rewrite <-app_assoc|done| |lia].
  intros j Hj E. apply (Hd (S j)); [lia|]. rewrite (ChainView.walk_step _ _ _ _ Hl), Hq. exact E.
Qed.

(** The nodes above the first invalid one, or all of them *)
Lemma attachLoop_spec h f n fuel l acc : walk h n l = Some f → (∀ j, (j < n)%nat → walk h j l ≠ Some f) → (n ≤ fuel)%nat →
  ∃ k, (k ≤ n)%nat ∧ attachLoop fuel h f (Some l) acc = Done (negb (k =? n)%nat, rev (chainOf h k l) ++ acc) ∧
    Forall (fun q => invalid h q = false) (chainOf h k l) ∧ ((k < n)%nat → ∃ q, walk h k l = Some q ∧ invalid h q = true).
Proof.
  revert fuel l acc. induction n as [|n IH]; intros fuel l acc Hw Hd Hf.
  { injection Hw as ->. exists 0%nat. split; [done|]. split; [|split; [constructor|lia]]. destruct fuel; cbn; by rewrite bool_decide_true. }
  destruct (walk_inv _ _ _ _ Hw) as (nd&q&Hl&Hq&Hw').
  assert (l ≠ f) as Hne by (intros ->; by apply (Hd 0%nat); [lia|]).
  destruct fuel as [|fuel]; [lia|]. cbn [attachLoop]. rewrite bool_decide_false by done. rewrite (BlockNode.deref_Some _ _ _ Hl).
  cbn [mbind run_bind]. destruct (KnownInvalid (status nd)) eqn:Ei.
  { exists 0%nat. split; [lia|]. split; [done|]. split; [constructor|]. intros _. exists l. split; [done|]. unfold invalid. by rewrite Hl. }
  destruct (IH fuel q (l :: acc) Hw') as (k&Hk&E&Hv&Hi); [|lia|].
  { intros j Hj E. apply (Hd (S j)); [lia|]. rewrite (ChainView.walk_step _ _ _ _ Hl), Hq. exact E. }
  exists (S k). split; [lia|]. rewrite Hq, E. cbn [chainOf]. rewrite Hl. cbn [mbind option_bind]. rewrite Hq. cbn [rev]. rewrite <-app_assoc.
  split; [done|]. split.
  - constructor; [|done]. unfold invalid. by rewrite Hl.
  - intros Hlt. destruct (Hi ltac:(lia)) as (x&Hx&?). exists x. split; [|done]. by rewrite (ChainView.walk_step _ _ _ _ Hl), Hq.
Qed.

Lemma walk_ne prev h n l nd f : heap_wf prev h → h !! l = Some nd → walk h n l = Some f → ∀ j, (j < n)%nat → walk h j l ≠ Some f.
Proof.
  intros Hwf Hl Hn j Hj E. destruct (ChainView.walk_height prev h n l nd f Hwf Hl Hn) as (f1&H1&?).
  destruct (ChainView.walk_height prev h j l nd f Hwf Hl E) as (f2&H2&?). assert (f1 = f2) by congruence. subst. lia.
Qed.

(** The view is the chain of its tip. *)
Lemma tip_walk h c t f : view_ok h c → ChainView.tip c = Some t → inView h c f →
  ∃ m tn, h !! t = Some tn ∧ walk h m t = Some f ∧ (m ≤ Z.to_nat (height tn))%nat.
Proof.
  intros (Hb&_&Hlk) Ht Hf. destruct Hf as (fn&Hfn&Hn). pose proof (ChainView.inView_height _ _ _ _ Hfn (ex_intro _ fn (conj Hfn Hn))) as Hr.
  unfold ChainView.nodeByHeight in Hn. destruct (_ || _); [done|]. unfold zlen in Hr.
  destruct (nodes c !! Z.to_nat (height fn - base c)) as [x|] eqn:Ex; [|done]. cbn in Hn. subst x.
  unfold ChainView.tip in Ht. rewrite last_lookup in Ht. destruct (nodes c !! pred _) as [x|] eqn:Et; [|done]. cbn in Ht. subst x.
  destruct (proj1 Hlk _ _ Et) as (tn&Htn&Hth).
  set (m := (pred (length (nodes c)) - Z.to_nat (height fn - base c))%nat). exists m, tn. split; [done|].
  destruct (ChainView.linked_walk h (base c) (nodes c) (pred (length (nodes c))) t m Hlk Et) as [H _]; [lia|].
  replace (pred (length (nodes c)) - m)%nat with (Z.to_nat (height fn - base c)) in H by lia.
  rewrite Ex in H. injection H as H. split; [done|lia].
Qed.

(** Marking nodes keeps those that are marked. *)
Lemma flag_invalid st : KnownInvalid (Z.lor st statusInvalidAncestor) = true.
Proof.
  unfold KnownInvalid. change (Z.lor BlockNode.statusValidateFailed statusInvalidAncestor) with 12. unfold statusInvalidAncestor.
  apply negb_true_iff, Z.eqb_neq. intros E. apply (f_equal (fun z => Z.testbit z 3)) in E.
  rewrite Z.land_spec, Z.lor_spec, Z.bits_0 in E. change (Z.testbit 8 3) with true in E. rewrite orb_true_r in E. done.
Qed.

Lemma flagAll_marks ls s : (∀ l, l ∈ ls → is_Some (BlockIndex.hp (ix s) !! l)) →
  ∃ s', flagAll ls statusInvalidAncestor s = Done (inl tt, s') ∧
    ∀ l, (l ∈ ls ∨ invalid (BlockIndex.hp (ix s)) l = true) → invalid (BlockIndex.hp (ix s')) l = true.
Proof.
  revert s. induction ls as [|x ls IH]; intros s Hin.
  { exists s. split; [done|]. intros l [[]%elem_of_nil|]; done. }
  destruct (Hin x ltac:(left)) as [xn Hx]. cbn [flagAll].
  set (h1 := <[x := BlockIndex.set_status (Z.lor (status xn) statusInvalidAncestor) xn]> (BlockIndex.hp (ix s))).
  set (s1 := set_ix (with_heap h1 (BlockIndex.set_dirty ({[x]} ∪ BlockIndex.dirty (BlockIndex.bi (ix s))) (BlockIndex.bi (ix s))) (ix s)) s).
  assert (SetStatusFlags x statusInvalidAncestor s = Done (inl tt, s1)) as E1.
  { unfold SetStatusFlags, BlockIndex.SetStatusFlags. by rewrite (BlockNode.deref_Some _ _ _ Hx). }
  destruct (IH s1) as (s'&E&Hs').
  { intros l Hl. cbn. unfold h1. destruct (decide (l = x)) as [->|]; [rewrite lookup_insert_eq; by eexists|].
    rewrite lookup_insert_ne by done. apply Hin. by right. }
  exists s'. rewrite (io_step _ _ _ _ _ E1). split; [done|]. intros l Hl. apply Hs'.
  destruct (decide (l = x)) as [->|Hne].
  { right. cbn. unfold invalid, h1. rewrite lookup_insert_eq. apply flag_invalid. }
  destruct Hl as [Hl|Hl]; [left; apply elem_of_cons in Hl as [->|]; done|right].
  cbn. unfold invalid, h1 in *. by rewrite lookup_insert_ne.
Qed.

Lemma node_ok l nd s : BlockIndex.hp (ix s) !! l = Some nd → node l s = Done (inl nd, s).
Proof. intros H. unfold node. change ((nodeHeap ≫= ?f) s) with (f (BlockIndex.hp (ix s)) s). cbv beta. unfold io_run. by rewrite (BlockNode.deref_Some _ _ _ H). Qed.

Lemma io_run_ok {A} (m : run A) a (s : chain) : m = Done a → io_run m s = Done (inl a : A + chainError, s).
Proof. by intros ->. Qed.

Lemma chainOf_in h k l x : x ∈ chainOf h k l → is_Some (h !! l) → (∀ j, (j ≤ k)%nat → is_Some (walk h j l ≫= (h !!.))) → is_Some (h !! x).
Proof.
  revert l. induction k as [|k IH]; intros l; cbn [chainOf]; [by intros ?%elem_of_nil|].
  intros [->|Hx]%elem_of_cons Hl Hw; [done|]. destruct (h !! l) as [nd|] eqn:E; [|by destruct Hl]. cbn in Hx.
  destruct (parent nd) as [q|] eqn:Eq; [|by apply elem_of_nil in Hx].
  apply (IH q Hx).
  - destruct (Hw 1%nat ltac:(lia)) as [y Hy]. rewrite (ChainView.walk_step _ _ _ _ E), Eq in Hy. cbn in Hy. by eexists.
  - intros j Hj. specialize (Hw (S j) ltac:(lia)). by rewrite (ChainView.walk_step _ _ _ _ E), Eq in Hw.
Qed.

(** The outcomes of [getReorganizeNodes] *)
Definition reorgOutcome (t l : loc) (s : chain) (detach attach : list loc) (s' : chain) : Prop :=
  let h := BlockIndex.hp (ix s) in
  (∃ f n m, fork_of h (bestChain s) l (Some f) ∧ walk h n l = Some f ∧ walk h m t = Some f ∧
     detach = chainOf h m t ∧ attach = rev (chainOf h n l) ∧ Forall (fun x => invalid h x = false) (chainOf h n l) ∧ s' = s) ∨
  (detach = [] ∧ attach = [] ∧ ∃ k x, walk h k l = Some x ∧ invalid h x = true ∧
     Forall (fun y => invalid (BlockIndex.hp (ix s')) y = true) (l :: chainOf h k l)) ∨
  (detach = [] ∧ attach = [] ∧ fork_of h (bestChain s) l None ∧ s' = s).

(** An invalid block is met: it and everything above it is marked. *)
Lemma reorg_marks prev l nd k x s : heap_wf prev (BlockIndex.hp (ix s)) → BlockIndex.hp (ix s) !! l = Some nd →
  walk (BlockIndex.hp (ix s)) k l = Some x → invalid (BlockIndex.hp (ix s)) x = true →
  ∃ s', flagAll (rev (chainOf (BlockIndex.hp (ix s)) k l)) statusInvalidAncestor s = Done (inl tt, s') ∧
    Forall (fun y => invalid (BlockIndex.hp (ix s')) y = true) (l :: chainOf (BlockIndex.hp (ix s)) k l).
Proof.
  intros Hwf Hl Hk Hx. destruct (flagAll_marks (rev (chainOf (BlockIndex.hp (ix s)) k l)) s) as (s'&E&Hm).
  { intros y Hy. rewrite list_elem_of_In, <-in_rev, <-list_elem_of_In in Hy. eapply chainOf_in; [exact Hy|by eexists|].
    intros j Hj. destruct (ChainView.walk_prefix (BlockIndex.hp (ix s)) j (k - j) l) as [y' Ey].
    { replace (j + (k - j))%nat with k by lia. by eexists. }
    rewrite Ey. destruct (ChainView.walk_height prev _ _ _ _ _ Hwf Hl Ey) as (yn&Hyn&_). cbn. by exists yn. }
  exists s'. split; [done|]. apply Forall_forall. intros y [->|Hy]%elem_of_cons.
  - apply Hm. destruct k as [|k]; [right; by injection Hk as ->|left]. cbn [chainOf rev]. apply elem_of_app. right. by left.
  - apply Hm. left. by rewrite list_elem_of_In, <-in_rev, <-list_elem_of_In.
Qed.

Lemma reorg_run prev l q t nd qn s :
  heap_wf prev (BlockIndex.hp (ix s)) → full (BlockIndex.hp (ix s)) → unique (BlockIndex.hp (ix s)) →
  view_ok (BlockIndex.hp (ix s)) (bestChain s) → base (bestChain s) + zlen (nodes (bestChain s)) ≤ 2 ^ 31 →
  ChainView.tip (bestChain s) = Some t → BlockIndex.hp (ix s) !! l = Some nd → parent nd = Some q →
  BlockIndex.hp (ix s) !! q = Some qn →
  ∃ detach attach s', getReorganizeNodes l s = Done (inl (detach, attach), s') ∧ reorgOutcome t l s detach attach s'.
Proof.
  intros Hwf Hfull Huniq Hv Hmax Ht Hl Hq Hqn. unfold getReorganizeNodes.
  rewrite (io_step _ _ _ _ _ (node_ok _ _ _ Hl)), Hq, (io_step _ _ _ _ _ (node_ok _ _ _ Hqn)).
  destruct (KnownInvalid (status qn)) eqn:Ei.
  { destruct (reorg_marks prev l nd 1 q s Hwf Hl) as (s'&E&Hm).
    - by rewrite (ChainView.walk_step _ _ _ _ Hl), Hq.
    - unfold invalid. by rewrite Hqn.
    - cbn [chainOf] in E, Hm. rewrite Hl in E. cbn [mbind option_bind] in E. rewrite Hq in E. cbn [rev app flagAll] in E.
      apply io_inv in E as ([]&s1&E1&[= ->]). rewrite (io_step _ _ _ _ _ E1). exists [], [], s'. split; [done|]. right; left.
      split; [done|]. split; [done|]. exists 1%nat, q. split; [by rewrite (ChainView.walk_step _ _ _ _ Hl), Hq|].
      split; [unfold invalid; by rewrite Hqn|]. exact Hm. }
  change ((get_ ≫= ?f) s) with (f s s). cbv beta. change ((nodeHeap ≫= ?f) s) with (f (BlockIndex.hp (ix s)) s). cbv beta.
  destruct (ChainView.findFork_spec prev _ _ l nd Hwf Hfull Huniq Hl (proj1 Hv) Hmax) as (r&Er&Hr).
  rewrite (io_step _ _ _ _ _ (io_run_ok _ _ _ Er)). destruct r as [f|].
  2: { exists [], [], s. split; [done|]. right; right. done. }
  pose proof Hr as (Hin&n&Hn&_). destruct (ChainView.walk_height prev _ _ _ _ _ Hwf Hl Hn) as (fn&Hfn&Hfh).
  destruct (Hwf f fn Hfn) as ((Hf0&_)&_).
  destruct (attachLoop_spec _ f n (S (Z.to_nat (height nd))) l [] Hn (walk_ne prev _ _ _ _ _ Hwf Hl Hn)) as (k&Hk&Ea&Hval&Hinv); [lia|].
  rewrite app_nil_r in Ea. rewrite (io_step _ _ _ _ _ (io_run_ok _ _ _ Ea)).
  destruct (Nat.eqb_spec k n) as [->|Hne]; cbn [negb].
  - rewrite (io_step _ _ _ _ _ (io_run_ok _ _ _ (f_equal of_option Ht))).
    destruct (tip_walk _ _ t f Hv Ht Hin) as (m&tn&Htn&Hm&Hle).
    rewrite (io_step _ _ _ _ _ (node_ok _ _ _ Htn)).
    pose proof (detachLoop_spec _ f m (S (Z.to_nat (height tn))) t [] Hm (walk_ne prev _ _ _ _ _ Hwf Htn Hm) ltac:(lia)) as Ed.
    rewrite (io_step _ _ _ _ _ (io_run_ok _ _ _ Ed)). eexists _, _, s. split; [done|]. left. by exists f, n, m.
  - destruct (Hinv ltac:(lia)) as (x&Hx&Hxi). destruct (reorg_marks prev l nd k x s Hwf Hl Hx Hxi) as (s'&E&Hm).
    rewrite (io_step _ _ _ _ _ E). exists [], [], s'. split; [done|]. right; left. split; [done|]. split; [done|]. by exists k, x.
Qed.

(** C13 (functional).  [getReorganizeNodes] on a node of a complete index returns.  If its chain
    meets the best chain and no block above the meeting point is marked invalid, the
    result is the blocks of the best chain from the tip down to the fork, and the
    blocks from the fork up to the node, both without the fork, and nothing changes.
    If there is an invalid block, both lists are empty, and the node and every block
    between it and the first invalid block below it are marked invalid.  If the
    chains do not meet, both lists are empty. *)
Theorem reorg_nodes_spec (prev : gmap hash_t hash_t) (l q t : loc) (nd : blockNode) (s : chain) :
  heap_wf prev (BlockIndex.hp (ix s)) → full (BlockIndex.hp (ix s)) → unique (BlockIndex.hp (ix s)) →
  view_ok (BlockIndex.hp (ix s)) (bestChain s) → base (bestChain s) + zlen (nodes (bestChain s)) ≤ 2 ^ 31 →
  ChainView.tip (bestChain s) = Some t → BlockIndex.hp (ix s) !! l = Some nd → parent nd = Some q →
  ∃ detach attach s', getReorganizeNodes l s = Done (inl (detach, attach), s') ∧ fixedPart s' = fixedPart s ∧
    reorgOutcome t l s detach attach s'.
Proof.
  intros Hwf Hfull Huniq Hv Hmax Ht Hl Hq. destruct (Hwf l nd Hl) as (_&_&Hpar&_). destruct (Hpar q Hq) as (qn&Hqn&Hqh&_).
  destruct (reorg_run prev l q t nd qn s Hwf Hfull Huniq Hv Hmax Ht Hl Hq Hqn) as (d&a&s'&E&H).
  exists d, a, s'. split; [done|]. split; [|done]. by eapply still_reorgNodes.
Qed.

End reorg.

(** ** The journal of a block to disconnect *)

Section journal.
Context {K : Compress.SecKeys} {R : Connect.ScriptRunner} {MO : UtxoCache.MapOrder} {CH : Choices}.
Context (p : Context.Params) (indexManager : option IndexManager) (clk : clock).

(** A call that does not succeed, with an error that is no broken rule *)
Definition refuses {A} (m : M A) (s : chain) : Prop :=
  ∀ r s', m s = Done (r, s') → ∃ e, r = inr e ∧ isRuleError e = false.

Lemma refuses_bind {A B} (m : M A) (f : A → M B) s :
  (∀ r s', m s = Done (r, s') → match r with inl a => refuses (f a) s' | inr e => isRuleError e = false end) →
  refuses (m ≫= f) s.
Proof.
  intros Hm r s' E. unfold mbind, io_bind in E. destruct (m s) as [[[a|e] s1]| |] eqn:Em; [|injection E as <- <-|done..].
  - by eapply (Hm (inl a)).
  - exists e. split; [done|]. exact (Hm _ _ eq_refl).
Qed.

(** A call that leaves the state alone and whose errors are no broken rules *)
Definition harmless {A} (m : M A) (s : chain) : Prop :=
  ∀ r s', m s = Done (r, s') → s' = s ∧ match r with inl _ => True | inr e => isRuleError e = false end.

Lemma harmless_bind {A B} (m : M A) (f : A → M B) s : harmless m s → (∀ a, harmless (f a) s) → harmless (m ≫= f) s.
Proof.
  intros Hm Hf r s' E. unfold mbind, io_bind in E. destruct (m s) as [[[a|e] s1]| |] eqn:Em; [|injection E as <- <-|done..].
  - destruct (Hm _ _ Em) as [-> _]. by eapply Hf.
  - exact (Hm _ _ Em).
Qed.
Lemma harmless_refuses {A B} (m : M A) (f : A → M B) s : harmless m s → (∀ a, refuses (f a) s) → refuses (m ≫= f) s.
Proof. intros Hm Hf. apply refuses_bind. intros r s' E. destruct (Hm _ _ E) as [-> ?]. by destruct r. Qed.
Lemma harmless_ret {A} (a : A) s : harmless (mret a) s.
Proof. by intros r s' [= <- <-]. Qed.
Lemma harmless_get s : harmless get_ s.
Proof. by intros r s' [= <- <-]. Qed.
Lemma harmless_run {A} (m : run A) s : harmless (io_run m) s.
Proof. intros r s'. unfold io_run. destruct m; [|done..]. by intros [= <- <-]. Qed.
Lemma harmless_assert {A} s : harmless (io_fail AssertError : M A) s.
Proof. by intros r s' [= <- <-]. Qed.
Lemma harmless_inView {A} v (m : UtxoView.M A) s : harmless (inView v m) s.
Proof. intros r s'. unfold inView. intros ([[a|e] v']&_&[= <- <-])%run_bind_Done; done. Qed.

Create HintDb harmless.
#[local] Hint Resolve harmless_bind harmless_ret harmless_get harmless_run harmless_assert harmless_inView : harmless.

Lemma harmless_node l s : harmless (node l) s.
Proof. unfold node, nodeHeap. auto with harmless. Qed.
#[local] Hint Resolve harmless_node : harmless.
Lemma harmless_chainTip s : harmless bestChainTip s.
Proof. unfold bestChainTip. auto 8 with harmless. Qed.
Lemma harmless_parentHash l s : harmless (parentNodeHash l) s.
Proof. unfold parentNodeHash. auto 8 with harmless. Qed.
#[local] Hint Resolve harmless_chainTip harmless_parentHash : harmless.

(** The writer has no commit scheduled, and journal, index and bodies are those of [x]. *)
Definition idle (x s : chain) : Prop :=
  schedule (queue s) = [] ∧ rows s = rows x ∧ ix s = ix x ∧ orphanPool s = orphanPool x.

Lemma idle_tick x s : idle x s → tick indexManager s = Done (inl tt, s).
Proof. intros [Hs _]. unfold tick. by rewrite Hs. Qed.

Lemma idle_node x s l nd : idle x s → BlockIndex.hp (ix x) !! l = Some nd → node l s = Done (inl nd, s).
Proof.
  intros (_&_&Hx&_) Hl. unfold node. rewrite (io_step nodeHeap _ s (BlockIndex.hp (ix x)) s) by (rewrite <-Hx; done).
  unfold io_run. by rewrite (BlockNode.deref_Some _ _ _ Hl).
Qed.

Lemma idle_fetch x s l nd b : idle x s → BlockIndex.hp (ix x) !! l = Some nd → Orphans.bodies (orphanPool x) !! hash nd = Some b →
  fetchBlockByNode indexManager l s =
  Done (inl {| Header := Header b; Transactions := Transactions b; BlockHeight := height nd |}, s).
Proof.
  intros Hi Hl Hb. unfold fetchBlockByNode. rewrite (io_step _ _ _ _ _ (idle_tick x s Hi)), (io_step _ _ _ _ _ (idle_node x s l nd Hi Hl)).
  change ((get_ ≫= ?f) s) with (f s s). cbv beta. destruct Hi as (_&_&_&->). by rewrite Hb.
Qed.

Lemma idle_inputs x s block view r s' : idle x s → fetchInputUtxos indexManager block view s = Done (r, s') →
  idle x s' ∧ match r with inl _ => True | inr e => isRuleError e = false end.
Proof.
  intros Hi. unfold fetchInputUtxos. rewrite (io_step _ _ _ _ _ (idle_tick x s Hi)). unfold inCache.
  by intros ([[a|e] u]&_&[= <- <-])%run_bind_Done.
Qed.

Lemma fetch_journal_missing j d hs (txs : list Wire.Tx) r : j !! hs = None → UtxoSet.numInputs (tail txs) ≠ 0%nat →
  UtxoSet.dbFetchSpendJournalEntry j d hs txs = Done r → ∃ e, r = inr e.
Proof.
  intros Hj Hn. unfold UtxoSet.dbFetchSpendJournalEntry. rewrite Hj. cbn [from_option]. unfold id.
  destruct txs as [|tx txs]; [done|]. rewrite Compress.slice_tail1 by (by rewrite zlen_cons). cbn [tail] in Hn.
  intros (txs'&[= <-]&E)%run_bind_Done. apply run_bind_Done in E as (r1&E1&E). unfold UtxoSet.deserializeSpendJournalEntry in E1.
  change (zlen (@nil byte) =? 0) with true in E1. cbv iota zeta in E1. destruct (Nat.eqb_spec (UtxoSet.numInputs txs) 0); [done|].
  injection E1 as <-. apply run_bind_Done in E as (h&_&[= <-]). by eexists.
Qed.

Lemma verifyDetach_refuses x l ns view s nd b : idle x s → BlockIndex.hp (ix x) !! l = Some nd →
  Orphans.bodies (orphanPool x) !! hash nd = Some b → UtxoSet.numInputs (tail (Transactions b)) ≠ 0%nat →
  journal (rows x) !! hash nd = None → refuses (verifyDetach indexManager (l :: ns) view) s.
Proof.
  intros Hi Hl Hb Hn Hj r s'. cbn [verifyDetach].
  rewrite (io_step _ _ _ _ _ (idle_fetch x s l nd b Hi Hl Hb)), (io_step _ _ _ _ _ (idle_node x s l nd Hi Hl)).
  case_bool_decide as Hh; cbn [negb]; [|intros [= <- <-]; by eexists]. revert r s'.
  apply refuses_bind. intros r s1 E1. apply (idle_inputs x) in E1 as [Hi1 He]; [|done]. destruct r as [v|e]; [|done].
  intros r s'. rewrite (io_step _ _ _ _ _ (idle_tick x s1 Hi1)). change ((get_ ≫= ?f) s1) with (f s1 s1). cbv beta. revert r s'.
  apply refuses_bind. unfold io_run. intros r s2 E. destruct (UtxoSet.dbFetchSpendJournalEntry _ _ _ _) as [j'| |] eqn:Ej; [|done..].
  injection E as <- <-. destruct Hi1 as (_&Hr&_). rewrite Hr, <-Hh in Ej. apply fetch_journal_missing in Ej as [e ->]; [|done..].
  intros r s3 [= <- <-]. by eexists.
Qed.

(** C29 (error).  A reorganisation cannot happen while the spend journal of the tip is with
    the asynchronous writer: [verifyReorganizationValidity] reads the journal without
    waiting for the writer.  If the writer commits nothing meanwhile and the journal has no
    row for the first block to disconnect, whose body is stored and spends outputs, then
    [reorganizeChain] fails, with an error that is not a broken rule, and the chains, the
    index, the snapshot and the orphans are what they were. *)
Theorem reorg_needs_written_journal (l : loc) (detach attach : list loc) (s : chain) (nd : blockNode) (b : Block) :
  schedule (queue s) = [] → BlockIndex.hp (ix s) !! l = Some nd → Orphans.bodies (orphanPool s) !! hash nd = Some b →
  UtxoSet.numInputs (tail (Transactions b)) ≠ 0%nat → journal (rows s) !! hash nd = None →
  ∀ r s', reorganizeChain p indexManager clk (l :: detach) attach s = Done (r, s') →
  (∃ e, r = inr e ∧ isRuleError e = false) ∧ fixedPart s' = fixedPart s.
Proof.
  intros Hs Hl Hb Hn Hj r s'.
  assert (refuses (verifyReorganizationValidity p indexManager (l :: detach) attach) s) as Hv.
  { unfold verifyReorganizationValidity. cbn [head]. apply harmless_refuses; [auto with harmless|]. intros tip.
    apply harmless_refuses; [apply harmless_bind; [auto with harmless|]; intros fn; case_match; auto with harmless|]. intros [].
    apply harmless_refuses.
    { destruct (head attach), (last (l :: detach)); auto with harmless. apply harmless_bind; [auto with harmless|]. intros hf.
      apply harmless_bind; [auto with harmless|]. intros hl. case_match; auto with harmless. }
    intros []. apply harmless_refuses; [auto with harmless|]. intros v. apply refuses_bind. intros r1 s1 E1.
    destruct (verifyDetach_refuses s l detach v.2 s nd b ltac:(done) Hl Hb Hn Hj r1 s1 E1) as (e&->&He). done. }
  unfold reorganizeChain. intros [(e&E&->)|(a&s1&E&_)]%io_cases; destruct (Hv _ _ E) as (e'&Ee&He); [|done].
  injection Ee as <-. split; [by exists e|]. by eapply still_verify.
Qed.

End journal.

End ChainSpec.
