(* ===== verification/ChainRuns.v ===== *)
(** * ChainRuns: runs of block processing

    Concrete chains, blocks and calls for [Chain]: a toy chain of eight blocks, blocks
    that extend it or fork from it, and what [ProcessBlock] does with them in various
    orders.  Scripts are not run; the proof-of-work hash is the nonce repeated, so a
    block with nonce zero has proof of work and one with another nonce has none.
    The states also serve as the concrete inputs of the theorems in [ChainSpec]. *)

From S2P Require Import Prelude WorkMath Compress ChainHash Wire BlockNode ChainView ChainIO ColdRead Difficulty BlockIndex.
From S2P Require Import Merkle Threshold Script UtxoSet UtxoCache UtxoView Sanity Connect ScriptNum Context WriteQueue Orphans Chain ChainSpec.

Module ChainRuns.
Import BlockNode (loc, toyLoc, toyNode, toyHash, toyHeap, toyPrev, toyHeap_wf, toyHeap_full, toyHeap_unique).
Import UtxoView (Block, Header, Transactions, BlockHeight).
Import Orphans (blockHash).
Import Chain ChainSpec.

#[local] Existing Instance Compress.toyKeys.
#[local] Existing Instance UtxoCache.listOrder.
#[local] Instance noScripts : Connect.ScriptRunner := {| Connect.checkBlockScripts _ _ _ := None |}.
#[local] Instance noncePow : Sanity.PowHash := {| Sanity.BlockPoWHash hd := replicate 32 (z2b (Wire.Nonce hd)) |}.
#[local] Instance choices : Choices := {| dirtyOrder := elements; indexOrder := map_to_list; orphanOrder m := (map_to_list m).*2; poolPick _ := None |}.

(** ** The chain *)

Definition index0 (h : BlockNode.heap) (c : ChainView.chainView) : BlockIndex.state :=
  {| BlockIndex.hp := h;
     BlockIndex.bi := {| BlockIndex.index := ColdRead.index_ (ColdRead.toyChain 8 8); BlockIndex.dirty := ∅; BlockIndex.windowSize := 0;
                         BlockIndex.bestChainView := Some c; BlockIndex.bestHeaderView := Some c; BlockIndex.ready := true;
                         BlockIndex.evictCount := 0 |};
     BlockIndex.cold := ColdRead.newColdNodeCache; BlockIndex.pool := []; BlockIndex.sdb := ColdRead.toyDB 8 |}.

Definition chainOn (h : BlockNode.heap) (c : ChainView.chainView) : chain :=
  {| ix := index0 h c;
     rules := {| deploymentCaches := replicate 6 ∅; warningCaches := replicate 29 ∅; unknownRulesWarned := false;
                 checkpointNode := None; nextCheckpoint := None |};
     utxo := UtxoCache.startState 1000000 true Connect.oldRows;
     rows := {| journal := ∅; indexRows := ∅; watermark := None |};
     orphanPool := Orphans.set_bodies {[toyHash 7 := Sanity.soloBlock]} Orphans.emptyPool;
     blockDownload := None; ownHeaderView := None; headerFlushCount := 0;
     stateSnapshot := {| WriteQueue.Hash := toyHash 7; WriteQueue.Height := 7; WriteQueue.Bits := 0; WriteQueue.BlockSize := 0;
                         WriteQueue.BlockWeight := 0; WriteQueue.NumTxns := 1; WriteQueue.TotalTxns := 8; WriteQueue.MedianTime := 0 |};
     queue := {| pending := []; stopped := false; schedule := [] |} |}.

(** Blocks 0 to 7, all in memory and on disk *)
Definition start : chain :=
  chainOn (ColdRead.heap_ (ColdRead.toyChain 8 8)) (ColdRead.bestChain (ColdRead.toyChain 8 8)).

Definition coinbase (n value : Z) : Wire.Tx :=
  {| Wire.TxVersion := 1;
     Wire.TxIns := [{| Wire.PreviousOutPoint := UtxoCache.nullOp; Wire.SignatureScript := [z2b 1; z2b n]; Wire.Witness := None;
                       Wire.Sequence := 2 ^ 32 - 1 |}];
     Wire.TxOuts := [{| Wire.Value := value; Wire.PkScript := [z2b 0x51] |}]; Wire.LockTime := 0 |}.

Definition mkBlock (prev : list byte) (time nonce : Z) (txs : list Wire.Tx) : Block :=
  {| Header := {| Wire.Version := 4; Wire.PrevBlock := prev;
                  Wire.MerkleRoot := match Merkle.CalcMerkleRoot txs false with Done h => h | _ => [] end;
                  Wire.Timestamp := time; Wire.Bits := 0x1f3fffff; Wire.Nonce := nonce |};
     Transactions := txs; BlockHeight := 0 |}.

Definition params : Context.Params := Context.mainParams [].
Definition clock0 : clock := {| adjustedTime := 1565881400; now := 1565881400000000000 |}.

Definition process (b : Block) : M (bool * bool) := ProcessBlock params None clock0 b 0.

(** The results of processing blocks one after the other *)
Fixpoint processAll (bs : list Block) : M (list (bool * bool + chainError)) :=
  match bs with
  | [] => mret []
  | b :: bs => r ← attempt (process b); rs ← processAll bs; mret (r :: rs)
  end.

(** The answer of a program with the heights of both chains after it *)
Definition outcome {A} (m : M A) (s : chain) : option (A * Z * Z) :=
  match m s with
  | Done (inl a, s') => Some (a, WriteQueue.Height (stateSnapshot s'), ChainView.viewHeight (bestHeader s'))
  | _ => None
  end.

Definition flushAll : M unit := FlushUtxoCache None clock0 UtxoCache.FlushPeriodic.

Abbreviation onMain := (inl (true, false)).
Abbreviation onSide := (inl (false, false)).
Abbreviation orphaned := (inl (false, true)).

(** ** A reorganisation needs the journal on disk *)

(** One block that spends an output, and a branch of two on the same parent *)
Definition blockA : Block := mkBlock (toyHash 7) 1565881300 0 [coinbase 8 5000; Connect.txB].
Definition blockB : Block := mkBlock (toyHash 7) 1565881301 0 [coinbase 9 5000].
Definition blockC : Block := mkBlock (blockHash blockB) 1565881302 0 [coinbase 10 5000].

(** A block that spends an output is connected, and a branch with more work arrives: the
    journal of the block is still with the writer, so the block that completes the better
    branch is refused with an error that is not a broken rule, and the chain stays where
    it was.  After the queue was flushed the same block reorganises the chain. *)
Lemma reorg_journal_run :
  outcome (processAll [blockA; blockB; blockC]) start
    = Some ([onMain; onSide; inr (JournalError (UtxoSet.JournalError UtxoSet.AssertError))], 8, 8) ∧
  outcome (_ ← processAll [blockA; blockB]; _ ← flushAll; processAll [blockC]) start = Some ([onMain], 9, 9).
Proof. split; vm_compute; reflexivity. Qed.

(** The tip with its block, when its journal is not written *)
Definition unwrittenTip (s : chain) : option (loc * BlockNode.blockNode * Block) :=
  l ← ChainView.tip (bestChain s);
  nd ← BlockIndex.hp (ix s) !! l;
  b ← Orphans.bodies (orphanPool s) !! BlockNode.hash nd;
  if bool_decide (schedule (queue s) = [] ∧ UtxoSet.numInputs (tail (Transactions b)) ≠ 0%nat ∧
                  journal (rows s) !! BlockNode.hash nd = None)
  then Some (l, nd, b) else None.

(** After [blockA] was connected, detaching it fails. *)
Lemma reorg_needs_written_journal_witness :
  match process blockA start with
  | Done (inl _, s) =>
      match unwrittenTip s with
      | Some (l, _, _) =>
          match reorganizeChain params None clock0 [l] [] s with
          | Done (r, s') => (∃ e, r = inr e ∧ isRuleError e = false) ∧ fixedPart s' = fixedPart s
          | _ => False
          end
      | None => False
      end
  | _ => False
  end.
Proof.
  assert (match process blockA start with
          | Done (inl _, s) =>
              match unwrittenTip s with
              | Some (l, _, _) => match reorganizeChain params None clock0 [l] [] s with Done _ => true | _ => false end
              | None => false
              end
          | _ => false
          end = true) as E by (vm_compute; reflexivity).
  destruct (process blockA start) as [[[x|] s]| |]; try discriminate E.
  destruct (unwrittenTip s) as [[[l nd] b]|] eqn:Et; try discriminate E. unfold unwrittenTip in Et.
  destruct (ChainView.tip (bestChain s)) as [l1|]; [|discriminate Et]. cbn in Et.
  destruct (BlockIndex.hp (ix s) !! l1) as [n1|] eqn:E1; [|discriminate Et]. cbn in Et.
  destruct (Orphans.bodies (orphanPool s) !! BlockNode.hash n1) as [b1|] eqn:E2; [|discriminate Et]. cbn in Et.
  destruct (bool_decide _) eqn:Eb; [|discriminate Et]. apply bool_decide_eq_true in Eb as (H1&H2&H3). injection Et as -> -> ->.
  pose proof (reorg_needs_written_journal params None clock0 l [] [] s nd b H1 E1 E2 H2 H3) as H.
  destruct (reorganizeChain params None clock0 [l] [] s) as [[r s']| |]; try discriminate E. exact (H r s' eq_refl).
Defined.

(** ** Orphans are connected without proof of work *)

(** The child of [blockB] without proof of work *)
Definition blockN : Block := mkBlock (blockHash blockB) 1565881302 1 [coinbase 10 5000].

(** The proof of work of an orphan is not checked.  The block without proof of
    work is refused when its parent is in the chain; sent before its parent it
    becomes an orphan, and when the parent arrives it is connected: the orphan was
    accepted with the flag that skips the check, and [maybeAcceptBlock], which
    [processOrphans] calls, does not make it. *)
Lemma orphan_skips_pow :
  outcome (processAll [blockB; blockN]) start = Some ([onMain; inr (SanityError Sanity.ErrHighHash)], 8, 8) ∧
  outcome (processAll [blockN; blockB]) start = Some ([orphaned; onMain], 9, 9).
Proof. split; vm_compute; reflexivity. Qed.

(** ** A branch that is known to be invalid *)

(** Two blocks, and on the same parent a block whose coinbase takes too much, with two
    branches on top of it *)
Definition main8 : Block := mkBlock (toyHash 7) 1565881300 0 [coinbase 8 5000].
Definition main9 : Block := mkBlock (blockHash main8) 1565881302 0 [coinbase 9 5000].
Definition bad8 : Block := mkBlock (toyHash 7) 1565881301 0 [coinbase 8 (2 ^ 33)].
Definition left9 : Block := mkBlock (blockHash bad8) 1565881303 0 [coinbase 9 5000].
Definition right9 : Block := mkBlock (blockHash bad8) 1565881304 0 [coinbase 10 5000].
Definition left10 : Block := mkBlock (blockHash left9) 1565881305 0 [coinbase 11 5000].
Definition right10 : Block := mkBlock (blockHash right9) 1565881306 0 [coinbase 12 5000].

(** A block on a branch that is known to be invalid is reported as connected to the
    main chain.  When the first branch gets more work than the chain, its first block
    is found invalid and marked.  The second branch stands on the same block: for its
    next block [getReorganizeNodes] meets the mark and returns no nodes,
    [reorganizeChain] has nothing to do and succeeds, and [ProcessBlock] answers that
    the block is on the main chain.  The chain stays at height 9, but the tip of the
    headers moves to height 10, onto the invalid branch. *)
Theorem invalid_branch_is_main :
  outcome (processAll [main8; main9; bad8; left9; right9; left10; right10]) start
    = Some ([onMain; onMain; onSide; onSide; onSide; inr (ConnectError Connect.ErrBadCoinbaseValue); onMain], 9, 10).
Proof. vm_compute. reflexivity. Qed.

(** ** Inputs of the theorems *)

(** The block of the tip is not the one the store has under its hash. *)
Lemma failed_reorg_keeps_chain_witness : ∃ s', reorganizeChain params None clock0 [toyLoc 7] [] start = Done (inr AssertError, s') ∧
  fixedPart s' = fixedPart start.
Proof.
  pose proof (failed_reorg_keeps_chain params None clock0 [toyLoc 7] [] start) as H.
  assert (match verifyReorganizationValidity params None [toyLoc 7] [] start with Done (inr AssertError, _) => true | _ => false end = true) as E
    by (vm_compute; reflexivity).
  destruct (verifyReorganizationValidity params None [toyLoc 7] [] start) as [[[|[]] s']| |]; try discriminate E.
  exists s'. exact (H s' AssertError eq_refl).
Defined.

(** [blockB] waits for the tip and is connected. *)
Lemma orphans_processed_witness :
  let s := set_orphans (Orphans.insertOrphan 0 blockB (orphanPool start)) start in
  match processOrphans params None clock0 (toyHash 7) 0 s with
  | Done (r, s') => r = inl tt ∧ Orphans.pool_ok (orphanPool s') ∧ Orphans.dependents (toyHash 7) (orphanPool s') = [] ∧
      WriteQueue.Hash (stateSnapshot s') = blockHash blockB
  | _ => False
  end.
Proof.
  intros s. assert (Orphans.pool_ok (orphanPool s)) as Q.
  { apply Orphans.insert_ok; [|reflexivity]. split; intros h o Eo; cbn in Eo; by rewrite lookup_empty in Eo. }
  pose proof (orphans_processed params None clock0 (toyHash 7) 0 s Q) as H. cbv zeta in H.
  assert (match processOrphans params None clock0 (toyHash 7) 0 s with
          | Done (inl tt, s') => bool_decide (WriteQueue.Hash (stateSnapshot s') = blockHash blockB) | _ => false end = true) as E
    by (vm_compute; reflexivity).
  destruct (processOrphans _ _ _ _ _ s) as [[r s']| |]; [|discriminate E..]. destruct r as [[]|]; [|discriminate E].
  destruct H as (H1&_&H2). destruct (H2 eq_refl) as (_&H3&_). split; [reflexivity|]. split; [exact H1|]. split; [exact H3|].
  exact (proj1 (bool_decide_eq_true _) E).
Defined.




(** [blockB] with its node, ready to be connected *)
Definition withNode : run ((loc + chainError) * chain) := newNode (Header blockB) (toyLoc 7) BlockNode.statusDataStored start.

Lemma connect_block_spec_witness :
  match withNode with
  | Done (inl l, s) =>
      match connectBlock params None clock0 l (with_height blockB 8) [] s with
      | Done (inl _, s') => ∃ nd it, describes nd (with_height blockB 8) [] (stateSnapshot s') it ∧
          (last (pending (queue s')) = Some it ∨ pending (queue s') = [])
      | _ => False
      end
  | _ => False
  end.
Proof.
  assert (match withNode with
          | Done (inl l, s) => match connectBlock params None clock0 l (with_height blockB 8) [] s with Done (inl _, _) => true | _ => false end
          | _ => false
          end = true) as E by (vm_compute; reflexivity).
  destruct withNode as [[[l|] s]| |]; try discriminate E.
  pose proof (connect_block_spec params None clock0 l (with_height blockB 8) [] s) as H.
  destruct (connectBlock params None clock0 l (with_height blockB 8) [] s) as [[[u|] s']| |]; try discriminate E.
  destruct (H _ _ eq_refl) as [(e&Er&_)|(_&_&_&_&nd&nd'&it&_&_&Hd&_&_&Hp)]; [discriminate Er|].
  exists nd, it. split; [exact Hd|exact Hp].
Defined.

(** A block on top of block 5, while the chain goes on to block 7 *)
Definition forkHeader : Wire.BlockHeader :=
  {| Wire.Version := 1; Wire.PrevBlock := toyHash 5; Wire.MerkleRoot := toyHash 0;
     Wire.Timestamp := 1565881300; Wire.Bits := 0x1f3fffff; Wire.Nonce := 5 |}.

Definition forkPrev : gmap BlockNode.hash_t BlockNode.hash_t := <[BlockNode.headerHash forkHeader := toyHash 5]> toyPrev.

Lemma fork_hash_fresh : ∀ k n, k ≠ toyLoc 8 → toyHeap !! k = Some n → BlockNode.hash n ≠ BlockNode.headerHash forkHeader.
Proof.
  assert (bool_decide (map_Forall (fun _ n => bool_decide (BlockNode.hash n ≠ BlockNode.headerHash forkHeader)) toyHeap) = true) as H
    by (vm_compute; reflexivity).
  apply bool_decide_eq_true in H. intros k n _ Hk. exact (bool_decide_unpack _ (H k n Hk)).
Qed.

(** The view of the chain is the same on every heap that has its blocks. *)
Lemma toyView_on prev h nd : BlockNode.heap_wf prev h → h !! toyLoc 7 = Some nd → BlockNode.height nd = 7 →
  is_Some (BlockNode.walk h 7 (toyLoc 7)) → ChainView.setTip h ChainView.emptyView (Some (toyLoc 7)) = Done ChainView.toyView →
  ChainView.view_ok h ChainView.toyView.
Proof.
  intros Hwf Hn Hh Hw E.
  destruct (ChainView.setTip_shows prev h ChainView.emptyView (toyLoc 7) nd Hwf (ChainView.emptyView_ok _) Hn) as (c'&E'&_&Hs);
    [rewrite Hh; vm_compute; first [reflexivity|discriminate]..|rewrite Hh; exact Hw|].
  rewrite E in E'. injection E' as <-.
  apply (ChainView.shows_ok prev h ChainView.toyView (toyLoc 7) nd Hwf); [rewrite Hh; split; discriminate|exact Hn|exact Hs].
Qed.

Definition forkHeap : BlockNode.heap :=
  match BlockNode.newBlockNode toyHeap (toyLoc 8) 0 forkHeader (Some (toyLoc 5)) with Done (_, h) => h | _ => ∅ end.

Lemma fork_heap : BlockNode.heap_wf forkPrev forkHeap ∧ BlockNode.full forkHeap ∧ BlockNode.unique forkHeap ∧
  ChainView.view_ok forkHeap ChainView.toyView.
Proof.
  destruct (BlockNode.newBlockNode_wf toyPrev toyHeap (toyLoc 8) 0 forkHeader (toyLoc 5) (toyNode 5))
    as (h&nd&Hn&Hi&Hwf&_&_&_&_&Hf&Hu); [exact toyHeap_wf|exact BlockNode.toyHeap_unreferenced|discriminate|vm_compute; reflexivity..
    |left; vm_compute; reflexivity|].
  assert (h = forkHeap) as -> by (unfold forkHeap; rewrite Hn; reflexivity).
  split_and!; [exact Hwf|exact (Hf toyHeap_full)|exact (Hu toyHeap_unique fork_hash_fresh)|].
  apply (toyView_on _ _ (toyNode 7) Hwf); [vm_compute; reflexivity..|vm_compute; eexists; reflexivity|vm_compute; reflexivity].
Qed.

(** Blocks 7 and 6 leave the chain, block 8 joins it. *)
Lemma reorg_nodes_spec_witness : ∃ s s', getReorganizeNodes (toyLoc 8) s = Done (inl ([toyLoc 7; toyLoc 6], [toyLoc 8]), s') ∧
  fixedPart s' = fixedPart s ∧ reorgOutcome (toyLoc 7) (toyLoc 8) s [toyLoc 7; toyLoc 6] [toyLoc 8] s'.
Proof.
  destruct fork_heap as (H1&H2&H3&H4). set (s := chainOn forkHeap ChainView.toyView).
  assert (∃ nd, forkHeap !! toyLoc 8 = Some nd ∧ BlockNode.parent nd = Some (toyLoc 5)) as (nd&H5&H6).
  { exists (default (toyNode 0) (forkHeap !! toyLoc 8)). split; vm_compute; reflexivity. }
  destruct (reorg_nodes_spec forkPrev (toyLoc 8) (toyLoc 5) (toyLoc 7) nd s H1 H2 H3 H4)
    as (d&a&s'&E&Hf&Hr); [vm_compute; discriminate|vm_compute; reflexivity|exact H5|exact H6|].
  assert (outcome (getReorganizeNodes (toyLoc 8)) s = Some (([toyLoc 7; toyLoc 6], [toyLoc 8]), 7, 7)) as H7 by (vm_compute; reflexivity).
  unfold outcome in H7. rewrite E in H7.
  assert (d = [toyLoc 7; toyLoc 6] ∧ a = [toyLoc 8]) as [Ed Ea] by (injection H7; intros; subst; split; reflexivity).
  subst d a. exists s, s'. split; [exact E|]. split; [exact Hf|exact Hr].
Defined.

End ChainRuns.
