(* ===== verification/ChainControl.v ===== *)
(** * ChainControl: invalidating blocks and rolling the chain back

    Model of the operations of [blockchain/chain.go] that take blocks out of the chain
    by command: [InvalidateBlock], [ReconsiderBlock], [InvalidateHeaderChain] with
    [removeDisconnectedBlocks], and [RemoveBlockData]; with [InactiveTips] of
    [blockchain/blockindex.go] and what the code reports about the two chains. *)

From S2P Require Import Prelude WorkMath Compress ChainHash Wire BlockNode ChainView ChainIO ColdRead Difficulty BlockIndex.
From S2P Require Import Merkle Threshold Script UtxoSet UtxoCache UtxoView Sanity Connect ScriptNum Context WriteQueue Orphans Chain ChainSpec.

Module ChainControl.
Import BlockNode (hash_t, loc, heap, blockNode, deref, hash, height, parent, status, workSum, KnownInvalid, KnownValid, HaveData,
  statusValid, statusValidateFailed, statusInvalidAncestor, statusDataStored).
Import UtxoView (Block, Header, Transactions, BlockHeight).
Import Orphans (blockHash).
Import Chain.

(** ** Tips *)

(** The blocks outside of the best chain *)
Definition outside (h : heap) (c : ChainView.chainView) (m : gmap hash_t loc) : gmap hash_t loc :=
  filter (fun x => BlockIndex.viewContains h (Some c) x.2 = false) m.

(** The hash of the parent, if its link is not cut *)
Definition parentHash_at (h : heap) (l : loc) : option hash_t :=
  nd ← h !! l; q ← parent nd; qn ← h !! q; Some (hash qn).

Section control.
Context {K : Compress.SecKeys} {R : Connect.ScriptRunner} {MO : UtxoCache.MapOrder} {CH : Choices}.
Context (p : Context.Params) (indexManager : option IndexManager) (clk : clock).

(** The tips in the order of the iteration over the map: blocks that no other block
    outside of the best chain has as its parent *)
Definition InactiveTips (s : chain) : list loc :=
  let h := BlockIndex.hp (ix s) in
  let orphans := outside h (bestChain s) (BlockIndex.index (BlockIndex.bi (ix s))) in
  let parents := omap (fun x => parentHash_at h x.2) (map_to_list orphans) in
  (filter (fun x => x.1 ∉ parents) (indexOrder orphans)).*2.

Definition isAncestorOf (a tip : loc) : M bool := s ← get_; io_run (BlockNode.IsAncestor (BlockIndex.hp (ix s)) tip (Some a)).

Definition fuelOf (l : loc) : M nat := nd ← node l; mret (S (Z.to_nat (height nd))).

(** ** Marking *)

Definition markInvalid (l : loc) : M unit :=
  _ ← SetStatusFlags l statusInvalidAncestor; UnsetStatusFlags l statusValid.

(** From a node down to [stop]: nodes that are not invalid yet are marked and listed. *)
Fixpoint markDown (fuel : nat) (stop : blockNode → loc → bool) (n : option loc) : M (list loc) :=
  match n with
  | None => mret []
  | Some l =>
      nd ← node l;
      if stop nd l then mret [] else
      match fuel with
      | O => io_run NoFuel
      | S fuel =>
          if KnownInvalid (status nd) then markDown fuel stop (parent nd) else
          _ ← markInvalid l;
          rest ← markDown fuel stop (parent nd);
          mret (l :: rest)
      end
  end.

Definition markBranch (l tip : loc) : M (list loc) :=
  fuel ← fuelOf tip; markDown fuel (fun _ q => bool_decide (q = l)) (Some tip).

Fixpoint markBranches (l : loc) (tips : list loc) : M unit :=
  match tips with
  | [] => mret tt
  | tip :: tips =>
      above ← isAncestorOf l tip;
      _ ← (if above : bool then markBranch l tip else mret []);
      markBranches l tips
  end.

(** The tip with the most work among those that are not known to be invalid; the first
    one wins ties. *)
Fixpoint bestTipOf (tips : list loc) (best : option (loc * blockNode)) : M (option loc) :=
  match tips with
  | [] => mret (fst <$> best)
  | tip :: tips =>
      nd ← node tip;
      if KnownInvalid (status nd) then bestTipOf tips best else
      match best with
      | Some b => bestTipOf tips (if workSum b.2 <? workSum nd then Some (tip, nd) else best)
      | None => bestTipOf tips (Some (tip, nd))
      end
  end.

Definition reorganizeTo (tip : loc) : M unit :=
  '(detachNodes, attachNodes) ← getReorganizeNodes tip;
  r ← attempt (reorganizeChain p indexManager clk detachNodes attachNodes);
  _ ← flushToDB indexManager false;
  match r with inl _ => mret tt | inr e => io_fail e end.

Definition InvalidateBlock (hs : hash_t) : M unit :=
  o ← LookupNode hs;
  match o with
  | None => io_fail UnknownBlock
  | Some l =>
      nd ← node l;
      if height nd =? 0 then io_fail GenesisBlock else
      if KnownInvalid (status nd) then mret tt else
      _ ← SetStatusFlags l statusValidateFailed;
      _ ← UnsetStatusFlags l statusValid;
      inChain ← chainContains l;
      if negb inChain then
        s ← get_;
        _ ← markBranches l (InactiveTips s);
        flushToDB indexManager false
      else
        tip ← bestChainTip;
        detachNodes ← markBranch l tip.1;
        _ ← reorganizeChain p indexManager clk (detachNodes ++ [l]) [];
        _ ← flushToDB indexManager false;
        s ← get_;
        tip ← bestChainTip;
        best ← bestTipOf (InactiveTips s ++ [tip.1]) None;
        if bool_decide (best = Some tip.1) then mret tt else
        t ← io_run (of_option best);
        reorganizeTo t
  end.

(** ** Reconsidering *)

Fixpoint clearDown (fuel : nat) (stop : loc) (n : option loc) : M unit :=
  match n with
  | None => mret tt
  | Some l =>
      if bool_decide (l = stop) then mret tt else
      match fuel with
      | O => io_run NoFuel
      | S fuel => _ ← UnsetStatusFlags l statusInvalidAncestor; nd ← node l; clearDown fuel stop (parent nd)
      end
  end.

(** The last tip on top of the block, after its branch was cleared *)
Fixpoint clearBranches (l : loc) (tips : list loc) (found : option loc) : M (option loc) :=
  match tips with
  | [] => mret found
  | tip :: tips =>
      above ← isAncestorOf l tip;
      if negb above then clearBranches l tips (if bool_decide (tip = l) then Some l else found) else
      fuel ← fuelOf tip;
      _ ← clearDown fuel l (Some tip);
      clearBranches l tips (Some tip)
  end.

Definition ReconsiderBlock (hs : hash_t) : M unit :=
  o ← LookupNode hs;
  match o with
  | None => io_fail UnknownBlock
  | Some l =>
      nd ← node l;
      if KnownValid (status nd) then mret tt else
      _ ← UnsetStatusFlags l statusInvalidAncestor;
      _ ← UnsetStatusFlags l statusValidateFailed;
      s ← get_;
      tip ← bestChainTip;
      found ← clearBranches l (InactiveTips s ++ [tip.1]) None;
      t ← io_run (of_option found);
      tn ← node t;
      tip ← bestChainTip;
      if workSum tn <=? workSum tip.2 then mret tt else
      '(detachNodes, attachNodes) ← getReorganizeNodes t;
      r ← attempt (verifyReorganizationValidity p indexManager detachNodes attachNodes);
      _ ← flushToDB indexManager false;
      match r with
      | inr _ => mret tt
      | inl _ => reorganizeChain p indexManager clk detachNodes attachNodes
      end
  end.

(** ** Rolling the headers back *)

Definition body (hs : hash_t) (s : chain) : option Block := Orphans.bodies (orphanPool s) !! hs.
Definition deleteBody (hs : hash_t) (s : chain) : chain :=
  set_orphans (Orphans.set_bodies (delete hs (Orphans.bodies (orphanPool s))) (orphanPool s)) s.

(** The nodes above a height *)
Fixpoint nodesAbove (fuel : nat) (hgt : Z) (n : option loc) : M (list loc) :=
  match n with
  | None => mret []
  | Some l =>
      nd ← node l;
      if height nd <=? hgt then mret [] else
      match fuel with
      | O => io_run NoFuel
      | S fuel => rest ← nodesAbove fuel hgt (parent nd); mret (l :: rest)
      end
  end.

(** The transactions of the blocks that leave the chain, as far as their bodies are there *)
Fixpoint subtractTxns (ns : list loc) (total : Z) : M Z :=
  match ns with
  | [] => mret total
  | l :: ns =>
      nd ← node l;
      s ← get_;
      subtractTxns ns (match body (hash nd) s with
                       | Some b => u64 (total - zlen (Transactions b))
                       | None => total
                       end)
  end.

Fixpoint removeRows (ns : list blockNode) (s : chain) : chain :=
  match ns with
  | [] => s
  | nd :: ns =>
      removeRows ns (set_rows_db (ChainIO.dbRemoveBlockNode (BlockIndex.sdb (ix s)) (hash nd) (height nd)) (deleteBody (hash nd) s))
  end.

Fixpoint removeNodes (ns : list blockNode) (s : chain) : chain :=
  match ns with
  | [] => s
  | nd :: ns =>
      let x := ix s in
      let s := set_ix (with_heap (BlockIndex.hp x) (BlockIndex.removeNode (BlockIndex.bi x) (hash nd)) x) s in
      removeNodes ns (set_orphans (Orphans.removeOrphansWithParent (hash nd) (orphanPool s)) s)
  end.

Fixpoint readNodes (ns : list loc) : M (list blockNode) :=
  match ns with
  | [] => mret []
  | l :: ns => nd ← node l; rest ← readNodes ns; mret (nd :: rest)
  end.

Definition removeDisconnectedBlocks (ns : list loc) : M unit :=
  _ ← tick indexManager;
  nds ← readNodes ns;
  _ ← modify_ (removeRows nds);
  _ ← modify_ (removeNodes nds);
  flushToDB indexManager false.

(** The new best header view is another object; the index keeps the old one. *)
Definition restartHeaders (l : loc) : M unit := fun s =>
  v ← ChainView.newChainView (BlockIndex.hp (ix s)) (Some l); Done (inl tt, set_headerView (Some v) s).

(** The last transaction: the rows by height above the rollback and the records of the
    tip *)
Definition rollbackRows (rollbackHeight old : Z) (nd : blockNode) : M unit := fun s =>
  let d := foldl ChainIO.dbRemoveHeightIndex (BlockIndex.sdb (ix s)) (seqZ (rollbackHeight + 1) (old - rollbackHeight)) in
  let st := stateSnapshot s in
  let d := ChainIO.dbPutBestState d (WriteQueue.Hash st) (WriteQueue.Height st) (WriteQueue.TotalTxns st) (workSum nd) in
  d ← WriteQueue.dbPutBestTipSnapshot d (hash nd) (height nd) (workSum nd);
  Done (inl tt, set_rows_db d s).

Definition InvalidateHeaderChain (rollbackHeight : Z) : M unit :=
  s ← get_;
  match ChainView.nodeByHeight (bestChain s) rollbackHeight with
  | None => io_fail NotConnected
  | Some l =>
      let stop nd (_ : loc) := height nd <=? rollbackHeight in
      oldHeaderTip ← match ChainView.tip (bestHeader s) with
                     | None => mret (-1)
                     | Some t => fuel ← fuelOf t; nd ← node t; _ ← markDown fuel stop (Some t); mret (height nd)
                     end;
      _ ← tick indexManager;
      tip ← bestChainTip;
      fuel ← fuelOf tip.1;
      detachNodes ← nodesAbove fuel rollbackHeight (Some tip.1);
      s ← get_;
      total ← subtractTxns detachNodes (WriteQueue.TotalTxns (stateSnapshot s));
      nd ← node l;
      block ← match body (hash nd) s with Some b => mret b | None => io_fail ErrBlockNotFound end;
      _ ← restartHeaders l;
      _ ← match detachNodes with
          | [] => mret tt
          | _ => _ ← reorganizeChain p indexManager clk detachNodes []; removeDisconnectedBlocks detachNodes
          end;
      _ ← setChainTip (Some l);
      state ← bestStateOf l block total;
      _ ← modify_ (set_snapshot state);
      _ ← tick indexManager;
      nd ← node l;
      _ ← rollbackRows rollbackHeight oldHeaderTip nd;
      flushToDB indexManager false
  end.

(** ** Data and reports *)

Definition RemoveBlockData (hs : hash_t) : M unit :=
  _ ← tick indexManager;
  _ ← modify_ (deleteBody hs);
  o ← LookupNode hs;
  match o with
  | Some l => _ ← UnsetStatusFlags l statusDataStored; flushToDB indexManager false
  | None => mret tt
  end.

Definition HaveBlock (hs : hash_t) : M bool :=
  e ← blockExists indexManager hs; s ← get_; mret (e || Orphans.IsKnownOrphan hs (orphanPool s)).

Definition BlockStored (hs : hash_t) : M bool := blockExists indexManager hs.

Definition FlushBlockIndex : M unit := flushToDB indexManager true.

Definition BestDownloadState (s : chain) : hash_t * Z :=
  match blockDownload s with None => (ColdRead.zeroHash, -1) | Some (hs, g) => (hs, i32 g) end.

Definition BestChainHeaderForkHeight : M Z :=
  s ← get_;
  h ← nodeHeap;
  fork ← io_run (ChainView.findFork h (bestChain s) (ChainView.tip (bestHeader s)));
  match fork with None => mret 0 | Some f => fn ← node f; mret (height fn) end.

Definition HeaderChainDiverged : M bool :=
  s ← get_;
  match ChainView.tip (bestChain s), ChainView.tip (bestHeader s) with
  | Some t, Some g =>
      tn ← node t;
      gn ← node g;
      if height gn <=? height tn then mret false else
      match ChainView.nodeByHeight (bestHeader s) (height tn) with
      | None => mret false
      | Some q => qn ← node q; mret (negb (bool_decide (hash qn = hash tn)))
      end
  | _, _ => mret false
  end.

Inductive TipStatus := StatusUnknown | StatusActive | StatusInvalid | StatusValidFork.

Record ChainTip := { Height : Z; BlockHash : hash_t; BranchLen : Z; Status : TipStatus }.

Definition tipReport (l : loc) : M ChainTip :=
  s ← get_;
  h ← nodeHeap;
  nd ← node l;
  inChain ← chainContains l;
  let st := if inChain : bool then StatusActive
            else if KnownInvalid (status nd) then StatusInvalid
            else if HaveData (status nd) then StatusValidFork
            else StatusUnknown in
  fork ← io_run (ChainView.findFork h (bestChain s) (Some l));
  len ← match fork with Some f => fn ← node f; mret (i32 (height nd - height fn)) | None => mret (height nd) end;
  mret {| Height := height nd; BlockHash := hash nd; BranchLen := len; Status := st |}.

Fixpoint tipReports (ls : list loc) : M (list ChainTip) :=
  match ls with
  | [] => mret []
  | l :: ls => t ← tipReport l; ts ← tipReports ls; mret (t :: ts)
  end.

Definition ChainTips : M (list ChainTip) :=
  s ← get_; tip ← bestChainTip; tipReports (InactiveTips s ++ [tip.1]).

End control.

(** ** Statuses alone change

    The nodes without their status *)

Definition skeleton (h : heap) : heap := BlockIndex.set_status 0 <$> h.

Lemma skeleton_lookup h h' l nd : skeleton h' = skeleton h → h !! l = Some nd →
  ∃ nd', h' !! l = Some nd' ∧ BlockIndex.set_status 0 nd' = BlockIndex.set_status 0 nd.
Proof.
  intros E Hl. assert (skeleton h' !! l = Some (BlockIndex.set_status 0 nd)) as H by (rewrite E; unfold skeleton; by rewrite lookup_fmap, Hl).
  unfold skeleton in H. rewrite lookup_fmap in H. apply fmap_Some in H as (nd'&?&?). by exists nd'.
Qed.

Lemma skeleton_walk h h' n l : skeleton h' = skeleton h → BlockNode.walk h' n l = BlockNode.walk h n l.
Proof.
  intros E. revert l. induction n as [|n IH]; intros l; [done|]. cbn [BlockNode.walk].
  destruct (h !! l) as [nd|] eqn:Hl.
  - destruct (skeleton_lookup _ _ _ _ E Hl) as (nd'&->&En). cbn. apply (f_equal parent) in En. cbn in En. rewrite En.
    destruct (parent nd); [apply IH|done].
  - destruct (h' !! l) as [nd'|] eqn:Hl'; [|done]. destruct (skeleton_lookup _ _ _ _ (eq_sym E) Hl') as (?&?&_). congruence.
Qed.

Lemma chainOf_skeleton h h' n l : skeleton h = skeleton h' → ChainSpec.chainOf h n l = ChainSpec.chainOf h' n l.
Proof.
  intros E. revert l. induction n as [|n IH]; intros l; [done|]. cbn [ChainSpec.chainOf]. f_equal.
  assert ((h !! l ≫= parent) = (h' !! l ≫= parent)) as ->; [|destruct (h' !! l ≫= parent); [apply IH|done]].
  pose proof (skeleton_walk _ _ 1 l E) as Hw. cbn [BlockNode.walk] in Hw.
  destruct (h !! l) as [n1|], (h' !! l) as [n2|]; cbn in *; [|by destruct (parent n1)|by destruct (parent n2)|done].
  by destruct (parent n1), (parent n2).
Qed.

Lemma skeleton_wf prev h h' : skeleton h' = skeleton h → BlockNode.heap_wf prev h → BlockNode.heap_wf prev h'.
Proof.
  intros E Hwf l nd' Hl'. destruct (skeleton_lookup _ _ _ _ (eq_sym E) Hl') as (nd&Hl&En). destruct (Hwf l nd Hl) as (H1&H2&H3&H4).
  pose proof (f_equal height En) as Eh. pose proof (f_equal hash En) as Es. pose proof (f_equal parent En) as Ep.
  pose proof (f_equal BlockNode.ancestor En) as Ea. pose proof (f_equal BlockNode.parentHash En) as Eq. cbn in *.
  assert (∀ q g, BlockNode.link prev h nd q g → BlockNode.link prev h' nd' q g) as Hlk.
  { intros q g (qn&Hq&Hg&Hlt&Hw). destruct (skeleton_lookup _ _ _ _ E Hq) as (qn'&Hq'&Eqn).
    pose proof (f_equal height Eqn) as Eqh. pose proof (f_equal hash Eqn) as Eqs. cbn in Eqh, Eqs.
    exists qn'. rewrite Eqh, Eqs, <-Eh, <-Es. done. }
  unfold BlockNode.node_wf. rewrite <-Eh, <-Es, <-Ep, <-Ea, <-Eq. split; [done|]. split; [done|]. split; intros q Hq.
  - by apply Hlk, H3.
  - by apply Hlk, H4.
Qed.

Lemma skeleton_full h h' : skeleton h' = skeleton h → BlockNode.full h → BlockNode.full h'.
Proof.
  intros E Hf l nd' Hl'. destruct (skeleton_lookup _ _ _ _ (eq_sym E) Hl') as (nd&Hl&En). pose proof (Hf l nd Hl) as H.
  pose proof (f_equal height En) as Eh. pose proof (f_equal parent En) as Ep. cbn in Eh, Ep. by rewrite <-Eh, <-Ep.
Qed.

Lemma skeleton_unique h h' : skeleton h' = skeleton h → BlockNode.unique h → BlockNode.unique h'.
Proof.
  intros E Hu l1 l2 n1 n2 H1 H2 Eh. destruct (skeleton_lookup _ _ _ _ (eq_sym E) H1) as (m1&G1&E1).
  destruct (skeleton_lookup _ _ _ _ (eq_sym E) H2) as (m2&G2&E2).
  pose proof (f_equal hash E1) as F1. pose proof (f_equal hash E2) as F2. cbn in F1, F2. apply (Hu _ _ _ _ G1 G2). congruence.
Qed.

(** ** Invalidating a block of a side branch *)

Section invalidate.
Context {K : Compress.SecKeys} {R : Connect.ScriptRunner} {MO : UtxoCache.MapOrder} {CH : Choices}.
Context (p : Context.Params) (indexManager : option IndexManager) (clk : clock).
Import BlockNode (walk, heap_wf, full, unique).
Import ChainSpec (chainOf, invalid, fixedPart, io_inv, walk_inv, walk_ne, node_ok, io_run_ok, flag_invalid).

Abbreviation heapOf s := (BlockIndex.hp (ix s)).

(** Only statuses changed, and what was invalid still is. *)
Definition marked (s s' : chain) : Prop :=
  skeleton (heapOf s') = skeleton (heapOf s) ∧ fixedPart s' = fixedPart s ∧
  ∀ x, invalid (heapOf s) x = true → invalid (heapOf s') x = true.

#[local] Instance marked_preorder : PreOrder marked.
Proof.
  split; [done|]. intros s1 s2 s3 (A1&A2&A3) (B1&B2&B3). split; [congruence|]. split; [congruence|]. auto.
Qed.

Lemma unset_valid st : KnownInvalid (Z.ldiff st statusValid) = KnownInvalid st.
Proof.
  unfold KnownInvalid. do 2 f_equal. apply Z.bits_inj'. intros n Hn. rewrite !Z.land_spec, Z.ldiff_spec.
  change statusValid with (2 ^ 1). change (Z.lor statusValidateFailed statusInvalidAncestor) with 12.
  rewrite Z.pow2_bits_eqb by done. destruct (Z.eqb_spec 1 n) as [<-|]; [|by rewrite andb_true_r].
  change (Z.testbit 12 1) with false. by rewrite !andb_false_r.
Qed.

Lemma keeps_invalid st f : KnownInvalid st = true → KnownInvalid (Z.lor st f) = true.
Proof.
  unfold KnownInvalid. rewrite !negb_true_iff, !Z.eqb_neq. intros H E. apply H. apply Z.bits_inj'. intros n Hn.
  apply (f_equal (fun z => Z.testbit z n)) in E. rewrite Z.bits_0 in *. rewrite Z.land_spec, Z.lor_spec in E. rewrite Z.land_spec.
  destruct (Z.testbit st n); [done|]. done.
Qed.

(** Setting a flag that marks a block, then clearing its valid flag *)
Lemma mark_step l f nd s : heapOf s !! l = Some nd → (∀ st, KnownInvalid (Z.lor st f) = true) →
  ∃ s', (_ ← SetStatusFlags l f; UnsetStatusFlags l statusValid) s = Done (inl tt, s') ∧ marked s s' ∧ invalid (heapOf s') l = true.
Proof.
  intros Hl Hf. set (n1 := BlockIndex.set_status (Z.lor (status nd) f) nd). set (n2 := BlockIndex.set_status (Z.ldiff (status n1) statusValid) n1).
  set (b1 := BlockIndex.set_dirty ({[l]} ∪ BlockIndex.dirty (BlockIndex.bi (ix s))) (BlockIndex.bi (ix s))).
  set (s1 := set_ix (with_heap (<[l := n1]> (heapOf s)) b1 (ix s)) s).
  assert (SetStatusFlags l f s = Done (inl tt, s1)) as E1.
  { unfold SetStatusFlags, BlockIndex.SetStatusFlags. by rewrite (BlockNode.deref_Some _ _ _ Hl). }
  eexists. split.
  { rewrite (io_step _ _ _ _ _ E1). unfold UnsetStatusFlags, BlockIndex.UnsetStatusFlags.
    rewrite (BlockNode.deref_Some (heapOf s1) l n1) by apply lookup_insert_eq. cbn [mbind run_bind]. reflexivity. }
  split.
  - split; [|split; [done|]].
    + cbn. rewrite insert_insert_eq. unfold skeleton. rewrite fmap_insert. apply insert_id. by rewrite lookup_fmap, Hl.
    + intros x Hx. cbn. rewrite insert_insert_eq. unfold invalid in *. destruct (decide (x = l)) as [->|].
      * rewrite lookup_insert_eq. cbn. by rewrite unset_valid.
      * by rewrite lookup_insert_ne.
  - cbn. unfold invalid. rewrite insert_insert_eq, lookup_insert_eq. cbn. by rewrite unset_valid.
Qed.

(** The loop marks the whole way down to the block. *)
Lemma markDown_spec prev l n t fuel s : heap_wf prev (heapOf s) → is_Some (heapOf s !! t) → walk (heapOf s) n t = Some l → (n ≤ fuel)%nat →
  ∃ ls s', markDown fuel (fun _ q => bool_decide (q = l)) (Some t) s = Done (inl ls, s') ∧ marked s s' ∧
    Forall (fun x => invalid (heapOf s') x = true) (chainOf (heapOf s) n t).
Proof.
  revert t fuel s. induction n as [|n IH]; intros t fuel s Hwf [nd Ht] Hw Hf; cbn [markDown].
  { injection Hw as ->. destruct fuel; cbn [markDown]; rewrite (io_step _ _ _ _ _ (node_ok _ _ _ Ht)), bool_decide_true by done;
      exists [], s; (split; [done|split; [reflexivity|constructor]]). }
  destruct fuel as [|fuel]; [lia|]. cbn [markDown]. rewrite (io_step _ _ _ _ _ (node_ok _ _ _ Ht)).
  rewrite bool_decide_false by (intros ->; by apply (walk_ne prev _ _ _ _ _ Hwf Ht Hw 0%nat); [lia|]).
  destruct (walk_inv _ _ _ _ Hw) as (nd'&q&Ht'&Hq&Hw'). rewrite Ht in Ht'. injection Ht' as <-.
  destruct (Hwf t nd Ht) as (_&_&Hpar&_). destruct (Hpar q Hq) as (qn&Hqn&_).
  cbn [chainOf]. rewrite Ht. cbn [mbind option_bind]. rewrite Hq. destruct (KnownInvalid (status nd)) eqn:Ei.
  - destruct (IH q fuel s Hwf ltac:(by eexists) Hw' ltac:(lia)) as (ls&s'&E&Hm&Hall). exists ls, s'. split; [done|]. split; [done|].
    constructor; [|done]. apply Hm. unfold invalid. by rewrite Ht.
  - destruct (mark_step t statusInvalidAncestor nd s Ht flag_invalid) as (s1&E1&Hm1&Hi1).
    assert (skeleton (heapOf s1) = skeleton (heapOf s)) as Hsk by apply Hm1.
    destruct (IH q fuel s1) as (ls&s'&E&Hm&Hall).
    { by eapply skeleton_wf. }
    { destruct (skeleton_lookup _ _ _ _ Hsk Hqn) as (qn'&?&_). by eexists. }
    { by rewrite (skeleton_walk _ _ _ _ Hsk). }
    { lia. }
    unfold markInvalid. rewrite (io_step _ _ _ _ _ E1), (io_step _ _ _ _ _ E). exists (t :: ls), s'. split; [done|].
    split; [by etransitivity|]. constructor; [by apply Hm|].
    assert (chainOf (heapOf s) n q = chainOf (heapOf s1) n q) as ->; [|done]. by apply chainOf_skeleton.
Qed.

(** Every tip on top of the block is marked with its branch. *)
Lemma markBranches_spec prev l nd tips s : heap_wf prev (heapOf s) → full (heapOf s) → unique (heapOf s) → heapOf s !! l = Some nd →
  Forall (fun t => is_Some (heapOf s !! t)) tips →
  ∃ s', markBranches l tips s = Done (inl tt, s') ∧ marked s s' ∧
    ∀ t n, t ∈ tips → walk (heapOf s) n t = Some l → (0 < n)%nat → Forall (fun x => invalid (heapOf s') x = true) (chainOf (heapOf s) n t).
Proof.
  revert s nd. induction tips as [|t tips IH]; intros s nd Hwf Hfull Hu Hl Hin; cbn [markBranches].
  { exists s. split; [done|]. split; [reflexivity|]. intros t n []%elem_of_nil. }
  apply Forall_cons in Hin as [[tn Ht] Hin].
  assert (isAncestorOf l t s = Done (inl (bool_decide (height nd < height tn ∧
    walk (heapOf s) (Z.to_nat (height tn - height nd)) t = Some l)), s)) as Ea.
  { unfold isAncestorOf. change ((get_ ≫= ?f) s) with (f s s). cbv beta. apply io_run_ok.
    by rewrite (BlockNode.isAncestor_spec prev (heapOf s) t l tn nd Hwf Hfull Hu Ht Hl). }
  rewrite (io_step _ _ _ _ _ Ea). destruct (Hwf t tn Ht) as ((Ht0&_)&_). destruct (Hwf l nd Hl) as ((Hl0&_)&_).
  assert (∀ s1, marked s s1 → ∃ s', markBranches l tips s1 = Done (inl tt, s') ∧ marked s1 s' ∧
    ∀ t n, t ∈ tips → walk (heapOf s) n t = Some l → (0 < n)%nat → Forall (fun x => invalid (heapOf s') x = true) (chainOf (heapOf s) n t)) as Hrest.
  { intros s1 [Hsk _]. destruct (skeleton_lookup _ _ _ _ Hsk Hl) as (nd1&Hl1&_).
    destruct (IH s1 nd1 (skeleton_wf _ _ _ Hsk Hwf) (skeleton_full _ _ Hsk Hfull) (skeleton_unique _ _ Hsk Hu) Hl1) as (s'&E&Hm&Hall).
    { eapply Forall_impl; [exact Hin|]. intros x [xn Hx]. destruct (skeleton_lookup _ _ _ _ Hsk Hx) as (xn'&?&_). by eexists. }
    exists s'. split; [done|]. split; [done|]. intros t' n Ht' Hw Hn. rewrite (chainOf_skeleton _ _ n t' (eq_sym Hsk)).
    apply Hall; [done| |done]. by rewrite (skeleton_walk _ _ _ _ Hsk). }
  case_bool_decide as Hab.
  - destruct Hab as [Hlt Hw].
    destruct (markDown_spec prev l (Z.to_nat (height tn - height nd)) t (S (Z.to_nat (height tn))) s Hwf ltac:(by eexists) Hw)
      as (ls&s1&E1&Hm1&Hall1); [lia|].
    assert (markBranch l t s = Done (inl ls, s1)) as Eb.
    { unfold markBranch, fuelOf. change (((node t ≫= ?g) ≫= ?f) s) with (((node t ≫= g) ≫= f) s).
      unfold mbind at 1, io_bind at 1. rewrite (io_step _ _ _ _ _ (node_ok _ _ _ Ht)). exact E1. }
    rewrite (io_step _ _ _ _ _ Eb). destruct (Hrest s1 Hm1) as (s'&E&Hm&Hall). exists s'. split; [done|].
    split; [by etransitivity|]. intros t' n [->|Ht']%elem_of_cons Hw' Hn; [|by eapply Hall].
    destruct (ChainView.walk_height prev _ _ _ _ _ Hwf Ht Hw') as (nd'&Hnd'&Eh). rewrite Hl in Hnd'. injection Hnd' as <-.
    replace (Z.to_nat (height tn - height nd)) with n in Hall1 by lia. eapply Forall_impl; [exact Hall1|]. intros x. apply Hm.
  - rewrite (io_step _ _ s [] s) by reflexivity. destruct (Hrest s ltac:(reflexivity)) as (s'&E&Hm&Hall).
    exists s'. split; [done|]. split; [done|]. intros t' n [->|Ht']%elem_of_cons Hw' Hn; [|by eapply Hall].
    destruct (ChainView.walk_height prev _ _ _ _ _ Hwf Ht Hw') as (nd'&Hnd'&Eh). rewrite Hl in Hnd'. injection Hnd' as <-.
    destruct Hab. split; [lia|]. by replace (Z.to_nat (height tn - height nd)) with n by lia.
Qed.

Lemma tips_marked s s1 : marked s s1 → InactiveTips s1 = InactiveTips s.
Proof.
  intros (Hsk&Hf&_). unfold InactiveTips. pose proof (f_equal (fun x => x.1.1.1.1.1.1.1) Hf) as Ei. cbn in Ei.
  assert (bestChain s1 = bestChain s) as Ec by (unfold bestChain; exact (f_equal (fun x => viewOf x.1.1.1.1.1.2) Hf)).
  rewrite Ei, Ec.
  assert (∀ l, BlockIndex.height_at (heapOf s1) l = BlockIndex.height_at (heapOf s) l) as Hh.
  { intros l. unfold BlockIndex.height_at. destruct (heapOf s !! l) as [nd|] eqn:Hl.
    - destruct (skeleton_lookup _ _ _ _ Hsk Hl) as (nd'&->&En). by apply (f_equal height) in En.
    - destruct (heapOf s1 !! l) as [nd'|] eqn:Hl'; [|done]. destruct (skeleton_lookup _ _ _ _ (eq_sym Hsk) Hl') as (?&?&_). congruence. }
  assert (∀ l, parentHash_at (heapOf s1) l = parentHash_at (heapOf s) l) as Hp.
  { intros l. unfold parentHash_at. pose proof (skeleton_walk _ _ 1 l Hsk) as Hw. cbn [BlockNode.walk] in Hw.
    destruct (heapOf s !! l) as [n|] eqn:Hl.
    - destruct (skeleton_lookup _ _ _ _ Hsk Hl) as (n'&Hl'&En). rewrite Hl' in *. cbn in *. pose proof (f_equal parent En) as Ep. cbn in Ep.
      rewrite Ep. destruct (parent n) as [q|]; [|done]. cbn. destruct (heapOf s !! q) as [qn|] eqn:Hq.
      + destruct (skeleton_lookup _ _ _ _ Hsk Hq) as (qn'&->&Eq). cbn. pose proof (f_equal hash Eq) as Eqh. cbn in Eqh. by rewrite Eqh.
      + destruct (heapOf s1 !! q) as [qn'|] eqn:Hq'; [|done]. destruct (skeleton_lookup _ _ _ _ (eq_sym Hsk) Hq') as (?&?&_). congruence.
    - destruct (heapOf s1 !! l) as [n'|] eqn:Hl'; [|done]. destruct (skeleton_lookup _ _ _ _ (eq_sym Hsk) Hl') as (?&?&_). congruence. }
  assert (outside (heapOf s1) (bestChain s) (BlockIndex.index (BlockIndex.bi (ix s))) = outside (heapOf s) (bestChain s) (BlockIndex.index (BlockIndex.bi (ix s)))) as ->.
  { unfold outside. apply map_filter_ext. intros i x _. unfold BlockIndex.viewContains. by rewrite Hh. }
  assert (∀ m : list (hash_t * loc), omap (fun x => parentHash_at (heapOf s1) x.2) m = omap (fun x => parentHash_at (heapOf s) x.2) m) as ->; [|done].
  intros m. induction m as [|x m IH]; [done|]. cbn. by rewrite Hp, IH.
Qed.

(** An index that names the nodes of a heap by their hashes *)
Definition index_ok (s : chain) : Prop :=
  ∀ k x, BlockIndex.index (BlockIndex.bi (ix s)) !! k = Some x → ∃ xn, heapOf s !! x = Some xn ∧ hash xn = k.

(** An indexed block that is not in the best chain *)
Definition sideBlock (s : chain) (x : loc) : Prop :=
  ∃ k, outside (heapOf s) (bestChain s) (BlockIndex.index (BlockIndex.bi (ix s))) !! k = Some x.

Context (order_ok : ∀ m, indexOrder m ≡ₚ map_to_list m).

Lemma tips_elem s t : t ∈ InactiveTips s ↔ ∃ k,
  outside (heapOf s) (bestChain s) (BlockIndex.index (BlockIndex.bi (ix s))) !! k = Some t ∧
  ∀ y, sideBlock s y → parentHash_at (heapOf s) y ≠ Some k.
Proof.
  unfold InactiveTips. rewrite list_elem_of_fmap. split.
  - intros ([k x]&->&[Hn Hx]%list_elem_of_filter). rewrite order_ok in Hx. apply elem_of_map_to_list in Hx. exists k. split; [done|].
    intros y [ky Hy] E. apply Hn. apply list_elem_of_omap. exists (ky, y). split; [by apply elem_of_map_to_list|done].
  - intros (k&Hk&Hn). exists (k, t). split; [done|]. apply list_elem_of_filter. rewrite order_ok. split; [|by apply elem_of_map_to_list].
    intros ([ky y]&Hy&E)%list_elem_of_omap. apply elem_of_map_to_list in Hy. by eapply Hn; [exists ky|].
Qed.

(** Every block outside of the best chain is below one of the tips. *)
Lemma tips_cover prev s x : heap_wf prev (heapOf s) → unique (heapOf s) → index_ok s → sideBlock s x →
  ∃ t k, t ∈ InactiveTips s ∧ walk (heapOf s) k t = Some x.
Proof.
  intros Hwf Hu Hix. remember (Z.to_nat (2 ^ 31 - BlockIndex.height_at (heapOf s) x)) as n eqn:En.
  revert x En. induction n as [n IH] using (well_founded_induction lt_wf). intros x En Hx.
  destruct (decide (x ∈ InactiveTips s)) as [Hin|Hout]; [by exists x, 0%nat|].
  destruct Hx as [kx Hx]. pose proof Hx as [Hix' _]%map_lookup_filter_Some. destruct (Hix _ _ Hix') as (xn&Hxn&Hkx).
  assert (∃ y, sideBlock s y ∧ parentHash_at (heapOf s) y = Some kx) as (y&Hy&Ey).
  { destruct (decide (Exists (fun y => parentHash_at (heapOf s) y = Some kx) (map_to_list (outside (heapOf s) (bestChain s) (BlockIndex.index (BlockIndex.bi (ix s))))).*2)) as [He|Hne].
    - apply Exists_exists in He as (y&([ky y']&->&Hy)%list_elem_of_fmap&E). apply elem_of_map_to_list in Hy. exists y'. split; [by exists ky|done].
    - destruct Hout. apply tips_elem. exists kx. split; [done|]. intros y [ky Hy] E. apply Hne, Exists_exists. exists y. split; [|done].
      apply list_elem_of_fmap. exists (ky, y). split; [done|]. by apply elem_of_map_to_list. }
  unfold parentHash_at in Ey. destruct (heapOf s !! y) as [yn|] eqn:Hyn; [|done]. cbn in Ey.
  destruct (parent yn) as [q|] eqn:Hq; [|done]. cbn in Ey. destruct (heapOf s !! q) as [qn|] eqn:Hqn; [|done]. cbn in Ey. injection Ey as Ey.
  assert (q = x) as -> by (eapply Hu; [exact Hqn|exact Hxn|congruence]).
  destruct (Hwf y yn Hyn) as (Hyr&_&Hpar&_). destruct (Hpar x Hq) as (xn'&Hxn'&Hh&_). rewrite Hxn in Hxn'. injection Hxn' as <-.
  destruct (IH (Z.to_nat (2 ^ 31 - BlockIndex.height_at (heapOf s) y))) with (x := y) as (t&k&Ht&Hk); [|done|done|].
  { subst n. unfold BlockIndex.height_at. rewrite Hyn, Hxn. lia. }
  exists t, (S k). split; [done|]. rewrite ChainView.walk_S_r, Hk. cbn. by rewrite Hyn.
Qed.

Lemma chainOf_elem h k m t x : walk h k t = Some x → (k < m)%nat → x ∈ chainOf h m t.
Proof.
  revert k t. induction m as [|m IH]; intros k t Hk Hlt; [lia|]. cbn [chainOf]. destruct k as [|k].
  - injection Hk as ->. by left.
  - destruct (walk_inv _ _ _ _ Hk) as (nd&q&Ht&Hq&Hk'). right. rewrite Ht. cbn. rewrite Hq. apply (IH k); [done|lia].
Qed.

(** C16 (functional).  [InvalidateBlock] on a block that is not in the best chain marks it and every
    known block on top of it as invalid; statuses are all that changes before the
    flush of the index that ends the call: chains, index, snapshot and links stay.
    The marking always ends. *)
Theorem invalidate_side_branch (prev : gmap hash_t hash_t) (hs : hash_t) (l : loc) (nd : blockNode) (s : chain) :
  heap_wf prev (heapOf s) → full (heapOf s) → unique (heapOf s) → index_ok s →
  BlockIndex.index (BlockIndex.bi (ix s)) !! hs = Some l → heapOf s !! l = Some nd →
  height nd ≠ 0 → KnownInvalid (status nd) = false → ChainView.nodeByHeight (bestChain s) (height nd) ≠ Some l →
  ∃ s', InvalidateBlock p indexManager clk hs s = flushToDB indexManager false s' ∧
    skeleton (heapOf s') = skeleton (heapOf s) ∧ fixedPart s' = fixedPart s ∧ invalid (heapOf s') l = true ∧
    ∀ x n, sideBlock s x → walk (heapOf s) n x = Some l → invalid (heapOf s') x = true.
Proof.
  intros Hwf Hfull Hu Hix Hs Hl Hh Hv Hout. unfold InvalidateBlock.
  rewrite (io_step (LookupNode hs) _ s (Some l) s) by (unfold LookupNode; change ((get_ ≫= ?f) s) with (f s s); cbv beta; unfold BlockIndex.LookupNode; by rewrite Hs).
  rewrite (io_step _ _ _ _ _ (node_ok _ _ _ Hl)). apply Z.eqb_neq in Hh. rewrite Hh, Hv.
  destruct (mark_step l statusValidateFailed nd s Hl) as (s1&E1&Hm1&Hi1).
  { intros st. unfold KnownInvalid. apply negb_true_iff, Z.eqb_neq. intros E. apply (f_equal (fun z => Z.testbit z 2)) in E.
    change (Z.lor statusValidateFailed statusInvalidAncestor) with 12 in E. unfold statusValidateFailed in E.
    rewrite Z.land_spec, Z.lor_spec, Z.bits_0 in E. change (Z.testbit 4 2) with true in E. rewrite orb_true_r in E. done. }
  apply io_inv in E1 as ([]&s0&E0&E1). rewrite (io_step _ _ _ _ _ E0), (io_step _ _ _ _ _ E1).
  pose proof Hm1 as (Hsk&Hf&_). destruct (skeleton_lookup _ _ _ _ Hsk Hl) as (nd1&Hl1&En).
  assert (chainContains l s1 = Done (inl false, s1)) as Ec.
  { unfold chainContains. change ((get_ ≫= ?f) s1) with (f s1 s1). cbv beta. apply io_run_ok.
    rewrite (ChainView.contains_spec _ _ _ _ Hl1). pose proof (f_equal height En) as Eh. cbn in Eh. rewrite Eh.
    assert (bestChain s1 = bestChain s) as -> by (unfold bestChain; exact (f_equal (fun x => viewOf x.1.1.1.1.1.2) Hf)).
    by rewrite bool_decide_false. }
  rewrite (io_step _ _ _ _ _ Ec). cbn [negb]. change ((get_ ≫= ?f) s1) with (f s1 s1). cbv beta. rewrite (tips_marked _ _ Hm1).
  destruct (markBranches_spec prev l nd1 (InactiveTips s) s1 (skeleton_wf _ _ _ Hsk Hwf) (skeleton_full _ _ Hsk Hfull)
    (skeleton_unique _ _ Hsk Hu) Hl1) as (s'&E&Hm&Hall).
  { apply Forall_forall. intros t (k&[Hk _]%map_lookup_filter_Some&_)%tips_elem. destruct (Hix _ _ Hk) as (tn&Ht&_).
    destruct (skeleton_lookup _ _ _ _ Hsk Ht) as (tn'&?&_). by eexists. }
  rewrite (io_step _ _ _ _ _ E). exists s'. split; [done|]. assert (marked s s') as Hm' by (by etransitivity).
  split; [apply Hm'|]. split; [apply Hm'|]. split; [by apply Hm|]. intros x n Hx Hw.
  destruct n as [|n]; [injection Hw as ->; by apply Hm|].
  destruct (tips_cover prev s x Hwf Hu Hix Hx) as (t&k&Ht&Hk).
  assert (walk (heapOf s) (k + S n) t = Some l) as Hw' by (rewrite ChainView.walk_add, Hk; exact Hw).
  rewrite <-(skeleton_walk _ _ _ _ Hsk) in Hw'. specialize (Hall t (k + S n)%nat Ht Hw' ltac:(lia)).
  rewrite Forall_forall in Hall. apply Hall. apply (chainOf_elem _ k); [by rewrite (skeleton_walk _ _ _ _ Hsk)|lia].
Qed.

End invalidate.

End ChainControl.
