(* ===== verification/ControlRuns.v ===== *)
(** * ControlRuns: runs of rollbacks and invalidations

    Concrete calls of the operations in [ChainControl], on the chains of [ChainRuns]. *)

From S2P Require Import Prelude WorkMath Compress ChainHash Wire BlockNode ChainView ChainIO ColdRead Difficulty BlockIndex.
From S2P Require Import Merkle Threshold Script UtxoSet UtxoCache UtxoView Sanity Connect ScriptNum Context WriteQueue Orphans Chain ChainSpec ChainRuns ChainControl.

Module ControlRuns.
Import BlockNode (hash_t, loc, toyLoc).
Import UtxoView (Block, Header).
Import Orphans (blockHash).
Import Chain ChainRuns ChainControl.

#[local] Existing Instance Compress.toyKeys.
#[local] Existing Instance UtxoCache.listOrder.
#[local] Existing Instances noScripts noncePow choices.

(** ** Headers after a rollback *)

Definition header (b : Block) : M bool := ProcessBlockHeader params None clock0 (Header b) 0 false.

(** Whether the index by height names the block *)
Definition named (g : Z) (b : Block) : M bool := fun s =>
  Done (inl match ChainIO.dbFetchHashByHeight (BlockIndex.sdb (ix s)) g with
            | inl h => bool_decide (h = blockHash b)
            | inr _ => false
            end, s).

(** A header is accepted, the index is written, and the row of its height is read. *)
Definition acceptAndWrite (b : Block) : M (bool * bool) :=
  accepted ← header b; _ ← FlushBlockIndex None; row ← named 8 b; mret (accepted, row).

(** A run: after a rollback of the headers, a header that is accepted is not entered in
    the index by height.  Normally the index names a header of the best header chain once
    it was written.  [InvalidateHeaderChain] gives the chain a new header view, but
    the block index keeps the old one, and writes the row of a height only for
    the blocks of that view: the header that replaces the discarded one at
    height 8 becomes the tip of the headers, and no row names it. *)
Lemma rollback_hides_headers :
  outcome (acceptAndWrite main8) start = Some ((true, true), 7, 8) ∧
  outcome (acceptAndWrite bad8) start = Some ((true, true), 7, 8) ∧
  outcome (_ ← acceptAndWrite main8; _ ← InvalidateHeaderChain params None clock0 7; acceptAndWrite bad8) start
    = Some ((true, false), 7, 8).
Proof. split; [|split]; vm_compute; reflexivity. Qed.

(** ** A side branch *)

(** The fork of [ChainRuns] with its block in the index *)
Definition forked : chain :=
  let s := chainOn forkHeap ChainView.toyView in
  set_ix (with_heap forkHeap (BlockIndex.set_index (<[BlockNode.headerHash forkHeader := toyLoc 8]>
    (BlockIndex.index (BlockIndex.bi (ix s)))) (BlockIndex.bi (ix s))) (ix s)) s.

Lemma forked_index : index_ok forked.
Proof.
  assert (bool_decide (map_Forall (fun k x => bool_decide ((BlockNode.hash <$> forkHeap !! x) = Some k))
    (BlockIndex.index (BlockIndex.bi (ix forked)))) = true) as H by (vm_compute; reflexivity).
  apply bool_decide_eq_true in H. intros k x Hx. specialize (H k x Hx). apply bool_decide_unpack in H.
  apply fmap_Some in H as (xn&H1&H2). exists xn. split; [exact H1|exact (eq_sym H2)].
Qed.

Lemma any_order (m : gmap hash_t loc) : @indexOrder choices m ≡ₚ map_to_list m.
Proof. apply Permutation_refl. Qed.

Lemma invalidate_side_branch_witness : ∃ s',
  InvalidateBlock params None clock0 (BlockNode.headerHash forkHeader) forked = flushToDB None false s' ∧
  ChainSpec.invalid (BlockIndex.hp (ix s')) (toyLoc 8) = true.
Proof.
  destruct fork_heap as (H1&H2&H3&_).
  destruct (invalidate_side_branch params None clock0 any_order forkPrev (BlockNode.headerHash forkHeader) (toyLoc 8)
    (default (BlockNode.toyNode 0) (forkHeap !! toyLoc 8)) forked H1 H2 H3 forked_index) as (s'&E&_&_&Hi&_);
    [vm_compute; first [reflexivity|discriminate]..|].
  exists s'. split; [exact E|exact Hi].
Defined.

End ControlRuns.
