(* ===== verification/Treap.v ===== *)
(** * Treap: nodes, parent stacks and memory of the treaps

    Model of [database/internal/treap/common.go], and the theory that the treaps share:
    trees laid out in memory, and paths from a root.  Nodes are cells of a memory that
    all treaps share, so that what one version of a treap does to the nodes of another
    one is part of the model.  The pool of nodes and the random numbers are
    parameters: the pool returns any node that was put back into it, or a new one. *)

From S2P Require Import Prelude.

Module Treap.

Abbreviation loc := positive.
Abbreviation bytes := (list byte).

Definition staticDepth : Z := 128.
Definition nodeFieldsSize : Z := 72.

(** [bytes.Compare] *)
Fixpoint Compare (a b : bytes) : comparison :=
  match a, b with
  | [], [] => Eq
  | [], _ :: _ => Lt
  | _ :: _, [] => Gt
  | x :: a, y :: b => match b2z x ?= b2z y with Eq => Compare a b | c => c end
  end.

(** ** Nodes

    A nil value is [None]; nil and empty keys compare alike and are not told apart. *)

Record treapNode := { key : bytes; value : option bytes; priority : Z; left : option loc; right : option loc }.

Definition set_value (v : option bytes) (n : treapNode) : treapNode :=
  {| key := key n; value := v; priority := priority n; left := left n; right := right n |}.
Definition set_left (p : option loc) (n : treapNode) : treapNode :=
  {| key := key n; value := value n; priority := priority n; left := p; right := right n |}.
Definition set_right (p : option loc) (n : treapNode) : treapNode :=
  {| key := key n; value := value n; priority := priority n; left := left n; right := p |}.

(** The nodes, those of the pool among them, and the random numbers that were drawn *)
Record memory := { cells : gmap loc treapNode; pool : list loc; draws : nat }.

Definition set_cells (c : gmap loc treapNode) (m : memory) : memory := {| cells := c; pool := pool m; draws := draws m |}.

Class Runtime := {
  randInt : nat → Z;               (* the results of [rand.Int] *)
  poolGet : list loc → option nat  (* the node [treapNodePool.Get] takes, or a new one *)
}.

Definition at_ (m : memory) (l : loc) : run treapNode := of_option (cells m !! l).

Definition write (l : loc) (n : treapNode) (m : memory) : memory := set_cells (<[l := n]> (cells m)) m.

Definition update (f : treapNode → treapNode) (l : loc) (m : memory) : run memory := n ← at_ m l; Done (write l (f n) m).

Definition setValue (l : loc) (v : option bytes) : memory → run memory := update (set_value v) l.
Definition setLeft (l : loc) (p : option loc) : memory → run memory := update (set_left p) l.
Definition setRight (l : loc) (p : option loc) : memory → run memory := update (set_right p) l.

(** The number of rounds that suffices for a walk without repetitions *)
Definition fuelOf (m : memory) : nat := S (size (cells m)).

Definition emptyNode : treapNode := {| key := []; value := None; priority := 0; left := None; right := None |}.

Definition recycle (l : loc) (m : memory) : memory :=
  {| cells := <[l := emptyNode]> (cells m); pool := l :: pool m; draws := draws m |}.

(** Lengths are those of slices in memory: their sums do not leave 64 bits. *)
Definition valueLen (v : option bytes) : Z := match v with Some b => zlen b | None => 0 end.

Definition nodeSize (n : treapNode) : Z := u64 (nodeFieldsSize + u64 (zlen (key n) + valueLen (value n))).

Section runtime.
Context {RT : Runtime}.

Definition take (m : memory) : loc * memory :=
  match (i ← poolGet (pool m); l ← pool m !! i; Some (i, l)) with
  | Some (i, l) => (l, {| cells := cells m; pool := delete i (pool m); draws := draws m |})
  | None => (fresh (dom (cells m) ∪ list_to_set (pool m)), m)
  end.

Definition rand (m : memory) : Z * memory :=
  (randInt (draws m), {| cells := cells m; pool := pool m; draws := S (draws m) |}).

Definition newTreapNode (k : bytes) (v : option bytes) (p : Z) (m : memory) : loc * memory :=
  let '(l, m) := take m in
  (l, write l {| key := k; value := v; priority := p; left := None; right := None |} m).

End runtime.

(** ** Parent stacks *)

Record parentStack := { depth : Z; items : list (option loc); overflow : list (option loc) }.

Definition emptyStack : parentStack := {| depth := 0; items := replicate (Z.to_nat staticDepth) None; overflow := [] |}.

Definition Len (s : parentStack) : Z := depth s.

Definition At (s : parentStack) (n : Z) : run (option loc) :=
  let i := depth s - n - 1 in
  if i <? 0 then Done None
  else if i <? staticDepth then index (items s) i
  else index (overflow s) (i - staticDepth).

Definition Pop (s : parentStack) : run (option loc * parentStack) :=
  if depth s =? 0 then Done (None, s) else
  let i := depth s - 1 in
  if i <? staticDepth then
    node ← index (items s) i;
    l ← store (items s) i None;
    Done (node, {| depth := i; items := l; overflow := overflow s |})
  else
    node ← index (overflow s) (i - staticDepth);
    l ← store (overflow s) (i - staticDepth) None;
    Done (node, {| depth := i; items := items s; overflow := l |}).

(** The overflow slice is always as long as its capacity. *)
Definition Push (s : parentStack) (node : loc) : run parentStack :=
  if depth s <? staticDepth then
    l ← store (items s) (depth s) (Some node);
    Done {| depth := depth s + 1; items := l; overflow := overflow s |}
  else
    let i := depth s - staticDepth in
    o ← (if zlen (overflow s) <? i + 1 then o ← make None (i + 1); Done (gocopy o (overflow s)) else Done (overflow s));
    l ← store o i (Some node);
    Done {| depth := depth s + 1; items := items s; overflow := l |}.

(** ** Steps that both kinds of treap share *)

(** The search for a place: the parents on the way, the last comparison, and the node
    that has the key already *)
Fixpoint search (fuel : nat) (m : memory) (k : bytes) (parents : parentStack) (cr : comparison) (node : option loc) :
    run (parentStack * comparison * option loc) :=
  match node with
  | None => Done (parents, cr, None)
  | Some l =>
      match fuel with
      | O => NoFuel
      | S fuel =>
          parents ← Push parents l;
          n ← at_ m l;
          match Compare k (key n) with
          | Lt => search fuel m k parents Lt (left n)
          | Gt => search fuel m k parents Gt (right n)
          | Eq => Done (parents, Eq, Some l)
          end
      end
  end.

(** The new root and the memory: the grandparent, if there is one, points at [node]
    where it pointed at [parent]. *)
Definition relinkGrandparent (root : option loc) (node parent : loc) (grandparent : option loc) (m : memory) :
    run (option loc * memory) :=
  match grandparent with
  | None => Done (Some node, m)
  | Some g =>
      gn ← at_ m g;
      m ← (if bool_decide (left gn = Some parent) then setLeft g (Some node) m else setRight g (Some node) m);
      Done (root, m)
  end.

(** [node] moves up while its priority is less than that of its parent. *)
Fixpoint rotate (fuel : nat) (root : option loc) (parents : parentStack) (node : loc) (m : memory) : run (option loc * memory) :=
  if 0 <? Len parents then
    match fuel with
    | O => NoFuel
    | S fuel =>
        '(parent, parents) ← Pop parents;
        p ← of_option parent;
        n ← at_ m node;
        pn ← at_ m p;
        if priority pn <=? priority n then Done (root, m) else
        m ← (if bool_decide (left pn = Some node)
             then m ← setRight node (Some p) m; setLeft p (right n) m
             else m ← setLeft node (Some p) m; setRight p (left n) m);
        grandparent ← At parents 0;
        '(root, m) ← relinkGrandparent root node p grandparent m;
        rotate fuel root parents node m
    end
  else Done (root, m).

(** The child that takes the place of a node which is to be deleted *)
Definition chooseChild (m : memory) (n : treapNode) : run (loc * bool) :=
  match left n, right n with
  | None, None => Panic
  | None, Some r => Done (r, false)
  | Some l, None => Done (l, true)
  | Some l, Some r =>
      ln ← at_ m l;
      rn ← at_ m r;
      Done (if priority rn <=? priority ln then (l, true) else (r, false))
  end.

(** The deleted node is a leaf now and leaves its parent. *)
Definition disconnect (node : loc) (parent : option loc) (m : memory) : run memory :=
  p ← of_option parent;
  pn ← at_ m p;
  if bool_decide (right pn = Some node) then setRight p None m else setLeft p None m.

Fixpoint pushLeft (fuel : nat) (m : memory) (parents : parentStack) (node : option loc) : run parentStack :=
  match node with
  | None => Done parents
  | Some l =>
      match fuel with
      | O => NoFuel
      | S fuel => parents ← Push parents l; n ← at_ m l; pushLeft fuel m parents (left n)
      end
  end.

(** The function of [ForEach] works on a state and says whether to go on. *)
Fixpoint visit {A} (fuel : nat) (m : memory) (fn : bytes → option bytes → A → bool * A) (parents : parentStack) (a : A) : run A :=
  if 0 <? Len parents then
    match fuel with
    | O => NoFuel
    | S fuel =>
        '(node, parents) ← Pop parents;
        l ← of_option node;
        n ← at_ m l;
        let '(go, a) := fn (key n) (value n) a in
        if negb go then Done a else
        parents ← pushLeft (fuelOf m) m parents (right n);
        visit fuel m fn parents a
    end
  else Done a.

Definition forEachNode {A} (root : option loc) (fn : bytes → option bytes → A → bool * A) (m : memory) (a : A) : run A :=
  parents ← pushLeft (fuelOf m) m emptyStack root;
  visit (fuelOf m) m fn parents a.

(** ** The order of keys *)

Lemma compare_refl a : Compare a a = Eq.
Proof. induction a as [|x a IH]; [done|]. cbn. by rewrite Z.compare_refl. Qed.

Lemma compare_eq a b : Compare a b = Eq ↔ a = b.
Proof.
  split; [|intros ->; apply compare_refl]. revert b. induction a as [|x a IH]; intros [|y b]; cbn; try done.
  destruct (Z.compare_spec (b2z x) (b2z y)) as [E| |]; try done. intros H. f_equal; [by apply b2z_inj|by apply IH].
Qed.

Lemma compare_flip a b : Compare b a = CompOpp (Compare a b).
Proof.
  revert b. induction a as [|x a IH]; intros [|y b]; cbn; try done. rewrite (Z.compare_antisym (b2z x) (b2z y)).
  destruct (b2z x ?= b2z y); [apply IH|done..].
Qed.

Definition lt (a b : bytes) : Prop := Compare a b = Lt.

Lemma lt_trans a b c : lt a b → lt b c → lt a c.
Proof.
  unfold lt. revert b c. induction a as [|x a IH]; intros [|y b] [|z c]; cbn; try done.
  destruct (Z.compare_spec (b2z x) (b2z y)) as [E1|E1|E1]; try done; destruct (Z.compare_spec (b2z y) (b2z z)) as [E2|E2|E2]; try done; intros H1 H2.
  - destruct (Z.compare_spec (b2z x) (b2z z)); [by eapply IH|done|lia].
  - destruct (Z.compare_spec (b2z x) (b2z z)); [lia|done|lia].
  - destruct (Z.compare_spec (b2z x) (b2z z)); [lia|done|lia].
  - destruct (Z.compare_spec (b2z x) (b2z z)); [lia|done|lia].
Qed.

Lemma lt_irrefl a : ¬ lt a a.
Proof. unfold lt. by rewrite compare_refl. Qed.

#[export] Instance lt_strict : StrictOrder lt.
Proof. split; [exact lt_irrefl|exact lt_trans]. Qed.

Lemma compare_gt a b : Compare a b = Gt ↔ lt b a.
Proof. unfold lt. rewrite (compare_flip a b). by destruct (Compare a b). Qed.

Lemma compare_spec a b : CompareSpec (a = b) (lt a b) (lt b a) (Compare a b).
Proof. destruct (Compare a b) eqn:E; constructor; [by apply compare_eq|done|by apply compare_gt]. Qed.

(** ** Stacks are lists

    [ls] has the top first. *)

Record stacked (s : parentStack) (ls : list loc) : Prop := {
  st_depth : depth s = zlen ls;
  st_items : zlen (items s) = staticDepth;
  st_over : zlen ls - staticDepth ≤ zlen (overflow s);
  st_low : ∀ i l, reverse ls !! i = Some l → Z.of_nat i < staticDepth → items s !! i = Some (Some l);
  st_high : ∀ i l, reverse ls !! i = Some l → staticDepth ≤ Z.of_nat i → overflow s !! (i - Z.to_nat staticDepth)%nat = Some (Some l);
  st_free : ∀ i, (length ls ≤ i)%nat → Z.of_nat i < staticDepth → items s !! i = Some None;
}.

Lemma stacked_empty : stacked emptyStack [].
Proof. split; try done. intros i _ Hi. cbn. apply lookup_replicate. unfold staticDepth in *. split; [done|lia]. Qed.

Lemma top_index {A} (l : A) ls : reverse (l :: ls) !! length ls = Some l.
Proof. rewrite reverse_cons. apply list_lookup_middle. by rewrite length_reverse. Qed.

Lemma index_Some {A} (l : list A) i x : 0 ≤ i → l !! Z.to_nat i = Some x → index l i = Done x.
Proof. intros Hi Hx. unfold index. rewrite decide_True by done. by rewrite Hx. Qed.

Lemma store_ok {A} (l : list A) i x : 0 ≤ i < zlen l → store l i x = Done (<[Z.to_nat i := x]> l).
Proof. intros Hi. unfold store. by rewrite decide_True. Qed.

(** The item at a depth, counted from the bottom *)
Lemma stacked_at s ls n l : stacked s ls → ls !! n = Some l → At s (Z.of_nat n) = Done (Some l).
Proof.
  intros [Hd Hi Ho Hlo Hhi _] Hl. pose proof (lookup_lt_Some _ _ _ Hl) as Hlt. unfold At. rewrite Hd. unfold zlen.
  destruct (Z.ltb_spec (Z.of_nat (length ls) - Z.of_nat n - 1) 0); [lia|].
  assert (reverse ls !! (length ls - S n)%nat = Some l) as Hr.
  { rewrite reverse_lookup by lia. by replace (length ls - S (length ls - S n))%nat with n by lia. }
  destruct (Z.ltb_spec (Z.of_nat (length ls) - Z.of_nat n - 1) staticDepth).
  - apply index_Some; [lia|]. replace (Z.to_nat _) with (length ls - S n)%nat by lia. apply Hlo; [done|lia].
  - apply index_Some; [lia|]. replace (Z.to_nat _) with (length ls - S n - Z.to_nat staticDepth)%nat by (unfold staticDepth in *; lia).
    apply Hhi; [done|lia].
Qed.

Lemma stacked_at_none s ls n : stacked s ls → zlen ls ≤ n → At s n = Done None.
Proof. intros [Hd _ _ _ _ _] Hn. unfold At. rewrite Hd. destruct (Z.ltb_spec (zlen ls - n - 1) 0); [done|lia]. Qed.

Lemma stacked_top s ls : stacked s ls → At s 0 = Done (head ls).
Proof.
  intros H. destruct ls as [|l ls]; [by apply (stacked_at_none s [])|]. by apply (stacked_at s (l :: ls) 0).
Qed.

Lemma stacked_bottom s ls : stacked s ls → At s (Len s - 1) = Done (last ls).
Proof.
  intros H. unfold Len. rewrite (st_depth _ _ H). destruct (last ls) as [l|] eqn:E.
  - rewrite last_lookup in E. rewrite <-(stacked_at s ls (pred (length ls)) l H E). f_equal. unfold zlen.
    apply lookup_lt_Some in E. lia.
  - apply last_None in E as ->. unfold At. rewrite (st_depth _ _ H). cbn. apply index_Some; [done|].
    apply (st_free _ _ H); [done|unfold staticDepth; lia].
Qed.

Lemma stacked_pop s l ls : stacked s (l :: ls) → ∃ s', Pop s = Done (Some l, s') ∧ stacked s' ls.
Proof.
  intros [Hd Hi Ho Hlo Hhi Hfr]. unfold Pop. rewrite Hd, zlen_cons.
  destruct (Z.eqb_spec (1 + zlen ls) 0) as [|_]; [pose proof (zlen_nonneg ls); lia|].
  replace (1 + zlen ls - 1) with (zlen ls) by lia. pose proof (top_index l ls) as Htop. pose proof (zlen_nonneg ls) as H0.
  rewrite zlen_cons in Ho. assert (∀ i x, reverse ls !! i = Some x → reverse (l :: ls) !! i = Some x ∧ (i < length ls)%nat) as Hin.
  { intros i x Hx. pose proof (lookup_lt_Some _ _ _ Hx) as Hlt. rewrite length_reverse in Hlt. split; [|done].
    rewrite reverse_cons. by apply lookup_app_l_Some. }
  destruct (Z.ltb_spec (zlen ls) staticDepth) as [Hlt|Hge].
  - rewrite (index_Some (items s) (zlen ls) (Some l)) by (done || (unfold zlen; rewrite Nat2Z.id; apply Hlo; [done|unfold zlen in Hlt; lia])).
    cbn [mbind run_bind]. rewrite store_ok by lia. cbn [mbind run_bind]. eexists. split; [done|].
    split; cbn; [done| |unfold zlen in *; lia| | |].
    + unfold zlen in *. by rewrite length_insert.
    + intros i x Hx Hb. destruct (Hin i x Hx). rewrite list_lookup_insert_ne by (unfold zlen; lia). by apply Hlo.
    + intros i x Hx Hb. destruct (Hin i x Hx). unfold zlen in *. lia.
    + intros i Hb Hs. destruct (decide (i = length ls)) as [->|Hne].
      * unfold zlen in *. rewrite Nat2Z.id. apply list_lookup_insert_eq. lia.
      * rewrite list_lookup_insert_ne by (unfold zlen; lia). apply Hfr; [cbn; lia|done].
  - rewrite (index_Some (overflow s) (zlen ls - staticDepth) (Some l)).
    2: lia. 2: { replace (Z.to_nat (zlen ls - staticDepth)) with (length ls - Z.to_nat staticDepth)%nat by (unfold zlen, staticDepth in *; lia).
                 apply Hhi; [done|unfold zlen in Hge; lia]. }
    cbn [mbind run_bind]. rewrite store_ok by lia. cbn [mbind run_bind]. eexists. split; [done|].
    split; cbn; [done|done| |by intros i x [Hx _]%Hin Hb; apply Hlo| |].
    + unfold zlen in *. rewrite length_insert. lia.
    + intros i x Hx Hb. destruct (Hin i x Hx). rewrite list_lookup_insert_ne by (unfold zlen, staticDepth in *; lia). by apply Hhi.
    + intros i Hb Hs. unfold zlen in *. lia.
Qed.

Lemma stacked_push s l ls : stacked s ls → ∃ s', Push s l = Done s' ∧ stacked s' (l :: ls).
Proof.
  intros [Hd Hi Ho Hlo Hhi Hfr]. unfold Push. rewrite Hd. pose proof (zlen_nonneg ls) as H0.
  assert (∀ i x, reverse (l :: ls) !! i = Some x → (i < length ls)%nat ∧ reverse ls !! i = Some x ∨ i = length ls ∧ x = l) as Hin.
  { intros i x Hx. rewrite reverse_cons in Hx. apply lookup_app_Some in Hx as [Hx|[Hge Hx]].
    - pose proof (lookup_lt_Some _ _ _ Hx) as Hlt. rewrite length_reverse in Hlt. by left.
    - rewrite length_reverse in *. destruct (i - length ls)%nat eqn:E; [|done]. injection Hx as <-. right. split; [lia|done]. }
  destruct (Z.ltb_spec (zlen ls) staticDepth) as [Hlt|Hge].
  - rewrite store_ok by lia. cbn [mbind run_bind]. eexists. split; [done|].
    split; cbn; [rewrite zlen_cons; lia| |rewrite zlen_cons; pose proof (zlen_nonneg (overflow s)); lia| | |].
    + unfold zlen in *. by rewrite length_insert.
    + intros i x [[Hb Hx]|[-> ->]]%Hin Hs.
      * rewrite list_lookup_insert_ne by (unfold zlen; lia). by apply Hlo.
      * unfold zlen in *. rewrite Nat2Z.id. apply list_lookup_insert_eq. lia.
    + intros i x [[Hb Hx]|[-> ->]]%Hin Hs; [by apply Hhi|unfold zlen in *; lia].
    + intros i Hb Hs. rewrite list_lookup_insert_ne by (unfold zlen; lia). apply Hfr; [lia|done].
  - assert (∃ o, (if zlen (overflow s) <? zlen ls - staticDepth + 1
        then o ← make None (zlen ls - staticDepth + 1); Done (gocopy o (overflow s)) else Done (overflow s)) = Done o ∧
      zlen ls - staticDepth + 1 ≤ zlen o ∧ ∀ i x, overflow s !! i = Some x → (i < Z.to_nat (zlen ls - staticDepth))%nat → o !! i = Some x) as (o&->&Hlo'&Hcp).
    { destruct (Z.ltb_spec (zlen (overflow s)) (zlen ls - staticDepth + 1)) as [Hs|Hs]; [|by eexists].
      unfold make. rewrite decide_True by lia. cbn [mbind run_bind]. eexists. split; [done|]. split.
      - unfold zlen at 2. rewrite length_gocopy, length_replicate. lia.
      - intros i x Hx Hb. unfold gocopy. rewrite length_replicate. apply lookup_app_l_Some.
        rewrite lookup_take_lt by lia. done. }
    cbn [mbind run_bind]. rewrite store_ok by lia. cbn [mbind run_bind]. eexists. split; [done|].
    split; cbn; [rewrite zlen_cons; lia|done| | | |intros i Hb Hs; unfold zlen in *; lia].
    + rewrite zlen_cons. unfold zlen at 2. rewrite length_insert. unfold zlen in *. lia.
    + intros i x [[Hb Hx]|[-> ->]]%Hin Hs; [by apply Hlo|unfold zlen in *; lia].
    + intros i x [[Hb Hx]|[-> ->]]%Hin Hs.
      * unfold zlen, staticDepth in *. rewrite list_lookup_insert_ne by lia. apply Hcp; [|lia]. by apply Hhi.
      * unfold zlen, staticDepth in *. replace (Z.to_nat (Z.of_nat (length ls) - 128)) with (length ls - Z.to_nat 128)%nat by lia.
        apply list_lookup_insert_eq. lia.
Qed.

End Treap.
