(* ===== verification/TreapTree.v ===== *)
(** * TreapTree: treaps as trees

    The theory of the nodes in memory: the tree below a node, the path from the root to a
    node, the entries in the order of the keys, and what the steps of [Treap] do to them. *)

From Stdlib Require Import Sorted.
From S2P Require Import Prelude Treap.

Module TreapTree.
Import Treap.

(** ** Trees in memory *)

Inductive tree := E | T (l : loc) (k v : bytes) (p : Z) (a b : tree).

Definition ptr (t : tree) : option loc := match t with E => None | T l _ _ _ _ _ => Some l end.

Fixpoint locs (t : tree) : list loc :=
  match t with E => [] | T l _ _ _ a b => l :: locs a ++ locs b end.

Fixpoint entries (t : tree) : list (bytes * bytes) :=
  match t with E => [] | T _ k v _ a b => entries a ++ (k, v) :: entries b end.

Definition cell (k v : bytes) (p : Z) (a b : option loc) : treapNode :=
  {| key := k; value := Some v; priority := p; left := a; right := b |}.

Fixpoint holds (c : gmap loc treapNode) (t : tree) : Prop :=
  match t with
  | E => True
  | T l k v p a b => c !! l = Some (cell k v p (ptr a) (ptr b)) ∧ holds c a ∧ holds c b
  end.

(** Two memories that agree on some nodes *)
Definition agree (ls : list loc) (c c' : gmap loc treapNode) : Prop := ∀ l, l ∈ ls → c' !! l = c !! l.

Lemma holds_agree c c' t : agree (locs t) c c' → holds c t → holds c' t.
Proof.
  induction t as [|l k v p a IHa b IHb]; cbn; [done|]. intros Ha (Hl&H1&H2). split; [rewrite Ha; [done|left]|].
  split; [apply IHa|apply IHb]; try done; intros x Hx; apply Ha; right; set_solver.
Qed.

Lemma ptr_locs t l : ptr t = Some l → l ∈ locs t.
Proof. destruct t; [done|]. intros [= <-]. left. Qed.

Lemma holds_dom c t l : holds c t → l ∈ locs t → l ∈ dom c.
Proof.
  induction t as [|l' k v p a IHa b IHb]; cbn; [by intros _ ?%elem_of_nil|]. intros (Hl&H1&H2) [->|Hx]%elem_of_cons.
  - apply elem_of_dom. by eexists.
  - apply elem_of_app in Hx as [?|?]; auto.
Qed.

Lemma locs_size c t : holds c t → NoDup (locs t) → (length (locs t) ≤ size c)%nat.
Proof.
  intros Hh Hn. rewrite <-size_dom. rewrite <-(size_list_to_set (C := gset loc)) by done. apply subseteq_size.
  intros l Hl. apply elem_of_list_to_set in Hl. by eapply holds_dom.
Qed.

(** ** Paths

    The way from a node up to the root: the nodes above, each with its other subtree *)

Record frame := { onLeft : bool; fl : loc; fk : bytes; fv : bytes; fp : Z; sib : tree }.

Definition fillFrame (f : frame) (t : tree) : tree :=
  T (fl f) (fk f) (fv f) (fp f) (if onLeft f then t else sib f) (if onLeft f then sib f else t).

Fixpoint plug (path : list frame) (t : tree) : tree :=
  match path with [] => t | f :: path => plug path (fillFrame f t) end.

Definition frameCell (f : frame) (q : option loc) : treapNode :=
  cell (fk f) (fv f) (fp f) (if onLeft f then q else ptr (sib f)) (if onLeft f then ptr (sib f) else q).

Fixpoint holdsPath (c : gmap loc treapNode) (path : list frame) (q : option loc) : Prop :=
  match path with
  | [] => True
  | f :: path => c !! fl f = Some (frameCell f q) ∧ holds c (sib f) ∧ holdsPath c path (Some (fl f))
  end.

Fixpoint locsPath (path : list frame) : list loc :=
  match path with [] => [] | f :: path => fl f :: locs (sib f) ++ locsPath path end.

Lemma plug_holds c path t : holds c (plug path t) ↔ holdsPath c path (ptr t) ∧ holds c t.
Proof.
  revert t. induction path as [|f path IH]; intros t; cbn; [tauto|]. rewrite IH. unfold fillFrame, frameCell. cbn.
  destruct (onLeft f); tauto.
Qed.

Lemma plug_locs path t : locs (plug path t) ≡ₚ locsPath path ++ locs t.
Proof.
  revert t. induction path as [|f path IH]; intros t; cbn; [done|]. rewrite IH. cbn. destruct (onLeft f); solve_Permutation.
Qed.

Lemma path_agree c c' path q : agree (locsPath path) c c' → holdsPath c path q → holdsPath c' path q.
Proof.
  revert q. induction path as [|f path IH]; intros q; cbn; [done|]. intros Ha (Hf&Hs&Hp). split; [rewrite Ha; [done|left]|].
  split; [apply (holds_agree c); [|done]|apply IH; [|done]]; intros x Hx; apply Ha; right; set_solver.
Qed.

Definition rootOf (path : list frame) (q : option loc) : option loc := from_option (fun f => Some (fl f)) q (last path).

Lemma plug_root path t : ptr (plug path t) = rootOf path (ptr t).
Proof.
  revert t. induction path as [|f path IH]; intros t; [done|]. cbn [plug]. rewrite IH. unfold rootOf. rewrite last_cons.
  by destruct (last path).
Qed.

Lemma rootOf_cons f path q : rootOf (f :: path) q = rootOf path (Some (fl f)).
Proof. unfold rootOf. rewrite last_cons. by destruct (last path). Qed.

Lemma last_path path : fl <$> last path = last (fl <$> path).
Proof. symmetry. apply fmap_last. Qed.

(** ** Entries *)

Fixpoint before (path : list frame) : list (bytes * bytes) :=
  match path with [] => [] | f :: path => before path ++ if onLeft f then [] else entries (sib f) ++ [(fk f, fv f)] end.

Fixpoint after (path : list frame) : list (bytes * bytes) :=
  match path with [] => [] | f :: path => (if onLeft f then (fk f, fv f) :: entries (sib f) else []) ++ after path end.

Lemma plug_entries path t : entries (plug path t) = before path ++ entries t ++ after path.
Proof.
  revert t. induction path as [|f path IH]; intros t; cbn; [by rewrite app_nil_r|]. rewrite IH. cbn.
  destruct (onLeft f); cbn; rewrite ?app_nil_r, <-?app_assoc; cbn; done.
Qed.

Definition keys (t : tree) : list bytes := (entries t).*1.
Definition sorted (t : tree) : Prop := StronglySorted lt (keys t).
Definition content (t : tree) : gmap bytes bytes := list_to_map (entries t).

Lemma sorted_app xs ys : StronglySorted lt (xs ++ ys) ↔
  StronglySorted lt xs ∧ StronglySorted lt ys ∧ ∀ x y, x ∈ xs → y ∈ ys → lt x y.
Proof.
  induction xs as [|x xs IH]; cbn.
  - split; [|tauto]. intros H. split; [constructor|]. split; [done|]. by intros x y ?%elem_of_nil.
  - split.
    + intros [H1 H2]%StronglySorted_inv. apply IH in H1 as (Ha&Hb&Hc). apply Forall_app in H2 as [H2 H3]. rewrite Forall_forall in H3.
      split; [by constructor|]. split; [done|]. intros y z [->|Hy]%elem_of_cons Hz; auto.
    + intros ([Ha Hx]%StronglySorted_inv&Hb&Hc). constructor.
      * apply IH. split; [done|]. split; [done|]. intros y z Hy. apply Hc. by right.
      * apply Forall_app. split; [done|]. apply Forall_forall. intros y Hy. apply Hc; [left|done].
Qed.

Lemma sorted_nodup xs : StronglySorted lt xs → NoDup xs.
Proof.
  induction 1 as [|x xs H IH Hx]; constructor; [|done]. intros Hin. rewrite Forall_forall in Hx. by apply (lt_irrefl x), Hx.
Qed.

Lemma sorted_mid xs k ys : StronglySorted lt (xs ++ k :: ys) ↔
  StronglySorted lt (xs ++ ys) ∧ (∀ x, x ∈ xs → lt x k) ∧ ∀ y, y ∈ ys → lt k y.
Proof.
  rewrite !sorted_app. split.
  - intros (Ha&[Hb Hk]%StronglySorted_inv&Hc). rewrite Forall_forall in Hk. split_and!; try done.
    + intros x y Hx Hy. apply Hc; [done|by right].
    + intros x Hx. apply Hc; [done|left].
  - intros ((Ha&Hb&Hc)&H1&H2). split_and!; [done|constructor; [done|by apply Forall_forall]|].
    intros x y Hx [->|Hy]%elem_of_cons; auto.
Qed.

Lemma content_mid (xs ys : list (bytes * bytes)) k v : StronglySorted lt (xs ++ (k, v) :: ys).*1 →
  (list_to_map (xs ++ (k, v) :: ys) : gmap bytes bytes) = <[k := v]> (list_to_map (xs ++ ys)).
Proof.
  intros Hs%sorted_nodup. rewrite (list_to_map_proper _ ((k, v) :: xs ++ ys) Hs) by (symmetry; apply Permutation_middle). done.
Qed.

Lemma content_none (xs ys : list (bytes * bytes)) k v : StronglySorted lt (xs ++ (k, v) :: ys).*1 →
  (list_to_map (xs ++ ys) : gmap bytes bytes) !! k = None.
Proof.
  intros Hs%sorted_nodup. apply not_elem_of_list_to_map_1. rewrite fmap_app in Hs. cbn in Hs. apply NoDup_app in Hs as (_&H1&[H2 _]%NoDup_cons).
  rewrite fmap_app, elem_of_app. intros [H|H]; [by apply (H1 k H); left|done].
Qed.

(** ** The search *)

Fixpoint descend (k : bytes) (t : tree) (path : list frame) : list frame * tree :=
  match t with
  | E => (path, E)
  | T l k' v p a b =>
      match Compare k k' with
      | Lt => descend k a ({| onLeft := true; fl := l; fk := k'; fv := v; fp := p; sib := b |} :: path)
      | Gt => descend k b ({| onLeft := false; fl := l; fk := k'; fv := v; fp := p; sib := a |} :: path)
      | Eq => (path, t)
      end
  end.

Lemma descend_plug k t path : plug (descend k t path).1 (descend k t path).2 = plug path t.
Proof.
  revert path. induction t as [|l k' v p a IHa b IHb]; intros path; cbn; [done|]. destruct (Compare k k'); [done|by rewrite IHa|by rewrite IHb].
Qed.

(** The keys before the place are less, those after it greater. *)
Definition around (k : bytes) (path : list frame) : Prop :=
  (∀ x, x ∈ (before path).*1 → lt x k) ∧ ∀ x, x ∈ (after path).*1 → lt k x.

Lemma around_nil k : around k [].
Proof. split; intros x ?%elem_of_nil; done. Qed.

Lemma descend_around k t path : sorted t → around k path →
  around k (descend k t path).1 ∧ match (descend k t path).2 with E => True | T _ k' _ _ _ _ => k' = k end.
Proof.
  unfold sorted, keys. revert path. induction t as [|l k' v p a IHa b IHb]; intros path Hs [H1 H2]; cbn [descend]; [done|].
  cbn in Hs. rewrite fmap_app in Hs. cbn in Hs. apply sorted_mid in Hs as (Hs&Ha&Hb). apply sorted_app in Hs as (Hsa&Hsb&_).
  destruct (compare_spec k k') as [->|Hlt|Hgt]; [done| |].
  - apply IHa; [done|]. split; cbn; intros x Hx.
    + apply H1. by rewrite app_nil_r in Hx.
    + apply elem_of_cons in Hx as [->|Hx]; [done|]. rewrite fmap_app in Hx. apply elem_of_app in Hx as [Hx|Hx]; [|by apply H2].
      transitivity k'; [done|by apply Hb].
  - apply IHb; [done|]. split; cbn; intros x Hx; [|by apply H2]. rewrite !fmap_app in Hx. cbn in Hx.
    apply elem_of_app in Hx as [Hx|Hx]; [by apply H1|]. apply elem_of_app in Hx as [Hx|Hx%list_elem_of_singleton]; [|by subst].
    transitivity k'; [by apply Ha|done].
Qed.

(** The comparison that led to a place *)
Definition lastCompare (path : list frame) : comparison :=
  match path with [] => Eq | f :: _ => if onLeft f then Lt else Gt end.

(** The stack above a place, with the node there if there is one *)
Definition stackOf (path : list frame) (t : tree) : list loc := option_list (ptr t) ++ (fl <$> path).

Lemma search_ok m k t path s fuel : holds (cells m) t → stacked s (fl <$> path) → (length (locs t) ≤ fuel)%nat →
  let d := descend k t path in
  ∃ s', search fuel m k s (lastCompare path) (ptr t) = Done (s', match d.2 with E => lastCompare d.1 | _ => Eq end, ptr d.2) ∧
    stacked s' (stackOf d.1 d.2).
Proof.
  revert path s fuel. induction t as [|l k' v p a IHa b IHb]; intros path s fuel Hh Hs Hf; cbn [descend].
  { exists s. by destruct fuel. }
  cbn in Hf, Hh. rewrite length_app in Hf. destruct Hh as (Hl&Ha&Hb). destruct fuel as [|fuel]; [lia|]. cbn [search ptr].
  destruct (stacked_push s l _ Hs) as (s1&->&Hs1). cbn [mbind run_bind]. unfold at_. rewrite Hl. cbn [of_option mbind run_bind cell key left right].
  destruct (Compare k k'); cbn [fst snd].
  - by exists s1.
  - apply (IHa ({| onLeft := true; fl := l; fk := k'; fv := v; fp := p; sib := b |} :: path) s1 fuel); [done|done|lia].
  - apply (IHb ({| onLeft := false; fl := l; fk := k'; fv := v; fp := p; sib := a |} :: path) s1 fuel); [done|done|lia].
Qed.

(** ** Links *)

Lemma update_ok f l n m : cells m !! l = Some n → update f l m = Done (write l (f n) m).
Proof. intros Hl. unfold update, at_. by rewrite Hl. Qed.

Lemma set_cells_id m : set_cells (cells m) m = m.
Proof. by destruct m. Qed.

(** Nothing but some nodes changed. *)
Definition frames_off (ls : list loc) (c c' : gmap loc treapNode) : Prop := ∀ x, x ∉ ls → c' !! x = c !! x.

Lemma off_weaken ls ls' c c' : (∀ x, x ∈ ls → x ∈ ls') → frames_off ls c c' → frames_off ls' c c'.
Proof. intros Hin Ho x Hx. apply Ho. intros ?. by apply Hx, Hin. Qed.

Lemma path_locs path x : x ∈ fl <$> path → x ∈ locsPath path.
Proof. induction path as [|f path IH]; [by intros ?%elem_of_nil|]. rewrite fmap_cons. cbn. intros [->|?]%elem_of_cons; [left|right; set_solver]. Qed.

Lemma relink_ok path p node m r : holdsPath (cells m) path (Some p) → NoDup (locsPath path) → p ∉ locsPath path → (path ≠ [] → r = rootOf path (Some p)) →
  ∃ c', relinkGrandparent r node p (head (fl <$> path)) m = Done (rootOf path (Some node), set_cells c' m) ∧
    holdsPath c' path (Some node) ∧ frames_off (fl <$> path) (cells m) c'.
Proof.
  intros Hh Hn Hp Hr. destruct path as [|f path].
  { exists (cells m). rewrite set_cells_id. by split. }
  rewrite Hr by done. cbn in Hh, Hn, Hp. destruct Hh as (Hf&Hs&Hpath). apply NoDup_cons in Hn as [Hnf Hn]. rewrite fmap_cons. cbn [head relinkGrandparent].
  unfold at_. rewrite Hf. cbn [of_option mbind run_bind]. exists (<[fl f := frameCell f (Some node)]> (cells m)). rewrite !rootOf_cons. split; [|split].
  - unfold frameCell. cbn. destruct (onLeft f) eqn:El.
    + rewrite bool_decide_true by done. unfold setLeft. rewrite (update_ok _ _ _ _ Hf). cbn [mbind run_bind]. unfold frameCell. by rewrite El.
    + rewrite bool_decide_false by (intros ?%ptr_locs; apply Hp; set_solver). unfold setRight. rewrite (update_ok _ _ _ _ Hf).
      cbn [mbind run_bind]. unfold frameCell. by rewrite El.
  - cbn. split; [by rewrite lookup_insert_eq|]. split; [eapply holds_agree; [|exact Hs]|eapply path_agree; [|exact Hpath]];
      intros x Hx; rewrite lookup_insert_ne; [done|set_solver|done|set_solver].
  - intros x Hx. rewrite lookup_insert_ne; [done|set_solver].
Qed.

(** ** Moving up *)

Fixpoint rise (path : list frame) (l : loc) (k v : bytes) (p : Z) (a b : tree) : tree :=
  match path with
  | [] => T l k v p a b
  | f :: rest =>
      if fp f <=? p then plug path (T l k v p a b)
      else if onLeft f then rise rest l k v p a (T (fl f) (fk f) (fv f) (fp f) b (sib f))
      else rise rest l k v p (T (fl f) (fk f) (fv f) (fp f) (sib f) a) b
  end.

Lemma rise_entries path l k v p a b : entries (rise path l k v p a b) = before path ++ (entries a ++ (k, v) :: entries b) ++ after path.
Proof.
  revert a b. induction path as [|f path IH]; intros a b; cbn [rise]; [cbn; by rewrite app_nil_r|]. destruct (fp f <=? p); [by rewrite plug_entries|].
  cbn [before after]. destruct (onLeft f); rewrite IH; cbn [entries]; rewrite ?app_nil_r, <-?app_assoc; cbn; rewrite <-?app_assoc; done.
Qed.

Lemma rise_locs path l k v p a b : locs (rise path l k v p a b) ≡ₚ locs (plug path (T l k v p a b)).
Proof.
  revert a b. induction path as [|f path IH]; intros a b; cbn [rise]; [done|]. destruct (fp f <=? p); [done|].
  destruct (onLeft f) eqn:El; rewrite IH; cbn [plug]; rewrite !plug_locs; apply Permutation_app_head; unfold fillFrame; rewrite El; cbn; solve_Permutation.
Qed.

(** The side of a node is told by the left link of its parent. *)
Lemma left_link f path l k v p a b : NoDup (locs (plug (f :: path) (T l k v p a b))) →
  bool_decide ((if onLeft f then Some l else ptr (sib f)) = Some l) = onLeft f.
Proof.
  intros Hn. destruct (onLeft f) eqn:El; [by rewrite bool_decide_true|]. apply bool_decide_false. intros Hx%ptr_locs.
  rewrite plug_locs in Hn. cbn in Hn. apply NoDup_cons in Hn as [_ Hn]. apply NoDup_app in Hn as (_&Hn&_). apply (Hn l); set_solver.
Qed.

(** One rotation in memory, of a node with its parent; the parent's old link to the node
    does not matter *)
Lemma rotation_gen f path l k v p a b m r q : cells m !! fl f = Some (frameCell f q) → holds (cells m) (sib f) → holdsPath (cells m) path (Some (fl f)) →
  holds (cells m) (T l k v p a b) → NoDup (locs (plug (f :: path) (T l k v p a b))) → (path ≠ [] → r = rootOf path (Some (fl f))) →
  let t' := if onLeft f then T l k v p a (T (fl f) (fk f) (fv f) (fp f) b (sib f)) else T l k v p (T (fl f) (fk f) (fv f) (fp f) (sib f) a) b in
  ∃ c', (m ← (if onLeft f
              then (m ← setRight l (Some (fl f)) m; setLeft (fl f) (ptr b) m)
              else (m ← setLeft l (Some (fl f)) m; setRight (fl f) (ptr a) m));
         relinkGrandparent r l (fl f) (head (fl <$> path)) m) = Done (ptr (plug path t'), set_cells c' m) ∧
    holds c' (plug path t') ∧ frames_off (l :: (fl <$> f :: path)) (cells m) c'.
Proof.
  intros Hf Hs Hp (Hl&Ha&Hb) Hn Hr t'. fold holds in *.
  rewrite plug_locs in Hn. cbn in Hn.
  assert (fl f ≠ l ∧ l ∉ locsPath path ∧ fl f ∉ locsPath path ∧ NoDup (locsPath path) ∧ (∀ x, x ∈ locs a ++ locs b ++ locs (sib f) ++ locsPath path → x ≠ l ∧ x ≠ fl f))
    as (Hne&Hl1&Hl2&Hnp&Hoff).
  { apply NoDup_cons in Hn as [H1 H2]. apply NoDup_app in H2 as (H2&H3&H4). apply NoDup_app in H2 as (H5&H6&H7). apply NoDup_cons in H4 as [H8 H9].
    apply NoDup_app in H9 as (H9&H10&H11). split_and!; [set_solver|set_solver|set_solver|done|]. set_solver. }
  set (c2 := <[fl f := if onLeft f then cell (fk f) (fv f) (fp f) (ptr b) (ptr (sib f)) else cell (fk f) (fv f) (fp f) (ptr (sib f)) (ptr a)]>
    (<[l := if onLeft f then cell k v p (ptr a) (Some (fl f)) else cell k v p (Some (fl f)) (ptr b)]> (cells m))).
  assert ((if onLeft f
              then (m ← setRight l (Some (fl f)) m; setLeft (fl f) (ptr b) m)
              else (m ← setLeft l (Some (fl f)) m; setRight (fl f) (ptr a) m)) = Done (set_cells c2 m)) as ->.
  { unfold c2, frameCell in *. destruct (onLeft f).
    - unfold setRight, setLeft. rewrite (update_ok _ _ _ _ Hl). cbn [mbind run_bind].
      rewrite (update_ok _ _ (cell (fk f) (fv f) (fp f) q (ptr (sib f)))) by (cbn; by rewrite lookup_insert_ne). done.
    - unfold setRight, setLeft. rewrite (update_ok _ _ _ _ Hl).
      cbn [mbind run_bind]. rewrite (update_ok _ _ (cell (fk f) (fv f) (fp f) (ptr (sib f)) q)) by (cbn; by rewrite lookup_insert_ne). done. }
  cbn [mbind run_bind]. assert (agree (locs a ++ locs b ++ locs (sib f) ++ locsPath path) (cells m) c2) as Hag.
  { intros x Hx. destruct (Hoff x Hx). unfold c2. by rewrite !lookup_insert_ne. }
  destruct (relink_ok path (fl f) l (set_cells c2 m) r) as (c3&->&Hp3&Ho3); [|done..|].
  { cbn. eapply path_agree; [|exact Hp]. intros x Hx. apply Hag. set_solver. }
  exists c3. rewrite plug_root. split; [by unfold t'; destruct (onLeft f)|]. cbn in Ho3.
  pose proof (off_weaken _ _ _ _ (path_locs path) Ho3) as Ho4.
  assert (c3 !! l = c2 !! l ∧ c3 !! fl f = c2 !! fl f) as [E1 E2] by (split; by apply Ho4).
  assert (c2 !! l = Some (if onLeft f then cell k v p (ptr a) (Some (fl f)) else cell k v p (Some (fl f)) (ptr b))) as E3
    by (unfold c2; rewrite lookup_insert_ne by done; by rewrite lookup_insert_eq).
  assert (∀ t, holds (cells m) t → (∀ x, x ∈ locs t → x ∈ locs a ++ locs b ++ locs (sib f) ∧ x ∉ locsPath path) → holds c3 t) as Hkeep.
  { intros t Ht Hin. eapply holds_agree; [|exact Ht]. intros x Hx. destruct (Hin x Hx). rewrite Ho4 by done. apply Hag. set_solver. }
  assert (∀ x, x ∈ locs a ++ locs b ++ locs (sib f) → x ∉ locsPath path) as Hdis.
  { apply NoDup_cons in Hn as [_ H2]. apply NoDup_app in H2 as (H2&H3&_). apply NoDup_app in H2 as (_&H6&_). intros x Hx Hy.
    apply elem_of_app in Hx as [Hx|Hx]; [|apply elem_of_app in Hx as [Hx|Hx]]; [apply (H3 x); set_solver|apply (H3 x); set_solver|by apply (H6 x)]. }
  split.
  - apply plug_holds. split; [by unfold t'; destruct (onLeft f)|]. unfold t', c2 in *.
    destruct (onLeft f); cbn; rewrite E1, E2, E3, lookup_insert_eq; split_and!; try done; apply Hkeep; try done; intros x Hx; split; try set_solver; apply Hdis; set_solver.
  - intros x Hx. rewrite ?fmap_cons in Hx. rewrite Ho3 by set_solver. unfold c2. rewrite !lookup_insert_ne by set_solver. done.
Qed.

Lemma rotation_ok f path l k v p a b m r : holds (cells m) (plug (f :: path) (T l k v p a b)) → NoDup (locs (plug (f :: path) (T l k v p a b))) →
  r = ptr (plug (f :: path) (T l k v p a b)) →
  let t' := if onLeft f then T l k v p a (T (fl f) (fk f) (fv f) (fp f) b (sib f)) else T l k v p (T (fl f) (fk f) (fv f) (fp f) (sib f) a) b in
  ∃ c', (m ← (if onLeft f
              then (m ← setRight l (Some (fl f)) m; setLeft (fl f) (ptr b) m)
              else (m ← setLeft l (Some (fl f)) m; setRight (fl f) (ptr a) m));
         relinkGrandparent r l (fl f) (head (fl <$> path)) m) = Done (ptr (plug path t'), set_cells c' m) ∧
    holds c' (plug path t') ∧ frames_off (l :: (fl <$> f :: path)) (cells m) c'.
Proof.
  intros Hh Hn ->. rewrite plug_root, rootOf_cons. apply plug_holds in Hh as ((Hf&Hs&Hp)&Ht). by eapply rotation_gen.
Qed.

Lemma rotate_ok path l k v p a b s r m fuel : holds (cells m) (plug path (T l k v p a b)) → NoDup (locs (plug path (T l k v p a b))) →
  stacked s (fl <$> path) → r = ptr (plug path (T l k v p a b)) → (length path ≤ fuel)%nat →
  ∃ c', rotate fuel r s l m = Done (ptr (rise path l k v p a b), set_cells c' m) ∧ holds c' (rise path l k v p a b) ∧
    frames_off (l :: (fl <$> path)) (cells m) c'.
Proof.
  revert a b s r m fuel. induction path as [|f path IH]; intros a b s r m fuel Hh Hn Hs Hr Hf.
  { exists (cells m). unfold rotate, Len. destruct fuel; rewrite (st_depth _ _ Hs); cbn; rewrite set_cells_id, Hr; done. }
  destruct fuel as [|fuel]; [cbn in Hf; lia|]. cbn [rotate]. unfold Len. rewrite (st_depth _ _ Hs), fmap_cons, zlen_cons.
  destruct (Z.ltb_spec 0 (1 + zlen (fl <$> path))) as [_|]; [|pose proof (zlen_nonneg (fl <$> path)); lia].
  rewrite fmap_cons in Hs. destruct (stacked_pop _ _ _ Hs) as (s'&->&Hs'). cbn [mbind run_bind of_option].
  pose proof Hh as ((Hfc&_&_)&Hl&_)%plug_holds. fold holds holdsPath in *. unfold at_. rewrite Hl, Hfc. cbn [mbind run_bind of_option rise].
  unfold frameCell at 1. cbn [cell priority]. destruct (fp f <=? p) eqn:Hp.
  { exists (cells m). rewrite set_cells_id, Hr. done. }
  rewrite (stacked_top _ _ Hs'). unfold frameCell. cbn [cell left right ptr]. rewrite (left_link _ _ _ _ _ _ _ _ Hn).
  destruct (rotation_ok f path l k v p a b m r Hh Hn Hr) as (c1&E1&Hh1&Ho1). cbn [ptr].
  match goal with |- context [mbind _ ?M] => match type of M with run memory => set (M1 := M) in * end end.
  destruct M1 as [m1| |]; cbn [mbind run_bind] in E1 |- *; [|done..]. rewrite E1. cbn [mbind run_bind].
  destruct (IH (if onLeft f then a else T (fl f) (fk f) (fv f) (fp f) (sib f) a) (if onLeft f then T (fl f) (fk f) (fv f) (fp f) b (sib f) else b)
    s' (ptr (plug path (if onLeft f then T l k v p a (T (fl f) (fk f) (fv f) (fp f) b (sib f)) else T l k v p (T (fl f) (fk f) (fv f) (fp f) (sib f) a) b)))
    (set_cells c1 m) fuel) as (c'&E2&Hh2&Ho2).
  { by destruct (onLeft f). }
  { rewrite plug_locs in *. cbn in *. destruct (onLeft f); (eapply NoDup_Permutation_proper; [|exact Hn]); cbn; solve_Permutation. }
  { done. }
  { by destruct (onLeft f). }
  { cbn in Hf. lia. }
  exists c'. cbn in E2. rewrite E2. destruct (onLeft f) eqn:El; (split; [done|]; split; [done|]); intros x Hx; rewrite Ho2; try (by apply Ho1);
    rewrite ?fmap_cons in Hx; set_solver.
Qed.

(** ** Moving down

    What is left of a node's subtrees when the node is removed: the root of one of them
    on top, the left one if its priority is not less *)

Fixpoint merge (a : tree) : tree → tree :=
  fix merge_a (b : tree) : tree :=
    match a, b with
    | E, E => E
    | E, T l k v p ba bb => T l k v p (merge_a ba) bb
    | T l k v p aa ab, E => T l k v p aa (merge ab E)
    | T l k v p aa ab, T l' k' v' p' ba bb => if p' <=? p then T l k v p aa (merge ab b) else T l' k' v' p' (merge_a ba) bb
    end.

Lemma merge_entries a b : entries (merge a b) = entries a ++ entries b.
Proof.
  revert b. induction a as [|l k v p aa IHa ab IHb]; intros b; induction b as [|l' k' v' p' ba IHba bb _]; cbn [merge entries]; try done.
  - cbn in IHba. by rewrite IHba.
  - rewrite IHb, app_nil_r. cbn. by rewrite !app_nil_r.
  - destruct (p' <=? p); cbn [entries].
    + rewrite IHb. cbn. by rewrite <-!app_assoc.
    + cbn [merge] in IHba. rewrite IHba. cbn. by rewrite <-!app_assoc.
Qed.

Lemma disconnect_ok f path l k v p m : holds (cells m) (plug (f :: path) (T l k v p E E)) → NoDup (locs (plug (f :: path) (T l k v p E E))) →
  ∃ c', disconnect l (Some (fl f)) m = Done (set_cells c' m) ∧ holds c' (plug (f :: path) E) ∧ frames_off [fl f] (cells m) c'.
Proof.
  intros Hh Hn. apply plug_holds in Hh as ((Hf&Hs&Hp)&_). fold holds holdsPath in *. rewrite plug_locs in Hn. cbn in Hn.
  apply NoDup_cons in Hn as [H1 H2]. apply NoDup_app in H2 as (H2&H3&_). unfold disconnect, at_. cbn [of_option mbind run_bind].
  rewrite Hf. cbn [of_option mbind run_bind]. exists (<[fl f := frameCell f None]> (cells m)). split; [|split].
  - unfold frameCell in *. cbn in *. destruct (onLeft f).
    + rewrite bool_decide_false by (intros Hx%ptr_locs; apply (H3 l); set_solver). unfold setLeft. by rewrite (update_ok _ _ _ _ Hf).
    + rewrite bool_decide_true by done. unfold setRight. by rewrite (update_ok _ _ _ _ Hf).
  - apply plug_holds. split; [|done]. cbn. split; [by rewrite lookup_insert_eq|].
    split; [eapply holds_agree; [|exact Hs]|eapply path_agree; [|exact Hp]]; intros x Hx; rewrite lookup_insert_ne; try done; set_solver.
  - intros x Hx. rewrite lookup_insert_ne; [done|set_solver].
Qed.

(** ** The heap order

    No priority is less than that of the node above. *)

Fixpoint heaped (lo : Z) (t : tree) : Prop :=
  match t with E => True | T _ _ _ p a b => lo ≤ p ∧ heaped p a ∧ heaped p b end.

Definition minHeap (t : tree) : Prop := match t with E => True | T _ _ _ p a b => heaped p a ∧ heaped p b end.

Lemma heaped_mono lo lo' t : lo' ≤ lo → heaped lo t → heaped lo' t.
Proof. destruct t; cbn; [done|]. intros Hle (Hp&?). split; [lia|done]. Qed.

Definition belowPath (path : list frame) (t : tree) : Prop := match path with [] => True | f :: _ => heaped (fp f) t end.

Fixpoint heapedPath (path : list frame) : Prop :=
  match path with
  | [] => True
  | f :: path => heaped (fp f) (sib f) ∧ (match path with [] => True | g :: _ => fp g ≤ fp f end) ∧ heapedPath path
  end.

Lemma plug_minHeap path t : minHeap (plug path t) ↔ heapedPath path ∧ belowPath path t ∧ minHeap t.
Proof.
  revert t. induction path as [|f path IH]; intros t; cbn [plug heapedPath belowPath]; [tauto|]. rewrite IH. unfold fillFrame.
  assert (heaped (fp f) t → minHeap t) as Hm by (destruct t; cbn; tauto).
  assert (belowPath path (T (fl f) (fk f) (fv f) (fp f) (if onLeft f then t else sib f) (if onLeft f then sib f else t)) ↔
    (match path with [] => True | g :: _ => fp g ≤ fp f end) ∧ (path = [] ∨ heaped (fp f) t ∧ heaped (fp f) (sib f))) as Hb.
  { destruct path as [|g path]; cbn; [tauto|]. destruct (onLeft f); naive_solver. }
  rewrite Hb. cbn. destruct (onLeft f); tauto.
Qed.

Definition rootPriority (t : tree) : option Z := match t with E => None | T _ _ _ p _ _ => Some p end.

Lemma merge_E_l b : merge E b = b.
Proof. induction b as [|l k v p ba IH bb _]; cbn in *; [done|by rewrite IH]. Qed.

Lemma merge_E_r a : merge a E = a.
Proof. induction a as [|l k v p aa _ ab IH]; cbn in *; [done|by rewrite IH]. Qed.

(** No priority of the two subtrees is lost, so a bound on what is left of them bounds both roots *)
Lemma merge_heaped lo a b : heaped lo (merge a b) →
  (∀ p, rootPriority a = Some p → lo ≤ p) ∧ (∀ p, rootPriority b = Some p → lo ≤ p).
Proof.
  revert lo b. induction a as [|l k v p aa _ ab IHb]; intros lo b.
  { rewrite merge_E_l. destruct b; cbn; naive_solver. }
  revert lo. induction b as [|l' k' v' p' ba IHba bb _]; intros lo.
  { rewrite merge_E_r. cbn. naive_solver. }
  cbn [merge]. destruct (p' <=? p); intros (Hlo&H1&H2); cbn [rootPriority].
  - destruct (IHb _ _ H2) as [_ Hb]. split; intros q [= <-]; [done|]. specialize (Hb _ eq_refl). lia.
  - destruct (IHba _ H1) as [Ha _]. split; intros q [= <-]; [|done]. specialize (Ha _ eq_refl). lia.
Qed.

(** The greater of two different root priorities comes out on top *)
Lemma merge_breaks a b p q : rootPriority a = Some p → rootPriority b = Some q → p ≠ q → ¬ minHeap (merge a b).
Proof.
  destruct a as [|l k v pa aa ab], b as [|l' k' v' pb ba bb]; try done. intros [= ->] [= ->] Hne. cbn [merge]. destruct (Z.leb_spec q p); cbn [minHeap]; intros [H1 H2].
  - apply merge_heaped in H2 as [_ H2]. specialize (H2 _ eq_refl). lia.
  - change (heaped q (merge (T l k v p aa ab) ba)) in H1. apply merge_heaped in H1 as [H1 _]. specialize (H1 _ eq_refl). lia.
Qed.

Lemma rise_minHeap path l k v p a b : heapedPath path → heaped p a → heaped p b → belowPath path a → belowPath path b →
  minHeap (rise path l k v p a b).
Proof.
  revert a b. induction path as [|f path IH]; intros a b Hp Ha Hb Hba Hbb; cbn [rise]; [done|]. cbn [belowPath] in *. destruct (Z.leb_spec (fp f) p).
  { apply plug_minHeap. split; [done|]. by split. }
  cbn [heapedPath] in Hp. destruct Hp as (Hs&Hg&Hp).
  assert (∀ t, heaped (fp f) t → belowPath path t) as Hup by (intros t Ht; destruct path; [done|by eapply heaped_mono]).
  destruct (onLeft f); apply IH; try done; try (by apply Hup); cbn; try (split; [lia|done]); apply Hup; done.
Qed.

(** ** A new leaf *)

Lemma link_ok f path l k v p m : holds (cells m) (plug (f :: path) E) → NoDup (locs (plug (f :: path) E)) → l ∉ locs (plug (f :: path) E) →
  cells m !! l = Some (cell k v p None None) →
  ∃ c', match lastCompare (f :: path) with Lt => setLeft (fl f) (Some l) m | _ => setRight (fl f) (Some l) m end = Done (set_cells c' m) ∧
    holds c' (plug (f :: path) (T l k v p E E)) ∧ frames_off [fl f] (cells m) c'.
Proof.
  intros Hh Hn Hl Hc. apply plug_holds in Hh as ((Hf&Hs&Hp)&_). fold holds holdsPath in *. rewrite plug_locs in Hn, Hl. cbn in Hn, Hl.
  rewrite app_nil_r in Hn, Hl. apply NoDup_cons in Hn as [H1 H2]. exists (<[fl f := frameCell f (Some l)]> (cells m)). split; [|split].
  - cbn. unfold frameCell in *. cbn in *. destruct (onLeft f); unfold setLeft, setRight; by rewrite (update_ok _ _ _ _ Hf).
  - apply plug_holds. cbn. split; [|by rewrite lookup_insert_ne by set_solver]. split; [by rewrite lookup_insert_eq|].
    split; [eapply holds_agree; [|exact Hs]|eapply path_agree; [|exact Hp]]; intros x Hx; rewrite lookup_insert_ne; try done; set_solver.
  - intros x Hx. rewrite lookup_insert_ne; [done|set_solver].
Qed.

(** A new node is linked and moves up. *)
Lemma attach_ok path l k v p m s r fuel : path ≠ [] → holds (cells m) (plug path E) → NoDup (locs (plug path E)) → l ∉ locs (plug path E) →
  cells m !! l = Some (cell k v p None None) → stacked s (fl <$> path) → r = ptr (plug path E) → (length path ≤ fuel)%nat →
  ∃ c', (parent ← At s 0;
         q ← of_option parent;
         m ← match lastCompare path with Lt => setLeft q (Some l) m | _ => setRight q (Some l) m end;
         rotate fuel r s l m) = Done (ptr (rise path l k v p E E), set_cells c' m) ∧
    holds c' (rise path l k v p E E) ∧ frames_off (l :: (fl <$> path)) (cells m) c'.
Proof.
  intros Hne Hh Hn Hl Hc Hs Hr Hf. destruct path as [|f path]; [done|]. rewrite (stacked_top _ _ Hs). rewrite fmap_cons. cbn [head mbind run_bind of_option].
  destruct (link_ok f path l k v p m Hh Hn Hl Hc) as (c1&->&Hh1&Ho1). cbn [mbind run_bind].
  assert (locs (plug (f :: path) (T l k v p E E)) ≡ₚ l :: locs (plug (f :: path) E)) as Hperm.
  { rewrite !plug_locs. cbn. rewrite app_nil_r. solve_Permutation. }
  destruct (rotate_ok (f :: path) l k v p E E s r (set_cells c1 m) fuel) as (c2&E2&Hh2&Ho2); [done| |done| |done|].
  { rewrite Hperm. by constructor. }
  { rewrite Hr, !plug_root. unfold rootOf. rewrite last_cons. by destruct (last path). }
  exists c2. split; [done|]. split; [done|]. intros x Hx. rewrite Ho2 by done. cbn. apply Ho1. rewrite ?fmap_cons in Hx. set_solver.
Qed.

(** ** Allocation *)

(** A set of nodes that are in use *)
Definition live (m : memory) (ls : list loc) : Prop := ∀ x, x ∈ ls → x ∈ dom (cells m) ∧ x ∉ pool m.

Lemma take_ok {RT : Runtime} m l m' : take m = (l, m') → NoDup (pool m) →
  cells m' = cells m ∧ NoDup (pool m') ∧ l ∉ pool m' ∧ (∀ x, x ∈ pool m' → x ∈ pool m) ∧ ∀ ls, live m ls → l ∉ ls.
Proof.
  unfold take. intros Et Hn. destruct (poolGet (pool m)) as [i|]; cbn [mbind option_bind] in Et; [destruct (pool m !! i) as [q|] eqn:Eq|]; cbn [mbind option_bind] in Et.
  - injection Et as <- <-. cbn. assert (pool m ≡ₚ q :: delete i (pool m)) as Hp by (by apply delete_Permutation). rewrite Hp in Hn. apply NoDup_cons in Hn as [H1 H2].
    split_and!; [done|done|done| |].
    + intros x Hx. rewrite Hp. by right.
    + intros ls Hl Hq. destruct (Hl q Hq) as [_ Hx]. apply Hx. rewrite Hp. left.
  - injection Et as <- <-. pose proof (is_fresh (dom (cells m) ∪ list_to_set (pool m))) as Hf. split_and!; [done|done|set_solver|done|].
    intros ls Hl Hq. destruct (Hl _ Hq). set_solver.
  - injection Et as <- <-. pose proof (is_fresh (dom (cells m) ∪ list_to_set (pool m))) as Hf. split_and!; [done|done|set_solver|done|].
    intros ls Hl Hq. destruct (Hl _ Hq). set_solver.
Qed.

(** A node was written to a place that was not in use. *)
Definition allocated (m m' : memory) (l : loc) (n : treapNode) : Prop :=
  cells m' = <[l := n]> (cells m) ∧ NoDup (pool m') ∧ l ∉ pool m' ∧ (∀ x, x ∈ pool m' → x ∈ pool m) ∧ ∀ ls, live m ls → l ∉ ls.

Lemma new_ok {RT : Runtime} k v p m : NoDup (pool m) → ∃ l m', newTreapNode k (Some v) p m = (l, m') ∧ allocated m m' l (cell k v p None None).
Proof.
  intros Hn. unfold newTreapNode. destruct (take m) as [l m1] eqn:Et. destruct (take_ok m l m1 Et Hn) as (H1&H2&H3&H4&H5).
  eexists _, _. split; [done|]. unfold allocated. cbn. by rewrite H1.
Qed.

Lemma allocated_live m m' l n ls : allocated m m' l n → live m ls → live m' ls.
Proof.
  intros (Hc&_&_&Hp&_) Hl x Hx. destruct (Hl x Hx) as [H1 H2]. split; [rewrite Hc, dom_insert; set_solver|]. intros Hx'. by apply H2, Hp.
Qed.

Lemma allocated_holds m m' l n t : allocated m m' l n → holds (cells m) t → live m (locs t) → holds (cells m') t.
Proof.
  intros (Hc&_&_&_&Hf) Hh Hl. eapply holds_agree; [|exact Hh]. intros x Hx. rewrite Hc. apply lookup_insert_ne. intros ->. by apply (Hf _ Hl).
Qed.

(** ** Counts *)

Definition footprint (M : gmap bytes bytes) : Z := map_fold (fun k v n => nodeFieldsSize + (zlen k + zlen v) + n) 0 M.

Lemma footprint_insert M k v : M !! k = None → footprint (<[k := v]> M) = nodeFieldsSize + (zlen k + zlen v) + footprint M.
Proof. intros Hk. unfold footprint. rewrite map_fold_insert_L; [done|intros; lia|done]. Qed.

(** The fields of a treap say how much is in it. *)
Definition counted (count totalSize : Z) (M : gmap bytes bytes) : Prop := count = i64 (Z.of_nat (size M)) ∧ totalSize = u64 (footprint M).

Lemma uwrap_add w a b : uwrap w (uwrap w a + b) = uwrap w (a + b).
Proof. unfold uwrap. apply Zplus_mod_idemp_l. Qed.

Lemma uwrap_add_r w a b : uwrap w (a + uwrap w b) = uwrap w (a + b).
Proof. unfold uwrap. apply Zplus_mod_idemp_r. Qed.

Lemma swrap_add w a b : swrap w (swrap w a + b) = swrap w (a + b).
Proof.
  unfold swrap. f_equal. replace ((a + 2 ^ (w - 1)) `mod` 2 ^ w - 2 ^ (w - 1) + b + 2 ^ (w - 1)) with ((a + 2 ^ (w - 1)) `mod` 2 ^ w + b) by lia.
  rewrite Zplus_mod_idemp_l. f_equal. lia.
Qed.

Lemma counted_insert c s M k v : counted c s M → M !! k = None →
  counted (i64 (c + 1)) (u64 (s + u64 (nodeFieldsSize + u64 (zlen k + zlen v)))) (<[k := v]> M).
Proof.
  intros [-> ->] Hk. split.
  - rewrite swrap_add, map_size_insert_None by done. f_equal. lia.
  - rewrite uwrap_add, uwrap_add_r, footprint_insert by done. rewrite Z.add_assoc, uwrap_add_r. f_equal. lia.
Qed.

Lemma counted_delete c s M k v : counted c s M → M !! k = Some v →
  counted (i64 (c - 1)) (u64 (s - u64 (nodeFieldsSize + u64 (zlen k + zlen v)))) (delete k M).
Proof.
  intros [-> ->] Hk. rewrite <-(insert_delete_id M k v Hk) at 1 2. split.
  - rewrite <-Z.add_opp_r, swrap_add, map_size_insert_None by apply lookup_delete_eq. f_equal. lia.
  - rewrite footprint_insert by apply lookup_delete_eq. rewrite uwrap_add_r. unfold uwrap. rewrite Zminus_mod_idemp_l, Zminus_mod_idemp_r. f_equal. lia.
Qed.

Lemma counted_update c s M k v v' : counted c s M → M !! k = Some v →
  counted c (u64 (u64 (s - zlen v) + zlen v')) (<[k := v']> M).
Proof.
  intros [-> ->] Hk. split.
  - by rewrite map_size_insert_Some by (by eexists).
  - pose proof (footprint_insert (delete k M) k v (lookup_delete_eq M k)) as E1. rewrite insert_delete_id in E1 by done.
    pose proof (footprint_insert (delete k M) k v' (lookup_delete_eq M k)) as E2. rewrite insert_delete_eq in E2. rewrite E1, E2.
    rewrite uwrap_add, <-Z.add_opp_r, <-Z.add_assoc, uwrap_add. f_equal. lia.
Qed.

(** ** Entries of neighbours *)

Lemma entries_insert t t' xs ys k v : entries t = xs ++ ys → entries t' = xs ++ (k, v) :: ys → sorted t →
  (∀ x, x ∈ xs.*1 → lt x k) → (∀ y, y ∈ ys.*1 → lt k y) →
  sorted t' ∧ content t' = <[k := v]> (content t) ∧ content t !! k = None.
Proof.
  unfold sorted, keys, content. intros -> -> Hs H1 H2. rewrite fmap_app in Hs.
  assert (StronglySorted lt (xs ++ (k, v) :: ys).*1) as Hs' by (rewrite fmap_app; by apply sorted_mid). split; [done|].
  split; [by apply content_mid|by eapply content_none].
Qed.

Lemma entries_delete t t' xs ys k v : entries t = xs ++ (k, v) :: ys → entries t' = xs ++ ys → sorted t →
  sorted t' ∧ content t' = delete k (content t) ∧ content t !! k = Some v.
Proof.
  unfold sorted, keys, content. intros -> -> Hs. split; [|split].
  - rewrite fmap_app in *. by apply sorted_mid in Hs as [Hs _].
  - rewrite content_mid by done. rewrite delete_insert_id; [done|by eapply content_none].
  - rewrite content_mid by done. apply lookup_insert_eq.
Qed.

Lemma entries_update t t' xs ys k v v' : entries t = xs ++ (k, v) :: ys → entries t' = xs ++ (k, v') :: ys → sorted t →
  sorted t' ∧ content t' = <[k := v']> (content t) ∧ content t !! k = Some v.
Proof.
  unfold sorted, keys, content. intros -> -> Hs.
  assert (StronglySorted lt (xs ++ (k, v') :: ys).*1) as Hs' by (rewrite fmap_app in *; done). split; [done|].
  rewrite !content_mid by done. split; [by rewrite insert_insert_eq|apply lookup_insert_eq].
Qed.

(** What the search finds *)
Lemma descend_lookup k t : sorted t → content t !! k = match (descend k t []).2 with E => None | T _ _ v _ _ _ => Some v end.
Proof.
  intros Hs. destruct (descend_around k t [] Hs (around_nil k)) as ([H1 H2]&Hk). pose proof (descend_plug k t []) as Hp. cbn in Hp.
  pose proof (f_equal entries Hp) as He. rewrite plug_entries in He. unfold content. rewrite <-He. destruct (descend k t []).2 as [|l k' v p a b].
  - apply not_elem_of_list_to_map_1. cbn. rewrite fmap_app. intros [Hx|Hx]%elem_of_app; [by apply (lt_irrefl k), H1|by apply (lt_irrefl k), H2].
  - subst k'. cbn in *. rewrite <-app_assoc, app_assoc in *. cbn. rewrite content_mid; [apply lookup_insert_eq|].
    unfold sorted, keys in Hs. rewrite <-He in Hs. cbn in Hs. exact Hs.
Qed.

(** ** Visits *)

(** The function is called for the entries in order until it says to stop. *)
Fixpoint visitAll {A} (fn : bytes → option bytes → A → bool * A) (es : list (bytes * bytes)) (a : A) : A :=
  match es with
  | [] => a
  | (k, v) :: es => let '(go, a) := fn k (Some v) a in if go then visitAll fn es a else a
  end.

(** The nodes down the left side, the lowest first; the entries that are pending then *)
Fixpoint spine (t : tree) (ts : list tree) : list tree :=
  match t with E => ts | T _ _ _ _ a _ => spine a (t :: ts) end.

Definition pendingOf (t : tree) : list (bytes * bytes) := match t with E => [] | T _ k v _ _ b => (k, v) :: entries b end.
Definition pending (ts : list tree) : list (bytes * bytes) := mjoin (pendingOf <$> ts).

Lemma spine_pending t ts : pending (spine t ts) = entries t ++ pending ts.
Proof.
  revert ts. induction t as [|l k v p a IHa b _]; intros ts; cbn [spine]; [done|]. rewrite IHa. unfold pending. rewrite fmap_cons. cbn. by rewrite <-app_assoc.
Qed.

Lemma spine_holds c t ts : holds c t → Forall (holds c) ts → Forall (holds c) (spine t ts).
Proof. revert ts. induction t as [|l k v p a IHa b _]; intros ts Ht Hts; cbn [spine]; [done|]. apply IHa; [apply Ht|by constructor]. Qed.

Lemma spine_nodes t ts : Forall (fun t => t ≠ E) ts → Forall (fun t => t ≠ E) (spine t ts).
Proof. revert ts. induction t as [|l k v p a IHa b _]; intros ts Hts; cbn [spine]; [done|]. apply IHa. by constructor. Qed.

Lemma spine_fits n t ts : (length (locs t) ≤ n)%nat → Forall (fun t => (length (locs t) ≤ n)%nat) ts → Forall (fun t => (length (locs t) ≤ n)%nat) (spine t ts).
Proof.
  revert ts. induction t as [|l k v p a IHa b _]; intros ts Ht Hts; cbn [spine]; [done|]. apply IHa; [cbn in Ht; rewrite length_app in Ht; lia|by constructor].
Qed.

Lemma pushLeft_ok m t ts s fuel : holds (cells m) t → stacked s (omap ptr ts) → (length (locs t) ≤ fuel)%nat →
  ∃ s', pushLeft fuel m s (ptr t) = Done s' ∧ stacked s' (omap ptr (spine t ts)).
Proof.
  revert ts s fuel. induction t as [|l k v p a IHa b _]; intros ts s fuel Hh Hs Hf; cbn [spine]; [exists s; by destruct fuel|].
  cbn in Hh, Hf. rewrite length_app in Hf. destruct Hh as (Hl&Ha&_). destruct fuel as [|fuel]; [lia|]. cbn [pushLeft ptr].
  destruct (stacked_push s l _ Hs) as (s1&->&Hs1). cbn [mbind run_bind]. unfold at_. rewrite Hl. cbn [of_option mbind run_bind cell left].
  apply IHa; [done|done|lia].
Qed.

Lemma visit_ok {A} m (fn : bytes → option bytes → A → bool * A) ts s (a : A) fuel : Forall (holds (cells m)) ts → Forall (fun t => t ≠ E) ts →
  Forall (fun t => (length (locs t) ≤ fuelOf m)%nat) ts → stacked s (omap ptr ts) → (length (pending ts) ≤ fuel)%nat →
  visit fuel m fn s a = Done (visitAll fn (pending ts) a).
Proof.
  revert ts s a. induction fuel as [|fuel IH]; intros ts s a Hh Hne Hloc Hs Hf.
  - destruct ts as [|t ts]; [cbn; unfold Len; by rewrite (st_depth _ _ Hs)|]. apply Forall_cons in Hne as [Ht _]. destruct t; [done|]. cbn in Hf. lia.
  - destruct ts as [|t ts]; [cbn [visit]; unfold Len; by rewrite (st_depth _ _ Hs)|]. apply Forall_cons in Hne as [Ht Hne]. destruct t as [|l k v p x y]; [done|].
    apply Forall_cons in Hh as [(Hl&_&Hy) Hh]. apply Forall_cons in Hloc as [Hly Hloc]. fold holds in *. cbn in Hs, Hly. cbn [visit]. unfold Len. rewrite (st_depth _ _ Hs), zlen_cons.
    destruct (Z.ltb_spec 0 (1 + zlen (omap ptr ts))) as [_|]; [|pose proof (zlen_nonneg (omap ptr ts)); lia].
    destruct (stacked_pop _ _ _ Hs) as (s1&->&Hs1). cbn [mbind run_bind of_option]. unfold at_. rewrite Hl. cbn [of_option mbind run_bind cell key value right].
    assert (pending (T l k v p x y :: ts) = (k, v) :: entries y ++ pending ts) as Ep by done. rewrite Ep in *. cbn [visitAll]. destruct (fn k (Some v) a) as [[] a']; [|done].
    cbn [negb]. rewrite length_app in Hly. destruct (pushLeft_ok m y ts s1 (fuelOf m) Hy Hs1) as (s2&->&Hs2); [lia|]. cbn [mbind run_bind]. rewrite <-spine_pending. apply IH.
    + by apply spine_holds.
    + by apply spine_nodes.
    + apply spine_fits; [lia|done].
    + done.
    + rewrite spine_pending. cbn in Hf. lia.
Qed.

Lemma length_entries t : length (entries t) = length (locs t).
Proof. induction t as [|l k v p a IHa b IHb]; cbn; [done|]. rewrite !length_app. cbn. lia. Qed.

Lemma forEach_ok {A} m (fn : bytes → option bytes → A → bool * A) t (a : A) : holds (cells m) t → NoDup (locs t) →
  forEachNode (ptr t) fn m a = Done (visitAll fn (entries t) a).
Proof.
  intros Hh Hn. assert (length (locs t) ≤ fuelOf m)%nat as Hf by (pose proof (locs_size _ _ Hh Hn); unfold fuelOf; lia).
  unfold forEachNode. destruct (pushLeft_ok m t [] emptyStack (fuelOf m) Hh stacked_empty Hf) as (s&->&Hs). cbn [mbind run_bind].
  rewrite (visit_ok m fn (spine t [])).
  - rewrite spine_pending. cbn. by rewrite app_nil_r.
  - by apply spine_holds.
  - by apply spine_nodes.
  - by apply spine_fits.
  - done.
  - rewrite spine_pending. cbn. rewrite app_nil_r, length_entries. done.
Qed.

End TreapTree.
