(* ===== verification/MutableTreap.v ===== *)
(** * MutableTreap: the treap that is updated in place

    Model of [database/internal/treap/mutable.go], and the theorems that it is a map
    sorted by key. *)

From Stdlib Require Import Sorted.
From S2P Require Import Prelude Treap TreapTree.

Module MutableTreap.
Import Treap TreapTree.

Record Mutable := { root : option loc; count : Z; totalSize : Z }.

Definition NewMutable : Mutable := {| root := None; count := 0; totalSize := 0 |}.
Definition Reset (t : Mutable) : Mutable := {| root := None; count := 0; totalSize := 0 |}.
Definition Len (t : Mutable) : Z := count t.
Definition Size (t : Mutable) : Z := totalSize t.

Fixpoint find (fuel : nat) (m : memory) (k : bytes) (node parent : option loc) : run (option loc * option loc) :=
  match node with
  | None => Done (None, None)
  | Some l =>
      match fuel with
      | O => NoFuel
      | S fuel =>
          n ← at_ m l;
          match Compare k (key n) with
          | Lt => find fuel m k (left n) (Some l)
          | Gt => find fuel m k (right n) (Some l)
          | Eq => Done (Some l, parent)
          end
      end
  end.

(** The node and its parent *)
Definition get (t : Mutable) (k : bytes) (m : memory) : run (option loc * option loc) := find (fuelOf m) m k (root t) None.

Definition Has (t : Mutable) (k : bytes) (m : memory) : run bool :=
  '(node, _) ← get t k m; Done (match node with Some _ => true | None => false end).

Definition Get (t : Mutable) (k : bytes) (m : memory) : run (option bytes) :=
  '(node, _) ← get t k m;
  match node with
  | Some l => n ← at_ m l; Done (value n)
  | None => Done None
  end.

Fixpoint sinkNode (fuel : nat) (root : option loc) (node : loc) (parent : option loc) (m : memory) :
    run (option loc * option loc * memory) :=
  n ← at_ m node;
  match left n, right n with
  | None, None => Done (root, parent, m)
  | _, _ =>
      match fuel with
      | O => NoFuel
      | S fuel =>
          '(child, isLeft) ← chooseChild m n;
          cn ← at_ m child;
          m ← (if isLeft : bool
               then (m ← setRight child (Some node) m; setLeft node (right cn) m)
               else (m ← setLeft child (Some node) m; setRight node (left cn) m));
          '(root, m) ← relinkGrandparent root child node parent m;
          sinkNode fuel root node (Some child) m
      end
  end.

Definition Delete (t : Mutable) (k : bytes) (m : memory) : run (Mutable * memory) :=
  '(node, parent) ← get t k m;
  match node with
  | None => Done (t, m)
  | Some l =>
      n ← at_ m l;
      match parent, left n, right n with
      | None, None, None => Done (NewMutable, m)
      | _, _, _ =>
          '(root, parent, m) ← sinkNode (fuelOf m) (root t) l parent m;
          m ← disconnect l parent m;
          n ← at_ m l;
          Done ({| root := root; count := i64 (count t - 1); totalSize := u64 (totalSize t - nodeSize n) |}, m)
      end
  end.

Definition ForEach {A} (t : Mutable) (fn : bytes → option bytes → A → bool * A) (m : memory) (a : A) : run A :=
  forEachNode (root t) fn m a.

Section runtime.
Context {RT : Runtime}.

Definition Put (t : Mutable) (k : bytes) (v : option bytes) (m : memory) : run (Mutable * memory) :=
  let v := Some (default [] v) in
  match root t with
  | None =>
      let '(p, m) := rand m in
      let '(l, m) := newTreapNode k v p m in
      n ← at_ m l;
      Done ({| root := Some l; count := 1; totalSize := nodeSize n |}, m)
  | Some _ =>
      '(parents, cr, found) ← search (fuelOf m) m k emptyStack Eq (root t);
      match found with
      | Some l =>
          n ← at_ m l;
          let size := u64 (u64 (totalSize t - valueLen (value n)) + valueLen v) in
          m ← setValue l v m;
          Done ({| root := root t; count := count t; totalSize := size |}, m)
      | None =>
          let '(p, m) := rand m in
          let '(l, m) := newTreapNode k v p m in
          n ← at_ m l;
          parent ← At parents 0;
          q ← of_option parent;
          m ← match cr with Lt => setLeft q (Some l) m | _ => setRight q (Some l) m end;
          '(root, m) ← rotate (Z.to_nat (Treap.Len parents)) (root t) parents l m;
          Done ({| root := root; count := i64 (count t + 1); totalSize := u64 (totalSize t + nodeSize n) |}, m)
      end
  end.

End runtime.

(** ** A map in memory

    The treap [t] of the memory [m] is the tree [tr]: sorted, with nodes of its own that
    are not in the pool, and with the right counts. *)

Record tracks (m : memory) (t : Mutable) (tr : tree) : Prop := {
  tk_root : root t = ptr tr;
  tk_holds : holds (cells m) tr;
  tk_nodup : NoDup (locs tr);
  tk_live : live m (locs tr);
  tk_sorted : sorted tr;
  tk_counts : counted (count t) (totalSize t) (content tr);
}.

Lemma tracks_empty m : tracks m NewMutable E.
Proof. split; [done|done|constructor|by intros x ?%elem_of_nil|constructor|by split]. Qed.

(** Trees that share no node with [tr] are still there. *)
Definition keepsOthers (tr : tree) (m m' : memory) : Prop := ∀ t0, holds (cells m) t0 → live m (locs t0) → (∀ x, x ∈ locs t0 → x ∉ locs tr) →
  holds (cells m') t0 ∧ live m' (locs t0).

Lemma fuel_enough m t : holds (cells m) t → NoDup (locs t) → (length (locs t) ≤ fuelOf m)%nat.
Proof. intros Hh Hn. pose proof (locs_size _ _ Hh Hn). unfold fuelOf. lia. Qed.

Lemma holds_live m t : holds (cells m) t → (∀ x, x ∈ locs t → x ∉ pool m) → live m (locs t).
Proof. intros Hh Hp x Hx. split; [by eapply holds_dom|by apply Hp]. Qed.

Lemma find_ok m k t path fuel : holds (cells m) t → (length (locs t) ≤ fuel)%nat →
  let d := descend k t path in
  find fuel m k (ptr t) (head (fl <$> path)) = Done (ptr d.2, match d.2 with E => None | _ => head (fl <$> d.1) end).
Proof.
  revert path fuel. induction t as [|l k' v p a IHa b IHb]; intros path fuel Hh Hf; cbn [descend]; [by destruct fuel|].
  cbn in Hh, Hf. rewrite length_app in Hf. destruct Hh as (Hl&Ha&Hb). destruct fuel as [|fuel]; [lia|]. cbn [find ptr]. unfold at_. rewrite Hl.
  cbn [of_option mbind run_bind cell key left right]. destruct (Compare k k'); [done| |].
  - apply (IHa ({| onLeft := true; fl := l; fk := k'; fv := v; fp := p; sib := b |} :: path)); [done|lia].
  - apply (IHb ({| onLeft := false; fl := l; fk := k'; fv := v; fp := p; sib := a |} :: path)); [done|lia].
Qed.

Lemma get_ok m t tr k : tracks m t tr →
  let d := descend k tr [] in get t k m = Done (ptr d.2, match d.2 with E => None | _ => head (fl <$> d.1) end).
Proof.
  intros [Hr Hh Hn _ _ _]. unfold get. rewrite Hr. apply (find_ok m k tr []); [done|by apply fuel_enough].
Qed.

(** [Has] and [Get] read the map. *)
Lemma mutable_get_refines (m : memory) (t : Mutable) (tr : tree) (k : bytes) : tracks m t tr →
  Has t k m = Done (bool_decide (is_Some (content tr !! k))) ∧ Get t k m = Done (content tr !! k).
Proof.
  intros Ht. pose proof (get_ok m t tr k Ht) as Eg. unfold Has, Get. rewrite Eg. cbn [mbind run_bind]. rewrite (descend_lookup k tr (tk_sorted _ _ _ Ht)).
  pose proof (descend_plug k tr []) as Hp. pose proof (tk_holds _ _ _ Ht) as Hh. cbn in Hp. rewrite <-Hp in Hh. apply plug_holds in Hh as [_ Hh].
  destruct (descend k tr []).2 as [|l k' v p a b]; cbn [ptr].
  - split; [|done]. by rewrite bool_decide_false by (by intros [? ?]).
  - rewrite bool_decide_true by (by eexists). split; [done|]. cbn in Hh. unfold at_. by rewrite (proj1 Hh).
Qed.

Lemma keeps_off tr c m : frames_off (locs tr) (cells m) c → (∀ x, x ∈ dom (cells m) → x ∈ dom c) → keepsOthers tr m (set_cells c m).
Proof.
  intros Ho Hd t0 H0 Hl Hx. split.
  - eapply holds_agree; [|exact H0]. intros x Hx0. apply Ho. by apply Hx.
  - intros x Hx0. destruct (Hl x Hx0). cbn. split; [by apply Hd|done].
Qed.

(** [ForEach] calls the function for every key of the map once, in
    ascending order, until it returns false; and it ends. *)
Lemma mutable_foreach_sorted {A} (m : memory) (t : Mutable) (tr : tree) (fn : bytes → option bytes → A → bool * A) (a : A) : tracks m t tr →
  ForEach t fn m a = Done (visitAll fn (entries tr) a) ∧ StronglySorted lt (entries tr).*1 ∧ list_to_map (entries tr) = content tr.
Proof. intros [Hr Hh Hn _ Hs _]. unfold ForEach. rewrite Hr. split; [by apply forEach_ok|]. by split. Qed.

(** ** Put *)

Section put.
Context {RT : Runtime}.

Lemma put_update m t tr k v path l v0 p a b : tracks m t tr → descend k tr [] = (path, T l k v0 p a b) → plug path (T l k v0 p a b) = tr →
  let tr' := plug path (T l k v p a b) in
  ∃ m', setValue l (Some v) m = Done m' ∧
    tracks m' {| root := root t; count := count t; totalSize := u64 (u64 (totalSize t - zlen v0) + zlen v) |} tr' ∧
    pool m' = pool m ∧ content tr' = <[k := v]> (content tr) ∧ (minHeap tr → minHeap tr') ∧ keepsOthers tr m m'.
Proof.
  intros [Hr Hh Hn Hlv Hs Hc] Hd Hp tr'. subst tr. pose proof Hh as (Hhp&Hl&Ha&Hb)%plug_holds. fold holds in *. cbn in Hhp.
  exists (write l (cell k v p (ptr a) (ptr b)) m). split; [unfold setValue; by rewrite (update_ok _ _ _ _ Hl)|].
  assert (locs tr' ≡ₚ locs (plug path (T l k v0 p a b))) as Hlocs by (unfold tr'; rewrite !plug_locs; done).
  assert (NoDup (locsPath path ++ l :: locs a ++ locs b)) as Hn'.
  { rewrite plug_locs in Hn. exact Hn. }
  apply NoDup_app in Hn' as (_&Hn1&[Hn2 _]%NoDup_cons).
  assert (holds (<[l := cell k v p (ptr a) (ptr b)]> (cells m)) tr') as Hh'.
  { apply plug_holds. cbn. rewrite lookup_insert_eq. split; [eapply path_agree; [|exact Hhp]|split; [done|split; eapply holds_agree; [|exact Ha| |exact Hb]]];
      intros x Hx; rewrite lookup_insert_ne; try done; intros <-; [by apply (Hn1 l Hx); left|apply Hn2; set_solver|apply Hn2; set_solver]. }
  destruct (entries_update (plug path (T l k v0 p a b)) tr' (before path ++ entries a) (entries b ++ after path) k v0 v) as (Hs'&Hct&Hlk);
    [unfold tr'; rewrite plug_entries; cbn; by rewrite <-!app_assoc..|done|].
  split; [|split; [done|split; [done|split]]].
  - split; cbn; [by rewrite Hr; unfold tr'; rewrite !plug_root|done|by rewrite Hlocs| |done|].
    + intros x Hx. rewrite Hlocs in Hx. destruct (Hlv x Hx). cbn. split; [rewrite dom_insert; set_solver|done].
    + rewrite Hct. by apply counted_update.
  - unfold tr'. rewrite !plug_minHeap. cbn. destruct path as [|f path]; [done|]. done.
  - apply keeps_off; [|intros x Hx; rewrite dom_insert; set_solver]. intros x Hx. rewrite lookup_insert_ne; [done|]. intros <-. apply Hx. rewrite plug_locs. set_solver.
Qed.

Lemma locs_path_length path : (length path ≤ length (locsPath path))%nat.
Proof. induction path as [|f path IH]; cbn; [done|]. rewrite length_app. lia. Qed.

(** The part of [Put] that adds a node *)
Lemma put_new m t tr k v path s : NoDup (pool m) → tracks m t tr → plug path E = tr → path ≠ [] → around k path → stacked s (fl <$> path) →
  ∃ t' m' tr', (let '(p, m) := rand m in
      let '(l, m) := newTreapNode k (Some v) p m in
      n ← at_ m l;
      parent ← At s 0;
      q ← of_option parent;
      m ← match lastCompare path with Lt => setLeft q (Some l) m | _ => setRight q (Some l) m end;
      '(root, m) ← rotate (Z.to_nat (Treap.Len s)) (root t) s l m;
      Done ({| root := root; count := i64 (count t + 1); totalSize := u64 (totalSize t + nodeSize n) |}, m)) = Done (t', m') ∧
    NoDup (pool m') ∧ tracks m' t' tr' ∧ content tr' = <[k := v]> (content tr) ∧ (minHeap tr → minHeap tr') ∧ keepsOthers tr m m'.
Proof.
  intros Hpool [Hr Hh Hn Hlv Hs Hc] Hp Hne [Hb Ha] Hst. subst tr. cbn [rand]. set (m0 := {| cells := cells m; pool := pool m; draws := S (draws m) |}).
  set (p := randInt (draws m)). destruct (new_ok k v p m0 Hpool) as (l&m1&->&Hal). pose proof Hal as (Hc1&Hp1&Hl1&Hsub&Hfr).
  assert (l ∉ locs (plug path E)) as Hl by (by apply Hfr). assert (cells m1 !! l = Some (cell k v p None None)) as Hcl by (rewrite Hc1; apply lookup_insert_eq).
  unfold at_. rewrite Hcl. cbn [of_option mbind run_bind].
  destruct (attach_ok path l k v p m1 s (root t) (Z.to_nat (Treap.Len s))) as (c'&E2&Hh2&Ho1); try done.
  { by eapply allocated_holds. }
  { unfold Treap.Len. rewrite (st_depth _ _ Hst). unfold zlen. rewrite Nat2Z.id, length_fmap. done. }
  assert (frames_off (l :: locs (plug path E)) (cells m1) c') as Ho2.
  { eapply off_weaken; [|exact Ho1]. intros x [->|Hx%path_locs]%elem_of_cons; [left|right]. rewrite plug_locs. set_solver. }
  destruct (At s 0) as [parent| |]; cbn [mbind run_bind] in E2 |- *; [|done..].
  destruct (of_option parent) as [q| |]; cbn [mbind run_bind] in E2 |- *; [|done..].
  match goal with |- context [mbind _ ?M] => match type of M with run memory => set (M1 := M) in * end end.
  destruct M1 as [m2| |]; cbn [mbind run_bind] in E2 |- *; [|done..]. rewrite E2. cbn [mbind run_bind].
  set (tr' := rise path l k v p E E) in *. exists {| root := ptr tr'; count := i64 (count t + 1); totalSize := u64 (totalSize t + nodeSize (cell k v p None None)) |},
    (set_cells c' m1), tr'. split; [done|]. split; [done|].
  assert (locs tr' ≡ₚ l :: locs (plug path E)) as Hlocs.
  { unfold tr'. rewrite rise_locs, !plug_locs. cbn. rewrite app_nil_r. solve_Permutation. }
  destruct (entries_insert (plug path E) tr' (before path) (after path) k v) as (Hs'&Hct&Hlk); [by rewrite plug_entries|by unfold tr'; rewrite rise_entries|done..|].
  split; [|split; [done|split]].
  - split; cbn; [done|done|rewrite Hlocs; by constructor| |done|rewrite Hct; by apply counted_insert].
    apply holds_live; [done|]. cbn. intros x Hx. rewrite Hlocs in Hx. apply elem_of_cons in Hx as [->|Hx]; [done|]. intros Hx'%Hsub. by apply (Hlv x Hx).
  - intros [Hm _]%plug_minHeap. apply rise_minHeap; [done|done..| |]; by destruct path.
  - intros t0 H0 Hl0 Hd0. split.
    + eapply holds_agree; [|exact (allocated_holds _ _ _ _ _ Hal H0 Hl0)]. intros x Hx. apply Ho2. intros [->|Hx']%elem_of_cons; [by apply (Hfr _ Hl0)|by apply (Hd0 x)].
    + intros x Hx. destruct (allocated_live _ _ _ _ _ Hal Hl0 x Hx) as [H1 H2]. split; [|done]. cbn. apply elem_of_dom. rewrite Ho2; [by apply elem_of_dom|].
      intros [->|Hx']%elem_of_cons; [by apply (Hfr _ Hl0)|by apply (Hd0 x)].
Qed.

(** C21 (refinement).  [Put] on the mutable treap is insertion into a map: it returns, the tree
    is sorted and well formed again, the count and the size are those of the new map,
    the heap order of the priorities is kept, and trees elsewhere are not touched. *)
Theorem mutable_put_refines (m : memory) (t : Mutable) (tr : tree) (k : bytes) (v : option bytes) : NoDup (pool m) → tracks m t tr →
  ∃ t' m' tr', Put t k v m = Done (t', m') ∧ NoDup (pool m') ∧ tracks m' t' tr' ∧ content tr' = <[k := default [] v]> (content tr) ∧
    (minHeap tr → minHeap tr') ∧ keepsOthers tr m m'.
Proof.
  intros Hpool Ht. pose proof Ht as [Hr Hh Hn Hlv Hs Hc]. unfold Put. generalize (default [] v). clear v. intros v. destruct (root t) as [l0|] eqn:El; symmetry in Hr.
  2: { destruct tr; [|done]. cbn [rand]. set (m0 := {| cells := cells m; pool := pool m; draws := S (draws m) |}).
    set (p := randInt (draws m)). destruct (new_ok k v p m0 Hpool) as (l&m1&->&Hal). pose proof Hal as (Hc1&Hp1&Hl1&Hsub&Hfr).
    assert (cells m1 !! l = Some (cell k v p None None)) as Hcl by (rewrite Hc1; apply lookup_insert_eq).
    unfold at_. rewrite Hcl. cbn [of_option mbind run_bind]. eexists _, _, (T l k v p E E). split; [done|]. split; [done|].
    assert (content (T l k v p E E) = <[k := v]> (content E)) as Hct by done. split; [|split; [done|split; [done|]]].
    + split; cbn; [done|done|constructor; [apply not_elem_of_nil|constructor]| |repeat constructor|].
      * intros x ->%list_elem_of_singleton. split; [by rewrite elem_of_dom, Hcl|done].
      * change (counted 1 (nodeSize (cell k v p None None)) (<[k := v]> ∅)). pose proof (counted_insert 0 0 ∅ k v ltac:(by split) ltac:(done)) as [H1 H2].
        split; [exact H1|]. rewrite <-H2. unfold nodeSize. cbn [key value cell valueLen]. by rewrite (uwrap_add_r 64 0), Z.add_0_l.
    + intros t0 H0 Hl0 _. split; [by eapply allocated_holds|by eapply allocated_live]. }
  destruct (search_ok m k tr [] emptyStack (fuelOf m) Hh stacked_empty (fuel_enough _ _ Hh Hn)) as (s&Es&Hst). cbn [lastCompare] in Es. rewrite Hr in Es.
  rewrite Es. cbn [mbind run_bind]. destruct (descend_around k tr [] Hs (around_nil k)) as [Har Hk]. pose proof (descend_plug k tr []) as Hp. cbn in Hp.
  destruct (descend k tr []) as [path d] eqn:Ed. cbn [fst snd] in *. destruct d as [|l k' v1 p a b]; cbn [ptr].
  + rewrite <-El. apply put_new; try done. intros ->. cbn in Hp. by rewrite <-Hp in Hr.
  + subst k'. destruct (put_update m t tr k v path l v1 p a b Ht Ed Hp) as (m'&Ev&Ht'&Hpl&Hct&Hmh&Hko).
    rewrite <-Hp in Hh. apply plug_holds in Hh as (_&Hl&_). unfold at_. rewrite Hl. cbn [of_option mbind run_bind cell value valueLen]. rewrite Ev. cbn [mbind run_bind].
    eexists _, m', _. split; [done|]. rewrite Hpl. split; [done|]. split; [|done]. by rewrite El in Ht'.
Qed.

End put.

(** ** Delete *)

(** What a deletion loop has done when the node became a leaf *)
Definition sunk (l : loc) (k v : bytes) (p : Z) (path : list frame) (a b : tree) (c : gmap loc treapNode) (path' : list frame) (c' : gmap loc treapNode) : Prop :=
  plug path' E = plug path (merge a b) ∧ holds c' (plug path' (T l k v p E E)) ∧
  locs (plug path' (T l k v p E E)) ≡ₚ locs (plug path (T l k v p a b)) ∧
  frames_off (locs (plug path (T l k v p a b))) c c' ∧ (path' = [] → path = [] ∧ a = E ∧ b = E).

(** The frames of a node and of the child that took its place *)
Definition delFrame (left : bool) (l : loc) (k v : bytes) (p : Z) (other : tree) : frame :=
  {| onLeft := left; fl := l; fk := k; fv := v; fp := p; sib := other |}.

Lemma sink_step left l k v p other path lc kc vc pc ca cb m r fuel :
  let f := delFrame left l k v p other in
  let t := plug (f :: path) (T lc kc vc pc ca cb) in
  let a' := if left then cb else other in
  let b' := if left then other else ca in
  let path1 := delFrame (negb left) lc kc vc pc (if left then ca else cb) :: path in
  holds (cells m) t → NoDup (locs t) → r = ptr t →
  (∀ m1, holds (cells m1) (plug path1 (T l k v p a' b')) → NoDup (locs (plug path1 (T l k v p a' b'))) →
    ∃ path' c', sinkNode fuel (ptr (plug path1 (T l k v p a' b'))) l (Some lc) m1 =
      Done (ptr (plug path' (T l k v p E E)), head (fl <$> path'), set_cells c' m1) ∧ sunk l k v p path1 a' b' (cells m1) path' c') →
  ∃ path' c', (cn ← at_ m lc;
    m ← (if left : bool
         then (m ← setRight lc (Some l) m; setLeft l (right cn) m)
         else (m ← setLeft lc (Some l) m; setRight l (Treap.left cn) m));
    '(root, m) ← relinkGrandparent r lc l (head (fl <$> path)) m;
    sinkNode fuel root l (Some lc) m) = Done (ptr (plug path' (T l k v p E E)), head (fl <$> path'), set_cells c' m) ∧
    plug path' E = plug path1 (merge a' b') ∧ holds c' (plug path' (T l k v p E E)) ∧ locs (plug path' (T l k v p E E)) ≡ₚ locs t ∧
    frames_off (locs t) (cells m) c' ∧ path' ≠ [].
Proof.
  intros f t a' b' path1 Hh Hn Hr IH. destruct (rotation_ok f path lc kc vc pc ca cb m r Hh Hn Hr) as (c1&E1&Hh1&Ho0).
  assert (frames_off (locs t) (cells m) c1) as Ho1.
  { eapply off_weaken; [|exact Ho0]. unfold t. intros x Hx. rewrite plug_locs. apply elem_of_cons in Hx as [->|Hx%path_locs]; cbn in *; set_solver. }
  pose proof Hh as (_&Hl&_)%plug_holds. unfold at_. rewrite Hl. cbn [of_option mbind run_bind cell right Treap.left onLeft fl f delFrame] in E1 |- *.
  match goal with |- context [mbind _ ?M] => match type of M with run memory => set (M1 := M) in * end end.
  destruct M1 as [m2| |]; cbn [mbind run_bind] in E1 |- *; [|done..]. rewrite E1. cbn [mbind run_bind].
  assert (plug path (if left then T lc kc vc pc ca (T l k v p cb other) else T lc kc vc pc (T l k v p other ca) cb) = plug path1 (T l k v p a' b')) as Ep.
  { unfold path1, a', b'. by destruct left. }
  assert (locs (plug path1 (T l k v p a' b')) ≡ₚ locs t) as Hlocs.
  { unfold path1, a', b', t, f. rewrite !plug_locs. cbn. destruct left; cbn; solve_Permutation. }
  cbn [fl fk fv fp sib f delFrame onLeft] in *. rewrite Ep in *. destruct (IH (set_cells c1 m)) as (path'&c'&E2&H1&H2&H3&H4&H5); [done|by rewrite Hlocs|].
  exists path', c'. split; [exact E2|]. split; [done|]. split; [done|]. split; [by rewrite H3|]. split.
  - intros x Hx. rewrite H4 by (by rewrite Hlocs). by apply Ho1.
  - intros ->. by destruct (H5 eq_refl).
Qed.

Lemma sink_ok n a b path l k v p m r fuel : (length (locs a) + length (locs b) ≤ n)%nat → (n ≤ fuel)%nat →
  holds (cells m) (plug path (T l k v p a b)) → NoDup (locs (plug path (T l k v p a b))) → r = ptr (plug path (T l k v p a b)) →
  ∃ path' c', sinkNode fuel r l (head (fl <$> path)) m = Done (ptr (plug path' (T l k v p E E)), head (fl <$> path'), set_cells c' m) ∧
    sunk l k v p path a b (cells m) path' c'.
Proof.
  revert a b path m r fuel. induction n as [|n IH]; intros a b path m r fuel Hlen Hf Hh Hn Hr; pose proof Hh as (_&Hl&Ha&Hb)%plug_holds; fold holds in *.
  { destruct a; [|cbn in Hlen; lia]. destruct b; [|cbn in Hlen; lia]. exists path, (cells m). unfold sunk. rewrite set_cells_id, Hr.
    split; [|done]. destruct fuel; cbn [sinkNode]; unfold at_; rewrite Hl; done. }
  destruct fuel as [|fuel]; [lia|]. cbn [sinkNode]. change (at_ m l) with (of_option (cells m !! l)). rewrite Hl. cbn [of_option mbind run_bind cell left right].
  assert (∀ left a' b' path1 m1, (length (locs a') + length (locs b') ≤ n)%nat → holds (cells m1) (plug path1 (T l k v p a' b')) →
    NoDup (locs (plug path1 (T l k v p a' b'))) → head (fl <$> path1) = Some left →
    ∃ path' c', sinkNode fuel (ptr (plug path1 (T l k v p a' b'))) l (Some left) m1 =
      Done (ptr (plug path' (T l k v p E E)), head (fl <$> path'), set_cells c' m1) ∧ sunk l k v p path1 a' b' (cells m1) path' c') as IH'.
  { intros q a' b' path1 m1 H1 H2 H3 H4. destruct (IH a' b' path1 m1 (ptr (plug path1 (T l k v p a' b'))) fuel) as (path'&c'&E'&H'); try done; [lia|].
    exists path', c'. split; [by rewrite <-H4|done]. }
  assert (∀ la ka va pa aa ab, a = T la ka va pa aa ab → chooseChild m (cell k v p (ptr a) (ptr b)) = Done (la, true) → merge a b = T la ka va pa aa (merge ab b) →
    ∃ path' c', ('(child, isLeft) ← chooseChild m (cell k v p (ptr a) (ptr b));
      cn ← at_ m child;
      m ← (if isLeft : bool then (m ← setRight child (Some l) m; setLeft l (right cn) m) else (m ← setLeft child (Some l) m; setRight l (left cn) m));
      '(root, m) ← relinkGrandparent r child l (head (fl <$> path)) m;
      sinkNode fuel root l (Some child) m) = Done (ptr (plug path' (T l k v p E E)), head (fl <$> path'), set_cells c' m) ∧
    sunk l k v p path a b (cells m) path' c') as HL.
  { intros la ka va pa aa ab -> -> Hm. cbn [mbind run_bind].
    destruct (sink_step true l k v p b path la ka va pa aa ab m r fuel Hh Hn Hr) as (path'&c'&E'&H1&H2&H3&H4&H5).
    { intros m1 G1 G2. apply IH'; try done. cbn in Hlen. rewrite length_app in Hlen. lia. }
    exists path', c'. split; [exact E'|]. split; [rewrite H1, Hm; done|]. split_and!; try done. }
  assert (∀ lb kb vb pb ba bb, b = T lb kb vb pb ba bb → chooseChild m (cell k v p (ptr a) (ptr b)) = Done (lb, false) → merge a b = T lb kb vb pb (merge a ba) bb →
    ∃ path' c', ('(child, isLeft) ← chooseChild m (cell k v p (ptr a) (ptr b));
      cn ← at_ m child;
      m ← (if isLeft : bool then (m ← setRight child (Some l) m; setLeft l (right cn) m) else (m ← setLeft child (Some l) m; setRight l (left cn) m));
      '(root, m) ← relinkGrandparent r child l (head (fl <$> path)) m;
      sinkNode fuel root l (Some child) m) = Done (ptr (plug path' (T l k v p E E)), head (fl <$> path'), set_cells c' m) ∧
    sunk l k v p path a b (cells m) path' c') as HR.
  { intros lb kb vb pb ba bb -> -> Hm. cbn [mbind run_bind].
    destruct (sink_step false l k v p a path lb kb vb pb ba bb m r fuel Hh Hn Hr) as (path'&c'&E'&H1&H2&H3&H4&H5).
    { intros m1 G1 G2. apply IH'; try done. cbn in Hlen. rewrite length_app in Hlen. lia. }
    exists path', c'. split; [exact E'|]. split; [rewrite H1, Hm; done|]. split_and!; try done. }
  destruct a as [|la ka va pa aa ab], b as [|lb kb vb pb ba bb]; cbn [ptr].
  - exists path, (cells m). unfold sunk. rewrite set_cells_id, Hr. done.
  - by apply (HR lb kb vb pb ba bb).
  - by apply (HL la ka va pa aa ab).
  - assert (chooseChild m (cell k v p (Some la) (Some lb)) = Done (if pb <=? pa then (la, true) else (lb, false))) as Ec.
    { unfold chooseChild, at_. cbn. cbn in Ha, Hb. by rewrite (proj1 Ha), (proj1 Hb). }
    destruct (pb <=? pa) eqn:Ep; [apply (HL la ka va pa aa ab)|apply (HR lb kb vb pb ba bb)]; try done; cbn [merge]; by rewrite Ep.
Qed.

(** The tree after the deletion of a key *)
Definition deleteRef (k : bytes) (tr : tree) : tree :=
  match descend k tr [] with
  | (path, T _ _ _ _ a b) => plug path (merge a b)
  | (_, E) => tr
  end.

Lemma Delete_tree (m : memory) (t : Mutable) (tr : tree) (k : bytes) : tracks m t tr →
  ∃ t' m', Delete t k m = Done (t', m') ∧ pool m' = pool m ∧ tracks m' t' (deleteRef k tr) ∧ content (deleteRef k tr) = delete k (content tr) ∧ keepsOthers tr m m'.
Proof.
  intros Ht. pose proof Ht as [Hr Hh Hn Hlv Hs Hc]. unfold Delete, deleteRef. rewrite (get_ok m t tr k Ht). cbn [mbind run_bind].
  pose proof (descend_lookup k tr Hs) as Hlk. destruct (descend_around k tr [] Hs (around_nil k)) as [_ Hk]. pose proof (descend_plug k tr []) as Hp. cbn in Hp.
  destruct (descend k tr []) as [path d]. cbn [fst snd] in *. destruct d as [|l k' v p a b]; cbn [ptr].
  { exists t, m. split; [done|]. split; [done|]. split; [done|]. split; [by rewrite delete_id|]. by intros t0. }
  subst k'. rewrite <-Hp in Hh, Hn. pose proof Hh as (_&Hl&_&_)%plug_holds. change (at_ m l) with (of_option (cells m !! l)). rewrite Hl. cbn [of_option mbind run_bind cell left right].
  assert (path = [] ∧ a = E ∧ b = E ∨ ¬ (path = [] ∧ a = E ∧ b = E)) as [(->&->&->)|Hne].
  { destruct path; [|right; naive_solver]. destruct a; [|right; naive_solver]. destruct b; [by left|right; naive_solver]. }
  { cbn. exists NewMutable, m. split; [done|]. split; [done|]. cbn in Hp. split; [|split; [|by intros t0]].
    - apply tracks_empty.
    - rewrite <-Hp. unfold content. cbn. by rewrite insert_empty, delete_singleton_eq. }
  destruct (sink_ok (length (locs a) + length (locs b)) a b path l k v p m (root t) (fuelOf m)) as (path'&c1&E1&H1&H2&H3&H4&H5); [done| |done|done|by rewrite Hp|].
  { pose proof (fuel_enough _ _ Hh Hn) as Hf. rewrite plug_locs in Hf. cbn in Hf. rewrite !length_app in Hf. cbn in Hf. rewrite length_app in Hf. lia. }
  destruct path' as [|f path']; [by destruct Hne; apply H5|].
  assert (NoDup (locs (plug (f :: path') (T l k v p E E)))) as Hn1 by (by rewrite H3).
  destruct (disconnect_ok f path' l k v p (set_cells c1 m) H2 Hn1) as (c2&E2&Hh2&Ho2).
  assert (c2 !! l = Some (cell k v p None None)) as Hl2.
  { rewrite plug_locs in Hn1. cbn in Hn1. apply NoDup_cons in Hn1 as [Hx _]. rewrite Ho2 by set_solver. by apply plug_holds in H2 as (_&?&_). }
  set (tr' := plug path (merge a b)).
  assert (holds c2 tr') as Hh3 by (unfold tr'; by rewrite <-H1).
  assert (locs tr' ++ [l] ≡ₚ locs tr) as Hlocs.
  { unfold tr'. rewrite <-H1, <-Hp, <-H3, !plug_locs. cbn. by rewrite app_nil_r. }
  destruct (entries_delete tr tr' (before path ++ entries a) (entries b ++ after path) k v) as (Hs'&Hct&Hlk');
    [rewrite <-Hp, plug_entries; cbn; by rewrite <-!app_assoc|unfold tr'; rewrite plug_entries, merge_entries; by rewrite <-!app_assoc|done|].
  set (t' := {| root := ptr tr'; count := i64 (count t - 1); totalSize := u64 (totalSize t - nodeSize (cell k v p None None)) |}).
  assert (frames_off (locs tr) (cells m) c2) as Hoff.
  { intros x Hx. rewrite Ho2; [cbn; apply H4; by rewrite Hp|]. intros ->%list_elem_of_singleton. apply Hx. rewrite <-Hp, <-H3, plug_locs. cbn. set_solver. }
  exists t', (set_cells c2 m). fold tr'. split; [|split; [done|split; [|split; [done|]]]].
  - assert (('(root, parent, m) ← sinkNode (fuelOf m) (root t) l (head (fl <$> path)) m; m ← disconnect l parent m; n ← at_ m l;
      Done ({| root := root; count := i64 (count t - 1); totalSize := u64 (totalSize t - nodeSize n) |}, m)) = Done (t', set_cells c2 m)) as Er.
    { rewrite E1. cbn [mbind run_bind]. rewrite fmap_cons. cbn [head]. rewrite E2. cbn [mbind run_bind]. unfold at_. cbn [cells set_cells]. rewrite Hl2. cbn [of_option mbind run_bind].
      unfold t', tr'. rewrite <-H1, !plug_root. unfold rootOf. rewrite !last_cons. by destruct (last path'). }
    destruct (head (fl <$> path)) as [q|] eqn:Eq; [exact Er|]. destruct a as [|la]; [|exact Er]. destruct b as [|lb]; [|exact Er].
    destruct Hne. by destruct path.
  - assert (NoDup (locs tr' ++ [l])) as Hnn by (rewrite Hlocs, <-Hp; done). apply NoDup_app in Hnn as (Hnn&_&_).
    split; cbn; [done|done|done| |done|rewrite Hct; by apply counted_delete].
    apply holds_live; [done|]. intros x Hx. cbn. apply Hlv. rewrite <-Hlocs. set_solver.
  - apply keeps_off; [done|]. intros x Hx. destruct (decide (x ∈ locs tr)) as [Hx'|Hx']; [|by rewrite elem_of_dom, Hoff, <-elem_of_dom].
    rewrite <-Hlocs in Hx'. apply elem_of_app in Hx' as [Hx'| ->%list_elem_of_singleton]; [by eapply holds_dom|]. by rewrite elem_of_dom, Hl2.
Qed.

(** C22 (refinement).  [Delete] on the mutable treap is deletion from a map, whether the key is
    there or not: it returns, the tree is sorted and well formed again, the count and
    the size are those of the new map, and trees elsewhere are not touched. *)
Theorem mutable_delete_refines (m : memory) (t : Mutable) (tr : tree) (k : bytes) : tracks m t tr →
  ∃ t' m' tr', Delete t k m = Done (t', m') ∧ pool m' = pool m ∧ tracks m' t' tr' ∧ content tr' = delete k (content tr) ∧ keepsOthers tr m m'.
Proof. intros (t'&m'&?)%(fun H => Delete_tree m t tr k H). by exists t', m', (deleteRef k tr). Qed.

(** C31 (invariant).  What a deletion does to the heap order of the priorities, which [Put] keeps with
    the least priority on top.  When the deleted node had at most one child, the tree is
    in heap order again.  When it had two children and their priorities differ, it is
    not: the loop of [Delete] rotates the child with the greater priority up. *)
Theorem delete_heap_order (m : memory) (t : Mutable) (tr : tree) (k : bytes) (path : list frame) (l : loc) (k' v : bytes) (p : Z) (a b : tree) :
  tracks m t tr → minHeap tr → descend k tr [] = (path, T l k' v p a b) →
  ∃ t' m' tr', Delete t k m = Done (t', m') ∧ tracks m' t' tr' ∧
    (a = E ∨ b = E → minHeap tr') ∧
    (∀ pa pb, rootPriority a = Some pa → rootPriority b = Some pb → pa ≠ pb → ¬ minHeap tr').
Proof.
  intros Ht Hm Hd. destruct (Delete_tree m t tr k Ht) as (t'&m'&E1&_&Ht'&_). exists t', m', (deleteRef k tr). split; [done|]. split; [done|].
  pose proof (descend_plug k tr []) as Hp. unfold deleteRef. rewrite Hd in Hp |- *. cbn in Hp. rewrite <-Hp in Hm. apply plug_minHeap in Hm as (H1&H2&H3&H4). split.
  - intros Hab. assert (∃ c, merge a b = c ∧ heaped p c) as (c&Ec&Hcp).
    { destruct Hab as [-> | ->]; rewrite ?merge_E_l, ?merge_E_r; eauto. }
    rewrite Ec. apply plug_minHeap. split; [done|]. split; [|destruct c; cbn in Hcp |- *; tauto].
    destruct path as [|f path]; [done|]. cbn [belowPath heaped] in H2 |- *. eapply heaped_mono; [|exact Hcp]. tauto.
  - intros pa pb Ea Eb Hne (_&_&Hx)%plug_minHeap. exact (merge_breaks _ _ _ _ Ea Eb Hne Hx).
Qed.

End MutableTreap.
