(* ===== verification/ImmutableTreap.v ===== *)
(** * ImmutableTreap: the treap with snapshots

    Model of [database/internal/treap/immutable.go].  An update returns a new version
    that shares nodes with the old ones; [Put] gives nodes of versions that nobody saw
    back to the pool.  The theorems say that every version is a map sorted by key, and
    that updates leave all older versions alone. *)

From Stdlib Require Import Sorted.
From S2P Require Import Prelude Treap TreapTree.

Module ImmutableTreap.
Import Treap TreapTree.

Record Immutable := { root : option loc; count : Z; totalSize : Z }.

Definition newImmutable (r : option loc) (c s : Z) : Immutable := {| root := r; count := c; totalSize := s |}.
Definition NewImmutable : Immutable := {| root := None; count := 0; totalSize := 0 |}.
Definition Len (t : Immutable) : Z := count t.
Definition Size (t : Immutable) : Z := totalSize t.

Record KVPair := { Key : bytes; Value : option bytes }.

Fixpoint find (fuel : nat) (m : memory) (k : bytes) (node : option loc) : run (option loc) :=
  match node with
  | None => Done None
  | Some l =>
      match fuel with
      | O => NoFuel
      | S fuel =>
          n ← at_ m l;
          match Compare k (key n) with
          | Lt => find fuel m k (left n)
          | Gt => find fuel m k (right n)
          | Eq => Done (Some l)
          end
      end
  end.

Definition get (t : Immutable) (k : bytes) (m : memory) : run (option loc) := find (fuelOf m) m k (root t).

Definition Has (t : Immutable) (k : bytes) (m : memory) : run bool :=
  node ← get t k m; Done (match node with Some _ => true | None => false end).

Definition Get (t : Immutable) (k : bytes) (m : memory) : run (option bytes) :=
  node ← get t k m;
  match node with
  | Some l => n ← at_ m l; Done (value n)
  | None => Done None
  end.

Definition ForEach {A} (t : Immutable) (fn : bytes → option bytes → A → bool * A) (m : memory) (a : A) : run A :=
  forEachNode (root t) fn m a.

(** The nodes that a call of [put] created, as far as they fit *)
Record created := { nodes : list (option loc); next : Z }.

Definition noneCreated : created := {| nodes := replicate (Z.to_nat staticDepth) None; next := 0 |}.

Definition record (r : created) (l : loc) : run created :=
  if next r <? staticDepth
  then (ns ← store (nodes r) (next r) (Some l); Done {| nodes := ns; next := next r + 1 |})
  else Done r.

(** The copy of a node takes its place below the copy of its parent. *)
Definition relinkCopy (old copy : loc) (parent : option loc) (m : memory) : run memory :=
  match parent with
  | None => Done m
  | Some q =>
      qn ← at_ m q;
      if bool_decide (left qn = Some old) then setLeft q (Some copy) m else setRight q (Some copy) m
  end.

(** Nodes that [Put] created one update before and that the new version does not use go
    back to the pool. *)
Fixpoint recycleUnused (t : Immutable) (prev : list (option loc)) (m : memory) : run memory :=
  match prev with
  | [] | None :: _ => Done m
  | Some l :: prev =>
      n ← at_ m l;
      got ← get t (key n) m;
      recycleUnused t prev (if bool_decide (got = Some l) then m else recycle l m)
  end.

Section runtime.
Context {RT : Runtime}.

Definition cloneTreapNode (n : treapNode) (m : memory) : loc * memory :=
  let '(l, m) := take m in (l, write l n m).

(** The search with copies: the parents, the last comparison, the copy of the node with
    the key and that node, what was created, and the memory *)
Fixpoint clonePath (fuel : nat) (m : memory) (k : bytes) (parents : parentStack) (cr : comparison) (rec : created) (node : option loc) :
    run (parentStack * comparison * option (loc * loc) * created * memory) :=
  match node with
  | None => Done (parents, cr, None, rec, m)
  | Some l =>
      match fuel with
      | O => NoFuel
      | S fuel =>
          n ← at_ m l;
          let '(copy, m) := cloneTreapNode n m in
          rec ← record rec copy;
          oldParent ← At parents 0;
          m ← relinkCopy l copy oldParent m;
          parents ← Push parents copy;
          match Compare k (key n) with
          | Lt => clonePath fuel m k parents Lt rec (left n)
          | Gt => clonePath fuel m k parents Gt rec (right n)
          | Eq => Done (parents, Eq, Some (copy, l), rec, m)
          end
      end
  end.

Definition put (t : Immutable) (k : bytes) (v : option bytes) (m : memory) : run (Immutable * list (option loc) * memory) :=
  let v := Some (default [] v) in
  match root t with
  | None =>
      let '(p, m) := rand m in
      let '(l, m) := newTreapNode k v p m in
      rec ← record noneCreated l;
      n ← at_ m l;
      Done (newImmutable (Some l) 1 (nodeSize n), nodes rec, m)
  | Some _ =>
      '(parents, cr, found, rec, m) ← clonePath (fuelOf m) m k emptyStack Eq noneCreated (root t);
      match found with
      | Some (copy, l) =>
          m ← setValue copy v m;
          newRoot ← At parents (Treap.Len parents - 1);
          n ← at_ m l;
          Done (newImmutable newRoot (count t) (u64 (u64 (totalSize t - valueLen (value n)) + valueLen v)), nodes rec, m)
      | None =>
          let '(p, m) := rand m in
          let '(l, m) := newTreapNode k v p m in
          rec ← record rec l;
          n ← at_ m l;
          parent ← At parents 0;
          q ← of_option parent;
          m ← match cr with Lt => setLeft q (Some l) m | _ => setRight q (Some l) m end;
          newRoot ← At parents (Treap.Len parents - 1);
          '(newRoot, m) ← rotate (Z.to_nat (Treap.Len parents)) newRoot parents l m;
          Done (newImmutable newRoot (i64 (count t + 1)) (u64 (totalSize t + nodeSize n)), nodes rec, m)
      end
  end.

Fixpoint putBatch (t : Immutable) (prev : list (option loc)) (kvPairs : list KVPair) (m : memory) : run (Immutable * memory) :=
  match kvPairs with
  | [] => Done (t, m)
  | kv :: kvPairs =>
      '(newTreap, newTreapNodes, m) ← put t (Key kv) (Value kv) m;
      m ← recycleUnused newTreap prev m;
      putBatch newTreap newTreapNodes kvPairs m
  end.

Definition Put (t : Immutable) (kvPairs : list KVPair) (m : memory) : run (Immutable * memory) :=
  putBatch t (replicate (Z.to_nat staticDepth) None) kvPairs m.

(** Copies of the parents, from the root down *)
Fixpoint cloneParents (i : nat) (parents newParents : parentStack) (m : memory) : run (parentStack * memory) :=
  match i with
  | O => Done (newParents, m)
  | S i =>
      node ← At parents (Z.of_nat i);
      l ← of_option node;
      n ← at_ m l;
      let '(copy, m) := cloneTreapNode n m in
      oldParent ← At newParents 0;
      m ← relinkCopy l copy oldParent m;
      newParents ← Push newParents copy;
      cloneParents i parents newParents m
  end.

Fixpoint sinkCopy (fuel : nat) (newRoot : option loc) (node : loc) (parent : option loc) (m : memory) :
    run (option loc * option loc * memory) :=
  n ← at_ m node;
  match left n, right n with
  | None, None => Done (newRoot, parent, m)
  | _, _ =>
      match fuel with
      | O => NoFuel
      | S fuel =>
          '(old, isLeft) ← chooseChild m n;
          cn ← at_ m old;
          let '(child, m) := cloneTreapNode cn m in
          m ← (if isLeft : bool
               then (m ← setRight child (Some node) m; setLeft node (right cn) m)
               else (m ← setLeft child (Some node) m; setRight node (left cn) m));
          '(newRoot, m) ← relinkGrandparent newRoot child node parent m;
          sinkCopy fuel newRoot node (Some child) m
      end
  end.

Definition Delete (t : Immutable) (k : bytes) (m : memory) : run (Immutable * memory) :=
  '(parents, _, found) ← search (fuelOf m) m k emptyStack Eq (root t);
  match found with
  | None => Done (t, m)
  | Some delNode =>
      n ← at_ m delNode;
      parent ← At parents 1;
      match parent, left n, right n with
      | None, None, None => Done (newImmutable None 0 0, m)
      | _, _, _ =>
          '(newParents, m) ← cloneParents (Z.to_nat (Treap.Len parents)) parents emptyStack m;
          '(top, newParents) ← Pop newParents;
          delNode ← of_option top;
          parent ← At newParents 0;
          newRoot ← At newParents (Treap.Len newParents - 1);
          '(newRoot, parent, m) ← sinkCopy (fuelOf m) newRoot delNode parent m;
          m ← disconnect delNode parent m;
          n ← at_ m delNode;
          Done (newImmutable newRoot (i64 (count t - 1)) (u64 (totalSize t - nodeSize n)), m)
      end
  end.

End runtime.

(** ** Memory that grows

    Since [m0], the nodes [F] were allocated; every node that was in use then is as it
    was and none of [F]. *)

Record grown (m0 : memory) (F : list loc) (m : memory) : Prop := {
  gr_pool : NoDup (pool m);
  gr_sub : ∀ x, x ∈ pool m → x ∈ pool m0;
  gr_new : live m F;
  gr_keep : ∀ ls, live m0 ls → ∀ x, x ∈ ls → x ∉ F ∧ cells m !! x = cells m0 !! x;
}.

Lemma grown_refl m : NoDup (pool m) → grown m [] m.
Proof. intros Hn. split; [done|done|by intros x ?%elem_of_nil|]. intros ls _ x _. split; [apply not_elem_of_nil|done]. Qed.

Lemma grown_live m0 F m ls : grown m0 F m → live m0 ls → live m ls.
Proof.
  intros [_ Hs _ Hk] Hl x Hx. destruct (Hl x Hx) as [H1 H2]. destruct (Hk ls Hl x Hx) as [_ E1]. split; [by rewrite elem_of_dom, E1, <-elem_of_dom|].
  intros Hp. by apply H2, Hs.
Qed.

Lemma grown_holds m0 F m t : grown m0 F m → holds (cells m0) t → live m0 (locs t) → holds (cells m) t.
Proof. intros Hg Hh Hl. eapply holds_agree; [|exact Hh]. intros x Hx. by apply (gr_keep _ _ _ Hg _ Hl). Qed.

Lemma grown_alloc m0 F m m' l n : grown m0 F m → allocated m m' l n → grown m0 (l :: F) m'.
Proof.
  intros Hg Ha. pose proof Ha as (Hc&Hn&Hl&Hs&Hf). pose proof Hg as [G1 G2 G3 G4]. split; [done|auto| |].
  - intros x [->|Hx]%elem_of_cons; [|by apply (allocated_live _ _ _ _ _ Ha G3)]. split; [rewrite Hc, dom_insert; set_solver|done].
  - intros ls Hls x Hx. destruct (G4 ls Hls x Hx) as [H1 H2]. assert (l ∉ ls) as Hll by (apply Hf; by eapply grown_live). split.
    + intros [->|?]%elem_of_cons; done.
    + rewrite Hc, lookup_insert_ne; [done|]. by intros ->.
Qed.

Lemma grown_write m0 F m c ls : grown m0 F m → frames_off ls (cells m) c → (∀ x, x ∈ ls → x ∈ F ∧ x ∈ dom c) → grown m0 F (set_cells c m).
Proof.
  intros [G1 G2 G3 G4] Ho Hin. split; cbn; [done|done| |].
  - intros x Hx. destruct (G3 x Hx) as [H1 H2]. split; [|done]. cbn. destruct (decide (x ∈ ls)) as [Hls|Hls]; [by apply Hin|]. by rewrite elem_of_dom, Ho, <-elem_of_dom.
  - intros ls' Hl x Hx. destruct (G4 ls' Hl x Hx) as [H1 H2]. split; [done|]. rewrite Ho; [done|]. intros Hls. by apply H1, Hin.
Qed.

Lemma allocated_eq m m1 m' l n : cells m1 = cells m → pool m1 = pool m → allocated m1 m' l n → allocated m m' l n.
Proof. unfold allocated, live. by intros -> ->. Qed.

(** ** Lists of created nodes *)

Record listed (r : created) (ls : list loc) : Prop := {
  li_nodes : nodes r = (Some <$> ls) ++ replicate (Z.to_nat staticDepth - length ls) None;
  li_next : next r = zlen ls;
  li_max : (length ls ≤ Z.to_nat staticDepth)%nat;
  li_nodup : NoDup ls;
}.

Lemma listed_none : listed noneCreated [].
Proof. split; [done|done|cbn; lia|constructor]. Qed.

Lemma record_ok r ls l : listed r ls → l ∉ ls → ∃ r' ls', record r l = Done r' ∧ listed r' ls' ∧ ∀ x, x ∈ ls' → x ∈ l :: ls.
Proof.
  intros [Hn Hx Hm Hd] Hl. unfold record. rewrite Hx. destruct (Z.ltb_spec (zlen ls) staticDepth) as [Hlt|Hge].
  - unfold zlen in Hlt. assert (length (nodes r) = Z.to_nat staticDepth) as Hlen by (rewrite Hn, length_app, length_fmap, length_replicate; lia).
    rewrite store_ok by (unfold zlen; lia). cbn [mbind run_bind]. exists {| nodes := <[Z.to_nat (zlen ls) := Some l]> (nodes r); next := zlen ls + 1 |}, (ls ++ [l]).
    split; [done|]. split; [|set_solver]. split; cbn.
    + unfold zlen. rewrite Nat2Z.id, Hn. rewrite insert_app_r_alt by (by rewrite length_fmap). rewrite length_fmap, Nat.sub_diag, length_app. cbn.
      replace (Z.to_nat staticDepth - length ls)%nat with (S (Z.to_nat staticDepth - (length ls + 1))) by lia. cbn. rewrite fmap_app, <-app_assoc. done.
    + rewrite zlen_app. done.
    + rewrite length_app. cbn. lia.
    + apply NoDup_app. split; [done|]. split; [set_solver|]. constructor; [apply not_elem_of_nil|constructor].
  - exists r, ls. split; [done|]. split; [by split|]. intros x ?. by right.
Qed.

(** ** Paths of copies *)

Definition shape (f : frame) : bool * bytes * bytes * Z * tree := (onLeft f, fk f, fv f, fp f, sib f).
Definition same (p q : list frame) : Prop := shape <$> p = shape <$> q.

Lemma same_cons f p q' : same (f :: p) q' → ∃ g q, q' = g :: q ∧ shape f = shape g ∧ same p q.
Proof. destruct q' as [|g q]; [done|]. unfold same. rewrite !fmap_cons. intros [= H1 H2]. exists g, q. split; [done|]. split; [|done]. unfold shape. congruence. Qed.

Lemma same_path p q : same p q → before p = before q ∧ after p = after q ∧ lastCompare p = lastCompare q ∧ (heapedPath p → heapedPath q) ∧
  (∀ t, belowPath p t → belowPath q t) ∧ length p = length q.
Proof.
  revert q. induction p as [|f p IH]; intros q' Hs; [by destruct q'|]. apply same_cons in Hs as (g&q&->&Hf&Hs).
  destruct (IH q Hs) as (H1&H2&_&H4&_&H6). injection Hf as E1 E2 E3 E4 E5. cbn. rewrite E1, E2, E3, E4, E5, H1, H2, H6. split_and!; try done.
  intros (Ha&Hb&Hc). split_and!; [done| |by apply H4]. destruct p as [|f' p], q as [|g' q]; try done. unfold same in Hs. rewrite !fmap_cons in Hs. injection Hs as _ _ _ E6 _ _. by rewrite <-E6.
Qed.

Lemma descend_app k t path : descend k t path = ((descend k t []).1 ++ path, (descend k t []).2).
Proof.
  revert path. induction t as [|l k' v p a IHa b IHb]; intros path; cbn; [done|]. destruct (Compare k k'); [done| |].
  - rewrite IHa, (IHa [_]). cbn. by rewrite <-app_assoc.
  - rewrite IHb, (IHb [_]). cbn. by rewrite <-app_assoc.
Qed.

(** ** Versions

    The version [t] of the memory [m] is the tree [tr]: sorted, of nodes that are in
    use, and with the right counts. *)

Record version (m : memory) (t : Immutable) (tr : tree) : Prop := {
  vn_root : root t = ptr tr;
  vn_holds : holds (cells m) tr;
  vn_nodup : NoDup (locs tr);
  vn_live : live m (locs tr);
  vn_sorted : sorted tr;
  vn_counts : counted (count t) (totalSize t) (content tr);
}.

Lemma version_grown m0 F m t tr : grown m0 F m → version m0 t tr → version m t tr.
Proof. intros Hg [H1 H2 H3 H4 H5 H6]. split; [done|by eapply grown_holds|done|by eapply grown_live|done|done]. Qed.

Lemma enough m t : holds (cells m) t → NoDup (locs t) → (length (locs t) ≤ fuelOf m)%nat.
Proof. intros Hh Hn. pose proof (locs_size _ _ Hh Hn). unfold fuelOf. lia. Qed.

Lemma last_root c path : last (c :: (fl <$> path)) = rootOf path (Some c).
Proof. rewrite last_cons, fmap_last. unfold rootOf. by destruct (last path). Qed.

Section runtime_spec.
Context {RT : Runtime}.

Lemma clone_ok n m : NoDup (pool m) → ∃ l m', cloneTreapNode n m = (l, m') ∧ allocated m m' l n.
Proof.
  intros Hn. unfold cloneTreapNode. destruct (take m) as [l m1] eqn:Et. destruct (take_ok m l m1 Et Hn) as (H1&H2&H3&H4&H5).
  eexists _, _. split; [done|]. unfold allocated. cbn. by rewrite H1.
Qed.

Lemma relinkCopy_ok path l copy m : holdsPath (cells m) path (Some l) → NoDup (locsPath path) → l ∉ locsPath path →
  ∃ c', relinkCopy l copy (head (fl <$> path)) m = Done (set_cells c' m) ∧ holdsPath c' path (Some copy) ∧ frames_off (fl <$> path) (cells m) c'.
Proof.
  intros H1 H2 H3. destruct (relink_ok path l copy m _ H1 H2 H3 (fun _ => eq_refl)) as (c'&E1&H4&H5). exists c'. split; [|done].
  unfold relinkGrandparent, relinkCopy in *. destruct (head (fl <$> path)) as [g|]; [|by injection E1 as _ ->].
  destruct (at_ m g) as [gn| |]; cbn [mbind run_bind] in *; [|done..]. destruct (if bool_decide _ then _ else _) as [m'| |]; cbn [mbind run_bind] in *; [|done..].
  by injection E1 as _ ->.
Qed.

(** A copy of a node takes its place. *)
Lemma copy_ok m0 F m path l k v p a b : grown m0 F m → (∀ x, x ∈ fl <$> path → x ∈ F) → holds (cells m) (plug path (T l k v p a b)) →
  NoDup (locs (plug path (T l k v p a b))) → live m (locs (plug path (T l k v p a b))) →
  ∃ copy m1 c', cloneTreapNode (cell k v p (ptr a) (ptr b)) m = (copy, m1) ∧ allocated m m1 copy (cell k v p (ptr a) (ptr b)) ∧ copy ∉ F ∧
    relinkCopy l copy (head (fl <$> path)) m1 = Done (set_cells c' m1) ∧ grown m0 (copy :: F) (set_cells c' m1) ∧
    holds c' (plug path (T copy k v p a b)) ∧ NoDup (locs (plug path (T copy k v p a b))) ∧ live (set_cells c' m1) (locs (plug path (T copy k v p a b))).
Proof.
  intros Hg Hin Hh Hn Hl. destruct (clone_ok (cell k v p (ptr a) (ptr b)) m (gr_pool _ _ _ Hg)) as (copy&m1&Ec&Ha). exists copy, m1.
  pose proof Ha as (Hc&_&Hcp&_&Hf). pose proof (Hf _ Hl) as Hcl. pose proof (allocated_holds _ _ _ _ _ Ha Hh Hl) as Hh1.
  apply plug_holds in Hh1 as (Hp1&Hl1&Ha1&Hb1). fold holds in *. pose proof Hn as Hn1. rewrite plug_locs in Hn1, Hcl. cbn in Hn1, Hcl.
  apply NoDup_app in Hn1 as (Hn1&Hn2&[Hn3 Hn4]%NoDup_cons).
  destruct (relinkCopy_ok path l copy m1 Hp1 Hn1) as (c'&E1&Hp2&Ho); [intros Hx; by apply (Hn2 l Hx); left|].
  assert (grown m0 (copy :: F) m1) as Hg1 by (by eapply grown_alloc).
  assert (∀ x, x ∈ fl <$> path → x ∈ copy :: F ∧ x ∈ dom c') as Hin'.
  { intros x Hx. split; [right; by apply Hin|]. clear -Hp2 Hx. revert Hp2 Hx. generalize (Some copy). induction path as [|f path IH]; intros q Hp Hx; [by apply elem_of_nil in Hx|].
    cbn in Hp. rewrite fmap_cons in Hx. apply elem_of_cons in Hx as [->|Hx]; [|by eapply IH; [apply Hp|]]. rewrite elem_of_dom. rewrite (proj1 Hp). by eexists. }
  assert (holds c' (plug path (T copy k v p a b))) as Hh2.
  { apply plug_holds. split; [done|]. cbn. split_and!.
    - rewrite Ho by (intros Hx%path_locs; set_solver). rewrite Hc. apply lookup_insert_eq.
    - eapply holds_agree; [|exact Ha1]. intros x Hx. apply Ho. intros Hx'%path_locs. apply (Hn2 x Hx'). set_solver.
    - eapply holds_agree; [|exact Hb1]. intros x Hx. apply Ho. intros Hx'%path_locs. apply (Hn2 x Hx'). set_solver. }
  exists c'. split; [done|]. split; [done|]. split; [by apply Hf, (gr_new _ _ _ Hg)|]. split; [done|]. split; [by eapply grown_write|]. split; [done|].
  assert (NoDup (locs (plug path (T copy k v p a b)))) as Hn5.
  { rewrite plug_locs. cbn. apply NoDup_app. split; [done|]. split; [|constructor; [set_solver|done]]. intros x Hx [->|Hx']%elem_of_cons; [set_solver|]. apply (Hn2 x Hx). by right. }
  split; [done|]. intros x Hx. split; [by eapply holds_dom|]. cbn. rewrite plug_locs in Hx. cbn in Hx. destruct (decide (x = copy)) as [->|Hne]; [exact Hcp|].
  assert (x ∈ locs (plug path (T l k v p a b))) as Hx' by (rewrite plug_locs; cbn; set_solver). by apply (allocated_live _ _ _ _ _ Ha Hl).
Qed.

(** The outcome of the search with copies: a path of new nodes that looks like the old
    one, with the copy of the node that was found at its end *)
Definition clones (m0 : memory) (path : list frame) (d : tree) (r : run (parentStack * comparison * option (loc * loc) * created * memory)) : Prop :=
  ∃ s path' d' F rec ls m cr found, r = Done (s, cr, found, rec, m) ∧
    grown m0 F m ∧ (∀ x, x ∈ fl <$> path' → x ∈ F) ∧ same path path' ∧ listed rec ls ∧ (∀ x, x ∈ ls → x ∈ F) ∧
    holds (cells m) (plug path' d') ∧ NoDup (locs (plug path' d')) ∧ live m (locs (plug path' d')) ∧
    match d with
    | E => d' = E ∧ cr = lastCompare path' ∧ found = None ∧ stacked s (fl <$> path')
    | T l k v p a b => ∃ copy, d' = T copy k v p a b ∧ found = Some (copy, l) ∧ copy ∈ F ∧ stacked s (copy :: (fl <$> path'))
    end.

Lemma clones_same m0 path q d r : same path q → clones m0 q d r → clones m0 path d r.
Proof.
  intros Hs (s&path'&d'&F&rec&ls&m&cr&found&H1&H2&H3&H4&H5). exists s, path', d', F, rec, ls, m, cr, found. split; [done|]. split; [done|]. split; [done|].
  split; [|done]. unfold same in *. congruence.
Qed.

Lemma clonePath_ok m0 k t path F s rec ls m fuel : grown m0 F m → (∀ x, x ∈ fl <$> path → x ∈ F) → holds (cells m) (plug path t) →
  NoDup (locs (plug path t)) → live m (locs (plug path t)) → stacked s (fl <$> path) → listed rec ls → (∀ x, x ∈ ls → x ∈ F) → (length (locs t) ≤ fuel)%nat →
  clones m0 ((descend k t []).1 ++ path) (descend k t []).2 (clonePath fuel m k s (lastCompare path) rec (ptr t)).
Proof.
  revert path F s rec ls m fuel. induction t as [|l k' v p a IHa b IHb]; intros path F s rec ls m fuel Hg Hin Hh Hn Hl Hs Hli Hls Hf; cbn [descend].
  { exists s, path, E, F, rec, ls, m, (lastCompare path), None. by destruct fuel. }
  cbn in Hf. rewrite length_app in Hf. destruct fuel as [|fuel]; [lia|]. cbn [clonePath ptr].
  pose proof Hh as (_&Hc&_&_)%plug_holds. unfold at_. rewrite Hc. cbn [of_option mbind run_bind].
  destruct (copy_ok m0 F m path l k' v p a b Hg Hin Hh Hn Hl) as (copy&m1&c'&->&Hal&Hcf&E1&Hg1&Hh1&Hn1&Hl1).
  destruct (record_ok rec ls copy Hli) as (rec1&ls1&->&Hli1&Hls1); [intros Hx; by apply Hcf, Hls|]. cbn [mbind run_bind].
  rewrite (stacked_top _ _ Hs). cbn [mbind run_bind]. rewrite E1. cbn [mbind run_bind].
  destruct (stacked_push s copy _ Hs) as (s1&->&Hs1). cbn [mbind run_bind cell key left right].
  assert (∀ x, x ∈ ls1 → x ∈ copy :: F) as Hls2.
  { intros x Hx. apply Hls1, elem_of_cons in Hx as [->|Hx]; [left|right; by apply Hls]. }
  assert (∀ side t', let f := {| onLeft := side; fl := copy; fk := k'; fv := v; fp := p; sib := t' |} in ∀ x, x ∈ fl <$> f :: path → x ∈ copy :: F) as Hin'.
  { intros side t' f x Hx. rewrite fmap_cons in Hx. apply elem_of_cons in Hx as [->|Hx]; [left|right; by apply Hin]. }
  destruct (Compare k k').
  - exists s1, path, (T copy k' v p a b), (copy :: F), rec1, ls1, (set_cells c' m1), Eq, (Some (copy, l)). split_and!; try done; [|].
    + intros x Hx. right. by apply Hin.
    + exists copy. split_and!; try done. left.
  - rewrite (descend_app k a [_]). cbn [fst snd]. rewrite <-app_assoc. eapply clones_same.
    2: { apply (IHa ({| onLeft := true; fl := copy; fk := k'; fv := v; fp := p; sib := b |} :: path) (copy :: F) s1 rec1 ls1); try done; [apply Hin'|lia]. }
    unfold same. by rewrite !fmap_app.
  - rewrite (descend_app k b [_]). cbn [fst snd]. rewrite <-app_assoc. eapply clones_same.
    2: { apply (IHb ({| onLeft := false; fl := copy; fk := k'; fv := v; fp := p; sib := a |} :: path) (copy :: F) s1 rec1 ls1); try done; [apply Hin'|lia]. }
    unfold same. by rewrite !fmap_app.
Qed.

(** What [put] has done: a new version, the memory grew, and some of the new nodes are
    listed. *)
Definition putDone (m : memory) (tr : tree) (k v : bytes) (r : run (Immutable * list (option loc) * memory)) : Prop :=
  ∃ t' ns m' tr' F ls, r = Done (t', ns, m') ∧ grown m F m' ∧ version m' t' tr' ∧ content tr' = <[k := v]> (content tr) ∧ (minHeap tr → minHeap tr') ∧
    ns = (Some <$> ls) ++ replicate (Z.to_nat staticDepth - length ls) None ∧ NoDup ls ∧ ∀ x, x ∈ ls → x ∈ F.

Lemma put_found m t tr k v path l v0 p a b : version m t tr → descend k tr [] = (path, T l k v0 p a b) →
  clones m path (T l k v0 p a b) (clonePath (fuelOf m) m k emptyStack Eq noneCreated (root t)) →
  putDone m tr k v ('(parents, cr, found, rec, m) ← clonePath (fuelOf m) m k emptyStack Eq noneCreated (root t);
    match found with
    | Some (copy, l) =>
        m ← setValue copy (Some v) m;
        newRoot ← At parents (Treap.Len parents - 1);
        n ← at_ m l;
        Done (newImmutable newRoot (count t) (u64 (u64 (totalSize t - valueLen (value n)) + zlen v)), nodes rec, m)
    | None => Panic
    end).
Proof.
  intros [Hr Hh Hn Hl Hs Hc] Ed (s&path'&d'&F&rec&ls&m'&cr&found&->&Hg&HF&Hsame&Hli&Hls&Hh'&Hn'&Hl'&copy&->&->&HcF&Hst). cbn [mbind run_bind].
  pose proof Hh' as (Hp'&Hcp&Ha&Hb)%plug_holds. fold holds in *. unfold setValue. rewrite (update_ok _ _ _ _ Hcp). cbn [mbind run_bind].
  rewrite (stacked_bottom _ _ Hst), last_root. cbn [mbind run_bind].
  pose proof (descend_plug k tr []) as Hp. rewrite Ed in Hp. cbn in Hp. assert (l ∈ locs tr) as Hlin by (rewrite <-Hp, plug_locs; set_solver).
  destruct (gr_keep _ _ _ Hg _ Hl l Hlin) as [HlF El]. assert (cells m !! l = Some (cell k v0 p (ptr a) (ptr b))) as Hlc by (rewrite <-Hp in Hh; by apply plug_holds in Hh as (_&?&_)).
  assert (copy ≠ l) as Hne by (by intros ->). unfold at_. cbn [cells write set_cells]. rewrite lookup_insert_ne, El, Hlc by done. cbn [of_option mbind run_bind cell value valueLen].
  destruct (same_path _ _ Hsame) as (B1&B2&_&B4&B5&_). set (c1 := set_value (Some v) (cell k v0 p (ptr a) (ptr b))). set (tr' := plug path' (T copy k v p a b)).
  assert (locs tr' ≡ₚ locs (plug path' (T copy k v0 p a b))) as Hlocs by (unfold tr'; by rewrite !plug_locs).
  pose proof Hn' as Hn2. rewrite plug_locs in Hn2. cbn in Hn2. apply NoDup_app in Hn2 as (_&Hn2&[Hn3 _]%NoDup_cons).
  assert (holds (<[copy := c1]> (cells m')) tr') as Hh2.
  { apply plug_holds. cbn. rewrite lookup_insert_eq. split; [eapply path_agree; [|exact Hp']|split; [done|split; eapply holds_agree; [|exact Ha| |exact Hb]]];
      intros x Hx; rewrite lookup_insert_ne; try done; intros <-; [by apply (Hn2 copy Hx); left|apply Hn3; set_solver|apply Hn3; set_solver]. }
  destruct (entries_update tr tr' (before path ++ entries a) (entries b ++ after path) k v0 v) as (Hs'&Hct&Hlk);
    [rewrite <-Hp, plug_entries; cbn; by rewrite <-!app_assoc|unfold tr'; rewrite plug_entries, B1, B2; cbn; by rewrite <-!app_assoc|done|].
  eexists _, _, _, tr', F, ls. split; [done|]. split; [|split; [|split; [done|split; [|split; [apply Hli|split; [apply Hli|done]]]]]].
  - apply (grown_write m F m' (<[copy := c1]> (cells m')) [copy]); [done| |].
    + intros x Hx. rewrite lookup_insert_ne; [done|set_solver].
    + intros x ->%list_elem_of_singleton. split; [done|]. rewrite dom_insert. set_solver.
  - split; [unfold tr'; by rewrite plug_root|done|by rewrite Hlocs| |done|rewrite Hct; by apply counted_update].
    intros x Hx. split; [by eapply holds_dom|]. rewrite Hlocs in Hx. by apply (Hl' x Hx).
  - rewrite <-Hp. unfold tr'. rewrite !plug_minHeap. cbn. intros (M1&M2&M3). split; [by apply B4|]. split; [|done].
    assert (belowPath path' (T copy k v0 p a b)) as M4 by (apply B5; by destruct path). by destruct path'.
Qed.

Lemma put_added m t tr k v path : version m t tr → descend k tr [] = (path, E) → path ≠ [] →
  clones m path E (clonePath (fuelOf m) m k emptyStack Eq noneCreated (root t)) →
  putDone m tr k v ('(parents, cr, found, rec, m) ← clonePath (fuelOf m) m k emptyStack Eq noneCreated (root t);
    let '(p, m) := rand m in
    let '(l, m) := newTreapNode k (Some v) p m in
    rec ← record rec l;
    n ← at_ m l;
    parent ← At parents 0;
    q ← of_option parent;
    m ← match cr with Lt => setLeft q (Some l) m | _ => setRight q (Some l) m end;
    newRoot ← At parents (Treap.Len parents - 1);
    '(newRoot, m) ← rotate (Z.to_nat (Treap.Len parents)) newRoot parents l m;
    Done (newImmutable newRoot (i64 (count t + 1)) (u64 (totalSize t + nodeSize n)), nodes rec, m)).
Proof.
  intros [Hr Hh Hn Hl Hs Hc] Ed Hne (s&path'&d'&F&rec&ls&m'&cr&found&->&Hg&HF&Hsame&Hli&Hls&Hh'&Hn'&Hl'&->&->&->&Hst). cbn [mbind run_bind rand].
  destruct (same_path _ _ Hsame) as (B1&B2&_&B4&_&B6).
  destruct (descend_around k tr [] Hs (around_nil k)) as [[Hb1 Ha1] _]. rewrite Ed in Hb1, Ha1. pose proof (descend_plug k tr []) as Hp. rewrite Ed in Hp. cbn in Hp, Hb1, Ha1.
  set (m0 := {| cells := cells m'; pool := pool m'; draws := S (draws m') |}). set (p := randInt (draws m')).
  destruct (new_ok k v p m0 (gr_pool _ _ _ Hg)) as (l&m1&->&Hal). apply (allocated_eq m') in Hal; [|done|done]. pose proof Hal as (Hc1&Hp1&Hl1&Hsub&Hfr).
  assert (l ∉ F) as HlF by (apply Hfr, (gr_new _ _ _ Hg)). destruct (record_ok rec ls l Hli) as (rec1&ls1&->&Hli1&Hls1); [intros Hx; by apply HlF, Hls|]. cbn [mbind run_bind].
  assert (l ∉ locs (plug path' E)) as Hlp by (by apply Hfr). assert (cells m1 !! l = Some (cell k v p None None)) as Hcl by (rewrite Hc1; apply lookup_insert_eq).
  unfold at_. rewrite Hcl. cbn [of_option mbind run_bind]. rewrite (stacked_bottom _ _ Hst). pose proof (grown_alloc _ _ _ _ _ _ Hg Hal) as Hg1.
  destruct (attach_ok path' l k v p m1 s (last (fl <$> path')) (Z.to_nat (Treap.Len s))) as (c'&E2&Hh2&Ho2); try done.
  { by destruct path, path'. }
  { by eapply allocated_holds. }
  { rewrite plug_root, fmap_last. unfold rootOf. by destruct (last path'). }
  { unfold Treap.Len. rewrite (st_depth _ _ Hst). unfold zlen. rewrite Nat2Z.id, length_fmap. done. }
  destruct (At s 0) as [parent| |]; cbn [mbind run_bind] in E2 |- *; [|done..].
  destruct (of_option parent) as [q| |]; cbn [mbind run_bind] in E2 |- *; [|done..].
  match goal with |- context [mbind _ ?M] => match type of M with run memory => set (M1 := M) in * end end.
  destruct M1 as [m2| |]; cbn [mbind run_bind] in E2 |- *; [|done..]. rewrite E2. cbn [mbind run_bind].
  set (tr' := rise path' l k v p E E) in *.
  assert (locs tr' ≡ₚ l :: locs (plug path' E)) as Hlocs.
  { unfold tr'. rewrite rise_locs, !plug_locs. cbn. rewrite app_nil_r. solve_Permutation. }
  destruct (entries_insert tr tr' (before path) (after path) k v) as (Hs'&Hct&Hlk); [by rewrite <-Hp, plug_entries|by unfold tr'; rewrite rise_entries, B1, B2|done..|].
  eexists _, _, _, tr', (l :: F), ls1. split; [done|]. split; [|split; [|split; [done|split; [|split; [apply Hli1|split; [apply Hli1|]]]]]].
  - apply (grown_write m (l :: F) m1 c' (l :: (fl <$> path'))); [done|done|]. intros x Hx. split.
    + apply elem_of_cons in Hx as [->|Hx]; [left|right; by apply HF].
    + apply (holds_dom _ tr' _ Hh2). rewrite Hlocs. apply elem_of_cons in Hx as [->|Hx%path_locs]; [left|right]. rewrite plug_locs. set_solver.
  - split; [done|done|rewrite Hlocs; by constructor| |done|rewrite Hct; by apply counted_insert].
    intros x Hx. split; [by eapply holds_dom|]. rewrite Hlocs in Hx. apply elem_of_cons in Hx as [->|Hx]; [done|]. intros Hx'%Hsub. by apply (Hl' x Hx).
  - rewrite <-Hp. intros [Hm _]%plug_minHeap. apply rise_minHeap; [by apply B4|done..| |]; by destruct path'.
  - intros x Hx. apply Hls1, elem_of_cons in Hx as [->|Hx]; [left|right; by apply Hls].
Qed.

Lemma putOne_ok m t tr k v : NoDup (pool m) → version m t tr → putDone m tr k (default [] v) (put t k v m).
Proof.
  intros Hpool Hv. pose proof Hv as [Hr Hh Hn Hl Hs Hc]. unfold put. generalize (default [] v). clear v. intros v. destruct (root t) as [l0|] eqn:El; symmetry in Hr.
  2: { destruct tr; [|done]. cbn [rand]. set (m0 := {| cells := cells m; pool := pool m; draws := S (draws m) |}).
    set (p := randInt (draws m)). destruct (new_ok k v p m0 Hpool) as (l&m1&->&Hal). apply (allocated_eq m) in Hal; [|done|done]. pose proof Hal as (Hc1&Hp1&Hl1&Hsub&Hfr).
    destruct (record_ok noneCreated [] l listed_none ltac:(apply not_elem_of_nil)) as (rec1&ls1&->&Hli1&Hls1). cbn [mbind run_bind].
    assert (cells m1 !! l = Some (cell k v p None None)) as Hcl by (rewrite Hc1; apply lookup_insert_eq).
    unfold at_. rewrite Hcl. cbn [of_option mbind run_bind]. eexists _, _, m1, (T l k v p E E), [l], ls1. split; [done|].
    split; [exact (grown_alloc _ _ _ _ _ _ (grown_refl _ Hpool) Hal)|]. split; [|split; [done|split; [done|split; [apply Hli1|split; [apply Hli1|done]]]]].
    split; cbn; [done|done|constructor; [apply not_elem_of_nil|constructor]| |repeat constructor|].
    - intros x ->%list_elem_of_singleton. split; [by rewrite elem_of_dom, Hcl|done].
    - change (counted 1 (nodeSize (cell k v p None None)) (<[k := v]> ∅)). pose proof (counted_insert 0 0 ∅ k v ltac:(by split) ltac:(done)) as [H1 H2].
      split; [exact H1|]. rewrite <-H2. unfold nodeSize. cbn [key value cell valueLen]. by rewrite (uwrap_add_r 64 0), Z.add_0_l. }
  pose proof (clonePath_ok m k tr [] [] emptyStack noneCreated [] m (fuelOf m) (grown_refl _ Hpool)) as Hcl. rewrite app_nil_r in Hcl. cbn [lastCompare] in Hcl.
  specialize (Hcl ltac:(done) Hh Hn Hl stacked_empty listed_none ltac:(done) (enough _ _ Hh Hn)). rewrite Hr in Hcl.
  destruct (descend k tr []) as [path d] eqn:Ed. cbn [fst snd] in Hcl. destruct (descend_around k tr [] Hs (around_nil k)) as [_ Hk]. rewrite Ed in Hk. cbn in Hk.
  rewrite <-El in Hcl |- *. destruct d as [|l k' v0 p a b].
  - pose proof Hcl as (s&path'&d'&F&rec&ls&m'&cr&found&E1&_&_&_&_&_&_&_&_&_&_&->&_). destruct (put_added m t tr k v path Hv Ed) as (t'&ns&m1&tr'&F'&ls'&E2&H2); [|done|].
    { intros ->. pose proof (descend_plug k tr []) as Hp. rewrite Ed in Hp. cbn in Hp. by rewrite <-Hp in Hr. }
    exists t', ns, m1, tr', F', ls'. split; [|done]. rewrite E1 in E2 |- *. exact E2.
  - subst k'. pose proof Hcl as (s&path'&d'&F&rec&ls&m'&cr&found&E1&_&_&_&_&_&_&_&_&copy&_&->&_).
    destruct (put_found m t tr k v path l v0 p a b Hv Ed Hcl) as (t'&ns&m1&tr'&F'&ls'&E2&H2). exists t', ns, m1, tr', F', ls'. split; [|done]. rewrite E1 in E2 |- *. exact E2.
Qed.

End runtime_spec.

(** ** Reading *)

Lemma findNode_ok m k t fuel : holds (cells m) t → (length (locs t) ≤ fuel)%nat → find fuel m k (ptr t) = Done (ptr (descend k t []).2).
Proof.
  revert fuel. induction t as [|l k' v p a IHa b IHb]; intros fuel Hh Hf; cbn [descend]; [by destruct fuel|].
  cbn in Hh, Hf. rewrite length_app in Hf. destruct Hh as (Hl&Ha&Hb). destruct fuel as [|fuel]; [lia|]. cbn [find ptr]. unfold at_. rewrite Hl.
  cbn [of_option mbind run_bind cell key left right]. destruct (Compare k k'); [done| |].
  - rewrite (descend_app k a [_]). apply IHa; [done|lia].
  - rewrite (descend_app k b [_]). apply IHb; [done|lia].
Qed.

Lemma getNode_ok m t tr k : version m t tr → get t k m = Done (ptr (descend k tr []).2).
Proof. intros [Hr Hh Hn _ _ _]. unfold get. rewrite Hr. apply findNode_ok; [done|by apply enough]. Qed.

(** [Has] and [Get] read the map of a version. *)
Lemma immutable_get_refines (m : memory) (t : Immutable) (tr : tree) (k : bytes) : version m t tr →
  Has t k m = Done (bool_decide (is_Some (content tr !! k))) ∧ Get t k m = Done (content tr !! k).
Proof.
  intros Ht. pose proof (getNode_ok m t tr k Ht) as Eg. unfold Has, Get. rewrite Eg. cbn [mbind run_bind]. rewrite (descend_lookup k tr (vn_sorted _ _ _ Ht)).
  pose proof (descend_plug k tr []) as Hp. pose proof (vn_holds _ _ _ Ht) as Hh. cbn in Hp. rewrite <-Hp in Hh. apply plug_holds in Hh as [_ Hh].
  destruct (descend k tr []).2 as [|l k' v p a b]; cbn [ptr].
  - split; [|done]. by rewrite bool_decide_false by (by intros [? ?]).
  - rewrite bool_decide_true by (by eexists). split; [done|]. cbn in Hh. unfold at_. by rewrite (proj1 Hh).
Qed.

(** A search for the key of a node finds that node. *)
Lemma descend_self c t l n : holds c t → sorted t → l ∈ locs t → c !! l = Some n → ptr (descend (key n) t []).2 = Some l.
Proof.
  intros Hh Hs Hl Hn. unfold sorted, keys in Hs. induction t as [|l' k v p a IHa b IHb]; [by apply elem_of_nil in Hl|]. cbn in Hh. destruct Hh as (Hl'&Ha&Hb).
  cbn in Hs. rewrite fmap_app in Hs. cbn in Hs. apply sorted_mid in Hs as (Hs&H1&H2). apply sorted_app in Hs as (Hsa&Hsb&_).
  assert (∀ t, holds c t → l ∈ locs t → key n ∈ (entries t).*1) as Hkey.
  { clear -Hn. intros t. induction t as [|l' k v p a IHa b IHb]; intros Hh Hl; [by apply elem_of_nil in Hl|]. cbn in Hh, Hl |- *. destruct Hh as (Hl'&Ha&Hb).
    rewrite fmap_app. cbn. apply elem_of_cons in Hl as [->|Hl]; [rewrite Hn in Hl'; injection Hl' as ->; set_solver|]. apply elem_of_app in Hl as [Hl|Hl]; set_solver. }
  cbn in Hl. apply elem_of_cons in Hl as [->|Hl].
  - rewrite Hn in Hl'. injection Hl' as ->. cbn. by rewrite compare_refl.
  - cbn [descend]. apply elem_of_app in Hl as [Hl|Hl].
    + destruct (compare_spec (key n) k) as [E1|_|E1]; [| |].
      * exfalso. apply (lt_irrefl k). rewrite <-E1 at 1. apply H1. by apply Hkey.
      * rewrite (descend_app _ a [_]). by apply IHa.
      * exfalso. apply (lt_irrefl k). transitivity (key n); [done|]. apply H1. by apply Hkey.
    + destruct (compare_spec (key n) k) as [E1|E1|_]; [| |].
      * exfalso. apply (lt_irrefl k). rewrite <-E1 at 2. apply H2. by apply Hkey.
      * exfalso. apply (lt_irrefl k). transitivity (key n); [|done]. apply H2. by apply Hkey.
      * rewrite (descend_app _ b [_]). by apply IHb.
Qed.

(** ** Put *)

(** Recycling takes only nodes that the version does not use. *)
Lemma recycle_ok t tr ls n m : version m t tr → NoDup (pool m) → NoDup ls → live m ls →
  ∃ m', recycleUnused t ((Some <$> ls) ++ replicate n None) m = Done m' ∧ NoDup (pool m') ∧ version m' t tr ∧
    (∀ x, x ∉ ls → cells m' !! x = cells m !! x) ∧ (∀ x, x ∈ pool m' → x ∈ pool m ∨ x ∈ ls).
Proof.
  revert m. induction ls as [|l ls IH]; intros m Hv Hpool Hnd Hlv.
  { exists m. split; [destruct n; done|]. split; [done|]. split; [done|]. split; [done|]. by left. }
  apply NoDup_cons in Hnd as [Hl Hnd]. destruct (Hlv l) as [Hdom Hlp]; [left|]. apply elem_of_dom in Hdom as [nd Hnd']. rewrite fmap_cons. cbn [recycleUnused app].
  unfold at_. rewrite Hnd'. cbn [of_option mbind run_bind]. rewrite (getNode_ok m t tr (key nd) Hv). cbn [mbind run_bind].
  case_bool_decide as Hgot.
  - destruct (IH m Hv Hpool Hnd) as (m'&E1&H1&H2&H3&H4); [intros x Hx; apply Hlv; by right|]. exists m'. split; [done|]. split; [done|]. split; [done|].
    split; [intros x Hx; apply H3; set_solver|]. intros x [?|?]%H4; [by left|right; by right].
  - assert (l ∉ locs tr) as Hlt.
    { intros Hin. apply Hgot. by eapply (descend_self (cells m)); [apply Hv|apply Hv| |]. }
    pose proof Hv as [V1 V2 V3 V4 V5 V6].
    destruct (IH (recycle l m)) as (m'&E1&H1&H2&H3&H4).
    + split; [done| |done| |done|done].
      * eapply holds_agree; [|exact V2]. intros x Hx. cbn. rewrite lookup_insert_ne; [done|]. by intros ->.
      * intros x Hx. destruct (V4 x Hx). cbn. split; [rewrite dom_insert; set_solver|]. intros [->|?]%elem_of_cons; done.
    + cbn. by constructor.
    + done.
    + intros x Hx. destruct (Hlv x) as [G1 G2]; [by right|]. cbn. split; [rewrite dom_insert; set_solver|]. intros [->|?]%elem_of_cons; done.
    + exists m'. split; [done|]. split; [done|]. split; [done|]. split.
      * intros x Hx. rewrite H3 by set_solver. cbn. rewrite lookup_insert_ne; [done|]. intros ->. apply Hx. left.
      * intros x [Hx|Hx]%H4; [|right; by right]. cbn in Hx. apply elem_of_cons in Hx as [->|Hx]; [right; left|by left].
Qed.

(** The map after all pairs *)
Definition putPairs (M : gmap bytes bytes) (kvPairs : list KVPair) : gmap bytes bytes :=
  foldl (fun M kv => <[Key kv := default [] (Value kv)]> M) M kvPairs.

(** Nodes that were in use at the start are as they were. *)
Definition snapshots (m0 m : memory) : Prop := ∀ ls, live m0 ls → live m ls ∧ ∀ x, x ∈ ls → cells m !! x = cells m0 !! x.

Section put_spec.
Context {RT : Runtime}.

Lemma putBatch_ok m0 kvPairs t tr ls m : NoDup (pool m) → version m t tr → NoDup ls → live m ls → snapshots m0 m →
  (∀ ls0, live m0 ls0 → ∀ x, x ∈ ls0 → x ∉ ls) →
  ∃ t' m' tr', putBatch t ((Some <$> ls) ++ replicate (Z.to_nat staticDepth - length ls) None) kvPairs m = Done (t', m') ∧ NoDup (pool m') ∧
    version m' t' tr' ∧ content tr' = putPairs (content tr) kvPairs ∧ (minHeap tr → minHeap tr') ∧ snapshots m0 m'.
Proof.
  revert t tr ls m. induction kvPairs as [|kv kvPairs IH]; intros t tr ls m Hpool Hv Hnd Hlv Hsn Hoff; cbn [putBatch].
  { exists t, m, tr. done. }
  destruct (putOne_ok m t tr (Key kv) (Value kv) Hpool Hv) as (t1&ns&m1&tr1&F&ls1&->&Hg&Hv1&Hct&Hmh&->&Hnd1&HF). cbn [mbind run_bind].
  destruct (recycle_ok t1 tr1 ls (Z.to_nat staticDepth - length ls) m1 Hv1 (gr_pool _ _ _ Hg) Hnd (grown_live _ _ _ _ Hg Hlv)) as (m2&->&Hp2&Hv2&Hc2&Hpl2). cbn [mbind run_bind].
  destruct (IH t1 tr1 ls1 m2 Hp2 Hv2 Hnd1) as (t'&m'&tr'&E1&H1&H2&H3&H4&H5).
  - intros x Hx. destruct (gr_new _ _ _ Hg x (HF x Hx)) as [G1 G2]. assert (x ∉ ls) as Hxl by (intros Hx'; by apply (gr_keep _ _ _ Hg _ Hlv x Hx'), HF).
    split; [by rewrite elem_of_dom, Hc2, <-elem_of_dom|]. by intros [?|?]%Hpl2.
  - intros ls0 Hl0. destruct (Hsn ls0 Hl0) as [S1 S2]. pose proof (grown_live _ _ _ _ Hg S1) as S3. split.
    + intros x Hx. destruct (S3 x Hx) as [G1 G2]. assert (x ∉ ls) as Hxl by (by eapply Hoff). split; [by rewrite elem_of_dom, Hc2, <-elem_of_dom|]. by intros [?|?]%Hpl2.
    + intros x Hx. rewrite Hc2 by (by eapply Hoff). rewrite <-S2 by done. by apply (gr_keep _ _ _ Hg _ S1).
  - intros ls0 Hl0 x Hx Hx'. destruct (Hsn ls0 Hl0) as [S1 _]. by apply (gr_keep _ _ _ Hg _ S1 x Hx), HF.
  - exists t', m', tr'. split; [done|]. split; [done|]. split; [done|]. split; [by rewrite H3, Hct|]. split; [auto|done].
Qed.

(** C19 (refinement).  [Put] on an immutable treap inserts all pairs in order and leaves every
    version alone that was there before.  It returns a version with the map after the
    insertions, its count and size, and the heap order if there was one; every tree
    that was in memory outside of the pool still is, node for node, although nodes of
    the versions in between were given back to the pool and may have been used again. *)
Theorem immutable_put_refines (m : memory) (t : Immutable) (tr : tree) (kvPairs : list KVPair) : NoDup (pool m) → version m t tr →
  ∃ t' m' tr', Put t kvPairs m = Done (t', m') ∧ NoDup (pool m') ∧ version m' t' tr' ∧ content tr' = putPairs (content tr) kvPairs ∧
    (minHeap tr → minHeap tr') ∧ ∀ t0 tr0, version m t0 tr0 → version m' t0 tr0.
Proof.
  intros Hpool Hv. destruct (putBatch_ok m kvPairs t tr [] m Hpool Hv) as (t'&m'&tr'&E1&H1&H2&H3&H4&H5).
  - constructor.
  - by intros x ?%elem_of_nil.
  - done.
  - intros ls0 _ x _. apply not_elem_of_nil.
  - exists t', m', tr'. split; [exact E1|]. split; [done|]. split; [done|]. split; [done|]. split; [done|].
    intros t0 tr0 [V1 V2 V3 V4 V5 V6]. destruct (H5 _ V4) as [G1 G2]. split; [done| |done|done|done|done]. by eapply holds_agree.
Qed.

End put_spec.

(** ** Delete *)

Section delete_spec.
Context {RT : Runtime}.

(** All parents of a node and the node itself are copied. *)
Lemma cloneParents_ok m0 l k v p a b inner outs outer F ps s m : grown m0 F m → (∀ x, x ∈ fl <$> outer → x ∈ F) →
  holds (cells m) (plug outer (plug inner (T l k v p a b))) → NoDup (locs (plug outer (plug inner (T l k v p a b)))) →
  live m (locs (plug outer (plug inner (T l k v p a b)))) → stacked ps (l :: (fl <$> inner) ++ outs) → stacked s (fl <$> outer) →
  ∃ path copy F' s' m', cloneParents (S (length inner)) ps s m = Done (s', m') ∧ grown m0 F' m' ∧ (∀ x, x ∈ copy :: (fl <$> path) → x ∈ F') ∧
    same (inner ++ outer) path ∧ holds (cells m') (plug path (T copy k v p a b)) ∧ NoDup (locs (plug path (T copy k v p a b))) ∧
    live m' (locs (plug path (T copy k v p a b))) ∧ stacked s' (copy :: (fl <$> path)).
Proof.
  revert outs outer F s m. induction inner as [|f inner IH] using rev_ind; intros outs outer F s m Hg Hin Hh Hn Hl Hps Hs.
  - cbn [length cloneParents]. rewrite (stacked_at ps _ 0 l Hps eq_refl). cbn [mbind run_bind of_option].
    pose proof Hh as (_&Hc&_&_)%plug_holds. unfold at_. rewrite Hc. cbn [of_option mbind run_bind].
    destruct (copy_ok m0 F m outer l k v p a b Hg Hin Hh Hn Hl) as (copy&m1&c'&->&Hal&Hcf&E1&Hg1&Hh1&Hn1&Hl1).
    rewrite (stacked_top _ _ Hs). cbn [mbind run_bind]. rewrite E1. cbn [mbind run_bind]. destruct (stacked_push s copy _ Hs) as (s1&->&Hs1). cbn [mbind run_bind].
    exists outer, copy, (copy :: F), s1, (set_cells c' m1). split_and!; try done. intros x [->|Hx]%elem_of_cons; [left|right; by apply Hin].
  - rewrite length_app. cbn [length]. rewrite Nat.add_1_r. cbn [cloneParents].
    rewrite (stacked_at ps _ (S (length inner)) (fl f) Hps).
    2: { cbn. rewrite fmap_app, <-app_assoc. apply list_lookup_middle. by rewrite length_fmap. }
    cbn [mbind run_bind of_option]. assert (plug (inner ++ [f]) (T l k v p a b) = fillFrame f (plug inner (T l k v p a b))) as Ef.
    { clear. generalize (T l k v p a b). induction inner as [|g inner IH]; intros t; [done|]. cbn. apply IH. }
    rewrite Ef in Hh, Hn, Hl. unfold fillFrame in Hh, Hn, Hl. set (x := plug inner (T l k v p a b)) in *.
    pose proof Hh as (_&Hc&_&_)%plug_holds. unfold at_. rewrite Hc. cbn [of_option mbind run_bind].
    destruct (copy_ok m0 F m outer _ _ _ _ _ _ Hg Hin Hh Hn Hl) as (copy&m1&c'&->&Hal&Hcf&E1&Hg1&Hh1&Hn1&Hl1).
    rewrite (stacked_top _ _ Hs). cbn [mbind run_bind]. rewrite E1. cbn [mbind run_bind]. destruct (stacked_push s copy _ Hs) as (s1&->&Hs1). cbn [mbind run_bind].
    set (g := {| onLeft := onLeft f; fl := copy; fk := fk f; fv := fv f; fp := fp f; sib := sib f |}).
    destruct (IH (fl f :: outs) (g :: outer) (copy :: F) s1 (set_cells c' m1)) as (path&copy'&F'&s'&m'&R1&R2&R3&R4&R5); try done.
    + intros y. rewrite fmap_cons. intros [->|Hy]%elem_of_cons; [left|right; by apply Hin].
    + rewrite fmap_app, <-app_assoc in Hps. exact Hps.
    + exists path, copy', F', s', m'. split; [exact R1|]. split; [done|]. split; [done|]. split; [|done]. unfold same in *. rewrite <-app_assoc. rewrite !fmap_app in *. exact R4.
Qed.

(** What the deletion loop has done when the copy of the node became a leaf *)
Definition sunkCopy (m0 : memory) (l : loc) (k v : bytes) (p : Z) (path : list frame) (a b : tree) (r : run (option loc * option loc * memory)) : Prop :=
  ∃ path' F m', r = Done (ptr (plug path' (T l k v p E E)), head (fl <$> path'), m') ∧ grown m0 F m' ∧ (∀ x, x ∈ l :: (fl <$> path') → x ∈ F) ∧
    entries (plug path' E) = before path ++ (entries a ++ entries b) ++ after path ∧ holds (cells m') (plug path' (T l k v p E E)) ∧
    NoDup (locs (plug path' (T l k v p E E))) ∧ live m' (locs (plug path' (T l k v p E E))) ∧ (path' = [] → path = [] ∧ a = E ∧ b = E).

(** The frame of the node that sinks *)
Definition sinkFrame (left : bool) (l : loc) (k v : bytes) (p : Z) (other : tree) : frame :=
  {| onLeft := left; fl := l; fk := k; fv := v; fp := p; sib := other |}.

Lemma sinkCopy_step m0 F (left : bool) l k v p (other : tree) path lc kc vc pc ca cb m r fuel :
  let a := if left then T lc kc vc pc ca cb else other in
  let b := if left then other else T lc kc vc pc ca cb in
  let a' := if left then cb else other in
  let b' := if left then other else ca in
  grown m0 F m → (∀ x, x ∈ l :: (fl <$> path) → x ∈ F) → holds (cells m) (plug path (T l k v p a b)) →
  NoDup (locs (plug path (T l k v p a b))) → live m (locs (plug path (T l k v p a b))) → (path ≠ [] → r = ptr (plug path (T l k v p a b))) →
  (∀ F1 m1 lc', let path1 := sinkFrame (negb left) lc' kc vc pc (if left then ca else cb) :: path in
    grown m0 F1 m1 → (∀ x, x ∈ l :: (fl <$> path1) → x ∈ F1) → holds (cells m1) (plug path1 (T l k v p a' b')) →
    NoDup (locs (plug path1 (T l k v p a' b'))) → live m1 (locs (plug path1 (T l k v p a' b'))) →
    sunkCopy m0 l k v p path1 a' b' (sinkCopy fuel (ptr (plug path1 (T l k v p a' b'))) l (Some lc') m1)) →
  sunkCopy m0 l k v p path a b (cn ← at_ m lc;
    let '(child, m) := cloneTreapNode cn m in
    m ← (if left : bool
         then (m ← setRight child (Some l) m; setLeft l (right cn) m)
         else (m ← setLeft child (Some l) m; setRight l (Treap.left cn) m));
    '(newRoot, m) ← relinkGrandparent r child l (head (fl <$> path)) m;
    sinkCopy fuel newRoot l (Some child) m).
Proof.
  intros a b a' b' Hg Hin Hh Hn Hl Hr IH. pose proof Hh as (Hp&Hlc&Ha&Hb)%plug_holds. fold holds in *.
  assert (holds (cells m) (T lc kc vc pc ca cb) ∧ holds (cells m) other) as [Hch Hot] by (unfold a, b in *; by destruct left).
  pose proof Hch as (Hcc&Hca&Hcb). fold holds in *. unfold at_ at 1. rewrite Hcc. cbn [of_option mbind run_bind].
  destruct (clone_ok (cell kc vc pc (ptr ca) (ptr cb)) m (gr_pool _ _ _ Hg)) as (child&m1&->&Hal). pose proof Hal as (Hc1&_&Hcp&_&Hfr).
  pose proof (Hfr _ Hl) as Hchild. pose proof (grown_alloc _ _ _ _ _ _ Hg Hal) as Hg1. set (f := sinkFrame left l k v p other).
  assert (∃ rest, locs (plug path (T l k v p a b)) ≡ₚ lc :: rest ∧ locs (plug (f :: path) (T child kc vc pc ca cb)) ≡ₚ child :: rest) as (rest&Hr1&Hr2).
  { exists (locsPath path ++ l :: locs other ++ locs ca ++ locs cb). rewrite !plug_locs. unfold f, a, b. cbn. destruct left; cbn; split; solve_Permutation. }
  rewrite Hr1 in Hn, Hchild. pose proof Hn as [_ Hnr]%NoDup_cons.
  assert (∀ t, holds (cells m) t → (∀ x, x ∈ locs t → x ∈ lc :: rest) → holds (cells m1) t) as Hkeep.
  { intros t Ht Hsub. eapply allocated_holds; [done|done|]. intros x Hx. apply Hl. rewrite Hr1. by apply Hsub. }
  assert (∀ x, x ∈ locs other ++ locs ca ++ locs cb → x ∈ lc :: rest) as Hsub.
  { intros x Hx. rewrite <-Hr1, plug_locs. unfold a, b. cbn. destruct left; cbn; set_solver. }
  destruct (rotation_gen f path child kc vc pc ca cb m1 r (if left then ptr a else ptr b)) as (c2&E2&Hh2&Ho2).
  - change (fl f) with l. rewrite Hc1, lookup_insert_ne; [|intros ->; apply Hchild; rewrite <-Hr1, plug_locs; set_solver]. rewrite Hlc. unfold f, frameCell, a, b. cbn. by destruct left.
  - apply Hkeep; [done|]. intros x Hx. apply Hsub. set_solver.
  - eapply path_agree; [|exact Hp]. intros x Hx. rewrite Hc1, lookup_insert_ne; [done|]. intros ->. apply Hchild. rewrite <-Hr1, plug_locs. set_solver.
  - split; [rewrite Hc1; apply lookup_insert_eq|]. split; apply Hkeep; try done; intros x Hx; apply Hsub; set_solver.
  - rewrite Hr2. constructor; [set_solver|done].
  - intros Hne. by rewrite (Hr Hne), plug_root.
  - cbn [cell right Treap.left onLeft fl f sinkFrame] in E2 |- *.
    match goal with |- context [mbind _ ?M] => match type of M with run memory => set (M1 := M) in * end end.
    destruct M1 as [m2| |]; cbn [mbind run_bind] in E2 |- *; [|done..]. rewrite E2. cbn [mbind run_bind].
    set (path1 := sinkFrame (negb left) child kc vc pc (if left then ca else cb) :: path).
    assert (plug path (if left then T child kc vc pc ca (T l k v p cb other) else T child kc vc pc (T l k v p other ca) cb) = plug path1 (T l k v p a' b')) as Ep.
    { unfold path1, a', b'. by destruct left. }
    cbn [fl fk fv fp sib f sinkFrame onLeft] in *. rewrite Ep in *.
    assert (locs (plug path1 (T l k v p a' b')) ≡ₚ child :: rest) as Hlocs.
    { rewrite <-Hr2. unfold path1, a', b', f. rewrite !plug_locs. cbn. destruct left; cbn; solve_Permutation. }
    destruct (IH (child :: F) (set_cells c2 m1) child) as (path'&F'&m'&R1&R2&R3&R4&R5&R6&R7&R8).
    + eapply grown_write; [done|exact Ho2|]. intros x Hx. rewrite fmap_cons in Hx. split.
      * apply elem_of_cons in Hx as [->|Hx]; [left|right; by apply Hin].
      * apply (holds_dom _ _ x Hh2). unfold path1. rewrite plug_locs. cbn. apply elem_of_cons in Hx as [->|Hx]; [set_solver|]. apply elem_of_cons in Hx as [->|Hx%path_locs]; set_solver.
    + intros x Hx. rewrite fmap_cons in Hx. cbn in Hx. apply elem_of_cons in Hx as [->|Hx]; [right; apply Hin; left|]. apply elem_of_cons in Hx as [->|Hx]; [left|right; apply Hin; by right].
    + done.
    + eapply NoDup_Permutation_proper; [exact Hlocs|]. constructor; [set_solver|done].
    + intros x Hx. split; [by eapply holds_dom|]. assert (x ∈ child :: rest) as Hx' by (rewrite <-Hlocs; exact Hx). clear Hx. rename Hx' into Hx. apply elem_of_cons in Hx as [->|Hx]; [done|]. cbn. apply (allocated_live _ _ _ _ _ Hal Hl). rewrite Hr1. by right.
    + exists path', F', m'. split; [exact R1|]. split; [done|]. split; [done|]. split; [|split; [done|split; [done|split; [done|]]]].
      * rewrite R4. unfold a, b, a', b'. destruct left; cbn; rewrite ?app_nil_r, <-?app_assoc; cbn; rewrite <-?app_assoc; done.
      * intros ->. by destruct (R8 eq_refl).
Qed.

Lemma sinkCopy_ok m0 n a b path l k v p m r fuel F : (length (locs a) + length (locs b) ≤ n)%nat → (n ≤ fuel)%nat →
  grown m0 F m → (∀ x, x ∈ l :: (fl <$> path) → x ∈ F) → holds (cells m) (plug path (T l k v p a b)) → NoDup (locs (plug path (T l k v p a b))) →
  live m (locs (plug path (T l k v p a b))) → r = ptr (plug path (T l k v p a b)) ∨ path = [] ∧ ¬ (a = E ∧ b = E) →
  sunkCopy m0 l k v p path a b (sinkCopy fuel r l (head (fl <$> path)) m).
Proof.
  revert a b path m r fuel F. induction n as [|n IH]; intros a b path m r fuel F Hlen Hf Hg Hin Hh Hn Hl Hr; pose proof Hh as (_&Hlc&Ha&Hb)%plug_holds; fold holds in *.
  { destruct a; [|cbn in Hlen; lia]. destruct b; [|cbn in Hlen; lia]. exists path, F, m. split; [|split_and!; try done; by rewrite plug_entries].
    destruct Hr as [->|[_ Hr]]; [|by destruct Hr]. destruct fuel; cbn [sinkCopy]; unfold at_; rewrite Hlc; done. }
  destruct fuel as [|fuel]; [lia|]. cbn [sinkCopy]. change (at_ m l) with (of_option (cells m !! l)). rewrite Hlc. cbn [of_option mbind run_bind cell left right].
  destruct a as [|la ka va pa aa ab], b as [|lb kb vb pb ba bb]; cbn [ptr].
  - exists path, F, m. split; [destruct Hr as [->|[_ Hr]]; [done|by destruct Hr]|]. split_and!; try done. by rewrite plug_entries.
  - cbn [chooseChild cell left right mbind run_bind]. apply (sinkCopy_step m0 F false l k v p E path lb kb vb pb ba bb m r fuel); try done; [by intros Hne; destruct Hr as [?|[? _]]|].
    intros F1 m1 lc' path1 G1 G2 G3 G4 G5. apply (IH E ba path1 m1 _ fuel F1); try done; [|lia|by left]. cbn in *. rewrite length_app in Hlen. lia.
  - cbn [chooseChild cell left right mbind run_bind]. apply (sinkCopy_step m0 F true l k v p E path la ka va pa aa ab m r fuel); try done; [by intros Hne; destruct Hr as [?|[? _]]|].
    intros F1 m1 lc' path1 G1 G2 G3 G4 G5. apply (IH ab E path1 m1 _ fuel F1); try done; [|lia|by left]. cbn in *. rewrite length_app in Hlen. lia.
  - assert (chooseChild m (cell k v p (Some la) (Some lb)) = Done (if pb <=? pa then (la, true) else (lb, false))) as ->.
    { unfold chooseChild, at_. cbn. cbn in Ha, Hb. by rewrite (proj1 Ha), (proj1 Hb). }
    cbn [mbind run_bind]. destruct (pb <=? pa).
    + apply (sinkCopy_step m0 F true l k v p (T lb kb vb pb ba bb) path la ka va pa aa ab m r fuel); try done; [by intros Hne; destruct Hr as [?|[? _]]|].
      intros F1 m1 lc' path1 G1 G2 G3 G4 G5. apply (IH ab (T lb kb vb pb ba bb) path1 m1 _ fuel F1); try done; [|lia|by left]. cbn in *. rewrite !length_app in *. lia.
    + apply (sinkCopy_step m0 F false l k v p (T la ka va pa aa ab) path lb kb vb pb ba bb m r fuel); try done; [by intros Hne; destruct Hr as [?|[? _]]|].
      intros F1 m1 lc' path1 G1 G2 G3 G4 G5. apply (IH (T la ka va pa aa ab) ba path1 m1 _ fuel F1); try done; [|lia|by left]. cbn in *. rewrite !length_app in *. lia.
Qed.

(** The part of [Delete] that builds the new version *)
Lemma delete_found m t tr k path l v p a b ps : NoDup (pool m) → version m t tr → plug path (T l k v p a b) = tr → stacked ps (l :: (fl <$> path)) →
  ¬ (path = [] ∧ a = E ∧ b = E) →
  ∃ t' m' tr', ('(newParents, m) ← cloneParents (Z.to_nat (Treap.Len ps)) ps emptyStack m;
      '(top, newParents) ← Pop newParents;
      delNode ← of_option top;
      parent ← At newParents 0;
      newRoot ← At newParents (Treap.Len newParents - 1);
      '(newRoot, parent, m) ← sinkCopy (fuelOf m) newRoot delNode parent m;
      m ← disconnect delNode parent m;
      n ← at_ m delNode;
      Done (newImmutable newRoot (i64 (count t - 1)) (u64 (totalSize t - nodeSize n)), m)) = Done (t', m') ∧
    NoDup (pool m') ∧ version m' t' tr' ∧ content tr' = delete k (content tr) ∧ ∃ F, grown m F m'.
Proof.
  intros Hpool [Hr Hh Hn Hl Hs Hc] Hp Hps Hne. rewrite <-Hp in Hh, Hn, Hl.
  assert (Z.to_nat (Treap.Len ps) = S (length path)) as -> by (unfold Treap.Len; rewrite (st_depth _ _ Hps); unfold zlen; cbn; rewrite length_fmap; lia).
  destruct (cloneParents_ok m l k v p a b path [] [] [] ps emptyStack m (grown_refl _ Hpool)) as (path'&copy&F&s1&m1&->&Hg&HF&Hsame&Hh1&Hn1&Hl1&Hs1); try done.
  { by rewrite app_nil_r. }
  { apply stacked_empty. }
  rewrite app_nil_r in Hsame. destruct (same_path _ _ Hsame) as (B1&B2&_&_&_&B6). cbn [mbind run_bind].
  destruct (stacked_pop _ _ _ Hs1) as (s2&->&Hs2). cbn [mbind run_bind of_option]. rewrite (stacked_top _ _ Hs2). cbn [mbind run_bind].
  rewrite (stacked_bottom _ _ Hs2). cbn [mbind run_bind].
  destruct (sinkCopy_ok m (length (locs a) + length (locs b)) a b path' copy k v p m1 (last (fl <$> path')) (fuelOf m1) F)
    as (path2&F2&m2&->&Hg2&HF2&He2&Hh2&Hn2&Hl2&Hne2); try done.
  { pose proof (enough _ _ Hh1 Hn1) as Hf. rewrite plug_locs in Hf. cbn in Hf. rewrite !length_app in Hf. cbn in Hf. rewrite length_app in Hf. lia. }
  { destruct path' as [|f path']; [right|left].
    - split; [done|]. intros [-> ->]. apply Hne. by destruct path.
    - rewrite plug_root, fmap_last. unfold rootOf. rewrite last_cons. by destruct (last path'). }
  cbn [mbind run_bind]. destruct path2 as [|f path2]; [destruct (Hne2 eq_refl) as (->&->&->); destruct Hne; by destruct path|]. rewrite fmap_cons. cbn [head].
  destruct (disconnect_ok f path2 copy k v p m2 Hh2 Hn2) as (c3&->&Hh3&Ho3). cbn [mbind run_bind].
  assert (fl f ≠ copy) as Hfc.
  { rewrite plug_locs in Hn2. cbn in Hn2. apply NoDup_cons in Hn2 as [Hx _]. set_solver. }
  assert (c3 !! copy = Some (cell k v p None None)) as Hcc by (rewrite Ho3 by set_solver; by apply plug_holds in Hh2 as (_&?&_)).
  unfold at_. cbn [cells set_cells]. rewrite Hcc. cbn [of_option mbind run_bind]. set (tr' := plug (f :: path2) E) in *.
  assert (locs tr' ++ [copy] ≡ₚ locs (plug (f :: path2) (T copy k v p E E))) as Hlocs by (unfold tr'; rewrite !plug_locs; cbn; by rewrite app_nil_r).
  destruct (entries_delete tr tr' (before path ++ entries a) (entries b ++ after path) k v) as (Hs'&Hct&Hlk);
    [rewrite <-Hp, plug_entries; cbn; by rewrite <-!app_assoc|rewrite He2, <-B1, <-B2; by rewrite <-!app_assoc|done|].
  eexists _, _, tr'. split; [done|]. split; [apply (gr_pool _ _ _ Hg2)|]. split; [|split; [done|]].
  - rewrite <-Hlocs in Hn2. apply NoDup_app in Hn2 as (Hn3&_&_). split; [|done|done| |done|rewrite Hct; by apply counted_delete].
    + cbn [root newImmutable]. unfold tr'. rewrite !plug_root. unfold rootOf. rewrite !last_cons. by destruct (last path2).
    + intros x Hx. split; [by eapply holds_dom|]. cbn. apply Hl2. rewrite <-Hlocs. set_solver.
  - exists F2. eapply grown_write; [done|exact Ho3|]. intros x ->%list_elem_of_singleton. split; [apply HF2; rewrite fmap_cons; set_solver|].
    apply (holds_dom _ tr' _ Hh3). unfold tr'. rewrite plug_locs. cbn. set_solver.
Qed.

(** C20 (refinement).  [Delete] on an immutable treap is deletion from the map of a version, and
    leaves all versions alone that were there before: it returns a version with the new
    map, its count and its size, or the same one if the key is not there. *)
Theorem immutable_delete_refines (m : memory) (t : Immutable) (tr : tree) (k : bytes) : NoDup (pool m) → version m t tr →
  ∃ t' m' tr', Delete t k m = Done (t', m') ∧ NoDup (pool m') ∧ version m' t' tr' ∧ content tr' = delete k (content tr) ∧
    ∀ t0 tr0, version m t0 tr0 → version m' t0 tr0.
Proof.
  intros Hpool Hv. pose proof Hv as [Hr Hh Hn Hl Hs Hc]. unfold Delete. rewrite Hr.
  destruct (search_ok m k tr [] emptyStack (fuelOf m) Hh stacked_empty (enough _ _ Hh Hn)) as (s&Es&Hst). cbn [lastCompare] in Es. rewrite Es. cbn [mbind run_bind].
  pose proof (descend_lookup k tr Hs) as Hlk. destruct (descend_around k tr [] Hs (around_nil k)) as [_ Hk]. pose proof (descend_plug k tr []) as Hp. cbn in Hp.
  destruct (descend k tr []) as [path d]. cbn [fst snd] in *. destruct d as [|l k' v p a b]; cbn [ptr].
  { exists t, m, tr. split; [done|]. split; [done|]. split; [done|]. split; [by rewrite delete_id|done]. }
  subst k'. cbn in Hst. pose proof Hh as Hh0. rewrite <-Hp in Hh0. apply plug_holds in Hh0 as (_&Hlc&_&_). change (at_ m l) with (of_option (cells m !! l)). rewrite Hlc. cbn [of_option mbind run_bind cell left right].
  assert (At s 1 = Done (head (fl <$> path))) as ->.
  { destruct path as [|f path]; [by apply (stacked_at_none s [l])|]. by apply (stacked_at s _ 1 (fl f) Hst). }
  cbn [mbind run_bind]. assert (path = [] ∧ a = E ∧ b = E ∨ ¬ (path = [] ∧ a = E ∧ b = E)) as [(->&->&->)|Hne].
  { destruct path; [|right; naive_solver]. destruct a; [|right; naive_solver]. destruct b; [by left|right; naive_solver]. }
  { cbn. exists NewImmutable, m, E. split; [done|]. split; [done|]. split; [|split; [|done]].
    - split; [done|done|constructor|by intros x ?%elem_of_nil|constructor|by split].
    - cbn in Hp. rewrite <-Hp. unfold content. cbn. by rewrite insert_empty, delete_singleton_eq. }
  destruct (delete_found m t tr k path l v p a b s Hpool Hv Hp Hst Hne) as (t'&m'&tr'&E1&H1&H2&H3&F&Hg). exists t', m', tr'. split; [|split; [done|split; [done|split; [done|]]]].
  - destruct (head (fl <$> path)) as [q|] eqn:Eq; [exact E1|]. destruct a as [|la]; [|exact E1]. destruct b as [|lb]; [|exact E1]. destruct Hne. by destruct path.
  - intros t0 tr0. by apply version_grown with F.
Qed.

End delete_spec.

End ImmutableTreap.
