(* ===== verification/TreapIter.v ===== *)
(** * TreapIter: iterators over treaps

    Model of [database/internal/treap/treapiter.go] for mutable and immutable treaps.
    An iterator of a mutable treap looks at the treap again in [ForceReseek], which
    gets the root it has then. *)

From Stdlib Require Import Sorted.
From S2P Require Import Prelude Treap TreapTree MutableTreap ImmutableTreap.

Module TreapIter.
Import Treap TreapTree.

Record Iterator := {
  ofMutable : bool;          (* whether the field [t] is set *)
  root : option loc;
  node : option loc;
  parents : parentStack;
  isNew : bool;
  seekKey : option bytes;
  startKey : option bytes;
  limitKey : option bytes;
}.

Definition set_node (n : option loc) (it : Iterator) : Iterator :=
  {| ofMutable := ofMutable it; root := root it; node := n; parents := parents it; isNew := isNew it; seekKey := seekKey it;
     startKey := startKey it; limitKey := limitKey it |}.
Definition set_parents (s : parentStack) (it : Iterator) : Iterator :=
  {| ofMutable := ofMutable it; root := root it; node := node it; parents := s; isNew := isNew it; seekKey := seekKey it;
     startKey := startKey it; limitKey := limitKey it |}.
Definition set_isNew (b : bool) (it : Iterator) : Iterator :=
  {| ofMutable := ofMutable it; root := root it; node := node it; parents := parents it; isNew := b; seekKey := seekKey it;
     startKey := startKey it; limitKey := limitKey it |}.
Definition set_seekKey (k : option bytes) (it : Iterator) : Iterator :=
  {| ofMutable := ofMutable it; root := root it; node := node it; parents := parents it; isNew := isNew it; seekKey := k;
     startKey := startKey it; limitKey := limitKey it |}.
Definition set_root (r : option loc) (it : Iterator) : Iterator :=
  {| ofMutable := ofMutable it; root := r; node := node it; parents := parents it; isNew := isNew it; seekKey := seekKey it;
     startKey := startKey it; limitKey := limitKey it |}.

Definition newIterator (mut : bool) (r : option loc) (start limit : option bytes) : Iterator :=
  {| ofMutable := mut; root := r; node := None; parents := emptyStack; isNew := true; seekKey := None; startKey := start; limitKey := limit |}.

(** [Mutable.Iterator] and [Immutable.Iterator] *)
Definition mutableIterator (t : MutableTreap.Mutable) : option bytes → option bytes → Iterator := newIterator true (MutableTreap.root t).
Definition immutableIterator (t : ImmutableTreap.Immutable) : option bytes → option bytes → Iterator := newIterator false (ImmutableTreap.root t).

Definition isLess (c : comparison) : bool := match c with Lt => true | _ => false end.

Definition limitIterator (it : Iterator) (m : memory) : run (bool * Iterator) :=
  match node it with
  | None => Done (false, it)
  | Some l =>
      n ← at_ m l;
      let below := match startKey it with Some k => isLess (Compare (key n) k) | None => false end in
      let above := match limitKey it with Some k => negb (isLess (Compare (key n) k)) | None => false end in
      if below || above then Done (false, set_node None it) else Done (true, it)
  end.

(** The loop of [seek]: the node that is selected so far, the parents and its depth, and
    whether the key itself was found *)
Fixpoint seekLoop (fuel : nat) (m : memory) (k : bytes) (exactMatch greater : bool) (next selected : option loc) (s : parentStack) (depth : Z) :
    run (option loc * parentStack * Z * bool) :=
  match next with
  | None => Done (selected, s, depth, false)
  | Some l =>
      match fuel with
      | O => NoFuel
      | S fuel =>
          s ← Push s l;
          n ← at_ m l;
          match Compare k (key n) with
          | Lt => if greater then seekLoop fuel m k exactMatch greater (left n) (Some l) s (Len s - 1)
                  else seekLoop fuel m k exactMatch greater (left n) selected s depth
          | Gt => if negb greater then seekLoop fuel m k exactMatch greater (right n) (Some l) s (Len s - 1)
                  else seekLoop fuel m k exactMatch greater (right n) selected s depth
          | Eq => if exactMatch then ('(_, s) ← Pop s; Done (Some l, s, depth, true))
                  else seekLoop fuel m k exactMatch greater (if greater then right n else left n) selected s depth
          end
      end
  end.

Fixpoint popMany (n : nat) (s : parentStack) : run parentStack :=
  match n with O => Done s | S n => '(_, s) ← Pop s; popMany n s end.

Definition seek (it : Iterator) (k : bytes) (exactMatch greater : bool) (m : memory) : run (bool * Iterator) :=
  '(selected, s, depth, exact) ← seekLoop (fuelOf m) m k exactMatch greater (root it) None emptyStack 0;
  s ← (if exact : bool then Done s else popMany (Z.to_nat (Len s - depth)) s);
  limitIterator (set_parents s (set_node selected it)) m.

(** The leftmost or rightmost node below [n], with the nodes above it *)
Fixpoint extreme (fuel : nat) (m : memory) (side : treapNode → option loc) (n : option loc) (s : parentStack) : run (option (loc * parentStack)) :=
  match n with
  | None => Done None
  | Some l =>
      match fuel with
      | O => NoFuel
      | S fuel =>
          nd ← at_ m l;
          match side nd with
          | None => Done (Some (l, s))
          | Some q => s ← Push s l; extreme fuel m side (Some q) s
          end
      end
  end.

Definition First (it : Iterator) (m : memory) : run (bool * Iterator) :=
  let it := set_isNew false it in
  match startKey it with
  | Some k => seek it k true true m
  | None =>
      r ← extreme (fuelOf m) m left (root it) emptyStack;
      match r with
      | Some (l, s) => Done (true, set_node (Some l) (set_parents s it))
      | None => Done (false, set_parents emptyStack it)
      end
  end.

Definition Last (it : Iterator) (m : memory) : run (bool * Iterator) :=
  let it := set_isNew false it in
  match limitKey it with
  | Some k => seek it k false false m
  | None =>
      r ← extreme (fuelOf m) m right (root it) emptyStack;
      match r with
      | Some (l, s) => Done (true, set_node (Some l) (set_parents s it))
      | None => Done (false, set_parents emptyStack it)
      end
  end.

(** Up while the node is the child on that side of its parent *)
Fixpoint climb (fuel : nat) (m : memory) (side : treapNode → option loc) (n : option loc) (parent : option loc) (s : parentStack) :
    run (option loc * parentStack) :=
  match parent with
  | None => Done (None, s)
  | Some p =>
      pn ← at_ m p;
      if bool_decide (side pn = n) then
        match fuel with
        | O => NoFuel
        | S fuel => '(q, s) ← Pop s; climb fuel m side (Some p) q s
        end
      else Done (Some p, s)
  end.

(** The next node in the direction of [side], or the nearest parent on the other side *)
Definition move (it : Iterator) (side back : treapNode → option loc) (m : memory) : run (bool * Iterator) :=
  match node it with
  | None => Done (false, it)
  | Some l =>
      n ← at_ m l;
      match side n with
      | None =>
          '(p, s) ← Pop (parents it);
          '(p, s) ← climb (fuelOf m) m side (Some l) p s;
          limitIterator (set_parents s (set_node p it)) m
      | Some q =>
          s ← Push (parents it) l;
          r ← extreme (fuelOf m) m back (Some q) s;
          match r with
          | Some (x, s) => limitIterator (set_parents s (set_node (Some x) it)) m
          | None => Panic
          end
      end
  end.

Definition Next (it : Iterator) (m : memory) : run (bool * Iterator) :=
  if isNew it then First it m else
  match node it, seekKey it with
  | None, _ => Done (false, it)
  | Some _, Some k => seek (set_seekKey None it) k false true m
  | Some _, None => move it right left m
  end.

Definition Prev (it : Iterator) (m : memory) : run (bool * Iterator) :=
  if isNew it then Last it m else
  match node it, seekKey it with
  | None, _ => Done (false, it)
  | Some _, Some k => seek (set_seekKey None it) k false false m
  | Some _, None => move it left right m
  end.

Definition Seek (it : Iterator) (k : bytes) (m : memory) : run (bool * Iterator) := seek (set_isNew false it) k true true m.

Definition Key (it : Iterator) (m : memory) : run (option bytes) :=
  match node it with None => Done None | Some l => n ← at_ m l; Done (Some (key n)) end.

Definition Value (it : Iterator) (m : memory) : run (option bytes) :=
  match node it with None => Done None | Some l => n ← at_ m l; Done (value n) end.

Definition Valid (it : Iterator) : bool := match node it with Some _ => true | None => false end.

Definition ForceReseek (it : Iterator) (t : MutableTreap.Mutable) (m : memory) : run Iterator :=
  if negb (ofMutable it) then Done it else
  let it := set_root (MutableTreap.root t) it in
  match node it with
  | None => Done (set_seekKey None it)
  | Some l => n ← at_ m l; Done (set_seekKey (Some (key n)) it)
  end.

(** ** Positions

    An iterator that stands at the first of the entries [rem], the ones from there to the
    end of the tree; or at none if there are none. *)

Definition positioned (tr : tree) (n : option loc) (s : parentStack) (rem : list (bytes * bytes)) : Prop :=
  match rem with
  | [] => n = None
  | (k, v) :: rem => ∃ path l p a b, tr = plug path (T l k v p a b) ∧ n = Some l ∧ stacked s (fl <$> path) ∧ rem = entries b ++ after path
  end.

Lemma filter_keep {A} (P : A → Prop) `{∀ x, Decision (P x)} (l : list A) : (∀ x, x ∈ l → P x) → filter P l = l.
Proof.
  induction l as [|x l IH]; intros Hl; [done|]. rewrite filter_cons_True by (apply Hl; left). f_equal. apply IH. intros y Hy. apply Hl. by right.
Qed.

Section forward.
Context (m : memory) (tr : tree) (Hh : holds (cells m) tr) (Hn : NoDup (locs tr)).

Lemma fits path t : plug path t = tr → (length (locs t) + length path ≤ size (cells m))%nat.
Proof.
  intros Hp. pose proof (locs_size _ _ Hh Hn) as Hs. rewrite <-Hp, plug_locs, length_app in Hs.
  assert (length path ≤ length (locsPath path))%nat by (clear; induction path as [|f path IH]; cbn; [done|]; rewrite length_app; lia). lia.
Qed.

Lemma sub_holds path t : plug path t = tr → holds (cells m) t.
Proof. intros Hp. rewrite <-Hp in Hh. by apply plug_holds in Hh as [_ ?]. Qed.

(** Down the left side *)
Lemma extreme_ok t path s fuel : plug path t = tr → t ≠ E → stacked s (fl <$> path) → (length (locs t) ≤ fuel)%nat →
  ∃ l s', extreme fuel m left (ptr t) s = Done (Some (l, s')) ∧ positioned tr (Some l) s' (entries t ++ after path).
Proof.
  revert path s fuel. induction t as [|l k v p a IHa b _]; intros path s fuel Hp Hne Hs Hf; [done|]. cbn in Hf. rewrite length_app in Hf.
  destruct fuel as [|fuel]; [lia|]. pose proof (sub_holds _ _ Hp) as (Hl&_). cbn [extreme ptr]. unfold at_. rewrite Hl. cbn [of_option mbind run_bind cell left].
  destruct a as [|la ka va pa aa ab] eqn:Ea.
  - exists l, s. split; [done|]. cbn. exists path, l, p, E, b. split_and!; try done.
  - cbn [ptr]. destruct (stacked_push s l _ Hs) as (s1&->&Hs1). cbn [mbind run_bind].
    destruct (IHa ({| onLeft := true; fl := l; fk := k; fv := v; fp := p; sib := b |} :: path) s1 fuel) as (l'&s'&E1&H1); try done; [cbn in *; lia|].
    exists l', s'. split; [exact E1|]. rewrite <-Ea in H1 |- *. cbn [entries]. rewrite <-app_assoc. exact H1.
Qed.

(** Up to the nearest node that is greater *)
Lemma climb_ok path t l s fuel : plug path t = tr → ptr t = Some l → stacked s (fl <$> path) → (length path < fuel)%nat →
  ∃ n s', ('(q, s) ← Pop s; climb fuel m right (Some l) q s) = Done (n, s') ∧ positioned tr n s' (after path).
Proof.
  revert t l s fuel. induction path as [|f path IH]; intros t l s fuel Hp Hl Hs Hf.
  - unfold Pop. rewrite (st_depth _ _ Hs). cbn. exists None, s. by destruct fuel.
  - rewrite fmap_cons in Hs. destruct (stacked_pop _ _ _ Hs) as (s1&->&Hs1). cbn [mbind run_bind]. destruct fuel as [|fuel]; [cbn in Hf; lia|]. cbn [climb].
    pose proof Hh as Hh'. rewrite <-Hp in Hh'. apply plug_holds in Hh' as ((Hfc&_&_)&_). unfold at_. rewrite Hfc. cbn [of_option mbind run_bind]. unfold frameCell. cbn [cell right].
    cbn [after]. destruct (onLeft f) eqn:El.
    + rewrite bool_decide_false.
      2: { intros Hx%ptr_locs. rewrite <-Hp in Hn. rewrite plug_locs in Hn. cbn in Hn. apply NoDup_cons in Hn as [_ Hn']. apply NoDup_app in Hn' as (_&Hn'&_).
           apply (Hn' l); [set_solver|by apply ptr_locs]. }
      exists (Some (fl f)), s1. split; [done|]. cbn. exists path, (fl f), (fp f), t, (sib f). split_and!; try done. rewrite <-Hp. cbn. unfold fillFrame. by rewrite El.
    + rewrite bool_decide_true by done. cbn [app]. apply (IH (fillFrame f t)); [done|done|done|cbn in Hf; lia].
Qed.

Lemma move_ok it k v rem : positioned tr (node it) (parents it) ((k, v) :: rem) →
  ∃ n s, move it right left m = limitIterator (set_parents s (set_node n it)) m ∧ positioned tr n s rem.
Proof.
  intros (path&l&p&a&b&Hp&Hnode&Hs&->). symmetry in Hp. unfold move. rewrite Hnode. pose proof (sub_holds _ _ Hp) as (Hl&_). unfold at_. rewrite Hl. cbn [of_option mbind run_bind cell right].
  destruct b as [|lb kb vb pb ba bb] eqn:Eb; cbn [ptr].
  - destruct (climb_ok path (T l k v p a E) l (parents it) (fuelOf m) Hp eq_refl Hs) as (n&s'&E1&H1).
    { pose proof (fits _ _ Hp). unfold fuelOf. lia. }
    exists n, s'. split; [|done]. destruct (Pop (parents it)) as [[q s1]| |]; cbn [mbind run_bind] in *; [|done..]. by rewrite E1.
  - destruct (stacked_push (parents it) l _ Hs) as (s1&->&Hs1). cbn [mbind run_bind].
    destruct (extreme_ok b ({| onLeft := false; fl := l; fk := k; fv := v; fp := p; sib := a |} :: path) s1 (fuelOf m)) as (x&s'&E1&H1); try done; [by rewrite Eb|by rewrite Eb| |].
    { pose proof (fits _ _ Hp) as Hf. rewrite Eb. cbn in *. rewrite !length_app in *. cbn in *. rewrite !length_app in *. unfold fuelOf. lia. }
    rewrite Eb in E1. cbn [ptr] in E1. rewrite E1. cbn [mbind run_bind]. exists (Some x), s'. split; [done|]. rewrite <-Eb. exact H1.
Qed.

(** ** Seeking *)

(** The innermost parent above which the path goes to the left, and its depth *)
Fixpoint selection (path : list frame) : option loc * Z :=
  match path with [] => (None, 0) | f :: rest => if onLeft f then (Some (fl f), zlen rest) else selection rest end.

Lemma selection_depth path : 0 ≤ (selection path).2 ≤ zlen path.
Proof.
  induction path as [|f path IH]; cbn [selection]; [done|]. rewrite zlen_cons. pose proof (zlen_nonneg path). destruct (onLeft f); cbn; lia.
Qed.

Lemma popSelection_ok path t s : plug path t = tr → stacked s (fl <$> path) →
  ∃ s', popMany (Z.to_nat (Len s - (selection path).2)) s = Done s' ∧ positioned tr (selection path).1 s' (after path).
Proof.
  revert t s. induction path as [|f path IH]; intros t s Hp Hs; unfold Len; rewrite (st_depth _ _ Hs).
  { exists s. done. }
  rewrite fmap_cons in *. rewrite zlen_cons. destruct (stacked_pop _ _ _ Hs) as (s1&E1&Hs1).
  assert (zlen (fl <$> path) = zlen path) as El by (unfold zlen; by rewrite length_fmap). cbn [selection after]. destruct (onLeft f) eqn:Ef; cbn [fst snd].
  - replace (Z.to_nat (1 + zlen (fl <$> path) - zlen path)) with 1%nat by lia. cbn [popMany]. rewrite E1. cbn [mbind run_bind]. exists s1. split; [done|].
    cbn. exists path, (fl f), (fp f), t, (sib f). split_and!; try done. rewrite <-Hp. cbn. unfold fillFrame. by rewrite Ef.
  - pose proof (selection_depth path) as Hd. replace (Z.to_nat (1 + zlen (fl <$> path) - (selection path).2)) with (S (Z.to_nat (Len s1 - (selection path).2)))
      by (unfold Len; rewrite (st_depth _ _ Hs1); lia).
    cbn [popMany]. rewrite E1. cbn [mbind run_bind app]. by apply (IH (fillFrame f t)).
Qed.

(** The place of a key: where it is, or the gap where it would be, or the gap after it *)
Fixpoint placeOf (exact : bool) (k : bytes) (t : tree) (path : list frame) : list frame * tree :=
  match t with
  | E => (path, E)
  | T l k' v p a b =>
      let right := {| onLeft := false; fl := l; fk := k'; fv := v; fp := p; sib := a |} in
      match Compare k k' with
      | Lt => placeOf exact k a ({| onLeft := true; fl := l; fk := k'; fv := v; fp := p; sib := b |} :: path)
      | Gt => placeOf exact k b (right :: path)
      | Eq => if exact then (path, t) else placeOf exact k b (right :: path)
      end
  end.

Definition from (path : list frame) (t : tree) : list (bytes * bytes) :=
  match t with E => after path | T _ k v _ _ b => (k, v) :: entries b ++ after path end.

(** Keys that come at or after the place *)
Definition reached (exact : bool) (k x : bytes) : bool :=
  match Compare x k with Lt => false | Eq => exact | Gt => true end.

Lemma seekLoop_ok exact k t path s fuel : plug path t = tr → stacked s (fl <$> path) → (length (locs t) ≤ fuel)%nat →
  let d := placeOf exact k t path in
  ∃ s' sel, seekLoop fuel m k exact true (ptr t) (selection path).1 s (selection path).2 =
      Done (match d.2 with E => (selection d.1).1 | T l _ _ _ _ _ => Some l end, s', sel, match d.2 with E => false | _ => true end) ∧
    stacked s' (fl <$> d.1) ∧ (d.2 = E → sel = (selection d.1).2) ∧ plug d.1 d.2 = tr.
Proof.
  revert path s fuel. induction t as [|l k' v p a IHa b IHb]; intros path s fuel Hp Hs Hf.
  { exists s, (selection path).2. cbn [placeOf fst snd ptr]. by destruct fuel. }
  cbn in Hf. rewrite length_app in Hf. destruct fuel as [|fuel]; [lia|]. pose proof (sub_holds _ _ Hp) as (Hl&_). cbn [seekLoop ptr placeOf].
  destruct (stacked_push s l _ Hs) as (s1&->&Hs1). cbn [mbind run_bind]. unfold at_. rewrite Hl. cbn [of_option mbind run_bind cell key left right].
  set (fR := {| onLeft := false; fl := l; fk := k'; fv := v; fp := p; sib := a |}). set (fL := {| onLeft := true; fl := l; fk := k'; fv := v; fp := p; sib := b |}).
  assert (Len s1 - 1 = zlen path) as Ed by (unfold Len; rewrite (st_depth _ _ Hs1), zlen_cons; unfold zlen; rewrite length_fmap; lia).
  destruct (Compare k k') eqn:Ec; cbn [negb].
  - destruct exact.
    + destruct (stacked_pop _ _ _ Hs1) as (s2&->&Hs2). cbn [mbind run_bind]. exists s2, (selection path).2. done.
    + apply (IHb (fR :: path) s1 fuel); [done|done|lia].
  - rewrite Ed. apply (IHa (fL :: path) s1 fuel); [done|done|lia].
  - apply (IHb (fR :: path) s1 fuel); [done|done|lia].
Qed.

Lemma seek_ok it exact k : root it = ptr tr →
  let d := placeOf exact k tr [] in
  ∃ n s, seek it k exact true m = limitIterator (set_parents s (set_node n it)) m ∧ positioned tr n s (from d.1 d.2).
Proof.
  intros Hr d. unfold seek. rewrite Hr. destruct (seekLoop_ok exact k tr [] emptyStack (fuelOf m)) as (s&sel&E1&Hs&Hsel&Hp); [done|apply stacked_empty| |].
  { pose proof (fits [] tr eq_refl). unfold fuelOf. lia. }
  fold d in E1, Hs, Hsel, Hp. cbn [selection fst snd] in E1. rewrite E1. cbn [mbind run_bind]. destruct d as [path [|l k' v p a b]]; cbn [fst snd from] in *.
  - rewrite (Hsel eq_refl). destruct (popSelection_ok path E s Hp Hs) as (s'&->&H1). cbn [mbind run_bind]. by exists (selection path).1, s'.
  - cbn [mbind run_bind]. exists (Some l), s. split; [done|]. cbn. by exists path, l, p, a, b.
Qed.

Lemma place_keys exact k t path : sorted t → (∀ x, x ∈ (before path).*1 → reached exact k x = false) → (∀ x, x ∈ (after path).*1 → reached exact k x = true) →
  let d := placeOf exact k t path in
  filter (fun e => reached exact k e.1 = true) (before path ++ entries t ++ after path) = from d.1 d.2.
Proof.
  unfold sorted, keys. revert path. induction t as [|l k' v p a IHa b IHb]; intros path Hs Hb Ha; cbn [placeOf].
  - cbn. rewrite filter_app, filter_none, filter_keep; [done| |].
    + intros e He. apply Ha. apply list_elem_of_fmap. by exists e.
    + intros e He. rewrite Hb; [done|]. apply list_elem_of_fmap. by exists e.
  - cbn in Hs. rewrite fmap_app in Hs. cbn in Hs. apply sorted_mid in Hs as (Hs&H1&H2). apply sorted_app in Hs as (Hsa&Hsb&_).
    assert (∀ x y, lt x y → reached exact k y = false → reached exact k x = false) as Hdown.
    { unfold reached. intros x y Hxy. destruct (compare_spec y k) as [->|Hy|Hy]; [|intros _|done].
      - intros _. unfold lt in Hxy. by rewrite Hxy.
      - pose proof (lt_trans _ _ _ Hxy Hy) as Hlt. unfold lt in Hlt. by rewrite Hlt. }
    assert (∀ x y, lt y x → reached exact k y = true → reached exact k x = true) as Hup.
    { intros x y Hxy Hy. destruct (reached exact k x) eqn:Ex; [done|]. by rewrite (Hdown _ _ Hxy Ex) in Hy. }
    set (fR := {| onLeft := false; fl := l; fk := k'; fv := v; fp := p; sib := a |}). set (fL := {| onLeft := true; fl := l; fk := k'; fv := v; fp := p; sib := b |}).
    assert (reached exact k k' = false → filter (fun e => reached exact k e.1 = true) (before path ++ (entries a ++ (k', v) :: entries b) ++ after path) =
      from (placeOf exact k b (fR :: path)).1 (placeOf exact k b (fR :: path)).2) as HR.
    { intros Hk. rewrite <-(IHb (fR :: path)); [cbn; f_equal; by rewrite <-!app_assoc|done| |done].
      intros x Hx. cbn in Hx. rewrite !fmap_app in Hx. cbn in Hx. apply elem_of_app in Hx as [Hx|Hx]; [by apply Hb|]. apply elem_of_app in Hx as [Hx|Hx%list_elem_of_singleton]; [|by subst].
      apply (Hdown x k'); [by apply H1|done]. }
    unfold reached in HR at 1. rewrite (compare_flip k k') in HR. destruct (compare_spec k k') as [->|Hlt|Hgt]; cbn in HR.
    + destruct exact; [|by apply HR]. cbn [fst snd from entries].
      assert (∀ x, lt x k' → reached true k' x = false) as Hf by (intros x Hx; unfold lt in Hx; unfold reached; by rewrite Hx).
      rewrite !filter_app, filter_cons_True by (unfold reached; by rewrite compare_refl). rewrite (filter_none _ (before path)), (filter_none _ (entries a)), (filter_keep _ (entries b)), (filter_keep _ (after path)); [done| | | |].
      * intros e He. apply Ha. apply list_elem_of_fmap. by exists e.
      * intros e He. apply (Hup _ k'); [apply H2; apply list_elem_of_fmap; by exists e|]. unfold reached. by rewrite compare_refl.
      * intros e He. rewrite Hf; [done|]. apply H1. apply list_elem_of_fmap. by exists e.
      * intros e He. rewrite Hb; [done|]. apply list_elem_of_fmap. by exists e.
    + assert (reached exact k k' = true) as Hk by (unfold reached; rewrite (compare_flip k k'); unfold lt in Hlt; by rewrite Hlt).
      rewrite <-(IHa (fL :: path)); [|done| |].
      * cbn. rewrite app_nil_r. f_equal. cbn. by rewrite <-!app_assoc.
      * intros x Hx. cbn in Hx. rewrite app_nil_r in Hx. by apply Hb.
      * intros x Hx. cbn in Hx. apply elem_of_cons in Hx as [->|Hx]; [done|]. rewrite fmap_app in Hx. apply elem_of_app in Hx as [Hx|Hx]; [|by apply Ha].
        apply (Hup x k'); [by apply H2|done].
    + by apply HR.
Qed.

End forward.

(** ** Iterating

    The loop [for iter.Next() { ... iter.Key(), iter.Value() ... }] *)

Fixpoint collect (fuel : nat) (it : Iterator) (m : memory) : run (list (option bytes * option bytes)) :=
  match fuel with
  | O => NoFuel
  | S fuel =>
      '(ok, it) ← Next it m;
      if ok : bool then (k ← Key it m; v ← Value it m; rest ← collect fuel it m; Done ((k, v) :: rest)) else Done []
  end.

(** The range of an iterator: the start belongs to it, the limit does not. *)
Definition inRange (start limit : option bytes) (k : bytes) : bool :=
  match start with Some s => negb (isLess (Compare k s)) | None => true end && match limit with Some e => isLess (Compare k e) | None => true end.

Definition asRead (es : list (bytes * bytes)) : list (option bytes * option bytes) := (fun e => (Some e.1, Some e.2)) <$> es.

Section collect.
Context (m : memory) (tr : tree) (Hh : holds (cells m) tr) (Hn : NoDup (locs tr)).

(** What comes after a step that leads to the entries [rem] *)
Definition continue (fuel : nat) (r : run (bool * Iterator)) : run (list (option bytes * option bytes)) :=
  '(ok, it) ← r;
  if ok : bool then (k ← Key it m; v ← Value it m; rest ← collect fuel it m; Done ((k, v) :: rest)) else Done [].

Lemma collect_rest it rem fuel : positioned tr (node it) (parents it) rem → isNew it = false → seekKey it = None →
  StronglySorted lt rem.*1 → (∀ x, x ∈ rem.*1 → match startKey it with Some s => isLess (Compare x s) = false | None => True end) → (length rem ≤ fuel)%nat →
  continue fuel (limitIterator it m) = Done (asRead (filter (fun e => inRange (startKey it) (limitKey it) e.1 = true) rem)).
Proof.
  revert it fuel. induction rem as [|[k v] rem IH]; intros it fuel Hpos Hnew Hseek Hs Hst Hf.
  { cbn in Hpos. unfold continue, limitIterator. rewrite Hpos. done. }
  pose proof Hpos as (path&l&p&a&b&Hp&Hnode&Hstk&Hrem). symmetry in Hp. pose proof (sub_holds m tr Hh _ _ Hp) as (Hl&_).
  unfold limitIterator. rewrite Hnode. unfold at_. rewrite Hl. cbn [of_option mbind run_bind cell key].
  assert (match startKey it with Some s => isLess (Compare k s) | None => false end = false) as -> by (specialize (Hst k ltac:(left)); by destruct (startKey it)).
  cbn [orb]. cbn in Hs. apply StronglySorted_inv in Hs as [Hs Hk]. rewrite Forall_forall in Hk.
  destruct (match limitKey it with Some k0 => negb (isLess (Compare k k0)) | None => false end) eqn:El.
  - rewrite filter_none; [done|]. intros e He. unfold inRange. destruct (limitKey it) as [q|]; [|done]. apply negb_true_iff in El.
    assert (isLess (Compare e.1 q) = false) as ->; [|by rewrite andb_false_r]. apply elem_of_cons in He as [->|He]; [done|].
    assert (lt k e.1) as Hke by (apply Hk; apply list_elem_of_fmap; by exists e). destruct (compare_spec e.1 q) as [|Hq|]; [done| |done].
    pose proof (lt_trans _ _ _ Hke Hq) as Hkq. unfold lt in Hkq. by rewrite Hkq in El.
  - cbn [continue mbind run_bind]. unfold continue. cbn [mbind run_bind]. unfold Key, Value. rewrite Hnode. unfold at_. rewrite Hl. cbn [of_option mbind run_bind cell key value].
    destruct fuel as [|fuel]; [cbn in Hf; lia|]. cbn [collect]. unfold Next. rewrite Hnew, Hnode, Hseek.
    destruct (move_ok m tr Hh Hn it k v rem Hpos) as (n&s&->&Hpos').
    assert (continue fuel (limitIterator (set_parents s (set_node n it)) m) =
      Done (asRead (filter (fun e => inRange (startKey it) (limitKey it) e.1 = true) rem))) as Hc.
    { apply (IH (set_parents s (set_node n it)) fuel); try done; [|cbn in Hf; lia]. intros x Hx. apply Hst. by right. }
    unfold continue in Hc. rewrite Hc. cbn [mbind run_bind]. rewrite filter_cons_True; [done|]. unfold inRange. cbn.
    specialize (Hst k ltac:(left)). destruct (startKey it); [rewrite Hst|]; cbn; (destruct (limitKey it); [by apply negb_false_iff in El|done]).
Qed.

Lemma collect_ok mut start limit : sorted tr → start ≠ None ∨ limit = None →
  collect (S (fuelOf m)) (newIterator mut (ptr tr) start limit) m = Done (asRead (filter (fun e => inRange start limit e.1 = true) (entries tr))).
Proof.
  intros Hs Hor. pose proof (locs_size _ _ Hh Hn) as Hsz. rewrite <-length_entries in Hsz. cbn [collect]. unfold Next. cbn [newIterator isNew]. unfold First. cbn [set_isNew startKey newIterator].
  destruct start as [s0|].
  - set (it := set_isNew false (newIterator mut (ptr tr) (Some s0) limit)). destruct (seek_ok m tr Hh Hn it true s0 eq_refl) as (n&s&->&Hpos).
    pose proof (place_keys true s0 tr [] Hs ltac:(by intros x ?%elem_of_nil) ltac:(by intros x ?%elem_of_nil)) as Hrem. cbn [before after app] in Hrem. rewrite app_nil_r in Hrem.
    rewrite <-Hrem in Hpos. set (rem := filter (fun e => reached true s0 e.1 = true) (entries tr)) in *.
    assert (∀ x, reached true s0 x = negb (isLess (Compare x s0))) as Hre by (intros x; unfold reached; by destruct (Compare x s0)).
    pose proof (collect_rest (set_parents s (set_node n it)) rem (fuelOf m) Hpos eq_refl eq_refl) as Hc. unfold continue in Hc. rewrite Hc; clear Hc.
    + cbn. f_equal. unfold asRead. f_equal. unfold rem. rewrite list_filter_filter. apply list_filter_iff. intros e. rewrite Hre. unfold inRange. rewrite andb_true_iff. tauto.
    + unfold rem. unfold sorted, keys in Hs. clear -Hs. induction (entries tr) as [|e es IH]; [constructor|]. cbn in Hs. apply StronglySorted_inv in Hs as [Hs He].
      rewrite filter_cons. case_decide; [|by apply IH]. cbn. constructor; [by apply IH|]. rewrite Forall_forall in He |- *. intros x Hx. apply He.
      apply list_elem_of_fmap in Hx as (y&->&[_ Hy]%list_elem_of_filter). apply list_elem_of_fmap. by exists y.
    + cbn. intros x Hx. unfold rem in Hx. apply list_elem_of_fmap in Hx as (y&->&[Hy _]%list_elem_of_filter). rewrite Hre in Hy. by apply negb_true_iff.
    + unfold rem. pose proof (length_filter (fun e => reached true s0 e.1 = true) (entries tr)). unfold fuelOf. lia.
  - destruct Hor as [Hor|Hor]; [done|subst limit]. cbn [root set_isNew newIterator].
    rewrite (filter_keep _ (entries tr)) by done. assert (tr = E ∨ tr ≠ E) as [He|Hne] by (clear; destruct tr; [by left|by right]); [by rewrite He|].
    destruct (extreme_ok m tr Hh tr [] emptyStack (fuelOf m)) as (l'&s'&->&Hpos); [done|done|apply stacked_empty|rewrite length_entries in Hsz; unfold fuelOf; lia|].
    cbn [mbind run_bind]. cbn [after] in Hpos. rewrite app_nil_r in Hpos. set (it := set_node (Some l') (set_parents s' (set_isNew false (newIterator mut (ptr tr) None None)))).
    pose proof (collect_rest it (entries tr) (fuelOf m) Hpos eq_refl eq_refl Hs) as Hc. rewrite (filter_keep _ (entries tr)) in Hc by done. rewrite <-Hc; [|done|unfold fuelOf; lia].
    unfold continue, limitIterator. cbn [node it set_node]. assert (is_Some (cells m !! l')) as [nd Hnd].
    { clear -Hpos Hh. destruct (entries tr) as [|[k' v'] es]; [done|]. destruct Hpos as (path&l0&p'&a'&b'&Hp'&[= ->]&_). symmetry in Hp'. destruct (sub_holds m tr Hh _ _ Hp') as (Hl&_). by eexists. }
    unfold at_. rewrite Hnd. done.
Qed.

End collect.

(** C23 (functional).  Iterating over a version with [Next] returns the entries of the range
    in ascending order, each once, and ends; if a start was given or no limit was. *)
Theorem iterate_range (m : memory) (t : ImmutableTreap.Immutable) (tr : tree) (start limit : option bytes) :
  ImmutableTreap.version m t tr → start ≠ None ∨ limit = None →
  collect (S (fuelOf m)) (immutableIterator t start limit) m = Done (asRead (filter (fun e => inRange start limit e.1 = true) (entries tr))).
Proof.
  intros [Hr Hh Hn _ Hs _] Hor. unfold immutableIterator. rewrite Hr. by apply collect_ok.
Qed.

End TreapIter.
