(* ===== verification/TreapRuns.v ===== *)
(** * TreapRuns: runs of the treaps

    Concrete calls of the operations of the treaps, for the theorems about them. *)

From Stdlib Require Import Sorted.
From S2P Require Import Prelude Treap TreapTree MutableTreap ImmutableTreap TreapIter.

Module TreapRuns.
Import Treap TreapTree.

(** Priorities 7, 6, 5, ..., and a pool that returns the node it got last *)
#[local] Instance runtime : Runtime :=
  {| randInt := fun n => 7 - Z.of_nat n; poolGet := fun l => match l with [] => None | _ => Some 0%nat end |}.

Definition key1 : bytes := [z2b 1].
Definition key2 : bytes := [z2b 2].
Definition key3 : bytes := [z2b 3].

(** Three entries: priorities 1 and 2 below 0 *)
Definition three : tree := T 2 key2 key2 0 (T 1 key1 key1 1 E E) (T 3 key3 key3 2 E E).

Definition mem3 : memory :=
  {| cells := list_to_map [(1%positive, cell key1 key1 1 None None); (2%positive, cell key2 key2 0 (Some 1%positive) (Some 3%positive));
                           (3%positive, cell key3 key3 2 None None)];
     pool := []; draws := 0 |}.

Definition treap3 : MutableTreap.Mutable := {| MutableTreap.root := Some 2%positive; MutableTreap.count := 3; MutableTreap.totalSize := 222 |}.
Definition version3 : ImmutableTreap.Immutable := {| ImmutableTreap.root := Some 2%positive; ImmutableTreap.count := 3; ImmutableTreap.totalSize := 222 |}.

Lemma three_holds : holds (cells mem3) three.
Proof. vm_compute. repeat split. Qed.

Lemma three_nodup : NoDup (locs three).
Proof. apply (bool_decide_unpack _). vm_compute. exact I. Qed.

Lemma three_live : live mem3 (locs three).
Proof. intros x Hx. split; [by eapply holds_dom; [exact three_holds|]|apply not_elem_of_nil]. Qed.

Lemma three_sorted : sorted three.
Proof. unfold sorted. repeat constructor. Qed.

Lemma three_counted : counted 3 222 (content three).
Proof. split; vm_compute; reflexivity. Qed.

Lemma three_tracks : MutableTreap.tracks mem3 treap3 three.
Proof. split; [done|exact three_holds|exact three_nodup|exact three_live|exact three_sorted|exact three_counted]. Qed.

Lemma three_version : ImmutableTreap.version mem3 version3 three.
Proof. split; [done|exact three_holds|exact three_nodup|exact three_live|exact three_sorted|exact three_counted]. Qed.

Lemma mutable_put_refines_witness : ∃ t' m' tr', MutableTreap.Put treap3 [z2b 9] None mem3 = Done (t', m') ∧
  MutableTreap.tracks m' t' tr' ∧ content tr' = <[[z2b 9] := []]> (content three).
Proof.
  destruct (MutableTreap.mutable_put_refines mem3 treap3 three [z2b 9] None (NoDup_nil_2) three_tracks) as (t'&m'&tr'&H1&_&H2&H3&_).
  exists t', m', tr'. split; [exact H1|]. split; [exact H2|exact H3].
Defined.

Lemma mutable_delete_refines_witness : ∃ t' m' tr', MutableTreap.Delete treap3 key2 mem3 = Done (t', m') ∧
  MutableTreap.tracks m' t' tr' ∧ content tr' = delete key2 (content three).
Proof.
  destruct (MutableTreap.mutable_delete_refines mem3 treap3 three key2 three_tracks) as (t'&m'&tr'&H1&_&H2&H3&_).
  exists t', m', tr'. split; [exact H1|]. split; [exact H2|exact H3].
Defined.

(** Two pairs, so that the nodes of the version in between are recycled *)
Definition pairs : list ImmutableTreap.KVPair :=
  [{| ImmutableTreap.Key := key1; ImmutableTreap.Value := None |}; {| ImmutableTreap.Key := [z2b 9]; ImmutableTreap.Value := Some key1 |}].

Lemma immutable_put_refines_witness : ∃ t' m' tr', ImmutableTreap.Put version3 pairs mem3 = Done (t', m') ∧
  ImmutableTreap.version m' t' tr' ∧ content tr' = ImmutableTreap.putPairs (content three) pairs ∧ ImmutableTreap.version m' version3 three.
Proof.
  destruct (ImmutableTreap.immutable_put_refines mem3 version3 three pairs NoDup_nil_2 three_version) as (t'&m'&tr'&H1&_&H2&H3&_&H4).
  exists t', m', tr'. split; [exact H1|]. split; [exact H2|]. split; [exact H3|]. apply H4. exact three_version.
Defined.

Lemma immutable_delete_refines_witness : ∃ t' m' tr', ImmutableTreap.Delete version3 key2 mem3 = Done (t', m') ∧
  ImmutableTreap.version m' t' tr' ∧ content tr' = delete key2 (content three) ∧ ImmutableTreap.version m' version3 three.
Proof.
  destruct (ImmutableTreap.immutable_delete_refines mem3 version3 three key2 NoDup_nil_2 three_version) as (t'&m'&tr'&H1&_&H2&H3&H4).
  exists t', m', tr'. split; [exact H1|]. split; [exact H2|]. split; [exact H3|]. apply H4. exact three_version.
Defined.

Lemma iterate_range_witness :
  TreapIter.collect (S (fuelOf mem3)) (TreapIter.immutableIterator version3 (Some key2) (Some key3)) mem3 = Done [(Some key2, Some key2)].
Proof.
  rewrite (TreapIter.iterate_range mem3 version3 three (Some key2) (Some key3) three_version); [vm_compute; reflexivity|left; discriminate].
Defined.

(** Deleting the root, whose children have the priorities 1 and 2 *)
Lemma delete_heap_order_witness : ∃ t' m' tr', MutableTreap.Delete treap3 key2 mem3 = Done (t', m') ∧
  MutableTreap.tracks m' t' tr' ∧ minHeap three ∧ ¬ minHeap tr'.
Proof.
  assert (minHeap three) as Hm by (cbn; lia).
  destruct (MutableTreap.delete_heap_order mem3 treap3 three key2 [] 2 key2 key2 0 (T 1 key1 key1 1 E E) (T 3 key3 key3 2 E E) three_tracks Hm eq_refl)
    as (t'&m'&tr'&H1&H2&_&H3).
  exists t', m', tr'. split; [exact H1|]. split; [exact H2|]. split; [exact Hm|]. by apply (H3 1 2).
Defined.

(** Both treaps do this: after the root of a tree in heap order with the priorities 1 and 2
    below 0 was deleted, priority 2 is above priority 1. *)
Lemma delete_breaks_heap_run :
  minHeap three ∧
  (∃ t m tr, MutableTreap.Delete treap3 key2 mem3 = Done (t, m) ∧ MutableTreap.root t = ptr tr ∧ holds (cells m) tr ∧ ¬ minHeap tr) ∧
  ∃ t m tr, ImmutableTreap.Delete version3 key2 mem3 = Done (t, m) ∧ ImmutableTreap.root t = ptr tr ∧ holds (cells m) tr ∧ ¬ minHeap tr.
Proof.
  split; [cbn; lia|]. split.
  - eexists _, _, (T 3 key3 key3 2 (T 1 key1 key1 1 E E) E). split; [vm_compute; reflexivity|]. split; [reflexivity|]. split; [vm_compute; repeat split|]. cbn. lia.
  - eexists _, _, (T 5 key3 key3 2 (T 6 key1 key1 1 E E) E). split; [vm_compute; reflexivity|]. split; [reflexivity|]. split; [vm_compute; repeat split|]. cbn. lia.
Qed.

(** Without a start key, the first step of an iterator does not look at the limit: the
    iterator up to the limit 1 over the keys 1, 2 and 3 returns the key 1. *)
Lemma first_ignores_limit :
  TreapIter.collect 9 (TreapIter.immutableIterator version3 None (Some key1)) mem3 = Done [(Some key1, Some key1)] ∧
  filter (fun e => TreapIter.inRange None (Some key1) e.1 = true) (entries three) = [].
Proof. split; vm_compute; reflexivity. Qed.

End TreapRuns.
